(* ===== verification/_CoqProject ===== *)
-Q . S2P
Prelude.v
Text.v
Cohort.v
Permission.v
CohortSizing.v
Sealing.v
Utf8.v
Segment.v
Ledger.v
Breakpoints.v
Table.v
Store.v
Blackboard.v
Money.v
Lineage.v
Event.v
Ephemeral.v
EventBus.v
Turn.v
FileSystem.v
Traced.v
Journal.v
Canonical.v
Tool.v
Vector.v
Config.v
Guard.v
Piped.v
Framing.v
Language.v
Lsp.v
Dap.v
Checkpoint.v
Session.v
Provider.v
Sse.v
Anthropic.v
Google.v
OpenAi.v
Llm.v
Hook.v
Command.v
Graph.v
Secrets.v
Mcp.v
Redact.v
Sink.v
Update.v
Introspect.v
Syntax.v
Ast.v
Digest.v
VectorIndex.v
Retrieve.v
Skill.v
Scan.v
Shell.v
Sandbox.v
Plugin.v
Tui.v
Economy.v
Runtime.v
Native.v
Connection.v
Cli.v
