(* ===== verification/Prelude.v ===== *)
(** * A verification of supra-harness

    supra-harness is a Rust workspace that drives language-model agents: a turn is
    proposed by one agent, judged by a cohort of validators, sealed into an
    append-only prompt ledger and stored; tools run behind a permission gate, a guard
    against self-spawning and an undo journal; providers, language servers and debug
    adapters are spoken to over streams.  This library models those parts from the
    source under [crates/] and proves what makes each of them correct.  Definitions
    keep the names of the code; every one of them is executable once its parameters
    are instantiated.

    ** The files

    - Shared: this file ([result] with its bind for [?], machine integers, list lemmas,
      [guards] and [to_prop] for the case analysis of a function's early returns, the
      hint database [supra]); Text.v (numerals, splitting bytes); Utf8.v ([str]'s
      methods on characters); Sealing.v (content hashes and the canonical encoding,
      BLAKE3 a parameter, and which texts collide); FileSystem.v (names, inodes, handles, atomic creation and
      rename); Traced.v (programs that can be cut short after any step, and their
      specification [runs]); Table.v (the interface [Table]/[TableLaws] to a keyed SQL
      table, with [gmap] as an instance); Framing.v (Content-Length frames); Piped.v (a pipe read
      under a deadline).

    - Agreement: Cohort.v ([supra_types/cohort.rs]: quorum, tiers, tally, verdict
      budget), CohortSizing.v ([supra_cohort]: signals, ladder, admission, profiles),
      Lineage.v, Blackboard.v ([supra_blackboard]: claims, rosters, votes, recovery
      from the database), Turn.v ([supra_core/turn.rs]: the choreography over the
      board and the ledger), Event.v, EventBus.v ([supra_eventbus]: bounded rings
      whose every loss is counted).

    - Memory: Segment.v, Ephemeral.v, Ledger.v ([supra_prompt]: appends, snapshots,
      seals, generation rewrites), Breakpoints.v (cache breakpoints, eviction), Store.v
      ([supra_store]: migrations, evicted turns and their recall), Connection.v (opening
      a store, its modes, pragmas and transactions), Session.v and Checkpoint.v
      ([supra_session]: versioned checkpoints and their commits), Money.v.

    - Code and search: Language.v, Syntax.v (the symbols of a syntax tree), Ast.v
      ([supra_ast]: outlines, renames, replaced nodes), Digest.v ([supra_digest]: the
      index, its scan and its events), Graph.v (imports and blast radius), Vector.v and
      VectorIndex.v ([supra_vector]: codes, rank fusion, the index, its handles and its
      cache), Retrieve.v (the digest's answer to a task, over both), Introspect.v
      ([supra_introspector]: findings, gates and the comparison of
      peers).

    - Safety: Permission.v ([supra_permission]: axes, rules, gate, batches of
      questions), Guard.v ([supra_guard]: the seven layers), Sandbox.v
      ([supra_sandbox] with [supra_ffi/sandbox.rs] and the constructors of the native
      policy: policies, the audit of descriptors, spawning, which asks for no consent),
      Plugin.v ([supra_plugin]: what a component is offered and its calls),
      Journal.v ([supra_journal]: snapshots and crash-safe undo), Config.v
      ([supra_config]: layers, what a project's file may set, endpoints, credentials),
      Secrets.v ([supra_secrets]: the vault and the manager), Redact.v and Sink.v
      ([supra_log]: credentials in a line, rotation and loss), Update.v ([supra_update]:
      verified bundles and their installation).

    - Tools and surfaces: Canonical.v (canonical JSON and the duplicate-key scan),
      Tool.v ([supra_tool]: schemas and the frozen registry), Lsp.v and Dap.v
      ([supra_lsp], [supra_dap]: the clients over their pipes), Mcp.v ([supra_mcp]: the
      transports, the probe and the gateway), Hook.v ([supra_hook]), Command.v
      ([supra_command]), Skill.v ([supra_skill]: parsing, requirements, hot reload),
      Scan.v (the escape-sequence scanner of [libsupra_ansi], and what chunks do to it),
      Shell.v ([supra_shell]: the shaping of a session's output, byte by byte).

    - Providers, all [supra_llm]: Provider.v (policies, requests, rendered bodies,
      content blocks), Sse.v (cutting a response into events), Anthropic.v, Google.v
      and OpenAi.v (the transports), Llm.v (the call: checks, endpoint, credential).

    - The program: Tui.v ([supra_theme], [supra_tui] and [supra_cli/render.rs]: what is
      drawn), Economy.v ([supra_eval]: costs and the shape of a tier table, in binary64
      arithmetic of the Standard Library's SpecFloat), Runtime.v ([supra_cli/runtime.rs]:
      one turn, with its cohort, its retries and its session), Cli.v (the flags, the
      interactive loop, the live probe, [supra_telemetry]), Native.v ([supra_ffi]: what
      the wrappers do with the answers of the native libraries and the kernel).

    Components call each other as in the code: Turn.v runs on Blackboard.v, which uses
    Cohort.v and Store.v's schema, and on Ledger.v; Llm.v composes the transports, which
    are over Sse.v and Provider.v; Runtime.v composes Turn.v, the bus, hooks, sessions
    and a provider to one run of the program, and Cli.v runs it in a loop; Retrieve.v
    composes the digest and the vector index; Sandbox.v spawns behind Guard.v; Shell.v
    shapes the tokens of Scan.v; Lsp.v and
    Dap.v are over Framing.v, which is over Piped.v; everything durable is proved against
    [Table], FileSystem.v or Traced.v.

    ** How effects are modelled

    A state is a record, an operation a function from the state and its arguments to
    the new state and a [result].  What the environment decides is an argument: the
    [io] arguments say which system call or statement fails, [fresh] is a generated
    identifier, clocks are numbers.  Cryptography, JSON and TOML text, HTTP, tree
    parsers and SQL are parameters of Sections, with the documented behaviour a
    theorem needs as a named hypothesis, and every such theorem has a witness where
    the parameters are concrete functions.  Concurrency is a sequence of atomic steps
    wherever a lock or a system call makes it so (EventBus.v, Journal.v, Session.v,
    VectorIndex.v); the validators of a turn are lists of what they do, and a schedule
    says which moves next (Runtime.v).  A crash is a state of the trace (Traced.v,
    Secrets.v, Update.v, Sink.v, Cli.v, Connection.v).
    Integers that can overflow are [Z] with the abort of [overflow-checks = true] as
    [None]; saturating and clamping operations are written out.

    ** The theorems

    - Agreement: [tally_status_exact], [vote_exact], [board_verdicts_sound],
      [board_crash_recovery] (what a restart reads back is what the board was),
      [turn_transcript_exact], [quorum_system_sound]; and of a whole run of the program
      [answer_needs_quorum] (safety) and [unanimous_cohort_answers] (liveness), under
      every schedule of the validators.
    - Memory: [ledger_append_only], [generation_seal_tamper_evident] and
      [segment_canonical_injective] (where the texts that were hashed do not collide; if
      two do, they are named), [evict_recall_lossless] (without any such condition),
      [migrations_applied_once], [open_private],
      [transactions_refine], [checkpoint_commit_exact], [checkpoint_no_lost_update],
      [session_grows_by_the_answer].
    - Code and search: [digest_follows], [scan_exact], [dependents_exact],
      [rename_exact], [replace_node_exact], [index_answers_exact], [cache_lru],
      [code_table_refines], [retrieve_gives_back].
    - Safety: [gate_run_iff], [guard_verdict_exact], [spawn_gated], [policy_fits],
      [plugin_confined], [undo_exact], [undo_crash_atomic], [project_layer_confined],
      [credential_confined], [vault_history_exact], [vault_locked_out], [redact_exact],
      [log_history_exact], [update_authentic].
    - Streams: [piped_reader_refines] and [sse_chunks_irrelevant] (how bytes are cut
      cannot be observed), [transcript_exact] (the same, of UTF-8; [cut_changes_meaning]
      is how it fails of other bytes), [lsp_answer_exact], [dap_handshake_completes],
      [stdio_answer_exact], [anthropic_stream_exact], [openai_replay_exact].
    - Surfaces: [canonical_text_exact], [duplicate_scan_exact], [tool_invoke_exact],
      [hooks_fire_exact], [skills_follow], [requirements_exact], [bus_losses_accounted],
      [status_line_exact], [frame_exact], [only_tasks_are_billed], [flags_in_force],
      [consent_durable], [token_views_exact], [clusters_exact], [pty_open_exact].
    Beside these, each file proves the facts of its component that the list above
    does not need, and small lemmas on concrete inputs that show where the code and
    its documents differ.

    ** Fuel and bounds

    Loops that are not structural take fuel and are shown not to run out: the
    duplicate-key scanner has twice the length of the text plus two, the readers of
    Framing.v and of the clients one more than the bytes left, the event cutter the
    length of its buffer, module resolution the length of the name, the blast radius
    one more than the number of edges, the project walk two more than the components of
    the path, the scan of a tree its size, the collection of votes what the validators
    have left to do (every step uses up an effect or a task), the clusters of a text one
    more than its bytes, the tokens of a buffer two more than its bytes (Scan.v) or than
    what its scanner has ahead (Native.v).
    The retry constants of the code ([CREATE_ATTEMPTS], [OPEN_ATTEMPTS],
    [MAX_PROVIDER_ATTEMPTS]) are the code's own bounds.  Sequence and generation numbers
    of the ledger are unbounded: [u64::MAX] appends are out of reach.  Lines and
    characters sent to a language server are below 2^32, as the clamping in the code
    makes them.

    ** Not modelled

    - Code that is not the project's: SQLite, HTTP and TLS, the parsers of JSON, TOML and
      source code, the WebAssembly engine, the vendored SDK; each is a parameter where a
      component uses it.
    - The C++ libraries of [supra_ffi] (widths, styles, cutting a line, the sandbox's side
      of the kernel) but for the scanner (Scan.v) and the constructors of a sandbox policy
      (Sandbox.v): what they answer is a parameter, what is made of it is modelled.  A
      token's parameters and payload, which decide no token, are left out of the scanner.
    - Declarations without behaviour: [supra_ffi/sys.rs], build scripts, re-exports, and
      the wrappers that keep a secret in memory and wipe it.
    - The definition of the command line for its parser, the set-up of the logger, the
      printing of [supra update], and the prompt of the interactive loop.
    - Floating-point similarity and its statistics (a parameter of VectorIndex.v), the
      rendering of ULIDs, and the text of error messages beyond what names something.
*)

From stdpp Require Export base tactics numbers list list_numbers strings gmap sorting.
From Stdlib Require Export Lia ZifyNat ZifyN ZifyBool.
From Stdlib Require Import ZArith.

#[export] Set Warnings "-clear-no-such-hyp".

#[global] Arguments Nat.leb : simpl never.
#[global] Arguments Nat.ltb : simpl never.
#[global] Arguments Nat.eqb : simpl never.
#[global] Arguments Nat.div : simpl never.
#[global] Arguments Nat.modulo : simpl never.
#[global] Arguments Z.leb : simpl never.
#[global] Arguments Z.ltb : simpl never.
#[global] Arguments Z.eqb : simpl never.

(** Division and remainder by constants inside [lia]. *)
Ltac Zify.zify_post_hook ::= Z.to_euclidean_division_equations.

(** ** Fallible computations

    Rust's [Result<A, E>]: [?] is the bind below. *)
Inductive result (A E : Type) : Type :=
| Ok (a : A)
| Err (e : E).
Arguments Ok {A E} a.
Arguments Err {A E} e.

#[export] Instance result_eq_dec `{EqDecision A, EqDecision E} : EqDecision (result A E).
Proof. solve_decision. Defined.

Definition result_bind {A B E} (m : result A E) (f : A → result B E) : result B E :=
  match m with
  | Ok a => f a
  | Err e => Err e
  end.

(** Rust's [Result::map_err]. *)
Definition map_err {A E F} (f : E → F) (m : result A E) : result A F :=
  match m with
  | Ok a => Ok a
  | Err e => Err (f e)
  end.

(** Rust's [Option::ok_or]. *)
Definition ok_or {A E} (o : option A) (e : E) : result A E :=
  match o with
  | Some a => Ok a
  | None => Err e
  end.

Definition is_ok {A E} (m : result A E) : bool :=
  match m with Ok _ => true | Err _ => false end.

(** Rust's [Result::ok]. *)
Definition to_option {A E} (r : result A E) : option A :=
  match r with Ok a => Some a | Err _ => None end.

Lemma to_option_Some {A E} (r : result A E) a : to_option r = Some a ↔ r = Ok a.
Proof. destruct r; naive_solver. Qed.

Declare Scope supra_scope.
Delimit Scope supra_scope with supra.
Notation "'let?' x := m 'in' k" := (result_bind m (λ x, k))
  (at level 10, x binder, m at level 200, k at level 200,
   format "'[v' 'let?'  x  :=  m  'in' '/' k ']'") : supra_scope.
Open Scope supra_scope.

Lemma result_bind_Ok {A B E} (m : result A E) (f : A → result B E) b :
  result_bind m f = Ok b ↔ ∃ a, m = Ok a ∧ f a = Ok b.
Proof. destruct m; simpl; naive_solver. Qed.

Lemma ok_or_Ok {A E} (o : option A) (e : E) a : ok_or o e = Ok a ↔ o = Some a.
Proof. destruct o; simpl; naive_solver. Qed.

Lemma map_err_Ok {A E F} (f : E → F) (m : result A E) a :
  map_err f m = Ok a ↔ m = Ok a.
Proof. destruct m; simpl; naive_solver. Qed.

(** ** Case analysis on the code's guards

    [guard_step] splits the first [if], [match] or bind the goal or a
    hypothesis is blocked on, and simplifies what each branch knows. *)
Ltac guard_step :=
  match goal with
  | H : result_bind _ _ = Ok _ |- _ => apply result_bind_Ok in H as (? & ? & ?)
  | H : ok_or _ _ = Ok _ |- _ => apply ok_or_Ok in H
  | H : map_err _ _ = Ok _ |- _ => apply map_err_Ok in H
  | _ => progress case_decide
  | _ => progress case_match
  end; simplify_eq/=.
Ltac guards := repeat guard_step.

(** Turn boolean comparisons and decisions into propositions. *)
Ltac to_prop :=
  repeat match goal with
  | H : (_ <=? _) = true |- _ => apply Nat.leb_le in H
  | H : (_ <=? _) = false |- _ => apply Nat.leb_gt in H
  | H : (_ <? _) = true |- _ => apply Nat.ltb_lt in H
  | H : (_ <? _) = false |- _ => apply Nat.ltb_ge in H
  | H : (_ =? _) = true |- _ => apply Nat.eqb_eq in H
  | H : (_ =? _) = false |- _ => apply Nat.eqb_neq in H
  | H : (_ <=? _)%Z = true |- _ => apply Z.leb_le in H
  | H : (_ <=? _)%Z = false |- _ => apply Z.leb_gt in H
  | H : (_ <? _)%Z = true |- _ => apply Z.ltb_lt in H
  | H : (_ <? _)%Z = false |- _ => apply Z.ltb_ge in H
  | H : (_ =? _)%Z = true |- _ => apply Z.eqb_eq in H
  | H : (_ =? _)%Z = false |- _ => apply Z.eqb_neq in H
  | H : bool_decide _ = true |- _ => apply bool_decide_eq_true_1 in H
  | H : bool_decide _ = false |- _ => apply bool_decide_eq_false_1 in H
  | H : (_ && _) = true |- _ => apply andb_true_iff in H as [? ?]
  | H : (_ && _) = false |- _ => apply andb_false_iff in H
  | H : (_ || _) = true |- _ => apply orb_true_iff in H
  | H : (_ || _) = false |- _ => apply orb_false_iff in H as [? ?]
  | H : negb _ = true |- _ => apply negb_true_iff in H
  | H : negb _ = false |- _ => apply negb_false_iff in H
  end.

(** ** Machine integers

    Rust builds the program with [overflow-checks = true] in every profile, so
    an addition that leaves its type aborts the process; [None] below is that
    abort.  [saturating_*] and [u32::try_from(..).unwrap_or(u32::MAX)] clamp. *)
Definition u32_max : Z := 4294967295.
Definition u64_max : Z := 18446744073709551615.
Definition i64_min : Z := -9223372036854775808.
Definition i64_max : Z := 9223372036854775807.

Definition in_u32 (x : Z) : bool := (0 <=? x)%Z && (x <=? u32_max)%Z.
Definition in_u64 (x : Z) : bool := (0 <=? x)%Z && (x <=? u64_max)%Z.
Definition in_i64 (x : Z) : bool := (i64_min <=? x)%Z && (x <=? i64_max)%Z.

Definition check_i64 (x : Z) : option Z := if in_i64 x then Some x else None.
Definition check_u64 (x : Z) : option Z := if in_u64 x then Some x else None.
Definition check_u32 (x : Z) : option Z := if in_u32 x then Some x else None.

(** [u32::try_from(x).unwrap_or(u32::MAX)] for a non-negative [x]. *)
Definition clamp_u32 (x : Z) : Z := if (x <=? u32_max)%Z then x else u32_max.

Lemma in_i64_iff x : in_i64 x = true ↔ (i64_min ≤ x ≤ i64_max)%Z.
Proof. unfold in_i64. rewrite andb_true_iff, !Z.leb_le. done. Qed.
Lemma in_u64_iff x : in_u64 x = true ↔ (0 ≤ x ≤ u64_max)%Z.
Proof. unfold in_u64. rewrite andb_true_iff, !Z.leb_le. done. Qed.
Lemma in_u32_iff x : in_u32 x = true ↔ (0 ≤ x ≤ u32_max)%Z.
Proof. unfold in_u32. rewrite andb_true_iff, !Z.leb_le. done. Qed.

Lemma check_i64_Some x y : check_i64 x = Some y ↔ y = x ∧ (i64_min ≤ x ≤ i64_max)%Z.
Proof. unfold check_i64. rewrite <- in_i64_iff. destruct (in_i64 x); naive_solver. Qed.
Lemma check_u64_Some x y : check_u64 x = Some y ↔ y = x ∧ (0 ≤ x ≤ u64_max)%Z.
Proof. unfold check_u64. rewrite <- in_u64_iff. destruct (in_u64 x); naive_solver. Qed.

(** [usize::div_ceil]. *)
Definition div_ceil (a b : nat) : nat :=
  a `div` b + (if 0 <? a `mod` b then 1 else 0).

(** ** Lists *)

(** [slice.iter().position(|x| x == v)]. *)
Fixpoint position {A} `{EqDecision A} (v : A) (l : list A) : option nat :=
  match l with
  | [] => None
  | x :: l => if decide (x = v) then Some 0 else S <$> position v l
  end.

Lemma position_None {A} `{EqDecision A} (v : A) l : position v l = None ↔ v ∉ l.
Proof.
  induction l as [|x l IH]; simpl; [set_solver|].
  case_decide; [set_solver|].
  rewrite fmap_None, IH. set_solver.
Qed.

Lemma position_Some {A} `{EqDecision A} (v : A) l i : position v l = Some i → l !! i = Some v.
Proof.
  revert i; induction l as [|x l IH]; intros i; simpl; [done|].
  case_decide; [naive_solver|].
  rewrite fmap_Some. intros (j & ? & ->). simpl. auto.
Qed.

Lemma position_app {A} `{EqDecision A} (v : A) l k :
  v ∉ l → position v (l ++ v :: k) = Some (length l).
Proof.
  induction l as [|x l IH]; intros Hv; simpl; [by rewrite decide_True|].
  rewrite decide_False by set_solver. rewrite IH by set_solver. done.
Qed.

Lemma position_split {A} `{EqDecision A} (v : A) l i :
  position v l = Some i → l = take i l ++ v :: drop (S i) l ∧ v ∉ take i l.
Proof.
  revert i. induction l as [|x l IH]; intros i; simpl; [done|]. case_decide as Hx.
  - intros [= <-]. subst x. split; [done|]. simpl. set_solver.
  - intros (j & Hj & ->)%fmap_Some. destruct (IH j Hj) as [H1 H2]. simpl.
    split; [by rewrite <- H1|]. set_solver.
Qed.

Fixpoint sum_Z (l : list Z) : Z :=
  match l with
  | [] => 0
  | x :: l => x + sum_Z l
  end.

Lemma sum_Z_app l1 l2 : sum_Z (l1 ++ l2) = (sum_Z l1 + sum_Z l2)%Z.
Proof. induction l1; simpl; lia. Qed.

(** [iter.max_by_key(key)]: the last of the greatest elements. *)
Fixpoint max_by_key {A} (key : A → nat) (l : list A) : option A :=
  match l with
  | [] => None
  | x :: l =>
      match max_by_key key l with
      | None => Some x
      | Some y => Some (if key y <? key x then x else y)
      end
  end.

(** [iter.min_by_key(key)]: the first of the least elements. *)
Fixpoint min_by_key {A} (key : A → nat) (l : list A) : option A :=
  match l with
  | [] => None
  | x :: l =>
      match min_by_key key l with
      | None => Some x
      | Some y => Some (if key y <? key x then y else x)
      end
  end.

Lemma max_by_key_None {A} (key : A → nat) l : max_by_key key l = None ↔ l = [].
Proof. destruct l; simpl; [done|]. by case_match. Qed.

Lemma max_by_key_Some {A} (key : A → nat) l x :
  max_by_key key l = Some x → x ∈ l ∧ ∀ y, y ∈ l → key y ≤ key x.
Proof.
  revert x. induction l as [|a l IH]; intros x; simpl; [done|].
  destruct (max_by_key key l) as [y|] eqn:E.
  - destruct (IH y eq_refl) as [Hin Hmax].
    intros [= <-]. case_match; to_prop; split; try set_solver;
      intros z [->|Hz]%elem_of_cons; try specialize (Hmax z Hz); lia.
  - apply max_by_key_None in E as ->. intros [= <-]. split; [set_solver|].
    intros z Hz%list_elem_of_singleton. by subst.
Qed.

Lemma min_by_key_None {A} (key : A → nat) l : min_by_key key l = None ↔ l = [].
Proof. destruct l; simpl; [done|]. by case_match. Qed.

Lemma min_by_key_Some {A} (key : A → nat) l x :
  min_by_key key l = Some x → x ∈ l ∧ ∀ y, y ∈ l → key x ≤ key y.
Proof.
  revert x. induction l as [|a l IH]; intros x; simpl; [done|].
  destruct (min_by_key key l) as [y|] eqn:E.
  - destruct (IH y eq_refl) as [Hin Hmin].
    intros [= <-]. case_match; to_prop; split; try set_solver;
      intros z [->|Hz]%elem_of_cons; try specialize (Hmin z Hz); lia.
  - apply min_by_key_None in E as ->. intros [= <-]. split; [set_solver|].
    intros z Hz%list_elem_of_singleton. by subst.
Qed.

Lemma sorted_lookup_lt {A} (R : A → A → Prop) l i j x y :
  StronglySorted R l → i < j → l !! i = Some x → l !! j = Some y → R x y.
Proof.
  intros Hs Hij Hx Hy. rewrite <- (take_drop j l) in Hs.
  apply StronglySorted_app in Hs as (Hs & _). apply Hs.
  - apply list_elem_of_lookup. exists i. by rewrite lookup_take_lt.
  - apply list_elem_of_lookup. exists 0. by rewrite lookup_drop, Nat.add_0_r.
Qed.

Lemma submseteq_NoDup {A} (l k : list A) : l ⊆+ k → NoDup k → NoDup l.
Proof. intros (k' & ->)%submseteq_Permutation Hn. by apply NoDup_app in Hn as (? & _). Qed.

(** Filtering commutes with reordering. *)
Lemma filter_perm {A} (f : A → bool) l k : l ≡ₚ k → List.filter f l ≡ₚ List.filter f k.
Proof.
  induction 1 as [|x l k _ IH|x y l|l k m _ IH _ IH']; simpl; [done|..|by etrans].
  - destruct (f x); [by constructor|done].
  - destruct (f x), (f y); try done. by constructor.
Qed.

Lemma filter_sorted {A} (R : A → A → Prop) (f : A → bool) l :
  StronglySorted R l → StronglySorted R (List.filter f l).
Proof.
  induction 1 as [|x l Hl IH Hx]; simpl; [constructor|]. destruct (f x); [|done].
  constructor; [done|]. apply Forall_forall. intros y [Hy _]%list_elem_of_In%filter_In.
  rewrite Forall_forall in Hx. by apply Hx, list_elem_of_In.
Qed.

Lemma filter_sublist {A} (f : A → bool) l : List.filter f l `sublist_of` l.
Proof. induction l as [|x l IH]; simpl; [done|]. destruct (f x); by constructor. Qed.

Lemma filter_submseteq {A} (f : A → bool) l : List.filter f l ⊆+ l.
Proof.
  induction l as [|x l IH]; simpl; [done|].
  destruct (f x); [by apply submseteq_skip|by apply submseteq_cons].
Qed.

(** The iteration order of a [BTreeMap] keyed by numbers. *)
Definition by_key {V} (p q : N * V) : Prop := (p.1 ≤ q.1)%N.

#[export] Instance by_key_dec {V} (p q : N * V) : Decision (by_key p q).
Proof. unfold by_key. apply _. Defined.

Definition btree {V} (m : gmap N V) : list (N * V) := merge_sort by_key (map_to_list m).

(** ** Automation

    [supra] holds the inversions of a fallible computation that returned and the facts
    of the two bounded integer types; [autorewrite with supra] and [eauto with supra]
    use them. *)
Create HintDb supra.
Create Rewrite HintDb supra.
#[export] Hint Rewrite @result_bind_Ok @ok_or_Ok @map_err_Ok @to_option_Some : supra.
#[export] Hint Rewrite check_i64_Some check_u64_Some in_i64_iff in_u64_iff in_u32_iff : supra.
#[export] Hint Resolve position_Some submseteq_NoDup filter_sorted filter_submseteq : supra.
