(* ===== verification/Text.v ===== *)
(** * Text shared by the components: decimal numerals and byte-level splitting

    Rust's [usize::to_string] and [str::parse::<usize>] on decimal numerals, and
    the [str] methods the components use, over strings as lists of bytes. *)

From Stdlib Require Import Ascii.
From stdpp Require Export pretty.
From S2P Require Import Prelude.

(** A byte string and its characters. *)
Definition bytes (s : string) : list ascii := String.list_ascii_of_string s.

Lemma bytes_length s : length (bytes s) = String.length s.
Proof. unfold bytes. induction s; simpl; auto. Qed.

Lemma bytes_app s1 s2 : bytes (String.append s1 s2) = bytes s1 ++ bytes s2.
Proof. induction s1; simpl; [done|]. by f_equal. Qed.

#[export] Instance bytes_inj : Inj (=) (=) bytes.
Proof.
  intros s1 s2 H. rewrite <- (String.string_of_list_ascii_of_string s1).
  rewrite <- (String.string_of_list_ascii_of_string s2). by f_equal.
Qed.

(** ** Decimal numerals *)

Definition digit_value (c : ascii) : option N :=
  let n := N_of_ascii c in
  if (48 <=? n)%N && (n <=? 57)%N then Some (n - 48)%N else None.

Definition is_digit (c : ascii) : bool :=
  match digit_value c with Some _ => true | None => false end.

(** [n.to_string()]. *)
Definition dec (n : N) : list ascii := bytes (pretty n).

Fixpoint parse_digits (acc : N) (l : list ascii) : option N :=
  match l with
  | [] => Some acc
  | c :: l =>
      match digit_value c with
      | Some d => parse_digits (10 * acc + d)%N l
      | None => None
      end
  end.

(** [text.parse()] on an unsigned numeral, before the range check of the target
    type: at least one digit, and digits only. *)
Definition parse_dec (l : list ascii) : option N :=
  match l with
  | [] => None
  | _ => parse_digits 0 l
  end.

Lemma digit_value_char x : (x < 10)%N → digit_value (pretty_N_char x) = Some x.
Proof.
  intros Hx.
  assert (x = 0 ∨ x = 1 ∨ x = 2 ∨ x = 3 ∨ x = 4 ∨ x = 5 ∨ x = 6 ∨ x = 7 ∨ x = 8
    ∨ x = 9)%N as Hc by lia.
  by repeat destruct Hc as [->|Hc]; subst.
Qed.

Lemma parse_digits_app acc l1 l2 :
  parse_digits acc (l1 ++ l2) = (a ← parse_digits acc l1; parse_digits a l2).
Proof.
  revert acc; induction l1 as [|c l1 IH]; intros acc; simpl; [done|].
  destruct (digit_value c); [apply IH|done].
Qed.

Lemma pretty_N_go_digits x : ∀ s, ∃ ds,
  bytes (pretty_N_go x s) = ds ++ bytes s ∧
  Forall is_digit ds ∧ parse_digits 0 ds = Some x ∧ (x ≠ 0%N → ds ≠ []).
Proof.
  induction (N.lt_wf_0 x) as [x _ IH]; intros s.
  destruct (decide (x = 0)%N) as [->|Hx].
  { exists []. by rewrite pretty_N_go_0. }
  rewrite pretty_N_go_step by lia.
  assert (Hlt : (x `div` 10 < x)%N) by (apply N.div_lt; lia).
  destruct (IH (x `div` 10)%N Hlt (String (pretty_N_char (x `mod` 10)) s))
    as (ds & Hds & Hall & Hval & _).
  assert (Hm : (x `mod` 10 < 10)%N) by (apply N.mod_lt; lia).
  exists (ds ++ [pretty_N_char (x `mod` 10)]). split_and!.
  - rewrite Hds. simpl. by rewrite <- (assoc_L (++)).
  - apply Forall_app. split; [done|]. constructor; [|done].
    unfold is_digit. by rewrite digit_value_char.
  - rewrite parse_digits_app, Hval. cbn [mbind option_bind parse_digits].
    rewrite digit_value_char by done. f_equal. lia.
  - intros _. by destruct ds.
Qed.

Lemma dec_digits n :
  dec n ≠ [] ∧ Forall is_digit (dec n) ∧ parse_digits 0 (dec n) = Some n.
Proof.
  unfold dec, pretty, pretty_N.
  case_decide as Hn; [by subst; split_and!; [|repeat constructor|]|].
  destruct (pretty_N_go_digits n "") as (ds & -> & ? & ? & Hne).
  simpl. rewrite app_nil_r. auto.
Qed.

Lemma parse_dec_dec n : parse_dec (dec n) = Some n.
Proof.
  destruct (dec_digits n) as (Hne & _ & Hp). unfold parse_dec.
  by destruct (dec n).
Qed.

#[export] Instance dec_inj : Inj (=) (=) dec.
Proof.
  intros a b H. assert (Some a = Some b) as [=]; [|done].
  by rewrite <- (parse_dec_dec a), <- (parse_dec_dec b), H.
Qed.

Lemma digit_not c d : is_digit c = true → is_digit d = false → c ≠ d.
Proof. congruence. Qed.

(** ** Delimited prefixes

    A block of characters that satisfy [P], ended by one that does not, is read
    back unambiguously. *)
Lemma app_delim_inj {A} (P : A → Prop) (l1 l2 r1 r2 : list A) x y :
  Forall P l1 → Forall P l2 → ¬ P x → ¬ P y →
  l1 ++ x :: r1 = l2 ++ y :: r2 → l1 = l2 ∧ x = y ∧ r1 = r2.
Proof.
  revert l2. induction l1 as [|a l1 IH]; intros [|b l2] H1 H2 Hx Hy; simpl;
    intros [= ]; simplify_eq; decompose_Forall_hyps; try done.
  destruct (IH l2) as (-> & -> & ->); auto.
Qed.

(** ** Splitting *)

(** [s.split(p)]: the pieces between the characters satisfying [p]. *)
Fixpoint split_on {A} (p : A → bool) (l : list A) : list (list A) :=
  match l with
  | [] => [[]]
  | c :: l =>
      if p c then [] :: split_on p l
      else match split_on p l with
           | [] => [[c]]
           | piece :: rest => (c :: piece) :: rest
           end
  end.

Lemma split_on_nonempty {A} (p : A → bool) l : split_on p l ≠ [].
Proof. destruct l; simpl; [done|]. repeat case_match; done. Qed.

Lemma split_on_app {A} (p : A → bool) a c t :
  Forall (λ c, p c = false) a → p c = true → split_on p (a ++ c :: t) = a :: split_on p t.
Proof.
  intros Ha Hc. induction Ha as [|d a Hd _ IH]; cbn [app split_on]; [by rewrite Hc|].
  by rewrite Hd, IH.
Qed.

Lemma split_on_whole {A} (p : A → bool) a : Forall (λ c, p c = false) a → split_on p a = [a].
Proof. induction 1 as [|c a Hc _ IH]; cbn [split_on]; [done|]. by rewrite Hc, IH. Qed.

Lemma split_on_no_delim {A} (p : A → bool) l :
  Forall (Forall (λ c, p c = false)) (split_on p l).
Proof.
  induction l as [|c l IH]; simpl; [repeat constructor|].
  destruct (p c) eqn:Hc; [by repeat constructor|].
  destruct (split_on p l); decompose_Forall_hyps; repeat constructor; auto.
Qed.

(** [s.starts_with(prefix)], [s.strip_suffix(suffix)]. *)
Fixpoint starts_with (prefix l : list ascii) : bool :=
  match prefix, l with
  | [], _ => true
  | c :: prefix, d :: l => if decide (c = d) then starts_with prefix l else false
  | _, _ => false
  end.

Definition ends_with (suffix l : list ascii) : bool := starts_with (rev suffix) (rev l).

Definition strip_prefix (prefix l : list ascii) : option (list ascii) :=
  if starts_with prefix l then Some (drop (length prefix) l) else None.

Definition strip_suffix (suffix l : list ascii) : option (list ascii) :=
  if ends_with suffix l then Some (take (length l - length suffix) l) else None.

Lemma starts_with_app prefix l :
  starts_with prefix l = true ↔ ∃ rest, l = prefix ++ rest.
Proof.
  revert l. induction prefix as [|c prefix IH]; intros [|d l]; simpl.
  - naive_solver.
  - naive_solver.
  - split; [done|by intros (? & [=])].
  - case_decide; [subst; rewrite IH; naive_solver|].
    split; [done|]. intros (? & [=]); naive_solver.
Qed.

Lemma strip_prefix_Some prefix l rest : strip_prefix prefix l = Some rest ↔ l = prefix ++ rest.
Proof.
  unfold strip_prefix. destruct (starts_with prefix l) eqn:E.
  - apply starts_with_app in E as (rest' & ->). rewrite drop_app_length. split; [by intros [= ->]|].
    by intros ->%(inj (app prefix)).
  - split; [done|]. intros ->. assert (starts_with prefix (prefix ++ rest) = true); [|congruence].
    apply starts_with_app. by exists rest.
Qed.

Lemma ends_with_app l k : ends_with k (l ++ k) = true.
Proof.
  unfold ends_with. rewrite rev_app_distr. apply starts_with_app. by exists (rev l).
Qed.

Lemma strip_suffix_app suffix l : strip_suffix suffix (l ++ suffix) = Some l.
Proof.
  unfold strip_suffix. rewrite ends_with_app. f_equal.
  rewrite length_app, Nat.add_sub. apply take_app_length.
Qed.

(** The first piece of a split. *)
Lemma split_on_head {A} (p : A → bool) l :
  ∃ a t, head (split_on p l) = Some a ∧ l = a ++ t ∧ Forall (λ c, p c = false) a ∧
    (t = [] ∨ ∃ c t', t = c :: t' ∧ p c = true).
Proof.
  induction l as [|c l (a & t & Ha & -> & Hall & Ht)]; simpl.
  { exists [], []. auto. }
  destruct (p c) eqn:E.
  - exists [], (c :: a ++ t). split_and!; [done..|]. right. eauto.
  - destruct (split_on p (a ++ t)) as [|piece rest]; [done|]. injection Ha as ->.
    exists (c :: a), t. split_and!; [done..|by constructor|done].
Qed.

Lemma split_on_head_app {A} (p : A → bool) a t :
  Forall (λ c, p c = false) a → (t = [] ∨ ∃ c t', t = c :: t' ∧ p c = true) →
  head (split_on p (a ++ t)) = Some a.
Proof.
  intros Ha Ht. induction Ha as [|c a Hc Ha IH]; simpl.
  - destruct Ht as [->|(c & t' & -> & Hc)]; [done|]. simpl. by rewrite Hc.
  - rewrite Hc. destruct (split_on p (a ++ t)); [done|]. by injection IH as ->.
Qed.

(** [c.to_ascii_lowercase()]. *)
Definition lower (c : ascii) : ascii :=
  let n := N_of_ascii c in
  if (65 <=? n)%N && (n <=? 90)%N then ascii_of_N (n + 32) else c.

(** ** Numbers as bits

    A text for every positive number, for parameters that print and parse. *)

Fixpoint bits (p : positive) : list ascii :=
  match p with xH => [] | xO p => "0"%char :: bits p | xI p => "1"%char :: bits p end.

Fixpoint of_bits (l : list ascii) : positive :=
  match l with
  | [] => xH
  | b :: l => if bool_decide (b = "1"%char) then xI (of_bits l) else xO (of_bits l)
  end.

Lemma of_bits_bits p : of_bits (bits p) = p.
Proof. induction p as [p IH|p IH|]; simpl; [by rewrite IH..|done]. Qed.
