(* ===== verification/Cohort.v ===== *)
(** * Elastic peer cohorts: [crates/supra_types/src/cohort.rs]

    Quorum arithmetic, the tier table with its gaps, admission under a peer
    limit, the verdict budget and the incremental quorum tally.  Cohort sizes
    and vote counts are [nat]: they are bounded by [PEER_CEILING], far inside
    [usize]. *)

From S2P Require Import Prelude.

Definition PEER_CEILING : nat := 80.
Definition DEFAULT_PEER_LIMIT : nat := 16.
Definition MAX_REQUESTS_PER_MINUTE : nat := 15.

Definition quorum (k : nat) : nat :=
  if k =? 0 then 0 else div_ceil (2 * k) 3.

Definition byzantine_tolerance (k : nat) : nat :=
  if k =? 0 then 0 else (k - 1) `div` 3.

Definition shards_needed (k : nat) : nat := div_ceil k MAX_REQUESTS_PER_MINUTE.

(** ** Tiers *)

Inductive Tier := E0 | E1 | E2 | E3 | E4 | E5.

#[export] Instance Tier_eq_dec : EqDecision Tier.
Proof. solve_decision. Defined.

Module Tier.
(** The discriminant, and the derived [Ord]. *)
Definition ord (t : Tier) : nat :=
  match t with E0 => 0 | E1 => 1 | E2 => 2 | E3 => 3 | E4 => 4 | E5 => 5 end.

Definition min (a b : Tier) : Tier := if ord b <? ord a then b else a.
Definition max (a b : Tier) : Tier := if ord b <? ord a then a else b.

Definition ALL : list Tier := [E0; E1; E2; E3; E4; E5].

Definition k_range (t : Tier) : nat * nat :=
  match t with
  | E0 => (1, 1)
  | E1 => (2, 2)
  | E2 => (3, 5)
  | E3 => (7, 12)
  | E4 => (16, 32)
  | E5 => (33, PEER_CEILING)
  end.

Definition containing (k : nat) : option Tier :=
  List.find (λ tier, let '(low, high) := k_range tier in
                     (low <=? k) && (k <=? high)) ALL.

Definition largest_within (limit : nat) : option Tier :=
  List.find (λ tier, let '(low, _) := k_range tier in low <=? limit) (rev ALL).

Definition k_for_limit (t : Tier) (limit : nat) : nat :=
  let '(low, high) := k_range t in
  if limit <? low then 0
  else if high <? limit then high else limit.

Definition is_blind_rederivation (t : Tier) : bool :=
  match t with E0 => true | _ => false end.

Definition has_byzantine_tolerance (t : Tier) : bool :=
  let '(low, _) := k_range t in 0 <? byzantine_tolerance low.

(** The tier order as a proposition. *)
Definition le (a b : Tier) : Prop := ord a ≤ ord b.

#[global] Instance le_dec : RelDecision le.
Proof. intros a b. unfold le. apply _. Defined.

#[global] Instance le_total_order : TotalOrder le.
Proof.
  split; [split; [split|]|].
  - intros []; unfold le; simpl; lia.
  - intros a b c; unfold le; lia.
  - intros [] []; unfold le; simpl; try done; lia.
  - intros a b; unfold strict, le.
    destruct (decide (a = b)); [naive_solver|].
    destruct a, b; simpl; try done; naive_solver lia.
Qed.
End Tier.

Definition admit_tier (requested : Tier) (limit : nat) : option (Tier * nat) :=
  ceiling ← Tier.largest_within limit;
  let tier := Tier.min requested ceiling in
  Some (tier, Tier.k_for_limit tier limit).

(** ** Verdicts *)

Inductive Vote := Yes | No | Abstain.
Inductive Confidence := Low | Medium | High.

#[export] Instance Vote_eq_dec : EqDecision Vote.
Proof. solve_decision. Defined.
#[export] Instance Confidence_eq_dec : EqDecision Confidence.
Proof. solve_decision. Defined.

Inductive VerdictError :=
| ReasonTooLong (bytes : nat)
| EvidenceRefTooLong (bytes : nat).

Module Verdict.
Record t := mk {
  vote : Vote;
  confidence : Confidence;
  reason : string;
  evidence_ref : option string;
}.

#[global] Instance t_eq_dec : EqDecision t.
Proof. solve_decision. Defined.

Definition MAX_REASON_BYTES : nat := 140.
Definition MAX_EVIDENCE_BYTES : nat := 40.

Definition new (vote : Vote) (confidence : Confidence) (reason : string)
    (evidence_ref : option string) : result t VerdictError :=
  if MAX_REASON_BYTES <? String.length reason
  then Err (ReasonTooLong (String.length reason))
  else match evidence_ref with
       | Some reference =>
           if MAX_EVIDENCE_BYTES <? String.length reference
           then Err (EvidenceRefTooLong (String.length reference))
           else Ok (mk vote confidence reason evidence_ref)
       | None => Ok (mk vote confidence reason evidence_ref)
       end.

(** [VerdictRepr]: the fields as deserialised, before the budget check. *)
Record Repr := mkRepr {
  r_vote : Vote;
  r_confidence : Confidence;
  r_reason : string;
  r_evidence_ref : option string;
}.

Definition try_from (repr : Repr) : result t VerdictError :=
  new (r_vote repr) (r_confidence repr) (r_reason repr) (r_evidence_ref repr).

(** What every value of the type satisfies. *)
Definition within_budget (v : t) : Prop :=
  String.length (reason v) ≤ MAX_REASON_BYTES ∧
  match evidence_ref v with
  | Some r => String.length r ≤ MAX_EVIDENCE_BYTES
  | None => True
  end.
End Verdict.

(** ** The quorum tally *)

Inductive QuorumStatus := Open | Reached | Unreachable.
Inductive TallyError := Overfull (k : nat).

#[export] Instance QuorumStatus_eq_dec : EqDecision QuorumStatus.
Proof. solve_decision. Defined.
#[export] Instance TallyError_eq_dec : EqDecision TallyError.
Proof. solve_decision. Defined.

Module Tally.
Record t := mk {
  k : nat;
  needed : nat;
  yes : nat;
  no : nat;
  abstain : nat;
}.

#[global] Instance t_eq_dec : EqDecision t.
Proof. solve_decision. Defined.

Definition new (k : nat) : t := mk k (quorum k) 0 0 0.

(** [usize] subtraction: the invariant [wf] below keeps it from underflowing. *)
Definition pending (x : t) : nat := k x - yes x - no x - abstain x.

Definition is_reached (x : t) : bool := needed x <=? yes x.

Definition is_unreachable (x : t) : bool := yes x + pending x <? needed x.

Definition status (x : t) : QuorumStatus :=
  if is_reached x then Reached
  else if is_unreachable x then Unreachable
  else Open.

(** [*self] with one vote counted. *)
Definition count (x : t) (vote : Vote) : t :=
  match vote with
  | Yes => mk (k x) (needed x) (S (yes x)) (no x) (abstain x)
  | No => mk (k x) (needed x) (yes x) (S (no x)) (abstain x)
  | Abstain => mk (k x) (needed x) (yes x) (no x) (S (abstain x))
  end.

(** [record] returns the mutated tally with the status it reports. *)
Definition record (x : t) (vote : Vote) : result (t * QuorumStatus) TallyError :=
  if pending x =? 0 then Err (Overfull (k x))
  else let x' := count x vote in Ok (x', status x').

(** Voting a sequence, stopping at the first refusal. *)
Fixpoint record_all (x : t) (votes : list Vote) : result t TallyError :=
  match votes with
  | [] => Ok x
  | v :: votes => let? r := record x v in record_all (fst r) votes
  end.

(** Every tally the API can produce. *)
Inductive reachable : t → Prop :=
| reachable_new n : reachable (new n)
| reachable_record x v x' s :
    reachable x → record x v = Ok (x', s) → reachable x'.

(** The type invariant behind the subtraction in [pending]. *)
Definition wf (x : t) : Prop :=
  yes x + no x + abstain x ≤ k x ∧ needed x = quorum (k x).
End Tally.

(** ** Quorum arithmetic *)

(** [ceil(2k/3)]: the least count whose triple reaches [2k]. *)
Lemma quorum_least k q : quorum k ≤ q ↔ 2 * k ≤ 3 * q.
Proof.
  unfold quorum, div_ceil.
  destruct (k =? 0) eqn:Hk; to_prop; [lia|].
  destruct (0 <? (2 * k) `mod` 3) eqn:Hm; to_prop; lia.
Qed.

Lemma quorum_le k : quorum k ≤ k.
Proof. apply quorum_least. lia. Qed.

Lemma quorum_pos k : 0 < k → 0 < quorum k.
Proof. pose proof (quorum_least k 0). lia. Qed.

Lemma byzantine_spec k : 0 < k → 3 * byzantine_tolerance k < k ≤ 3 * byzantine_tolerance k + 3.
Proof.
  unfold byzantine_tolerance.
  destruct (k =? 0) eqn:Hk; to_prop; lia.
Qed.

(** Two subsets of a cohort that both reach quorum share more members than the
    cohort tolerates faulty. *)
Lemma quorum_overlap `{Countable A} (P X Y : gset A) :
  X ⊆ P → Y ⊆ P → size P ≠ 0 →
  quorum (size P) ≤ size X → quorum (size P) ≤ size Y →
  byzantine_tolerance (size P) < size (X ∩ Y).
Proof.
  intros HX HY HP Hx Hy.
  pose proof (byzantine_spec (size P)).
  apply quorum_least in Hx, Hy.
  assert (size (X ∪ Y) ≤ size P) by (apply subseteq_size; set_solver).
  rewrite size_union_alt in *.
  assert (size Y = size (X ∩ Y) + size (Y ∖ X)).
  { rewrite <- size_union by set_solver. f_equal.
    apply set_eq. intros a. destruct (decide (a ∈ X)); set_solver. }
  lia.
Qed.

(** The vote threshold is a sound quorum system.  For every cohort of [k > 0]
    peers, [quorum k] is exactly [ceil(2k/3)] in the integers, a strict majority,
    never unanimity above two peers and still reachable when
    [byzantine_tolerance k] peers stay silent; and any two groups of peers of one
    cohort that both carry a claim have more than [byzantine_tolerance k] peers in
    common, hence a non-faulty one. *)
Theorem quorum_system_sound (k : nat) (Hk : 0 < k) :
  (∀ q, quorum k ≤ q ↔ 2 * k ≤ 3 * q) ∧
  k < 2 * quorum k ∧
  (2 < k → quorum k < k) ∧
  quorum k + byzantine_tolerance k ≤ k ∧
  (∀ P X Y : gset nat,
     size P = k → X ⊆ P → Y ⊆ P →
     quorum k ≤ size X → quorum k ≤ size Y →
     byzantine_tolerance k < size (X ∩ Y)).
Proof.
  pose proof (quorum_least k) as Hq. pose proof (byzantine_spec k Hk).
  split_and!; [done|..].
  - assert (¬ quorum k ≤ k `div` 2) by (rewrite Hq; lia). lia.
  - intros. assert (quorum k ≤ k - 1) by (apply Hq; lia). lia.
  - assert (quorum k ≤ k - byzantine_tolerance k) by (apply Hq; lia). lia.
  - intros P X Y <- HX HY Hx Hy. apply quorum_overlap; auto; lia.
Qed.

Lemma quorum_system_sound_witness : 0 < 4 ∧ quorum 4 + byzantine_tolerance 4 ≤ 4.
Proof. split; [lia|]. apply (quorum_system_sound 4). lia. Defined.

(** ** The tier table *)

Lemma tier_containing_iff k t :
  Tier.containing k = Some t ↔ (Tier.k_range t).1 ≤ k ≤ (Tier.k_range t).2.
Proof.
  unfold Tier.containing, Tier.ALL, PEER_CEILING. simpl List.find.
  destruct t; simpl; unfold PEER_CEILING; split; intros Hc;
    repeat case_match; simplify_eq; try done; lia.
Qed.

Lemma tier_floor_le_ceiling t : (Tier.k_range t).1 ≤ (Tier.k_range t).2.
Proof. destruct t; simpl; unfold PEER_CEILING; lia. Qed.

Lemma tier_ceiling_le_peer_ceiling t : (Tier.k_range t).2 ≤ PEER_CEILING.
Proof. destruct t; simpl; unfold PEER_CEILING; lia. Qed.

Lemma tier_floor_mono a b :
  Tier.le a b ↔ (Tier.k_range a).1 ≤ (Tier.k_range b).1.
Proof. destruct a, b; unfold Tier.le; simpl; lia. Qed.

Lemma largest_within_sound limit t :
  Tier.largest_within limit = Some t →
  (Tier.k_range t).1 ≤ limit ∧
  ∀ t', (Tier.k_range t').1 ≤ limit → Tier.le t' t.
Proof.
  unfold Tier.largest_within, Tier.ALL. simpl.
  intros H; repeat (case_match; simplify_eq);
    (split; [simpl; lia | intros []; unfold Tier.le; simpl; lia]).
Qed.

Lemma largest_within_None limit : Tier.largest_within limit = None ↔ limit = 0.
Proof.
  unfold Tier.largest_within, Tier.ALL. simpl.
  split; [intros H; repeat (case_match; simplify_eq); lia | by intros ->].
Qed.

Lemma tier_min_ord a b : Tier.ord (Tier.min a b) = Nat.min (Tier.ord a) (Tier.ord b).
Proof. unfold Tier.min. case_match; lia. Qed.

Lemma tier_max_ord a b : Tier.ord (Tier.max a b) = Nat.max (Tier.ord a) (Tier.ord b).
Proof. unfold Tier.max. case_match; lia. Qed.

Lemma tier_min_le_l a b : Tier.le (Tier.min a b) a.
Proof. unfold Tier.le. rewrite tier_min_ord. lia. Qed.

Lemma k_for_limit_spec t limit :
  (Tier.k_range t).1 ≤ limit →
  Tier.k_for_limit t limit = Nat.min (Tier.k_range t).2 limit.
Proof.
  intros H. unfold Tier.k_for_limit. destruct (Tier.k_range t) as [low high].
  simpl in *. repeat case_match; lia.
Qed.

(** What admission returns, as the other components use it. *)
Lemma admit_spec requested limit :
  match admit_tier requested limit with
  | None => limit = 0
  | Some (tier, k) =>
      Tier.le tier requested ∧
      (∀ t, Tier.le t requested → (Tier.k_range t).1 ≤ limit → Tier.le t tier) ∧
      (Tier.k_range tier).1 ≤ limit ∧
      k = Nat.min (Tier.k_range tier).2 limit ∧
      (Tier.k_range tier).1 ≤ k ≤ (Tier.k_range tier).2
  end.
Proof.
  unfold admit_tier.
  destruct (Tier.largest_within limit) as [c|] eqn:Hc; simpl; [|by apply largest_within_None].
  apply largest_within_sound in Hc as [Hfloor Hmax].
  set (t := Tier.min requested c).
  assert (Htc : Tier.le t c) by (unfold t, Tier.le; rewrite tier_min_ord; lia).
  assert (Hfit : (Tier.k_range t).1 ≤ limit) by (apply tier_floor_mono in Htc; lia).
  rewrite k_for_limit_spec by done. pose proof (tier_floor_le_ceiling t).
  split_and!; try done; try lia.
  - apply tier_min_le_l.
  - intros t' Hreq Hlow. specialize (Hmax t' Hlow).
    unfold t, Tier.le in *. rewrite tier_min_ord. lia.
Qed.

(** Admission under a peer limit.  [admit_tier] refuses exactly the zero limit;
    otherwise the tier it returns is the strongest one not above the request
    whose smallest cohort fits the limit, the cohort size is the largest size of
    that tier within the limit, and the size belongs to that tier's range - so
    the sizes 6 and 13 to 15, which no tier selects, and any size above
    [PEER_CEILING] are never fielded. *)
Theorem admit_correct (requested : Tier) (limit : nat) :
  match admit_tier requested limit with
  | None => limit = 0
  | Some (tier, k) =>
      Tier.le tier requested ∧
      (∀ t, Tier.le t requested → (Tier.k_range t).1 ≤ limit → Tier.le t tier) ∧
      k ≤ limit ∧ k ≤ PEER_CEILING ∧
      (∀ k', Tier.containing k' = Some tier → k' ≤ limit → k' ≤ k) ∧
      Tier.containing k = Some tier ∧
      k ≠ 6 ∧ k ≠ 13 ∧ k ≠ 14 ∧ k ≠ 15
  end.
Proof.
  pose proof (admit_spec requested limit) as H.
  destruct (admit_tier requested limit) as [[tier k]|]; [|done].
  destruct H as (Hle & Hbest & Hfloor & Hk & Hin).
  assert (Hc : Tier.containing k = Some tier) by (by apply tier_containing_iff).
  pose proof (tier_ceiling_le_peer_ceiling tier).
  split_and!; try done; try lia.
  1: intros k' Hk'; apply tier_containing_iff in Hk'; lia.
  all: intros E; rewrite E in Hc; vm_compute in Hc; done.
Qed.

(** ** Verdicts *)

Lemma verdict_new_Ok vote confidence reason evidence_ref v :
  Verdict.new vote confidence reason evidence_ref = Ok v ↔
  v = Verdict.mk vote confidence reason evidence_ref ∧ Verdict.within_budget v.
Proof.
  unfold Verdict.new, Verdict.within_budget.
  destruct evidence_ref as [r|]; repeat case_match; simplify_eq/=; split;
    intros; destruct_and?; simplify_eq/=; try done; try lia; split_and?; try done; lia.
Qed.

(** ** Tally lemmas *)

Section tally_lemmas.
Implicit Types x : Tally.t.

Lemma tally_wf_new n : Tally.wf (Tally.new n).
Proof. split; simpl; [lia|done]. Qed.

Lemma tally_record_Ok x v x' s :
  Tally.record x v = Ok (x', s) ↔
  Tally.pending x ≠ 0 ∧ x' = Tally.count x v ∧ s = Tally.status x'.
Proof. unfold Tally.record. case_match; to_prop; naive_solver. Qed.

Lemma tally_count_wf x v :
  Tally.pending x ≠ 0 → Tally.wf x → Tally.wf (Tally.count x v).
Proof. unfold Tally.pending, Tally.wf. destruct x, v; simpl; intros ? [? ?]; split; lia. Qed.

Lemma tally_count_pending x v :
  Tally.wf x → Tally.pending (Tally.count x v) = Tally.pending x - 1.
Proof. unfold Tally.pending, Tally.wf. destruct x, v; simpl; intros [? ?]; lia. Qed.

Lemma tally_reachable_wf x : Tally.reachable x → Tally.wf x.
Proof.
  induction 1 as [|x v x' s _ IH Hr]; [apply tally_wf_new|].
  apply tally_record_Ok in Hr as (? & -> & _). by apply tally_count_wf.
Qed.

Lemma filter_all_yes n : length (filter (.= Yes) (replicate n Yes)) = n.
Proof. induction n as [|n IH]; [done|]. rewrite replicate_S, filter_cons. simpl. lia. Qed.

(** A fold of [count] over votes that fit the cohort. *)
Definition tally_counts x (votes : list Vote) : Tally.t := foldl Tally.count x votes.

Lemma tally_counts_fields x votes :
  let x' := tally_counts x votes in
  Tally.k x' = Tally.k x ∧ Tally.needed x' = Tally.needed x ∧
  Tally.yes x' = Tally.yes x + length (filter (.= Yes) votes) ∧
  Tally.no x' = Tally.no x + length (filter (.= No) votes) ∧
  Tally.abstain x' = Tally.abstain x + length (filter (.= Abstain) votes).
Proof.
  unfold tally_counts. revert x.
  induction votes as [|v votes IH]; intros x; simpl; [lia|].
  destruct (IH (Tally.count x v)) as (-> & -> & -> & -> & ->).
  rewrite !filter_cons. destruct x, v; simpl; lia.
Qed.

Lemma votes_split (votes : list Vote) :
  length (filter (.= Yes) votes) + length (filter (.= No) votes) +
  length (filter (.= Abstain) votes) = length votes.
Proof.
  induction votes as [|v votes IH]; [done|].
  rewrite !filter_cons. destruct v; simpl; lia.
Qed.

Lemma tally_counts_perm x votes votes' :
  votes ≡ₚ votes' → tally_counts x votes = tally_counts x votes'.
Proof.
  intros Hp.
  pose proof (tally_counts_fields x votes) as (H1 & H2 & H3 & H4 & H5).
  pose proof (tally_counts_fields x votes') as (G1 & G2 & G3 & G4 & G5).
  assert (Hlen : ∀ u, length (filter (.= u) votes) = length (filter (.= u) votes'))
    by (intros u; by rewrite Hp).
  rewrite Hlen in H3, H4, H5.
  destruct (tally_counts x votes), (tally_counts x votes'); simpl in *; congruence.
Qed.

Lemma tally_record_all_Ok x votes x' :
  Tally.wf x →
  Tally.record_all x votes = Ok x' ↔
  length votes ≤ Tally.pending x ∧ x' = tally_counts x votes.
Proof.
  revert x. induction votes as [|v votes IH]; intros x Hwf; simpl.
  { split; [intros [= ->]; split; [lia|done] | intros [_ ->]; done]. }
  rewrite result_bind_Ok. split.
  - intros ([y s] & Hr & Hall). apply tally_record_Ok in Hr as (? & -> & _). simpl in Hall.
    apply IH in Hall as [Hl ->]; [|by apply tally_count_wf].
    rewrite tally_count_pending in Hl by done. split; [lia|done].
  - intros [Hl ->]. exists (Tally.count x v, Tally.status (Tally.count x v)). split.
    + apply tally_record_Ok. split_and!; [lia|done|done].
    + simpl. apply IH; [apply tally_count_wf; [lia|done]|].
      rewrite tally_count_pending by done. split; [simpl; lia|done].
Qed.

Lemma tally_status_Reached x : Tally.status x = Reached ↔ Tally.needed x ≤ Tally.yes x.
Proof.
  unfold Tally.status, Tally.is_reached. repeat case_match; to_prop; split; done || lia.
Qed.

Lemma tally_status_Unreachable x :
  Tally.status x = Unreachable ↔ Tally.yes x + Tally.pending x < Tally.needed x.
Proof.
  unfold Tally.status, Tally.is_reached, Tally.is_unreachable.
  repeat case_match; to_prop; split; done || lia.
Qed.

Lemma tally_status_Open x :
  Tally.status x = Open ↔
  Tally.yes x < Tally.needed x ≤ Tally.yes x + Tally.pending x.
Proof.
  unfold Tally.status, Tally.is_reached, Tally.is_unreachable.
  repeat case_match; to_prop; split; done || lia.
Qed.
End tally_lemmas.

(** C7. The incremental tally is exact and its verdicts are final.  For every
    tally the interface can produce: a vote is refused exactly when every peer of
    the cohort has already been counted; [Unreachable] is reported exactly when
    no sequence of further votes could carry the claim (so escalating then never
    abandons a claim that could still pass); and once the status is [Reached] or
    [Unreachable] no later vote changes it (so aborting in-flight peers is
    sound). *)
Theorem tally_status_exact (x : Tally.t) (Hx : Tally.reachable x) :
  (∀ v, is_ok (Tally.record x v) = true ↔
        Tally.yes x + Tally.no x + Tally.abstain x < Tally.k x) ∧
  (Tally.status x = Unreachable ↔
     ∀ votes x', Tally.record_all x votes = Ok x' → Tally.status x' ≠ Reached) ∧
  (Tally.status x ≠ Open →
     ∀ votes x', Tally.record_all x votes = Ok x' → Tally.status x' = Tally.status x).
Proof.
  apply tally_reachable_wf in Hx as Hwf. destruct Hwf as [Hsum Hneed].
  assert (Hpend : Tally.pending x + (Tally.yes x + Tally.no x + Tally.abstain x) = Tally.k x)
    by (unfold Tally.pending; lia).
  assert (Hfields : ∀ votes x', Tally.record_all x votes = Ok x' →
    Tally.needed x' = Tally.needed x ∧ Tally.yes x ≤ Tally.yes x' ∧
    Tally.yes x' + Tally.pending x' ≤ Tally.yes x + Tally.pending x).
  { intros votes x' Hall.
    apply tally_record_all_Ok in Hall as [Hl ->]; [|by split].
    pose proof (tally_counts_fields x votes) as (? & ? & ? & ? & ?).
    pose proof (votes_split votes). unfold Tally.pending in *. lia. }
  split_and!.
  - intros v. unfold Tally.record. case_match; to_prop; simpl; split; done || lia.
  - rewrite tally_status_Unreachable. split.
    + intros Hlt votes x' Hall. rewrite tally_status_Reached.
      destruct (Hfields _ _ Hall) as (? & ? & ?). lia.
    + intros Hnever. apply Nat.nle_gt. intros Hge.
      set (votes := replicate (Tally.pending x) Yes).
      apply (Hnever votes (tally_counts x votes)).
      * apply tally_record_all_Ok; [by split|].
        unfold votes. rewrite length_replicate. done.
      * apply tally_status_Reached.
        pose proof (tally_counts_fields x votes) as (_ & -> & -> & _).
        unfold votes. rewrite filter_all_yes. lia.
  - intros Hclosed votes x' Hall. destruct (Hfields _ _ Hall) as (? & ? & ?).
    destruct (Tally.status x) eqn:Hs; [done|..].
    + apply tally_status_Reached in Hs. apply tally_status_Reached. lia.
    + apply tally_status_Unreachable in Hs. apply tally_status_Unreachable. lia.
Qed.

Lemma tally_status_exact_witness :
  Tally.reachable (Tally.count (Tally.new 4) Yes) ∧
  is_ok (Tally.record (Tally.count (Tally.new 4) Yes) No) = true.
Proof.
  assert (H : Tally.reachable (Tally.count (Tally.new 4) Yes)).
  { apply (Tally.reachable_record (Tally.new 4) Yes _ Open);
      [apply Tally.reachable_new | reflexivity]. }
  split; [exact H|].
  apply (proj1 (tally_status_exact _ H)). vm_compute. lia.
Defined.

Lemma byzantine_tolerance_mono a b : a ≤ b → byzantine_tolerance a ≤ byzantine_tolerance b.
Proof. unfold byzantine_tolerance. repeat case_match; to_prop; lia. Qed.

(** [shards_needed] shards of at most [MAX_REQUESTS_PER_MINUTE] hold the cohort,
    and one fewer does not. *)
Lemma shards_needed_spec k :
  k ≤ shards_needed k * MAX_REQUESTS_PER_MINUTE ∧
  (k ≠ 0 → (shards_needed k - 1) * MAX_REQUESTS_PER_MINUTE < k).
Proof.
  unfold shards_needed, div_ceil, MAX_REQUESTS_PER_MINUTE.
  case_match; to_prop; lia.
Qed.
