(* ===== verification/Permission.v ===== *)
(** * Authority and consent: [supra_types/src/permission.rs], [supra_permission]

    The two permission axes, the mode matrix, rule resolution, the effect
    catalogue, the gate every tool call passes through, and the batch of
    questions with its per-item answers. *)

From S2P Require Import Prelude.

(** ** The axes: [supra_types/src/permission.rs] *)

Module Invoker.
Inductive t := Agent | Host | User.

Definition rank (i : t) : nat :=
  match i with Agent => 0 | Host => 1 | User => 2 end.
End Invoker.

Module ToolClass.
Inductive t := Agent | Host | User.

Definition rank (c : t) : nat :=
  match c with Agent => 0 | Host => 1 | User => 2 end.

Definition permits (c : t) (invoker : Invoker.t) : bool :=
  rank c <=? Invoker.rank invoker.
End ToolClass.

Inductive Reversibility := R0 | R1 | R2 | R3.

#[export] Instance Reversibility_eq_dec : EqDecision Reversibility.
Proof. solve_decision. Defined.

Module Reversibility.
(** The derived [Ord]. *)
Definition ord (r : Reversibility) : nat :=
  match r with R0 => 0 | R1 => 1 | R2 => 2 | R3 => 3 end.

Definition ALL : list Reversibility := [R0; R1; R2; R3].

Definition damped (r : Reversibility) : Reversibility :=
  match r with
  | R0 | R1 => R0
  | R2 => R1
  | R3 => R2
  end.
End Reversibility.

Inductive Decision := Run | Prompt | Refuse.

Inductive Mode := Plan | Ask | Auto | Yolo.

#[export] Instance Decision_eq_dec : EqDecision Decision.
Proof. solve_decision. Defined.
#[export] Instance Mode_eq_dec : EqDecision Mode.
Proof. solve_decision. Defined.

Module Mode.
Definition ALL : list Mode := [Plan; Ask; Auto; Yolo].

Definition label (m : Mode) : string :=
  match m with
  | Plan => "plan"
  | Ask => "ask"
  | Auto => "auto"
  | Yolo => "yolo"
  end.

Definition decide (m : Mode) (reversibility : Reversibility) : Decision :=
  match m with
  | Plan => match reversibility with R0 => Run | R1 | R2 | R3 => Refuse end
  | Ask => match reversibility with R0 => Run | R1 | R2 | R3 => Prompt end
  | Auto => match reversibility with R3 => Prompt | R0 | R1 | R2 => Run end
  | Yolo => Run
  end.

(** From most to least restrictive, the order of [ALL]. *)
Definition ord (m : Mode) : nat :=
  match m with Plan => 0 | Ask => 1 | Auto => 2 | Yolo => 3 end.
End Mode.

(** The free function [decide]: authority, then consent. *)
Definition decide_call (class : ToolClass.t) (invoker : Invoker.t) (mode : Mode)
    (reversibility : Reversibility) : Decision :=
  if negb (ToolClass.permits class invoker) then Refuse
  else Mode.decide mode reversibility.

Module RuleSource.
Inductive t := Builtin | User | Project | Cli | Session.

(** The derived [Ord]: the rule precedence. *)
Definition ord (s : t) : nat :=
  match s with Builtin => 0 | User => 1 | Project => 2 | Cli => 3 | Session => 4 end.

#[global] Instance t_eq_dec : EqDecision t.
Proof. solve_decision. Defined.
End RuleSource.

Inductive RuleEffect := Allow | Deny.

#[export] Instance RuleEffect_eq_dec : EqDecision RuleEffect.
Proof. solve_decision. Defined.

Module Rule.
Record t := mk { source : RuleSource.t; effect : RuleEffect }.

#[global] Instance t_eq_dec : EqDecision t.
Proof. solve_decision. Defined.
End Rule.

Definition resolve (rules : list Rule.t) : option RuleEffect :=
  if existsb (λ rule, bool_decide (Rule.effect rule = Deny)) rules then Some Deny
  else Rule.effect <$>
         max_by_key (λ rule, RuleSource.ord (Rule.source rule))
           (List.filter (λ rule, bool_decide (Rule.effect rule = Allow)) rules).

(** ** The effect catalogue: [supra_permission/src/catalogue.rs] *)

Inductive RecoveryBasis := Snapshot | GitClean.

Module Effect.
Inductive t :=
| Read
| ScratchWork
| RecoverableEdit (basis : RecoveryBasis)
| StructuralEdit (basis : RecoveryBasis)
| BlindEdit
| OutsideEdit (path : string)
| NetworkPost (target : string)
| ForcePush (target : string)
| Remove (target : string)
| DropData (target : string)
| EscapeHatch (what : string).

Definition reversibility (e : t) : Reversibility :=
  match e with
  | Read | ScratchWork => R0
  | RecoverableEdit _ | StructuralEdit _ => R1
  | BlindEdit | OutsideEdit _ => R2
  | NetworkPost _ | ForcePush _ | Remove _ | DropData _ | EscapeHatch _ => R3
  end.

Definition is_structural (e : t) : bool :=
  match e with StructuralEdit _ => true | _ => false end.

Definition is_escape_hatch (e : t) : bool :=
  match e with EscapeHatch _ => true | _ => false end.
End Effect.

(** ** The gate: [supra_permission/src/gate.rs] *)

Module Request.
Record t := mk {
  effect : Effect.t;
  class : ToolClass.t;
  invoker : Invoker.t;
  summary : string;
}.
End Request.

Inductive AskReason := Matrix | ByEscapeHatch.

Inductive RefuseReason :=
| ByRule (source : RuleSource.t)
| Authority
| ByPlan
| NotAnswered (summary : string).

Module Outcome.
Inductive t :=
| Run
| Ask (request : Request.t) (reason : AskReason)
| Refuse (reason : RefuseReason).
End Outcome.

Definition gate (request : Request.t) (mode : Mode) (rules : list Rule.t) : Outcome.t :=
  let resolved_rule := resolve rules in
  match resolved_rule with
  | Some Deny =>
      let source :=
        match List.find (λ rule, bool_decide (Rule.effect rule = Deny)) rules with
        | Some rule => Rule.source rule
        | None => RuleSource.Builtin
        end in
      Outcome.Refuse (ByRule source)
  | _ =>
      if negb (ToolClass.permits (Request.class request) (Request.invoker request))
      then Outcome.Refuse Authority
      else if Effect.is_escape_hatch (Request.effect request)
      then Outcome.Ask request ByEscapeHatch
      else match resolved_rule with
           | Some Allow => Outcome.Run
           | _ =>
               let reversibility :=
                 if Effect.is_structural (Request.effect request)
                 then Reversibility.damped (Effect.reversibility (Request.effect request))
                 else Effect.reversibility (Request.effect request) in
               match decide_call (Request.class request) (Request.invoker request)
                       mode reversibility with
               | Run => Outcome.Run
               | Prompt => Outcome.Ask request Matrix
               | Refuse => Outcome.Refuse ByPlan
               end
           end
  end.

Inductive PermissionError :=
| Denied (origin : RuleSource.t)
| EmptyBatch.

Module Batch.
Record t := mk { items : list Request.t }.

Definition asked (outcome : Outcome.t) : option Request.t :=
  match outcome with Outcome.Ask request _ => Some request | _ => None end.

Definition collect (outcomes : list Outcome.t) : result t PermissionError :=
  let items := omap asked outcomes in
  if bool_decide (items = []) then Err EmptyBatch else Ok (mk items).

(** [answers.iter().chain(repeat(&false))]: a missing answer is a no. *)
Fixpoint resolve_items (items : list Request.t) (answers : list bool) : list Outcome.t :=
  match items with
  | [] => []
  | request :: items =>
      let '(answer, answers) :=
        match answers with [] => (false, []) | a :: answers => (a, answers) end in
      (if answer then Outcome.Run
       else Outcome.Refuse (NotAnswered (Request.summary request)))
      :: resolve_items items answers
  end.

Definition resolve (b : t) (answers : list bool) : list Outcome.t :=
  resolve_items (items b) answers.
End Batch.

(** ** Rules *)

Definition denies (rules : list Rule.t) : Prop := ∃ r, r ∈ rules ∧ Rule.effect r = Deny.
Definition allows (rules : list Rule.t) : Prop := ∃ r, r ∈ rules ∧ Rule.effect r = Allow.

#[export] Instance denies_dec rules : base.Decision (denies rules).
Proof.
  refine (cast_if (decide (Exists (λ r, Rule.effect r = Deny) rules)));
    [|rename n into Hn]; unfold denies; [by apply Exists_exists|].
  intros H. apply Hn, Exists_exists. done.
Defined.

Lemma resolve_Deny rules : resolve rules = Some Deny ↔ denies rules.
Proof.
  unfold resolve, denies. destruct (existsb _ rules) eqn:E.
  - apply existsb_exists in E as (r & Hr & Hd). to_prop.
    apply list_elem_of_In in Hr. naive_solver.
  - split.
    + rewrite fmap_Some. intros (r & Hr & Hd).
      apply max_by_key_Some in Hr as [Hr _].
      apply list_elem_of_In, filter_In in Hr as [_ Ha]. to_prop. congruence.
    + intros (r & Hr & Hd). apply list_elem_of_In in Hr.
      enough (existsb (λ rule, bool_decide (Rule.effect rule = Deny)) rules = true) by congruence.
      apply existsb_exists. exists r. by rewrite bool_decide_eq_true.
Qed.

Lemma resolve_Allow rules : resolve rules = Some Allow ↔ ¬ denies rules ∧ allows rules.
Proof.
  rewrite <- resolve_Deny. unfold resolve, allows.
  destruct (existsb _ rules) eqn:E; [split; [done|intros [[] _]; done]|].
  set (l := List.filter _ rules). split.
  - intros H. split; [congruence|].
    apply fmap_Some in H as (r & Hr & Ha). apply max_by_key_Some in Hr as [Hr _].
    apply list_elem_of_In, filter_In in Hr as [Hr _]. apply list_elem_of_In in Hr. eauto.
  - intros [_ (r & Hr & Ha)].
    assert (Hin : r ∈ l).
    { apply list_elem_of_In, filter_In. rewrite bool_decide_eq_true.
      by rewrite <- list_elem_of_In. }
    destruct (max_by_key _ l) as [r'|] eqn:Hm; simpl.
    + apply max_by_key_Some in Hm as [Hm _].
      apply list_elem_of_In, filter_In in Hm as [_ Ha']. to_prop. by rewrite Ha'.
    + apply max_by_key_None in Hm. rewrite Hm in Hin. set_solver.
Qed.

Lemma resolve_None rules : resolve rules = None ↔ rules = [].
Proof.
  split; [|by intros ->]. intros H. destruct rules as [|r rules]; [done|].
  destruct (Rule.effect r) eqn:E.
  - destruct (decide (denies (r :: rules))) as [Hd|Hd].
    + apply resolve_Deny in Hd. congruence.
    + assert (resolve (r :: rules) = Some Allow); [|congruence].
      apply resolve_Allow. split; [done|]. exists r. set_solver.
  - assert (resolve (r :: rules) = Some Deny); [|congruence].
    apply resolve_Deny. exists r. set_solver.
Qed.

Lemma denies_nonempty rules : allows rules ∨ denies rules ↔ rules ≠ [].
Proof.
  split; [intros [(r&?&?)|(r&?&?)] ->; set_solver|].
  destruct rules as [|r rules]; [done|]. intros _.
  destruct (Rule.effect r) eqn:E; [left|right]; exists r; set_solver.
Qed.

#[export] Instance denies_perm : Proper ((≡ₚ) ==> iff) denies.
Proof. intros l1 l2 H. unfold denies. by setoid_rewrite H. Qed.
#[export] Instance allows_perm : Proper ((≡ₚ) ==> iff) allows.
Proof. intros l1 l2 H. unfold allows. by setoid_rewrite H. Qed.

(** The class the matrix is consulted with. *)
Definition rated (e : Effect.t) : Reversibility :=
  if Effect.is_structural e then Reversibility.damped (Effect.reversibility e)
  else Effect.reversibility e.

(** ** The gate *)

Definition permitted (r : Request.t) : bool :=
  ToolClass.permits (Request.class r) (Request.invoker r).

(** The gate as one decision list over propositions. *)
Lemma gate_cases r m rules :
  (denies rules ∧ ∃ s, gate r m rules = Outcome.Refuse (ByRule s)) ∨
  (¬ denies rules ∧ permitted r = false ∧ gate r m rules = Outcome.Refuse Authority) ∨
  (¬ denies rules ∧ permitted r = true ∧ Effect.is_escape_hatch (Request.effect r) = true ∧
     gate r m rules = Outcome.Ask r ByEscapeHatch) ∨
  (¬ denies rules ∧ permitted r = true ∧ Effect.is_escape_hatch (Request.effect r) = false ∧
     (rules ≠ [] ∧ gate r m rules = Outcome.Run ∨
      rules = [] ∧ gate r m rules =
        match Mode.decide m (rated (Request.effect r)) with
        | Run => Outcome.Run
        | Prompt => Outcome.Ask r Matrix
        | Refuse => Outcome.Refuse ByPlan
        end)).
Proof.
  unfold gate, permitted, decide_call, rated.
  destruct (resolve rules) as [[]|] eqn:Hr.
  - apply resolve_Allow in Hr as [Hd Ha].
    assert (rules ≠ []) by (apply denies_nonempty; auto).
    repeat case_match; to_prop; simplify_eq; tauto.
  - apply resolve_Deny in Hr. eauto.
  - apply resolve_None in Hr as ->.
    assert (¬ denies []) by (intros (? & ? & _); set_solver).
    repeat case_match; to_prop; simplify_eq; tauto.
Qed.

(** The branch a call of the gate takes. *)
Ltac split_gate r m rules :=
  destruct (gate_cases r m rules) as
    [(?&?&->)|[(?&?&->)|[(?&?&?&->)|(?&?&?&[[? ->]|[? ->]])]]].

(** Case analysis on what an outcome says. *)
Ltac solve_outcome :=
  split_and!; try split; intros;
  repeat match goal with
  | H : _ ∧ _ |- _ => destruct H
  | H : ∃ _, _ |- _ => destruct H
  | H : _ ∨ _ |- _ => destruct H
  end;
  split_and?; try congruence; eauto.

(** C6. The gate runs a request without asking exactly when no rule denies it,
    its tool class permits the invoker, it does not ask a guard to step aside,
    and either an allow rule is present or the mode's matrix runs the effect's
    class (damped for a structural edit).  A deny refuses in every mode, whoever
    invokes and whatever else is allowed; an authority failure is refused in every
    mode; and an escape hatch is never run: under every mode and every allow rule
    it is asked or refused. *)
Theorem gate_run_iff (r : Request.t) (m : Mode) (rules : list Rule.t) :
  (gate r m rules = Outcome.Run ↔
     ¬ denies rules ∧ permitted r = true ∧
     Effect.is_escape_hatch (Request.effect r) = false ∧
     (allows rules ∨ Mode.decide m (rated (Request.effect r)) = Run ∧ rules = [])) ∧
  ((∃ s, gate r m rules = Outcome.Refuse (ByRule s)) ↔ denies rules) ∧
  (gate r m rules = Outcome.Refuse Authority ↔ ¬ denies rules ∧ permitted r = false) ∧
  (Effect.is_escape_hatch (Request.effect r) = true →
     gate r m rules = Outcome.Ask r ByEscapeHatch ∨
     ∃ why, gate r m rules = Outcome.Refuse why).
Proof.
  pose proof (denies_nonempty rules) as Hne.
  destruct (gate_cases r m rules) as
    [(Hd & s & ->)|[(Hd & Hp & ->)|[(Hd & Hp & He & ->)|(Hd & Hp & He & Hc)]]].
  1-3: solve_outcome.
  destruct Hc as [[Hn ->]|[Hn ->]].
  - assert (allows rules) by tauto. solve_outcome.
  - assert (¬ allows rules) by tauto.
    destruct (Mode.decide m _) eqn:Hdec; solve_outcome.
Qed.

Lemma gate_run_iff_witness :
  Effect.is_escape_hatch (Effect.EscapeHatch "sandbox") = true ∧
  (gate (Request.mk (Effect.EscapeHatch "sandbox") ToolClass.Agent Invoker.User "off") Yolo
     [Rule.mk RuleSource.Session Allow] =
   Outcome.Ask (Request.mk (Effect.EscapeHatch "sandbox") ToolClass.Agent Invoker.User "off")
     ByEscapeHatch ∨
   ∃ why, gate (Request.mk (Effect.EscapeHatch "sandbox") ToolClass.Agent Invoker.User "off")
     Yolo [Rule.mk RuleSource.Session Allow] = Outcome.Refuse why).
Proof.
  split; [reflexivity|].
  apply (gate_run_iff
    (Request.mk (Effect.EscapeHatch "sandbox") ToolClass.Agent Invoker.User "off") Yolo
    [Rule.mk RuleSource.Session Allow]).
  reflexivity.
Defined.

(** How much an outcome lets through: refused, asked, run. *)
Definition leniency (o : Outcome.t) : nat :=
  match o with Outcome.Refuse _ => 0 | Outcome.Ask _ _ => 1 | Outcome.Run => 2 end.

Definition decision_leniency (d : Decision) : nat :=
  match d with Refuse => 0 | Prompt => 1 | Run => 2 end.

Lemma mode_decide_mono m m' r r' :
  Mode.ord m ≤ Mode.ord m' → Reversibility.ord r' ≤ Reversibility.ord r →
  decision_leniency (Mode.decide m r) ≤ decision_leniency (Mode.decide m' r').
Proof. destruct m, m', r, r'; simpl; lia. Qed.

(** Consent is monotone and insensitive to rule order.  A more permissive
    mode (plan, ask, auto, yolo in that order) never makes the gate stricter on
    the same request and rules; reordering the rules never changes whether a
    request runs, is asked or is refused; and adding an allow rule to a
    non-denied request never makes it stricter, while adding a deny rule always
    refuses. *)
Theorem gate_monotone (r : Request.t) (m m' : Mode) (rules rules' : list Rule.t) :
  (Mode.ord m ≤ Mode.ord m' →
     leniency (gate r m rules) ≤ leniency (gate r m' rules)) ∧
  (rules ≡ₚ rules' → leniency (gate r m rules) = leniency (gate r m rules')) ∧
  (∀ s, leniency (gate r m rules) ≤ leniency (gate r m (Rule.mk s Allow :: rules)) ∧
        leniency (gate r m (Rule.mk s Deny :: rules)) = 0).
Proof.
  split_and!.
  - intros Hm. pose proof (mode_decide_mono m m' (rated (Request.effect r)) _ Hm (le_n _)).
    split_gate r m rules; split_gate r m' rules; try done; try congruence; simpl; try lia.
    repeat case_match; simpl in *; lia.
  - intros Hp. assert (denies rules ↔ denies rules') by (by rewrite Hp).
    assert (rules = [] ↔ rules' = []).
    { split; intros ->; [by apply Permutation_nil|by apply Permutation_nil_r]. }
    split_gate r m rules; split_gate r m rules'; try done; try congruence; try tauto.
  - intros s. split.
    + assert (denies (Rule.mk s Allow :: rules) ↔ denies rules).
      { unfold denies. setoid_rewrite elem_of_cons. naive_solver. }
      split_gate r m rules; split_gate r m (Rule.mk s Allow :: rules); try done; try congruence; try tauto;
        simpl; try lia.
      repeat case_match; simpl; lia.
    + assert (Hd : denies (Rule.mk s Deny :: rules)) by (eexists; split; [left|done]).
      apply resolve_Deny in Hd. unfold gate. by rewrite Hd.
Qed.

Lemma gate_monotone_witness :
  Mode.ord Ask ≤ Mode.ord Yolo ∧
  leniency (gate (Request.mk Effect.BlindEdit ToolClass.Agent Invoker.Agent "e") Ask []) ≤
  leniency (gate (Request.mk Effect.BlindEdit ToolClass.Agent Invoker.Agent "e") Yolo []).
Proof.
  split; [simpl; lia|].
  apply (gate_monotone (Request.mk Effect.BlindEdit ToolClass.Agent Invoker.Agent "e")
    Ask Yolo [] []). simpl; lia.
Defined.

(** Plan mode is not read-only: the damping of a structural edit from R1 to
    R0 is applied before the mode matrix, so the gate runs a structural edit
    without asking in every mode, plan and ask included, whenever the class
    permits the invoker; the same edit without the structural shape is refused in
    plan mode and asked about in ask mode. *)
Theorem structural_edit_runs_in_every_mode
    (basis : RecoveryBasis) (class : ToolClass.t) (invoker : Invoker.t) (summary : string)
    (Hp : ToolClass.permits class invoker = true) :
  (∀ m, gate (Request.mk (Effect.StructuralEdit basis) class invoker summary) m [] = Outcome.Run) ∧
  gate (Request.mk (Effect.RecoverableEdit basis) class invoker summary) Plan [] =
    Outcome.Refuse ByPlan ∧
  gate (Request.mk (Effect.RecoverableEdit basis) class invoker summary) Ask [] =
    Outcome.Ask (Request.mk (Effect.RecoverableEdit basis) class invoker summary) Matrix.
Proof.
  split_and!; [intros m|..]; unfold gate, decide_call; simpl; rewrite Hp; simpl; [|done..].
  by destruct m.
Qed.

Lemma structural_edit_runs_in_every_mode_witness :
  ToolClass.permits ToolClass.Agent Invoker.Agent = true ∧
  gate (Request.mk (Effect.StructuralEdit GitClean) ToolClass.Agent Invoker.Agent "splice")
    Plan [] = Outcome.Run.
Proof.
  split; [reflexivity|].
  apply (structural_edit_runs_in_every_mode GitClean ToolClass.Agent Invoker.Agent "splice").
  reflexivity.
Defined.

(** ** Batches *)

Lemma resolve_items_lookup items answers i :
  Batch.resolve_items items answers !! i =
  (λ request, if default false (answers !! i) then Outcome.Run
              else Outcome.Refuse (NotAnswered (Request.summary request))) <$> items !! i.
Proof.
  revert answers i. induction items as [|x items IH]; intros answers i; simpl; [done|].
  destruct answers as [|a answers], i as [|i]; simpl; try done; rewrite IH; by destruct i.
Qed.

(** A batch of questions is answered item by item and fails closed.
    Collecting keeps exactly the asked requests in order and refuses an empty
    batch; resolving gives one outcome per item, running item [i] exactly when
    the [i]-th answer exists and is yes, so a missing answer never runs
    anything. *)
Theorem batch_fails_closed (outcomes : list Outcome.t) (answers : list bool) :
  match Batch.collect outcomes with
  | Err e => e = EmptyBatch ∧ ∀ r why, Outcome.Ask r why ∉ outcomes
  | Ok b =>
      Batch.items b = omap Batch.asked outcomes ∧ Batch.items b ≠ [] ∧
      length (Batch.resolve b answers) = length (Batch.items b) ∧
      (∀ i, Batch.resolve b answers !! i = Some Outcome.Run ↔
            i < length (Batch.items b) ∧ answers !! i = Some true) ∧
      (∀ i o, Batch.resolve b answers !! i = Some o → o ≠ Outcome.Run →
         ∃ r, Batch.items b !! i = Some r ∧
              o = Outcome.Refuse (NotAnswered (Request.summary r)))
  end.
Proof.
  unfold Batch.collect. case_bool_decide as He.
  - split; [done|]. intros r why Hin.
    assert (r ∈ omap Batch.asked outcomes) as Hr.
    { apply list_elem_of_omap. eexists; split; [done|done]. }
    rewrite He in Hr. set_solver.
  - set (items := omap Batch.asked outcomes) in *. unfold Batch.resolve. simpl.
    split_and!; try done.
    + clear. revert answers. induction items as [|x items IH]; intros; simpl; [done|].
      destruct answers; simpl; by rewrite IH.
    + intros i. rewrite resolve_items_lookup. rewrite <- lookup_lt_is_Some.
      destruct (items !! i) as [r|] eqn:Hi; simpl.
      * destruct (answers !! i) as [[]|]; simpl; naive_solver.
      * split; [done|]. intros [[? [=]] _].
    + intros i o. rewrite resolve_items_lookup.
      destruct (items !! i) as [r|] eqn:Hi; simpl; [|done].
      intros [= <-] Ho. exists r. destruct (default false (answers !! i)); done.
Qed.
