(* ===== verification/CohortSizing.v ===== *)
(** * Elastic sizing: [crates/supra_cohort]

    Signal bands, the evidence ladder, admission records, escalation, and the
    task shape and profile a later task learns from.  Counts are [nat]; a
    [String] of a task shape is the list of its Unicode scalar values, since the
    key counts [chars()]. *)

From Stdlib Require Import Ascii.
From S2P Require Import Prelude Text Cohort Permission.

(** ** Bands: [signals.rs] *)

Module BlastBand.
Inductive t := Isolated | Contained | Wide.

#[global] Instance t_eq_dec : EqDecision t.
Proof. solve_decision. Defined.

Definition of_ (dependents : nat) : t :=
  if dependents <=? 1 then Isolated
  else if dependents <=? 10 then Contained
  else Wide.

Definition ord (b : t) : nat := match b with Isolated => 0 | Contained => 1 | Wide => 2 end.
End BlastBand.

Module ChurnBand.
Inductive t := Calm | Active | Hot.

#[global] Instance t_eq_dec : EqDecision t.
Proof. solve_decision. Defined.

Definition of_ (commits_90d : nat) : t :=
  if commits_90d =? 0 then Calm
  else if commits_90d <=? 5 then Active
  else Hot.

Definition ord (b : t) : nat := match b with Calm => 0 | Active => 1 | Hot => 2 end.
End ChurnBand.

Module AnchorBand.
Inductive t := None | Few | Many.

#[global] Instance t_eq_dec : EqDecision t.
Proof. solve_decision. Defined.

Definition of_ (anchors : nat) : t :=
  if anchors =? 0 then None
  else if anchors <=? 4 then Few
  else Many.

Definition ord (b : t) : nat := match b with None => 0 | Few => 1 | Many => 2 end.
End AnchorBand.

Module Signals.
Record t := mk {
  blast : BlastBand.t;
  churn : ChurnBand.t;
  anchors : AnchorBand.t;
  reversibility : Reversibility;
  active_findings : nat;
  repeat_failures : nat;
}.

Definition minimal : t :=
  mk BlastBand.Isolated ChurnBand.Calm AnchorBand.None R0 0 0.
End Signals.

(** ** The ladder: [score.rs] *)

Module AreaFlags.
Record t := mk { sensitive_area : bool; force_full : bool }.

Definition none : t := mk false false.

(** One path component, after [to_lowercase]; the model folds ASCII letters,
    and no other letter lowers to one the patterns below contain. *)
Definition sensitive_component (component : list ascii) : bool :=
  let lower := Text.lower <$> component in
  let stem :=
    match strip_suffix (bytes ".rs") lower with
    | Some s => s
    | Datatypes.None => default lower (strip_suffix (bytes ".ts") lower)
    end in
  let stem := default stem (strip_suffix (bytes ".py") stem) in
  bool_decide (stem = bytes "auth") || bool_decide (stem = bytes "crypto") ||
  starts_with (bytes "migrat") stem.

Definition is_separator (c : ascii) : bool :=
  bool_decide (c = "/"%char) || bool_decide (c = "\"%char).

Definition of_paths (paths : list string) : t :=
  mk (existsb (λ path,
        existsb sensitive_component
          (List.filter (λ component, negb (bool_decide (component = [])))
             (split_on is_separator (bytes path)))) paths)
     false.
End AreaFlags.

Definition estimate (signals : Signals.t) (areas : AreaFlags.t) : Tier :=
  let tier := E0 in
  let tier :=
    if AreaFlags.force_full areas || (2 <=? Signals.repeat_failures signals)
    then Tier.max tier E5 else tier in
  let tier :=
    if AreaFlags.sensitive_area areas || (0 <? Signals.active_findings signals)
    then Tier.max tier E4 else tier in
  let tier :=
    if bool_decide (Signals.blast signals = BlastBand.Wide) ||
       bool_decide (Signals.churn signals = ChurnBand.Hot)
    then Tier.max tier E3 else tier in
  let tier :=
    if bool_decide (Signals.blast signals = BlastBand.Contained) ||
       bool_decide (Signals.anchors signals = AnchorBand.Many) ||
       bool_decide (Signals.churn signals = ChurnBand.Active) ||
       bool_decide (Signals.reversibility signals = R3)
    then Tier.max tier E2 else tier in
  if (Reversibility.ord R1 <=? Reversibility.ord (Signals.reversibility signals)) ||
     bool_decide (Signals.anchors signals = AnchorBand.Few)
  then Tier.max tier E1 else tier.

(** ** Admission and escalation: [admit.rs] *)

Module Admission.
Record t := mk {
  requested : Tier;
  tier : Tier;
  k : nat;
  needed : nat;
  faulty : nat;
  shards : nat;
  limit : nat;
}.

Definition decide (requested : Tier) (limit : nat) : option t :=
  '(tier, k) ← admit_tier requested limit;
  Some (mk requested tier k (quorum k) (byzantine_tolerance k) (shards_needed k) limit).

Definition reduced (a : t) : bool :=
  negb (Tier.ord (tier a) =? Tier.ord (requested a)).
End Admission.

Inductive Escalation := UnreachableQuorum | BlindMismatch | FindingConfirmed.

Definition next_tier (e : Escalation) (current : Tier) : Tier :=
  match e with
  | UnreachableQuorum | BlindMismatch =>
      match current with
      | E0 | E1 => E2
      | E2 => E3
      | E3 => E4
      | E4 | E5 => E5
      end
  | FindingConfirmed =>
      match current with
      | E0 => E1
      | E1 => E2
      | E2 => E3
      | E3 => E4
      | E4 | E5 => E5
      end
  end.

(** ** Task shapes and profiles: [profile.rs] *)

Module TaskShape.
Record t := mk {
  tool_classes : list (list N);
  areas : list (list N);
  reversibility : list N;
}.

(** The scalar values of an ASCII numeral or delimiter. *)
Definition scalar (c : ascii) : N := N_of_ascii c.

Definition encode_one (value : list N) : list N :=
  (scalar <$> dec (N.of_nat (length value))) ++ [scalar ":"] ++ value ++ [scalar ","].

Definition encode (values : list (list N)) : list N := concat (encode_one <$> values).

Definition key (s : t) : list N :=
  encode (tool_classes s) ++ [scalar "|"] ++
  encode (areas s) ++ [scalar "|"] ++
  encode [reversibility s].
End TaskShape.

Module TaskProfile.
Record t := mk { repeat_failures : nat; last_tier : Tier }.

Definition fresh : t := mk 0 E0.

Definition succeeded (p : t) (tier : Tier) : t := mk 0 tier.

Definition failed (p : t) (tier : Tier) : t :=
  mk (if 2 <=? repeat_failures p then 2 else repeat_failures p + 1) tier.

(** One task's outcome, [true] for a success. *)
Definition after (p : t) (outcome : bool * Tier) : t :=
  if outcome.1 then succeeded p outcome.2 else failed p outcome.2.

Definition run (p : t) (history : list (bool * Tier)) : t := foldl after p history.
End TaskProfile.

(** ** The ladder as a maximum of floors *)

(** The rules of [score.rs]'s header with the floor each one sets. *)
Definition ladder (s : Signals.t) (a : AreaFlags.t) : list (bool * Tier) :=
  [ (AreaFlags.force_full a || (2 <=? Signals.repeat_failures s), E5);
    (AreaFlags.sensitive_area a || (0 <? Signals.active_findings s), E4);
    (bool_decide (Signals.blast s = BlastBand.Wide) ||
     bool_decide (Signals.churn s = ChurnBand.Hot), E3);
    (bool_decide (Signals.blast s = BlastBand.Contained) ||
     bool_decide (Signals.anchors s = AnchorBand.Many) ||
     bool_decide (Signals.churn s = ChurnBand.Active) ||
     bool_decide (Signals.reversibility s = R3), E2);
    ((Reversibility.ord R1 <=? Reversibility.ord (Signals.reversibility s)) ||
     bool_decide (Signals.anchors s = AnchorBand.Few), E1) ].

(** The rank of the strongest floor among the rules that fire. *)
Fixpoint floor_ord (rules : list (bool * Tier)) : nat :=
  match rules with
  | [] => 0
  | (fires, t) :: rules => Nat.max (if fires then Tier.ord t else 0) (floor_ord rules)
  end.

#[export] Instance floor_ord_perm : Proper ((≡ₚ) ==> (=)) floor_ord.
Proof.
  induction 1 as [|[[] ?] ? ? ? IH|[[] ?] [[] ?]|? ? ? ? IH1 ? IH2]; simpl; lia.
Qed.

Lemma floor_ord_le rules n :
  floor_ord rules ≤ n ↔ ∀ t, (true, t) ∈ rules → Tier.ord t ≤ n.
Proof.
  induction rules as [|[b t] rules IH]; simpl.
  - split; [intros; set_solver|lia].
  - rewrite Nat.max_lub_iff, IH. setoid_rewrite elem_of_cons.
    destruct b; split; [intros [? ?] ? [[= ->]|?]; auto|intros H; split; eauto|..].
    + intros [? ?] ? [[=]|?]; auto.
    + intros H; split; [lia|eauto].
Qed.

Lemma estimate_ord s a : Tier.ord (estimate s a) = floor_ord (ladder s a).
Proof.
  unfold estimate, ladder, floor_ord.
  repeat match goal with |- context [if ?b then _ else _] => destruct b end;
    reflexivity.
Qed.

(** Evidence order: every signal of the second task is at least the first's. *)
Definition evidence_le (s : Signals.t) (a : AreaFlags.t) (s' : Signals.t) (a' : AreaFlags.t) : Prop :=
  BlastBand.ord (Signals.blast s) ≤ BlastBand.ord (Signals.blast s') ∧
  ChurnBand.ord (Signals.churn s) ≤ ChurnBand.ord (Signals.churn s') ∧
  AnchorBand.ord (Signals.anchors s) ≤ AnchorBand.ord (Signals.anchors s') ∧
  Reversibility.ord (Signals.reversibility s) ≤ Reversibility.ord (Signals.reversibility s') ∧
  Signals.active_findings s ≤ Signals.active_findings s' ∧
  Signals.repeat_failures s ≤ Signals.repeat_failures s' ∧
  implb (AreaFlags.sensitive_area a) (AreaFlags.sensitive_area a') = true ∧
  implb (AreaFlags.force_full a) (AreaFlags.force_full a') = true.

(** What the ladder reports of the four enumerated signals. *)
Definition band_floor (b : BlastBand.t) (c : ChurnBand.t) (n : AnchorBand.t) (r : Reversibility) : nat :=
  Nat.max (Nat.max (match b with BlastBand.Wide => 3 | BlastBand.Contained => 2 | _ => 0 end)
                   (match c with ChurnBand.Hot => 3 | ChurnBand.Active => 2 | _ => 0 end))
          (Nat.max (match n with AnchorBand.Many => 2 | AnchorBand.Few => 1 | _ => 0 end)
                   (match r with R3 => 2 | R2 | R1 => 1 | R0 => 0 end)).

Lemma estimate_band_floor s a :
  Tier.ord (estimate s a) =
  Nat.max (Nat.max (if AreaFlags.force_full a || (2 <=? Signals.repeat_failures s) then 5 else 0)
                   (if AreaFlags.sensitive_area a || (0 <? Signals.active_findings s) then 4 else 0))
          (band_floor (Signals.blast s) (Signals.churn s) (Signals.anchors s)
             (Signals.reversibility s)).
Proof.
  rewrite estimate_ord. destruct s as [b c n r f p]. unfold ladder, floor_ord.
  cbn [Signals.blast Signals.churn Signals.anchors Signals.reversibility
       Signals.active_findings Signals.repeat_failures Tier.ord].
  rewrite !Nat.max_assoc. rewrite <- !Nat.max_assoc. do 2 f_equal.
  by destruct b, c, n, r.
Qed.

Lemma band_floor_mono b c n r b' c' n' r' :
  BlastBand.ord b ≤ BlastBand.ord b' → ChurnBand.ord c ≤ ChurnBand.ord c' →
  AnchorBand.ord n ≤ AnchorBand.ord n' → Reversibility.ord r ≤ Reversibility.ord r' →
  band_floor b c n r ≤ band_floor b' c' n' r'.
Proof.
  intros Hb Hc Hn Hr. unfold band_floor.
  apply Nat.max_le_compat; apply Nat.max_le_compat;
    [destruct b, b'|destruct c, c'|destruct n, n'|destruct r, r']; simpl in *; lia.
Qed.

(** The tier estimate is the maximum of the floors of the rules that fire,
    whatever order the rules are evaluated in, and is monotone in the evidence:
    a task whose every signal is at least another's never earns a weaker tier. *)
Theorem estimate_is_ladder_maximum (s s' : Signals.t) (a a' : AreaFlags.t) :
  (∀ rules, rules ≡ₚ ladder s a →
     Tier.ord (estimate s a) = floor_ord rules ∧
     (∀ t, (true, t) ∈ rules → Tier.le t (estimate s a)) ∧
     (estimate s a = E0 ∨ (true, estimate s a) ∈ rules)) ∧
  (evidence_le s a s' a' → Tier.le (estimate s a) (estimate s' a')).
Proof.
  split.
  - intros rules Hp. rewrite Hp, estimate_ord. split_and!; [done|..].
    + intros t Ht. unfold Tier.le. rewrite estimate_ord.
      rewrite Hp in Ht. by apply (floor_ord_le (ladder s a) _).
    + unfold estimate, ladder.
      repeat match goal with |- context [if ?b then _ else _] => destruct b end;
        simpl; rewrite ?elem_of_cons; tauto.
  - intros (? & ? & ? & ? & ? & ? & Hs & Hf). unfold Tier.le.
    rewrite !estimate_band_floor.
    apply Nat.max_le_compat; [|by apply band_floor_mono].
    destruct (AreaFlags.force_full a), (AreaFlags.force_full a'),
      (AreaFlags.sensitive_area a), (AreaFlags.sensitive_area a'); try done; simpl;
      repeat case_match; to_prop; lia.
Qed.

Lemma estimate_is_ladder_maximum_witness :
  evidence_le Signals.minimal AreaFlags.none
    (Signals.mk BlastBand.Wide ChurnBand.Calm AnchorBand.Few R1 0 1) AreaFlags.none ∧
  Tier.le (estimate Signals.minimal AreaFlags.none)
    (estimate (Signals.mk BlastBand.Wide ChurnBand.Calm AnchorBand.Few R1 0 1) AreaFlags.none).
Proof.
  assert (H : evidence_le Signals.minimal AreaFlags.none
    (Signals.mk BlastBand.Wide ChurnBand.Calm AnchorBand.Few R1 0 1) AreaFlags.none)
    by (vm_compute; repeat split; lia).
  split; [exact H|].
  apply (estimate_is_ladder_maximum Signals.minimal
    (Signals.mk BlastBand.Wide ChurnBand.Calm AnchorBand.Few R1 0 1)
    AreaFlags.none AreaFlags.none). exact H.
Defined.

(** ** Profiles and escalation *)

(** Failures since the last success, latest last. *)
Definition trailing_failures (history : list (bool * Tier)) : nat :=
  foldl (λ n (outcome : bool * Tier), if outcome.1 then 0 else S n) 0 history.

Lemma profile_run_snoc p history o :
  TaskProfile.run p (history ++ [o]) = TaskProfile.after (TaskProfile.run p history) o.
Proof. unfold TaskProfile.run. by rewrite foldl_app. Qed.

Lemma trailing_snoc history o :
  trailing_failures (history ++ [o]) = if o.1 then 0 else S (trailing_failures history).
Proof. unfold trailing_failures. by rewrite foldl_app. Qed.

Lemma profile_failures history :
  TaskProfile.repeat_failures (TaskProfile.run TaskProfile.fresh history) =
  Nat.min 2 (trailing_failures history).
Proof.
  induction history as [|[ok t] history IH] using rev_ind; [done|].
  rewrite profile_run_snoc, trailing_snoc. unfold TaskProfile.after, fst.
  destruct ok; [done|]. cbn [TaskProfile.failed TaskProfile.repeat_failures].
  rewrite IH. generalize (trailing_failures history) as n. intros n.
  case_match; to_prop; lia.
Qed.

(** Profiles saturate and recover, and escalation makes progress.  After any
    history of a task shape the profile counts the failures since the last
    success, saturated at two, and remembers the tier of the last task; a task
    carrying a saturated profile is estimated at E5 whatever its other signals
    are, and an escalation never lowers the tier, strictly raises it below E5,
    and takes any tier to E5 within five steps. *)
Theorem profile_escalation (history : list (bool * Tier)) :
  TaskProfile.repeat_failures (TaskProfile.run TaskProfile.fresh history) =
    Nat.min 2 (trailing_failures history) ∧
  TaskProfile.last_tier (TaskProfile.run TaskProfile.fresh history) =
    default E0 (snd <$> last history) ∧
  (∀ s a, Signals.repeat_failures s =
          TaskProfile.repeat_failures (TaskProfile.run TaskProfile.fresh history) →
     2 ≤ trailing_failures history → estimate s a = E5) ∧
  (∀ e t, Tier.le t (next_tier e t) ∧ (t ≠ E5 → next_tier e t ≠ t) ∧
          Nat.iter 5 (next_tier e) t = E5).
Proof.
  split_and!.
  - apply profile_failures.
  - induction history as [|[ok t] history IH] using rev_ind; [done|].
    rewrite profile_run_snoc, last_snoc. by destruct ok.
  - intros s a Hs Ht. rewrite profile_failures in Hs.
    assert (Hord : Tier.ord (estimate s a) = 5).
    { rewrite estimate_band_floor, Hs.
      replace (2 <=? Nat.min 2 _) with true by (symmetry; apply Nat.leb_le; lia).
      rewrite orb_true_r.
      assert (band_floor (Signals.blast s) (Signals.churn s) (Signals.anchors s)
        (Signals.reversibility s) ≤ 3)
        by (unfold band_floor; repeat case_match; lia).
      case_match; lia. }
    by destruct (estimate s a).
  - intros [] []; vm_compute; split_and!; try done; lia.
Qed.

Lemma profile_escalation_witness :
  2 ≤ trailing_failures [(false, E1); (false, E2)] ∧
  estimate (Signals.mk BlastBand.Isolated ChurnBand.Calm AnchorBand.None R0 0 2) AreaFlags.none = E5.
Proof.
  split; [vm_compute; lia|].
  apply (profile_escalation [(false, E1); (false, E2)]); [reflexivity|vm_compute; lia].
Defined.

(** An admission record is internally consistent: it exists exactly for a
    non-zero limit, carries the quorum, the tolerance and the shard count of its
    own cohort size, fits the limit, and reports [reduced] exactly when the tier
    that runs is strictly weaker than the one requested, which happens exactly
    when the requested tier's smallest cohort exceeds the limit. *)
Theorem admission_consistent (requested : Tier) (limit : nat) :
  match Admission.decide requested limit with
  | None => limit = 0
  | Some a =>
      limit ≠ 0 ∧
      Admission.needed a = quorum (Admission.k a) ∧
      Admission.needed a + Admission.faulty a ≤ Admission.k a ≤ limit ∧
      Admission.k a ≤ Admission.shards a * MAX_REQUESTS_PER_MINUTE ∧
      (Admission.reduced a = true ↔ Admission.tier a ≠ requested) ∧
      (Admission.reduced a = true ↔ limit < (Tier.k_range requested).1)
  end.
Proof.
  unfold Admission.decide. pose proof (admit_spec requested limit) as H.
  destruct (admit_tier requested limit) as [[tier k]|]; simpl; [|done].
  destruct H as (Hle & Hbest & Hfloor & Hk & Hin).
  assert (Hkpos : 0 < k) by (destruct tier; simpl in Hin; lia).
  assert (Hred : Admission.reduced (Admission.mk requested tier k (quorum k)
    (byzantine_tolerance k) (shards_needed k) limit) = true ↔ tier ≠ requested).
  { unfold Admission.reduced. simpl. rewrite negb_true_iff, Nat.eqb_neq.
    destruct tier, requested; simpl; split; done || lia. }
  split_and!; try done; try lia.
  - pose proof (quorum_least k (k - byzantine_tolerance k)).
    pose proof (byzantine_spec k Hkpos). lia.
  - apply shards_needed_spec.
  - rewrite Hred. split.
    + intros Hne. destruct (decide (limit < (Tier.k_range requested).1)); [done|].
      exfalso. apply Hne, (anti_symm Tier.le); [done|]. apply Hbest; [done|lia].
    + intros Hlt ->. lia.
Qed.

(** ** Shape keys *)

Definition is_digit_scalar (n : N) : Prop := (48 <= n <= 57)%N.

#[export] Instance scalar_inj : Inj (=) (=) TaskShape.scalar.
Proof.
  intros a b H. unfold TaskShape.scalar in H.
  rewrite <- (ascii_N_embedding a), <- (ascii_N_embedding b). by f_equal.
Qed.

Lemma dec_scalars n : Forall is_digit_scalar (TaskShape.scalar <$> dec n).
Proof.
  destruct (dec_digits n) as (_ & H & _). apply Forall_fmap.
  eapply Forall_impl; [exact H|]. intros c Hc. simpl.
  unfold is_digit, digit_value in Hc. unfold is_digit_scalar, TaskShape.scalar.
  case_match eqn:E; [|done]. case_match; [|done]. lia.
Qed.

Lemma encode_one_inj v v' r r' :
  TaskShape.encode_one v ++ r = TaskShape.encode_one v' ++ r' → v = v' ∧ r = r'.
Proof.
  unfold TaskShape.encode_one. rewrite <- !(assoc_L (++)). simpl.
  intros H. apply (app_delim_inj is_digit_scalar) in H as (Hd & _ & H);
    [|apply dec_scalars|apply dec_scalars|vm_compute; naive_solver..].
  apply (inj (fmap TaskShape.scalar)) in Hd. apply (inj dec) in Hd.
  apply app_inj_1 in H as [-> H]; [|lia]. by simplify_eq.
Qed.

Lemma encode_one_head v r : ∃ d t, TaskShape.encode_one v ++ r = d :: t ∧ is_digit_scalar d.
Proof.
  unfold TaskShape.encode_one. pose proof (dec_scalars (N.of_nat (length v))) as H.
  destruct (dec_digits (N.of_nat (length v))) as (Hne & _ & _).
  destruct (dec _) as [|c l]; [done|]. simpl in *. decompose_Forall_hyps. eauto.
Qed.

Lemma encode_cons v vs t :
  TaskShape.encode (v :: vs) ++ t = TaskShape.encode_one v ++ TaskShape.encode vs ++ t.
Proof. unfold TaskShape.encode. rewrite fmap_cons. simpl. by rewrite (assoc_L (++)). Qed.

(** A block of encoded values ends at the first character that is not a digit. *)
Lemma encode_inj vs vs' x x' r r' :
  ¬ is_digit_scalar x → ¬ is_digit_scalar x' →
  TaskShape.encode vs ++ x :: r = TaskShape.encode vs' ++ x' :: r' →
  vs = vs' ∧ x = x' ∧ r = r'.
Proof.
  intros Hx Hx'. revert vs'.
  induction vs as [|v vs IH]; intros [|v' vs']; rewrite ?encode_cons.
  - by intros [= -> ->].
  - destruct (encode_one_head v' (TaskShape.encode vs' ++ x' :: r')) as (d & t & -> & Hd).
    intros [= -> _]. done.
  - destruct (encode_one_head v (TaskShape.encode vs ++ x :: r)) as (d & t & -> & Hd).
    intros [= <- _]. done.
  - intros H. apply encode_one_inj in H as [-> H].
    destruct (IH vs' H) as (-> & -> & ->). done.
Qed.

(** Task shapes never alias: two shapes with the same key are equal, whatever
    delimiters, digits or empty strings their fields contain - in particular the
    key is sensitive to the order of the lists it is given. *)
Theorem task_shape_key_injective (s s' : TaskShape.t)
    (Hk : TaskShape.key s = TaskShape.key s') : s = s'.
Proof.
  destruct s as [c a r], s' as [c' a' r']. unfold TaskShape.key in Hk. simpl in Hk.
  assert (Hbar : ¬ is_digit_scalar (TaskShape.scalar "|")) by (vm_compute; naive_solver).
  apply encode_inj in Hk as (-> & _ & Hk); [|done|done].
  apply encode_inj in Hk as (-> & _ & Hk); [|done|done].
  rewrite <- (app_nil_r (TaskShape.encode [r])), <- (app_nil_r (TaskShape.encode [r'])) in Hk.
  unfold TaskShape.encode in Hk. simpl in Hk. rewrite !app_nil_r in Hk.
  rewrite <- (app_nil_r (TaskShape.encode_one r)), <- (app_nil_r (TaskShape.encode_one r')) in Hk.
  by apply encode_one_inj in Hk as [-> _].
Qed.

Lemma task_shape_key_injective_witness :
  TaskShape.key (TaskShape.mk [[97; 44; 98]%N] [] [82%N]) =
  TaskShape.key (TaskShape.mk [[97; 44; 98]%N] [] [82%N]) ∧
  TaskShape.mk [[97; 44; 98]%N] [] [82%N] = TaskShape.mk [[97; 44; 98]%N] [] [82%N].
Proof.
  split; [reflexivity|].
  apply (task_shape_key_injective (TaskShape.mk [[97; 44; 98]%N] [] [82%N])
    (TaskShape.mk [[97; 44; 98]%N] [] [82%N])). reflexivity.
Defined.
