(* ===== verification/Sealing.v ===== *)
(** * Content hashes and seals: [supra_types/src/hash.rs], [sealed.rs], [id.rs]

    The canonical encoding is modelled byte for byte: a [CanonicalWriter] is the
    list of bytes fed to the hasher.  BLAKE3 itself is not code of the
    repository: it is the parameter [blake3] of everything that hashes, and
    statements about equal hashes name, as the alternative, the two texts of the run
    that would have to collide. *)

From Stdlib Require Import Ascii.
From S2P Require Import Prelude Text.

Abbreviation byte := ascii.

(** ** Identifiers: [id.rs]

    A ULID is its [u128]; the timestamp is its upper 48 bits. *)
Abbreviation Id := N.

Definition timestamp_ms (id : Id) : N := N.shiftr id 80.

Definition u128_bound : N := 2 ^ 128.
Definition u64_bound : N := 2 ^ 64.

(** ** The canonical writer: [hash.rs] *)

(** [n.to_le_bytes()] over [k] bytes. *)
Fixpoint le_bytes (k : nat) (n : N) : list byte :=
  match k with
  | 0 => []
  | S k => ascii_of_N (n `mod` 256) :: le_bytes k (n `div` 256)
  end.

Module CanonicalWriter.
(** [tag | length (u64 LE) | bytes]. *)
Definition bytes (tag : N) (value : list byte) : list byte :=
  ascii_of_N tag :: le_bytes 8 (N.of_nat (length value)) ++ value.

Definition str (tag : N) (value : string) : list byte := bytes tag (Text.bytes value).
Definition u64 (tag : N) (value : N) : list byte := bytes tag (le_bytes 8 value).
Definition u8 (tag : N) (value : N) : list byte := bytes tag [ascii_of_N value].
Definition bool (tag : N) (value : Datatypes.bool) : list byte :=
  u8 tag (if value then 1 else 0)%N.
Definition count (tag : N) (len : nat) : list byte := u64 tag (N.of_nat len).
Definition opt_str (tag : N) (value : option string) : list byte :=
  match value with
  | None => u8 tag 0
  | Some text => u8 tag 1 ++ str tag text
  end.
End CanonicalWriter.

(** [trait Sealable]: a kind byte and the canonical encoding of the contents. *)
Class Sealable (T : Type) := {
  CANONICAL_KIND : N;
  write_canonical : T → list byte;
}.

(** [writer.nested(tag, value)]. *)
Definition nested {T} `{Sealable T} (tag : N) (value : T) : list byte :=
  CanonicalWriter.u8 tag CANONICAL_KIND ++ write_canonical value.

(** What the hasher is fed for a value: the kind byte first. *)
Definition canonical {T} `{Sealable T} (value : T) : list byte :=
  ascii_of_N CANONICAL_KIND :: write_canonical value.

(** ** Content hashes *)

Definition HASH_LEN : nat := 32.
Definition HEX_LEN : nat := HASH_LEN * 2.

(** A digest is its 32 bytes. *)
Abbreviation ContentHash := (list byte).

Inductive ParseHashError :=
| Length (found : nat)
| NotHex (offset : nat).

#[export] Instance ParseHashError_eq_dec : EqDecision ParseHashError.
Proof. solve_decision. Defined.

(** [char::to_digit(16)]. *)
Definition hex_value (c : byte) : option N :=
  let n := N_of_ascii c in
  if (48 <=? n)%N && (n <=? 57)%N then Some (n - 48)%N
  else if (97 <=? n)%N && (n <=? 102)%N then Some (n - 87)%N
  else if (65 <=? n)%N && (n <=? 70)%N then Some (n - 55)%N
  else None.

(** [u8::from_str_radix(pair, 16)] on a two-byte slice.  The standard library
    accepts one leading [+] before the digits. *)
Definition u8_from_hex_pair (a b : byte) : option N :=
  if decide (a = "+"%char) then hex_value b
  else high ← hex_value a; low ← hex_value b; Some (16 * high + low)%N.

(** The loop of [from_hex]: [fuel] slots from byte [offset] on. *)
Fixpoint from_hex_pairs (offset : nat) (text : list byte) : result ContentHash ParseHashError :=
  match text with
  | a :: b :: text =>
      let? slot := ok_or (u8_from_hex_pair a b) (NotHex offset) in
      let? rest := from_hex_pairs (offset + 2) text in
      Ok (ascii_of_N slot :: rest)
  | _ => Ok []
  end.

Definition from_hex (text : list byte) : result ContentHash ParseHashError :=
  if negb (length text =? HEX_LEN) then Err (Length (length text))
  else from_hex_pairs 0 text.

(** [{byte:02x}] for every byte of the digest. *)
Definition hex_char (n : N) : byte :=
  if (n <? 10)%N then ascii_of_N (48 + n) else ascii_of_N (87 + n).

Definition to_hex (h : ContentHash) : list byte :=
  concat ((λ c, [hex_char (N_of_ascii c `div` 16); hex_char (N_of_ascii c `mod` 16)]) <$> h).

Definition short (h : ContentHash) : list byte := take 12 (to_hex h).

(** ** Seals: [sealed.rs] *)

Module SeqNo.
Definition ZERO : N := 0.
Definition next (s : N) : N := s + 1.
End SeqNo.

Module Sealed.
Record t (T : Type) := mk { seq : N; hash : ContentHash; value : T }.
Arguments mk {T} seq hash value.
Arguments seq {T} _.
Arguments hash {T} _.
Arguments value {T} _.

Section sealed.
Context (blake3 : list byte → list byte) {T : Type} `{Sealable T}.

(** [ContentHash::of]. *)
Definition hash_of (v : T) : ContentHash := blake3 (canonical v).

Definition seal (seq : N) (v : T) : t T := mk seq (hash_of v) v.

Definition verify (s : t T) : bool := bool_decide (hash_of (value s) = hash s).

(** [Deserialize for Sealed]: the stored hash is recomputed. *)
Definition deserialize (seq : N) (hash : ContentHash) (v : T) : result (t T) ContentHash :=
  if bool_decide (hash_of v = hash) then Ok (mk seq hash v) else Err (hash_of v).
End sealed.
End Sealed.

(** Two given texts, different, with one digest. *)
Definition colliding (blake3 : list byte → list byte) (x y : list byte) : Prop :=
  x ≠ y ∧ blake3 x = blake3 y.

(** No two of some given texts do that: what a hash function is relied on for, said of
    the finitely many texts that were hashed. *)
Definition collision_free (blake3 : list byte → list byte) (texts : list (list byte)) : Prop :=
  Forall (λ x, Forall (λ y, blake3 x = blake3 y → x = y) texts) texts.

#[export] Instance collision_free_dec blake3 texts : base.Decision (collision_free blake3 texts).
Proof. unfold collision_free. apply _. Defined.

(** A hash for concrete texts: 32 bytes of a polynomial in theirs. *)
Definition toy_hash (text : list byte) : list byte :=
  le_bytes 32 (foldl (λ acc c, acc * 257 + N_of_ascii c + 1)%N 0%N text).

Lemma collision_free_not blake3 texts x y :
  collision_free blake3 texts → x ∈ texts → y ∈ texts → ¬ colliding blake3 x y.
Proof.
  intros Hf Hx Hy [Hne He]. unfold collision_free in Hf. rewrite Forall_forall in Hf.
  specialize (Hf x Hx). rewrite Forall_forall in Hf. by apply Hne, Hf.
Qed.

(** ** Little-endian integers *)

Lemma le_bytes_length k n : length (le_bytes k n) = k.
Proof. revert n. induction k; intros; simpl; auto. Qed.

Lemma ascii_of_N_inj a b :
  (a < 256)%N → (b < 256)%N → ascii_of_N a = ascii_of_N b → a = b.
Proof.
  intros Ha Hb H. rewrite <- (N_ascii_embedding a), <- (N_ascii_embedding b) by done.
  by f_equal.
Qed.

Lemma le_bytes_inj k n m :
  (n < 256 ^ N.of_nat k)%N → (m < 256 ^ N.of_nat k)%N →
  le_bytes k n = le_bytes k m → n = m.
Proof.
  revert n m. induction k as [|k IH]; intros n m Hn Hm; simpl.
  - simpl in *. lia.
  - rewrite Nat2N.inj_succ, N.pow_succ_r' in Hn, Hm. intros [= Hmod Hdiv].
    apply ascii_of_N_inj in Hmod; [|apply N.mod_lt; lia..].
    apply IH in Hdiv; [lia|apply N.Div0.div_lt_upper_bound; lia..].
Qed.

#[global] Arguments le_bytes : simpl never.
#[global] Arguments timestamp_ms : simpl never.
#[global] Arguments CanonicalWriter.bytes : simpl never.

(** ** The encoding is prefix-free

    [uniquely enc x y]: after [enc x] and [enc y], whatever follows, the two
    values and the two continuations are recovered from the bytes. *)
Definition uniquely {A} (enc : A → list byte) (x y : A) : Prop :=
  ∀ r r', enc x ++ r = enc y ++ r' → x = y ∧ r = r'.

(** A Rust slice fits the 64-bit length prefix. *)
Definition fits {A} (l : list A) : Prop := (N.of_nat (length l) < u64_bound)%N.

Lemma writer_bytes_unique tag v v' :
  fits v → fits v' → uniquely (CanonicalWriter.bytes tag) v v'.
Proof.
  intros Hv Hv' r r'. unfold CanonicalWriter.bytes.
  rewrite <- !app_comm_cons, <- !(assoc_L (++)). intros H.
  apply (f_equal tail) in H. cbn [tail] in H. apply app_inj_1 in H as [Hlen H]; [|by rewrite !le_bytes_length].
  apply le_bytes_inj in Hlen; [|exact Hv|exact Hv'].
  apply app_inj_1 in H as [-> ->]; [done|lia].
Qed.

Lemma writer_str_unique tag s s' :
  fits (bytes s) → fits (bytes s') → uniquely (CanonicalWriter.str tag) s s'.
Proof.
  intros Hs Hs' r r' H.
  apply writer_bytes_unique in H as [Hb ->]; [|done..].
  split; [by apply (inj bytes)|done].
Qed.

Lemma writer_le_unique tag k n n' :
  (k ≤ 255) → (n < 256 ^ N.of_nat k)%N → (n' < 256 ^ N.of_nat k)%N →
  uniquely (λ n, CanonicalWriter.bytes tag (le_bytes k n)) n n'.
Proof.
  intros Hk Hn Hn' r r' H.
  assert (Hfits : ∀ m, fits (le_bytes k m)).
  { intros m. unfold fits. rewrite le_bytes_length.
    apply N.le_lt_trans with 255%N; [lia|done]. }
  apply writer_bytes_unique in H as [H ->]; [|done..].
  split; [by apply le_bytes_inj in H|done].
Qed.

Lemma writer_u64_unique tag n n' :
  (n < u64_bound)%N → (n' < u64_bound)%N → uniquely (CanonicalWriter.u64 tag) n n'.
Proof. intros ??. apply writer_le_unique; [lia|done..]. Qed.

Lemma writer_u8_unique tag n n' :
  (n < 256)%N → (n' < 256)%N → uniquely (CanonicalWriter.u8 tag) n n'.
Proof.
  intros ?? r r' H. apply writer_bytes_unique in H as [[= H] ->]; [|done..].
  split; [by apply ascii_of_N_inj|done].
Qed.

Lemma writer_opt_str_unique tag o o' :
  (∀ s, o = Some s → fits (bytes s)) → (∀ s, o' = Some s → fits (bytes s)) →
  uniquely (CanonicalWriter.opt_str tag) o o'.
Proof.
  intros Ho Ho' r r'. unfold CanonicalWriter.opt_str.
  destruct o as [s|], o' as [s'|]; rewrite <- ?(assoc_L (++)); intros H;
    apply writer_u8_unique in H as [Htag H]; try lia; try done.
  apply writer_str_unique in H as [-> ->]; auto.
Qed.

(** ** Hex digests *)

Lemma hex_char_value n : (n < 16)%N → hex_value (hex_char n) = Some n ∧ hex_char n ≠ "+"%char.
Proof.
  intros Hn.
  assert (n = 0 ∨ n = 1 ∨ n = 2 ∨ n = 3 ∨ n = 4 ∨ n = 5 ∨ n = 6 ∨ n = 7 ∨ n = 8 ∨ n = 9
    ∨ n = 10 ∨ n = 11 ∨ n = 12 ∨ n = 13 ∨ n = 14 ∨ n = 15)%N as Hc by lia.
  repeat (destruct Hc as [->|Hc]; [by split|]). by subst.
Qed.

Lemma hex_pair_roundtrip c :
  u8_from_hex_pair (hex_char (N_of_ascii c `div` 16)) (hex_char (N_of_ascii c `mod` 16)) =
  Some (N_of_ascii c).
Proof.
  pose proof (N_ascii_bounded c) as Hc.
  assert (Hm : (N_of_ascii c `mod` 16 < 16)%N) by (apply N.mod_lt; lia).
  assert (Hd : (N_of_ascii c `div` 16 < 16)%N) by (apply N.Div0.div_lt_upper_bound; lia).
  destruct (hex_char_value _ Hm) as [Em _], (hex_char_value _ Hd) as [Ed Np].
  unfold u8_from_hex_pair. rewrite decide_False by done. rewrite Em, Ed.
  cbn [mbind option_bind]. apply f_equal. symmetry. apply N.div_mod'.
Qed.

Lemma to_hex_length h : length (to_hex h) = length h * 2.
Proof.
  induction h as [|c h IH]; [done|]. unfold to_hex in *. rewrite fmap_cons. simpl.
  by rewrite IH.
Qed.

Lemma from_hex_pairs_to_hex h offset : from_hex_pairs offset (to_hex h) = Ok h.
Proof.
  revert offset. induction h as [|c h IH]; intros offset; [done|].
  unfold to_hex in *. simpl. rewrite hex_pair_roundtrip. simpl.
  rewrite IH. simpl. by rewrite ascii_N_embedding.
Qed.

(** A digest survives being written and read back: for every 32-byte digest
    [from_hex (to_hex h)] is [h], so a stored hash round-trips byte-identically;
    the text has exactly 64 characters, each a lowercase hex digit; and reading
    refuses every text of another length.  Reading is more liberal than
    documented: a [+] in front of a single digit is accepted as a pair, so two
    different texts that are not both hex denote one digest. *)
Theorem hash_hex_roundtrip (h : ContentHash) (Hh : length h = HASH_LEN) :
  from_hex (to_hex h) = Ok h ∧
  length (to_hex h) = HEX_LEN ∧
  Forall (λ c, ∃ n, (n < 16)%N ∧ c = hex_char n) (to_hex h) ∧
  (∀ text, length text ≠ HEX_LEN → from_hex text = Err (Length (length text))) ∧
  from_hex (concat (replicate HASH_LEN ["+"%char; "7"%char])) =
    from_hex (concat (replicate HASH_LEN ["0"%char; "7"%char])) ∧
  is_ok (from_hex (concat (replicate HASH_LEN ["+"%char; "7"%char]))) = true.
Proof.
  assert (Hlen : length (to_hex h) = HEX_LEN) by (rewrite to_hex_length; unfold HEX_LEN; lia).
  split_and!; try done.
  - unfold from_hex. rewrite Hlen. apply from_hex_pairs_to_hex.
  - unfold to_hex. apply Forall_concat, Forall_fmap, Forall_true. intros c. simpl.
    pose proof (N_ascii_bounded c).
    repeat constructor; eexists; (split; [|done]);
      [apply N.Div0.div_lt_upper_bound; lia|apply N.mod_lt; lia].
  - intros text Ht. unfold from_hex. case_match eqn:E; to_prop; congruence.
Qed.

Lemma hash_hex_roundtrip_witness :
  length (replicate 32 "a"%char) = HASH_LEN ∧
  from_hex (to_hex (replicate 32 "a"%char)) = Ok (replicate 32 "a"%char).
Proof. split; [reflexivity|]. apply (hash_hex_roundtrip (replicate 32 "a"%char)). reflexivity. Defined.

(** ** Seals *)

Section seals.
Context (blake3 : list byte → list byte) {T : Type} `{Sealable T}.

Lemma verify_seal seq (v : T) : Sealed.verify blake3 (Sealed.seal blake3 seq v) = true.
Proof. by apply bool_decide_eq_true. Qed.

Lemma deserialize_Ok seq hash (v : T) s :
  Sealed.deserialize blake3 seq hash v = Ok s ↔
  s = Sealed.mk seq hash v ∧ Sealed.verify blake3 s = true.
Proof.
  unfold Sealed.deserialize, Sealed.verify. case_bool_decide; split.
  - intros [= <-]. split; [done|]. by apply bool_decide_eq_true.
  - intros [-> _]. done.
  - done.
  - intros [-> Hv]. by apply bool_decide_eq_true in Hv.
Qed.

(** Two verified seals with one hash hold contents with one encoding, or the two
    encodings collide. *)
Lemma verified_hash_eq (s s' : Sealed.t T) :
  Sealed.verify blake3 s = true → Sealed.verify blake3 s' = true →
  Sealed.hash s = Sealed.hash s' →
  write_canonical (Sealed.value s) = write_canonical (Sealed.value s') ∨
  colliding blake3 (canonical (Sealed.value s)) (canonical (Sealed.value s')).
Proof.
  unfold Sealed.verify. intros H1 H2 Heq. to_prop.
  destruct (decide (canonical (Sealed.value s) = canonical (Sealed.value s'))) as [E|E].
  - left. by injection E.
  - right. split; [done|]. unfold Sealed.hash_of in *. congruence.
Qed.
End seals.
