(* ===== verification/Utf8.v ===== *)
(** * UTF-8 text: characters, white space and searching

    Rust's [str] methods that look at characters rather than bytes, over text as
    its UTF-8 bytes.  A character is its leading byte and the continuation bytes
    behind it, which is what [str::chars] yields on valid UTF-8. *)

From Stdlib Require Import Ascii.
From S2P Require Import Prelude Text Sealing.

(** A byte inside a multi-byte character: not a boundary to slice at. *)
Definition is_continuation (c : byte) : bool :=
  (128 <=? N_of_ascii c)%N && (N_of_ascii c <? 192)%N.

Definition at_boundary (l : list byte) : bool :=
  match l with [] => true | c :: _ => negb (is_continuation c) end.

(** [s.chars()], every character as its bytes. *)
Fixpoint chars (l : list byte) : list (list byte) :=
  match l with
  | [] => []
  | c :: l =>
      if at_boundary l then [c] :: chars l
      else match chars l with
           | [] => [[c]]
           | ch :: rest => (c :: ch) :: rest
           end
  end.

Lemma concat_chars l : concat (chars l) = l.
Proof.
  induction l as [|c l IH]; [done|]. cbn [chars]. destruct (at_boundary l); simpl; [by rewrite IH|].
  destruct (chars l) as [|ch rest] eqn:E; simpl in *; by subst l.
Qed.

Lemma chars_nonempty l : Forall (λ ch, ch ≠ []) (chars l).
Proof.
  induction l as [|c l IH]; cbn [chars]; [constructor|]. destruct (at_boundary l); [by constructor|].
  destruct (chars l); decompose_Forall_hyps; by repeat constructor.
Qed.

Lemma chars_nil l : chars l = [] ↔ l = [].
Proof. split; [|by intros ->]. intros H. by rewrite <- (concat_chars l), H. Qed.

Lemma chars_app l k : at_boundary k = true → chars (l ++ k) = chars l ++ chars k.
Proof.
  intros Hk. induction l as [|c l IH]; [done|]. cbn [chars app].
  destruct l as [|d l]; [by simpl; rewrite Hk|]. cbn [app at_boundary] in *.
  destruct (is_continuation d); cbn [negb]; [|by rewrite IH].
  assert (Hne : chars (d :: l) ≠ []) by by rewrite chars_nil.
  rewrite IH. by destruct (chars (d :: l)).
Qed.

(** [char::is_whitespace]: the characters with the Unicode property White_Space. *)
Definition white_code : list (list N) :=
  ((λ n : N, [n]) <$> [9; 10; 11; 12; 13; 32]%N) ++ [[194; 133]; [194; 160]; [225; 154; 128]]%N ++
  ((λ n : N, [226; 128; n]%N) <$>
     [128; 129; 130; 131; 132; 133; 134; 135; 136; 137; 138; 168; 169; 175]%N) ++
  [[226; 129; 159]; [227; 128; 128]]%N.

Definition is_white (ch : list byte) : bool := bool_decide (N_of_ascii <$> ch ∈ white_code).

Fixpoint drop_while {A} (p : A → bool) (l : list A) : list A :=
  match l with
  | x :: l' => if p x then drop_while p l' else l
  | [] => []
  end.

(** [s.trim_start()], [s.trim_end()]. *)
Definition trim_start (l : list byte) : list byte := concat (drop_while is_white (chars l)).
Definition trim_end (l : list byte) : list byte :=
  concat (reverse (drop_while is_white (reverse (chars l)))).

Fixpoint take_while {A} (p : A → bool) (l : list A) : list A :=
  match l with
  | x :: l => if p x then x :: take_while p l else []
  | [] => []
  end.

(** [s.trim()]. *)
Definition trim (l : list byte) : list byte :=
  concat (reverse (drop_while is_white (reverse (drop_while is_white (chars l))))).

Lemma drop_while_nil {A} (p : A → bool) l : drop_while p l = [] ↔ Forall (λ x, p x = true) l.
Proof.
  induction l as [|x l IH]; cbn [drop_while]; [done|]. rewrite Forall_cons.
  destruct (p x); [rewrite IH|]; naive_solver.
Qed.

Lemma drop_while_suffix {A} (p : A → bool) l :
  ∃ k, l = k ++ drop_while p l ∧ Forall (λ x, p x = true) k.
Proof.
  induction l as [|x l (k & Hk & Hall)]; cbn [drop_while]; [by exists []|].
  destruct (p x) eqn:E; [|by exists []].
  exists (x :: k). simpl. rewrite <- Hk. auto.
Qed.

Lemma drop_while_idem {A} (p : A → bool) l : drop_while p (drop_while p l) = drop_while p l.
Proof.
  induction l as [|x l IH]; [done|]. cbn [drop_while]. destruct (p x) eqn:E; [done|].
  cbn [drop_while]. by rewrite E.
Qed.

(** A text is blank when trimming leaves nothing. *)
Definition is_blank (l : list byte) : bool := bool_decide (trim l = []).

Lemma concat_nil_nonempty {A} (ls : list (list A)) :
  Forall (λ l, l ≠ []) ls → concat ls = [] → ls = [].
Proof. destruct 1 as [|l ls Hl]; simpl; [done|]. by intros [-> _]%app_nil. Qed.

Lemma is_blank_spec l : is_blank l = true ↔ Forall (λ ch, is_white ch = true) (chars l).
Proof.
  unfold is_blank. rewrite bool_decide_eq_true. unfold trim. rewrite <- (drop_while_nil is_white).
  set (k := drop_while is_white (chars l)). split; [|by intros ->].
  assert (Hne : Forall (λ ch, ch ≠ []) k).
  { destruct (drop_while_suffix is_white (chars l)) as (pre & Hpre & _).
    pose proof (chars_nonempty l) as Hn. rewrite Hpre in Hn. by apply Forall_app in Hn as [_ Hn]. }
  intros Hc. apply concat_nil_nonempty in Hc.
  - apply (f_equal reverse) in Hc. rewrite reverse_involutive in Hc.
    change (reverse []) with (@nil (list byte)) in Hc.
    apply drop_while_nil in Hc. rewrite Forall_reverse in Hc. unfold k. rewrite <- drop_while_idem.
    by apply drop_while_nil.
  - apply Forall_reverse. destruct (drop_while_suffix is_white (reverse k)) as (pre & Hpre & _).
    apply Forall_reverse in Hne. rewrite Hpre in Hne. by apply Forall_app in Hne as [_ Hne].
Qed.

(** [s.find(needle)]: the offset of the first occurrence. *)
Fixpoint find_sub (needle l : list byte) : option nat :=
  if starts_with needle l then Some 0
  else match l with [] => None | _ :: l => S <$> find_sub needle l end.

Lemma find_sub_Some needle l n :
  find_sub needle l = Some n → take n l ++ needle ++ drop (n + length needle) l = l.
Proof.
  revert n. induction l as [|c l IH]; intros n; cbn [find_sub].
  - destruct (starts_with needle []) eqn:E; [|done]. intros [= <-].
    apply starts_with_app in E as (rest & E). symmetry in E. apply app_nil in E as [-> ->]. done.
  - destruct (starts_with needle (c :: l)) eqn:E.
    + intros [= <-]. apply starts_with_app in E as (rest & ->). simpl. by rewrite drop_app_length.
    + intros (m & Hm & ->)%fmap_Some. simpl. f_equal. by apply IH.
Qed.

(** [s.contains(needle)]. *)
Definition contains (needle l : list byte) : bool := bool_decide (is_Some (find_sub needle l)).

(** [text.parse()] on an unsigned integer type with the given greatest value: an
    optional plus sign, then decimal digits. *)
Definition parse_uint (max : N) (l : list byte) : option N :=
  let digits := match l with c :: l' => if decide (c = "+"%char) then l' else l | [] => l end in
  n ← parse_dec digits; if (n <=? max)%N then Some n else None.

(** ** Validity *)

Definition code_in (lo hi : N) (c : byte) : bool := (lo <=? N_of_ascii c)%N && (N_of_ascii c <=? hi)%N.

(** The replacement character. *)
Definition REPLACEMENT : list byte := ascii_of_N <$> [239; 191; 189]%N.

(** [String::from_utf8_lossy]: every longest prefix of a character that cannot be
    completed becomes one replacement character. *)
Fixpoint from_utf8_lossy (l : list byte) : list byte :=
  match l with
  | [] => []
  | a :: r1 =>
      if code_in 0 127 a then a :: from_utf8_lossy r1
      else if code_in 194 223 a then
        match r1 with
        | b :: r2 =>
            if is_continuation b then a :: b :: from_utf8_lossy r2
            else REPLACEMENT ++ from_utf8_lossy r1
        | [] => REPLACEMENT
        end
      else if code_in 224 239 a then
        match r1 with
        | b :: r2 =>
            if (if code_in 224 224 a then code_in 160 191 b
                else if code_in 237 237 a then code_in 128 159 b else is_continuation b)
            then match r2 with
              | c :: r3 =>
                  if is_continuation c then a :: b :: c :: from_utf8_lossy r3
                  else REPLACEMENT ++ from_utf8_lossy r2
              | [] => REPLACEMENT
              end
            else REPLACEMENT ++ from_utf8_lossy r1
        | [] => REPLACEMENT
        end
      else if code_in 240 244 a then
        match r1 with
        | b :: r2 =>
            if (if code_in 240 240 a then code_in 144 191 b
                else if code_in 244 244 a then code_in 128 143 b else is_continuation b)
            then match r2 with
              | c :: r3 =>
                  if is_continuation c
                  then match r3 with
                    | d :: r4 =>
                        if is_continuation d then a :: b :: c :: d :: from_utf8_lossy r4
                        else REPLACEMENT ++ from_utf8_lossy r3
                    | [] => REPLACEMENT
                    end
                  else REPLACEMENT ++ from_utf8_lossy r2
              | [] => REPLACEMENT
              end
            else REPLACEMENT ++ from_utf8_lossy r1
        | [] => REPLACEMENT
        end
      else REPLACEMENT ++ from_utf8_lossy r1
  end.

(** [str::from_utf8] accepts what needs no replacing. *)
Fixpoint is_utf8 (l : list byte) : bool :=
  match l with
  | [] => true
  | a :: r1 =>
      if code_in 0 127 a then is_utf8 r1
      else if code_in 194 223 a then
        match r1 with b :: r2 => is_continuation b && is_utf8 r2 | [] => false end
      else if code_in 224 239 a then
        match r1 with
        | b :: c :: r3 =>
            (if code_in 224 224 a then code_in 160 191 b
             else if code_in 237 237 a then code_in 128 159 b else is_continuation b) &&
            is_continuation c && is_utf8 r3
        | _ => false
        end
      else if code_in 240 244 a then
        match r1 with
        | b :: c :: d :: r4 =>
            (if code_in 240 240 a then code_in 144 191 b
             else if code_in 244 244 a then code_in 128 143 b else is_continuation b) &&
            is_continuation c && is_continuation d && is_utf8 r4
        | _ => false
        end
      else false
  end.

Lemma lossy_valid_len n l : length l ≤ n → is_utf8 l = true → from_utf8_lossy l = l.
Proof.
  revert l. induction n as [|n IH]; intros [|a r1] Hn; try done; [simpl in Hn; lia|].
  assert (Hgo : ∀ r, length r < length (a :: r1) → is_utf8 r = true → from_utf8_lossy r = r)
    by (intros r Hr; apply IH; simpl in *; lia).
  clear IH. cbn [is_utf8 from_utf8_lossy].
  destruct (code_in 0 127 a); [intros H; rewrite (Hgo r1); [done|simpl; lia|done]|].
  destruct (code_in 194 223 a).
  { destruct r1 as [|b r2]; [done|]. intros [-> H]%andb_true_iff. rewrite (Hgo r2); [done|simpl; lia|done]. }
  destruct (code_in 224 239 a).
  { destruct r1 as [|b [|c r3]]; [done..|]. intros [[-> ->]%andb_true_iff H]%andb_true_iff.
    rewrite (Hgo r3); [done|simpl; lia|done]. }
  destruct (code_in 240 244 a); [|done].
  destruct r1 as [|b [|c [|d r4]]]; [done..|].
  intros [[[-> ->]%andb_true_iff ->]%andb_true_iff H]%andb_true_iff.
  rewrite (Hgo r4); [done|simpl; lia|done].
Qed.

Lemma lossy_valid l : is_utf8 l = true → from_utf8_lossy l = l.
Proof. by apply (lossy_valid_len (length l)). Qed.

Lemma is_utf8_ascii_app l k :
  Forall (λ c, code_in 0 127 c = true) l → is_utf8 (l ++ k) = is_utf8 k.
Proof. induction 1 as [|c l Hc _ IH]; [done|]. cbn [app is_utf8]. by rewrite Hc. Qed.

Lemma is_utf8_ascii l : Forall (λ c, code_in 0 127 c = true) l → is_utf8 l = true.
Proof. intros Hl. rewrite <- (app_nil_r l), is_utf8_ascii_app by done. done. Qed.

Lemma digit_ascii c : is_digit c = true → code_in 0 127 c = true.
Proof.
  unfold is_digit, digit_value, code_in. intros H. apply andb_true_iff. rewrite !N.leb_le.
  destruct ((48 <=? N_of_ascii c)%N && (N_of_ascii c <=? 57)%N) eqn:E; [|done].
  apply andb_true_iff in E as [H1%N.leb_le H2%N.leb_le]. lia.
Qed.

(** ** Characters of valid text *)

(** One well-formed character. *)
Definition is_utf8_char (ch : list byte) : bool :=
  match ch with
  | [a] => code_in 0 127 a
  | [a; b] => code_in 194 223 a && is_continuation b
  | [a; b; c] =>
      code_in 224 239 a &&
      (if code_in 224 224 a then code_in 160 191 b
       else if code_in 237 237 a then code_in 128 159 b else is_continuation b) &&
      is_continuation c
  | [a; b; c; d] =>
      code_in 240 244 a &&
      (if code_in 240 240 a then code_in 144 191 b
       else if code_in 244 244 a then code_in 128 143 b else is_continuation b) &&
      is_continuation c && is_continuation d
  | _ => false
  end.

Lemma code_in_iff lo hi c : code_in lo hi c = true ↔ (lo ≤ N_of_ascii c ≤ hi)%N.
Proof. unfold code_in. rewrite andb_true_iff, !N.leb_le. done. Qed.

Lemma code_in_disjoint lo hi lo' hi' c :
  code_in lo hi c = true → (hi < lo' ∨ hi' < lo)%N → code_in lo' hi' c = false.
Proof. intros H%code_in_iff Hd. apply not_true_iff_false. rewrite code_in_iff. lia. Qed.

Lemma is_continuation_in c : is_continuation c = code_in 128 191 c.
Proof.
  apply eq_true_iff_eq. unfold is_continuation, code_in. rewrite !andb_true_iff, !N.leb_le, N.ltb_lt. lia.
Qed.

Lemma is_utf8_char_app ch k : is_utf8_char ch = true → is_utf8 (ch ++ k) = is_utf8 k.
Proof.
  destruct ch as [|a [|b [|c [|d [|e ch]]]]]; [done|..|done]; cbn [is_utf8_char app is_utf8];
    rewrite ?andb_true_iff; intros H; destruct_and?.
  all: repeat match goal with
  | E : code_in ?lo ?hi ?x = true |- context [code_in ?lo' ?hi' ?x] =>
      rewrite (code_in_disjoint lo hi lo' hi' x E) by lia
  end.
  all: repeat match goal with E : ?x = true |- context [?x] => rewrite E end; done.
Qed.

(** Valid text is empty or a character and valid text. *)
Lemma is_utf8_cons a l :
  is_utf8 (a :: l) = true → ∃ ch k, a :: l = ch ++ k ∧ is_utf8_char ch = true ∧ is_utf8 k = true.
Proof.
  cbn [is_utf8]. intros H.
  destruct (code_in 0 127 a) eqn:E1; [by exists [a], l|].
  destruct (code_in 194 223 a) eqn:E2.
  { destruct l as [|b l]; [done|]. apply andb_true_iff in H as [Hb H]. exists [a; b], l. cbn.
    by rewrite E2, Hb. }
  destruct (code_in 224 239 a) eqn:E3.
  { destruct l as [|b [|c l]]; [done..|]. apply andb_true_iff in H as [[Hb Hc]%andb_true_iff H].
    exists [a; b; c], l. cbn. by rewrite E3, Hb, Hc. }
  destruct (code_in 240 244 a) eqn:E4; [|done].
  destruct l as [|b [|c [|d l]]]; [done..|].
  apply andb_true_iff in H as [[[Hb Hc]%andb_true_iff Hd]%andb_true_iff H].
  exists [a; b; c; d], l. cbn. by rewrite E4, Hb, Hc, Hd.
Qed.

Lemma is_utf8_ind (P : list byte → Prop) :
  P [] → (∀ ch k, is_utf8_char ch = true → is_utf8 k = true → P k → P (ch ++ k)) →
  ∀ l, is_utf8 l = true → P l.
Proof.
  intros Hnil Hchar l. remember (length l) as n eqn:Hn. revert l Hn.
  induction n as [n IH] using lt_wf_ind. intros [|a l] -> H; [done|].
  destruct (is_utf8_cons a l H) as (ch & k & E & Hch & Hk). rewrite E. apply Hchar; [done..|].
  eapply IH; [|done..]. rewrite E, length_app. destruct ch; [done|simpl; lia].
Qed.

Lemma is_utf8_app a b : is_utf8 a = true → is_utf8 b = true → is_utf8 (a ++ b) = true.
Proof.
  intros Ha Hb. revert a Ha. refine (is_utf8_ind _ Hb _). intros ch k Hch _ IH.
  rewrite <- (assoc_L (++)). by rewrite is_utf8_char_app.
Qed.

(** A character is a leading byte and continuation bytes. *)
Lemma is_utf8_char_shape ch :
  is_utf8_char ch = true →
  ∃ c t, ch = c :: t ∧ is_continuation c = false ∧ Forall (λ d, is_continuation d = true) t.
Proof.
  intros H.
  destruct ch as [|a [|b [|c [|d [|e ch]]]]]; [done|..|done]; cbn [is_utf8_char] in H;
    rewrite ?andb_true_iff in H; rewrite ?is_continuation_in in H; destruct_and?;
    eexists _, _; (split; [reflexivity|]); rewrite is_continuation_in;
    (split; [eapply code_in_disjoint; [eassumption|lia]|]); repeat constructor;
    rewrite ?is_continuation_in; try done.
  all: repeat case_match; rewrite ?is_continuation_in, ?code_in_iff in *; lia.
Qed.

Lemma is_utf8_boundary l : is_utf8 l = true → at_boundary l = true.
Proof.
  revert l. refine (is_utf8_ind _ eq_refl _). intros ch k (c & t & -> & Hc & _)%is_utf8_char_shape _ _.
  simpl. by rewrite Hc.
Qed.

(** Valid text cut at a boundary is two valid texts. *)
Lemma is_utf8_cut a b :
  is_utf8 (a ++ b) = true → at_boundary b = true → is_utf8 a = true ∧ is_utf8 b = true.
Proof.
  intros H Hb. remember (a ++ b) as l eqn:E. revert a E. revert l H.
  refine (is_utf8_ind _ _ _).
  - intros a E. symmetry in E. by apply app_nil in E as [-> ->].
  - intros ch k Hch Hk IH a E. destruct a as [|x a].
    { simpl in E. subst b. by rewrite is_utf8_char_app. }
    destruct (is_utf8_char_shape ch Hch) as (c & t & -> & Hc & Ht).
    destruct (decide (length t ≤ length a)) as [Hle|Hgt].
    + assert (∃ a', x :: a = (c :: t) ++ a' ∧ k = a' ++ b) as (a' & Ea & Ek).
      { simpl in E. injection E as -> E. exists (drop (length t) a).
        pose proof (f_equal (take (length t)) E) as E1. pose proof (f_equal (drop (length t)) E) as E2.
        rewrite take_app_length, take_app_le in E1 by done.
        rewrite drop_app_length, drop_app_le in E2 by done. split; [|done].
        simpl. f_equal. by rewrite E1 at 1; rewrite take_drop. }
      destruct (IH a' Ek) as [H1 H2]. split; [|done]. rewrite Ea. by rewrite is_utf8_char_app.
    + exfalso. simpl in E. injection E as -> E.
      pose proof (f_equal (lookup (length a)) E) as E1.
      rewrite lookup_app_l in E1 by lia. rewrite lookup_app_r, Nat.sub_diag in E1 by lia.
      destruct (lookup_lt_is_Some_2 t (length a)) as [d Hd]; [lia|].
      rewrite Hd in E1. destruct b as [|d' b]; [done|]. injection E1 as <-. simpl in Hb.
      rewrite Forall_forall in Ht. rewrite (Ht d) in Hb; [done|]. by eapply list_elem_of_lookup_2.
Qed.

(** Around an ASCII byte. *)
Lemma is_utf8_cut_ascii a c b :
  is_utf8 (a ++ c :: b) = true → code_in 0 127 c = true → is_utf8 a = true ∧ is_utf8 b = true.
Proof.
  intros H Hc. apply is_utf8_cut in H as [Ha H].
  - split; [done|]. cbn [is_utf8] in H. by rewrite Hc in H.
  - simpl. rewrite is_continuation_in. by rewrite (code_in_disjoint 0 127 128 191 c) by (done || lia).
Qed.

(** ** White space and searching *)

Lemma chars_char ch k : is_utf8_char ch = true → at_boundary k = true → chars (ch ++ k) = ch :: chars k.
Proof.
  intros (c & t & -> & Hc & Ht)%is_utf8_char_shape Hk. rewrite chars_app by done.
  change ((c :: t) :: chars k) with ([c :: t] ++ chars k). f_equal. clear Hc Hk.
  revert c. induction Ht as [|d t Hd Ht IH]; intros c; [done|].
  transitivity (match chars (d :: t) with [] => [[c]] | ch :: rest => (c :: ch) :: rest end).
  - cbn [chars at_boundary]. by rewrite Hd.
  - by rewrite IH.
Qed.

Lemma is_white_char ch : is_white ch = true → is_utf8_char ch = true.
Proof.
  unfold is_white. rewrite bool_decide_eq_true. intros H.
  assert (Hall : Forall (λ code, is_utf8_char (ascii_of_N <$> code) = true) white_code)
    by (refine (bool_decide_unpack _ _); by vm_compute).
  rewrite Forall_forall in Hall. specialize (Hall _ H).
  rewrite <- list_fmap_compose in Hall. rewrite <- Hall. f_equal.
  rewrite <- (list_fmap_id ch) at 1. apply list_fmap_ext. intros i x _. cbn. by rewrite ascii_N_embedding.
Qed.

(** A byte no white character begins with. *)
Definition never_white (c : byte) : bool :=
  forallb (λ code, match code with n :: _ => negb (n =? N_of_ascii c)%N | [] => true end) white_code.

Lemma never_white_char c t : never_white c = true → is_white (c :: t) = false.
Proof.
  unfold never_white, is_white. rewrite forallb_forall. intros H. apply bool_decide_eq_false. intros Hin.
  apply base.list_elem_of_In in Hin. apply H in Hin. cbn in Hin. by rewrite N.eqb_refl in Hin.
Qed.

Lemma take_while_spec {A} (p : A → bool) l :
  l = take_while p l ++ drop_while p l ∧ Forall (λ x, p x = true) (take_while p l) ∧
  ∀ x, head (drop_while p l) = Some x → p x = false.
Proof.
  induction l as [|x l (E & Hall & Hhd)]; cbn [take_while drop_while]; [by repeat constructor|].
  destruct (p x) eqn:Hp; [|by split_and!; [done|constructor|intros y [= <-]]].
  split_and!; [simpl; by f_equal|by constructor|done].
Qed.

Lemma take_while_app {A} (p : A → bool) l k :
  Forall (λ x, p x = true) l → (∀ x, head k = Some x → p x = false) → take_while p (l ++ k) = l.
Proof.
  intros Hl Hk. induction Hl as [|x l Hx Hl IH]; cbn [take_while app].
  - destruct k as [|x k]; [done|]. cbn. by rewrite Hk.
  - rewrite Hx. by f_equal.
Qed.

Lemma contains_app needle pre post : contains needle (pre ++ needle ++ post) = true.
Proof.
  unfold contains. apply bool_decide_eq_true. induction pre as [|c pre IH]; cbn [app].
  - destruct (needle ++ post) eqn:E; cbn [find_sub]; rewrite <- E;
      (replace (starts_with needle (needle ++ post)) with true; [done|]);
      symmetry; apply starts_with_app; eauto.
  - cbn [find_sub]. case_match; [done|]. by destruct IH as [n ->].
Qed.

Lemma find_sub_bound needle l n : find_sub needle l = Some n → n + length needle ≤ length l.
Proof.
  revert n. induction l as [|c l IH]; intros n; cbn [find_sub]; case_match eqn:E; try done.
  1,2: intros [= <-]; apply starts_with_app in E as (r & ->); rewrite length_app; lia.
  intros (m & Hm & ->)%fmap_Some. specialize (IH m Hm). simpl. lia.
Qed.

Lemma find_sub_split needle l n :
  find_sub needle l = Some n → ∃ x after, l = x ++ needle ++ after ∧ length x = n.
Proof.
  intros H. pose proof (find_sub_bound _ _ _ H). apply find_sub_Some in H.
  exists (take n l), (drop (n + length needle) l). split; [done|]. rewrite length_take. lia.
Qed.

(** A run of white characters. *)
Definition white_run (ws : list byte) : Prop :=
  ∃ cs, ws = concat cs ∧ Forall (λ ch, is_white ch = true) cs.

Lemma trim_start_run ws c l :
  white_run ws → never_white c = true → is_continuation c = false → trim_start (ws ++ c :: l) = c :: l.
Proof.
  intros (cs & -> & Hcs) Hc Hb. unfold trim_start.
  induction Hcs as [|ch cs Hch Hcs IH]; cbn [concat app].
  - assert (∃ t r, chars (c :: l) = (c :: t) :: r) as (t & r & E).
    { cbn [chars]. case_match; [by eexists _, _|]. case_match; by eexists _, _. }
    rewrite E. cbn [drop_while]. rewrite never_white_char by done. rewrite <- E. apply concat_chars.
  - rewrite <- (assoc_L (++)). rewrite chars_char; [|by apply is_white_char|].
    + cbn [drop_while]. by rewrite Hch.
    + destruct Hcs as [|ch' cs Hch' _]; cbn [concat app]; [simpl; by rewrite Hb|].
      destruct (is_utf8_char_shape ch') as (d & t & -> & Hd & _); [by apply is_white_char|].
      simpl. by rewrite Hd.
Qed.

Lemma trim_start_Some l : ∃ ws, l = ws ++ trim_start l ∧ white_run ws.
Proof.
  destruct (drop_while_suffix is_white (chars l)) as (cs & E & Hcs).
  exists (concat cs). split; [|by exists cs]. unfold trim_start.
  rewrite <- concat_app, <- E. by rewrite concat_chars.
Qed.

(** Text of printable ASCII characters is its characters, none of them white. *)
Definition printable (c : byte) : bool := never_white c && code_in 0 127 c.

Lemma chars_ascii l : Forall (λ c, code_in 0 127 c = true) l → chars l = (λ c, [c]) <$> l.
Proof.
  induction 1 as [|c l Hc Hl IH]; [done|]. change (c :: l) with ([c] ++ l). rewrite chars_char.
  - by rewrite IH.
  - done.
  - destruct Hl as [|d l Hd]; [done|]. simpl. rewrite is_continuation_in.
    by rewrite (code_in_disjoint 0 127 128 191 d) by (done || lia).
Qed.

Lemma printable_ascii l : Forall (λ c, printable c = true) l → Forall (λ c, code_in 0 127 c = true) l.
Proof. intros H. eapply Forall_impl; [exact H|]. by intros c [_ ?]%andb_true_iff. Qed.

Lemma drop_while_head {A} (p : A → bool) x l : p x = false → drop_while p (x :: l) = x :: l.
Proof. intros H. cbn. by rewrite H. Qed.

Lemma concat_singletons {A} (l : list A) : concat ((λ c, [c]) <$> l) = l.
Proof. induction l as [|x l IH]; [done|]. cbn. by rewrite IH. Qed.

Lemma trim_printable l : Forall (λ c, printable c = true) l → trim l = l.
Proof.
  intros Hl. unfold trim. rewrite chars_ascii by by apply printable_ascii.
  destruct l as [|c l] using rev_ind; [done|]. clear IHl.
  assert (Hw : ∀ d, printable d = true → is_white [d] = false)
    by (intros d [H _]%andb_true_iff; by apply never_white_char).
  assert (Hd : drop_while is_white ((λ c, [c]) <$> l ++ [c]) = (λ c, [c]) <$> l ++ [c]).
  { destruct l as [|d l]; cbn [app fmap list_fmap] in *; apply drop_while_head, Hw; by inversion Hl. }
  rewrite Hd, fmap_app, reverse_app. cbn [fmap list_fmap].
  apply Forall_app in Hl as [_ Hc]. apply Forall_cons in Hc as [Hc _].
  change (reverse [[c]]) with [[c]]. cbn [app]. rewrite drop_while_head by by apply Hw.
  change ([c] :: reverse ((λ c, [c]) <$> l)) with (reverse [[c]] ++ reverse ((λ c, [c]) <$> l)).
  rewrite <- reverse_app, reverse_involutive, concat_app. cbn. by rewrite concat_singletons.
Qed.

Lemma trim_start_printable c l : printable c = true → is_utf8 (c :: l) = true → trim_start (c :: l) = c :: l.
Proof.
  intros [Hw Hc]%andb_true_iff Hu. unfold trim_start. change (c :: l) with ([c] ++ l).
  cbn [is_utf8] in Hu. rewrite Hc in Hu. rewrite chars_char; [|done|by apply is_utf8_boundary].
  rewrite drop_while_head by by apply never_white_char. cbn. by rewrite concat_chars.
Qed.
