(* ===== verification/Segment.v ===== *)
(** * Prompt segments: [supra_types/src/segment.rs]

    Blocks, memory index entries, segment kinds and segments, with the
    constructors' checks, the lookback count and the canonical encodings the
    content hash covers.  A [String] is its UTF-8 bytes. *)

From Stdlib Require Import Ascii.
From S2P Require Import Prelude Text Sealing.

Inductive Role := RUser | RAssistant.

#[export] Instance Role_eq_dec : EqDecision Role.
Proof. solve_decision. Defined.

Module Role.
Definition discriminant (r : Role) : N :=
  match r with RUser => 0 | RAssistant => 1 end.
End Role.

Module Block.
Inductive t :=
| Text (text : string)
| Thinking (text : string) (signature : option string)
| ToolUse (call_id name input : string)
| ToolResult (call_id content : string) (is_error : bool).

#[global] Instance t_eq_dec : EqDecision t.
Proof. solve_decision. Defined.

Definition is_tool_traffic (b : t) : bool :=
  match b with ToolUse _ _ _ | ToolResult _ _ _ => true | _ => false end.

Definition discriminant (b : t) : N :=
  match b with
  | Text _ => 0
  | Thinking _ _ => 1
  | ToolUse _ _ _ => 2
  | ToolResult _ _ _ => 3
  end.

Definition write_canonical (b : t) : list byte :=
  CanonicalWriter.u8 0 (discriminant b) ++
  match b with
  | Text text => CanonicalWriter.str 1 text
  | Thinking text signature =>
      CanonicalWriter.str 1 text ++ CanonicalWriter.opt_str 2 signature
  | ToolUse call_id name input =>
      CanonicalWriter.str 1 call_id ++ CanonicalWriter.str 2 name ++
      CanonicalWriter.str 3 input
  | ToolResult call_id content is_error =>
      CanonicalWriter.str 1 call_id ++ CanonicalWriter.str 2 content ++
      CanonicalWriter.bool 3 is_error
  end.
End Block.

#[export] Instance Block_sealable : Sealable Block.t :=
  {| CANONICAL_KIND := 2; write_canonical := Block.write_canonical |}.

Inductive SegmentError :=
| IndexEntryTooLong (bytes : nat)
| IndexSegmentHasBlocks (blocks : nat)
| InterleavedToolTraffic (at_block : nat).

#[export] Instance SegmentError_eq_dec : EqDecision SegmentError.
Proof. solve_decision. Defined.

Module MemoryIndexEntry.
Record t := mk { turn : Id; topic : string; gist : string }.

#[global] Instance t_eq_dec : EqDecision t.
Proof. solve_decision. Defined.

Definition MAX_CONTENT_BYTES : nat := 80.

Definition new (turn : Id) (topic gist : string) : result t SegmentError :=
  let bytes := String.length topic + String.length gist in
  if MAX_CONTENT_BYTES <? bytes then Err (IndexEntryTooLong bytes)
  else Ok (mk turn topic gist).

(** [TryFrom<MemoryIndexEntryRepr>]: a stored entry meets the same budget. *)
Definition try_from (repr : Id * string * string) : result t SegmentError :=
  let '(turn, topic, gist) := repr in new turn topic gist.

Definition write_canonical (e : t) : list byte :=
  CanonicalWriter.u64 1 (timestamp_ms (turn e)) ++
  CanonicalWriter.bytes 2 (le_bytes 16 (turn e)) ++
  CanonicalWriter.str 3 (topic e) ++
  CanonicalWriter.str 4 (gist e).
End MemoryIndexEntry.

#[export] Instance MemoryIndexEntry_sealable : Sealable MemoryIndexEntry.t :=
  {| CANONICAL_KIND := 3; write_canonical := MemoryIndexEntry.write_canonical |}.

Module SegmentKind.
Inductive t :=
| ToolManifest
| SystemContract
| MemoryIndex (entry : MemoryIndexEntry.t)
| Turn (turn : Id) (role : Role).

#[global] Instance t_eq_dec : EqDecision t.
Proof. solve_decision. Defined.

Definition is_session_frozen (k : t) : bool :=
  match k with ToolManifest | SystemContract => true | _ => false end.

Definition is_memory_index (k : t) : bool :=
  match k with MemoryIndex _ => true | _ => false end.

Definition discriminant (k : t) : N :=
  match k with
  | ToolManifest => 0
  | SystemContract => 1
  | MemoryIndex _ => 2
  | Turn _ _ => 3
  end.

Definition write_canonical (k : t) : list byte :=
  CanonicalWriter.u8 0 (discriminant k) ++
  match k with
  | ToolManifest | SystemContract => []
  | MemoryIndex entry => nested 1 entry
  | Turn turn role =>
      CanonicalWriter.bytes 1 (le_bytes 16 turn) ++
      CanonicalWriter.u8 2 (Role.discriminant role)
  end.
End SegmentKind.

#[export] Instance SegmentKind_sealable : Sealable SegmentKind.t :=
  {| CANONICAL_KIND := 4; write_canonical := SegmentKind.write_canonical |}.

(** The loop of [first_interleaving], from block [index] on. *)
Fixpoint first_interleaving_from (index : nat) (seen_run in_run : bool)
    (blocks : list Block.t) : option nat :=
  match blocks with
  | [] => None
  | block :: blocks =>
      if Block.is_tool_traffic block then
        if in_run then first_interleaving_from (S index) seen_run in_run blocks
        else if seen_run then Some index
        else first_interleaving_from (S index) true true blocks
      else first_interleaving_from (S index) seen_run false blocks
  end.

Definition first_interleaving (blocks : list Block.t) : option nat :=
  first_interleaving_from 0 false false blocks.

Module Segment.
Record t := mk { id : Id; kind : SegmentKind.t; blocks : list Block.t }.

#[global] Instance t_eq_dec : EqDecision t.
Proof. solve_decision. Defined.

Definition new (id : Id) (kind : SegmentKind.t) (blocks : list Block.t) :
    result t SegmentError :=
  if SegmentKind.is_memory_index kind && negb (bool_decide (blocks = []))
  then Err (IndexSegmentHasBlocks (length blocks))
  else match first_interleaving blocks with
       | Some at_block => Err (InterleavedToolTraffic at_block)
       | None => Ok (mk id kind blocks)
       end.

(** The loop of [lookback_positions]. *)
Fixpoint count_positions (in_run : bool) (blocks : list Block.t) : nat :=
  match blocks with
  | [] => 0
  | block :: blocks =>
      if Block.is_tool_traffic block
      then (if in_run then 0 else 1) + count_positions true blocks
      else 1 + count_positions false blocks
  end.

Definition lookback_positions (s : t) : nat := count_positions false (blocks s).

(** [for block in &self.blocks { writer.nested(4, block) }]. *)
Definition write_blocks (blocks : list Block.t) : list byte :=
  concat (nested 4 <$> blocks).

Definition write_canonical (s : t) : list byte :=
  CanonicalWriter.bytes 1 (le_bytes 16 (id s)) ++
  nested 2 (kind s) ++
  CanonicalWriter.count 3 (length (blocks s)) ++
  write_blocks (blocks s).

(** [TryFrom<SegmentRepr>]: a stored segment goes through the constructor. *)
Definition try_from (repr : Id * SegmentKind.t * list Block.t) : result t SegmentError :=
  let '(id, kind, blocks) := repr in new id kind blocks.

(** What the constructor guarantees of every segment. *)
Definition valid (s : t) : Prop :=
  (SegmentKind.is_memory_index (kind s) = true → blocks s = []) ∧
  first_interleaving (blocks s) = None.
End Segment.

#[export] Instance Segment_sealable : Sealable Segment.t :=
  {| CANONICAL_KIND := 1; write_canonical := Segment.write_canonical |}.

(** ** Tool traffic forms at most one run *)

Definition all_prose (l : list Block.t) : Prop := Forall (λ b, Block.is_tool_traffic b = false) l.
Definition all_tools (l : list Block.t) : Prop := Forall (λ b, Block.is_tool_traffic b = true) l.

Definition one_run (l : list Block.t) : Prop :=
  ∃ pre tools post, l = pre ++ tools ++ post ∧ all_prose pre ∧ all_tools tools ∧ all_prose post.

Lemma interleaving_after_run index l :
  first_interleaving_from index true false l = None ↔ all_prose l.
Proof.
  revert index. induction l as [|b l IH]; intros index; simpl.
  - split; [constructor|done].
  - unfold all_prose in *. rewrite Forall_cons, <- (IH (S index)).
    destruct (Block.is_tool_traffic b); naive_solver.
Qed.

Lemma interleaving_in_run index l :
  first_interleaving_from index true true l = None ↔
  ∃ tools post, l = tools ++ post ∧ all_tools tools ∧ all_prose post.
Proof.
  revert index. induction l as [|b l IH]; intros index; simpl.
  - split; [|done]. intros _. exists [], []. repeat constructor.
  - destruct (Block.is_tool_traffic b) eqn:Hb.
    + rewrite IH. split.
      * intros (tools & post & -> & Ht & Hp). exists (b :: tools), post. repeat constructor; done.
      * intros ([|b' tools] & post & Heq & Ht & Hp); simpl in Heq.
        { subst. exists [], l. unfold all_prose in Hp. decompose_Forall_hyps. congruence. }
        simplify_eq. unfold all_tools in Ht. decompose_Forall_hyps. eauto.
    + rewrite interleaving_after_run. split.
      * intros Hp. exists [], (b :: l). split_and!; [done|constructor|by constructor].
      * intros ([|b' tools] & post & Heq & Ht & Hp); simpl in Heq; simplify_eq;
          unfold all_tools, all_prose in *; decompose_Forall_hyps; [done|congruence].
Qed.

Lemma first_interleaving_None l : first_interleaving l = None ↔ one_run l.
Proof.
  unfold first_interleaving. generalize 0 as index.
  induction l as [|b l IH]; intros index; simpl.
  - split; [|done]. intros _. exists [], [], []. repeat constructor.
  - destruct (Block.is_tool_traffic b) eqn:Hb.
    + rewrite interleaving_in_run. split.
      * intros (tools & post & -> & Ht & Hp). exists [], (b :: tools), post.
        repeat constructor; done.
      * intros ([|b' pre] & tools & post & Heq & Hpre & Ht & Hp); simpl in Heq.
        { destruct tools as [|b' tools]; simpl in Heq; simplify_eq;
            unfold all_tools, all_prose in *; decompose_Forall_hyps; [congruence|eauto]. }
        unfold all_prose in Hpre. simplify_eq. decompose_Forall_hyps. congruence.
    + rewrite IH. split.
      * intros (pre & tools & post & -> & Hpre & Ht & Hp). exists (b :: pre), tools, post.
        repeat constructor; done.
      * intros ([|b' pre] & tools & post & Heq & Hpre & Ht & Hp); simpl in Heq.
        { destruct tools as [|b' tools]; simpl in Heq; simplify_eq;
            unfold all_tools, all_prose in *; decompose_Forall_hyps; [|congruence].
          subst. exists l, [], []. rewrite app_nil_r. repeat constructor; done. }
        simplify_eq. unfold all_prose in Hpre. decompose_Forall_hyps.
        exists pre, tools, post. done.
Qed.

Lemma segment_new_Ok id kind blocks s :
  Segment.new id kind blocks = Ok s ↔ s = Segment.mk id kind blocks ∧ Segment.valid s.
Proof.
  unfold Segment.new.
  destruct (SegmentKind.is_memory_index kind && negb (bool_decide (blocks = []))) eqn:Hg.
  - split; [done|]. intros [-> [Hm _]]. simpl in Hm. to_prop. by apply Hm in H.
  - assert (SegmentKind.is_memory_index kind = true → blocks = []) as Hm.
    { intros Hk. rewrite Hk in Hg. simpl in Hg. by to_prop. }
    destruct (first_interleaving blocks) as [i|] eqn:Hi; split.
    + done.
    + intros [-> [_ Hv]]. simpl in Hv. congruence.
    + intros [= <-]. by repeat split.
    + by intros [-> _].
Qed.

Lemma count_positions_prose b l :
  all_prose l → Segment.count_positions b l = length l.
Proof.
  revert b. induction l as [|x l IH]; intros b Hl; simpl; [done|].
  unfold all_prose in *. decompose_Forall_hyps.
  destruct (Block.is_tool_traffic x); [done|]. by rewrite IH.
Qed.

Lemma count_positions_tools l post :
  all_tools l → all_prose post →
  Segment.count_positions true (l ++ post) = length post.
Proof.
  induction l as [|x l IH]; intros Hl Hp; simpl; [by apply count_positions_prose|].
  unfold all_tools in *. decompose_Forall_hyps.
  destruct (Block.is_tool_traffic x); [by rewrite IH|done].
Qed.

Lemma count_positions_app_prose b pre l :
  all_prose pre → pre ≠ [] →
  Segment.count_positions b (pre ++ l) = length pre + Segment.count_positions false l.
Proof.
  revert b. induction pre as [|x pre IH]; intros b Hpre Hne; [done|]. simpl.
  unfold all_prose in *. decompose_Forall_hyps. destruct (Block.is_tool_traffic x); [done|].
  destruct pre as [|y pre]; [done|]. rewrite (IH false); done.
Qed.

Lemma count_positions_one_run pre tools post :
  all_prose pre → all_tools tools → all_prose post →
  Segment.count_positions false (pre ++ tools ++ post) =
  length pre + (if bool_decide (tools = []) then 0 else 1) + length post.
Proof.
  intros Hpre Ht Hpost.
  assert (Hrest : Segment.count_positions false (tools ++ post) =
    (if bool_decide (tools = []) then 0 else 1) + length post).
  { destruct tools as [|b tools]; [by apply count_positions_prose|].
    unfold all_tools in Ht. decompose_Forall_hyps.
    destruct (Block.is_tool_traffic b) eqn:Hb; [|done].
    rewrite count_positions_tools by done. done. }
  destruct (decide (pre = [])) as [->|Hne]; [done|].
  rewrite count_positions_app_prose by done. lia.
Qed.

Lemma count_positions_le b l : Segment.count_positions b l ≤ length l.
Proof.
  revert b. induction l as [|x l IH]; intros b; simpl; [lia|].
  pose proof (IH true). pose proof (IH false). repeat case_match; lia.
Qed.

(** The reported block is the one that breaks the rule. *)
Lemma interleaving_first index seen run l i :
  first_interleaving_from index seen run l = Some i →
  index ≤ i < index + length l ∧
  first_interleaving_from index seen run (take (i - index) l) = None ∧
  first_interleaving_from index seen run (take (S (i - index)) l) = Some i.
Proof.
  revert index seen run. induction l as [|b l IH]; intros index seen run; [done|].
  intros H. cbn [first_interleaving_from] in H.
  assert (Hstep : ∀ seen' run',
    first_interleaving_from (S index) seen' run' l = Some i →
    index < i < index + S (length l) ∧
    first_interleaving_from (S index) seen' run' (take (i - S index) l) = None ∧
    first_interleaving_from (S index) seen' run' (take (i - index) l) = Some i).
  { intros seen' run' Hs. apply IH in Hs as (? & ? & Hs).
    replace (S (i - S index)) with (i - index) in Hs by lia. split_and!; auto; lia. }
  destruct (Block.is_tool_traffic b) eqn:Hb; [destruct run; [|destruct seen]|].
  all: try (apply Hstep in H as (? & Hn & Hs);
    replace (i - index) with (S (i - S index)) in * by lia;
    cbn [take first_interleaving_from]; rewrite Hb; simpl; split_and!; auto; simpl; lia).
  injection H as ->. rewrite Nat.sub_diag. simpl. rewrite Hb. split_and!; try done; lia.
Qed.

(** The segment constructor enforces exactly the one-run rule.  A segment is
    built exactly when a memory index carries no blocks and the blocks are prose,
    then at most one run of tool traffic, then prose; the block an
    [InterleavedToolTraffic] error names is the first at which the rule breaks;
    a stored segment that was ever built is accepted again unchanged; and a
    segment consumes one lookback position per prose block plus one for its
    whole tool run. *)
Theorem segment_new_exact (id : Id) (kind : SegmentKind.t) (blocks : list Block.t) :
  match Segment.new id kind blocks with
  | Ok s =>
      s = Segment.mk id kind blocks ∧
      (SegmentKind.is_memory_index kind = true → blocks = []) ∧
      one_run blocks ∧
      Segment.try_from (Segment.id s, Segment.kind s, Segment.blocks s) = Ok s ∧
      (∀ pre tools post, blocks = pre ++ tools ++ post →
         all_prose pre → all_tools tools → all_prose post →
         Segment.lookback_positions s =
           length pre + (if bool_decide (tools = []) then 0 else 1) + length post)
  | Err (IndexSegmentHasBlocks n) =>
      SegmentKind.is_memory_index kind = true ∧ n = length blocks ∧ n ≠ 0
  | Err (InterleavedToolTraffic i) =>
      i < length blocks ∧ one_run (take i blocks) ∧ ¬ one_run (take (S i) blocks)
  | Err (IndexEntryTooLong _) => False
  end.
Proof.
  destruct (Segment.new id kind blocks) as [s|e] eqn:Hnew.
  - pose proof Hnew as [-> [Hm Hi]]%segment_new_Ok. simpl in *.
    split_and!; try done.
    + by apply first_interleaving_None.
    + intros pre tools post -> ???. by apply count_positions_one_run.
  - unfold Segment.new in Hnew.
    destruct (SegmentKind.is_memory_index kind && _) eqn:Hg.
    + injection Hnew as <-. to_prop. split_and!; [done..|].
      intros ?%nil_length_inv. done.
    + destruct (first_interleaving blocks) as [i|] eqn:Hi; [|done].
      injection Hnew as <-. unfold first_interleaving in Hi.
      apply interleaving_first in Hi as (? & Hn & Hs). rewrite Nat.sub_0_r in *.
      split_and!; [lia|by apply first_interleaving_None|].
      intros Hrun%first_interleaving_None. unfold first_interleaving in Hrun. congruence.
Qed.

(** ** The canonical encoding is injective *)

(** The values Rust can hold: strings and vectors shorter than [2^64], ids of
    128 bits. *)
Definition string_fits (s : string) : Prop := fits (bytes s).
Definition id_fits (id : Id) : Prop := (id < u128_bound)%N.

Definition block_fits (b : Block.t) : Prop :=
  match b with
  | Block.Text text => string_fits text
  | Block.Thinking text signature =>
      string_fits text ∧ ∀ s, signature = Some s → string_fits s
  | Block.ToolUse call_id name input =>
      string_fits call_id ∧ string_fits name ∧ string_fits input
  | Block.ToolResult call_id content _ => string_fits call_id ∧ string_fits content
  end.

Definition kind_fits (k : SegmentKind.t) : Prop :=
  match k with
  | SegmentKind.MemoryIndex e =>
      id_fits (MemoryIndexEntry.turn e) ∧ string_fits (MemoryIndexEntry.topic e) ∧
      string_fits (MemoryIndexEntry.gist e)
  | SegmentKind.Turn turn _ => id_fits turn
  | _ => True
  end.

Definition segment_fits (s : Segment.t) : Prop :=
  id_fits (Segment.id s) ∧ kind_fits (Segment.kind s) ∧
  fits (Segment.blocks s) ∧ Forall block_fits (Segment.blocks s).

Lemma writer_id_unique tag i i' :
  id_fits i → id_fits i' → uniquely (λ i, CanonicalWriter.bytes tag (le_bytes 16 i)) i i'.
Proof. intros ??. apply writer_le_unique; [lia|done..]. Qed.

(** Peel the next field off both encodings. *)
Ltac peel H :=
  rewrite <- ?(assoc_L (++)) in H;
  first
    [ apply writer_str_unique in H as [-> H]; [|done..]
    | apply writer_id_unique in H as [-> H]; [|done..]
    | apply writer_opt_str_unique in H as [-> H]; [|done..] ].

Lemma bool_tag_unique tag (b b' : bool) : uniquely (CanonicalWriter.bool tag) b b'.
Proof.
  intros r r' H. unfold CanonicalWriter.bool in H.
  apply writer_u8_unique in H as [Hb ->]; [|by destruct b|by destruct b'].
  by destruct b, b'.
Qed.

Lemma block_unique b b' :
  block_fits b → block_fits b' → uniquely Block.write_canonical b b'.
Proof.
  intros Hb Hb' r r' H. unfold Block.write_canonical in H.
  rewrite <- !(assoc_L (++)) in H.
  apply writer_u8_unique in H as [Hd H]; [|by destruct b|by destruct b'].
  destruct b, b'; simpl in Hd, Hb, Hb'; try done; destruct_and?; peel H;
    [by rewrite H|by peel H; rewrite H|by do 2 peel H; rewrite H|].
  peel H. apply bool_tag_unique in H as [-> ->]. done.
Qed.

Lemma timestamp_fits i : id_fits i → (timestamp_ms i < u64_bound)%N.
Proof.
  unfold id_fits, timestamp_ms, u64_bound, u128_bound. intros H.
  rewrite N.shiftr_div_pow2. apply N.Div0.div_lt_upper_bound.
  eapply N.lt_le_trans; [exact H|]. vm_compute. done.
Qed.

Lemma entry_unique e e' :
  kind_fits (SegmentKind.MemoryIndex e) → kind_fits (SegmentKind.MemoryIndex e') →
  uniquely MemoryIndexEntry.write_canonical e e'.
Proof.
  intros (Hi & Ht & Hg) (Hi' & Ht' & Hg') r r' H.
  destruct e as [i t g], e' as [i' t' g']. unfold MemoryIndexEntry.write_canonical in H.
  cbn [MemoryIndexEntry.turn MemoryIndexEntry.topic MemoryIndexEntry.gist] in *. rewrite <- !(assoc_L (++)) in H.
  apply writer_u64_unique in H as [_ H]; [|by apply timestamp_fits..].
  peel H. peel H. peel H. by rewrite H.
Qed.

Lemma nested_unique {T} `{Sealable T} tag (v v' : T) :
  uniquely write_canonical v v' → uniquely (nested tag) v v'.
Proof.
  intros Hu r r'. unfold nested. rewrite <- !(assoc_L (++)). intros Heq.
  apply app_inv_head in Heq. by apply Hu.
Qed.

Lemma kind_unique k k' :
  kind_fits k → kind_fits k' → uniquely SegmentKind.write_canonical k k'.
Proof.
  intros Hk Hk' r r' H. unfold SegmentKind.write_canonical in H.
  rewrite <- !(assoc_L (++)) in H.
  apply writer_u8_unique in H as [Hd H]; [|by destruct k|by destruct k'].
  destruct k, k'; simpl in Hd; try done.
  - by apply (@nested_unique _ MemoryIndexEntry_sealable 1 entry entry0 (entry_unique _ _ Hk Hk')) in H as [-> ->].
  - peel H. apply writer_u8_unique in H as [Hr ->]; [|by destruct role|by destruct role0].
    by destruct role, role0.
Qed.

Lemma blocks_unique l l' r r' :
  length l = length l' → Forall block_fits l → Forall block_fits l' →
  Segment.write_blocks l ++ r = Segment.write_blocks l' ++ r' → l = l' ∧ r = r'.
Proof.
  unfold Segment.write_blocks. revert l'.
  induction l as [|b l IH]; intros [|b' l'] Hlen Hl Hl' H; simpl in Hlen; try done.
  rewrite !fmap_cons in H. cbn [concat] in H. rewrite <- !(assoc_L (++)) in H.
  apply Forall_cons in Hl as [Hb Hl], Hl' as [Hb' Hl'].
  apply (@nested_unique _ Block_sealable 4 b b' (block_unique b b' Hb Hb')) in H as [-> H].
  destruct (IH l') as [-> ->]; auto.
Qed.

Lemma segment_unique s s' :
  segment_fits s → segment_fits s' → uniquely Segment.write_canonical s s'.
Proof.
  intros (Hi & Hk & Hl & Hb) (Hi' & Hk' & Hl' & Hb') r r' H.
  destruct s as [i k l], s' as [i' k' l']. unfold Segment.write_canonical in H.
  cbn [Segment.id Segment.kind Segment.blocks] in *. rewrite <- !(assoc_L (++)) in H. peel H.
  apply (@nested_unique _ SegmentKind_sealable 2 k k' (kind_unique k k' Hk Hk')) in H as [-> H].
  apply writer_u64_unique in H as [Hlen H]; [|done..].
  apply blocks_unique in H as [-> ->]; [done|lia|done..].
Qed.

(** The canonical encoding a segment's hash covers is injective, and so is
    every field boundary: two segments with the same bytes are the same segment
    - same id, kind, blocks, signatures and error flags - so two sealed segments
    that verify with one content hash are equal unless their own two encodings
    collide. *)
Theorem segment_canonical_injective (blake3 : list byte → list byte) (s s' : Segment.t)
    (Hs : segment_fits s) (Hs' : segment_fits s') :
  (write_canonical s = write_canonical s' → s = s') ∧
  (∀ x x' : Sealed.t Segment.t,
     Sealed.value x = s → Sealed.value x' = s' →
     Sealed.verify blake3 x = true → Sealed.verify blake3 x' = true →
     Sealed.hash x = Sealed.hash x' → s = s' ∨ colliding blake3 (canonical s) (canonical s')).
Proof.
  assert (Hinj : write_canonical s = write_canonical s' → s = s').
  { intros H. destruct (segment_unique s s' Hs Hs' [] []) as [-> _]; [|done].
    rewrite !app_nil_r. exact H. }
  split; [done|].
  intros x x' <- <- Hx Hx' Hh.
  destruct (verified_hash_eq blake3 x x' Hx Hx' Hh); auto.
Qed.

Lemma segment_canonical_injective_witness :
  segment_fits (Segment.mk 5%N (SegmentKind.Turn 7%N RUser) [Block.Text "ab"]) ∧
  (write_canonical (Segment.mk 5%N (SegmentKind.Turn 7%N RUser) [Block.Text "ab"]) =
   write_canonical (Segment.mk 5%N (SegmentKind.Turn 7%N RUser) [Block.Text "ab"]) →
   Segment.mk 5%N (SegmentKind.Turn 7%N RUser) [Block.Text "ab"] =
   Segment.mk 5%N (SegmentKind.Turn 7%N RUser) [Block.Text "ab"]).
Proof.
  assert (H : segment_fits (Segment.mk 5%N (SegmentKind.Turn 7%N RUser) [Block.Text "ab"]))
    by (repeat split; repeat constructor).
  split; [exact H|].
  apply (segment_canonical_injective (λ l, l) _ _ H H).
Defined.
