(* ===== verification/Ledger.v ===== *)
(** * The prompt ledger: [crates/supra_prompt]

    The append-only ledger with its snapshots and generation seals
    ([ledger.rs]), its errors ([error.rs]) and the generation rewrite
    ([generation.rs]).

    Sequence and generation numbers are [N]: reaching [u64::MAX] appends is out
    of scope, except for the restore path's own overflow check. *)

From Stdlib Require Import Ascii.
From S2P Require Import Prelude Text Sealing Segment.

(** ** Errors: [error.rs] *)

(** The message an [InvalidSnapshot] carries, one constructor per format
    string. *)
Inductive SnapshotDefect :=
| SequenceGap (index : nat) (found : N)
| InvalidSeal (seq : N)
| RepeatedSegment (id : Id)
| WrongNextSeq (found : N)
| CounterWithoutSeal (generation : N)
| GenerationCannotAdvance
| WrongGeneration (found : N)
| DifferentSegments (generation : N)
| DifferentPrefixHash (generation : N)
| Bp4BeyondLength (offset : nat)
| Bp4BeforeBp3 (offset : nat).

Inductive Region := Tools | System | Memory.

Inductive PromptError :=
| PIndexEntryTooLong (turn : Id) (bytes : nat)
| EvictionFailed (turn : Id)
| RecallCorrupt (turn : Id)
| RecallMissing (turn : Id)
| GenerationUnverified (generation : N) (expected found : ContentHash)
| DuplicateSegment (id : Id)
| RegionOrder (earlier later : Region)
| InvalidSnapshot (detail : SnapshotDefect).

#[export] Instance Region_eq_dec : EqDecision Region.
Proof. solve_decision. Defined.
#[export] Instance SnapshotDefect_eq_dec : EqDecision SnapshotDefect.
Proof. solve_decision. Defined.
#[export] Instance PromptError_eq_dec : EqDecision PromptError.
Proof. solve_decision. Defined.

(** ** The ledger: [ledger.rs] *)

Module Generation.
Record t := mk { generation : N; segments : list Id; prefix_hash : ContentHash }.

#[global] Instance t_eq_dec : EqDecision t.
Proof. solve_decision. Defined.
End Generation.

Abbreviation entry := (Sealed.t Segment.t).

Definition entry_id (e : entry) : Id := Segment.id (Sealed.value e).

Module PromptLedger.
Record t := mk {
  entries : list entry;
  next_seq : N;
  generation : N;
  latest_generation : option Generation.t;
}.

Definition new : t := mk [] SeqNo.ZERO 0 None.
End PromptLedger.

Module LedgerSnapshot.
Record t := mk {
  entries : list entry;
  next_seq : N;
  generation : N;
  latest_generation : option Generation.t;
}.
End LedgerSnapshot.

(** The [Pairs] of [hash_sequence]: kind [0x20]. *)
Abbreviation Pairs := (list (N * ContentHash)).

Definition pairs_canonical (p : Pairs) : list byte :=
  CanonicalWriter.u64 1 (N.of_nat (length p)) ++
  concat ((λ '(seq, hash), CanonicalWriter.u64 2 seq ++ CanonicalWriter.bytes 3 hash) <$> p).

Definition pairs_sealable : Sealable Pairs :=
  {| CANONICAL_KIND := 32; write_canonical := pairs_canonical |}.

Section ledger.
Context (blake3 : list byte → list byte).

Definition hash_sequence (sequence : Pairs) : ContentHash :=
  @Sealed.hash_of blake3 Pairs pairs_sealable sequence.

Definition sequence_of (entries : list entry) : Pairs :=
  (λ e, (Sealed.seq e, Sealed.hash e)) <$> entries.

Definition append (l : PromptLedger.t) (segment : Segment.t) :
    result (N * PromptLedger.t) PromptError :=
  if existsb (λ e, bool_decide (entry_id e = Segment.id segment)) (PromptLedger.entries l)
  then Err (DuplicateSegment (Segment.id segment))
  else
    let seq := PromptLedger.next_seq l in
    Ok (seq, PromptLedger.mk
               (PromptLedger.entries l ++ [Sealed.seal blake3 seq segment])
               (SeqNo.next seq)
               (PromptLedger.generation l)
               (PromptLedger.latest_generation l)).

Definition prefix_hash (l : PromptLedger.t) : ContentHash :=
  hash_sequence (sequence_of (PromptLedger.entries l)).

Definition snapshot (l : PromptLedger.t) : LedgerSnapshot.t :=
  LedgerSnapshot.mk (PromptLedger.entries l) (PromptLedger.next_seq l)
    (PromptLedger.generation l) (PromptLedger.latest_generation l).

(** The first loop of [validate_snapshot]: [ids] are the identities seen so far. *)
Fixpoint validate_entries (index : nat) (ids : gset Id) (entries : list entry) :
    result unit PromptError :=
  match entries with
  | [] => Ok tt
  | e :: entries =>
      if negb (Sealed.seq e =? N.of_nat index)%N
      then Err (InvalidSnapshot (SequenceGap index (Sealed.seq e)))
      else if negb (Sealed.verify blake3 e)
      then Err (InvalidSnapshot (InvalidSeal (Sealed.seq e)))
      else if bool_decide (entry_id e ∈ ids)
      then Err (InvalidSnapshot (RepeatedSegment (entry_id e)))
      else validate_entries (S index) ({[entry_id e]} ∪ ids) entries
  end.

Definition validate_snapshot (s : LedgerSnapshot.t) : result unit PromptError :=
  let? _ := validate_entries 0 ∅ (LedgerSnapshot.entries s) in
  if negb (LedgerSnapshot.next_seq s =? N.of_nat (length (LedgerSnapshot.entries s)))%N
  then Err (InvalidSnapshot (WrongNextSeq (LedgerSnapshot.next_seq s)))
  else match LedgerSnapshot.latest_generation s with
  | None =>
      if negb (LedgerSnapshot.generation s =? 0)%N
      then Err (InvalidSnapshot (CounterWithoutSeal (LedgerSnapshot.generation s)))
      else Ok tt
  | Some seal =>
      if (Generation.generation seal + 1 <? u64_bound)%N then
        if negb (LedgerSnapshot.generation s =? Generation.generation seal + 1)%N
        then Err (InvalidSnapshot (WrongGeneration (LedgerSnapshot.generation s)))
        else if negb (bool_decide
               (Generation.segments seal = entry_id <$> LedgerSnapshot.entries s))
        then Err (InvalidSnapshot (DifferentSegments (Generation.generation seal)))
        else if negb (bool_decide (Generation.prefix_hash seal =
               hash_sequence (sequence_of (LedgerSnapshot.entries s))))
        then Err (InvalidSnapshot (DifferentPrefixHash (Generation.generation seal)))
        else Ok tt
      else Err (InvalidSnapshot GenerationCannotAdvance)
  end.

Definition from_snapshot (s : LedgerSnapshot.t) : result PromptLedger.t PromptError :=
  let? _ := validate_snapshot s in
  Ok (PromptLedger.mk (LedgerSnapshot.entries s) (LedgerSnapshot.next_seq s)
        (LedgerSnapshot.generation s) (LedgerSnapshot.latest_generation s)).

Definition seal_generation (l : PromptLedger.t) : Generation.t * PromptLedger.t :=
  let seal := Generation.mk (PromptLedger.generation l)
                (entry_id <$> PromptLedger.entries l) (prefix_hash l) in
  (seal, PromptLedger.mk (PromptLedger.entries l) (PromptLedger.next_seq l)
           (PromptLedger.generation l + 1) (Some seal)).

Definition verify_generation (l : PromptLedger.t) (seal : Generation.t) :
    result unit PromptError :=
  let found := prefix_hash l in
  if bool_decide (found = Generation.prefix_hash seal) then Ok tt
  else Err (GenerationUnverified (Generation.generation seal)
              (Generation.prefix_hash seal) found).

Definition clear_for_rewrite (l : PromptLedger.t) : PromptLedger.t :=
  PromptLedger.mk [] (PromptLedger.next_seq l) (PromptLedger.generation l)
    (PromptLedger.latest_generation l).

(** ** Generation rewrites: [generation.rs] *)

(** The re-append loop: refused segments are collected, not retried. *)
Fixpoint reappend (l : PromptLedger.t) (live : list Segment.t) :
    PromptLedger.t * list PromptError :=
  match live with
  | [] => (l, [])
  | segment :: live =>
      match append l segment with
      | Ok (_, l) => reappend l live
      | Err error => let '(l, skipped) := reappend l live in (l, error :: skipped)
      end
  end.

Definition rewrite_ledger (l : PromptLedger.t) :
    Generation.t * Generation.t * list PromptError * PromptLedger.t :=
  let '(before, l) := seal_generation l in
  let live := Sealed.value <$> PromptLedger.entries l in
  let '(l, skipped) := reappend (clear_for_rewrite l) live in
  let '(after, l) := seal_generation l in
  (before, after, skipped, l).

Definition verify_rewrite (before after : Generation.t) : result unit PromptError :=
  if bool_decide (Generation.segments before = Generation.segments after) then Ok tt
  else Err (GenerationUnverified (Generation.generation after)
              (Generation.prefix_hash before) (Generation.prefix_hash after)).

Definition needs_rewrite (usage_percent : nat) : bool := 92 <=? usage_percent.
End ledger.

(** ** Ledger lemmas *)

Section ledger_lemmas.
Context (blake3 : list byte → list byte).
Implicit Types (l : PromptLedger.t) (es : list entry).

Definition ids l : list Id := entry_id <$> PromptLedger.entries l.

(** Every stored position is the entry's sequence number and every seal holds. *)
Definition dense (start : N) es : Prop :=
  ∀ i e, es !! i = Some e →
    Sealed.seq e = (start + N.of_nat i)%N ∧ Sealed.verify blake3 e = true.

(** The ledger's invariant: gap-free numbering, valid seals, no identity twice. *)
Definition ledger_wf l : Prop :=
  dense 0 (PromptLedger.entries l) ∧ NoDup (ids l) ∧
  PromptLedger.next_seq l = N.of_nat (length (PromptLedger.entries l)).

(** The latest seal describes a prefix of the live sequence. *)
Definition seal_wf l : Prop :=
  match PromptLedger.latest_generation l with
  | None => PromptLedger.generation l = 0%N
  | Some g =>
      PromptLedger.generation l = (Generation.generation g + 1)%N ∧
      ∃ n, n ≤ length (PromptLedger.entries l) ∧
        Generation.segments g = take n (ids l) ∧
        Generation.prefix_hash g =
          hash_sequence blake3 (sequence_of (take n (PromptLedger.entries l)))
  end.

(** Every ledger the append and seal operations produce. *)
Inductive reachable : PromptLedger.t → Prop :=
| reachable_new : reachable PromptLedger.new
| reachable_append l segment seq l' :
    reachable l → append blake3 l segment = Ok (seq, l') → reachable l'
| reachable_seal l : reachable l → reachable (seal_generation blake3 l).2.

Lemma dense_snoc start es e :
  dense start es → Sealed.seq e = (start + N.of_nat (length es))%N →
  Sealed.verify blake3 e = true → dense start (es ++ [e]).
Proof.
  intros Hd Hs Hv i x Hx. apply lookup_app_Some in Hx as [Hx|[Hlen Hx]]; [by apply Hd|].
  apply list_lookup_singleton_Some in Hx as [Hi <-].
  replace i with (length es) by lia. done.
Qed.

Lemma dense_cons start e es :
  dense start (e :: es) ↔
  (Sealed.seq e = start ∧ Sealed.verify blake3 e = true) ∧ dense (start + 1) es.
Proof.
  split.
  - intros Hd. split; [destruct (Hd 0 e eq_refl); split; [lia|done]|].
    intros i x Hx. destruct (Hd (S i) x Hx). split; [lia|done].
  - intros [[Hs Hv] Hd] [|i] x Hx; simpl in Hx; simplify_eq; [split; [lia|done]|].
    destruct (Hd i x Hx). split; [lia|done].
Qed.

Lemma append_Ok l segment seq l' :
  append blake3 l segment = Ok (seq, l') ↔
  (Segment.id segment ∉ ids l) ∧ seq = PromptLedger.next_seq l ∧
  l' = PromptLedger.mk (PromptLedger.entries l ++ [Sealed.seal blake3 seq segment])
         (seq + 1) (PromptLedger.generation l) (PromptLedger.latest_generation l).
Proof.
  unfold append, ids. destruct (existsb _ _) eqn:E.
  - split; [done|]. intros [Hn _]. exfalso. apply Hn.
    apply existsb_exists in E as (e & Hin & He). to_prop.
    apply list_elem_of_fmap. exists e. split; [done|by apply list_elem_of_In].
  - split.
    + intros [= <- <-]. split_and!; [|done|done]. intros Hin.
      apply list_elem_of_fmap in Hin as (e & He & Hin).
      enough (existsb (λ e, bool_decide (entry_id e = Segment.id segment))
        (PromptLedger.entries l) = true) by congruence.
      apply existsb_exists. exists e. rewrite bool_decide_eq_true.
      by rewrite <- list_elem_of_In.
    + by intros (_ & -> & ->).
Qed.

Lemma append_Err l segment e :
  append blake3 l segment = Err e ↔
  e = DuplicateSegment (Segment.id segment) ∧ Segment.id segment ∈ ids l.
Proof.
  destruct (append blake3 l segment) as [[seq l']|e'] eqn:E.
  - apply append_Ok in E as (Hn & _). split; [done|]. by intros [_ ?].
  - destruct (decide (Segment.id segment ∈ ids l)) as [Hin|Hn].
    + assert (e' = DuplicateSegment (Segment.id segment)) as ->
        by (unfold append in E; case_match; simplify_eq; done).
      split; [by intros [= <-]|by intros [-> _]].
    + assert (append blake3 l segment = Ok (PromptLedger.next_seq l, _)) as E'
        by (by apply append_Ok). congruence.
Qed.

Lemma ids_append l segment seq g lg :
  ids (PromptLedger.mk (PromptLedger.entries l ++ [Sealed.seal blake3 seq segment])
         (seq + 1) g lg) = ids l ++ [Segment.id segment].
Proof. unfold ids. simpl. by rewrite fmap_app. Qed.

Lemma append_wf l segment seq l' :
  ledger_wf l → append blake3 l segment = Ok (seq, l') → ledger_wf l'.
Proof.
  intros (Hd & Hn & Hs) (Hfresh & -> & ->)%append_Ok. split_and!; simpl.
  - apply dense_snoc; [done|done|apply verify_seal].
  - rewrite ids_append. apply NoDup_app. split_and!; [done|set_solver|apply NoDup_singleton].
  - rewrite length_app, Hs. simpl. lia.
Qed.

Lemma append_seal_wf l segment seq l' :
  seal_wf l → append blake3 l segment = Ok (seq, l') → seal_wf l'.
Proof.
  intros Hw (_ & -> & ->)%append_Ok. unfold seal_wf in *. simpl.
  destruct (PromptLedger.latest_generation l) as [g|]; [|done].
  destruct Hw as (Hg & n & Hn & Hseg & Hh). split; [done|]. exists n.
  rewrite ids_append, length_app, !take_app_le by (unfold ids; rewrite ?length_fmap; lia).
  split_and!; [lia|done|done].
Qed.

Lemma seal_generation_wf l : seal_wf (seal_generation blake3 l).2.
Proof.
  unfold seal_wf, seal_generation. simpl. split; [done|].
  exists (length (PromptLedger.entries l)). split_and!; [done|..].
  - unfold ids. simpl. rewrite take_ge; [done|by rewrite length_fmap].
  - by rewrite firstn_all.
Qed.

Lemma reachable_wf l : reachable l → ledger_wf l ∧ seal_wf l.
Proof.
  induction 1 as [|l segment seq l' _ [IH1 IH2] Ha|l _ [IH1 IH2]].
  - split; [|done]. split_and!; [intros i e Hi; done|constructor|done].
  - eauto using append_wf, append_seal_wf.
  - split; [exact IH1|apply seal_generation_wf].
Qed.

Lemma validate_entries_Ok index seen es :
  validate_entries blake3 index seen es = Ok tt ↔
  dense (N.of_nat index) es ∧ NoDup (entry_id <$> es) ∧ ∀ e, e ∈ es → entry_id e ∉ seen.
Proof.
  revert index seen. induction es as [|e es IH]; intros index seen; simpl.
  - split; [|done]. intros _. split_and!; [by intros i e Hi|constructor|set_solver].
  - rewrite dense_cons. replace (N.of_nat index + 1)%N with (N.of_nat (S index)) by lia.
    setoid_rewrite NoDup_cons. setoid_rewrite elem_of_cons.
    destruct (N.eqb_spec (Sealed.seq e) (N.of_nat index)) as [Hs|Hs]; simpl; [|naive_solver].
    destruct (Sealed.verify blake3 e) eqn:Hv; simpl; [|naive_solver].
    case_bool_decide as Hid; [naive_solver|].
    rewrite IH. split.
    + intros (Hd & Hn & Hfresh). split_and!; [done..| |done|].
      * intros (x & Hx & Hin)%list_elem_of_fmap. apply (Hfresh x Hin). set_solver.
      * intros x [->|Hx]; [done|]. specialize (Hfresh x Hx). set_solver.
    + intros ((_ & Hd) & (Hnin & Hn) & Hfresh). split_and!; [done..|].
      intros x Hx. rewrite not_elem_of_union, not_elem_of_singleton. split; [|auto].
      intros Heq. apply Hnin. apply list_elem_of_fmap. eauto.
Qed.

(** What the restore path accepts. *)
Definition snapshot_ok (s : LedgerSnapshot.t) : Prop :=
  dense 0 (LedgerSnapshot.entries s) ∧
  NoDup (entry_id <$> LedgerSnapshot.entries s) ∧
  LedgerSnapshot.next_seq s = N.of_nat (length (LedgerSnapshot.entries s)) ∧
  match LedgerSnapshot.latest_generation s with
  | None => LedgerSnapshot.generation s = 0%N
  | Some g =>
      (Generation.generation g + 1 < u64_bound)%N ∧
      LedgerSnapshot.generation s = (Generation.generation g + 1)%N ∧
      Generation.segments g = entry_id <$> LedgerSnapshot.entries s ∧
      Generation.prefix_hash g = hash_sequence blake3 (sequence_of (LedgerSnapshot.entries s))
  end.

Lemma validate_snapshot_Ok s : validate_snapshot blake3 s = Ok tt ↔ snapshot_ok s.
Proof.
  unfold validate_snapshot, snapshot_ok. rewrite result_bind_Ok. split.
  - intros ([] & Hv & H). apply validate_entries_Ok in Hv as (Hd & Hn & _).
    destruct (N.eqb_spec (LedgerSnapshot.next_seq s)
      (N.of_nat (length (LedgerSnapshot.entries s)))); [|done]. simpl in H.
    split_and!; [done..|]. destruct (LedgerSnapshot.latest_generation s) as [g|].
    + destruct (N.ltb_spec (Generation.generation g + 1) u64_bound); [|done].
      destruct (N.eqb_spec (LedgerSnapshot.generation s) (Generation.generation g + 1));
        [|done]. simpl in H.
      do 2 (case_bool_decide; simpl in H; [|done]). done.
    + destruct (N.eqb_spec (LedgerSnapshot.generation s) 0); done.
  - intros (Hd & Hn & Hs & Hg). exists tt. split.
    { apply validate_entries_Ok. split_and!; [done..|set_solver]. }
    rewrite Hs, N.eqb_refl. simpl.
    destruct (LedgerSnapshot.latest_generation s) as [g|].
    + destruct Hg as (Hb & -> & Hseg & Hh). apply N.ltb_lt in Hb as ->.
      rewrite N.eqb_refl. simpl. by rewrite !bool_decide_eq_true_2.
    + by rewrite Hg.
Qed.

Lemma from_snapshot_Ok s l :
  from_snapshot blake3 s = Ok l ↔ snapshot_ok s ∧ snapshot l = s.
Proof.
  unfold from_snapshot. rewrite result_bind_Ok. split.
  - intros ([] & Hv & [= <-]). apply validate_snapshot_Ok in Hv. by destruct s.
  - intros [Hv <-]. exists tt. split; [by apply validate_snapshot_Ok|]. by destruct l.
Qed.
End ledger_lemmas.

(** ** Appending *)

Section ledger_theorems.
Context (blake3 : list byte → list byte).
Implicit Types (l : PromptLedger.t).

(** One operation of a session: an offered segment, or a seal. *)
Inductive op := OpAppend (segment : Segment.t) | OpSeal.

Definition apply_op l (o : op) : PromptLedger.t :=
  match o with
  | OpAppend segment =>
      match append blake3 l segment with Ok (_, l') => l' | Err _ => l end
  | OpSeal => (seal_generation blake3 l).2
  end.

Definition run_ops l (ops : list op) : PromptLedger.t := foldl apply_op l ops.

Lemma apply_op_reachable l o : reachable blake3 l → reachable blake3 (apply_op l o).
Proof.
  intros Hl. destruct o as [segment|]; simpl; [|by constructor].
  destruct (append blake3 l segment) as [[seq l']|] eqn:E; [|done].
  by eapply reachable_append.
Qed.

Lemma apply_op_prefix l o :
  PromptLedger.entries l `prefix_of` PromptLedger.entries (apply_op l o).
Proof.
  destruct o as [segment|]; simpl; [|done].
  destruct (append blake3 l segment) as [[seq l']|] eqn:E; [|done].
  apply append_Ok in E as (_ & _ & ->). simpl. by apply prefix_app_r.
Qed.

Lemma run_ops_reachable l ops : reachable blake3 l → reachable blake3 (run_ops l ops).
Proof.
  revert l. induction ops as [|o ops IH]; intros l Hl; [done|].
  apply IH, apply_op_reachable, Hl.
Qed.

Lemma run_ops_prefix l ops :
  PromptLedger.entries l `prefix_of` PromptLedger.entries (run_ops l ops).
Proof.
  revert l. induction ops as [|o ops IH]; intros l; [done|].
  etrans; [apply apply_op_prefix|apply IH].
Qed.
End ledger_theorems.

(** C2. The prompt ledger is append-only.  Whatever sequence of segments is
    offered and generations sealed, starting from any ledger those operations
    reach: the entries already present keep their positions, sequence numbers,
    hashes and contents; entry [i] always carries sequence number [i] and a seal
    that verifies; no segment identity appears twice; an offer is refused exactly
    when its identity is already live, and an accepted one is numbered with the
    ledger's length. *)
Theorem ledger_append_only (blake3 : list byte → list byte) (l : PromptLedger.t)
    (ops : list op) (Hl : reachable blake3 l) :
  let l' := run_ops blake3 l ops in
  PromptLedger.entries l `prefix_of` PromptLedger.entries l' ∧
  (∀ i e, PromptLedger.entries l' !! i = Some e →
     Sealed.seq e = N.of_nat i ∧ Sealed.verify blake3 e = true) ∧
  NoDup (entry_id <$> PromptLedger.entries l') ∧
  (∀ segment, (∃ e, append blake3 l' segment = Err e) ↔ Segment.id segment ∈ ids l') ∧
  (∀ segment seq l'', append blake3 l' segment = Ok (seq, l'') →
     seq = N.of_nat (length (PromptLedger.entries l')) ∧
     PromptLedger.entries l'' =
       PromptLedger.entries l' ++ [Sealed.seal blake3 seq segment]).
Proof.
  intros l'. assert (Hr : reachable blake3 l') by by apply run_ops_reachable.
  apply reachable_wf in Hr as ((Hd & Hn & Hs) & _). split_and!.
  - apply run_ops_prefix.
  - intros i e Hi. by apply Hd in Hi.
  - done.
  - intros segment. split.
    + by intros (e & (_ & ?)%append_Err).
    + intros Hin. eexists. by apply append_Err.
  - intros segment seq l'' (_ & -> & ->)%append_Ok. by rewrite Hs.
Qed.

Definition demo_segment (id : Id) : Segment.t :=
  Segment.mk id (SegmentKind.Turn 1%N RUser) [Block.Text "hi"].

Lemma ledger_append_only_witness :
  reachable (λ x, x) PromptLedger.new ∧
  NoDup (entry_id <$> PromptLedger.entries
    (run_ops (λ x, x) PromptLedger.new
       [OpAppend (demo_segment 1%N); OpSeal; OpAppend (demo_segment 1%N)])).
Proof.
  split; [constructor|].
  apply (ledger_append_only (λ x, x) PromptLedger.new
    [OpAppend (demo_segment 1%N); OpSeal; OpAppend (demo_segment 1%N)]).
  constructor.
Defined.

(** ** Snapshots *)

(** Restoring a snapshot is exact and strict.  Whatever snapshot is given,
    [from_snapshot] accepts it only if it satisfies every persisted invariant
    (dense numbering, valid seals, unique identities, consistent counters, a
    latest seal describing the live sequence), and then restores it field for
    field; and the snapshot of a ledger that appends and seals produced is
    restored to that same ledger exactly when no segment was appended after the
    latest seal. *)
Theorem snapshot_restore_exact (blake3 : list byte → list byte) :
  (∀ s l, from_snapshot blake3 s = Ok l ↔ snapshot_ok blake3 s ∧ snapshot l = s) ∧
  (∀ l, reachable blake3 l → (PromptLedger.generation l < u64_bound)%N →
     (from_snapshot blake3 (snapshot l) = Ok l ↔
      match PromptLedger.latest_generation l with
      | None => True
      | Some g => Generation.segments g = ids l
      end)).
Proof.
  split; [apply from_snapshot_Ok|].
  intros l Hl Hg. apply reachable_wf in Hl as ((Hd & Hn & Hs) & Hseal).
  rewrite from_snapshot_Ok. unfold snapshot_ok, seal_wf, ids in *. simpl.
  destruct (PromptLedger.latest_generation l) as [g|]; [|naive_solver].
  destruct Hseal as (Hgen & n & Hlen & Hseg & Hh). split.
  - intros ((_ & _ & _ & _ & _ & ? & _) & _). done.
  - intros Hids. split; [|done]. split_and!; [done..|lia|done|done|].
    rewrite Hids in Hseg. apply (f_equal length) in Hseg as Hl.
    rewrite length_take, length_fmap in Hl.
    rewrite Hh, take_ge by lia. done.
Qed.

Lemma snapshot_restore_exact_witness :
  reachable (λ x, x) PromptLedger.new ∧
  from_snapshot (λ x, x) (snapshot PromptLedger.new) = Ok PromptLedger.new.
Proof.
  split; [constructor|].
  apply (proj2 (snapshot_restore_exact (λ x, x)) PromptLedger.new);
    [constructor|reflexivity|exact I].
Defined.

Lemma seal_then_append_ids (blake3 : list byte → list byte) l segment seq l2 :
  reachable blake3 l →
  append blake3 (seal_generation blake3 l).2 segment = Ok (seq, l2) →
  reachable blake3 l2 ∧
  PromptLedger.latest_generation l2 = Some (seal_generation blake3 l).1 ∧
  ids l2 = ids l ++ [Segment.id segment].
Proof.
  intros Hl Ha. split.
  - exact (reachable_append blake3 _ segment seq l2 (reachable_seal blake3 l Hl) Ha).
  - apply append_Ok in Ha as (_ & -> & ->). split; [done|].
    exact (ids_append blake3 (seal_generation blake3 l).2 segment _ _ _).
Qed.

(** Sealing a generation and then appending leaves the ledger in a state its
    own snapshot cannot restore: the latest seal records the segments at sealing
    time, so [from_snapshot] of the snapshot is refused with [DifferentSegments]
    although every operation succeeded. *)
Theorem append_after_seal_not_restorable (blake3 : list byte → list byte)
    (l : PromptLedger.t) (segment : Segment.t) (seq : N) (l2 : PromptLedger.t)
    (Hl : reachable blake3 l) (Hg : (PromptLedger.generation l + 1 < u64_bound)%N)
    (Ha : append blake3 (seal_generation blake3 l).2 segment = Ok (seq, l2)) :
  from_snapshot blake3 (snapshot l2) =
    Err (InvalidSnapshot (DifferentSegments (PromptLedger.generation l))).
Proof.
  destruct (seal_then_append_ids blake3 l segment seq l2 Hl Ha) as (Hr & Hlatest & Hids).
  apply reachable_wf in Hr as ((Hd & Hn & Hs) & Hseal).
  unfold from_snapshot, validate_snapshot. simpl.
  assert (validate_entries blake3 0 ∅ (PromptLedger.entries l2) = Ok tt) as ->.
  { apply validate_entries_Ok. split_and!; [done..|set_solver]. }
  simpl. rewrite Hs, N.eqb_refl, Hlatest. simpl. apply N.ltb_lt in Hg as ->.
  unfold seal_wf in Hseal. rewrite Hlatest in Hseal. destruct Hseal as [-> _]. simpl.
  rewrite N.eqb_refl. simpl. rewrite bool_decide_eq_false_2; [done|].
  unfold ids in Hids. rewrite Hids. intros Heq%(f_equal length).
  rewrite length_app in Heq. simpl in Heq. lia.
Qed.

Lemma append_after_seal_not_restorable_witness :
  reachable (λ x, x) PromptLedger.new ∧
  from_snapshot (λ x, x) (snapshot (run_ops (λ x, x) PromptLedger.new
    [OpSeal; OpAppend (demo_segment 1%N)])) =
  Err (InvalidSnapshot (DifferentSegments 0)).
Proof.
  split; [constructor|].
  apply (append_after_seal_not_restorable (λ x, x) PromptLedger.new (demo_segment 1%N) 0%N);
    [constructor|reflexivity|reflexivity].
Defined.

(** ** Generation rewrites *)

Section rewrite_lemmas.
Context (blake3 : list byte → list byte).
Implicit Types (l : PromptLedger.t) (live : list Segment.t).

(** The entries the re-append loop produces from sequence number [start]. *)
Fixpoint seal_from (start : N) live : list entry :=
  match live with
  | [] => []
  | segment :: live => Sealed.seal blake3 start segment :: seal_from (start + 1) live
  end.

Lemma seal_from_values start live : Sealed.value <$> seal_from start live = live.
Proof. revert start. induction live; intros; simpl; f_equal; auto. Qed.

Lemma seal_from_dense start live : dense blake3 start (seal_from start live).
Proof.
  revert start. induction live as [|s live IH]; intros start; [by intros i e Hi|].
  simpl. apply dense_cons. split; [|apply IH]. split; [done|apply verify_seal].
Qed.

Lemma seal_from_length start live : length (seal_from start live) = length live.
Proof. by rewrite <- (length_fmap Sealed.value), seal_from_values. Qed.

Lemma ids_values (es : list entry) : entry_id <$> es = Segment.id <$> (Sealed.value <$> es).
Proof. by rewrite <- list_fmap_compose. Qed.

Lemma reappend_fresh l live :
  NoDup (ids l ++ (Segment.id <$> live)) →
  reappend blake3 l live =
    (PromptLedger.mk (PromptLedger.entries l ++ seal_from (PromptLedger.next_seq l) live)
       (PromptLedger.next_seq l + N.of_nat (length live))
       (PromptLedger.generation l) (PromptLedger.latest_generation l), []).
Proof.
  revert l. induction live as [|s live IH]; intros l Hn; simpl.
  - rewrite app_nil_r. destruct l; simpl. do 2 f_equal. lia.
  - assert (Hfresh : Segment.id s ∉ ids l).
    { apply NoDup_app in Hn as (_ & Hn & _). intros Hin. apply (Hn _ Hin). set_solver. }
    assert (Ha := proj2 (append_Ok blake3 l s _ _) (conj Hfresh (conj eq_refl eq_refl))).
    rewrite Ha, IH.
    + simpl. rewrite <- (assoc_L (++)). do 2 f_equal. simpl. lia.
    + rewrite ids_append, <- (assoc_L (++)). exact Hn.
Qed.

Lemma rewrite_result l :
  NoDup (ids l) →
  let l' := PromptLedger.mk
    (seal_from (PromptLedger.next_seq l) (Sealed.value <$> PromptLedger.entries l))
    (PromptLedger.next_seq l + N.of_nat (length (PromptLedger.entries l)))
    (PromptLedger.generation l + 1) (Some (seal_generation blake3 l).1) in
  rewrite_ledger blake3 l =
    ((seal_generation blake3 l).1, (seal_generation blake3 l').1, [],
     (seal_generation blake3 l').2).
Proof.
  intros Hn l'. unfold rewrite_ledger. simpl.
  assert (Hc := reappend_fresh (clear_for_rewrite (seal_generation blake3 l).2)
    (Sealed.value <$> PromptLedger.entries l)).
  unfold clear_for_rewrite, seal_generation in Hc. simpl in Hc.
  rewrite length_fmap in Hc. unfold clear_for_rewrite. simpl.
  rewrite Hc; [done|]. unfold ids. simpl. by rewrite <- ids_values.
Qed.
End rewrite_lemmas.

(** A generation rewrite moves content and never rewords it.  From every
    ledger appends and seals reach, [rewrite] refuses no segment, leaves the same
    segments in the same order with seals that verify, advances the generation by
    two, and its pair of seals records the same identities, so [verify_rewrite]
    accepts it.  Sequence numbers continue where the old generation stopped: the
    re-appended entry [i] carries [next_seq + i], not [i]. *)
Theorem rewrite_preserves_content (blake3 : list byte → list byte) (l : PromptLedger.t)
    (Hl : reachable blake3 l) :
  ∃ before after l',
    rewrite_ledger blake3 l = (before, after, [], l') ∧
    verify_rewrite before after = Ok tt ∧
    Generation.segments before = ids l ∧
    Sealed.value <$> PromptLedger.entries l' = Sealed.value <$> PromptLedger.entries l ∧
    PromptLedger.generation l' = (PromptLedger.generation l + 2)%N ∧
    dense blake3 (PromptLedger.next_seq l) (PromptLedger.entries l').
Proof.
  apply reachable_wf in Hl as ((_ & Hn & _) & _).
  do 3 eexists. split; [by apply rewrite_result|]. simpl.
  split_and!; [|done|apply seal_from_values|lia|apply seal_from_dense].
  unfold verify_rewrite. simpl. rewrite bool_decide_eq_true_2; [done|].
  by rewrite !ids_values, seal_from_values.
Qed.

Lemma rewrite_preserves_content_witness :
  reachable (λ x, x) PromptLedger.new ∧
  ∃ before after l',
    rewrite_ledger (λ x, x) PromptLedger.new = (before, after, [], l') ∧
    verify_rewrite before after = Ok tt.
Proof.
  split; [constructor|].
  destruct (rewrite_preserves_content (λ x, x) PromptLedger.new) as (b & a & l' & H & Hv & _);
    [constructor|]. exists b, a, l'. exact (conj H Hv).
Defined.

(** A rewritten ledger cannot be restored.  Because the drain keeps the
    sequence counter, every non-empty ledger that appends and seals reach becomes,
    after one [rewrite], a ledger whose own snapshot [from_snapshot] refuses: the
    first entry is numbered with the old length where restoring demands zero. *)
Theorem rewrite_not_restorable (blake3 : list byte → list byte) (l : PromptLedger.t)
    (Hl : reachable blake3 l) (Hne : PromptLedger.entries l ≠ []) :
  let '(_, _, _, l') := rewrite_ledger blake3 l in
  from_snapshot blake3 (snapshot l') =
    Err (InvalidSnapshot (SequenceGap 0 (N.of_nat (length (PromptLedger.entries l))))).
Proof.
  apply reachable_wf in Hl as ((_ & Hn & Hs) & _).
  rewrite rewrite_result by done. unfold from_snapshot, validate_snapshot, snapshot.
  simpl. rewrite Hs. destruct (PromptLedger.entries l) as [|e es]; [done|].
  simpl. destruct (N.eqb_spec (N.pos (Pos.of_succ_nat (length es))) (N.of_nat 0)); [lia|done].
Qed.

Lemma rewrite_not_restorable_witness :
  let l := run_ops (λ x, x) PromptLedger.new [OpAppend (demo_segment 1%N)] in
  reachable (λ x, x) l ∧ PromptLedger.entries l ≠ [] ∧
  let '(_, _, _, l') := rewrite_ledger (λ x, x) l in
  from_snapshot (λ x, x) (snapshot l') = Err (InvalidSnapshot (SequenceGap 0 1)).
Proof.
  intros l. assert (Hr : reachable (λ x, x) l) by (apply run_ops_reachable; constructor).
  assert (Hne : PromptLedger.entries l ≠ []) by done.
  split; [exact Hr|]. split; [exact Hne|].
  exact (rewrite_not_restorable (λ x, x) l Hr Hne).
Defined.

(** ** Tamper evidence of a generation seal *)

Section tamper.
Context (blake3 : list byte → list byte).
(** A BLAKE3 digest is 32 bytes. *)
Hypothesis blake3_length : ∀ x, length (blake3 x) = HASH_LEN.

(** The text a sequence is hashed as, and all the texts some entries are. *)
Definition pairs_text (p : Pairs) : list byte := @canonical Pairs pairs_sealable p.

Definition segment_text (e : entry) : list byte := canonical (Sealed.value e).

Definition hashed_texts (es : list entry) : list (list byte) :=
  pairs_text (sequence_of es) :: (segment_text <$> es).

(** A place where two lists of entries hold segments whose texts collide. *)
Definition colliding_at (i : nat) (es es' : list entry) : Prop :=
  ∃ e e', es !! i = Some e ∧ es' !! i = Some e' ∧ colliding blake3 (segment_text e) (segment_text e').

Definition pair_fits (p : N * ContentHash) : Prop := (p.1 < u64_bound)%N ∧ fits p.2.

Lemma pairs_items_unique (p p' : Pairs) r r' :
  length p = length p' → Forall pair_fits p → Forall pair_fits p' →
  concat ((λ '(seq, hash), CanonicalWriter.u64 2 seq ++ CanonicalWriter.bytes 3 hash) <$> p) ++ r =
  concat ((λ '(seq, hash), CanonicalWriter.u64 2 seq ++ CanonicalWriter.bytes 3 hash) <$> p') ++ r' →
  p = p' ∧ r = r'.
Proof.
  revert p'. induction p as [|[s h] p IH]; intros [|[s' h'] p'] Hlen Hp Hp' H;
    simpl in Hlen; try done.
  rewrite !fmap_cons in H. cbn [concat] in H. rewrite <- !(assoc_L (++)) in H.
  apply Forall_cons in Hp as [[Hs Hh] Hp], Hp' as [[Hs' Hh'] Hp'].
  apply writer_u64_unique in H as [-> H]; [|done..].
  apply writer_bytes_unique in H as [-> H]; [|done..].
  destruct (IH p') as [-> ->]; auto.
Qed.

Lemma pairs_unique (p p' : Pairs) :
  fits p → fits p' → Forall pair_fits p → Forall pair_fits p' →
  pairs_canonical p = pairs_canonical p' → p = p'.
Proof.
  intros Hl Hl' Hp Hp' H. unfold pairs_canonical in H.
  apply writer_u64_unique in H as [Hlen H]; [|done..].
  destruct (pairs_items_unique p p' [] []) as [-> _]; [lia|done|done| |done].
  by rewrite !app_nil_r.
Qed.

Lemma hash_sequence_inj (p p' : Pairs) :
  fits p → fits p' → Forall pair_fits p → Forall pair_fits p' →
  hash_sequence blake3 p = hash_sequence blake3 p' →
  p = p' ∨ colliding blake3 (pairs_text p) (pairs_text p').
Proof.
  intros Hl Hl' Hp Hp' H. unfold hash_sequence, Sealed.hash_of, canonical in H.
  destruct (decide (pairs_canonical p = pairs_canonical p')) as [E|E].
  - left. by apply pairs_unique.
  - right. split; [|exact H]. intros Heq. apply E. exact (f_equal tail Heq).
Qed.

(** The bounds a live ledger satisfies: at most [2^64] entries, every field of
    every segment within its 64-bit length prefix. *)
Definition entries_fit (es : list entry) : Prop :=
  fits es ∧ Forall (λ e, segment_fits (Sealed.value e)) es.

Lemma sequence_fits (es : list entry) :
  dense blake3 0 es → entries_fit es →
  fits (sequence_of es) ∧ Forall pair_fits (sequence_of es).
Proof.
  intros Hd [Hf _]. unfold sequence_of, fits in *. rewrite length_fmap. split; [done|].
  apply Forall_fmap, Forall_lookup. intros i e Hi.
  destruct (Hd i e Hi) as [Hs Hv]. pose proof (lookup_lt_Some _ _ _ Hi).
  unfold pair_fits, fits. simpl. rewrite Hs. split; [lia|].
  unfold Sealed.verify in Hv. apply bool_decide_eq_true in Hv as <-.
  unfold Sealed.hash_of. rewrite blake3_length. done.
Qed.

Lemma entry_eq (e e' : entry) :
  segment_fits (Sealed.value e) → segment_fits (Sealed.value e') →
  Sealed.verify blake3 e = true → Sealed.verify blake3 e' = true →
  Sealed.seq e = Sealed.seq e' → Sealed.hash e = Sealed.hash e' →
  e = e' ∨ colliding blake3 (segment_text e) (segment_text e').
Proof.
  intros Hf Hf' Hv Hv' Hs Hh.
  destruct (verified_hash_eq blake3 e e' Hv Hv' Hh) as [E|]; [left|by right].
  destruct (segment_unique (Sealed.value e) (Sealed.value e') Hf Hf' [] []) as [Ev _].
  { by rewrite !app_nil_r. }
  destruct e, e'; simpl in *; congruence.
Qed.

Lemma entries_eq start (es es' : list entry) :
  dense blake3 start es → dense blake3 start es' →
  Forall (λ e, segment_fits (Sealed.value e)) es →
  Forall (λ e, segment_fits (Sealed.value e)) es' →
  sequence_of es = sequence_of es' → es = es' ∨ ∃ i, colliding_at i es es'.
Proof.
  revert start es'. induction es as [|e es IH]; intros start [|e' es'] Hd Hd' Hf Hf' H;
    try done; [by left|].
  apply dense_cons in Hd as [[Hs Hv] Hd], Hd' as [[Hs' Hv'] Hd'].
  apply Forall_cons in Hf as [Hf1 Hf], Hf' as [Hf1' Hf'].
  unfold sequence_of in H. rewrite !fmap_cons in H. injection H as Hq Hh H.
  destruct (entry_eq e e') as [->|Hc]; [done..| |right; by exists 0, e, e'].
  destruct (IH (start + 1)%N es') as [->|(i & d & d' & Hi & Hi' & Hc)]; auto.
  right. by exists (S i), d, d'.
Qed.
End tamper.

(** C32. A generation seal is tamper-evident.  Take the seal of any ledger that
    appends and seals reach, and any such ledger, its continuation or another.
    [verify_generation] accepts the entries the seal was taken of.  If it accepts
    others, then two texts that these two ledgers hashed collide, and they are
    named: the two sequences the prefix hashes were computed from, or the two
    segments at one position.  So when no two of the texts the two ledgers hashed
    collide, it accepts exactly the identical entries - the same segments, byte for
    byte, in the same order at the same positions - and any others are refused with
    [GenerationUnverified] naming the sealed generation and both hashes. *)
Theorem generation_seal_tamper_evident (blake3 : list byte → list byte)
    (l l0 : PromptLedger.t)
    (Hlen : ∀ x, length (blake3 x) = HASH_LEN)
    (Hl : reachable blake3 l) (Hl0 : reachable blake3 l0)
    (Hf : entries_fit (PromptLedger.entries l)) (Hf0 : entries_fit (PromptLedger.entries l0)) :
  let seal := (seal_generation blake3 l0).1 in
  let found := PromptLedger.entries l in
  let sealed := PromptLedger.entries l0 in
  (found = sealed → verify_generation blake3 l seal = Ok tt) ∧
  (verify_generation blake3 l seal = Ok tt → found ≠ sealed →
     colliding blake3 (pairs_text (sequence_of found)) (pairs_text (sequence_of sealed)) ∨
     ∃ i, colliding_at blake3 i found sealed) ∧
  (collision_free blake3 (hashed_texts found ++ hashed_texts sealed) → found ≠ sealed →
     verify_generation blake3 l seal =
       Err (GenerationUnverified (PromptLedger.generation l0)
              (prefix_hash blake3 l0) (prefix_hash blake3 l))) ∧
  (∀ e, verify_generation blake3 l seal = Err e →
     e = GenerationUnverified (PromptLedger.generation l0)
           (prefix_hash blake3 l0) (prefix_hash blake3 l)).
Proof.
  intros seal found sealed. apply reachable_wf in Hl as ((Hd & _) & _), Hl0 as ((Hd0 & _) & _).
  assert (Hsame : found = sealed → verify_generation blake3 l seal = Ok tt).
  { intros Heq. unfold verify_generation, seal, seal_generation. cbn [fst Generation.prefix_hash].
    rewrite bool_decide_eq_true_2; [done|]. unfold prefix_hash, found, sealed in *. by rewrite Heq. }
  assert (Hother : verify_generation blake3 l seal = Ok tt → found ≠ sealed →
     colliding blake3 (pairs_text (sequence_of found)) (pairs_text (sequence_of sealed)) ∨
     ∃ i, colliding_at blake3 i found sealed).
  { unfold verify_generation, seal, seal_generation. simpl.
    case_bool_decide as Hh; [intros _ Hne|done].
    destruct (sequence_fits blake3 Hlen _ Hd Hf), (sequence_fits blake3 Hlen _ Hd0 Hf0).
    unfold prefix_hash in Hh. apply hash_sequence_inj in Hh as [Hh|?]; [|by left|by auto..].
    right. destruct (entries_eq blake3 0 found sealed) as [?|?]; [done|done|apply Hf|apply Hf0|done..]. }
  assert (Herr : ∀ e, verify_generation blake3 l seal = Err e →
     e = GenerationUnverified (PromptLedger.generation l0) (prefix_hash blake3 l0) (prefix_hash blake3 l)).
  { intros e. unfold verify_generation, seal, seal_generation. simpl. case_bool_decide; [done|]. by intros [= <-]. }
  split; [exact Hsame|]. split; [exact Hother|]. split; [|exact Herr]. intros Hcf Heq.
  destruct (verify_generation blake3 l seal) as [[]|e] eqn:E.
  - exfalso. destruct (Hother eq_refl Heq) as [Hc|(i & e & e' & He & He' & Hc)].
    + revert Hc. apply (collision_free_not _ _ _ _ Hcf); apply elem_of_app; [left|right]; by left.
    + revert Hc. apply list_elem_of_lookup_2, (list_elem_of_fmap_2 segment_text) in He, He'.
      apply (collision_free_not _ _ _ _ Hcf); apply elem_of_app; [left|right]; by right.
  - by rewrite (Herr e eq_refl).
Qed.

Definition one_segment (id : Id) : PromptLedger.t :=
  run_ops toy_hash PromptLedger.new [OpAppend (demo_segment id)].

Lemma generation_seal_tamper_evident_witness :
  reachable toy_hash (one_segment 1%N) ∧ reachable toy_hash (one_segment 2%N) ∧
  verify_generation toy_hash (one_segment 1%N) (seal_generation toy_hash (one_segment 1%N)).1 = Ok tt ∧
  verify_generation toy_hash (one_segment 2%N) (seal_generation toy_hash (one_segment 1%N)).1 =
    Err (GenerationUnverified (PromptLedger.generation (one_segment 1%N))
           (prefix_hash toy_hash (one_segment 1%N)) (prefix_hash toy_hash (one_segment 2%N))).
Proof.
  assert (Hlen : ∀ x, length (toy_hash x) = HASH_LEN) by (intros x; apply le_bytes_length).
  assert (Hr : ∀ id, reachable toy_hash (one_segment id)) by (intros id; apply run_ops_reachable; constructor).
  assert (Hf : ∀ id, (id = 1 ∨ id = 2)%N → entries_fit (PromptLedger.entries (one_segment id)))
    by (intros id [-> | ->]; repeat constructor).
  split; [apply Hr|]. split; [apply Hr|]. split.
  - destruct (generation_seal_tamper_evident toy_hash (one_segment 1%N) (one_segment 1%N)
      Hlen (Hr 1%N) (Hr 1%N) (Hf 1%N (or_introl eq_refl)) (Hf 1%N (or_introl eq_refl))) as (H & _).
    by apply H.
  - destruct (generation_seal_tamper_evident toy_hash (one_segment 2%N) (one_segment 1%N)
      Hlen (Hr 2%N) (Hr 1%N) (Hf 2%N (or_intror eq_refl)) (Hf 1%N (or_introl eq_refl))) as (_ & _ & H & _).
    apply H.
    + apply (bool_decide_unpack _). vm_compute. exact I.
    + vm_compute. discriminate.
Defined.
