(* ===== verification/Breakpoints.v ===== *)
(** * Cache breakpoints and eviction: [crates/supra_prompt]

    Where the four cache breakpoints of a request go and when a plan is sound
    ([breakpoints.rs], over the cache arithmetic of [supra_types/src/cache.rs]),
    and what a turn keeps when it is evicted ([evict.rs]). *)

From Stdlib Require Import Ascii.
From S2P Require Import Prelude Text Sealing Segment Ledger.

(** ** Cache arithmetic: [supra_types/src/cache.rs] *)

Definition READ_MULTIPLIER_PERCENT : nat := 10.
Definition UNCACHED_MULTIPLIER_PERCENT : nat := 100.
Definition MAX_BREAKPOINTS : nat := 4.
Definition LOOKBACK_BLOCKS : nat := 20.

Inductive CacheTtl := FiveMinutes | OneHour.

Module CacheTtl.
Definition ord (t : CacheTtl) : nat := match t with FiveMinutes => 0 | OneHour => 1 end.
Definition write_multiplier_percent (t : CacheTtl) : nat :=
  match t with FiveMinutes => 125 | OneHour => 200 end.
Definition seconds (t : CacheTtl) : N :=
  match t with FiveMinutes => 300 | OneHour => 3600 end.
End CacheTtl.

Inductive Breakpoint := Bp1Tools | Bp2System | Bp3MemoryIndex | Bp4PreviousTurn.

#[export] Instance Breakpoint_eq_dec : EqDecision Breakpoint.
Proof. solve_decision. Defined.

Module Breakpoint.
Definition ALL : list Breakpoint := [Bp1Tools; Bp2System; Bp3MemoryIndex; Bp4PreviousTurn].

Definition ttl (b : Breakpoint) : CacheTtl :=
  match b with
  | Bp1Tools | Bp2System | Bp3MemoryIndex => OneHour
  | Bp4PreviousTurn => FiveMinutes
  end.

Definition position (b : Breakpoint) : nat :=
  match b with Bp1Tools => 1 | Bp2System => 2 | Bp3MemoryIndex => 3 | Bp4PreviousTurn => 4 end.

Definition is_rolling (b : Breakpoint) : bool :=
  match b with Bp4PreviousTurn => true | _ => false end.
End Breakpoint.

(** [windows(2).all(f)]. *)
Fixpoint all_pairs {A} (f : A → A → bool) (l : list A) : bool :=
  match l with
  | a :: ((b :: _) as l) => f a b && all_pairs f l
  | _ => true
  end.

Definition ttl_order_is_valid (breakpoints : list Breakpoint) : bool :=
  if MAX_BREAKPOINTS <? length breakpoints then false
  else all_pairs (λ a b, CacheTtl.ord (Breakpoint.ttl b) <=? CacheTtl.ord (Breakpoint.ttl a))
         breakpoints.

Inductive MinimumCacheable := Tokens512 | Tokens1024 | Tokens2048 | Tokens4096.

Module MinimumCacheable.
Definition ALL : list MinimumCacheable := [Tokens512; Tokens1024; Tokens2048; Tokens4096].
Definition tokens (m : MinimumCacheable) : N :=
  match m with Tokens512 => 512 | Tokens1024 => 1024 | Tokens2048 => 2048 | Tokens4096 => 4096 end.
End MinimumCacheable.

(** [N] subtraction saturates at zero, as [saturating_sub] does. *)
Definition padding_needed (prefix_tokens : N) (minimum : MinimumCacheable) : N :=
  (MinimumCacheable.tokens minimum - prefix_tokens)%N.

(** ** Breakpoints: [breakpoints.rs] *)

Module Plan.
Record t := mk { bp1_tools : nat; bp2_system : nat; bp3_memory : nat; bp4_previous : nat }.

Definition all (_ : t) : list Breakpoint := Breakpoint.ALL.

Definition offsets (p : t) : list nat :=
  [bp1_tools p; bp2_system p; bp3_memory p; bp4_previous p].
End Plan.

Definition kind_of (e : entry) : SegmentKind.t := Segment.kind (Sealed.value e).

(** The loop of [plan_breakpoints_at]. *)
Fixpoint plan_regions (index bp1 bp2 bp3 : nat) (segments : list entry) :
    result (nat * nat * nat) PromptError :=
  match segments with
  | [] => Ok (bp1, bp2, bp3)
  | e :: segments =>
      match kind_of e with
      | SegmentKind.ToolManifest =>
          if 0 <? bp2 then Err (RegionOrder Tools System)
          else if 0 <? bp3 then Err (RegionOrder Tools Memory)
          else plan_regions (S index) (index + 1) bp2 bp3 segments
      | SegmentKind.SystemContract =>
          if 0 <? bp3 then Err (RegionOrder System Memory)
          else plan_regions (S index) bp1 (index + 1) bp3 segments
      | SegmentKind.MemoryIndex _ => plan_regions (S index) bp1 bp2 (index + 1) segments
      | SegmentKind.Turn _ _ => plan_regions (S index) bp1 bp2 bp3 segments
      end
  end.

Definition plan_breakpoints_at (segments : list entry) (previous_turn_end : nat) :
    result Plan.t PromptError :=
  if length segments <? previous_turn_end
  then Err (InvalidSnapshot (Bp4BeyondLength previous_turn_end))
  else
    let? bps := plan_regions 0 0 0 0 segments in
    let '(bp1, bp2, bp3) := bps in
    if previous_turn_end <? bp3
    then Err (InvalidSnapshot (Bp4BeforeBp3 previous_turn_end))
    else Ok (Plan.mk bp1 bp2 bp3 previous_turn_end).

Definition plan_breakpoints (segments : list entry) : result Plan.t PromptError :=
  plan_breakpoints_at segments (length segments).

(** [segments[offset..].iter().map(lookback_positions).sum()]; the slice panics
    past the end, which [None] stands for. *)
Definition positions_after (segments : list entry) (offset : nat) : option nat :=
  if length segments <? offset then None
  else Some (sum_list ((λ e, Segment.lookback_positions (Sealed.value e)) <$> drop offset segments)).

Fixpoint check_offsets (segments : list entry) (pairs : list (Breakpoint * nat)) :
    option (result unit Breakpoint) :=
  match pairs with
  | [] => Some (Ok tt)
  | (breakpoint, offset) :: pairs =>
      positions ← positions_after segments offset;
      if LOOKBACK_BLOCKS <? positions then Some (Err breakpoint)
      else check_offsets segments pairs
  end.

Definition check_lookback (plan : Plan.t) (segments : list entry) :
    option (result unit Breakpoint) :=
  check_offsets segments (combine (Plan.all plan) (Plan.offsets plan)).

Definition truncate_for_policy (breakpoints : list Breakpoint) (max_breakpoints : nat) :
    list Breakpoint :=
  take max_breakpoints breakpoints.

Fixpoint first_reversal (pairs : list (Breakpoint * nat)) : option (Breakpoint * Breakpoint) :=
  match pairs with
  | (b, x) :: (((b', y) :: _) as rest) =>
      if y <? x then Some (b, b') else first_reversal rest
  | _ => None
  end.

Definition find_reversal (plan : Plan.t) : option (Breakpoint * Breakpoint) :=
  first_reversal (combine (Plan.all plan) (Plan.offsets plan)).

Definition validate (plan : Plan.t) (segments : list entry) : option (result unit Breakpoint) :=
  match find_reversal plan with
  | Some (breakpoint, _) => Some (Err breakpoint)
  | None => check_lookback plan segments
  end.

(** ** Eviction: [evict.rs] *)

Inductive ThinkingDisposition := Keep | Drop.

Definition is_tool_use (b : Block.t) : bool :=
  match b with Block.ToolUse _ _ _ => true | _ => false end.

Definition is_unsigned_thinking (b : Block.t) : bool :=
  match b with Block.Thinking _ None => true | _ => false end.

Definition disposition_of (blocks : list Block.t) : ThinkingDisposition :=
  if existsb is_tool_use blocks then Keep else Drop.

Definition render_body (blocks : list Block.t) (disposition : ThinkingDisposition) : list Block.t :=
  match disposition with
  | Keep => blocks
  | Drop => List.filter (λ b, negb (is_unsigned_thinking b)) blocks
  end.

Definition plan_eviction (e : entry) : list Block.t * ThinkingDisposition :=
  let disposition := disposition_of (Segment.blocks (Sealed.value e)) in
  (render_body (Segment.blocks (Sealed.value e)) disposition, disposition).

Definition index_entry (turn : Id) (topic gist : string) :
    result MemoryIndexEntry.t PromptError :=
  let bytes := String.length topic + String.length gist in
  map_err (λ _, PIndexEntryTooLong turn bytes) (MemoryIndexEntry.new turn topic gist).

Definition index_segment (e : MemoryIndexEntry.t) (id : Id) : option Segment.t :=
  match Segment.new id (SegmentKind.MemoryIndex e) [] with Ok s => Some s | Err _ => None end.

(** ** Planning *)

Implicit Types (pre rest post segments : list entry).

(** The region a segment belongs to, in prefix order; turns belong to none. *)
Definition region_rank (k : SegmentKind.t) : option nat :=
  match k with
  | SegmentKind.ToolManifest => Some 0
  | SegmentKind.SystemContract => Some 1
  | SegmentKind.MemoryIndex _ => Some 2
  | SegmentKind.Turn _ _ => None
  end.

(** Tools before system before index; turns anywhere. *)
Definition in_order (segments : list entry) : Prop :=
  StronglySorted le (omap (λ e, region_rank (kind_of e)) segments).

(** [b] is one past the last segment of region [r], or 0 when there is none. *)
Definition boundary (r : nat) (segments : list entry) (b : nat) : Prop :=
  (∀ i e, segments !! i = Some e → region_rank (kind_of e) = Some r → i < b) ∧
  (b = 0 ∨ ∃ e, segments !! (b - 1) = Some e ∧ region_rank (kind_of e) = Some r).

Lemma boundary_hit r pre e :
  region_rank (kind_of e) = Some r → boundary r (pre ++ [e]) (length pre + 1).
Proof.
  intros He. split.
  - intros i x Hx%lookup_lt_Some _. rewrite length_app in Hx. simpl in Hx. lia.
  - right. exists e. replace (length pre + 1 - 1) with (length pre) by lia.
    by rewrite list_lookup_middle.
Qed.

Lemma boundary_miss r pre e b :
  region_rank (kind_of e) ≠ Some r → boundary r pre b → boundary r (pre ++ [e]) b.
Proof.
  intros He [Hlt Hb]. split.
  - intros i x [Hx|[_ Hx]]%lookup_app_Some Hr; [by eapply Hlt|].
    apply list_lookup_singleton_Some in Hx as [_ <-]. done.
  - destruct Hb as [?|(x & Hx & ?)]; [by left|right]. exists x.
    by rewrite (lookup_app_l_Some _ _ _ _ Hx).
Qed.

Lemma boundary_pos r pre b :
  boundary r pre b → 0 < b → r ∈ omap (λ e, region_rank (kind_of e)) pre.
Proof.
  intros [_ [->|(e & He & Hr)]] Hpos; [lia|].
  apply list_elem_of_omap. exists e. split; [by eapply list_elem_of_lookup_2|done].
Qed.

Lemma boundary_zero r pre :
  boundary r pre 0 → r ∉ omap (λ e, region_rank (kind_of e)) pre.
Proof.
  intros [Hlt _] (e & He & Hr)%list_elem_of_omap.
  apply list_elem_of_lookup in He as [i Hi]. specialize (Hlt i e Hi Hr). lia.
Qed.

Lemma boundary_unique r segments b b' :
  boundary r segments b → boundary r segments b' → b = b'.
Proof.
  intros [Hlt [->|(e & He & Hr)]] [Hlt' [->|(e' & He' & Hr')]]; [done|..].
  - apply Hlt in He'; [lia|done].
  - apply Hlt' in He; [lia|done].
  - apply Hlt in He'; [|done]. apply Hlt' in He; [|done]. lia.
Qed.

Lemma boundary_le r segments b : boundary r segments b → b ≤ length segments.
Proof. intros [_ [->|(e & He%lookup_lt_Some & _)]]; lia. Qed.

(** Two regions in order: a boundary that exists lies behind every earlier one. *)
Lemma boundary_ordered r r' segments b b' :
  in_order segments → r < r' → boundary r segments b → boundary r' segments b' →
  0 < b' → b ≤ b'.
Proof.
  intros Ho Hr [_ Hb] [Hlt' Hb'] Hpos.
  destruct Hb as [->|(e & He & Hre)]; [lia|].
  destruct Hb' as [->|(e' & He' & Hre')]; [lia|].
  destruct (decide (b' - 1 < b - 1)) as [Hl|]; [|lia]. exfalso.
  unfold in_order in Ho.
  rewrite <- (take_drop (b - 1) segments), omap_app in Ho.
  apply StronglySorted_app in Ho as (Ho & _).
  assert (r' ≤ r); [|lia]. apply Ho.
  - apply list_elem_of_omap. exists e'. split; [|done].
    apply list_elem_of_lookup. exists (b' - 1). by rewrite lookup_take_lt.
  - apply list_elem_of_omap. exists e. split; [|done].
    apply list_elem_of_lookup. exists 0. by rewrite lookup_drop, Nat.add_0_r.
Qed.

Lemma in_order_snoc pre e :
  in_order (pre ++ [e]) ↔
  in_order pre ∧ ∀ r, region_rank (kind_of e) = Some r →
    ∀ r', r' ∈ omap (λ e, region_rank (kind_of e)) pre → r' ≤ r.
Proof.
  unfold in_order. rewrite omap_app. simpl.
  rewrite StronglySorted_app. destruct (region_rank (kind_of e)) as [r|]; split.
  - intros (H & Hs & _). split; [done|]. intros ? [= <-] r' Hr'. apply H; set_solver.
  - intros [Hs H]. split_and!; [|done|repeat constructor].
    intros x y Hx ->%list_elem_of_singleton. by apply H.
  - intros (_ & ? & _). done.
  - intros [? _]. split_and!; [set_solver|done|constructor].
Qed.

Lemma in_order_app pre post : in_order (pre ++ post) → in_order pre.
Proof. unfold in_order. rewrite omap_app. by intros (_ & ? & _)%StronglySorted_app. Qed.

Lemma elem_rank_lt_3 pre r : r ∈ omap (λ e, region_rank (kind_of e)) pre → r ≤ 2.
Proof.
  intros (e & _ & He)%list_elem_of_omap. unfold region_rank in He.
  case_match; simplify_eq; lia.
Qed.

Lemma plan_regions_spec pre rest b1 b2 b3 :
  in_order pre → boundary 0 pre b1 → boundary 1 pre b2 → boundary 2 pre b3 →
  match plan_regions (length pre) b1 b2 b3 rest with
  | Ok (c1, c2, c3) =>
      in_order (pre ++ rest) ∧ boundary 0 (pre ++ rest) c1 ∧
      boundary 1 (pre ++ rest) c2 ∧ boundary 2 (pre ++ rest) c3
  | Err e => ¬ in_order (pre ++ rest) ∧ ∃ a b, e = RegionOrder a b
  end.
Proof.
  revert pre b1 b2 b3. induction rest as [|e rest IH]; intros pre b1 b2 b3 Ho H1 H2 H3.
  { simpl. by rewrite app_nil_r. }
  assert (Hout : ∀ r r' b, region_rank (kind_of e) = Some r → r < r' → boundary r' pre b →
      0 < b → ¬ in_order (pre ++ e :: rest)).
  { intros r r' b He Hlt Hb Hpos Hio.
    rewrite cons_middle, (assoc_L (++)) in Hio. apply in_order_app, in_order_snoc in Hio as [_ Hio].
    specialize (Hio r He r' (boundary_pos _ _ _ Hb Hpos)). lia. }
  assert (Hok : ∀ r, region_rank (kind_of e) = Some r →
      (∀ r', r < r' → r' ≤ 2 → r' ∉ omap (λ e, region_rank (kind_of e)) pre) →
      in_order (pre ++ [e])).
  { intros r He Hn. apply in_order_snoc. split; [done|]. rewrite He.
    intros ? [= <-] r' Hr'. destruct (decide (r' ≤ r)) as [|Hgt]; [done|].
    destruct (Hn r'); [lia|by eapply elem_rank_lt_3|done]. }
  specialize (IH (pre ++ [e])). rewrite length_app, Nat.add_comm in IH. simpl in IH.
  rewrite <- (assoc_L (++)) in IH. simpl in IH. simpl.
  destruct (kind_of e) eqn:Hk.
  - destruct (Nat.ltb_spec 0 b2); [split; [apply (Hout 0 1 b2); [done|lia|done|done]|by eauto]|].
    destruct (Nat.ltb_spec 0 b3); [split; [apply (Hout 0 2 b3); [done|lia|done|done]|by eauto]|].
    assert (b2 = 0) as -> by lia. assert (b3 = 0) as -> by lia.
    apply IH.
    + apply (Hok 0); [done|]. intros r' ? ?. assert (r' = 1 ∨ r' = 2) as [->| ->] by lia;
        by apply boundary_zero.
    + apply boundary_hit. by rewrite Hk.
    + apply boundary_miss; [by rewrite Hk|done].
    + apply boundary_miss; [by rewrite Hk|done].
  - destruct (Nat.ltb_spec 0 b3); [split; [apply (Hout 1 2 b3); [done|lia|done|done]|by eauto]|].
    assert (b3 = 0) as -> by lia.
    apply IH.
    + apply (Hok 1); [done|]. intros r' ? ?. assert (r' = 2) as -> by lia.
      by apply boundary_zero.
    + apply boundary_miss; [by rewrite Hk|done].
    + apply boundary_hit. by rewrite Hk.
    + apply boundary_miss; [by rewrite Hk|done].
  - apply IH; [|by apply boundary_miss; [rewrite Hk|]..|by apply boundary_hit; rewrite Hk].
    apply (Hok 2); [done|]. lia.
  - apply IH; [|by apply boundary_miss; [rewrite Hk|]..].
    apply in_order_snoc. split; [done|]. by rewrite Hk.
Qed.

Lemma plan_breakpoints_at_cases segments previous_turn_end :
  (∀ p, plan_breakpoints_at segments previous_turn_end = Ok p ↔
     previous_turn_end ≤ length segments ∧ in_order segments ∧
     boundary 0 segments (Plan.bp1_tools p) ∧ boundary 1 segments (Plan.bp2_system p) ∧
     boundary 2 segments (Plan.bp3_memory p) ∧ Plan.bp3_memory p ≤ previous_turn_end ∧
     Plan.bp4_previous p = previous_turn_end) ∧
  ((∃ a b, plan_breakpoints_at segments previous_turn_end = Err (RegionOrder a b)) ↔
     previous_turn_end ≤ length segments ∧ ¬ in_order segments).
Proof.
  unfold plan_breakpoints_at.
  destruct (Nat.ltb_spec (length segments) previous_turn_end) as [Hn|Hn].
  { split; [intros p|]; (split; [naive_solver|]); intros [? ?]; lia. }
  assert (Hs := plan_regions_spec [] segments 0 0 0). simpl in Hs.
  assert (Hz : ∀ r, boundary r [] 0) by (intros r; split; [by intros i e Hi|by left]).
  specialize (Hs (SSorted_nil _) (Hz 0) (Hz 1) (Hz 2)).
  destruct (plan_regions 0 0 0 0 segments) as [[[c1 c2] c3]|e]; simpl.
  - destruct Hs as (Ho & H1 & H2 & H3). split; [intros p|].
    + destruct (Nat.ltb_spec previous_turn_end c3) as [Hlt|Hle].
      * split; [done|]. intros (_ & _ & _ & _ & H3' & Hle & _).
        rewrite (boundary_unique _ _ _ _ H3 H3') in Hlt. lia.
      * split; [intros [= <-]; simpl; done|].
        intros (_ & _ & H1' & H2' & H3' & _ & H4). destruct p; simpl in *.
        rewrite (boundary_unique _ _ _ _ H1 H1'), (boundary_unique _ _ _ _ H2 H2'),
          (boundary_unique _ _ _ _ H3 H3'), H4. done.
    + split; [|by intros [_ ?]]. intros (a & b & H). by case_match.
  - destruct Hs as (Ho & a & b & ->). split; [naive_solver|]. naive_solver.
Qed.

(** [plan_breakpoints_at] accepts exactly the sequences whose regions stand in
    prefix order (no tool manifest behind a system contract or index entry, no
    system contract behind an index entry) with an explicit turn boundary between
    BP3 and the length, and then places BP1, BP2 and BP3 one past the last segment
    of their region (0 when the region is empty) and BP4 at the given boundary -
    never anywhere else; a region-order refusal means exactly that the order is
    broken.  Turn segments are not held to the order: one may precede the tools. *)
Theorem plan_breakpoints_exact (segments : list entry) (previous_turn_end : nat) :
  (∀ p, plan_breakpoints_at segments previous_turn_end = Ok p ↔
     previous_turn_end ≤ length segments ∧ in_order segments ∧
     boundary 0 segments (Plan.bp1_tools p) ∧ boundary 1 segments (Plan.bp2_system p) ∧
     boundary 2 segments (Plan.bp3_memory p) ∧ Plan.bp3_memory p ≤ previous_turn_end ∧
     Plan.bp4_previous p = previous_turn_end) ∧
  ((∃ a b, plan_breakpoints_at segments previous_turn_end = Err (RegionOrder a b)) ↔
     previous_turn_end ≤ length segments ∧ ¬ in_order segments).
Proof. apply plan_breakpoints_at_cases. Qed.

(** ** Validating a plan *)

Lemma positions_after_mono segments o o' n n' :
  o ≤ o' → positions_after segments o = Some n → positions_after segments o' = Some n' →
  n' ≤ n.
Proof.
  unfold positions_after. intros Hle. do 2 case_match; intros; simplify_eq.
  rewrite <- (take_drop (o' - o) (drop o segments)), drop_drop.
  replace (o + (o' - o)) with o' by lia. 
  rewrite fmap_app, sum_list_with_app. lia.
Qed.

Lemma positions_after_Some segments o :
  o ≤ length segments → ∃ n, positions_after segments o = Some n.
Proof.
  unfold positions_after. intros Ho. destruct (Nat.ltb_spec (length segments) o); [lia|eauto].
Qed.

(** With the offsets in order, only BP1 can lie outside the window. *)
Lemma check_lookback_sorted p segments :
  Plan.bp1_tools p ≤ Plan.bp2_system p → Plan.bp2_system p ≤ Plan.bp3_memory p →
  Plan.bp3_memory p ≤ Plan.bp4_previous p → Plan.bp4_previous p ≤ length segments →
  ∃ n, positions_after segments (Plan.bp1_tools p) = Some n ∧
    check_lookback p segments =
      Some (if LOOKBACK_BLOCKS <? n then Err Bp1Tools else Ok tt).
Proof.
  destruct p as [o1 o2 o3 o4]. simpl. intros H12 H23 H34 H4.
  destruct (positions_after_Some segments o1) as [n1 E1]; [lia|].
  destruct (positions_after_Some segments o2) as [n2 E2]; [lia|].
  destruct (positions_after_Some segments o3) as [n3 E3]; [lia|].
  destruct (positions_after_Some segments o4) as [n4 E4]; [lia|].
  pose proof (positions_after_mono segments o1 o2 n1 n2 H12 E1 E2).
  pose proof (positions_after_mono segments o2 o3 n2 n3 H23 E2 E3).
  pose proof (positions_after_mono segments o3 o4 n3 n4 H34 E3 E4).
  exists n1. split; [done|]. unfold check_lookback. simpl. rewrite E1, E2, E3, E4. simpl.
  repeat match goal with |- context [LOOKBACK_BLOCKS <? ?n] =>
    destruct (Nat.ltb_spec LOOKBACK_BLOCKS n); [|] end; try done; lia.
Qed.

(** What [validate] says of a plan the planner made.  It never slices past the
    end.  It reports BP1 when there are tool manifests and no system contract,
    BP2 when there is a system contract and no index entry, and otherwise accepts
    exactly the plans with at most 20 lookback positions behind BP1, again naming
    BP1 when there are more.  So a new session - tools and a system contract, no
    turn evicted yet - is always refused as a reversal: the offset 0 of the empty
    index region counts as lying before BP2. *)
Theorem validate_of_planned (segments : list entry) (previous_turn_end : nat) (p : Plan.t)
    (Hp : plan_breakpoints_at segments previous_turn_end = Ok p) :
  ∃ positions,
    positions_after segments (Plan.bp1_tools p) = Some positions ∧
    validate p segments = Some (
      if (0 <? Plan.bp1_tools p) && (Plan.bp2_system p =? 0) then Err Bp1Tools
      else if (0 <? Plan.bp2_system p) && (Plan.bp3_memory p =? 0) then Err Bp2System
      else if LOOKBACK_BLOCKS <? positions then Err Bp1Tools else Ok tt).
Proof.
  apply (proj1 (plan_breakpoints_at_cases segments previous_turn_end)) in Hp as (Hn & Ho & H1 & H2 & H3 & H34 & H4).
  pose proof (boundary_ordered 0 1 _ _ _ Ho (le_n 1) H1 H2) as H12.
  pose proof (boundary_ordered 1 2 _ _ _ Ho (le_n 2) H2 H3) as H23.
  destruct (positions_after_Some segments (Plan.bp1_tools p)) as [n En];
    [by apply boundary_le in H1|].
  exists n. split; [done|].
  assert (Hl := check_lookback_sorted p segments). rewrite En in Hl.
  unfold validate, find_reversal. destruct p as [o1 o2 o3 o4]. simpl in *.
  destruct (Nat.ltb_spec o2 o1), (Nat.ltb_spec 0 o1), (Nat.eqb_spec o2 0);
    simpl; try lia; try done.
  all: destruct (Nat.ltb_spec o3 o2), (Nat.ltb_spec 0 o2), (Nat.eqb_spec o3 0);
    simpl; try lia; try done.
  all: destruct (Nat.ltb_spec o4 o3); [lia|].
  all: destruct Hl as (m & [= <-] & ->); [lia..|done].
Qed.

Definition demo_entry (id : Id) (k : SegmentKind.t) : entry :=
  Sealed.seal (λ x, x) id (Segment.mk id k []).

Lemma validate_of_planned_witness :
  let fresh := [demo_entry 1 SegmentKind.ToolManifest; demo_entry 2 SegmentKind.SystemContract] in
  plan_breakpoints_at fresh 2 = Ok (Plan.mk 1 2 0 2) ∧
  validate (Plan.mk 1 2 0 2) fresh = Some (Err Bp2System).
Proof.
  intros fresh. assert (H : plan_breakpoints_at fresh 2 = Ok (Plan.mk 1 2 0 2)) by reflexivity.
  split; [exact H|].
  destruct (validate_of_planned fresh 2 (Plan.mk 1 2 0 2) H) as (n & _ & Hv). exact Hv.
Defined.

(** ** Eviction *)

Lemma filter_sublist_keeps {A} (f : A → bool) (l : list A) :
  sublist (List.filter f l) l ∧ ∀ x, x ∈ List.filter f l ↔ x ∈ l ∧ f x = true.
Proof.
  split.
  - induction l as [|x l IH]; simpl; [constructor|]. case_match; by constructor.
  - intros x. rewrite !list_elem_of_In. apply filter_In.
Qed.

(** Evicting a turn loses nothing the API requires back.  The body is a
    subsequence of the turn's blocks in their order; a turn with a tool call keeps
    every block verbatim; any other turn drops exactly the unsigned thinking
    blocks, so text, results and signed thinking always survive.  Truncating the
    breakpoints for a smaller policy keeps a valid time-to-live order whatever the
    limit. *)
Theorem eviction_lossless (e : entry) :
  let blocks := Segment.blocks (Sealed.value e) in
  let '(body, disposition) := plan_eviction e in
  sublist body blocks ∧
  (disposition = Keep ↔ ∃ c n i, Block.ToolUse c n i ∈ blocks) ∧
  (disposition = Keep → body = blocks) ∧
  (∀ b, b ∈ blocks → b ∈ body ∨ (disposition = Drop ∧ ∃ text, b = Block.Thinking text None)) ∧
  (∀ b, b ∈ body → b ∈ blocks) ∧
  (∀ limit, ttl_order_is_valid (truncate_for_policy Breakpoint.ALL limit) = true).
Proof.
  intros blocks. unfold plan_eviction, disposition_of. fold blocks.
  assert (Hd : existsb is_tool_use blocks = true ↔ ∃ c n i, Block.ToolUse c n i ∈ blocks).
  { rewrite existsb_exists. split.
    - intros (b & Hb & Ht). destruct b; try done. apply list_elem_of_In in Hb. eauto.
    - intros (c & n & i & Hb). eexists. split; [by apply list_elem_of_In|done]. }
  assert (Httl : ∀ limit, ttl_order_is_valid (truncate_for_policy Breakpoint.ALL limit) = true).
  { intros [|[|[|[|limit]]]]; [reflexivity..|]. unfold truncate_for_policy.
    rewrite take_ge by (simpl; lia). reflexivity. }
  destruct (existsb is_tool_use blocks); simpl.
  - split_and!; [done| |done|by left|done|done]. split; [by intros _; apply Hd|done].
  - destruct (filter_sublist_keeps (λ b, negb (is_unsigned_thinking b)) blocks) as [Hs Hin].
    split_and!; [done| |done| |by intros b [? _]%Hin|done].
    + split; [done|]. by intros H%Hd.
    + intros b Hb. destruct (is_unsigned_thinking b) eqn:Hu.
      * right. split; [done|]. destruct b as [|t [s|]| |]; try done. by exists t.
      * left. apply Hin. by rewrite Hu.
Qed.
