(* ===== verification/Table.v ===== *)
(** * Keyed tables: what the store's callers rely on

    The crates keep their durable state in SQLite tables reached through
    [rusqlite], which is not code of the repository.  [Table] is the interface
    those callers use - look a row up by its primary key, insert under it, update
    a row in place, scan in key order - and [TableLaws] what they rely on.
    Components are proved against the interface; [gmap] is a concrete instance. *)

From S2P Require Import Prelude.

Class Table (T K V : Type) := {
  t_empty : T;
  (** [SELECT ... WHERE key = ?]. *)
  t_get : K → T → option V;
  (** [INSERT]: refused when the primary key is taken. *)
  t_insert : K → V → T → option T;
  (** [UPDATE ... WHERE key = ?]: no row, no effect. *)
  t_update : (V → V) → K → T → T;
  (** [SELECT ... ORDER BY key]. *)
  t_scan : T → list (K * V);
}.

Class TableLaws (T K V : Type) `{Table T K V} := {
  t_key_le : K → K → Prop;
  t_get_empty k : t_get k t_empty = None;
  t_insert_None k v t : t_insert k v t = None ↔ is_Some (t_get k t);
  t_get_insert k v t t' k' :
    t_insert k v t = Some t' →
    (k = k' ∧ t_get k' t' = Some v) ∨ (k ≠ k' ∧ t_get k' t' = t_get k' t);
  t_get_update f k t k' :
    (k = k' ∧ t_get k' (t_update f k t) = f <$> t_get k' t) ∨
    (k ≠ k' ∧ t_get k' (t_update f k t) = t_get k' t);
  t_scan_elem k v t : (k, v) ∈ t_scan t ↔ t_get k t = Some v;
  t_scan_sorted t : StronglySorted (λ p q, t_key_le p.1 q.1) (t_scan t);
  t_scan_nodup t : NoDup (t_scan t).*1;
}.

(** ** The instance *)

Section gmap_table.
Context {K V : Type} `{Countable K} (key_le : K → K → Prop).
Context `{∀ x y, Decision (key_le x y)} `{!Total key_le} `{!Transitive key_le}.

Definition entry_le (p q : K * V) : Prop := key_le p.1 q.1.

#[local] Instance entry_le_dec p q : Decision (entry_le p q).
Proof. unfold entry_le. apply _. Defined.
#[local] Instance entry_le_total : Total entry_le.
Proof. intros p q. apply (total key_le). Qed.
#[local] Instance entry_le_trans : Transitive entry_le.
Proof. intros p q r. unfold entry_le. apply (transitivity (R := key_le)). Qed.

Definition gmap_table : Table (gmap K V) K V := {|
  t_empty := ∅;
  t_get k t := t !! k;
  t_insert k v t := match t !! k with Some _ => None | None => Some (<[k := v]> t) end;
  t_update f k t := alter f k t;
  t_scan t := merge_sort entry_le (map_to_list t);
|}.

Definition gmap_table_laws : @TableLaws (gmap K V) K V gmap_table.
Proof.
  refine (@Build_TableLaws _ _ _ gmap_table key_le _ _ _ _ _ _ _); simpl.
  - intros k. apply lookup_empty.
  - intros k v t. destruct (t !! k); split; intros; [by eexists|done|done|].
    by destruct H1.
  - intros k v t t' k' Ht. destruct (t !! k); simplify_eq.
    destruct (decide (k = k')) as [->|]; [left|right]; split; try done.
    + apply lookup_insert_eq.
    + by apply lookup_insert_ne.
  - intros f k t k'. destruct (decide (k = k')) as [->|]; [left|right]; split; try done.
    + apply lookup_alter_eq.
    + by apply lookup_alter_ne.
  - intros k v t. rewrite (merge_sort_Permutation entry_le). apply elem_of_map_to_list.
  - intros t. apply (StronglySorted_merge_sort entry_le).
  - intros t. rewrite (merge_sort_Permutation entry_le). apply NoDup_fst_map_to_list.
Defined.
End gmap_table.

(** Identifiers are ordered as their 26-character text is. *)
#[export] Instance N_le_total : Total N.le.
Proof. intros x y. lia. Qed.
#[export] Instance N_le_trans : Transitive N.le.
Proof. intros x y z. lia. Qed.

#[export] Instance id_table {V} : Table (gmap N V) N V | 10 := gmap_table N.le.
#[export] Instance id_table_laws {V} : TableLaws (gmap N V) N V | 10 := gmap_table_laws N.le.

(** Composite keys are ordered by their first component, then the second. *)
Definition pair_le (p q : N * N) : Prop := (p.1 < q.1 ∨ p.1 = q.1 ∧ p.2 ≤ q.2)%N.

#[export] Instance pair_le_dec p q : Decision (pair_le p q).
Proof. unfold pair_le. apply _. Defined.
#[export] Instance pair_le_total : Total pair_le.
Proof. intros [a b] [c d]. unfold pair_le. simpl. lia. Qed.
#[export] Instance pair_le_trans : Transitive pair_le.
Proof. intros [a b] [c d] [e f]. unfold pair_le. simpl. lia. Qed.

#[export] Instance pair_table {V} : Table (gmap (N * N) V) (N * N) V | 10 := gmap_table pair_le.
#[export] Instance pair_table_laws {V} : TableLaws (gmap (N * N) V) (N * N) V | 10 :=
  gmap_table_laws pair_le.
