(* ===== verification/Store.v ===== *)
(** * The turn store: [crates/supra_store]

    Schema migrations ([schema.rs]) and the verbatim store of evicted turns
    ([turns.rs]), with [supra_prompt]'s eviction and recall on top of it
    ([evict.rs]).  SQLite is behind the [Table] interface; an [io] argument says
    whether it carries out the statements of a call, so every operation's
    behaviour under a failing database is covered.  Error payloads that only
    describe (paths, SQLite's own error) are left out. *)

From Stdlib Require Import Ascii.
From S2P Require Import Prelude Text Sealing Table Ledger.

Inductive StoreError :=
| OpenFailed
| SchemaTooNew (found supported : Z)
| ComponentSchemaTooNew (component : string) (found supported : Z)
| Migrate (from to : Z)
| ComponentMigrate (component : string) (from to : Z)
| Corrupt (turn : Id) (stored computed : ContentHash)
| Conflict (turn : Id) (stored offered : ContentHash)
| NotFound (turn : Id)
| Malformed
| Sqlite.

#[export] Instance StoreError_eq_dec : EqDecision StoreError.
Proof. solve_decision. Defined.

Definition is_damage (e : StoreError) : bool :=
  match e with Corrupt _ _ _ | Malformed => true | _ => false end.

(** ** Migrations: [schema.rs]

    A migration is the version it produces; its SQL is SQLite's to run, but for the one
    effect a later step depends on, the table of the components' versions.  The file
    records which batches have been committed, in order: [None] is the core
    schema, [Some name] a component's. *)

Module SchemaFile.
Record t := mk {
  user_version : Z;
  (** The rows of [schema_component]; [None] where there is no such table. *)
  components : option (gmap string Z);
  history : list (option string * Z);
}.
Definition empty : t := mk 0 None [].
End SchemaFile.

(** The versions of [MIGRATIONS]. *)
Definition MIGRATIONS : list Z := [1; 2]%Z.

Definition latest (migrations : list Z) : Z := default 0%Z (last migrations).

Definition latest_version : Z := latest MIGRATIONS.

(** [read]: whether the database answers the query. *)
Definition current_version (read : bool) (f : SchemaFile.t) : result Z StoreError :=
  if negb read then Err Sqlite
  else if in_u32 (SchemaFile.user_version f) then Ok (SchemaFile.user_version f) else Err Malformed.

(** A missing table fails the query: it is not version 0. *)
Definition component_version (read : bool) (component : string) (f : SchemaFile.t) : result Z StoreError :=
  if negb read then Err Sqlite
  else match SchemaFile.components f with
  | None => Err Sqlite
  | Some rows =>
      match rows !! component with
      | None => Ok 0%Z
      | Some found => if in_u32 found then Ok found else Err Malformed
      end
  end.

(** What becomes of a step's statements: all of them are carried out, the write lock is
    not had, the version is not read, or the batch, the bump or the commit fails. *)
Inductive StepIo := Carried | NoLock | NoRead | NoCommit.

Definition reads (io : StepIo) : bool := match io with NoRead => false | _ => true end.

(** The core batch that creates the component table fails where there is one. *)
Definition run_batch (migration : Z) (components : option (gmap string Z)) :
    option (option (gmap string Z)) :=
  if (migration =? 2)%Z then match components with None => Some (Some ∅) | Some _ => None end
  else Some components.

(** One core step: the batch and the version bump commit together. *)
Definition apply_once (io : StepIo) (migration version : Z) (f : SchemaFile.t) :
    result (Z * SchemaFile.t) StoreError :=
  match io with
  | NoLock => Err (Migrate version migration)
  | _ =>
      let? recorded := current_version (reads io) f in
      if (migration <=? recorded)%Z then Ok (recorded, f)
      else match io, run_batch migration (SchemaFile.components f) with
      | Carried, Some components =>
          Ok (migration,
              SchemaFile.mk migration components (SchemaFile.history f ++ [(None, migration)]))
      | _, _ => Err (Migrate recorded migration)
      end
  end.

(** One component step, whose errors are all SQLite's; a component without a name is
    refused by the table's [CHECK]. *)
Definition apply_component (io : StepIo) (component : string) (migration : Z)
    (f : SchemaFile.t) : result (Z * SchemaFile.t) unit :=
  match io with
  | NoLock => Err tt
  | _ =>
      let? recorded := map_err (λ _, tt) (component_version (reads io) component f) in
      if (migration <=? recorded)%Z then Ok (recorded, f)
      else match io, SchemaFile.components f with
      | Carried, Some rows =>
          if bool_decide (component = "") then Err tt
          else
            Ok (migration,
                SchemaFile.mk (SchemaFile.user_version f) (Some (<[component := migration]> rows))
                  (SchemaFile.history f ++ [(Some component, migration)]))
      | _, _ => Err tt
      end
  end.

(** The loops; [ios] says what becomes of the step to each version. *)
Fixpoint migrate_loop (migrations : list Z) (ios : Z → StepIo) (version : Z) (f : SchemaFile.t) :
    SchemaFile.t * result Z StoreError :=
  match migrations with
  | [] => (f, Ok version)
  | migration :: migrations =>
      match apply_once (ios migration) migration version f with
      | Ok (version, f) => migrate_loop migrations ios version f
      | Err e => (f, Err e)
      end
  end.

Definition migrate (read : bool) (ios : Z → StepIo) (f : SchemaFile.t) :
    SchemaFile.t * result Z StoreError :=
  match current_version read f with
  | Err e => (f, Err e)
  | Ok version =>
      if (latest_version <? version)%Z then (f, Err (SchemaTooNew version latest_version))
      else migrate_loop MIGRATIONS ios version f
  end.

Fixpoint migrate_component_loop (component : string) (migrations : list Z) (ios : Z → StepIo)
    (version : Z) (f : SchemaFile.t) : SchemaFile.t * result Z StoreError :=
  match migrations with
  | [] => (f, Ok version)
  | migration :: migrations =>
      match apply_component (ios migration) component migration f with
      | Ok (version, f) => migrate_component_loop component migrations ios version f
      | Err _ => (f, Err (ComponentMigrate component version migration))
      end
  end.

Definition migrate_component (component : string) (migrations : list Z) (read : bool)
    (ios : Z → StepIo) (f : SchemaFile.t) : SchemaFile.t * result Z StoreError :=
  match component_version read component f with
  | Err e => (f, Err e)
  | Ok version =>
      if (latest migrations <? version)%Z
      then (f, Err (ComponentSchemaTooNew component version (latest migrations)))
      else migrate_component_loop component migrations ios version f
  end.

(** [assert_dense]: versions count up from 1. *)
Fixpoint dense_from (expected : Z) (migrations : list Z) : bool :=
  match migrations with
  | [] => true
  | m :: migrations => (m =? expected)%Z && dense_from (expected + 1) migrations
  end.

Definition assert_dense (migrations : list Z) : bool :=
  match migrations with [] => false | _ => dense_from 1 migrations end.

(** ** Evicted turns: [turns.rs] *)

Module TurnRow.
Record t := mk {
  body : list byte;
  body_hash : list byte;
  byte_len : Z;
  stored_at : Z;
}.

(** The [CHECK] constraints of [evicted_turn]. *)
Definition check (r : t) : bool :=
  (length (body_hash r) =? 32) && (byte_len r =? Z.of_nat (length (body r)))%Z &&
  (0 <=? stored_at r)%Z.
End TurnRow.

Module EvictedTurn.
Record t := mk { turn : Id; digest : ContentHash; byte_len : Z; stored_at_ms : Z }.
End EvictedTurn.

(** [struct TurnBody]: kind [0x10]. *)
Definition turn_body_sealable : Sealable (list byte) :=
  {| CANONICAL_KIND := 16; write_canonical := CanonicalWriter.bytes 1 |}.

Section turns.
Context (blake3 : list byte → list byte).
Context {T : Type} `{Table T Id TurnRow.t}.

Definition body_digest (body : list byte) : ContentHash :=
  @Sealed.hash_of blake3 (list byte) turn_body_sealable body.

Definition decode_digest (bytes : list byte) : result ContentHash StoreError :=
  if length bytes =? HASH_LEN then Ok bytes else Err Malformed.

(** [now_ms]: a clock before the epoch reads 0, one past [i64::MAX] saturates. *)
Definition now_ms (elapsed : option Z) : Z :=
  match elapsed with None => 0 | Some ms => Z.min ms i64_max end.

(** The row SQLite keeps after an insert, if it accepts it. *)
Definition insert_turn (turn : Id) (row : TurnRow.t) (t : T) : option T :=
  if TurnRow.check row then t_insert turn row t else None.

Definition evict_turn (io : bool) (clock : option Z) (turn : Id) (body : list byte) (t : T) :
    T * result ContentHash StoreError :=
  let digest := body_digest body in
  if (i64_max <? Z.of_nat (length body))%Z then (t, Err Malformed)
  else if negb io then (t, Err Sqlite)
  else match t_get turn t with
  | Some row =>
      match decode_digest (TurnRow.body_hash row) with
      | Err e => (t, Err e)
      | Ok stored =>
          if bool_decide (stored = digest) then
            if bool_decide (body_digest (TurnRow.body row) = digest) then (t, Ok digest)
            else (t, Err (Corrupt turn stored (body_digest (TurnRow.body row))))
          else (t, Err (Conflict turn stored digest))
      end
  | None =>
      match insert_turn turn
              (TurnRow.mk body digest (Z.of_nat (length body)) (now_ms clock)) t with
      | Some t' => (t', Ok digest)
      | None => (t, Err Sqlite)
      end
  end.

Definition recall_turn (io : bool) (turn : Id) (t : T) : result (list byte) StoreError :=
  if negb io then Err Sqlite
  else match t_get turn t with
  | None => Err (NotFound turn)
  | Some row =>
      let? stored := decode_digest (TurnRow.body_hash row) in
      let computed := body_digest (TurnRow.body row) in
      if negb (bool_decide (computed = stored)) then Err (Corrupt turn stored computed)
      else Ok (TurnRow.body row)
  end.

Definition has_turn (io : bool) (turn : Id) (t : T) : result bool StoreError :=
  if negb io then Err Sqlite else Ok (bool_decide (is_Some (t_get turn t))).

Definition metadata_of (turn : Id) (row : TurnRow.t) : result EvictedTurn.t StoreError :=
  let? digest := decode_digest (TurnRow.body_hash row) in
  if (TurnRow.byte_len row <? 0)%Z then Err Malformed
  else Ok (EvictedTurn.mk turn digest (TurnRow.byte_len row) (TurnRow.stored_at row)).

Definition turn_metadata (io : bool) (turn : Id) (t : T) : result EvictedTurn.t StoreError :=
  if negb io then Err Sqlite
  else match t_get turn t with
  | None => Err (NotFound turn)
  | Some row => metadata_of turn row
  end.

Definition evicted_turn_count (io : bool) (t : T) : result Z StoreError :=
  if negb io then Err Sqlite else Ok (Z.of_nat (length (t_scan t))).

Definition evicted_bytes (io : bool) (t : T) : result Z StoreError :=
  if negb io then Err Sqlite
  else
    let total := sum_Z ((λ p, TurnRow.byte_len p.2) <$> t_scan t) in
    if (i64_max <? total)%Z then Err Sqlite
    else if (total <? 0)%Z then Err Malformed else Ok total.

(** [ORDER BY stored_at, turn_id]. *)
Definition eviction_order (p q : Id * TurnRow.t) : Prop :=
  (TurnRow.stored_at p.2 < TurnRow.stored_at q.2)%Z ∨
  (TurnRow.stored_at p.2 = TurnRow.stored_at q.2 ∧ (p.1 ≤ q.1)%N).

#[local] Instance eviction_order_dec p q : Decision (eviction_order p q).
Proof. unfold eviction_order. apply _. Defined.

Definition evicted_turns (io : bool) (t : T) : result (list EvictedTurn.t) StoreError :=
  if negb io then Err Sqlite
  else foldr (λ p rest,
         let? turn := metadata_of p.1 p.2 in
         let? turns := rest in
         Ok (turn :: turns)) (Ok []) (merge_sort eviction_order (t_scan t)).

(** ** Eviction and recall: [supra_prompt/src/evict.rs] *)

Definition prompt_evict_turn (io : bool) (clock : option Z) (turn : Id) (body : list byte)
    (t : T) : T * result ContentHash PromptError :=
  let '(t, r) := evict_turn io clock turn body t in
  (t, map_err (λ _, EvictionFailed turn) r).

Definition prompt_recall_turn (io : bool) (turn : Id) (t : T) :
    result (list byte) PromptError :=
  match recall_turn io turn t with
  | Ok body => Ok body
  | Err (NotFound _) => Err (RecallMissing turn)
  | Err (Corrupt _ _ _) => Err (RecallCorrupt turn)
  | Err _ => Err (EvictionFailed turn)
  end.
End turns.

(** ** Lossless eviction *)

Section eviction.
Context (blake3 : list byte → list byte).
Hypothesis blake3_length : ∀ x, length (blake3 x) = HASH_LEN.
Context {T : Type} `{TableLaws T Id TurnRow.t}.
Implicit Types (t : T).

Lemma body_digest_length body : length (body_digest blake3 body) = HASH_LEN.
Proof. apply blake3_length. Qed.

Lemma decode_digest_Ok bytes d :
  decode_digest bytes = Ok d ↔ d = bytes ∧ length bytes = HASH_LEN.
Proof.
  unfold decode_digest. destruct (Nat.eqb_spec (length bytes) HASH_LEN); naive_solver.
Qed.

(** A stored row that verifies. *)
Definition row_verifies (row : TurnRow.t) : Prop :=
  TurnRow.body_hash row = body_digest blake3 (TurnRow.body row).

Lemma recall_turn_Ok turn t body :
  recall_turn blake3 true turn t = Ok body ↔
  ∃ row, t_get turn t = Some row ∧ row_verifies row ∧ body = TurnRow.body row.
Proof.
  unfold recall_turn, row_verifies. simpl. destruct (t_get turn t) as [row|]; [|naive_solver].
  rewrite result_bind_Ok. split.
  - intros (d & [-> Hl]%decode_digest_Ok & Hc). case_bool_decide as Hb; simpl in Hc; [|done].
    injection Hc as <-. exists row. done.
  - intros (? & [= <-] & Hv & ->). exists (TurnRow.body_hash row). split.
    + apply decode_digest_Ok. split; [done|]. rewrite Hv. apply body_digest_length.
    + rewrite bool_decide_eq_true_2 by done. done.
Qed.

Lemma insert_turn_Some turn row t t' :
  insert_turn turn row t = Some t' →
  t_get turn t' = Some row ∧ ∀ turn', turn' ≠ turn → t_get turn' t' = t_get turn' t.
Proof.
  unfold insert_turn. intros Hi. case_match; [|done]. split.
  - destruct (t_get_insert turn row t t' turn Hi) as [[_ ?]|[]]; done.
  - intros turn' Hne. destruct (t_get_insert turn row t t' turn' Hi) as [[-> _]|[_ ?]]; done.
Qed.

(** The row an accepted eviction leaves behind. *)
Lemma evict_turn_Ok io clock turn body t t' d :
  evict_turn blake3 io clock turn body t = (t', Ok d) →
  (Z.of_nat (length body) ≤ i64_max)%Z ∧ d = body_digest blake3 body ∧
  (∃ row, t_get turn t' = Some row ∧ row_verifies row ∧
     TurnRow.body_hash row = body_digest blake3 body) ∧
  ∀ turn', turn' ≠ turn → t_get turn' t' = t_get turn' t.
Proof.
  unfold evict_turn. destruct (Z.ltb_spec i64_max (Z.of_nat (length body))); [done|].
  destruct io; simpl; [|done]. destruct (t_get turn t) as [row|] eqn:Hg.
  - destruct (decode_digest (TurnRow.body_hash row)) as [stored|] eqn:Hd; [|done].
    apply decode_digest_Ok in Hd as [-> Hl]. case_bool_decide as Hs; [|done].
    case_bool_decide as Hb; [|done]. intros [= <- <-]. split_and!; [lia|done| |done].
    exists row. unfold row_verifies. by rewrite Hs, Hb.
  - destruct (insert_turn _ _ t) as [t''|] eqn:Hi; [|done]. intros [= <- <-].
    apply insert_turn_Some in Hi as [Hi Hother]. split_and!; [lia|done| |done].
    eexists. split; [exact Hi|done].
Qed.

Lemma evict_turn_Err io clock turn body t t' e :
  evict_turn blake3 io clock turn body t = (t', Err e) → t' = t.
Proof. unfold evict_turn. intros Hr. repeat case_match; congruence. Qed.

Lemma evict_turn_fresh clock turn body t :
  t_get turn t = None → (Z.of_nat (length body) ≤ i64_max)%Z →
  (∀ ms, clock = Some ms → (0 ≤ ms)%Z) →
  is_ok (evict_turn blake3 true clock turn body t).2 = true.
Proof.
  intros Hg Hl Hc. unfold evict_turn.
  destruct (Z.ltb_spec i64_max (Z.of_nat (length body))); [lia|]. simpl. rewrite Hg.
  unfold insert_turn, TurnRow.check. cbn [TurnRow.body TurnRow.body_hash TurnRow.byte_len TurnRow.stored_at].
  rewrite body_digest_length, Z.eqb_refl.
  assert ((0 <=? now_ms clock)%Z = true) as ->.
  { apply Z.leb_le. unfold now_ms, i64_max. destruct clock as [ms|]; [|done].
    specialize (Hc ms eq_refl). lia. }
  simpl. destruct (t_insert turn _ t) eqn:Hi; [done|].
  apply t_insert_None in Hi. rewrite Hg in Hi. by destruct Hi.
Qed.

(** What evicting over an existing row answers. *)
Lemma evict_turn_existing clock turn body t row :
  t_get turn t = Some row → length (TurnRow.body_hash row) = HASH_LEN →
  (Z.of_nat (length body) ≤ i64_max)%Z →
  evict_turn blake3 true clock turn body t =
    (t, if bool_decide (TurnRow.body_hash row = body_digest blake3 body) then
          if bool_decide (body_digest blake3 (TurnRow.body row) = body_digest blake3 body)
          then Ok (body_digest blake3 body)
          else Err (Corrupt turn (TurnRow.body_hash row) (body_digest blake3 (TurnRow.body row)))
        else Err (Conflict turn (TurnRow.body_hash row) (body_digest blake3 body))).
Proof.
  intros Hg Hl Hb. unfold evict_turn.
  destruct (Z.ltb_spec i64_max (Z.of_nat (length body))); [lia|]. simpl. rewrite Hg.
  unfold decode_digest. rewrite Hl. simpl. by repeat case_bool_decide.
Qed.
End eviction.

(** ** Sessions of evictions *)

(** One call of [evict_turn]: whether the database serves it, the clock, the turn and
    the body offered. *)
Record eviction := mkEviction { ev_io : bool; ev_clock : option Z; ev_turn : Id; ev_body : list byte }.

Section sessions.
Context (blake3 : list byte → list byte) {T : Type} `{Table T Id TurnRow.t}.

Definition evict_call (c : eviction) (t : T) : T * result ContentHash StoreError :=
  evict_turn blake3 (ev_io c) (ev_clock c) (ev_turn c) (ev_body c) t.

(** Calls in turn, with their answers. *)
Fixpoint evictions (calls : list eviction) (t : T) : T * list (result ContentHash StoreError) :=
  match calls with
  | [] => (t, [])
  | c :: calls =>
      let '(t, r) := evict_call c t in
      let '(t, answers) := evictions calls t in (t, r :: answers)
  end.

(** The body of the first call for a turn that was answered with success. *)
Fixpoint first_stored (turn : Id) (calls : list eviction)
    (answers : list (result ContentHash StoreError)) : option (list byte) :=
  match calls, answers with
  | c :: calls, r :: answers =>
      if bool_decide (ev_turn c = turn) && is_ok r then Some (ev_body c)
      else first_stored turn calls answers
  | _, _ => None
  end.
End sessions.

Section session_lemmas.
Context (blake3 : list byte → list byte).
Hypothesis blake3_length : ∀ x, length (blake3 x) = HASH_LEN.
Context {T : Type} `{TableLaws T Id TurnRow.t}.
Implicit Types (t : T).

(** An eviction touches the row of its own turn, and only when there is none. *)
Lemma evict_turn_get io clock turn body t turn' :
  let '(t', r) := evict_turn blake3 io clock turn body t in
  t_get turn' t' =
    if bool_decide (turn = turn') && is_ok r && negb (bool_decide (is_Some (t_get turn' t)))
    then Some (TurnRow.mk body (body_digest blake3 body) (Z.of_nat (length body)) (now_ms clock))
    else t_get turn' t.
Proof.
  destruct (evict_turn blake3 io clock turn body t) as [t' [d|e]] eqn:E; cbn [is_ok].
  2:{ rewrite andb_false_r. cbn [andb]. by apply evict_turn_Err in E as ->. }
  rewrite andb_true_r. unfold evict_turn in E.
  destruct (Z.ltb_spec i64_max (Z.of_nat (length body))); [done|]. destruct io; [|done]. simpl in E.
  case_bool_decide as Ht; [subst turn'|].
  2:{ destruct (t_get turn t) as [row|]; [|destruct (insert_turn _ _ _) as [t''|] eqn:Hi; [|done]].
      - destruct (decode_digest _); [|done]. repeat case_bool_decide; simplify_eq; done.
      - injection E as <- <-. apply insert_turn_Some in Hi as [_ Hi]. cbn [andb]. by apply Hi. }
  destruct (t_get turn t) as [row|] eqn:Hg.
  - rewrite bool_decide_true by by eexists. cbn [andb negb]. rewrite <- Hg.
    destruct (decode_digest _); [|done]. repeat case_bool_decide; simplify_eq; done.
  - rewrite bool_decide_false by by intros []. cbn [andb negb].
    destruct (insert_turn _ _ _) as [t''|] eqn:Hi; [|done]. injection E as <- <-.
    by apply insert_turn_Some in Hi as [-> _].
Qed.

(** A row stays through any further calls. *)
Lemma evictions_keep calls : ∀ t turn row,
  t_get turn t = Some row → t_get turn (evictions blake3 calls t).1 = Some row.
Proof.
  induction calls as [|[io clock turn' body] calls IH]; intros t turn row Hg; [done|]. cbn [evictions].
  pose proof (evict_turn_get io clock turn' body t turn) as Hget. unfold evict_call.
  cbn [ev_io ev_clock ev_turn ev_body]. destruct (evict_turn _ _ _ _ _ _) as [t' r].
  destruct (evictions blake3 calls t') as [t'' answers] eqn:Ec. cbn [fst].
  rewrite <- (IH t' turn row); [by rewrite Ec|].
  rewrite Hget, Hg. by rewrite (bool_decide_true (is_Some _)), andb_false_r by by eexists.
Qed.

(** What a turn not stored at first holds in the end. *)
Lemma evictions_first calls : ∀ t turn, t_get turn t = None →
  let '(t', answers) := evictions blake3 calls t in
  match first_stored turn calls answers with
  | None => t_get turn t' = None
  | Some body => ∃ row, t_get turn t' = Some row ∧ TurnRow.body row = body ∧ row_verifies blake3 row
  end.
Proof.
  induction calls as [|[io clock turn' body] calls IH]; intros t turn Hg; [done|]. cbn [evictions].
  pose proof (evict_turn_get io clock turn' body t turn) as Hget. unfold evict_call.
  cbn [ev_io ev_clock ev_turn ev_body]. destruct (evict_turn _ _ _ _ _ _) as [t' r].
  destruct (evictions blake3 calls t') as [t'' answers] eqn:Ec. cbn [first_stored ev_turn ev_body].
  rewrite Hg, (bool_decide_false (is_Some None)), andb_true_r in Hget by by intros [].
  destruct (bool_decide (turn' = turn) && is_ok r).
  - pose proof (evictions_keep calls t' turn _ Hget) as Hk. rewrite Ec in Hk. eexists. split; [exact Hk|]. by split.
  - specialize (IH t' turn Hget). by rewrite Ec in IH.
Qed.

(** What recalling a stored row answers. *)
Lemma recall_turn_row turn t row :
  t_get turn t = Some row → length (TurnRow.body_hash row) = HASH_LEN →
  recall_turn blake3 true turn t =
    if bool_decide (body_digest blake3 (TurnRow.body row) = TurnRow.body_hash row) then Ok (TurnRow.body row)
    else Err (Corrupt turn (TurnRow.body_hash row) (body_digest blake3 (TurnRow.body row))).
Proof.
  intros Hg Hl. unfold recall_turn, decode_digest. simpl. rewrite Hg, Hl. simpl. by case_bool_decide.
Qed.

(** The row a successful eviction leaves: the one there was, or one of its own body. *)
Lemma evict_turn_stored io clock turn body t t' d :
  evict_turn blake3 io clock turn body t = (t', Ok d) →
  d = body_digest blake3 body ∧ ∃ row, t_get turn t' = Some row ∧
    TurnRow.body row = match t_get turn t with Some row => TurnRow.body row | None => body end ∧
    row_verifies blake3 row ∧ TurnRow.body_hash row = d.
Proof.
  intros E. pose proof (evict_turn_get io clock turn body t turn) as Hget. rewrite E in Hget.
  apply evict_turn_Ok in E as (_ & -> & (row & Hrow & Hv & Hh) & _); [|done..].
  split; [done|]. exists row. split; [done|]. split; [|done].
  rewrite (bool_decide_true (turn = turn)) in Hget by done. cbn [is_ok andb] in Hget. rewrite Hrow in Hget.
  destruct (t_get turn t) as [row'|].
  - rewrite bool_decide_true in Hget by by eexists. by injection Hget as ->.
  - rewrite bool_decide_false in Hget by by intros []. by injection Hget as ->.
Qed.

(** What a verified row answers to recalls and to further evictions. *)
Lemma verified_row_answers turn u row :
  row_verifies blake3 row → t_get turn u = Some row →
  recall_turn blake3 true turn u = Ok (TurnRow.body row) ∧
  prompt_recall_turn blake3 true turn u = Ok (TurnRow.body row) ∧
  ∀ clock other, (Z.of_nat (length other) ≤ i64_max)%Z →
    evict_turn blake3 true clock turn other u =
      (u, if bool_decide (body_digest blake3 other = TurnRow.body_hash row) then Ok (TurnRow.body_hash row)
          else Err (Conflict turn (TurnRow.body_hash row) (body_digest blake3 other))).
Proof.
  intros Hv Hu. assert (Hr : recall_turn blake3 true turn u = Ok (TurnRow.body row))
    by (apply recall_turn_Ok; [done|by exists row]).
  split; [done|]. split; [unfold prompt_recall_turn; by rewrite Hr|]. intros clock other Ho.
  rewrite (evict_turn_existing blake3 clock turn other u row); [|done|rewrite Hv; by apply body_digest_length|done].
  f_equal. unfold row_verifies in Hv. rewrite <- Hv.
  destruct (decide (body_digest blake3 other = TurnRow.body_hash row)) as [Hd|Hd].
  - rewrite !bool_decide_true by congruence. by rewrite Hd.
  - by rewrite !bool_decide_false by congruence.
Qed.
End session_lemmas.

(** C8. Evicting a turn is lossless and happens once.  Over any calls of [evict_turn],
    of any turns, served by the database or failing: what [recall_turn] gives back in
    the end for a turn that was not stored at first is, byte for byte, the body of the
    first of its evictions that reported success, and [NotFound] when none did.  One
    eviction that reports success answers with the digest of the body offered; from
    then on, after any further calls, the turn is recalled as the body it was evicted
    with - when it had been stored before, as the body stored then, whose digest is the
    same - and evicting it again gives that digest for a body with it, and a conflict
    naming both digests for any other, without touching the store.  An eviction that
    fails leaves the store as it was, one that succeeds leaves every other turn alone,
    and a turn not yet stored is always accepted by a working database.  A row whose
    body no longer has its recorded digest is never given back: recalling it is
    [Corrupt], as is evicting over it what it once held. *)
Theorem evict_recall_lossless (blake3 : list byte → list byte)
    (Hlen : ∀ x, length (blake3 x) = HASH_LEN)
    (T : Type) (HT : Table T Id TurnRow.t)
    (Hlaws : TableLaws T Id TurnRow.t) (turn : Id) (t : T) :
  (∀ calls, t_get turn t = None →
     let '(u, answers) := evictions blake3 calls t in
     recall_turn blake3 true turn u = ok_or (first_stored turn calls answers) (NotFound turn)) ∧
  (∀ io clock body, let '(t', r) := evict_turn blake3 io clock turn body t in
     let stored := match t_get turn t with Some row => TurnRow.body row | None => body end in
     (∀ d, r = Ok d →
        d = body_digest blake3 body ∧ d = body_digest blake3 stored ∧
        ∀ calls, let u := (evictions blake3 calls t').1 in
          recall_turn blake3 true turn u = Ok stored ∧
          prompt_recall_turn blake3 true turn u = Ok stored ∧
          ∀ clock' other, (Z.of_nat (length other) ≤ i64_max)%Z →
            evict_turn blake3 true clock' turn other u =
              (u, if bool_decide (body_digest blake3 other = d) then Ok d
                  else Err (Conflict turn d (body_digest blake3 other)))) ∧
     (∀ turn', turn' ≠ turn → t_get turn' t' = t_get turn' t) ∧
     (∀ e, r = Err e → t' = t) ∧
     (io = true → t_get turn t = None → (Z.of_nat (length body) ≤ i64_max)%Z →
        (∀ ms, clock = Some ms → (0 ≤ ms)%Z) → is_ok r = true)) ∧
  (∀ row, t_get turn t = Some row → length (TurnRow.body_hash row) = HASH_LEN →
     body_digest blake3 (TurnRow.body row) ≠ TurnRow.body_hash row →
     recall_turn blake3 true turn t =
       Err (Corrupt turn (TurnRow.body_hash row) (body_digest blake3 (TurnRow.body row))) ∧
     prompt_recall_turn blake3 true turn t = Err (RecallCorrupt turn) ∧
     ∀ clock original, (Z.of_nat (length original) ≤ i64_max)%Z →
       TurnRow.body_hash row = body_digest blake3 original →
       evict_turn blake3 true clock turn original t =
         (t, Err (Corrupt turn (TurnRow.body_hash row) (body_digest blake3 (TurnRow.body row))))).
Proof.
  split_and!.
  - intros calls Hg. pose proof (evictions_first blake3 calls t turn Hg) as Hf.
    destruct (evictions blake3 calls t) as [u answers].
    destruct (first_stored turn calls answers) as [body|]; cbn [ok_or].
    + apply recall_turn_Ok; [done|]. destruct Hf as (row & Hr & <- & Hv). by exists row.
    + unfold recall_turn. cbn [negb]. by rewrite Hf.
  - intros io clock body. pose proof (evict_turn_get blake3 io clock turn body t) as Hget.
    destruct (evict_turn blake3 io clock turn body t) as [t' r] eqn:E. split_and!.
    + intros d ->. pose proof (evict_turn_stored blake3 io clock turn body t t' d E) as (-> & row & Hrow & Hs & Hv & Hh).
      rewrite <- Hs. split; [done|]. split; [by rewrite <- Hv|]. intros calls u. rewrite <- Hh.
      by apply verified_row_answers, evictions_keep.
    + intros turn' Hne. rewrite Hget. by rewrite bool_decide_false by done.
    + intros e ->. by eapply evict_turn_Err.
    + intros -> Hg Hb Hc. pose proof (evict_turn_fresh blake3 Hlen clock turn body t Hg Hb Hc) as Hok.
      by rewrite E in Hok.
  - intros row Hg Hl Hne. pose proof (recall_turn_row blake3 turn t row Hg Hl) as Hr.
    rewrite bool_decide_false in Hr by done. split; [done|]. split; [unfold prompt_recall_turn; by rewrite Hr|].
    intros clock original Ho Hh. rewrite (evict_turn_existing blake3 clock turn original t row) by done.
    rewrite bool_decide_true by done. rewrite bool_decide_false; [done|]. by rewrite <- Hh.
Qed.

Definition demo_hash (_ : list byte) : list byte := replicate 32 "a"%char.

(** Two turns, a failure in between and a retry: each is what it was first stored as. *)
Definition demo_calls : list eviction :=
  [mkEviction false (Some 5%Z) 1%N (bytes "x"); mkEviction true (Some 5%Z) 1%N (bytes "hi");
   mkEviction true None 2%N (bytes "yo"); mkEviction true (Some 7%Z) 1%N (bytes "hi")].

Lemma evict_recall_lossless_witness :
  (∀ x, length (toy_hash x) = HASH_LEN) ∧
  first_stored 1%N demo_calls (evictions toy_hash demo_calls (∅ : gmap Id TurnRow.t)).2 = Some (bytes "hi") ∧
  let '(u, answers) := evictions toy_hash demo_calls (∅ : gmap Id TurnRow.t) in
  recall_turn toy_hash true 1%N u = ok_or (first_stored 1%N demo_calls answers) (NotFound 1%N).
Proof.
  assert (Hl : ∀ x, length (toy_hash x) = HASH_LEN) by (intros x; apply le_bytes_length).
  split; [exact Hl|]. split; [vm_compute; reflexivity|].
  exact (proj1 (evict_recall_lossless toy_hash Hl (gmap Id TurnRow.t) _ _ 1%N ∅) demo_calls eq_refl).
Defined.

(** Damaged bytes are never returned and never mistaken for a retry.  Whatever
    the table holds, a recall that succeeds returns the bytes of a row whose
    recorded digest is theirs; a row whose body no longer has its recorded digest
    is reported by recall as [RecallCorrupt] with no bytes, and evicting again the
    body the digest was computed from reports [Corrupt] instead of success; a turn
    never evicted is [RecallMissing], and any other failure is [EvictionFailed]. *)
Theorem recall_verified (blake3 : list byte → list byte)
    (Hlen : ∀ x, length (blake3 x) = HASH_LEN)
    (T : Type) (HT : Table T Id TurnRow.t)
    (Hlaws : TableLaws T Id TurnRow.t) (turn : Id) (t : T) :
  (∀ b, prompt_recall_turn blake3 true turn t = Ok b →
     ∃ row, t_get turn t = Some row ∧ b = TurnRow.body row ∧
       TurnRow.body_hash row = body_digest blake3 b) ∧
  (t_get turn t = None → prompt_recall_turn blake3 true turn t = Err (RecallMissing turn)) ∧
  prompt_recall_turn blake3 false turn t = Err (EvictionFailed turn) ∧
  (∀ row original clock, t_get turn t = Some row →
     TurnRow.body_hash row = body_digest blake3 original →
     body_digest blake3 (TurnRow.body row) ≠ body_digest blake3 original →
     (Z.of_nat (length original) ≤ i64_max)%Z →
     prompt_recall_turn blake3 true turn t = Err (RecallCorrupt turn) ∧
     evict_turn blake3 true clock turn original t =
       (t, Err (Corrupt turn (TurnRow.body_hash row) (body_digest blake3 (TurnRow.body row))))).
Proof.
  unfold prompt_recall_turn. split_and!.
  - intros b. destruct (recall_turn blake3 true turn t) as [b'|[]] eqn:E; try done.
    intros [= <-]. apply recall_turn_Ok in E as (row & Hg & Hv & ->); [|done..].
    exists row. done.
  - intros Hg. unfold recall_turn. simpl. by rewrite Hg.
  - done.
  - intros row original clock Hg Hh Hd Hl.
    assert (Hl32 : length (TurnRow.body_hash row) = HASH_LEN)
      by (rewrite Hh; by apply body_digest_length).
    split.
    + rewrite (recall_turn_row blake3 turn t row) by done. by rewrite Hh, bool_decide_false.
    + rewrite (evict_turn_existing blake3 clock turn original t row) by done.
      rewrite Hh. rewrite bool_decide_eq_true_2, bool_decide_eq_false_2; done.
Qed.

Lemma recall_verified_witness :
  (∀ x, length (demo_hash x) = HASH_LEN) ∧
  prompt_recall_turn demo_hash true 1%N (∅ : gmap Id TurnRow.t) = Err (RecallMissing 1%N).
Proof.
  assert (Hl : ∀ x, length (demo_hash x) = HASH_LEN) by reflexivity. split; [exact Hl|].
  apply (recall_verified demo_hash Hl (gmap Id TurnRow.t) _ _ 1%N ∅). reflexivity.
Defined.

(** ** Migrations by concurrent openers *)

Module Migrations.
(** One opener past its version check: whose schema it migrates, the version its
    build knows, and the steps it has still to offer. *)
Record opener := mk { owner : option string; target : Z; remaining : list Z }.

(** What [current_version] and [component_version] read. *)
Definition version_of (o : option string) (f : SchemaFile.t) : Z :=
  match o with
  | None => SchemaFile.user_version f
  | Some c => default 0%Z (SchemaFile.components f ≫= (.!! c))
  end.

Definition read_version (o : option string) (f : SchemaFile.t) : result Z StoreError :=
  match o with
  | None => current_version true f
  | Some c => component_version true c f
  end.

(** One step of either loop, under the write lock. *)
Definition apply_step (io : StepIo) (o : option string) (migration version : Z)
    (f : SchemaFile.t) : option SchemaFile.t :=
  match o with
  | None => match apply_once io migration version f with Ok (_, f) => Some f | Err _ => None end
  | Some c => match apply_component io c migration f with Ok (_, f) => Some f | Err _ => None end
  end.

(** Openers of any builds, interleaved at transaction granularity.  A failing step
    ends its opener, which is one that is never scheduled again. *)
Inductive run : SchemaFile.t → list opener → Prop :=
| run_empty : run SchemaFile.empty []
| run_open f ops o migrations version :
    run f ops → assert_dense migrations = true → in_u32 (latest migrations) = true →
    read_version o f = Ok version → (version ≤ latest migrations)%Z →
    run f (ops ++ [mk o (latest migrations) migrations])
| run_step f ops f' i o target m ms version io :
    run f ops → ops !! i = Some (mk o target (m :: ms)) →
    apply_step io o m version f = Some f' →
    run f' (<[i := mk o target ms]> ops).

(** The committed batches of one owner, in order. *)
Definition applied (o : option string) (f : SchemaFile.t) : list Z :=
  omap (λ p, if decide (p.1 = o) then Some p.2 else None) (SchemaFile.history f).

Definition opener_wf (f : SchemaFile.t) (p : opener) : Prop :=
  ∃ k, dense_from (k + 1) (remaining p) = true ∧
    (0 ≤ k ≤ version_of (owner p) f)%Z ∧
    (target p = k + Z.of_nat (length (remaining p)))%Z ∧ (target p ≤ u32_max)%Z.

Definition file_wf (f : SchemaFile.t) : Prop :=
  (∀ o, applied o f = seqZ 1 (version_of o f) ∧ (0 ≤ version_of o f ≤ u32_max)%Z) ∧
  (is_Some (SchemaFile.components f) ↔ (2 ≤ SchemaFile.user_version f)%Z).

Lemma latest_dense k migrations :
  dense_from (k + 1) migrations = true → migrations ≠ [] →
  latest migrations = (k + Z.of_nat (length migrations))%Z.
Proof.
  revert k. induction migrations as [|m ms IH]; intros k Hd Hne; [done|].
  simpl in Hd. apply andb_true_iff in Hd as [->%Z.eqb_eq Hd].
  destruct ms as [|m' ms]; [unfold latest; simpl; lia|].
  specialize (IH (k + 1)%Z Hd). unfold latest in *. rewrite last_cons_cons, IH by done.
  simpl length. lia.
Qed.

(** What a core and a component step that went through did to the file. *)
Lemma apply_once_Ok io m version f v f' :
  apply_once io m version f = Ok (v, f') →
  (m ≤ SchemaFile.user_version f ∧ f' = f)%Z ∨
  ((SchemaFile.user_version f < m)%Z ∧ ∃ components,
     run_batch m (SchemaFile.components f) = Some components ∧
     f' = SchemaFile.mk m components (SchemaFile.history f ++ [(None, m)])).
Proof.
  unfold apply_once, current_version. intros H.
  destruct io; try done; cbn [reads negb] in H; destruct (in_u32 _); try done; cbn [result_bind] in H;
    destruct (Z.leb_spec m (SchemaFile.user_version f)); simplify_eq; auto.
  destruct (run_batch m (SchemaFile.components f)) as [components|]; [|done]. injection H as <- <-. eauto.
Qed.

Lemma apply_once_version io m version f v f' :
  apply_once io m version f = Ok (v, f') → v = SchemaFile.user_version f'.
Proof.
  unfold apply_once, current_version. intros H.
  destruct io; try done; cbn [reads negb] in H; destruct (in_u32 _); try done; cbn [result_bind] in H;
    destruct (Z.leb_spec m (SchemaFile.user_version f)); simplify_eq; try done.
  destruct (run_batch m (SchemaFile.components f)); simplify_eq. done.
Qed.

Lemma apply_component_Ok io c m f v f' :
  apply_component io c m f = Ok (v, f') →
  ∃ rows, SchemaFile.components f = Some rows ∧
    ((m ≤ default 0 (rows !! c) ∧ f' = f)%Z ∨
     ((default 0 (rows !! c) < m)%Z ∧
      f' = SchemaFile.mk (SchemaFile.user_version f) (Some (<[c := m]> rows))
             (SchemaFile.history f ++ [(Some c, m)]))).
Proof.
  unfold apply_component, component_version. intros H.
  assert (Hrows : ∃ rows, SchemaFile.components f = Some rows)
    by (destruct io, (SchemaFile.components f) as [rows|]; try done; by exists rows).
  destruct Hrows as [rows Er]. exists rows. split; [done|]. rewrite Er in H.
  destruct io; try done; cbn [reads negb] in H; destruct (rows !! c) as [found|]; cbn [default];
    try (destruct (in_u32 found); [|done]); cbn [map_err result_bind] in H.
  all: match type of H with context [(?x <=? ?y)%Z] => destruct (Z.leb_spec x y) end; simplify_eq; auto.
  all: case_bool_decide; [done|]; injection H as <- <-; auto.
Qed.

(** What one committed or skipped step does to the file. *)
Lemma apply_step_spec io o m version f f' :
  apply_step io o m version f = Some f' →
  (m ≤ version_of o f ∧ f' = f)%Z ∨
  ((version_of o f < m)%Z ∧ SchemaFile.history f' = SchemaFile.history f ++ [(o, m)] ∧
   version_of o f' = m ∧ ∀ o', o' ≠ o → version_of o' f' = version_of o' f).
Proof.
  unfold apply_step. destruct o as [c|].
  - destruct (apply_component io c m f) as [[v f'']|] eqn:E; [|done]. intros [= ->].
    apply apply_component_Ok in E as (rows & Er & [[Hm ->]|[Hm ->]]); unfold version_of; rewrite Er; cbn [mbind option_bind].
    { by left. }
    right. cbn. rewrite lookup_insert_eq. split_and!; [done..|].
    intros [c'|] Hne; [|done]. by rewrite lookup_insert_ne by congruence.
  - destruct (apply_once io m version f) as [[v f'']|] eqn:E; [|done]. intros [= ->].
    apply apply_once_Ok in E as [?|(Hm & components & Hc & ->)]; [by left|]. right. cbn. split_and!; [done..|].
    intros [c|] Hne; [|done]. unfold version_of. cbn [SchemaFile.components]. unfold run_batch in Hc.
    destruct (m =? 2)%Z; [|by simplify_eq]. destruct (SchemaFile.components f); simplify_eq. cbn. by rewrite lookup_empty.
Qed.

(** The component table is there from version 2 on. *)
Lemma apply_step_table io o k version f f' :
  (is_Some (SchemaFile.components f) ↔ (2 ≤ SchemaFile.user_version f)%Z) →
  (k ≤ version_of o f)%Z → apply_step io o (k + 1) version f = Some f' →
  (is_Some (SchemaFile.components f') ↔ (2 ≤ SchemaFile.user_version f')%Z).
Proof.
  intros Hf Hk. unfold apply_step. destruct o as [c|].
  - destruct (apply_component io c (k + 1) f) as [[v f'']|] eqn:E; [|done]. intros [= ->].
    apply apply_component_Ok in E as (rows & Er & [[_ ->]|[_ ->]]); [done|].
    cbn. rewrite <- Hf, Er. split; intros _; by eexists.
  - destruct (apply_once io (k + 1) version f) as [[v f'']|] eqn:E; [|done]. intros [= ->].
    apply apply_once_Ok in E as [[_ ->]|(Hm & components & Hc & ->)]; [done|]. cbn in *. unfold run_batch in Hc.
    destruct (Z.eqb_spec (k + 1) 2) as [E2|E2].
    + destruct (SchemaFile.components f); simplify_eq. split; [lia|]. intros _. by eexists.
    + simplify_eq. rewrite Hf. lia.
Qed.

Lemma applied_snoc o o' m f f' :
  SchemaFile.history f' = SchemaFile.history f ++ [(o, m)] →
  applied o' f' = applied o' f ++ (if decide (o = o') then [m] else []).
Proof.
  unfold applied. intros ->. rewrite omap_app. simpl. by case_decide.
Qed.

(** A step offered in order keeps the file's history dense. *)
Lemma apply_step_wf io o k version f f' :
  file_wf f → (0 ≤ k ≤ version_of o f)%Z → (k + 1 ≤ u32_max)%Z →
  apply_step io o (k + 1) version f = Some f' →
  file_wf f' ∧ (k + 1 ≤ version_of o f')%Z ∧ ∀ o', (version_of o' f ≤ version_of o' f')%Z.
Proof.
  intros [Hf Htab] Hk Hb Ha. pose proof (apply_step_table io o k version f f' Htab (proj2 Hk) Ha) as Htab'.
  apply apply_step_spec in Ha as [[? ->]|(Hlt & Hh & Hv & Hother)]; [by split_and!|].
  assert (k = version_of o f) as -> by lia. split_and!; [split; [|done]|lia|].
  - intros o'. rewrite (applied_snoc o o' _ f f' Hh). destruct (Hf o') as [Happ Hbd].
    destruct (decide (o = o')) as [<-|Hne].
    + rewrite Hv. split; [|lia]. rewrite Happ, seqZ_app by lia. f_equal.
      rewrite (seqZ_cons _ 1) by lia. rewrite seqZ_nil by lia. f_equal. lia.
    + rewrite app_nil_r, (Hother o') by done. done.
  - intros o'. destruct (decide (o' = o)) as [->|Hne]; [lia|]. rewrite Hother by done. lia.
Qed.

Lemma opener_wf_mono f f' p :
  (∀ o, version_of o f ≤ version_of o f')%Z → opener_wf f p → opener_wf f' p.
Proof. intros Hm (k & Hd & Hk & Ht). exists k. specialize (Hm (owner p)). split_and!; lia || apply Ht || done. Qed.

Lemma run_wf f ops : run f ops → file_wf f ∧ Forall (opener_wf f) ops.
Proof.
  induction 1 as [|f ops o ms version _ [Hf Ho] Hd Hu Hr Hle|
      f ops f' i o target m ms version io _ [Hf Ho] Hi Ha].
  - split; [|constructor]. split.
    + intros o. destruct o; (split; [done|]); simpl; done.
    + split; [by intros []|done].
  - split; [done|]. apply Forall_app. split; [done|]. constructor; [|constructor].
    destruct ms as [|m ms]; [done|]. apply in_u32_iff in Hu. destruct (proj1 Hf o) as [_ ?].
    exists 0%Z. simpl owner. simpl remaining. simpl target.
    split_and!; [done|lia|lia|apply (latest_dense 0); done|lia].
  - rewrite Forall_lookup in Ho. destruct (Ho i _ Hi) as (k & Hd & Hk & Ht & Hb).
    simpl in Hd, Hk, Ht, Hb. apply andb_true_iff in Hd as [->%Z.eqb_eq Hd].
    destruct (apply_step_wf io o k version f f') as (Hf' & Hk' & Hm); [done|done|lia|done|].
    split; [done|]. apply Forall_lookup. intros j p Hj.
    destruct (decide (i = j)) as [->|Hne].
    + rewrite list_lookup_insert_eq in Hj by (by eapply lookup_lt_Some). injection Hj as <-.
      exists (k + 1)%Z. simpl. split_and!; [done|lia..].
    + rewrite list_lookup_insert_ne in Hj by done.
      eapply opener_wf_mono; [exact Hm|]. by apply (Ho j).
Qed.

(** Both loops are runs of steps: whatever the database refuses, a whole [migrate]
    or [migrate_component] leads from a reachable file to a reachable file. *)
Lemma migrate_loop_run migrations ios version f ops i tgt :
  run f ops → ops !! i = Some (mk None tgt migrations) →
  ∃ ops', run (migrate_loop migrations ios version f).1 ops'.
Proof.
  revert version f ops. induction migrations as [|m migrations IH]; intros version f ops Hr Hi; [by eauto|].
  simpl. destruct (apply_once (ios m) m version f) as [[v f']|] eqn:Ha; [|by eauto].
  apply (IH v f' (<[i := mk None tgt migrations]> ops)).
  - apply (run_step f ops f' i None tgt m _ version (ios m) Hr Hi). simpl. by rewrite Ha.
  - rewrite list_lookup_insert_eq; [done|by eapply lookup_lt_Some].
Qed.

Lemma migrate_component_loop_run c migrations ios version f ops i tgt :
  run f ops → ops !! i = Some (mk (Some c) tgt migrations) →
  ∃ ops', run (migrate_component_loop c migrations ios version f).1 ops'.
Proof.
  revert version f ops. induction migrations as [|m migrations IH]; intros version f ops Hr Hi; [by eauto|].
  simpl. destruct (apply_component (ios m) c m f) as [[v f']|] eqn:Ha; [|by eauto].
  apply (IH v f' (<[i := mk (Some c) tgt migrations]> ops)).
  - apply (run_step f ops f' i (Some c) tgt m _ version (ios m) Hr Hi). simpl. by rewrite Ha.
  - rewrite list_lookup_insert_eq; [done|by eapply lookup_lt_Some].
Qed.

Lemma current_version_Ok read f v : current_version read f = Ok v → current_version true f = Ok v.
Proof. by destruct read. Qed.

Lemma component_version_Ok read c f v : component_version read c f = Ok v → component_version true c f = Ok v.
Proof. by destruct read. Qed.

Lemma migrate_run read ios f ops :
  run f ops → ∃ ops', run (migrate read ios f).1 ops'.
Proof.
  intros Hr. unfold migrate. destruct (current_version read f) as [v|] eqn:Hv; [|by eauto].
  apply current_version_Ok in Hv. destruct (Z.ltb_spec latest_version v); [by eauto|].
  eapply (migrate_loop_run _ ios v f (ops ++ [mk None latest_version MIGRATIONS]) (length ops) latest_version).
  - by apply (run_open f ops None MIGRATIONS v).
  - by rewrite list_lookup_middle.
Qed.

Lemma migrate_component_run c ms read ios f ops :
  assert_dense ms = true → in_u32 (latest ms) = true →
  run f ops → ∃ ops', run (migrate_component c ms read ios f).1 ops'.
Proof.
  intros Hd Hu Hr. unfold migrate_component.
  destruct (component_version read c f) as [v|] eqn:Hv; [|by eauto].
  apply component_version_Ok in Hv. destruct (Z.ltb_spec (latest ms) v); [by eauto|].
  eapply (migrate_component_loop_run c _ ios v f (ops ++ [mk (Some c) (latest ms) ms]) (length ops) (latest ms)).
  - by apply (run_open f ops (Some c) ms v).
  - by rewrite list_lookup_middle.
Qed.

(** Over a working database the loop reaches the last version. *)
Lemma migrate_up_to_date f :
  file_wf f → (version_of None f ≤ latest_version)%Z →
  (migrate true (λ _, Carried) f).2 = Ok latest_version ∧
  version_of None (migrate true (λ _, Carried) f).1 = latest_version.
Proof.
  intros [Hf Htab] Hle. destruct (Hf None) as [_ Hb]. unfold version_of in *.
  change latest_version with 2%Z in *. unfold migrate, current_version. cbn [negb].
  rewrite (proj2 (in_u32_iff _) Hb). change latest_version with 2%Z.
  destruct (Z.ltb_spec 2 (SchemaFile.user_version f)); [lia|].
  destruct f as [v components h]. cbn [SchemaFile.user_version SchemaFile.components] in *.
  assert (v = 0 ∨ v = 1 ∨ v = 2)%Z as [-> | [-> | ->]] by lia; [..|by vm_compute].
  all: destruct components as [rows|]; [|by vm_compute].
  all: exfalso; assert (is_Some (Some rows)) as ?%Htab by (by eexists); lia.
Qed.

(** Nothing is read of a component before the core schema made the table. *)
Lemma component_before_core f c ms read ios :
  file_wf f → (SchemaFile.user_version f < 2)%Z → migrate_component c ms read ios f = (f, Err Sqlite).
Proof.
  intros [_ Htab] Hv. unfold migrate_component, component_version. destruct read; [|done]. cbn [negb].
  destruct (SchemaFile.components f) as [rows|]; [|done].
  exfalso. assert (is_Some (Some rows)) as ?%Htab by (by eexists). lia.
Qed.
End Migrations.

(** C33. However many processes open one file at once, each schema batch is run
    exactly once and in order.  In every state reachable by interleaving openers
    of any builds at transaction granularity - steps that fail or are never taken
    included - the committed batches of the core schema and of every component are
    exactly [1, 2, .., version] of the version the file records, so no batch is
    lost, repeated or reordered; an opener that has offered all its steps finds the
    file at its own version or a later one; a whole [migrate] or
    [migrate_component], whatever the database refuses, leaves a state of the same
    kind; [migrate] over a working database brings every file this build
    understands to the latest version and refuses a newer file untouched; and no
    component is migrated before the core schema has made the table its version is
    recorded in. *)
Theorem migrations_applied_once (f : SchemaFile.t) (ops : list Migrations.opener)
    (Hrun : Migrations.run f ops) :
  (∀ o, Migrations.applied o f = seqZ 1 (Migrations.version_of o f)) ∧
  (∀ p, p ∈ ops → Migrations.remaining p = [] →
     (Migrations.target p ≤ Migrations.version_of (Migrations.owner p) f)%Z) ∧
  (∀ read ios, ∃ ops', Migrations.run (migrate read ios f).1 ops') ∧
  (∀ c ms read ios, assert_dense ms = true → in_u32 (latest ms) = true →
     ∃ ops', Migrations.run (migrate_component c ms read ios f).1 ops') ∧
  ((SchemaFile.user_version f ≤ latest_version)%Z →
     (migrate true (λ _, Carried) f).2 = Ok latest_version) ∧
  (∀ ios, (latest_version < SchemaFile.user_version f)%Z →
     migrate true ios f = (f, Err (SchemaTooNew (SchemaFile.user_version f) latest_version))) ∧
  (∀ c ms read ios, (SchemaFile.user_version f < 2)%Z →
     migrate_component c ms read ios f = (f, Err Sqlite)).
Proof.
  pose proof (Migrations.run_wf f ops Hrun) as [Hf Ho]. split_and!.
  { intros o. apply Hf. }
  2: { intros read ios. by eapply Migrations.migrate_run. }
  2: { intros c ms read ios Hd Hu. by eapply Migrations.migrate_component_run. }
  2: { intros Hle. by apply Migrations.migrate_up_to_date. }
  2: { intros ios Hlt. destruct (proj1 Hf None) as [_ Hb%in_u32_iff]. unfold migrate, current_version.
       simpl in Hb |- *. rewrite Hb. apply Z.ltb_lt in Hlt as ->. done. }
  2: { intros c ms read ios Hv. by apply Migrations.component_before_core. }
  intros p Hp Hr. rewrite Forall_forall in Ho. destruct (Ho p Hp) as (k & _ & Hk & Ht & _).
  rewrite Hr in Ht. simpl in Ht. lia.
Qed.

Lemma core_race :
  Migrations.run
    (SchemaFile.mk 2 (Some ∅) [(None, 1%Z); (None, 2%Z)])
    [Migrations.mk None 1 []; Migrations.mk None 2 []].
Proof.
  apply (Migrations.run_step (SchemaFile.mk 2 (Some ∅) [(None, 1%Z); (None, 2%Z)])
    [Migrations.mk None 1 [1%Z]; Migrations.mk None 2 []] _ 0 None 1 1 [] 0 Carried); [|done..].
  apply (Migrations.run_step (SchemaFile.mk 1 None [(None, 1%Z)])
    [Migrations.mk None 1 [1%Z]; Migrations.mk None 2 [2%Z]] _ 1 None 2 2 [] 0 Carried); [|done..].
  apply (Migrations.run_step SchemaFile.empty
    [Migrations.mk None 1 [1%Z]; Migrations.mk None 2 [1%Z; 2%Z]] _ 1 None 2 1 [2%Z] 0 Carried);
    [|done..].
  apply (Migrations.run_open SchemaFile.empty [Migrations.mk None 1 [1%Z]] None [1; 2]%Z 0);
    [|done..].
  apply (Migrations.run_open SchemaFile.empty [] None [1]%Z 0); [|done..].
  constructor.
Qed.

Lemma migrations_applied_once_witness :
  Migrations.run
    (SchemaFile.mk 2 (Some ∅) [(None, 1%Z); (None, 2%Z)])
    [Migrations.mk None 1 []; Migrations.mk None 2 []] ∧
  Migrations.applied None (SchemaFile.mk 2 (Some ∅) [(None, 1%Z); (None, 2%Z)]) = [1; 2]%Z.
Proof.
  split; [exact core_race|].
  exact (proj1 (migrations_applied_once _ _ core_race) None).
Defined.
