(* ===== verification/Blackboard.v ===== *)
(** * The blackboard: [crates/supra_blackboard]

    Claims, their validator rosters and votes: the live board ([board.rs]), its
    three tables ([schema.rs]) and its errors ([error.rs]).  An operation takes the
    board and the database and returns both with its result; [io] says whether
    SQLite carries out the operation's transaction.  A ULID generated by an
    operation is its argument [fresh]; identifiers are ordered as their text is. *)

From S2P Require Import Prelude Text Sealing Table Cohort Store.

Definition MAX_BODY_BYTES : nat := 2048.

Inductive BlackboardError :=
| BStore (e : StoreError)
| BSqlite
| UnknownClaim (claim : Id)
| DuplicateVote (agent claim : Id)
| NotInCohort (agent claim : Id)
| Closed (claim : Id)
| BTally (e : TallyError)
| NotAProposer (agent claim : Id).

#[export] Instance BlackboardError_eq_dec : EqDecision BlackboardError.
Proof. solve_decision. Defined.

(** ** Tables: [schema.rs] *)

Module ClaimRow.
Record t := mk {
  turn : Id;
  proposer : Id;
  body : string;
  k : Z;
  created_at : Z;
  status : string;
}.
End ClaimRow.

Module VoteRow.
Record t := mk { vote : string; reason : string; evidence : option string }.
End VoteRow.

(** The stored claim as it is read back. *)
Module StoredClaim.
Record t := mk {
  claim : Id;
  turn : Id;
  proposer : Id;
  body : string;
  k : nat;
  status : string;
}.
End StoredClaim.

Module StoredVote.
Record t := mk { claim : Id; voter : Id; vote : Vote }.
End StoredVote.

Definition vote_text (v : Vote) : string :=
  match v with Yes => "yes" | No => "no" | Abstain => "abstain" end.

Definition vote_from_text (text : string) : option Vote :=
  if decide (text = "yes") then Some Yes
  else if decide (text = "no") then Some No
  else if decide (text = "abstain") then Some Abstain
  else None.

Definition status_text (s : QuorumStatus) : string :=
  match s with Open => "open" | Reached => "reached" | Unreachable => "unreachable" end.

(** The three tables. *)
Module Db.
Record t (CT VT WT : Type) := mk { claims : CT; validators : VT; votes : WT }.
Arguments mk {CT VT WT} claims validators votes.
Arguments claims {CT VT WT} _.
Arguments validators {CT VT WT} _.
Arguments votes {CT VT WT} _.
End Db.

(** The rows of one claim, in the second key's order. *)
Definition select {V} (rows : list ((Id * Id) * V)) (claim : Id) : list (Id * V) :=
  omap (λ '((c, a), v), if decide (c = claim) then Some (a, v) else None) rows.

(** ** The board: [board.rs] *)

Module ClaimState.
Record t := mk {
  turn : Id;
  proposer : Id;
  body : string;
  k : nat;
  tally : Tally.t;
  status : QuorumStatus;
  validators : gmap Id (option Vote);
}.

#[global] Instance t_eq_dec : EqDecision t.
Proof. solve_decision. Defined.
End ClaimState.

Module Outcome.
Record t := mk { claim : Id; status : QuorumStatus; tally : Tally.t }.

Definition is_reached (o : t) : bool := bool_decide (status o = Reached).
End Outcome.

(** The proposer's own vote counts: the cohort is the proposer and its validators. *)
Definition ordinary_tally (k : nat) : Tally.t :=
  match Tally.record (Tally.new k) Yes with Ok (tally, _) => tally | Err _ => Tally.new k end.

(** A roster before anyone voted. *)
Definition empty_roster (validators : list Id) : gmap Id (option Vote) :=
  list_to_map ((λ id, (id, None)) <$> validators).

Section board.
(** SQLite's [length] of a text: its characters up to the first NUL. *)
Context (sql_length : string → nat).
Context {CT VT WT : Type}
  `{Table CT Id ClaimRow.t} `{Table VT (Id * Id) unit} `{Table WT (Id * Id) VoteRow.t}.
Abbreviation db := (Db.t CT VT WT).
Abbreviation board := (gmap Id ClaimState.t).

(** [store.with_transaction]: an error rolls back, and a database that fails
    leaves the tables alone. *)
Definition with_transaction {A} (io : bool) (work : db → result (A * db) BlackboardError)
    (d : db) : db * result A BlackboardError :=
  if io then match work d with Ok (a, d') => (d', Ok a) | Err e => (d, Err e) end
  else (d, Err BSqlite).

(** The [CHECK] constraints of [bb_claim]. *)
Definition claim_check (row : ClaimRow.t) : bool :=
  (0 <? sql_length (ClaimRow.body row)) && (sql_length (ClaimRow.body row) <=? 2048) &&
  (1 <=? ClaimRow.k row)%Z && (ClaimRow.k row <=? 80)%Z &&
  (0 <=? ClaimRow.created_at row)%Z &&
  bool_decide (ClaimRow.status row ∈ ["open"; "reached"; "unreachable"]).

Fixpoint insert_validators (claim : Id) (validators : list Id) (t : VT) : option VT :=
  match validators with
  | [] => Some t
  | agent :: validators => t ← t_insert (claim, agent) tt t; insert_validators claim validators t
  end.

(** [insert_claim]: one claim row and one row per validator. *)
Definition insert_claim (claim turn proposer : Id) (body : string) (k : nat) (status : string)
    (validators : list Id) (now : Z) (d : db) : option db :=
  let row := ClaimRow.mk turn proposer body (Z.of_nat k) now status in
  if claim_check row then
    claims ← t_insert claim row (Db.claims d);
    roster ← insert_validators claim validators (Db.validators d);
    Some (Db.mk claims roster (Db.votes d))
  else None.

(** The [CHECK] constraints of [bb_vote]. *)
Definition vote_check (row : VoteRow.t) : bool :=
  bool_decide (VoteRow.vote row ∈ ["yes"; "no"; "abstain"]) &&
  (sql_length (VoteRow.reason row) <=? 140) &&
  match VoteRow.evidence row with None => true | Some e => sql_length e <=? 40 end.

Definition insert_vote (claim voter : Id) (verdict : Verdict.t) (d : db) : option db :=
  let row := VoteRow.mk (vote_text (Verdict.vote verdict)) (Verdict.reason verdict)
               (Verdict.evidence_ref verdict) in
  if vote_check row then
    votes ← t_insert (claim, voter) row (Db.votes d);
    Some (Db.mk (Db.claims d) (Db.validators d) votes)
  else None.

(** [UPDATE .. WHERE claim_id = ? AND status = 'open']: whether a row changed. *)
Definition update_status (claim : Id) (status : string) (d : db) : bool * db :=
  match t_get claim (Db.claims d) with
  | Some row =>
      if decide (ClaimRow.status row = "open") then
        (true, Db.mk (t_update (λ row, ClaimRow.mk (ClaimRow.turn row) (ClaimRow.proposer row)
                        (ClaimRow.body row) (ClaimRow.k row) (ClaimRow.created_at row) status)
                        claim (Db.claims d)) (Db.validators d) (Db.votes d))
      else (false, d)
  | None => (false, d)
  end.

(** The votes of one claim, in voter order; a vote text outside the three is
    malformed. *)
Fixpoint read_votes (claim : Id) (rows : list (Id * VoteRow.t)) :
    result (list StoredVote.t) StoreError :=
  match rows with
  | [] => Ok []
  | (voter, row) :: rows =>
      let? vote := ok_or (vote_from_text (VoteRow.vote row)) Malformed in
      let? rest := read_votes claim rows in
      Ok (StoredVote.mk claim voter vote :: rest)
  end.

(** One claim of [read_all]: [usize::try_from(k).unwrap_or(0)]. *)
Definition read_claim (d : db) (entry : Id * ClaimRow.t) :
    result (StoredClaim.t * list Id * list StoredVote.t) StoreError :=
  let '(claim, row) := entry in
  let validators := fst <$> select (t_scan (Db.validators d)) claim in
  let? votes := read_votes claim (select (t_scan (Db.votes d)) claim) in
  Ok (StoredClaim.mk claim (ClaimRow.turn row) (ClaimRow.proposer row) (ClaimRow.body row)
        (Z.to_nat (ClaimRow.k row)) (ClaimRow.status row), validators, votes).

(** The vote loop of [open]: what an inconsistent row leaves is thrown away. *)
Fixpoint replay (votes : list StoredVote.t) (validators : gmap Id (option Vote))
    (tally : Tally.t) (inconsistent : bool) : gmap Id (option Vote) * Tally.t * bool :=
  match votes with
  | [] => (validators, tally, inconsistent)
  | v :: votes =>
      match validators !! StoredVote.voter v with
      | Some None =>
          let validators := <[StoredVote.voter v := Some (StoredVote.vote v)]> validators in
          match Tally.record tally (StoredVote.vote v) with
          | Ok (tally, _) => replay votes validators tally inconsistent
          | Err _ => replay votes validators tally true
          end
      | _ => replay votes validators tally true
      end
  end.

(** One iteration of [open]. *)
Definition restore_claim (entry : StoredClaim.t * list Id * list StoredVote.t) :
    result ClaimState.t BlackboardError :=
  let '(stored, validators, votes) := entry in
  let k := Nat.max (StoredClaim.k stored) 1 in
  let blind_rederivation :=
    (k =? 1) && (length validators =? 1) &&
    bool_decide (head validators = Some (StoredClaim.proposer stored)) in
  let tally := if blind_rederivation then Tally.new k else ordinary_tally k in
  let '(roster, tally, inconsistent) :=
    replay votes (empty_roster validators) tally false in
  if (inconsistent : bool) then Err (BStore Malformed)
  else
    let? status :=
      if decide (StoredClaim.status stored = "open") then Ok (Tally.status tally)
      else if decide (StoredClaim.status stored = "reached") then Ok Reached
      else if decide (StoredClaim.status stored = "unreachable") then Ok Unreachable
      else Err (BStore Malformed) in
    Ok (ClaimState.mk (StoredClaim.turn stored) (StoredClaim.proposer stored)
          (StoredClaim.body stored) k tally status roster).

Fixpoint restore_all (d : db) (rows : list (Id * ClaimRow.t)) (claims : board) :
    result board BlackboardError :=
  match rows with
  | [] => Ok claims
  | entry :: rows =>
      let? stored := map_err BStore (read_claim d entry) in
      let? state := restore_claim stored in
      restore_all d rows (<[entry.1 := state]> claims)
  end.

(** [Blackboard::open], after the component's migration. *)
Definition open_board (io : bool) (d : db) : result board BlackboardError :=
  if io then restore_all d (t_scan (Db.claims d)) ∅ else Err BSqlite.

Definition publish (io : bool) (fresh : Id) (clock : option Z) (turn proposer : Id)
    (validators : list Id) (body : string) (b : board) (d : db) :
    board * db * result Id BlackboardError :=
  let k := length validators + 1 in
  if bool_decide (proposer ∈ validators) then (b, d, Err (NotAProposer proposer fresh))
  else if MAX_BODY_BYTES <? String.length body then (b, d, Err (BStore Malformed))
  else
    match with_transaction io (λ d, ok_or (pair tt <$>
            insert_claim fresh turn proposer body k "open" validators (now_ms clock) d)
            (BStore Sqlite)) d with
    | (d', Ok _) =>
        (<[fresh := ClaimState.mk turn proposer body k (ordinary_tally k) Open
                      (empty_roster validators)]> b, d', Ok fresh)
    | (d', Err e) => (b, d', Err e)
    end.

Definition publish_blind (io : bool) (fresh : Id) (clock : option Z) (turn proposer : Id)
    (body : string) (b : board) (d : db) : board * db * result Id BlackboardError :=
  if MAX_BODY_BYTES <? String.length body then (b, d, Err (BStore Malformed))
  else
    match with_transaction io (λ d, ok_or (pair tt <$>
            insert_claim fresh turn proposer body 1 "open" [proposer] (now_ms clock) d)
            (BStore Sqlite)) d with
    | (d', Ok _) =>
        (<[fresh := ClaimState.mk turn proposer body 1 (Tally.new 1) Open
                      {[proposer := None]}]> b, d', Ok fresh)
    | (d', Err e) => (b, d', Err e)
    end.

(** The transaction of [record_vote]: the vote, and the terminal status with it. *)
Definition vote_transaction (claim voter : Id) (verdict : Verdict.t) (outcome : QuorumStatus)
    (d : db) : result (unit * db) BlackboardError :=
  let? d := ok_or (insert_vote claim voter verdict d) (BStore Sqlite) in
  if bool_decide (outcome = Open) then Ok (tt, d)
  else match update_status claim (status_text outcome) d with
       | (true, d) => Ok (tt, d)
       | (false, _) => Err (BStore Malformed)
       end.

Definition record_vote (io : bool) (claim voter : Id) (verdict : Verdict.t)
    (state : ClaimState.t) (d : db) : ClaimState.t * db * result Outcome.t BlackboardError :=
  match ClaimState.validators state !! voter with
  | None => (state, d, Err (NotInCohort voter claim))
  | Some (Some _) => (state, d, Err (DuplicateVote voter claim))
  | Some None =>
      let vote := Verdict.vote verdict in
      match Tally.record (ClaimState.tally state) vote with
      | Err e => (state, d, Err (BTally e))
      | Ok (next_tally, outcome) =>
          match with_transaction io (vote_transaction claim voter verdict outcome) d with
          | (d', Err e) => (state, d', Err e)
          | (d', Ok _) =>
              (ClaimState.mk (ClaimState.turn state) (ClaimState.proposer state)
                 (ClaimState.body state) (ClaimState.k state) next_tally outcome
                 (<[voter := Some vote]> (ClaimState.validators state)),
               d', Ok (Outcome.mk claim outcome next_tally))
          end
      end
  end.

(** Write a claim's state back into the map it was borrowed from. *)
Definition put_back (claim : Id) (b : board)
    (r : ClaimState.t * db * result Outcome.t BlackboardError) :
    board * db * result Outcome.t BlackboardError :=
  let '(state, d, r) := r in (<[claim := state]> b, d, r).

Definition vote (io : bool) (claim voter : Id) (verdict : Verdict.t) (b : board) (d : db) :
    board * db * result Outcome.t BlackboardError :=
  match b !! claim with
  | None => (b, d, Err (UnknownClaim claim))
  | Some state =>
      if negb (bool_decide (ClaimState.status state = Open)) then (b, d, Err (Closed claim))
      else if bool_decide (voter = ClaimState.proposer state)
      then (b, d, Err (NotAProposer voter claim))
      else put_back claim b (record_vote io claim voter verdict state d)
  end.

Definition vote_blind (io : bool) (claim voter : Id) (verdict : Verdict.t) (b : board) (d : db) :
    board * db * result Outcome.t BlackboardError :=
  match b !! claim with
  | None => (b, d, Err (UnknownClaim claim))
  | Some state =>
      if negb (bool_decide (ClaimState.status state = Open)) then (b, d, Err (Closed claim))
      else if negb (bool_decide (ClaimState.proposer state = voter)) ||
              negb (ClaimState.k state =? 1) ||
              negb (size (ClaimState.validators state) =? 1)
      then (b, d, Err (NotInCohort voter claim))
      else put_back claim b (record_vote io claim voter verdict state d)
  end.

(** ** Reading the board *)

Definition outcome (claim : Id) (b : board) : option Outcome.t :=
  (λ state, Outcome.mk claim (ClaimState.status state) (ClaimState.tally state)) <$> b !! claim.

Definition claim_of (claim : Id) (b : board) : option StoredClaim.t :=
  (λ state, StoredClaim.mk claim (ClaimState.turn state) (ClaimState.proposer state)
              (ClaimState.body state) (ClaimState.k state)
              (status_text (ClaimState.status state))) <$> b !! claim.

Definition reachable_claim (claim : Id) (b : board) : option bool :=
  (λ state, negb (bool_decide (ClaimState.status state = Unreachable))) <$> b !! claim.

Definition all_claims (b : board) : list Id := fst <$> btree b.

Definition votes_cast (claim : Id) (b : board) : option (list StoredVote.t) :=
  (λ state, omap (λ '(voter, v), StoredVote.mk claim voter <$> v)
              (btree (ClaimState.validators state))) <$> b !! claim.

(** [next_proposer]: the candidate with the fewest claims of the turn, the least
    identifier among equals. *)
Definition claims_proposed (turn agent : Id) (b : board) : nat :=
  length (filter (λ p, ClaimState.turn p.2 = turn ∧ ClaimState.proposer p.2 = agent)
            (map_to_list b)).

Definition next_proposer (turn : Id) (candidates : list Id) (b : board) : option Id :=
  fst <$> min_by_key snd
    (btree (list_to_map ((λ c, (c, claims_proposed turn c b)) <$> candidates) : gmap Id nat)).
End board.

(** ** Rosters and their votes *)

Section rosters.
Implicit Types (m : gmap Id (option Vote)).

(** The votes a roster holds. *)
Definition votes_of m : list Vote := omap snd (map_to_list m).

Lemma votes_of_insert m a v :
  m !! a = Some None → votes_of (<[a := Some v]> m) ≡ₚ v :: votes_of m.
Proof.
  intros Ha. unfold votes_of.
  rewrite <- insert_delete_eq, (map_to_list_insert (delete a m)) by apply lookup_delete_eq.
  rewrite <- (insert_delete_id m a None Ha) at 2.
  rewrite (map_to_list_insert (delete a m)) by apply lookup_delete_eq. done.
Qed.

Lemma votes_of_length m : length (votes_of m) ≤ size m.
Proof.
  unfold votes_of. rewrite <- length_map_to_list.
  induction (map_to_list m) as [|[a [v|]] l IH]; [done|..]; csimpl; lia.
Qed.

Lemma votes_of_length_lt m a : m !! a = Some None → length (votes_of m) < size m.
Proof.
  intros Ha. unfold votes_of. rewrite <- (insert_delete_id m a None Ha).
  rewrite (map_to_list_insert (delete a m)) by apply lookup_delete_eq.
  rewrite map_size_insert_None by apply lookup_delete_eq.
  pose proof (votes_of_length (delete a m)). unfold votes_of in *. csimpl. lia.
Qed.

Lemma empty_roster_cons x (l : list Id) :
  empty_roster (x :: l) = <[x := None]> (empty_roster l).
Proof. done. Qed.

Lemma empty_roster_lookup (l : list Id) a :
  empty_roster l !! a = if decide (a ∈ l) then Some None else None.
Proof.
  induction l as [|x l IH]; [done|]. rewrite empty_roster_cons.
  destruct (decide (a = x)) as [->|Hne].
  - rewrite lookup_insert_eq. by rewrite decide_True by set_solver.
  - rewrite lookup_insert_ne, IH by done. by repeat case_decide; try set_solver.
Qed.

Lemma empty_roster_size (l : list Id) : NoDup l → size (empty_roster l) = length l.
Proof.
  intros Hn. induction l as [|x l IH]; [apply map_size_empty|].
  apply NoDup_cons in Hn as [Hx Hn]. rewrite empty_roster_cons, map_size_insert_None.
  - by rewrite IH.
  - rewrite empty_roster_lookup. by case_decide.
Qed.

Lemma empty_roster_votes (l : list Id) : votes_of (empty_roster l) = [].
Proof.
  unfold votes_of. destruct (omap snd (map_to_list (empty_roster l))) as [|v vs] eqn:E; [done|].
  assert (Hv : v ∈ omap snd (map_to_list (empty_roster l))) by (rewrite E; set_solver).
  apply list_elem_of_omap in Hv as ([a o] & Hin & Ho). simpl in Ho. subst o.
  apply elem_of_map_to_list in Hin. rewrite empty_roster_lookup in Hin.
  by case_decide.
Qed.

(** [replay] over votes that fit the roster and the tally. *)
Definition cast_all (votes : list StoredVote.t) m : gmap Id (option Vote) :=
  foldl (λ m v, <[StoredVote.voter v := Some (StoredVote.vote v)]> m) m votes.

Lemma replay_spec votes m tally inconsistent :
  NoDup (StoredVote.voter <$> votes) →
  (∀ v, v ∈ votes → m !! StoredVote.voter v = Some None) →
  Tally.wf tally → length votes ≤ Tally.pending tally →
  replay votes m tally inconsistent =
    (cast_all votes m, tally_counts tally (StoredVote.vote <$> votes), inconsistent).
Proof.
  revert m tally. induction votes as [|v votes IH]; intros m tally Hn Hm Hwf Hp; [done|].
  simpl in Hp. simpl. rewrite fmap_cons, NoDup_cons in Hn. destruct Hn as [Hv Hn].
  rewrite Hm by set_solver.
  assert (Hr : Tally.record tally (StoredVote.vote v) =
    Ok (Tally.count tally (StoredVote.vote v), Tally.status (Tally.count tally (StoredVote.vote v))))
    by (apply tally_record_Ok; split_and!; [lia|done|done]).
  rewrite Hr. apply IH; [done| |apply tally_count_wf; [lia|done]|].
  - intros u Hu. rewrite lookup_insert_ne; [apply Hm; set_solver|].
    intros Heq. apply Hv. rewrite Heq. by apply list_elem_of_fmap_2.
  - rewrite tally_count_pending by done. lia.
Qed.

Lemma cast_all_lookup votes m a :
  NoDup (StoredVote.voter <$> votes) →
  (∃ v, v ∈ votes ∧ StoredVote.voter v = a ∧
     cast_all votes m !! a = Some (Some (StoredVote.vote v))) ∨
  ((∀ v, v ∈ votes → StoredVote.voter v ≠ a) ∧ cast_all votes m !! a = m !! a).
Proof.
  revert m. induction votes as [|v votes IH]; intros m Hn; simpl.
  - right. split; [set_solver|done].
  - rewrite fmap_cons, NoDup_cons in Hn. destruct Hn as [Hv Hn].
    destruct (IH (<[StoredVote.voter v := Some (StoredVote.vote v)]> m) Hn)
      as [(u & Hu & Ha & Hl)|[Hno Hl]].
    + left. exists u. split_and!; [set_solver|done|done].
    + destruct (decide (StoredVote.voter v = a)) as [<-|Hne].
      * left. exists v. rewrite lookup_insert_eq in Hl. split_and!; [set_solver|done|done].
      * right. rewrite lookup_insert_ne in Hl by done. split; [|done].
        intros u [->|Hu]%elem_of_cons; auto.
Qed.

Lemma cast_all_votes votes m :
  NoDup (StoredVote.voter <$> votes) →
  (∀ v, v ∈ votes → m !! StoredVote.voter v = Some None) →
  votes_of (cast_all votes m) ≡ₚ (StoredVote.vote <$> votes) ++ votes_of m.
Proof.
  revert m. induction votes as [|v votes IH]; intros m Hn Hm; [done|].
  rewrite fmap_cons, NoDup_cons in Hn. destruct Hn as [Hv Hn]. simpl.
  rewrite IH; [|done|].
  - rewrite votes_of_insert by (apply Hm; set_solver). by rewrite Permutation_middle.
  - intros u Hu. rewrite lookup_insert_ne; [apply Hm; set_solver|].
    intros Heq. apply Hv. rewrite Heq. by apply list_elem_of_fmap_2.
Qed.
End rosters.

Lemma select_elem {V} (rows : list ((Id * Id) * V)) c a v :
  (a, v) ∈ select rows c ↔ ((c, a), v) ∈ rows.
Proof.
  unfold select. rewrite list_elem_of_omap. split.
  - intros ([[c' a'] v'] & Hin & Heq). case_decide; simplify_eq. done.
  - intros Hin. exists ((c, a), v). by rewrite decide_True.
Qed.

Lemma select_nodup {V} (rows : list ((Id * Id) * V)) c :
  NoDup rows.*1 → NoDup (select rows c).*1.
Proof.
  unfold select. induction rows as [|[[c' a] v] rows IH]; intros Hn; [constructor|].
  rewrite fmap_cons, NoDup_cons in Hn. destruct Hn as [Hv Hn]. simpl.
  destruct (decide (c' = c)) as [->|]; [|by apply IH]. rewrite fmap_cons. simpl.
  apply NoDup_cons. split; [|by apply IH]. intros ([a' u] & Ha & Hin)%list_elem_of_fmap.
  simpl in Ha. subst a'. apply Hv. apply list_elem_of_fmap. exists ((c, a), u).
  split; [done|]. by apply (select_elem rows c a u).
Qed.

Lemma vote_text_roundtrip v : vote_from_text (vote_text v) = Some v.
Proof. by destruct v. Qed.

(** ** The board and its tables agree *)

Definition is_blind (st : ClaimState.t) : bool :=
  (ClaimState.k st =? 1) &&
  bool_decide (ClaimState.validators st !! ClaimState.proposer st ≠ None).

(** The tally a claim starts from. *)
Definition base_tally (st : ClaimState.t) : Tally.t :=
  if is_blind st then Tally.new (ClaimState.k st)
  else Tally.count (Tally.new (ClaimState.k st)) Yes.

(** A claim in memory: a blind one has its proposer as the whole roster, any other
    a roster without its proposer and one seat less than the cohort; the tally is
    the count of the roster's votes; the status is the tally's, except that a
    claim nobody else may vote on stays open. *)
Definition state_ok (st : ClaimState.t) : Prop :=
  (if is_blind st then size (ClaimState.validators st) = 1
   else ClaimState.validators st !! ClaimState.proposer st = None ∧
        ClaimState.k st = size (ClaimState.validators st) + 1) ∧
  ClaimState.tally st = tally_counts (base_tally st) (votes_of (ClaimState.validators st)) ∧
  (ClaimState.status st = Tally.status (ClaimState.tally st) ∨
   ClaimState.status st = Open ∧ ClaimState.validators st = ∅).

Section agreement.
Context {CT VT WT : Type}
  `{!Table CT Id ClaimRow.t} `{!Table VT (Id * Id) unit} `{!Table WT (Id * Id) VoteRow.t}.
Implicit Types (d : Db.t CT VT WT) (b : gmap Id ClaimState.t).

Definition claim_stored (c : Id) (st : ClaimState.t) d : Prop :=
  (∃ row, t_get c (Db.claims d) = Some row ∧
     ClaimRow.turn row = ClaimState.turn st ∧
     ClaimRow.proposer row = ClaimState.proposer st ∧
     ClaimRow.body row = ClaimState.body st ∧
     ClaimRow.k row = Z.of_nat (ClaimState.k st) ∧
     (ClaimRow.status row = status_text (ClaimState.status st) ∨
      ClaimState.validators st = ∅ ∧ ClaimRow.status row = "open" ∧
      ClaimState.status st = Reached)) ∧
  (∀ a, t_get (c, a) (Db.validators d) =
          match ClaimState.validators st !! a with Some _ => Some tt | None => None end) ∧
  (∀ a, match t_get (c, a) (Db.votes d) with
        | Some row => ∃ v, vote_from_text (VoteRow.vote row) = Some v ∧
                        ClaimState.validators st !! a = Some (Some v)
        | None => ∀ v, ClaimState.validators st !! a ≠ Some (Some v)
        end).

Definition claim_absent (c : Id) d : Prop :=
  t_get c (Db.claims d) = None ∧ (∀ a, t_get (c, a) (Db.validators d) = None) ∧
  ∀ a, t_get (c, a) (Db.votes d) = None.

Definition agree b d : Prop :=
  ∀ c, match b !! c with
       | Some st => state_ok st ∧ claim_stored c st d
       | None => claim_absent c d
       end.
End agreement.

Lemma tally_counts_app x votes v :
  tally_counts x (v :: votes) = Tally.count (tally_counts x votes) v.
Proof.
  rewrite (tally_counts_perm x (v :: votes) (votes ++ [v])) by apply Permutation_cons_append.
  unfold tally_counts. by rewrite foldl_app.
Qed.

Lemma ordinary_tally_count k : 0 < k → ordinary_tally k = Tally.count (Tally.new k) Yes.
Proof.
  intros Hk. unfold ordinary_tally, Tally.record, Tally.pending. simpl.
  destruct (Nat.eqb_spec (k - 0 - 0 - 0) 0); [lia|done].
Qed.

Lemma base_tally_wf st : state_ok st → Tally.wf (base_tally st) ∧
  (size (ClaimState.validators st) ≤ Tally.pending (base_tally st)).
Proof.
  intros (Hr & _). unfold base_tally, is_blind in *.
  destruct (Nat.eqb_spec (ClaimState.k st) 1); simpl in *;
    [case_bool_decide; simpl in *|]; unfold Tally.wf, Tally.pending; simpl; lia.
Qed.

Lemma state_ok_pending st a :
  state_ok st → ClaimState.validators st !! a = Some None →
  Tally.pending (ClaimState.tally st) ≠ 0.
Proof.
  intros Hok Ha. destruct (base_tally_wf st Hok) as [[Hsum _] Hsz].
  destruct Hok as (_ & -> & _).
  pose proof (tally_counts_fields (base_tally st) (votes_of (ClaimState.validators st)))
    as (Hk & _ & Hy & Hn & Hab).
  pose proof (votes_split (votes_of (ClaimState.validators st))).
  pose proof (votes_of_length_lt _ _ Ha). unfold Tally.pending in *. lia.
Qed.

(** A recorded vote keeps a claim well-formed. *)
Lemma state_ok_vote st a v turn proposer body k tally status validators :
  state_ok st → ClaimState.validators st !! a = Some None →
  turn = ClaimState.turn st → proposer = ClaimState.proposer st →
  body = ClaimState.body st → k = ClaimState.k st →
  validators = <[a := Some v]> (ClaimState.validators st) →
  tally = Tally.count (ClaimState.tally st) v → status = Tally.status tally →
  state_ok (ClaimState.mk turn proposer body k tally status validators).
Proof.
  intros (Hr & Ht & _) Ha -> -> -> -> -> -> ->.
  assert (Hblind : is_blind (ClaimState.mk (ClaimState.turn st) (ClaimState.proposer st)
    (ClaimState.body st) (ClaimState.k st) (Tally.count (ClaimState.tally st) v)
    (Tally.status (Tally.count (ClaimState.tally st) v))
    (<[a := Some v]> (ClaimState.validators st))) = is_blind st).
  { unfold is_blind. cbn [ClaimState.k ClaimState.validators ClaimState.proposer]. f_equal.
    apply bool_decide_ext.
    destruct (decide (a = ClaimState.proposer st)) as [<-|Hne].
    - rewrite lookup_insert_eq, Ha. done.
    - by rewrite lookup_insert_ne by done. }
  assert (Hsize : size (<[a := Some v]> (ClaimState.validators st)) =
    size (ClaimState.validators st)) by (apply map_size_insert_Some; by eexists).
  unfold state_ok, base_tally. rewrite Hblind.
  cbn [ClaimState.k ClaimState.validators ClaimState.proposer ClaimState.tally ClaimState.status].
  rewrite Hsize. split_and!; [|..|by left].
  - destruct (is_blind st); [done|]. destruct Hr as [Hp Hk]. split; [|done].
    destruct (decide (a = ClaimState.proposer st)) as [->|Hne]; [congruence|].
    by rewrite lookup_insert_ne.
  - rewrite (tally_counts_perm _ _ _ (votes_of_insert _ _ v Ha)), tally_counts_app.
    by rewrite Ht.
Qed.

(** ** Every operation keeps the agreement *)

Section preservation.
Context (sql_length : string → nat).
Context {CT VT WT : Type}
  `{TableLaws CT Id ClaimRow.t} `{TableLaws VT (Id * Id) unit} `{TableLaws WT (Id * Id) VoteRow.t}.
Implicit Types (d : Db.t CT VT WT) (b : gmap Id ClaimState.t).

Lemma get_insert_eq {T K V} `{TableLaws T K V} k v t t' :
  t_insert k v t = Some t' → t_get k t' = Some v.
Proof. intros Hi. by destruct (t_get_insert k v t t' k Hi) as [[_ ?]|[]]. Qed.

Lemma get_insert_ne {T K V} `{TableLaws T K V} k k' v t t' :
  t_insert k v t = Some t' → k ≠ k' → t_get k' t' = t_get k' t.
Proof. intros Hi Hne. by destruct (t_get_insert k v t t' k' Hi) as [[? _]|[_ ?]]. Qed.

Lemma get_insert_fresh {T K V} `{TableLaws T K V} k v t t' :
  t_insert k v t = Some t' → t_get k t = None.
Proof.
  intros Hi. destruct (t_get k t) eqn:Hg; [|done].
  assert (t_insert k v t = None) by (apply t_insert_None; by eexists). congruence.
Qed.

Lemma insert_validators_Some claim l t t' :
  insert_validators claim l t = Some t' →
  NoDup l ∧ (∀ a, a ∈ l → t_get (claim, a) t = None) ∧
  ∀ c a, t_get (c, a) t' = if decide (c = claim ∧ a ∈ l) then Some tt else t_get (c, a) t.
Proof.
  revert t. induction l as [|x l IH]; intros t; simpl.
  - intros [= <-]. split_and!; [constructor|set_solver|].
    intros c a. rewrite decide_False; [done|set_solver].
  - intros (t1 & Hi & (Hn & Hfresh & Hget)%IH)%bind_Some.
    pose proof (get_insert_eq _ _ _ _ Hi) as Hx.
    assert (Hxl : x ∉ l) by (intros Hin; apply Hfresh in Hin; congruence).
    split_and!; [by constructor| |].
    + intros a [->|Ha]%elem_of_cons; [by eapply get_insert_fresh|].
      rewrite <- (get_insert_ne _ (claim, a) _ _ _ Hi) by set_solver. auto.
    + intros c a. rewrite Hget. destruct (decide (c = claim ∧ a ∈ l)) as [[-> Ha]|Hno].
      * rewrite decide_True by set_solver. done.
      * destruct (decide ((c, a) = (claim, x))) as [[= -> ->]|Hne].
        -- rewrite decide_True by set_solver. done.
        -- rewrite decide_False by set_solver. by apply (get_insert_ne _ _ _ _ _ Hi).
Qed.

Lemma insert_claim_Some c turn proposer body k status l now d d' :
  insert_claim sql_length c turn proposer body k status l now d = Some d' →
  let row := ClaimRow.mk turn proposer body (Z.of_nat k) now status in
  claim_check sql_length row = true ∧ NoDup l ∧
  t_get c (Db.claims d) = None ∧ t_get c (Db.claims d') = Some row ∧
  (∀ c', c' ≠ c → t_get c' (Db.claims d') = t_get c' (Db.claims d)) ∧
  (∀ c' a, t_get (c', a) (Db.validators d') =
     if decide (c' = c ∧ a ∈ l) then Some tt else t_get (c', a) (Db.validators d)) ∧
  Db.votes d' = Db.votes d.
Proof.
  unfold insert_claim. intros Hi. case_match eqn:Hc; [|done].
  apply bind_Some in Hi as (t1 & H1' & (t2 & H2' & [= <-])%bind_Some).
  apply insert_validators_Some in H2' as (Hn & _ & Hget). cbn [Db.claims Db.validators Db.votes].
  split_and!; [done|done|by eapply get_insert_fresh|by eapply get_insert_eq| |done|done].
  intros c' Hne. eapply get_insert_ne; [exact H1'|done].
Qed.

(** What a claim's agreement reads of the tables. *)
Lemma agree_at_ext c d d' b :
  t_get c (Db.claims d') = t_get c (Db.claims d) →
  (∀ a, t_get (c, a) (Db.validators d') = t_get (c, a) (Db.validators d)) →
  (∀ a, t_get (c, a) (Db.votes d') = t_get (c, a) (Db.votes d)) →
  match b !! c with
  | Some st => state_ok st ∧ claim_stored c st d
  | None => claim_absent c d
  end →
  match b !! c with
  | Some st => state_ok st ∧ claim_stored c st d'
  | None => claim_absent c d'
  end.
Proof.
  intros Hc Hv Hw. destruct (b !! c) as [st|].
  - intros (Hok & (row & Hg & Hrow) & Hro & Hvo). split; [done|]. split_and!.
    + exists row. by rewrite Hc.
    + intros a. by rewrite Hv.
    + intros a. rewrite Hw. apply Hvo.
  - intros (Hg & Hro & Hvo). split_and!; [by rewrite Hc|intros a; by rewrite Hv|intros a; by rewrite Hw].
Qed.

(** Publishing a claim whose starting state fits its rows. *)
Lemma agree_publish c st l now d d' b :
  agree b d → state_ok st →
  insert_claim sql_length c (ClaimState.turn st) (ClaimState.proposer st) (ClaimState.body st)
    (ClaimState.k st) "open" l now d = Some d' →
  ClaimState.status st = Open → ClaimState.validators st = empty_roster l →
  agree (<[c := st]> b) d'.
Proof.
  intros Hb Hok Hi Hopen Hv c'.
  apply insert_claim_Some in Hi as (_ & Hn & Hfresh & Hrow & Hclaims & Hroster & Hvotes).
  assert (Habs : b !! c = None).
  { specialize (Hb c). destruct (b !! c); [|done].
    destruct Hb as (_ & (row & Hg & _) & _). congruence. }
  assert (Hc : claim_absent c d) by (specialize (Hb c); by rewrite Habs in Hb).
  destruct (decide (c' = c)) as [->|Hne].
  - rewrite lookup_insert_eq. split; [done|]. destruct Hc as (_ & Hcv & Hcw). split_and!.
    + eexists. split; [exact Hrow|]. simpl. rewrite Hopen. split_and!; [done..|by left].
    + intros a. rewrite Hroster, Hv, empty_roster_lookup, Hcv.
      destruct (decide (a ∈ l)); [rewrite decide_True by done; done|].
      rewrite decide_False by naive_solver. done.
    + intros a. rewrite Hvotes, Hcw. intros v. rewrite Hv, empty_roster_lookup.
      by case_decide.
  - rewrite lookup_insert_ne by done.
    apply (agree_at_ext c' d); [by apply Hclaims| |by rewrite Hvotes|apply Hb].
    intros a. rewrite Hroster. by rewrite decide_False by naive_solver.
Qed.

Lemma vote_check_ok verdict : Verdict.within_budget verdict →
  (∀ s, sql_length s ≤ String.length s) →
  vote_check sql_length (VoteRow.mk (vote_text (Verdict.vote verdict)) (Verdict.reason verdict)
    (Verdict.evidence_ref verdict)) = true.
Proof.
  intros [Hr He] Hs. unfold vote_check. cbn [VoteRow.vote VoteRow.reason VoteRow.evidence].
  unfold Verdict.MAX_REASON_BYTES, Verdict.MAX_EVIDENCE_BYTES in *.
  rewrite bool_decide_eq_true_2 by (destruct (Verdict.vote verdict); set_solver). simpl.
  assert ((sql_length (Verdict.reason verdict) <=? 140) = true) as ->
    by (apply Nat.leb_le; specialize (Hs (Verdict.reason verdict)); lia).
  destruct (Verdict.evidence_ref verdict) as [e|]; [|done].
  apply Nat.leb_le. specialize (Hs e). lia.
Qed.

Lemma insert_vote_Some c a verdict d d' :
  insert_vote sql_length c a verdict d = Some d' →
  Db.claims d' = Db.claims d ∧ Db.validators d' = Db.validators d ∧
  (∃ row, t_get (c, a) (Db.votes d') = Some row ∧
     vote_from_text (VoteRow.vote row) = Some (Verdict.vote verdict)) ∧
  (∀ k, k ≠ (c, a) → t_get k (Db.votes d') = t_get k (Db.votes d)).
Proof.
  unfold insert_vote. intros Hi. case_match; [|done].
  apply bind_Some in Hi as (t1 & H1' & [= <-]). simpl. split_and!; [done..| |].
  - eexists. split; [by eapply get_insert_eq|]. simpl. apply vote_text_roundtrip.
  - intros k Hk. by eapply get_insert_ne.
Qed.

Lemma insert_vote_fresh c a verdict d :
  Verdict.within_budget verdict → (∀ s, sql_length s ≤ String.length s) →
  t_get (c, a) (Db.votes d) = None →
  ∃ d', insert_vote sql_length c a verdict d = Some d'.
Proof.
  intros Hw Hs Hg. unfold insert_vote. rewrite vote_check_ok by done.
  destruct (t_insert (c, a) _ (Db.votes d)) eqn:Hi; [by eexists|].
  apply t_insert_None in Hi. rewrite Hg in Hi. by destruct Hi.
Qed.

(** The rows after a vote's transaction. *)
Lemma vote_transaction_Ok c a verdict outcome d d' :
  vote_transaction sql_length c a verdict outcome d = Ok (tt, d') →
  Db.validators d' = Db.validators d ∧
  (∃ row, t_get (c, a) (Db.votes d') = Some row ∧
     vote_from_text (VoteRow.vote row) = Some (Verdict.vote verdict)) ∧
  (∀ k, k ≠ (c, a) → t_get k (Db.votes d') = t_get k (Db.votes d)) ∧
  (∀ c', c' ≠ c → t_get c' (Db.claims d') = t_get c' (Db.claims d)) ∧
  t_get c (Db.claims d') =
    (λ row, if decide (outcome = Open) then row
            else ClaimRow.mk (ClaimRow.turn row) (ClaimRow.proposer row) (ClaimRow.body row)
                   (ClaimRow.k row) (ClaimRow.created_at row) (status_text outcome))
      <$> t_get c (Db.claims d).
Proof.
  unfold vote_transaction. intros (d1 & Hi & Hu)%result_bind_Ok. apply ok_or_Ok in Hi.
  apply insert_vote_Some in Hi as (Hc & Hv & Hrow & Hother). case_bool_decide as Ho.
  - injection Hu as <-. rewrite Hc. split_and!; [done..|].
    destruct (t_get c (Db.claims d)); simpl; [by rewrite decide_True|done].
  - unfold update_status in Hu. rewrite Hc in Hu.
    destruct (t_get c (Db.claims d)) as [row|] eqn:Hg; [|done].
    destruct (decide (ClaimRow.status row = "open")); [|done]. injection Hu as <-.
    simpl. split_and!; [done|done|done| |].
    + intros c' Hne. edestruct (t_get_update (T := CT)) as [[? _]|[_ Heq]]; [|exact Heq].
      congruence.
    + edestruct (t_get_update (T := CT)) as [[_ Heq]|[? _]]; [rewrite Heq|congruence].
      rewrite Hg. simpl. by rewrite decide_False.
Qed.

(** Over a working database the transaction of a well-formed vote goes through. *)
Lemma vote_transaction_total c a verdict outcome d row :
  Verdict.within_budget verdict → (∀ s, sql_length s ≤ String.length s) →
  t_get (c, a) (Db.votes d) = None → t_get c (Db.claims d) = Some row →
  ClaimRow.status row = "open" →
  ∃ d', vote_transaction sql_length c a verdict outcome d = Ok (tt, d').
Proof.
  intros Hw Hs Hg Hrow Hst. unfold vote_transaction.
  destruct (insert_vote_fresh c a verdict d Hw Hs Hg) as [d1 Hd1]. rewrite Hd1. simpl.
  apply insert_vote_Some in Hd1 as (Hc & _). case_bool_decide; [by eexists|].
  unfold update_status. rewrite Hc, Hrow, decide_True by done. by eexists.
Qed.

(** ** Publishing and voting *)

Lemma state_ok_published turn proposer body l :
  NoDup l → proposer ∉ l →
  state_ok (ClaimState.mk turn proposer body (length l + 1) (ordinary_tally (length l + 1))
    Open (empty_roster l)).
Proof.
  intros Hn Hp. unfold state_ok, base_tally, is_blind.
  cbn [ClaimState.k ClaimState.validators ClaimState.proposer ClaimState.tally ClaimState.status].
  rewrite empty_roster_lookup, decide_False by done.
  rewrite bool_decide_eq_false_2 by naive_solver. rewrite andb_false_r.
  rewrite empty_roster_size, empty_roster_votes, ordinary_tally_count by (done || lia).
  split_and!; [done..|]. destruct l as [|x l]; [by right|left].
  symmetry. apply tally_status_Open. unfold Tally.pending. simpl.
  pose proof (quorum_le (S (length l + 1))).
  destruct (decide (quorum (S (length l + 1)) ≤ 1)) as [Hq|]; [|lia].
  apply quorum_least in Hq. lia.
Qed.

Lemma state_ok_blind turn proposer body :
  state_ok (ClaimState.mk turn proposer body 1 (Tally.new 1) Open {[proposer := None]}).
Proof.
  unfold state_ok, base_tally, is_blind.
  cbn [ClaimState.k ClaimState.validators ClaimState.proposer ClaimState.tally ClaimState.status].
  rewrite lookup_singleton_eq, bool_decide_eq_true_2 by done. simpl.
  split_and!; [apply map_size_singleton| |by left].
  change {[proposer := None]} with (empty_roster [proposer]). by rewrite empty_roster_votes.
Qed.

Lemma agree_published io fresh clock turn proposer l body b d b' d' r :
  agree b d → publish sql_length io fresh clock turn proposer l body b d = (b', d', r) →
  agree b' d' ∧
  (∀ e, r = Err e → b' = b ∧ d' = d) ∧
  (∀ c, r = Ok c → c = fresh ∧ b !! c = None ∧ NoDup l ∧ length l + 1 ≤ 80 ∧
     b' = <[fresh := ClaimState.mk turn proposer body (length l + 1)
                       (ordinary_tally (length l + 1)) Open (empty_roster l)]> b).
Proof.
  intros Hb. unfold publish, with_transaction.
  case_bool_decide as Hp; [intros [= <- <- <-]; split_and!; naive_solver|].
  destruct (MAX_BODY_BYTES <? String.length body); [intros [= <- <- <-]; split_and!; naive_solver|].
  destruct io; [|intros [= <- <- <-]; split_and!; naive_solver].
  destruct (insert_claim _ _ _ _ _ _ _ _ _ _) as [d1|] eqn:Hi; simpl;
    [|intros [= <- <- <-]; split_and!; naive_solver].
  pose proof (insert_claim_Some _ _ _ _ _ _ _ _ _ _ Hi) as (Hck & Hn & Hfresh & _).
  intros [= <- <- <-]. split_and!; [|done|].
  - eapply agree_publish; [exact Hb|by apply state_ok_published|exact Hi|done|done].
  - intros c [= <-]. split_and!; [done| |done| |done].
    + specialize (Hb fresh). destruct (b !! fresh); [|done].
      destruct Hb as (_ & (row & Hg & _) & _). congruence.
    + unfold claim_check in Hck. simpl in Hck. to_prop. lia.
Qed.

Lemma agree_published_blind io fresh clock turn proposer body b d b' d' r :
  agree b d → publish_blind sql_length io fresh clock turn proposer body b d = (b', d', r) →
  agree b' d' ∧
  (∀ e, r = Err e → b' = b ∧ d' = d) ∧
  (∀ c, r = Ok c → c = fresh ∧ b !! c = None ∧
     b' = <[fresh := ClaimState.mk turn proposer body 1 (Tally.new 1) Open
                       {[proposer := None]}]> b).
Proof.
  intros Hb. unfold publish_blind, with_transaction.
  destruct (MAX_BODY_BYTES <? String.length body); [intros [= <- <- <-]; split_and!; naive_solver|].
  destruct io; [|intros [= <- <- <-]; split_and!; naive_solver].
  destruct (insert_claim _ _ _ _ _ _ _ _ _ _) as [d1|] eqn:Hi; simpl;
    [|intros [= <- <- <-]; split_and!; naive_solver].
  pose proof (insert_claim_Some _ _ _ _ _ _ _ _ _ _ Hi) as (_ & _ & Hfresh & _).
  intros [= <- <- <-]. split_and!; [|done|].
  - eapply agree_publish; [exact Hb|apply state_ok_blind|exact Hi|done|done].
  - intros c [= <-]. split_and!; [done| |done].
    specialize (Hb fresh). destruct (b !! fresh); [|done].
    destruct Hb as (_ & (row & Hg & _) & _). congruence.
Qed.

(** The state a counted vote leaves. *)
Definition voted (st : ClaimState.t) (voter : Id) (v : Vote) : ClaimState.t :=
  let tally := Tally.count (ClaimState.tally st) v in
  ClaimState.mk (ClaimState.turn st) (ClaimState.proposer st) (ClaimState.body st)
    (ClaimState.k st) tally (Tally.status tally) (<[voter := Some v]> (ClaimState.validators st)).

Lemma record_vote_cases io c a verdict st d st' d' r :
  record_vote sql_length io c a verdict st d = (st', d', r) →
  (∃ e, r = Err e ∧ st' = st ∧ d' = d) ∨
  (ClaimState.validators st !! a = Some None ∧ st' = voted st a (Verdict.vote verdict) ∧
   r = Ok (Outcome.mk c (ClaimState.status st') (ClaimState.tally st')) ∧
   vote_transaction sql_length c a verdict (ClaimState.status st') d = Ok (tt, d')).
Proof.
  unfold record_vote, with_transaction.
  destruct (ClaimState.validators st !! a) as [[v|]|]; [by intros [= <- <- <-]; eauto..| |
    by intros [= <- <- <-]; eauto].
  destruct (Tally.record _ _) as [[t o]|e] eqn:Hr; [|by intros [= <- <- <-]; eauto].
  apply tally_record_Ok in Hr as (_ & -> & ->).
  destruct io; [|by intros [= <- <- <-]; eauto].
  destruct (vote_transaction _ _ _ _ _ d) as [[[] d1]|e] eqn:Ht;
    [|by intros [= <- <- <-]; eauto].
  intros [= <- <- <-]. right. done.
Qed.

Lemma status_when_votable st a o :
  state_ok st → ClaimState.validators st !! a = Some o →
  ClaimState.status st = Tally.status (ClaimState.tally st).
Proof. intros (_ & _ & [?|[_ He]]) Ha; [done|]. rewrite He, lookup_empty in Ha. done. Qed.

Lemma agree_voted b d c a verdict st d' :
  agree b d → b !! c = Some st → ClaimState.status st = Open →
  ClaimState.validators st !! a = Some None →
  vote_transaction sql_length c a verdict
    (ClaimState.status (voted st a (Verdict.vote verdict))) d = Ok (tt, d') →
  agree (<[c := voted st a (Verdict.vote verdict)]> b) d'.
Proof.
  intros Hb Hc Hopen Ha Ht c'.
  apply vote_transaction_Ok in Ht as (Hv & (vrow & Hvr & Hvp) & Hvo & Hco & Hcl).
  destruct (decide (c' = c)) as [->|Hne].
  - rewrite lookup_insert_eq. specialize (Hb c). rewrite Hc in Hb.
    destruct Hb as (Hok & (row & Hg & Hturn & Hprop & Hbody & Hk & Hst) & Hro & Hvs).
    split; [by eapply state_ok_vote|].
    assert (Hstat : ClaimRow.status row = "open").
    { destruct Hst as [Hst|(_ & _ & Hst)]; [by rewrite Hst, Hopen|congruence]. }
    split_and!.
    + eexists. rewrite Hcl, Hg. clear Hcl. split; [reflexivity|]. simpl.
      case_decide as Ho; simpl; simpl in Ho;
        (split_and!; [exact Hturn|exact Hprop|exact Hbody|exact Hk|left]);
        [by rewrite Hstat, Ho|done].
    + intros a'. rewrite Hv, Hro. simpl. destruct (decide (a' = a)) as [->|].
      * by rewrite Ha, lookup_insert_eq.
      * by rewrite lookup_insert_ne.
    + intros a'. simpl. destruct (decide (a' = a)) as [->|].
      * rewrite Hvr. exists (Verdict.vote verdict). by rewrite lookup_insert_eq.
      * rewrite Hvo by congruence. rewrite lookup_insert_ne by done. apply Hvs.
  - rewrite lookup_insert_ne by done.
    apply (agree_at_ext c' d); [by apply Hco|by rewrite Hv| |apply Hb].
    intros a'. apply Hvo. congruence.
Qed.

(** Both voting operations. *)
Lemma agree_put_back io b d c a verdict st b' d' r :
  agree b d → b !! c = Some st → ClaimState.status st = Open →
  put_back c b (record_vote sql_length io c a verdict st d) = (b', d', r) →
  agree b' d' ∧ (∀ e, r = Err e → b' = b ∧ d' = d) ∧
  (∀ o, r = Ok o → ClaimState.validators st !! a = Some None ∧
     b' = <[c := voted st a (Verdict.vote verdict)]> b ∧
     o = Outcome.mk c (ClaimState.status (voted st a (Verdict.vote verdict)))
           (ClaimState.tally (voted st a (Verdict.vote verdict)))).
Proof.
  intros Hb Hc Hopen. unfold put_back.
  destruct (record_vote sql_length io c a verdict st d) as [[st' d1] r1] eqn:Hr.
  intros [= <- <- <-]. apply record_vote_cases in Hr as [(e & -> & -> & ->)|(Ha & -> & -> & Ht)].
  - rewrite insert_id by done. done.
  - split_and!; [by eapply agree_voted|done|]. intros o [= <-]. done.
Qed.

Lemma agree_vote io b d c a verdict b' d' r :
  agree b d → vote sql_length io c a verdict b d = (b', d', r) →
  agree b' d' ∧ (∀ e, r = Err e → b' = b ∧ d' = d) ∧
  (∀ o, r = Ok o → ∃ st, b !! c = Some st ∧ ClaimState.status st = Open ∧
     a ≠ ClaimState.proposer st ∧ ClaimState.validators st !! a = Some None ∧
     b' = <[c := voted st a (Verdict.vote verdict)]> b ∧
     o = Outcome.mk c (ClaimState.status (voted st a (Verdict.vote verdict)))
           (ClaimState.tally (voted st a (Verdict.vote verdict)))).
Proof.
  intros Hb. unfold vote. destruct (b !! c) as [st|] eqn:Hc;
    [|intros [= <- <- <-]; split_and!; naive_solver].
  case_bool_decide as Ho; simpl; [|intros [= <- <- <-]; split_and!; naive_solver].
  case_bool_decide as Hp; [intros [= <- <- <-]; split_and!; naive_solver|].
  intros Hr. eapply agree_put_back in Hr as (? & ? & Hok); [|done..].
  split_and!; [done..|]. intros o Hro. apply Hok in Hro as (? & ? & ?). by exists st.
Qed.

Lemma agree_vote_blind io b d c a verdict b' d' r :
  agree b d → vote_blind sql_length io c a verdict b d = (b', d', r) →
  agree b' d' ∧ (∀ e, r = Err e → b' = b ∧ d' = d) ∧
  (∀ o, r = Ok o → ∃ st, b !! c = Some st ∧ ClaimState.status st = Open ∧
     ClaimState.k st = 1 ∧ a = ClaimState.proposer st ∧
     ClaimState.validators st !! a = Some None ∧
     b' = <[c := voted st a (Verdict.vote verdict)]> b ∧
     o = Outcome.mk c (ClaimState.status (voted st a (Verdict.vote verdict)))
           (ClaimState.tally (voted st a (Verdict.vote verdict)))).
Proof.
  intros Hb. unfold vote_blind. destruct (b !! c) as [st|] eqn:Hc;
    [|intros [= <- <- <-]; split_and!; naive_solver].
  case_bool_decide as Ho; simpl; [|intros [= <- <- <-]; split_and!; naive_solver].
  case_match eqn:Hg; [intros [= <- <- <-]; split_and!; naive_solver|].
  to_prop. repeat match goal with H : negb _ = false |- _ => apply negb_false_iff in H end.
  to_prop. intros Hr. eapply agree_put_back in Hr as (? & ? & Hok); [|done..].
  split_and!; [done..|]. intros o Hro. apply Hok in Hro as (? & ? & ?). by exists st.
Qed.
End preservation.

(** ** Reopening *)

(** What [open] makes of a claim: its status is recomputed from the tally. *)
Definition restored (st : ClaimState.t) : ClaimState.t :=
  ClaimState.mk (ClaimState.turn st) (ClaimState.proposer st) (ClaimState.body st)
    (ClaimState.k st) (ClaimState.tally st) (Tally.status (ClaimState.tally st))
    (ClaimState.validators st).

Section reopening.
Context {CT VT WT : Type}
  `{TableLaws CT Id ClaimRow.t} `{TableLaws VT (Id * Id) unit} `{TableLaws WT (Id * Id) VoteRow.t}.
Implicit Types (d : Db.t CT VT WT) (b : gmap Id ClaimState.t).

Lemma restored_id st :
  state_ok st → ClaimState.validators st ≠ ∅ → restored st = st.
Proof.
  intros (_ & _ & [Hs|[_ ?]]) Hne; [|done]. unfold restored. rewrite <- Hs. by destruct st.
Qed.

Lemma read_votes_Ok c (rows : list (Id * VoteRow.t)) :
  (∀ a row, (a, row) ∈ rows → is_Some (vote_from_text (VoteRow.vote row))) →
  ∃ vs, read_votes c rows = Ok vs ∧ StoredVote.voter <$> vs = rows.*1 ∧
    ∀ v, v ∈ vs → ∃ row, (StoredVote.voter v, row) ∈ rows ∧
      vote_from_text (VoteRow.vote row) = Some (StoredVote.vote v).
Proof.
  induction rows as [|[a row] rows IH]; intros Hp.
  - exists []. split_and!; [done|done|set_solver].
  - destruct (Hp a row) as [v Hv]; [set_solver|].
    destruct IH as (vs & Hvs & Hf & Hin); [intros a' r' Hr'; apply (Hp a' r'); set_solver|].
    exists (StoredVote.mk c a v :: vs). cbn [read_votes]. rewrite Hv. cbn [ok_or result_bind].
    rewrite Hvs. cbn [result_bind]. split_and!; [done|by rewrite !fmap_cons, Hf|].
    intros u [->|Hu]%elem_of_cons.
    + exists row. split; [set_solver|done].
    + destruct (Hin u Hu) as (r & ? & ?). exists r. split; [set_solver|done].
Qed.

(** The roster rows of a stored claim. *)
Lemma roster_rows c st d :
  claim_stored c st d →
  let rows := fst <$> select (t_scan (Db.validators d)) c in
  NoDup rows ∧ (∀ a, a ∈ rows ↔ is_Some (ClaimState.validators st !! a)) ∧
  length rows = size (ClaimState.validators st).
Proof.
  intros (_ & Hro & _) rows.
  assert (Hn : NoDup rows) by (apply select_nodup, t_scan_nodup).
  assert (Hin : ∀ a, a ∈ rows ↔ is_Some (ClaimState.validators st !! a)).
  { intros a. unfold rows. rewrite list_elem_of_fmap. split.
    - intros ([a' []] & -> & Hs%select_elem%t_scan_elem). rewrite Hro in Hs. by case_match.
    - intros [o Ho]. exists (a, tt). split; [done|]. apply select_elem, t_scan_elem.
      by rewrite Hro, Ho. }
  split_and!; [done|done|]. rewrite <- size_dom.
  assert (dom (ClaimState.validators st) = list_to_set rows) as ->.
  { apply set_eq. intros a. rewrite elem_of_dom, elem_of_list_to_set. by rewrite Hin. }
  by rewrite size_list_to_set.
Qed.

Lemma head_singleton {A} (l : list A) x : length l = 1 → x ∈ l → head l = Some x.
Proof. destruct l as [|y [|]]; simpl; try done. set_solver. Qed.

Lemma state_ok_k_pos st : state_ok st → 0 < ClaimState.k st.
Proof.
  intros (Hr & _). unfold is_blind in Hr.
  destruct (Nat.eqb_spec (ClaimState.k st) 1); [lia|]. simpl in Hr. lia.
Qed.

(** The starting tally [open] picks is the claim's. *)
Lemma restored_base c st d :
  state_ok st → claim_stored c st d →
  let rows := fst <$> select (t_scan (Db.validators d)) c in
  (if (ClaimState.k st =? 1) && (length rows =? 1) &&
      bool_decide (head rows = Some (ClaimState.proposer st))
   then Tally.new (ClaimState.k st) else ordinary_tally (ClaimState.k st)) = base_tally st.
Proof.
  intros Hok Hst rows. destruct (roster_rows c st d Hst) as (_ & Hin & Hlen). fold rows in Hin, Hlen.
  rewrite ordinary_tally_count by (by apply state_ok_k_pos). unfold base_tally.
  destruct Hok as (Hr & _). destruct (is_blind st) eqn:Hbl.
  - unfold is_blind in Hbl. apply andb_true_iff in Hbl as [-> Hbl]. simpl.
    apply bool_decide_eq_true in Hbl. rewrite Hlen, Hr. simpl.
    rewrite bool_decide_eq_true_2; [done|]. apply head_singleton; [congruence|].
    apply Hin. by apply not_eq_None_Some.
  - destruct Hr as [Hnone _].
    rewrite (bool_decide_eq_false_2 (head rows = _)); [by rewrite andb_false_r|].
    intros Hh%head_Some_elem_of. apply Hin in Hh as [? ?]. congruence.
Qed.

(** The stored votes, cast on the stored roster, are the live roster. *)
Lemma stored_votes c st d :
  claim_stored c st d →
  let rows := fst <$> select (t_scan (Db.validators d)) c in
  ∃ vs, read_votes c (select (t_scan (Db.votes d)) c) = Ok vs ∧
    NoDup (StoredVote.voter <$> vs) ∧
    (∀ v, v ∈ vs → empty_roster rows !! StoredVote.voter v = Some None) ∧
    cast_all vs (empty_roster rows) = ClaimState.validators st.
Proof.
  intros Hst rows. destruct (roster_rows c st d Hst) as (_ & Hin & _). fold rows in Hin.
  destruct Hst as (_ & _ & Hvs).
  destruct (read_votes_Ok c (select (t_scan (Db.votes d)) c)) as (vs & Hread & Hvoters & Hvin).
  { intros a r Ha%select_elem%t_scan_elem. specialize (Hvs a). rewrite Ha in Hvs.
    destruct Hvs as (v & ? & _). by eexists. }
  assert (Hnv : NoDup (StoredVote.voter <$> vs))
    by (rewrite Hvoters; apply select_nodup, t_scan_nodup).
  assert (Hcast : ∀ v, v ∈ vs →
    ClaimState.validators st !! StoredVote.voter v = Some (Some (StoredVote.vote v))).
  { intros v Hv. destruct (Hvin v Hv) as (r & Hr%select_elem%t_scan_elem & Hp).
    specialize (Hvs (StoredVote.voter v)). rewrite Hr in Hvs.
    destruct Hvs as (v' & Hp' & Hm). congruence. }
  exists vs. split_and!; [done|done| |].
  - intros v Hv. rewrite empty_roster_lookup, decide_True; [done|]. apply Hin.
    rewrite (Hcast v Hv). by eexists.
  - apply map_eq. intros a.
    destruct (cast_all_lookup vs (empty_roster rows) a Hnv) as [(v & Hv & <- & ->)|[Hno ->]];
      [by rewrite Hcast|].
    rewrite empty_roster_lookup. destruct (decide (a ∈ rows)) as [Ha|Ha].
    + apply Hin in Ha as [[v|] Ha]; [|done]. exfalso.
      specialize (Hvs a). destruct (t_get (c, a) (Db.votes d)) as [r|] eqn:Hr;
        [|by apply (Hvs v)].
      assert (Hav : a ∈ StoredVote.voter <$> vs).
      { rewrite Hvoters. apply list_elem_of_fmap. exists (a, r). split; [done|].
        by apply select_elem, t_scan_elem. }
      apply list_elem_of_fmap in Hav as (u & Hua & Hu). by apply (Hno u).
    + destruct (ClaimState.validators st !! a) eqn:E; [|done]. exfalso. apply Ha, Hin.
      by eexists.
Qed.

(** The status [open] picks from a stored text. *)
Definition status_of_text (text : string) (tally : Tally.t) : result QuorumStatus BlackboardError :=
  if decide (text = "open") then Ok (Tally.status tally)
  else if decide (text = "reached") then Ok Reached
  else if decide (text = "unreachable") then Ok Unreachable
  else Err (BStore Malformed).

Lemma status_of_text_stored st text :
  state_ok st →
  (text = status_text (ClaimState.status st) ∨
   ClaimState.validators st = ∅ ∧ text = "open" ∧ ClaimState.status st = Reached) →
  status_of_text text (ClaimState.tally st) = Ok (Tally.status (ClaimState.tally st)).
Proof.
  intros (_ & _ & Hs) Ht. unfold status_of_text.
  destruct (decide (text = "open")) as [|Ho]; [done|].
  destruct Ht as [->|(_ & ? & _)]; [|done]. destruct Hs as [Hs|[Hs _]]; [|by rewrite Hs in Ho].
  rewrite Hs in *. by destruct (Tally.status (ClaimState.tally st)).
Qed.

Lemma restore_one c st d row :
  state_ok st → claim_stored c st d → t_get c (Db.claims d) = Some row →
  (let? stored := map_err BStore (read_claim d (c, row)) in restore_claim stored) =
  Ok (restored st).
Proof.
  intros Hok Hst Hg. pose proof (restored_base c st d Hok Hst) as Hbase.
  destruct (stored_votes c st d Hst) as (vs & Hread & Hnv & Hempty & Hroster).
  destruct Hst as ((row' & Hg' & Hturn & Hprop & Hbody & Hk & Hstat) & _).
  assert (row' = row) as -> by congruence.
  unfold read_claim. rewrite Hread. cbn [result_bind map_err]. unfold restore_claim.
  cbn [StoredClaim.k StoredClaim.proposer StoredClaim.status StoredClaim.turn StoredClaim.body].
  rewrite Hk, Nat2Z.id, Hprop. pose proof (state_ok_k_pos st Hok) as Hpos.
  replace (Nat.max (ClaimState.k st) 1) with (ClaimState.k st) by lia.
  rewrite Hbase. destruct (base_tally_wf st Hok) as [Hwf Hsz].
  pose proof (cast_all_votes vs _ Hnv Hempty) as Hperm.
  rewrite Hroster, empty_roster_votes, app_nil_r in Hperm.
  rewrite replay_spec; [|done|done|done|].
  2: { rewrite <- (length_fmap StoredVote.vote), <- Hperm.
       pose proof (votes_of_length (ClaimState.validators st)). lia. }
  rewrite Hroster, <- (tally_counts_perm _ _ _ Hperm).
  assert (Ht : ClaimState.tally st = tally_counts (base_tally st) (votes_of (ClaimState.validators st)))
    by apply Hok.
  rewrite <- Ht. fold (status_of_text (ClaimRow.status row) (ClaimState.tally st)).
  rewrite (status_of_text_stored st) by done. cbn [result_bind].
  unfold restored. by rewrite Hturn, Hbody.
Qed.

Lemma restore_all_spec d b rows acc :
  agree b d → (∀ c row, (c, row) ∈ rows → t_get c (Db.claims d) = Some row) →
  ∃ b', restore_all d rows acc = Ok b' ∧
    ∀ c, b' !! c = if decide (c ∈ rows.*1) then restored <$> b !! c else acc !! c.
Proof.
  intros Hb. revert acc. induction rows as [|[c row] rows IH]; intros acc Hrows.
  - exists acc. split; [done|]. intros c. by rewrite decide_False by set_solver.
  - assert (Hg : t_get c (Db.claims d) = Some row) by (apply Hrows; set_solver).
    pose proof (Hb c) as Hc. destruct (b !! c) as [st|] eqn:Hst;
      [|destruct Hc as [Hc _]; congruence].
    destruct Hc as [Hok Hstored].
    pose proof (restore_one c st d row Hok Hstored Hg) as Hr.
    apply result_bind_Ok in Hr as (stored & Hread & Hres).
    destruct (IH (<[c := restored st]> acc)) as (b' & Hb' & Hl);
      [intros c' r' Hr'; apply Hrows; set_solver|].
    exists b'. split; [by cbn [restore_all]; rewrite Hread; cbn [result_bind]; rewrite Hres|].
    intros c'. rewrite Hl, fmap_cons. destruct (decide (c' ∈ rows.*1)) as [Hin|Hno].
    + by rewrite decide_True by set_solver.
    + destruct (decide (c' = c)) as [->|Hne].
      * rewrite lookup_insert_eq, decide_True by set_solver. by rewrite Hst.
      * rewrite lookup_insert_ne, decide_False by set_solver. done.
Qed.

(** The board a crash leaves to be rebuilt. *)
Lemma open_board_agree b d :
  agree b d → open_board true d = Ok (restored <$> b).
Proof.
  intros Hb. unfold open_board.
  destruct (restore_all_spec d b (t_scan (Db.claims d)) ∅ Hb) as (b' & -> & Hl);
    [intros c row Hin; by apply t_scan_elem|].
  f_equal. apply map_eq. intros c. rewrite Hl, lookup_fmap, lookup_empty.
  case_decide as Hc; [done|]. specialize (Hb c). destruct (b !! c); [|done].
  destruct Hb as (_ & (row & Hg & _) & _). exfalso. apply Hc.
  apply list_elem_of_fmap. exists (c, row). split; [done|]. by apply t_scan_elem.
Qed.

Lemma agree_restored b d : agree b d → agree (restored <$> b) d.
Proof.
  intros Hb c. rewrite lookup_fmap. specialize (Hb c). destruct (b !! c) as [st|]; [|done].
  simpl. destruct Hb as [Hok (Hrow & Hro & Hvo)]. split.
  - destruct Hok as (Hr & Ht & _). split_and!; [done|done|by left].
  - split_and!; [|done|done].
    destruct Hrow as (row & Hg & Ht & Hp & Hb & Hk & Hs). exists row.
    split_and!; [done..|]. simpl. destruct Hok as (Hr & Hta & [Hst|[Hst He]]).
    + rewrite <- Hst. done.
    + right. destruct Hs as [Hs|(_ & _ & ?)]; [|congruence].
      split_and!; [done|by rewrite Hs, Hst|].
      rewrite Hta. unfold base_tally, is_blind in *. rewrite He, lookup_empty in *.
      rewrite bool_decide_eq_false_2 in * by naive_solver. rewrite andb_false_r in *.
      destruct Hr as [_ Hk1]. rewrite map_size_empty in Hk1. rewrite Hk1. done.
Qed.
End reopening.

(** ** Sessions of a board *)

Inductive board_op :=
| OpPublish (io : bool) (fresh : Id) (clock : option Z) (turn proposer : Id)
    (validators : list Id) (body : string)
| OpPublishBlind (io : bool) (fresh : Id) (clock : option Z) (turn proposer : Id) (body : string)
| OpVote (io : bool) (claim voter : Id) (verdict : Verdict.t)
| OpVoteBlind (io : bool) (claim voter : Id) (verdict : Verdict.t)
(** The process dies: the board is rebuilt from the tables. *)
| OpCrash.

Section sessions.
Context (sql_length : string → nat).
Context {CT VT WT : Type}
  `{TableLaws CT Id ClaimRow.t} `{TableLaws VT (Id * Id) unit} `{TableLaws WT (Id * Id) VoteRow.t}.
Implicit Types (d : Db.t CT VT WT) (b : gmap Id ClaimState.t).
Abbreviation state := (gmap Id ClaimState.t * Db.t CT VT WT)%type.

Definition apply_board_op (s : state) (o : board_op) : state :=
  let '(b, d) := s in
  match o with
  | OpPublish io fresh clock turn proposer validators body =>
      (publish sql_length io fresh clock turn proposer validators body b d).1
  | OpPublishBlind io fresh clock turn proposer body =>
      (publish_blind sql_length io fresh clock turn proposer body b d).1
  | OpVote io claim voter verdict => (vote sql_length io claim voter verdict b d).1
  | OpVoteBlind io claim voter verdict => (vote_blind sql_length io claim voter verdict b d).1
  | OpCrash => match open_board true d with Ok b => (b, d) | Err _ => (∅, d) end
  end.

Definition empty_state : state := (∅, Db.mk t_empty t_empty t_empty).

Definition run_board (ops : list board_op) (s : state) : state := foldl apply_board_op s ops.

(** What an operation may do to one claim. *)
Definition claim_step (st st' : ClaimState.t) : Prop :=
  st' = st ∨ st' = restored st ∨
  (ClaimState.status st = Open ∧ ∃ a v, ClaimState.validators st !! a = Some None ∧
     st' = voted st a v).

Lemma insert_step b c c' st st' st0 :
  b !! c = Some st → b !! c' = Some st0 → claim_step st st' →
  ∃ st1, <[c := st']> b !! c' = Some st1 ∧ claim_step st0 st1.
Proof.
  intros Hc Hc' Hs. destruct (decide (c = c')) as [->|Hne].
  - exists st'. rewrite lookup_insert_eq. split; [done|]. congruence.
  - exists st0. rewrite lookup_insert_ne by done. split; [done|by left].
Qed.

Lemma insert_fresh_step b c c' st st0 :
  b !! c = None → b !! c' = Some st0 →
  ∃ st1, <[c := st]> b !! c' = Some st1 ∧ claim_step st0 st1.
Proof.
  intros Hc Hc'. exists st0. rewrite lookup_insert_ne by congruence.
  split; [done|by left].
Qed.

Lemma apply_board_op_spec b d o b' d' :
  agree b d → apply_board_op (b, d) o = (b', d') →
  agree b' d' ∧
  ∀ c st, b !! c = Some st → ∃ st', b' !! c = Some st' ∧ claim_step st st'.
Proof.
  intros Hb Ha. assert (Hrefl : ∀ c st, b !! c = Some st →
    ∃ st', b !! c = Some st' ∧ claim_step st st') by (intros c st ?; exists st; by split; [|left]).
  destruct o as [io fresh clock turn proposer l body|io fresh clock turn proposer body|
    io c a verdict|io c a verdict|]; simpl in Ha.
  - destruct (publish _ _ _ _ _ _ _ _ _ _) as [[b1 d1] r] eqn:E. simplify_eq/=.
    apply (agree_published _ _ _ _ _ _ _ _ _ _ _ _ _ Hb) in E as (? & He & Hok). split; [done|].
    destruct r as [c|e]; [|destruct (He e eq_refl) as [Hbb _]; rewrite Hbb; exact Hrefl].
    destruct (Hok c eq_refl) as (-> & Hf & _ & _ & ->). intros. by apply insert_fresh_step.
  - destruct (publish_blind _ _ _ _ _ _ _ _ _) as [[b1 d1] r] eqn:E. simplify_eq/=.
    apply (agree_published_blind _ _ _ _ _ _ _ _ _ _ _ _ Hb) in E as (? & He & Hok). split; [done|].
    destruct r as [c|e]; [|destruct (He e eq_refl) as [Hbb _]; rewrite Hbb; exact Hrefl].
    destruct (Hok c eq_refl) as (-> & Hf & ->). intros. by apply insert_fresh_step.
  - destruct (vote _ _ _ _ _ _ _) as [[b1 d1] r] eqn:E. simplify_eq/=.
    apply (agree_vote _ _ _ _ _ _ _ _ _ _ Hb) in E as (? & He & Hok). split; [done|].
    destruct r as [out|e]; [|destruct (He e eq_refl) as [Hbb _]; rewrite Hbb; exact Hrefl].
    destruct (Hok out eq_refl) as (st & Hc & Ho & _ & Hv & -> & _). intros c' st0 Hc'.
    eapply insert_step; [exact Hc|exact Hc'|]. right; right. eauto.
  - destruct (vote_blind _ _ _ _ _ _ _) as [[b1 d1] r] eqn:E. simplify_eq/=.
    apply (agree_vote_blind _ _ _ _ _ _ _ _ _ _ Hb) in E as (? & He & Hok). split; [done|].
    destruct r as [out|e]; [|destruct (He e eq_refl) as [Hbb _]; rewrite Hbb; exact Hrefl].
    destruct (Hok out eq_refl) as (st & Hc & Ho & _ & _ & Hv & -> & _). intros c' st0 Hc'.
    eapply insert_step; [exact Hc|exact Hc'|]. right; right. eauto.
  - pose proof (open_board_agree b d Hb) as Ho. simpl in Ho. rewrite Ho in Ha. simplify_eq. split; [by apply agree_restored|].
    intros c st Hc. exists (restored st). rewrite lookup_fmap, Hc. split; [done|by right; left].
Qed.

Lemma agree_empty : agree (∅ : gmap Id ClaimState.t) (empty_state.2).
Proof.
  intros c. rewrite lookup_empty. split_and!; simpl; intros; apply t_get_empty.
Qed.

Lemma run_board_agree ops : agree (run_board ops empty_state).1 (run_board ops empty_state).2.
Proof.
  induction ops as [|o ops IH] using rev_ind; [apply agree_empty|].
  unfold run_board in *. rewrite foldl_app. simpl.
  destruct (foldl apply_board_op empty_state ops) as [b d].
  destruct (apply_board_op (b, d) o) as [b' d'] eqn:E. by apply (apply_board_op_spec _ _ _ _ _ IH) in E as [? _].
Qed.

Lemma empty_roster_reached st :
  state_ok st → ClaimState.validators st = ∅ →
  Tally.status (ClaimState.tally st) = Reached.
Proof.
  intros (Hr & -> & _) He. unfold base_tally, is_blind in *. rewrite He, lookup_empty in *.
  rewrite bool_decide_eq_false_2 in * by naive_solver. rewrite andb_false_r in *.
  destruct Hr as [_ Hk]. rewrite map_size_empty in Hk. by rewrite Hk.
Qed.

Lemma restored_cases st :
  state_ok st →
  restored st = st ∨
  (ClaimState.validators st = ∅ ∧ ClaimState.status st = Open ∧
   ClaimState.status (restored st) = Reached).
Proof.
  intros Hok. destruct (decide (ClaimState.validators st = ∅)) as [He|]; [|left; by apply restored_id].
  pose proof (empty_roster_reached st Hok He) as Hr.
  destruct Hok as (_ & _ & [Hs|[Hs _]]); [|by right].
  left. unfold restored. rewrite <- Hs. by destruct st.
Qed.

(** A closed claim and a cast vote are final. *)
Lemma claim_step_final st st' :
  state_ok st → claim_step st st' →
  (ClaimState.status st ≠ Open → st' = st) ∧
  (∀ a v, ClaimState.validators st !! a = Some (Some v) →
     ClaimState.validators st' !! a = Some (Some v)) ∧
  ClaimState.k st' = ClaimState.k st ∧ ClaimState.proposer st' = ClaimState.proposer st.
Proof.
  intros Hok [->|[->|(Ho & a & v & Ha & ->)]]; [done| |].
  - split; [|done]. intros Hne. by destruct (restored_cases st Hok) as [|(_ & ? & _)].
  - split_and!; [done| |done|done]. intros a' v' Ha'. simpl.
    rewrite lookup_insert_ne; [done|congruence].
Qed.

Lemma run_board_final ops s c st :
  agree s.1 s.2 → s.1 !! c = Some st →
  ∃ st', (run_board ops s).1 !! c = Some st' ∧
    (ClaimState.status st ≠ Open → st' = st) ∧
    (∀ a v, ClaimState.validators st !! a = Some (Some v) →
       ClaimState.validators st' !! a = Some (Some v)) ∧
    ClaimState.k st' = ClaimState.k st ∧ ClaimState.proposer st' = ClaimState.proposer st.
Proof.
  revert s st. induction ops as [|o ops IH]; intros [b d] st Hb Hc; [by exists st|].
  change (run_board (o :: ops) (b, d)) with (run_board ops (apply_board_op (b, d) o)).
  cbn [fst snd] in *. pose proof (Hb c) as Hok. rewrite Hc in Hok. destruct Hok as [Hok _].
  destruct (apply_board_op (b, d) o) as [b' d'] eqn:E.
  destruct (apply_board_op_spec _ _ _ _ _ Hb E) as [Hb' Hstep].
  destruct (Hstep c st Hc) as (st1 & Hc1 & Hs).
  apply claim_step_final in Hs as (Hf & Hv & Hk & Hp); [|done].
  destruct (IH (b', d') st1 Hb' Hc1) as (st2 & Hc2 & Hf2 & Hv2 & Hk2 & Hp2).
  exists st2. split_and!; [exact Hc2| |auto|congruence..].
  intros Hne. rewrite Hf2; [by apply Hf|]. by rewrite Hf.
Qed.
End sessions.

(** ** Properties *)

(** C3. A crash loses no vote and forgets no verdict.  After any sequence of
    publications, votes and crashes, over a database that may fail at any
    operation, reopening succeeds and rebuilds every claim exactly as it was in
    memory: body, cohort, roster, each vote, tally and status.  The one exception
    is a claim published with no validators: nobody can vote on it, so it stays
    open in memory although its tally already reads [Reached], and reopening turns
    it into a reached claim. *)
Theorem board_crash_recovery (sql_length : string → nat) (CT VT WT : Type)
    (HC : Table CT Id ClaimRow.t) (HV : Table VT (Id * Id) unit) (HW : Table WT (Id * Id) VoteRow.t)
    (LC : TableLaws CT Id ClaimRow.t) (LV : TableLaws VT (Id * Id) unit)
    (LW : TableLaws WT (Id * Id) VoteRow.t) (ops : list board_op) :
  let '(b, d) := run_board sql_length ops (empty_state : gmap Id ClaimState.t * Db.t CT VT WT) in
  ∃ b', open_board true d = Ok b' ∧
    (∀ c, b' !! c = restored <$> b !! c) ∧
    ∀ c st, b !! c = Some st →
      restored st = st ∨
      (ClaimState.validators st = ∅ ∧ ClaimState.status st = Open ∧
       ClaimState.status (restored st) = Reached).
Proof.
  pose proof (run_board_agree sql_length ops (CT := CT) (VT := VT) (WT := WT)) as Hb.
  destruct (run_board _ _ _) as [b d]. simpl in Hb.
  exists (restored <$> b). split_and!; [by apply open_board_agree|intros c; apply lookup_fmap|].
  intros c st Hc. specialize (Hb c). rewrite Hc in Hb. apply restored_cases, Hb.
Qed.

Lemma board_crash_recovery_witness :
  let ops := [OpPublish true 9%N (Some 1%Z) 1%N 2%N [3%N; 4%N] "claim";
              OpVote true 9%N 3%N (Verdict.mk Yes High "" None)] in
  ∃ b', open_board true (run_board String.length ops (empty_state :
      gmap Id ClaimState.t * Db.t (gmap N ClaimRow.t) (gmap (N * N) unit) (gmap (N * N) VoteRow.t))).2
    = Ok b'.
Proof.
  intros ops.
  pose proof (board_crash_recovery String.length (gmap N ClaimRow.t) (gmap (N * N) unit)
    (gmap (N * N) VoteRow.t) _ _ _ _ _ _ ops) as H.
  destruct (run_board _ _ _) as [b d]. destruct H as (b' & Hb' & _). exists b'. exact Hb'.
Defined.

(** A roster member's first vote on an open claim is counted. *)
Lemma vote_counted (sql_length : string → nat) {CT VT WT : Type}
    `{TableLaws CT Id ClaimRow.t} `{TableLaws VT (Id * Id) unit} `{TableLaws WT (Id * Id) VoteRow.t}
    (b : gmap Id ClaimState.t) (d : Db.t CT VT WT) c a verdict st :
  (∀ s, sql_length s ≤ String.length s) → Verdict.within_budget verdict → agree b d →
  b !! c = Some st → ClaimState.status st = Open → a ≠ ClaimState.proposer st →
  ClaimState.validators st !! a = Some None →
  ∃ b' d' o, vote sql_length true c a verdict b d = (b', d', Ok o).
Proof.
  intros Hsql Hbudget Hb Hc Ho Hp Ha. specialize (Hb c). rewrite Hc in Hb.
  destruct Hb as [Hst ((row & Hg & _ & _ & _ & _ & Hs) & _ & Hvs)].
  unfold vote. rewrite Hc, Ho. simpl. rewrite bool_decide_eq_false_2 by done.
  unfold put_back, record_vote. rewrite Ha.
  assert (Hr := proj2 (tally_record_Ok (ClaimState.tally st) (Verdict.vote verdict) _ _)
    (conj (state_ok_pending st a Hst Ha) (conj eq_refl eq_refl))).
  rewrite Hr. unfold with_transaction.
  destruct (vote_transaction_total sql_length c a verdict
    (Tally.status (Tally.count (ClaimState.tally st) (Verdict.vote verdict))) d row Hbudget Hsql)
    as [d1 Hd1]; [|done| |].
  - specialize (Hvs a). destruct (t_get (c, a) (Db.votes d)); [|done].
    destruct Hvs as (v & _ & Hv). congruence.
  - destruct Hs as [Hs|(_ & _ & Hs)]; [by rewrite Hs, Ho|congruence].
  - rewrite Hd1. by do 3 eexists.
Qed.

(** C5. Exactly the roster votes, once each.  After any session, [vote] over a
    working database counts a vote if and only if the claim exists and is open, the
    voter is not its proposer, is on its roster and has not voted; it then changes
    that claim alone, by exactly one counted vote, and reports the status the new
    tally has.  A refused or failed vote - a database failure included - changes
    neither the board nor the tables. *)
Theorem vote_exact (sql_length : string → nat) (CT VT WT : Type)
    (HC : Table CT Id ClaimRow.t) (HV : Table VT (Id * Id) unit) (HW : Table WT (Id * Id) VoteRow.t)
    (LC : TableLaws CT Id ClaimRow.t) (LV : TableLaws VT (Id * Id) unit)
    (LW : TableLaws WT (Id * Id) VoteRow.t)
    (Hsql : ∀ s, sql_length s ≤ String.length s)
    (ops : list board_op) (io : bool) (c a : Id) (verdict : Verdict.t)
    (Hbudget : Verdict.within_budget verdict) :
  let '(b, d) := run_board sql_length ops (empty_state : gmap Id ClaimState.t * Db.t CT VT WT) in
  let '(b', d', r) := vote sql_length io c a verdict b d in
  (is_ok r = true ↔
     io = true ∧ ∃ st, b !! c = Some st ∧ ClaimState.status st = Open ∧
       a ≠ ClaimState.proposer st ∧ ClaimState.validators st !! a = Some None) ∧
  (∀ o, r = Ok o → ∃ st, b !! c = Some st ∧
     b' = <[c := voted st a (Verdict.vote verdict)]> b ∧
     Outcome.tally o = Tally.count (ClaimState.tally st) (Verdict.vote verdict) ∧
     Outcome.status o = Tally.status (Outcome.tally o)) ∧
  (∀ e, r = Err e → b' = b ∧ d' = d).
Proof.
  pose proof (run_board_agree sql_length ops (CT := CT) (VT := VT) (WT := WT)) as Hb.
  destruct (run_board _ _ _) as [b d]. simpl in Hb.
  destruct (vote sql_length io c a verdict b d) as [[b' d'] r] eqn:E.
  destruct (agree_vote _ _ _ _ _ _ _ _ _ _ Hb E) as (_ & He & Hok). split_and!; [|..|done].
  - split.
    + destruct r as [o|]; [|done]. intros _. destruct (Hok o eq_refl) as (st & ? & ? & ? & ? & _).
      split; [|by exists st]. unfold vote, put_back, record_vote, with_transaction in E.
      by destruct io; [|repeat case_match; simplify_eq].
    + intros (-> & st & Hc & Ho & Hp & Ha).
      destruct (vote_counted sql_length b d c a verdict st) as (b1 & d1 & o & Ho'); try done.
      by rewrite Ho' in E; simplify_eq.
  - intros o Hr. destruct (Hok o Hr) as (st & ? & _ & _ & _ & ? & ->). by exists st.
Qed.

Lemma vote_exact_witness :
  (∀ s, String.length s ≤ String.length s) ∧
  Verdict.within_budget (Verdict.mk Yes High "" None) ∧
  let '(b, d) := run_board String.length [] (empty_state :
      gmap Id ClaimState.t * Db.t (gmap N ClaimRow.t) (gmap (N * N) unit) (gmap (N * N) VoteRow.t)) in
  let '(b', d', r) := vote String.length true 1%N 2%N (Verdict.mk Yes High "" None) b d in
  ∀ e, r = Err e → b' = b ∧ d' = d.
Proof.
  assert (Hs : ∀ s, String.length s ≤ String.length s) by done.
  assert (Hw : Verdict.within_budget (Verdict.mk Yes High "" None)) by (split; simpl; lia || done).
  split; [exact Hs|]. split; [exact Hw|].
  pose proof (vote_exact String.length (gmap N ClaimRow.t) (gmap (N * N) unit)
    (gmap (N * N) VoteRow.t) _ _ _ _ _ _ Hs [] true 1%N 2%N (Verdict.mk Yes High "" None) Hw) as H.
  destruct (run_board _ _ _) as [b d]. destruct (vote _ _ _ _ _ _ _) as [[b' d'] r].
  exact (proj2 (proj2 H)).
Defined.

(** A reached claim was carried by a real quorum, and verdicts are final.
    After any session, a claim whose status is [Reached] has a quorum of its cohort
    in favour - distinct roster members' yes votes, plus the proposer's own unless
    the claim is a blind rederivation - and one whose status is [Unreachable] could
    not be carried even if every silent seat said yes; and whatever happens next,
    crashes included, a closed claim never changes, a cast vote is never lost or
    altered, and no claim disappears or changes its proposer or cohort size. *)
Theorem board_verdicts_sound (sql_length : string → nat) (CT VT WT : Type)
    (HC : Table CT Id ClaimRow.t) (HV : Table VT (Id * Id) unit) (HW : Table WT (Id * Id) VoteRow.t)
    (LC : TableLaws CT Id ClaimRow.t) (LV : TableLaws VT (Id * Id) unit)
    (LW : TableLaws WT (Id * Id) VoteRow.t) (ops : list board_op) (c : Id) (st : ClaimState.t)
    (Hc : (run_board sql_length ops
             (empty_state : gmap Id ClaimState.t * Db.t CT VT WT)).1 !! c = Some st) :
  let proposer_vote := if is_blind st then 0 else 1 in
  let votes := votes_of (ClaimState.validators st) in
  (ClaimState.status st = Reached →
     quorum (ClaimState.k st) ≤ proposer_vote + length (filter (.= Yes) votes)) ∧
  (ClaimState.status st = Unreachable →
     ClaimState.k st < quorum (ClaimState.k st) +
       length (filter (.= No) votes) + length (filter (.= Abstain) votes)) ∧
  (∀ more, ∃ st',
     (run_board sql_length (ops ++ more)
        (empty_state : gmap Id ClaimState.t * Db.t CT VT WT)).1 !! c = Some st' ∧
     (ClaimState.status st ≠ Open → st' = st) ∧
     (∀ a v, ClaimState.validators st !! a = Some (Some v) →
        ClaimState.validators st' !! a = Some (Some v)) ∧
     ClaimState.k st' = ClaimState.k st ∧ ClaimState.proposer st' = ClaimState.proposer st).
Proof.
  intros proposer_vote votes.
  pose proof (run_board_agree sql_length ops (CT := CT) (VT := VT) (WT := WT)) as Hb.
  assert (Hok : state_ok st) by (specialize (Hb c); rewrite Hc in Hb; apply Hb).
  assert (Hfields : Tally.k (ClaimState.tally st) = ClaimState.k st ∧
    Tally.needed (ClaimState.tally st) = quorum (ClaimState.k st) ∧
    Tally.yes (ClaimState.tally st) = proposer_vote + length (filter (.= Yes) votes) ∧
    Tally.no (ClaimState.tally st) = length (filter (.= No) votes) ∧
    Tally.abstain (ClaimState.tally st) = length (filter (.= Abstain) votes)).
  { destruct Hok as (_ & -> & _).
    pose proof (tally_counts_fields (base_tally st) votes) as (? & ? & ? & ? & ?).
    subst proposer_vote votes. unfold base_tally in *. destruct (is_blind st); simpl in *; lia. }
  destruct (base_tally_wf st Hok) as [_ Hsz].
  pose proof (votes_split votes). pose proof (votes_of_length (ClaimState.validators st)).
  assert (Hlen : length votes + proposer_vote ≤ ClaimState.k st).
  { subst proposer_vote votes. unfold base_tally, Tally.pending in Hsz.
    destruct Hok as (Hr & _). pose proof (state_ok_k_pos st) as Hk.
    destruct (is_blind st); simpl in *; lia. }
  split_and!.
  - intros Hs. destruct Hok as (_ & _ & [Hst|[? _]]); [|congruence].
    rewrite Hs in Hst. symmetry in Hst. apply tally_status_Reached in Hst. lia.
  - intros Hs. destruct Hok as (_ & _ & [Hst|[? _]]); [|congruence].
    rewrite Hs in Hst. symmetry in Hst. apply tally_status_Unreachable in Hst.
    unfold Tally.pending in Hst. lia.
  - intros more. unfold run_board. rewrite foldl_app. by apply run_board_final.
Qed.

Lemma board_verdicts_sound_witness :
  let ops := [OpPublish true 9%N (Some 1%Z) 1%N 2%N [3%N; 4%N] "claim";
              OpVote true 9%N 3%N (Verdict.mk Yes High "" None)] in
  let b := (run_board String.length ops (empty_state :
      gmap Id ClaimState.t * Db.t (gmap N ClaimRow.t) (gmap (N * N) unit) (gmap (N * N) VoteRow.t))).1 in
  ∃ st, b !! 9%N = Some st ∧ ClaimState.status st = Reached ∧ quorum (ClaimState.k st) ≤ 1 + 1.
Proof.
  intros ops b. destruct (b !! 9%N) as [st|] eqn:Hc; [|vm_compute in Hc; discriminate].
  exists st.
  pose proof (board_verdicts_sound String.length (gmap N ClaimRow.t) (gmap (N * N) unit)
    (gmap (N * N) VoteRow.t) _ _ _ _ _ _ ops 9%N st Hc) as [Hq _].
  vm_compute in Hc. injection Hc as <-. split; [reflexivity|]. split; [reflexivity|].
  exact (Hq eq_refl).
Defined.
