(* ===== verification/Money.v ===== *)
(** * Money in integers: [supra_types/src/money.rs]

    An amount is a signed 64-bit count of micro-dollars.  Arithmetic that leaves
    the type aborts ([None]), as it does under the workspace's overflow checks;
    [saturating_mul] and [unwrap_or(u32::MAX)] clamp. *)

From stdpp Require Import pretty.
From S2P Require Import Prelude Text.

Module MicroUsd.
Definition ZERO : Z := 0.
Definition PER_DOLLAR : Z := 1000000.

(** Each product is checked; the quotient rounds toward zero. *)
Definition for_tokens (tokens per_mtok_micros multiplier_percent : Z) : option Z :=
  product ← check_i64 (tokens * per_mtok_micros)%Z;
  product ← check_i64 (product * multiplier_percent)%Z;
  Some (Z.quot product (PER_DOLLAR * 100)).

Definition saturating_mul (a b : Z) : Z := Z.min (a * b) u64_max.

Definition drift_percent_from (self reference : Z) : Z :=
  let magnitude := Z.abs reference in
  if (magnitude =? 0)%Z then 0
  else clamp_u32 (Z.quot (saturating_mul (Z.abs (self - reference)) 100) magnitude).

Definition add (a b : Z) : option Z := check_i64 (a + b)%Z.
Definition sub (a b : Z) : option Z := check_i64 (a - b)%Z.

(** [iter.fold(Self::ZERO, Add::add)]. *)
Definition sum (l : list Z) : option Z :=
  foldl (λ acc x, a ← acc; add a x) (Some ZERO) l.

(** [{:03}]. *)
Definition pad3 (n : N) : string :=
  (if (n <? 10)%N then "00" else if (n <? 100)%N then "0" else "") +:+ pretty n.

Definition display (m : Z) : string :=
  let sign := if (m <? 0)%Z then "-" else "" in
  let millis := Z.to_N (Z.quot (Z.abs m) 1000) in
  sign +:+ "$" +:+ pretty (millis `div` 1000)%N +:+ "." +:+ pad3 (millis `mod` 1000)%N.
End MicroUsd.

Example display_examples :
  MicroUsd.display 14000 = "$0.014" ∧ MicroUsd.display (-1500000) = "-$1.500" ∧
  MicroUsd.display 999 = "$0.000".
Proof. done. Qed.

Lemma for_tokens_Some tokens rate percent cost :
  MicroUsd.for_tokens tokens rate percent = Some cost ↔
  (i64_min ≤ tokens * rate ≤ i64_max)%Z ∧
  (i64_min ≤ tokens * rate * percent ≤ i64_max)%Z ∧
  cost = Z.quot (tokens * rate * percent) 100000000.
Proof.
  unfold MicroUsd.for_tokens, mbind, option_bind.
  destruct (check_i64 (tokens * rate)) as [p|] eqn:E1.
  - apply check_i64_Some in E1 as [-> H1].
    destruct (check_i64 (tokens * rate * percent)) as [q|] eqn:E2.
    + apply check_i64_Some in E2 as [-> H2]. change (MicroUsd.PER_DOLLAR * 100)%Z with 100000000%Z.
      split; [by intros [= <-]|by intros (_ & _ & ->)].
    + split; [done|]. intros (_ & H2 & _).
      assert (check_i64 (tokens * rate * percent) = Some (tokens * rate * percent)%Z)
        by by apply check_i64_Some. congruence.
  - split; [done|]. intros (H1 & _ & _).
    assert (check_i64 (tokens * rate) = Some (tokens * rate)%Z) by by apply check_i64_Some.
    congruence.
Qed.

(** A running total never passes through an overflow exactly when every prefix sum
    fits. *)
Lemma sum_Some l s :
  MicroUsd.sum l = Some s ↔
  s = sum_Z l ∧ ∀ n, n ≤ length l → (i64_min ≤ sum_Z (take n l) ≤ i64_max)%Z.
Proof.
  unfold MicroUsd.sum. revert s. induction l as [|x l IH] using rev_ind; intros s.
  - simpl. split.
    + intros [= <-]. split; [done|]. intros n Hn. assert (n = 0) as -> by lia.
      simpl. unfold i64_min, i64_max. lia.
    + by intros [-> _].
  - rewrite foldl_app, sum_Z_app. simpl. split.
    + intros (a & Ha & Hs)%bind_Some. apply IH in Ha as [-> Hpre].
      apply check_i64_Some in Hs as [-> Hb]. split; [lia|]. intros n Hn.
      rewrite length_app in Hn. simpl in Hn.
      destruct (decide (n ≤ length l)); [rewrite take_app_le by done; by apply Hpre|].
      rewrite take_ge by (rewrite length_app; simpl; lia). rewrite sum_Z_app. simpl. lia.
    + intros [-> Hpre]. apply bind_Some. exists (sum_Z l). split.
      * apply IH. split; [done|]. intros n Hn. specialize (Hpre n).
        rewrite length_app, take_app_le in Hpre by done. apply Hpre. lia.
      * apply check_i64_Some. split; [lia|].
        specialize (Hpre (length (l ++ [x])) (le_n _)).
        rewrite take_ge, sum_Z_app in Hpre by lia. simpl in Hpre. lia.
Qed.

(** Money arithmetic is exact or it aborts.  [for_tokens] is defined exactly
    when both products fit 64 bits, and for non-negative inputs then under-reports
    the true cost by less than one micro-dollar and grows with the tokens; a
    session's [sum] is the exact sum, defined exactly when every running total fits;
    and [drift_percent_from] is the true percentage, rounded down and capped at
    [u32::MAX], whenever the difference is at most [u64::MAX / 100]. *)
Theorem money_exact (tokens rate percent : Z)
    (Ht : (0 ≤ tokens)%Z) (Hr : (0 ≤ rate)%Z) (Hp : (0 ≤ percent)%Z) :
  (∀ cost, MicroUsd.for_tokens tokens rate percent = Some cost →
     (cost * 100000000 ≤ tokens * rate * percent < (cost + 1) * 100000000)%Z) ∧
  (is_Some (MicroUsd.for_tokens tokens rate percent) ↔
     (tokens * rate ≤ i64_max ∧ tokens * rate * percent ≤ i64_max)%Z) ∧
  (∀ tokens' cost cost', (tokens ≤ tokens')%Z →
     MicroUsd.for_tokens tokens rate percent = Some cost →
     MicroUsd.for_tokens tokens' rate percent = Some cost' → (cost ≤ cost')%Z) ∧
  (∀ l s, MicroUsd.sum l = Some s ↔
     s = sum_Z l ∧ ∀ n, n ≤ length l → (i64_min ≤ sum_Z (take n l) ≤ i64_max)%Z) ∧
  (∀ actual reference, (reference ≠ 0)%Z → (Z.abs (actual - reference) * 100 ≤ u64_max)%Z →
     MicroUsd.drift_percent_from actual reference =
       Z.min u32_max ((Z.abs (actual - reference) * 100) `div` Z.abs reference)).
Proof.
  assert (Hpos : (0 ≤ tokens * rate)%Z) by (by apply Z.mul_nonneg_nonneg).
  assert (Hpos' : (0 ≤ tokens * rate * percent)%Z) by (by apply Z.mul_nonneg_nonneg).
  split_and!.
  - intros cost (_ & _ & ->)%for_tokens_Some. rewrite Z.quot_div_nonneg by lia.
    pose proof (Z.div_mod (tokens * rate * percent) 100000000).
    pose proof (Z.mod_pos_bound (tokens * rate * percent) 100000000). lia.
  - split.
    + intros [cost (? & ? & _)%for_tokens_Some]. lia.
    + intros [? ?]. eexists. apply for_tokens_Some. unfold i64_min. split_and!; [lia..|done].
  - intros tokens' cost cost' Hle (_ & _ & ->)%for_tokens_Some (_ & _ & ->)%for_tokens_Some.
    assert ((tokens * rate * percent ≤ tokens' * rate * percent)%Z).
    { apply Z.mul_le_mono_nonneg_r; [done|]. by apply Z.mul_le_mono_nonneg_r. }
    rewrite !Z.quot_div_nonneg by lia. by apply Z.div_le_mono.
  - intros l s. apply sum_Some.
  - intros actual reference Hne Hb. unfold MicroUsd.drift_percent_from, MicroUsd.saturating_mul.
    destruct (Z.eqb_spec (Z.abs reference) 0); [lia|].
    rewrite Z.min_l by lia. rewrite Z.quot_div_nonneg by lia.
    unfold clamp_u32.
    generalize ((Z.abs (actual - reference) * 100) `div` Z.abs reference)%Z. intros q.
    destruct (Z.leb_spec q u32_max); lia.
Qed.

Lemma money_exact_witness :
  (0 ≤ 5400)%Z ∧
  (MicroUsd.for_tokens 5400 5000000 10 = Some 2700%Z →
   2700 * 100000000 ≤ 5400 * 5000000 * 10 < (2700 + 1) * 100000000)%Z.
Proof.
  split; [lia|].
  apply (proj1 (money_exact 5400 5000000 10 ltac:(lia) ltac:(lia) ltac:(lia))).
Defined.
