(* ===== verification/Lineage.v ===== *)
(** * Lineage: [supra_types/src/lineage.rs]

    The chain of agents from the host to one peer, and the two refusals that keep
    it flat. *)

From S2P Require Import Prelude Sealing.

Inductive LineageError :=
| SelfSpawn (id : Id) (at_depth : nat)
| MaxDepthExceeded (attempted : nat)
| Empty.

#[export] Instance LineageError_eq_dec : EqDecision LineageError.
Proof. solve_decision. Defined.

Module Lineage.
Record t := mk { chain : list Id }.

Definition MAX_DEPTH : nat := 1.

Definition root (host : Id) : t := mk [host].

(** [len - 1]: a chain always holds at least the root. *)
Definition depth (l : t) : nat := length (chain l) - 1.

Definition root_id (l : t) : Id := default 0%N (head (chain l)).
Definition agent_id (l : t) : Id := default 0%N (last (chain l)).

Definition parent_id (l : t) : option Id :=
  if length (chain l) <? 2 then None else chain l !! (length (chain l) - 2).

Definition contains (l : t) (id : Id) : bool := bool_decide (id ∈ chain l).
Definition would_self_spawn (l : t) (id : Id) : bool := contains l id.
Definition can_extend (l : t) : bool := depth l <? MAX_DEPTH.

Definition child (l : t) (id : Id) : result t LineageError :=
  match position id (chain l) with
  | Some at_depth => Err (SelfSpawn id at_depth)
  | None =>
      let depth := depth l + 1 in
      if MAX_DEPTH <? depth then Err (MaxDepthExceeded depth)
      else Ok (mk (chain l ++ [id]))
  end.

Fixpoint children (l : t) (ids : list Id) : result t LineageError :=
  match ids with
  | [] => Ok l
  | id :: ids => let? l := child l id in children l ids
  end.

(** [TryFrom<LineageRepr>]. *)
Definition try_from (chain : list Id) : result t LineageError :=
  match chain with
  | [] => Err Empty
  | host :: chain => children (root host) chain
  end.

(** Every lineage the interface builds. *)
Inductive reachable : t → Prop :=
| reachable_root host : reachable (root host)
| reachable_child l id l' : reachable l → child l id = Ok l' → reachable l'.
End Lineage.

Lemma child_Ok l id l' :
  Lineage.child l id = Ok l' ↔
  (id ∉ Lineage.chain l) ∧ length (Lineage.chain l) ≤ 1 ∧
  l' = Lineage.mk (Lineage.chain l ++ [id]).
Proof.
  unfold Lineage.child. destruct (position id (Lineage.chain l)) as [at_depth|] eqn:E.
  - split; [done|]. intros (Hn & _). exfalso. apply Hn.
    apply position_Some in E. by eapply list_elem_of_lookup_2.
  - apply position_None in E. unfold Lineage.MAX_DEPTH, Lineage.depth.
    destruct (Nat.ltb_spec 1 (length (Lineage.chain l) - 1 + 1)); split.
    + done.
    + intros (_ & ? & _). lia.
    + intros [= <-]. split_and!; [done|lia|done].
    + by intros (_ & _ & ->).
Qed.

Lemma reachable_shape l :
  Lineage.reachable l → ∃ host, Lineage.chain l = [host] ∨
    ∃ peer, peer ≠ host ∧ Lineage.chain l = [host; peer].
Proof.
  induction 1 as [host|l id l' _ (host & Hl) Hc]; [exists host; by left|].
  apply child_Ok in Hc as (Hn & Hlen & ->). exists host.
  destruct Hl as [Hl|(peer & _ & Hl)]; rewrite Hl in *; simpl in *; [|lia].
  right. exists id. split; [set_solver|done].
Qed.

Lemma try_from_Ok chain l :
  Lineage.try_from chain = Ok l ↔
  l = Lineage.mk chain ∧ chain ≠ [] ∧ length chain ≤ 2 ∧ NoDup chain.
Proof.
  destruct chain as [|host [|peer [|third rest]]]; simpl.
  - split; [done|]. by intros (_ & ? & _).
  - split.
    + intros [= <-]. split_and!; [done|done|lia|apply NoDup_singleton].
    + by intros (-> & _).
  - rewrite result_bind_Ok. split.
    + intros (l' & Hc & [= <-]). apply child_Ok in Hc as (Hn & _ & ->). simpl in *.
      split_and!; [done|done|lia|]. apply NoDup_cons. split; [set_solver|apply NoDup_singleton].
    + intros (-> & _ & _ & [Hn _]%NoDup_cons). eexists. split; [|done]. apply child_Ok.
      simpl. split_and!; [set_solver|lia|done].
  - rewrite result_bind_Ok. split.
    + intros (l' & Hc & Hr). apply child_Ok in Hc as (_ & _ & ->). simpl in Hr.
      rewrite result_bind_Ok in Hr. destruct Hr as (l'' & Hc & _).
      apply child_Ok in Hc as (_ & Hlen & _). simpl in Hlen. lia.
    + intros (_ & _ & ? & _). simpl in *. lia.
Qed.

(** The agent system is flat and no model spawns itself.  A lineage built by
    any sequence of [root] and [child] is a host alone or a host and one different
    peer; [child] succeeds exactly on a host extended by another identity, refuses
    an identity already in the chain as [SelfSpawn] at its position before it
    considers depth, and refuses any nesting; and a stored chain is accepted
    exactly when [child] could have built it, and then restored unchanged. *)
Theorem lineage_flat (l : Lineage.t) (Hl : Lineage.reachable l) :
  Lineage.depth l ≤ Lineage.MAX_DEPTH ∧ NoDup (Lineage.chain l) ∧
  (∀ id, is_ok (Lineage.child l id) = true ↔
     Lineage.can_extend l = true ∧ Lineage.would_self_spawn l id = false) ∧
  (∀ id, Lineage.would_self_spawn l id = true →
     ∃ i, Lineage.chain l !! i = Some id ∧ Lineage.child l id = Err (SelfSpawn id i)) ∧
  (Lineage.depth l = 0 → Lineage.parent_id l = None) ∧
  (Lineage.depth l = 1 → Lineage.parent_id l = Some (Lineage.root_id l) ∧
     Lineage.agent_id l ≠ Lineage.root_id l) ∧
  Lineage.try_from (Lineage.chain l) = Ok l ∧
  (∀ chain l', Lineage.try_from chain = Ok l' → Lineage.reachable l' ∧ Lineage.chain l' = chain).
Proof.
  assert (Hstored : ∀ chain l', Lineage.try_from chain = Ok l' →
    Lineage.reachable l' ∧ Lineage.chain l' = chain).
  { intros chain l' Ht. pose proof Ht as (-> & Hne & Hlen & Hn)%try_from_Ok. split; [|done].
    destruct chain as [|host [|peer [|]]]; simpl in *; [done|constructor| |lia].
    apply NoDup_cons in Hn as [Hn _].
    apply (Lineage.reachable_child (Lineage.root host) peer); [constructor|].
    apply child_Ok. simpl. split_and!; [set_solver|lia|done]. }
  assert (Hself : ∀ id, Lineage.would_self_spawn l id = true →
    ∃ i, Lineage.chain l !! i = Some id ∧ Lineage.child l id = Err (SelfSpawn id i)).
  { intros id Hs. unfold Lineage.would_self_spawn, Lineage.contains in Hs. to_prop.
    unfold Lineage.child. destruct (position id (Lineage.chain l)) as [i|] eqn:E.
    - exists i. split; [by apply position_Some|done].
    - by apply position_None in E. }
  apply reachable_shape in Hl as (host & Hl).
  assert (Hlen : 1 ≤ length (Lineage.chain l) ≤ 2) by (destruct Hl as [->|(? & _ & ->)]; simpl; lia).
  split_and!; [..|done].
  - unfold Lineage.depth, Lineage.MAX_DEPTH. lia.
  - destruct Hl as [->|(peer & Hne & ->)]; [apply NoDup_singleton|].
    apply NoDup_cons. split; [set_solver|apply NoDup_singleton].
  - intros id. unfold Lineage.can_extend, Lineage.would_self_spawn, Lineage.contains,
      Lineage.depth, Lineage.MAX_DEPTH.
    rewrite Nat.ltb_lt, bool_decide_eq_false. split.
    + destruct (Lineage.child l id) as [l'|] eqn:E; [|done]. intros _.
      apply child_Ok in E as (? & ? & _). split; [lia|done].
    + intros [Hd Hn]. assert (Hone : length (Lineage.chain l) ≤ 1) by lia.
      by rewrite (proj2 (child_Ok l id _) (conj Hn (conj Hone eq_refl))).
  - done.
  - intros Hd. unfold Lineage.depth in Hd. unfold Lineage.parent_id.
    destruct (Nat.ltb_spec (length (Lineage.chain l)) 2); [done|lia].
  - unfold Lineage.depth, Lineage.parent_id, Lineage.root_id, Lineage.agent_id.
    destruct Hl as [->|(peer & Hne & ->)]; simpl; [lia|done].
  - apply try_from_Ok. destruct l as [chain]. simpl in *. split_and!; [done| |lia|].
    + by destruct Hl as [->|(? & _ & ->)].
    + destruct Hl as [->|(peer & Hne & ->)]; [apply NoDup_singleton|].
      apply NoDup_cons. split; [set_solver|apply NoDup_singleton].
Qed.

Lemma lineage_flat_witness :
  Lineage.reachable (Lineage.root 7%N) ∧ Lineage.depth (Lineage.root 7%N) ≤ Lineage.MAX_DEPTH.
Proof.
  split; [constructor|]. apply (lineage_flat (Lineage.root 7%N)). constructor.
Defined.
