(* ===== verification/Event.v ===== *)
(** * Events and topics: [supra_types/src/event.rs], [supra_eventbus/src/topic.rs]

    Every event the harness emits with the topic it travels on, and the topic
    sets a subscription filters by.  Counters are [Z], text is its bytes. *)

From S2P Require Import Prelude Sealing Cohort Permission Breakpoints.

Inductive Topic :=
| TSession | TTurn | TPrompt | TCache | TProvider | TCohort | TTool | TGate | TGuard
| TJournal | TDigest.

#[export] Instance Topic_eq_dec : EqDecision Topic.
Proof. solve_decision. Defined.

Definition Topic_ALL : list Topic :=
  [TSession; TTurn; TPrompt; TCache; TProvider; TCohort; TTool; TGate; TGuard; TJournal; TDigest].

Inductive CacheBreakCause :=
| ToolManifestChanged
| SystemContractChanged
| MemoryIndexChanged
| HistoryRewritten
| VolatileDataInPrefix
| ThinkingBudgetChanged
| NonDeterministicSerialisation.

Module Event.
Inductive t :=
(** Session *)
| SessionStarted (session : Id)
| SessionResumed (session : Id)
| SessionEnded (session : Id)
(** Turn *)
| TurnStarted (turn : Id)
| TurnCompleted (turn : Id)
| TurnFailed (turn : Id) (reason : string)
(** Prompt *)
| SegmentSealed (seq : N) (hash : ContentHash)
| BreakpointPlaced (breakpoint : Breakpoint)
| PrefixPadded (before added : Z)
| TurnsEvicted (count bytes : Z)
| RecallServed (turn : Id)
| GenerationRewritten (generation cost : Z)
(** Cache *)
| CacheHit
| CacheWrite (hours : bool)
| CacheBreak (cause : CacheBreakCause) (detail : string)
(** Provider *)
| RequestSent (agent : Id)
| FirstByte (agent : Id)
| WarmupComplete (shard : Z)
| FanOut (shard peers : Z)
| StreamDelta (chars : Z)
| ThinkingDelta (chars : Z)
| RequestFailed (agent : Id) (will_retry : bool)
| RateLimited (retry_after_ms : Z)
| UsageReported (agent : Id) (cached_read cached_write uncached output cost : Z)
| UsageDrift (estimated actual percent : Z)
(** Cohort *)
| CohortTierEstimated (tier : Tier) (peers shards : Z)
| PeerSpawned (agent : Id) (depth : Z)
| SpawnRefused (parent child : Id)
| ClaimPublished (claim proposer : Id)
| RoleRotated (agent : Id)
| VoteCast (claim voter : Id) (vote : Vote) (confidence : Confidence)
| QuorumReached (claim : Id) (yes needed : Z)
| QuorumUnreachable (claim : Id) (reachable needed : Z)
| CohortAborted (reason : string)
(** Tool *)
| ToolRequested (name : string) (invoker : Invoker.t)
| PermissionDecision (tool : string) (decision : Decision) (reversibility : Reversibility)
| ToolStarted (tool : string)
| ToolCompleted (tool : string) (elapsed_ms : Z)
| ToolFailed (tool error : string)
(** Gate *)
| GateCompleted (gate : string) (passed : bool)
| FindingRaised (finding : Id) (location : string) (severity : Z)
| FindingConfirmed (finding confirmer : Id)
(** Guard, journal, digest *)
| GuardLayerTriggered (layer : Z) (detail : string)
| SnapshotTaken (depth : Z)
| Undone (depth : Z)
| DigestUpdated (files_changed : Z)
| AnchorsServed (count : Z).

Definition topic (e : t) : Topic :=
  match e with
  | SessionStarted _ | SessionResumed _ | SessionEnded _ => TSession
  | TurnStarted _ | TurnCompleted _ | TurnFailed _ _ => TTurn
  | SegmentSealed _ _ | BreakpointPlaced _ | PrefixPadded _ _ | TurnsEvicted _ _
  | RecallServed _ | GenerationRewritten _ _ => TPrompt
  | CacheHit | CacheWrite _ | CacheBreak _ _ => TCache
  | RequestSent _ | FirstByte _ | WarmupComplete _ | FanOut _ _ | StreamDelta _
  | ThinkingDelta _ | RequestFailed _ _ | RateLimited _ | UsageReported _ _ _ _ _ _
  | UsageDrift _ _ _ => TProvider
  | CohortTierEstimated _ _ _ | PeerSpawned _ _ | SpawnRefused _ _ | ClaimPublished _ _
  | RoleRotated _ | VoteCast _ _ _ _ | QuorumReached _ _ _ | QuorumUnreachable _ _ _
  | CohortAborted _ => TCohort
  | ToolRequested _ _ | PermissionDecision _ _ _ | ToolStarted _ | ToolCompleted _ _
  | ToolFailed _ _ => TTool
  | GateCompleted _ _ | FindingRaised _ _ _ | FindingConfirmed _ _ => TGate
  | GuardLayerTriggered _ _ => TGuard
  | SnapshotTaken _ | Undone _ => TJournal
  | DigestUpdated _ | AnchorsServed _ => TDigest
  end.
End Event.

(** ** Topic sets *)

Module TopicSet.
(** The bits of a [u16]. *)
Abbreviation t := N (only parsing).

Definition WIDTH : nat := length Topic_ALL.

Definition index (topic : Topic) : N :=
  match topic with
  | TSession => 0
  | TTurn => 1
  | TPrompt => 2
  | TCache => 3
  | TProvider => 4
  | TCohort => 5
  | TTool => 6
  | TGate => 7
  | TGuard => 8
  | TJournal => 9
  | TDigest => 10
  end.

Definition NONE : t := 0%N.

(** The loop of [all]. *)
Definition all : t := foldl (λ bits i, N.lor bits (N.shiftl 1 (N.of_nat i))) 0%N (seq 0 WIDTH).

Definition of_ (topic : Topic) : t := N.shiftl 1 (index topic).
Definition with_ (s : t) (topic : Topic) : t := N.lor s (of_ topic).

(** [self & !of(topic)] on 16 bits. *)
Definition without (s : t) (topic : Topic) : t := N.land s (N.lxor 65535 (of_ topic)).

Definition contains (s : t) (topic : Topic) : bool := negb (N.land s (of_ topic) =? 0)%N.
Definition is_empty (s : t) : bool := (s =? 0)%N.
Definition union (a b : t) : t := N.lor a b.
Definition intersection (a b : t) : t := N.land a b.

(** [count_ones] of 16 bits. *)
Definition len (s : t) : nat :=
  length (List.filter (λ i, N.testbit s (N.of_nat i)) (seq 0 16)).

Definition from_iter (topics : list Topic) : t := foldl with_ NONE topics.
End TopicSet.

Lemma topic_index_inj a b : TopicSet.index a = TopicSet.index b → a = b.
Proof. by destruct a, b. Qed.

Lemma topic_of_testbit topic i : N.testbit (TopicSet.of_ topic) i = bool_decide (i = TopicSet.index topic).
Proof.
  unfold TopicSet.of_. rewrite N.shiftl_1_l, N.pow2_bits_eqb.
  case_bool_decide; [by apply N.eqb_eq|by apply N.eqb_neq].
Qed.

(** Membership is the topic's bit. *)
Lemma contains_testbit s topic : TopicSet.contains s topic = N.testbit s (TopicSet.index topic).
Proof.
  unfold TopicSet.contains.
  destruct (N.eqb_spec (N.land s (TopicSet.of_ topic)) 0) as [H|H]; simpl.
  - assert (Hb := f_equal (λ n, N.testbit n (TopicSet.index topic)) H). cbn beta in Hb.
    rewrite N.land_spec, topic_of_testbit, bool_decide_eq_true_2, andb_true_r, N.bits_0 in Hb by done.
    done.
  - symmetry. destruct (N.testbit s (TopicSet.index topic)) eqn:E; [done|].
    exfalso. apply H, N.bits_inj_iff. intros i. rewrite N.land_spec, topic_of_testbit, N.bits_0.
    case_bool_decide as Hi; [by rewrite Hi, E|by rewrite andb_false_r].
Qed.

Lemma contains_with s topic topic' :
  TopicSet.contains (TopicSet.with_ s topic) topic' =
  TopicSet.contains s topic' || bool_decide (topic' = topic).
Proof.
  rewrite !contains_testbit. unfold TopicSet.with_. rewrite N.lor_spec, topic_of_testbit.
  f_equal. apply bool_decide_ext. split; [apply topic_index_inj|by intros ->].
Qed.

(** A topic set is the set of its topics.  Membership after [with], [without],
    [union] and [intersection] is set membership, [from_iter] contains exactly the
    listed topics, [NONE] none and [all] every one; so a subscription sees exactly
    the topics it named, and every event has a topic in [all]. *)
Theorem topic_set_membership (s s' : N) (topic topic' : Topic) (topics : list Topic) :
  TopicSet.contains (TopicSet.with_ s topic) topic' =
    TopicSet.contains s topic' || bool_decide (topic' = topic) ∧
  TopicSet.contains (TopicSet.without s topic) topic' =
    TopicSet.contains s topic' && bool_decide (topic' ≠ topic) ∧
  TopicSet.contains (TopicSet.union s s') topic' =
    TopicSet.contains s topic' || TopicSet.contains s' topic' ∧
  TopicSet.contains (TopicSet.intersection s s') topic' =
    TopicSet.contains s topic' && TopicSet.contains s' topic' ∧
  TopicSet.contains (TopicSet.from_iter topics) topic = bool_decide (topic ∈ topics) ∧
  TopicSet.contains TopicSet.NONE topic = false ∧
  (∀ e, TopicSet.contains TopicSet.all (Event.topic e) = true).
Proof.
  split_and!.
  - apply contains_with.
  - rewrite !contains_testbit. unfold TopicSet.without.
    rewrite N.land_spec, N.lxor_spec, topic_of_testbit. f_equal.
    assert (N.testbit 65535 (TopicSet.index topic') = true) as -> by by destruct topic'.
    destruct (decide (topic' = topic)) as [->|Hne].
    + rewrite bool_decide_eq_true_2 by done. by rewrite bool_decide_eq_false_2 by naive_solver.
    + rewrite bool_decide_eq_false_2 by (intros Hi; by apply Hne, topic_index_inj).
      by rewrite bool_decide_eq_true_2.
  - rewrite !contains_testbit. apply N.lor_spec.
  - rewrite !contains_testbit. apply N.land_spec.
  - unfold TopicSet.from_iter. induction topics as [|x topics IH] using rev_ind.
    + by rewrite contains_testbit, N.bits_0.
    + rewrite foldl_app. simpl. rewrite contains_with, IH.
      apply eq_true_iff_eq. rewrite orb_true_iff, !bool_decide_eq_true. set_solver.
  - by rewrite contains_testbit, N.bits_0.
  - intros e. by destruct (Event.topic e).
Qed.
