(* ===== verification/Ephemeral.v ===== *)
(** * The ephemeral block: [supra_types/src/ephemeral.rs]

    Volatile facts kept out of the cached prefix, as key-ordered entries.  On a
    slice ordered by key, [binary_search_by_key] finds the key's place: the search
    below is the linear search with the same answer on every block, all of which
    are ordered (proved). *)

From S2P Require Import Prelude Text.

Inductive EphemeralKey :=
| KTimestamp | KWorkingDir | KGitBranch | KGitClean | KContextPercent | KPermissionMode
| KSandboxTier | KTodoState | KCohortSize.

#[export] Instance EphemeralKey_eq_dec : EqDecision EphemeralKey.
Proof. solve_decision. Defined.

Module EphemeralKey.
Definition ALL : list EphemeralKey :=
  [KTimestamp; KWorkingDir; KGitBranch; KGitClean; KContextPercent; KPermissionMode;
   KSandboxTier; KTodoState; KCohortSize].

(** The derived order. *)
Definition ord (k : EphemeralKey) : nat :=
  match k with
  | KTimestamp => 0 | KWorkingDir => 1 | KGitBranch => 2 | KGitClean => 3
  | KContextPercent => 4 | KPermissionMode => 5 | KSandboxTier => 6 | KTodoState => 7
  | KCohortSize => 8
  end.

Definition label (k : EphemeralKey) : string :=
  match k with
  | KTimestamp => "time"
  | KWorkingDir => "cwd"
  | KGitBranch => "branch"
  | KGitClean => "clean"
  | KContextPercent => "context"
  | KPermissionMode => "mode"
  | KSandboxTier => "sandbox"
  | KTodoState => "todo"
  | KCohortSize => "peers"
  end.
End EphemeralKey.

Module EphemeralBlock.
Abbreviation t := (list (EphemeralKey * string)) (only parsing).

Definition new : t := [].

(** [Ok at] is [(at, true)], [Err at] is [(at, false)]. *)
Fixpoint search (key : EphemeralKey) (entries : t) : nat * bool :=
  match entries with
  | [] => (0, false)
  | (existing, _) :: entries =>
      if EphemeralKey.ord existing <? EphemeralKey.ord key then
        let '(i, found) := search key entries in (S i, found)
      else (0, bool_decide (existing = key))
  end.

Definition set (key : EphemeralKey) (value : string) (entries : t) : t :=
  match search key entries with
  | (i, true) => <[i := (key, value)]> entries
  | (i, false) => take i entries ++ (key, value) :: drop i entries
  end.

Definition get (key : EphemeralKey) (entries : t) : option string :=
  match search key entries with
  | (i, true) => snd <$> entries !! i
  | (_, false) => None
  end.

Definition clear (key : EphemeralKey) (entries : t) : t :=
  match search key entries with
  | (i, true) => list_delete i entries
  | (_, false) => entries
  end.

(** [Deserialize]: the stored pairs are set one by one. *)
Definition deserialize (entries : t) : t :=
  foldl (λ block '(key, value), set key value block) new entries.

Definition newline : string := String (Ascii.ascii_of_nat 10) EmptyString.

Definition render (entries : t) : string :=
  foldl (λ out '(key, value),
    out +:+ EphemeralKey.label key +:+ ": " +:+ value +:+ newline) "" entries.

Definition estimated_tokens (entries : t) : nat := div_ceil (String.length (render entries)) 4.
End EphemeralBlock.

(** Ordered strictly by key. *)
Definition block_wf (b : list (EphemeralKey * string)) : Prop :=
  StronglySorted (λ p q, EphemeralKey.ord p.1 < EphemeralKey.ord q.1) b.

Implicit Types (b : list (EphemeralKey * string)).

Lemma key_ord_inj k k' : EphemeralKey.ord k = EphemeralKey.ord k' → k = k'.
Proof. by destruct k, k'. Qed.

(** Setting, getting and clearing, by structure of the ordered entries. *)
Lemma set_cons k v k0 v0 b :
  EphemeralBlock.set k v ((k0, v0) :: b) =
  if EphemeralKey.ord k0 <? EphemeralKey.ord k then (k0, v0) :: EphemeralBlock.set k v b
  else if decide (k0 = k) then (k, v) :: b else (k, v) :: (k0, v0) :: b.
Proof.
  unfold EphemeralBlock.set. simpl.
  destruct (EphemeralKey.ord k0 <? EphemeralKey.ord k).
  - by destruct (EphemeralBlock.search k b) as [i []].
  - destruct (decide (k0 = k));
      [rewrite bool_decide_eq_true_2 by done|rewrite bool_decide_eq_false_2 by done]; done.
Qed.

Lemma get_cons k k0 v0 b :
  EphemeralBlock.get k ((k0, v0) :: b) =
  if EphemeralKey.ord k0 <? EphemeralKey.ord k then EphemeralBlock.get k b
  else if decide (k0 = k) then Some v0 else None.
Proof.
  unfold EphemeralBlock.get. simpl.
  destruct (EphemeralKey.ord k0 <? EphemeralKey.ord k).
  - by destruct (EphemeralBlock.search k b) as [i []].
  - destruct (decide (k0 = k));
      [rewrite bool_decide_eq_true_2 by done|rewrite bool_decide_eq_false_2 by done]; done.
Qed.

Lemma clear_cons k k0 v0 b :
  EphemeralBlock.clear k ((k0, v0) :: b) =
  if EphemeralKey.ord k0 <? EphemeralKey.ord k then (k0, v0) :: EphemeralBlock.clear k b
  else if decide (k0 = k) then b else (k0, v0) :: b.
Proof.
  unfold EphemeralBlock.clear. simpl.
  destruct (EphemeralKey.ord k0 <? EphemeralKey.ord k).
  - by destruct (EphemeralBlock.search k b) as [i []].
  - destruct (decide (k0 = k));
      [rewrite bool_decide_eq_true_2 by done|rewrite bool_decide_eq_false_2 by done]; done.
Qed.

Lemma set_Forall (P : EphemeralKey * string → Prop) k v b :
  P (k, v) → Forall P b → Forall P (EphemeralBlock.set k v b).
Proof.
  intros Hp. induction b as [|[k0 v0] b IH]; intros Hb; [by repeat constructor|].
  apply Forall_cons in Hb as [? Hb]. rewrite set_cons. repeat case_match; constructor; auto.
Qed.

Lemma clear_Forall (P : EphemeralKey * string → Prop) k b :
  Forall P b → Forall P (EphemeralBlock.clear k b).
Proof.
  induction b as [|[k0 v0] b IH]; intros Hb; [done|].
  apply Forall_cons in Hb as [? Hb]. rewrite clear_cons. repeat case_match; auto.
Qed.

Lemma set_wf k v b : block_wf b → block_wf (EphemeralBlock.set k v b).
Proof.
  unfold block_wf. induction b as [|[k0 v0] b IH]; intros Hb; [repeat constructor|].
  rewrite set_cons. pose proof Hb as Hb0. apply StronglySorted_cons in Hb as [Hall Hs].
  destruct (Nat.ltb_spec (EphemeralKey.ord k0) (EphemeralKey.ord k)).
  - apply StronglySorted_cons. split; [|auto]. by apply set_Forall.
  - destruct (decide (k0 = k)) as [->|Hne]; [by apply StronglySorted_cons|].
    apply StronglySorted_cons. split; [|done].
    assert (EphemeralKey.ord k ≠ EphemeralKey.ord k0) by (intros ?%key_ord_inj; congruence).
    constructor; [simpl; lia|]. eapply Forall_impl; [exact Hall|]. simpl. lia.
Qed.

Lemma clear_wf k b : block_wf b → block_wf (EphemeralBlock.clear k b).
Proof.
  unfold block_wf. induction b as [|[k0 v0] b IH]; intros Hb; [done|].
  rewrite clear_cons. pose proof Hb as Hb0. apply StronglySorted_cons in Hb as [Hall Hs].
  repeat case_match; [|done|done]. apply StronglySorted_cons. split; [|auto].
  by apply clear_Forall.
Qed.

Lemma get_below k b :
  Forall (λ p, EphemeralKey.ord k < EphemeralKey.ord p.1) b → EphemeralBlock.get k b = None.
Proof.
  destruct b as [|[k0 v0] b]; intros Hb; [done|]. apply Forall_cons in Hb as [Hk _].
  simpl in Hk. rewrite get_cons. destruct (Nat.ltb_spec (EphemeralKey.ord k0) (EphemeralKey.ord k)); [lia|].
  rewrite decide_False; [done|]. intros ->. lia.
Qed.

Lemma get_set k v k' b :
  block_wf b →
  EphemeralBlock.get k' (EphemeralBlock.set k v b) =
  if decide (k' = k) then Some v else EphemeralBlock.get k' b.
Proof.
  unfold block_wf. induction b as [|[k0 v0] b IH]; intros Hb.
  - change (EphemeralBlock.set k v []) with [(k, v)]. rewrite get_cons.
    destruct (decide (k' = k)) as [->|Hne].
    + destruct (Nat.ltb_spec (EphemeralKey.ord k) (EphemeralKey.ord k)); [lia|]. by rewrite decide_True.
    + rewrite decide_False by congruence. by case_match.
  - apply StronglySorted_cons in Hb as [Hall Hs]. rewrite set_cons, get_cons.
    destruct (Nat.ltb_spec (EphemeralKey.ord k0) (EphemeralKey.ord k)) as [Hlt|Hge].
    + rewrite get_cons, IH by done. destruct (decide (k' = k)) as [->|Hne]; [|done].
      by rewrite (proj2 (Nat.ltb_lt _ _) Hlt).
    + destruct (decide (k0 = k)) as [->|Hne0].
      * rewrite get_cons. destruct (decide (k' = k)) as [->|Hne].
        -- destruct (Nat.ltb_spec (EphemeralKey.ord k) (EphemeralKey.ord k)); [lia|]. by rewrite decide_True.
        -- by rewrite !(decide_False (P := k = k')) by congruence.
      * rewrite !get_cons. destruct (decide (k' = k)) as [->|Hne].
        -- destruct (Nat.ltb_spec (EphemeralKey.ord k) (EphemeralKey.ord k)); [lia|]. by rewrite decide_True.
        -- rewrite (decide_False (P := k = k')) by congruence.
           assert (EphemeralKey.ord k ≠ EphemeralKey.ord k0) by (intros ?%key_ord_inj; congruence).
           destruct (Nat.ltb_spec (EphemeralKey.ord k) (EphemeralKey.ord k')) as [|Hk']; [done|].
           destruct (Nat.ltb_spec (EphemeralKey.ord k0) (EphemeralKey.ord k')); [lia|].
           rewrite decide_False; [done|]. intros ->. lia.
Qed.

Lemma get_clear k k' b :
  block_wf b →
  EphemeralBlock.get k' (EphemeralBlock.clear k b) =
  if decide (k' = k) then None else EphemeralBlock.get k' b.
Proof.
  unfold block_wf. induction b as [|[k0 v0] b IH]; intros Hb.
  - by case_decide.
  - apply StronglySorted_cons in Hb as [Hall Hs]. rewrite clear_cons, get_cons.
    destruct (Nat.ltb_spec (EphemeralKey.ord k0) (EphemeralKey.ord k)) as [Hlt|Hge].
    + rewrite get_cons, IH by done. destruct (decide (k' = k)) as [->|Hne]; [|done].
      by rewrite (proj2 (Nat.ltb_lt _ _) Hlt).
    + destruct (decide (k0 = k)) as [->|Hne0].
      * destruct (decide (k' = k)) as [->|Hne]; [by apply get_below|].
        destruct (Nat.ltb_spec (EphemeralKey.ord k) (EphemeralKey.ord k')); [done|].
        rewrite decide_False by congruence. apply get_below.
        eapply Forall_impl; [exact Hall|]. simpl. lia.
      * rewrite get_cons. destruct (decide (k' = k)) as [->|Hne]; [|done].
        destruct (Nat.ltb_spec (EphemeralKey.ord k0) (EphemeralKey.ord k)); [lia|].
        by rewrite decide_False.
Qed.

Lemma get_elem k v b : block_wf b → EphemeralBlock.get k b = Some v ↔ (k, v) ∈ b.
Proof.
  unfold block_wf. induction b as [|[k0 v0] b IH]; intros Hb; [set_solver|].
  apply StronglySorted_cons in Hb as [Hall Hs]. rewrite get_cons, elem_of_cons.
  rewrite Forall_forall in Hall.
  destruct (Nat.ltb_spec (EphemeralKey.ord k0) (EphemeralKey.ord k)).
  - rewrite IH by done. split; [by right|]. intros [[= -> ->]|?]; [lia|done].
  - destruct (decide (k0 = k)) as [->|Hne].
    + split; [intros [= ->]; by left|]. intros [[= ->]|Hin]; [done|].
      specialize (Hall _ Hin). simpl in Hall. lia.
    + split; [done|]. intros [[= -> _]|Hin]; [done|].
      specialize (Hall _ Hin). simpl in Hall. lia.
Qed.

(** What the key lookups of two ordered blocks determine. *)
Lemma block_ext b b' :
  block_wf b → block_wf b' → (∀ k, EphemeralBlock.get k b = EphemeralBlock.get k b') → b = b'.
Proof.
  intros Hb Hb' Hget.
  assert (Hperm : b ≡ₚ b').
  { assert (Hn : ∀ c : list (EphemeralKey * string), block_wf c → NoDup c).
    { intros c. unfold block_wf. induction c as [|x c IH]; intros Hc; [constructor|].
      apply StronglySorted_cons in Hc as [Hall Hs]. constructor; [|auto]. intros Hin.
      rewrite Forall_forall in Hall. specialize (Hall _ Hin). lia. }
    apply NoDup_Permutation; [by apply Hn..|].
    intros [k v]. rewrite <- !get_elem by done. by rewrite Hget. }
  eapply (StronglySorted_unique_strong (λ p q, EphemeralKey.ord p.1 < EphemeralKey.ord q.1));
    [|exact Hb|exact Hb'|exact Hperm].
  intros p q _ _ ? ?. lia.
Qed.

(** One edit of a block. *)
Inductive edit := ESet (key : EphemeralKey) (value : string) | EClear (key : EphemeralKey).

Definition apply_edit (b : list (EphemeralKey * string)) (e : edit) : list (EphemeralKey * string) :=
  match e with
  | ESet key value => EphemeralBlock.set key value b
  | EClear key => EphemeralBlock.clear key b
  end.

Definition edited (edits : list edit) : list (EphemeralKey * string) :=
  foldl apply_edit EphemeralBlock.new edits.

(** What the edits last said of a key. *)
Definition last_word (edits : list edit) (key : EphemeralKey) : option string :=
  foldl (λ known e, match e with
                    | ESet k v => if decide (key = k) then Some v else known
                    | EClear k => if decide (key = k) then None else known
                    end) None edits.

Lemma edited_spec edits :
  block_wf (edited edits) ∧ ∀ k, EphemeralBlock.get k (edited edits) = last_word edits k.
Proof.
  unfold edited, last_word. induction edits as [|e edits [IH1 IH2]] using rev_ind.
  - split; [constructor|done].
  - rewrite foldl_app. simpl. setoid_rewrite foldl_app. simpl.
    destruct e as [k v|k]; simpl; split; [by apply set_wf| |by apply clear_wf|].
    + intros k'. by rewrite get_set, IH2.
    + intros k'. by rewrite get_clear, IH2.
Qed.

(** The volatile block is canonical.  After any sequence of [set] and [clear],
    [get] answers what the last edit of that key said, the entries are strictly in
    key order, and the rendered text depends only on those answers: two histories
    that leave the same values render byte for byte the same, whatever order they
    were set in.  Storing and reading back a block changes nothing. *)
Theorem ephemeral_canonical (edits : list edit) :
  (∀ k, EphemeralBlock.get k (edited edits) = last_word edits k) ∧
  block_wf (edited edits) ∧
  (∀ edits', (∀ k, last_word edits k = last_word edits' k) →
     EphemeralBlock.render (edited edits) = EphemeralBlock.render (edited edits')) ∧
  EphemeralBlock.deserialize (edited edits) = edited edits.
Proof.
  destruct (edited_spec edits) as [Hwf Hget]. split_and!; [done|done| |].
  - intros edits' Heq. destruct (edited_spec edits') as [Hwf' Hget'].
    f_equal. apply block_ext; [done..|]. intros k. by rewrite Hget, Hget'.
  - assert (Hd : EphemeralBlock.deserialize (edited edits) =
      edited ((λ '(k, v), ESet k v) <$> edited edits)).
    { unfold edited at 2, EphemeralBlock.deserialize. generalize EphemeralBlock.new.
      generalize (edited edits). intros l. induction l as [|[k v] l IH]; intros b; simpl; auto. }
    rewrite Hd. destruct (edited_spec ((λ '(k, v), ESet k v) <$> edited edits)) as [Hwf' Hget'].
    apply block_ext; [done..|]. intros k. rewrite Hget'.
    apply option_eq. intros v. rewrite get_elem by done.
    assert (Hl : ∀ (l : list (EphemeralKey * string)), block_wf l → ∀ acc,
      foldl (λ known e, match e with
                        | ESet k0 v0 => if decide (k = k0) then Some v0 else known
                        | EClear k0 => if decide (k = k0) then None else known
                        end) acc ((λ '(k, v), ESet k v) <$> l) = Some v ↔
      (k, v) ∈ l ∨ ((∀ u, (k, u) ∉ l) ∧ acc = Some v)).
    { intros l. unfold block_wf. induction l as [|[k0 v0] l IH]; intros Hs acc; simpl; [set_solver|].
      apply StronglySorted_cons in Hs as [Hall Hs]. rewrite IH by done.
      rewrite Forall_forall in Hall.
      destruct (decide (k = k0)) as [->|Hne]; [|set_solver].
      assert (Hno : ∀ u, (k0, u) ∉ l) by (intros u Hin; specialize (Hall _ Hin); simpl in Hall; lia).
      set_solver. }
    unfold last_word. rewrite (Hl _ Hwf). set_solver.
Qed.
