(* ===== verification/EventBus.v ===== *)
(** * The event bus: [crates/supra_eventbus/src/bus.rs]

    A publisher never blocks: each subscription is a bounded ring that drops its
    oldest entries, and a publisher that finds a ring locked skips it.  Every loss
    is counted twice: in the subscription's total and on the next delivery.

    The publisher holds the registry lock and, for the whole of an accepted offer,
    the ring's lock; consumers hold the ring's lock for the whole of a receive.  So
    executions are sequences of the operations below, each with the subscriptions
    whose ring a consumer held while the publisher passed ([contended]).  A
    subscription is its slot, shared by the registry (weakly) and its handle: it is
    alive while it is in [slots].  The [u64] counters are [nat] and [N]. *)

From S2P Require Import Prelude Sealing Event.

Definition DEFAULT_CAPACITY : nat := 1024.

Module Delivery.
Record t := mk { seq : N; event : Event.t; missed_before : nat }.
End Delivery.

Inductive RecvError := REmpty | RTimeout | RClosed.

Module Slot.
Record t := mk {
  topics : N;
  ring : list Delivery.t;
  capacity : nat;
  closed : bool;
  pending_missed : nat;
  missed_total : nat;
}.

(** The eviction loop: the loss the dropped entries stand for, and their number. *)
Fixpoint evict (capacity : nat) (ring : list Delivery.t) (loss dropped : nat) :
    list Delivery.t * nat * nat :=
  match ring with
  | [] => ([], loss, dropped)
  | oldest :: rest =>
      if capacity <=? length ring
      then evict capacity rest (loss + (Delivery.missed_before oldest + 1)) (dropped + 1)
      else (ring, loss, dropped)
  end.

(** [front.missed_before += loss], or the pending counter when the ring is empty. *)
Definition charge (loss : nat) (ring : list Delivery.t) (pending : nat) :
    list Delivery.t * nat :=
  if 0 <? loss then
    match ring with
    | front :: rest =>
        (Delivery.mk (Delivery.seq front) (Delivery.event front)
           (Delivery.missed_before front + loss) :: rest, pending)
    | [] => ([], pending + loss)
    end
  else (ring, pending).

Definition miss (s : t) : t :=
  mk (topics s) (ring s) (capacity s) (closed s) (pending_missed s + 1) (missed_total s + 1).

Definition offer (contended : bool) (seq : N) (event : Event.t) (s : t) : t :=
  if contended then miss s
  else if capacity s =? 0 then miss s
  else
    let '(ring1, loss, dropped) := evict (capacity s) (ring s) 0 0 in
    let '(ring2, pending) := charge loss ring1 (pending_missed s) in
    mk (topics s) (ring2 ++ [Delivery.mk seq event pending]) (capacity s) (closed s)
       0 (missed_total s + dropped).

Definition close (s : t) : t :=
  mk (topics s) (ring s) (capacity s) true (pending_missed s) (missed_total s).

Definition with_ring (ring : list Delivery.t) (s : t) : t :=
  mk (topics s) ring (capacity s) (closed s) (pending_missed s) (missed_total s).

Definition try_recv (s : t) : t * result Delivery.t RecvError :=
  match ring s with
  | delivery :: rest => (with_ring rest s, Ok delivery)
  | [] => (s, Err (if closed s then RClosed else REmpty))
  end.

(** [wait_timeout_while] returns once the ring has an entry, the bus is closed, or
    the time is up; until then nothing happens ([None]). *)
Definition recv_timeout (timed_out : bool) (s : t) : option (t * result Delivery.t RecvError) :=
  if (length (ring s) =? 0) && negb (closed s) && negb timed_out then None
  else Some
    match ring s with
    | delivery :: rest => (with_ring rest s, Ok delivery)
    | [] => (s, Err (if closed s then RClosed else if timed_out then RTimeout else REmpty))
    end.

Definition drain (s : t) : t * list Delivery.t := (with_ring [] s, ring s).
End Slot.

Module Bus.
Record t := mk {
  next_seq : N;
  registry : list nat;
  slots : gmap nat Slot.t;
  next_slot : nat;
  dropped : bool;
}.

Definition new : t := mk 0 [] ∅ 0 false.

(** [weak.strong_count() > 0]. *)
Definition live (b : t) : list nat :=
  filter (λ id, is_Some (slots b !! id)) (registry b).

Definition subscribe_with_capacity (topics : N) (capacity : nat) (b : t) : t * nat :=
  let id := next_slot b in
  (mk (next_seq b) (live b ++ [id])
      (<[id := Slot.mk topics [] capacity false 0 0]> (slots b)) (S id) (dropped b), id).

Definition subscribe (topics : N) (b : t) : t * nat :=
  subscribe_with_capacity topics DEFAULT_CAPACITY b.

Definition offer_to (contended : list nat) (seq : N) (event : Event.t) (id : nat) (s : Slot.t) :
    Slot.t :=
  if TopicSet.contains (Slot.topics s) (Event.topic event)
  then Slot.offer (bool_decide (id ∈ contended)) seq event s
  else s.

Definition publish (contended : list nat) (event : Event.t) (b : t) : t * N :=
  let seq := next_seq b in
  (mk (seq + 1) (live b)
      (foldl (λ m id, alter (offer_to contended seq event id) id m) (slots b) (live b))
      (next_slot b) (dropped b), seq).

Definition published (b : t) : N := next_seq b.
Definition subscriber_count (b : t) : nat := length (live b).

(** [Drop for Bus]. *)
Definition drop_bus (b : t) : t :=
  mk (next_seq b) (registry b) (foldl (λ m id, alter Slot.close id m) (slots b) (live b))
    (next_slot b) true.

(** Dropping a [Subscription] leaves a dead registry entry. *)
Definition unsubscribe (id : nat) (b : t) : t :=
  mk (next_seq b) (registry b) (delete id (slots b)) (next_slot b) (dropped b).

Definition set_slot (id : nat) (s : Slot.t) (b : t) : t :=
  mk (next_seq b) (registry b) (<[id := s]> (slots b)) (next_slot b) (dropped b).
End Bus.

(** ** Executions *)

Inductive bus_op :=
| OpSubscribe (topics : N) (capacity : nat)
| OpBusPublish (event : Event.t) (contended : list nat)
| OpTryRecv (id : nat)
| OpRecvTimeout (id : nat) (timed_out : bool)
| OpDrain (id : nat)
| OpUnsubscribe (id : nat)
| OpDropBus.

(** The bus after an operation, and what it delivered to whom.  Without the bus
    there is no handle to publish or subscribe with. *)
Definition bus_step (b : Bus.t) (o : bus_op) : Bus.t * list (nat * Delivery.t) :=
  match o with
  | OpSubscribe topics capacity =>
      if Bus.dropped b then (b, []) else ((Bus.subscribe_with_capacity topics capacity b).1, [])
  | OpBusPublish event contended =>
      if Bus.dropped b then (b, []) else ((Bus.publish contended event b).1, [])
  | OpTryRecv id =>
      match Bus.slots b !! id with
      | None => (b, [])
      | Some s =>
          let '(s', r) := Slot.try_recv s in
          (Bus.set_slot id s' b, match r with Ok d => [(id, d)] | Err _ => [] end)
      end
  | OpRecvTimeout id timed_out =>
      match Bus.slots b !! id with
      | None => (b, [])
      | Some s =>
          match Slot.recv_timeout timed_out s with
          | None => (b, [])
          | Some (s', r) =>
              (Bus.set_slot id s' b, match r with Ok d => [(id, d)] | Err _ => [] end)
          end
      end
  | OpDrain id =>
      match Bus.slots b !! id with
      | None => (b, [])
      | Some s => let '(s', l) := Slot.drain s in (Bus.set_slot id s' b, pair id <$> l)
      end
  | OpUnsubscribe id => (Bus.unsubscribe id b, [])
  | OpDropBus => if Bus.dropped b then (b, []) else (Bus.drop_bus b, [])
  end.

Fixpoint run_bus (ops : list bus_op) (b : Bus.t) : Bus.t * list (nat * Delivery.t) :=
  match ops with
  | [] => (b, [])
  | o :: ops =>
      let '(b, log) := bus_step b o in
      let '(b, log') := run_bus ops b in
      (b, log ++ log')
  end.

(** What a subscription receives. *)
Definition received (id : nat) (log : list (nat * Delivery.t)) : list Delivery.t :=
  omap (λ p, if decide (p.1 = id) then Some p.2 else None) log.

(** The events published on a subscription's topics while it was alive, each with
    its sequence number. *)
Definition matching_step (id : nat) (b : Bus.t) (o : bus_op) : list (N * Event.t) :=
  match o with
  | OpBusPublish event _ =>
      match Bus.slots b !! id with
      | Some s =>
          if negb (Bus.dropped b) && TopicSet.contains (Slot.topics s) (Event.topic event)
          then [(Bus.next_seq b, event)] else []
      | None => []
      end
  | _ => []
  end.

Fixpoint matching (id : nat) (ops : list bus_op) (b : Bus.t) : list (N * Event.t) :=
  match ops with
  | [] => []
  | o :: ops => matching_step id b o ++ matching id ops (bus_step b o).1
  end.

(** ** Exact attribution of losses *)

Definition missed (l : list Delivery.t) : nat := sum_list_with Delivery.missed_before l.

(** Deliveries [l] and then [p] losses account for every one of the [off]ered
    events: delivery [i] is the offered event behind exactly the deliveries and
    losses recorded before it. *)
Definition aligned (off : list (N * Event.t)) (l : list Delivery.t) (p : nat) : Prop :=
  (∀ i d, l !! i = Some d →
     off !! (i + missed (take (S i) l)) = Some (Delivery.seq d, Delivery.event d)) ∧
  length off = length l + missed l + p.

Lemma missed_app l l' : missed (l ++ l') = missed l + missed l'.
Proof. apply sum_list_with_app. Qed.

Lemma aligned_push off l p seq event :
  aligned off l p → aligned (off ++ [(seq, event)]) (l ++ [Delivery.mk seq event p]) 0.
Proof.
  intros [Hl Hlen]. split.
  - intros i d [Hi|[Hge Hi]]%lookup_app_Some.
    + rewrite take_app_le by (apply lookup_lt_Some in Hi; lia).
      apply lookup_app_l_Some. by apply Hl.
    + apply list_lookup_singleton_Some in Hi as [Hi <-].
      assert (i = length l) as -> by lia. rewrite take_ge by (rewrite length_app; simpl; lia).
      rewrite missed_app. unfold missed at 2. simpl.
      replace (length l + (missed l + (p + 0))) with (length off) by lia.
      by rewrite lookup_app_r, Nat.sub_diag by lia.
  - rewrite !length_app, missed_app. unfold missed at 2. simpl. lia.
Qed.

Lemma aligned_miss off l p x : aligned off l p → aligned (off ++ [x]) l (p + 1).
Proof.
  intros [Hl Hlen]. split.
  - intros i d Hi. by apply lookup_app_l_Some, Hl.
  - rewrite length_app. simpl. lia.
Qed.

Definition bump (n : nat) (d : Delivery.t) : Delivery.t :=
  Delivery.mk (Delivery.seq d) (Delivery.event d) (Delivery.missed_before d + n).

(** Charging dropped deliveries to the next one. *)
Lemma aligned_drop_some off got dr b r p :
  aligned off (got ++ dr ++ b :: r) p →
  aligned off (got ++ bump (missed dr + length dr) b :: r) p.
Proof.
  intros [Hl Hlen]. split.
  - intros i d Hi. destruct (decide (i < length got)) as [Hlt|Hge].
    + rewrite lookup_app_l in Hi by done. specialize (Hl i d).
      rewrite take_app_le in * by lia. apply Hl. by rewrite lookup_app_l.
    + rewrite lookup_app_r in Hi by lia.
      destruct (decide (i = length got)) as [->|Hne].
      * rewrite Nat.sub_diag in Hi. simpl in Hi. injection Hi as <-.
        specialize (Hl (length got + length dr) b).
        rewrite lookup_app_r, lookup_app_r, take_app_ge, take_app_ge in Hl by lia.
        replace (S (length got + length dr) - length got - length dr) with 1 in Hl by lia.
        replace (length got + length dr - length got - length dr) with 0 in Hl by lia.
        specialize (Hl eq_refl). rewrite take_app_ge by lia.
        replace (S (length got) - length got) with 1 by lia.
        rewrite !missed_app in *. unfold missed in *. simpl in *. rewrite <- Hl. f_equal. lia.
      * specialize (Hl (i + length dr) d).
        rewrite lookup_app_r, lookup_app_r, take_app_ge, take_app_ge in Hl by lia.
        rewrite take_app_ge by lia.
        destruct (i - length got) as [|j] eqn:Hj; [lia|]. simpl in Hi.
        replace (i + length dr - length got - length dr) with (S j) in Hl by lia.
        replace (S (i + length dr) - length got - length dr) with (S (S j)) in Hl by lia.
        specialize (Hl Hi). replace (S i - length got) with (S (S j)) by lia.
        rewrite !missed_app in *. unfold missed in *. cbn [take sum_list_with] in *.
        rewrite <- Hl. f_equal. unfold bump. cbn [Delivery.missed_before]. lia.
  - rewrite !length_app, !missed_app in *. unfold missed in *. simpl in *. lia.
Qed.

Lemma aligned_drop_all off got dr p :
  aligned off (got ++ dr) p → aligned off got (p + (missed dr + length dr)).
Proof.
  intros [Hl Hlen]. split.
  - intros i d Hi. specialize (Hl i d).
    rewrite take_app_le in Hl by (apply lookup_lt_Some in Hi; lia).
    apply Hl. by apply lookup_app_l_Some.
  - rewrite length_app, missed_app in Hlen. lia.
Qed.

Lemma evict_spec capacity ring loss dropped :
  ∃ dr r, ring = dr ++ r ∧
    Slot.evict capacity ring loss dropped =
      (r, loss + (missed dr + length dr), dropped + length dr) ∧
    (0 < capacity → length r < capacity).
Proof.
  revert loss dropped. induction ring as [|d ring IH]; intros loss dropped; simpl.
  - exists [], []. unfold missed. simpl. split_and!; [done|do 2 f_equal; lia|done].
  - destruct (Nat.leb_spec capacity (S (length ring))).
    + destruct (IH (loss + (Delivery.missed_before d + 1)) (dropped + 1)) as (dr & r & -> & He & Hr).
      exists (d :: dr), r. rewrite He. unfold missed. simpl.
      split_and!; [done|f_equal; [f_equal|]; lia|done].
    + exists [], (d :: ring). unfold missed. simpl. split_and!; [done|do 2 f_equal; lia|lia].
Qed.

(** What an offer does to the record of a subscription. *)
Definition slot_ok (off : list (N * Event.t)) (got : list Delivery.t) (s : Slot.t) : Prop :=
  aligned off (got ++ Slot.ring s) (Slot.pending_missed s) ∧
  Slot.missed_total s = missed (got ++ Slot.ring s) + Slot.pending_missed s ∧
  length (Slot.ring s) ≤ Slot.capacity s.

Lemma miss_ok off got s x : slot_ok off got s → slot_ok (off ++ [x]) got (Slot.miss s).
Proof.
  intros (Ha & Ht & Hc). unfold slot_ok. simpl. split_and!; [by apply aligned_miss|lia|done].
Qed.

Lemma offer_ok off got s contended seq event :
  slot_ok off got s → slot_ok (off ++ [(seq, event)]) got (Slot.offer contended seq event s).
Proof.
  intros Hs. unfold Slot.offer. destruct contended; [by apply miss_ok|].
  destruct (Nat.eqb_spec (Slot.capacity s) 0); [by apply miss_ok|].
  destruct Hs as (Ha & Ht & Hc).
  destruct (evict_spec (Slot.capacity s) (Slot.ring s) 0 0) as (dr & r & Hr & He & Hlen).
  rewrite He. simpl. rewrite Hr in *. specialize (Hlen ltac:(lia)).
  rewrite !missed_app in Ht. unfold Slot.charge.
  destruct (Nat.ltb_spec 0 (missed dr + length dr)) as [Hpos|Hz].
  - destruct r as [|front r].
    + rewrite app_nil_r in *. apply aligned_drop_all in Ha.
      unfold slot_ok. simpl. split_and!.
      * by apply aligned_push.
      * rewrite missed_app. unfold missed in *. simpl in *. lia.
      * lia.
    + apply aligned_drop_some in Ha. fold (bump (missed dr + length dr) front).
      unfold slot_ok. simpl Slot.ring. simpl Slot.pending_missed. simpl Slot.missed_total.
      simpl Slot.capacity. split_and!.
      * change (bump ?n front :: r ++ ?x) with ((bump n front :: r) ++ x).
        rewrite (assoc_L (++)). by apply aligned_push.
      * rewrite !missed_app. unfold missed in *. simpl in *. rewrite sum_list_with_app. simpl. lia.
      * simpl in *. rewrite length_app. simpl. lia.
  - assert (dr = []) as -> by (destruct dr; simpl in *; [done|lia]).
    unfold slot_ok. simpl in *. split_and!.
    + rewrite (assoc_L (++)). by apply aligned_push.
    + rewrite !missed_app. unfold missed in *. simpl in *. lia.
    + rewrite length_app. simpl. lia.
Qed.

(** Taking entries from the front of the ring. *)
Lemma take_ok off got s taken rest :
  slot_ok off got s → Slot.ring s = taken ++ rest →
  slot_ok off (got ++ taken) (Slot.with_ring rest s).
Proof.
  intros (Ha & Ht & Hc) Hr. rewrite Hr in *. unfold slot_ok. simpl.
  rewrite <- (assoc_L (++)). split_and!; [done|done|]. rewrite length_app in Hc. lia.
Qed.

(** ** Every subscription of a running bus *)

Lemma foldl_alter {V} (f : nat → V → V) (l : list nat) (m : gmap nat V) id :
  NoDup l →
  foldl (λ m i, alter (f i) i m) m l !! id = if decide (id ∈ l) then f id <$> m !! id else m !! id.
Proof.
  revert m. induction l as [|x l IH]; intros m Hn; [by rewrite decide_False by set_solver|].
  apply NoDup_cons in Hn as [Hx Hn]. simpl. rewrite IH by done.
  destruct (decide (id = x)) as [->|Hne].
  - rewrite decide_False, lookup_alter_eq by done. by rewrite decide_True by set_solver.
  - rewrite lookup_alter_ne by done.
    destruct (decide (id ∈ l)); [by rewrite decide_True by set_solver|].
    by rewrite decide_False by set_solver.
Qed.

Record bus_inv (b : Bus.t) (off : nat → list (N * Event.t)) (got : nat → list Delivery.t) : Prop := {
  inv_nodup : NoDup (Bus.registry b);
  inv_alive id : is_Some (Bus.slots b !! id) → id ∈ Bus.registry b;
  inv_fresh id : id ∈ Bus.registry b → id < Bus.next_slot b;
  inv_slots id s : Bus.slots b !! id = Some s → slot_ok (off id) (got id) s;
  inv_unused id : Bus.next_slot b ≤ id → off id = [] ∧ got id = [];
  inv_sorted id : StronglySorted N.lt (off id).*1;
  inv_below id : Forall (λ p, p.1 < Bus.next_seq b)%N (off id);
}.

Lemma received_app id l l' : received id (l ++ l') = received id l ++ received id l'.
Proof. apply omap_app. Qed.

Lemma received_pair id id' (l : list Delivery.t) :
  received id (pair id' <$> l) = if decide (id' = id) then l else [].
Proof.
  unfold received. induction l as [|d l IH]; [by destruct (decide (id' = id))|].
  rewrite fmap_cons. csimpl. rewrite IH. by case_decide.
Qed.

Lemma inv_new : bus_inv Bus.new (λ _, []) (λ _, []).
Proof.
  split; simpl; try done; try constructor; try set_solver.
  intros id [s Hs]. by rewrite lookup_empty in Hs.
Qed.

(** A receive: only the ring of [id] changes, by what it hands out. *)
Lemma inv_receive b off got id s taken rest :
  bus_inv b off got → Bus.slots b !! id = Some s → Slot.ring s = taken ++ rest →
  bus_inv (Bus.set_slot id (Slot.with_ring rest s) b)
    (λ i, off i ++ []) (λ i, got i ++ received i (pair id <$> taken)).
Proof.
  intros [Hn Ha Hf Hs Hu Ho Hb] Hid Hr. split; simpl; try done.
  - intros i Hi. apply Ha. destruct (decide (i = id)) as [->|Hne]; [by eexists|].
    by rewrite lookup_insert_ne in Hi.
  - intros i s'. rewrite app_nil_r, received_pair. destruct (decide (id = i)) as [<-|Hne].
    + rewrite lookup_insert_eq. intros [= <-]. by apply take_ok; [apply Hs|].
    + rewrite lookup_insert_ne, app_nil_r by done. apply Hs.
  - intros i Hi. destruct (Hu i Hi) as [-> ->]. rewrite received_pair.
    rewrite decide_False; [done|]. intros Heq.
    assert (Hin : i ∈ Bus.registry b) by (apply Ha; rewrite <- Heq; by eexists).
    apply Hf in Hin. lia.
  - intros i. by rewrite app_nil_r.
  - intros i. by rewrite app_nil_r.
Qed.

Lemma inv_ext b off got off' got' :
  (∀ i, off i = off' i) → (∀ i, got i = got' i) → bus_inv b off got → bus_inv b off' got'.
Proof.
  intros Hoff Hgot [Hn Ha Hf Hs Hu Ho Hb]. split; try done; intros i.
  - rewrite <- Hoff, <- Hgot. apply Hs.
  - rewrite <- Hoff, <- Hgot. apply Hu.
  - rewrite <- Hoff. apply Ho.
  - rewrite <- Hoff. apply Hb.
Qed.

Lemma inv_idle b off got :
  bus_inv b off got → bus_inv b (λ i, off i ++ []) (λ i, got i ++ []).
Proof. intros H. eapply inv_ext; [| |exact H]; intros i; by rewrite app_nil_r. Qed.

Lemma live_spec b id :
  id ∈ Bus.live b ↔ is_Some (Bus.slots b !! id) ∧ id ∈ Bus.registry b.
Proof. unfold Bus.live. by rewrite list_elem_of_filter. Qed.

Lemma inv_live_nodup b off got : bus_inv b off got → NoDup (Bus.live b).
Proof. intros H. apply NoDup_filter, H. Qed.

Lemma inv_publish b off got event contended :
  bus_inv b off got → Bus.dropped b = false →
  bus_inv (Bus.publish contended event b).1
    (λ i, off i ++ matching_step i b (OpBusPublish event contended)) (λ i, got i ++ []).
Proof.
  intros Hinv Hd. pose proof (inv_live_nodup _ _ _ Hinv) as Hlive.
  destruct Hinv as [Hn Ha Hf Hs Hu Ho Hb].
  assert (Hlook : ∀ i, Bus.slots (Bus.publish contended event b).1 !! i =
    Bus.offer_to contended (Bus.next_seq b) event i <$> Bus.slots b !! i).
  { intros i. unfold Bus.publish. cbn [fst Bus.slots]. rewrite foldl_alter by done.
    destruct (decide (i ∈ Bus.live b)) as [|Hno]; [done|].
    destruct (Bus.slots b !! i) eqn:E; [|done]. exfalso. apply Hno, live_spec.
    split; [by eexists|]. apply Ha. by eexists. }
  split.
  - done.
  - intros i. rewrite Hlook. intros [s' Hs']. apply fmap_Some in Hs' as (s & Hs' & _).
    apply live_spec. split; [by eexists|]. apply Ha. by eexists.
  - intros i [_ Hi]%live_spec. by apply Hf.
  - intros i s'. rewrite Hlook. intros (s & Hi & ->)%fmap_Some. rewrite app_nil_r.
    unfold matching_step. rewrite Hi, Hd. simpl. unfold Bus.offer_to.
    destruct (TopicSet.contains _ _); [by apply offer_ok, Hs|].
    rewrite app_nil_r. by apply Hs.
  - intros i Hi. simpl in Hi. destruct (Hu i Hi) as [-> ->]. unfold matching_step.
    destruct (Bus.slots b !! i) eqn:E; [|done].
    assert (Hlt : i < Bus.next_slot b) by (apply Hf, Ha; by eexists). lia.
  - intros i. unfold matching_step. destruct (Bus.slots b !! i); [|by rewrite app_nil_r].
    case_match; [|by rewrite app_nil_r]. rewrite fmap_app. apply StronglySorted_app.
    split_and!; [|done|repeat constructor]. simpl. specialize (Hb i).
    rewrite Forall_forall in Hb. intros x y Hx ->%list_elem_of_singleton.
    apply list_elem_of_fmap in Hx as (p & -> & Hp). by apply Hb.
  - intros i. simpl. apply Forall_app. split.
    + eapply Forall_impl; [apply Hb|]. simpl. lia.
    + unfold matching_step. repeat case_match; repeat constructor. simpl. lia.
Qed.

Lemma inv_subscribe b off got topics capacity :
  bus_inv b off got →
  bus_inv (Bus.subscribe_with_capacity topics capacity b).1
    (λ i, off i ++ []) (λ i, got i ++ []).
Proof.
  intros Hinv. pose proof (inv_live_nodup _ _ _ Hinv) as Hlive. apply inv_idle in Hinv.
  destruct Hinv as [Hn Ha Hf Hs Hu Ho Hb]. split; simpl; try done.
  - apply NoDup_app. split_and!; [done| |apply NoDup_singleton].
    intros i [_ Hi]%live_spec ->%list_elem_of_singleton. apply Hf in Hi. lia.
  - intros i Hi. apply elem_of_app. destruct (decide (i = Bus.next_slot b)) as [->|Hne]; [right; set_solver|].
    rewrite lookup_insert_ne in Hi by done. left. apply live_spec. split; [done|by apply Ha].
  - intros i [Hi|Hi]%elem_of_app; [apply live_spec in Hi as [_ Hi]; apply Hf in Hi; lia|set_solver by lia].
  - intros i s. destruct (decide (i = Bus.next_slot b)) as [->|Hne].
    + rewrite lookup_insert_eq. intros [= <-]. destruct (Hu (Bus.next_slot b) (le_n _)) as [E1 E2].
      rewrite E1, E2. unfold slot_ok, aligned, missed. simpl. split_and!; [done|done|done|lia].
    + rewrite lookup_insert_ne by done. apply Hs.
  - intros i Hi. apply Hu. lia.
Qed.

Lemma inv_drop_bus b off got :
  bus_inv b off got →
  bus_inv (Bus.drop_bus b) (λ i, off i ++ []) (λ i, got i ++ []).
Proof.
  intros Hinv. pose proof (inv_live_nodup _ _ _ Hinv) as Hlive. apply inv_idle in Hinv.
  destruct Hinv as [Hn Ha Hf Hs Hu Ho Hb].
  assert (Hlook : ∀ i, Bus.slots (Bus.drop_bus b) !! i =
    if decide (i ∈ Bus.live b) then Slot.close <$> Bus.slots b !! i else Bus.slots b !! i)
    by (intros i; unfold Bus.drop_bus; cbn [Bus.slots]; by apply (foldl_alter (λ _, Slot.close))).
  split; try done.
  - intros i. rewrite Hlook. case_decide; [rewrite fmap_is_Some|]; apply Ha.
  - intros i s. rewrite Hlook. case_decide; [|apply Hs].
    intros (s' & Hs' & ->)%fmap_Some. apply (Hs i s' Hs').
Qed.

Lemma inv_unsubscribe b off got id :
  bus_inv b off got → bus_inv (Bus.unsubscribe id b) (λ i, off i ++ []) (λ i, got i ++ []).
Proof.
  intros Hinv%inv_idle. destruct Hinv as [Hn Ha Hf Hs Hu Ho Hb]. split; simpl; try done.
  - intros i [s [_ Hi]%lookup_delete_Some]. apply Ha. by eexists.
  - intros i s [_ Hi]%lookup_delete_Some. by apply Hs.
Qed.

Lemma set_slot_id id s b : Bus.slots b !! id = Some s → Bus.set_slot id s b = b.
Proof. intros Hs. unfold Bus.set_slot. rewrite insert_id by done. by destruct b. Qed.

Lemma inv_step b off got o b' log :
  bus_inv b off got → bus_step b o = (b', log) →
  bus_inv b' (λ i, off i ++ matching_step i b o) (λ i, got i ++ received i log).
Proof.
  intros Hinv Hs. destruct o as [topics capacity|event contended|id|id timed_out|id|id|]; unfold bus_step in Hs.
  - destruct (Bus.dropped b); injection Hs as <- <-; [by apply inv_idle|by apply inv_subscribe].
  - destruct (Bus.dropped b) eqn:Hd; injection Hs as <- <-; [|by apply inv_publish].
    eapply inv_ext; [| |by apply inv_idle]; [|done].
    intros i. simpl. rewrite Hd. by destruct (Bus.slots b !! i).
  - destruct (Bus.slots b !! id) as [s|] eqn:E; simplify_eq; [|by apply inv_idle].
    unfold Slot.try_recv in Hs. destruct (Slot.ring s) as [|d rest] eqn:Hr; simplify_eq/=.
    + rewrite set_slot_id by done. by apply inv_idle.
    + apply (inv_receive b off got id s [d] rest); done.
  - destruct (Bus.slots b !! id) as [s|] eqn:E; simplify_eq; [|by apply inv_idle].
    unfold Slot.recv_timeout in Hs. case_match; simplify_eq; [|by apply inv_idle].
    destruct p as [s' r]. simplify_eq.
    case_match; simplify_eq. destruct (Slot.ring s) as [|d rest] eqn:Hr; simplify_eq/=.
    + rewrite set_slot_id by done. by apply inv_idle.
    + apply (inv_receive b off got id s [d] rest); done.
  - destruct (Bus.slots b !! id) as [s|] eqn:E; simplify_eq; [|by apply inv_idle].
    unfold Slot.drain in Hs. simplify_eq/=.
    apply (inv_receive b off got id s (Slot.ring s) []); [done|done|by rewrite app_nil_r].
  - injection Hs as <- <-. by apply inv_unsubscribe.
  - destruct (Bus.dropped b); injection Hs as <- <-; [by apply inv_idle|by apply inv_drop_bus].
Qed.

Lemma inv_run b off got ops b' log :
  bus_inv b off got → run_bus ops b = (b', log) →
  bus_inv b' (λ i, off i ++ matching i ops b) (λ i, got i ++ received i log).
Proof.
  revert b off got b' log. induction ops as [|o ops IH]; intros b off got b' log Hinv Hr; simpl in Hr.
  - simplify_eq. by apply inv_idle.
  - destruct (bus_step b o) as [b1 log1] eqn:E1. destruct (run_bus ops b1) as [b2 log2] eqn:E2.
    simplify_eq. pose proof (inv_step _ _ _ _ _ _ Hinv E1) as H1.
    pose proof (IH _ _ _ _ _ H1 E2) as H2. eapply inv_ext; [| |exact H2]; intros i; simpl.
    + by rewrite E1, (assoc_L (++)).
    + by rewrite received_app, (assoc_L (++)).
Qed.

(** ** Properties *)

(** C9. Every loss is accounted for, exactly where it happened.  Run any sequence of
    subscriptions, publications (with whatever rings are locked by their consumers
    as the publisher passes), receives, drains and drops.  For every live
    subscription, each delivery - received or still buffered - is the matching event
    that lies behind exactly the earlier deliveries and the losses recorded on them,
    so [missed_before] is precisely the number of matching events lost since the
    previous delivery; deliveries come in strictly increasing sequence order, never
    twice; [missed_total] counts every loss; matching events are received, buffered
    or counted, none silently gone; and the buffer never exceeds its capacity. *)
Theorem bus_losses_accounted (ops : list bus_op) (b : Bus.t) (log : list (nat * Delivery.t))
    (Hrun : run_bus ops Bus.new = (b, log)) (id : nat) (s : Slot.t)
    (Hs : Bus.slots b !! id = Some s) :
  let off := matching id ops Bus.new in
  let seen := received id log ++ Slot.ring s in
  (∀ i d, seen !! i = Some d →
     off !! (i + missed (take (S i) seen)) = Some (Delivery.seq d, Delivery.event d)) ∧
  (∀ i j d d', i < j → seen !! i = Some d → seen !! j = Some d' →
     (Delivery.seq d < Delivery.seq d')%N) ∧
  Slot.missed_total s = missed seen + Slot.pending_missed s ∧
  length off = length (received id log) + length (Slot.ring s) + Slot.missed_total s ∧
  length (Slot.ring s) ≤ Slot.capacity s.
Proof.
  intros off seen. pose proof (inv_run _ _ _ _ _ _ inv_new Hrun) as Hinv.
  destruct (inv_slots _ _ _ Hinv id s Hs) as ((Hidx & Hlen) & Ht & Hc).
  pose proof (inv_sorted _ _ _ Hinv id) as Hsort. simpl in *. fold off seen in Hidx, Hlen, Ht, Hsort.
  split_and!; [done| |done| |done].
  - intros i j d d' Hij Hi Hj. pose proof (Hidx i d Hi) as Hoi. pose proof (Hidx j d' Hj) as Hoj.
    assert (Hmono : missed (take (S i) seen) ≤ missed (take (S j) seen)).
    { rewrite <- (take_drop (S i) (take (S j) seen)), take_take, missed_app.
      rewrite Nat.min_l by lia. lia. }
    eapply (sorted_lookup_lt N.lt off.*1); [exact Hsort| | |].
    2: { rewrite list_lookup_fmap, Hoi. done. }
    2: { rewrite list_lookup_fmap, Hoj. done. }
    lia.
  - unfold seen in Hlen at 1. rewrite length_app in Hlen. lia.
Qed.

Definition demo_ops : list bus_op :=
  [OpSubscribe TopicSet.all 2; OpBusPublish Event.CacheHit []; OpBusPublish Event.CacheHit [0];
   OpBusPublish (Event.StreamDelta 3) []; OpTryRecv 0; OpTryRecv 0].

Lemma bus_losses_accounted_witness :
  ∃ b log s, run_bus demo_ops Bus.new = (b, log) ∧ Bus.slots b !! 0 = Some s ∧
    Slot.missed_total s = 1 ∧
    length (matching 0 demo_ops Bus.new) =
      length (received 0 log) + length (Slot.ring s) + Slot.missed_total s.
Proof.
  destruct (run_bus demo_ops Bus.new) as [b log] eqn:Hr. exists b, log.
  destruct (Bus.slots b !! 0) as [s|] eqn:Hs.
  - exists s. split; [reflexivity|]. split; [reflexivity|].
    pose proof (bus_losses_accounted demo_ops b log Hr 0 s Hs) as (_ & _ & _ & Hlen & _).
    split; [|exact Hlen]. vm_compute in Hr. injection Hr as <- <-. vm_compute in Hs.
    injection Hs as <-. reflexivity.
  - vm_compute in Hr. injection Hr as <- <-. vm_compute in Hs. discriminate.
Defined.

Lemma offer_to_closed contended seq event id s :
  Slot.closed (Bus.offer_to contended seq event id s) = Slot.closed s.
Proof. unfold Bus.offer_to, Slot.offer, Slot.miss. by repeat case_match. Qed.

(** A subscription is closed exactly when its bus is gone. *)
Definition closed_ok (b : Bus.t) : Prop :=
  ∀ id s, Bus.slots b !! id = Some s → Slot.closed s = Bus.dropped b.

Lemma set_ring_closed b id s ring :
  closed_ok b → Bus.slots b !! id = Some s →
  closed_ok (Bus.set_slot id (Slot.with_ring ring s) b).
Proof.
  intros Hc Hs i s'. simpl. destruct (decide (i = id)) as [->|Hne].
  - rewrite lookup_insert_eq. intros [= <-]. simpl. by apply (Hc id s).
  - rewrite lookup_insert_ne by done. apply Hc.
Qed.

Lemma closed_step b off got o b' log :
  bus_inv b off got → closed_ok b → bus_step b o = (b', log) → closed_ok b'.
Proof.
  intros Hinv Hc Hs. pose proof (inv_live_nodup _ _ _ Hinv) as Hlive.
  destruct o as [topics capacity|event contended|id|id timed_out|id|id|]; unfold bus_step in Hs.
  - destruct (Bus.dropped b) eqn:Hd; injection Hs as <- <-; [done|]. intros i s. simpl.
    destruct (decide (i = Bus.next_slot b)) as [->|Hne].
    + rewrite lookup_insert_eq. by intros [= <-].
    + rewrite lookup_insert_ne by done. apply Hc.
  - destruct (Bus.dropped b) eqn:Hd; injection Hs as <- <-; [done|]. intros i s.
    unfold Bus.publish. cbn [fst Bus.slots Bus.dropped]. rewrite foldl_alter by done.
    case_decide; [|apply Hc]. intros (s' & Hs' & ->)%fmap_Some. rewrite offer_to_closed.
    by apply (Hc i).
  - destruct (Bus.slots b !! id) as [s|] eqn:E; [|by injection Hs as <- <-].
    unfold Slot.try_recv in Hs. destruct (Slot.ring s) as [|d rest] eqn:Hr; injection Hs as <- <-.
    + by rewrite set_slot_id.
    + by apply set_ring_closed.
  - destruct (Bus.slots b !! id) as [s|] eqn:E; [|by injection Hs as <- <-].
    unfold Slot.recv_timeout in Hs.
    destruct (_ && negb timed_out); [by injection Hs as <- <-|].
    destruct (Slot.ring s) as [|d rest] eqn:Hr; injection Hs as <- <-.
    + by rewrite set_slot_id.
    + by apply set_ring_closed.
  - destruct (Bus.slots b !! id) as [s|] eqn:E; [|by injection Hs as <- <-].
    injection Hs as <- <-. by apply set_ring_closed.
  - injection Hs as <- <-. intros i s. simpl. intros [_ Hi]%lookup_delete_Some. by apply (Hc i).
  - destruct (Bus.dropped b) eqn:Hd; injection Hs as <- <-; [done|]. intros i s.
    unfold Bus.drop_bus. cbn [Bus.slots Bus.dropped]. rewrite (foldl_alter (λ _, Slot.close)) by done.
    case_decide as Hi; [by intros (s' & _ & ->)%fmap_Some|]. intros Hs. exfalso.
    apply Hi, live_spec. split; [by eexists|]. apply (inv_alive _ _ _ Hinv). by eexists.
Qed.

Lemma closed_run b off got ops b' log :
  bus_inv b off got → closed_ok b → run_bus ops b = (b', log) → closed_ok b'.
Proof.
  revert b off got log. induction ops as [|o ops IH]; intros b off got log Hinv Hc Hr; simpl in Hr.
  - by injection Hr as <- <-.
  - destruct (bus_step b o) as [b1 log1] eqn:E1. destruct (run_bus ops b1) as [b2 log2] eqn:E2.
    injection Hr as <- <-. eapply IH; [by eapply inv_step|by eapply closed_step|done].
Qed.

(** A receive shortens the ring from its front. *)
Lemma try_recv_ring s s' r :
  Slot.try_recv s = (s', r) → ∃ taken, Slot.ring s = taken ++ Slot.ring s'.
Proof.
  unfold Slot.try_recv. destruct (Slot.ring s) as [|d rest] eqn:Hr; intros [= <- <-].
  - by exists [].
  - by exists [d].
Qed.

Lemma recv_timeout_ring t s s' r :
  Slot.recv_timeout t s = Some (s', r) → ∃ taken, Slot.ring s = taken ++ Slot.ring s'.
Proof.
  unfold Slot.recv_timeout. destruct (_ && negb t); [done|].
  destruct (Slot.ring s) as [|d rest] eqn:Hr; intros [= <- <-].
  - by exists [].
  - by exists [d].
Qed.

Lemma set_slot_lookup id i s s' b :
  Bus.slots (Bus.set_slot i s b) !! id = Some s' →
  (i = id ∧ s' = s) ∨ (i ≠ id ∧ Bus.slots b !! id = Some s').
Proof.
  simpl. destruct (decide (i = id)) as [->|Hne].
  - rewrite lookup_insert_eq. intros [= <-]. by left.
  - rewrite lookup_insert_ne by done. by right.
Qed.

(** Without the bus a ring only shrinks. *)
Lemma dropped_step_ring b o id s s' :
  Bus.dropped b = true → Bus.slots b !! id = Some s →
  Bus.slots (bus_step b o).1 !! id = Some s' → ∃ taken, Slot.ring s = taken ++ Slot.ring s'.
Proof.
  intros Hd Hs. assert (Hsame : Bus.slots b !! id = Some s' → ∃ taken, Slot.ring s = taken ++ Slot.ring s').
  { intros Hs'. exists []. simpl. congruence. }
  destruct o as [topics capacity|event contended|i|i t|i|i|]; unfold bus_step; rewrite ?Hd;
    [exact Hsame|exact Hsame|..|exact Hsame].
  - destruct (Bus.slots b !! i) as [s0|] eqn:E; [|exact Hsame].
    destruct (Slot.try_recv s0) as [s1 r] eqn:Hr. intros [[-> ->]|[_ ?]]%set_slot_lookup; [|auto].
    assert (s0 = s) as <- by congruence. by eapply try_recv_ring.
  - destruct (Bus.slots b !! i) as [s0|] eqn:E; [|exact Hsame].
    destruct (Slot.recv_timeout t s0) as [[s1 r]|] eqn:Hr; [|exact Hsame].
    intros [[-> ->]|[_ ?]]%set_slot_lookup; [|auto].
    assert (s0 = s) as <- by congruence. by eapply recv_timeout_ring.
  - destruct (Bus.slots b !! i) as [s0|] eqn:E; [|exact Hsame].
    intros [[-> ->]|[_ ?]]%set_slot_lookup; [|auto]. exists (Slot.ring s).
    simpl. rewrite app_nil_r. done.
  - simpl. intros [_ ?]%lookup_delete_Some. auto.
Qed.

(** A receive answers exactly what the subscription can still get.  After any
    run, [try_recv] and [recv_timeout] hand out the oldest buffered event while
    there is one, closed bus or not; [Closed] means the bus is gone and everything
    buffered has been delivered, and then nothing will ever be received again;
    [Empty] from [try_recv] means the bus still lives; [recv_timeout] waits only
    while the bus lives and nothing is buffered, reports [Timeout] only then, and
    never [Empty]. *)
Theorem bus_receive_exact (ops : list bus_op) (b : Bus.t) (log : list (nat * Delivery.t))
    (Hrun : run_bus ops Bus.new = (b, log)) (id : nat) (s : Slot.t)
    (Hs : Bus.slots b !! id = Some s) :
  (∀ d rest, Slot.ring s = d :: rest →
     (Slot.try_recv s).2 = Ok d ∧ ∀ t, snd <$> Slot.recv_timeout t s = Some (Ok d)) ∧
  ((Slot.try_recv s).2 = Err RClosed ↔ Bus.dropped b = true ∧ Slot.ring s = []) ∧
  ((Slot.try_recv s).2 = Err REmpty ↔ Bus.dropped b = false ∧ Slot.ring s = []) ∧
  (Slot.recv_timeout false s = None ↔ Bus.dropped b = false ∧ Slot.ring s = []) ∧
  (∀ t, snd <$> Slot.recv_timeout t s ≠ Some (Err REmpty)) ∧
  (snd <$> Slot.recv_timeout true s = Some (Err RTimeout) ↔
     Bus.dropped b = false ∧ Slot.ring s = []) ∧
  (Bus.dropped b = true → ∀ o s', Bus.slots (bus_step b o).1 !! id = Some s' →
     ∃ taken, Slot.ring s = taken ++ Slot.ring s').
Proof.
  assert (Hc : Slot.closed s = Bus.dropped b).
  { eapply closed_run; [exact inv_new| |exact Hrun|exact Hs]. intros i s'. simpl. by rewrite lookup_empty. }
  unfold Slot.try_recv, Slot.recv_timeout. rewrite Hc. split_and!.
  - intros d rest ->. split; [done|]. intros t. done.
  - destruct (Slot.ring s), (Bus.dropped b); simpl; naive_solver.
  - destruct (Slot.ring s), (Bus.dropped b); simpl; naive_solver.
  - destruct (Slot.ring s), (Bus.dropped b); simpl; naive_solver.
  - intros t. by destruct (Slot.ring s), (Bus.dropped b), t.
  - destruct (Slot.ring s), (Bus.dropped b); simpl; naive_solver.
  - intros Hd o s' Hs'. by eapply dropped_step_ring.
Qed.

Lemma bus_receive_exact_witness :
  ∃ b log s, run_bus [OpSubscribe TopicSet.all 2; OpDropBus] Bus.new = (b, log) ∧
    Bus.slots b !! 0 = Some s ∧ (Slot.try_recv s).2 = Err RClosed.
Proof.
  destruct (run_bus [OpSubscribe TopicSet.all 2; OpDropBus] Bus.new) as [b log] eqn:Hr.
  exists b, log. destruct (Bus.slots b !! 0) as [s|] eqn:Hs.
  - exists s. split; [reflexivity|]. split; [reflexivity|].
    apply (bus_receive_exact _ b log Hr 0 s Hs).
    vm_compute in Hr. injection Hr as <- <-. vm_compute in Hs. injection Hs as <-.
    split; reflexivity.
  - vm_compute in Hr. injection Hr as <- <-. vm_compute in Hs. discriminate.
Defined.
