(* ===== verification/Turn.v ===== *)
(** * The turn: [crates/supra_core/src/turn.rs]

    One turn's choreography over the blackboard and the prompt ledger: publish the
    claim, take the proposal, count verdicts, stop at the quorum or escalate, and
    seal the agreed answer.  Every operation returns the events it publishes; the
    bus never influences a turn.  [io] says whether the database carries out the
    operation's transaction, and generated identifiers are arguments. *)

From S2P Require Import Prelude Sealing Table Cohort Store Blackboard Segment Ledger Event.

Module PeerAnswer.
Record t := mk { agent : Id; text : option string; verdict : option Verdict.t }.

Definition proposal (agent : Id) (text : string) : t := mk agent (Some text) None.
Definition validation (agent : Id) (verdict : Verdict.t) : t := mk agent None (Some verdict).
End PeerAnswer.

Inductive Step := Collecting | StepReached | Escalate.

#[export] Instance Step_eq_dec : EqDecision Step.
Proof. solve_decision. Defined.

(** Why there is no usable answer: the text of [NoAnswer]. *)
Inductive NoAnswerReason :=
| EmptyCohort
| CohortTooLarge (agents : nat)
| EmptyTask
| BoardRefused (e : BlackboardError)
| BothProposalAndVerdict
| OnlyProposerAnswers
| ProposalRepeated
| BeforeProposal
| NeitherAnswerNorVerdict
| AlreadyFinished
| QuorumNotReached
| AfterUnreachable
| ReachedWithoutAnswer.

Inductive TurnError :=
| TLedger (e : PromptError)
| TSegment (e : SegmentError)
| NoAnswer (reason : NoAnswerReason)
| EmptyClaim.

Section turn.
Context (sql_length : string → nat) (blake3 : list byte → list byte).
Context {CT VT WT : Type}
  `{Table CT Id ClaimRow.t} `{Table VT (Id * Id) unit} `{Table WT (Id * Id) VoteRow.t}.

(** [struct Turn]: the blackboard is the board in memory and its database. *)
Record turn := mkTurn {
  turn_id : Id;
  session : list Id;
  board : gmap Id ClaimState.t;
  database : Db.t CT VT WT;
  turn_claim : Id;
  answer : option string;
  votes_seen : nat;
  steps_seen : list Step;
  finished : bool;
  blind_rederivation : bool;
}.

Definition start_shared (io : bool) (fresh_turn fresh_claim : Id) (clock : option Z)
    (b : gmap Id ClaimState.t) (d : Db.t CT VT WT) (task : string) (agents : list Id) :
    result (turn * list Event.t) TurnError :=
  match agents with
  | [] => Err (NoAnswer EmptyCohort)
  | proposer :: _ =>
      if PEER_CEILING <? length agents then Err (NoAnswer (CohortTooLarge (length agents)))
      else if bool_decide (task = "") then Err (NoAnswer EmptyTask)
      else
        let validators := List.filter (λ agent, negb (bool_decide (agent = proposer))) agents in
        let blind := length agents =? 1 in
        let '(b, d, published) :=
          if blind then
            publish_blind sql_length io fresh_claim clock fresh_turn proposer "turn candidate" b d
          else
            publish sql_length io fresh_claim clock fresh_turn proposer validators
              "turn candidate" b d in
        match published with
        | Err e => Err (NoAnswer (BoardRefused e))
        | Ok claim =>
            Ok (mkTurn fresh_turn agents b d claim None 0 [] false blind,
                [Event.TurnStarted fresh_turn; Event.ClaimPublished claim proposer])
        end
  end.

Definition k (t : turn) : nat := length (session t).
Definition shards (t : turn) : nat := shards_needed (k t).

Definition with_board (b : gmap Id ClaimState.t) (d : Db.t CT VT WT) (t : turn) : turn :=
  mkTurn (turn_id t) (session t) b d (turn_claim t) (answer t) (votes_seen t) (steps_seen t)
    (finished t) (blind_rederivation t).

Definition with_answer (text : string) (t : turn) : turn :=
  mkTurn (turn_id t) (session t) (board t) (database t) (turn_claim t) (Some text)
    (votes_seen t) (steps_seen t) (finished t) (blind_rederivation t).

(** [self.votes_seen += 1] and [self.steps_seen.push(step)]. *)
Definition with_step (step : Step) (t : turn) : turn :=
  mkTurn (turn_id t) (session t) (board t) (database t) (turn_claim t) (answer t)
    (votes_seen t + 1) (steps_seen t ++ [step]) (finished t) (blind_rederivation t).

Definition with_finished (t : turn) : turn :=
  mkTurn (turn_id t) (session t) (board t) (database t) (turn_claim t) (answer t)
    (votes_seen t) (steps_seen t) true (blind_rederivation t).

(** [u32::try_from(x).unwrap_or(u32::MAX)]. *)
Definition as_u32 (x : nat) : Z := clamp_u32 (Z.of_nat x).

(** The [match outcome.status] of [record]. *)
Definition close_events (claim : Id) (status : QuorumStatus) (tally : Tally.t) : list Event.t :=
  match status with
  | Open => []
  | Reached =>
      [Event.QuorumReached claim (as_u32 (Tally.yes tally)) (as_u32 (Tally.needed tally));
       Event.CohortAborted "quorum reached; in-flight peers aborted"]
  | Unreachable =>
      [Event.QuorumUnreachable claim (as_u32 (Tally.yes tally + Tally.pending tally))
         (as_u32 (Tally.needed tally));
       Event.CohortAborted "quorum unreachable; escalating now"]
  end.

Definition step_of (status : QuorumStatus) : Step :=
  match status with Open => Collecting | Reached => StepReached | Unreachable => Escalate end.

Definition is_first (t : turn) (agent : Id) : bool :=
  bool_decide (head (session t) = Some agent).

Definition record (io : bool) (a : PeerAnswer.t) (t : turn) :
    turn * list Event.t * result Step TurnError :=
  match PeerAnswer.text a with
  | Some text =>
      if bool_decide (PeerAnswer.verdict a ≠ None)
      then (t, [], Err (NoAnswer BothProposalAndVerdict))
      else if negb (is_first t (PeerAnswer.agent a))
      then (t, [], Err (NoAnswer OnlyProposerAnswers))
      else if bool_decide (text = "") then (t, [], Err EmptyClaim)
      else if bool_decide (answer t ≠ None) then (t, [], Err (NoAnswer ProposalRepeated))
      else (with_answer text t, [], Ok Collecting)
  | None =>
      if bool_decide (answer t = None) then (t, [], Err (NoAnswer BeforeProposal))
      else match PeerAnswer.verdict a with
      | None => (t, [], Err (NoAnswer NeitherAnswerNorVerdict))
      | Some verdict =>
          let '(b, d, voted) :=
            if blind_rederivation t && is_first t (PeerAnswer.agent a)
            then vote_blind sql_length io (turn_claim t) (PeerAnswer.agent a) verdict
                   (board t) (database t)
            else vote sql_length io (turn_claim t) (PeerAnswer.agent a) verdict
                   (board t) (database t) in
          match voted with
          | Err e => (with_board b d t, [], Err (NoAnswer (BoardRefused e)))
          | Ok out =>
              let step := step_of (Outcome.status out) in
              (with_step step (with_board b d t),
               Event.VoteCast (turn_claim t) (PeerAnswer.agent a) (Verdict.vote verdict)
                 (Verdict.confidence verdict) ::
               close_events (turn_claim t) (Outcome.status out) (Outcome.tally out),
               Ok step)
          end
      end
  end.

Definition status (t : turn) : option QuorumStatus :=
  Outcome.status <$> outcome (turn_claim t) (board t).

Definition finish (fresh_segment : Id) (t : turn) (ledger : PromptLedger.t) :
    turn * PromptLedger.t * list Event.t * result Id TurnError :=
  if finished t then (t, ledger, [], Err (NoAnswer AlreadyFinished))
  else match status t with
  | Some Open => (t, ledger, [], Err (NoAnswer QuorumNotReached))
  | Some Unreachable | None => (t, ledger, [], Err (NoAnswer AfterUnreachable))
  | Some Reached =>
      match answer t with
      | None => (t, ledger, [], Err (NoAnswer ReachedWithoutAnswer))
      | Some text =>
          if bool_decide (text = "") then (t, ledger, [], Err EmptyClaim)
          else match Segment.new fresh_segment (SegmentKind.Turn (turn_id t) RAssistant)
                       [Block.Text text] with
          | Err e => (t, ledger, [], Err (TSegment e))
          | Ok segment =>
              match append blake3 ledger segment with
              | Err e => (t, ledger, [], Err (TLedger e))
              | Ok (seq, ledger) =>
                  (with_finished t, ledger,
                   [Event.SegmentSealed seq (prefix_hash blake3 ledger);
                    Event.TurnCompleted (turn_id t)],
                   Ok fresh_segment)
              end
          end
      end
  end.
End turn.
Arguments turn CT VT WT : clear implicits.

(** ** What a turn's transcript says *)

Section transcript.
Context (sql_length : string → nat) (blake3 : list byte → list byte).
Context {CT VT WT : Type}
  `{TableLaws CT Id ClaimRow.t} `{TableLaws VT (Id * Id) unit} `{TableLaws WT (Id * Id) VoteRow.t}.
Implicit Types (t : turn CT VT WT).

Definition vote_event (claim : Id) (v : Id * Vote * Confidence) : Event.t :=
  Event.VoteCast claim v.1.1 v.1.2 v.2.

(** [votes] are the counted votes in order, [fin] the two events of the answer's
    sealing once there are any, [log] everything the turn published. *)
Record turn_inv t (votes : list (Id * Vote * Confidence)) (fin log : list Event.t) : Prop := {
  ti_agree : agree (board t) (database t);
  ti_claim : ∃ st proposer, board t !! turn_claim t = Some st ∧
    ClaimState.proposer st = proposer ∧ head (session t) = Some proposer ∧
    log = [Event.TurnStarted (turn_id t); Event.ClaimPublished (turn_claim t) proposer] ++
          (vote_event (turn_claim t) <$> votes) ++
          close_events (turn_claim t) (ClaimState.status st) (ClaimState.tally st) ++ fin ∧
    NoDup (fst ∘ fst <$> votes) ∧
    (∀ a v, (∃ c, (a, v, c) ∈ votes) ↔ ClaimState.validators st !! a = Some (Some v)) ∧
    (finished t = true → ClaimState.status st = Reached);
  ti_seen : votes_seen t = length votes;
  ti_answer : answer t = None → votes = [] ∧ finished t = false;
  ti_nonempty : answer t ≠ Some "";
  ti_fin : finished t = bool_decide (fin ≠ []);
}.

Lemma fin_nil {A} (fin : list A) : false = bool_decide (fin ≠ []) → fin = [].
Proof.
  intros Hf. symmetry in Hf. apply bool_decide_eq_false in Hf.
  destruct fin; [done|]. exfalso. by apply Hf.
Qed.

Lemma close_events_open claim tally : close_events claim Open tally = [].
Proof. done. Qed.

(** The two voting operations of [record] at once. *)
Definition board_vote (io : bool) (blind : bool) (claim a : Id) (verdict : Verdict.t)
    (b : gmap Id ClaimState.t) (d : Db.t CT VT WT) :=
  if blind then vote_blind sql_length io claim a verdict b d
  else vote sql_length io claim a verdict b d.

Lemma board_vote_cases io blind claim a verdict b d b' d' r :
  agree b d → board_vote io blind claim a verdict b d = (b', d', r) →
  agree b' d' ∧
  match r with
  | Err _ => b' = b ∧ d' = d
  | Ok out => ∃ st, b !! claim = Some st ∧ ClaimState.status st = Open ∧
      ClaimState.validators st !! a = Some None ∧
      b' = <[claim := voted st a (Verdict.vote verdict)]> b ∧
      Outcome.status out = ClaimState.status (voted st a (Verdict.vote verdict)) ∧
      Outcome.tally out = ClaimState.tally (voted st a (Verdict.vote verdict))
  end.
Proof.
  intros Hb. unfold board_vote. destruct blind; intros Hr.
  - destruct (agree_vote_blind _ _ _ _ _ _ _ _ _ _ Hb Hr) as (Hb' & He & Hok).
    split; [done|]. destruct r as [out|e]; [|by apply (He e)].
    destruct (Hok out eq_refl) as (st & ? & ? & _ & _ & ? & ? & ->). by exists st.
  - destruct (agree_vote _ _ _ _ _ _ _ _ _ _ Hb Hr) as (Hb' & He & Hok).
    split; [done|]. destruct r as [out|e]; [|by apply (He e)].
    destruct (Hok out eq_refl) as (st & ? & ? & _ & ? & ? & ->). by exists st.
Qed.

Lemma record_vote_eq io a t verdict :
  PeerAnswer.text a = None → answer t ≠ None → PeerAnswer.verdict a = Some verdict →
  record sql_length io a t =
    let '(b, d, voted) := board_vote io (blind_rederivation t && is_first t (PeerAnswer.agent a))
      (turn_claim t) (PeerAnswer.agent a) verdict (board t) (database t) in
    match voted with
    | Err e => (with_board b d t, [], Err (NoAnswer (BoardRefused e)))
    | Ok out =>
        (with_step (step_of (Outcome.status out)) (with_board b d t),
         vote_event (turn_claim t) (PeerAnswer.agent a, Verdict.vote verdict, Verdict.confidence verdict) ::
         close_events (turn_claim t) (Outcome.status out) (Outcome.tally out),
         Ok (step_of (Outcome.status out)))
    end.
Proof.
  intros Ht Ha Hv. unfold record. rewrite Ht, Hv, bool_decide_eq_false_2 by done. done.
Qed.

Lemma with_board_id t : with_board (board t) (database t) t = t.
Proof. by destruct t. Qed.

(** A counted vote extends the transcript by itself and what it closes. *)
Lemma inv_voted t votes fin log st b' d' a v c step status tally :
  turn_inv t votes fin log → answer t ≠ None →
  board t !! turn_claim t = Some st → ClaimState.status st = Open →
  ClaimState.validators st !! a = Some None → agree b' d' →
  b' = <[turn_claim t := voted st a v]> (board t) →
  status = ClaimState.status (voted st a v) → tally = ClaimState.tally (voted st a v) →
  turn_inv (with_step step (with_board b' d' t)) (votes ++ [(a, v, c)]) fin
    (log ++ vote_event (turn_claim t) (a, v, c) :: close_events (turn_claim t) status tally).
Proof.
  intros Hinv Hans Hst Hopen Ha Hb' -> -> ->.
  destruct Hinv as [Hag (st' & p & Hc & Hp & Hh & Hlog & Hn & Hv & Hf) Hs Han Hne Hfin].
  assert (st' = st) as -> by congruence.
  assert (Hnf : finished t = false).
  { destruct (finished t); [|done]. rewrite (Hf eq_refl) in Hopen. done. }
  assert (Hfin0 : fin = []) by (rewrite Hnf in Hfin; by apply fin_nil).
  split; simpl; try done.
  - exists (voted st a v), p. rewrite lookup_insert_eq. split_and!; [done|done|done| | | |congruence].
    + subst fin. rewrite Hopen in Hlog. simpl in Hlog. rewrite Hlog, fmap_app. simpl.
      rewrite !app_nil_r, <- !(assoc_L (++)). done.
    + rewrite fmap_app. apply NoDup_app. split_and!; [done| |apply NoDup_singleton].
      intros x Hx Hx2. apply list_elem_of_fmap in Hx as ([[x' u] w] & -> & Hin).
      apply list_elem_of_singleton in Hx2. simpl in Hx2. subst x'.
      assert (ClaimState.validators st !! a = Some (Some u)) by (apply Hv; simpl in *; eauto).
      congruence.
    + intros a' v'. unfold voted. cbn [ClaimState.validators]. setoid_rewrite elem_of_app. setoid_rewrite list_elem_of_singleton.
      destruct (decide (a' = a)) as [->|Hne'].
      * rewrite lookup_insert_eq. split.
        -- intros (w & [Hin|[= -> ->]]); [|done].
           assert (ClaimState.validators st !! a = Some (Some v')) by (apply Hv; eauto). congruence.
        -- intros [= ->]. exists c. by right.
      * rewrite lookup_insert_ne by done. rewrite <- Hv. split.
        -- intros (w & [Hin|[= -> _]]); [by exists w|done].
        -- intros [w Hin]. exists w. by left.
  - rewrite length_app. simpl. lia.
Qed.

(** The vote a call on the turn counts: that of an accepted verdict. *)
Definition counted_as (a : PeerAnswer.t) (r : result Step TurnError) (new : list (Id * Vote * Confidence)) : Prop :=
  (∀ step, r = Ok step → PeerAnswer.text a = None → ∃ verdict, PeerAnswer.verdict a = Some verdict ∧
     new = [(PeerAnswer.agent a, Verdict.vote verdict, Verdict.confidence verdict)]) ∧
  (PeerAnswer.text a ≠ None → new = []).

Lemma inv_record io a t votes fin log t' evs r :
  turn_inv t votes fin log → record sql_length io a t = (t', evs, r) →
  (∀ e, r = Err e → t' = t ∧ evs = []) ∧
  ∃ new, turn_inv t' (votes ++ new) fin (log ++ evs) ∧
    counted_as a r new.
Proof.
  intros Hinv Hr. pose proof (ti_agree _ _ _ _ Hinv) as Hag.
  assert (Hfail : ∀ e0, (t, [], Err e0) = (t', evs, r) →
    (∀ e, r = Err e → t' = t ∧ evs = []) ∧
    ∃ new, turn_inv t' (votes ++ new) fin (log ++ evs) ∧ counted_as a r new).
  { intros e0 [= <- <- <-]. split; [done|]. exists []. split; [by rewrite !app_nil_r|by split]. }
  destruct (PeerAnswer.text a) as [text|] eqn:Ht.
  - unfold record in Hr. rewrite Ht in Hr.
    destruct (bool_decide (PeerAnswer.verdict a ≠ None)); [by eapply Hfail|].
    destruct (negb (is_first t (PeerAnswer.agent a))); [by eapply Hfail|].
    destruct (bool_decide (text = "")) eqn:Hempty; [by eapply Hfail|].
    destruct (bool_decide (answer t ≠ None)) eqn:Hans; [by eapply Hfail|].
    apply bool_decide_eq_false in Hempty. injection Hr as <- <- <-.
    split; [done|]. exists []. split; [|by split; [congruence|]]. rewrite !app_nil_r.
    destruct Hinv. split; try done. simpl. congruence.
  - destruct (decide (answer t = None)) as [Hans|Hans].
    { unfold record in Hr. rewrite Ht, bool_decide_eq_true_2 in Hr by done. by eapply Hfail. }
    destruct (PeerAnswer.verdict a) as [verdict|] eqn:Hv.
    2: { unfold record in Hr. rewrite Ht, Hv, bool_decide_eq_false_2 in Hr by done.
         by eapply Hfail. }
    rewrite (record_vote_eq io a t verdict Ht Hans Hv) in Hr.
    destruct (board_vote _ _ _ _ _ _ _) as [[b' d'] [out|e]] eqn:E;
      apply (board_vote_cases _ _ _ _ _ _ _ _ _ _ Hag) in E as [Hb' E].
    + destruct E as (st & Hst & Hopen & Ha & Hbe & Hos & Hot). simplify_eq/=.
      split; [done|]. eexists. split; [by eapply inv_voted|]. split; [eauto|congruence].
    + destruct E as [-> ->]. rewrite with_board_id in Hr. by eapply Hfail.
Qed.

Lemma status_eq t st :
  board t !! turn_claim t = Some st → status t = Some (ClaimState.status st).
Proof. unfold status, outcome. intros ->. done. Qed.

Lemma segment_text_ok id turn role text :
  Segment.new id (SegmentKind.Turn turn role) [Block.Text text] =
  Ok (Segment.mk id (SegmentKind.Turn turn role) [Block.Text text]).
Proof. done. Qed.

(** [finish] succeeds exactly once, on a reached claim with an answer. *)
Lemma finish_cases fresh t votes fin log ledger t' ledger' evs r :
  turn_inv t votes fin log → finish blake3 fresh t ledger = (t', ledger', evs, r) →
  (∃ e, r = Err e ∧ t' = t ∧ ledger' = ledger ∧ evs = []) ∨
  (finished t = false ∧ status t = Some Reached ∧ r = Ok fresh ∧ t' = with_finished t ∧
   ∃ text seq, answer t = Some text ∧ text ≠ "" ∧
     append blake3 ledger (Segment.mk fresh (SegmentKind.Turn (turn_id t) RAssistant)
       [Block.Text text]) = Ok (seq, ledger') ∧
     evs = [Event.SegmentSealed seq (prefix_hash blake3 ledger');
            Event.TurnCompleted (turn_id t)]).
Proof.
  intros Hinv. unfold finish. destruct (finished t) eqn:Hf; [intros [= <- <- <- <-]; left; eauto|].
  destruct (status t) as [[]|] eqn:Hs; try (intros [= <- <- <- <-]; left; by eauto).
  destruct (answer t) as [text|] eqn:Ha; [|intros [= <- <- <- <-]; left; by eauto].
  case_bool_decide as Ht; [intros [= <- <- <- <-]; left; by eauto|].
  rewrite segment_text_ok.
  destruct (append blake3 ledger _) as [[seq l]|e] eqn:E; intros [= <- <- <- <-]; [|left; by eauto].
  right. split_and!; try done. exists text, seq. done.
Qed.

Lemma inv_sealed t votes log evs :
  turn_inv t votes [] log → status t = Some Reached → answer t ≠ None → evs ≠ [] →
  turn_inv (with_finished t) votes evs (log ++ evs).
Proof.
  intros [Hag (st & p & Hc & Hp & Hh & Hlog & Hn & Hv & Hfi) Hs Han Hne Hfin] Hst Ha Hevs.
  split; simpl; try done.
  - exists st, p. split_and!; [done|done|done| |done|done|].
    + rewrite Hlog. by rewrite !app_nil_r, <- !(assoc_L (++)).
    + intros _. rewrite (status_eq t st Hc) in Hst. congruence.
  - by rewrite bool_decide_eq_true_2.
Qed.

Lemma inv_start io fresh_turn fresh_claim clock b d task agents t evs :
  agree b d →
  start_shared sql_length io fresh_turn fresh_claim clock b d task agents = Ok (t, evs) →
  turn_inv t [] [] evs ∧ session t = agents ∧ length agents ≤ PEER_CEILING ∧
  turn_id t = fresh_turn ∧ answer t = None ∧ status t = Some Open ∧
  blind_rederivation t = (length agents =? 1) ∧
  (∃ st proposer, board t !! turn_claim t = Some st ∧ head agents = Some proposer ∧
    (if blind_rederivation t then ClaimState.validators st = {[proposer := None]}
     else ClaimState.validators st =
       empty_roster (List.filter (λ agent, negb (bool_decide (agent = proposer))) agents))).
Proof.
  intros Hb. unfold start_shared. destruct agents as [|proposer rest]; [done|].
  set (agents := proposer :: rest).
  destruct (Nat.ltb_spec PEER_CEILING (length agents)); [done|].
  case_bool_decide; [done|].
  destruct (length agents =? 1) eqn:Hblind.
  - destruct (publish_blind _ _ _ _ _ _ _ _ _) as [[b' d'] [claim|e]] eqn:E; intros [= <- <-].
    destruct (agree_published_blind _ _ _ _ _ _ _ _ _ _ _ _ Hb E) as (Hb' & _ & Hok).
    destruct (Hok claim eq_refl) as (-> & Hnone & ->).
    split; [|split_and!; [done|done|done|done| |done|]].
    2: unfold status, outcome; simpl; by rewrite lookup_insert_eq.
    + split; simpl; try done. eexists _, proposer. rewrite lookup_insert_eq.
      split_and!; [done..|constructor| |done].
      intros a v. simpl. split; [intros [c Hc]; set_solver|].
      intros [_ ?]%lookup_singleton_Some. done.
    + simpl. eexists _, proposer. rewrite lookup_insert_eq. done.
  - destruct (publish _ _ _ _ _ _ _ _ _ _) as [[b' d'] [claim|e]] eqn:E; intros [= <- <-].
    destruct (agree_published _ _ _ _ _ _ _ _ _ _ _ _ _ Hb E) as (Hb' & _ & Hok).
    destruct (Hok claim eq_refl) as (-> & Hnone & _ & _ & ->).
    split; [|split_and!; [done|done|done|done| |done|]].
    2: unfold status, outcome; simpl; by rewrite lookup_insert_eq.
    + split; simpl; try done. eexists _, proposer. rewrite lookup_insert_eq.
      split_and!; [done..|constructor| |done].
      intros a v. cbn [ClaimState.validators]. rewrite empty_roster_lookup.
      split; [intros [c Hc]; set_solver|]. by case_decide.
    + simpl. eexists _, proposer. rewrite lookup_insert_eq. done.
Qed.

(** ** Running a turn *)

Inductive turn_op :=
| ORecord (io : bool) (a : PeerAnswer.t)
| OFinish (fresh_segment : Id).

Abbreviation turn_world := (turn CT VT WT * PromptLedger.t * list Event.t)%type.

(** One call on the turn; its events go to the end of what was published. *)
Definition apply_op (w : turn_world) (o : turn_op) : turn_world :=
  let '(t, ledger, log) := w in
  match o with
  | ORecord io a => let '(t, evs, _) := record sql_length io a t in (t, ledger, log ++ evs)
  | OFinish fresh =>
      let '(t, ledger, evs, _) := finish blake3 fresh t ledger in (t, ledger, log ++ evs)
  end.

Definition run_turn (ops : list turn_op) (w : turn_world) : turn_world := foldl apply_op w ops.

Lemma run_turn_cons o ops w : run_turn (o :: ops) w = run_turn ops (apply_op w o).
Proof. done. Qed.

(** What a finished turn has done to the ledger. *)
Definition sealed_as (t : turn CT VT WT) (before after : PromptLedger.t) (fin : list Event.t) : Prop :=
  ∃ fresh text seq, answer t = Some text ∧ text ≠ "" ∧
    append blake3 before (Segment.mk fresh (SegmentKind.Turn (turn_id t) RAssistant)
      [Block.Text text]) = Ok (seq, after) ∧
    fin = [Event.SegmentSealed seq (prefix_hash blake3 after); Event.TurnCompleted (turn_id t)].

Lemma record_static io a t t' evs r :
  record sql_length io a t = (t', evs, r) →
  turn_id t' = turn_id t ∧ session t' = session t ∧ turn_claim t' = turn_claim t ∧
  finished t' = finished t ∧ blind_rederivation t' = blind_rederivation t ∧
  (answer t ≠ None → answer t' = answer t).
Proof.
  unfold record. intros E.
  repeat match type of E with
  | context [match ?x with _ => _ end] => destruct x eqn:?
  end; simplify_eq/=; try done.
  split_and!; try done. intros Hn. to_prop. by destruct (answer t).
Qed.

Lemma run_turn_inv ops w votes fin before :
  let '(t, ledger, log) := w in
  turn_inv t votes fin log →
  (finished t = false ∧ ledger = before ∨ sealed_as t before ledger fin) →
  let '(t', ledger', log') := run_turn ops w in
  ∃ votes' fin', turn_inv t' (votes ++ votes') fin' log' ∧ turn_id t' = turn_id t ∧
    session t' = session t ∧ turn_claim t' = turn_claim t ∧
    (finished t' = false ∧ ledger' = before ∨ sealed_as t' before ledger' fin').
Proof.
  revert w votes fin. induction ops as [|o ops IH]; intros [[t ledger] log] votes fin Hinv Hl.
  { simpl. exists [], fin. by rewrite app_nil_r. }
  rewrite run_turn_cons. destruct o as [io a|fresh]; cbn [apply_op].
  - destruct (record sql_length io a t) as [[t1 evs] r] eqn:E.
    destruct (inv_record _ _ _ _ _ _ _ _ _ Hinv E) as (_ & new & Hinv1 & _).
    apply record_static in E as (Hid & Hse & Hcl & Hfin & _ & Hans).
    assert (Hl1 : finished t1 = false ∧ ledger = before ∨ sealed_as t1 before ledger fin).
    { rewrite Hfin. destruct Hl as [Hl|(fr & text & seq & Ha & Hrest)]; [by left|right].
      exists fr, text, seq. rewrite Hans, Hid by congruence. done. }
    specialize (IH (t1, ledger, log ++ evs) _ fin Hinv1 Hl1). simpl in IH.
    destruct (run_turn ops (t1, ledger, log ++ evs)) as [[t' ledger'] log'].
    destruct IH as (votes' & fin' & Hi & ? & ? & ? & Hs).
    exists (new ++ votes'), fin'. rewrite (assoc_L (++)). split_and!; [done|congruence..|done].
  - destruct (finish blake3 fresh t ledger) as [[[t1 l1] evs] r] eqn:E.
    assert (∃ fin1, turn_inv t1 votes fin1 (log ++ evs) ∧ turn_id t1 = turn_id t ∧
      session t1 = session t ∧ turn_claim t1 = turn_claim t ∧
      (finished t1 = false ∧ l1 = before ∨ sealed_as t1 before l1 fin1)) as
      (fin1 & Hinv1 & Hid & Hse & Hcl & Hl1).
    { destruct (finish_cases _ _ _ _ _ _ _ _ _ _ Hinv E)
        as [(e & -> & -> & -> & ->)|(Hf & Hst & -> & -> & text & seq & Ha & Hne & Happ & ->)].
      { exists fin. by rewrite app_nil_r. }
      destruct Hl as [[_ ->]|(fr & text' & seq' & _ & _ & _ & ->)].
      2: { pose proof (ti_fin _ _ _ _ Hinv) as Hx. rewrite Hf in Hx. symmetry in Hx.
           apply bool_decide_eq_false in Hx. by destruct Hx. }
      eexists. split; [|split_and!; [done|done|done|]].
      2: right; by exists fresh, text, seq.
      pose proof (ti_fin _ _ _ _ Hinv) as Hx. rewrite Hf in Hx. apply fin_nil in Hx as ->.
      apply inv_sealed; [done..|congruence|done]. }
    specialize (IH (t1, l1, log ++ evs) _ fin1 Hinv1 Hl1). simpl in IH.
    destruct (run_turn ops (t1, l1, log ++ evs)) as [[t' ledger'] log'].
    destruct IH as (votes' & fin' & Hi & ? & ? & ? & Hs).
    exists votes', fin'. split_and!; [done|congruence..|done].
Qed.

(** ** A cohort that agrees *)

Definition approve : Verdict.t := Verdict.mk Yes High "" None.

Lemma approve_within_budget : Verdict.within_budget approve.
Proof. split; simpl; lia || done. Qed.

(** While every vote is a yes, the claim is open with the seats [rest] silent, or
    it is reached. *)
Definition yes_so_far (t : turn CT VT WT) (text : string) (rest : list Id) : Prop :=
  agree (board t) (database t) ∧ answer t = Some text ∧ finished t = false ∧
  blind_rederivation t = false ∧
  ∃ st, board t !! turn_claim t = Some st ∧
    (ClaimState.status st = Reached ∨
     ClaimState.status st = Open ∧ rest ≠ [] ∧ NoDup rest ∧ (ClaimState.proposer st ∉ rest) ∧
     (∀ a, a ∈ rest → ClaimState.validators st !! a = Some None) ∧
     Tally.yes (ClaimState.tally st) + length rest = Tally.k (ClaimState.tally st) ∧
     Tally.no (ClaimState.tally st) = 0 ∧ Tally.abstain (ClaimState.tally st) = 0 ∧
     Tally.needed (ClaimState.tally st) = quorum (Tally.k (ClaimState.tally st))).

(** The approval of every agent of a list, in order. *)
Definition approvals (agents : list Id) : list turn_op :=
  (λ a, ORecord true (PeerAnswer.validation a approve)) <$> agents.

Lemma yes_status x rest :
  Tally.yes x + S rest = Tally.k x → Tally.no x = 0 → Tally.abstain x = 0 →
  Tally.needed x = quorum (Tally.k x) →
  Tally.status (Tally.count x Yes) = Reached ∨
  Tally.status (Tally.count x Yes) = Open ∧ rest ≠ 0.
Proof.
  intros Hk Hn Ha Hq. pose proof (quorum_le (Tally.k x)).
  unfold Tally.status, Tally.is_reached, Tally.is_unreachable, Tally.pending. simpl.
  repeat case_match; to_prop; try (left; done); right; split; done || lia.
Qed.

(** An approval while the claim is open. *)
Lemma approve_open t text a rest v :
  (∀ s, sql_length s ≤ String.length s) → Verdict.vote v = Yes → Verdict.within_budget v →
  yes_so_far t text (a :: rest) → status t = Some Open →
  ∃ t' evs step, record sql_length true (PeerAnswer.validation a v) t = (t', evs, Ok step) ∧
    yes_so_far t' text rest ∧ turn_id t' = turn_id t ∧
    (step = StepReached ∧ status t' = Some Reached ∨ step = Collecting ∧ status t' = Some Open).
Proof.
  intros Hsql Hyes Hbudget (Hag & Hans & Hfin & Hbl & st & Hst & Hcase) Hopen.
  rewrite (status_eq t st Hst) in Hopen. injection Hopen as Ho.
  destruct Hcase as [Hr|(_ & _ & Hnd & Hp & Hvs & Hy & Hno & Hab & Hq)]; [congruence|].
  rewrite (record_vote_eq true _ t v) by (done || congruence).
  unfold board_vote. rewrite Hbl. cbn [andb PeerAnswer.agent PeerAnswer.validation].
  destruct (vote_counted sql_length (board t) (database t) (turn_claim t) a v st)
    as (b' & d' & o & Hv); try done; [set_solver|set_solver|].
  rewrite Hv. destruct (agree_vote _ _ _ _ _ _ _ _ _ _ Hag Hv) as (Hag' & _ & Hok).
  destruct (Hok o eq_refl) as (st' & Hst' & _ & _ & _ & -> & ->).
  assert (st' = st) as -> by congruence. rewrite Hyes.
  assert (∀ step t', t' = with_step step (with_board (<[turn_claim t:=voted st a Yes]> (board t)) d' t) →
    status t' = Some (ClaimState.status (voted st a Yes))) as Hstatus.
  { intros step t' ->. unfold status, outcome. simpl. by rewrite lookup_insert_eq. }
  eexists _, _, _. split; [reflexivity|].
  pose proof (yes_status (ClaimState.tally st) (length rest) Hy Hno Hab Hq) as Hs.
  split_and!; [|done|].
  - rewrite <- Hyes. split_and!; try done. eexists. cbn [board with_step with_board turn_claim].
    rewrite lookup_insert_eq. split; [done|]. cbn [voted ClaimState.status]. rewrite Hyes.
    apply NoDup_cons in Hnd as [Ha Hnd].
    destruct Hs as [?|[? Hl]]; [by left|right]. split_and!; try done.
    + by intros ->.
    + set_solver.
    + intros x Hx. cbn [voted ClaimState.validators].
      rewrite lookup_insert_ne by (intros <-; done). set_solver.
    + simpl in *. lia.
  - rewrite (Hstatus _ _ eq_refl). cbn [Outcome.status]. cbn [voted ClaimState.status].
    destruct Hs as [->|[-> _]]; [by left|by right].
Qed.

Lemma approve_step t text a rest ledger log :
  (∀ s, sql_length s ≤ String.length s) → yes_so_far t text (a :: rest) →
  ∃ t' log', apply_op (t, ledger, log) (ORecord true (PeerAnswer.validation a approve)) =
    (t', ledger, log') ∧ yes_so_far t' text rest ∧ turn_id t' = turn_id t.
Proof.
  intros Hsql Hy. cbn [apply_op]. pose proof Hy as (Hag & Hans & Hfin & Hbl & st & Hst & Hcase).
  assert (ClaimState.status st = Reached ∨ ClaimState.status st = Open) as [Hr|Ho]
    by (destruct Hcase as [?|[? _]]; auto).
  - rewrite (record_vote_eq true _ t approve) by (done || congruence).
    unfold board_vote. rewrite Hbl. cbn [andb PeerAnswer.agent PeerAnswer.validation].
    unfold vote. rewrite Hst, Hr. simpl. rewrite with_board_id, app_nil_r.
    exists t, log. split_and!; [done| |done]. split_and!; try done. exists st. by split; [|left].
  - destruct (approve_open t text a rest approve Hsql eq_refl approve_within_budget Hy)
      as (t' & evs & step & -> & ? & ? & _).
    + by rewrite (status_eq t st Hst), Ho.
    + by eexists _, _.
Qed.

Lemma approvals_reach text rest t ledger log :
  (∀ s, sql_length s ≤ String.length s) → yes_so_far t text rest →
  ∃ t' log', run_turn (approvals rest) (t, ledger, log) = (t', ledger, log') ∧
    yes_so_far t' text [] ∧ turn_id t' = turn_id t.
Proof.
  intros Hsql. revert t log. induction rest as [|a rest IH]; intros t log Hy.
  { exists t, log. done. }
  destruct (approve_step t text a rest ledger log Hsql Hy) as (t1 & log1 & E & Hy1 & Hid).
  destruct (IH t1 log1 Hy1) as (t' & log' & E' & ? & ?). exists t', log'.
  unfold approvals. cbn [fmap list_fmap]. rewrite run_turn_cons, E.
  split_and!; [exact E'|done|congruence].
Qed.

(** ** A cohort of one agent, listed twice *)

(** Nobody can vote on the claim, which therefore stays open. *)
Definition stuck (t : turn CT VT WT) (proposer : Id) : Prop :=
  finished t = false ∧ blind_rederivation t = false ∧
  ∃ st, board t !! turn_claim t = Some st ∧ ClaimState.status st = Open ∧
    ClaimState.proposer st = proposer ∧ ClaimState.validators st = ∅.

Lemma vote_stuck io (t : turn CT VT WT) proposer a verdict :
  stuck t proposer →
  ∃ e, vote sql_length io (turn_claim t) a verdict (board t) (database t) =
    (board t, database t, Err e).
Proof.
  intros (_ & _ & st & Hst & Ho & Hp & Hv). unfold vote. rewrite Hst, Ho. simpl.
  case_bool_decide; [by eexists|]. unfold record_vote. rewrite Hv, lookup_empty. simpl.
  eexists. rewrite insert_id by done. done.
Qed.

Lemma stuck_step o (t : turn CT VT WT) ledger log proposer :
  stuck t proposer → ∃ t', apply_op (t, ledger, log) o = (t', ledger, log) ∧ stuck t' proposer.
Proof.
  intros Hs. pose proof Hs as (Hfin & Hbl & st & Hst & Ho & Hp & Hv).
  destruct o as [io a|fresh]; cbn [apply_op].
  - unfold record. rewrite Hbl. cbn [andb].
    destruct (PeerAnswer.text a) as [text|].
    + destruct (bool_decide (PeerAnswer.verdict a ≠ None)), (is_first t (PeerAnswer.agent a)),
        (bool_decide (text = "")), (bool_decide (answer t ≠ None)); simpl;
        rewrite app_nil_r; eexists; (split; [reflexivity|]); done.
    + case_bool_decide; [simpl; rewrite app_nil_r; by exists t|].
      destruct (PeerAnswer.verdict a) as [verdict|]; [|simpl; rewrite app_nil_r; by exists t].
      destruct (vote_stuck io t proposer (PeerAnswer.agent a) verdict Hs) as [e ->].
      rewrite with_board_id, app_nil_r. by exists t.
  - unfold finish. rewrite Hfin, (status_eq t st Hst), Ho, app_nil_r. by exists t.
Qed.

Lemma stuck_run ops (t : turn CT VT WT) ledger log proposer :
  stuck t proposer →
  ∃ t', run_turn ops (t, ledger, log) = (t', ledger, log) ∧ stuck t' proposer.
Proof.
  revert t. induction ops as [|o ops IH]; intros t Hs; [by exists t|].
  destruct (stuck_step o t ledger log proposer Hs) as (t1 & E & Hs1).
  rewrite run_turn_cons, E. by apply IH.
Qed.

Lemma start_yes_so_far io fresh_turn fresh_claim clock b d task proposer others t evs text :
  agree b d → NoDup (proposer :: others) → others ≠ [] →
  start_shared sql_length io fresh_turn fresh_claim clock b d task (proposer :: others) =
    Ok (t, evs) →
  yes_so_far (with_answer text t) text others.
Proof.
  intros Hb Hnd Hne Hs.
  destruct (inv_start _ _ _ _ _ _ _ _ _ _ Hb Hs)
    as (Hinv & Hse & _ & _ & _ & Hopen & Hbl & st & p & Hst & [= <-] & Hv).
  assert (Hb1 : blind_rederivation t = false).
  { rewrite Hbl. apply Nat.eqb_neq. simpl. destruct others; [done|]. simpl. lia. }
  rewrite Hb1 in Hv.
  destruct (ti_claim _ _ _ _ Hinv) as (st0 & p & Hst0 & Hp & Hh & _ & _ & _ & Hf).
  assert (st0 = st) as -> by congruence.
  assert (p = proposer) as -> by (rewrite Hse in Hh; simpl in Hh; congruence).
  assert (Hnf : finished t = false) by (rewrite (ti_fin _ _ _ _ Hinv); done).
  rewrite (status_eq t st Hst) in Hopen. injection Hopen as Ho.
  pose proof (ti_agree _ _ _ _ Hinv (turn_claim t)) as Hok. rewrite Hst in Hok.
  destruct Hok as [(Hr & Ht & _) _].
  apply NoDup_cons in Hnd as [Hnp Hnd].
  assert (Hfil : List.filter (λ agent, negb (bool_decide (agent = proposer))) (proposer :: others) =
    others).
  { simpl. rewrite bool_decide_eq_true_2 by done. simpl. clear -Hnp.
    induction others as [|x l IH]; [done|]. apply not_elem_of_cons in Hnp as [Hx Hl]. simpl.
    rewrite bool_decide_eq_false_2 by congruence. simpl. by rewrite IH. }
  rewrite Hfil in Hv. rewrite Hv in Hr, Ht.
  rewrite empty_roster_votes in Ht. rewrite empty_roster_size in Hr by done.
  assert (Hib : is_blind st = false).
  { unfold is_blind. rewrite Hv, Hp, empty_roster_lookup, decide_False by done.
    rewrite bool_decide_eq_false_2 by (intros Hx; by apply Hx). by rewrite andb_false_r. }
  unfold base_tally in Ht. rewrite Hib in Hr, Ht.
  split_and!; [by apply (ti_agree _ _ _ _ Hinv)|done|done|done|]. exists st. split; [done|].
  right. rewrite Ht, Hp. simpl. split_and!; try done.
  - intros a Ha. rewrite Hv, empty_roster_lookup. by rewrite decide_True.
  - destruct Hr as [_ ->]. lia.
Qed.
End transcript.

(** ** Properties *)

(** The database the witnesses run over. *)
Abbreviation witness_db := (Db.t (gmap N ClaimRow.t) (gmap (N * N) unit) (gmap (N * N) VoteRow.t)).
Abbreviation witness_turn :=
  (turn (gmap N ClaimRow.t) (gmap (N * N) unit) (gmap (N * N) VoteRow.t)).

Definition witness_start (agents : list Id) : result (witness_turn * list Event.t) TurnError :=
  start_shared String.length true 1%N 2%N (Some 5%Z) ∅ (Db.mk t_empty t_empty t_empty) "task" agents.

(** C4. The transcript of a turn tells exactly what happened.  However the peers
    answer and however often the turn is asked to finish, database failures and
    refused calls included, the events a turn has published are: its start and its
    claim, one vote event for each vote of the roster, in order and each voter once,
    then - exactly when those votes close the claim - one quorum verdict with the
    tally's counts and one abort of the cohort, and last - exactly when the turn is
    finished - one seal and one completion.  A finished turn appended one
    assistant segment, with the proposer's answer as its text, to the ledger it was
    given; an unfinished one left the ledger alone. *)
Theorem turn_transcript_exact (sql_length : string → nat) (blake3 : list byte → list byte)
    (CT VT WT : Type)
    (HC : Table CT Id ClaimRow.t) (HV : Table VT (Id * Id) unit) (HW : Table WT (Id * Id) VoteRow.t)
    (LC : TableLaws CT Id ClaimRow.t) (LV : TableLaws VT (Id * Id) unit)
    (LW : TableLaws WT (Id * Id) VoteRow.t)
    (io : bool) (fresh_turn fresh_claim : Id) (clock : option Z) (b : gmap Id ClaimState.t)
    (d : Db.t CT VT WT) (task : string) (agents : list Id) (t : turn CT VT WT)
    (evs : list Event.t) (ops : list turn_op) (ledger : PromptLedger.t)
    (Hagree : agree b d)
    (Hstart : start_shared sql_length io fresh_turn fresh_claim clock b d task agents =
      Ok (t, evs)) :
  let '(t', ledger', log) := run_turn sql_length blake3 ops (t, ledger, evs) in
  ∃ proposer st votes fin,
    head agents = Some proposer ∧ board t' !! turn_claim t = Some st ∧
    log = [Event.TurnStarted fresh_turn; Event.ClaimPublished (turn_claim t) proposer] ++
      (vote_event (turn_claim t) <$> votes) ++
      close_events (turn_claim t) (ClaimState.status st) (ClaimState.tally st) ++ fin ∧
    NoDup (fst ∘ fst <$> votes) ∧ votes_seen t' = length votes ∧
    (∀ a v, (∃ c, (a, v, c) ∈ votes) ↔ ClaimState.validators st !! a = Some (Some v)) ∧
    (finished t' = false ∧ fin = [] ∧ ledger' = ledger ∨
     finished t' = true ∧ ClaimState.status st = Reached ∧ turn_id t' = fresh_turn ∧
     sealed_as blake3 t' ledger ledger' fin).
Proof.
  destruct (inv_start _ _ _ _ _ _ _ _ _ _ _ Hagree Hstart) as (Hinv & Hse & _ & Hid & _ & Hop & _).
  assert (Hf : finished t = false) by (rewrite (ti_fin _ _ _ _ Hinv); done).
  pose proof (run_turn_inv sql_length blake3 ops (t, ledger, evs) [] [] ledger Hinv
    (or_introl (conj Hf eq_refl))) as H.
  destruct (run_turn _ _ _ _) as [[t' ledger'] log].
  destruct H as (votes & fin & Hi & Hid' & Hse' & Hcl & Hl). simpl in Hi.
  destruct (ti_claim _ _ _ _ Hi) as (st & p & Hst & Hp & Hh & Hlog & Hnd & Hv & Hr).
  exists p, st, votes, fin. rewrite <- Hcl. split_and!; [congruence|done| |done| |done|].
  - by rewrite <- Hid, <- Hid'.
  - by apply (ti_seen _ _ _ _ Hi).
  - pose proof (ti_fin _ _ _ _ Hi) as Hfin. destruct Hl as [[Hf' ->]|Hs].
    + left. rewrite Hf' in Hfin. by apply fin_nil in Hfin.
    + right. assert (Hf' : finished t' = true).
      { rewrite Hfin. destruct Hs as (? & ? & ? & _ & _ & _ & ->). done. }
      split_and!; [done|by apply Hr|congruence|done].
Qed.

Lemma turn_transcript_exact_witness :
  let ops := [ORecord true (PeerAnswer.proposal 7%N "answer");
              ORecord true (PeerAnswer.validation 8%N approve); OFinish 3%N] in
  ∃ t evs, witness_start [7%N; 8%N] = Ok (t, evs) ∧
    let w := run_turn String.length id ops (t, PromptLedger.new, evs) in
    finished w.1.1 = true ∧ length w.2 = 7 ∧
    ∃ st votes fin, board w.1.1 !! turn_claim t = Some st ∧
      w.2 = [Event.TurnStarted 1%N; Event.ClaimPublished (turn_claim t) 7%N] ++
        (vote_event (turn_claim t) <$> votes) ++
        close_events (turn_claim t) (ClaimState.status st) (ClaimState.tally st) ++ fin.
Proof.
  intros ops. destruct (witness_start [7%N; 8%N]) as [[t evs]|] eqn:E;
    [|vm_compute in E; discriminate].
  exists t, evs. split; [reflexivity|]. intros w.
  assert (Hw : (finished w.1.1, length w.2) = (true, 7)).
  { subst w. vm_compute in E. injection E as <- <-. vm_compute. reflexivity. }
  injection Hw as Hf Hl. split; [exact Hf|]. split; [exact Hl|].
  pose proof (turn_transcript_exact String.length id _ _ _ _ _ _ _ _ _ _ _ _ _ _ _ _ _ _ _ ops
    PromptLedger.new (agree_empty (CT := gmap N ClaimRow.t)) E) as H.
  subst w. destruct (run_turn _ _ _ _) as [[t' l'] log].
  destruct H as (p & st & votes & fin & [= <-] & Hst & Hlog & _). exists st, votes, fin. done.
Defined.

(** A cohort that agrees finishes.  Whenever a turn of two or more distinct
    agents has started, its proposer submitting a non-empty answer, the others
    approving it and the turn being asked to finish leads, over a working database
    and a ledger that does not hold the new segment's identifier, to a finished turn
    whose answer is sealed - whatever the cohort's size, so no threshold leaves an
    agreeing cohort waiting. *)
Theorem agreeing_cohort_finishes (sql_length : string → nat) (blake3 : list byte → list byte)
    (CT VT WT : Type)
    (HC : Table CT Id ClaimRow.t) (HV : Table VT (Id * Id) unit) (HW : Table WT (Id * Id) VoteRow.t)
    (LC : TableLaws CT Id ClaimRow.t) (LV : TableLaws VT (Id * Id) unit)
    (LW : TableLaws WT (Id * Id) VoteRow.t)
    (io : bool) (fresh_turn fresh_claim fresh_segment proposer : Id) (clock : option Z)
    (b : gmap Id ClaimState.t) (d : Db.t CT VT WT) (task text : string) (others : list Id)
    (t : turn CT VT WT) (evs : list Event.t) (ledger : PromptLedger.t)
    (Hsql : ∀ s, sql_length s ≤ String.length s) (Hagree : agree b d)
    (Hdistinct : NoDup (proposer :: others)) (Hothers : others ≠ []) (Htext : text ≠ "")
    (Hfresh : fresh_segment ∉ ids ledger)
    (Hstart : start_shared sql_length io fresh_turn fresh_claim clock b d task
      (proposer :: others) = Ok (t, evs)) :
  let ops := ORecord true (PeerAnswer.proposal proposer text) :: approvals others ++
               [OFinish fresh_segment] in
  let '(t', ledger', _) := run_turn sql_length blake3 ops (t, ledger, evs) in
  finished t' = true ∧
  PromptLedger.entries ledger' = PromptLedger.entries ledger ++
    [Sealed.seal blake3 (PromptLedger.next_seq ledger)
       (Segment.mk fresh_segment (SegmentKind.Turn fresh_turn RAssistant) [Block.Text text])].
Proof.
  pose proof (inv_start _ _ _ _ _ _ _ _ _ _ _ Hagree Hstart) as (_ & Hse & _ & Hid & Ha & _).
  pose proof (start_yes_so_far _ _ _ _ _ _ _ _ _ _ _ _ text Hagree Hdistinct Hothers Hstart) as Hy.
  cbv zeta. rewrite run_turn_cons. cbn [apply_op].
  assert (record sql_length true (PeerAnswer.proposal proposer text) t =
    (with_answer text t, [], Ok Collecting)) as ->.
  { unfold record, is_first. rewrite Hse, Ha. simpl.
    rewrite (bool_decide_eq_true_2 (Some proposer = Some proposer)) by done. simpl.
    by rewrite bool_decide_eq_false_2. }
  destruct (approvals_reach sql_length blake3 text others _ ledger (evs ++ []) Hsql Hy)
    as (t1 & log1 & E & (_ & Hans & Hfin & _ & st & Hst & Hr) & Hid1).
  destruct Hr as [Hr|(_ & Hn & _)]; [|done].
  unfold run_turn. rewrite foldl_app. unfold run_turn in E. rewrite E. cbn [foldl apply_op].
  unfold finish. rewrite Hfin, (status_eq t1 st Hst), Hr, Hans, bool_decide_eq_false_2 by done.
  rewrite segment_text_ok, Hid1. cbn [with_answer turn_id]. rewrite Hid.
  set (segment := Segment.mk fresh_segment (SegmentKind.Turn fresh_turn RAssistant)
    [Block.Text text]).
  by rewrite (proj2 (append_Ok blake3 ledger segment _ _) (conj Hfresh (conj eq_refl eq_refl))).
Qed.

Lemma agreeing_cohort_finishes_witness :
  ∃ t evs, witness_start [7%N; 8%N; 9%N] = Ok (t, evs) ∧
    finished (run_turn String.length id
      (ORecord true (PeerAnswer.proposal 7%N "answer") :: approvals [8%N; 9%N] ++ [OFinish 3%N])
      (t, PromptLedger.new, evs)).1.1 = true.
Proof.
  destruct (witness_start [7%N; 8%N; 9%N]) as [[t evs]|] eqn:E; [|vm_compute in E; discriminate].
  exists t, evs. split; [reflexivity|].
  assert (Hd : NoDup [7%N; 8%N; 9%N]) by (apply (bool_decide_unpack _); reflexivity).
  assert (Hn : 3%N ∉ ids PromptLedger.new) by (apply (bool_decide_unpack _); reflexivity).
  assert (Hs : ∀ s, String.length s ≤ String.length s) by done.
  assert (Ho : [8%N; 9%N] ≠ []) by done. assert (Ht : "answer" ≠ "") by done.
  pose proof (agreeing_cohort_finishes String.length id _ _ _ _ _ _ _ _ _ _ _ _ 3%N _ _ _ _ _
    "answer" [8%N; 9%N] t evs PromptLedger.new Hs (agree_empty (CT := gmap N ClaimRow.t))
    Hd Ho Ht Hn E) as H. cbv zeta in H.
  destruct (run_turn _ _ _ _) as [[t' l'] log]. exact (proj1 H).
Defined.

(** A cohort of one agent listed twice never answers.  [start_shared] takes the
    validators to be the agents other than the proposer, but decides on a blind
    rederivation by the length of the list: a list that repeats one agent starts a
    turn nobody may vote on, and whatever is then recorded, that turn publishes
    nothing further, never finishes and never touches the ledger. *)
Theorem repeated_agent_never_finishes (sql_length : string → nat)
    (blake3 : list byte → list byte) (CT VT WT : Type)
    (HC : Table CT Id ClaimRow.t) (HV : Table VT (Id * Id) unit) (HW : Table WT (Id * Id) VoteRow.t)
    (LC : TableLaws CT Id ClaimRow.t) (LV : TableLaws VT (Id * Id) unit)
    (LW : TableLaws WT (Id * Id) VoteRow.t)
    (io : bool) (fresh_turn fresh_claim proposer : Id) (clock : option Z)
    (b : gmap Id ClaimState.t) (d : Db.t CT VT WT) (task : string) (n : nat)
    (t : turn CT VT WT) (evs : list Event.t) (ledger : PromptLedger.t) (ops : list turn_op)
    (Hagree : agree b d)
    (Hstart : start_shared sql_length io fresh_turn fresh_claim clock b d task
      (replicate (n + 2) proposer) = Ok (t, evs)) :
  let '(t', ledger', log) := run_turn sql_length blake3 ops (t, ledger, evs) in
  finished t' = false ∧ ledger' = ledger ∧ log = evs ∧ status t' = Some Open.
Proof.
  pose proof (inv_start _ _ _ _ _ _ _ _ _ _ _ Hagree Hstart)
    as (Hinv & _ & _ & _ & _ & Hop & Hbl & st & p & Hst & Hh & Hv).
  assert (Hb : blind_rederivation t = false).
  { rewrite Hbl, length_replicate. apply Nat.eqb_neq. lia. }
  rewrite (status_eq t st Hst) in Hop. injection Hop as Hop.
  destruct (stuck_run sql_length blake3 ops t ledger evs (ClaimState.proposer st))
    as (t' & -> & Hf & _ & st' & Hst' & Ho & _).
  - split_and!; [rewrite (ti_fin _ _ _ _ Hinv); done|done|]. exists st. split_and!; [done..|].
    rewrite Hb in Hv. rewrite Hv.
    assert (p = proposer) as -> by (rewrite Nat.add_comm in Hh; simpl in Hh; congruence).
    assert (Hnil : List.filter (λ agent, negb (bool_decide (agent = proposer)))
      (replicate (n + 2) proposer) = []).
    { clear. induction (n + 2) as [|m IH]; [done|]. simpl. by rewrite bool_decide_eq_true_2. }
    by rewrite Hnil.
  - split_and!; [done|done|done|]. by rewrite (status_eq t' st' Hst'), Ho.
Qed.

Lemma repeated_agent_never_finishes_witness :
  ∃ t evs, witness_start [7%N; 7%N] = Ok (t, evs) ∧
    ∀ ops, finished (run_turn String.length id ops (t, PromptLedger.new, evs)).1.1 = false.
Proof.
  destruct (witness_start [7%N; 7%N]) as [[t evs]|] eqn:E; [|vm_compute in E; discriminate].
  exists t, evs. split; [reflexivity|]. intros ops.
  pose proof (repeated_agent_never_finishes String.length id _ _ _ _ _ _ _ _ _ _ _ _ 7%N _ _ _ _
    0 t evs PromptLedger.new ops (agree_empty (CT := gmap N ClaimRow.t)) E) as H.
  destruct (run_turn _ _ _ _) as [[t' l'] log]. exact (proj1 H).
Defined.
