(* ===== verification/FileSystem.v ===== *)
(** * The file system a process sees

    What the crates rely on of [std::fs]: names that denote inodes, handles that
    keep an inode whatever happens to its name, creation that refuses an existing
    name, and a rename that replaces its target in one step.  Names are canonical
    absolute paths; how the directories of a path resolve is a parameter where it
    matters. *)

From S2P Require Import Prelude Text Sealing.

Module Fs.
Record inode := mkInode { regular : bool; content : list byte }.

Record t := mk { names : gmap string N; inodes : gmap N inode }.

#[global] Instance inode_eq_dec : EqDecision inode.
Proof. solve_decision. Defined.
#[global] Instance t_eq_dec : EqDecision t.
Proof. solve_decision. Defined.

Definition empty : t := mk ∅ ∅.

(** An inode number no name and no file uses. *)
Definition next (fs : t) : N :=
  N.succ (foldr N.max 0 ((fst <$> map_to_list (inodes fs)) ++ (snd <$> map_to_list (names fs))))%N.

(** The bytes a name's file holds. *)
Definition read_name (name : string) (fs : t) : option (list byte) :=
  i ← names fs !! name; content <$> inodes fs !! i.

(** [OpenOptions::new().write(true).create_new(true).open(name)]. *)
Definition create_new (name : string) (fs : t) : option (N * t) :=
  match names fs !! name with
  | Some _ => None
  | None => Some (next fs, mk (<[name := next fs]> (names fs))
                              (<[next fs := mkInode true []]> (inodes fs)))
  end.

(** Writing through a handle: the first [n] bytes of [bytes] arrive. *)
Definition write (i : N) (bytes : list byte) (fs : t) : t :=
  mk (names fs) (alter (λ f, mkInode (regular f) bytes) i (inodes fs)).

(** [std::fs::rename]: the old name goes, the new one denotes its file. *)
Definition rename (old target : string) (fs : t) : option t :=
  match names fs !! old with
  | Some i => Some (mk (<[target := i]> (delete old (names fs))) (inodes fs))
  | None => None
  end.

(** [std::fs::remove_file]. *)
Definition remove (name : string) (fs : t) : t :=
  mk (delete name (names fs)) (inodes fs).
End Fs.

(** ** Paths *)

Definition slash : byte := Ascii.ascii_of_nat 47.

(** The text before and after the last separator. *)
Fixpoint rsplit_slash (p : string) : option (string * string) :=
  match p with
  | EmptyString => None
  | String c p =>
      match rsplit_slash p with
      | Some (dir, name) => Some (String c dir, name)
      | None => if decide (c = slash) then Some (EmptyString, p) else None
      end
  end.

(** [Path::parent] and [Path::file_name] of a path without empty components. *)
Definition parent (p : string) : option string :=
  if bool_decide (p = "" ∨ p = "/") then None
  else match rsplit_slash p with
  | Some (EmptyString, _) => Some "/"
  | Some (dir, _) => Some dir
  | None => Some ""
  end.

Definition file_name (p : string) : option string :=
  if bool_decide (p = "" ∨ p = "/") then None
  else match rsplit_slash p with
  | Some (_, name) => Some name
  | None => Some p
  end.

(** [Path::join] with a relative name. *)
Definition join (dir name : string) : string :=
  if bool_decide (dir = "" ∨ dir = "/") then (dir +:+ name)%string
  else (dir +:+ "/" +:+ name)%string.

(** [Path::with_file_name], of a path that does not end in dots. *)
Definition with_file_name (p name : string) : string :=
  match file_name p with
  | Some _ => join (default "" (parent p)) name
  | None => join p name
  end.

Lemma string_length_app s1 s2 :
  String.length (s1 +:+ s2) = String.length s1 + String.length s2.
Proof. induction s1; simpl; auto. Qed.

Lemma rsplit_slash_Some p dir name : rsplit_slash p = Some (dir, name) → p = dir +:+ "/" +:+ name.
Proof.
  revert dir. induction p as [|c p IH]; intros dir; simpl; [done|].
  destruct (rsplit_slash p) as [[d n]|] eqn:E.
  - intros [= <- <-]. by rewrite (IH d eq_refl).
  - destruct (decide (c = slash)) as [->|]; [|done]. by intros [= <- <-].
Qed.

Lemma parent_shorter p q : parent p = Some q → String.length q < String.length p.
Proof.
  unfold parent. case_bool_decide as Hp; [done|].
  destruct (rsplit_slash p) as [[d n]|] eqn:E.
  - apply rsplit_slash_Some in E as ->. rewrite !string_length_app in *. destruct d as [|c d].
    + intros [= <-]. destruct n; simpl in *; [naive_solver|lia].
    + intros [= <-]. simpl. lia.
  - intros [= <-]. destruct p; [naive_solver|]. simpl. lia.
Qed.

Lemma path_length p :
  String.length p ≤ String.length (default "." (parent p)) + 1 +
                    String.length (default "supra-restore" (file_name p)).
Proof.
  unfold parent, file_name. destruct (bool_decide (p = "" ∨ p = "/")) eqn:E.
  { to_prop. destruct E as [-> | ->]; simpl; lia. }
  destruct (rsplit_slash p) as [[d n]|] eqn:Hs; simpl; [|lia].
  apply rsplit_slash_Some in Hs as ->. rewrite !string_length_app.
  destruct d; simpl; lia.
Qed.

Lemma join_length dir name : String.length dir + String.length name ≤ String.length (join dir name).
Proof. unfold join. case_bool_decide; rewrite !string_length_app; simpl; lia. Qed.

Lemma with_file_name_longer q name :
  String.length (default "" (file_name q)) + 2 ≤ String.length name →
  String.length q < String.length (with_file_name q name).
Proof.
  unfold with_file_name. pose proof (path_length q) as Hl.
  destruct (file_name q) as [f|] eqn:Ef; cbn in *.
  - pose proof (join_length (default "" (parent q)) name). intros.
    destruct (parent q) as [d|] eqn:Ed; cbn in *; [lia|].
    unfold parent, file_name in *. case_bool_decide; [done|]. by destruct (rsplit_slash q) as [[[]]|].
  - pose proof (join_length q name). lia.
Qed.

(** ** Laws of the operations *)

Lemma le_max_fold (l : list N) x : x ∈ l → (x ≤ foldr N.max 0 l)%N.
Proof.
  induction l as [|y l IH]; [by intros ?%elem_of_nil|].
  intros [->|Hx]%elem_of_cons; simpl; [lia|]. specialize (IH Hx). lia.
Qed.

Lemma next_fresh_name name fs i : Fs.names fs !! name = Some i → i ≠ Fs.next fs.
Proof.
  intros Hn. enough (i < Fs.next fs)%N by lia. unfold Fs.next. apply N.lt_succ_r, le_max_fold.
  apply elem_of_app. right. apply list_elem_of_fmap. exists (name, i).
  split; [done|]. by apply elem_of_map_to_list.
Qed.

Lemma next_fresh_inode fs i : is_Some (Fs.inodes fs !! i) → i ≠ Fs.next fs.
Proof.
  intros [f Hf]. enough (i < Fs.next fs)%N by lia. unfold Fs.next. apply N.lt_succ_r, le_max_fold.
  apply elem_of_app. left. apply list_elem_of_fmap. exists (i, f).
  split; [done|]. by apply elem_of_map_to_list.
Qed.

(** The file system with a new file of the given bytes under a name, and with one
    that no name denotes. *)
Definition with_file (name : string) (bytes : list byte) (fs : Fs.t) : Fs.t :=
  Fs.mk (<[name := Fs.next fs]> (Fs.names fs))
    (<[Fs.next fs := Fs.mkInode true bytes]> (Fs.inodes fs)).

Definition with_orphan (bytes : list byte) (fs : Fs.t) : Fs.t :=
  Fs.mk (Fs.names fs) (<[Fs.next fs := Fs.mkInode true bytes]> (Fs.inodes fs)).

Lemma create_new_spec name fs :
  Fs.names fs !! name = None → Fs.create_new name fs = Some (Fs.next fs, with_file name [] fs).
Proof. unfold Fs.create_new. by intros ->. Qed.

Lemma write_with_file name bytes bytes' fs :
  Fs.write (Fs.next fs) bytes' (with_file name bytes fs) = with_file name bytes' fs.
Proof. unfold Fs.write, with_file. simpl. by rewrite alter_insert_eq. Qed.

Lemma remove_with_file name bytes fs :
  Fs.names fs !! name = None → Fs.remove name (with_file name bytes fs) = with_orphan bytes fs.
Proof. intros Hn. unfold Fs.remove, with_file, with_orphan. simpl. by rewrite delete_insert_id. Qed.

Lemma rename_with_file name target bytes fs :
  Fs.names fs !! name = None →
  Fs.rename name target (with_file name bytes fs) = Some (with_file target bytes fs).
Proof.
  intros Hn. unfold Fs.rename, with_file. simpl. rewrite lookup_insert_eq. by rewrite delete_insert_id.
Qed.

Lemma remove_absent name fs : Fs.names fs !! name = None → Fs.remove name fs = fs.
Proof. intros Hn. destruct fs. unfold Fs.remove. simpl in *. by rewrite delete_id. Qed.

Lemma read_with_file name bytes fs : Fs.read_name name (with_file name bytes fs) = Some bytes.
Proof. unfold Fs.read_name, with_file. simpl. by rewrite lookup_insert_eq; simpl; rewrite lookup_insert_eq. Qed.

Lemma read_with_orphan name bytes fs : Fs.read_name name (with_orphan bytes fs) = Fs.read_name name fs.
Proof.
  unfold Fs.read_name, with_orphan. simpl.
  destruct (Fs.names fs !! name) as [i|] eqn:E; [|done]. simpl.
  rewrite lookup_insert_ne; [done|]. intros Hi. by apply (next_fresh_name name fs i).
Qed.

Lemma read_with_other name name' bytes fs :
  name ≠ name' → Fs.read_name name (with_file name' bytes fs) = Fs.read_name name fs.
Proof.
  intros Hne. rewrite <- (read_with_orphan name bytes fs). unfold Fs.read_name, with_file, with_orphan.
  simpl. by rewrite lookup_insert_ne.
Qed.

(** A file written beside its target and renamed over it: in every state on the way
    the target has its old or the complete new bytes, and only the temporary name
    differs otherwise. *)
Lemma publication_states temporary target bytes fs fs' :
  Fs.names fs !! temporary = None → temporary ≠ target →
  (∃ bs, fs' = with_file temporary bs fs ∨ fs' = with_orphan bs fs) ∨ fs' = with_file target bytes fs →
  (Fs.read_name target fs' = Fs.read_name target fs ∨ Fs.read_name target fs' = Some bytes) ∧
  ∀ name, name ≠ target → name ≠ temporary → Fs.read_name name fs' = Fs.read_name name fs.
Proof.
  intros Hfree Hne [(bs & [-> | ->])| ->]; split.
  - left. by apply read_with_other.
  - intros name _ Hn. by apply read_with_other.
  - left. apply read_with_orphan.
  - intros name _ _. apply read_with_orphan.
  - right. apply read_with_file.
  - intros name Hn _. by apply read_with_other.
Qed.
