(* ===== verification/Traced.v ===== *)
(** * Programs that can be cut short

    A program changes a state (mostly the file system) step by step, may fail, and may
    be cut short by a crash after any step: it yields the states it passes through,
    the last one and its result.  [runs] is its specification: what holds in every
    state on the way, after it returned and after it failed. *)

From S2P Require Import Prelude Text Sealing FileSystem.

Definition T (St E A : Type) : Type := St → list St * St * result A E.

(** Over the file system. *)
Abbreviation M := (T Fs.t).

Definition ret {St E A} (a : A) : T St E A := λ fs, ([], fs, Ok a).

(** A step that does not touch the state. *)
Definition lift {St E A} (r : result A E) : T St E A := λ fs, ([], fs, r).

Definition bind {St E A B} (m : T St E A) (k : A → T St E B) : T St E B := λ fs,
  let '(states, fs1, r) := m fs in
  match r with
  | Err e => (states, fs1, Err e)
  | Ok a => let '(states', fs2, r') := k a fs1 in (states ++ states', fs2, r')
  end.

Notation "'let!' x := m 'in' k" := (bind m (λ x, k))
  (at level 10, x pattern, m at level 200, k at level 200,
   format "'[v' 'let!'  x  :=  m  'in' '/' k ']'") : supra_scope.

(** The state as it is, and a step that changes it. *)
Definition look {St E A} (f : St → A) : T St E A := λ fs, ([], fs, Ok (f fs)).
Definition act {St E} (f : St → St) : T St E unit := λ fs, ([f fs], f fs, Ok tt).

(** [write_all] through a handle: byte by byte, up to the one that failed. *)
Definition write_all {E} (i : N) (bytes : list byte) (failed : option nat) (e : E) : M E unit := λ fs,
  let n := default (length bytes) failed in
  ((λ k, Fs.write i (take k bytes) fs) <$> seq 0 (S n),
   Fs.write i (take n bytes) fs,
   match failed with Some _ => Err e | None => Ok tt end).

(** [std::fs::rename]. *)
Definition rename {E} (old target : string) (refused : bool) (e : E) : M E unit := λ fs,
  match (if refused then None else Fs.rename old target fs) with
  | Some fs' => ([fs'], fs', Ok tt)
  | None => ([], fs, Err e)
  end.

(** What dropping a guard does when the scope is left by [?]. *)
Definition on_error {St E A} (m : T St E A) (cleanup : St → St) : T St E A := λ fs,
  let '(states, fs1, r) := m fs in
  match r with
  | Ok _ => (states, fs1, r)
  | Err _ => (states ++ [cleanup fs1], cleanup fs1, r)
  end.

(** The states a run passes through, its last state and its result. *)
Definition states {St E A} (m : T St E A) (fs : St) : list St := (m fs).1.1.
Definition after {St E A} (m : T St E A) (fs : St) : St := (m fs).1.2.
Definition outcome {St E A} (m : T St E A) (fs : St) : result A E := (m fs).2.

(** ** Specifications *)

Definition runs {St E A} (I : St → Prop) (m : T St E A) (fs : St) (Q : A → St → Prop)
    (X : E → St → Prop) : Prop :=
  Forall I (states m fs) ∧
  match outcome m fs with Ok a => Q a (after m fs) | Err e => X e (after m fs) end.

Section rules.
Context {St E A : Type} (I : St → Prop).
Implicit Types (fs : St) (Q : A → St → Prop) (X : E → St → Prop).

Lemma runs_ret (a : A) fs Q X : Q a fs → runs I (ret a) fs Q X.
Proof. by split. Qed.

Lemma runs_lift (r : result A E) fs Q X :
  (∀ a, r = Ok a → Q a fs) → (∀ e, r = Err e → X e fs) → runs I (lift r) fs Q X.
Proof. intros HQ HX. split; [constructor|]. unfold outcome, after. destruct r; cbn; auto. Qed.

Lemma runs_look (f : St → A) fs Q X : Q (f fs) fs → runs I (look f) fs Q X.
Proof. by split. Qed.

Lemma runs_bind_iff {B} (m : T St E B) (k : B → T St E A) fs Q X :
  runs I (bind m k) fs Q X ↔ runs I m fs (λ b fs', runs I (k b) fs' Q X) X.
Proof.
  unfold runs, states, after, outcome, bind. destruct (m fs) as [[tr fs1] [b|e]]; cbn; [|done].
  destruct (k b fs1) as [[tr' fs2] r]; cbn. rewrite Forall_app. naive_solver.
Qed.

Lemma runs_bind {B} (m : T St E B) (k : B → T St E A) fs Q X :
  runs I m fs (λ b fs', runs I (k b) fs' Q X) X → runs I (bind m k) fs Q X.
Proof. apply runs_bind_iff. Qed.

Lemma runs_mono (J : St → Prop) (m : T St E A) fs Q Q' X X' :
  runs J m fs Q X → (∀ fs, J fs → I fs) → (∀ a fs, Q a fs → Q' a fs) → (∀ e fs, X e fs → X' e fs) →
  runs I m fs Q' X'.
Proof.
  intros [HJ H] HI HQ HX. split; [by eapply Forall_impl|]. destruct (outcome m fs); auto.
Qed.

Lemma runs_on_error (m : T St E A) cleanup fs Q X :
  runs I m fs Q (λ e fs', I (cleanup fs') ∧ X e (cleanup fs')) → runs I (on_error m cleanup) fs Q X.
Proof.
  unfold runs, states, after, outcome, on_error. destruct (m fs) as [[tr fs1] [a|e]]; cbn; [done|].
  rewrite Forall_app. intros (? & ? & ?). by repeat constructor.
Qed.
End rules.

Lemma runs_act {St E} I f fs (Q : unit → St → Prop) (X : E → St → Prop) :
  I (f fs) → Q tt (f fs) → runs I (act f) fs Q X.
Proof. intros HI HQ. split; [by constructor|done]. Qed.

(** Two programs are equal when they run alike; rewriting under [bind] is by this. *)
Lemma bind_ret {St E A B} (a : A) (k : A → T St E B) fs : bind (ret a) k fs = k a fs.
Proof. unfold bind, ret. by destruct (k a fs) as [[? ?] ?]. Qed.

Lemma bind_lift_Ok {St E A B} (a : A) (k : A → T St E B) fs : bind (lift (Ok a)) k fs = k a fs.
Proof. apply bind_ret. Qed.

Lemma runs_Ok {St E A B} I (a : B) (r : result B E) (k : B → T St E A) fs Q X :
  r = Ok a → runs I (k a) fs Q X → runs I (bind (lift r) k) fs Q X.
Proof. intros -> H. by apply runs_bind, runs_lift; [intros a' [= <-]|]. Qed.

(** ** Publication

    A file is written beside its target and renamed over it: every state on the way,
    and whatever is left, has the target as it was or with all of its new bytes, and
    no other name but the temporary one changes. *)

(** [name] and every file but the temporary one read as they did. *)
Definition reads_as (name : string) (bytes : option (list byte)) (others : string → Prop) (fs fs' : Fs.t) : Prop :=
  Fs.read_name name fs' = bytes ∧
  ∀ other, other ≠ name → others other → Fs.read_name other fs' = Fs.read_name other fs.

Section publication.
Context {E : Type} (temporary target : string) (bytes : list byte).

(** The states before the rename. *)
Definition unpublished (fs fs' : Fs.t) : Prop :=
  ∃ bs, fs' = with_file temporary bs fs ∨ fs' = with_orphan bs fs.

Lemma unpublished_reads fs fs' :
  Fs.names fs !! temporary = None → temporary ≠ target → unpublished fs fs' →
  reads_as target (Fs.read_name target fs) (λ other, other ≠ temporary) fs fs'.
Proof.
  intros Hfree Hne (bs & [-> | ->]); split; intros *.
  - by apply read_with_other.
  - intros _ Ho. by apply read_with_other.
  - apply read_with_orphan.
  - intros _ _. apply read_with_orphan.
Qed.

Lemma published_reads fs :
  reads_as target (Some bytes) (λ _, True) fs (with_file target bytes fs).
Proof. split; [apply read_with_file|]. intros other Ho _. by apply read_with_other. Qed.

Lemma runs_write_all I failed (e : E) bs fs (Q : unit → Fs.t → Prop) (X : E → Fs.t → Prop) :
  (∀ fs', unpublished fs fs' → I fs') →
  Q tt (with_file temporary bytes fs) →
  (∀ bs, X e (with_file temporary bs fs)) →
  runs I (write_all (Fs.next fs) bytes failed e) (with_file temporary bs fs) Q X.
Proof.
  intros HI HQ HX. unfold runs, states, after, outcome, write_all. cbn. split.
  - apply Forall_cons. split; [apply HI; exists []; left; by rewrite write_with_file|].
    apply Forall_forall. intros fs' (k & -> & _)%list_elem_of_fmap. apply HI.
    rewrite write_with_file. eexists. by left.
  - destruct failed as [n|]; cbn; rewrite write_with_file; [by apply HX|]. by rewrite firstn_all.
Qed.

Lemma runs_rename I refused (e : E) fs (Q : unit → Fs.t → Prop) (X : E → Fs.t → Prop) :
  Fs.names fs !! temporary = None →
  (refused = false → I (with_file target bytes fs) ∧ Q tt (with_file target bytes fs)) →
  (refused = true → X e (with_file temporary bytes fs)) →
  runs I (rename temporary target refused e) (with_file temporary bytes fs) Q X.
Proof.
  intros Hfree HQ HX. unfold runs, states, after, outcome, rename. rewrite rename_with_file by done.
  destruct refused; cbn; [by auto|]. destruct (HQ eq_refl) as [H1 H2]. split; [by repeat constructor|done].
Qed.

Lemma remove_unpublished fs bs (removed : bool) :
  Fs.names fs !! temporary = None →
  unpublished fs (if removed then Fs.remove temporary (with_file temporary bs fs)
                  else with_file temporary bs fs).
Proof.
  intros Hfree. exists bs. destruct removed; [right; by apply remove_with_file|by left].
Qed.
End publication.
