(* ===== verification/Journal.v ===== *)
(** * The undo journal: [crates/supra_journal]

    Write-ahead snapshots of files and their atomic undo ([journal.rs],
    [schema.rs], [error.rs]).  The table is behind the [Table] interface; the file
    system is the one of FileSystem.v, which other processes may change between any
    two calls of a snapshot.  [io] arguments say which system calls and statements
    fail. *)

From Stdlib Require Import Ascii.
From S2P Require Import Prelude Text Sealing Table FileSystem.

Inductive JournalError :=
| JStore
| JSqlite
| JIo
| NonUtf8Path
| PathIdentityChanged
| JCorrupt (snapshot : Id) (stored computed : ContentHash)
| AlreadyUndone (snapshot : Id)
| JNotFound (snapshot : Id).

#[export] Instance JournalError_eq_dec : EqDecision JournalError.
Proof. solve_decision. Defined.

(** [SnapshotBody]: the second kind of the downstream range. *)
Definition snapshot_body_sealable : Sealable (list byte) :=
  {| CANONICAL_KIND := 17; write_canonical := CanonicalWriter.bytes 1 |}.

(** A row of [journal_snapshot] under its key, with the table's checks. *)
Module SnapshotRow.
Record t := mk {
  path : string;
  before : list byte;
  before_hash : list byte;
  byte_len : Z;
  created_at : Z;
  undone : Z;
}.

Definition check (sql_length : string → nat) (r : t) : bool :=
  (0 <? sql_length (path r)) && (length (before_hash r) =? 32) &&
  (byte_len r =? Z.of_nat (length (before r)))%Z && (0 <=? created_at r)%Z &&
  ((undone r =? 0)%Z || (undone r =? 1)%Z).

(** [UPDATE ... SET undone = 1]. *)
Definition marked (r : t) : t :=
  mk (path r) (before r) (before_hash r) (byte_len r) (created_at r) 1.
End SnapshotRow.

(** What [newest_for_path] reports of a row. *)
Module SnapshotReport.
Record t := mk {
  snapshot : Id; path : string; digest : ContentHash; byte_len : Z; created_at : Z; undone : bool;
}.
End SnapshotReport.

(** Which calls of [restore_bytes] fail: opening the temporary file for a reason
    other than its existing, writing after some bytes, the two [fsync]s, the
    rename, and the removal of the temporary file. *)
Module RestoreIo.
Record t := mk {
  open_fails : nat → bool;
  written : option nat;
  sync : bool;
  rename : bool;
  sync_directory : bool;
  remove : bool;
}.

Definition perfect : t := mk (λ _, false) None true true true true.
End RestoreIo.

Definition CREATE_ATTEMPTS : nat := 128.

Section journal.
(** SQLite's [length] of a text, the UTF-8 check of [Path::to_str], the text of an
    identifier, the hash, and the two ways the operating system resolves a path:
    all its links, or all but the last component's. *)
Context (sql_length : string → nat) (is_utf8 : string → bool) (show_id : Id → string)
  (blake3 : list byte → list byte) (canonicalize nofollow : Fs.t → string → option string).
Context {T : Type} `{Table T Id SnapshotRow.t}.

Definition snapshot_digest (bytes : list byte) : ContentHash :=
  @Sealed.hash_of blake3 (list byte) snapshot_body_sealable bytes.

Definition decode_digest (bytes : list byte) : result ContentHash JournalError :=
  if length bytes =? HASH_LEN then Ok bytes else Err JStore.

Definition path_text (path : string) : result string JournalError :=
  if is_utf8 path then Ok path else Err NonUtf8Path.

(** ** Taking a snapshot *)

(** What [stat] says of a name: the inode and whether it is a regular file. *)
Definition stat (name : string) (fs : Fs.t) : option (N * bool) :=
  i ← Fs.names fs !! name; f ← Fs.inodes fs !! i; Some (i, Fs.regular f).

(** [SnapshotSource::read]: [fs n] is the file system as the [n]-th call finds it,
    [io n] whether that call goes through.  The handle keeps its inode, so the
    identity read through it never changes. *)
Definition read_source (io : nat → bool) (fs : nat → Fs.t) (path : string) :
    result (list byte * string) JournalError :=
  let? opened := ok_or (name ← nofollow (fs 0) path; if io 0 then stat name (fs 0) else None) JIo in
  if negb opened.2 then Err JIo
  else
    let? resolved := ok_or (if io 1 then canonicalize (fs 1) path else None) JIo in
    let? named := ok_or (if io 2 then stat resolved (fs 2) else None) JIo in
    if negb (bool_decide (opened.1 = named.1)) || negb named.2 then Err PathIdentityChanged
    else
      let? bytes := ok_or (if io 3 then Fs.content <$> Fs.inodes (fs 3) !! opened.1 else None) JIo in
      let? _ := ok_or (if io 4 then Some tt else None) JIo in
      let? named_after := ok_or (if io 5 then stat resolved (fs 5) else None) JIo in
      if negb (bool_decide (opened.1 = named_after.1)) then Err PathIdentityChanged
      else Ok (bytes, resolved).

Definition insert (snapshot : Id) (path : string) (before : list byte) (digest : ContentHash)
    (t : T) : result T JournalError :=
  let row := SnapshotRow.mk path before digest (Z.of_nat (length before) `min` i64_max)
               (Z.of_N (timestamp_ms snapshot) `min` i64_max) 0 in
  if SnapshotRow.check sql_length row then ok_or (t_insert snapshot row t) JStore else Err JStore.

Definition snapshot (commit : bool) (io : nat → bool) (fs : nat → Fs.t) (fresh : Id)
    (path : string) (t : T) : T * result Id JournalError :=
  match read_source io fs path with
  | Err e => (t, Err e)
  | Ok (bytes, resolved) =>
      match path_text resolved with
      | Err e => (t, Err e)
      | Ok text =>
          if commit then
            match insert fresh text bytes (snapshot_digest bytes) t with
            | Ok t' => (t', Ok fresh)
            | Err e => (t, Err e)
            end
          else (t, Err JSqlite)
      end
  end.

(** ** Restoring a file *)

Definition temporary_name (directory target_name : string) (snapshot : Id) (attempt : nat) : string :=
  join directory (".supra-undo-" +:+ show_id snapshot +:+ "-" +:+ target_name +:+ "-" +:+
                  pretty (N.of_nat attempt)).

(** [TemporaryRestore::create]: [remaining] attempts from number [attempt] on. *)
Fixpoint create_temporary (io : RestoreIo.t) (directory target_name : string) (snapshot : Id)
    (remaining attempt : nat) (fs : Fs.t) : option (string * N * Fs.t) :=
  match remaining with
  | 0 => None
  | S remaining =>
      let path := temporary_name directory target_name snapshot attempt in
      if RestoreIo.open_fails io attempt then None
      else match Fs.create_new path fs with
      | Some (i, fs) => Some (path, i, fs)
      | None => create_temporary io directory target_name snapshot remaining (S attempt) fs
      end
  end.

(** [write_all] through a handle, after every byte up to the [n]-th. *)
Definition write_states (i : N) (bytes : list byte) (n : nat) (fs : Fs.t) : list Fs.t :=
  (λ m, Fs.write i (take m bytes) fs) <$> seq 0 (S n).

(** [restore_bytes], with the file system after every step it takes: the file is
    created, its bytes arrive one by one, it is renamed over the target, and the
    temporary name is dropped. *)
Definition restore_bytes (io : RestoreIo.t) (target : string) (snapshot : Id)
    (bytes : list byte) (fs : Fs.t) : list Fs.t * result unit JournalError :=
  let directory := default "." (parent target) in
  let target_name := default "supra-restore" (file_name target) in
  match create_temporary io directory target_name snapshot CREATE_ATTEMPTS 0 fs with
  | None => ([], Err JIo)
  | Some (path, i, fs1) =>
      let writing n := write_states i bytes n fs1 in
      let dropped fs := if RestoreIo.remove io then Fs.remove path fs else fs in
      match RestoreIo.written io with
      | Some n => (writing n ++ [dropped (Fs.write i (take n bytes) fs1)], Err JIo)
      | None =>
          let fs2 := Fs.write i bytes fs1 in
          match (if RestoreIo.sync io && RestoreIo.rename io then Fs.rename path target fs2
                 else None) with
          | None => (writing (length bytes) ++ [dropped fs2], Err JIo)
          | Some fs3 =>
              (writing (length bytes) ++ [fs3; dropped fs3],
               if RestoreIo.sync_directory io then Ok tt else Err JIo)
          end
      end
  end.

Definition mark_undone (snapshot : Id) (t : T) : bool * T :=
  match t_get snapshot t with
  | Some row =>
      if (SnapshotRow.undone row =? 0)%Z then (true, t_update SnapshotRow.marked snapshot t)
      else (false, t)
  | None => (false, t)
  end.

(** [undo]: the table's transaction with the restore inside it.  The file system
    is given after every step; no step means it is as it was. *)
Definition undo (begin commit : bool) (io : RestoreIo.t) (snapshot : Id) (t : T) (fs : Fs.t) :
    T * list Fs.t * result unit JournalError :=
  if negb begin then (t, [], Err JSqlite)
  else match t_get snapshot t with
  | None => (t, [], Err (JNotFound snapshot))
  | Some row =>
      match decode_digest (SnapshotRow.before_hash row) with
      | Err e => (t, [], Err e)
      | Ok stored =>
          let computed := snapshot_digest (SnapshotRow.before row) in
          if negb (SnapshotRow.undone row =? 0)%Z then (t, [], Err (AlreadyUndone snapshot))
          else if negb (bool_decide (computed = stored))
          then (t, [], Err (JCorrupt snapshot stored computed))
          else
            let '(trace, restored) :=
              restore_bytes io (SnapshotRow.path row) snapshot (SnapshotRow.before row) fs in
            match restored with
            | Err e => (t, trace, Err e)
            | Ok _ =>
                let '(updated, t') := mark_undone snapshot t in
                if negb updated then (t, trace, Err (AlreadyUndone snapshot))
                else if commit then (t', trace, Ok tt) else (t, trace, Err JSqlite)
            end
      end
  end.

(** ** Reading the journal *)

(** [decode_row]. *)
Definition decode_row (entry : Id * SnapshotRow.t) : result SnapshotReport.t JournalError :=
  let '(snapshot, row) := entry in
  let? digest := decode_digest (SnapshotRow.before_hash row) in
  Ok (SnapshotReport.mk snapshot (SnapshotRow.path row) digest (SnapshotRow.byte_len row)
        (SnapshotRow.created_at row) (negb (SnapshotRow.undone row =? 0)%Z)).

(** [ORDER BY created_at DESC, snapshot_id DESC]. *)
Definition newer (p q : Id * SnapshotRow.t) : bool :=
  (SnapshotRow.created_at q.2 <? SnapshotRow.created_at p.2)%Z ||
  ((SnapshotRow.created_at q.2 =? SnapshotRow.created_at p.2)%Z && (q.1 <? p.1)%N).

Definition newest (rows : list (Id * SnapshotRow.t)) : option (Id * SnapshotRow.t) :=
  foldr (λ p best, match best with
                   | Some q => if newer q p then Some q else Some p
                   | None => Some p
                   end) None rows.

Definition newest_for_path (io : bool) (fs : Fs.t) (path : string) (t : T) :
    result (option SnapshotReport.t) JournalError :=
  let? resolved := ok_or (canonicalize fs path) JIo in
  let? text := path_text resolved in
  if negb io then Err JSqlite
  else match newest (List.filter (λ p, bool_decide (SnapshotRow.path p.2 = text) &&
                                       (SnapshotRow.undone p.2 =? 0)%Z) (t_scan t)) with
  | None => Ok None
  | Some entry => let? report := decode_row entry in Ok (Some report)
  end.

Definition count_for_path (io : bool) (fs : Fs.t) (path : string) (t : T) :
    result Z JournalError :=
  let? resolved := ok_or (canonicalize fs path) JIo in
  let? text := path_text resolved in
  if negb io then Err JSqlite
  else Ok (Z.of_nat (length (List.filter (λ p, bool_decide (SnapshotRow.path p.2 = text)) (t_scan t)))).
End journal.

(** ** Restoring is atomic *)

Section restoring.
Context (show_id : Id → string).

Lemma write_states_elem path bytes n fs fs' :
  fs' ∈ write_states (Fs.next fs) bytes n (with_file path [] fs) → ∃ bs, fs' = with_file path bs fs.
Proof. intros (m & -> & _)%list_elem_of_fmap. exists (take m bytes). apply write_with_file. Qed.

#[local] Opaque write_states.

(** A temporary name of this snapshot's restores beside the target. *)
Definition is_temporary (snapshot : Id) (target name : string) : Prop :=
  ∃ attempt, name = temporary_name show_id (default "." (parent target))
    (default "supra-restore" (file_name target)) snapshot attempt.

Lemma temporary_longer snapshot target name :
  is_temporary snapshot target name → String.length target < String.length name.
Proof.
  intros [attempt ->]. pose proof (path_length target) as Hl. unfold temporary_name.
  pose proof (join_length (default "." (parent target))
    (".supra-undo-" +:+ show_id snapshot +:+ "-" +:+
     default "supra-restore" (file_name target) +:+ "-" +:+ pretty (N.of_nat attempt))) as Hj.
  rewrite !string_length_app in Hj. simpl in Hj. lia.
Qed.

Lemma temporary_not_target snapshot target : ¬ is_temporary snapshot target target.
Proof. intros Ht%temporary_longer. lia. Qed.

Lemma create_temporary_Some io directory target_name snapshot remaining attempt fs path i fs1 :
  create_temporary show_id io directory target_name snapshot remaining attempt fs =
    Some (path, i, fs1) →
  (∃ n, path = temporary_name show_id directory target_name snapshot n) ∧
  Fs.names fs !! path = None ∧ i = Fs.next fs ∧ fs1 = with_file path [] fs.
Proof.
  revert attempt. induction remaining as [|r IH]; intros attempt; [done|].
  cbn [create_temporary]. destruct (RestoreIo.open_fails io attempt); [done|].
  destruct (Fs.names fs !! temporary_name show_id directory target_name snapshot attempt) eqn:E.
  - unfold Fs.create_new. rewrite E. apply IH.
  - rewrite create_new_spec by done. intros [= <- <- <-]. split; [by eexists|done].
Qed.

Lemma create_temporary_total io directory target_name snapshot remaining attempt n fs :
  (∀ k, RestoreIo.open_fails io k = false) → attempt ≤ n < attempt + remaining →
  Fs.names fs !! temporary_name show_id directory target_name snapshot n = None →
  is_Some (create_temporary show_id io directory target_name snapshot remaining attempt fs).
Proof.
  intros Hio. revert attempt. induction remaining as [|r IH]; intros attempt Hn Hfree; [lia|].
  cbn [create_temporary]. rewrite Hio.
  destruct (Fs.create_new _ fs) as [[i fs1]|] eqn:E; [by eexists|].
  apply IH; [|done]. destruct (decide (n = attempt)) as [->|]; [|lia].
  by rewrite create_new_spec in E.
Qed.

(** What each step of a restore leaves, and what it comes to. *)
Lemma restore_bytes_spec io target snapshot bytes fs trace r :
  restore_bytes show_id io target snapshot bytes fs = (trace, r) →
  (∀ fs', fs' ∈ trace →
     (Fs.read_name target fs' = Fs.read_name target fs ∨ Fs.read_name target fs' = Some bytes) ∧
     ∀ name, name ≠ target → ¬ is_temporary snapshot target name →
       Fs.read_name name fs' = Fs.read_name name fs) ∧
  (r = Ok tt → last trace = Some (with_file target bytes fs)).
Proof.
  unfold restore_bytes.
  destruct (create_temporary _ _ _ _ _ _ _ _) as [[[path i] fs1]|] eqn:E;
    [|intros [= <- <-]; split; [by intros ? ?%elem_of_nil|done]].
  apply create_temporary_Some in E as (Ht & Hfree & -> & ->).
  assert (Hne : path ≠ target).
  { intros ->. by apply (temporary_not_target snapshot target). }
  assert (Htemp : is_temporary snapshot target path) by exact Ht.
  assert (Hsame : ∀ fs', fs' ∈ [with_orphan bytes fs] ∨
      (∃ bs, fs' = with_file path bs fs ∨ fs' = with_orphan bs fs) ∨
      fs' = with_file target bytes fs →
    (Fs.read_name target fs' = Fs.read_name target fs ∨ Fs.read_name target fs' = Some bytes) ∧
    ∀ name, name ≠ target → ¬ is_temporary snapshot target name →
      Fs.read_name name fs' = Fs.read_name name fs).
  { intros fs' [->%list_elem_of_singleton|[(bs & [-> | ->])| ->]]; split;
      try (intros name Hn Ht'); try (left; apply read_with_orphan); try apply read_with_orphan.
    - left. apply read_with_other. congruence.
    - apply read_with_other. intros ->. done.
    - right. apply read_with_file.
    - by apply read_with_other. }
  assert (Hwriting : ∀ n fs', fs' ∈ write_states (Fs.next fs) bytes n (with_file path [] fs) →
    ∃ bs, fs' = with_file path bs fs ∨ fs' = with_orphan bs fs).
  { intros n fs' [bs ->]%write_states_elem. exists bs. by left. }
  assert (Hdropped : ∀ bs, ∃ bs', (if RestoreIo.remove io then Fs.remove path (with_file path bs fs)
      else with_file path bs fs) = with_file path bs' fs ∨ (if RestoreIo.remove io
      then Fs.remove path (with_file path bs fs) else with_file path bs fs) = with_orphan bs' fs).
  { intros bs. exists bs. destruct (RestoreIo.remove io); [right|by left].
    by apply remove_with_file. }
  destruct (RestoreIo.written io) as [n|].
  - intros [= <- <-]. split; [|done].
    intros fs' [Hin|Hin%list_elem_of_singleton]%elem_of_app; apply Hsame; right; left.
    + by apply Hwriting in Hin.
    + subst fs'. rewrite write_with_file. apply Hdropped.
  - rewrite write_with_file, rename_with_file by done.
    destruct (RestoreIo.sync io && RestoreIo.rename io); intros [= <- <-].
    + split.
      * intros fs' [Hin|[->|[->|?%elem_of_nil]%elem_of_cons]%elem_of_cons]%elem_of_app;
          [apply Hsame; right; left; by apply Hwriting in Hin|apply Hsame; by do 2 right| |done].
        apply Hsame. do 2 right. destruct (RestoreIo.remove io); [|done].
        apply remove_absent. simpl. by rewrite lookup_insert_ne by done.
      * intros _. rewrite last_app. simpl. f_equal. destruct (RestoreIo.remove io); [|done].
        apply remove_absent. simpl. by rewrite lookup_insert_ne by done.
    + split; [|done]. intros fs' [Hin|Hin%list_elem_of_singleton]%elem_of_app; apply Hsame; right; left.
      * by apply Hwriting in Hin.
      * subst fs'. apply Hdropped.
Qed.

Lemma restore_error io target snapshot bytes fs trace r e :
  restore_bytes show_id io target snapshot bytes fs = (trace, r) → r = Err e → e = JIo.
Proof.
  unfold restore_bytes. destruct (create_temporary _ _ _ _ _ _ _ _) as [[[path i] fs1]|];
    [|by intros [= _ <-] [= <-]].
  destruct (RestoreIo.written io); [by intros [= _ <-] [= <-]|].
  destruct (RestoreIo.sync io && RestoreIo.rename io); [|by intros [= _ <-] [= <-]].
  destruct (Fs.rename _ _ _); [|by intros [= _ <-] [= <-]].
  destruct (RestoreIo.sync_directory io); [by intros [= _ <-]|by intros [= _ <-] [= <-]].
Qed.

Lemma restore_bytes_perfect target snapshot bytes fs n :
  n < CREATE_ATTEMPTS →
  Fs.names fs !! temporary_name show_id (default "." (parent target))
    (default "supra-restore" (file_name target)) snapshot n = None →
  ∃ trace, restore_bytes show_id RestoreIo.perfect target snapshot bytes fs = (trace, Ok tt).
Proof.
  intros Hn Hfree. unfold restore_bytes.
  destruct (create_temporary_total RestoreIo.perfect (default "." (parent target))
    (default "supra-restore" (file_name target)) snapshot CREATE_ATTEMPTS 0 n fs)
    as [[[path i] fs1] E]; [done|lia|done|].
  rewrite E. apply create_temporary_Some in E as (_ & Hf & -> & ->). simpl.
  rewrite write_with_file, rename_with_file by done. by eexists.
Qed.
End restoring.

(** ** A journal at work *)

Inductive journal_op :=
| JSnapshot (commit : bool) (io : nat → bool) (fs : nat → Fs.t) (fresh : Id) (path : string)
| JUndo (begin commit : bool) (io : RestoreIo.t) (snapshot : Id)
| JWorld (fs : Fs.t).

Section sessions.
Context (sql_length : string → nat) (is_utf8 : string → bool) (show_id : Id → string)
  (blake3 : list byte → list byte) (canonicalize nofollow : Fs.t → string → option string).
Context {T : Type} `{TableLaws T Id SnapshotRow.t}.
Implicit Types (t : T).

(** One call of the journal, or an arbitrary change of the files by anyone. *)
Definition journal_step (s : T * Fs.t) (o : journal_op) : T * Fs.t :=
  let '(t, fs) := s in
  match o with
  | JSnapshot commit io fss fresh path =>
      ((snapshot sql_length is_utf8 blake3 canonicalize nofollow commit io fss fresh path t).1, fss 5)
  | JUndo begin commit io id =>
      let '(t, trace, _) := undo show_id blake3 begin commit io id t fs in
      (t, default fs (last trace))
  | JWorld fs => (t, fs)
  end.

Definition run_journal (ops : list journal_op) (s : T * Fs.t) : T * Fs.t :=
  foldl journal_step s ops.

(** Whether an operation, or one of a session, is an undo of the snapshot that succeeds. *)
Definition undone_by (id : Id) (o : journal_op) (s : T * Fs.t) : bool :=
  match o with
  | JUndo begin commit io id' =>
      bool_decide (id' = id ∧ (undo show_id blake3 begin commit io id' s.1 s.2).2 = Ok tt)
  | _ => false
  end.

Fixpoint undone_in (id : Id) (ops : list journal_op) (s : T * Fs.t) : bool :=
  match ops with
  | [] => false
  | o :: ops => undone_by id o s || undone_in id ops (journal_step s o)
  end.

(** An undo that succeeds has marked its row; any other leaves the table alone. *)
Lemma undo_cases begin commit io id t fs t' trace r :
  undo show_id blake3 begin commit io id t fs = (t', trace, r) →
  (t' = t ∧ ∃ e, r = Err e) ∨
  (r = Ok tt ∧ ∃ row, t_get id t = Some row ∧ SnapshotRow.undone row = 0%Z ∧
     t' = t_update SnapshotRow.marked id t ∧
     restore_bytes show_id io (SnapshotRow.path row) id (SnapshotRow.before row) fs = (trace, Ok tt)).
Proof.
  unfold undo. destruct begin; simpl; [|intros [= <- <- <-]; left; by eauto].
  destruct (t_get id t) as [row|] eqn:Hrow; [|intros [= <- <- <-]; left; by eauto].
  destruct (decode_digest (SnapshotRow.before_hash row)) as [stored|e];
    [|intros [= <- <- <-]; left; by eauto].
  destruct (SnapshotRow.undone row =? 0)%Z eqn:Hu; simpl; [|intros [= <- <- <-]; left; by eauto].
  destruct (bool_decide (snapshot_digest blake3 (SnapshotRow.before row) = stored)); simpl;
    [|intros [= <- <- <-]; left; by eauto].
  destruct (restore_bytes _ _ _ _ _ _) as [tr [[]|e]] eqn:Hr;
    [|intros [= <- <- <-]; left; by eauto].
  unfold mark_undone. rewrite Hrow, Hu. simpl.
  destruct commit; intros [= <- <- <-]; [right|left; by eauto].
  apply Z.eqb_eq in Hu. split; [done|]. by exists row.
Qed.

Lemma snapshot_table commit io fss fresh path t t' r :
  snapshot sql_length is_utf8 blake3 canonicalize nofollow commit io fss fresh path t = (t', r) →
  (t' = t ∧ ∃ e, r = Err e) ∨
  (r = Ok fresh ∧ ∃ bytes resolved row,
     read_source canonicalize nofollow io fss path = Ok (bytes, resolved) ∧
     t_insert fresh row t = Some t' ∧ SnapshotRow.path row = resolved ∧
     SnapshotRow.before row = bytes ∧ SnapshotRow.undone row = 0%Z ∧
     SnapshotRow.before_hash row = snapshot_digest blake3 bytes ∧
     length (SnapshotRow.before_hash row) = HASH_LEN).
Proof.
  unfold snapshot. destruct (read_source _ _ _ _ _) as [[bytes resolved]|e] eqn:Hs;
    [|intros [= <- <-]; left; by eauto].
  unfold path_text. destruct (is_utf8 resolved); [|intros [= <- <-]; left; by eauto].
  destruct commit; [|intros [= <- <-]; left; by eauto].
  unfold insert. destruct (SnapshotRow.check _ _) eqn:Hc; [|intros [= <- <-]; left; by eauto].
  destruct (t_insert fresh _ t) as [t1|] eqn:Hi; intros [= <- <-]; [right|left; by eauto].
  unfold SnapshotRow.check in Hc. to_prop. split; [done|]. do 3 eexists. split_and!; done.
Qed.

(** A row stays what it was, but for the mark. *)
Definition row_of (flag : bool) (row : SnapshotRow.t) : SnapshotRow.t :=
  if flag then SnapshotRow.marked row else row.

Lemma row_kept_step id row flag o s :
  SnapshotRow.undone row = 0%Z → t_get id s.1 = Some (row_of flag row) →
  t_get id (journal_step s o).1 = Some (row_of (flag || undone_by id o s) row).
Proof.
  intros Hu Hrow. destruct s as [t fs]. simpl in Hrow.
  destruct o as [commit io fss fresh path|begin commit io id'|fs']; simpl;
    [|destruct (undo show_id blake3 begin commit io id' t fs) as [[t' trace] r] eqn:E; simpl
     |by rewrite orb_false_r].
  - rewrite orb_false_r. destruct (snapshot _ _ _ _ _ _ _ _ _ _ _) as [t' r] eqn:E.
    apply snapshot_table in E as [[-> _]|(_ & b & p & row' & _ & Hi & _)]; [done|]. simpl.
    destruct (t_get_insert _ _ _ _ id Hi) as [[-> _]|[_ ->]]; [|done].
    assert (t_insert id row' t = None) by (apply t_insert_None; by eexists). congruence.
  - destruct (undo_cases _ _ _ _ _ _ _ _ _ E) as [[-> [e ->]]|(-> & row' & Hrow' & Hu' & -> & _)].
    + rewrite bool_decide_eq_false_2 by naive_solver. by rewrite orb_false_r.
    + destruct (t_get_update SnapshotRow.marked id' t id) as [[-> ->]|[Hne ->]].
      * rewrite bool_decide_eq_true_2 by done. rewrite orb_true_r, Hrow. simpl. f_equal.
        by destruct flag.
      * rewrite bool_decide_eq_false_2 by naive_solver. by rewrite orb_false_r.
Qed.

Lemma row_kept id row flag ops s :
  SnapshotRow.undone row = 0%Z → t_get id s.1 = Some (row_of flag row) →
  t_get id (run_journal ops s).1 = Some (row_of (flag || undone_in id ops s) row).
Proof.
  intros Hu. revert s flag. induction ops as [|o ops IH]; intros s flag Hrow.
  { simpl. by rewrite orb_false_r. }
  unfold run_journal. simpl. fold (run_journal ops). rewrite orb_assoc.
  apply (IH (journal_step s o)). by apply row_kept_step.
Qed.

(** An undo takes steps only for a row that verifies: those of its restore. *)
Lemma undo_trace begin commit io id t fs row t' trace r :
  t_get id t = Some row → undo show_id blake3 begin commit io id t fs = (t', trace, r) →
  trace = [] ∨
  snapshot_digest blake3 (SnapshotRow.before row) = SnapshotRow.before_hash row ∧
  ∃ q, restore_bytes show_id io (SnapshotRow.path row) id (SnapshotRow.before row) fs = (trace, q).
Proof.
  intros Hrow. unfold undo, decode_digest. rewrite Hrow.
  destruct begin; simpl; [|intros [= _ <- _]; by left].
  destruct (length (SnapshotRow.before_hash row) =? HASH_LEN); [|intros [= _ <- _]; by left].
  destruct (SnapshotRow.undone row =? 0)%Z; simpl; [|intros [= _ <- _]; by left].
  destruct (decide (snapshot_digest blake3 (SnapshotRow.before row) = SnapshotRow.before_hash row))
    as [Hd|Hd]; [|rewrite bool_decide_eq_false_2 by done; intros [= _ <- _]; by left].
  rewrite bool_decide_eq_true_2 by done. simpl.
  destruct (restore_bytes _ _ _ _ _ _) as [tr q]. intros Hu. right. split; [done|]. exists q.
  destruct q, (mark_undone id t) as [[] ?], commit; by injection Hu as _ <- _.
Qed.

(** What an undo does on a row of the journal's own making. *)
Lemma undo_live commit io id t fs row :
  SnapshotRow.undone row = 0%Z → length (SnapshotRow.before_hash row) = HASH_LEN →
  SnapshotRow.before_hash row = snapshot_digest blake3 (SnapshotRow.before row) →
  t_get id t = Some row →
  undo show_id blake3 true commit io id t fs =
    let '(trace, restored) :=
      restore_bytes show_id io (SnapshotRow.path row) id (SnapshotRow.before row) fs in
    match restored with
    | Err e => (t, trace, Err e)
    | Ok _ => if commit then (t_update SnapshotRow.marked id t, trace, Ok tt)
              else (t, trace, Err JSqlite)
    end.
Proof.
  intros Hu Hl Hh Hrow. unfold undo, decode_digest, mark_undone. simpl. rewrite Hrow, Hl, Hu.
  simpl. rewrite bool_decide_eq_true_2 by done. simpl.
  destruct (restore_bytes _ _ _ _ _ _) as [tr []]; [|done]. by destruct commit.
Qed.

Lemma undo_again commit io id t fs row :
  length (SnapshotRow.before_hash row) = HASH_LEN →
  t_get id t = Some (SnapshotRow.marked row) →
  undo show_id blake3 true commit io id t fs = (t, [], Err (AlreadyUndone id)).
Proof.
  intros Hl Hrow. unfold undo, decode_digest. simpl. by rewrite Hrow; simpl; rewrite Hl.
Qed.
End sessions.

(** ** Properties *)

(** C14. An undo restores exactly the bytes of its snapshot, once.  Take a snapshot
    of a file, then let anything happen - edits by anyone, further snapshots, undos,
    every kind of failure.  If an undo of the snapshot reports success, the file
    holds the snapshot's bytes again, no other name's bytes have changed and no undo
    of it had succeeded before.  If it reports an error the journal's table is
    unchanged and the file holds what it held or the snapshot's bytes; the error is
    never that the snapshot is missing or damaged, and once an undo has succeeded
    every further one is refused without touching a file.  Until then an undo over a
    working system always succeeds, provided one of the temporary names is free. *)
Theorem undo_exact (sql_length : string → nat) (is_utf8 : string → bool) (show_id : Id → string)
    (blake3 : list byte → list byte) (canonicalize nofollow : Fs.t → string → option string)
    (T : Type) (HT : Table T Id SnapshotRow.t) (LT : TableLaws T Id SnapshotRow.t)
    (fss : nat → Fs.t) (io : nat → bool) (id : Id) (path p : string) (b : list byte) (t0 t1 : T)
    (ops : list journal_op) (begin commit : bool) (rio : RestoreIo.t)
    (Hread : read_source canonicalize nofollow io fss path = Ok (b, p))
    (Htaken : snapshot sql_length is_utf8 blake3 canonicalize nofollow true io fss id path t0 =
      (t1, Ok id)) :
  let s := run_journal sql_length is_utf8 show_id blake3 canonicalize nofollow ops (t1, fss 5) in
  let before := undone_in sql_length is_utf8 show_id blake3 canonicalize nofollow id ops (t1, fss 5) in
  let '(t, fs) := s in
  let '(t', trace, r) := undo show_id blake3 begin commit rio id t fs in
  let fs' := default fs (last trace) in
  (r = Ok tt →
     before = false ∧ Fs.read_name p fs' = Some b ∧
     ∀ name, name ≠ p → Fs.read_name name fs' = Fs.read_name name fs) ∧
  (r ≠ Ok tt → t' = t ∧ (Fs.read_name p fs' = Fs.read_name p fs ∨ Fs.read_name p fs' = Some b)) ∧
  (r ≠ Err (JNotFound id) ∧ ∀ stored computed, r ≠ Err (JCorrupt id stored computed)) ∧
  (begin = true → before = true → r = Err (AlreadyUndone id) ∧ trace = []) ∧
  (begin = true → commit = true → rio = RestoreIo.perfect → before = false →
     (∃ n, n < CREATE_ATTEMPTS ∧
        Fs.names fs !! temporary_name show_id (default "." (parent p))
          (default "supra-restore" (file_name p)) id n = None) → r = Ok tt).
Proof.
  destruct (snapshot_table _ _ _ _ _ _ _ _ _ _ _ _ _ Htaken)
    as [[_ [e He]]|(_ & b' & p' & row & Hr & Hi & Hp & Hb & Hu & Hh & Hl)]; [done|].
  rewrite Hread in Hr. injection Hr as <- <-. cbv zeta.
  assert (Hrow : t_get id t1 = Some row).
  { by destruct (t_get_insert _ _ _ _ id Hi) as [[_ ->]|[? _]]. }
  pose proof (row_kept sql_length is_utf8 show_id blake3 canonicalize nofollow id row false ops
    (t1, fss 5) Hu Hrow) as Hk.
  simpl in Hk. destruct (undone_in _ _ _ _ _ _ _ _ _) eqn:Hd;
    destruct (run_journal _ _ _ _ _ _ _ _) as [t fs]; simpl in Hk;
    destruct begin; [|simpl..|].
  - rewrite (undo_again show_id blake3 commit rio id t fs row Hl Hk). simpl.
    split_and!; try done. intros _. split; [done|by left].
  - split_and!; try done. intros _. split; [done|by left].
  - rewrite (undo_live show_id blake3 commit rio id t fs row Hu Hl) by (done || by rewrite Hb).
    rewrite Hp, Hb. destruct (restore_bytes _ _ _ _ _ _) as [tr restored] eqn:E.
    destruct (restore_bytes_spec _ _ _ _ _ _ _ _ E) as [Hall Hok].
    assert (Hold : Fs.read_name p (default fs (last tr)) = Fs.read_name p fs ∨
      Fs.read_name p (default fs (last tr)) = Some b).
    { destruct (last tr) as [fs'|] eqn:Hlast; [|by left].
      apply (Hall fs'). by apply last_Some_elem_of. }
    destruct restored as [[]|e]; [destruct commit; rewrite ?(Hok eq_refl); cbn [default option_bind]|].
    + split_and!; try done. intros _. split_and!; [done|apply read_with_file|].
      intros name Hn. by apply read_with_other.
    + split_and!; try done. intros _. split; [done|]. right. apply read_with_file.
    + split_and!; try done.
      * by rewrite (restore_error _ _ _ _ _ _ _ _ _ E eq_refl).
      * intros ? ?. by rewrite (restore_error _ _ _ _ _ _ _ _ _ E eq_refl).
      * intros _ _ -> _ (n & Hn & Hfree).
        destruct (restore_bytes_perfect show_id p id b fs n Hn Hfree) as [tr' E']. congruence.
  - split_and!; try done. intros _. split; [done|by left].
Qed.

(** A world the witnesses run in: one file, one journal. *)
Definition witness_fs : Fs.t := with_file "/src/a" ["a"%char] Fs.empty.
Definition witness_hash (_ : list byte) : list byte := replicate 32 "h"%char.
Definition witness_resolve (_ : Fs.t) (path : string) : option string := Some path.

Definition witness_snapshot : gmap N SnapshotRow.t * result Id JournalError :=
  snapshot String.length (λ _, true) witness_hash witness_resolve witness_resolve true (λ _, true)
    (λ _, witness_fs) 1%N "/src/a" ∅.

Lemma undo_exact_witness :
  let edited := with_file "/src/a" ["b"%char] witness_fs in
  ∃ t1, witness_snapshot = (t1, Ok 1%N) ∧
    let '(_, trace, r) := undo (λ _, "ID") witness_hash true true RestoreIo.perfect 1%N t1 edited in
    r = Ok tt ∧ Fs.read_name "/src/a" (default edited (last trace)) = Some ["a"%char].
Proof.
  intros edited. destruct witness_snapshot as [t1 r] eqn:E. exists t1.
  assert (Hr : r = Ok 1%N) by (vm_compute in E; by injection E as _ <-). subst r.
  split; [reflexivity|].
  assert (Hread : read_source witness_resolve witness_resolve (λ _, true) (λ _, witness_fs) "/src/a"
    = Ok (["a"%char], "/src/a")) by (vm_compute; reflexivity).
  pose proof (undo_exact String.length (λ _, true) (λ _, "ID") witness_hash witness_resolve
    witness_resolve (gmap N SnapshotRow.t) _ _ (λ _, witness_fs) (λ _, true) 1%N "/src/a" "/src/a"
    ["a"%char] ∅ t1 [JWorld edited] true true RestoreIo.perfect Hread E) as H.
  cbv zeta in H. unfold run_journal in H. cbn [foldl journal_step] in H.
  destruct (undo _ _ _ _ _ _ _ _) as [[t' trace] r].
  destruct H as (Hok & _ & _ & _ & Hlive).
  assert (Hr : r = Ok tt).
  { apply Hlive; [reflexivity..|]. exists 0. split; [unfold CREATE_ATTEMPTS; lia|]. reflexivity. }
  split; [exact Hr|]. exact (proj1 (proj2 (Hok Hr))).
Defined.

(** C28. A crash in the middle of an undo is harmless.  Whatever table and files an
    undo starts from and wherever it stops - after any of its steps, within the
    write included - the snapshot's file holds either what it held or the complete
    bytes of the snapshot, which then match their digest, and no file but the undo's
    own temporary ones has changed; a row whose bytes do not match its digest leads
    to no step at all; and the table changes only when the undo reports success, so
    an interrupted undo can be repeated. *)
Theorem undo_crash_atomic (show_id : Id → string) (blake3 : list byte → list byte)
    (T : Type) (HT : Table T Id SnapshotRow.t) (LT : TableLaws T Id SnapshotRow.t)
    (begin commit : bool) (io : RestoreIo.t) (id : Id) (t t' : T) (fs : Fs.t) (trace : list Fs.t)
    (r : result unit JournalError) (row : SnapshotRow.t)
    (Hrow : t_get id t = Some row)
    (Hundo : undo show_id blake3 begin commit io id t fs = (t', trace, r)) :
  let p := SnapshotRow.path row in
  let b := SnapshotRow.before row in
  (∀ fs', fs' ∈ trace →
     (Fs.read_name p fs' = Fs.read_name p fs ∨
      Fs.read_name p fs' = Some b ∧ snapshot_digest blake3 b = SnapshotRow.before_hash row) ∧
     ∀ name, name ≠ p → ¬ is_temporary show_id id p name →
       Fs.read_name name fs' = Fs.read_name name fs) ∧
  (snapshot_digest blake3 b ≠ SnapshotRow.before_hash row → trace = []) ∧
  (r ≠ Ok tt → t' = t).
Proof.
  intros p b. split_and!.
  - intros fs' Hin. destruct (undo_trace _ _ _ _ _ _ _ _ _ _ _ _ Hrow Hundo) as [->|[Hd [q E]]].
    { by apply elem_of_nil in Hin. }
    destruct (restore_bytes_spec _ _ _ _ _ _ _ _ E) as [Hall _].
    destruct (Hall fs' Hin) as [[Ho|Hn] Hrest]; split; auto.
  - intros Hd. by destruct (undo_trace _ _ _ _ _ _ _ _ _ _ _ _ Hrow Hundo) as [->|[? _]].
  - intros Hr. destruct (undo_cases _ _ _ _ _ _ _ _ _ _ _ Hundo) as [[-> _]|[-> _]]; done.
Qed.

Lemma undo_crash_atomic_witness :
  let t := witness_snapshot.1 in
  let edited := with_file "/src/a" ["b"%char] witness_fs in
  let io := RestoreIo.mk (λ _, false) (Some 0) true true true false in
  ∃ row trace, t_get 1%N t = Some row ∧ length trace = 2 ∧
    ∀ fs', fs' ∈ trace → Fs.read_name "/src/b" fs' = Fs.read_name "/src/b" edited.
Proof.
  intros t edited io. destruct (t_get 1%N t) as [row|] eqn:Hrow;
    [|vm_compute in Hrow; discriminate].
  destruct (undo (λ _, "ID") witness_hash true true io 1%N t edited) as [[t' trace] r] eqn:E.
  exists row, trace. split; [reflexivity|].
  assert (Hlen : length trace = 2) by (vm_compute in E; by injection E as <- <- <-).
  split; [exact Hlen|].
  destruct (undo_crash_atomic (λ _, "ID") witness_hash (gmap N SnapshotRow.t) _ _ true true io 1%N
    t t' edited trace r row Hrow E) as [Hall _].
  assert (Hp : SnapshotRow.path row = "/src/a") by (vm_compute in Hrow; by injection Hrow as <-).
  intros fs' Hin. apply (Hall fs' Hin); rewrite Hp; [discriminate|].
  intros Ht%temporary_longer. simpl in Ht. lia.
Defined.

(** A snapshot is of the file its stored path names.  However other processes
    change the files between the calls of a snapshot, a row it commits holds the
    bytes of one regular file as they were when read, and the path stored with them
    named that very file both before and after the reading; nothing else in the
    table changes, and a snapshot that fails changes nothing. *)
Theorem snapshot_identity (sql_length : string → nat) (is_utf8 : string → bool)
    (blake3 : list byte → list byte) (canonicalize nofollow : Fs.t → string → option string)
    (T : Type) (HT : Table T Id SnapshotRow.t) (LT : TableLaws T Id SnapshotRow.t)
    (commit : bool) (io : nat → bool) (fs : nat → Fs.t) (fresh : Id) (path : string) (t : T) :
  let '(t', r) :=
    snapshot sql_length is_utf8 blake3 canonicalize nofollow commit io fs fresh path t in
  (∀ e, r = Err e → t' = t) ∧
  (∀ id, r = Ok id → id = fresh ∧ t_get fresh t = None ∧
     (∀ other, other ≠ fresh → t_get other t' = t_get other t) ∧
     ∃ row name i f, t_get fresh t' = Some row ∧ SnapshotRow.undone row = 0%Z ∧
       nofollow (fs 0) path = Some name ∧ Fs.names (fs 0) !! name = Some i ∧
       canonicalize (fs 1) path = Some (SnapshotRow.path row) ∧
       Fs.names (fs 2) !! SnapshotRow.path row = Some i ∧
       Fs.names (fs 5) !! SnapshotRow.path row = Some i ∧
       Fs.inodes (fs 2) !! i = Some f ∧ Fs.regular f = true ∧
       Fs.content <$> Fs.inodes (fs 3) !! i = Some (SnapshotRow.before row)).
Proof.
  destruct (snapshot _ _ _ _ _ _ _ _ _ _ _) as [t' r] eqn:E.
  destruct (snapshot_table _ _ _ _ _ _ _ _ _ _ _ _ _ E)
    as [[-> [e ->]]|(-> & b & p & row & Hr & Hi & <- & <- & Hu & _)]; [done|].
  split; [done|]. intros id [= <-]. split; [done|].
  split; [apply eq_None_not_Some; intros Hx; apply (t_insert_None _ row) in Hx; congruence|].
  split. { intros other Hne. destruct (t_get_insert _ _ _ _ other Hi) as [[-> _]|[_ ->]]; done. }
  clear E. revert Hr. unfold read_source, stat.
  destruct (nofollow (fs 0) path) as [name|]; [|done]. simpl.
  destruct (io 0); [|done]. destruct (Fs.names (fs 0) !! name) as [i|] eqn:H0; [|done]. simpl.
  destruct (Fs.inodes (fs 0) !! i) as [f0|]; [|done]. simpl.
  destruct (Fs.regular f0); [|done]. simpl.
  destruct (io 1); [|done]. destruct (canonicalize (fs 1) path) as [q|]; [|done]. simpl.
  destruct (io 2); [|done]. destruct (Fs.names (fs 2) !! q) as [i2|] eqn:H2; [|done]. simpl.
  destruct (Fs.inodes (fs 2) !! i2) as [f2|] eqn:Hf; [|done]. simpl.
  case_bool_decide as Hi2; [subst i2|done]. destruct (Fs.regular f2) eqn:Hreg; [|done]. simpl.
  destruct (io 3); [|done]. destruct (Fs.inodes (fs 3) !! i) as [f3|] eqn:H3; [|done]. simpl.
  destruct (io 4); [|done]. simpl.
  destruct (io 5); [|done]. destruct (Fs.names (fs 5) !! q) as [i5|] eqn:H5; [|done]. simpl.
  destruct (Fs.inodes (fs 5) !! i5) as [f5|]; [|done]. simpl.
  case_bool_decide as Hi5; [subst i5|done]. intros [= Hb Hp].
  exists row, name, i, f2. rewrite <- Hb, <- Hp.
  assert (Hg : t_get fresh t' = Some row).
  { by destruct (t_get_insert _ _ _ _ fresh Hi) as [[_ ->]|[? _]]. }
  rewrite Hp. by rewrite <- Hp, H3.
Qed.

(** ** The newest snapshot of a path *)

Lemma newest_spec (l : list (Id * SnapshotRow.t)) :
  NoDup l.*1 →
  match newest l with
  | None => l = []
  | Some p => p ∈ l ∧ ∀ q, q ∈ l → q = p ∨ newer p q = true
  end.
Proof.
  induction l as [|p l IH]; [done|]. intros [Hp Hnd]%NoDup_cons. specialize (IH Hnd).
  simpl. fold (newest l). destruct (newest l) as [q|]; [|subst l; set_solver].
  destruct IH as [Hq Hmax]. destruct (newer q p) eqn:E.
  - split; [by right|]. intros x [->|Hx]%elem_of_cons; [by right|auto].
  - split; [by left|]. intros x [->|Hx]%elem_of_cons; [by left|]. right.
    assert (Hne : q.1 ≠ p.1). { intros Heq. apply Hp. rewrite <- Heq. by apply list_elem_of_fmap_2. }
    destruct (Hmax x Hx) as [->|Hn]; unfold newer in *; lia.
Qed.

(** The newest snapshot reported for a path is the one an undo of the last edit
    wants: of the rows stored for the resolved path that are not yet undone, the one
    taken last, the greater identifier among equal times; it is missing exactly when
    there is none. *)
Theorem newest_for_path_exact (is_utf8 : string → bool)
    (canonicalize : Fs.t → string → option string) (T : Type) (HT : Table T Id SnapshotRow.t)
    (LT : TableLaws T Id SnapshotRow.t) (io : bool) (fs : Fs.t) (path : string) (t : T) :
  let candidate text id row :=
    t_get id t = Some row ∧ SnapshotRow.path row = text ∧ SnapshotRow.undone row = 0%Z in
  match newest_for_path is_utf8 canonicalize io fs path t with
  | Err _ => True
  | Ok None => ∃ text, canonicalize fs path = Some text ∧ ∀ id row, ¬ candidate text id row
  | Ok (Some report) => ∃ text row, canonicalize fs path = Some text ∧
      candidate text (SnapshotReport.snapshot report) row ∧
      SnapshotReport.digest report = SnapshotRow.before_hash row ∧
      SnapshotReport.path report = text ∧ SnapshotReport.undone report = false ∧
      ∀ id row', candidate text id row' → id = SnapshotReport.snapshot report ∨
        newer (SnapshotReport.snapshot report, row) (id, row') = true
  end.
Proof.
  intros candidate. unfold newest_for_path.
  destruct (canonicalize fs path) as [q|] eqn:Hc; [|done]. simpl.
  unfold path_text. destruct (is_utf8 q); [|done]. simpl. destruct io; [|done]. simpl.
  set (rows := List.filter _ (t_scan t)).
  assert (Hrows : ∀ id row, (id, row) ∈ rows ↔ candidate q id row).
  { intros id row. unfold rows, candidate. rewrite list_elem_of_In, filter_In, <- list_elem_of_In.
    rewrite t_scan_elem. simpl. rewrite andb_true_iff, bool_decide_eq_true, Z.eqb_eq. tauto. }
  assert (Hnd : NoDup rows.*1).
  { unfold rows. pose proof (t_scan_nodup t) as Hs. clear -Hs.
    induction (t_scan t) as [|p l IH]; simpl; [constructor|]. apply NoDup_cons in Hs as [Hp Hs].
    specialize (IH Hs). destruct (_ && _); [|done]. simpl. apply NoDup_cons. split; [|done].
    intros (x & Hx & Hin)%list_elem_of_fmap. apply Hp. rewrite Hx. apply list_elem_of_fmap_2.
    rewrite list_elem_of_In, filter_In, <- list_elem_of_In in Hin. by destruct Hin. }
  pose proof (newest_spec rows Hnd) as Hn. destruct (newest rows) as [[id row]|].
  - unfold decode_row, decode_digest.
    destruct (length (SnapshotRow.before_hash row) =? HASH_LEN); [|done]. simpl.
    destruct Hn as [Hin Hmax]. apply Hrows in Hin. exists q, row.
    split_and!; try done.
    + by destruct Hin as (_ & ? & _).
    + destruct Hin as (_ & _ & ->). done.
    + intros id' row' Hr'%Hrows. destruct (Hmax _ Hr') as [[= -> _]|Hx]; [by left|by right].
  - exists q. split; [done|]. intros id row Hr%Hrows. rewrite Hn in Hr. by apply elem_of_nil in Hr.
Qed.
