(* ===== verification/Canonical.v ===== *)
(** * Canonical JSON: [crates/supra_llm/src/canonical.rs]

    The one producer of canonical tool arguments: the refusal of floats, the
    sorted emission, and the scanner that refuses a repeated object key before
    [serde_json] silently keeps the last.  Text is its UTF-8 bytes.  What
    [serde_json] itself does - parsing, numbers, string escaping - is a parameter. *)

From Stdlib Require Import Ascii.
From S2P Require Import Prelude Text Sealing Utf8.

(** [Aborts] is a Rust panic, [OutOfFuel] the bound of the model. *)
Inductive CanonicalError :=
| Float
| DuplicateKey (key : list byte)
| Invalid
| NumberOutOfRange
| Aborts
| OutOfFuel.

#[export] Instance CanonicalError_eq_dec : EqDecision CanonicalError.
Proof. solve_decision. Defined.

#[local] Set Warnings "-register-all".

(** [serde_json::Value] over a number type; an object lists its entries in the
    order its map iterates, which is not fixed. *)
Inductive Value (Num : Type) :=
| VNull
| VBool (b : bool)
| VNumber (n : Num)
| VString (s : list byte)
| VArray (items : list (Value Num))
| VObject (map : list (list byte * Value Num)).
Arguments VNull {Num}.
Arguments VBool {Num} b.
Arguments VNumber {Num} n.
Arguments VString {Num} s.
Arguments VArray {Num} items.
Arguments VObject {Num} map.

(** [serde_json::Number]. *)
Class JsonNumber (Num : Type) := {
  is_f64 : Num → bool;
  is_i64 : Num → bool;
  is_u64 : Num → bool;
  number_text : Num → list byte;
}.

(** ** Ordering keys *)

(** Byte-wise lexicographic order, the [Ord] of [String]. *)
Fixpoint key_leb (a b : list byte) : bool :=
  match a, b with
  | [], _ => true
  | _ :: _, [] => false
  | x :: a, y :: b =>
      (N_of_ascii x <? N_of_ascii y)%N || (bool_decide (x = y) && key_leb a b)
  end.

Definition key_le {V} (p q : list byte * V) : Prop := key_leb p.1 q.1 = true.

#[export] Instance key_le_dec {V} (p q : list byte * V) : Decision (key_le p q).
Proof. unfold key_le. apply _. Defined.

(** ** Checking and emitting a value *)

Definition comma : byte := ",".
Definition quote_mark : byte := "034".
Definition backslash : byte := "\".

(** [separator] between the parts. *)
Fixpoint join_with (separator : byte) (parts : list (list byte)) : list byte :=
  match parts with
  | [] => []
  | [p] => p
  | p :: parts => p ++ separator :: join_with separator parts
  end.

Section values.
Context {Num : Type} `{JsonNumber Num}.
(** [serde_json::to_string] of a string. *)
Context (quote : list byte → list byte).

Definition check_number (n : Num) : result unit CanonicalError :=
  if is_f64 n then Err Float
  else if is_i64 n || is_u64 n then Ok tt else Err NumberOutOfRange.

Fixpoint check (value : Value Num) : result unit CanonicalError :=
  match value with
  | VNull | VBool _ | VString _ => Ok tt
  | VNumber n => check_number n
  | VArray items =>
      (fix go items := match items with
        | [] => Ok tt
        | item :: items => let? _ := check item in go items
        end) items
  | VObject map =>
      (fix go map := match map with
        | [] => Ok tt
        | (_, item) :: map => let? _ := check item in go map
        end) map
  end.

(** A member of an object: the quoted key, a colon, the value's text. *)
Definition member (entry : list byte * list byte) : list byte :=
  quote entry.1 ++ ":"%char :: entry.2.

(** The keys are sorted and each one's value emitted; sorting the entries with
    their values already emitted is the same list. *)
Fixpoint emit (value : Value Num) : list byte :=
  match value with
  | VNull => bytes "null"
  | VBool true => bytes "true"
  | VBool false => bytes "false"
  | VNumber n => number_text n
  | VString s => quote s
  | VArray items =>
      "["%char :: join_with comma
        ((fix go items := match items with [] => [] | item :: items => emit item :: go items end)
           items) ++ ["]"%char]
  | VObject map =>
      "{"%char :: join_with comma
        (member <$> merge_sort key_le
          ((fix go map := match map with
              | [] => [] | (key, item) :: map => (key, emit item) :: go map
              end) map)) ++ ["}"%char]
  end.

Definition canonicalize_value (value : Value Num) : result (list byte) CanonicalError :=
  let? _ := check value in Ok (emit value).
End values.

(** ** The duplicate scanner *)

(** The scanner's cursor is the text it has not consumed. *)
Definition is_ws (c : byte) : bool :=
  bool_decide (c = " "%char ∨ c = "009"%char ∨ c = "010"%char ∨ c = "013"%char).

Fixpoint ws (l : list byte) : list byte :=
  match l with
  | c :: l' => if is_ws c then ws l' else l
  | [] => []
  end.

(** [u32::from_str_radix(hex, 16)] of four bytes: a leading plus is accepted. *)
Definition parse_hex4 (a b c d : byte) : option N :=
  y ← hex_value b; z ← hex_value c; w ← hex_value d;
  x ← (if decide (a = "+"%char) then Some 0%N else hex_value a);
  Some (((16 * x + y) * 16 + z) * 16 + w)%N.

(** [String::push(char::from_u32(code))]. *)
Definition encode_utf8 (code : N) : list byte :=
  if (code <? 128)%N then [ascii_of_N code]
  else if (code <? 2048)%N then
    [ascii_of_N (192 + code `div` 64); ascii_of_N (128 + code `mod` 64)]
  else if (code <? 65536)%N then
    [ascii_of_N (224 + code `div` 4096); ascii_of_N (128 + (code `div` 64) `mod` 64);
     ascii_of_N (128 + code `mod` 64)]
  else
    [ascii_of_N (240 + code `div` 262144); ascii_of_N (128 + (code `div` 4096) `mod` 64);
     ascii_of_N (128 + (code `div` 64) `mod` 64); ascii_of_N (128 + code `mod` 64)].

Definition is_high_surrogate (code : N) : bool := (55296 <=? code)%N && (code <? 56320)%N.
Definition is_low_surrogate (code : N) : bool := (56320 <=? code)%N && (code <? 57344)%N.

(** The escapes of one character. *)
Definition simple_escape (c : byte) : option byte :=
  if bool_decide (c = quote_mark ∨ c = backslash ∨ c = "/"%char) then Some c
  else if bool_decide (c = "b"%char) then Some "008"%char
  else if bool_decide (c = "f"%char) then Some "012"%char
  else if bool_decide (c = "n"%char) then Some "010"%char
  else if bool_decide (c = "r"%char) then Some "013"%char
  else if bool_decide (c = "t"%char) then Some "009"%char
  else None.

(** [Scanner::string] from behind the opening quote on; [text] is the decoded
    prefix.  A character of several bytes is copied whole. *)
Fixpoint string_body (text l : list byte) : result (list byte * list byte) CanonicalError :=
  match l with
  | [] => Err Invalid
  | c :: l1 =>
      if bool_decide (c = quote_mark) then Ok (text, l1)
      else if negb (bool_decide (c = backslash)) then
        let n := N_of_ascii c in
        if (n <? 128)%N then string_body (text ++ [c]) l1
        else if (n <? 224)%N then
          match l1 with
          | c2 :: l2 => string_body (text ++ [c; c2]) l2
          | _ => Err Invalid
          end
        else if (n <? 240)%N then
          match l1 with
          | c2 :: c3 :: l3 => string_body (text ++ [c; c2; c3]) l3
          | _ => Err Invalid
          end
        else
          match l1 with
          | c2 :: c3 :: c4 :: l4 => string_body (text ++ [c; c2; c3; c4]) l4
          | _ => Err Invalid
          end
      else
        match l1 with
        | [] => Err Invalid
        | e :: l2 =>
            match simple_escape e with
            | Some x => string_body (text ++ [x]) l2
            | None =>
                if negb (bool_decide (e = "u"%char)) then Err Invalid
                else match l2 with
                | h1 :: h2 :: h3 :: h4 :: l3 =>
                    if negb (at_boundary l3) then Err Aborts
                    else match parse_hex4 h1 h2 h3 h4 with
                    | None => Err Invalid
                    | Some code =>
                        if is_high_surrogate code then
                          match l3 with
                          | s :: u :: g1 :: g2 :: g3 :: g4 :: l4 =>
                              if negb (bool_decide (s = backslash ∧ u = "u"%char)) then Err Invalid
                              else if negb (at_boundary l4) then Err Invalid
                              else match parse_hex4 g1 g2 g3 g4 with
                              | None => Err Invalid
                              | Some low =>
                                  if is_low_surrogate low then
                                    string_body (text ++ encode_utf8
                                      (65536 + N.shiftl (code - 55296) 10 + (low - 56320))%N) l4
                                  else Err Invalid
                              end
                          | _ => Err Invalid
                          end
                        else if is_low_surrogate code then Err Invalid
                        else string_body (text ++ encode_utf8 code) l3
                    end
                | _ => Err Invalid
                end
            end
        end
  end.

Fixpoint starts (prefix l : list byte) : option (list byte) :=
  match prefix, l with
  | [], _ => Some l
  | x :: prefix, y :: l => if decide (x = y) then starts prefix l else None
  | _, [] => None
  end.

(** Skip to the next structural character. *)
Definition is_structural (c : byte) : bool :=
  bool_decide (c = ","%char ∨ c = "]"%char ∨ c = "}"%char) || is_ws c.

Fixpoint skip_atom (l : list byte) : list byte :=
  match l with
  | c :: l' => if is_structural c then l else skip_atom l'
  | [] => []
  end.

(** [value] and [object] with the two loops inside them; each loop is entered with
    the cursor where its iteration begins. *)
Fixpoint value (fuel : nat) (l : list byte) : result (list byte) CanonicalError :=
  match fuel with
  | 0 => Err OutOfFuel
  | S fuel =>
      match ws l with
      | [] => Err Invalid
      | c :: l1 =>
          if bool_decide (c = "{"%char) then
            match ws l1 with
            | d :: l2 => if bool_decide (d = "}"%char) then Ok l2 else object_loop fuel [] l1
            | [] => object_loop fuel [] l1
            end
          else if bool_decide (c = "["%char) then
            match ws l1 with
            | d :: l2 => if bool_decide (d = "]"%char) then Ok l2 else array_loop fuel l1
            | [] => array_loop fuel l1
            end
          else if bool_decide (c = quote_mark) then
            let? r := string_body [] l1 in Ok r.2
          else match starts (bytes "true") (c :: l1) with
          | Some l2 => Ok l2
          | None => match starts (bytes "false") (c :: l1) with
          | Some l2 => Ok l2
          | None => match starts (bytes "null") (c :: l1) with
          | Some l2 => Ok l2
          | None => Ok (skip_atom (c :: l1))
          end end end
      end
  end
with array_loop (fuel : nat) (l : list byte) : result (list byte) CanonicalError :=
  match fuel with
  | 0 => Err OutOfFuel
  | S fuel =>
      let? l := value fuel l in
      match ws l with
      | [] => Err Invalid
      | c :: l1 =>
          if bool_decide (c = "]"%char) then Ok l1
          else if negb (bool_decide (c = comma)) then Err Invalid
          else array_loop fuel l1
      end
  end
with object_loop (fuel : nat) (seen : list (list byte)) (l : list byte) :
    result (list byte) CanonicalError :=
  match fuel with
  | 0 => Err OutOfFuel
  | S fuel =>
      match ws l with
      | [] => Err Invalid
      | c :: l1 =>
          if negb (bool_decide (c = quote_mark)) then Err Invalid
          else
            let? r := string_body [] l1 in
            let '(key, l2) := r in
            if bool_decide (key ∈ seen) then Err (DuplicateKey key)
            else match ws l2 with
            | [] => Err Invalid
            | d :: l3 =>
                if negb (bool_decide (d = ":"%char)) then Err Invalid
                else
                  let? l4 := value fuel l3 in
                  match ws l4 with
                  | [] => Err Invalid
                  | e :: l5 =>
                      if bool_decide (e = "}"%char) then Ok l5
                      else if negb (bool_decide (e = comma)) then Err Invalid
                      else object_loop fuel (key :: seen) l5
                  end
            end
      end
  end.

(** [Scanner::run].  Every call consumes a byte or returns, so twice the text's
    length bounds the nesting of calls. *)
Definition reject_duplicates (input : list byte) : result unit CanonicalError :=
  let? rest := value (2 * length input + 2) input in
  match ws rest with [] => Ok tt | _ :: _ => Err Invalid end.

Section canonicalize.
Context {Num : Type} `{JsonNumber Num}.
Context (quote : list byte → list byte) (from_str : list byte → option (Value Num)).

Definition parse_strict (input : list byte) : result (Value Num) CanonicalError :=
  let? _ := reject_duplicates input in ok_or (from_str input) Invalid.

Definition canonicalize (input : list byte) : result (list byte) CanonicalError :=
  let? value := parse_strict input in
  let? _ := check value in
  Ok (emit quote value).
End canonicalize.

(** ** The scanner always answers *)

Lemma ws_le l : length (ws l) ≤ length l.
Proof. induction l as [|c l IH]; simpl; [done|]. destruct (is_ws c); simpl; lia. Qed.

Lemma skip_atom_le l : length (skip_atom l) ≤ length l.
Proof. induction l as [|c l IH]; simpl; [done|]. destruct (is_structural c); simpl; lia. Qed.

Lemma starts_Some prefix l r : starts prefix l = Some r → l = prefix ++ r.
Proof.
  revert l. induction prefix as [|x prefix IH]; intros l; [by intros [= ->]|].
  destruct l as [|y l]; [done|]. simpl. destruct (decide (x = y)) as [->|]; [|done].
  by intros ->%IH.
Qed.

(** [string_body] answers, and leaves a shorter text. *)
Lemma string_body_spec n text l :
  length l ≤ n →
  string_body text l ≠ Err OutOfFuel ∧ ∀ r, string_body text l = Ok r → length r.2 < length l.
Proof.
  revert text l. induction n as [|n IH]; intros text l Hn.
  { destruct l; simpl in *; [done|lia]. }
  assert (Hgo : ∀ text' l', length l' < length l →
    string_body text' l' ≠ Err OutOfFuel ∧ ∀ r, string_body text' l' = Ok r → length r.2 < length l).
  { intros text' l' Hl'. destruct (IH text' l') as [H1 H2]; [lia|]. split; [done|].
    intros r Hr. specialize (H2 r Hr). lia. }
  clear IH Hn. destruct l as [|c l1]; [done|]. cbn [string_body].
  repeat match goal with
  | |- Ok _ ≠ Err OutOfFuel ∧ _ => split; [done|intros r [= <-]; simpl; lia]
  | |- Err _ ≠ Err OutOfFuel ∧ _ => split; done
  | |- string_body _ _ ≠ _ ∧ _ => apply Hgo; simpl; lia
  | |- context [if ?b then _ else _] => destruct b
  | |- context [match ?x with _ => _ end] => is_var x; destruct x
  | |- context [match simple_escape ?e with _ => _ end] => destruct (simple_escape e)
  | |- context [match parse_hex4 ?a ?b ?c ?d with _ => _ end] => destruct (parse_hex4 a b c d)
  end.
Qed.

Lemma string_body_total text l : string_body text l ≠ Err OutOfFuel.
Proof. by destruct (string_body_spec (length l) text l). Qed.

Lemma string_body_shorter text l r : string_body text l = Ok r → length r.2 < length l.
Proof. destruct (string_body_spec (length l) text l) as [_ Hr]; auto. Qed.

(** What a scan of a text may do: answer, and leave a text no longer. *)
Definition answers (l : list byte) (m : result (list byte) CanonicalError) : Prop :=
  m ≠ Err OutOfFuel ∧ ∀ r, m = Ok r → length r ≤ length l.

Lemma answers_err l e : e ≠ OutOfFuel → answers l (Err e).
Proof. split; congruence. Qed.

Lemma answers_ok l r : length r ≤ length l → answers l (Ok r).
Proof. split; [done|congruence]. Qed.

Lemma answers_le l l' m : answers l' m → length l' ≤ length l → answers l m.
Proof. intros [H1 H2] Hl. split; [done|]. intros r Hr. specialize (H2 r Hr). lia. Qed.

Lemma ws_cons l c r : ws l = c :: r → length r < length l.
Proof. intros Hl. pose proof (ws_le l). rewrite Hl in H. simpl in H. lia. Qed.

(** The fuel that suffices. *)
Lemma scan_answers n :
  (∀ fuel l, length l ≤ n → 2 * length l + 1 ≤ fuel → answers l (value fuel l)) ∧
  (∀ fuel l, length l ≤ n → 2 * length l + 2 ≤ fuel → answers l (array_loop fuel l)) ∧
  (∀ fuel seen l, length l ≤ n → 2 * length l + 1 ≤ fuel → answers l (object_loop fuel seen l)).
Proof.
  induction n as [n IH] using lt_wf_ind.
  assert (Hv : ∀ fuel l, length l ≤ n → 2 * length l + 1 ≤ fuel → answers l (value fuel l)).
  { intros [|fuel] l Hn Hf; [lia|]. cbn [value].
    destruct (ws l) as [|c l1] eqn:Hl; [by apply answers_err|]. apply ws_cons in Hl.
    destruct (IH (length l1)) as (_ & Ha & Ho); [lia|].
    case_bool_decide.
    { destruct (ws l1) as [|d l2] eqn:Hl1; [|apply ws_cons in Hl1; case_bool_decide];
        [|apply answers_ok; lia|]; apply (answers_le l l1); try lia; apply Ho; lia. }
    case_bool_decide.
    { destruct (ws l1) as [|d l2] eqn:Hl1; [|apply ws_cons in Hl1; case_bool_decide];
        [|apply answers_ok; lia|]; apply (answers_le l l1); try lia; apply Ha; lia. }
    case_bool_decide.
    { destruct (string_body [] l1) as [[key l2]|e] eqn:Hs; simpl.
      - apply string_body_shorter in Hs. simpl in Hs. apply answers_ok. lia.
      - apply answers_err. intros ->. by apply (string_body_total [] l1). }
    repeat match goal with
    | |- context [starts ?p ?l] =>
        let Hst := fresh in
        destruct (starts p l) eqn:Hst;
          [apply starts_Some, (f_equal length) in Hst; rewrite length_app in Hst; simpl in Hst;
           apply answers_ok; lia|clear Hst]
    end.
    apply answers_ok. pose proof (skip_atom_le (c :: l1)). simpl in *. lia. }
  split_and!; [done|..].
  - intros [|fuel] l Hn Hf; [lia|]. cbn [array_loop].
    destruct (Hv fuel l Hn) as [H1 H2]; [lia|].
    destruct (value fuel l) as [l1|e]; simpl; [|by apply answers_err; congruence].
    specialize (H2 l1 eq_refl). destruct (ws l1) as [|c l2] eqn:Hl; [by apply answers_err|].
    apply ws_cons in Hl. case_bool_decide; [apply answers_ok; lia|].
    case_bool_decide; simpl; [|by apply answers_err].
    destruct (IH (length l2)) as (_ & Ha & _); [lia|].
    apply (answers_le l l2); [apply Ha; lia|lia].
  - intros [|fuel] seen l Hn Hf; [lia|]. cbn [object_loop].
    destruct (ws l) as [|c l1] eqn:Hl; [by apply answers_err|]. apply ws_cons in Hl.
    case_bool_decide; simpl; [|by apply answers_err].
    destruct (string_body [] l1) as [[key l2]|e] eqn:Hs; simpl;
      [|apply answers_err; intros ->; by apply (string_body_total [] l1)].
    apply string_body_shorter in Hs. simpl in Hs. case_bool_decide; [by apply answers_err|].
    destruct (ws l2) as [|d l3] eqn:Hl2; [by apply answers_err|]. apply ws_cons in Hl2.
    case_bool_decide; simpl; [|by apply answers_err].
    destruct (IH (length l3)) as (Hv3 & _ & _); [lia|].
    destruct (Hv3 fuel l3) as [Hv1 Hv2]; [lia..|].
    destruct (value fuel l3) as [l4|e]; simpl; [|by apply answers_err; congruence].
    specialize (Hv2 l4 eq_refl). destruct (ws l4) as [|e l5] eqn:Hl4; [by apply answers_err|].
    apply ws_cons in Hl4. case_bool_decide; [apply answers_ok; lia|].
    case_bool_decide; simpl; [|by apply answers_err].
    destruct (IH (length l5)) as (_ & _ & Ho); [lia|].
    apply (answers_le l l5); [apply Ho; lia|lia].
Qed.

(** More fuel does not change an answer. *)
Lemma scan_mono fuel :
  (∀ fuel' l, fuel ≤ fuel' → value fuel l ≠ Err OutOfFuel → value fuel' l = value fuel l) ∧
  (∀ fuel' l, fuel ≤ fuel' → array_loop fuel l ≠ Err OutOfFuel →
     array_loop fuel' l = array_loop fuel l) ∧
  (∀ fuel' seen l, fuel ≤ fuel' → object_loop fuel seen l ≠ Err OutOfFuel →
     object_loop fuel' seen l = object_loop fuel seen l).
Proof.
  induction fuel as [|fuel (IHv & IHa & IHo)]; [done|].
  split_and!; intros [|fuel']; try lia; intros.
  - assert (Hf : fuel ≤ fuel') by lia. revert H0. cbn [value].
    destruct (ws l) as [|c l1]; [done|].
    repeat case_bool_decide; try done; destruct (ws l1) as [|d l2];
      try case_bool_decide; try done; intros; auto.
  - assert (Hf : fuel ≤ fuel') by lia. revert H0. cbn [array_loop].
    destruct (value fuel l) as [l1|e] eqn:E; simpl.
    + rewrite (IHv fuel' l), E by (congruence || lia). simpl. destruct (ws l1) as [|c l2]; [done|].
      repeat case_bool_decide; simpl; auto.
    + intros He. rewrite (IHv fuel' l), E by (congruence || lia). done.
  - assert (Hf : fuel ≤ fuel') by lia. revert H0. cbn [object_loop].
    destruct (ws l) as [|c l1]; [done|]. case_bool_decide; simpl; [|done].
    destruct (string_body [] l1) as [[key l2]|e]; simpl; [|done]. case_bool_decide; [done|].
    destruct (ws l2) as [|d l3]; [done|]. case_bool_decide; simpl; [|done].
    destruct (value fuel l3) as [l4|e] eqn:E; simpl.
    + rewrite (IHv fuel' l3), E by (congruence || lia). simpl. destruct (ws l4) as [|x l5]; [done|].
      repeat case_bool_decide; simpl; auto.
    + intros He. rewrite (IHv fuel' l3), E by (congruence || lia). done.
Qed.

(** A text some fuel scans is scanned by the fuel [reject_duplicates] takes. *)
Lemma value_at_bound l r :
  (∃ f0, ∀ f, f0 ≤ f → value f l = r) → value (2 * length l + 2) l = r.
Proof.
  intros [f0 Hf]. destruct (scan_answers (length l)) as (Hv & _ & _).
  destruct (Hv (2 * length l + 2) l) as [Hn _]; [lia..|].
  rewrite <- (Hf (f0 + (2 * length l + 2))) by lia.
  symmetry. apply scan_mono; [lia|done].
Qed.

(** ** String literals *)

(** [spelled enc dec]: between quotes, [enc] is a JSON spelling of the text [dec]. *)
Inductive spelled : list byte → list byte → Prop :=
| spelled_nil : spelled [] []
| spelled_ascii c enc dec :
    (N_of_ascii c < 128)%N → c ≠ quote_mark → c ≠ backslash → spelled enc dec →
    spelled (c :: enc) (c :: dec)
| spelled_two c1 c2 enc dec :
    (192 ≤ N_of_ascii c1 < 224)%N → is_continuation c2 = true → spelled enc dec →
    spelled (c1 :: c2 :: enc) (c1 :: c2 :: dec)
| spelled_three c1 c2 c3 enc dec :
    (224 ≤ N_of_ascii c1 < 240)%N → is_continuation c2 = true → is_continuation c3 = true →
    spelled enc dec →
    spelled (c1 :: c2 :: c3 :: enc) (c1 :: c2 :: c3 :: dec)
| spelled_four c1 c2 c3 c4 enc dec :
    (240 ≤ N_of_ascii c1)%N → is_continuation c2 = true → is_continuation c3 = true →
    is_continuation c4 = true → spelled enc dec →
    spelled (c1 :: c2 :: c3 :: c4 :: enc) (c1 :: c2 :: c3 :: c4 :: dec)
| spelled_escape e x enc dec :
    simple_escape e = Some x → spelled enc dec → spelled (backslash :: e :: enc) (x :: dec)
| spelled_unicode a b c d code enc dec :
    parse_hex4 a b c d = Some code → is_high_surrogate code = false →
    is_low_surrogate code = false → spelled enc dec →
    spelled (backslash :: "u"%char :: a :: b :: c :: d :: enc) (encode_utf8 code ++ dec)
| spelled_pair a b c d code a' b' c' d' low enc dec :
    parse_hex4 a b c d = Some code → is_high_surrogate code = true →
    parse_hex4 a' b' c' d' = Some low → is_low_surrogate low = true → spelled enc dec →
    spelled (backslash :: "u"%char :: a :: b :: c :: d ::
             backslash :: "u"%char :: a' :: b' :: c' :: d' :: enc)
      (encode_utf8 (65536 + N.shiftl (code - 55296) 10 + (low - 56320)) ++ dec).

Lemma spelled_boundary enc dec rest :
  spelled enc dec → at_boundary (enc ++ quote_mark :: rest) = true.
Proof.
  destruct 1; simpl; unfold is_continuation; try done; apply negb_true_iff, andb_false_iff;
    rewrite N.leb_gt, N.ltb_ge; lia.
Qed.

Lemma not_special c : (192 ≤ N_of_ascii c)%N → c ≠ quote_mark ∧ c ≠ backslash.
Proof. intros Hc. split; intros ->; vm_compute in Hc; by apply Hc. Qed.

(** One step of the scanner at an escape. *)
Definition after_unicode (text l3 : list byte) (code : N) : result (list byte * list byte) CanonicalError :=
  if is_high_surrogate code then
    match l3 with
    | s :: u :: g1 :: g2 :: g3 :: g4 :: l4 =>
        if negb (bool_decide (s = backslash ∧ u = "u"%char)) then Err Invalid
        else if negb (at_boundary l4) then Err Invalid
        else match parse_hex4 g1 g2 g3 g4 with
        | None => Err Invalid
        | Some low =>
            if is_low_surrogate low then
              string_body (text ++ encode_utf8
                (65536 + N.shiftl (code - 55296) 10 + (low - 56320))%N) l4
            else Err Invalid
        end
    | _ => Err Invalid
    end
  else if is_low_surrogate code then Err Invalid
  else string_body (text ++ encode_utf8 code) l3.

Lemma string_body_unicode text a b c d l3 :
  string_body text (backslash :: "u"%char :: a :: b :: c :: d :: l3) =
  if negb (at_boundary l3) then Err Aborts
  else match parse_hex4 a b c d with
  | None => Err Invalid
  | Some code => after_unicode text l3 code
  end.
Proof. reflexivity. Qed.

Lemma string_body_escape text e x l :
  simple_escape e = Some x → string_body text (backslash :: e :: l) = string_body (text ++ [x]) l.
Proof. intros He. cbn [string_body]. by rewrite He. Qed.

Lemma string_body_char text c l :
  c ≠ quote_mark → c ≠ backslash →
  string_body text (c :: l) =
    if (N_of_ascii c <? 128)%N then string_body (text ++ [c]) l
    else if (N_of_ascii c <? 224)%N then
      match l with c2 :: l2 => string_body (text ++ [c; c2]) l2 | _ => Err Invalid end
    else if (N_of_ascii c <? 240)%N then
      match l with c2 :: c3 :: l3 => string_body (text ++ [c; c2; c3]) l3 | _ => Err Invalid end
    else match l with
      | c2 :: c3 :: c4 :: l4 => string_body (text ++ [c; c2; c3; c4]) l4
      | _ => Err Invalid
      end.
Proof.
  intros Hq Hb. cbn [string_body].
  by rewrite (bool_decide_eq_false_2 _ Hq), (bool_decide_eq_false_2 _ Hb).
Qed.

(** The scanner decodes every spelling. *)
Lemma string_body_spelled enc dec text rest :
  spelled enc dec → string_body text (enc ++ quote_mark :: rest) = Ok (text ++ dec, rest).
Proof.
  intros Hs. revert text. induction Hs; intros text; rewrite <- ?app_comm_cons.
  - by rewrite app_nil_r.
  - rewrite string_body_char, (proj2 (N.ltb_lt _ _)) by done. by rewrite IHHs, <- (assoc_L (++)).
  - destruct (not_special c1) as [Hq Hb]; [lia|]. rewrite string_body_char by done.
    rewrite (proj2 (N.ltb_ge _ 128)), (proj2 (N.ltb_lt _ 224)) by lia.
    by rewrite IHHs, <- (assoc_L (++)).
  - destruct (not_special c1) as [Hq Hb]; [lia|]. rewrite string_body_char by done.
    rewrite (proj2 (N.ltb_ge _ 128)), (proj2 (N.ltb_ge _ 224)), (proj2 (N.ltb_lt _ 240)) by lia.
    by rewrite IHHs, <- (assoc_L (++)).
  - destruct (not_special c1) as [Hq Hb]; [lia|]. rewrite string_body_char by done.
    rewrite (proj2 (N.ltb_ge _ 128)), (proj2 (N.ltb_ge _ 224)), (proj2 (N.ltb_ge _ 240)) by lia.
    by rewrite IHHs, <- (assoc_L (++)).
  - rewrite (string_body_escape _ _ _ _ H). by rewrite IHHs, <- (assoc_L (++)).
  - rewrite string_body_unicode, (spelled_boundary _ _ rest Hs), H. unfold after_unicode.
    rewrite H0, H1. cbn [negb]. by rewrite IHHs, <- (assoc_L (++)).
  - rewrite string_body_unicode, H. change (at_boundary (backslash :: _)) with true.
    unfold after_unicode. rewrite H0. cbn [negb].
    rewrite (bool_decide_eq_true_2 (backslash = backslash ∧ "u"%char = "u"%char)) by done.
    rewrite (spelled_boundary _ _ rest Hs), H1, H2. cbn [negb].
    by rewrite IHHs, <- (assoc_L (++)).
Qed.

(** ** Documents *)

(** JSON as it may be written: atoms, string spellings, white space anywhere, and
    object keys that may repeat. *)
Inductive doc :=
| DAtom (text : list byte)
| DString (enc dec : list byte)
| DArray (gap : list byte) (its : items)
| DObject (gap : list byte) (ms : members)
with items :=
| INil
| ICons (w1 : list byte) (d : doc) (w2 : list byte) (rest : items)
with members :=
| MNil
| MCons (w1 enc key w2 w3 : list byte) (d : doc) (w4 : list byte) (rest : members).

Scheme doc_mut := Induction for doc Sort Prop
with items_mut := Induction for items Sort Prop
with members_mut := Induction for members Sort Prop.
Combined Scheme doc_items_members_ind from doc_mut, items_mut, members_mut.

Fixpoint render (d : doc) : list byte :=
  match d with
  | DAtom text => text
  | DString enc _ => quote_mark :: enc ++ [quote_mark]
  | DArray gap INil => "["%char :: gap ++ ["]"%char]
  | DArray _ its => "["%char :: render_items its
  | DObject gap MNil => "{"%char :: gap ++ ["}"%char]
  | DObject _ ms => "{"%char :: render_members ms
  end
with render_items (its : items) : list byte :=
  match its with
  | INil => []
  | ICons w1 d w2 rest =>
      w1 ++ render d ++ w2 ++
      match rest with INil => ["]"%char] | _ => comma :: render_items rest end
  end
with render_members (ms : members) : list byte :=
  match ms with
  | MNil => []
  | MCons w1 enc _ w2 w3 d w4 rest =>
      w1 ++ quote_mark :: enc ++ quote_mark :: w2 ++ ":"%char :: w3 ++ render d ++ w4 ++
      match rest with MNil => ["}"%char] | _ => comma :: render_members rest end
  end.

(** The first key, in reading order, that its object already has. *)
Fixpoint first_duplicate (d : doc) : option (list byte) :=
  match d with
  | DAtom _ | DString _ _ => None
  | DArray _ its => first_duplicate_items its
  | DObject _ ms => first_duplicate_members [] ms
  end
with first_duplicate_items (its : items) : option (list byte) :=
  match its with
  | INil => None
  | ICons _ d _ rest =>
      match first_duplicate d with Some k => Some k | None => first_duplicate_items rest end
  end
with first_duplicate_members (seen : list (list byte)) (ms : members) : option (list byte) :=
  match ms with
  | MNil => None
  | MCons _ _ key _ _ d _ rest =>
      if bool_decide (key ∈ seen) then Some key
      else match first_duplicate d with
           | Some k => Some k
           | None => first_duplicate_members (key :: seen) rest
           end
  end.

Definition blank (w : list byte) : Prop := Forall (λ c, is_ws c = true) w.

(** A number, a literal, or anything the scanner leaves to [serde_json]. *)
Definition literals : list (list byte) := [bytes "true"; bytes "false"; bytes "null"].

Definition atom (t : list byte) : Prop :=
  Forall (λ c, is_structural c = false) t ∧
  (∃ c t', t = c :: t' ∧ c ≠ "{"%char ∧ c ≠ "["%char ∧ c ≠ quote_mark) ∧
  (t ∈ literals ∨ ∀ l r, l ∈ literals → t ≠ l ++ r).

Fixpoint written (d : doc) : Prop :=
  match d with
  | DAtom text => atom text
  | DString enc dec => spelled enc dec
  | DArray gap its => blank gap ∧ written_items its
  | DObject gap ms => blank gap ∧ written_members ms
  end
with written_items (its : items) : Prop :=
  match its with
  | INil => True
  | ICons w1 d w2 rest => blank w1 ∧ written d ∧ blank w2 ∧ written_items rest
  end
with written_members (ms : members) : Prop :=
  match ms with
  | MNil => True
  | MCons w1 enc key w2 w3 d w4 rest =>
      blank w1 ∧ spelled enc key ∧ blank w2 ∧ blank w3 ∧ written d ∧ blank w4 ∧ written_members rest
  end.

(** What a scan that reaches the end of a document's text says. *)
Definition verdict (duplicate : option (list byte)) (rest : list byte) :
    result (list byte) CanonicalError :=
  match duplicate with Some k => Err (DuplicateKey k) | None => Ok rest end.

Definition delimited (rest : list byte) : Prop :=
  match rest with [] => True | c :: _ => is_structural c = true end.

Lemma ws_blank w l : blank w → ws (w ++ l) = ws l.
Proof. induction 1 as [|c w Hc _ IH]; [done|]. simpl. by rewrite Hc. Qed.

Lemma ws_stop c l : is_ws c = false → ws (c :: l) = c :: l.
Proof. simpl. by intros ->. Qed.

Lemma value_blank fuel w l : blank w → value fuel (w ++ l) = value fuel l.
Proof. intros Hw. destruct fuel; [done|]. cbn [value]. by rewrite ws_blank. Qed.

Lemma structural_ws c : is_structural c = false → is_ws c = false.
Proof. unfold is_structural. intros [_ ?]%orb_false_iff. done. Qed.

Lemma skip_atom_app t rest :
  Forall (λ c, is_structural c = false) t → delimited rest → skip_atom (t ++ rest) = rest.
Proof.
  induction 1 as [|c t Hc _ IH]; intros Hd; simpl; [|rewrite Hc; auto].
  destruct rest as [|c rest]; [done|]. simpl in *. by rewrite Hd.
Qed.

Lemma starts_app prefix r : starts prefix (prefix ++ r) = Some r.
Proof. induction prefix as [|x prefix IH]; simpl; [done|]. by rewrite decide_True. Qed.

Lemma delimited_blank w c rest : blank w → is_structural c = true → delimited (w ++ c :: rest).
Proof.
  intros Hw Hc. destruct Hw as [|c' w Hc' _]; [done|]. simpl. unfold is_structural.
  rewrite Hc'. apply orb_true_r.
Qed.

Lemma literal_not_prefix t rest l r :
  delimited rest → (∀ l r, l ∈ literals → t ≠ l ++ r) → l ∈ literals → t ++ rest ≠ l ++ r.
Proof.
  intros Hd Ht Hl Heq. apply app_eq_inv in Heq as [(k & Hk & _)|(k & Hk & Hr)].
  { by apply (Ht l k). }
  destruct k as [|x k]; [apply (Ht l [] Hl); by rewrite app_nil_r in *|].
  rewrite Hr in Hd. simpl in Hd.
  assert (Hall : Forall (λ c, is_structural c = false) l).
  { apply (Forall_forall (λ l, Forall (λ c, is_structural c = false) l) literals); [|done].
    repeat constructor. }
  rewrite Hk in Hall. apply Forall_app in Hall as [_ Hall]. inversion Hall. congruence.
Qed.

Lemma value_atom fuel t rest :
  atom t → delimited rest → value (S fuel) (t ++ rest) = Ok rest.
Proof.
  intros (Hs & (c & t' & -> & H1 & H2 & H3) & Hlit) Hd. cbn [value].
  inversion Hs as [|? ? Hc Hs']; subst. rewrite <- app_comm_cons, ws_stop by by apply structural_ws.
  rewrite (bool_decide_eq_false_2 _ H1), (bool_decide_eq_false_2 _ H2), (bool_decide_eq_false_2 _ H3).
  rewrite app_comm_cons.
  destruct Hlit as [Hl|Hl].
  - unfold literals in Hl. rewrite !elem_of_cons in Hl.
    destruct Hl as [->|[->|[->|Hl%elem_of_nil]]]; [..|done]; [by rewrite starts_app| |].
    + replace (starts (bytes "true") (bytes "false" ++ rest)) with (@None (list byte)) by done.
      by rewrite starts_app.
    + replace (starts (bytes "true") (bytes "null" ++ rest)) with (@None (list byte)) by done.
      replace (starts (bytes "false") (bytes "null" ++ rest)) with (@None (list byte)) by done.
      by rewrite starts_app.
  - assert (Hno : ∀ l, l ∈ literals → starts l ((c :: t') ++ rest) = None).
    { intros l Hin. destruct (starts l _) as [r|] eqn:E; [|done]. exfalso.
      apply starts_Some in E. by apply (literal_not_prefix (c :: t') rest l r). }
    rewrite !Hno by (unfold literals; set_solver). by rewrite skip_atom_app.
Qed.

(** ** The scanner finds exactly the first repeated key *)

Lemma value_string fuel enc dec rest :
  spelled enc dec → value (S fuel) (quote_mark :: enc ++ quote_mark :: rest) = Ok rest.
Proof.
  intros Hs. cbn [value]. rewrite ws_stop by done.
  change (bool_decide (quote_mark = "{"%char)) with false.
  change (bool_decide (quote_mark = "["%char)) with false.
  rewrite (bool_decide_eq_true_2 (quote_mark = quote_mark)) by done.
  by rewrite (string_body_spelled _ _ [] rest Hs).
Qed.

(** How each loop goes on from the value it has read. *)
Lemma array_loop_step fuel l dup rest c l1 :
  value fuel l = verdict dup rest → ws rest = c :: l1 → c = "]"%char ∨ c = comma →
  array_loop (S fuel) l =
    match dup with
    | Some k => Err (DuplicateKey k)
    | None => if bool_decide (c = "]"%char) then Ok l1 else array_loop fuel l1
    end.
Proof.
  intros Hv Hw Hc. cbn [array_loop]. rewrite Hv. destruct dup as [k|]; [done|]. simpl. rewrite Hw.
  destruct Hc as [-> | ->]; [by rewrite bool_decide_eq_true_2|].
  change (bool_decide (comma = "]"%char)) with false. by rewrite bool_decide_eq_true_2.
Qed.

Lemma object_loop_step fuel seen w1 enc key w2 l rest dup c l1 :
  blank w1 → spelled enc key → blank w2 →
  value fuel l = verdict dup rest → ws rest = c :: l1 → c = "}"%char ∨ c = comma →
  object_loop (S fuel) seen (w1 ++ quote_mark :: enc ++ quote_mark :: w2 ++ ":"%char :: l) =
    if bool_decide (key ∈ seen) then Err (DuplicateKey key)
    else match dup with
    | Some k => Err (DuplicateKey k)
    | None => if bool_decide (c = "}"%char) then Ok l1 else object_loop fuel (key :: seen) l1
    end.
Proof.
  intros Hw1 Hs Hw2 Hv Hw Hc. cbn [object_loop]. rewrite ws_blank, ws_stop by done.
  rewrite (bool_decide_eq_true_2 (quote_mark = quote_mark)) by done. cbn [negb].
  rewrite (string_body_spelled _ _ [] _ Hs). cbn [result_bind app].
  destruct (bool_decide (key ∈ seen)); [done|].
  rewrite ws_blank, ws_stop by done.
  rewrite (bool_decide_eq_true_2 (":"%char = ":"%char)) by done. cbn [negb]. rewrite Hv.
  destruct dup as [k|]; [done|]. cbn [verdict result_bind]. rewrite Hw.
  destruct Hc as [-> | ->]; [by rewrite bool_decide_eq_true_2|].
  change (bool_decide (comma = "}"%char)) with false. by rewrite bool_decide_eq_true_2.
Qed.

(** Opening a container: what follows is not its closing mark. *)
Lemma render_start d : written d → ∃ c l, render d = c :: l ∧ is_structural c = false.
Proof.
  destruct d as [t|enc dec|gap [|]|gap [|]]; simpl; intros Hd; try by eexists _, _.
  destruct Hd as (Hs & (c & t' & -> & _) & _). inversion Hs. by eexists _, _.
Qed.

Lemma items_start its l :
  written_items its → its ≠ INil →
  ∃ c l', ws (render_items its ++ l) = c :: l' ∧ is_structural c = false.
Proof.
  destruct its as [|w1 d w2 rest]; [done|]. intros (Hw & Hd & _) _.
  destruct (render_start d Hd) as (c & t & Ht & Hc). cbn [render_items]. rewrite Ht.
  exists c. eexists. rewrite <- !(assoc_L (++)), ws_blank by done. simpl.
  by rewrite structural_ws.
Qed.

Lemma members_start ms l :
  written_members ms → ms ≠ MNil → ∃ l', ws (render_members ms ++ l) = quote_mark :: l'.
Proof.
  destruct ms as [|w1 enc key w2 w3 d w4 rest]; [done|]. intros (Hw & _) _. cbn [render_members].
  eexists. rewrite <- (assoc_L (++)), ws_blank by done. reflexivity.
Qed.

Lemma value_array fuel gap its rest :
  written (DArray gap its) →
  value (S fuel) (render (DArray gap its) ++ rest) =
    match its with INil => Ok rest | _ => array_loop fuel (render_items its ++ rest) end.
Proof.
  intros [Hg Hi]. destruct its as [|w1 d w2 its'] eqn:Eits; cbn [value render];
    rewrite <- app_comm_cons, ws_stop by done;
    change (bool_decide ("["%char = "{"%char)) with false;
    rewrite (bool_decide_eq_true_2 ("["%char = "["%char)) by done.
  - by rewrite <- (assoc_L (++)), ws_blank by done.
  - rewrite <- Eits in *. destruct (items_start its rest) as (c & l' & -> & Hc); [done|congruence|].
    rewrite bool_decide_eq_false_2; [done|]. by intros ->.
Qed.

Lemma value_object fuel gap ms rest :
  written (DObject gap ms) →
  value (S fuel) (render (DObject gap ms) ++ rest) =
    match ms with MNil => Ok rest | _ => object_loop fuel [] (render_members ms ++ rest) end.
Proof.
  intros [Hg Hi]. destruct ms as [|w1 enc key w2 w3 d w4 ms'] eqn:Ems; cbn [value render];
    rewrite <- app_comm_cons, ws_stop by done;
    rewrite (bool_decide_eq_true_2 ("{"%char = "{"%char)) by done.
  - by rewrite <- (assoc_L (++)), ws_blank by done.
  - rewrite <- Ems in *. destruct (members_start ms rest) as (l' & ->); [done|congruence|].
    by rewrite bool_decide_eq_false_2.
Qed.

(** ** Reading a written document *)

(** With enough fuel a call of the scanner says what is first repeated. *)
Definition scans (call : nat → result (list byte) CanonicalError)
    (duplicate : option (list byte)) (rest : list byte) : Prop :=
  ∃ f0, ∀ f, f0 ≤ f → call f = verdict duplicate rest.

Lemma scans_step call call' duplicate rest :
  scans call duplicate rest → (∀ f, call' (S f) = call f) → scans call' duplicate rest.
Proof.
  intros [f0 Hf] Hs. exists (S f0). intros [|f] Hle; [lia|]. rewrite Hs. apply Hf. lia.
Qed.

(** What ends a container's entry: its closing mark, or a comma and the rest. *)
Lemma scan_item w1 d w2 its rest :
  blank w1 → blank w2 →
  (∀ rest, delimited rest → scans (λ f, value f (render d ++ rest)) (first_duplicate d) rest) →
  (its ≠ INil → scans (λ f, array_loop f (render_items its ++ rest)) (first_duplicate_items its) rest) →
  scans (λ f, array_loop f (render_items (ICons w1 d w2 its) ++ rest))
    (first_duplicate_items (ICons w1 d w2 its)) rest.
Proof.
  intros Hw1 Hw2 IHd IHi. cbn [render_items first_duplicate_items].
  assert (∃ c t, match its with INil => ["]"%char] | _ => comma :: render_items its end = c :: t ∧
    (c = "]"%char ∧ t = [] ∧ its = INil ∨ c = comma ∧ its ≠ INil ∧ t = render_items its))
    as (c & t & -> & Hc).
  { destruct its; eexists _, _; (split; [reflexivity|]); [by left|by right]. }
  assert (Hm : c = "]"%char ∨ c = comma) by naive_solver.
  assert (Hws : ws (w2 ++ c :: t ++ rest) = c :: (t ++ rest)).
  { rewrite ws_blank by done. by destruct Hm as [-> | ->]. }
  destruct (IHd (w2 ++ c :: t ++ rest)) as [f1 Hf1].
  { apply delimited_blank; [done|]. by destruct Hm as [-> | ->]. }
  rewrite <- !(assoc_L (++)). rewrite <- app_comm_cons.
  assert (Hstep := λ f Hf, array_loop_step f (w1 ++ render d ++ w2 ++ c :: t ++ rest)
    (first_duplicate d) _ c (t ++ rest)
    (eq_trans (value_blank f w1 _ Hw1) (Hf1 f Hf)) Hws Hm).
  destruct (first_duplicate d) as [k|].
  { exists (S f1). intros [|f] Hf; [lia|]. apply Hstep. lia. }
  destruct Hc as [(-> & -> & ->)|(-> & Hne & ->)].
  { exists (S f1). intros [|f] Hf; [lia|]. rewrite Hstep by lia. by rewrite bool_decide_eq_true_2. }
  destruct (IHi Hne) as [f2 Hf2]. exists (S (f1 + f2)). intros [|f] Hf; [lia|].
  rewrite Hstep by lia. rewrite bool_decide_eq_false_2 by done. apply Hf2. lia.
Qed.

Lemma scan_member w1 enc key w2 w3 d w4 ms seen rest :
  blank w1 → spelled enc key → blank w2 → blank w3 → blank w4 →
  (∀ rest, delimited rest → scans (λ f, value f (render d ++ rest)) (first_duplicate d) rest) →
  (ms ≠ MNil → ∀ seen, scans (λ f, object_loop f seen (render_members ms ++ rest))
     (first_duplicate_members seen ms) rest) →
  scans (λ f, object_loop f seen (render_members (MCons w1 enc key w2 w3 d w4 ms) ++ rest))
    (first_duplicate_members seen (MCons w1 enc key w2 w3 d w4 ms)) rest.
Proof.
  intros Hw1 Hs Hw2 Hw3 Hw4 IHd IHm. cbn [render_members first_duplicate_members].
  assert (∃ c t, match ms with MNil => ["}"%char] | _ => comma :: render_members ms end = c :: t ∧
    (c = "}"%char ∧ t = [] ∧ ms = MNil ∨ c = comma ∧ ms ≠ MNil ∧ t = render_members ms))
    as (c & t & -> & Hc).
  { destruct ms; eexists _, _; (split; [reflexivity|]); [by left|by right]. }
  assert (Hm : c = "}"%char ∨ c = comma) by naive_solver.
  assert (Hws : ws (w4 ++ c :: t ++ rest) = c :: (t ++ rest)).
  { rewrite ws_blank by done. by destruct Hm as [-> | ->]. }
  destruct (IHd (w4 ++ c :: t ++ rest)) as [f1 Hf1].
  { apply delimited_blank; [done|]. by destruct Hm as [-> | ->]. }
  repeat (rewrite <- (assoc_L (++)) || rewrite <- app_comm_cons).
  assert (Hstep := λ f Hf, object_loop_step f seen w1 enc key w2
    (w3 ++ render d ++ w4 ++ c :: t ++ rest) _ (first_duplicate d) c (t ++ rest) Hw1 Hs Hw2
    (eq_trans (value_blank f w3 _ Hw3) (Hf1 f Hf)) Hws Hm).
  destruct (bool_decide (key ∈ seen)).
  { exists (S f1). intros [|f] Hf; [lia|]. apply Hstep. lia. }
  destruct (first_duplicate d) as [k|].
  { exists (S f1). intros [|f] Hf; [lia|]. apply Hstep. lia. }
  destruct Hc as [(-> & -> & ->)|(-> & Hne & ->)].
  { exists (S f1). intros [|f] Hf; [lia|]. rewrite Hstep by lia. by rewrite bool_decide_eq_true_2. }
  destruct (IHm Hne (key :: seen)) as [f2 Hf2]. exists (S (f1 + f2)). intros [|f] Hf; [lia|].
  rewrite Hstep by lia. rewrite bool_decide_eq_false_2 by done. apply Hf2. lia.
Qed.

Lemma scan_document :
  (∀ d, written d → ∀ rest, delimited rest →
     scans (λ f, value f (render d ++ rest)) (first_duplicate d) rest) ∧
  (∀ its, written_items its → its ≠ INil → ∀ rest,
     scans (λ f, array_loop f (render_items its ++ rest)) (first_duplicate_items its) rest) ∧
  (∀ ms, written_members ms → ms ≠ MNil → ∀ rest seen,
     scans (λ f, object_loop f seen (render_members ms ++ rest)) (first_duplicate_members seen ms) rest).
Proof.
  apply doc_items_members_ind.
  - intros t Ht rest Hd. exists 1. intros [|f] Hf; [lia|]. by apply value_atom.
  - intros enc dec Hs rest _. exists 1. intros [|f] Hf; [lia|]. cbn [render].
    rewrite <- app_comm_cons, <- (assoc_L (++)). by eapply value_string.
  - intros gap its IH Hd rest _.
    assert (its = INil ∨ its ≠ INil) as [->|Hne] by (destruct its; auto).
    + exists 1. intros [|f] Hf; [lia|]. by rewrite value_array.
    + eapply scans_step; [apply (IH (proj2 Hd) Hne rest)|]. intros f.
      rewrite value_array by done. by destruct its.
  - intros gap ms IH Hd rest _.
    assert (ms = MNil ∨ ms ≠ MNil) as [->|Hne] by (destruct ms; auto).
    + exists 1. intros [|f] Hf; [lia|]. by rewrite value_object.
    + eapply scans_step; [apply (IH (proj2 Hd) Hne rest [])|]. intros f.
      rewrite value_object by done. by destruct ms.
  - done.
  - intros w1 d IHd w2 its IHi (Hw1 & Hd & Hw2 & Hi) _ rest. apply scan_item; auto.
  - done.
  - intros w1 enc key w2 w3 d IHd w4 ms IHm (Hw1 & Hk & Hw2 & Hw3 & Hd & Hw4 & Hm) _ rest seen.
    apply scan_member; auto.
Qed.

Lemma reject_duplicates_document w1 d w2 :
  blank w1 → written d → blank w2 →
  reject_duplicates (w1 ++ render d ++ w2) =
    match first_duplicate d with Some k => Err (DuplicateKey k) | None => Ok tt end.
Proof.
  intros Hw1 Hd Hw2. unfold reject_duplicates.
  assert (delimited w2).
  { destruct Hw2 as [|c w Hc _]; [done|]. simpl. unfold is_structural. rewrite Hc. apply orb_true_r. }
  rewrite (value_at_bound _ (verdict (first_duplicate d) w2)).
  - destruct (first_duplicate d); [done|]. simpl.
    replace w2 with (w2 ++ []) by apply app_nil_r. by rewrite ws_blank.
  - destruct (proj1 scan_document d Hd w2) as [f0 Hf]; [done|]. exists f0. intros f Hle.
    rewrite value_blank by done. by apply Hf.
Qed.

(** ** Keys are totally ordered *)

Lemma ascii_N_inj x y : N_of_ascii x = N_of_ascii y → x = y.
Proof. intros Hxy. rewrite <- (ascii_N_embedding x), Hxy. apply ascii_N_embedding. Qed.

Lemma key_leb_total a b : key_leb a b = true ∨ key_leb b a = true.
Proof.
  revert b. induction a as [|x a IH]; intros [|y b]; simpl; auto.
  destruct (decide (x = y)) as [->|Hne].
  - rewrite !bool_decide_eq_true_2 by done. destruct (IH b) as [-> | ->];
      [left|right]; by rewrite orb_true_r.
  - assert (N_of_ascii x ≠ N_of_ascii y) by (by intros ?%ascii_N_inj).
    destruct (N.ltb_spec (N_of_ascii x) (N_of_ascii y)); [by left|right].
    by rewrite (proj2 (N.ltb_lt _ _)) by lia.
Qed.

Lemma key_leb_antisym a b : key_leb a b = true → key_leb b a = true → a = b.
Proof.
  revert b. induction a as [|x a IH]; intros [|y b]; simpl; try done.
  intros [H1%N.ltb_lt|[Hx%bool_decide_eq_true H1]%andb_true_iff]%orb_true_iff
         [H2%N.ltb_lt|[Hy%bool_decide_eq_true H2]%andb_true_iff]%orb_true_iff; subst; try lia.
  f_equal. by apply IH.
Qed.

Lemma key_leb_trans a b c : key_leb a b = true → key_leb b c = true → key_leb a c = true.
Proof.
  revert b c. induction a as [|x a IH]; intros [|y b] [|z c]; simpl; try done.
  intros [H1%N.ltb_lt|[Hx%bool_decide_eq_true H1]%andb_true_iff]%orb_true_iff
         [H2%N.ltb_lt|[Hy%bool_decide_eq_true H2]%andb_true_iff]%orb_true_iff; subst;
    apply orb_true_iff; rewrite N.ltb_lt; [left; lia|left; lia|left; lia|right].
  rewrite bool_decide_eq_true_2 by done. simpl. by apply (IH b).
Qed.

#[export] Instance key_le_total {V} : Total (key_le (V := V)).
Proof. intros p q. apply key_leb_total. Qed.
#[export] Instance key_le_trans {V} : Transitive (key_le (V := V)).
Proof. intros p q r. apply key_leb_trans. Qed.

(** Entries of one map, in any order, are sorted the same way. *)
Lemma sort_entries_perm {V} (l l' : list (list byte * V)) :
  NoDup l.*1 → l ≡ₚ l' → merge_sort key_le l = merge_sort key_le l'.
Proof.
  intros Hnd Hp. apply (StronglySorted_unique_strong key_le).
  - intros [k v] [k' v'] Hin Hin' H1 H2. pose proof (key_leb_antisym _ _ H1 H2) as Hk.
    simpl in Hk. subst k'. rewrite merge_sort_Permutation in Hin, Hin'. rewrite <- Hp in Hin'.
    apply list_elem_of_lookup in Hin as [i Hi]. apply list_elem_of_lookup in Hin' as [j Hj].
    assert (i = j) as <-; [|congruence].
    apply (NoDup_lookup l.*1 i j k Hnd); rewrite list_lookup_fmap; [by rewrite Hi|by rewrite Hj].
  - apply (StronglySorted_merge_sort key_le).
  - apply (StronglySorted_merge_sort key_le).
  - by rewrite !merge_sort_Permutation.
Qed.

(** ** Equality of JSON values *)

(** A string the parser can have read. *)
Definition is_text (s : list byte) : Prop := ∃ enc, spelled enc s.

Section canonical.
Context {Num : Type} `{JsonNumber Num}.
Context (quote : list byte → list byte).
Implicit Types (v : Value Num).

Lemma Value_rect' (P : Value Num → Prop) :
  P VNull → (∀ b, P (VBool b)) → (∀ n, P (VNumber n)) → (∀ s, P (VString s)) →
  (∀ l, Forall P l → P (VArray l)) → (∀ m, Forall (λ e, P e.2) m → P (VObject m)) → ∀ v, P v.
Proof.
  intros H0 H1 H2 H3 H4 H5. fix IH 1. intros [|b|n|s|l|m].
  - exact H0.
  - apply H1.
  - apply H2.
  - apply H3.
  - apply H4. induction l as [|x l IHl]; constructor; [apply IH|exact IHl].
  - apply H5. induction m as [|[k x] m IHm]; constructor; [apply IH|exact IHm].
Qed.

(** Two values are the same JSON: objects regardless of the order of entries. *)
Inductive same_json : Value Num → Value Num → Prop :=
| same_null : same_json VNull VNull
| same_bool b : same_json (VBool b) (VBool b)
| same_number n : same_json (VNumber n) (VNumber n)
| same_string s : same_json (VString s) (VString s)
| same_array l l' : Forall2 same_json l l' → same_json (VArray l) (VArray l')
| same_object m p m' :
    m ≡ₚ p → Forall2 (λ e e', e.1 = e'.1 ∧ same_json e.2 e'.2) p m' →
    same_json (VObject m) (VObject m').

(** What a parsed value satisfies: its strings are text, its keys unique. *)
Fixpoint regular v : Prop :=
  match v with
  | VNull | VBool _ | VNumber _ => True
  | VString s => is_text s
  | VArray items =>
      (fix go items := match items with [] => True | v :: items => regular v ∧ go items end) items
  | VObject map =>
      NoDup map.*1 ∧
      (fix go map := match map with
        | [] => True | (key, v) :: map => is_text key ∧ regular v ∧ go map
        end) map
  end.

Lemma regular_array l : regular (VArray l) ↔ Forall regular l.
Proof. simpl. induction l as [|v l IH]; [done|]. rewrite Forall_cons. naive_solver. Qed.

Lemma regular_object m :
  regular (VObject m) ↔ NoDup m.*1 ∧ Forall (λ e, is_text e.1 ∧ regular e.2) m.
Proof.
  simpl. apply and_iff_compat_l. induction m as [|[k v] m IH]; [done|].
  rewrite Forall_cons, IH. simpl. tauto.
Qed.

Lemma check_array l : check (VArray l) = Ok tt ↔ Forall (λ v, check v = Ok tt) l.
Proof.
  simpl. induction l as [|v l IH]; [done|]. rewrite Forall_cons, <- IH.
  destruct (check v) as [[]|]; simpl; naive_solver.
Qed.

Lemma check_object m : check (VObject m) = Ok tt ↔ Forall (λ e, check e.2 = Ok tt) m.
Proof.
  simpl. induction m as [|[k v] m IH]; [done|]. rewrite Forall_cons, <- IH. simpl.
  destruct (check v) as [[]|]; simpl; naive_solver.
Qed.

(** The text of an entry, and the two containers by the text of their entries. *)
Definition entry_text (e : list byte * Value Num) : list byte := member quote (e.1, emit quote e.2).

Lemma emit_array l :
  emit quote (VArray l) = "["%char :: join_with comma (emit quote <$> l) ++ ["]"%char].
Proof. reflexivity. Qed.

Lemma emit_object m : NoDup m.*1 → ∃ p, m ≡ₚ p ∧
  emit quote (VObject m) = "{"%char :: join_with comma (entry_text <$> p) ++ ["}"%char] ∧
  ∀ m', m' ≡ₚ m → emit quote (VObject m') = emit quote (VObject m).
Proof.
  intros Hnd. set (E := λ e : list byte * Value Num, (e.1, emit quote e.2)).
  assert (Hgo : ∀ m, emit quote (VObject m) =
    "{"%char :: join_with comma (member quote <$> merge_sort key_le (E <$> m)) ++ ["}"%char]).
  { intros m0. simpl. do 5 f_equal. induction m0 as [|[k v] m0 IH]; simpl; by f_equal. }
  assert (∃ p, merge_sort key_le (E <$> m) = map E p ∧ m ≡ₚ p) as (p & Hp & Hmp).
  { apply Permutation_map_inv. by rewrite merge_sort_Permutation. }
  exists p. split_and!; [done| |].
  - rewrite Hgo. change (map E p) with (E <$> p) in Hp. rewrite Hp, <- list_fmap_compose. done.
  - intros m' Hm'. rewrite !Hgo. do 4 f_equal. apply sort_entries_perm.
    + rewrite Hm', <- list_fmap_compose. exact Hnd.
    + by rewrite Hm'.
Qed.

(** The order in which an object's entries arrive does not show. *)
Lemma emit_same v v' : regular v → same_json v v' → emit quote v = emit quote v'.
Proof.
  revert v'. induction v as [|b|n|s|l IH|m IH] using Value_rect'; intros v' Hr Hs;
    inversion Hs; subst; try done.
  - rewrite !emit_array. do 3 f_equal. apply regular_array in Hr.
    clear Hs. induction H1 as [|x y l l' Hxy _ IHl]; [done|].
    apply Forall_cons in IH as [IHx IH]. apply Forall_cons in Hr as [Hx Hr].
    simpl. f_equal; auto.
  - apply regular_object in Hr as [Hnd Hr].
    destruct (emit_object m Hnd) as (_ & _ & _ & Hperm).
    rewrite <- (Hperm p) by done. clear Hperm Hs.
    assert (IH' : Forall (λ e, ∀ v', regular e.2 → same_json e.2 v' → emit quote e.2 = emit quote v') p).
    { by rewrite <- H1. }
    assert (Hr' : Forall (λ e, is_text e.1 ∧ regular e.2) p) by by rewrite <- H1.
    simpl. do 5 f_equal. clear IH Hr Hnd H1.
    induction H2 as [|[k x] [k' y] p m' [Hk Hxy] _ IHp]; [done|]. simpl in *. subst k'.
    apply Forall_cons in IH' as [IHx IH']. apply Forall_cons in Hr' as [[_ Hx] Hr'].
    f_equal; [|auto]. f_equal. by apply IHx.
Qed.

Lemma same_json_check v v' :
  same_json v v' → check v = Ok tt → check v' = Ok tt.
Proof.
  revert v'. induction v as [|bo|n|s|l IH|m IH] using Value_rect'; intros v' Hs Hc;
    inversion Hs; subst; try done.
  - rewrite check_array in *. clear Hs. induction H1 as [|x y l l' Hxy _ IHl]; [done|].
    apply Forall_cons in IH as [IHx IH], Hc as [Hx Hc]. constructor; auto.
  - rewrite check_object in *. rewrite H1 in IH, Hc. clear Hs H1.
    induction H2 as [|x y p m' [_ Hxy] _ IHp]; [done|].
    apply Forall_cons in IH as [IHx IH], Hc as [Hx Hc]. constructor; auto.
Qed.

(** ** Reading a value back from its text *)

(** What the crate relies on of [serde_json]'s writer: a quoted string is a spelling
    of it, and an integer is its own digits. *)
Class SerdeWriter := {
  quote_spelled s : is_text s →
    ∃ enc, quote s = quote_mark :: enc ++ [quote_mark] ∧ spelled enc s;
  number_digits n : check_number n = Ok tt →
    number_text n ≠ [] ∧ Forall (λ c, is_digit c = true ∨ c = "-"%char) (number_text n);
  number_injective n n' : check_number n = Ok tt → check_number n' = Ok tt →
    number_text n = number_text n' → n = n';
}.
Context `{SerdeWriter}.

Lemma quote_prefix s s' a b :
  is_text s → is_text s' → quote s ++ a = quote s' ++ b → s = s' ∧ a = b.
Proof.
  intros Hs Hs' Heq. destruct (quote_spelled s Hs) as (enc & Hq & He).
  destruct (quote_spelled s' Hs') as (enc' & Hq' & He').
  rewrite Hq, Hq' in Heq. simpl in Heq. injection Heq as Heq.
  rewrite <- !(assoc_L (++)) in Heq. simpl in Heq.
  apply (f_equal (string_body [])) in Heq.
  rewrite !string_body_spelled with (dec := s) in Heq by done.
  rewrite !string_body_spelled with (dec := s') in Heq by done. by simplify_eq/=.
Qed.

Lemma digit_plain c : is_digit c = true ∨ c = "-"%char →
  is_structural c = false ∧ c ≠ "{"%char ∧ c ≠ "["%char ∧ c ≠ quote_mark ∧
  c ≠ "n"%char ∧ c ≠ "t"%char ∧ c ≠ "f"%char.
Proof.
  intros [Hd| ->]; [|by split_and!].
  split_and!; [|by intros ->..]. destruct (is_structural c) eqn:E; [|done]. exfalso.
  unfold is_structural, is_ws in E. apply orb_true_iff in E.
  rewrite !bool_decide_eq_true in E. naive_solver.
Qed.

(** How the text of each kind of value begins. *)
Definition begins (v : Value Num) (c : byte) : Prop :=
  match v with
  | VNull => c = "n"%char
  | VBool true => c = "t"%char
  | VBool false => c = "f"%char
  | VNumber _ => is_digit c = true ∨ c = "-"%char
  | VString _ => c = quote_mark
  | VArray _ => c = "["%char
  | VObject _ => c = "{"%char
  end.

Lemma emit_begins v : regular v → check v = Ok tt → ∃ c l, emit quote v = c :: l ∧ begins v c.
Proof.
  intros Hr Hc. destruct v as [|[]|n|s|l|m]; simpl; try by eexists _, _.
  - destruct (number_digits n Hc) as [Hn Hd]. destruct (number_text n) as [|c l]; [done|].
    inversion Hd. by eexists _, _.
  - destruct (quote_spelled s Hr) as (enc & -> & _). by eexists _, _.
Qed.

Lemma begins_plain v c : begins v c → is_structural c = false.
Proof. destruct v as [|[]|n|s|l|m]; simpl; try (by intros ->). apply digit_plain. Qed.

(** Joined entries are read back one by one. *)
Lemma join_prefix {A} (f : A → list byte) (R : A → A → Prop) (close : byte) xs ys a b :
  close ≠ comma → is_structural close = true →
  (∀ x y c d r r', x ∈ xs → y ∈ ys → is_structural c = true → is_structural d = true →
     f x ++ c :: r = f y ++ d :: r' → R x y ∧ c :: r = d :: r') →
  (∀ x, x ∈ xs ∨ x ∈ ys → ∃ c l, f x = c :: l ∧ is_structural c = false) →
  join_with comma (f <$> xs) ++ close :: a = join_with comma (f <$> ys) ++ close :: b →
  Forall2 R xs ys ∧ a = b.
Proof.
  intros Hclose Hst. assert (is_structural comma = true) as Hcomma by done.
  revert ys. induction xs as [|x xs IH]; intros ys Hf Hstart Heq.
  { destruct ys as [|y ys]; [simpl in Heq; simplify_eq; split; [constructor|done]|].
    destruct (Hstart y) as (c & l & Hy & Hc); [set_solver|]. exfalso.
    destruct ys; simpl in Heq; rewrite Hy in Heq; simpl in Heq; simplify_eq; congruence. }
  destruct ys as [|y ys].
  { destruct (Hstart x) as (c & l & Hx & Hc); [set_solver|]. exfalso.
    destruct xs; simpl in Heq; rewrite Hx in Heq; simpl in Heq; simplify_eq; congruence. }
  assert (Hjoin : ∀ (z : A) zs e, ∃ c r,
    join_with comma (f <$> z :: zs) ++ close :: e = f z ++ c :: r ∧ is_structural c = true ∧
    (zs = [] ∧ c = close ∧ r = e ∨
     zs ≠ [] ∧ c = comma ∧ r = join_with comma (f <$> zs) ++ close :: e)).
  { intros z [|z' zs] e; eexists _, _; (split; [|split]); [reflexivity|done|by left| |done|by right].
    simpl. by rewrite <- (assoc_L (++)). }
  destruct (Hjoin x xs a) as (c & r & Hx & Hc & Hcases).
  destruct (Hjoin y ys b) as (d & r' & Hy & Hd & Hcases').
  rewrite Hx, Hy in Heq. clear Hjoin Hx Hy.
  destruct (Hf x y c d r r') as [HR [= -> ->]]; [set_solver..|done|done|done|].
  destruct Hcases as [(-> & -> & ->)|(Hxs & -> & ->)], Hcases' as [(-> & Hd' & Hr)|(Hys & Hd' & Hr)];
    try congruence.
  - split; [by repeat constructor|done].
  - destruct (IH ys) as [HRs ->]; [|set_solver|done|by repeat constructor].
    intros; eapply Hf; eauto; set_solver.
Qed.

(** Values whose texts begin alike are of one kind. *)
Definition kind v : nat :=
  match v with
  | VNull => 0 | VBool true => 1 | VBool false => 2 | VNumber _ => 3 | VString _ => 4
  | VArray _ => 5 | VObject _ => 6
  end.

Lemma begins_kind v v' c : begins v c → begins v' c → kind v = kind v'.
Proof.
  intros Hv Hv'.
  destruct v as [|[]|n|s|l|m], v' as [|[]|n'|s'|l'|m']; simpl in *; subst; try done;
    try (by destruct (digit_plain _ Hv) as (? & ? & ? & ? & ? & ? & ?));
    try (by destruct (digit_plain _ Hv') as (? & ? & ? & ? & ? & ? & ?)).
Qed.

Lemma emit_kind v v' a b :
  regular v → regular v' → check v = Ok tt → check v' = Ok tt →
  emit quote v ++ a = emit quote v' ++ b → kind v = kind v'.
Proof.
  intros Hr Hr' Hc Hc' Heq.
  destruct (emit_begins v Hr Hc) as (c & l & Hl & Hb).
  destruct (emit_begins v' Hr' Hc') as (c' & l' & Hl' & Hb').
  rewrite Hl, Hl' in Heq. simplify_eq/=. by eapply begins_kind.
Qed.

Lemma number_prefix n n' a b :
  check_number n = Ok tt → check_number n' = Ok tt → delimited a → delimited b →
  number_text n ++ a = number_text n' ++ b → n = n' ∧ a = b.
Proof.
  intros Hc Hc' Ha Hb Heq.
  assert (Hplain : ∀ n, check_number n = Ok tt →
    Forall (λ c, is_structural c = false) (number_text n)).
  { intros x Hx. destruct (number_digits x Hx) as [_ Hd].
    eapply Forall_impl; [exact Hd|]. intros c. apply digit_plain. }
  pose proof (f_equal skip_atom Heq) as Hrest.
  rewrite !skip_atom_app in Hrest by auto. subst b.
  split; [|done]. apply number_injective; [done..|]. by eapply app_inv_tail.
Qed.

Lemma emit_prefix v v' a b :
  regular v → regular v' → check v = Ok tt → check v' = Ok tt → delimited a → delimited b →
  emit quote v ++ a = emit quote v' ++ b → same_json v v' ∧ a = b.
Proof.
  revert v' a b. induction v as [|bo|n|s|l IH|m IH] using Value_rect';
    intros v' a b Hr Hr' Hc Hc' Ha Hb Heq;
    pose proof (emit_kind _ _ _ _ Hr Hr' Hc Hc' Heq) as Hk;
    destruct v' as [|bo'|n'|s'|l'|m']; simpl in Hk; try (repeat case_match; discriminate).
  - apply app_inv_head in Heq. by split; [constructor|].
  - destruct bo, bo'; try done; apply app_inv_head in Heq; by split; [constructor|].
  - destruct (number_prefix n n' a b) as [-> ->]; try done. by split; [constructor|].
  - destruct (quote_prefix s s' a b) as [-> ->]; try done. by split; [constructor|].
  - apply regular_array in Hr, Hr'. apply check_array in Hc, Hc'. rewrite !emit_array in Heq.
    injection Heq as Heq. rewrite <- !(assoc_L (++)) in Heq. simpl in Heq.
    rewrite Forall_forall in Hr, Hr', Hc, Hc', IH.
    destruct (join_prefix (emit quote) same_json "]"%char l l' a b) as [Hl ->]; try done.
    + intros x y c d r r' Hx Hy Hsc Hsd Hxy. apply (IH x Hx); auto.
    + intros x Hx. destruct (emit_begins x) as (c & t & Ht & Hbx); [naive_solver..|].
      exists c, t. split; [done|]. by eapply begins_plain.
    + split; [by constructor|done].
  - apply regular_object in Hr as [Hnd Hr], Hr' as [Hnd' Hr'].
    apply check_object in Hc, Hc'.
    destruct (emit_object m Hnd) as (p & Hp & He & _). destruct (emit_object m' Hnd') as (p' & Hp' & He' & _).
    rewrite He, He' in Heq. injection Heq as Heq. rewrite <- !(assoc_L (++)) in Heq. simpl in Heq.
    rewrite Hp in Hr, Hc, IH. rewrite Hp' in Hr', Hc'.
    rewrite Forall_forall in Hr, Hr', Hc, Hc', IH.
    destruct (join_prefix entry_text (λ e e', e.1 = e'.1 ∧ same_json e.2 e'.2) "}"%char p p' a b)
      as [Hl ->]; try done.
    + intros [k x] [k' y] c d r r' Hx Hy Hsc Hsd Hxy. unfold entry_text, member in Hxy. simpl in Hxy.
      rewrite <- !(assoc_L (++)) in Hxy. destruct (Hr _ Hx) as [Hkx Hrx], (Hr' _ Hy) as [Hky Hry].
      apply quote_prefix in Hxy as [-> Hxy]; [|done..]. simpl in Hxy. injection Hxy as Hxy.
      destruct (IH _ Hx y (c :: r) (d :: r') Hrx Hry (Hc _ Hx) (Hc' _ Hy) Hsc Hsd Hxy). done.
    + intros [k x] Hx. destruct (quote_spelled k) as (enc & Hq & _).
      { destruct Hx as [Hx|Hx]; [by apply (Hr _ Hx)|by apply (Hr' _ Hx)]. }
      unfold entry_text, member. simpl. rewrite Hq. by eexists _, _.
    + split; [|done].
      assert (Hflip : Forall2 (λ e' e, e.1 = e'.1 ∧ same_json e.2 e'.2) p' p) by by apply Forall2_flip.
      destruct (Permutation_Forall2 (Permutation_sym Hp') Hflip) as (q & Hq & Hlq).
      apply (same_object m q m'); [by rewrite Hp|]. by apply Forall2_flip.
Qed.

(** ** Canonical text is a document without repetition *)

(** The document of a list of entries, without white space. *)
Fixpoint items_of (ds : list doc) : items :=
  match ds with [] => INil | d :: ds => ICons [] d [] (items_of ds) end.

Fixpoint members_of (ms : list (list byte * list byte * doc)) : members :=
  match ms with
  | [] => MNil
  | (enc, key, d) :: ms => MCons [] enc key [] [] d [] (members_of ms)
  end.

Lemma render_items_of ds : ds ≠ [] →
  render_items (items_of ds) = join_with comma (render <$> ds) ++ ["]"%char].
Proof.
  induction ds as [|d [|d' ds] IH]; [done|done|]. intros _. cbn [items_of render_items] in *.
  rewrite IH by done. simpl. by rewrite <- (assoc_L (++)).
Qed.

Lemma render_members_of ms : ms ≠ [] →
  render_members (members_of ms) =
    join_with comma ((λ m, quote_mark :: m.1.1 ++ quote_mark :: ":"%char :: render m.2) <$> ms) ++
    ["}"%char].
Proof.
  induction ms as [|[[enc key] d] [|[[enc' key'] d'] ms] IH]; [done| |].
  - intros _. simpl. by rewrite <- (assoc_L (++)).
  - intros _. cbn [members_of render_members] in *. rewrite IH by done. simpl.
    by rewrite <- !(assoc_L (++)).
Qed.

Lemma emit_document v :
  regular v → check v = Ok tt →
  ∃ d, render d = emit quote v ∧ written d ∧ first_duplicate d = None.
Proof.
  induction v as [|bo|n|s|l IH|m IH] using Value_rect'; intros Hr Hc.
  - exists (DAtom (bytes "null")). split_and!; try done. split; [repeat constructor|].
    split; [by eexists _, _|left; unfold literals; set_solver].
  - exists (DAtom (if bo then bytes "true" else bytes "false")). destruct bo;
      (split_and!; try done; split; [repeat constructor|];
       split; [by eexists _, _|left; unfold literals; set_solver]).
  - exists (DAtom (number_text n)). split_and!; try done.
    destruct (number_digits n Hc) as [Hne Hd]. split_and!.
    + eapply Forall_impl; [exact Hd|]. intros c. apply digit_plain.
    + destruct (number_text n) as [|c t]; [done|]. exists c, t. inversion Hd.
      destruct (digit_plain c) as (? & ? & ? & ? & _); done.
    + right. intros l r Hl Heq. rewrite Heq in Hd. apply Forall_app in Hd as [Hd _].
      unfold literals in Hl. rewrite !elem_of_cons in Hl.
      destruct Hl as [->|[->|[->|Hl%elem_of_nil]]]; [..|done]; inversion Hd as [|? ? Hx _];
        destruct (digit_plain _ Hx) as (_ & _ & _ & _ & ? & ? & ?); done.
  - destruct (quote_spelled s Hr) as (enc & Hq & He). exists (DString enc s). by split_and!.
  - apply regular_array in Hr. apply check_array in Hc.
    assert (∃ ds, render <$> ds = emit quote <$> l ∧
      Forall (λ d, written d ∧ first_duplicate d = None) ds) as (ds & Hds & Hw).
    { clear - IH Hr Hc. induction l as [|v l IHl]; [by exists []|].
      apply Forall_cons in IH as [IHv IH], Hr as [Hrv Hr], Hc as [Hcv Hc].
      destruct (IHv Hrv Hcv) as (d & Hd & ? & ?), (IHl IH Hr Hc) as (ds & Hds & ?).
      exists (d :: ds). rewrite !fmap_cons, Hd, Hds. split; [done|by constructor]. }
    exists (DArray [] (items_of ds)). rewrite emit_array, <- Hds. split_and!.
    + destruct ds as [|d ds]; [done|]. simpl render. f_equal. by apply (render_items_of (d :: ds)).
    + split; [constructor|]. clear -Hw. induction Hw as [|d ds [Hd _] _ IHd]; [done|].
      simpl. split_and!; try done; constructor.
    + clear -Hw. simpl. induction Hw as [|d ds [_ Hd] _ IHd]; [done|]. simpl. by rewrite Hd.
  - apply regular_object in Hr as [Hnd Hr]. apply check_object in Hc.
    destruct (emit_object m Hnd) as (p & Hp & He & _). rewrite He.
    rewrite Hp in IH, Hnd, Hr, Hc. clear m Hp He.
    assert (∃ ms, (λ m : list byte * list byte * doc, quote_mark :: m.1.1 ++ quote_mark :: ":"%char :: render m.2) <$> ms =
        entry_text <$> p ∧ (λ m, m.1.2) <$> ms = p.*1 ∧
      Forall (λ m, spelled m.1.1 m.1.2 ∧ written m.2 ∧ first_duplicate m.2 = None) ms)
      as (ms & Hms & Hkeys & Hw).
    { clear Hnd. induction p as [|[k v] p IHp]; [by exists []|].
      apply Forall_cons in IH as [IHv IH], Hr as [[Hk Hrv] Hr], Hc as [Hcv Hc].
      destruct (IHv Hrv Hcv) as (d & Hd & ? & ?), (IHp IH Hr Hc) as (ms & Hms & Hks & ?).
      destruct (quote_spelled k Hk) as (enc & Hq & Hs).
      exists ((enc, k, d) :: ms). rewrite !fmap_cons, Hms, Hks. simpl in Hd.
      split_and!; [|done|by constructor]. f_equal. unfold entry_text, member. simpl.
      rewrite Hq, Hd. simpl. by rewrite <- (assoc_L (++)). }
    exists (DObject [] (members_of ms)). rewrite <- Hms. split_and!.
    + destruct ms as [|[[enc k] d] ms]; [done|]. simpl render. f_equal. by apply (render_members_of ((enc, k, d) :: ms)).
    + split; [constructor|]. clear -Hw. induction Hw as [|[[enc k] d] ms (? & ? & _) _ IHd]; [done|].
      simpl. split_and!; try done; constructor.
    + rewrite <- Hkeys in Hnd. clear -Hw Hnd. simpl.
      enough (∀ seen, (∀ k, k ∈ seen → k ∉ (λ m : list byte * list byte * doc, m.1.2) <$> ms) →
        first_duplicate_members seen (members_of ms) = None) as Hx by (apply Hx; set_solver).
      induction Hw as [|[[enc k] d] ms (_ & _ & Hd) _ IHd]; [done|]. intros seen Hseen.
      apply NoDup_cons in Hnd as [Hk Hnd]. simpl. rewrite bool_decide_eq_false_2.
      * simpl in Hd. rewrite Hd. apply IHd; [done|]. intros k' [->|Hk']%elem_of_cons; [done|].
        specialize (Hseen k' Hk'). simpl in Hseen. set_solver.
      * intros Hin. specialize (Hseen k Hin). simpl in Hseen. set_solver.
Qed.
End canonical.

(** ** A writer *)

(** Quoting that escapes the quotation mark and the backslash, and numbers that are
    naturals: an instance of what the crate relies on. *)
Definition escape_byte (c : byte) : list byte :=
  if bool_decide (c = quote_mark ∨ c = backslash) then [backslash; c] else [c].

Definition escape (s : list byte) : list byte := concat (escape_byte <$> s).

Definition simple_quote (s : list byte) : list byte := quote_mark :: escape s ++ [quote_mark].

#[export] Instance N_json_number : JsonNumber N :=
  {| is_f64 _ := false; is_i64 n := (n <? 9223372036854775808)%N;
     is_u64 n := (n <? 18446744073709551616)%N; number_text n := dec n |}.

Lemma escape_plain c : c ≠ quote_mark → c ≠ backslash → escape_byte c = [c].
Proof. intros H1 H2. unfold escape_byte. by rewrite bool_decide_eq_false_2 by naive_solver. Qed.

Lemma escape_high c : (128 ≤ N_of_ascii c)%N → escape_byte c = [c].
Proof. intros Hc. apply escape_plain; intros ->; vm_compute in Hc; by apply Hc. Qed.

Lemma continuation_high c : is_continuation c = true → escape_byte c = [c].
Proof. intros Hc. apply escape_high. unfold is_continuation in Hc. to_prop. lia. Qed.

Lemma spelled_byte c enc dec :
  (N_of_ascii c < 128)%N → spelled enc dec → spelled (escape_byte c ++ enc) (c :: dec).
Proof.
  intros Hc Hs. destruct (decide (c = quote_mark)) as [->|Hq].
  { change (escape_byte quote_mark) with [backslash; quote_mark]. by apply spelled_escape. }
  destruct (decide (c = backslash)) as [->|Hb].
  { change (escape_byte backslash) with [backslash; backslash]. by apply spelled_escape. }
  rewrite escape_plain by done. by apply spelled_ascii.
Qed.

Lemma spelled_utf8 code s :
  (code < 1114112)%N → spelled (escape s) s →
  spelled (escape (encode_utf8 code ++ s)) (encode_utf8 code ++ s).
Proof.
  intros Hcode Hs. unfold escape in *. rewrite fmap_app, concat_app.
  assert (Hn : ∀ n, (n < 256)%N → N_of_ascii (ascii_of_N n) = n) by apply N_ascii_embedding.
  assert (Hcont : ∀ n, (128 ≤ n < 192)%N → is_continuation (ascii_of_N n) = true).
  { intros n Hr. unfold is_continuation. rewrite Hn by lia.
    by rewrite (proj2 (N.leb_le _ _)), (proj2 (N.ltb_lt _ _)) by lia. }
  unfold encode_utf8.
  destruct (N.ltb_spec code 128); [|destruct (N.ltb_spec code 2048);
    [|destruct (N.ltb_spec code 65536)]].
  - simpl. rewrite app_nil_r. apply spelled_byte; [|done]. rewrite Hn; lia.
  - cbn [fmap list_fmap concat app]. rewrite !escape_high by (rewrite Hn; lia). simpl.
    apply spelled_two; [rewrite Hn; lia|apply Hcont; lia|done].
  - cbn [fmap list_fmap concat app]. rewrite !escape_high by (rewrite Hn; lia). simpl.
    apply spelled_three; [rewrite Hn; lia|apply Hcont; lia|apply Hcont; lia|done].
  - cbn [fmap list_fmap concat app]. rewrite !escape_high by (rewrite Hn; lia). simpl.
    apply spelled_four; [rewrite Hn; lia|apply Hcont; lia|apply Hcont; lia|apply Hcont; lia|done].
Qed.

Lemma hex_value_bound c x : hex_value c = Some x → (x < 16)%N.
Proof. unfold hex_value. repeat case_match; intros [= <-]; lia. Qed.

Lemma parse_hex4_bound a b c d code : parse_hex4 a b c d = Some code → (code < 65536)%N.
Proof.
  unfold parse_hex4. intros (y & Hy & (z & Hz & (w & Hw & (x & Hx & [= <-])%bind_Some)%bind_Some)%bind_Some)%bind_Some.
  apply hex_value_bound in Hy, Hz, Hw. destruct (decide (a = "+"%char)); [simplify_eq; lia|].
  apply hex_value_bound in Hx. lia.
Qed.

Lemma escape_cons c s : escape (c :: s) = escape_byte c ++ escape s.
Proof. done. Qed.

Lemma spelled_escape_text enc s : spelled enc s → spelled (escape s) s.
Proof.
  induction 1 as [|c enc s Hc Hq Hb _ IH|c1 c2 enc s Hc H2 _ IH|c1 c2 c3 enc s Hc H2 H3 _ IH
    |c1 c2 c3 c4 enc s Hc H2 H3 H4 _ IH|e x enc s He _ IH|a b c d code enc s Hx _ _ _ IH
    |a b c d code a' b' c' d' low enc s Hx Hh Hx' Hl _ IH]; rewrite ?escape_cons.
  - constructor.
  - by apply spelled_byte.
  - rewrite (escape_high c1), continuation_high by (done || lia). by apply spelled_two.
  - rewrite (escape_high c1), !continuation_high by (done || lia). by apply spelled_three.
  - rewrite (escape_high c1), !continuation_high by (done || lia). by apply spelled_four.
  - apply spelled_byte; [|done]. unfold simple_escape in He.
    repeat case_bool_decide; simplify_eq; try (vm_compute; done).
    destruct H as [->|[->| ->]]; vm_compute; done.
  - apply spelled_utf8; [|done]. apply parse_hex4_bound in Hx. lia.
  - apply spelled_utf8; [|done]. unfold is_high_surrogate, is_low_surrogate in *. to_prop.
    rewrite N.shiftl_mul_pow2. change (2 ^ 10)%N with 1024%N. lia.
Qed.

#[export] Instance simple_writer : SerdeWriter (Num := N) simple_quote.
Proof.
  split.
  - intros s [enc Hs]. exists (escape s). split; [done|]. by eapply spelled_escape_text.
  - intros n _. simpl. destruct (dec_digits n) as (Hne & Hd & _). split; [done|].
    eapply Forall_impl; [exact Hd|]. intros c Hc. left. by apply Is_true_true_1.
  - intros n n' _ _ Heq. by apply (inj dec).
Qed.

(** ** Properties *)

(** The scanner finds exactly the first repeated key.  For every JSON document,
    however its strings are spelled and wherever white space stands, the scan ends
    within its fuel and accepts the text unless some object repeats a key; then it
    reports the first key, in reading order, whose decoded text its object already
    has.  Spelling a key with escapes does not hide it. *)
Theorem duplicate_scan_exact (w1 : list byte) (d : doc) (w2 : list byte)
    (Hw1 : blank w1) (Hd : written d) (Hw2 : blank w2) :
  reject_duplicates (w1 ++ render d ++ w2) =
    match first_duplicate d with Some k => Err (DuplicateKey k) | None => Ok tt end.
Proof. by apply reject_duplicates_document. Qed.

(** [{"A":1,"\u0041":2}]: one key spelled in two ways. *)
Lemma duplicate_scan_exact_witness :
  let one := DAtom (bytes "1") in
  let hidden := bytes "\u0041" in
  let d := DObject [] (MCons [] (bytes "A") (bytes "A") [] [] one []
             (MCons [] hidden (bytes "A") [] [] one [] MNil)) in
  reject_duplicates (render d) = Err (DuplicateKey (bytes "A")).
Proof.
  intros one hidden d.
  assert (Hone : written one).
  { simpl. split; [repeat constructor|]. split; [exists "1"%char, []; split_and!; done|].
    right. intros l r Hl. unfold literals in Hl. rewrite !elem_of_cons in Hl.
    destruct Hl as [->|[->|[->|Hl%elem_of_nil]]]; done. }
  assert (Hd : written d).
  { simpl. split; [constructor|]. split_and!; try (by constructor); try done.
    - by apply (spelled_ascii "A"%char [] []); [..|constructor].
    - by apply (spelled_unicode "0"%char "0"%char "4"%char "1"%char 65 [] []); [..|constructor]. }
  pose proof (duplicate_scan_exact [] d [] (Forall_nil_2 _) Hd (Forall_nil_2 _)) as H.
  rewrite app_nil_l, app_nil_r in H. exact H.
Defined.

(** C31. Canonical text is equality of JSON.  Two values that pass the check have the
    same canonical text if and only if they are the same JSON: same scalars, same
    arrays in order, and the same object entries in whatever order their maps
    iterate.  So neither a key order nor a map's iteration order can change a cached
    prefix, and no two different arguments share one. *)
Theorem canonical_text_exact (Num : Type) (HN : JsonNumber Num) (quote : list byte → list byte)
    (HW : SerdeWriter quote) (v v' : Value Num)
    (Hr : regular v) (Hr' : regular v') (Hc : check v = Ok tt) (Hc' : check v' = Ok tt) :
  canonicalize_value quote v = canonicalize_value quote v' ↔ same_json v v'.
Proof.
  unfold canonicalize_value. rewrite Hc, Hc'. simpl. split.
  - intros [= Heq]. assert (emit quote v ++ [] = emit quote v' ++ []) as Hx by by rewrite Heq.
    by apply (emit_prefix quote v v' [] []) in Hx as [Hs _].
  - intros Hs. by rewrite (emit_same quote v v' Hr Hs).
Qed.

Lemma canonical_text_exact_witness :
  let entry k n := (bytes k, VNumber n) in
  canonicalize_value simple_quote (VObject [entry "b" 1%N; entry "a" 2%N]) =
    canonicalize_value simple_quote (VObject [entry "a" 2%N; entry "b" 1%N]).
Proof.
  intros entry.
  assert (Htext : ∀ c, (N_of_ascii c < 128)%N → c ≠ quote_mark → c ≠ backslash → is_text [c]).
  { intros c H1 H2 H3. exists [c]. apply spelled_ascii; [done..|constructor]. }
  assert (Hr : regular (VObject [entry "b" 1%N; entry "a" 2%N])).
  { simpl. split; [apply (bool_decide_unpack _); reflexivity|].
    split; [by apply Htext|]. split; [done|]. split; [by apply Htext|]. done. }
  assert (Hr' : regular (VObject [entry "a" 2%N; entry "b" 1%N])).
  { simpl. split; [apply (bool_decide_unpack _); reflexivity|].
    split; [by apply Htext|]. split; [done|]. split; [by apply Htext|]. done. }
  apply (canonical_text_exact N _ simple_quote _ _ _ Hr Hr'); [reflexivity..|].
  apply (same_object _ [entry "a" 2%N; entry "b" 1%N]); [apply Permutation_swap|].
  repeat constructor.
Defined.

(** Canonicalising twice changes nothing.  Whatever text a provider sends, if it
    canonicalises at all then the result is itself accepted - the scanner finds no
    repeated key in it - and its value's text is canonicalised to the same bytes.  Relied on of the
    parser: the value it reads has text strings and unique keys, and the text written
    for that value is read back as the same JSON. *)
Theorem canonicalize_idempotent (Num : Type) (HN : JsonNumber Num) (quote : list byte → list byte)
    (from_str : list byte → option (Value Num)) (HW : SerdeWriter quote) (input out : list byte)
    (Hregular : ∀ v, from_str input = Some v → regular v)
    (Hback : ∀ v, from_str input = Some v →
       ∃ v', from_str (emit quote v) = Some v' ∧ same_json v v')
    (Hout : canonicalize quote from_str input = Ok out) :
  reject_duplicates out = Ok tt ∧ canonicalize quote from_str out = Ok out.
Proof.
  unfold canonicalize, parse_strict in *.
  apply result_bind_Ok in Hout as (v & (_ & _ & Hv%ok_or_Ok)%result_bind_Ok & Hout).
  apply result_bind_Ok in Hout as ([] & Hc & [= <-]).
  pose proof (Hregular v Hv) as Hr.
  destruct (emit_document quote v Hr Hc) as (d & Hd & Hw & Hdup).
  assert (Hrej : reject_duplicates (emit quote v) = Ok tt).
  { pose proof (reject_duplicates_document [] d [] (Forall_nil_2 _) Hw (Forall_nil_2 _)) as Hx.
    by rewrite app_nil_l, app_nil_r, Hdup, Hd in Hx. }
  destruct (Hback v Hv) as (v' & Hv' & Hs).
  split; [done|]. rewrite Hrej. simpl. rewrite Hv'. simpl.
  rewrite (same_json_check quote v v' Hs Hc). simpl. by rewrite (emit_same quote v v' Hr Hs).
Qed.

(** A parser of the number 7. *)
Definition seven_parser (input : list byte) : option (Value N) :=
  if bool_decide (input = bytes " 7" ∨ input = bytes "7") then Some (VNumber 7%N) else None.

Lemma canonicalize_idempotent_witness :
  canonicalize simple_quote seven_parser (bytes " 7") = Ok (bytes "7") ∧
  canonicalize simple_quote seven_parser (bytes "7") = Ok (bytes "7").
Proof.
  assert (Hout : canonicalize simple_quote seven_parser (bytes " 7") = Ok (bytes "7")) by reflexivity.
  split; [exact Hout|].
  assert (Hv : ∀ v, seven_parser (bytes " 7") = Some v → v = VNumber 7%N).
  { intros v Hv. by injection Hv as <-. }
  refine (proj2 (canonicalize_idempotent N _ simple_quote seven_parser _ (bytes " 7") (bytes "7")
    _ _ Hout)).
  - intros v ->%Hv. exact I.
  - intros v ->%Hv. exists (VNumber 7%N). split; [reflexivity|constructor].
Defined.

(** The scanner slices the four bytes of a unicode escape out of the text without
    asking whether the slice ends between two characters: three digits and a
    character of several bytes stop the process, on an input [serde_json] refuses. *)
Lemma unicode_escape_aborts (a b c : byte) (lead next : byte) (rest : list byte) :
  is_continuation next = true →
  reject_duplicates (quote_mark :: backslash :: "u"%char :: a :: b :: c :: lead :: next :: rest) =
    Err Aborts.
Proof.
  intros Hn. unfold reject_duplicates. set (l := a :: b :: c :: lead :: next :: rest).
  set (fuel := 2 * length (quote_mark :: backslash :: "u"%char :: l) + 1).
  assert (Hf : 2 * length (quote_mark :: backslash :: "u"%char :: l) + 2 = S fuel) by lia.
  rewrite Hf. cbn [value]. rewrite ws_stop by done.
  change (bool_decide (quote_mark = "{"%char)) with false.
  change (bool_decide (quote_mark = "["%char)) with false.
  rewrite (bool_decide_eq_true_2 (quote_mark = quote_mark)) by done.
  subst l. rewrite string_body_unicode. simpl at_boundary. by rewrite Hn.
Qed.
