(* ===== verification/Tool.v ===== *)
(** * The tool registry: [crates/supra_tool]

    Argument schemas ([schema.rs]), tools with their preconditions and the frozen
    registry ([registry.rs], [error.rs]).  Text is its UTF-8 bytes, as in
    Canonical.v, whose scanner and canonicaliser an invocation goes through. *)

From Stdlib Require Import Ascii.
From S2P Require Import Prelude Text Sealing Permission Canonical.

Inductive FieldType := FText | FNumber | FBoolean.

#[export] Instance FieldType_eq_dec : EqDecision FieldType.
Proof. solve_decision. Defined.

Inductive ToolError :=
| UnknownTool (name : list byte) (known : list (list byte))
| BadArguments (tool : list byte)
| MissingField (tool field : list byte)
| WrongFieldType (tool field : list byte) (expected got : string)
| UnknownField (tool field : list byte)
| PreconditionFailed
| Disabled (name : list byte).

(** [From<CanonicalError>]: no tool is named. *)
Definition of_canonical (e : CanonicalError) : ToolError := BadArguments [].

Module FieldType.
Definition name (t : FieldType) : string :=
  match t with FText => "string" | FNumber => "number" | FBoolean => "boolean" end.

Definition matches {Num} (t : FieldType) (value : Value Num) : bool :=
  match t, value with
  | FText, VString _ | FNumber, VNumber _ | FBoolean, VBool _ => true
  | _, _ => false
  end.
End FieldType.

Module Field.
Record t := mk {
  name : list byte;
  field_type : FieldType;
  required : bool;
  description : list byte;
}.
End Field.

(** The JSON type a value holds, by name. *)
Definition type_name {Num} (value : Value Num) : string :=
  match value with
  | VNull => "null"
  | VBool _ => "boolean"
  | VNumber _ => "number"
  | VString _ => "string"
  | VArray _ => "array"
  | VObject _ => "object"
  end.

(** [serde_json::Map::get] and [insert]. *)
Definition map_get {V} (key : list byte) (map : list (list byte * V)) : option V :=
  snd <$> List.find (λ e, bool_decide (e.1 = key)) map.

Fixpoint map_insert {V} (key : list byte) (value : V) (map : list (list byte * V)) :
    list (list byte * V) :=
  match map with
  | [] => [(key, value)]
  | (k, v) :: map =>
      if bool_decide (k = key) then (k, value) :: map else (k, v) :: map_insert key value map
  end.

Module Schema.
Record t := mk { tool : list byte; fields : list Field.t }.

Section schema.
(** [text.trim().is_empty()]. *)
Context (is_blank : list byte → bool) {Num : Type}.

(** The loop of [build], with the names it has [seen]. *)
Fixpoint build_fields (tool : list byte) (seen : gset (list byte)) (fields : list Field.t) :
    result unit ToolError :=
  match fields with
  | [] => Ok tt
  | field :: fields =>
      if bool_decide (Field.name field = []) then Err (BadArguments tool)
      else if bool_decide (Field.name field ∈ seen) then Err (BadArguments tool)
      else if is_blank (Field.description field) then Err (BadArguments tool)
      else build_fields tool ({[Field.name field]} ∪ seen) fields
  end.

Definition build (tool : list byte) (fields : list Field.t) : result t ToolError :=
  let? _ := build_fields tool ∅ fields in Ok (mk tool fields).

(** The two loops of [validate]. *)
Fixpoint validate_fields (tool : list byte) (fields : list Field.t)
    (arguments : list (list byte * Value Num)) : result unit ToolError :=
  match fields with
  | [] => Ok tt
  | field :: fields =>
      match map_get (Field.name field) arguments with
      | None =>
          if Field.required field then Err (MissingField tool (Field.name field))
          else validate_fields tool fields arguments
      | Some value =>
          if negb (FieldType.matches (Field.field_type field) value)
          then Err (WrongFieldType tool (Field.name field)
                      (FieldType.name (Field.field_type field)) (type_name value))
          else validate_fields tool fields arguments
      end
  end.

Fixpoint refuse_unknown (tool : list byte) (fields : list Field.t) (keys : list (list byte)) :
    result unit ToolError :=
  match keys with
  | [] => Ok tt
  | key :: keys =>
      if negb (existsb (λ field, bool_decide (Field.name field = key)) fields)
      then Err (UnknownField tool key)
      else refuse_unknown tool fields keys
  end.

Definition validate (s : t) (arguments : list (list byte * Value Num)) : result unit ToolError :=
  let? _ := validate_fields (tool s) (fields s) arguments in
  refuse_unknown (tool s) (fields s) arguments.*1.

Definition str (s : string) : Value Num := VString (bytes s).

(** The loop of [to_provider_schema]. *)
Definition property (field : Field.t) : Value Num :=
  VObject (map_insert (bytes "description") (VString (Field.description field))
    (map_insert (bytes "type") (str (FieldType.name (Field.field_type field))) [])).

Fixpoint properties (fields : list Field.t) (acc : list (list byte * Value Num)) :
    list (list byte * Value Num) :=
  match fields with
  | [] => acc
  | field :: fields => properties fields (map_insert (Field.name field) (property field) acc)
  end.

Definition required_names (fields : list Field.t) : list (Value Num) :=
  (λ field, VString (Field.name field)) <$> List.filter Field.required fields.

Definition to_provider_schema (s : t) : Value Num :=
  VObject
    (map_insert (bytes "additionalProperties") (VBool false)
      (map_insert (bytes "required") (VArray (required_names (fields s)))
        (map_insert (bytes "properties") (VObject (properties (fields s) []))
          (map_insert (bytes "type") (str "object") [])))).
End schema.
End Schema.

(** ** Tools and the registry *)

(** [SessionFacts]. *)
Abbreviation SessionFacts := (gset (list byte)) (only parsing).

Section registry.
Context {Num : Type} `{JsonNumber Num}.
Abbreviation arguments := (list (list byte * Value Num)) (only parsing).

Record Precondition := mkPrecondition {
  p_fields : list (list byte);
  p_check : arguments → SessionFacts → result unit ToolError;
}.

Definition as_str (value : Value Num) : option (list byte) :=
  match value with VString s => Some s | _ => None end.

Definition read_before_edit : Precondition :=
  mkPrecondition [bytes "path"] (λ arguments facts,
    let path := default [] (map_get (bytes "path") arguments ≫= as_str) in
    if bool_decide (path ∈ facts) then Ok tt else Err PreconditionFailed).

Record Tool := mkTool {
  t_name : list byte;
  t_class : ToolClass.t;
  t_schema : Schema.t;
  t_resolver : arguments → Effect.t;
  t_precondition : option Precondition;
}.

Definition register_tool (is_blank : list byte → bool) (name : list byte) (class : ToolClass.t)
    (fields : list Field.t) (resolver : arguments → Effect.t) : result Tool ToolError :=
  let? schema := Schema.build is_blank name fields in
  Ok (mkTool name class schema resolver None).

Definition with_precondition (precondition : Precondition) (t : Tool) : Tool :=
  mkTool (t_name t) (t_class t) (t_schema t) (t_resolver t) (Some precondition).

Definition to_manifest (description : list byte) (t : Tool) : Value Num :=
  VObject [(bytes "name", VString (t_name t)); (bytes "description", VString description);
           (bytes "input_schema", Schema.to_provider_schema (t_schema t))].

Definition check_precondition (t : Tool) (args : arguments) (facts : SessionFacts) :
    result unit ToolError :=
  match t_precondition t with Some p => p_check p args facts | None => Ok tt end.

Record Registry := mkRegistry { tools : gmap (list byte) Tool; disabled : gset (list byte) }.

Definition new_registry : Registry := mkRegistry ∅ ∅.

(** The iteration order of a [BTreeMap] keyed by text. *)
Definition sorted_tools (r : Registry) : list (list byte * Tool) :=
  merge_sort key_le (map_to_list (tools r)).

Definition names (r : Registry) : list (list byte) := (sorted_tools r).*1.

Definition register (tool : Tool) (r : Registry) : Registry * result unit ToolError :=
  match tools r !! t_name tool with
  | Some _ => (r, Err (UnknownTool (t_name tool) [t_name tool ++ bytes " is already registered"]))
  | None => (mkRegistry (<[t_name tool := tool]> (tools r)) (disabled r), Ok tt)
  end.

Definition disable (name : list byte) (r : Registry) : Registry * result unit ToolError :=
  match tools r !! name with
  | None => (r, Err (UnknownTool name (names r)))
  | Some _ => (mkRegistry (tools r) ({[name]} ∪ disabled r), Ok tt)
  end.

Definition manifest (descriptions : gmap (list byte) (list byte)) (r : Registry) :
    list (Value Num) :=
  (λ e, to_manifest (default [] (descriptions !! t_name e.2)) e.2) <$> sorted_tools r.

Definition available_tool (name : list byte) (r : Registry) : result Tool ToolError :=
  match tools r !! name with
  | None => Err (UnknownTool name (names r))
  | Some tool => if bool_decide (name ∈ disabled r) then Err (Disabled name) else Ok tool
  end.

Record Invocation := mkInvocation {
  i_tool : list byte;
  i_class : ToolClass.t;
  i_arguments : list byte;
  i_effect : Effect.t;
}.

Definition finish_invocation (tool : Tool) (name : list byte) (args : Value Num)
    (canonical : list byte) (facts : SessionFacts) : result Invocation ToolError :=
  match args with
  | VObject map =>
      let? _ := Schema.validate (t_schema tool) map in
      let? _ := check_precondition tool map facts in
      Ok (mkInvocation name (t_class tool) canonical (t_resolver tool map))
  | _ => Err (BadArguments name)
  end.

Section invoke.
Context (quote : list byte → list byte) (from_str : list byte → option (Value Num)).

Definition invoke (name input : list byte) (facts : SessionFacts) (r : Registry) :
    result Invocation ToolError :=
  let? tool := available_tool name r in
  let? canonical := map_err of_canonical (canonicalize quote from_str input) in
  let? parsed := map_err of_canonical (parse_strict from_str input) in
  finish_invocation tool name parsed canonical facts.

Definition invoke_value (name : list byte) (args : Value Num) (facts : SessionFacts)
    (r : Registry) : result Invocation ToolError :=
  let? tool := available_tool name r in
  let? canonical := map_err of_canonical (canonicalize_value quote args) in
  finish_invocation tool name args canonical facts.
End invoke.
End registry.

(** ** Maps as entry lists *)

Section maps.
Context {V : Type}.
Implicit Types (m : list (list byte * V)).

Lemma map_get_Some key m v : map_get key m = Some v → (key, v) ∈ m.
Proof.
  unfold map_get. rewrite fmap_Some. intros ([k w] & Hf & ->).
  apply find_some in Hf as [Hin Hk]. apply bool_decide_eq_true in Hk. simpl in Hk. subst k.
  by apply list_elem_of_In.
Qed.

Lemma map_get_elem key m v : NoDup m.*1 → (key, v) ∈ m → map_get key m = Some v.
Proof.
  unfold map_get. induction m as [|[k w] m IH]; [by intros _ ?%elem_of_nil|].
  intros [Hk Hnd]%NoDup_cons Hin. simpl. apply elem_of_cons in Hin as [[= <- <-]|Hin].
  - by rewrite bool_decide_eq_true_2.
  - rewrite bool_decide_eq_false_2; [by apply IH|]. intros ->. apply Hk.
    by apply (list_elem_of_fmap_2 fst) in Hin.
Qed.

Lemma map_get_insert key key' v m :
  map_get key (map_insert key' v m) = if decide (key' = key) then Some v else map_get key m.
Proof.
  unfold map_get. induction m as [|[k w] m IH]; simpl.
  - by repeat case_bool_decide; case_decide.
  - destruct (bool_decide_reflect (k = key')) as [->|Hk]; simpl.
    + by repeat case_bool_decide; case_decide.
    + destruct (bool_decide_reflect (k = key)) as [->|Hk']; [by rewrite decide_False|exact IH].
Qed.
End maps.

(** ** One schema, read two ways *)

(** What a provider reads of the schema it is sent: the fragment of JSON Schema with
    typed properties, required names and no others. *)
Definition conforms {Num} (schema : list (list byte * Value Num))
    (args : list (list byte * Value Num)) : bool :=
  match map_get (bytes "properties") schema, map_get (bytes "required") schema,
        map_get (bytes "additionalProperties") schema with
  | Some (VObject props), Some (VArray req), Some (VBool false) =>
      forallb (λ e, match map_get e.1 props with
                    | Some (VObject p) =>
                        match map_get (bytes "type") p with
                        | Some (VString t) => bool_decide (bytes (type_name e.2) = t)
                        | _ => false
                        end
                    | _ => false
                    end) args &&
      forallb (λ r, match r with
                    | VString n => bool_decide (is_Some (map_get n args))
                    | _ => false
                    end) req
  | _, _, _ => false
  end.

Section schemas.
Context {Num : Type}.
Implicit Types (args : list (list byte * Value Num)) (fields : list Field.t).

Lemma build_fields_Ok is_blank tool seen fields :
  Schema.build_fields is_blank tool seen fields = Ok tt →
  NoDup (Field.name <$> fields) ∧ ∀ f, f ∈ fields → Field.name f ∉ seen.
Proof.
  revert seen. induction fields as [|f fields IH]; intros seen; simpl.
  { intros _. split; [constructor|]. by intros ? ?%elem_of_nil. }
  repeat case_bool_decide; try done. destruct (is_blank (Field.description f)); [done|].
  intros [Hnd Hseen]%IH. split.
  - apply NoDup_cons. split; [|done]. intros (g & Hg & Hin)%list_elem_of_fmap.
    apply (Hseen g Hin). set_solver.
  - intros g [->|Hg]%elem_of_cons; [done|]. specialize (Hseen g Hg). set_solver.
Qed.

Lemma validate_fields_Ok tool fields args :
  Schema.validate_fields tool fields args = Ok tt ↔
  ∀ f, f ∈ fields → match map_get (Field.name f) args with
                     | None => Field.required f = false
                     | Some v => FieldType.matches (Field.field_type f) v = true
                     end.
Proof.
  induction fields as [|f fields IH]; simpl; [split; [by intros _ ? ?%elem_of_nil|done]|].
  setoid_rewrite elem_of_cons. destruct (map_get (Field.name f) args) as [v|] eqn:E.
  - destruct (FieldType.matches (Field.field_type f) v) eqn:Em; simpl.
    + rewrite IH. split; [|intros Ha g Hg; apply Ha; by right].
      intros Ha g [->|Hg]; [by rewrite E|by apply Ha].
    + split; [done|]. intros Ha. specialize (Ha f (or_introl eq_refl)). rewrite E in Ha. congruence.
  - destruct (Field.required f) eqn:Er.
    + split; [done|]. intros Ha. specialize (Ha f (or_introl eq_refl)). rewrite E in Ha. congruence.
    + rewrite IH. split; [|intros Ha g Hg; apply Ha; by right].
      intros Ha g [->|Hg]; [by rewrite E|by apply Ha].
Qed.

Lemma refuse_unknown_Ok tool fields keys :
  Schema.refuse_unknown tool fields keys = Ok tt ↔
  ∀ key, key ∈ keys → ∃ f, f ∈ fields ∧ Field.name f = key.
Proof.
  induction keys as [|key keys IH]; simpl; [split; [by intros _ ? ?%elem_of_nil|done]|].
  setoid_rewrite elem_of_cons. destruct (existsb _ fields) eqn:E; simpl.
  - rewrite IH. apply existsb_exists in E as (f & Hin & Hf). apply bool_decide_eq_true in Hf.
    apply list_elem_of_In in Hin. naive_solver.
  - split; [done|]. intros Ha. destruct (Ha key (or_introl eq_refl)) as (f & Hin & Hf).
    assert (existsb (λ field, bool_decide (Field.name field = key)) fields = true) as Hx.
    { apply existsb_exists. exists f. rewrite <- list_elem_of_In. split; [done|].
      by apply bool_decide_eq_true. }
    congruence.
Qed.

Lemma schema_validate_Ok s args :
  Schema.validate s args = Ok tt ↔
  (∀ f, f ∈ Schema.fields s → match map_get (Field.name f) args with
     | None => Field.required f = false
     | Some v => FieldType.matches (Field.field_type f) v = true
     end) ∧
  ∀ key, key ∈ args.*1 → ∃ f, f ∈ Schema.fields s ∧ Field.name f = key.
Proof.
  unfold Schema.validate. rewrite <- (validate_fields_Ok (Schema.tool s)).
  rewrite <- (refuse_unknown_Ok (Schema.tool s)).
  destruct (Schema.validate_fields _ _ _) as [[]|]; simpl; naive_solver.
Qed.

Lemma matches_type_name (t : FieldType) (v : Value Num) :
  FieldType.matches t v = true ↔ bytes (type_name v) = bytes (FieldType.name t).
Proof. destruct t, v; split; intros Hx; vm_compute in Hx |- *; congruence. Qed.

Lemma properties_get fields acc key :
  NoDup (Field.name <$> fields) →
  map_get key (Schema.properties (Num := Num) fields acc) =
    match List.find (λ f, bool_decide (Field.name f = key)) fields with
    | Some f => Some (Schema.property f)
    | None => map_get key acc
    end.
Proof.
  revert acc. induction fields as [|f fields IH]; intros acc; [done|].
  intros [Hf Hnd]%NoDup_cons. simpl. rewrite (IH _ Hnd), map_get_insert.
  destruct (bool_decide_reflect (Field.name f = key)) as [<-|Hne].
  - destruct (List.find _ fields) as [g|] eqn:E.
    + apply find_some in E as [Hg He]. apply bool_decide_eq_true in He. exfalso. apply Hf.
      rewrite <- He. apply list_elem_of_fmap_2. by apply list_elem_of_In.
    + by rewrite decide_True.
  - destruct (List.find _ fields); [done|]. by rewrite decide_False.
Qed.

Lemma provider_schema_get s :
  ∃ m, Schema.to_provider_schema (Num := Num) s = VObject m ∧
    map_get (bytes "properties") m = Some (VObject (Schema.properties (Schema.fields s) [])) ∧
    map_get (bytes "required") m = Some (VArray (Schema.required_names (Schema.fields s))) ∧
    map_get (bytes "additionalProperties") m = Some (VBool false).
Proof. eexists. split; [reflexivity|]. by rewrite !map_get_insert. Qed.

Lemma property_type (f : Field.t) : ∃ p,
  Schema.property (Num := Num) f = VObject p ∧
  map_get (bytes "type") p = Some (VString (bytes (FieldType.name (Field.field_type f)))).
Proof. eexists. split; [reflexivity|]. by rewrite !map_get_insert. Qed.
End schemas.

(** ** Properties *)

(** The manifest and the validation cannot disagree.  For every schema that can
    be built and every argument object, [validate] accepts the arguments if and only
    if they conform to the schema the provider is sent, read as JSON Schema: every
    argument is a declared property of the declared type, and every required name is
    present. *)
Theorem provider_schema_agrees (Num : Type) (is_blank : list byte → bool) (tool : list byte)
    (fields : list Field.t) (s : Schema.t) (args : list (list byte * Value Num))
    (Hbuild : Schema.build is_blank tool fields = Ok s) (Hkeys : NoDup args.*1) :
  ∃ sent, Schema.to_provider_schema s = VObject sent ∧
    (Schema.validate s args = Ok tt ↔ conforms sent args = true).
Proof.
  destruct (provider_schema_get (Num := Num) s) as (sent & Hsent & Hp & Hr & Ha).
  exists sent. split; [done|].
  apply result_bind_Ok in Hbuild as ([] & Hb & [= <-]). apply build_fields_Ok in Hb as [Hnd _].
  rewrite schema_validate_Ok. unfold conforms. rewrite Hp, Hr, Ha. cbn [Schema.fields].
  assert (Hfind : ∀ key f, List.find (λ f, bool_decide (Field.name f = key)) fields = Some f →
    f ∈ fields ∧ Field.name f = key).
  { intros key f [Hin He]%find_some. apply bool_decide_eq_true in He. by rewrite list_elem_of_In. }
  rewrite andb_true_iff, !forallb_forall. split.
  - intros [Hty Hknown]. split.
    + intros [key v] Hin%list_elem_of_In. cbn [fst snd]. rewrite properties_get by done.
      destruct (List.find _ fields) as [f|] eqn:E.
      * destruct (property_type (Num := Num) f) as (q & Hq & Hq'). rewrite Hq, Hq'.
        apply Hfind in E as [Hf Hn].
        apply bool_decide_eq_true, matches_type_name. specialize (Hty f Hf).
        by rewrite Hn, (map_get_elem key args v) in Hty.
      * destruct (Hknown key) as (f & Hf & Hn); [by apply (list_elem_of_fmap_2 fst) in Hin|].
        apply list_elem_of_In in Hf. pose proof (find_none _ _ E f Hf) as Hx. cbn beta in Hx.
        apply bool_decide_eq_false in Hx. done.
    + intros x (f & <- & Hf)%in_map_iff. apply filter_In in Hf as [Hf Hreq].
      apply bool_decide_eq_true. specialize (Hty f (proj2 (list_elem_of_In _ _) Hf)).
      destruct (map_get (Field.name f) args); [by eexists|congruence].
  - intros [Hty Hreq]. split.
    + intros f Hf. destruct (map_get (Field.name f) args) as [v|] eqn:E.
      * apply map_get_Some in E. apply list_elem_of_In in E. specialize (Hty _ E). cbn [fst snd] in Hty.
        rewrite properties_get in Hty by done.
        destruct (List.find _ fields) as [g|] eqn:Eg; [|done].
        destruct (property_type (Num := Num) g) as (q & Hq & Hq'). rewrite Hq, Hq' in Hty.
        apply bool_decide_eq_true, matches_type_name in Hty. apply Hfind in Eg as [Hg Hn].
        assert (g = f) as <-; [|done].
        apply list_elem_of_lookup in Hg as [i Hi], Hf as [j Hj].
        assert (i = j) as <-; [|congruence].
        apply (NoDup_lookup _ i j (Field.name f) Hnd); rewrite list_lookup_fmap;
          [by rewrite Hi, <- Hn|by rewrite Hj].
      * destruct (Field.required f) eqn:Er; [|done]. exfalso.
        assert (Hin : In (VString (Num := Num) (Field.name f)) (Schema.required_names fields)).
        { apply in_map_iff. exists f. split; [done|]. apply filter_In.
          by rewrite <- list_elem_of_In. }
        specialize (Hreq _ Hin). simpl in Hreq. apply bool_decide_eq_true in Hreq.
        rewrite E in Hreq. by destruct Hreq.
    + intros key (e & -> & He)%list_elem_of_fmap. apply list_elem_of_In in He.
      specialize (Hty e He). rewrite properties_get in Hty by done.
      destruct (List.find _ fields) as [f|] eqn:E; [|done]. apply Hfind in E. by exists f.
Qed.

Lemma provider_schema_agrees_witness :
  let path := Field.mk (bytes "path") FText true (bytes "The file.") in
  ∃ s sent, Schema.build (λ _, false) (bytes "read") [path] = Ok s ∧
    Schema.to_provider_schema (Num := N) s = VObject sent ∧
    conforms sent [(bytes "path", VNumber 7%N)] = false.
Proof.
  intros path. destruct (Schema.build (λ _, false) (bytes "read") [path]) as [s|e] eqn:E;
    [|vm_compute in E; discriminate].
  assert (Hk : NoDup ([(bytes "path", VNumber 7%N)] : list (list byte * Value N)).*1)
    by (apply (bool_decide_unpack _); reflexivity).
  destruct (provider_schema_agrees N (λ _, false) (bytes "read") [path] s
    [(bytes "path", VNumber 7%N)] E Hk) as (sent & Hs & Hiff).
  exists s, sent. split; [reflexivity|]. split; [exact Hs|].
  destruct (conforms _ _) eqn:Ec; [|reflexivity].
  exfalso. pose proof (proj2 Hiff eq_refl) as Hv. vm_compute in E. injection E as <-. discriminate.
Defined.

(** What may be done to a registry before and during a session. *)
Inductive registry_op {Num : Type} :=
| RegisterTool (tool : Tool (Num := Num))
| DisableTool (name : list byte).
Arguments registry_op : clear implicits.

Definition apply_registry_op {Num : Type} (r : Registry) (o : registry_op Num) : Registry :=
  match o with
  | RegisterTool tool => (register tool r).1
  | DisableTool name => (disable name r).1
  end.

Definition run_registry {Num : Type} (ops : list (registry_op Num)) (r : Registry) : Registry :=
  foldl apply_registry_op r ops.

Lemma registry_step {Num : Type} (r : Registry) (o : registry_op Num) :
  (∀ name tool, tools r !! name = Some tool → tools (apply_registry_op r o) !! name = Some tool) ∧
  disabled r ⊆ disabled (apply_registry_op r o).
Proof.
  destruct o as [tool|name]; simpl; unfold register, disable.
  - destruct (tools r !! t_name tool) eqn:E; [done|]. split; [|done]. simpl.
    intros n t Hn. rewrite lookup_insert_ne; [done|]. intros <-. congruence.
  - destruct (tools r !! name); [|done]. split; [done|]. simpl. set_solver.
Qed.

Lemma registry_grows {Num : Type} (ops : list (registry_op Num)) r :
  (∀ name tool, tools r !! name = Some tool → tools (run_registry ops r) !! name = Some tool) ∧
  disabled r ⊆ disabled (run_registry ops r).
Proof.
  revert r. induction ops as [|o ops IH]; intros r; [done|]. unfold run_registry. simpl.
  destruct (registry_step r o) as [H1 H2], (IH (apply_registry_op r o)) as [H3 H4].
  split; [intros n t Hn; by apply H3, H1|set_solver].
Qed.

Lemma disabling_keeps_tools {Num : Type} (l : list (list byte)) (r : Registry (Num := Num)) :
  tools (run_registry (DisableTool <$> l) r) = tools r.
Proof.
  revert r. induction l as [|name l IH]; intros r; [done|]. unfold run_registry. simpl.
  unfold run_registry in IH. rewrite IH. unfold disable. by destruct (tools r !! name).
Qed.

(** The first registration of a name among some operations. *)
Fixpoint first_registered {Num : Type} (name : list byte) (ops : list (registry_op Num)) : option Tool :=
  match ops with
  | [] => None
  | RegisterTool tool :: ops => if decide (t_name tool = name) then Some tool else first_registered name ops
  | DisableTool _ :: ops => first_registered name ops
  end.

(** Whether a name was disabled at a point where it was registered. *)
Definition switched_off_in {Num : Type} (name : list byte) (ops : list (registry_op Num)) : Prop :=
  ∃ before after, ops = before ++ DisableTool name :: after ∧ is_Some (first_registered name before).

Lemma first_registered_app {Num : Type} name (ops ops' : list (registry_op Num)) :
  first_registered name (ops ++ ops') = match first_registered name ops with Some t => Some t | None => first_registered name ops' end.
Proof. induction ops as [|[tool|n] ops IH]; cbn [app first_registered]; [done| |done]. by case_decide. Qed.

(** A registry is the first registrations of its history, and its switches. *)
Lemma registry_history {Num : Type} (ops : list (registry_op Num)) :
  (∀ name, tools (run_registry ops new_registry) !! name = first_registered name ops) ∧
  (∀ name, name ∈ disabled (run_registry ops new_registry) ↔ switched_off_in name ops).
Proof.
  induction ops as [|o ops [IHt IHd]] using rev_ind.
  { split; [intros name; apply lookup_empty|]. intros name. split; [by intros ?%not_elem_of_empty|].
    by intros ([|? ?] & after & E & _). }
  unfold run_registry in *. rewrite foldl_app. cbn [foldl]. set (r := foldl apply_registry_op new_registry ops) in *.
  assert (Hsnoc : ∀ name, switched_off_in name (ops ++ [o]) ↔
    switched_off_in name ops ∨ (o = DisableTool name ∧ is_Some (first_registered name ops))).
  { intros name. split.
    - intros (before & after & E & Hs). destruct after as [|o' after _] using rev_ind.
      + apply app_inj_tail in E as [-> ->]. by right.
      + rewrite app_comm_cons, app_assoc in E. apply app_inj_tail in E as [-> _]. left. by exists before, after.
    - intros [(before & after & -> & Hs)|[-> Hs]]; [|by exists ops, []].
      exists before, (after ++ [o]). by rewrite <- app_assoc. }
  destruct o as [tool|n]; cbn [apply_registry_op]; unfold register, disable; split; intros name.
  - rewrite first_registered_app, <- IHt. cbn [first_registered].
    destruct (tools r !! t_name tool) as [t|] eqn:E; cbn [fst tools].
    + destruct (tools r !! name) eqn:En; [done|]. case_decide as Hn; [|done]. subst. congruence.
    + case_decide as Hn; [subst; by rewrite E, lookup_insert_eq|]. rewrite lookup_insert_ne by done. by destruct (tools r !! name).
  - rewrite Hsnoc, <- IHd. destruct (tools r !! t_name tool); cbn [fst disabled]; naive_solver.
  - rewrite first_registered_app, <- IHt. cbn [first_registered].
    destruct (tools r !! n); cbn [fst tools]; by destruct (tools r !! name).
  - rewrite Hsnoc, <- IHd. rewrite <- IHt. destruct (tools r !! n) as [t|] eqn:E; cbn [fst disabled].
    + rewrite elem_of_union, elem_of_singleton. split; [intros [-> | ?]; [right; by rewrite E|by left]|].
      intros [?|[[= ->] _]]; [by right|by left].
    + split; [by left|]. intros [?|[[= ->] Hs]]; [done|]. rewrite E in Hs. by destruct Hs.
Qed.

(** C34. The registry is frozen, and its refusals are exact.  After any operations a name
    has the tool of its first registration, and is disabled exactly when it was disabled
    after that; whatever is registered
    and disabled later, a registered tool keeps its definition and a disabled one
    stays disabled; disabling changes no byte of the manifest.  A disabled tool is refused
    as that, a name never registered as unknown, and an invocation
    succeeds exactly when its name is registered and not disabled, its text is
    canonical JSON of an object that the tool's schema accepts and its precondition
    holds; it then carries the canonical text and the class and effect of that
    tool's own registration, never the caller's. *)
Theorem tool_invoke_exact (Num : Type) (HN : JsonNumber Num) (quote : list byte → list byte)
    (from_str : list byte → option (Value Num)) (ops later : list (registry_op Num))
    (switched_off : list (list byte)) (descriptions : gmap (list byte) (list byte))
    (name input : list byte) (facts : gset (list byte)) (inv : Invocation) :
  let r := run_registry ops new_registry in
  (∀ n, tools r !! n = first_registered n ops) ∧
  (∀ n, n ∈ disabled r ↔ switched_off_in n ops) ∧
  (switched_off_in name ops → invoke quote from_str name input facts r = Err (Disabled name)) ∧
  (first_registered name ops = None → invoke quote from_str name input facts r = Err (UnknownTool name (names r))) ∧
  (∀ n tool, tools r !! n = Some tool → tools (run_registry later r) !! n = Some tool) ∧
  disabled r ⊆ disabled (run_registry later r) ∧
  manifest descriptions (run_registry (DisableTool <$> switched_off) r) = manifest descriptions r ∧
  (invoke quote from_str name input facts r = Ok inv ↔
   ∃ tool args, tools r !! name = Some tool ∧ (name ∉ disabled r) ∧
     canonicalize quote from_str input = Ok (i_arguments inv) ∧
     from_str input = Some (VObject args) ∧
     Schema.validate (t_schema tool) args = Ok tt ∧ check_precondition tool args facts = Ok tt ∧
     i_tool inv = name ∧ i_class inv = t_class tool ∧ i_effect inv = t_resolver tool args).
Proof.
  intros r. destruct (registry_grows later r) as [Hkeep Hdis]. destruct (registry_history ops) as [Htools Hoff].
  fold r in Htools, Hoff. split_and!; [done|done| | |done|done| |].
  - intros Hs. pose proof Hs as (before & after & -> & Hb). unfold invoke, available_tool. rewrite Htools, first_registered_app.
    destruct Hb as [t ->]. by rewrite bool_decide_eq_true_2 by by apply Hoff.
  - intros Hn. unfold invoke, available_tool. by rewrite Htools, Hn.
  - unfold manifest, sorted_tools. by rewrite disabling_keeps_tools.
  - unfold invoke, available_tool, parse_strict. split.
    + intros (tool & Ht & Hi)%result_bind_Ok.
      apply result_bind_Ok in Hi as (canonical & Hc%map_err_Ok & Hi).
      apply result_bind_Ok in Hi as (parsed & Hp%map_err_Ok & Hi).
      apply result_bind_Ok in Hp as (_ & _ & Hp%ok_or_Ok).
      destruct (tools r !! name) as [tool'|]; [|done].
      destruct (bool_decide_reflect (name ∈ disabled r)) as [|Hn]; [done|]. injection Ht as ->.
      destruct parsed as [| | | | |args]; try done. simpl in Hi.
      apply result_bind_Ok in Hi as ([] & Hv & Hi). apply result_bind_Ok in Hi as ([] & Hpre & [= <-]).
      exists tool, args. done.
    + intros (tool & args & Ht & Hn & Hc & Hf & Hv & Hpre & Hname & Hclass & Heff).
      rewrite Ht, bool_decide_eq_false_2 by done. simpl. rewrite Hc. simpl.
      assert (Hrej : reject_duplicates input = Ok tt).
      { unfold canonicalize, parse_strict in Hc.
        apply result_bind_Ok in Hc as (? & ([] & Hr & _)%result_bind_Ok & _). exact Hr. }
      rewrite Hrej. simpl. rewrite Hf. simpl. rewrite Hv. simpl. rewrite Hpre. simpl.
      destruct inv. simpl in *. by subst.
Qed.
