(* ===== verification/Vector.v ===== *)
(** * Vector search: [crates/supra_vector]

    Binary codes and their distance ([codes.rs]), the resident code table and the
    fusion of ranked lanes ([search.rs]).  Floating-point numbers are abstract: the
    code of a vector is taken from a comparison, and the re-ranking of candidates
    by exact similarity is not modelled.  A byte is its value. *)

From S2P Require Import Prelude.

(** ** Codes: [codes.rs] *)

Inductive VectorError := WrongWidth (expected found : nat).

(** [slice.chunks_exact(n)] and its remainder. *)
Definition chunks_exact {A} (n : nat) (l : list A) : list (list A) :=
  (λ i, take n (drop (i * n) l)) <$> seq 0 (length l `div` n).

Definition remainder {A} (n : nat) (l : list A) : list A := drop (length l `div` n * n) l.

(** [count_ones]. *)
Fixpoint ones_pos (p : positive) : nat :=
  match p with
  | xH => 1
  | xO p => ones_pos p
  | xI p => S (ones_pos p)
  end.

Definition count_ones (n : N) : nat := match n with N0 => 0 | Npos p => ones_pos p end.

(** [u64::from_le_bytes]. *)
Definition from_le_bytes (bs : list N) : N := foldr (λ b acc, (b + 256 * acc)%N) 0%N bs.

Definition WORD_BITS : nat := 64.

(** [distance]: word by word, then byte by byte. *)
Definition distance (left right : list N) : nat :=
  sum_list (zip_with (λ a b, count_ones (N.lxor (from_le_bytes a) (from_le_bytes b)))
              (chunks_exact (WORD_BITS `div` 8) left) (chunks_exact (WORD_BITS `div` 8) right)) +
  sum_list (zip_with (λ a b, count_ones (N.lxor a b))
              (remainder (WORD_BITS `div` 8) left) (remainder (WORD_BITS `div` 8) right)).

Section encode.
Context {F : Type} (gt : F → F → bool).

(** One round of [encode]'s loop. *)
Definition set_bit (code : list N) (dimension : nat) (value limit : F) : list N :=
  if gt value limit
  then alter (λ b, N.lor b (N.shiftl 1 (N.of_nat (dimension `mod` 8)))) (dimension `div` 8) code
  else code.

Fixpoint encode_from (dimension : nat) (code : list N) (pairs : list (F * F)) : list N :=
  match pairs with
  | [] => code
  | (value, limit) :: pairs =>
      encode_from (S dimension) (set_bit code dimension value limit) pairs
  end.

Definition encode (vector threshold : list F) : result (list N) VectorError :=
  if negb (length vector =? length threshold)
  then Err (WrongWidth (length threshold) (length vector))
  else Ok (encode_from 0 (replicate (div_ceil (length vector) 8) 0%N) (zip vector threshold)).
End encode.

(** ** The code table: [search.rs] *)

Module CodeTable.
Record t := mk {
  stride : nat;
  data : list N;
  slots : list Z;
  positions : gmap Z nat;
}.

Definition new (stride : nat) : t := mk stride [] [] ∅.

Definition len (x : t) : nat := length (slots x).
Definition is_empty (x : t) : bool := length (slots x) =? 0.
Definition contains (slot : Z) (x : t) : bool := bool_decide (is_Some (positions x !! slot)).
Definition clear (x : t) : t := mk (stride x) [] [] ∅.

(** [data[from..from + code.len()].copy_from_slice(code)]. *)
Definition splice (from : nat) (code data : list N) : list N :=
  take from data ++ code ++ drop (from + length code) data.

Definition upsert (slot : Z) (code : list N) (x : t) : t * bool :=
  if negb (length code =? stride x) then (x, false)
  else match positions x !! slot with
  | Some position =>
      (mk (stride x) (splice (position * stride x) code (data x)) (slots x) (positions x), true)
  | None =>
      (mk (stride x) (data x ++ code) (slots x ++ [slot])
         (<[slot := length (slots x)]> (positions x)), true)
  end.

Definition remove (slot : Z) (x : t) : t * bool :=
  match positions x !! slot with
  | None => (x, false)
  | Some position =>
      let positions' := delete slot (positions x) in
      let last := length (slots x) - 1 in
      let '(data', slots', positions') :=
        if negb (position =? last) then
          let tail := drop (last * stride x) (data x) in
          let moved := default 0%Z (slots x !! last) in
          (splice (position * stride x) (take (stride x) tail) (data x),
           <[position := moved]> (slots x), <[moved := position]> positions')
        else (data x, slots x, positions') in
      (mk (stride x) (take (last * stride x) data') (take last slots') positions', true)
  end.
End CodeTable.

Module Candidate.
Record t := mk { distance : nat; slot : Z }.

(** The key both sorts use. *)
Definition le (a b : t) : Prop :=
  distance a < distance b ∨ distance a = distance b ∧ (slot a ≤ slot b)%Z.

#[global] Instance le_dec : RelDecision le.
Proof. intros a b. unfold le. apply _. Defined.
#[global] Instance le_total : Total le.
Proof. intros a b. unfold le. lia. Qed.
#[global] Instance le_trans : Transitive le.
Proof. intros a b c. unfold le. lia. Qed.
#[global] Instance le_antisymm : AntiSymm (=) le.
Proof. intros [d s] [d' s']. unfold le. simpl. intros H1 H2. f_equal; lia. Qed.
End Candidate.

Section nearest.
(** [slice.select_nth_unstable_by_key]: the element of a rank moved to its place. *)
Context (select_nth : nat → list Candidate.t → list Candidate.t).

Definition scored (query : list N) (x : CodeTable.t) : list Candidate.t :=
  (λ p : list N * Z, Candidate.mk (distance query p.1) p.2) <$>
    zip (chunks_exact (CodeTable.stride x) (CodeTable.data x)) (CodeTable.slots x).

Definition nearest (query : list N) (width : nat) (x : CodeTable.t) : list Candidate.t :=
  if (width =? 0) || CodeTable.is_empty x || negb (length query =? CodeTable.stride x) then []
  else
    let candidates := scored query x in
    let keep := Nat.min width (length candidates) in
    merge_sort Candidate.le (take keep (select_nth (keep - 1) candidates)).
End nearest.

(** ** Fusing ranked lanes *)

Definition RRF_K : N := 60.
Definition MAX_FUSION_DEPTH : N := 1000.
Definition RRF_SCALE : N := 10000000.

Definition contribution (rank : N) : N := (RRF_SCALE `div` (RRF_K + rank))%N.

Module LaneRank.
Record t := mk { lane : nat; rank : N }.
#[global] Instance t_eq_dec : EqDecision t.
Proof. solve_decision. Defined.
End LaneRank.

Module Fused.
Record t := mk { slot : Z; score : N; lanes : list LaneRank.t }.

#[global] Instance t_eq_dec : EqDecision t.
Proof. solve_decision. Defined.

(** Score descending, then slot ascending. *)
Definition le (a b : t) : Prop :=
  (score b < score a)%N ∨ score a = score b ∧ (slot a ≤ slot b)%Z.

#[global] Instance le_dec : RelDecision le.
Proof. intros a b. unfold le. apply _. Defined.
#[global] Instance le_total : Total le.
Proof. intros a b. unfold le. lia. Qed.
#[global] Instance le_trans : Transitive le.
Proof. intros a b c. unfold le. lia. Qed.
End Fused.

(** One round of the inner loop: [seen] is where each slot stands in [fused]. *)
Definition fuse_one (lane : nat) (rank : N) (slot : Z) (s : list Fused.t * gmap Z nat) :
    list Fused.t * gmap Z nat :=
  let '(fused, seen) := s in
  match seen !! slot with
  | Some position =>
      (alter (λ f, Fused.mk (Fused.slot f) (Fused.score f + contribution rank)
                     (Fused.lanes f ++ [LaneRank.mk lane rank])) position fused, seen)
  | None =>
      (fused ++ [Fused.mk slot (contribution rank) [LaneRank.mk lane rank]],
       <[slot := length fused]> seen)
  end.

Fixpoint fuse_lane (lane : nat) (rank : N) (ranked : list Z) (s : list Fused.t * gmap Z nat) :
    list Fused.t * gmap Z nat :=
  match ranked with
  | [] => s
  | slot :: ranked => fuse_lane lane (rank + 1) ranked (fuse_one lane rank slot s)
  end.

Fixpoint fuse_lanes (lane : nat) (lanes : list (list Z)) (s : list Fused.t * gmap Z nat) :
    list Fused.t * gmap Z nat :=
  match lanes with
  | [] => s
  | ranked :: lanes => fuse_lanes (S lane) lanes (fuse_lane lane 1 ranked s)
  end.

Definition fuse (lanes : list (list Z)) : list Fused.t :=
  merge_sort Fused.le (fuse_lanes 0 lanes ([], ∅)).1.

(** ** Counting bits *)

Lemma ones_double n : count_ones (2 * n) = count_ones n.
Proof. by destruct n. Qed.

Lemma ones_succ_double n : count_ones (2 * n + 1) = S (count_ones n).
Proof. by destruct n. Qed.

Lemma double_cases n : n = (2 * N.div2 n)%N ∨ n = (2 * N.div2 n + 1)%N.
Proof. pose proof (N.div2_odd n). destruct (N.odd n); simpl in *; [right|left]; lia. Qed.

(** The sum of a function over the first naturals. *)
Definition sum_upto (n : nat) (g : nat → nat) : nat := sum_list (g <$> seq 0 n).

Lemma sum_upto_S n g : sum_upto (S n) g = g 0 + sum_upto n (λ i, g (S i)).
Proof. unfold sum_upto. simpl. by rewrite <- seq_shift, map_map. Qed.

Lemma sum_list_app l k : sum_list (l ++ k) = sum_list l + sum_list k.
Proof. induction l; simpl in *; lia. Qed.

Lemma sum_list_snoc l x : sum_list (l ++ [x]) = sum_list l + x.
Proof. rewrite sum_list_app. simpl. lia. Qed.

Lemma sum_upto_snoc n g : sum_upto (S n) g = sum_upto n g + g n.
Proof. unfold sum_upto. rewrite seq_S, fmap_app. apply sum_list_snoc. Qed.

Lemma sum_upto_ext n g h : (∀ i, i < n → g i = h i) → sum_upto n g = sum_upto n h.
Proof. induction n as [|n IH]; intros Hg; [done|]. rewrite !sum_upto_snoc, IH, Hg; auto with lia. Qed.

Lemma sum_upto_mul k n g :
  sum_upto (k * n) g = sum_upto k (λ i, sum_upto n (λ j, g (i * n + j))).
Proof.
  induction k as [|k IH]; [done|]. rewrite sum_upto_snoc, <- IH. clear IH.
  replace (S k * n) with (k * n + n) by lia. generalize (k * n). intros m.
  induction n as [|n IH]; [by rewrite Nat.add_0_r|].
  rewrite Nat.add_succ_r, !sum_upto_snoc, IH. lia.
Qed.

Lemma sum_upto_zero n m g : n ≤ m → (∀ i, n ≤ i → g i = 0) → sum_upto m g = sum_upto n g.
Proof.
  intros Hnm Hg. induction Hnm as [|m Hm IH]; [done|]. rewrite sum_upto_snoc, IH, Hg; lia.
Qed.

Lemma sum_zip_lookup {A B} (f : A → B → nat) l k g :
  length l = length k →
  (∀ i x y, l !! i = Some x → k !! i = Some y → f x y = g i) →
  sum_list (zip_with f l k) = sum_upto (length l) g.
Proof.
  revert k g. induction l as [|x l IH]; intros [|y k] g Hlen Hf; try done.
  simpl length. rewrite sum_upto_S. simpl. rewrite (Hf 0 x y), (IH k (λ i, g (S i))); try done.
  - by injection Hlen.
  - intros i. apply (Hf (S i)).
Qed.

(** The bits of a number below [2^k]. *)
Lemma ones_bits k b :
  (b < 2 ^ N.of_nat k)%N → count_ones b = sum_upto k (λ i, Nat.b2n (N.testbit b (N.of_nat i))).
Proof.
  revert b. induction k as [|k IH]; intros b Hb.
  { assert (b = 0%N) as -> by (simpl in Hb; lia). done. }
  rewrite sum_upto_S. rewrite Nat2N.inj_succ, N.pow_succ_r' in Hb.
  assert (Hrest : ∀ r, (b = 2 * N.div2 b + r)%N → (r < 2)%N →
    sum_upto k (λ i, Nat.b2n (N.testbit b (N.of_nat (S i)))) = count_ones (N.div2 b)).
  { intros r Hr Hr2. rewrite (IH (N.div2 b)) by lia. apply sum_upto_ext. intros i _.
    by rewrite Nat2N.inj_succ, N.testbit_succ_r_div2 by lia. }
  destruct (double_cases b) as [Hd|Hd].
  - rewrite (Hrest 0%N) by lia. rewrite Hd at 1 2. rewrite ones_double, N.testbit_even_0. done.
  - rewrite (Hrest 1%N) by lia. rewrite Hd at 1 2. rewrite ones_succ_double, N.testbit_odd_0. done.
Qed.

Lemma lxor_bound k a b :
  (a < 2 ^ k)%N → (b < 2 ^ k)%N → (N.lxor a b < 2 ^ k)%N.
Proof.
  intros Ha Hb. destruct (decide (N.lxor a b = 0%N)) as [->|Hn]; [by apply N.neq_0_lt_0, N.pow_nonzero|].
  apply N.log2_lt_pow2; [lia|]. pose proof (N.log2_lxor a b).
  destruct (decide (a = 0%N)) as [->|Ha0], (decide (b = 0%N)) as [->|Hb0]; [done| | |].
  - rewrite N.lxor_0_l in *. apply N.log2_lt_pow2; lia.
  - rewrite N.lxor_0_r in *. apply N.log2_lt_pow2; lia.
  - apply N.log2_lt_pow2 in Ha, Hb; lia.
Qed.

(** The first [k] bits of a sum whose low part is below [2^k], and the rest. *)
Lemma lxor_add k a b w v :
  (a < 2 ^ k)%N → (b < 2 ^ k)%N →
  N.lxor (a + 2 ^ k * w) (b + 2 ^ k * v) = (N.lxor a b + 2 ^ k * N.lxor w v)%N.
Proof.
  intros Ha Hb.
  assert (Hadd : ∀ x y, (x < 2 ^ k)%N → (x + 2 ^ k * y)%N = N.lxor x (N.shiftl y k)).
  { intros x y Hx. rewrite N.mul_comm, <- N.shiftl_mul_pow2. apply N.add_nocarry_lxor.
    apply N.bits_inj_0. intros i. rewrite N.land_spec.
    destruct (N.lt_ge_cases i k) as [Hi|Hi].
    - by rewrite N.shiftl_spec_low, andb_false_r.
    - rewrite <- (N.mod_small x (2 ^ k) Hx), N.mod_pow2_bits_high by done. done. }
  rewrite !Hadd by (done || by apply lxor_bound). rewrite N.shiftl_lxor.
  rewrite !N.lxor_assoc. f_equal. rewrite <- !N.lxor_assoc. f_equal. apply N.lxor_comm.
Qed.

Lemma ones_add k b w :
  (b < 2 ^ N.of_nat k)%N → count_ones (b + 2 ^ N.of_nat k * w) = count_ones b + count_ones w.
Proof.
  revert b. induction k as [|k IH]; intros b Hb.
  { assert (b = 0%N) as -> by (simpl in Hb; lia). simpl. by rewrite N.mul_1_l. }
  rewrite Nat2N.inj_succ, N.pow_succ_r' in *.
  destruct (double_cases b) as [Hd|Hd]; rewrite Hd.
  - replace (2 * N.div2 b + 2 * 2 ^ N.of_nat k * w)%N
      with (2 * (N.div2 b + 2 ^ N.of_nat k * w))%N by lia.
    rewrite !ones_double. apply IH. lia.
  - replace (2 * N.div2 b + 1 + 2 * 2 ^ N.of_nat k * w)%N
      with (2 * (N.div2 b + 2 ^ N.of_nat k * w) + 1)%N by lia.
    rewrite !ones_succ_double, IH by lia. lia.
Qed.

Definition is_byte (b : N) : Prop := (b < 256)%N.

Lemma ones_word bs cs :
  length bs = length cs → Forall is_byte bs → Forall is_byte cs →
  count_ones (N.lxor (from_le_bytes bs) (from_le_bytes cs)) =
    sum_list (zip_with (λ a b, count_ones (N.lxor a b)) bs cs).
Proof.
  revert cs. induction bs as [|b bs IH]; intros [|c cs] Hlen Hb Hc; try done.
  apply Forall_cons in Hb as [Hb Hbs], Hc as [Hc Hcs]. unfold is_byte in Hb, Hc.
  simpl. change 256%N with (2 ^ 8)%N. rewrite lxor_add by done.
  rewrite (ones_add 8) by by apply (lxor_bound 8). rewrite IH; auto.
Qed.

(** ** The distance is the number of differing bits *)

Lemma concat_chunks {A} n (l : list A) :
  concat (chunks_exact n l) = take (length l `div` n * n) l.
Proof.
  unfold chunks_exact. induction (length l `div` n) as [|k IH]; [done|].
  rewrite seq_S, fmap_app, concat_app, IH. simpl. rewrite app_nil_r, take_take_drop.
  f_equal. lia.
Qed.

Lemma chunks_remainder {A} n (l : list A) : concat (chunks_exact n l) ++ remainder n l = l.
Proof. rewrite concat_chunks. apply take_drop. Qed.

Lemma chunk_length {A} n (l : list A) :
  n ≠ 0 → Forall (λ c, length c = n) (chunks_exact n l).
Proof.
  intros Hn. unfold chunks_exact. apply Forall_fmap, Forall_forall. intros i Hi. simpl.
  apply elem_of_seq in Hi. rewrite length_take, length_drop.
  pose proof (Nat.Div0.mul_div_le (length l) n).
  assert (S i * n ≤ length l `div` n * n) by (apply Nat.mul_le_mono_r; lia). lia.
Qed.

Lemma zip_with_concat {A B C} (f : A → B → C) cs ds :
  Forall2 (λ c d, length c = length d) cs ds →
  zip_with f (concat cs) (concat ds) = concat (zip_with (zip_with f) cs ds).
Proof. induction 1 as [|c d cs ds Hcd _ IH]; [done|]. simpl. by rewrite zip_with_app, IH. Qed.

Lemma sum_list_concat ls : sum_list (concat ls) = sum_list (sum_list <$> ls).
Proof. induction ls as [|l ls IH]; [done|]. simpl. by rewrite sum_list_app, IH. Qed.

Lemma Forall_chunks {A} (P : A → Prop) n l :
  Forall P l → Forall (Forall P) (chunks_exact n l) ∧ Forall P (remainder n l).
Proof.
  intros Hl. split; [|by apply Forall_drop]. unfold chunks_exact. apply Forall_fmap, Forall_forall.
  intros i _. simpl. by apply Forall_take, Forall_drop.
Qed.

(** Reading eight bytes at a time changes nothing. *)
Lemma distance_bytes left right :
  length left = length right → Forall is_byte left → Forall is_byte right →
  distance left right = sum_list (zip_with (λ a b, count_ones (N.lxor a b)) left right).
Proof.
  intros Hlen Hl Hr. unfold distance. change (WORD_BITS `div` 8) with 8.
  rewrite <- (chunks_remainder 8 left), <- (chunks_remainder 8 right) at 3.
  pose proof (chunk_length 8 left) as Hcl. pose proof (chunk_length 8 right) as Hcr.
  destruct (Forall_chunks is_byte 8 left Hl) as [Hbl _], (Forall_chunks is_byte 8 right Hr) as [Hbr _].
  assert (Hlens : length (chunks_exact 8 left) = length (chunks_exact 8 right))
    by (unfold chunks_exact; by rewrite !length_fmap, Hlen).
  assert (H2 : Forall2 (λ c d, length c = length d ∧ Forall is_byte c ∧ Forall is_byte d)
    (chunks_exact 8 left) (chunks_exact 8 right)).
  { apply Forall2_same_length_lookup_2; [done|]. intros i c d Hc Hd.
    rewrite (Forall_lookup_1 _ _ i c (Hcl ltac:(done)) Hc), (Forall_lookup_1 _ _ i d (Hcr ltac:(done)) Hd).
    split_and!; [done|exact (Forall_lookup_1 _ _ _ _ Hbl Hc)|exact (Forall_lookup_1 _ _ _ _ Hbr Hd)]. }
  rewrite zip_with_app by (rewrite !concat_chunks, !length_take; by rewrite Hlen).
  rewrite sum_list_app. f_equal.
  rewrite zip_with_concat by (eapply Forall2_impl; [exact H2|naive_solver]).
  rewrite sum_list_concat. f_equal. clear -H2.
  induction H2 as [|c d cs ds (Hlen & Hc & Hd) _ IH]; [done|]. simpl. by rewrite IH, ones_word.
Qed.

Definition bit_of (code : list N) (n : nat) : bool :=
  N.testbit (default 0%N (code !! (n `div` 8))) (N.of_nat (n `mod` 8)).

Lemma distance_bits left right :
  length left = length right → Forall is_byte left → Forall is_byte right →
  distance left right =
    sum_upto (length left * 8) (λ n, Nat.b2n (xorb (bit_of left n) (bit_of right n))).
Proof.
  intros Hlen Hl Hr. rewrite distance_bytes by done. rewrite sum_upto_mul.
  apply sum_zip_lookup; [done|]. intros i a b Ha Hb.
  rewrite (ones_bits 8).
  - apply sum_upto_ext. intros j Hj. unfold bit_of.
    replace ((i * 8 + j) `div` 8) with i by lia. replace ((i * 8 + j) `mod` 8) with j by lia.
    by rewrite Ha, Hb, N.lxor_spec.
  - apply lxor_bound; [exact (Forall_lookup_1 _ _ _ _ Hl Ha)|exact (Forall_lookup_1 _ _ _ _ Hr Hb)].
Qed.

Section encoding.
Context {F : Type} (gt : F → F → bool).

(** Whether the component and the threshold at a dimension compare. *)
Definition exceeds (pairs : list (F * F)) (n : nat) : bool :=
  match pairs !! n with Some (value, limit) => gt value limit | None => false end.

Lemma set_bit_length code d v l : length (set_bit gt code d v l) = length code.
Proof. unfold set_bit. destruct (gt v l); [apply length_alter|done]. Qed.

Lemma set_bit_bytes code d v l : Forall is_byte code → Forall is_byte (set_bit gt code d v l).
Proof.
  intros Hc. unfold set_bit. destruct (gt v l); [|done]. apply Forall_alter; [done|].
  intros b _ Hb. unfold is_byte in *. change 256%N with (2 ^ 8)%N in *.
  destruct (decide (b = 0%N)) as [->|Hb0].
  - rewrite N.lor_0_l, N.shiftl_1_l. apply N.pow_lt_mono_r; [lia|].
    pose proof (Nat.mod_upper_bound d 8). lia.
  - apply N.log2_lt_pow2; [|rewrite N.log2_lor].
    + apply N.neq_0_lt_0. intros Hz. by apply N.lor_eq_0_iff in Hz as [? _].
    + rewrite N.shiftl_1_l, N.log2_pow2 by lia. apply N.log2_lt_pow2 in Hb; [|lia].
      pose proof (Nat.mod_upper_bound d 8). lia.
Qed.

Lemma set_bit_spec code d v l n :
  d < length code * 8 →
  bit_of (set_bit gt code d v l) n = bit_of code n || (bool_decide (n = d) && gt v l).
Proof.
  intros Hd. unfold set_bit. destruct (gt v l); [|by rewrite andb_false_r, orb_false_r].
  rewrite andb_true_r. unfold bit_of. destruct (decide (n `div` 8 = d `div` 8)) as [He|He].
  - rewrite He, list_lookup_alter_eq. destruct (lookup_lt_is_Some_2 code (d `div` 8)) as [b ->]; [lia|].
    simpl. rewrite N.lor_spec, N.shiftl_1_l, N.pow2_bits_eqb. f_equal.
    destruct (decide (n = d)) as [->|Hne].
    + rewrite bool_decide_eq_true_2 by done. by rewrite N.eqb_refl.
    + rewrite bool_decide_eq_false_2 by done. apply N.eqb_neq. lia.
  - rewrite list_lookup_alter_ne by done. rewrite bool_decide_eq_false_2 by congruence.
    by rewrite orb_false_r.
Qed.

Lemma encode_from_spec d code pairs :
  d + length pairs ≤ length code * 8 → Forall is_byte code →
  length (encode_from gt d code pairs) = length code ∧
  Forall is_byte (encode_from gt d code pairs) ∧
  ∀ n, bit_of (encode_from gt d code pairs) n =
         bit_of code n || (bool_decide (d ≤ n) && exceeds pairs (n - d)).
Proof.
  revert d code. induction pairs as [|[v l] pairs IH]; intros d code Hd Hc; simpl in *.
  { split_and!; [done|done|]. intros n. unfold exceeds. simpl. by rewrite andb_false_r, orb_false_r. }
  destruct (IH (S d) (set_bit gt code d v l)) as (H1 & H2 & H3);
    [rewrite set_bit_length; lia|by apply set_bit_bytes|].
  rewrite set_bit_length in H1. split_and!; [done|done|]. intros n.
  rewrite H3, set_bit_spec by lia. rewrite <- orb_assoc. f_equal. unfold exceeds.
  destruct (decide (n = d)) as [->|Hne].
  - rewrite bool_decide_eq_true_2, (bool_decide_eq_false_2 (S d ≤ d)), (bool_decide_eq_true_2 (d ≤ d)) by lia.
    rewrite Nat.sub_diag. simpl. by rewrite orb_false_r.
  - rewrite bool_decide_eq_false_2 by done. simpl.
    destruct (decide (d ≤ n)) as [Hle|Hle].
    + rewrite !bool_decide_eq_true_2 by lia. by replace (n - d) with (S (n - S d)) by lia.
    + by rewrite !bool_decide_eq_false_2 by lia.
Qed.

Lemma encode_spec vector threshold code :
  encode gt vector threshold = Ok code →
  length vector = length threshold ∧ length code = div_ceil (length vector) 8 ∧
  Forall is_byte code ∧ ∀ n, bit_of code n = exceeds (zip vector threshold) n.
Proof.
  unfold encode. destruct (length vector =? length threshold) eqn:Hlen; [|done]. intros [= <-].
  to_prop. set (zeros := replicate _ 0%N).
  assert (Hz : Forall is_byte zeros) by (by apply Forall_replicate).
  assert (Hzl : length zeros = div_ceil (length vector) 8) by apply length_replicate.
  destruct (encode_from_spec 0 zeros (zip vector threshold)) as (H1 & H2 & H3); [|done|].
  { rewrite Hzl, length_zip_with. unfold div_ceil. destruct (Nat.ltb_spec 0 (length vector `mod` 8)); lia. }
  split_and!; [done|by rewrite H1|done|]. intros n. rewrite H3, bool_decide_eq_true_2, Nat.sub_0_r by lia.
  assert (bit_of zeros n = false) as ->; [|done].
  unfold bit_of, zeros. destruct (decide (n `div` 8 < div_ceil (length vector) 8)).
  - rewrite lookup_replicate_2 by done. apply N.bits_0.
  - rewrite lookup_ge_None_2 by (rewrite length_replicate; lia). apply N.bits_0.
Qed.

(** The dimensions at which two vectors compare differently with the thresholds. *)
Definition disagreements (v w threshold : list F) : nat :=
  sum_upto (length threshold) (λ n, Nat.b2n (xorb (exceeds (zip v threshold) n)
                                               (exceeds (zip w threshold) n))).

Lemma exceeds_beyond v threshold n : length v ≤ n → exceeds (zip v threshold) n = false.
Proof.
  intros Hn. unfold exceeds. rewrite lookup_ge_None_2; [done|]. rewrite length_zip_with. lia.
Qed.

Lemma encode_distance v w threshold a b :
  encode gt v threshold = Ok a → encode gt w threshold = Ok b →
  distance a b = disagreements v w threshold.
Proof.
  intros (Hv & Hla & Ha & Hba)%encode_spec (Hw & Hlb & Hb & Hbb)%encode_spec.
  rewrite distance_bits by (done || congruence). unfold disagreements.
  rewrite (sum_upto_zero (length threshold)).
  - apply sum_upto_ext. intros i _. by rewrite Hba, Hbb.
  - rewrite Hla, Hv. unfold div_ceil. destruct (Nat.ltb_spec 0 (length threshold `mod` 8)); lia.
  - intros i Hi. by rewrite Hba, Hbb, !exceeds_beyond by congruence.
Qed.
End encoding.

(** ** The table refines a map from slots to codes *)

(** A table laid out as the codes of its slots, in order. *)
Record laid_out (x : CodeTable.t) (codes : list (list N)) : Prop := {
  lo_data : CodeTable.data x = concat codes;
  lo_width : Forall (λ c, length c = CodeTable.stride x) codes;
  lo_length : length codes = length (CodeTable.slots x);
  lo_nodup : NoDup (CodeTable.slots x);
  lo_positions s i : CodeTable.positions x !! s = Some i ↔ CodeTable.slots x !! i = Some s;
}.

(** The map a table stands for. *)
Definition stands_for (x : CodeTable.t) (m : gmap Z (list N)) : Prop :=
  ∃ codes, laid_out x codes ∧
    ∀ s, m !! s = CodeTable.positions x !! s ≫= λ i, codes !! i.

Lemma concat_take_width {A} n i (codes : list (list A)) :
  Forall (λ c, length c = n) codes → take (i * n) (concat codes) = concat (take i codes).
Proof.
  intros Hw. revert i. induction Hw as [|c codes Hc _ IH]; intros [|i]; simpl; [done| |done|].
  - by rewrite take_nil.
  - rewrite take_app. rewrite (take_ge c) by lia. f_equal. rewrite <- IH. f_equal. lia.
Qed.

Lemma concat_drop_width {A} n i (codes : list (list A)) :
  Forall (λ c, length c = n) codes → drop (i * n) (concat codes) = concat (drop i codes).
Proof.
  intros Hw. revert i. induction Hw as [|c codes Hc _ IH]; intros [|i]; simpl; [done| |done|].
  - by rewrite drop_nil.
  - rewrite drop_app. rewrite (drop_ge c) by lia. simpl. rewrite <- IH. f_equal. lia.
Qed.

Lemma splice_concat n i code codes :
  Forall (λ c, length c = n) codes → length code = n → i < length codes →
  CodeTable.splice (i * n) code (concat codes) = concat (<[i:=code]> codes).
Proof.
  intros Hw Hc Hi. unfold CodeTable.splice. rewrite Hc.
  replace (i * n + n) with (S i * n) by lia.
  rewrite concat_take_width, concat_drop_width by done.
  rewrite insert_take_drop by done. by rewrite concat_app.
Qed.

Lemma chunks_of_concat n (codes : list (list N)) :
  0 < n → Forall (λ c, length c = n) codes → chunks_exact n (concat codes) = codes.
Proof.
  intros Hn Hw. assert (Hl : length (concat codes) = length codes * n).
  { induction Hw as [|c l Hc _ IH]; [done|]. simpl. rewrite length_app, IH, Hc. lia. }
  unfold chunks_exact. rewrite Hl, Nat.div_mul by lia. clear Hl.
  induction Hw as [|c codes Hc Hw IH]; [done|]. simpl length. rewrite <- cons_seq. simpl.
  f_equal; [by rewrite drop_0, take_app_length'|].
  rewrite <- IH at 2. rewrite <- seq_shift. rewrite <- list_fmap_compose. apply list_fmap_ext.
  intros i x _. simpl. rewrite drop_app, (drop_ge c) by lia. simpl. do 2 f_equal. lia.
Qed.

(** The position map of a list of distinct slots. *)
Lemma positions_lookup x codes s i :
  laid_out x codes → CodeTable.positions x !! s = Some i →
  CodeTable.slots x !! i = Some s ∧ i < length codes.
Proof.
  intros Hx Hs. apply (lo_positions _ _ Hx) in Hs. split; [done|].
  rewrite (lo_length _ _ Hx). by eapply lookup_lt_Some.
Qed.

Lemma upsert_stands_for slot code x m :
  stands_for x m →
  stands_for (CodeTable.upsert slot code x).1
    (if length code =? CodeTable.stride x then <[slot := code]> m else m) ∧
  (CodeTable.upsert slot code x).2 = (length code =? CodeTable.stride x).
Proof.
  intros (codes & Hx & Hm). unfold CodeTable.upsert.
  destruct (Nat.eqb_spec (length code) (CodeTable.stride x)) as [Hc|Hc]; simpl;
    [|split; [by exists codes|done]].
  destruct (CodeTable.positions x !! slot) as [i|] eqn:Hi; (split; [|done]); simpl.
  - destruct (positions_lookup _ _ _ _ Hx Hi) as [Hs Hlt].
    destruct Hx as [Hd Hw Hl Hn Hp]. exists (<[i:=code]> codes). split.
    + split; simpl; [|by apply Forall_insert|by rewrite length_insert|done|done].
      rewrite Hd. by apply splice_concat.
    + intros s. simpl. destruct (decide (s = slot)) as [->|Hne].
      * rewrite lookup_insert_eq, Hi. simpl. by rewrite list_lookup_insert_eq.
      * rewrite lookup_insert_ne, Hm by done.
        destruct (CodeTable.positions x !! s) as [j|] eqn:Hj; [|done]. simpl.
        rewrite list_lookup_insert_ne; [done|]. intros <-. apply Hp in Hj. congruence.
  - destruct Hx as [Hd Hw Hl Hn Hp].
    assert (Hslot : slot ∉ CodeTable.slots x).
    { intros Hin. apply list_elem_of_lookup in Hin as [j Hj]. apply Hp in Hj. congruence. }
    exists (codes ++ [code]). split.
    + split; simpl.
      * by rewrite Hd, concat_app; simpl; rewrite app_nil_r.
      * apply Forall_app. by split; [|constructor].
      * by rewrite !length_app, Hl.
      * apply NoDup_app. split_and!; [done|set_solver|apply NoDup_singleton].
      * intros s j. destruct (decide (s = slot)) as [->|Hne].
        -- rewrite lookup_insert_eq, lookup_snoc_Some. split; [intros [= <-]; by right|].
           intros [[_ Hj]|[-> _]]; [by apply Hp in Hj; congruence|done].
        -- rewrite lookup_insert_ne, Hp, lookup_snoc_Some by done.
           split; [intros Hj; left; split; [by eapply lookup_lt_Some|done]|naive_solver].
    + intros s. simpl. destruct (decide (s = slot)) as [->|Hne].
      * rewrite !lookup_insert_eq. simpl. rewrite <- Hl. by rewrite list_lookup_middle.
      * rewrite !lookup_insert_ne, Hm by done.
        destruct (CodeTable.positions x !! s) as [j|] eqn:Hj; [|done]. simpl.
        rewrite lookup_app_l; [done|]. rewrite Hl. apply Hp in Hj. by eapply lookup_lt_Some.
Qed.

(** A table whose last row is known. *)
Lemma laid_out_snoc x codes :
  laid_out x codes → CodeTable.slots x ≠ [] →
  ∃ ss m cs c, CodeTable.slots x = ss ++ [m] ∧ codes = cs ++ [c] ∧ length cs = length ss ∧
    length c = CodeTable.stride x ∧ Forall (λ c, length c = CodeTable.stride x) cs ∧
    NoDup ss ∧ (m ∉ ss) ∧
    ∀ s i, CodeTable.positions x !! s = Some i ↔
      ss !! i = Some s ∨ length ss = i ∧ m = s.
Proof.
  intros [Hd Hw Hl Hn Hp] Hne.
  destruct (CodeTable.slots x) as [|m ss _] eqn:Hs using rev_ind; [done|].
  destruct codes as [|c cs _] using rev_ind.
  { rewrite length_app in Hl. simpl in Hl. lia. }
  rewrite !length_app in Hl. simpl in Hl. apply Forall_app in Hw as [Hw1 Hw2].
  apply Forall_cons in Hw2 as [Hw2 _]. apply NoDup_app in Hn as (Hn & Hdis & _).
  exists ss, m, cs, c. split_and!; try done.
  - lia.
  - intros Hin. apply (Hdis m Hin). by apply list_elem_of_singleton.
  - intros s i. rewrite Hp, lookup_snoc_Some. split; [|intros [H|[<- <-]]].
    + intros [[_ H]|[-> ->]]; [by left|by right].
    + left. split; [by eapply lookup_lt_Some|done].
    + by right.
Qed.

Lemma NoDup_insert_fresh {A} (l : list A) i x : NoDup l → x ∉ l → NoDup (<[i:=x]> l).
Proof.
  intros Hn Hx. apply NoDup_alt. intros a b y Ha Hb.
  apply list_lookup_insert_Some in Ha, Hb.
  destruct Ha as [(<- & <- & _)|[Hia Ha]], Hb as [(<- & ? & _)|[Hib Hb]]; subst; try done.
  - by apply list_elem_of_lookup_2 in Hb.
  - by apply list_elem_of_lookup_2 in Ha.
  - by eapply NoDup_lookup.
Qed.

(** The positions after the last slot took the place of a removed one. *)
Lemma moved_positions (ss : list Z) (positions : gmap Z nat) slot mv p :
  NoDup ss → mv ∉ ss → ss !! p = Some slot →
  (∀ s i, positions !! s = Some i ↔ ss !! i = Some s ∨ length ss = i ∧ mv = s) →
  ∀ s i, <[mv:=p]> (delete slot positions) !! s = Some i ↔ <[p:=mv]> ss !! i = Some s.
Proof.
  intros Hn Hmv Hp Hpos s i. assert (Hlt : p < length ss) by by eapply lookup_lt_Some.
  rewrite list_lookup_insert_Some, lookup_insert. case_decide as Hs.
  - subst s. split; [intros [= <-]; by left|]. intros [(-> & _ & _)|[_ Hi]]; [done|].
    by apply list_elem_of_lookup_2 in Hi.
  - rewrite lookup_delete_Some, Hpos. split.
    + intros [Hne [Hi|[_ ?]]]; [|done]. right. split; [|done]. congruence.
    + intros [(_ & ? & _)|[Hne Hi]]; [done|]. split; [|by left]. intros ->.
      apply Hne. by eapply NoDup_lookup.
Qed.

Lemma remove_stands_for slot x m :
  stands_for x m →
  stands_for (CodeTable.remove slot x).1 (delete slot m) ∧
  (CodeTable.remove slot x).2 = bool_decide (is_Some (m !! slot)).
Proof.
  intros (codes & Hx & Hm). unfold CodeTable.remove.
  destruct (CodeTable.positions x !! slot) as [p|] eqn:Hi; simpl.
  2:{ rewrite Hm, Hi. split; [|done]. exists codes. split; [done|]. intros s.
      rewrite lookup_delete. case_decide as Hs; [by rewrite <- Hs, Hi|apply Hm]. }
  destruct (positions_lookup _ _ _ _ Hx Hi) as [Hsp Hlt].
  destruct (laid_out_snoc x codes Hx) as (ss & mv & cs & c & Hss & -> & Hlen & Hc & Hw & Hn & Hmv & Hpos).
  { intros Hz. by rewrite Hz in Hsp. }
  assert (Hall : Forall (λ c, length c = CodeTable.stride x) (cs ++ [c]))
    by (apply Forall_app; by rewrite Forall_singleton).
  pose proof (lo_data _ _ Hx) as Hd.
  rewrite Hm, Hi, Hss, length_app. cbn [length mbind option_bind].
  replace (length ss + 1 - 1) with (length ss) by lia. rewrite <- Hlen.
  split.
  2:{ destruct (lookup_lt_is_Some_2 (cs ++ [c]) p Hlt) as [d Hdd].
      rewrite Hdd. by destruct (negb (p =? length cs)). }
  destruct (Nat.eqb_spec p (length cs)) as [Hp|Hp]; cbn [negb fst].
  - (* the last row goes *)
    assert (slot = mv) as ->.
    { apply Hpos in Hi as [Hi|[_ ?]]; [|done]. apply lookup_lt_Some in Hi. lia. }
    exists cs. split.
    + split; cbn.
      * rewrite Hd, concat_take_width by done. f_equal. by apply take_app_length'.
      * done.
      * rewrite take_app_length' by done. done.
      * by rewrite take_app_length'.
      * intros s i. rewrite take_app_length' by done. rewrite lookup_delete_Some, Hpos.
        split; [naive_solver|]. intros Hs. split; [|by left]. intros <-.
        apply Hmv. by eapply list_elem_of_lookup_2.
    + intros s. cbn. rewrite !lookup_delete. case_decide as Hs; [done|]. rewrite Hm.
      destruct (CodeTable.positions x !! s) as [j|] eqn:Hj; [|done]. simpl.
      apply Hpos in Hj as [Hj|[_ ?]]; [|done]. apply lookup_lt_Some in Hj.
      by rewrite lookup_app_l by lia.
  - (* the last row takes its place *)
    assert (Hslot : ss !! p = Some slot).
    { apply Hpos in Hi as [Hi|[? _]]; [done|lia]. }
    assert (Hpl : p < length ss) by by eapply lookup_lt_Some.
    assert (slot ≠ mv) as Hsm.
    { intros ->. apply Hmv. by eapply list_elem_of_lookup_2. }
    rewrite list_lookup_middle by done. cbn [default].
    exists (<[p:=c]> cs). split.
    + split; cbn.
      * rewrite Hd, concat_drop_width, drop_app_length' by done. cbn [concat].
        rewrite app_nil_r, (take_ge c) by lia. rewrite splice_concat by done.
        rewrite insert_app_l by lia. rewrite concat_take_width.
        -- by rewrite take_app_length' by by rewrite length_insert.
        -- apply Forall_app. rewrite Forall_singleton. split; [by apply Forall_insert|done].
      * by apply Forall_insert.
      * rewrite insert_app_l by lia. rewrite take_app_length' by by rewrite length_insert.
        by rewrite !length_insert.
      * rewrite insert_app_l by lia. rewrite take_app_length' by by rewrite length_insert.
        by apply NoDup_insert_fresh.
      * intros s i. rewrite insert_app_l by lia.
        rewrite take_app_length' by by rewrite length_insert.
        by apply moved_positions.
    + intros s. cbn. rewrite lookup_insert, !lookup_delete, Hm. case_decide as Hs.
      { subst s. by rewrite decide_False by done. }
      case_decide as Hs'.
      * subst s. rewrite (proj2 (Hpos mv (length ss))) by by right. simpl.
        rewrite <- Hlen, list_lookup_middle by done. by rewrite list_lookup_insert_eq by lia.
      * destruct (CodeTable.positions x !! s) as [j|] eqn:Hj; [|done]. simpl.
        apply Hpos in Hj as [Hj|[_ ?]]; [|done]. rewrite list_lookup_insert_ne.
        -- apply lookup_lt_Some in Hj. by rewrite lookup_app_l by lia.
        -- intros ->. congruence.
Qed.

(** The operations on a table, and what they do to the map. *)
Inductive table_op := OpUpsert (slot : Z) (code : list N) | OpRemove (slot : Z) | OpClear.

Definition table_step (x : CodeTable.t) (op : table_op) : CodeTable.t * bool :=
  match op with
  | OpUpsert slot code => CodeTable.upsert slot code x
  | OpRemove slot => CodeTable.remove slot x
  | OpClear => (CodeTable.clear x, true)
  end.

Definition map_step (stride : nat) (m : gmap Z (list N)) (op : table_op) :
    gmap Z (list N) * bool :=
  match op with
  | OpUpsert slot code => if length code =? stride then (<[slot := code]> m, true) else (m, false)
  | OpRemove slot => (delete slot m, bool_decide (is_Some (m !! slot)))
  | OpClear => (∅, true)
  end.

Fixpoint session {S} (step : S → table_op → S * bool) (s : S) (ops : list table_op) :
    S * list bool :=
  match ops with
  | [] => (s, [])
  | op :: ops =>
      let '(s, b) := step s op in
      let '(s, bs) := session step s ops in (s, b :: bs)
  end.

Lemma empty_stands_for stride : stands_for (CodeTable.new stride) ∅.
Proof.
  exists []. split; [|done]. split; simpl; try done. constructor.
Qed.

Lemma table_step_stride op x :
  CodeTable.stride (table_step x op).1 = CodeTable.stride x.
Proof.
  destruct op; simpl; unfold CodeTable.upsert, CodeTable.remove;
    repeat case_match; simpl in *; by simplify_eq/=.
Qed.

Lemma table_step_stands_for op x m :
  stands_for x m →
  stands_for (table_step x op).1 (map_step (CodeTable.stride x) m op).1 ∧
  (table_step x op).2 = (map_step (CodeTable.stride x) m op).2.
Proof.
  intros Hx. destruct op as [slot code|slot|]; simpl.
  - destruct (upsert_stands_for slot code x m Hx) as [H1 H2]. by case_match.
  - by apply remove_stands_for.
  - split; [apply empty_stands_for|done].
Qed.

Lemma session_stands_for ops x m :
  stands_for x m →
  let s := session table_step x ops in
  let a := session (map_step (CodeTable.stride x)) m ops in
  stands_for s.1 a.1 ∧ s.2 = a.2 ∧ CodeTable.stride s.1 = CodeTable.stride x.
Proof.
  revert x m. induction ops as [|op ops IH]; intros x m Hx; simpl; [done|].
  destruct (table_step_stands_for op x m Hx) as [H1 H2].
  pose proof (table_step_stride op x) as H3.
  destruct (table_step x op) as [x' b], (map_step _ m op) as [m' b']. simpl in *. subst b'.
  specialize (IH x' m' H1). rewrite H3 in IH. simpl in IH. revert IH.
  destruct (session table_step x' ops), (session (map_step _) m' ops).
  simpl. intros (? & -> & ?). done.
Qed.

(** What a table tells of its map. *)
Lemma stands_for_elem x (m : gmap Z (list N)) codes s c :
  laid_out x codes → (∀ s, m !! s = CodeTable.positions x !! s ≫= λ i, codes !! i) →
  m !! s = Some c ↔ (c, s) ∈ zip codes (CodeTable.slots x).
Proof.
  intros Hx Hm. rewrite Hm, list_elem_of_lookup. split.
  - intros (i & Hi & Hc)%bind_Some. apply (lo_positions _ _ Hx) in Hi. exists i.
    by apply lookup_zip_Some.
  - intros (i & Hi). apply lookup_zip_with_Some in Hi as (c' & s' & [= <- <-] & Hc & Hs).
    apply (lo_positions _ _ Hx) in Hs. by rewrite Hs.
Qed.

Lemma zip_perm x (m : gmap Z (list N)) codes :
  laid_out x codes → (∀ s, m !! s = CodeTable.positions x !! s ≫= λ i, codes !! i) →
  zip codes (CodeTable.slots x) ≡ₚ (λ p, (p.2, p.1)) <$> map_to_list m.
Proof.
  intros Hx Hm. apply NoDup_Permutation.
  - apply (NoDup_fmap_1 snd). rewrite snd_zip by by rewrite (lo_length _ _ Hx).
    apply Hx.
  - apply NoDup_fmap; [intros [??] [??] [= -> ->]; done|]. apply NoDup_map_to_list.
  - intros [c s]. rewrite <- stands_for_elem by done. rewrite list_elem_of_fmap. split.
    + intros H. exists (s, c). split; [done|]. by apply elem_of_map_to_list.
    + intros ([??] & [= -> ->] & H). by apply elem_of_map_to_list in H.
Qed.

Lemma stands_for_len x m : stands_for x m → CodeTable.len x = size m.
Proof.
  intros (codes & Hx & Hm). unfold CodeTable.len.
  rewrite <- length_map_to_list, <- (length_fmap (λ p, (p.2, p.1))), <- (zip_perm x m codes) by done.
  rewrite length_zip_with, (lo_length _ _ Hx). lia.
Qed.

Lemma stands_for_contains x m s :
  stands_for x m → CodeTable.contains s x = bool_decide (is_Some (m !! s)).
Proof.
  intros (codes & Hx & Hm). unfold CodeTable.contains. rewrite Hm.
  destruct (CodeTable.positions x !! s) as [i|] eqn:Hi; [|done]. simpl.
  destruct (positions_lookup _ _ _ _ Hx Hi) as [_ Hlt].
  by destruct (lookup_lt_is_Some_2 _ _ Hlt) as [c ->].
Qed.

(** The entries of a map with their distances to a query. *)
Definition candidates (query : list N) (m : gmap Z (list N)) : list Candidate.t :=
  (λ p : Z * list N, Candidate.mk (distance query p.2) p.1) <$> map_to_list m.

Lemma scored_perm query x m :
  0 < CodeTable.stride x → stands_for x m → scored query x ≡ₚ candidates query m.
Proof.
  intros Hn (codes & Hx & Hm). unfold scored, candidates.
  rewrite (lo_data _ _ Hx), chunks_of_concat by (done || apply Hx).
  rewrite (zip_perm x m codes) by done. by rewrite <- list_fmap_compose.
Qed.

(** The contract of [select_nth_unstable_by_key]. *)
Definition selects (select_nth : nat → list Candidate.t → list Candidate.t) : Prop :=
  ∀ k l, k < length l → ∃ before x after,
    select_nth k l = before ++ x :: after ∧ length before = k ∧ before ++ x :: after ≡ₚ l ∧
    Forall (λ y, Candidate.le y x) before ∧ Forall (Candidate.le x) after.

(** Sorting the selected part gives the first of the sorted whole. *)
Lemma selected_sorted select_nth l k :
  selects select_nth → 0 < k ≤ length l →
  merge_sort Candidate.le (take k (select_nth (k - 1) l)) = take k (merge_sort Candidate.le l).
Proof.
  intros Hsel Hk. destruct (Hsel (k - 1) l) as (before & x & after & -> & Hlen & Hp & Hb & Ha); [lia|].
  assert (Htake : take k (before ++ x :: after) = before ++ [x]).
  { rewrite (cons_middle x before after), app_assoc. apply take_app_length'.
    rewrite length_app. simpl. lia. }
  rewrite Htake. set (sel := merge_sort Candidate.le (before ++ [x])).
  set (rest := merge_sort Candidate.le after).
  assert (Hs : sel ≡ₚ before ++ [x]) by apply merge_sort_Permutation.
  assert (Hr : rest ≡ₚ after) by apply merge_sort_Permutation.
  assert (merge_sort Candidate.le l = sel ++ rest) as ->.
  { apply (StronglySorted_unique Candidate.le).
    - by apply StronglySorted_merge_sort; apply _.
    - apply StronglySorted_app_2; [|apply StronglySorted_merge_sort; apply _..].
      intros y z. rewrite Hs, Hr. rewrite elem_of_app, list_elem_of_singleton.
      rewrite Forall_forall in Hb, Ha. intros [Hy| ->] Hz; [|by apply Ha].
      transitivity x; [by apply Hb|by apply Ha].
    - rewrite merge_sort_Permutation, <- Hp, Hs, Hr, <- app_assoc. done. }
  symmetry. apply take_app_length'. rewrite Hs, length_app. simpl. lia.
Qed.

Lemma nearest_exact select_nth query width x m :
  selects select_nth → 0 < CodeTable.stride x → stands_for x m →
  nearest select_nth query width x =
    if length query =? CodeTable.stride x
    then take width (merge_sort Candidate.le (candidates query m)) else [].
Proof.
  intros Hsel Hstr Hx. unfold nearest.
  pose proof (scored_perm query x m Hstr Hx) as Hp.
  assert (Hlen : length (scored query x) = CodeTable.len x).
  { rewrite Hp. unfold candidates. by rewrite length_fmap, length_map_to_list, (stands_for_len x m). }
  destruct (Nat.eqb_spec width 0) as [->|Hw]; [by destruct (length query =? _)|]. cbn [orb].
  unfold CodeTable.is_empty. fold (CodeTable.len x).
  destruct (Nat.eqb_spec (CodeTable.len x) 0) as [Hz|Hz].
  { rewrite Hz in Hlen. apply nil_length_inv in Hlen. rewrite Hlen in Hp.
    apply Permutation_nil in Hp. rewrite Hp. change (merge_sort Candidate.le []) with (@nil Candidate.t).
    rewrite take_nil. by destruct (length query =? _). }
  destruct (Nat.eqb_spec (length query) (CodeTable.stride x)); [|done]. cbn [negb orb].
  rewrite selected_sorted by (done || lia).
  assert (merge_sort Candidate.le (scored query x) = merge_sort Candidate.le (candidates query m)) as ->.
  { apply (StronglySorted_unique Candidate.le); [apply StronglySorted_merge_sort; apply _..|].
    by rewrite !merge_sort_Permutation. }
  destruct (decide (width ≤ length (scored query x))); [by rewrite Nat.min_l|].
  rewrite Nat.min_r by lia.
  assert (length (merge_sort Candidate.le (candidates query m)) = length (scored query x))
    by by rewrite merge_sort_Permutation, Hp.
  by rewrite !take_ge by lia.
Qed.

Lemma sort_selects : selects (λ _ l, merge_sort Candidate.le l).
Proof.
  intros k l Hk. set (s := merge_sort Candidate.le l).
  assert (Hp : s ≡ₚ l) by apply merge_sort_Permutation.
  assert (Hs : StronglySorted Candidate.le s) by (apply StronglySorted_merge_sort; apply _).
  destruct (lookup_lt_is_Some_2 s k) as [x Hx]; [by rewrite Hp|].
  exists (take k s), x, (drop (S k) s). rewrite take_drop_middle by done.
  split_and!; [done|rewrite length_take, Hp; lia|done|..]; apply Forall_forall; intros y Hy.
  - apply list_elem_of_lookup in Hy as [i Hi]. apply lookup_take_Some in Hi as [Hi ?].
    by eapply sorted_lookup_lt.
  - apply list_elem_of_lookup in Hy as [i Hi]. rewrite lookup_drop in Hi.
    eapply sorted_lookup_lt; [done| |done|done]. lia.
Qed.

(** ** What fusing computes *)

Abbreviation occurrence := (Z * LaneRank.t)%type.

Fixpoint lane_occurrences (lane : nat) (rank : N) (ranked : list Z) : list occurrence :=
  match ranked with
  | [] => []
  | slot :: ranked => (slot, LaneRank.mk lane rank) :: lane_occurrences lane (rank + 1) ranked
  end.

(** Every appearance of every slot, lane by lane and rank by rank. *)
Fixpoint occurrences (lane : nat) (lanes : list (list Z)) : list occurrence :=
  match lanes with
  | [] => []
  | ranked :: lanes => lane_occurrences lane 1 ranked ++ occurrences (S lane) lanes
  end.

Definition ranks_of (slot : Z) (os : list occurrence) : list LaneRank.t :=
  snd <$> filter (λ o, o.1 = slot) os.

Definition total (rs : list LaneRank.t) : N :=
  foldr (λ r acc, (contribution (LaneRank.rank r) + acc)%N) 0%N rs.

Lemma total_snoc rs r : total (rs ++ [r]) = (total rs + contribution (LaneRank.rank r))%N.
Proof. induction rs as [|x rs IH]; simpl; [lia|]. rewrite IH. lia. Qed.

Definition fuse_occurrence (s : list Fused.t * gmap Z nat) (o : occurrence) :=
  fuse_one (LaneRank.lane o.2) (LaneRank.rank o.2) o.1 s.

Lemma fuse_lane_fold lane rank ranked s :
  fuse_lane lane rank ranked s = foldl fuse_occurrence s (lane_occurrences lane rank ranked).
Proof. revert rank s. induction ranked as [|slot ranked IH]; intros rank s; simpl; auto. Qed.

Lemma fuse_lanes_fold lane lanes s :
  fuse_lanes lane lanes s = foldl fuse_occurrence s (occurrences lane lanes).
Proof.
  revert lane s. induction lanes as [|ranked lanes IH]; intros lane s; simpl; [done|].
  by rewrite IH, fuse_lane_fold, foldl_app.
Qed.

(** The state of [fuse] after the appearances [os]. *)
Record fusing (os : list occurrence) (s : list Fused.t * gmap Z nat) : Prop := {
  fu_nodup : NoDup (Fused.slot <$> s.1);
  fu_seen slot i : s.2 !! slot = Some i ↔ (Fused.slot <$> s.1) !! i = Some slot;
  fu_slots slot : slot ∈ Fused.slot <$> s.1 ↔ slot ∈ os.*1;
  fu_entry f : f ∈ s.1 →
    Fused.lanes f = ranks_of (Fused.slot f) os ∧ Fused.score f = total (Fused.lanes f);
}.

Lemma ranks_of_snoc slot os o :
  ranks_of slot (os ++ [o]) = ranks_of slot os ++ (if decide (o.1 = slot) then [o.2] else []).
Proof.
  unfold ranks_of. rewrite filter_app, fmap_app. f_equal.
  destruct (decide (o.1 = slot)); [by rewrite filter_cons_True|by rewrite filter_cons_False].
Qed.

Lemma ranks_of_absent slot os : slot ∉ os.*1 → ranks_of slot os = [].
Proof.
  intros Hs. unfold ranks_of. induction os as [|o os IH]; [done|].
  rewrite filter_cons_False, IH; set_solver.
Qed.

(** The entry of a slot met before grows. *)
Lemma fusing_seen os fused seen slot r p :
  fusing os (fused, seen) → seen !! slot = Some p →
  fusing (os ++ [(slot, r)]) (fuse_occurrence (fused, seen) (slot, r)).
Proof.
  intros [Hn Hse Hsl He] Hp. destruct r as [lane rank].
  unfold fuse_occurrence, fuse_one. cbn [fst snd LaneRank.lane LaneRank.rank] in *. rewrite Hp.
  set (grow := λ f, Fused.mk (Fused.slot f) (Fused.score f + contribution rank)
    (Fused.lanes f ++ [LaneRank.mk lane rank])).
  assert (Hin : slot ∈ Fused.slot <$> fused) by (apply Hse in Hp; by eapply list_elem_of_lookup_2).
  assert (Hsame : Fused.slot <$> alter grow p fused = Fused.slot <$> fused).
  { apply list_eq. intros i. rewrite !list_lookup_fmap.
    destruct (decide (p = i)) as [->|]; [rewrite list_lookup_alter_eq|by rewrite list_lookup_alter_ne].
    by destruct (fused !! i). }
  split; cbn [fst snd]; rewrite ?Hsame; try done.
  - intros slot'. rewrite Hsl, fmap_app. cbn. rewrite elem_of_app, list_elem_of_singleton.
    split; [by left|]. intros [?| ->]; [done|by apply Hsl].
  - intros f Hf. rewrite ranks_of_snoc. cbn [fst snd].
    apply list_elem_of_lookup in Hf as [i Hi]. apply Hse in Hp.
    destruct (decide (p = i)) as [<-|Hne].
    + rewrite list_lookup_alter_eq in Hi. apply fmap_Some in Hi as (g & Hg & ->). simpl.
      rewrite list_lookup_fmap, Hg in Hp. injection Hp as Hp.
      destruct (He g) as [H1 H2]; [by eapply list_elem_of_lookup_2|].
      rewrite decide_True by done. rewrite H1 in *. by rewrite total_snoc, <- H2.
    + rewrite list_lookup_alter_ne in Hi by done. rewrite decide_False.
      * rewrite app_nil_r. apply He. by eapply list_elem_of_lookup_2.
      * intros ->. apply Hne. eapply NoDup_lookup; [exact Hn|exact Hp|].
        by rewrite list_lookup_fmap, Hi.
Qed.

(** A slot met for the first time gets an entry. *)
Lemma fusing_fresh os fused seen slot r :
  fusing os (fused, seen) → seen !! slot = None →
  fusing (os ++ [(slot, r)]) (fuse_occurrence (fused, seen) (slot, r)).
Proof.
  intros [Hn Hse Hsl He] Hp. destruct r as [lane rank].
  unfold fuse_occurrence, fuse_one. cbn [fst snd LaneRank.lane LaneRank.rank] in *. rewrite Hp.
  assert (Hout : slot ∉ Fused.slot <$> fused).
  { intros Hin. apply list_elem_of_lookup in Hin as [i Hi]. apply Hse in Hi. congruence. }
  split; cbn [fst snd]; rewrite ?fmap_app; cbn [fmap list_fmap Fused.slot fst].
  - apply NoDup_app. split_and!; [done|set_solver|apply NoDup_singleton].
  - intros slot' i. rewrite lookup_insert, lookup_snoc_Some, length_fmap. case_decide as Hs.
    + subst slot'. split; [intros [= <-]; by right|]. intros [[_ Hi]|[-> _]]; [|done].
      by apply list_elem_of_lookup_2 in Hi.
    + rewrite Hse. split; [|naive_solver]. intros Hi. left. split; [|done].
      apply lookup_lt_Some in Hi. by rewrite length_fmap in Hi.
  - intros slot'. rewrite !elem_of_app, Hsl. done.
  - intros f. rewrite ranks_of_snoc, elem_of_app, list_elem_of_singleton. cbn [fst snd].
    intros [Hf| ->].
    + rewrite decide_False, app_nil_r; [by apply He|]. intros ->. apply Hout.
      apply list_elem_of_fmap. by exists f.
    + cbn [Fused.slot Fused.lanes Fused.score]. rewrite decide_True by done.
      rewrite ranks_of_absent by by rewrite <- Hsl. split; [done|]. simpl. lia.
Qed.

Lemma fusing_step os s o : fusing os s → fusing (os ++ [o]) (fuse_occurrence s o).
Proof.
  destruct s as [fused seen], o as [slot r]. intros Hs.
  destruct (seen !! slot) eqn:Hp; [by eapply fusing_seen|by apply fusing_fresh].
Qed.

Lemma fusing_all os os' s : fusing os s → fusing (os ++ os') (foldl fuse_occurrence s os').
Proof.
  revert os s. induction os' as [|o os' IH]; intros os s Hs; simpl; [by rewrite app_nil_r|].
  rewrite (cons_middle o os os'), app_assoc. by apply IH, fusing_step.
Qed.

Lemma fusing_lanes lanes : fusing (occurrences 0 lanes) (fuse_lanes 0 lanes ([], ∅)).
Proof.
  rewrite fuse_lanes_fold. apply (fusing_all []). split; simpl.
  - constructor.
  - intros slot i. by rewrite lookup_empty, lookup_nil.
  - done.
  - by intros f ?%not_elem_of_nil.
Qed.

(** Below the depth the scale was chosen for, a better rank weighs strictly more. *)
Lemma contribution_strict r r' :
  (0 < r)%N → (r < r')%N → (r' ≤ MAX_FUSION_DEPTH)%N → (contribution r' < contribution r)%N.
Proof.
  unfold contribution, RRF_SCALE, RRF_K, MAX_FUSION_DEPTH. intros H0 H1 H2.
  assert (Hr : r' = (r + 1)%N ∨ (r + 1 < r')%N) by lia.
  enough (Hs : (10000000 `div` (60 + (r + 1)) < 10000000 `div` (60 + r))%N).
  { eapply N.le_lt_trans; [|exact Hs]. apply N.div_le_compat_l. lia. }
  set (a := (60 + r)%N). replace (60 + (r + 1))%N with (a + 1)%N by lia.
  apply N.Div0.div_lt_upper_bound.
  pose proof (N.div_mod 10000000 a ltac:(lia)). pose proof (N.mod_lt 10000000 a ltac:(lia)).
  assert (a ≤ 10000000 `div` a)%N by (apply N.div_le_lower_bound; nia). lia.
Qed.

(** A lane without repetition appends its slots as they come. *)
Lemma fuse_lane_fresh lane rank ranked fused seen :
  NoDup ranked → (∀ slot, slot ∈ ranked → seen !! slot = None) →
  (fuse_lane lane rank ranked (fused, seen)).1 =
    fused ++ ((λ o, Fused.mk o.1 (contribution (LaneRank.rank o.2)) [o.2]) <$>
                lane_occurrences lane rank ranked).
Proof.
  revert rank fused seen. induction ranked as [|slot ranked IH]; intros rank fused seen Hn Hs.
  { by rewrite app_nil_r. }
  apply NoDup_cons in Hn as [Hx Hn]. simpl. rewrite (Hs slot) by set_solver.
  rewrite IH; [by rewrite <- app_assoc|done|]. intros slot' Hin.
  rewrite lookup_insert_ne by set_solver. apply Hs. set_solver.
Qed.

Lemma lane_occurrences_slots lane rank ranked : (lane_occurrences lane rank ranked).*1 = ranked.
Proof. revert rank. induction ranked as [|s l IH]; intros rank; simpl; [done|]. by rewrite IH. Qed.

Lemma lane_occurrences_bounds lane rank ranked o :
  o ∈ lane_occurrences lane rank ranked →
  (rank ≤ LaneRank.rank o.2 < rank + N.of_nat (length ranked))%N.
Proof.
  revert rank. induction ranked as [|s l IH]; intros rank; simpl.
  { intros H. by apply not_elem_of_nil in H. }
  intros [->|Ho]%elem_of_cons; simpl; [lia|]. apply IH in Ho. lia.
Qed.

(** One lane that is not too deep keeps its order. *)
Lemma fuse_one_lane ranked :
  NoDup ranked → (N.of_nat (length ranked) ≤ MAX_FUSION_DEPTH)%N →
  Fused.slot <$> fuse [ranked] = ranked.
Proof.
  intros Hn Hlen. unfold fuse. simpl. rewrite fuse_lane_fresh by done. rewrite app_nil_l.
  set (entry := λ o : occurrence, Fused.mk o.1 (contribution (LaneRank.rank o.2)) [o.2]).
  assert (Hs : ∀ rank l, (0 < rank)%N → (rank + N.of_nat (length l) ≤ MAX_FUSION_DEPTH + 1)%N →
    StronglySorted (λ a b, Fused.score b < Fused.score a)%N (entry <$> lane_occurrences 0 rank l)).
  { intros rank l. revert rank. induction l as [|slot l IH]; intros rank H0 Hr; cbn; [constructor|].
    simpl in Hr. constructor; [apply IH; lia|]. apply Forall_forall.
    intros f (o & -> & Ho)%list_elem_of_fmap. apply lane_occurrences_bounds in Ho. simpl.
    apply contribution_strict; lia. }
  specialize (Hs 1%N ranked ltac:(lia) ltac:(lia)).
  assert (merge_sort Fused.le (entry <$> lane_occurrences 0 1 ranked) =
          entry <$> lane_occurrences 0 1 ranked) as ->.
  { symmetry. apply (StronglySorted_unique_strong Fused.le).
    - intros f g Hf Hg. rewrite merge_sort_Permutation in Hg.
      apply list_elem_of_lookup in Hf as [i Hi], Hg as [j Hj]. unfold Fused.le.
      destruct (Nat.lt_trichotomy i j) as [H|[->|H]]; [|congruence|];
        pose proof (sorted_lookup_lt _ _ _ _ _ _ Hs H ltac:(done) ltac:(done)) as Hlt;
        cbn beta in Hlt; lia.
    - clear -Hs. induction Hs as [|f l _ IH Hf]; constructor; [done|].
      eapply Forall_impl; [exact Hf|]. intros g H. by left.
    - apply StronglySorted_merge_sort; apply _.
    - by rewrite merge_sort_Permutation. }
  rewrite <- list_fmap_compose. apply lane_occurrences_slots.
Qed.

(** ** Theorems *)

(** The code table is a map from slots to codes.  Whatever sequence of
    [upsert], [remove] and [clear] is applied to a new table, the returned flags,
    [len], [contains] and [nearest] are those of the map the sequence builds:
    swap-removal, in-place overwriting and the position index never mix two slots'
    codes up, and [nearest] gives the [width] entries of the map closest to the
    query, by distance and then slot, provided the standard library's selection
    keeps its contract.  A query of another width matches nothing. *)
Theorem code_table_refines select_nth stride ops query width :
  0 < stride → selects select_nth →
  let s := session table_step (CodeTable.new stride) ops in
  let a := session (map_step stride) ∅ ops in
  s.2 = a.2 ∧ CodeTable.len s.1 = size a.1 ∧
  (∀ slot, CodeTable.contains slot s.1 = bool_decide (is_Some (a.1 !! slot))) ∧
  nearest select_nth query width s.1 =
    if length query =? stride
    then take width (merge_sort Candidate.le (candidates query a.1)) else [].
Proof.
  intros Hstr Hsel s a.
  destruct (session_stands_for ops _ _ (empty_stands_for stride)) as (H1 & H2 & H3).
  change (CodeTable.stride (CodeTable.new stride)) with stride in *. fold s a in H1, H2, H3.
  split_and!; [done|by apply stands_for_len|by intros; apply stands_for_contains|].
  rewrite (nearest_exact select_nth query width s.1 a.1) by (rewrite ?H3; done). by rewrite H3.
Qed.

Example code_table_refines_witness :
  let ops := [OpUpsert 7 [1; 2]%N; OpUpsert 8 [3; 2]%N; OpUpsert 9 [255; 0]%N; OpUpsert 1 [0]%N;
              OpRemove 7; OpRemove 7; OpUpsert 9 [3; 3]%N] in
  let s := session table_step (CodeTable.new 2) ops in
  s.2 = [true; true; true; false; true; false; true] ∧
  nearest (λ _ l, merge_sort Candidate.le l) [3; 3]%N 1 s.1 = [Candidate.mk 0 9] ∧
  s.2 = (session (map_step 2) ∅ ops).2.
Proof.
  split_and!; [vm_compute; reflexivity|vm_compute; reflexivity|].
  apply (code_table_refines (λ _ l, merge_sort Candidate.le l) 2 _ [] 0);
    [lia|exact sort_selects].
Defined.

(** Rank fusion counts every appearance once.  [fuse] lists each slot of any
    lane exactly once, with its appearances in lane and rank order and the sum of
    their contributions as its score, best score first and smaller slot first
    among equals.  Up to [MAX_FUSION_DEPTH] a better rank contributes strictly
    more, so a single lane without repetition comes back in its own order. *)
Theorem fuse_exact lanes ranked r r' :
  NoDup ranked → (N.of_nat (length ranked) ≤ MAX_FUSION_DEPTH)%N →
  (0 < r)%N → (r < r')%N → (r' ≤ MAX_FUSION_DEPTH)%N →
  NoDup (Fused.slot <$> fuse lanes) ∧
  (∀ slot, slot ∈ Fused.slot <$> fuse lanes ↔ ∃ lane, lane ∈ lanes ∧ slot ∈ lane) ∧
  (∀ f, f ∈ fuse lanes →
     Fused.lanes f = ranks_of (Fused.slot f) (occurrences 0 lanes) ∧
     Fused.score f = total (Fused.lanes f)) ∧
  StronglySorted Fused.le (fuse lanes) ∧
  (contribution r' < contribution r)%N ∧
  Fused.slot <$> fuse [ranked] = ranked.
Proof.
  intros Hn Hlen H0 H1 H2. pose proof (fusing_lanes lanes) as [Hnd _ Hsl He].
  assert (Hp : fuse lanes ≡ₚ (fuse_lanes 0 lanes ([], ∅)).1) by apply merge_sort_Permutation.
  split_and!.
  - by rewrite Hp.
  - intros slot. rewrite Hp, Hsl. clear. generalize 0 at 1. induction lanes as [|l lanes IH]; intros n.
    + simpl. set_solver.
    + simpl. rewrite fmap_app, elem_of_app, lane_occurrences_slots, IH. set_solver.
  - intros f Hf. apply He. by rewrite <- Hp.
  - apply StronglySorted_merge_sort; apply _.
  - by apply contribution_strict.
  - by apply fuse_one_lane.
Qed.

Example fuse_exact_witness :
  fuse [[5; 6]; [6; 7]]%Z =
    [Fused.mk 6 (RRF_SCALE `div` 62 + RRF_SCALE `div` 61) [LaneRank.mk 0 2; LaneRank.mk 1 1];
     Fused.mk 5 (RRF_SCALE `div` 61) [LaneRank.mk 0 1];
     Fused.mk 7 (RRF_SCALE `div` 62) [LaneRank.mk 1 2]] ∧
  StronglySorted Fused.le (fuse [[5; 6]; [6; 7]]%Z).
Proof.
  split; [vm_compute; reflexivity|].
  apply (fuse_exact _ [5; 6]%Z 1 2); try (vm_compute; done).
  apply NoDup_cons. split; [set_solver|apply NoDup_singleton].
Defined.

(** The distance of two codes is the number of dimensions on which their
    vectors disagree with the threshold, whatever the width: the word loop, the
    byte remainder and the padding bits of the last byte add nothing and drop
    nothing. *)
Theorem code_distance_exact {F} (gt : F → F → bool) v w threshold a b :
  encode gt v threshold = Ok a → encode gt w threshold = Ok b →
  length a = div_ceil (length threshold) 8 ∧
  distance a b = disagreements gt v w threshold.
Proof.
  intros Ha Hb. split; [|by eapply encode_distance].
  by destruct (encode_spec gt _ _ _ Ha) as (<- & -> & _).
Qed.

Example code_distance_exact_witness :
  ∃ a b, encode Z.gtb [1; 0; 2; 0; 0; 0; 0; 0; 9]%Z (replicate 9 0%Z) = Ok a ∧
    encode Z.gtb [1; 1; 0; 0; 0; 0; 0; 0; 0]%Z (replicate 9 0%Z) = Ok b ∧
    distance a b = 3 ∧
    distance a b = disagreements Z.gtb [1; 0; 2; 0; 0; 0; 0; 0; 9]%Z [1; 1; 0; 0; 0; 0; 0; 0; 0]%Z
                     (replicate 9 0%Z).
Proof.
  exists [5; 1]%N, [3; 0]%N.
  split_and!; [vm_compute; reflexivity..|].
  apply (code_distance_exact Z.gtb _ _ (replicate 9 0%Z)); vm_compute; reflexivity.
Defined.
