(* ===== verification/Config.v ===== *)
(** * Configuration: [crates/supra_config]

    Layers and their validation ([layer.rs]), precedence ([source.rs],
    [resolve.rs]), the environment's layer and the loader ([lib.rs]), and the
    reading of the two files ([discover.rs]).  Text is its UTF-8 bytes.  The TOML
    parser, the parsing of an IP address and the secret store are parameters; what
    every call to the file system answers is an argument.  Of an error's prose only
    the fields that name something are kept. *)

From Stdlib Require Import Ascii.
From S2P Require Import Prelude Text Sealing Utf8 Cohort Permission Canonical FileSystem.

(** ** Sources: [source.rs] *)

Inductive ConfigSource := Builtin | User | Project | Env | Cli | Session.

#[export] Instance ConfigSource_eq_dec : EqDecision ConfigSource.
Proof. solve_decision. Defined.

Module ConfigSource.
Definition ALL : list ConfigSource := [Builtin; User; Project; Env; Cli; Session].

(** The derived [Ord]: ascending precedence. *)
Definition ord (s : ConfigSource) : nat :=
  match s with Builtin => 0 | User => 1 | Project => 2 | Env => 3 | Cli => 4 | Session => 5 end.

Definition label (s : ConfigSource) : string :=
  match s with
  | Builtin => "builtin" | User => "user" | Project => "project"
  | Env => "env" | Cli => "cli" | Session => "session"
  end.

Definition is_operator_controlled (s : ConfigSource) : bool := negb (bool_decide (s = Project)).

Definition corresponding_rule_source (s : ConfigSource) : option RuleSource.t :=
  match s with
  | Builtin => Some RuleSource.Builtin
  | User => Some RuleSource.User
  | Project => Some RuleSource.Project
  | Env => None
  | Cli => Some RuleSource.Cli
  | Session => Some RuleSource.Session
  end.
End ConfigSource.

(** ** Errors: [error.rs] *)

Inductive ConfigError :=
| Unreadable (layer : ConfigSource) (path : string)
| NotARegularFile (layer : ConfigSource) (path : string)
| TooPermissive (layer : ConfigSource) (path : string) (mode : N)
| Invalid (layer : ConfigSource) (path : string) (detail : list byte)
| InvalidEnv (variable : list byte)
| OutOfRange (layer : ConfigSource) (setting : string) (value low high : N)
| Rejected (layer : ConfigSource) (setting value : list byte)
| NotPermittedFromLayer (layer : ConfigSource) (setting : string)
| MissingCredential (provider : list byte).

#[export] Instance ConfigError_eq_dec : EqDecision ConfigError.
Proof. solve_decision. Defined.

Module ConfigError.
Definition layer (e : ConfigError) : option ConfigSource :=
  match e with
  | Unreadable layer _ | NotARegularFile layer _ | TooPermissive layer _ _ | Invalid layer _ _
  | OutOfRange layer _ _ _ _ | Rejected layer _ _ | NotPermittedFromLayer layer _ => Some layer
  | InvalidEnv _ => Some Env
  | MissingCredential _ => None
  end.

Definition path (e : ConfigError) : option string :=
  match e with
  | Unreadable _ path | NotARegularFile _ path | TooPermissive _ path _ | Invalid _ path _ => Some path
  | _ => None
  end.
End ConfigError.

(** ** Layers: [layer.rs] *)

Definition MIN_COMPACTION_THRESHOLD_PERCENT : N := 92.
Definition MAX_COMPACTION_THRESHOLD_PERCENT : N := 95.

(** [ModeSetting] is its mode; this is its [TryFrom<String>]. *)
Definition mode_setting (text : list byte) : option Mode :=
  List.find (λ mode, bool_decide (bytes (Mode.label mode) = text)) Mode.ALL.

Record ThinkingLayer := mkThinking { budget : option N }.
Record CohortLayer := mkCohort { limit : option N }.
Record PermissionLayer := mkPermission { mode : option Mode }.
Record PromptLayer := mkPrompt { compaction_threshold_percent : option N }.

(** [api_key] and [auth_token] exist to be refused: [NoLiteralCredential] is a unit. *)
Record ProviderLayer := mkProviderLayer {
  pl_endpoint : option (list byte);
  pl_model : option (list byte);
  pl_api_key_env : option (list byte);
  pl_api_key_keyring : option (list byte);
  pl_api_key : option unit;
  pl_auth_token : option unit;
}.

Module ConfigLayer.
Record t := mk {
  thinking : option ThinkingLayer;
  cohort : option CohortLayer;
  permission : option PermissionLayer;
  prompt : option PromptLayer;
  providers : option (gmap (list byte) ProviderLayer);
}.

Definition default : t := mk None None None None None.
End ConfigLayer.

(** What a layer says about each scalar setting. *)
Definition said_budget (l : ConfigLayer.t) : option N := ConfigLayer.thinking l ≫= budget.
Definition said_limit (l : ConfigLayer.t) : option N := ConfigLayer.cohort l ≫= limit.
Definition said_mode (l : ConfigLayer.t) : option Mode := ConfigLayer.permission l ≫= mode.
Definition said_threshold (l : ConfigLayer.t) : option N :=
  ConfigLayer.prompt l ≫= compaction_threshold_percent.

(** The ellipsis. *)
Definition ellipsis : list byte := ascii_of_N <$> [226; 128; 166]%N.

Definition KEEP : nat := 4.

Definition redact (value : list byte) : list byte :=
  let total := length (chars value) in
  if total <=? KEEP then ellipsis
  else concat (take KEEP (chars value)) ++ ellipsis ++ bytes " (" ++ dec (N.of_nat total) ++
       bytes " characters)".

Definition is_ascii_uppercase (c : byte) : bool :=
  (65 <=? N_of_ascii c)%N && (N_of_ascii c <=? 90)%N.

Definition underscore : byte := "_".

Definition shaped_env_name (value : list byte) : bool :=
  match value with
  | [] => false
  | first :: _ =>
      (is_ascii_uppercase first || bool_decide (first = underscore)) &&
      forallb (λ c, is_ascii_uppercase c || is_digit c || bool_decide (c = underscore)) value
  end.

Definition check_env_var_name (layer : ConfigSource) (setting value : list byte) :
    result unit ConfigError :=
  if shaped_env_name value then Ok tt else Err (Rejected layer setting (redact value)).

Definition char_is (c d : byte) : bool := bool_decide (c = d).

Definition ends_authority (c : byte) : bool := char_is "/" c || char_is "?" c || char_is "#" c.

(** The authority of what follows [http://]. *)
Definition authority_of (rest : list byte) : list byte :=
  default [] (head (split_on ends_authority rest)).

Definition port_is_well_formed (after_close : list byte) : bool :=
  match strip_prefix [":"%char] after_close with
  | Some port => negb (bool_decide (port = [])) && forallb is_digit port
  | None => bool_decide (after_close = [])
  end.

Definition authority_host (rest : list byte) : list byte :=
  let authority := authority_of rest in
  if existsb (char_is "@") authority then []
  else match strip_prefix ["["%char] authority with
  | Some after_bracket =>
      match position "]"%char after_bracket with
      | None => []
      | Some close =>
          if port_is_well_formed (drop (S close) after_bracket) then take close after_bracket
          else []
      end
  | None => default [] (head (split_on (char_is ":") authority))
  end.

Section layer.
(** [host.parse::<IpAddr>().is_ok_and(|a| a.is_loopback())]. *)
Context (ip_is_loopback : list byte → bool).

Definition is_loopback_authority (host : list byte) : bool :=
  bool_decide (lower <$> host = bytes "localhost") || ip_is_loopback host.

Definition check_endpoint (layer : ConfigSource) (setting value : list byte) :
    result unit ConfigError :=
  match strip_prefix (bytes "https://") value with
  | Some rest =>
      if bool_decide (rest = []) then Err (Rejected layer setting value) else Ok tt
  | None =>
      match strip_prefix (bytes "http://") value with
      | Some rest =>
          if is_loopback_authority (authority_host rest) then Ok tt
          else Err (Rejected layer setting value)
      | None => Err (Rejected layer setting value)
      end
  end.

Definition validate_cohort (layer : ConfigSource) (l : ConfigLayer.t) : result unit ConfigError :=
  match said_limit l with
  | None => Ok tt
  | Some limit =>
      if (1 <=? limit)%N && (limit <=? N.of_nat PEER_CEILING)%N then Ok tt
      else Err (OutOfRange layer "cohort.limit" limit 1 (N.of_nat PEER_CEILING))
  end.

Definition validate_prompt (layer : ConfigSource) (l : ConfigLayer.t) : result unit ConfigError :=
  match said_threshold l with
  | None => Ok tt
  | Some threshold =>
      if (MIN_COMPACTION_THRESHOLD_PERCENT <=? threshold)%N &&
         (threshold <=? MAX_COMPACTION_THRESHOLD_PERCENT)%N then Ok tt
      else Err (OutOfRange layer "prompt.compaction_threshold_percent" threshold
                  MIN_COMPACTION_THRESHOLD_PERCENT MAX_COMPACTION_THRESHOLD_PERCENT)
  end.

Definition validate_provider_name (layer : ConfigSource) (name : list byte) :
    result unit ConfigError :=
  if bool_decide (name = []) then Err (Rejected layer (bytes "providers") [quote_mark; quote_mark])
  else if existsb is_white (chars name)
  then Err (Rejected layer (bytes "providers." ++ name) name)
  else Ok tt.

Definition validate_provider (layer : ConfigSource) (name : list byte) (p : ProviderLayer) :
    result unit ConfigError :=
  let setting := bytes "providers." ++ name in
  if bool_decide (is_Some (pl_api_key_env p)) && bool_decide (is_Some (pl_api_key_keyring p))
  then Err (Rejected layer setting (bytes "api_key_env + api_key_keyring"))
  else
    let? _ := match pl_api_key_env p with
      | Some variable => check_env_var_name layer (setting ++ bytes ".api_key_env") variable
      | None => Ok tt
      end in
    let? _ := match pl_api_key_keyring p with
      | Some entry =>
          if is_blank entry then Err (Rejected layer (setting ++ bytes ".api_key_keyring") (redact entry))
          else Ok tt
      | None => Ok tt
      end in
    let? _ := match pl_endpoint p with
      | Some endpoint => check_endpoint layer (setting ++ bytes ".endpoint") endpoint
      | None => Ok tt
      end in
    match pl_model p with
    | Some model =>
        if is_blank model then Err (Rejected layer (setting ++ bytes ".model") model) else Ok tt
    | None => Ok tt
    end.

(** The loop of [validate_providers], in the order of the map's keys. *)
Fixpoint validate_entries (layer : ConfigSource) (entries : list (list byte * ProviderLayer)) :
    result unit ConfigError :=
  match entries with
  | [] => Ok tt
  | (name, provider) :: entries =>
      let? _ := validate_provider_name layer name in
      let? _ := validate_provider layer name provider in
      validate_entries layer entries
  end.

Definition validate_providers (layer : ConfigSource) (l : ConfigLayer.t) : result unit ConfigError :=
  match ConfigLayer.providers l with
  | None => Ok tt
  | Some providers =>
      if negb (ConfigSource.is_operator_controlled layer)
      then Err (NotPermittedFromLayer layer "providers")
      else validate_entries layer (merge_sort key_le (map_to_list providers))
  end.

Definition validate (layer : ConfigSource) (l : ConfigLayer.t) : result unit ConfigError :=
  let? _ := validate_cohort layer l in
  let? _ := validate_prompt layer l in
  let? _ := validate_providers layer l in
  Ok tt.
End layer.

(** *** Describing a parser's error without quoting the file *)

Definition INVALID_TYPE : list byte := bytes "invalid type:".

Definition strip_deserialized_value (message : list byte) : list byte :=
  match find_sub INVALID_TYPE message with
  | None => message
  | Some marker =>
      let after := drop marker message in
      match position quote_mark after with
      | None => message
      | Some open =>
          let value_end := drop (S open) after in
          match position quote_mark value_end with
          | None => message
          | Some close =>
              take marker message ++ bytes "invalid type: <redacted>" ++ drop (S close) value_end
          end
      end
  end.

Definition newline : byte := "010".

(** [None] past the end or inside a character. *)
Definition line_and_column (text : list byte) (offset : nat) : option (nat * nat) :=
  if (offset <=? length text) && at_boundary (drop offset text) then
    let prefix := take offset text in
    let line := length (List.filter (char_is newline) prefix) + 1 in
    let column := length (chars (default [] (last (split_on (char_is newline) prefix)))) + 1 in
    Some (line, column)
  else None.

(** What the TOML parser says of an error. *)
Record TomlError := mkTomlError { message : list byte; span_start : option nat }.

Definition describe_toml_error (text : list byte) (error : TomlError) : list byte :=
  let message := strip_deserialized_value (message error) in
  match span_start error with
  | None => message
  | Some start =>
      match line_and_column text start with
      | None => message
      | Some (line, column) =>
          bytes "line " ++ dec (N.of_nat line) ++ bytes ", column " ++ dec (N.of_nat column) ++
          bytes ": " ++ message
      end
  end.

(** ** Precedence: [resolve.rs] *)

Definition DEFAULT_THINKING_BUDGET : N := 0.
Definition DEFAULT_COMPACTION_THRESHOLD_PERCENT : N := 93.

Inductive Setting := ThinkingBudget | CohortLimit | PermissionMode | CompactionThresholdPercent.

#[export] Instance Setting_eq_dec : EqDecision Setting.
Proof. solve_decision. Defined.

Module Setting.
Definition ALL : list Setting :=
  [ThinkingBudget; CohortLimit; PermissionMode; CompactionThresholdPercent].

Definition path (s : Setting) : string :=
  match s with
  | ThinkingBudget => "thinking.budget"
  | CohortLimit => "cohort.limit"
  | PermissionMode => "permission.mode"
  | CompactionThresholdPercent => "prompt.compaction_threshold_percent"
  end.
End Setting.

Record Provider := mkProvider {
  endpoint : option (list byte);
  model : option (list byte);
  api_key_env : option (list byte);
  api_key_keyring : option (list byte);
}.

Module Config.
Record t := mk {
  thinking_budget : N;
  cohort_limit : N;
  permission_mode : Mode;
  compaction_threshold_percent : N;
  providers : gmap (list byte) Provider;
  scalar_sources : list (Setting * ConfigSource);
  provider_sources : gmap (list byte) ConfigSource;
}.

Definition source_of (setting : Setting) (c : t) : ConfigSource :=
  default Builtin (snd <$> List.find (λ p, bool_decide (p.1 = setting)) (scalar_sources c)).

Definition provider_source (name : list byte) (c : t) : option ConfigSource :=
  provider_sources c !! name.
End Config.

Definition strictness (mode : Mode) : nat :=
  match position mode Mode.ALL with
  | None => 0
  | Some index => length Mode.ALL - 1 - index
  end.

(** [Mode::default()]. *)
Definition default_mode : Mode := Auto.

(** The variables the loops of [resolve] fill. *)
Module Resolving.
Record t := mk {
  thinking_budget : N * ConfigSource;
  cohort_limit : N * ConfigSource;
  permission_mode : Mode * ConfigSource;
  threshold : N * ConfigSource;
  providers : gmap (list byte) Provider;
  provider_sources : gmap (list byte) ConfigSource;
}.

Definition start : t :=
  mk (DEFAULT_THINKING_BUDGET, Builtin) (N.of_nat DEFAULT_PEER_LIMIT, Builtin) (default_mode, Builtin)
    (DEFAULT_COMPACTION_THRESHOLD_PERCENT, Builtin) ∅ ∅.
End Resolving.

Abbreviation entry := (ConfigSource * ConfigLayer.t)%type.

(** [if let Some(v) = said { slot = (v, source) }]. *)
Definition overwrite {A} (said : option A) (source : ConfigSource) (slot : A * ConfigSource) :
    A * ConfigSource :=
  match said with Some v => (v, source) | None => slot end.

Definition provider_of (p : ProviderLayer) : Provider :=
  mkProvider (pl_endpoint p) (pl_model p) (pl_api_key_env p) (pl_api_key_keyring p).

(** One round of the first loop. *)
Definition apply_layer (r : Resolving.t) (e : entry) : Resolving.t :=
  let '(source, layer) := e in
  let entries := default ∅ (ConfigLayer.providers layer) in
  Resolving.mk
    (overwrite (said_budget layer) source (Resolving.thinking_budget r))
    (overwrite (said_limit layer) source (Resolving.cohort_limit r))
    (if ConfigSource.is_operator_controlled source
     then overwrite (said_mode layer) source (Resolving.permission_mode r)
     else Resolving.permission_mode r)
    (overwrite (said_threshold layer) source (Resolving.threshold r))
    (foldl (λ m p, <[p.1 := provider_of p.2]> m) (Resolving.providers r) (map_to_list entries))
    (foldl (λ m p, <[p.1 := source]> m) (Resolving.provider_sources r) (map_to_list entries)).

(** One round of the second loop. *)
Definition tighten (mode : Mode * ConfigSource) (e : entry) : Mode * ConfigSource :=
  let '(source, layer) := e in
  if ConfigSource.is_operator_controlled source then mode
  else match said_mode layer with
  | Some requested => if strictness mode.1 <? strictness requested then (requested, source) else mode
  | None => mode
  end.

Definition source_le (p q : entry) : Prop := ConfigSource.ord p.1 ≤ ConfigSource.ord q.1.

#[export] Instance source_le_dec p q : base.Decision (source_le p q).
Proof. unfold source_le. apply _. Defined.

Definition resolve (layers : list entry) : Config.t :=
  let ordered := merge_sort source_le layers in
  let r := foldl apply_layer Resolving.start ordered in
  let permission_mode := foldl tighten (Resolving.permission_mode r) ordered in
  Config.mk (Resolving.thinking_budget r).1 (Resolving.cohort_limit r).1 permission_mode.1
    (Resolving.threshold r).1 (Resolving.providers r)
    [(ThinkingBudget, (Resolving.thinking_budget r).2);
     (CohortLimit, (Resolving.cohort_limit r).2);
     (PermissionMode, permission_mode.2);
     (CompactionThresholdPercent, (Resolving.threshold r).2)]
    (Resolving.provider_sources r).

(** [provider_secret]: [env_var] is the process environment, [get] the secret
    store under the keyring's service name. *)
Definition provider_secret {Secret} (env_var : list byte → option (list byte))
    (get : list byte → option Secret) (of_text : list byte → Secret) (name : list byte)
    (c : Config.t) : result Secret ConfigError :=
  match Config.providers c !! name with
  | None => Err (MissingCredential name)
  | Some provider =>
      match api_key_env provider with
      | Some variable =>
          match env_var variable with
          | Some value =>
              if negb (bool_decide (value = [])) then Ok (of_text value)
              else Err (MissingCredential name)
          | None => Err (MissingCredential name)
          end
      | None =>
          match api_key_keyring provider with
          | Some entry => ok_or (get entry) (MissingCredential name)
          | None => Err (MissingCredential name)
          end
      end
  end.

(** ** Reading the files: [discover.rs] *)

(** What a call to the file system answers. *)
Inductive Io (A : Type) := Found (a : A) | Absent | Failed.
Arguments Found {A} a.
Arguments Absent {A}.
Arguments Failed {A}.

(** The calls made on one path, in order: [std::fs::metadata] (is it a regular
    file), [File::open], [file.metadata] (regular, and its mode), and
    [read_to_string]. *)
Record FileCalls := mkFileCalls {
  stat : Io bool;
  open : Io unit;
  fstat : option (bool * N);
  read : option (list byte);
}.

Definition open_regular (layer : ConfigSource) (path : string) (calls : FileCalls) :
    result (option N) ConfigError :=
  match stat calls with
  | Found false => Err (NotARegularFile layer path)
  | Absent => Ok None
  | Failed => Err (Unreadable layer path)
  | Found true =>
      match open calls with
      | Absent => Ok None
      | Failed => Err (Unreadable layer path)
      | Found _ =>
          let? metadata := ok_or (fstat calls) (Unreadable layer path) in
          if negb metadata.1 then Err (NotARegularFile layer path) else Ok (Some metadata.2)
      end
  end.

Definition check_private (layer : ConfigSource) (path : string) (raw_mode : N) :
    result unit ConfigError :=
  let mode := N.land raw_mode 511 in
  if (N.land mode 63 =? 0)%N then Ok tt else Err (TooPermissive layer path mode).

Definition read_to_string (layer : ConfigSource) (path : string) (calls : FileCalls) :
    result (list byte) ConfigError := ok_or (read calls) (Unreadable layer path).

Definition read_private (layer : ConfigSource) (path : string) (calls : FileCalls) :
    result (option (list byte)) ConfigError :=
  let? opened := open_regular layer path calls in
  match opened with
  | None => Ok None
  | Some mode =>
      let? _ := check_private layer path mode in
      let? text := read_to_string layer path calls in Ok (Some text)
  end.

Definition read_shared (layer : ConfigSource) (path : string) (calls : FileCalls) :
    result (option (list byte)) ConfigError :=
  let? opened := open_regular layer path calls in
  match opened with
  | None => Ok None
  | Some _ => let? text := read_to_string layer path calls in Ok (Some text)
  end.

Definition CONFIG_DIR : string := "supra".
Definition CONFIG_FILE : string := "config.toml".
Definition PROJECT_DIR : string := ".supra".

(** The walk of [project_config_path]: a path has fewer parents than characters.
    [None] is the end of the fuel. *)
Fixpoint project_walk (fuel : nat) (exists_at : string → option bool) (current : string) :
    option (result (option string) ConfigError) :=
  match fuel with
  | 0 => None
  | S fuel =>
      let candidate := join (join current PROJECT_DIR) CONFIG_FILE in
      match exists_at candidate with
      | Some true => Some (Ok (Some candidate))
      | None => Some (Err (Unreadable Project candidate))
      | Some false =>
          match parent current with
          | Some directory => project_walk fuel exists_at directory
          | None => Some (Ok None)
          end
      end
  end.

Definition project_config_path (exists_at : string → option bool) (start : string) :
    result (option string) ConfigError :=
  default (Ok None) (project_walk (S (S (String.length start))) exists_at start).

(** [user_config_path] of two environment variables. *)
Definition is_absolute (p : string) : bool :=
  match p with String c _ => bool_decide (c = slash) | EmptyString => false end.

Definition user_config_path (xdg_config_home home : option string) : option string :=
  let fallback :=
    home ← home; if bool_decide (home = "") then None else Some (join home ".config") in
  base ← match xdg_config_home with
         | Some value =>
             if negb (bool_decide (value = "")) && is_absolute value then Some value else fallback
         | None => fallback
         end;
  Some (join (join base CONFIG_DIR) CONFIG_FILE).

(** ** The environment and the loader: [lib.rs] *)

Definition ENV_PREFIX : list byte := bytes "SUPRA_CONFIG_".

Definition ENV_SETTINGS : list (list byte * Setting) :=
  [(bytes "SUPRA_CONFIG_THINKING_BUDGET", ThinkingBudget);
   (bytes "SUPRA_CONFIG_COHORT_LIMIT", CohortLimit);
   (bytes "SUPRA_CONFIG_PERMISSION_MODE", PermissionMode);
   (bytes "SUPRA_CONFIG_COMPACTION_THRESHOLD_PERCENT", CompactionThresholdPercent)].

Definition u8_max : N := 255.

Definition apply_env (layer : ConfigLayer.t) (name value : list byte) (setting : Setting) :
    result ConfigLayer.t ConfigError :=
  let value := trim value in
  match setting with
  | ThinkingBudget =>
      let? budget := ok_or (parse_uint (Z.to_N u32_max) value) (InvalidEnv name) in
      Ok (ConfigLayer.mk (Some (mkThinking (Some budget))) (ConfigLayer.cohort layer)
            (ConfigLayer.permission layer) (ConfigLayer.prompt layer) (ConfigLayer.providers layer))
  | CohortLimit =>
      let? limit := ok_or (parse_uint (Z.to_N u64_max) value) (InvalidEnv name) in
      Ok (ConfigLayer.mk (ConfigLayer.thinking layer) (Some (mkCohort (Some limit)))
            (ConfigLayer.permission layer) (ConfigLayer.prompt layer) (ConfigLayer.providers layer))
  | PermissionMode =>
      let? mode := ok_or (mode_setting value) (InvalidEnv name) in
      Ok (ConfigLayer.mk (ConfigLayer.thinking layer) (ConfigLayer.cohort layer)
            (Some (mkPermission (Some mode))) (ConfigLayer.prompt layer) (ConfigLayer.providers layer))
  | CompactionThresholdPercent =>
      let? percent := ok_or (parse_uint u8_max value) (InvalidEnv name) in
      Ok (ConfigLayer.mk (ConfigLayer.thinking layer) (ConfigLayer.cohort layer)
            (ConfigLayer.permission layer) (Some (mkPrompt (Some percent)))
            (ConfigLayer.providers layer))
  end.

(** The loop of [env_layer]. *)
Fixpoint env_variables (layer : ConfigLayer.t) (any : bool)
    (variables : list (list byte * list byte)) : result (ConfigLayer.t * bool) ConfigError :=
  match variables with
  | [] => Ok (layer, any)
  | (name, value) :: variables =>
      if negb (starts_with ENV_PREFIX name) then env_variables layer any variables
      else
        let? setting := ok_or (snd <$> List.find (λ p, bool_decide (p.1 = name)) ENV_SETTINGS)
                          (InvalidEnv name) in
        let? layer := apply_env layer name value setting in
        env_variables layer true variables
  end.

Definition env_layer (variables : list (list byte * list byte)) :
    result (option ConfigLayer.t) ConfigError :=
  let? r := env_variables ConfigLayer.default false variables in
  Ok (if r.2 then Some r.1 else None).

Module Loader.
Record t := mk {
  user_path : option string;
  project_start : option string;
  environment : list (list byte * list byte);
  cli : option ConfigLayer.t;
  session : option ConfigLayer.t;
}.

Definition isolated : t := mk None None [] None None.
Definition with_user_path (path : string) (l : t) : t :=
  mk (Some path) (project_start l) (environment l) (cli l) (session l).
Definition with_project_start (directory : string) (l : t) : t :=
  mk (user_path l) (Some directory) (environment l) (cli l) (session l).
Definition with_environment (variables : list (list byte * list byte)) (l : t) : t :=
  mk (user_path l) (project_start l) variables (cli l) (session l).
Definition with_cli (layer : ConfigLayer.t) (l : t) : t :=
  mk (user_path l) (project_start l) (environment l) (Some layer) (session l).
Definition with_session (layer : ConfigLayer.t) (l : t) : t :=
  mk (user_path l) (project_start l) (environment l) (cli l) (Some layer).
End Loader.

Section load.
Context (ip_is_loopback : list byte → bool).
(** [toml::from_str] of a layer, and the answers of the file system. *)
Context (from_str : list byte → result ConfigLayer.t TomlError)
  (calls : string → FileCalls) (exists_at : string → option bool).

Definition parse (text : list byte) (layer : ConfigSource) (path : string) :
    result ConfigLayer.t ConfigError :=
  map_err (λ error, Invalid layer path (describe_toml_error text error)) (from_str text).

Definition parse_and_validate (text : list byte) (source : ConfigSource) (path : string) :
    result ConfigLayer.t ConfigError :=
  let? layer := parse text source path in
  let? _ := validate ip_is_loopback source layer in
  Ok layer.

(** The layer of a file that may not be there. *)
Definition file_layer (source : ConfigSource) (path : string)
    (text : result (option (list byte)) ConfigError) : result (list entry) ConfigError :=
  let? text := text in
  match text with
  | None => Ok []
  | Some text => let? layer := parse_and_validate text source path in Ok [(source, layer)]
  end.

(** The layer of a caller. *)
Definition given_layer (source : ConfigSource) (layer : option ConfigLayer.t) :
    result (list entry) ConfigError :=
  match layer with
  | None => Ok []
  | Some layer => let? _ := validate ip_is_loopback source layer in Ok [(source, layer)]
  end.

Definition user_layer (l : Loader.t) : result (list entry) ConfigError :=
  match Loader.user_path l with
  | None => Ok []
  | Some path => file_layer User path (read_private User path (calls path))
  end.

Definition project_layer (l : Loader.t) : result (list entry) ConfigError :=
  match Loader.project_start l with
  | None => Ok []
  | Some start =>
      let? path := project_config_path exists_at start in
      match path with
      | None => Ok []
      | Some path => file_layer Project path (read_shared Project path (calls path))
      end
  end.

Definition load_layers (l : Loader.t) : result (list entry) ConfigError :=
  let? user := user_layer l in
  let? project := project_layer l in
  let? env := env_layer (Loader.environment l) in
  let? env := given_layer Env env in
  let? cli := given_layer Cli (Loader.cli l) in
  let? session := given_layer Session (Loader.session l) in
  Ok (user ++ project ++ env ++ cli ++ session).

Definition load (l : Loader.t) : result Config.t ConfigError :=
  let? layers := load_layers l in Ok (resolve layers).
End load.

(** ** Lemmas on precedence *)

(** The latest entry of a list that says something. *)
Definition latest {A} (said : entry → option A) (ordered : list entry) : option (A * ConfigSource) :=
  foldl (λ r e, match said e with Some v => Some (v, e.1) | None => r end) None ordered.

(** The entry of highest precedence that says something. *)
Definition wins {A} (said : entry → option A) (layers : list entry) (r : option (A * ConfigSource)) :
    Prop :=
  match r with
  | None => ∀ e, e ∈ layers → said e = None
  | Some (v, s) => ∃ layer, (s, layer) ∈ layers ∧ said (s, layer) = Some v ∧
      ∀ e, e ∈ layers → is_Some (said e) → ConfigSource.ord e.1 ≤ ConfigSource.ord s
  end.

Lemma latest_snoc {A} (said : entry → option A) l e :
  latest said (l ++ [e]) = match said e with Some v => Some (v, e.1) | None => latest said l end.
Proof. unfold latest. by rewrite foldl_app. Qed.

Lemma latest_wins {A} (said : entry → option A) l :
  StronglySorted source_le l → wins said l (latest said l).
Proof.
  induction l as [|e l IH] using rev_ind; intros Hs; [by intros e ?%not_elem_of_nil|].
  apply StronglySorted_app in Hs as (Hle & Hs & _). rewrite latest_snoc.
  destruct (said e) as [v|] eqn:E.
  - destruct e as [s layer]. exists layer. split_and!; [set_solver|done|].
    intros e' [Hin|Hin]%elem_of_app _; [|apply list_elem_of_singleton in Hin as ->; done].
    by apply (Hle e' (s, layer)); [|apply list_elem_of_singleton].
  - specialize (IH Hs). destruct (latest said l) as [[v s]|]; simpl in *.
    + destruct IH as (layer & Hin & Hv & Hmax). exists layer. split_and!; [set_solver|done|].
      intros e' [Hin'|Hin']%elem_of_app He'; [by apply Hmax|].
      apply list_elem_of_singleton in Hin' as ->. rewrite E in He'. by destruct He'.
    + intros e' [Hin'|Hin']%elem_of_app; [by apply IH|]. by apply list_elem_of_singleton in Hin' as ->.
Qed.

Lemma wins_perm {A} (said : entry → option A) l l' r : l ≡ₚ l' → wins said l r → wins said l' r.
Proof.
  intros Hp. destruct r as [[v s]|]; simpl; [|by setoid_rewrite Hp].
  intros (layer & H). exists layer. by setoid_rewrite <- Hp.
Qed.

Lemma overwrite_fold {A} (said : ConfigLayer.t → option A) s l :
  foldl (λ s e, overwrite (said e.2) e.1 s) s l = default s (latest (λ e, said e.2) l).
Proof.
  induction l as [|e l IH] using rev_ind; [done|]. rewrite foldl_app, latest_snoc. simpl. rewrite IH.
  unfold overwrite. by destruct (said e.2).
Qed.

Definition operator_mode (e : entry) : option Mode :=
  if ConfigSource.is_operator_controlled e.1 then said_mode e.2 else None.

Definition said_provider (name : list byte) (e : entry) : option Provider :=
  provider_of <$> (default ∅ (ConfigLayer.providers e.2) !! name).

Lemma insert_all {A B} (f : A → B) (es : gmap (list byte) A) (m : gmap (list byte) B) k :
  foldl (λ m p, <[p.1 := f p.2]> m) m (map_to_list es) !! k =
    match es !! k with Some v => Some (f v) | None => m !! k end.
Proof.
  rewrite <- (list_to_map_to_list es) at 2. pose proof (NoDup_fst_map_to_list es) as Hn.
  revert m Hn. induction (map_to_list es) as [|[k' v] l IH]; intros m Hn; simpl; [by rewrite lookup_empty|].
  apply NoDup_cons in Hn as [Hk Hn]. rewrite IH by done.
  destruct (decide (k' = k)) as [->|Hne].
  - rewrite lookup_insert_eq, not_elem_of_list_to_map_1 by done. by rewrite lookup_insert_eq.
  - by rewrite !lookup_insert_ne by done.
Qed.

Lemma apply_layers_spec l r :
  let r' := foldl apply_layer r l in
  Resolving.thinking_budget r' = default (Resolving.thinking_budget r) (latest (λ e, said_budget e.2) l) ∧
  Resolving.cohort_limit r' = default (Resolving.cohort_limit r) (latest (λ e, said_limit e.2) l) ∧
  Resolving.permission_mode r' = default (Resolving.permission_mode r) (latest operator_mode l) ∧
  Resolving.threshold r' = default (Resolving.threshold r) (latest (λ e, said_threshold e.2) l) ∧
  (∀ name, Resolving.providers r' !! name =
     match latest (said_provider name) l with Some (v, _) => Some v
     | None => Resolving.providers r !! name end) ∧
  (∀ name, Resolving.provider_sources r' !! name =
     match latest (said_provider name) l with Some (_, s) => Some s
     | None => Resolving.provider_sources r !! name end).
Proof.
  induction l as [|[s layer] l IH] using rev_ind; [done|]. rewrite foldl_app. cbn [foldl].
  set (r1 := foldl apply_layer r l) in *. clearbody r1.
  destruct IH as (H1 & H2 & H3 & H4 & H5 & H6). cbn zeta.
  assert (Hop : operator_mode (s, layer) =
    if ConfigSource.is_operator_controlled s then said_mode layer else None) by done.
  rewrite !latest_snoc, Hop.
  cbn [apply_layer Resolving.thinking_budget Resolving.cohort_limit Resolving.permission_mode
    Resolving.threshold Resolving.providers Resolving.provider_sources fst snd].
  split_and!.
  - rewrite H1. unfold overwrite. by destruct (said_budget layer).
  - rewrite H2. unfold overwrite. by destruct (said_limit layer).
  - rewrite H3. unfold overwrite. by destruct (ConfigSource.is_operator_controlled s), (said_mode layer).
  - rewrite H4. unfold overwrite. by destruct (said_threshold layer).
  - intros name. rewrite latest_snoc, insert_all, H5. unfold said_provider at 2. cbn [snd].
    by destruct (default ∅ (ConfigLayer.providers layer) !! name).
  - intros name. rewrite latest_snoc, (insert_all (λ _, s)), H6. unfold said_provider at 2. cbn [snd].
    by destruct (default ∅ (ConfigLayer.providers layer) !! name).
Qed.

#[export] Instance source_le_total : Total source_le.
Proof. intros p q. unfold source_le. lia. Qed.
#[export] Instance source_le_trans : Transitive source_le.
Proof. intros p q r. unfold source_le. lia. Qed.

Lemma ord_inj s t : ConfigSource.ord s = ConfigSource.ord t → s = t.
Proof. by destruct s, t. Qed.

(** Entries of distinct sources have one order. *)
Lemma sources_sorted_unique l l' :
  NoDup l.*1 → StronglySorted source_le l → StronglySorted source_le l' → l ≡ₚ l' → l = l'.
Proof.
  intros Hn Hs Hs' Hp. apply (StronglySorted_unique_strong source_le); try done.
  intros [s x] [t y] Hx Hy Hst Hts. rewrite <- Hp in Hy.
  assert (s = t) as -> by (apply ord_inj; unfold source_le in *; simpl in *; lia).
  apply list_elem_of_lookup in Hx as [i Hi], Hy as [j Hj].
  assert (i = j) as ->; [|congruence].
  eapply NoDup_lookup; [exact Hn|by rewrite list_lookup_fmap, Hi|by rewrite list_lookup_fmap, Hj].
Qed.

Lemma ordered_spec (l : list entry) :
  StronglySorted source_le (merge_sort source_le l) ∧ merge_sort source_le l ≡ₚ l.
Proof. split; [apply StronglySorted_merge_sort; apply _|apply merge_sort_Permutation]. Qed.

(** What the project's layer asks for. *)
Definition project_mode (layers : list entry) : option Mode :=
  List.find (λ e, bool_decide (e.1 = Project)) layers ≫= λ e, said_mode e.2.

Lemma tighten_operator mode s layer : s ≠ Project → tighten mode (s, layer) = mode.
Proof. intros Hs. unfold tighten, ConfigSource.is_operator_controlled. by rewrite bool_decide_false. Qed.

Lemma tighten_fold mode l : Project ∉ l.*1 → foldl tighten mode l = mode.
Proof.
  revert mode. induction l as [|[s layer] l IH]; intros mode Hp; [done|]. cbn [foldl].
  rewrite tighten_operator by set_solver. apply IH. set_solver.
Qed.

Definition tightened (base : Mode * ConfigSource) (requested : option Mode) : Mode * ConfigSource :=
  match requested with
  | Some mode => if strictness base.1 <? strictness mode then (mode, Project) else base
  | None => base
  end.

Lemma find_project l : project_mode l = None ∨ ∃ layer, (Project, layer) ∈ l ∧ project_mode l = said_mode layer.
Proof.
  unfold project_mode. destruct (List.find _ l) as [[s layer]|] eqn:E; [|by left].
  apply find_some in E as [Hin Hs]. apply bool_decide_eq_true in Hs. simpl in Hs. subst s.
  right. exists layer. split; [by apply list_elem_of_In|done].
Qed.

Lemma project_mode_elem l layer :
  NoDup l.*1 → (Project, layer) ∈ l → project_mode l = said_mode layer.
Proof.
  intros Hn Hin. unfold project_mode. induction l as [|[s y] l IH]; [by apply not_elem_of_nil in Hin|].
  apply NoDup_cons in Hn as [Hs Hn]. simpl in Hs. cbn [List.find fst].
  apply elem_of_cons in Hin as [[= <- <-]|Hin]; [done|].
  rewrite bool_decide_eq_false_2; [by apply IH|]. intros ->. apply Hs.
  by apply (list_elem_of_fmap_2 fst) in Hin.
Qed.

Lemma project_mode_absent l : Project ∉ l.*1 → project_mode l = None.
Proof.
  intros Hp. destruct (find_project l) as [|(layer & Hin & _)]; [done|].
  by apply (list_elem_of_fmap_2 fst) in Hin.
Qed.

Lemma tighten_project base l :
  NoDup l.*1 → foldl tighten base l = tightened base (project_mode l).
Proof.
  intros Hn. destruct (decide (Project ∈ l.*1)) as [Hp|Hp].
  - apply list_elem_of_fmap in Hp as ([s layer] & Hs & Hin). simpl in Hs. subst s.
    rewrite (project_mode_elem l layer) by done.
    apply list_elem_of_split in Hin as (l1 & l2 & ->).
    rewrite fmap_app, fmap_cons in Hn. apply NoDup_app in Hn as (_ & Hd & Hn).
    apply NoDup_cons in Hn as [Hn _]. rewrite foldl_app. cbn [foldl].
    rewrite (tighten_fold base l1) by (intros Hin; apply (Hd _ Hin); set_solver).
    rewrite tighten_fold by done. unfold tighten, tightened. simpl. by destruct (said_mode layer).
  - by rewrite project_mode_absent, tighten_fold by done.
Qed.

Lemma project_mode_perm l l' : NoDup l.*1 → l ≡ₚ l' → project_mode l = project_mode l'.
Proof.
  intros Hn Hp. assert (Hn' : NoDup l'.*1) by by rewrite <- Hp.
  destruct (decide (Project ∈ l.*1)) as [Hin|Hin].
  - apply list_elem_of_fmap in Hin as ([s layer] & Hs & Hin). simpl in Hs. subst s.
    rewrite (project_mode_elem l layer), (project_mode_elem l' layer) by (done || by rewrite <- Hp).
    done.
  - rewrite !project_mode_absent; [done|by rewrite <- Hp|done].
Qed.

(** [resolve] over layers in order. *)
Lemma resolve_spec layers :
  NoDup layers.*1 →
  let l := merge_sort source_le layers in
  let c := resolve layers in
  (Config.thinking_budget c, Config.source_of ThinkingBudget c) =
    default (DEFAULT_THINKING_BUDGET, Builtin) (latest (λ e, said_budget e.2) l) ∧
  (Config.cohort_limit c, Config.source_of CohortLimit c) =
    default (N.of_nat DEFAULT_PEER_LIMIT, Builtin) (latest (λ e, said_limit e.2) l) ∧
  (Config.permission_mode c, Config.source_of PermissionMode c) =
    tightened (default (default_mode, Builtin) (latest operator_mode l)) (project_mode layers) ∧
  (Config.compaction_threshold_percent c, Config.source_of CompactionThresholdPercent c) =
    default (DEFAULT_COMPACTION_THRESHOLD_PERCENT, Builtin) (latest (λ e, said_threshold e.2) l) ∧
  (∀ name, Config.providers c !! name = fst <$> latest (said_provider name) l ∧
           Config.provider_source name c = snd <$> latest (said_provider name) l).
Proof.
  intros Hn l c. destruct (ordered_spec layers) as [_ Hp]. fold l in Hp.
  destruct (apply_layers_spec l Resolving.start) as (H1 & H2 & H3 & H4 & H5 & H6).
  unfold c, resolve. fold l.
  unfold Config.source_of, Config.provider_source.
  cbn [Config.thinking_budget Config.cohort_limit Config.permission_mode Config.providers
    Config.compaction_threshold_percent Config.scalar_sources Config.provider_sources].
  rewrite <- (project_mode_perm l layers) by (done || by rewrite Hp).
  rewrite <- (tighten_project _ l) by by rewrite Hp.
  cbn [List.find fst snd default]. rewrite H1, H2, H3, H4.
  split_and!; try (symmetry; apply surjective_pairing).
  intros name. rewrite H5, H6. by destruct (latest (said_provider name) l) as [[??]|].
Qed.

(** ** Lemmas on the loader *)

(** Layers that passed validation, in the order they are loaded. *)
Definition validated (ip : list byte → bool) (layers : list entry) : Prop :=
  ∀ s layer, (s, layer) ∈ layers → validate ip s layer = Ok tt.

Lemma given_layer_Ok ip s o layers :
  given_layer ip s o = Ok layers → validated ip layers ∧ layers.*1 ⊆+ [s].
Proof.
  unfold given_layer. destruct o as [layer|]; [|intros [= <-]].
  - intros ([] & Hv & [= <-])%result_bind_Ok. split; [|done].
    by intros t l [= -> ->]%list_elem_of_singleton.
  - split; [by intros ?? ?%not_elem_of_nil|apply submseteq_nil_l].
Qed.

Lemma file_layer_Ok ip from_str s path text layers :
  file_layer ip from_str s path text = Ok layers → validated ip layers ∧ layers.*1 ⊆+ [s].
Proof.
  unfold file_layer. intros (text' & _ & Hl)%result_bind_Ok. destruct text' as [text'|].
  - apply result_bind_Ok in Hl as (layer & Hp & [= <-]). unfold parse_and_validate in Hp.
    apply result_bind_Ok in Hp as (layer' & _ & Hp). apply result_bind_Ok in Hp as ([] & Hv & [= ->]).
    split; [|done]. by intros t l [= -> ->]%list_elem_of_singleton.
  - injection Hl as <-. split; [by intros ?? ?%not_elem_of_nil|apply submseteq_nil_l].
Qed.

(** What a successful load put together, with the project's part apart. *)
Lemma load_layers_Ok ip from_str calls exists_at l layers :
  load_layers ip from_str calls exists_at l = Ok layers →
  ∃ before project after, layers = before ++ project ++ after ∧
    validated ip layers ∧ NoDup layers.*1 ∧
    project.*1 ⊆+ [Project] ∧ (Project ∉ (before ++ after).*1) ∧
    load_layers ip from_str calls exists_at
      (Loader.mk (Loader.user_path l) None (Loader.environment l) (Loader.cli l) (Loader.session l)) =
      Ok (before ++ after).
Proof.
  unfold load_layers. intros (user & Hu & H)%result_bind_Ok.
  apply result_bind_Ok in H as (project & Hp & H). apply result_bind_Ok in H as (env & He & H).
  apply result_bind_Ok in H as (env' & He' & H). apply result_bind_Ok in H as (cli & Hc & H).
  apply result_bind_Ok in H as (session & Hs & [= <-]).
  exists user, project, (env' ++ cli ++ session). split; [done|].
  assert (Hu2 : user_layer ip from_str calls (Loader.mk (Loader.user_path l) None
    (Loader.environment l) (Loader.cli l) (Loader.session l)) = Ok user) by exact Hu.
  assert (Hvu : validated ip user ∧ user.*1 ⊆+ [User]).
  { unfold user_layer in Hu. destruct (Loader.user_path l); [by eapply file_layer_Ok|].
    injection Hu as <-. split; [by intros ?? ?%not_elem_of_nil|apply submseteq_nil_l]. }
  assert (Hvp : validated ip project ∧ project.*1 ⊆+ [Project]).
  { unfold project_layer in Hp. destruct (Loader.project_start l).
    - apply result_bind_Ok in Hp as ([path|] & _ & Hp); [by eapply file_layer_Ok|].
      injection Hp as <-. split; [by intros ?? ?%not_elem_of_nil|apply submseteq_nil_l].
    - injection Hp as <-. split; [by intros ?? ?%not_elem_of_nil|apply submseteq_nil_l]. }
  apply given_layer_Ok in He' as Hve, Hc as Hvc, Hs as Hvs.
  destruct Hvu as [Hvu Hsu], Hvp as [Hvp Hsp], Hve as [Hve Hse], Hvc as [Hvc Hsc], Hvs as [Hvs Hss].
  assert (Hsub : (user ++ project ++ env' ++ cli ++ session).*1 ⊆+ [User; Project; Env; Cli; Session]).
  { rewrite !fmap_app. change [User; Project; Env; Cli; Session]
      with ([User] ++ [Project] ++ [Env] ++ [Cli] ++ [Session]).
    by repeat apply submseteq_app. }
  split_and!.
  - intros s layer. rewrite !elem_of_app. intros [?|[?|[?|[?|?]]]]; auto.
  - eapply submseteq_NoDup; [exact Hsub|]. by apply (bool_decide_unpack _).
  - done.
  - assert (Hsub' : (user ++ env' ++ cli ++ session).*1 ⊆+ [User; Env; Cli; Session]).
    { rewrite !fmap_app. change [User; Env; Cli; Session] with ([User] ++ [Env] ++ [Cli] ++ [Session]).
      by repeat apply submseteq_app. }
    intros Hin. apply (elem_of_submseteq _ _ _ Hin) in Hsub'. set_solver.
  - rewrite Hu2. cbn [result_bind project_layer Loader.project_start Loader.environment Loader.cli
      Loader.session]. rewrite He. cbn [result_bind]. rewrite He'. cbn [result_bind].
    rewrite Hc. cbn [result_bind]. rewrite Hs. done.
Qed.

Lemma validate_Ok ip s layer :
  validate ip s layer = Ok tt →
  (∀ n, said_limit layer = Some n → 1 ≤ n ≤ 80)%N ∧
  (∀ n, said_threshold layer = Some n → 92 ≤ n ≤ 95)%N ∧
  (s = Project → ConfigLayer.providers layer = None).
Proof.
  unfold validate. intros ([] & Hc & H)%result_bind_Ok.
  apply result_bind_Ok in H as ([] & Ht & H). apply result_bind_Ok in H as ([] & Hp & _).
  split_and!.
  - intros n Hn. unfold validate_cohort in Hc. rewrite Hn in Hc.
    destruct ((1 <=? n)%N && _) eqn:E; [|done]. apply andb_true_iff in E as [E1 E2].
    apply N.leb_le in E1, E2. done.
  - intros n Hn. unfold validate_prompt in Ht. rewrite Hn in Ht.
    destruct ((_ <=? n)%N && _) eqn:E; [|done]. apply andb_true_iff in E as [E1 E2].
    apply N.leb_le in E1, E2. done.
  - intros ->. unfold validate_providers in Hp. by destruct (ConfigLayer.providers layer).
Qed.

(** The layers that say nothing about a setting do not matter for it. *)
Lemma latest_filter {A} (said : entry → option A) l :
  latest said l = latest said (List.filter (λ e, bool_decide (is_Some (said e))) l).
Proof.
  induction l as [|e l IH] using rev_ind; [done|]. rewrite latest_snoc, List.filter_app. simpl.
  destruct (said e) eqn:E; simpl; [by rewrite latest_snoc, E|by rewrite app_nil_r].
Qed.

Lemma latest_drop {A} (said : entry → option A) before project after :
  NoDup (before ++ project ++ after).*1 → (∀ e, e ∈ project → said e = None) →
  latest said (merge_sort source_le (before ++ project ++ after)) =
  latest said (merge_sort source_le (before ++ after)).
Proof.
  intros Hn Hs. rewrite latest_filter, (latest_filter said (merge_sort source_le (before ++ after))).
  set (f := λ e, bool_decide (is_Some (said e))). f_equal.
  destruct (ordered_spec (before ++ project ++ after)) as [Hs1 Hp1].
  destruct (ordered_spec (before ++ after)) as [Hs2 Hp2].
  apply sources_sorted_unique; [|by apply filter_sorted..|].
  - eapply submseteq_NoDup; [apply fmap_submseteq, filter_submseteq|]. by rewrite Hp1.
  - rewrite (filter_perm _ _ _ Hp1), (filter_perm _ _ _ Hp2), !List.filter_app.
    assert (List.filter f project = []) as ->; [|done].
    clear -Hs. induction project as [|e p IH]; [done|]. simpl. unfold f at 1.
    rewrite (Hs e) by set_solver. apply IH. set_solver.
Qed.

(** Taking a project layer without providers out of the layers. *)
Lemma resolve_without_project before project after :
  project.*1 ⊆+ [Project] → NoDup (before ++ project ++ after).*1 →
  Project ∉ (before ++ after).*1 →
  (∀ e, e ∈ project → ConfigLayer.providers e.2 = None) →
  let c := resolve (before ++ project ++ after) in
  let c0 := resolve (before ++ after) in
  strictness (Config.permission_mode c0) ≤ strictness (Config.permission_mode c) ∧
  Config.providers c = Config.providers c0 ∧
  (∀ name, Config.provider_source name c = Config.provider_source name c0).
Proof.
  intros Hsub Hn Hout Hprov c c0.
  assert (Hn0 : NoDup (before ++ after).*1).
  { eapply submseteq_NoDup; [|exact Hn]. apply fmap_submseteq.
    by apply submseteq_skips_l, submseteq_inserts_l. }
  destruct (resolve_spec _ Hn) as (_ & _ & Hm & _ & Hps).
  destruct (resolve_spec _ Hn0) as (_ & _ & Hm0 & _ & Hps0). fold c in Hm, Hps. fold c0 in Hm0, Hps0.
  split_and!.
  - apply (f_equal fst) in Hm, Hm0. cbn [fst] in Hm, Hm0. rewrite Hm, Hm0.
    rewrite (project_mode_absent (before ++ after)) by done. cbn [tightened].
    rewrite (latest_drop operator_mode); [|done|].
    + unfold tightened. destruct (project_mode _); [|done].
      destruct (Nat.ltb_spec (strictness (default (default_mode, Builtin)
        (latest operator_mode (merge_sort source_le (before ++ after)))).1) (strictness m)); simpl; lia.
    + intros [s layer] Hin. assert (s ∈ [Project]) as Hs.
      { eapply elem_of_submseteq; [|exact Hsub]. by apply (list_elem_of_fmap_2 fst) in Hin. }
      apply list_elem_of_singleton in Hs as ->. done.
  - apply map_eq. intros name. destruct (Hps name) as [-> _], (Hps0 name) as [-> _].
    rewrite latest_drop; [done..|]. intros e He. unfold said_provider. rewrite (Hprov e He). simpl. by rewrite lookup_empty.
  - intros name. destruct (Hps name) as [_ ->], (Hps0 name) as [_ ->].
    rewrite latest_drop; [done..|]. intros e He. unfold said_provider. rewrite (Hprov e He). simpl. by rewrite lookup_empty.
Qed.

(** ** Lemmas on endpoints *)

Lemma char_is_spec c d : char_is c d = true ↔ c = d.
Proof. unfold char_is. apply bool_decide_eq_true. Qed.

Lemma char_is_false c d : char_is c d = false ↔ c ≠ d.
Proof. unfold char_is. apply bool_decide_eq_false. Qed.

(** An authority: a host with an optional port, the host in brackets or without
    one and without a colon. *)
Definition host_of (authority host : list byte) : Prop :=
  (∃ port, authority = host ++ port ∧ Forall (λ c, c ≠ ":"%char) host ∧
     head authority ≠ Some "["%char ∧ (port = [] ∨ ∃ p, port = ":"%char :: p)) ∨
  (∃ port, authority = "["%char :: host ++ "]"%char :: port ∧ ("]"%char ∉ host) ∧
     (port = [] ∨ ∃ digits, port = ":"%char :: digits ∧ digits ≠ [] ∧ Forall (λ c, is_digit c = true) digits)).

Lemma port_spec port :
  port_is_well_formed port = true ↔
  port = [] ∨ ∃ digits, port = ":"%char :: digits ∧ digits ≠ [] ∧ Forall (λ c, is_digit c = true) digits.
Proof.
  unfold port_is_well_formed. destruct (strip_prefix [":"%char] port) as [digits|] eqn:E.
  - apply strip_prefix_Some in E as ->. rewrite andb_true_iff, negb_true_iff, bool_decide_eq_false.
    rewrite forallb_forall. setoid_rewrite <- list_elem_of_In. rewrite <- Forall_forall. split.
    + intros [? ?]. right. by exists digits.
    + intros [?|(ds & [= ->] & ? & ?)]; done.
  - rewrite bool_decide_eq_true. split; [by left|]. intros [?|(ds & -> & _)]; [done|].
    exfalso. assert (strip_prefix [":"%char] (":"%char :: ds) = Some ds) by by apply strip_prefix_Some.
    congruence.
Qed.

Lemma existsb_at l : existsb (char_is "@") l = true ↔ "@"%char ∈ l.
Proof.
  rewrite existsb_exists. setoid_rewrite char_is_spec. setoid_rewrite <- list_elem_of_In. naive_solver.
Qed.

(** What [authority_host] makes of an authority. *)
Lemma authority_host_sound authority tail :
  Forall (λ c, ends_authority c = false) authority →
  (tail = [] ∨ ∃ c t, tail = c :: t ∧ ends_authority c = true) →
  authority_host (authority ++ tail) ≠ [] →
  ("@"%char ∉ authority) ∧ host_of authority (authority_host (authority ++ tail)).
Proof.
  intros Ha Ht. unfold authority_host, authority_of.
  rewrite (split_on_head_app _ _ _ Ha Ht). cbn [default from_option id].
  destruct (existsb (char_is "@") authority) eqn:Eat; [done|].
  assert (Hat : "@"%char ∉ authority) by (rewrite <- existsb_at; by rewrite Eat). clear Eat.
  destruct (strip_prefix ["["%char] authority) as [after|] eqn:Eb.
  - apply strip_prefix_Some in Eb as ->. cbn [app] in *.
    destruct (position "]"%char after) as [close|] eqn:Ep; [|done].
    apply position_split in Ep as [Hafter Hclose].
    destruct (port_is_well_formed (drop (S close) after)) eqn:Epw; [|done].
    apply port_spec in Epw. intros _. split; [done|]. right. exists (drop (S close) after).
    by rewrite <- Hafter.
  - intros _. split; [done|]. left.
    destruct (split_on_head (char_is ":") authority) as (host & port & -> & -> & Hall & Hport).
    exists port. cbn [default from_option id]. split_and!; [done| | |].
    + eapply Forall_impl; [exact Hall|]. intros c Hc ->. by rewrite (proj2 (char_is_spec _ _)) in Hc.
    + intros Hhead. destruct (host ++ port) as [|c l]; [done|]. injection Hhead as ->.
      assert (strip_prefix ["["%char] ("["%char :: l) = Some l) by by apply strip_prefix_Some. congruence.
    + destruct Hport as [->|(c & t & -> & Hc)]; [by left|]. apply char_is_spec in Hc as ->. right. eauto.
Qed.

Lemma authority_host_complete authority tail host :
  Forall (λ c, ends_authority c = false) authority →
  (tail = [] ∨ ∃ c t, tail = c :: t ∧ ends_authority c = true) →
  ("@"%char ∉ authority) → host_of authority host → authority_host (authority ++ tail) = host.
Proof.
  intros Ha Ht Hat Hhost. unfold authority_host, authority_of.
  rewrite (split_on_head_app _ _ _ Ha Ht). cbn [default from_option id].
  destruct (existsb (char_is "@") authority) eqn:Eat; [by apply existsb_at in Eat|].
  destruct Hhost as [(port & -> & Hall & Hhead & Hport)|(port & -> & Hb & Hport)].
  - destruct (strip_prefix ["["%char] (host ++ port)) as [l|] eqn:E.
    { apply strip_prefix_Some in E. by rewrite E in Hhead. }
    rewrite split_on_head_app; [done| |].
    + eapply Forall_impl; [exact Hall|]. intros c Hc. by apply char_is_false.
    + destruct Hport as [->|(p & ->)]; [by left|]. right. exists ":"%char, p.
      split; [done|]. by apply char_is_spec.
  - rewrite (proj2 (strip_prefix_Some ["["%char] _ (host ++ "]"%char :: port))) by done.
    rewrite position_app by done. rewrite (cons_middle "]"%char host port), app_assoc.
    rewrite drop_app_length' by (rewrite length_app; simpl; lia).
    rewrite (proj2 (port_spec port)) by done. rewrite <- app_assoc. by apply take_app_length.
Qed.

(** A URL in clear text to the machine itself. *)
Definition loopback_url (ip : list byte → bool) (url : list byte) : Prop :=
  ∃ authority tail host, url = bytes "http://" ++ authority ++ tail ∧
    Forall (λ c, ends_authority c = false) authority ∧
    (tail = [] ∨ ∃ c t, tail = c :: t ∧ ends_authority c = true) ∧
    ("@"%char ∉ authority) ∧ host_of authority host ∧ is_loopback_authority ip host = true.

Lemma check_endpoint_spec ip layer setting value :
  ip [] = false →
  check_endpoint ip layer setting value = Ok tt ↔
  (∃ rest, rest ≠ [] ∧ value = bytes "https://" ++ rest) ∨ loopback_url ip value.
Proof.
  intros Hip. unfold check_endpoint.
  destruct (strip_prefix (bytes "https://") value) as [rest|] eqn:Es.
  - apply strip_prefix_Some in Es as ->. case_bool_decide as Hr; [|naive_solver].
    split; [done|]. subst rest. intros [(rest & Hr & Heq)|(a & t & h & Heq & _)]; [|done].
    apply (inj (app _)) in Heq. congruence.
  - destruct (strip_prefix (bytes "http://") value) as [rest|] eqn:Eh.
    + apply strip_prefix_Some in Eh as ->. split.
      * destruct (is_loopback_authority ip (authority_host rest)) eqn:El; [|done]. intros _. right.
        destruct (split_on_head ends_authority rest) as (a & t & _ & -> & Ha & Ht).
        destruct (authority_host_sound a t Ha Ht) as [Hat Hhost].
        { intros Hz. rewrite Hz in El. unfold is_loopback_authority in El. rewrite Hip in El. done. }
        exists a, t. eexists. done.
      * intros [(r & _ & Heq)|(a & t & h & Heq & Ha & Ht & Hat & Hhost & Hl)].
        -- exfalso. rewrite Heq in Es. by rewrite (proj2 (strip_prefix_Some _ _ r)) in Es.
        -- apply (inj (app _)) in Heq as ->. by rewrite (authority_host_complete a t h), Hl.
    + split; [done|]. intros [(r & _ & Heq)|(a & t & h & Heq & _)].
      * by rewrite Heq, (proj2 (strip_prefix_Some _ _ r)) in Es.
      * by rewrite Heq, (proj2 (strip_prefix_Some _ _ (a ++ t))) in Eh.
Qed.

(** ** The walk to the project's file *)

(** The walk ends, and a file it finds exists. *)
Lemma project_walk_total exists_at fuel current :
  String.length current < fuel →
  ∃ r, project_walk fuel exists_at current = Some r ∧
    ∀ path, r = Ok (Some path) → exists_at path = Some true.
Proof.
  revert current. induction fuel as [|fuel IH]; intros current Hf; [lia|]. cbn [project_walk].
  destruct (exists_at _) as [[]|] eqn:E; [by eexists; split; [done|intros ? [= <-]]| |by eexists].
  destruct (parent current) as [directory|] eqn:Ep; [|by eexists].
  apply IH. apply parent_shorter in Ep. lia.
Qed.

Lemma project_config_path_found exists_at start path :
  project_config_path exists_at start = Ok (Some path) → exists_at path = Some true.
Proof.
  unfold project_config_path. destruct (project_walk_total exists_at (S (S (String.length start))) start)
    as (r & -> & Hr); [lia|]. simpl. apply Hr.
Qed.

(** ** Lemmas on a parser's message *)

Lemma drop_past {A} (l k : list A) x : drop (S (length l)) (l ++ x :: k) = k.
Proof.
  rewrite (cons_middle x l k), app_assoc. apply drop_app_length'. rewrite length_app. simpl. lia.
Qed.

(** A message that quotes the value of a wrong type, as the parser writes it. *)
Definition wrong_type (quoted rest : list byte) : list byte :=
  bytes "invalid type: string " ++ quote_mark :: quoted ++ quote_mark :: rest.

(** A value without a quote mark is gone from the message. *)
Lemma strip_hides quoted rest :
  quote_mark ∉ quoted →
  strip_deserialized_value (wrong_type quoted rest) = bytes "invalid type: <redacted>" ++ rest.
Proof.
  intros Hq. unfold strip_deserialized_value, wrong_type.
  set (text := quote_mark :: quoted ++ quote_mark :: rest).
  assert (find_sub INVALID_TYPE (bytes "invalid type: string " ++ text) = Some 0) as ->.
  { assert (Hs : starts_with INVALID_TYPE (bytes "invalid type: string " ++ text) = true) by done.
    destruct (bytes "invalid type: string " ++ text); cbn [find_sub]; by rewrite Hs. }
  rewrite drop_0, take_0. subst text.
  rewrite position_app by (apply (bool_decide_unpack _); by vm_compute).
  rewrite drop_past, position_app by done. by rewrite drop_past.
Qed.

(** ** Theorems *)

(** Precedence is per field.  However the layers are ordered, each setting has
    the value of the highest layer that says something about it, or the built-in
    default, and is attributed to that layer; a provider is replaced as a whole by
    the highest layer that names it; and the permission mode is the highest
    operator's, unless the project asks for a stricter one. *)
Theorem resolve_exact layers layers' :
  NoDup layers.*1 → layers ≡ₚ layers' →
  let c := resolve layers in
  (∃ r, wins (λ e, said_budget e.2) layers r ∧
     (Config.thinking_budget c, Config.source_of ThinkingBudget c) =
       default (DEFAULT_THINKING_BUDGET, Builtin) r) ∧
  (∃ r, wins (λ e, said_limit e.2) layers r ∧
     (Config.cohort_limit c, Config.source_of CohortLimit c) =
       default (N.of_nat DEFAULT_PEER_LIMIT, Builtin) r) ∧
  (∃ r, wins (λ e, said_threshold e.2) layers r ∧
     (Config.compaction_threshold_percent c, Config.source_of CompactionThresholdPercent c) =
       default (DEFAULT_COMPACTION_THRESHOLD_PERCENT, Builtin) r) ∧
  (∃ r, wins operator_mode layers r ∧
     (Config.permission_mode c, Config.source_of PermissionMode c) =
       tightened (default (default_mode, Builtin) r) (project_mode layers)) ∧
  (∀ name, ∃ r, wins (said_provider name) layers r ∧
     Config.providers c !! name = fst <$> r ∧ Config.provider_source name c = snd <$> r) ∧
  resolve layers' = c.
Proof.
  intros Hn Hp c. destruct (ordered_spec layers) as [Hs Hl].
  destruct (resolve_spec layers Hn) as (H1 & H2 & H3 & H4 & H5).
  assert (Hw : ∀ {A} (said : entry → option A), wins said layers (latest said (merge_sort source_le layers)))
    by (intros A said; eapply wins_perm; [exact Hl|by apply latest_wins]).
  split_and!; [by eexists; split; [apply Hw|done]..|by intros name; eexists; split; [apply Hw|apply H5]|].
  unfold c, resolve. enough (merge_sort source_le layers' = merge_sort source_le layers) as -> by done.
  destruct (ordered_spec layers') as [Hs' Hl']. apply sources_sorted_unique; try done.
  - by rewrite Hl', <- Hp.
  - by rewrite Hl', Hl.
Qed.

Definition witness_layer (m : Mode) (n : option N) : ConfigLayer.t :=
  ConfigLayer.mk None (Some (mkCohort n)) (Some (mkPermission (Some m))) None None.

Example resolve_exact_witness :
  let layers := [(Cli, witness_layer Yolo None); (Project, witness_layer Ask (Some 4%N));
                 (User, witness_layer Plan (Some 9%N))] in
  Config.permission_mode (resolve layers) = Ask ∧
  Config.source_of PermissionMode (resolve layers) = Project ∧
  Config.cohort_limit (resolve layers) = 4%N ∧
  resolve (reverse layers) = resolve layers.
Proof.
  split_and!; [vm_compute; reflexivity..|].
  apply (resolve_exact [(Cli, witness_layer Yolo None); (Project, witness_layer Ask (Some 4%N));
                 (User, witness_layer Plan (Some 9%N))]).
  - by apply (bool_decide_unpack _).
  - symmetry. apply reverse_Permutation.
Defined.

(** C15. A repository cannot loosen a session.  Whatever the files, the environment
    and the caller say, a load that succeeds keeps the cohort limit and the
    compaction threshold in their ranges; it would also have succeeded without the
    project's file, and that file has changed no provider and no credential's
    source, is the source of no provider, and has at most made the permission mode
    stricter. *)
Theorem project_layer_confined ip from_str calls exists_at l c :
  load ip from_str calls exists_at l = Ok c →
  (1 ≤ Config.cohort_limit c ≤ 80)%N ∧ (92 ≤ Config.compaction_threshold_percent c ≤ 95)%N ∧
  (∀ name, Config.provider_source name c ≠ Some Project) ∧
  ∃ c0, load ip from_str calls exists_at
          (Loader.mk (Loader.user_path l) None (Loader.environment l) (Loader.cli l) (Loader.session l)) =
        Ok c0 ∧
    strictness (Config.permission_mode c0) ≤ strictness (Config.permission_mode c) ∧
    Config.providers c = Config.providers c0 ∧
    ∀ name, Config.provider_source name c = Config.provider_source name c0.
Proof.
  intros Hload. unfold load in Hload. apply result_bind_Ok in Hload as (layers & Hl & [= <-]).
  apply load_layers_Ok in Hl as (before & project & after & -> & Hv & Hn & Hsub & Hout & Hl0).
  set (layers := before ++ project ++ after) in *.
  destruct (ordered_spec layers) as [Hs Hp]. destruct (resolve_spec layers Hn) as (_ & H2 & _ & H4 & H5).
  assert (Hwin : ∀ {A} (said : entry → option A) v s,
    latest said (merge_sort source_le layers) = Some (v, s) →
    ∃ layer, validate ip s layer = Ok tt ∧ said (s, layer) = Some v).
  { intros A said v s E. pose proof (latest_wins said _ Hs) as Hw. rewrite E in Hw.
    destruct Hw as (layer & Hin & Hsaid & _). exists layer. split; [|done]. apply Hv. by rewrite <- Hp. }
  apply (f_equal fst) in H2, H4; cbn [fst] in H2, H4.
  split; [|split; [|split]].
  - rewrite H2. destruct (latest _ _) as [[v s]|] eqn:E; [|done].
    destruct (Hwin _ _ _ _ E) as (layer & Hval & Hsaid). by apply (validate_Ok ip s layer).
  - rewrite H4. destruct (latest (λ e, said_threshold e.2) _) as [[v s]|] eqn:E; [|done].
    destruct (Hwin _ _ _ _ E) as (layer & Hval & Hsaid). by apply (validate_Ok ip s layer).
  - intros name. destruct (H5 name) as [_ ->].
    destruct (latest (said_provider name) _) as [[v s]|] eqn:E; [|done]. intros [= ->].
    destruct (Hwin _ _ _ _ E) as (layer & Hval & Hsaid).
    unfold said_provider in Hsaid. simpl in Hsaid.
    destruct (validate_Ok ip Project layer Hval) as (_ & _ & Hnone).
    rewrite Hnone in Hsaid by done. simpl in Hsaid. by rewrite lookup_empty in Hsaid.
  - exists (resolve (before ++ after)). unfold load. rewrite Hl0. split; [done|].
    apply resolve_without_project; try done. intros [s layer] Hin.
    assert (s ∈ [Project]) as ->%list_elem_of_singleton.
    { eapply elem_of_submseteq; [|exact Hsub]. by apply (list_elem_of_fmap_2 fst) in Hin. }
    apply (validate_Ok ip Project); [|done]. apply Hv. set_solver.
Qed.

(** The project's file asks for [plan] mode and a limit. *)
Example project_layer_confined_witness :
  let from_str (_ : list byte) := Ok (witness_layer Plan (Some 4%N)) in
  let calls (_ : string) := mkFileCalls (Found true) (Found tt) (Some (true, 420%N)) (Some []) in
  let exists_at path := Some (bool_decide (path = "/w/.supra/config.toml")) in
  let l := Loader.with_cli (witness_layer Yolo None)
             (Loader.with_project_start "/w/src" Loader.isolated) in
  ∃ c, load (λ _, false) from_str calls exists_at l = Ok c ∧
    Config.permission_mode c = Plan ∧ Config.cohort_limit c = 4%N ∧
    (1 ≤ Config.cohort_limit c ≤ 80)%N.
Proof.
  eexists. split; [vm_compute; reflexivity|]. split; [vm_compute; reflexivity|].
  split; [vm_compute; reflexivity|].
  apply (project_layer_confined (λ _, false) (λ _, Ok (witness_layer Plan (Some 4%N)))
    (λ _, mkFileCalls (Found true) (Found tt) (Some (true, 420%N)) (Some []))
    (λ path, Some (bool_decide (path = "/w/.supra/config.toml")))
    (Loader.with_cli (witness_layer Yolo None)
             (Loader.with_project_start "/w/src" Loader.isolated))).
  vm_compute. reflexivity.
Defined.

(** Plaintext stays on the machine.  An endpoint is accepted exactly when it
    starts with [https://] and goes on, or when it is [http://] followed by an
    authority, without user information, whose host is [localhost] or a loopback
    address, bracketed with nothing but a numeric port behind, or bare. *)
Theorem endpoint_accepted_exact ip layer setting value :
  ip [] = false →
  check_endpoint ip layer setting value = Ok tt ↔
  (∃ rest, rest ≠ [] ∧ value = bytes "https://" ++ rest) ∨ loopback_url ip value.
Proof. apply check_endpoint_spec. Qed.

Definition witness_ip (host : list byte) : bool :=
  bool_decide (host = bytes "127.0.0.1" ∨ host = bytes "::1").

Example endpoint_accepted_exact_witness :
  is_ok (check_endpoint witness_ip User [] (bytes "http://[::1]:8080/v1")) = true ∧
  is_ok (check_endpoint witness_ip User [] (bytes "http://[::1].evil.example/")) = false ∧
  is_ok (check_endpoint witness_ip User [] (bytes "http://127.0.0.1@evil.example/")) = false ∧
  ¬ loopback_url witness_ip (bytes "http://[::1].evil.example/").
Proof.
  split_and!; [vm_compute; reflexivity..|]. intros Hl.
  assert (check_endpoint witness_ip User [] (bytes "http://[::1].evil.example/") = Ok tt) as H.
  { apply (endpoint_accepted_exact witness_ip User [] _ eq_refl). by right. }
  vm_compute in H. discriminate H.
Defined.

(** A value that contains a quote mark is not: what follows its quote mark, which
    the message escapes with a backslash, stays in the message. *)
Lemma stripped_value_leaks rest :
  strip_deserialized_value
    (wrong_type (bytes "ab" ++ ascii_of_N 92 :: quote_mark :: bytes "secret") rest) =
  bytes "invalid type: <redacted>secret" ++ quote_mark :: rest.
Proof. by vm_compute. Qed.
