(* ===== verification/Guard.v ===== *)
(** * The self-spawn guard: [crates/supra_guard]

    The authenticated marker ([marker.rs]), the process identity ([identity.rs])
    and the seven layers ([layers.rs], [error.rs]).  HMAC-SHA256, the random bytes
    and the answers of the file system are parameters.  Of a refusal's prose only
    what [layer_of] reads is kept. *)

From Stdlib Require Import Ascii.
From S2P Require Import Prelude Text Sealing Utf8 Lineage FileSystem.

Inductive Refusal :=
| NoIdentity (detail : list byte)
| OwnBinary
| SameFile
| BadMarker
| BadLineage (error : LineageError)
| SelfVote (voter proposer : Id)
| NoEntropy (at_ : string).

#[export] Instance Refusal_eq_dec : EqDecision Refusal.
Proof. solve_decision. Defined.

(** ** The marker: [marker.rs] *)

Module Marker.
Definition VERSION : list byte := bytes "1".
Definition colon : byte := ":".

(** The process key, [KEY]. *)
Definition Key : Type := option (list byte).

(** [generate_key]: [fill] is what [getrandom::fill] of 32 bytes answers. *)
Definition generate_key (fill : option (list byte)) (slot : Key) : Key * result unit Refusal :=
  match slot with
  | Some _ => (slot, Ok tt)
  | None =>
      match fill with
      | None => (slot, Err (NoEntropy "marker key generation"))
      | Some key => (Some key, Ok tt)
      end
  end.

Definition has_key (slot : Key) : bool := bool_decide (is_Some slot).

Definition DIGITS : list byte := bytes "0123456789abcdef".

(** [hex]: the two digits of every byte, indexed. *)
Definition hex (bytes : list byte) : list byte :=
  concat ((λ byte, [default "0"%char (DIGITS !! N.to_nat (N.shiftr (N_of_ascii byte) 4));
                    default "0"%char (DIGITS !! N.to_nat (N.land (N_of_ascii byte) 15))]) <$> bytes).

Definition hex_val (byte : byte) : option N :=
  let n := N_of_ascii byte in
  if (48 <=? n)%N && (n <=? 57)%N then Some (n - 48)%N
  else if (97 <=? n)%N && (n <=? 102)%N then Some (n - 97 + 10)%N
  else if (65 <=? n)%N && (n <=? 70)%N then Some (n - 65 + 10)%N
  else None.

(** The loop of [unhex]. *)
Fixpoint unhex_pairs (text : list byte) : result (list byte) Refusal :=
  match text with
  | a :: b :: text =>
      let? hi := ok_or (hex_val a) BadMarker in
      let? lo := ok_or (hex_val b) BadMarker in
      let? rest := unhex_pairs text in
      Ok (ascii_of_N (N.lor (N.shiftl hi 4) lo) :: rest)
  | _ => Ok []
  end.

Definition unhex (text : list byte) : result (list byte) Refusal :=
  if negb (length text `mod` 2 =? 0) then Err BadMarker else unhex_pairs text.

(** [split]: the text before the first colon, between it and the second, and the
    rest. *)
Definition split (marker : list byte) : option (list byte * list byte * list byte) :=
  i ← position colon marker;
  let rest := drop (S i) marker in
  j ← position colon rest;
  Some (take i marker, take j rest, drop (S j) rest).

(** [u8::is_ascii_hexdigit]. *)
Definition is_ascii_hexdigit (c : byte) : bool := bool_decide (is_Some (hex_val c)).

Section marker.
(** HMAC-SHA256 of a message under a key. *)
Context (hmac : list byte → list byte → list byte).

Definition tag (key body : list byte) : list byte := hex (hmac key body).

Definition issue (fill : option (list byte)) (slot : Key) : result (option (list byte)) Refusal :=
  match slot with
  | None => Ok None
  | Some key =>
      let? nonce := ok_or fill (NoEntropy "marker issuance") in
      let body := VERSION ++ colon :: hex nonce in
      Ok (Some (body ++ colon :: tag key body))
  end.

Definition verify (slot : Key) (marker : option (list byte)) : result unit Refusal :=
  match marker with
  | None => Err BadMarker
  | Some marker =>
      match split marker with
      | None => Err BadMarker
      | Some (version, nonce_hex, presented) =>
          if negb (bool_decide (version = VERSION)) then Err BadMarker
          else if negb (length nonce_hex =? 32) || negb (forallb is_ascii_hexdigit nonce_hex)
          then Err BadMarker
          else match slot with
          | None => Err BadMarker
          | Some key =>
              let? presented := unhex presented in
              if bool_decide (presented = hmac key (version ++ colon :: nonce_hex)) then Ok tt
              else Err BadMarker
          end
      end
  end.
End marker.
End Marker.

(** ** Identity: [identity.rs] *)

(** The device and the inode of a file. *)
Definition FileIdentity : Type := N * N.

Record ProcessIdentity := mkIdentity { path : string; file : FileIdentity }.

(** [establish]: what the operating system says of this process; the first
    identity stays. *)
Definition establish (self_path : option string) (self_identity : option FileIdentity)
    (current : option ProcessIdentity) : option ProcessIdentity * option ProcessIdentity :=
  match self_path, self_identity with
  | Some path, Some file =>
      let identity := mkIdentity path file in
      (match current with Some _ => current | None => Some identity end, Some identity)
  | _, _ => (current, None)
  end.

Definition is_own_file (identity : ProcessIdentity) (found : result (option FileIdentity) unit) :
    result bool unit :=
  let? found := found in
  Ok (match found with Some f => bool_decide (f = file identity) | None => false end).

Definition is_own_name (identity : ProcessIdentity) (name : string) : bool :=
  match file_name (path identity) with Some own => bool_decide (own = name) | None => false end.

(** ** The layers: [layers.rs] *)

Record SpawnRequest := mkRequest {
  argv : list string;
  marker : option (list byte);
  lineage : option Lineage.t;
  child : option Id;
  claim_proposer : option Id;
  voter : option Id;
}.

Record Verdict := mkVerdict { refusals : list Refusal }.

Definition allowed (v : Verdict) : bool := bool_decide (refusals v = []).

Definition layer_of (refusal : Refusal) : nat :=
  match refusal with
  | NoIdentity detail => if contains (bytes "marker key") detail then 2 else 1
  | OwnBinary => 3
  | SameFile => 4
  | BadMarker => 5
  | BadLineage _ => 6
  | SelfVote _ _ => 7
  | NoEntropy _ => 2
  end.

Definition refused_layers (v : Verdict) : list nat := layer_of <$> refusals v.

Section judge.
Context (hmac : list byte → list byte → list byte).
(** [file_identity] of a path ([Ok(None)] when there is no such file) and
    [std::fs::canonicalize]. *)
Context (file_identity : string → result (option FileIdentity) unit)
  (canonicalize : string → option string).

(** [program.rsplit('/').next()]. *)
Definition base_name (program : string) : string :=
  match rsplit_slash program with Some (_, name) => name | None => program end.

Definition own_binary_detail (identity : ProcessIdentity) (argv : list string) : bool :=
  match argv with
  | [] => false
  | program :: _ =>
      if is_own_name identity (base_name program) then true
      else match canonicalize program ≫= file_name with
      | Some resolved => is_own_name identity resolved
      | None => false
      end
  end.

(** What each layer pushes. *)
Definition layer1 (identity : option ProcessIdentity) : list Refusal :=
  match identity with
  | None => [NoIdentity (bytes "no process identity established")]
  | Some _ => []
  end.

Definition layer2 (slot : Marker.Key) : list Refusal :=
  if negb (Marker.has_key slot) then [NoIdentity (bytes "no marker key generated")] else [].

Definition layer3 (identity : option ProcessIdentity) (r : SpawnRequest) : list Refusal :=
  match identity with
  | Some identity => if own_binary_detail identity (argv r) then [OwnBinary] else []
  | None => []
  end.

Definition layer4 (identity : option ProcessIdentity) (r : SpawnRequest) : list Refusal :=
  match identity, argv r with
  | Some identity, program :: _ =>
      match is_own_file identity (file_identity program) with
      | Ok true => [SameFile]
      | Ok false => []
      | Err _ => [OwnBinary]
      end
  | _, _ => []
  end.

Definition layer5 (slot : Marker.Key) (r : SpawnRequest) : list Refusal :=
  if negb (is_ok (Marker.verify hmac slot (marker r))) then [BadMarker] else [].

Definition layer6 (r : SpawnRequest) : list Refusal :=
  match lineage r, child r with
  | Some lineage, Some child =>
      match Lineage.child lineage child with
      | Err error => [BadLineage error]
      | Ok _ => []
      end
  | _, _ => []
  end.

Definition layer7 (r : SpawnRequest) : list Refusal :=
  match claim_proposer r, voter r with
  | Some proposer, Some voter =>
      if bool_decide (proposer = voter) then [SelfVote voter proposer] else []
  | _, _ => []
  end.

Definition judge (identity : option ProcessIdentity) (slot : Marker.Key) (r : SpawnRequest) : Verdict :=
  mkVerdict (layer1 identity ++ layer2 slot ++ layer3 identity r ++ layer4 identity r ++
             layer5 slot r ++ layer6 r ++ layer7 r).
End judge.

(** ** Lemmas on markers *)

Module MarkerFacts.
Import Marker.

Lemma split_spec m v n t :
  split m = Some (v, n, t) ↔ m = v ++ colon :: n ++ colon :: t ∧ (colon ∉ v) ∧ (colon ∉ n).
Proof.
  unfold split. split.
  - intros (i & Hi & Hr)%bind_Some. apply bind_Some in Hr as (j & Hj & [= <- <- <-]).
    apply position_split in Hi as [Hm Hv]. apply position_split in Hj as [Hr Hn].
    split_and!; [|done|done]. by rewrite <- Hr, <- Hm.
  - intros (-> & Hv & Hn). rewrite position_app by done. cbn [mbind option_bind].
    assert (Hd : ∀ l k : list byte, drop (S (length l)) (l ++ colon :: k) = k).
    { intros l k. rewrite (cons_middle colon l k), app_assoc. apply drop_app_length'.
      rewrite length_app. simpl. lia. }
    rewrite Hd, position_app by done. cbn [mbind option_bind]. by rewrite Hd, !take_app_length.
Qed.

(** The two digits of a byte. *)
Lemma hex_pair c :
  ∃ a b, hex [c] = [a; b] ∧ is_ascii_hexdigit a = true ∧ is_ascii_hexdigit b = true ∧
    unhex_pairs [a; b] = Ok [c].
Proof. destruct c as [[] [] [] [] [] [] [] []]; by repeat eexists. Qed.

Lemma hex_cons c l : hex (c :: l) = hex [c] ++ hex l.
Proof. done. Qed.

Lemma hex_spec l :
  length (hex l) = 2 * length l ∧ Forall (λ c, is_ascii_hexdigit c = true) (hex l) ∧
  unhex_pairs (hex l) = Ok l.
Proof.
  induction l as [|c l (Hlen & Hall & Hun)]; [done|].
  rewrite hex_cons. destruct (hex_pair c) as (a & b & -> & Ha & Hb & Hab). split_and!.
  - simpl. rewrite Hlen. lia.
  - by repeat constructor.
  - cbn [app unhex_pairs] in *. destruct (ok_or (hex_val a) BadMarker) as [hi|]; [|done].
    cbn [result_bind] in *. destruct (ok_or (hex_val b) BadMarker) as [lo|]; [|done].
    cbn [result_bind] in *. rewrite Hun. simpl. by injection Hab as ->.
Qed.

Lemma unhex_hex l : unhex (hex l) = Ok l.
Proof.
  destruct (hex_spec l) as (Hlen & _ & Hun). unfold unhex. rewrite Hlen.
  replace ((2 * length l) `mod` 2) with 0 by lia. done.
Qed.

Lemma hexdigits_no_colon l : Forall (λ c, is_ascii_hexdigit c = true) l → colon ∉ l.
Proof. intros Hall Hin. rewrite Forall_forall in Hall. by specialize (Hall _ Hin). Qed.

Lemma forallb_Forall {A} (p : A → bool) l : forallb p l = true ↔ Forall (λ x, p x = true) l.
Proof. rewrite forallb_forall, Forall_forall. by setoid_rewrite list_elem_of_In. Qed.

(** The markers a process accepts. *)
Lemma verify_spec hmac key m :
  verify hmac (Some key) (Some m) = Ok tt ↔
  ∃ nonce t, m = VERSION ++ colon :: nonce ++ colon :: t ∧ length nonce = 32 ∧
    Forall (λ c, is_ascii_hexdigit c = true) nonce ∧
    unhex t = Ok (hmac key (VERSION ++ colon :: nonce)).
Proof.
  unfold verify. split.
  - destruct (split m) as [[[v n] t]|] eqn:E; [|done]. apply split_spec in E as (-> & _ & _).
    case_bool_decide as Hver; [|done]. cbn [negb]. subst v.
    destruct (Nat.eqb_spec (length n) 32) as [Hlen|]; [|done].
    destruct (forallb is_ascii_hexdigit n) eqn:Hh; [|done]. cbn [negb orb].
    intros (p & Hp & Heq)%result_bind_Ok. case_bool_decide; [|done]. subst p.
    exists n, t. by apply forallb_Forall in Hh.
  - intros (n & t & -> & Hlen & Hn & Ht).
    rewrite (proj2 (split_spec _ VERSION n t)).
    + rewrite bool_decide_eq_true_2 by done. cbn [negb]. rewrite Hlen, (proj2 (forallb_Forall _ _) Hn).
      rewrite Nat.eqb_refl. cbn [negb orb]. rewrite Ht. cbn [result_bind].
      by rewrite bool_decide_eq_true_2.
    + split_and!; [done|by apply (bool_decide_unpack _)|by apply hexdigits_no_colon].
Qed.

Lemma verify_issued hmac key key' nonce m :
  length nonce = 16 → issue hmac (Some nonce) (Some key) = Ok (Some m) →
  verify hmac (Some key') (Some m) = Ok tt ↔
    hmac key' (VERSION ++ colon :: hex nonce) = hmac key (VERSION ++ colon :: hex nonce).
Proof.
  intros Hn Hm. set (body := VERSION ++ colon :: hex nonce).
  assert (m = body ++ colon :: tag hmac key body) as -> by (by injection Hm). clear Hm.
  destruct (hex_spec nonce) as (Hlen & Hhex & _).
  assert (Hnc := hexdigits_no_colon _ Hhex). rewrite verify_spec.
  assert (Hbody : body ++ colon :: tag hmac key body =
    VERSION ++ colon :: hex nonce ++ colon :: tag hmac key body)
    by (unfold body at 1; by rewrite <- app_assoc). rewrite Hbody. split.
  - intros (n & t & Heq & Hl & Hn' & Ht).
    assert (split (VERSION ++ colon :: hex nonce ++ colon :: tag hmac key body) =
      Some (VERSION, n, t)) as Hs.
    { apply split_spec. split_and!; [done|by apply (bool_decide_unpack _)|by apply hexdigits_no_colon]. }
    rewrite (proj2 (split_spec _ VERSION (hex nonce) (tag hmac key body))) in Hs.
    + injection Hs as <- <-. unfold tag in Ht. rewrite unhex_hex in Ht. by injection Ht.
    + split_and!; [done|by apply (bool_decide_unpack _)|done].
  - intros Heq. exists (hex nonce), (tag hmac key body).
    split_and!; [done|lia|done|]. unfold tag. rewrite unhex_hex. fold body. by rewrite Heq.
Qed.
End MarkerFacts.

(** ** Lemmas on the layers *)

Section layers.
Context (hmac : list byte → list byte → list byte)
  (file_identity : string → result (option FileIdentity) unit) (canonicalize : string → option string)
  (identity : option ProcessIdentity) (slot : Marker.Key) (r : SpawnRequest).

(** Every layer pushes at most one refusal, of its own number; an unresolvable
    command is the third layer's. *)
Definition pushes (n : nat) (fails : Prop) (l : list Refusal) : Prop :=
  (fails ∧ layer_of <$> l = [n]) ∨ (¬ fails ∧ l = []).

Lemma layer1_pushes : pushes 1 (identity = None) (layer1 identity).
Proof. unfold layer1. destruct identity; [right|left]; split; try done. Qed.

Lemma layer2_pushes : pushes 2 (slot = None) (layer2 slot).
Proof. unfold layer2. destruct slot; [right|left]; split; try done. Qed.

Definition names_itself : Prop :=
  ∃ i, identity = Some i ∧ own_binary_detail canonicalize i (argv r) = true.

Lemma layer3_pushes : pushes 3 names_itself (layer3 canonicalize identity r).
Proof.
  unfold layer3, names_itself.
  destruct identity as [i|]; [|right; split; [by intros (? & ? & _)|done]].
  destruct (own_binary_detail canonicalize i (argv r)) eqn:E; [left|right]; split; try done.
  - by exists i.
  - intros (? & [= <-] & ?). congruence.
Qed.

Definition unresolvable : Prop :=
  ∃ i program e, identity = Some i ∧ head (argv r) = Some program ∧ file_identity program = Err e.

Definition is_itself : Prop :=
  ∃ i program, identity = Some i ∧ head (argv r) = Some program ∧
    file_identity program = Ok (Some (file i)).

Lemma layer4_pushes :
  (unresolvable ∧ ¬ is_itself ∧ layer_of <$> layer4 file_identity identity r = [3]) ∨
  (is_itself ∧ ¬ unresolvable ∧ layer_of <$> layer4 file_identity identity r = [4]) ∨
  (¬ unresolvable ∧ ¬ is_itself ∧ layer4 file_identity identity r = []).
Proof.
  unfold layer4, unresolvable, is_itself, is_own_file.
  destruct identity as [i|]; [|right; right; split_and!; [by intros (? & ? & ? & ? & _)|by intros (? & ? & ? & _)|done]].
  destruct (argv r) as [|program rest];
    [right; right; split_and!; [by intros (? & ? & ? & _ & ? & _)|by intros (? & ? & _ & ? & _)|done]|]. cbn [head].
  destruct (file_identity program) as [[f|]|e] eqn:E; cbn [result_bind].
  - destruct (decide (f = file i)) as [->|Hf].
    + right. left. rewrite bool_decide_eq_true_2 by done. split_and!; [by exists i, program| |done].
      intros (? & ? & e & _ & [= <-] & He). congruence.
    + right. right. rewrite bool_decide_eq_false_2 by done. split_and!; [| |done].
      * intros (? & ? & e & _ & [= <-] & He). congruence.
      * intros (? & ? & [= <-] & [= <-] & He). congruence.
  - right. right. split_and!; [| |done].
    + intros (? & ? & e & _ & [= <-] & He). congruence.
    + intros (? & ? & [= <-] & [= <-] & He). congruence.
  - left. split_and!; [by exists i, program, e| |done].
    intros (? & ? & _ & [= <-] & He). congruence.
Qed.

Lemma layer5_pushes : pushes 5 (Marker.verify hmac slot (marker r) ≠ Ok tt) (layer5 hmac slot r).
Proof.
  unfold layer5. destruct (Marker.verify hmac slot (marker r)) as [[]|e]; [right|left]; split; try done.
  by intros H.
Qed.

Lemma layer6_pushes :
  pushes 6 (∃ l c e, lineage r = Some l ∧ child r = Some c ∧ Lineage.child l c = Err e) (layer6 r).
Proof.
  unfold layer6. destruct (lineage r) as [l|]; [|right; split; [by intros (? & ? & ? & ? & _)|done]].
  destruct (child r) as [c|]; [|right; split; [by intros (? & ? & ? & _ & ? & _)|done]].
  destruct (Lineage.child l c) as [|e] eqn:E; [right|left]; split; try done.
  - intros (? & ? & ? & [= <-] & [= <-] & ?). congruence.
  - by exists l, c, e.
Qed.

Lemma layer7_pushes : pushes 7 (∃ a, claim_proposer r = Some a ∧ voter r = Some a) (layer7 r).
Proof.
  unfold layer7. destruct (claim_proposer r) as [p|]; [|right; split; [by intros (? & ? & _)|done]].
  destruct (voter r) as [v|]; [|right; split; [by intros (? & _ & ?)|done]].
  case_bool_decide as Hpv; [left|right]; split; try done.
  - exists p. by subst.
  - intros (a & [= <-] & [= <-]). done.
Qed.
End layers.

(** The numbers a verdict reports are in order. *)
Lemma numbers_sorted l1 l2 l3 l4 l5 l6 l7 :
  (l1 = [1] ∨ l1 = []) → (l2 = [2] ∨ l2 = []) → (l3 = [3] ∨ l3 = []) →
  (l4 = [3] ∨ l4 = [4] ∨ l4 = []) → (l5 = [5] ∨ l5 = []) → (l6 = [6] ∨ l6 = []) →
  (l7 = [7] ∨ l7 = []) → StronglySorted le (l1 ++ l2 ++ l3 ++ l4 ++ l5 ++ l6 ++ l7).
Proof.
  intros [->| ->] [->| ->] [->| ->] [->|[->| ->]] [->| ->] [->| ->] [->| ->];
    apply (bool_decide_unpack _); by vm_compute.
Qed.

Lemma pushes_spec n P l :
  pushes n P l → (∀ m, m ∈ layer_of <$> l ↔ m = n ∧ P) ∧ (layer_of <$> l = [n] ∨ layer_of <$> l = []).
Proof.
  intros [[HP ->]|[HP ->]].
  - split; [|by left]. intros m. rewrite list_elem_of_singleton. tauto.
  - split; [|by right]. intros m. split; [by intros ?%not_elem_of_nil|tauto].
Qed.

Lemma layer4_spec file_identity identity r :
  (∀ m, m ∈ layer_of <$> layer4 file_identity identity r ↔
     (m = 3 ∧ unresolvable file_identity identity r) ∨ (m = 4 ∧ is_itself file_identity identity r)) ∧
  (layer_of <$> layer4 file_identity identity r = [3] ∨
   layer_of <$> layer4 file_identity identity r = [4] ∨
   layer_of <$> layer4 file_identity identity r = []).
Proof.
  destruct (layer4_pushes file_identity identity r) as [(?&?& ->)|[(?&?& ->)|(?&?& ->)]];
    (split; [|tauto]); intros m; rewrite ?list_elem_of_singleton; try tauto.
  split; [by intros ?%not_elem_of_nil|tauto].
Qed.

(** ** Theorems *)

(** The marker authenticates exactly the key.  A process accepts a marker if and
    only if it reads [1:nonce:tag] with a nonce of 16 bytes in hex and a tag, in
    hex, that is the authentication code of [1:nonce] under this process's own
    key.  So whatever marker a process mints from 16 random bytes is accepted by
    exactly the processes whose key gives its body the same code, a process without
    a key or an environment without a marker is always refused, and a key once
    generated stays. *)
Theorem marker_authenticates hmac key key' nonce m fill slot :
  length nonce = 16 → Marker.issue hmac (Some nonce) (Some key) = Ok (Some m) →
  (Marker.verify hmac (Some key') (Some m) = Ok tt ↔
     hmac key' (bytes "1:" ++ Marker.hex nonce) = hmac key (bytes "1:" ++ Marker.hex nonce)) ∧
  (∀ marker, Marker.verify hmac (Some key') (Some marker) = Ok tt ↔
     ∃ nonce t, marker = bytes "1:" ++ nonce ++ ":"%char :: t ∧ length nonce = 32 ∧
       Forall (λ c, Marker.is_ascii_hexdigit c = true) nonce ∧
       Marker.unhex t = Ok (hmac key' (bytes "1:" ++ nonce))) ∧
  Marker.verify hmac slot None = Err BadMarker ∧
  (∀ marker, Marker.verify hmac None marker = Err BadMarker) ∧
  (∀ k, slot = Some k → Marker.generate_key fill slot = (Some k, Ok tt)).
Proof.
  intros Hn Hm. split_and!.
  - by apply MarkerFacts.verify_issued.
  - intros marker. apply MarkerFacts.verify_spec.
  - done.
  - intros [marker|]; [|done]. unfold Marker.verify.
    destruct (Marker.split marker) as [[[v n] t]|]; [|done]. by repeat case_match.
  - by intros k ->.
Qed.

(** A toy code: the key's length and the message's, as two bytes. *)
Definition witness_hmac (key message : list byte) : list byte :=
  [ascii_of_nat (length key); ascii_of_nat (length message)].

Example marker_authenticates_witness :
  let nonce := replicate 16 "a"%char in
  let m := bytes "1:" ++ Marker.hex nonce ++ bytes ":0422" in
  Marker.issue witness_hmac (Some nonce) (Some (bytes "kkkk")) = Ok (Some m) ∧
  (Marker.verify witness_hmac (Some (bytes "zz")) (Some m) = Ok tt ↔
     witness_hmac (bytes "zz") (bytes "1:" ++ Marker.hex nonce) =
     witness_hmac (bytes "kkkk") (bytes "1:" ++ Marker.hex nonce)) ∧
  Marker.verify witness_hmac (Some (bytes "kkkk")) (Some m) = Ok tt.
Proof.
  split_and!; [vm_compute; reflexivity| |vm_compute; reflexivity].
  apply (marker_authenticates witness_hmac (bytes "kkkk") (bytes "zz") (replicate 16 "a"%char)
    _ None None); vm_compute; reflexivity.
Defined.

(** C16. The guard's verdict is exact and complete.  A spawn is allowed if and only if
    the process knows itself, holds a marker key, the command neither names nor
    resolves to this binary (an unresolvable one is refused), the marker
    authenticates, the lineage takes the child and no proposer votes on its own
    claim; every layer is judged whatever the others say, so a refusal is reported
    for each layer that fails and for no other, in the order of the layers. *)
Theorem guard_verdict_exact hmac file_identity canonicalize identity slot r :
  let v := judge hmac file_identity canonicalize identity slot r in
  (allowed v = true ↔ ∀ n, 1 ≤ n ≤ 7 → n ∉ refused_layers v) ∧
  StronglySorted le (refused_layers v) ∧
  (∀ n, n ∈ refused_layers v → 1 ≤ n ≤ 7) ∧
  (1 ∈ refused_layers v ↔ identity = None) ∧
  (2 ∈ refused_layers v ↔ slot = None) ∧
  (3 ∈ refused_layers v ↔ names_itself canonicalize identity r ∨ unresolvable file_identity identity r) ∧
  (4 ∈ refused_layers v ↔ is_itself file_identity identity r) ∧
  (5 ∈ refused_layers v ↔ Marker.verify hmac slot (marker r) ≠ Ok tt) ∧
  (6 ∈ refused_layers v ↔ ∃ l c e, lineage r = Some l ∧ child r = Some c ∧ Lineage.child l c = Err e) ∧
  (7 ∈ refused_layers v ↔ ∃ a, claim_proposer r = Some a ∧ voter r = Some a).
Proof.
  cbn zeta. unfold allowed, refused_layers, judge. cbn [refusals].
  assert (Hnil : ∀ l, bool_decide (l = []) = true ↔ layer_of <$> l = []).
  { intros l. rewrite bool_decide_eq_true. by destruct l. }
  rewrite Hnil, !fmap_app. clear Hnil.
  destruct (pushes_spec _ _ _ (layer1_pushes identity)) as [M1 C1].
  destruct (pushes_spec _ _ _ (layer2_pushes slot)) as [M2 C2].
  destruct (pushes_spec _ _ _ (layer3_pushes canonicalize identity r)) as [M3 C3].
  destruct (layer4_spec file_identity identity r) as [M4 C4].
  destruct (pushes_spec _ _ _ (layer5_pushes hmac slot r)) as [M5 C5].
  destruct (pushes_spec _ _ _ (layer6_pushes r)) as [M6 C6].
  destruct (pushes_spec _ _ _ (layer7_pushes r)) as [M7 C7].
  pose proof (numbers_sorted _ _ _ _ _ _ _ C1 C2 C3 C4 C5 C6 C7) as Hsorted.
  set (all := (layer_of <$> layer1 identity) ++ _) in *.
  assert (Hall : ∀ n, n ∈ all ↔ (n = 1 ∧ identity = None) ∨ (n = 2 ∧ slot = None) ∨
    (n = 3 ∧ names_itself canonicalize identity r) ∨
    ((n = 3 ∧ unresolvable file_identity identity r) ∨ (n = 4 ∧ is_itself file_identity identity r)) ∨
    (n = 5 ∧ Marker.verify hmac slot (marker r) ≠ Ok tt) ∨
    (n = 6 ∧ ∃ l c e, lineage r = Some l ∧ child r = Some c ∧ Lineage.child l c = Err e) ∨
    (n = 7 ∧ ∃ a, claim_proposer r = Some a ∧ voter r = Some a)).
  { intros n. unfold all. by rewrite !elem_of_app, M1, M2, M3, M4, M5, M6, M7. }
  clearbody all. clear C1 C2 C3 C4 C5 C6 C7 M1 M2 M3 M4 M5 M6 M7.
  assert (Hrange : ∀ n, n ∈ all → 1 ≤ n ≤ 7) by (intros n Hn%Hall; lia).
  split; [|split; [done|split; [done|]]].
  - split; [by intros -> n _ ?%not_elem_of_nil|]. intros Hno. destruct all as [|n all]; [done|].
    exfalso. apply (Hno n); [apply Hrange|]; by left.
  - assert (Hne : ∀ (P : Prop) (m n : nat), m ≠ n → (m = n ∧ P) ↔ False) by (clear; tauto).
    assert (Heq : ∀ (P : Prop) (n : nat), (n = n ∧ P) ↔ P) by (clear; tauto).
    split_and!; rewrite Hall; rewrite !Heq, !Hne by lia; clear; tauto.
Qed.
