(* ===== verification/Piped.v ===== *)
(** * Reading a pipe with a deadline: [crates/supra_ffi/src/piped.rs]

    What the peer does is a list of arrivals, one per poll-and-read step of
    [fill]: the bytes of one [read], or the error of the poll or the read.  A read
    of no bytes, and the end of the list, is the peer's closing.  A poll that a
    signal interrupts is repeated and is no step of its own.

    The reader implements an abstract stream of bytes and errors: how the bytes
    were cut into chunks cannot be observed. *)

From Stdlib Require Import Ascii.
From S2P Require Import Prelude Text.

Inductive IoError := TimedOut | UnexpectedEof | ReadFailed.

#[export] Instance IoError_eq_dec : EqDecision IoError.
Proof. solve_decision. Defined.

Inductive Arrival :=
| Bytes (chunk : list ascii)
| Fails (e : IoError).

Module PipedInput.
Record t := mk {
  buffer : list ascii;
  eof : bool;
  (** What [fill] will still see. *)
  arrivals : list Arrival;
}.

Definition new (arrivals : list Arrival) : t := mk [] false arrivals.

Definition at_eof (p : t) : bool := eof p.

(** One poll-then-read step: how many bytes came. *)
Definition fill (p : t) : t * result nat IoError :=
  if eof p then (p, Ok 0)
  else match arrivals p with
  | [] => (mk (buffer p) true [], Ok 0)
  | Fails e :: rest => (mk (buffer p) false rest, Err e)
  | Bytes [] :: rest => (mk (buffer p) true rest, Ok 0)
  | Bytes chunk :: rest => (mk (buffer p ++ chunk) false rest, Ok (length chunk))
  end.

(** The end of [read_until]'s loop when the peer has closed. *)
Definition take_tail (p : t) : t * list ascii * result nat IoError :=
  (mk [] true (arrivals p), buffer p, Ok (length (buffer p))).

(** The loop of [read_until], by recursion on what may still arrive: the bytes it
    appends, and their number. *)
Fixpoint read_until_from (byte : ascii) (arrivals : list Arrival) (buffer : list ascii) (eof : bool) :
    t * list ascii * result nat IoError :=
  match position byte buffer with
  | Some i => (mk (drop (S i) buffer) eof arrivals, take (S i) buffer, Ok (S i))
  | None =>
      if eof then take_tail (mk buffer eof arrivals)
      else match arrivals with
      | [] | Bytes [] :: _ => take_tail (mk buffer true (tail arrivals))
      | Fails e :: arrivals => (mk buffer false arrivals, [], Err e)
      | Bytes chunk :: arrivals => read_until_from byte arrivals (buffer ++ chunk) false
      end
  end.

Definition read_until (byte : ascii) (out : list ascii) (p : t) :
    t * list ascii * result nat IoError :=
  let '(p, appended, r) := read_until_from byte (arrivals p) (buffer p) (eof p) in
  (p, out ++ appended, r).

(** The loop of [read_exact_to]. *)
Fixpoint read_exact_from (count : nat) (arrivals : list Arrival) (buffer : list ascii) (eof : bool) :
    t * list ascii * result unit IoError :=
  if count <=? length buffer then
    (mk (drop count buffer) eof arrivals, take count buffer, Ok tt)
  else if eof then (mk buffer true arrivals, [], Err UnexpectedEof)
  else match arrivals with
  | [] | Bytes [] :: _ => (mk buffer true (tail arrivals), [], Err UnexpectedEof)
  | Fails e :: arrivals => (mk buffer false arrivals, [], Err e)
  | Bytes chunk :: arrivals => read_exact_from count arrivals (buffer ++ chunk) false
  end.

Definition read_exact_to (count : nat) (out : list ascii) (p : t) :
    t * list ascii * result unit IoError :=
  let '(p, appended, r) := read_exact_from count (arrivals p) (buffer p) (eof p) in
  (p, out ++ appended, r).
End PipedInput.

(** ** The abstract stream *)

Abbreviation item := (ascii + IoError)%type.

(** What the steps deliver, one byte at a time. *)
Fixpoint delivered (arrivals : list Arrival) : list item :=
  match arrivals with
  | [] | Bytes [] :: _ => []
  | Fails e :: arrivals => inr e :: delivered arrivals
  | Bytes chunk :: arrivals => (inl <$> chunk) ++ delivered arrivals
  end.

Definition stream (p : PipedInput.t) : list item :=
  (inl <$> PipedInput.buffer p) ++
  if PipedInput.eof p then [] else delivered (PipedInput.arrivals p).

(** The bytes in front of the first error, and what follows them. *)
Fixpoint span_bytes (s : list item) : list ascii * list item :=
  match s with
  | inl b :: s => let '(d, rest) := span_bytes s in (b :: d, rest)
  | _ => ([], s)
  end.

(** Reading up to a byte, on the stream. *)
Definition until (byte : ascii) (s : list item) : list item * list ascii * result nat IoError :=
  let '(d, rest) := span_bytes s in
  match position byte d with
  | Some i => ((inl <$> drop (S i) d) ++ rest, take (S i) d, Ok (S i))
  | None =>
      match rest with
      | inr e :: rest => ((inl <$> d) ++ rest, [], Err e)
      | _ => ([], d, Ok (length d))
      end
  end.

(** Reading a number of bytes, on the stream. *)
Definition exactly (count : nat) (s : list item) : list item * list ascii * result unit IoError :=
  let '(d, rest) := span_bytes s in
  if count <=? length d then ((inl <$> drop count d) ++ rest, take count d, Ok tt)
  else match rest with
  | inr e :: rest => ((inl <$> d) ++ rest, [], Err e)
  | _ => (s, [], Err UnexpectedEof)
  end.

(** ** Lemmas *)

Lemma span_bytes_app l s :
  span_bytes ((inl <$> l) ++ s) = (l ++ (span_bytes s).1, (span_bytes s).2).
Proof.
  induction l as [|b l IH]; [apply surjective_pairing|].
  rewrite fmap_cons. cbn [app span_bytes]. by rewrite IH.
Qed.

(** The first occurrence in a prefix is the first occurrence. *)
Lemma position_app_Some (byte : ascii) l k i :
  position byte l = Some i → position byte (l ++ k) = Some i ∧ S i ≤ length l.
Proof.
  intros H. pose proof (position_Some byte l i H) as Hi%lookup_lt_Some.
  apply position_split in H as [Hl Hn]. split; [|lia].
  rewrite Hl at 1. rewrite <- app_assoc. simpl. rewrite position_app by done.
  f_equal. rewrite length_take. lia.
Qed.

Lemma span_split s : s = (inl <$> (span_bytes s).1) ++ (span_bytes s).2.
Proof.
  induction s as [|[b|e] s IH]; [done| |done]. cbn [span_bytes].
  destruct (span_bytes s) as [d rest]. cbn [fst snd] in *. rewrite fmap_cons. cbn [app].
  by rewrite <- IH.
Qed.

Lemma until_found byte l s i :
  position byte l = Some i →
  until byte ((inl <$> l) ++ s) = ((inl <$> drop (S i) l) ++ s, take (S i) l, Ok (S i)).
Proof.
  intros H. unfold until. rewrite span_bytes_app.
  destruct (position_app_Some byte l (span_bytes s).1 i H) as [-> Hi].
  rewrite drop_app_le, take_app_le by lia. rewrite fmap_app, <- app_assoc. by rewrite <- span_split.
Qed.

Lemma delivered_chunk chunk arrivals :
  chunk ≠ [] → delivered (Bytes chunk :: arrivals) = (inl <$> chunk) ++ delivered arrivals.
Proof. by destruct chunk. Qed.

(** The loop written with [fill], as the code writes it. *)
Lemma read_until_fill byte p :
  PipedInput.read_until_from byte (PipedInput.arrivals p) (PipedInput.buffer p) (PipedInput.eof p) =
  match position byte (PipedInput.buffer p) with
  | Some i =>
      (PipedInput.mk (drop (S i) (PipedInput.buffer p)) (PipedInput.eof p) (PipedInput.arrivals p),
       take (S i) (PipedInput.buffer p), Ok (S i))
  | None =>
      let '(p', r) := PipedInput.fill p in
      match r with
      | Err e => (p', [], Err e)
      | Ok 0 => PipedInput.take_tail p'
      | Ok _ => PipedInput.read_until_from byte (PipedInput.arrivals p') (PipedInput.buffer p')
                  (PipedInput.eof p')
      end
  end.
Proof.
  destruct p as [buffer eof arrivals]. simpl. unfold PipedInput.fill. simpl.
  destruct arrivals as [|[[|b chunk]|e] arrivals]; simpl; destruct (position byte buffer); try done;
    by destruct eof.
Qed.

Lemma read_until_stream byte arrivals : ∀ buffer eof p' appended r,
  PipedInput.read_until_from byte arrivals buffer eof = (p', appended, r) →
  until byte (stream (PipedInput.mk buffer eof arrivals)) = (stream p', appended, r).
Proof.
  induction arrivals as [|a arrivals IH]; intros buffer eof p' appended r.
  all: cbn [PipedInput.read_until_from]; unfold stream; cbn [PipedInput.buffer PipedInput.eof PipedInput.arrivals].
  all: destruct (position byte buffer) as [i|] eqn:Hpos;
    [intros [= <- <- <-]; rewrite (until_found byte buffer _ i Hpos); done|].
  - intros H. assert (H' : PipedInput.take_tail (PipedInput.mk buffer true []) = (p', appended, r))
      by (by destruct eof). unfold PipedInput.take_tail in H'. simpl in H'.
    injection H' as <- <- <-. unfold until. simpl.
    replace (if eof then [] else []) with (@nil item) by (by destruct eof).
    rewrite span_bytes_app. simpl. by rewrite app_nil_r, Hpos.
  - destruct eof.
    { intros [= <- <- <-]. unfold until. rewrite span_bytes_app. simpl. by rewrite app_nil_r, Hpos. }
    destruct a as [[|b chunk]|e].
    + intros [= <- <- <-]. unfold until. simpl. rewrite span_bytes_app. simpl.
      by rewrite app_nil_r, Hpos.
    + intros H. apply IH in H. etrans; [|exact H].
      rewrite delivered_chunk by done. unfold stream. simpl. by rewrite fmap_app, <- app_assoc.
    + intros [= <- <- <-]. unfold until. simpl. rewrite span_bytes_app. simpl.
      by rewrite app_nil_r, Hpos.
Qed.

Lemma read_exact_stream count arrivals : ∀ buffer eof p' appended r,
  PipedInput.read_exact_from count arrivals buffer eof = (p', appended, r) →
  exactly count (stream (PipedInput.mk buffer eof arrivals)) = (stream p', appended, r).
Proof.
  assert (Hfit : ∀ buffer s, count ≤ length buffer →
    exactly count ((inl <$> buffer) ++ s) =
    ((inl <$> drop count buffer) ++ s, take count buffer, Ok tt)).
  { intros buffer s Hle. unfold exactly. rewrite span_bytes_app.
    destruct (Nat.leb_spec count (length (buffer ++ (span_bytes s).1))) as [_|Hlt];
      [|rewrite length_app in Hlt; lia].
    rewrite drop_app_le, take_app_le, fmap_app, <- app_assoc by lia. by rewrite <- span_split. }
  induction arrivals as [|a arrivals IH]; intros buffer eof p' appended r.
  all: cbn [PipedInput.read_exact_from]; unfold stream; cbn [PipedInput.buffer PipedInput.eof PipedInput.arrivals].
  all: destruct (Nat.leb_spec count (length buffer)) as [Hle|Hlt];
    [intros [= <- <- <-]; by rewrite Hfit|].
  all: assert (Hshort : (count <=? length buffer) = false) by (by apply Nat.leb_gt).
  - intros H. assert (Hs : exactly count ((inl <$> buffer) ++ []) = ((inl <$> buffer) ++ [], [], Err UnexpectedEof)).
    { unfold exactly. rewrite span_bytes_app. simpl. by rewrite app_nil_r, Hshort. }
    destruct eof; injection H as <- <- <-; exact Hs.
  - destruct eof; [|destruct a as [[|b chunk]|e]].
    + intros [= <- <- <-]. unfold exactly. rewrite span_bytes_app. simpl. by rewrite !app_nil_r, Hshort.
    + intros [= <- <- <-]. unfold exactly. simpl. rewrite span_bytes_app. simpl. by rewrite !app_nil_r, Hshort.
    + intros H. apply IH in H. etrans; [|exact H].
      rewrite delivered_chunk by done. unfold stream. simpl. by rewrite fmap_app, <- app_assoc.
    + intros [= <- <- <-]. unfold exactly. simpl. rewrite span_bytes_app. simpl. by rewrite app_nil_r, Hshort.
Qed.

(** The two readers, in terms of the stream. *)
Lemma read_until_spec byte out p s d r :
  until byte (stream p) = (s, d, r) →
  ∃ p', PipedInput.read_until byte out p = (p', out ++ d, r) ∧ stream p' = s.
Proof.
  destruct p as [buffer eof arrivals]. unfold PipedInput.read_until. simpl.
  destruct (PipedInput.read_until_from byte arrivals buffer eof) as [[p' d'] r'] eqn:E.
  apply read_until_stream in E. rewrite E. intros [= <- <- <-]. by exists p'.
Qed.

Lemma read_exact_spec count out p s d r :
  exactly count (stream p) = (s, d, r) →
  ∃ p', PipedInput.read_exact_to count out p = (p', out ++ d, r) ∧ stream p' = s.
Proof.
  destruct p as [buffer eof arrivals]. unfold PipedInput.read_exact_to. simpl.
  destruct (PipedInput.read_exact_from count arrivals buffer eof) as [[p' d'] r'] eqn:E.
  apply read_exact_stream in E. rewrite E. intros [= <- <- <-]. by exists p'.
Qed.

(** What is handed over and what stays is what there was. *)
Lemma until_ok byte s s' d n :
  until byte s = (s', d, Ok n) → s = (inl <$> d) ++ s' ∧ n = length d.
Proof.
  unfold until. pose proof (span_split s) as Hs. destruct (span_bytes s) as [l rest] eqn:Hspan.
  cbn [fst snd] in Hs. destruct (position byte l) as [i|] eqn:Hp.
  - intros [= <- <- <-]. pose proof (position_Some byte l i Hp) as Hi%lookup_lt_Some.
    split; [|rewrite length_take; lia]. by rewrite app_assoc, <- fmap_app, take_drop.
  - assert (Hrest : rest = [] ∨ ∃ e k, rest = inr e :: k).
    { clear -Hspan. revert l rest Hspan. induction s as [|[b|e] s IH]; intros l rest; simpl.
      - intros [= <- <-]. by left.
      - destruct (span_bytes s) as [l' r']. intros [= <- <-]. eauto.
      - intros [= <- <-]. eauto. }
    destruct Hrest as [-> | (e & k & ->)]; intros [= <- <- <-]. by rewrite app_nil_r in *.
Qed.

Lemma until_line l byte s :
  byte ∉ l → until byte ((inl <$> l ++ [byte]) ++ s) = (s, l ++ [byte], Ok (S (length l))).
Proof.
  intros H. rewrite (until_found byte (l ++ [byte]) s (length l)) by by apply position_app.
  rewrite drop_ge, take_ge by (rewrite length_app; simpl; lia). done.
Qed.

Lemma exactly_bytes l s : exactly (length l) ((inl <$> l) ++ s) = (s, l, Ok tt).
Proof.
  unfold exactly. rewrite span_bytes_app. pose proof (span_split s) as Hs.
  destruct (span_bytes s) as [d rest]. cbn [fst snd] in *.
  destruct (Nat.leb_spec (length l) (length (l ++ d))) as [_|Hlt];
    [|rewrite length_app in Hlt; lia].
  rewrite drop_app_length, take_app_length. by rewrite <- Hs.
Qed.

(** ** Theorems *)

(** C36. The reader implements the stream.  Reading up to a byte, and reading a
    number of bytes, append what the abstract stream of bytes and errors gives, end
    as it does and leave its rest, however the peer's bytes were cut into chunks; so
    an error in front of the byte loses nothing, and when the peer closes without
    the byte its whole tail is handed over and its length returned. *)
Theorem piped_reader_refines byte count out p :
  (∃ appended p' r, PipedInput.read_until byte out p = (p', out ++ appended, r) ∧
     until byte (stream p) = (stream p', appended, r)) ∧
  (∃ appended p' r, PipedInput.read_exact_to count out p = (p', out ++ appended, r) ∧
     exactly count (stream p) = (stream p', appended, r)).
Proof.
  split.
  - destruct (until byte (stream p)) as [[s d] r] eqn:E.
    destruct (read_until_spec byte out p s d r E) as (p' & ? & <-). by exists d, p', r.
  - destruct (exactly count (stream p)) as [[s d] r] eqn:E.
    destruct (read_exact_spec count out p s d r E) as (p' & ? & <-). by exists d, p', r.
Qed.
