(* ===== verification/Framing.v ===== *)
(** * Content-Length framing: what [supra_lsp] and [supra_dap] share

    Both crates frame a JSON text with a [Content-Length] header and an empty line,
    cut frames out of a buffer ([framing.rs]) and read them from the peer's pipe
    ([client.rs]) with the same code, written out in each; the definitions here are
    mapped to the first.  JSON printing and parsing are parameters of the two
    clients. *)

From Stdlib Require Import Ascii.
From S2P Require Import Prelude Text Sealing Utf8 Canonical Tool Piped.

Definition usize_max : N := 18446744073709551615.

Definition cr : byte := "013".
Definition lf : byte := "010".
Definition CRLF : list byte := [cr; lf].
Definition CRLF2 : list byte := [cr; lf; cr; lf].
Definition HEADER : list byte := bytes "Content-Length:".

(** [frame], of the printed body. *)
Definition frame (body : list byte) : list byte :=
  bytes "Content-Length: " ++ dec (N.of_nat (length body)) ++ CRLF2 ++ body.

(** ** Cutting a frame out of a buffer *)

Definition find_headers_end (rest : list byte) : option nat := find_sub CRLF2 rest.

(** [headers.split(CRLF)]. *)
Fixpoint split_crlf (l : list byte) : list (list byte) :=
  match l with
  | [] => [[]]
  | c :: l' =>
      match l' with
      | d :: l'' =>
          if bool_decide (c = cr) && bool_decide (d = lf) then [] :: split_crlf l''
          else match split_crlf l' with
               | piece :: rest => (c :: piece) :: rest
               | [] => [[c]]
               end
      | [] => [[c]]
      end
  end.

(** The loop over the headers: the last [Content-Length] counts, also when its
    value does not parse. *)
Definition frame_length (headers : list byte) : option N :=
  foldl (λ content_length header,
    match strip_prefix HEADER header with
    | Some value => parse_uint usize_max (trim value)
    | None => content_length
    end) None (split_crlf headers).

Inductive Cut :=
| NoTerminator
| NoLength
| ShortBody
| Body (body : list byte) (next : nat).

(** [read_frame] up to the parsing of the body; [None] is the abort of a slice out
    of range or of an overflowing end. *)
Definition cut_frame (input : list byte) (offset : nat) : option Cut :=
  if length input <? offset then None
  else
    let rest := drop offset input in
    match find_headers_end rest with
    | None => Some NoTerminator
    | Some header_end =>
        match frame_length (from_utf8_lossy (take header_end rest)) with
        | None => Some NoLength
        | Some content_length =>
            let body_start := header_end + length CRLF2 in
            let body_end := (N.of_nat body_start + content_length)%N in
            if (usize_max <? body_end)%N then None
            else if (N.of_nat (length rest) <? body_end)%N then Some ShortBody
            else Some (Body (from_utf8_lossy (take (N.to_nat content_length) (drop body_start rest)))
                            (offset + N.to_nat body_end))
        end
    end.

(** ** Reading a frame from the pipe *)

Inductive HeaderEnd :=
| Header (header : list byte)
| Closed
| Broken (e : IoError).

(** The header loop.  A round that goes on has taken a byte from the stream, so as
    many rounds as the stream has items are enough; [None] is the end of the fuel. *)
Fixpoint read_header (fuel : nat) (header : list byte) (p : PipedInput.t) :
    option (PipedInput.t * HeaderEnd) :=
  match fuel with
  | 0 => None
  | S fuel =>
      match PipedInput.read_until lf header p with
      | (p, _, Err e) => Some (p, Broken e)
      | (p, _, Ok 0) => Some (p, Closed)
      | (p, header, Ok _) =>
          if ends_with CRLF2 header then Some (p, Header header) else read_header fuel header p
      end
  end.

(** [s.lines()]. *)
Fixpoint lines_of (pieces : list (list byte)) : list (list byte) :=
  match pieces with
  | [] => []
  | [last] => if bool_decide (last = []) then [] else [last]
  | line :: pieces => default line (strip_suffix [cr] line) :: lines_of pieces
  end.

Definition lines (text : list byte) : list (list byte) :=
  lines_of (split_on (λ c, bool_decide (c = lf)) text).

Fixpoint first_length (headers : list (list byte)) : option (list byte) :=
  match headers with
  | [] => None
  | header :: headers =>
      match strip_prefix HEADER header with
      | Some value => Some value
      | None => first_length headers
      end
  end.

Inductive HeaderError := NotUtf8 | LengthMissing | LengthUnreadable.

(** The announced length: the first [Content-Length] counts. *)
Definition header_length (header : list byte) : result N HeaderError :=
  if negb (is_utf8 header) then Err NotUtf8
  else
    let? value := ok_or (first_length (lines header)) LengthMissing in
    ok_or (parse_uint usize_max (trim value)) LengthUnreadable.

Inductive Received :=
| Message (message : list byte)
| Ended
| HeaderBroken (e : IoError)
| BadHeader (e : HeaderError)
| BodyBroken (e : IoError).

(** [read_framed_message] and [read_framed_body], before their errors. *)
Definition receive (p : PipedInput.t) : option (PipedInput.t * Received) :=
  '(p, ended) ← read_header (S (length (stream p))) [] p;
  match ended with
  | Broken e => Some (p, HeaderBroken e)
  | Closed => Some (p, Ended)
  | Header header =>
      match header_length header with
      | Err e => Some (p, BadHeader e)
      | Ok content_length =>
          match PipedInput.read_exact_to (N.to_nat content_length) header p with
          | (p, message, Ok _) => Some (p, Message message)
          | (p, _, Err e) => Some (p, BodyBroken e)
          end
      end
  end.

(** ** Values of the protocols *)

Definition text_of (l : list byte) : string := String.string_of_list_ascii l.

Section json.
Context {Num : Type}.

(** [value.get(key)], [as_u64], [as_str], [as_bool] and [as_array]. *)
Definition get (key : string) (value : Value Num) : option (Value Num) :=
  match value with VObject map => map_get (bytes key) map | _ => None end.

Definition value_as_u64 (as_u64 : Num → option N) (value : Value Num) : option N :=
  match value with VNumber n => as_u64 n | _ => None end.

Definition value_as_str (value : Value Num) : option string :=
  match value with VString s => Some (text_of s) | _ => None end.

Definition value_as_bool (value : Value Num) : option bool :=
  match value with VBool b => Some b | _ => None end.

Definition value_as_array (value : Value Num) : option (list (Value Num)) :=
  match value with VArray items => Some items | _ => None end.

(** [json!] objects. *)
Definition object (entries : list (string * Value Num)) : Value Num :=
  VObject ((λ e, (bytes e.1, e.2)) <$> entries).
Definition text (s : string) : Value Num := VString (bytes s).
End json.

(** ** What a peer writes *)

Section peer.
Context {V : Type} (to_string : V → list byte) (from_str : list byte → result V string).

(** A value that is read back as it was printed, in a frame the machine can count. *)
Definition prints (v : V) : Prop :=
  is_utf8 (to_string v) = true ∧ from_str (to_string v) = Ok v ∧
  (N.of_nat (length (frame (to_string v))) ≤ usize_max)%N.

(** The bytes of a sequence of messages. *)
Definition frames (vs : list V) : list byte := concat ((λ v, frame (to_string v)) <$> vs).

Lemma frames_cons v vs : frames (v :: vs) = frame (to_string v) ++ frames vs.
Proof. done. Qed.
End peer.

(** ** Lemmas on text *)

Lemma drop_while_stop {A} (p : A → bool) l k :
  Forall (λ x, p x = true) l → Forall (λ x, p x = false) k → drop_while p (l ++ k) = k.
Proof.
  induction 1 as [|x l Hx _ IH]; cbn [app drop_while]; [|rewrite Hx; done].
  destruct 1 as [|y k Hy _]; [done|]. cbn [drop_while]. by rewrite Hy.
Qed.

Lemma digit_not_white c : is_digit c = true → is_white [c] = false.
Proof. by destruct c as [[] [] [] [] [] [] [] []]. Qed.

Lemma trim_digits w ds :
  Forall (λ c, code_in 0 127 c = true ∧ is_white [c] = true) w →
  Forall (λ c, is_digit c = true) ds → trim (w ++ ds) = ds.
Proof.
  intros Hw Hds. unfold trim. rewrite chars_ascii.
  2:{ apply Forall_app. split; eapply Forall_impl; eauto using digit_ascii. naive_solver. }
  rewrite fmap_app, drop_while_stop.
  - replace (drop_while is_white (reverse ((λ c, [c]) <$> ds))) with (reverse ((λ c : byte, [c]) <$> ds)).
    { by rewrite reverse_involutive, concat_singletons. }
    symmetry. apply (drop_while_stop is_white []); [done|]. apply Forall_reverse, Forall_fmap.
    eapply Forall_impl; eauto using digit_not_white.
  - apply Forall_fmap. eapply Forall_impl; [done|]. naive_solver.
  - apply Forall_fmap. eapply Forall_impl; eauto using digit_not_white.
Qed.

Lemma split_crlf_line l : cr ∉ l → split_crlf l = [l].
Proof.
  induction l as [|c l IH]; intros H; [done|]. apply not_elem_of_cons in H as [Hc Hl].
  specialize (IH Hl). cbn [split_crlf]. destruct l as [|d l]; [done|].
  rewrite bool_decide_eq_false_2 by done. cbn [andb]. by rewrite IH.
Qed.

(** The first occurrence of a needle whose first character is new. *)
Lemma find_sub_fresh c needle l k :
  c ∉ l → find_sub (c :: needle) (l ++ (c :: needle) ++ k) = Some (length l).
Proof.
  intros H. induction l as [|d l IH].
  - assert (Hs : starts_with (c :: needle) ((c :: needle) ++ k) = true)
      by (apply starts_with_app; by exists k).
    cbn [app]. cbn [find_sub]. cbn [app] in Hs. by rewrite Hs.
  - apply not_elem_of_cons in H as [Hd Hl]. cbn [app find_sub].
    cbn [app] in IH. replace (starts_with (c :: needle) (d :: l ++ c :: needle ++ k)) with false; [by rewrite IH|].
    cbn [starts_with]. symmetry. by rewrite decide_False.
Qed.

(** ** Lemmas on frames *)

Definition announced (n : N) : list byte := bytes "Content-Length: " ++ dec n.

Lemma frame_split body :
  frame body = announced (N.of_nat (length body)) ++ CRLF2 ++ body.
Proof. unfold frame, announced. by rewrite <- app_assoc. Qed.

Lemma dec_is_digits n : dec n ≠ [] ∧ Forall (λ c, is_digit c = true) (dec n).
Proof.
  destruct (dec_digits n) as (Hne & Hd & _). split; [done|].
  eapply Forall_impl; [done|]. intros c. apply Is_true_true.
Qed.

Lemma announced_plain n c : c = cr ∨ c = lf → c ∉ announced n.
Proof.
  intros Hc [H|H]%elem_of_app.
  - revert H. destruct Hc as [-> | ->]; apply (bool_decide_unpack _); by vm_compute.
  - destruct (dec_is_digits n) as [_ Hd]. rewrite Forall_forall in Hd. apply Hd in H.
    by destruct Hc as [-> | ->].
Qed.

Lemma announced_ascii n : Forall (λ c, code_in 0 127 c = true) (announced n).
Proof.
  apply Forall_app. split; [apply (bool_decide_unpack _); by vm_compute|].
  destruct (dec_is_digits n) as [_ Hd]. eapply Forall_impl; eauto using digit_ascii.
Qed.

Lemma parse_announced n :
  (n ≤ usize_max)%N → parse_uint usize_max (trim (bytes " " ++ dec n)) = Some n.
Proof.
  intros Hn. destruct (dec_is_digits n) as [Hne Hd]. rewrite trim_digits; [|by repeat constructor|done].
  unfold parse_uint. destruct (dec n) as [|c ds] eqn:E; [done|]. rewrite decide_False.
  - rewrite <- E, parse_dec_dec. simpl. destruct (N.leb_spec n usize_max); [done|lia].
  - intros ->. apply Forall_cons in Hd as [Hd _]. done.
Qed.

Lemma strip_announced n : strip_prefix HEADER (announced n) = Some (bytes " " ++ dec n).
Proof. apply strip_prefix_Some. done. Qed.

Lemma frame_length_announced n :
  (n ≤ usize_max)%N → frame_length (from_utf8_lossy (announced n)) = Some n.
Proof.
  intros Hn. rewrite lossy_valid by apply is_utf8_ascii, announced_ascii.
  unfold frame_length. rewrite split_crlf_line by (apply announced_plain; auto).
  cbn [foldl]. rewrite strip_announced. by apply parse_announced.
Qed.

Lemma length_head n : length (announced n ++ CRLF2) = length (announced n) + 4.
Proof. by rewrite length_app. Qed.

Lemma length_announced body :
  length (frame body) = length (announced (N.of_nat (length body))) + 4 + length body.
Proof. rewrite frame_split, !length_app. cbn. lia. Qed.

Lemma headers_end_announced n k :
  find_headers_end (announced n ++ CRLF2 ++ k) = Some (length (announced n)).
Proof. apply (find_sub_fresh cr). apply announced_plain. auto. Qed.

(** A frame that ends within the buffer is cut out, and the offset is behind it. *)
Lemma cut_frame_whole pre body post :
  is_utf8 body = true → (N.of_nat (length (frame body)) ≤ usize_max)%N →
  cut_frame (pre ++ frame body ++ post) (length pre) =
  Some (Body body (length pre + length (frame body))).
Proof.
  intros Hu Hl. unfold cut_frame. rewrite length_app.
  destruct (Nat.ltb_spec (length pre + length (frame body ++ post)) (length pre)); [lia|].
  rewrite drop_app_length. rewrite frame_split, <- !app_assoc, headers_end_announced.
  set (n := N.of_nat (length body)). rewrite take_app_length. pose proof (length_announced body) as Hlen.
  rewrite frame_length_announced by (subst n; lia). cbn [length CRLF2].
  destruct (N.ltb_spec usize_max (N.of_nat (length (announced n) + 4) + n)); [subst n; lia|].
  destruct (N.ltb_spec (N.of_nat (length (announced n ++ CRLF2 ++ body ++ post)))
              (N.of_nat (length (announced n) + 4) + n)) as [Hlt|_].
  { rewrite !length_app in Hlt. cbn in Hlt. subst n. lia. }
  replace (length (announced n) + 4) with (length (announced n ++ CRLF2))
    by (rewrite length_app; done).
  rewrite (app_assoc (announced n)), drop_app_length. subst n. rewrite Nat2N.id, take_app_length.
  rewrite lossy_valid by done. do 2 f_equal. rewrite !length_app. cbn. lia.
Qed.

Lemma take_fresh (c : byte) l k n : c ∉ l → n < length l → (l ++ k) !! n ≠ Some c.
Proof. intros Hc Hn H. rewrite lookup_app_l in H by done. by apply list_elem_of_lookup_2 in H. Qed.

(** A header that has not ended has no end. *)
Lemma headers_end_partial n k :
  k < length (announced n) + 4 → find_headers_end (take k (announced n ++ CRLF2)) = None.
Proof.
  intros Hk. destruct (find_headers_end _) as [i|] eqn:E; [|done]. exfalso.
  apply find_sub_Some in E.
  assert (Hlen : i + 4 ≤ k).
  { apply (f_equal length) in E. rewrite !length_app, !length_take, length_drop, length_take in E.
    rewrite length_app in E. cbn [length CRLF2] in E. lia. }
  assert (Hi : take k (announced n ++ CRLF2) !! i = Some cr).
  { rewrite <- E, lookup_app_r; rewrite length_take, length_take, length_app; cbn [length CRLF2]; [|lia].
    replace (i - _) with 0 by lia. done. }
  rewrite lookup_take_lt in Hi by lia. revert Hi. apply take_fresh; [apply announced_plain; auto|lia].
Qed.

(** A frame of which only a part has arrived is refused, and the offset stays. *)
Lemma cut_frame_partial pre body part more :
  (N.of_nat (length (frame body)) ≤ usize_max)%N → frame body = part ++ more → more ≠ [] →
  cut_frame (pre ++ part) (length pre) = Some NoTerminator ∨
  cut_frame (pre ++ part) (length pre) = Some ShortBody.
Proof.
  intros Hl Hf Hm. unfold cut_frame. rewrite length_app.
  destruct (Nat.ltb_spec (length pre + length part) (length pre)); [lia|]. rewrite drop_app_length.
  set (n := N.of_nat (length body)).
  assert (Hpart : part = take (length part) (announced n ++ CRLF2 ++ body)).
  { unfold n. rewrite <- frame_split, Hf. by rewrite take_app_length. }
  assert (Hlen : length part < length (announced n) + 4 + length body).
  { unfold n. rewrite <- length_announced, Hf, length_app. destruct more; [done|]. simpl. lia. }
  pose proof (length_announced body) as Hfl. fold n in Hfl.
  destruct (decide (length part < length (announced n) + 4)) as [Hk|Hk].
  - left. replace (find_headers_end part) with (@None nat); [done|].
    rewrite Hpart, app_assoc, take_app_le by (rewrite length_head; lia).
    by rewrite headers_end_partial.
  - right.
    assert (Hp : part = announced n ++ CRLF2 ++ take (length part - (length (announced n) + 4)) body).
    { rewrite Hpart at 1. rewrite app_assoc, take_app_ge by (rewrite length_head; lia).
      by rewrite length_head, <- app_assoc. }
    rewrite Hp at 1. rewrite headers_end_announced. rewrite Hp at 1. rewrite take_app_length.
    rewrite frame_length_announced by lia. cbn [length CRLF2].
    destruct (N.ltb_spec usize_max (N.of_nat (length (announced n) + 4) + n)); [lia|].
    destruct (N.ltb_spec (N.of_nat (length part)) (N.of_nat (length (announced n) + 4) + n)); [done|].
    lia.
Qed.

(** ** Lemmas on receiving *)

#[local] Arguments header_length : simpl never.
#[local] Arguments announced : simpl never.

Lemma read_header_step fuel header p s d n :
  until lf (stream p) = (s, d, Ok (S n)) →
  ∃ p', stream p' = s ∧
    read_header (S fuel) header p =
    if ends_with CRLF2 (header ++ d) then Some (p', Header (header ++ d))
    else read_header fuel (header ++ d) p'.
Proof.
  intros H. destruct (read_until_spec lf header p s d (Ok (S n)) H) as (p' & E & Hs).
  exists p'. split; [done|]. cbn [read_header]. by rewrite E.
Qed.

(** The header loop ends within its fuel. *)
Lemma read_header_total fuel : ∀ header p,
  length (stream p) < fuel → is_Some (read_header fuel header p).
Proof.
  induction fuel as [|fuel IH]; intros header p Hf; [lia|].
  destruct (until lf (stream p)) as [[s d] [[|n]|e]] eqn:E.
  - destruct (read_until_spec lf header p _ _ _ E) as (p' & E' & _). cbn [read_header].
    rewrite E'. eauto.
  - destruct (read_header_step fuel header p s d n E) as (p' & Hs & ->).
    destruct (ends_with CRLF2 (header ++ d)); [eauto|]. apply IH. rewrite Hs.
    apply until_ok in E as [E Hd]. rewrite E, length_app, length_fmap in Hf. lia.
  - destruct (read_until_spec lf header p _ _ _ E) as (p' & E' & _). cbn [read_header].
    rewrite E'. eauto.
Qed.

Lemma receive_total p : is_Some (receive p).
Proof.
  unfold receive. destruct (read_header_total (S (length (stream p))) [] p) as [[p' e] ->]; [lia|].
  simpl. destruct e as [header| |]; [|eauto..]. destruct (header_length header); [|eauto].
  destruct (PipedInput.read_exact_to _ _ _) as [[] []]; eauto.
Qed.

Lemma ends_with_announced n : ends_with CRLF2 (announced n ++ [cr; lf]) = false.
Proof.
  unfold ends_with. rewrite rev_app_distr. cbn [CRLF2 rev app starts_with].
  destruct (rev (announced n)) as [|c l] eqn:E; [done|]. rewrite !decide_True by done.
  rewrite decide_False; [done|]. intros <-. apply (announced_plain n lf); [auto|].
  apply list_elem_of_In, in_rev. rewrite E. by left.
Qed.

Lemma read_header_frame fuel n p rest :
  stream p = (inl <$> announced n ++ CRLF2) ++ rest → 2 ≤ fuel →
  ∃ p', read_header fuel [] p = Some (p', Header (announced n ++ CRLF2)) ∧ stream p' = rest.
Proof.
  intros Hs Hf. destruct fuel as [|[|fuel]]; [lia..|].
  assert (H1 : until lf (stream p) =
    ((inl <$> [cr] ++ [lf]) ++ rest, (announced n ++ [cr]) ++ [lf], Ok (S (length (announced n ++ [cr]))))).
  { rewrite Hs. rewrite <- (until_line (announced n ++ [cr]) lf).
    - rewrite app_assoc, <- fmap_app. do 3 f_equal. by rewrite <- !app_assoc.
    - intros [H|H]%elem_of_app; [revert H; apply announced_plain; auto|].
      by apply list_elem_of_singleton in H. }
  destruct (read_header_step (S fuel) [] p _ _ _ H1) as (p1 & Hs1 & ->).
  cbn [app]. rewrite <- app_assoc. cbn [app]. rewrite ends_with_announced.
  assert (H2 : until lf (stream p1) = (rest, [cr; lf], Ok 2)).
  { rewrite Hs1. apply (until_line [cr] lf). apply (bool_decide_unpack _). by vm_compute. }
  destruct (read_header_step fuel (announced n ++ [cr; lf]) p1 _ _ _ H2) as (p2 & Hs2 & ->).
  rewrite <- app_assoc. change ([cr; lf] ++ [cr; lf]) with CRLF2. rewrite ends_with_app. eauto.
Qed.

Lemma header_length_announced n : (n ≤ usize_max)%N → header_length (announced n ++ CRLF2) = Ok n.
Proof.
  intros Hn. unfold header_length. rewrite is_utf8_ascii.
  2:{ apply Forall_app. split; [apply announced_ascii|by repeat constructor]. }
  cbn [negb]. unfold lines. change CRLF2 with ([cr] ++ [lf; cr; lf]).
  rewrite app_assoc, split_on_app.
  - assert (lines_of ((announced n ++ [cr]) :: split_on (λ c, bool_decide (c = lf)) [cr; lf]) =
      [announced n; []]) as ->.
    { cbn [lines_of split_on]. by rewrite strip_suffix_app. }
    cbn [first_length]. rewrite strip_announced. cbn [ok_or result_bind]. by rewrite parse_announced.
  - apply Forall_app. split; [|by repeat constructor]. apply Forall_forall. intros c Hc.
    apply bool_decide_eq_false_2. intros ->. revert Hc. apply announced_plain. auto.
  - done.
Qed.

(** A frame is received whole, and the stream is behind it. *)
Lemma receive_frame p body rest :
  (N.of_nat (length body) ≤ usize_max)%N → stream p = (inl <$> frame body) ++ rest →
  ∃ p', receive p = Some (p', Message (frame body)) ∧ stream p' = rest.
Proof.
  intros Hn Hs. unfold receive.
  set (n := N.of_nat (length body)).
  assert (Hs' : stream p = (inl <$> announced n ++ CRLF2) ++ (inl <$> body) ++ rest).
  { rewrite Hs, frame_split, app_assoc, fmap_app, <- app_assoc. done. }
  destruct (read_header_frame (S (length (stream p))) n p _ Hs') as (p1 & -> & Hs1).
  { rewrite Hs', !length_app, length_fmap, length_app. cbn [length CRLF2]. lia. }
  cbn [mbind option_bind]. rewrite header_length_announced by done. subst n. rewrite Nat2N.id.
  destruct (read_exact_spec (length body) (announced (N.of_nat (length body)) ++ CRLF2) p1 rest body (Ok tt))
    as (p2 & E & Hs2); [rewrite Hs1; apply exactly_bytes|].
  rewrite E. exists p2. split; [|done]. by rewrite frame_split, app_assoc.
Qed.

Lemma receive_closed p : stream p = [] → ∃ p', receive p = Some (p', Ended) ∧ stream p' = [].
Proof.
  intros Hs. unfold receive. rewrite Hs. cbn [length read_header].
  destruct (read_until_spec lf [] p [] [] (Ok 0)) as (p' & -> & Hs'); [by rewrite Hs|]. by exists p'.
Qed.

(** A message received is what the stream held, and is not empty. *)
Lemma read_header_ok fuel : ∀ header p p' h,
  read_header fuel header p = Some (p', Header h) →
  ∃ d, h = header ++ d ∧ d ≠ [] ∧ stream p = (inl <$> d) ++ stream p'.
Proof.
  induction fuel as [|fuel IH]; intros header p p' h; [done|].
  destruct (until lf (stream p)) as [[s d] r] eqn:E. cbn [read_header].
  destruct (read_until_spec lf header p _ _ _ E) as (p1 & -> & Hs1).
  destruct r as [[|n]|e]; [done| |done]. apply until_ok in E as [E Hn].
  assert (Hd : d ≠ []) by (by intros ->).
  destruct (ends_with CRLF2 (header ++ d)).
  - intros [= <- <-]. exists d. by rewrite E, Hs1.
  - intros (d' & -> & _ & Hs')%IH. exists (d ++ d'). rewrite app_assoc. split; [done|].
    split; [by destruct d|]. by rewrite E, <- Hs1, Hs', fmap_app, app_assoc.
Qed.

Lemma exactly_ok count s s' d : exactly count s = (s', d, Ok tt) → s = (inl <$> d) ++ s'.
Proof.
  unfold exactly. pose proof (span_split s) as Hs. destruct (span_bytes s) as [l rest].
  cbn [fst snd] in Hs. destruct (count <=? length l).
  - intros [= <- <-]. by rewrite app_assoc, <- fmap_app, take_drop.
  - by destruct rest as [|[] ].
Qed.

Lemma receive_message p p' m :
  receive p = Some (p', Message m) → m ≠ [] ∧ stream p = (inl <$> m) ++ stream p'.
Proof.
  unfold receive. intros ([p1 ended] & Hh & H)%bind_Some. destruct ended as [header| |]; [|done..].
  apply read_header_ok in Hh as (d & -> & Hd & Hs). destruct (header_length _) as [n|]; [|done].
  destruct (exactly (N.to_nat n) (stream p1)) as [[s d'] r] eqn:E.
  destruct (read_exact_spec (N.to_nat n) ([] ++ d) p1 s d' r E) as (p2 & E2 & Hs2).
  rewrite E2 in H. destruct r as [[]|]; [|done]. injection H as <- <-.
  apply exactly_ok in E. split; [by destruct d|]. by rewrite Hs, E, Hs2, fmap_app, app_assoc.
Qed.

(** ** Lemmas on what a peer writes *)

Lemma frame_not_nil body : frame body ≠ [].
Proof. done. Qed.

Lemma receive_value {V} (to_string : V → list byte) from_str p v more :
  prints to_string from_str v → stream p = (inl <$> frame (to_string v)) ++ more →
  ∃ p', receive p = Some (p', Message (frame (to_string v))) ∧ stream p' = more.
Proof.
  intros (_ & _ & Hl) Hs. pose proof (length_announced (to_string v)).
  apply receive_frame; [lia|done].
Qed.

(** There are no more messages than bytes. *)
Lemma frames_length {V} (to_string : V → list byte) vs : length vs ≤ length (frames to_string vs).
Proof.
  induction vs as [|v vs IH]; [simpl; lia|].
  rewrite frames_cons, length_app. rewrite length_announced. cbn [length]. lia.
Qed.

(** Two headers: the reader takes the first length, [read_frame] the last, whose end
    overflows. *)
Lemma huge_length_aborts :
  let header := bytes "Content-Length: 1" ++ CRLF ++
                bytes "Content-Length: 18446744073709551615" ++ CRLF2 in
  header_length header = Ok 1%N ∧ cut_frame (header ++ bytes "x") 0 = None.
Proof. by vm_compute. Qed.
