(* ===== verification/Language.v ===== *)
(** * The languages of the program: [crates/supra_digest/src/symbol.rs]

    Which language a file is in, by its extension, and the language server and the
    debug adapter each language has ([supra_lsp/src/servers.rs],
    [supra_dap/src/adapters.rs]). *)

From Stdlib Require Import Ascii.
From S2P Require Import Prelude Text FileSystem.

Inductive Language := Rust | TypeScript | Python | JavaScript | Go | C | Cpp.

#[export] Instance Language_eq_dec : EqDecision Language.
Proof. solve_decision. Defined.

Module Language.
Definition ALL : list Language := [Rust; TypeScript; Python; JavaScript; Go; C; Cpp].

Definition name (l : Language) : string :=
  match l with
  | Rust => "rust"
  | TypeScript => "typescript"
  | Python => "python"
  | JavaScript => "javascript"
  | Go => "go"
  | C => "c"
  | Cpp => "cpp"
  end.

(** [Path::extension]: what follows the last dot of the file name, when something
    precedes that dot. *)
Definition extension (path : string) : option string :=
  name ← file_name path;
  let pieces := split_on (λ c, bool_decide (c = "."%char)) (bytes name) in
  match reverse pieces with
  | extension :: stem :: rest =>
      if bool_decide (stem = []) && bool_decide (rest = []) then None
      else Some (String.string_of_list_ascii extension)
  | _ => None
  end.

Definition detect (path : string) : option Language :=
  extension ← extension path;
  if bool_decide (extension = "rs") then Some Rust
  else if bool_decide (extension ∈ ["ts"; "tsx"; "mts"; "cts"]) then Some TypeScript
  else if bool_decide (extension = "py") then Some Python
  else if bool_decide (extension ∈ ["js"; "jsx"; "mjs"; "cjs"]) then Some JavaScript
  else if bool_decide (extension = "go") then Some Go
  else if bool_decide (extension ∈ ["c"; "h"]) then Some C
  else if bool_decide (extension ∈ ["cpp"; "cc"; "cxx"; "hpp"; "hh"; "hxx"]) then Some Cpp
  else None.
End Language.

Module Server.
Inductive t := RustAnalyzer | TypeScript | Pyright | Gopls | Clangd.

Definition ALL : list t := [RustAnalyzer; TypeScript; Pyright; Gopls; Clangd].

Definition program (s : t) : string :=
  match s with
  | RustAnalyzer => "rust-analyzer"
  | TypeScript => "typescript-language-server"
  | Pyright => "pyright-langserver"
  | Gopls => "gopls"
  | Clangd => "clangd"
  end.

Definition args (s : t) : list string :=
  match s with TypeScript => ["--stdio"] | _ => [] end.

Definition for_language (l : Language) : option t :=
  match l with
  | Rust => Some RustAnalyzer
  | Language.TypeScript | JavaScript => Some TypeScript
  | Python => Some Pyright
  | Go => Some Gopls
  | C | Cpp => Some Clangd
  end.
End Server.

Module Adapter.
Inductive t := CodeLldb | DebugPy | Delve.

Definition ALL : list t := [CodeLldb; DebugPy; Delve].

Definition program (a : t) : string :=
  match a with
  | CodeLldb => "codelldb"
  | DebugPy => "debugpy-adapter"
  | Delve => "dlv"
  end.

Definition args (a : t) : list string := [].

Definition for_language (l : Language) : option t :=
  match l with
  | Rust | C | Cpp => Some CodeLldb
  | Python => Some DebugPy
  | Go => Some Delve
  | TypeScript | JavaScript => None
  end.
End Adapter.

Example detect_examples :
  Language.detect "src/main.rs" = Some Rust ∧ Language.detect "a/.rs" = None ∧
  Language.detect "x.tar.cc" = Some Cpp ∧ Language.detect "Makefile" = None ∧
  Language.detect "lib.d/x.HPP" = None.
Proof. by vm_compute. Qed.
