(* ===== verification/Lsp.v ===== *)
(** * The language-server client: [crates/supra_lsp]

    Messages ([framing.rs]), the client over its process ([client.rs]), its errors
    ([error.rs]) and the coordinates the protocol speaks.  [serde_json]'s printing,
    parsing and numbers, the decoding of the list of locations, the file system and
    what each spawned process answers are parameters. *)

From Stdlib Require Import Ascii.
From S2P Require Import Prelude Text Sealing Utf8 Canonical Tool FileSystem Piped Framing Language.

Inductive LspError :=
| Transport (what : string)
| Protocol (reason : string)
| Uncovered (language : string)
| ServerRefused (reason : string)
| Crashed (reason : string).

#[export] Instance LspError_eq_dec : EqDecision LspError.
Proof. solve_decision. Defined.

(** ** Coordinates *)

(** [char::len_utf16] of a character as its bytes. *)
Definition len_utf16 (ch : list byte) : nat :=
  match ch with c :: _ => if (240 <=? N_of_ascii c)%N then 2 else 1 | [] => 1 end.

Definition newline : list byte := [lf].
Definition carriage : list byte := [cr].

(** The loop of [position_of], over the characters and the offset of each. *)
Fixpoint position_from (chs : list (list byte)) (index byte line character : nat) : nat * nat :=
  match chs with
  | [] => (line, character)
  | symbol :: chs =>
      if byte <=? index then (line, character)
      else if bool_decide (symbol = newline)
      then position_from chs (index + length symbol) byte (line + 1) 0
      else position_from chs (index + length symbol) byte line (character + len_utf16 symbol)
  end.

Definition position_of (text : list byte) (byte : nat) : nat * nat :=
  position_from (chars text) 0 byte 0 0.

(** The first loop of [byte_offset]: the line reached and the start of the last
    line counted. *)
Fixpoint line_from (chs : list (list byte)) (index line current_line line_start : nat) : nat * nat :=
  match chs with
  | [] => (current_line, line_start)
  | symbol :: chs =>
      if line <? current_line then (current_line, line_start)
      else
        let index' := index + length symbol in
        if bool_decide (symbol = newline) then
          if current_line + 1 <=? line
          then line_from chs index' line (current_line + 1) index'
          else line_from chs index' line (current_line + 1) line_start
        else line_from chs index' line current_line line_start
  end.

(** The second loop, relative to the start of the line. *)
Fixpoint column_from (chs : list (list byte)) (index character units : nat) : option nat :=
  match chs with
  | [] => None
  | symbol :: chs =>
      if bool_decide (symbol = newline ∨ symbol = carriage) then Some index
      else if character <=? units then Some index
      else column_from chs (index + length symbol) character (units + len_utf16 symbol)
  end.

Definition byte_offset (text : list byte) (line character : nat) : option nat :=
  let '(current_line, line_start) := line_from (chars text) 0 line 0 0 in
  if current_line <? line then None
  else match column_from (chars (drop line_start text)) 0 character 0 with
  | Some index => Some (line_start + index)
  | None => Some (length text)
  end.

Record Location := mkLocation { uri : list byte; start_line : nat; start_character : nat }.

Record Reference := mkReference { file : string; occurrences : list nat; semantic : bool }.

Definition path_from_uri (uri : list byte) : option string :=
  text_of <$> strip_prefix (bytes "file://") uri.

Section lsp.
Context {Num : Type}.
Abbreviation json := (Value Num).
Context (to_string : json → list byte) (from_str : list byte → result json string).
Context (as_u64 : Num → option N) (of_u64 : N → Num).
Context (locations : json → result (list Location) string).

#[local] Abbreviation value_as_u64 := (value_as_u64 as_u64).

(** ** Messages: [framing.rs] *)

Inductive Framed :=
| Response (id : N) (result : json)
| Notification
| Malformed (reason : string).

(** What a parsed body is. *)
Definition decode (value : json) : Framed :=
  if bool_decide (is_Some (get "method" value)) && bool_decide (get "id" value = None)
  then Notification
  else match get "id" value ≫= value_as_u64 with
  | Some id => Response id (default VNull (get "result" value))
  | None => Malformed "response without id"
  end.

Definition read_frame (input : list byte) (offset : nat) : option (Framed * nat) :=
  cut ← cut_frame input offset;
  Some match cut with
  | NoTerminator => (Malformed "no header terminator yet", offset)
  | NoLength => (Malformed "no Content-Length header", offset)
  | ShortBody => (Malformed "body shorter than Content-Length", offset)
  | Body body next =>
      match from_str body with
      | Ok value => (decode value, next)
      | Err error => (Malformed error, next)
      end
  end.

(** ** The client: [client.rs] *)

(** The process's pipes: what will arrive, whether each write will be taken ([true]
    from the end of the list on), and what was written. *)
Record Client := mkClient {
  input : PipedInput.t;
  writes : list bool;
  sent : list (list byte);
  alive : bool;
  next_id : N;
  initialized : bool;
}.

(** What a freshly spawned process will do. *)
Record Process := mkProcess { p_arrivals : list Arrival; p_writes : list bool }.

Definition kill_child (c : Client) : Client :=
  mkClient (input c) (writes c) (sent c) false (next_id c) (initialized c).

Definition with_input (p : PipedInput.t) (c : Client) : Client :=
  mkClient p (writes c) (sent c) (alive c) (next_id c) (initialized c).

Definition with_id (id : N) (c : Client) : Client :=
  mkClient (input c) (writes c) (sent c) (alive c) id (initialized c).

Definition with_initialized (b : bool) (c : Client) : Client :=
  mkClient (input c) (writes c) (sent c) (alive c) (next_id c) b.

(** [spawn]: [process] is what the operating system gives. *)
Definition spawn (process : option Process) (language : Language) : result Client LspError :=
  let? server := ok_or (Server.for_language language) (Uncovered (Language.name language)) in
  let? process := ok_or process (Transport (Server.program server)) in
  Ok (mkClient (PipedInput.new (p_arrivals process)) (p_writes process) [] true 0 false).

Definition spawn_child (process : option Process) (c : Client) : Client * result unit LspError :=
  match process with
  | None => (c, Err (Transport "restart"))
  | Some process =>
      (mkClient (PipedInput.new (p_arrivals process)) (p_writes process) [] true
         (next_id c) (initialized c), Ok tt)
  end.

Definition write_framed (value : json) (c : Client) : Client * result unit LspError :=
  let c' sent' :=
    mkClient (input c) (tail (writes c)) sent' (alive c) (next_id c) (initialized c) in
  if default true (head (writes c)) then (c' (sent c ++ [frame (to_string value)]), Ok tt)
  else (c' (sent c), Err (Transport "write")).

Definition header_error (e : HeaderError) : LspError :=
  Protocol match e with
  | NotUtf8 => "non-UTF-8 headers"
  | LengthMissing => "no Content-Length header"
  | LengthUnreadable => "Content-Length"
  end.

Definition read_framed_message (c : Client) : option (Client * result (list byte) LspError) :=
  '(p, received) ← receive (input c);
  let c := with_input p c in
  Some match received with
  | Message message => (c, Ok message)
  | Ended => (kill_child c, Ok [])
  | HeaderBroken _ => (kill_child c, Err (Transport "read"))
  | BadHeader e => (c, Err (header_error e))
  | BodyBroken _ => (kill_child c, Err (Transport "read body"))
  end.

(** The loop of [send_and_expect]: one message a round, so as many rounds as the
    stream has items are enough. *)
Fixpoint expect (fuel : nat) (id : N) (c : Client) : option (Client * result json LspError) :=
  match fuel with
  | 0 => None
  | S fuel =>
      '(c, message) ← read_framed_message c;
      match message with
      | Err e => Some (c, Err e)
      | Ok message =>
          if bool_decide (message = []) then
            Some (c, Err (Crashed "the server closed without answering"))
          else
            '(framed, _) ← read_frame message 0;
            match framed with
            | Response seen result =>
                if (seen =? id)%N then Some (c, Ok result) else expect fuel id c
            | Notification => expect fuel id c
            | Malformed reason => Some (c, Err (Protocol reason))
            end
      end
  end.

Definition send_and_expect (request : json) (c : Client) : option (Client * result json LspError) :=
  let id := default usize_max (get "id" request ≫= value_as_u64) in
  match write_framed request c with
  | (c, Err e) => Some (c, Err e)
  | (c, Ok _) => expect (S (length (stream (input c)))) id c
  end.

Definition number (n : N) : json := VNumber (of_u64 n).

Definition initialize_request (id : N) (root : string) : json :=
  object [("jsonrpc", text "2.0"); ("id", number id); ("method", text "initialize");
    ("params", object [("processId", VNull); ("rootUri", text (String.append "file://" root));
                       ("capabilities", object [])])].

Definition initialized_notification : json :=
  object [("jsonrpc", text "2.0"); ("method", text "initialized"); ("params", object [])].

(** [None] is also the abort when the identifiers are used up. *)
Definition initialize (root : string) (c : Client) : option (Client * result unit LspError) :=
  let request := initialize_request (next_id c) root in
  if (next_id c =? usize_max)%N then None
  else
    '(c, answer) ← send_and_expect request (with_id (next_id c + 1) c);
    match answer with
    | Err e => Some (c, Err e)
    | Ok _ =>
        match write_framed initialized_notification c with
        | (c, Err e) => Some (c, Err e)
        | (c, Ok _) => Some (with_initialized true c, Ok tt)
        end
    end.

Definition references_request (id : N) (path : string) (position : nat * nat) : json :=
  object [("jsonrpc", text "2.0"); ("id", number id); ("method", text "textDocument/references");
    ("params", object
      [("context", object [("includeDeclaration", VBool true)]);
       ("textDocument", object [("uri", text (String.append "file://" path))]);
       ("position", object [("line", number (N.of_nat position.1));
                            ("character", number (N.of_nat position.2))])])].

(** One location as a byte offset in the file it names; [read_to_string] answers
    UTF-8 text or nothing. *)
Definition resolve_location (read_to_string : string → option (list byte)) (path : string)
    (contents : list byte) (location : Location) : option Reference :=
  file ← path_from_uri (uri location);
  target ← (if bool_decide (file = path) then Some contents else read_to_string file);
  byte ← byte_offset target (start_line location) (start_character location);
  Some (mkReference file [byte] true).

Definition references_once (read_to_string : string → option (list byte)) (path : string)
    (offset : nat) (c : Client) : option (Client * result (list Reference) LspError) :=
  match read_to_string path with
  | None => Some (c, Err (Transport "read file"))
  | Some contents =>
      if (next_id c =? usize_max)%N then None
      else
        let c := with_id (next_id c + 1) c in
        '(c, answer) ←
          send_and_expect (references_request (next_id c) path (position_of contents offset)) c;
        Some (c,
          let? result := answer in
          let? locations := map_err Protocol (locations result) in
          Ok (omap (resolve_location read_to_string path contents) locations))
  end.

(** [references]: [restarted] is the process a restart would get. *)
Definition references (read_to_string : string → option (list byte)) (restarted : option Process)
    (root path : string) (offset : nat) (c : Client) :
    option (Client * result (list Reference) LspError) :=
  match Language.detect path with
  | None => Some (c, Err (Uncovered "unknown extension"))
  | Some language =>
      match Server.for_language language with
      | None => Some (c, Err (Uncovered (Language.name language)))
      | Some server =>
          '(c, ready) ← (if initialized c then Some (c, Ok tt) else initialize root c);
          match ready with
          | Err e => Some (c, Err e)
          | Ok _ =>
              '(c, answer) ← references_once read_to_string path offset c;
              match answer with
              | Err (Crashed reason) =>
                  let '(c, spawned) := spawn_child restarted (with_initialized false (kill_child c)) in
                  match spawned with
                  | Err e => Some (c, Err e)
                  | Ok _ =>
                      '(c, ready) ← initialize root c;
                      match ready with
                      | Err e => Some (c, Err e)
                      | Ok _ =>
                          '(c, answer) ← references_once read_to_string path offset c;
                          Some (c, match answer with Ok r => Ok r | Err _ => Err (Crashed reason) end)
                      end
                  end
              | answer => Some (c, answer)
              end
          end
      end
  end.
End lsp.

(** ** Lemmas on coordinates *)

Definition size_of (chs : list (list byte)) : nat := length (concat chs).
Definition units_of (chs : list (list byte)) : nat := sum_list (len_utf16 <$> chs).
Definition newlines (chs : list (list byte)) : nat := length (filter (λ ch, ch = newline) chs).

Lemma len_utf16_pos ch : 1 ≤ len_utf16 ch.
Proof. unfold len_utf16. destruct ch; [done|]. destruct (240 <=? N_of_ascii a)%N; lia. Qed.

Lemma size_of_cons ch chs : size_of (ch :: chs) = length ch + size_of chs.
Proof. unfold size_of. simpl. by rewrite length_app. Qed.

Lemma size_of_app l k : size_of (l ++ k) = size_of l + size_of k.
Proof. unfold size_of. by rewrite concat_app, length_app. Qed.

Lemma units_of_cons ch chs : units_of (ch :: chs) = len_utf16 ch + units_of chs.
Proof. done. Qed.

(** What remains of a text's characters are the characters of what remains. *)
Lemma chars_suffix l : ∀ a b, chars l = a ++ b → chars (concat b) = b.
Proof.
  induction l as [|c l IH]; intros a b.
  - intros H. symmetry in H. apply app_nil in H as [_ ->]. done.
  - intros H. destruct a as [|ch a]; [cbn [app] in H; subst b; by rewrite concat_chars|].
    cbn [chars] in H. destruct (at_boundary l).
    + injection H as _ H. by apply (IH a).
    + destruct (chars l) as [|ch' rest] eqn:E.
      * injection H as _ H. symmetry in H. apply app_nil in H as [_ ->]. done.
      * injection H as _ ->. by apply (IH (ch' :: a)).
Qed.

Lemma newlines_app l k : newlines (l ++ k) = newlines l + newlines k.
Proof. unfold newlines. by rewrite filter_app, length_app. Qed.

Lemma position_lines pre k byte : ∀ index line character,
  Forall (λ ch, ch ≠ []) pre → index + size_of pre + 1 ≤ byte →
  position_from (pre ++ newline :: k) index byte line character =
  position_from k (index + size_of pre + 1) byte (line + newlines pre + 1) 0.
Proof.
  induction pre as [|ch pre IH]; intros index line character Hne Hb.
  - cbn [app position_from]. destruct (Nat.leb_spec byte index); [lia|].
    rewrite bool_decide_eq_true_2 by done. f_equal; unfold size_of, newlines; simpl; lia.
  - apply Forall_cons in Hne as [Hch Hne]. rewrite size_of_cons in *.
    assert (length ch ≠ 0) by by destruct ch.
    cbn [app position_from]. destruct (Nat.leb_spec byte index); [lia|].
    unfold newlines. rewrite filter_cons. fold (newlines pre).
    destruct (decide (ch = newline)) as [Hc|Hc].
    + rewrite bool_decide_eq_true_2, IH by (done || lia). cbn [length]. f_equal; unfold newlines; lia.
    + rewrite bool_decide_eq_false_2, IH by (done || lia). f_equal; unfold newlines; lia.
Qed.

Lemma position_line inside k : ∀ index line character,
  Forall (λ ch, ch ≠ []) inside → newline ∉ inside →
  position_from (inside ++ k) index (index + size_of inside) line character =
  (line, character + units_of inside).
Proof.
  induction inside as [|ch inside IH]; intros index line character Hne Hn.
  - unfold units_of. cbn [app fmap list_fmap sum_list foldr]. unfold size_of. cbn [concat length].
    rewrite !Nat.add_0_r. destruct k; cbn [position_from]; [done|].
    destruct (Nat.leb_spec index index); [done|lia].
  - apply Forall_cons in Hne as [Hch Hne]. apply not_elem_of_cons in Hn as [Hc Hn].
    rewrite size_of_cons. assert (length ch ≠ 0) by by destruct ch.
    cbn [app position_from]. destruct (Nat.leb_spec (index + (length ch + size_of inside)) index); [lia|].
    rewrite bool_decide_eq_false_2 by done. rewrite Nat.add_assoc, IH by done.
    rewrite units_of_cons. f_equal. lia.
Qed.

Lemma line_lines pre k line : ∀ index current start,
  current + newlines pre + 1 ≤ line →
  line_from (pre ++ newline :: k) index line current start =
  line_from k (index + size_of pre + 1) line (current + newlines pre + 1) (index + size_of pre + 1).
Proof.
  induction pre as [|ch pre IH]; intros index current start Hl.
  - unfold newlines, size_of in *. cbn [filter list_filter length concat app line_from] in *.
    rewrite !Nat.add_0_r in *. destruct (Nat.ltb_spec line current); [lia|].
    rewrite bool_decide_eq_true_2 by done. destruct (Nat.leb_spec (current + 1) line); [done|lia].
  - unfold newlines in *. rewrite filter_cons in *. rewrite size_of_cons. cbn [app line_from].
    destruct (Nat.ltb_spec line current); [lia|].
    destruct (decide (ch = newline)) as [Hc|Hc].
    + cbn [length] in *. rewrite bool_decide_eq_true_2 by done.
      destruct (Nat.leb_spec (current + 1) line); [|lia]. rewrite IH by lia. f_equal; lia.
    + rewrite bool_decide_eq_false_2 by done. rewrite IH by lia. f_equal; lia.
Qed.

Lemma line_stays k line : ∀ index current start,
  line ≤ current → ∃ current', line_from k index line current start = (current', start) ∧ line ≤ current'.
Proof.
  induction k as [|ch k IH]; intros index current start Hl; cbn [line_from]; [eauto|].
  destruct (line <? current); [eauto|]. destruct (bool_decide (ch = newline)); [|eauto].
  destruct (Nat.leb_spec (current + 1) line); [lia|]. apply IH. lia.
Qed.

Lemma column_line inside k : ∀ index units,
  newline ∉ inside → carriage ∉ inside →
  default (index + size_of (inside ++ k)) (column_from (inside ++ k) index (units + units_of inside) units) =
  index + size_of inside.
Proof.
  induction inside as [|ch inside IH]; intros index units Hn Hc.
  - unfold units_of. cbn [app fmap list_fmap sum_list foldr]. unfold size_of at 2. cbn [concat length].
    rewrite !Nat.add_0_r. destruct k as [|ch k]; cbn [column_from default]; [unfold size_of; simpl; lia|].
    case_bool_decide; [done|]. destruct (Nat.leb_spec units units); [done|lia].
  - apply not_elem_of_cons in Hn as [Hn1 Hn]. apply not_elem_of_cons in Hc as [Hc1 Hc].
    cbn [app column_from]. rewrite bool_decide_eq_false_2 by naive_solver.
    rewrite units_of_cons. pose proof (len_utf16_pos ch). rewrite !size_of_cons.
    destruct (Nat.leb_spec (units + (len_utf16 ch + units_of inside)) units); [lia|].
    specialize (IH (index + length ch) (units + len_utf16 ch) Hn Hc).
    rewrite <- !Nat.add_assoc in IH. rewrite <- ?Nat.add_assoc. rewrite IH. lia.
Qed.

(** The coordinates of a byte, and the byte of the coordinates, in a text whose
    characters are complete lines, the byte's line and the rest. *)
Definition lines_end (before : list (list byte)) : Prop :=
  before = [] ∨ ∃ pre, before = pre ++ [newline].

Lemma position_roundtrip contents before inside after :
  chars contents = before ++ inside ++ after → lines_end before →
  newline ∉ inside → carriage ∉ inside →
  position_of contents (size_of (before ++ inside)) = (newlines before, units_of inside) ∧
  byte_offset contents (newlines before) (units_of inside) = Some (size_of (before ++ inside)).
Proof.
  intros Hc Hb Hn Hr. pose proof (chars_nonempty contents) as Hne. rewrite Hc in Hne.
  apply Forall_app in Hne as [Hne1 [Hne2 Hne3]%Forall_app].
  assert (Hdrop : ∀ n, n = size_of before → chars (drop n contents) = inside ++ after).
  { intros n ->. rewrite <- (concat_chars contents) at 1. rewrite Hc, concat_app.
    unfold size_of. rewrite drop_app_length. by apply (chars_suffix contents before). }
  assert (Hcol : ∀ n cur, n = size_of before → newlines before ≤ cur →
    (if cur <? newlines before then None
     else match column_from (chars (drop n contents)) 0 (units_of inside) 0 with
     | Some index => Some (n + index)
     | None => Some (length contents)
     end) = Some (size_of (before ++ inside))).
  { intros n cur Hsn Hcur. destruct (Nat.ltb_spec cur (newlines before)); [lia|].
    rewrite (Hdrop n Hsn). pose proof (column_line inside after 0 0 Hn Hr) as Hl. cbn [Nat.add] in Hl.
    rewrite size_of_app, <- Hsn, <- Hl.
    destruct (column_from (inside ++ after) 0 (units_of inside) 0); cbn [default]; [done|].
    rewrite Hsn, <- size_of_app, <- Hc. unfold size_of. by rewrite concat_chars. }
  unfold position_of, byte_offset. rewrite Hc. destruct Hb as [-> | (pre & ->)].
  - split.
    + cbn [app]. apply (position_line inside after 0 0 0); done.
    + cbn [app newlines filter list_filter length].
      destruct (line_stays (inside ++ after) 0 0 0 0) as (cur & -> & Hcur); [lia|]. by apply Hcol.
  - apply Forall_app in Hne1 as [Hne1 _].
    rewrite !newlines_app, !size_of_app in *. change (newlines [newline]) with 1 in *.
    change (size_of [newline]) with 1 in *. rewrite <- !(app_assoc pre). cbn [app]. split.
    + rewrite position_lines by (done || lia). cbn [Nat.add]. by rewrite position_line.
    + rewrite line_lines by lia. cbn [Nat.add].
      destruct (line_stays (inside ++ after) (newlines pre + 1) (size_of pre + 1) (newlines pre + 1)
        (size_of pre + 1)) as (cur & -> & Hcur); [lia|]. by apply Hcol.
Qed.

(** ** Lemmas on conversations *)

Section conversation.
Context {Num : Type}.
Abbreviation json := (Value Num).
Context (to_string : json → list byte) (from_str : list byte → result json string).
Context (as_u64 : Num → option N).

#[local] Abbreviation prints := (prints to_string from_str).
#[local] Abbreviation frames := (frames to_string).

(** What waiting for an identifier gives, from the messages alone: the answer or the
    first malformed message, and the messages behind it. *)
Fixpoint awaited (id : N) (vs : list json) : option (result json LspError * list json) :=
  match vs with
  | [] => None
  | v :: vs =>
      match decode as_u64 v with
      | Response seen r => if (seen =? id)%N then Some (Ok r, vs) else awaited id vs
      | Notification => awaited id vs
      | Malformed reason => Some (Err (Protocol reason), vs)
      end
  end.

Lemma read_frame_whole pre v post :
  prints v →
  read_frame from_str as_u64 (pre ++ frame (to_string v) ++ post) (length pre) =
  Some (decode as_u64 v, length pre + length (frame (to_string v))).
Proof.
  intros (Hu & Hp & Hl). unfold read_frame. rewrite cut_frame_whole by done. simpl. by rewrite Hp.
Qed.

Lemma read_message c v more :
  prints v → stream (input c) = (inl <$> frame (to_string v)) ++ more →
  ∃ p, read_framed_message c = Some (with_input p c, Ok (frame (to_string v))) ∧ stream p = more.
Proof.
  intros Hv Hs. destruct (receive_value to_string from_str (input c) v more Hv Hs) as (p & E & Hp).
  exists p. split; [|done]. unfold read_framed_message. rewrite E. done.
Qed.

(** Waiting for an answer depends on the messages alone. *)
Lemma expect_frames id vs more : ∀ fuel c,
  Forall prints vs → stream (input c) = (inl <$> frames vs) ++ more → length vs < fuel →
  match awaited id vs with
  | Some (r, rest) => ∃ p, expect from_str as_u64 fuel id c = Some (with_input p c, r) ∧
      stream p = (inl <$> frames rest) ++ more
  | None => more = [] → ∃ p, stream p = [] ∧
      expect from_str as_u64 fuel id c = Some (kill_child (with_input p c),
        Err (Crashed "the server closed without answering"))
  end.
Proof.
  induction vs as [|v vs IH]; intros fuel c Hvs Hs Hf; (destruct fuel as [|fuel]; [simpl in Hf; lia|]).
  - cbn [awaited]. intros ->. destruct (receive_closed (input c)) as (p & E & Hp); [by rewrite Hs|].
    exists p. split; [done|]. cbn [expect]. unfold read_framed_message. rewrite E. done.
  - apply Forall_cons in Hvs as [Hv Hvs]. rewrite frames_cons, fmap_app, <- app_assoc in Hs.
    destruct (read_message c v _ Hv Hs) as (p & E & Hp). cbn [length] in Hf.
    specialize (IH fuel (with_input p c) Hvs Hp ltac:(lia)).
    cbn [expect]. rewrite E. cbn [mbind option_bind].
    rewrite bool_decide_eq_false_2 by apply frame_not_nil.
    pose proof (read_frame_whole [] v [] Hv) as Hr. cbn [app length] in Hr. rewrite app_nil_r in Hr.
    rewrite Hr. cbn [mbind option_bind awaited].
    destruct (decode as_u64 v) as [seen r| |reason]; [destruct (seen =? id)%N|..]; eauto.
Qed.

Lemma read_frame_part pre v part more :
  prints v → frame (to_string v) = part ++ more → more ≠ [] →
  ∃ reason, read_frame from_str as_u64 (pre ++ part) (length pre) = Some (Malformed reason, length pre).
Proof.
  intros (_ & _ & Hl) Hf Hm. unfold read_frame.
  destruct (cut_frame_partial pre (to_string v) part more Hl Hf Hm) as [-> | ->]; simpl; eauto.
Qed.

(** A message read shortens the stream. *)
Lemma read_message_shrinks c c' m :
  read_framed_message c = Some (c', Ok m) → m ≠ [] →
  length (stream (input c')) < length (stream (input c)).
Proof.
  unfold read_framed_message. intros ([p received] & Hr & H)%bind_Some Hm.
  destruct received as [m'| | | |]; try done; injection H as <- <-; [|done].
  apply receive_message in Hr as [_ Hr]. rewrite Hr, length_app, length_fmap. cbn [input with_input].
  destruct m'; [done|]. simpl. lia.
Qed.

(** The loop never runs out of its rounds. *)
Lemma expect_enough id : ∀ fuel c fuel',
  length (stream (input c)) < fuel → fuel ≤ fuel' →
  expect from_str as_u64 fuel' id c = expect from_str as_u64 fuel id c.
Proof.
  induction fuel as [|fuel IH]; intros c fuel' Hf Hle; [lia|].
  destruct fuel' as [|fuel']; [lia|]. cbn [expect].
  destruct (read_framed_message c) as [[c' [m|e]]|] eqn:E; [|done..]. cbn [mbind option_bind].
  case_bool_decide as Hm; [done|].
  assert (IH' : expect from_str as_u64 fuel' id c' = expect from_str as_u64 fuel id c').
  { apply IH; [|lia]. apply read_message_shrinks in E; [lia|done]. }
  destruct (read_frame from_str as_u64 m 0) as [[[seen r| |reason] next]|]; [|done..].
  cbn [mbind option_bind]. by destruct (seen =? id)%N.
Qed.

(** What a request is asked under. *)
Definition request_id (request : json) : N :=
  default usize_max (get "id" request ≫= value_as_u64 as_u64).

Definition written (request : json) (c : Client) : Client :=
  mkClient (input c) (tail (writes c)) (sent c ++ [frame (to_string request)]) (alive c)
    (next_id c) (initialized c).

Lemma send_frames request c vs more :
  Forall prints vs → stream (input c) = (inl <$> frames vs) ++ more →
  default true (head (writes c)) = true →
  match awaited (request_id request) vs with
  | Some (r, rest) => ∃ p,
      send_and_expect to_string from_str as_u64 request c = Some (with_input p (written request c), r) ∧
      stream p = (inl <$> frames rest) ++ more
  | None => more = [] → ∃ p, stream p = [] ∧
      send_and_expect to_string from_str as_u64 request c =
      Some (kill_child (with_input p (written request c)),
        Err (Crashed "the server closed without answering"))
  end.
Proof.
  intros Hvs Hs Hw. unfold send_and_expect, write_framed. fold (request_id request). rewrite Hw.
  fold (written request c).
  pose proof (expect_frames (request_id request) vs more (S (length (stream (input c)))) (written request c)
    Hvs Hs) as H.
  apply H. rewrite Hs, length_app, length_fmap. pose proof (frames_length to_string vs). lia.
Qed.

Context (of_u64 : N → Num).

(** The protocol's start on a process that answers it. *)
Lemma initialize_frames root c vs more r rest :
  (next_id c < usize_max)%N → as_u64 (of_u64 (next_id c)) = Some (next_id c) →
  Forall prints vs → stream (input c) = (inl <$> frames vs) ++ more → writes c = [] →
  awaited (next_id c) vs = Some (Ok r, rest) →
  ∃ p, stream p = (inl <$> frames rest) ++ more ∧
    initialize to_string from_str as_u64 of_u64 root c =
    Some (mkClient p [] (sent c ++ [frame (to_string (initialize_request of_u64 (next_id c) root));
                                    frame (to_string initialized_notification)])
            (alive c) (next_id c + 1) true, Ok tt).
Proof.
  intros Hid Hlaw Hvs Hs Hw Ha. unfold initialize.
  rewrite (proj2 (N.eqb_neq _ _)) by lia.
  set (request := initialize_request of_u64 (next_id c) root).
  assert (Hrid : request_id request = next_id c).
  { change (default usize_max (as_u64 (of_u64 (next_id c))) = next_id c). by rewrite Hlaw. }
  pose proof (send_frames request (with_id (next_id c + 1) c) vs more Hvs Hs) as H.
  rewrite Hrid, Ha in H. destruct H as (p & -> & Hp); [by simpl; rewrite Hw|].
  exists p. split; [done|]. cbn [mbind option_bind]. unfold write_framed, written.
  cbn [writes with_input with_id input sent alive next_id initialized]. rewrite Hw.
  cbn. rewrite <- app_assoc. done.
Qed.

Context (locations : json → result (list Location) string).

Lemma references_frames read_to_string path offset c vs more r rest contents ls :
  (next_id c + 1 < usize_max)%N → as_u64 (of_u64 (next_id c + 1)) = Some (next_id c + 1)%N →
  Forall prints vs → stream (input c) = (inl <$> frames vs) ++ more → writes c = [] →
  read_to_string path = Some contents →
  awaited (next_id c + 1) vs = Some (Ok r, rest) → locations r = Ok ls →
  ∃ p, stream p = (inl <$> frames rest) ++ more ∧
    references_once to_string from_str as_u64 of_u64 locations read_to_string path offset c =
    Some (mkClient p [] (sent c ++ [frame (to_string (references_request of_u64 (next_id c + 1) path
                                              (position_of contents offset)))])
            (alive c) (next_id c + 1) (initialized c),
          Ok (omap (resolve_location read_to_string path contents) ls)).
Proof.
  intros Hid Hlaw Hvs Hs Hw Hread Ha Hls. unfold references_once. rewrite Hread.
  rewrite (proj2 (N.eqb_neq _ _)) by lia. cbn zeta.
  set (request := references_request of_u64 (next_id (with_id (next_id c + 1) c)) path _).
  assert (Hrid : request_id request = (next_id c + 1)%N).
  { change (default usize_max (as_u64 (of_u64 (next_id c + 1))) = (next_id c + 1)%N). by rewrite Hlaw. }
  pose proof (send_frames request (with_id (next_id c + 1) c) vs more Hvs Hs) as H.
  rewrite Hrid, Ha in H. destruct H as (p & -> & Hp); [by simpl; rewrite Hw|].
  exists p. split; [done|]. cbn [mbind option_bind result_bind]. rewrite Hls. cbn [map_err result_bind].
  do 3 f_equal. unfold written, with_input, with_id. cbn. by rewrite Hw.
Qed.

Lemma references_lost read_to_string path offset c vs contents :
  (next_id c + 1 < usize_max)%N → as_u64 (of_u64 (next_id c + 1)) = Some (next_id c + 1)%N →
  Forall prints vs → stream (input c) = inl <$> frames vs → default true (head (writes c)) = true →
  read_to_string path = Some contents → awaited (next_id c + 1) vs = None →
  ∃ c', next_id c' = (next_id c + 1)%N ∧
    references_once to_string from_str as_u64 of_u64 locations read_to_string path offset c =
    Some (c', Err (Crashed "the server closed without answering")).
Proof.
  intros Hid Hlaw Hvs Hs Hw Hread Ha. unfold references_once. rewrite Hread.
  rewrite (proj2 (N.eqb_neq _ _)) by lia. cbn zeta.
  set (request := references_request of_u64 (next_id (with_id (next_id c + 1) c)) path _).
  assert (Hrid : request_id request = (next_id c + 1)%N).
  { change (default usize_max (as_u64 (of_u64 (next_id c + 1))) = (next_id c + 1)%N). by rewrite Hlaw. }
  pose proof (send_frames request (with_id (next_id c + 1) c) vs [] Hvs) as H.
  rewrite Hrid, Ha in H. destruct H as (p & _ & ->); [by rewrite app_nil_r|done..|].
  cbn [mbind option_bind result_bind]. eexists. split; [|reflexivity]. done.
Qed.

Lemma awaited_prints id vs r rest : Forall prints vs → awaited id vs = Some (r, rest) → Forall prints rest.
Proof.
  induction 1 as [|v vs _ Hvs IH]; [done|]. simpl.
  destruct (decode as_u64 v) as [seen x| |]; [destruct (seen =? id)%N|..]; auto; by intros [= _ <-].
Qed.
End conversation.

(** ** Theorems *)

(** Frames survive the wire.  Wherever in a buffer the frame of a message starts,
    [read_frame] at that offset gives the message and the offset behind the frame,
    whatever follows; and while the frame has not arrived in full, whichever part of
    it has, it refuses and leaves the offset where it was, so that reading again
    later loses nothing. *)
Theorem lsp_frame_exact {Num} to_string from_str (as_u64 : Num → option N) v :
  prints to_string from_str v →
  (∀ pre post, read_frame from_str as_u64 (pre ++ frame (to_string v) ++ post) (length pre) =
     Some (decode as_u64 v, length pre + length (frame (to_string v)))) ∧
  (∀ pre part more, frame (to_string v) = part ++ more → more ≠ [] →
     ∃ reason, read_frame from_str as_u64 (pre ++ part) (length pre) =
       Some (Malformed reason, length pre)).
Proof.
  intros Hv. split.
  - intros pre post. by apply read_frame_whole.
  - intros pre part more. by apply read_frame_part.
Qed.

(** A request gets its answer, however the bytes arrive.  When the server's bytes,
    cut into whatever chunks, are the frames of some messages, a request returns the
    result of the first response under its identifier, skipping notifications and
    other responses, or a protocol error at the first message before it that is
    neither, and leaves the messages behind; when the server closes without one, the
    process is killed and the request is refused as crashed.  The loop ends: more
    rounds than the stream has items change nothing, whatever the server sends. *)
Theorem lsp_answer_exact {Num} to_string from_str (as_u64 : Num → option N) request c vs more :
  Forall (prints to_string from_str) vs →
  stream (input c) = (inl <$> frames to_string vs) ++ more →
  default true (head (writes c)) = true →
  (∀ r rest, awaited as_u64 (request_id as_u64 request) vs = Some (r, rest) → ∃ c',
     send_and_expect to_string from_str as_u64 request c = Some (c', r) ∧
     stream (input c') = (inl <$> frames to_string rest) ++ more ∧
     sent c' = sent c ++ [frame (to_string request)] ∧ alive c' = alive c) ∧
  (awaited as_u64 (request_id as_u64 request) vs = None → more = [] → ∃ c',
     send_and_expect to_string from_str as_u64 request c =
       Some (c', Err (Crashed "the server closed without answering")) ∧ alive c' = false) ∧
  (∀ id fuel, length (stream (input c)) < fuel →
     expect from_str as_u64 fuel id c = expect from_str as_u64 (S (length (stream (input c)))) id c).
Proof.
  intros Hvs Hs Hw. pose proof (send_frames to_string from_str as_u64 request c vs more Hvs Hs Hw) as H.
  split_and!.
  - intros r rest Ha. rewrite Ha in H. destruct H as (p & E & Hp). by exists (with_input p (written to_string request c)).
  - intros Ha ->. rewrite Ha in H. destruct H as (p & _ & E); [done|]. eauto.
  - intros id fuel Hf. apply expect_enough; lia.
Qed.

(** A death while answering costs one restart.  When the server closes before it
    has answered a request for references, and the process started in its place
    answers the start of the protocol and the request, the references are resolved
    from that answer, the client is initialised on the new process, and exactly the
    three messages of the restart were written to it. *)
Theorem lsp_restart_recovers {Num} to_string from_str (as_u64 : Num → option N) of_u64 locations
    read_to_string root path offset contents language server c vs arrivals ws more r0 ws1 r ws2 ls :
  Language.detect path = Some language → Server.for_language language = Some server →
  read_to_string path = Some contents → initialized c = true →
  (next_id c + 3 < usize_max)%N → (∀ id, as_u64 (of_u64 id) = Some id) →
  Forall (prints to_string from_str) (vs ++ ws) →
  stream (input c) = inl <$> frames to_string vs → default true (head (writes c)) = true →
  awaited as_u64 (next_id c + 1) vs = None →
  delivered arrivals = (inl <$> frames to_string ws) ++ more →
  awaited as_u64 (next_id c + 1) ws = Some (Ok r0, ws1) →
  awaited as_u64 (next_id c + 3) ws1 = Some (Ok r, ws2) → locations r = Ok ls →
  ∃ c', references to_string from_str as_u64 of_u64 locations read_to_string
          (Some (mkProcess arrivals [])) root path offset c =
        Some (c', Ok (omap (resolve_location read_to_string path contents) ls)) ∧
    stream (input c') = (inl <$> frames to_string ws2) ++ more ∧
    alive c' = true ∧ initialized c' = true ∧ next_id c' = (next_id c + 3)%N ∧
    sent c' = (λ v, frame (to_string v)) <$>
      [initialize_request of_u64 (next_id c + 1) root; initialized_notification;
       references_request of_u64 (next_id c + 3) path (position_of contents offset)].
Proof.
  intros Hlang Hserver Hread Hinit Hid Hlaw [Hvs Hws]%Forall_app Hs Hw Hlost Harr Ha0 Ha1 Hls.
  destruct (references_lost to_string from_str as_u64 of_u64 locations read_to_string path offset c vs
    contents) as (c0 & Hc0 & E0); try done; [lia|].
  unfold references. rewrite Hlang, Hserver, Hinit. cbn [mbind option_bind]. rewrite E0.
  cbn [mbind option_bind spawn_child p_arrivals p_writes with_initialized kill_child next_id initialized].
  rewrite Hc0. set (c1 := mkClient (PipedInput.new arrivals) [] [] true (next_id c + 1) false).
  destruct (initialize_frames to_string from_str as_u64 of_u64 root c1 ws more r0 ws1) as (p1 & Hp1 & E1);
    [simpl; lia|apply Hlaw|done|exact Harr|done|exact Ha0|].
  rewrite E1. cbn [mbind option_bind next_id c1 sent alive app].
  match goal with |- context [references_once _ _ _ _ _ _ _ _ ?x] => set (c2 := x) end.
  assert (Hid2 : (next_id c2 + 1 = next_id c + 3)%N) by (simpl; lia).
  destruct (references_frames to_string from_str as_u64 of_u64 locations read_to_string path offset c2
    ws1 more r ws2 contents ls) as (p2 & Hp2 & E2); try done; [simpl; lia| |by rewrite Hid2|].
  { by eapply awaited_prints. }
  rewrite E2. cbn [mbind option_bind]. eexists. split; [reflexivity|]. rewrite Hid2. done.
Qed.

(** Coordinates go there and back.  In a text made of complete lines, the part of
    a line in front of a byte, and the rest, the byte's position is the number of
    those lines and the UTF-16 length of that part, and the offset of that position
    is the byte again, at the ends of lines and of the text too, unless a carriage
    return stands in front of the byte in its line. *)
Theorem lsp_coordinates_roundtrip contents before inside after :
  chars contents = before ++ inside ++ after → lines_end before →
  newline ∉ inside → carriage ∉ inside →
  let byte := size_of (before ++ inside) in
  position_of contents byte = (newlines before, units_of inside) ∧
  byte_offset contents (newlines before) (units_of inside) = Some byte.
Proof. apply position_roundtrip. Qed.

(** ** Examples *)

Definition a_notification : Value N := object [("method", text "window/logMessage")].
Definition a_response (id : N) : Value N := object [("id", VNumber id); ("result", VBool true)].

Definition a_printer (v : Value N) : list byte :=
  match get "id" v with Some (VNumber n) => dec n | _ => bytes "n" end.
Definition a_parser (l : list byte) : result (Value N) string :=
  match parse_dec l with
  | Some n => Ok (a_response n)
  | None => if bool_decide (l = bytes "n") then Ok a_notification else Err "expected value"
  end.

Definition a_client (arrivals : list Arrival) (id : N) : Client :=
  mkClient (PipedInput.new arrivals) [] [] true id true.

Definition one_by_one (l : list byte) : list Arrival := (λ c, Bytes [c]) <$> l.

Example lsp_frame_exact_witness :
  read_frame a_parser Some (bytes "xy" ++ frame (bytes "7") ++ bytes "z") 2 =
    Some (Response 7 (VBool true), 2 + 22) ∧
  (∃ reason, read_frame a_parser Some (bytes "xy" ++ take 21 (frame (bytes "7"))) 2 =
    Some (Malformed reason, 2)).
Proof.
  assert (H : prints a_printer a_parser (a_response 7)) by (by vm_compute).
  destruct (lsp_frame_exact a_printer a_parser Some (a_response 7) H) as [H1 H2]. split.
  - exact (H1 (bytes "xy") (bytes "z")).
  - apply (H2 (bytes "xy") _ (drop 21 (frame (bytes "7")))); [|done]. by vm_compute.
Defined.

Example lsp_answer_exact_witness :
  ∃ c', send_and_expect a_printer a_parser Some (a_response 4)
          (a_client (one_by_one (frames a_printer [a_notification; a_response 3; a_response 4])) 0) =
        Some (c', Ok (VBool true)) ∧ alive c' = true.
Proof.
  destruct (lsp_answer_exact a_printer a_parser Some (a_response 4)
    (a_client (one_by_one (frames a_printer [a_notification; a_response 3; a_response 4])) 0)
    [a_notification; a_response 3; a_response 4] []) as [H _].
  - repeat constructor; by vm_compute.
  - vm_compute. reflexivity.
  - done.
  - destruct (H (Ok (VBool true)) []) as (c' & E & _ & _ & Ha); [by vm_compute|]. by exists c'.
Defined.

Example lsp_restart_recovers_witness :
  ∃ c', references a_printer a_parser Some id (λ _, Ok [mkLocation (bytes "file:///w/b.rs") 1 1])
          (λ path, if bool_decide (path = "/w/a.rs") then Some (bytes "fn a() {}") else Some (bytes "x
yz"))
          (Some (mkProcess (one_by_one (frames a_printer [a_response 1; a_response 3])) []))
          "/w" "/w/a.rs" 3 (a_client (one_by_one (frames a_printer [a_notification])) 0) =
        Some (c', Ok [mkReference "/w/b.rs" [3] true]) ∧ next_id c' = 3%N.
Proof.
  destruct (lsp_restart_recovers a_printer a_parser Some id
    (λ _, Ok [mkLocation (bytes "file:///w/b.rs") 1 1])
    (λ path, if bool_decide (path = "/w/a.rs") then Some (bytes "fn a() {}") else Some (bytes "x
yz")) "/w" "/w/a.rs" 3 (bytes "fn a() {}") Rust Server.RustAnalyzer
    (a_client (one_by_one (frames a_printer [a_notification])) 0) [a_notification]
    (one_by_one (frames a_printer [a_response 1; a_response 3])) [a_response 1; a_response 3] []
    (VBool true) [a_response 3] (VBool true) [] [mkLocation (bytes "file:///w/b.rs") 1 1])
    as (c' & E & _ & _ & _ & Hid & _).
  1-4: reflexivity.
  1: done.
  1: done.
  1: repeat constructor; by vm_compute.
  1-7: vm_compute; reflexivity.
  exists c'. split; [|exact Hid]. rewrite E. by vm_compute.
Defined.

Example lsp_coordinates_roundtrip_witness :
  position_of (bytes "ab
cd") 4 = (1, 1) ∧ byte_offset (bytes "ab
cd") 1 1 = Some 4.
Proof.
  apply (lsp_coordinates_roundtrip (bytes "ab
cd") [bytes "a"; bytes "b"; newline] [bytes "c"] [bytes "d"]).
  - by vm_compute.
  - right. by exists [bytes "a"; bytes "b"].
  - apply (bool_decide_unpack _). by vm_compute.
  - apply (bool_decide_unpack _). by vm_compute.
Defined.

(** A server's own request is taken for the answer when it happens to carry the
    identifier waited for. *)
Lemma server_request_taken_for_answer id :
  awaited Some id [object [("id", VNumber id); ("method", text "workspace/configuration")]] =
  Some (Ok VNull, []).
Proof.
  change (awaited Some id _) with (if (id =? id)%N then Some (Ok (VNull (Num:=N)), []) else
    awaited (Num:=N) Some id []). by rewrite N.eqb_refl.
Qed.

(** A death noticed while writing is not a crash to [references]: nothing is
    restarted, and the client stays as it is for the next request to fail again. *)
Lemma dead_pipe_not_restarted to_string from_str (as_u64 : N → option N) locations read_to_string
    restarted root path offset contents language c :
  Language.detect path = Some language → read_to_string path = Some contents →
  initialized c = true → head (writes c) = Some false → next_id c ≠ usize_max →
  ∃ c', references to_string from_str as_u64 id locations read_to_string restarted root path offset c =
          Some (c', Err (Transport "write")) ∧
    initialized c' = true ∧ input c' = input c ∧ sent c' = sent c.
Proof.
  intros Hl Hr Hi Hw Hid. unfold references. rewrite Hl, Hi.
  assert (∃ server, Server.for_language language = Some server) as (server & ->)
    by (destruct language; simpl; eauto).
  cbn [mbind option_bind]. unfold references_once. rewrite Hr.
  rewrite (proj2 (N.eqb_neq _ _)) by done. cbn zeta. unfold send_and_expect, write_framed.
  cbn [writes with_id]. rewrite Hw. cbn. eauto.
Qed.
