(* ===== verification/Dap.v ===== *)
(** * The debug-adapter client: [crates/supra_dap]

    Messages ([framing.rs]), the client with its queue of events ([client.rs]) and
    its errors ([error.rs]).  [serde_json]'s printing, parsing and numbers, the
    decoding of stack frames and what the adapter's process does are parameters. *)

From Stdlib Require Import Ascii.
From S2P Require Import Prelude Text Sealing Utf8 Canonical Tool Piped Framing Language.

Inductive DapError :=
| Transport (what : string)
| Protocol (reason : string)
| Uncovered (language : string)
| Stopped (reason : string).

#[export] Instance DapError_eq_dec : EqDecision DapError.
Proof. solve_decision. Defined.

Record Breakpoint := mkBreakpoint { path : string; line : N; verified : bool }.

Section dap.
Context {Num : Type}.
Abbreviation json := (Value Num).
Context (to_string : json → list byte) (from_str : list byte → result json string).
Context (as_u64 : Num → option N) (of_u64 : N → Num).

#[local] Abbreviation value_as_u64 := (value_as_u64 as_u64).

(** ** Messages: [framing.rs] *)

Inductive Framed :=
| Response (seq request_seq : N) (success : bool) (body : json)
| Event (event : string)
| Malformed (reason : string).

Definition decode (value : json) : Framed :=
  if bool_decide (is_Some (get "event" value)) then
    Event (default "" (get "event" value ≫= value_as_str))
  else if bool_decide (is_Some (get "request_seq" value)) then
    Response (default 0%N (get "seq" value ≫= value_as_u64))
      (default 0%N (get "request_seq" value ≫= value_as_u64))
      (default false (get "success" value ≫= value_as_bool))
      (default VNull (get "body" value))
  else if bool_decide (is_Some (get "command" value)) then Event "reverse-request"
  else Malformed "message without event or request_seq".

Definition read_frame (input : list byte) (offset : nat) : option (Framed * nat) :=
  cut ← cut_frame input offset;
  Some match cut with
  | NoTerminator => (Malformed "no header terminator yet", offset)
  | NoLength => (Malformed "no Content-Length header", offset)
  | ShortBody => (Malformed "body shorter than Content-Length", offset)
  | Body body next =>
      match from_str body with
      | Ok value => (decode value, next)
      | Err error => (Malformed error, next)
      end
  end.

(** ** The client: [client.rs] *)

(** The pipes as in the language-server client; an event is queued as its name,
    which is all that [json!] keeps of it. *)
Record Client := mkClient {
  input : PipedInput.t;
  writes : list bool;
  sent : list (list byte);
  alive : bool;
  next_seq : N;
  initialized : bool;
  events : list string;
}.

Definition with_input (p : PipedInput.t) (c : Client) : Client :=
  mkClient p (writes c) (sent c) (alive c) (next_seq c) (initialized c) (events c).

Definition with_events (q : list string) (c : Client) : Client :=
  mkClient (input c) (writes c) (sent c) (alive c) (next_seq c) (initialized c) q.

Definition with_initialized (c : Client) : Client :=
  mkClient (input c) (writes c) (sent c) (alive c) (next_seq c) true (events c).

(** [wait_inner]: the process is killed and reaped. *)
Definition wait_inner (c : Client) : Client :=
  mkClient (input c) (writes c) (sent c) false (next_seq c) (initialized c) (events c).

(** [spawn]: [process] is what the operating system gives. *)
Definition spawn (process : option (list Arrival * list bool)) (language : Language) :
    result Client DapError :=
  let? adapter := ok_or (Adapter.for_language language) (Uncovered (Language.name language)) in
  let? process := ok_or process (Transport (Adapter.program adapter)) in
  Ok (mkClient (PipedInput.new process.1) process.2 [] true 0 false []).

Definition write_framed (value : json) (c : Client) : Client * result unit DapError :=
  let c' sent' := mkClient (input c) (tail (writes c)) sent' (alive c) (next_seq c)
                    (initialized c) (events c) in
  if default true (head (writes c)) then (c' (sent c ++ [frame (to_string value)]), Ok tt)
  else (c' (sent c), Err (Transport "write")).

Definition header_error (e : HeaderError) : DapError :=
  Protocol match e with
  | NotUtf8 => "non-UTF-8 headers"
  | LengthMissing => "no Content-Length header"
  | LengthUnreadable => "Content-Length"
  end.

Definition read_framed_body (c : Client) : option (Client * result (list byte) DapError) :=
  '(p, received) ← receive (input c);
  let c := with_input p c in
  Some match received with
  | Message message => (c, Ok message)
  | Ended => (c, Ok [])
  | HeaderBroken _ => (wait_inner c, Err (Transport "read"))
  | BadHeader e => (c, Err (header_error e))
  | BodyBroken _ => (wait_inner c, Err (Transport "read body"))
  end.

Definition read_one (c : Client) : option (Client * result Framed DapError) :=
  '(c, body) ← read_framed_body c;
  match body with
  | Err e => Some (c, Err e)
  | Ok body =>
      if bool_decide (body = []) then
        Some (wait_inner c, Err (Transport "the adapter closed without answering"))
      else '(framed, _) ← read_frame body 0; Some (c, Ok framed)
  end.

(** What a refused command's answer says. *)
Definition refusal (command : string) (body : json) : DapError :=
  Protocol (String.append command (String.append ": "
    (default "the adapter refused" ((get "error" body ≫= get "message") ≫= value_as_str)))).

(** The loop of [await_response]: one message a round. *)
Fixpoint await_from (fuel : nat) (command : string) (request_seq : N) (c : Client) :
    option (Client * result json DapError) :=
  match fuel with
  | 0 => None
  | S fuel =>
      '(c, framed) ← read_one c;
      match framed with
      | Err e => Some (c, Err e)
      | Ok (Response _ seen success body) =>
          if (seen =? request_seq)%N then
            Some (c, if success : bool then Ok body else Err (refusal command body))
          else await_from fuel command request_seq c
      | Ok (Event event) => await_from fuel command request_seq (with_events (events c ++ [event]) c)
      | Ok (Malformed reason) => Some (c, Err (Protocol reason))
      end
  end.

Definition await_response (command : string) (request_seq : N) (c : Client) :
    option (Client * result json DapError) :=
  await_from (S (length (stream (input c)))) command request_seq c.

Definition number (n : N) : json := VNumber (of_u64 n).

Definition request_message (seq : N) (command : string) (arguments : json) : json :=
  object [("seq", number seq); ("type", text "request"); ("command", text command);
          ("arguments", arguments)].

(** [None] is the abort when the sequence numbers are used up. *)
Definition send (command : string) (arguments : json) (c : Client) :
    option (Client * result N DapError) :=
  if (next_seq c =? usize_max)%N then None
  else
    let request_seq := (next_seq c + 1)%N in
    let c := mkClient (input c) (writes c) (sent c) (alive c) request_seq (initialized c) (events c) in
    match write_framed (request_message request_seq command arguments) c with
    | (c, Err e) => Some (c, Err e)
    | (c, Ok _) => Some (c, Ok request_seq)
    end.

Definition request (command : string) (arguments : json) (c : Client) :
    option (Client * result json DapError) :=
  '(c, sent) ← send command arguments c;
  match sent with
  | Err e => Some (c, Err e)
  | Ok request_seq => await_response command request_seq c
  end.

(** The queue loop of [wait_event]: what remains behind the first event of that
    name. *)
Fixpoint pop_until (name : string) (queue : list string) : option (list string) :=
  match queue with
  | [] => None
  | event :: queue => if bool_decide (event = name) then Some queue else pop_until name queue
  end.

Definition event_value (name : string) : json := object [("event", text name)].

Fixpoint wait_from (fuel : nat) (name : string) (c : Client) :
    option (Client * result json DapError) :=
  match fuel with
  | 0 => None
  | S fuel =>
      match pop_until name (events c) with
      | Some queue => Some (with_events queue c, Ok (event_value name))
      | None =>
          '(c, framed) ← read_one (with_events [] c);
          match framed with
          | Err e => Some (c, Err e)
          | Ok (Event event) =>
              if bool_decide (event = name) then Some (c, Ok (event_value event))
              else wait_from fuel name (with_events (events c ++ [event]) c)
          | Ok (Response _ _ _ _) => wait_from fuel name c
          | Ok (Malformed reason) => Some (c, Err (Protocol reason))
          end
      end
  end.

Definition wait_event (name : string) (c : Client) : option (Client * result json DapError) :=
  wait_from (S (length (stream (input c)))) name c.

(** [initialize]: the protocol's order, launch and configuration before either
    answer. *)
Definition initialize (program : string) (c : Client) : option (Client * result unit DapError) :=
  '(c, capabilities) ← request "initialize"
    (object [("adapterID", text "supra"); ("linesStartAt1", VBool true);
             ("columnsStartAt1", VBool true); ("pathFormat", text "path")]) c;
  match capabilities with Err e => Some (c, Err e) | Ok _ =>
  '(c, event) ← wait_event "initialized" c;
  match event with Err e => Some (c, Err e) | Ok _ =>
  '(c, launch) ← send "launch"
    (object [("program", text program); ("stopOnEntry", VBool false)]) c;
  match launch with Err e => Some (c, Err e) | Ok launch_seq =>
  '(c, configured) ← send "configurationDone" (object []) c;
  match configured with Err e => Some (c, Err e) | Ok configured_seq =>
  '(c, launched) ← await_response "launch" launch_seq c;
  match launched with Err e => Some (c, Err e) | Ok _ =>
  '(c, done) ← await_response "configurationDone" configured_seq c;
  match done with Err e => Some (c, Err e) | Ok _ =>
  Some (with_initialized c, Ok tt)
  end end end end end end.

(** What a confirmation says of the breakpoint asked for. *)
Definition confirmed_breakpoint (path : string) (line : N) (answer : json) :
    result Breakpoint DapError :=
  let? breakpoints := ok_or (get "breakpoints" answer ≫= value_as_array)
                        (Protocol "setBreakpoints without breakpoints") in
  let confirmed := default VNull (head breakpoints) in
  let confirmed_line := default line (get "line" confirmed ≫= value_as_u64) in
  Ok (mkBreakpoint path (if (confirmed_line <=? 4294967295)%N then confirmed_line else line)
        (default false (get "verified" confirmed ≫= value_as_bool))).

Definition set_breakpoint (path : string) (line : N) (c : Client) :
    option (Client * result Breakpoint DapError) :=
  '(c, answer) ← request "setBreakpoints"
    (object [("source", object [("path", text path)]);
             ("breakpoints", VArray [object [("line", number line)]]);
             ("lines", VArray [number line])]) c;
  Some (c, let? answer := answer in confirmed_breakpoint path line answer).

(** [stack_trace]: [frames] decodes the list of stack frames. *)
Definition stack_trace {StackFrame} (frames : json → result (list StackFrame) string) (c : Client) :
    option (Client * result (list StackFrame) DapError) :=
  '(c, answer) ← request "stackTrace"
    (object [("threadId", number 1); ("startFrame", number 0); ("levels", number 20)]) c;
  Some (c,
    let? answer := answer in
    map_err Protocol (frames (default (VArray []) (get "stackFrames" answer)))).
End dap.

(** ** Conversations *)

Section conversation.
Context {Num : Type}.
Abbreviation json := (Value Num).
Context (to_string : json → list byte) (from_str : list byte → result json string).
Context (as_u64 : Num → option N).

#[local] Abbreviation prints := (prints to_string from_str).
#[local] Abbreviation frames := (frames to_string).

(** What waiting for a response gives, from the messages alone: the outcome, the
    queue with every event on the way behind it, and the messages left. *)
Fixpoint answered (command : string) (seq : N) (queue : list string) (vs : list json) :
    option (result json DapError * list string * list json) :=
  match vs with
  | [] => None
  | v :: vs =>
      match decode as_u64 v with
      | Response _ seen success body =>
          if (seen =? seq)%N then
            Some (if success then Ok body else Err (refusal command body), queue, vs)
          else answered command seq queue vs
      | Event event => answered command seq (queue ++ [event]) vs
      | Malformed reason => Some (Err (Protocol reason), queue, vs)
      end
  end.

(** What waiting for an event gives once the queue has none of that name. *)
Fixpoint heard (name : string) (vs : list json) : option (result json DapError * list json) :=
  match vs with
  | [] => None
  | v :: vs =>
      match decode as_u64 v with
      | Event event => if bool_decide (event = name) then Some (Ok (event_value name), vs) else heard name vs
      | Response _ _ _ _ => heard name vs
      | Malformed reason => Some (Err (Protocol reason), vs)
      end
  end.

Definition awaited_event (name : string) (queue : list string) (vs : list json) :
    option (result json DapError * list string * list json) :=
  match pop_until name queue with
  | Some queue => Some (Ok (event_value name), queue, vs)
  | None => '(r, vs) ← heard name vs; Some (r, [], vs)
  end.

Lemma dap_frame_whole pre v post :
  prints v →
  read_frame from_str as_u64 (pre ++ frame (to_string v) ++ post) (length pre) =
  Some (decode as_u64 v, length pre + length (frame (to_string v))).
Proof.
  intros (Hu & Hp & Hl). unfold read_frame. rewrite cut_frame_whole by done. simpl. by rewrite Hp.
Qed.

Lemma dap_frame_part pre v part more :
  prints v → frame (to_string v) = part ++ more → more ≠ [] →
  ∃ reason, read_frame from_str as_u64 (pre ++ part) (length pre) = Some (Malformed reason, length pre).
Proof.
  intros (_ & _ & Hl) Hf Hm. unfold read_frame.
  destruct (cut_frame_partial pre (to_string v) part more Hl Hf Hm) as [-> | ->]; simpl; eauto.
Qed.

Lemma read_one_message c v more :
  prints v → stream (input c) = (inl <$> frame (to_string v)) ++ more →
  ∃ p, read_one from_str as_u64 c = Some (with_input p c, Ok (decode as_u64 v)) ∧ stream p = more.
Proof.
  intros Hv Hs. destruct (receive_value to_string from_str (input c) v more Hv Hs) as (p & E & Hp).
  exists p. split; [|done]. unfold read_one, read_framed_body. rewrite E. cbn [mbind option_bind].
  rewrite bool_decide_eq_false_2 by apply frame_not_nil.
  pose proof (dap_frame_whole [] v [] Hv) as Hr. cbn [app length] in Hr. rewrite app_nil_r in Hr.
  by rewrite Hr.
Qed.

Definition gone : DapError := Transport "the adapter closed without answering".

Lemma read_one_closed c :
  stream (input c) = [] →
  ∃ p, stream p = [] ∧ read_one from_str as_u64 c = Some (wait_inner (with_input p c), Err gone).
Proof.
  intros Hs. destruct (receive_closed (input c) Hs) as (p & E & Hp). exists p. split; [done|].
  unfold read_one, read_framed_body. by rewrite E.
Qed.

Definition moved (p : PipedInput.t) (queue : list string) (c : Client) : Client :=
  with_events queue (with_input p c).

(** Waiting for a response depends on the messages alone. *)
Lemma await_frames command seq vs more : ∀ fuel c,
  Forall prints vs → stream (input c) = (inl <$> frames vs) ++ more → length vs < fuel →
  match answered command seq (events c) vs with
  | Some (r, queue, rest) => ∃ p, stream p = (inl <$> frames rest) ++ more ∧
      await_from from_str as_u64 fuel command seq c = Some (moved p queue c, r)
  | None => more = [] → ∃ c',
      await_from from_str as_u64 fuel command seq c = Some (c', Err gone) ∧ alive c' = false
  end.
Proof.
  induction vs as [|v vs IH]; intros fuel c Hvs Hs Hf; (destruct fuel as [|fuel]; [simpl in Hf; lia|]).
  - cbn [answered]. intros ->. destruct (read_one_closed c) as (p & _ & E); [by rewrite Hs|].
    cbn [await_from]. rewrite E. cbn [mbind option_bind]. eauto.
  - apply Forall_cons in Hvs as [Hv Hvs]. rewrite frames_cons, fmap_app, <- app_assoc in Hs.
    destruct (read_one_message c v _ Hv Hs) as (p & E & Hp). cbn [length] in Hf.
    cbn [await_from answered]. rewrite E. cbn [mbind option_bind].
    destruct (decode as_u64 v) as [seq' seen success body|event|reason].
    + destruct (seen =? seq)%N; [by exists p|].
      exact (IH fuel (with_input p c) Hvs Hp ltac:(lia)).
    + exact (IH fuel (with_events (events c ++ [event]) (with_input p c)) Hvs Hp ltac:(lia)).
    + by exists p.
Qed.

(** Waiting for an event depends on the queue and the messages alone. *)
Lemma wait_frames name vs more : ∀ fuel c,
  Forall prints vs → stream (input c) = (inl <$> frames vs) ++ more → length vs < fuel →
  match awaited_event name (events c) vs with
  | Some (r, queue, rest) => ∃ p, stream p = (inl <$> frames rest) ++ more ∧
      wait_from from_str as_u64 fuel name c = Some (moved p queue c, r)
  | None => more = [] → ∃ c',
      wait_from from_str as_u64 fuel name c = Some (c', Err gone) ∧ alive c' = false
  end.
Proof.
  induction vs as [|v vs IH]; intros fuel c Hvs Hs Hf; (destruct fuel as [|fuel]; [simpl in Hf; lia|]).
  all: unfold awaited_event; cbn [wait_from]; destruct (pop_until name (events c)) as [queue|] eqn:Hq;
    [by exists (input c)|].
  - cbn [heard mbind option_bind]. intros ->.
    destruct (read_one_closed (with_events [] c)) as (p & _ & E); [by rewrite <- (app_nil_r [])|].
    rewrite E. cbn [mbind option_bind]. eauto.
  - apply Forall_cons in Hvs as [Hv Hvs]. rewrite frames_cons, fmap_app, <- app_assoc in Hs.
    destruct (read_one_message (with_events [] c) v _ Hv Hs) as (p & E & Hp). cbn [length] in Hf.
    cbn [heard]. rewrite E. cbn [mbind option_bind].
    destruct (decode as_u64 v) as [seq' seen success body|event|reason].
    + exact (IH fuel (with_input p (with_events [] c)) Hvs Hp ltac:(lia)).
    + case_bool_decide as He; [subst event; cbn [mbind option_bind]; by exists p|].
      pose proof (IH fuel (with_events ([] ++ [event]) (with_input p (with_events [] c))) Hvs Hp ltac:(lia)) as H.
      unfold awaited_event in H. cbn [events with_events app pop_until] in H.
      rewrite bool_decide_eq_false_2 in H by done. exact H.
    + by exists p.
Qed.

Lemma await_response_frames command seq vs more c :
  Forall prints vs → stream (input c) = (inl <$> frames vs) ++ more →
  match answered command seq (events c) vs with
  | Some (r, queue, rest) => ∃ p, stream p = (inl <$> frames rest) ++ more ∧
      await_response from_str as_u64 command seq c = Some (moved p queue c, r)
  | None => more = [] → ∃ c',
      await_response from_str as_u64 command seq c = Some (c', Err gone) ∧ alive c' = false
  end.
Proof.
  intros Hvs Hs. apply await_frames; [done..|]. rewrite Hs, length_app, length_fmap.
  pose proof (frames_length to_string vs). lia.
Qed.

Lemma answered_prints command seq vs r queue rest : ∀ q,
  Forall prints vs → answered command seq q vs = Some (r, queue, rest) → Forall prints rest.
Proof.
  induction vs as [|v vs IH]; intros q Hvs; [done|]. apply Forall_cons in Hvs as [_ Hvs]. cbn [answered].
  destruct (decode as_u64 v) as [s seen success body| |]; [destruct (seen =? seq)%N|..]; eauto;
    by intros [= _ _ <-].
Qed.

Lemma heard_prints name vs r rest :
  Forall prints vs → heard name vs = Some (r, rest) → Forall prints rest.
Proof.
  induction 1 as [|v vs _ Hvs IH]; [done|]. cbn [heard].
  destruct (decode as_u64 v) as [| |]; [|case_bool_decide|]; eauto; by intros [= _ <-].
Qed.

Lemma wait_event_frames name vs more c :
  Forall prints vs → stream (input c) = (inl <$> frames vs) ++ more →
  match awaited_event name (events c) vs with
  | Some (r, queue, rest) => Forall prints rest ∧ ∃ p, stream p = (inl <$> frames rest) ++ more ∧
      wait_event from_str as_u64 name c = Some (moved p queue c, r)
  | None => True
  end.
Proof.
  intros Hvs Hs. pose proof (wait_frames name vs more (S (length (stream (input c)))) c Hvs Hs) as H.
  destruct (awaited_event name (events c) vs) as [[[r queue] rest]|] eqn:Ha; [|done]. split.
  - unfold awaited_event in Ha. destruct (pop_until name (events c)); [by injection Ha as _ _ <-|].
    apply bind_Some in Ha as ([r' vs'] & Hh & [= _ _ <-]). by eapply heard_prints.
  - apply H. rewrite Hs, length_app, length_fmap. pose proof (frames_length to_string vs). lia.
Qed.

Context (of_u64 : N → Num).

Definition asked (command : string) (arguments : json) (c : Client) : Client :=
  mkClient (input c) (tail (writes c))
    (sent c ++ [frame (to_string (request_message of_u64 (next_seq c + 1) command arguments))])
    (alive c) (next_seq c + 1) (initialized c) (events c).

Lemma send_ok command arguments c :
  next_seq c ≠ usize_max → default true (head (writes c)) = true →
  send to_string of_u64 command arguments c = Some (asked command arguments c, Ok (next_seq c + 1)%N).
Proof.
  intros Hn Hw. unfold send. rewrite (proj2 (N.eqb_neq _ _)) by done. cbn zeta. unfold write_framed.
  cbn [writes]. by rewrite Hw.
Qed.


Lemma request_frames command arguments c vs more r queue rest :
  Forall prints vs → stream (input c) = (inl <$> frames vs) ++ more →
  next_seq c ≠ usize_max → default true (head (writes c)) = true →
  answered command (next_seq c + 1) (events c) vs = Some (r, queue, rest) →
  Forall prints rest ∧ ∃ p, stream p = (inl <$> frames rest) ++ more ∧
    request to_string from_str as_u64 of_u64 command arguments c =
    Some (moved p queue (asked command arguments c), r).
Proof.
  intros Hvs Hs Hn Hw Ha. split; [by eapply answered_prints|].
  unfold request. rewrite send_ok by done. cbn [mbind option_bind].
  pose proof (await_response_frames command (next_seq c + 1) vs more (asked command arguments c) Hvs Hs) as H.
  cbn [events asked] in H. by rewrite Ha in H.
Qed.
End conversation.

(** ** Theorems *)

(** A request gets its answer and loses no event.  When the adapter's bytes, cut
    into whatever chunks, are the frames of some messages, a request writes one
    message under a fresh number and returns what the first response to that number
    says, the body when it succeeded, else its refusal; every event on the way is
    queued behind the earlier ones, in order, other responses are dropped, a
    malformed message before the response ends it, and the messages behind it stay.
    When the adapter closes without a response it is killed and the request fails. *)
Theorem dap_request_exact {Num} to_string from_str (as_u64 : Num → option N) of_u64
    command arguments c vs more :
  Forall (prints to_string from_str) vs →
  stream (input c) = (inl <$> frames to_string vs) ++ more →
  next_seq c ≠ usize_max → default true (head (writes c)) = true →
  (∀ r queue rest, answered as_u64 command (next_seq c + 1) (events c) vs = Some (r, queue, rest) →
     ∃ c', request to_string from_str as_u64 of_u64 command arguments c = Some (c', r) ∧
       events c' = queue ∧ stream (input c') = (inl <$> frames to_string rest) ++ more ∧
       sent c' = sent c ++ [frame (to_string (request_message of_u64 (next_seq c + 1) command arguments))] ∧
       next_seq c' = (next_seq c + 1)%N) ∧
  (answered as_u64 command (next_seq c + 1) (events c) vs = None → more = [] →
     ∃ c', request to_string from_str as_u64 of_u64 command arguments c = Some (c', Err gone) ∧
       alive c' = false).
Proof.
  intros Hvs Hs Hn Hw. split.
  - intros r queue rest Ha. destruct (request_frames to_string from_str as_u64 of_u64 command arguments
      c vs more r queue rest Hvs Hs Hn Hw Ha) as (_ & p & Hp & E). rewrite E. by eexists.
  - intros Ha ->. unfold request. rewrite send_ok by done. cbn [mbind option_bind].
    pose proof (await_response_frames to_string from_str as_u64 command (next_seq c + 1) vs []
      (asked to_string of_u64 command arguments c) Hvs Hs) as H.
    cbn [events asked] in H. rewrite Ha in H. by apply H.
Qed.

(** The handshake follows the protocol.  When the adapter answers the request to
    initialise, raises its event (before or after that answer), and then answers the
    launch and, later, the configuration, whatever other events and responses come in
    between, the client is initialised; it has written exactly the three requests, in
    order, before it waited for the launch, and holds, in order, the events that came
    after the one it waited for. *)
Theorem dap_handshake_completes {Num} to_string from_str (as_u64 : Num → option N) of_u64
    program c vs more r1 q1 vs1 r2 q2 vs2 r3 q3 vs3 r4 q4 vs4 :
  Forall (prints to_string from_str) vs →
  stream (input c) = (inl <$> frames to_string vs) ++ more →
  (next_seq c + 3 < usize_max)%N → writes c = [] →
  answered as_u64 "initialize" (next_seq c + 1) (events c) vs = Some (Ok r1, q1, vs1) →
  awaited_event as_u64 "initialized" q1 vs1 = Some (Ok r2, q2, vs2) →
  answered as_u64 "launch" (next_seq c + 2) q2 vs2 = Some (Ok r3, q3, vs3) →
  answered as_u64 "configurationDone" (next_seq c + 3) q3 vs3 = Some (Ok r4, q4, vs4) →
  ∃ c' a1 a2 a3, initialize to_string from_str as_u64 of_u64 program c = Some (c', Ok tt) ∧
    initialized c' = true ∧ events c' = q4 ∧
    stream (input c') = (inl <$> frames to_string vs4) ++ more ∧
    sent c' = sent c ++ ((λ v, frame (to_string v)) <$>
      [request_message of_u64 (next_seq c + 1) "initialize" a1;
       request_message of_u64 (next_seq c + 2) "launch" a2;
       request_message of_u64 (next_seq c + 3) "configurationDone" a3]).
Proof.
  intros Hvs Hs Hn Hw Ha1 Ha2 Ha3 Ha4. unfold initialize.
  match goal with |- context [request _ _ _ _ _ ?a c] => set (a1 := a) end.
  destruct (request_frames to_string from_str as_u64 of_u64 "initialize" a1 c vs more (Ok r1) q1 vs1)
    as (Hvs1 & p1 & Hp1 & ->); [done|done|lia|by rewrite Hw|done|]. cbn [mbind option_bind].
  set (c1 := moved p1 q1 (asked to_string of_u64 "initialize" a1 c)).
  pose proof (wait_event_frames to_string from_str as_u64 "initialized" vs1 more c1 Hvs1 Hp1) as H.
  change (events c1) with q1 in H. rewrite Ha2 in H. destruct H as (Hvs2 & p2 & Hp2 & ->).
  cbn [mbind option_bind]. set (c2 := moved p2 q2 c1).
  assert (Hn2 : next_seq c2 = (next_seq c + 1)%N) by done.
  assert (Hw2 : writes c2 = []) by (simpl; by rewrite Hw).
  rewrite send_ok by (rewrite ?Hn2, ?Hw2; lia || done). cbn [mbind option_bind].
  match goal with |- context [asked _ _ _ ?a c2] => set (a2 := a) end.
  set (c3 := asked to_string of_u64 "launch" a2 c2).
  assert (Hn3 : next_seq c3 = (next_seq c + 2)%N) by (simpl; lia).
  assert (Hw3 : writes c3 = []) by (change (writes c3) with (tail (writes c2)); by rewrite Hw2).
  rewrite send_ok by (rewrite ?Hn3, ?Hw3; lia || done). cbn [mbind option_bind].
  match goal with |- context [asked _ _ _ ?a c3] => set (a3 := a) end.
  set (c4 := asked to_string of_u64 "configurationDone" a3 c3).
  replace (next_seq c2 + 1)%N with (next_seq c + 2)%N by (rewrite Hn2; lia).
  replace (next_seq c3 + 1)%N with (next_seq c + 3)%N by (rewrite Hn3; lia).
  pose proof (await_response_frames to_string from_str as_u64 "launch" (next_seq c + 2) vs2 more c4 Hvs2 Hp2) as H.
  change (events c4) with q2 in H. rewrite Ha3 in H. destruct H as (p3 & Hp3 & ->). cbn [mbind option_bind].
  apply (answered_prints to_string from_str) in Ha3; [|done].
  pose proof (await_response_frames to_string from_str as_u64 "configurationDone" (next_seq c + 3) vs3 more
    (moved p3 q3 c4) Ha3 Hp3) as H.
  change (events (moved p3 q3 c4)) with q3 in H. rewrite Ha4 in H. destruct H as (p4 & Hp4 & ->).
  eexists _, a1, a2, a3. split; [reflexivity|]. split_and!; [done..|].
  change (sent (with_initialized (moved p4 q4 (moved p3 q3 c4)))) with
    (((sent c ++ [frame (to_string (request_message of_u64 (next_seq c + 1) "initialize" a1))]) ++
      [frame (to_string (request_message of_u64 (next_seq c2 + 1) "launch" a2))]) ++
      [frame (to_string (request_message of_u64 (next_seq c3 + 1) "configurationDone" a3))]).
  rewrite Hn2, Hn3. replace (next_seq c + 1 + 1)%N with (next_seq c + 2)%N by lia.
  replace (next_seq c + 2 + 1)%N with (next_seq c + 3)%N by lia. by rewrite <- !app_assoc.
Qed.

(** ** Examples *)

Definition a_response (seq : N) : Value N :=
  object [("seq", VNumber 90%N); ("request_seq", VNumber seq); ("success", VBool true)].
Definition an_event (name : string) : Value N := object [("event", text name)].

Definition a_printer (v : Value N) : list byte :=
  match get "request_seq" v with
  | Some (VNumber n) => dec n
  | _ => match get "event" v with Some (VString s) => s | _ => bytes "x" end
  end.
Definition a_parser (l : list byte) : result (Value N) string :=
  match parse_dec l with Some n => Ok (a_response n) | None => Ok (an_event (text_of l)) end.

Definition a_client (vs : list (Value N)) : Client :=
  mkClient (PipedInput.new ((λ c, Bytes [c]) <$> frames a_printer vs)) [] [] true 0 false [].

Definition handshake : list (Value N) :=
  [an_event "output"; a_response 1; an_event "initialized"; an_event "process"; a_response 2;
   an_event "stopped"; a_response 3].

Example dap_request_exact_witness :
  ∃ c', request a_printer a_parser Some id "threads" VNull (a_client handshake) = Some (c', Ok VNull) ∧
    events c' = ["output"].
Proof.
  destruct (dap_request_exact a_printer a_parser Some id "threads" VNull (a_client handshake) handshake [])
    as [H _].
  - repeat constructor; by vm_compute.
  - vm_compute. reflexivity.
  - done.
  - done.
  - destruct (H (Ok VNull) ["output"] (drop 2 handshake)) as (c' & E & He & _); [by vm_compute|].
    exists c'. split; [exact E|exact He].
Defined.

Example dap_handshake_completes_witness :
  ∃ c', initialize a_printer a_parser Some id "a.out" (a_client handshake) = Some (c', Ok tt) ∧
    events c' = ["process"; "stopped"].
Proof.
  destruct (dap_handshake_completes a_printer a_parser Some id "a.out" (a_client handshake) handshake []
    VNull ["output"] (drop 2 handshake) (event_value "initialized") [] (drop 3 handshake)
    VNull ["process"] (drop 5 handshake) VNull ["process"; "stopped"] [])
    as (c' & a1 & a2 & a3 & E & _ & He & _).
  1: repeat constructor; by vm_compute.
  1-7: vm_compute; reflexivity.
  exists c'. split; [exact E|exact He].
Defined.

(** The answer to the configuration is dropped when it comes before the launch's: the
    handshake then waits for it until the adapter closes or falls silent. *)
Lemma early_configuration_answer_lost :
  ∃ c', initialize a_printer a_parser Some id "a.out"
          (a_client [a_response 1; an_event "initialized"; a_response 3; a_response 2]) =
        Some (c', Err gone).
Proof. eexists. vm_compute. reflexivity. Qed.

(** Waiting for one event drops the queued events in front of it, and all of them
    when it is not among them. *)
Lemma wait_event_drops_queue :
  awaited_event Some "stopped" ["output"; "breakpoint"; "stopped"; "exited"] [] =
    Some (Ok (event_value "stopped"), ["exited"], []) ∧
  awaited_event Some "stopped" ["exited"] [an_event "stopped"] =
    Some (Ok (event_value "stopped"), [], []).
Proof. by vm_compute. Qed.
