(* ===== verification/Checkpoint.v ===== *)
(** * Session checkpoints: [crates/supra_session/src/checkpoint.rs]

    The versioned, resumable state of a session, its validation and its edits, and
    the errors of the crate ([error.rs]).  A JSON value is opaque: whether it is an
    object and what its role field says are parameters.  Of an error's prose nothing
    is kept. *)

From S2P Require Import Prelude Text Sealing Utf8.

Inductive SessionError :=
| SIo
| SMalformed
| UnsupportedVersion (found : N)
| RevisionConflict (expected found : N)
| NonMonotonicRevision (incoming current : N)
| RevisionExhausted (revision : N)
| DuplicateTurn (turn : Id)
| LossyLegacySave
| SLedger
| NoCheckpoint (position : N).

#[export] Instance SessionError_eq_dec : EqDecision SessionError.
Proof. solve_decision. Defined.

Definition CHECKPOINT_VERSION : N := 1.
Definition u64_limit : N := 18446744073709551615.

Inductive LifecycleStatus := Active | Running | Completed | Interrupted.

#[export] Instance LifecycleStatus_eq_dec : EqDecision LifecycleStatus.
Proof. solve_decision. Defined.

(** [TurnId::is_nil] and [SessionId::is_nil]. *)
Definition is_nil (id : Id) : bool := (id =? 0)%N.

Section checkpoint.
Context {V : Type} `{EqDecision V}.
(** [payload.is_object()] and the role field of a protocol message. *)
Context (is_object : V → bool) (role : V → option (list byte)).

Record CheckpointTurn := mkTurn {
  ct_turn : Id;
  display_body : list byte;
  messages : list V;
  completion : option V;
}.

#[export] Instance CheckpointTurn_eq_dec : EqDecision CheckpointTurn.
Proof using EqDecision0. solve_decision. Defined.

Record SessionCheckpoint := mkCheckpoint {
  version : N;
  session : Id;
  revision : N;
  status : LifecycleStatus;
  parent : option Id;
  parent_revision : option N;
  turns : list CheckpointTurn;
  ledger : option V;
  config : option V;
}.

#[export] Instance SessionCheckpoint_eq_dec : EqDecision SessionCheckpoint.
Proof using EqDecision0. solve_decision. Defined.

Definition new (session : Id) : SessionCheckpoint :=
  mkCheckpoint CHECKPOINT_VERSION session 0 Active None None [] None None.

(** ** Validation *)

Fixpoint validate_messages (messages : list V) : result unit SessionError :=
  match messages with
  | [] => Ok tt
  | message :: messages =>
      if negb (is_object message) then Err SMalformed
      else if match role message with Some role => is_blank role | None => false end
      then Err SMalformed
      else validate_messages messages
  end.

(** The loop over the turns, with the identities seen. *)
Fixpoint validate_turns (seen : gset Id) (turns : list CheckpointTurn) : result unit SessionError :=
  match turns with
  | [] => Ok tt
  | turn :: turns =>
      if is_nil (ct_turn turn) then Err SMalformed
      else if bool_decide (ct_turn turn ∈ seen) then Err (DuplicateTurn (ct_turn turn))
      else
        let? _ := validate_messages (messages turn) in
        validate_turns ({[ct_turn turn]} ∪ seen) turns
  end.

Definition validate (c : SessionCheckpoint) : result unit SessionError :=
  if negb (version c =? CHECKPOINT_VERSION)%N then Err (UnsupportedVersion (version c))
  else if is_nil (session c) then Err SMalformed
  else if negb (Bool.eqb (bool_decide (is_Some (parent c))) (bool_decide (is_Some (parent_revision c))))
  then Err SMalformed
  else if bool_decide (parent c = Some (session c)) then Err SMalformed
  else validate_turns ∅ (turns c).

Definition from_parts (version : N) (session : Id) (revision : N) (status : LifecycleStatus)
    (parent : option Id) (parent_revision : option N) (turns : list CheckpointTurn)
    (ledger config : option V) : result SessionCheckpoint SessionError :=
  let checkpoint :=
    mkCheckpoint version session revision status parent parent_revision turns ledger config in
  let? _ := validate checkpoint in Ok checkpoint.

(** ** Edits *)

Definition advance_revision (c : SessionCheckpoint) : result N SessionError :=
  if (revision c =? u64_limit)%N then Err (RevisionExhausted (revision c)) else Ok (revision c + 1)%N.

Definition set_status (s : LifecycleStatus) (c : SessionCheckpoint) :
    result SessionCheckpoint SessionError :=
  let? r := advance_revision c in
  Ok (mkCheckpoint (version c) (session c) r s (parent c) (parent_revision c) (turns c)
        (ledger c) (config c)).

Definition push_turn (turn : CheckpointTurn) (c : SessionCheckpoint) :
    result SessionCheckpoint SessionError :=
  if existsb (λ known, bool_decide (ct_turn known = ct_turn turn)) (turns c)
  then Err (DuplicateTurn (ct_turn turn))
  else
    let? r := advance_revision c in
    Ok (mkCheckpoint (version c) (session c) r (status c) (parent c) (parent_revision c)
          (turns c ++ [turn]) (ledger c) (config c)).

Definition set_ledger (l : option V) (c : SessionCheckpoint) : result SessionCheckpoint SessionError :=
  let? r := advance_revision c in
  Ok (mkCheckpoint (version c) (session c) r (status c) (parent c) (parent_revision c) (turns c)
        l (config c)).

Definition set_config (g : option V) (c : SessionCheckpoint) : result SessionCheckpoint SessionError :=
  let? r := advance_revision c in
  Ok (mkCheckpoint (version c) (session c) r (status c) (parent c) (parent_revision c) (turns c)
        (ledger c) g).

Definition branch (fresh : Id) (c : SessionCheckpoint) : SessionCheckpoint :=
  mkCheckpoint CHECKPOINT_VERSION fresh 0 Active (Some (session c)) (Some (revision c)) (turns c)
    (ledger c) (config c).

(** The loop that adds turns known by their displayed text only. *)
Fixpoint push_bodies (pairs : list (Id * list byte)) (c : SessionCheckpoint) :
    result SessionCheckpoint SessionError :=
  match pairs with
  | [] => Ok c
  | (turn, body) :: pairs =>
      let? c := push_turn (mkTurn turn body [] None) c in push_bodies pairs c
  end.

(** What a turn shows: its identity and the text rendered to the user. *)
Definition shown (turn : CheckpointTurn) : Id * list byte := (ct_turn turn, display_body turn).

Definition plain (pair : Id * list byte) : CheckpointTurn := mkTurn pair.1 pair.2 [] None.

(** ** Lemmas *)

Lemma validate_turns_Ok seen ts :
  validate_turns seen ts = Ok tt →
  NoDup (ct_turn <$> ts) ∧ (∀ t, t ∈ ts → (ct_turn t ∉ seen) ∧ is_nil (ct_turn t) = false).
Proof.
  revert seen. induction ts as [|t ts IH]; intros seen; simpl.
  { intros _. split; [constructor|]. intros t Ht. by apply elem_of_nil in Ht. }
  destruct (is_nil (ct_turn t)) eqn:Hnil; [done|]. case_bool_decide as Hseen; [done|].
  intros (? & _ & (Hnd & Hall)%IH)%result_bind_Ok. split.
  - constructor; [|done]. intros (t' & Ht & Hin)%list_elem_of_fmap.
    apply Hall in Hin as [Hin _]. set_solver.
  - intros t' [->|Hin]%elem_of_cons; [done|]. apply Hall in Hin as [Hin ?]. set_solver.
Qed.

Lemma existsb_turn t (ts : list CheckpointTurn) :
  existsb (λ known, bool_decide (ct_turn known = t)) ts = bool_decide (t ∈ ct_turn <$> ts).
Proof.
  apply Bool.eq_true_iff_eq. rewrite existsb_exists, bool_decide_eq_true, list_elem_of_fmap. split.
  - intros (x & Hx & Ht). apply bool_decide_eq_true_1 in Ht. apply list_elem_of_In in Hx. eauto.
  - intros (x & -> & Hx). exists x. by rewrite <- list_elem_of_In, bool_decide_eq_true_2.
Qed.

Lemma push_turn_Ok t c c' :
  push_turn t c = Ok c' ↔
  (ct_turn t ∉ ct_turn <$> turns c) ∧ (revision c ≠ u64_limit) ∧
  c' = mkCheckpoint (version c) (session c) (revision c + 1) (status c) (parent c) (parent_revision c)
         (turns c ++ [t]) (ledger c) (config c).
Proof.
  unfold push_turn. rewrite existsb_turn. case_bool_decide as Hin; [naive_solver|].
  unfold advance_revision. destruct (N.eqb_spec (revision c) u64_limit); simpl; naive_solver.
Qed.

(** Adding displayed turns: everything else stays, one revision a turn. *)
Lemma push_bodies_Ok pairs : ∀ c c',
  (revision c ≤ u64_limit)%N →
  push_bodies pairs c = Ok c' ↔
  NoDup pairs.*1 ∧ (∀ t, t ∈ pairs.*1 → t ∉ ct_turn <$> turns c) ∧
  (revision c + N.of_nat (length pairs) ≤ u64_limit)%N ∧
  c' = mkCheckpoint (version c) (session c) (revision c + N.of_nat (length pairs)) (status c) (parent c)
         (parent_revision c) (turns c ++ (plain <$> pairs)) (ledger c) (config c).
Proof.
  induction pairs as [|[t body] pairs IH]; intros c c' Hr; cbn [push_bodies].
  - simpl. rewrite N.add_0_r, app_nil_r. destruct c. simpl. split; [|naive_solver].
    intros [= <-]. split_and!; [constructor|intros ? H; by apply elem_of_nil in H|done|done].
  - rewrite fmap_cons, NoDup_cons. cbn [length fst].
    split.
    + intros (c1 & (Ht & Hlim & ->)%push_turn_Ok & H)%result_bind_Ok. cbn [ct_turn] in Ht.
      apply IH in H as (Hnd & Hdis & Hmax & ->); [|simpl; lia]. cbn [turns revision] in *.
      rewrite fmap_app in Hdis. cbn in Hdis.
      split_and!; [set_solver|done| |lia|].
      * intros t' [->|Hin]%elem_of_cons; [done|]. specialize (Hdis t' Hin). set_solver.
      * f_equal; [lia|]. by rewrite <- app_assoc.
    + intros ((Hnt & Hnd) & Hdis & Hmax & ->). apply result_bind_Ok.
      eexists. split; [apply push_turn_Ok; split_and!; [apply Hdis; set_solver|lia|reflexivity]|].
      apply IH; [simpl; lia|]. cbn [turns revision]. rewrite fmap_app. cbn.
      split_and!; [done| |lia|].
      * intros t' Hin Hin'. apply elem_of_app in Hin' as [Hin'|Hin'%list_elem_of_singleton].
        -- by apply (Hdis t'); [set_solver|].
        -- by subst t'.
      * f_equal; [lia|]. by rewrite <- app_assoc.
Qed.

(** The shape alone, without the bound on the revision. *)
Lemma push_bodies_shape pairs : ∀ c c',
  push_bodies pairs c = Ok c' →
  NoDup pairs.*1 ∧ (∀ t, t ∈ pairs.*1 → t ∉ ct_turn <$> turns c) ∧
  c' = mkCheckpoint (version c) (session c) (revision c + N.of_nat (length pairs)) (status c) (parent c)
         (parent_revision c) (turns c ++ (plain <$> pairs)) (ledger c) (config c).
Proof.
  induction pairs as [|[t body] pairs IH]; intros c c'; cbn [push_bodies].
  - intros [= <-]. simpl. rewrite N.add_0_r, app_nil_r. destruct c.
    split_and!; [constructor|intros ? H; by apply elem_of_nil in H|done].
  - intros (c1 & (Ht & Hlim & ->)%push_turn_Ok & H)%result_bind_Ok. cbn [ct_turn] in Ht.
    apply IH in H as (Hnd & Hdis & ->). cbn [turns revision] in *. rewrite fmap_app in Hdis. cbn in Hdis.
    rewrite fmap_cons, NoDup_cons. cbn [length fst]. split_and!; [set_solver|done| |].
    + intros t' [->|Hin]%elem_of_cons; [done|]. specialize (Hdis t' Hin). set_solver.
    + f_equal; [lia|]. by rewrite <- app_assoc.
Qed.

Lemma validate_messages_nil : validate_messages [] = Ok tt.
Proof. done. Qed.

(** Displayed turns with fresh identities are valid. *)
Lemma validate_turns_app seen ts pairs :
  validate_turns seen ts = Ok tt → NoDup pairs.*1 → (∀ t, t ∈ pairs.*1 → (t ∉ ct_turn <$> ts) ∧ (t ∉ seen)) →
  (∀ t, t ∈ pairs.*1 → is_nil t = false) → validate_turns seen (ts ++ (plain <$> pairs)) = Ok tt.
Proof.
  revert seen. induction ts as [|t ts IH]; intros seen Hv Hnd Hdis Hnil.
  - clear Hv. cbn [app]. revert seen Hdis. induction pairs as [|[t body] pairs IH]; intros seen Hdis; [done|].
    rewrite fmap_cons in *. apply NoDup_cons in Hnd as [Hnt Hnd]. cbn [validate_turns plain ct_turn fst messages].
    rewrite Hnil by set_solver. rewrite bool_decide_eq_false_2 by (apply Hdis; set_solver).
    cbn [validate_messages result_bind]. apply IH; [done|set_solver|].
    intros t' Hin. split; [set_solver|]. intros [->%elem_of_singleton|Hs]%elem_of_union; [done|].
    by apply (Hdis t'); [set_solver|].
  - cbn [app validate_turns] in *. destruct (is_nil (ct_turn t)); [done|].
    case_bool_decide; [done|]. apply result_bind_Ok in Hv as ([] & -> & Hv). cbn [result_bind].
    apply IH; [done|done| |done]. intros t' Hin. specialize (Hdis t' Hin). set_solver.
Qed.
End checkpoint.
