(* ===== verification/Session.v ===== *)
(** * The session store: [crates/supra_session]

    Checkpoint files ([store.rs]) and sessions over them ([session.rs]).  One save
    runs under the file lock of its session, which excludes the other writers that
    take it, so it is one operation on the file system; it lists every state it
    passes through.  [serde_json]'s printing and parsing of the two file formats, the
    text of an identifier and what the operating system answers are parameters. *)

From Stdlib Require Import Ascii.
From S2P Require Import Prelude Text Sealing Utf8 FileSystem Canonical Checkpoint.

(** What the calls of one save answer: the directory, the lock, the read, the
    attempts at a temporary name, the bytes written when the write fails half-way,
    and the later steps. *)
Module SaveIo.
Record t := mk {
  directory : bool;
  lock : bool;
  read : bool;
  open_fails : nat → bool;
  nonce : nat → Id;
  written : option nat;
  sync : bool;
  rename : bool;
  sync_parent : bool;
  remove : bool;
}.

Definition perfect (nonce : nat → Id) : t := mk true true true (λ _, false) nonce None true true true true.
End SaveIo.

(** The JSON texts of the two formats: a legacy file is a pair of an identifier and
    the displayed turns, a versioned one names its format and version beside the
    checkpoint's own value. *)
Record Codec (V : Type) := mkCodec {
  print_legacy : Id → list (Id * list byte) → list byte;
  print_document : @SessionCheckpoint V → list byte;
  parse_legacy : list byte → option (Id * list (Id * list byte));
  parse_document : list byte → option (list byte * N * V);
  parse_checkpoint : V → option (@SessionCheckpoint V);
}.
Arguments print_legacy {V}.
Arguments print_document {V}.
Arguments parse_legacy {V}.
Arguments parse_document {V}.
Arguments parse_checkpoint {V}.

Definition FORMAT : list byte := bytes "supra-session".

(** What is relied on: each format is read back as written and not as the other. *)
Class CodecLaws {V} (codec : Codec V) : Prop := {
  legacy_roundtrip id pairs : parse_legacy codec (print_legacy codec id pairs) = Some (id, pairs);
  legacy_not_document id pairs : parse_document codec (print_legacy codec id pairs) = None;
  document_not_legacy c : parse_legacy codec (print_document codec c) = None;
  document_roundtrip c : ∃ value,
    parse_document codec (print_document codec c) = Some (FORMAT, CHECKPOINT_VERSION, value) ∧
    parse_checkpoint codec value = Some c;
}.

Section store.
Context {V : Type} `{EqDecision V} (is_object : V → bool) (role : V → option (list byte)).
Context (codec : Codec V) (show_id : Id → string) (parse_id : string → option Id).

Abbreviation checkpoint := (@SessionCheckpoint V).
Abbreviation validate := (validate is_object role).

Definition FILE_PREFIX : string := "session-".
Definition FILE_SUFFIX : string := ".json".

Definition file_name (session : Id) : string := FILE_PREFIX +:+ show_id session +:+ FILE_SUFFIX.

Definition file_path (directory : string) (session : Id) : string := join directory (file_name session).

(** [path.with_file_name], of the session's file. *)
Definition lock_path (directory : string) (session : Id) : string :=
  join directory ("." +:+ file_name session +:+ ".lock").

(** [SessionFileLock::acquire]: the lock's file is created when there is none. *)
Definition acquire (io : SaveIo.t) (directory : string) (session : Id) (fs : Fs.t) : option Fs.t :=
  if SaveIo.lock io then
    Some match Fs.create_new (lock_path directory session) fs with
         | Some (_, fs') => fs'
         | None => fs
         end
  else None.

Definition temporary_path (directory : string) (session nonce : Id) : string :=
  join directory ("." +:+ FILE_PREFIX +:+ show_id session +:+ "-" +:+ show_id nonce +:+ ".tmp").

Definition OPEN_ATTEMPTS : nat := 16.

(** The loop of [open_temporary]. *)
Fixpoint open_temporary (io : SaveIo.t) (directory : string) (session : Id) (remaining attempt : nat)
    (fs : Fs.t) : option (string * N * Fs.t) :=
  match remaining with
  | 0 => None
  | S remaining =>
      let path := temporary_path directory session (SaveIo.nonce io attempt) in
      if SaveIo.open_fails io attempt then None
      else match Fs.create_new path fs with
      | Some (i, fs') => Some (path, i, fs')
      | None => open_temporary io directory session remaining (S attempt) fs
      end
  end.

(** The states of a write, byte by byte. *)
Definition write_states (i : N) (bytes : list byte) (n : nat) (fs : Fs.t) : list Fs.t :=
  (λ k, Fs.write i (take k bytes) fs) <$> seq 0 (S n).

(** [publish_unlocked]: the temporary file is removed when it was not renamed. *)
Definition publish_unlocked (io : SaveIo.t) (directory : string) (session : Id) (bytes : list byte)
    (fs : Fs.t) : list Fs.t * result unit SessionError :=
  let path := file_path directory session in
  match open_temporary io directory session OPEN_ATTEMPTS 0 fs with
  | None => ([], Err SIo)
  | Some (temporary, i, fs1) =>
      let writing n := write_states i bytes n fs1 in
      let dropped fs := if SaveIo.remove io then Fs.remove temporary fs else fs in
      match SaveIo.written io with
      | Some n => (writing n ++ [dropped (Fs.write i (take n bytes) fs1)], Err SIo)
      | None =>
          let fs2 := Fs.write i bytes fs1 in
          match (if SaveIo.sync io && SaveIo.rename io then Fs.rename temporary path fs2 else None) with
          | None => (writing (length bytes) ++ [dropped fs2], Err SIo)
          | Some fs3 =>
              (writing (length bytes) ++ [fs3], if SaveIo.sync_parent io then Ok tt else Err SIo)
          end
      end
  end.

(** ** Decoding *)

Fixpoint validate_legacy_pairs (seen : gset Id) (pairs : list (Id * list byte)) :
    result unit SessionError :=
  match pairs with
  | [] => Ok tt
  | (turn, _) :: pairs =>
      if is_nil turn then Err SMalformed
      else if bool_decide (turn ∈ seen) then Err (DuplicateTurn turn)
      else validate_legacy_pairs ({[turn]} ∪ seen) pairs
  end.

Definition validate_legacy_turns (session : Id) (pairs : list (Id * list byte)) :
    result unit SessionError :=
  if is_nil session then Err SMalformed else validate_legacy_pairs ∅ pairs.

Definition decode_checkpoint (bytes : list byte) (expected : Id) : result checkpoint SessionError :=
  match parse_document codec bytes with
  | Some (format, found, value) =>
      if negb (bool_decide (format = FORMAT)) then Err SMalformed
      else if negb (found =? CHECKPOINT_VERSION)%N then Err (UnsupportedVersion found)
      else
        let? c := ok_or (parse_checkpoint codec value) SMalformed in
        if negb (version c =? found)%N then Err SMalformed
        else if negb (bool_decide (session c = expected)) then Err SMalformed
        else let? _ := validate c in Ok c
  | None =>
      let? stored := ok_or (parse_legacy codec bytes) SMalformed in
      let? _ := validate_legacy_turns stored.1 stored.2 in
      if negb (bool_decide (stored.1 = expected)) then Err SMalformed
      else push_bodies stored.2 (Checkpoint.new stored.1)
  end.

(** [std::fs::read], absence apart. *)
Definition read_file (read : bool) (path : string) (fs : Fs.t) : result (option (list byte)) SessionError :=
  if read then Ok (Fs.read_name path fs) else Err SIo.

Definition read_versioned_checkpoint_if_present (read : bool) (path : string) (session : Id) (fs : Fs.t) :
    result (option checkpoint) SessionError :=
  let? found := read_file read path fs in
  match found with
  | None => Ok None
  | Some bytes =>
      match parse_legacy codec bytes with
      | Some (stored, pairs) =>
          let? _ := validate_legacy_turns stored pairs in
          if negb (bool_decide (stored = session)) then Err SMalformed else Ok None
      | None => let? c := decode_checkpoint bytes session in Ok (Some c)
      end
  end.

Definition read_checkpoint_if_present (read : bool) (path : string) (session : Id) (fs : Fs.t) :
    result (option checkpoint) SessionError :=
  let? found := read_file read path fs in
  match found with
  | None => Ok None
  | Some bytes => let? c := decode_checkpoint bytes session in Ok (Some c)
  end.

Definition current_revision (read : bool) (path : string) (session : Id) (fs : Fs.t) :
    result (option N) SessionError :=
  let? found := read_checkpoint_if_present read path session fs in Ok (revision <$> found).

(** ** Saving *)

Definition merge_legacy_projection (existing : checkpoint) (pairs : list (Id * list byte)) :
    result checkpoint SessionError :=
  if length pairs <? length (turns existing) then Err LossyLegacySave
  else if existsb (λ p, negb (bool_decide (p.1.1 = ct_turn p.2)) ||
                        negb (bool_decide (p.1.2 = display_body p.2)))
            (combine pairs (turns existing))
  then Err LossyLegacySave
  else push_bodies (drop (length (turns existing)) pairs) existing.

(** A step that is refused before anything is published leaves the states so far. *)
Definition publishing (fs : Fs.t) (step : result (option (list byte)) SessionError)
    (io : SaveIo.t) (directory : string) (session : Id) : list Fs.t * result unit SessionError :=
  match step with
  | Err e => ([fs], Err e)
  | Ok None => ([fs], Ok tt)
  | Ok (Some bytes) =>
      let '(trace, r) := publish_unlocked io directory session bytes fs in (fs :: trace, r)
  end.

Definition save (io : SaveIo.t) (directory : string) (session : Id) (pairs : list (Id * list byte))
    (fs : Fs.t) : list Fs.t * result unit SessionError :=
  match validate_legacy_turns session pairs with
  | Err e => ([], Err e)
  | Ok _ =>
      match (if SaveIo.directory io then acquire io directory session fs else None) with
      | None => ([], Err SIo)
      | Some fs =>
          publishing fs
            (let? existing := read_versioned_checkpoint_if_present (SaveIo.read io)
                                (file_path directory session) session fs in
             match existing with
             | None => Ok (Some (print_legacy codec session pairs))
             | Some existing =>
                 let? candidate := merge_legacy_projection existing pairs in
                 if bool_decide (candidate = existing) then Ok None
                 else Ok (Some (print_document codec candidate))
             end) io directory session
      end
  end.

Definition save_checkpoint (io : SaveIo.t) (directory : string) (c : checkpoint)
    (expected_revision : option N) (fs : Fs.t) : list Fs.t * result unit SessionError :=
  match validate c with
  | Err e => ([], Err e)
  | Ok _ =>
      match (if SaveIo.directory io then acquire io directory (session c) fs else None) with
      | None => ([], Err SIo)
      | Some fs =>
          publishing fs
            (let? found := current_revision (SaveIo.read io) (file_path directory (session c))
                             (session c) fs in
             let observed := default 0%N found in
             if match expected_revision with
                | Some expected => negb (observed =? expected)%N
                | None => false
                end
             then Err (RevisionConflict (default 0%N expected_revision) observed)
             else if match found with Some current => (revision c <=? current)%N | None => false end
             then Err (NonMonotonicRevision (revision c) observed)
             else Ok (Some (print_document codec c))) io directory (session c)
      end
  end.

(** ** Loading *)

Definition load (read : bool) (directory : string) (session : Id) (fs : Fs.t) :
    result (option (list (Id * list byte))) SessionError :=
  let? found := read_file read (file_path directory session) fs in
  match found with
  | None => Ok None
  | Some bytes =>
      match parse_legacy codec bytes with
      | Some (stored, pairs) =>
          let? _ := validate_legacy_turns stored pairs in
          if negb (bool_decide (stored = session)) then Err SMalformed else Ok (Some pairs)
      | None => let? c := decode_checkpoint bytes session in Ok (Some (shown <$> turns c))
      end
  end.

Definition load_checkpoint (read : bool) (directory : string) (session : Id) (fs : Fs.t) :
    result (option checkpoint) SessionError :=
  read_checkpoint_if_present read (file_path directory session) session fs.

(** [list]: [entries] are the names [read_dir] gives, in whatever order; [None] when
    the directory is absent. *)
Definition name_le (a b : string) : Prop := key_leb (bytes a) (bytes b) = true.

#[export] Instance name_le_dec a b : base.Decision (name_le a b).
Proof. unfold name_le. apply _. Defined.

Definition list_sessions (entries : result (option (list string)) SessionError) :
    result (list Id) SessionError :=
  let? entries := entries in
  Ok (omap (λ name,
       stem ← strip_prefix (bytes FILE_PREFIX) (bytes name);
       stem ← strip_suffix (bytes FILE_SUFFIX) stem;
       parse_id (String.string_of_list_ascii stem)) (merge_sort name_le (default [] entries))).

(** ** Sessions: [session.rs] *)

Record Session := mkSession { id : Id; turn_ids : list Id; bodies : list (list byte) }.

Definition new_session (fresh : Id) : Session := mkSession fresh [] [].

Definition record_turn_with_body (turn : Id) (body : list byte) (s : Session) : bool * Session :=
  if is_nil turn || bool_decide (turn ∈ turn_ids s) then (false, s)
  else (true, mkSession (id s) (turn_ids s ++ [turn]) (bodies s ++ [body])).

Definition record_turn (turn : Id) (s : Session) : bool * Session :=
  if is_nil turn || bool_decide (turn ∈ turn_ids s) then (false, s)
  else (true, mkSession (id s) (turn_ids s ++ [turn]) (bodies s ++ [[]])).

Definition save_session (io : SaveIo.t) (directory : string) (s : Session) (fs : Fs.t) :
    list Fs.t * result unit SessionError :=
  save io directory (id s) (combine (turn_ids s) (bodies s)) fs.

Definition session_checkpoint (s : Session) : result checkpoint SessionError :=
  push_bodies (combine (turn_ids s) (bodies s)) (Checkpoint.new (id s)).

Definition save_session_checkpoint (io : SaveIo.t) (directory : string) (s : Session) (c : checkpoint)
    (expected_revision : option N) (fs : Fs.t) : list Fs.t * result unit SessionError :=
  if negb (bool_decide (session c = id s)) then ([], Err SMalformed)
  else save_checkpoint io directory c expected_revision fs.

Definition resume (read : bool) (directory : string) (session : Id) (fs : Fs.t) :
    result (option Session) SessionError :=
  let? found := load read directory session fs in
  Ok ((λ pairs, mkSession session pairs.*1 pairs.*2) <$> found).

Definition resume_checkpoint (read : bool) (directory : string) (session : Id) (fs : Fs.t) :
    result (option (Session * checkpoint)) SessionError :=
  let? found := load_checkpoint read directory session fs in
  Ok ((λ c, (mkSession session (ct_turn <$> turns c) (display_body <$> turns c), c)) <$> found).

Definition branch_session (fresh : Id) (s : Session) : Session := mkSession fresh (turn_ids s) (bodies s).

Definition lf : byte := "010".

(** One heading a turn. *)
Definition heading (turn : Id) (body : list byte) : list byte :=
  lf :: bytes "## Turn " ++ bytes (show_id turn) ++ [lf; lf] ++ body ++ [lf].

Definition export_markdown (s : Session) : list byte :=
  bytes "# Session" ++ lf :: concat ((λ p, heading p.1 p.2) <$> combine (turn_ids s) (bodies s)).

Definition export_markdown_with (known : list (Id * list byte)) (s : Session) : list byte :=
  bytes "# Session" ++ lf :: concat ((λ turn,
    heading turn (default [] (snd <$> List.find (λ p, bool_decide (p.1 = turn)) known))) <$> turn_ids s).
End store.

(** ** Lemmas on names *)

Lemma append_inj (a b c : string) : a +:+ b = a +:+ c → b = c.
Proof. induction a as [|x a IH]; simpl; intros E; [done|]. injection E as E. auto. Qed.

Lemma join_inj directory a b : join directory a = join directory b → a = b.
Proof.
  unfold join. case_bool_decide; intros E; apply append_inj in E; [done|]. by injection E.
Qed.

Lemma append_inj_r (a b c : string) : a +:+ c = b +:+ c → a = b.
Proof.
  intros H. apply (f_equal String.list_ascii_of_string) in H.
  assert (Happ : ∀ x y, String.list_ascii_of_string (x +:+ y) =
    String.list_ascii_of_string x ++ String.list_ascii_of_string y)
    by (intros x y; apply bytes_app).
  rewrite !Happ in H. apply app_inv_tail in H.
  rewrite <- (String.string_of_list_ascii_of_string a), <- (String.string_of_list_ascii_of_string b).
  by rewrite H.
Qed.

Lemma combine_fmap {A B} (l : list (A * B)) : combine l.*1 l.*2 = l.
Proof. induction l as [|[a b] l IH]; [done|]. cbn. by rewrite IH. Qed.

Section store_facts.
Context {V : Type} `{EqDecision V} (is_object : V → bool) (role : V → option (list byte)).
Context (codec : Codec V) (show_id : Id → string) (directory : string).

Abbreviation checkpoint := (@SessionCheckpoint V).
Abbreviation validate := (validate is_object role).
#[local] Abbreviation file_path := (file_path show_id directory).

Lemma hidden_not_session x session : join directory ("." +:+ x) ≠ file_path session.
Proof. intros H%join_inj. discriminate H. Qed.

Lemma file_path_inj `{!Inj (=) (=) show_id} s s' : file_path s = file_path s' → s = s'.
Proof. intros H%join_inj%append_inj%append_inj_r. by apply (inj show_id). Qed.

Lemma open_temporary_Some io session remaining : ∀ attempt fs path i fs1,
  open_temporary show_id io directory session remaining attempt fs = Some (path, i, fs1) →
  (∃ nonce, path = temporary_path show_id directory session nonce) ∧ Fs.names fs !! path = None ∧
  i = Fs.next fs ∧ fs1 = with_file path [] fs.
Proof.
  induction remaining as [|remaining IH]; intros attempt fs path i fs1; cbn [open_temporary]; [done|].
  destruct (SaveIo.open_fails io attempt); [done|]. set (p := temporary_path _ _ _ _).
  destruct (Fs.names fs !! p) as [j|] eqn:E.
  - unfold Fs.create_new. rewrite E. apply IH.
  - rewrite create_new_spec by done. intros [= <- <- <-]. split_and!; [by eexists|done..].
Qed.

Lemma publish_spec io session bytes fs trace r :
  publish_unlocked show_id io directory session bytes fs = (trace, r) →
  (∀ fs', fs' ∈ trace →
     (Fs.read_name (file_path session) fs' = Fs.read_name (file_path session) fs ∨
      Fs.read_name (file_path session) fs' = Some bytes) ∧
     ∀ s, file_path s ≠ file_path session → Fs.read_name (file_path s) fs' = Fs.read_name (file_path s) fs) ∧
  (r = Ok tt → last trace = Some (with_file (file_path session) bytes fs)).
Proof.
  unfold publish_unlocked.
  destruct (open_temporary _ _ _ _ _ _ _) as [[[path i] fs1]|] eqn:E;
    [|intros [= <- <-]; split; [by intros ? ?%elem_of_nil|done]].
  apply open_temporary_Some in E as ((nonce & Hpath) & Hfree & -> & ->).
  assert (Hne : ∀ s, path ≠ file_path s) by (intros s; rewrite Hpath; apply hidden_not_session).
  assert (Hsame : ∀ fs', (∃ bs, fs' = with_file path bs fs ∨ fs' = with_orphan bs fs) ∨
      fs' = with_file (file_path session) bytes fs →
    (Fs.read_name (file_path session) fs' = Fs.read_name (file_path session) fs ∨
     Fs.read_name (file_path session) fs' = Some bytes) ∧
    ∀ s, file_path s ≠ file_path session → Fs.read_name (file_path s) fs' = Fs.read_name (file_path s) fs).
  { intros fs' H. apply publication_states in H as [H1 H2]; [|done..]. split; [done|].
    intros s Hs. apply H2; [done|]. intros Hp. by apply (Hne s). }
  assert (Hwriting : ∀ n fs', fs' ∈ write_states (Fs.next fs) bytes n (with_file path [] fs) →
    ∃ bs, fs' = with_file path bs fs ∨ fs' = with_orphan bs fs).
  { intros n fs' (k & -> & _)%list_elem_of_fmap. rewrite write_with_file. eauto. }
  assert (Hdropped : ∀ bs, let fs' := if SaveIo.remove io then Fs.remove path (with_file path bs fs)
      else with_file path bs fs in fs' = with_file path bs fs ∨ fs' = with_orphan bs fs).
  { intros bs. destruct (SaveIo.remove io); [right|by left]. by apply remove_with_file. }
  destruct (SaveIo.written io) as [n|].
  - intros [<- <-]%pair_equal_spec. split; [|done].
    intros fs' [Hin|Hin%list_elem_of_singleton]%elem_of_app; apply Hsame; left; [by eapply Hwriting|].
    subst fs'. rewrite write_with_file. eexists. apply Hdropped.
  - rewrite write_with_file, rename_with_file by done.
    destruct (SaveIo.sync io && SaveIo.rename io); intros [<- <-]%pair_equal_spec.
    + split; [|intros _; by rewrite last_snoc].
      intros fs' [Hin| ->%list_elem_of_singleton]%elem_of_app; apply Hsame; [left|by right].
      by eapply Hwriting.
    + split; [|done]. intros fs' [Hin|Hin%list_elem_of_singleton]%elem_of_app; apply Hsame; left;
        [by eapply Hwriting|]. subst fs'. eexists. apply Hdropped.
Qed.

Lemma publish_perfect nonce session bytes fs n :
  n < OPEN_ATTEMPTS → Fs.names fs !! temporary_path show_id directory session (nonce n) = None →
  ∃ trace, publish_unlocked show_id (SaveIo.perfect nonce) directory session bytes fs = (trace, Ok tt).
Proof.
  intros Hn Hfree. unfold publish_unlocked.
  assert (H : ∀ remaining attempt, attempt ≤ n < attempt + remaining →
    is_Some (open_temporary show_id (SaveIo.perfect nonce) directory session remaining attempt fs)).
  { induction remaining as [|remaining IH]; intros attempt Ha; [lia|].
    cbn [open_temporary SaveIo.open_fails SaveIo.perfect SaveIo.nonce]. unfold Fs.create_new.
    set (path := temporary_path show_id directory session (nonce attempt)).
    destruct (Fs.names fs !! path) eqn:E; [|eauto].
    destruct (decide (attempt = n)) as [->|]; [by subst path; rewrite Hfree in E|]. apply IH. lia. }
  destruct (H OPEN_ATTEMPTS 0) as [[[path i] fs1] E]; [lia|]. rewrite E. cbn [SaveIo.perfect SaveIo.written].
  apply open_temporary_Some in E as (_ & Hp & -> & ->). rewrite write_with_file. cbn.
  rewrite rename_with_file by done. eauto.
Qed.

Lemma acquire_reads io session fs fs' :
  acquire show_id io directory session fs = Some fs' →
  ∀ s, Fs.read_name (file_path s) fs' = Fs.read_name (file_path s) fs.
Proof.
  unfold acquire. destruct (SaveIo.lock io); [|done]. intros [= <-] s.
  destruct (Fs.names fs !! lock_path show_id directory session) as [i|] eqn:E.
  - unfold Fs.create_new. by rewrite E.
  - rewrite create_new_spec by done. apply read_with_other. intros H. symmetry in H.
    by apply hidden_not_session in H.
Qed.

Definition file_at (s : Id) (fs : Fs.t) : option (list byte) := Fs.read_name (file_path s) fs.

Lemma publishing_spec fs step io session trace r :
  publishing show_id fs step io directory session = (trace, r) →
  (∀ fs', fs' ∈ trace →
     (file_at session fs' = file_at session fs ∨ ∃ bytes, step = Ok (Some bytes) ∧ file_at session fs' = Some bytes) ∧
     ∀ s, file_path s ≠ file_path session → file_at s fs' = file_at s fs) ∧
  (r = Ok tt → ∃ found, step = Ok found ∧
     file_at session (default fs (last trace)) = match found with Some b => Some b | None => file_at session fs end) ∧
  (∀ e, step = Err e → r = Err e ∧ trace = [fs]) ∧ is_Some (last trace).
Proof.
  unfold publishing. destruct step as [[bytes|]|e].
  - destruct (publish_unlocked _ _ _ _ _ _) as [trace' r'] eqn:E. intros [= <- <-].
    apply publish_spec in E as [H1 H2]. split_and!; [|intros ->|done|rewrite last_cons; destruct (last trace'); eauto].
    + intros fs' [->|Hin]%elem_of_cons; [by auto|]. destruct (H1 fs' Hin) as [Hf Ho]. split; [|done].
      destruct Hf; [by left|]. right. by exists bytes.
    + exists (Some bytes). split; [done|]. specialize (H2 eq_refl).
      rewrite last_cons, H2. unfold file_at. apply read_with_file.
  - intros [= <- <-]. split_and!; [|intros _; by exists None|done|eauto].
    intros fs' ->%list_elem_of_singleton. auto.
  - intros [= <- <-]. split_and!; [|done|by intros ? [= ->]|eauto].
    intros fs' ->%list_elem_of_singleton. auto.
Qed.

(** ** Lemmas on files *)

Context `{!CodecLaws codec} `{!Inj (=) (=) show_id}.

Abbreviation decode := (decode_checkpoint is_object role codec).
Abbreviation loaded := (load_checkpoint is_object role codec show_id true directory).

Lemma loaded_eq s fs :
  loaded s fs = match file_at s fs with
                | None => Ok None
                | Some bytes => let? c := decode bytes s in Ok (Some c)
                end.
Proof. done. Qed.

Lemma loaded_same s fs fs' : file_at s fs' = file_at s fs → loaded s fs' = loaded s fs.
Proof. rewrite !loaded_eq. by intros ->. Qed.

Lemma validate_version c : validate c = Ok tt → version c = CHECKPOINT_VERSION.
Proof. unfold Checkpoint.validate. destruct (N.eqb_spec (version c) CHECKPOINT_VERSION); done. Qed.

Lemma decode_document c : validate c = Ok tt → decode (print_document codec c) (session c) = Ok c.
Proof.
  intros Hv. unfold decode_checkpoint. destruct (document_roundtrip c) as (value & -> & Hp).
  rewrite bool_decide_eq_true_2 by done. cbn [negb]. rewrite N.eqb_refl. cbn [negb].
  rewrite Hp. cbn [ok_or result_bind]. rewrite (validate_version c Hv), N.eqb_refl. cbn [negb].
  rewrite bool_decide_eq_true_2 by done. cbn [negb]. by rewrite Hv.
Qed.

Lemma decode_versioned_Ok bytes s c :
  parse_legacy codec bytes = None → decode bytes s = Ok c → session c = s ∧ validate c = Ok tt.
Proof.
  intros Hl. unfold decode_checkpoint. rewrite Hl.
  destruct (parse_document codec bytes) as [[[format found] value]|]; [|done].
  destruct (bool_decide (format = FORMAT)); [|done]. cbn [negb].
  destruct (found =? CHECKPOINT_VERSION)%N; [|done]. cbn [negb].
  intros (c' & _ & H)%result_bind_Ok. destruct (version c' =? found)%N; [|done]. cbn [negb] in H.
  case_bool_decide as Hs; [|done]. cbn [negb] in H.
  apply result_bind_Ok in H as ([] & Hv & [= <-]). done.
Qed.

Lemma validate_legacy_pairs_Ok pairs : ∀ seen,
  validate_legacy_pairs seen pairs = Ok tt ↔
  NoDup pairs.*1 ∧ ∀ t, t ∈ pairs.*1 → (t ∉ seen) ∧ is_nil t = false.
Proof.
  induction pairs as [|[t body] pairs IH]; intros seen; cbn [validate_legacy_pairs].
  { split; [|done]. intros _. split; [constructor|]. intros t Ht. by apply elem_of_nil in Ht. }
  rewrite fmap_cons, NoDup_cons. cbn [fst]. destruct (is_nil t) eqn:Hnil.
  { split; [done|]. intros [_ H]. destruct (H t); [by left|]. congruence. }
  case_bool_decide as Hseen.
  { split; [done|]. intros [_ H]. by destruct (H t); [left|]. }
  rewrite IH. split.
  - intros (Hnd & Hall). split_and!; [|done|].
    + intros Hin. apply Hall in Hin as [Hin _]. set_solver.
    + intros t' [->|Hin]%elem_of_cons; [done|]. apply Hall in Hin as [Hin ?]. set_solver.
  - intros ((Hnt & Hnd) & Hall). split; [done|]. intros t' Hin. destruct (Hall t') as [Hs Hn]; [by right|].
    split; [|done]. intros [->%elem_of_singleton|]%elem_of_union; done.
Qed.

Lemma validate_legacy_turns_Ok s pairs :
  validate_legacy_turns s pairs = Ok tt ↔
  is_nil s = false ∧ NoDup pairs.*1 ∧ ∀ t, t ∈ pairs.*1 → is_nil t = false.
Proof.
  unfold validate_legacy_turns. destruct (is_nil s); [naive_solver|]. rewrite validate_legacy_pairs_Ok.
  split; intros H; split_and!; try done; try apply H. destruct H as (_ & _ & H).
  intros t Ht. split; [set_solver|auto].
Qed.

(** A file in the versioned format that reads well. *)
Definition versioned (s : Id) (fs : Fs.t) (c : checkpoint) : Prop :=
  ∃ bytes, file_at s fs = Some bytes ∧ parse_legacy codec bytes = None ∧ decode bytes s = Ok c.

Lemma versioned_loaded s fs c : versioned s fs c → loaded s fs = Ok (Some c).
Proof. intros (bytes & Hf & _ & Hd). by rewrite loaded_eq, Hf, Hd. Qed.

Lemma versioned_same s fs fs' c : file_at s fs' = file_at s fs → versioned s fs c → versioned s fs' c.
Proof. intros He (bytes & Hf & H). exists bytes. by rewrite He. Qed.

Lemma versioned_printed fs c :
  validate c = Ok tt → file_at (session c) fs = Some (print_document codec c) → versioned (session c) fs c.
Proof. intros Hv Hf. exists (print_document codec c). split_and!; [done|apply document_not_legacy|]. by apply decode_document. Qed.

Lemma file_path_ne s s' : s ≠ s' → file_path s ≠ file_path s'.
Proof. intros Hne H%file_path_inj. done. Qed.

(** ** Saving a checkpoint *)

(** What [save_checkpoint] compares with the file. *)
Definition admissible (c : checkpoint) (expected : option N) (found : option checkpoint) : Prop :=
  (∀ e, expected = Some e → default 0%N (revision <$> found) = e) ∧
  (∀ old, found = Some old → (revision old < revision c)%N).

Lemma save_checkpoint_spec io c expected fs trace r :
  save_checkpoint is_object role codec show_id io directory c expected fs = (trace, r) →
  (∀ fs', fs' ∈ trace →
     (file_at (session c) fs' = file_at (session c) fs ∨
      (validate c = Ok tt ∧ file_at (session c) fs' = Some (print_document codec c) ∧
       ∃ found, loaded (session c) fs = Ok found ∧ admissible c expected found)) ∧
     ∀ s, s ≠ session c → file_at s fs' = file_at s fs) ∧
  (r = Ok tt → validate c = Ok tt ∧
     file_at (session c) (default fs (last trace)) = Some (print_document codec c) ∧
     ∃ found, loaded (session c) fs = Ok found ∧ admissible c expected found).
Proof.
  unfold save_checkpoint. destruct (validate c) as [[]|e] eqn:Hv.
  2:{ intros [= <- <-]. split; [by intros ? ?%elem_of_nil|done]. }
  destruct (if SaveIo.directory io then acquire show_id io directory (session c) fs else None) as [fs0|] eqn:Ha.
  2:{ intros [= <- <-]. split; [by intros ? ?%elem_of_nil|done]. }
  destruct (SaveIo.directory io); [|done].
  assert (Hread : ∀ s, file_at s fs0 = file_at s fs) by by eapply acquire_reads.
  set (step := result_bind _ _). intros H. apply publishing_spec in H as (H1 & H2 & H3 & Hsome).
  assert (Hstep : ∀ found, step = Ok found → found = Some (print_document codec c) ∧
    ∃ old, loaded (session c) fs = Ok old ∧ admissible c expected old).
  { unfold step. intros found (rev & Hrev & H)%result_bind_Ok.
    unfold current_revision in Hrev. apply result_bind_Ok in Hrev as (old & Hold & [= <-]).
    unfold read_checkpoint_if_present, read_file in Hold. destruct (SaveIo.read io); [|done].
    cbn [result_bind] in Hold.
    assert (Hl : loaded (session c) fs = Ok old).
    { rewrite loaded_eq, <- Hread. exact Hold. }
    destruct expected as [e|].
    - destruct (N.eqb_spec (default 0%N (revision <$> old)) e) as [He|]; [|done]. cbn [negb] in H.
      split; [|exists old; split; [done|split; [by intros ? [= <-]|]]];
        destruct old as [o|]; cbn in H; try (destruct (N.leb_spec (revision c) (revision o)); [done|]);
        injection H as <-; try done; by intros ? [= <-].
    - split; [|exists old; split; [done|split; [done|]]];
        destruct old as [o|]; cbn in H; try (destruct (N.leb_spec (revision c) (revision o)); [done|]);
        injection H as <-; try done; by intros ? [= <-]. }
  split.
  - intros fs' Hin. destruct (H1 fs' Hin) as [Hf Ho]. split.
    + rewrite Hread in Hf. destruct Hf as [Hf|(bytes & Hs & Hf)]; [by left|]. right.
      destruct (Hstep _ Hs) as ([= ->] & old & Hold). split_and!; [done|done|by exists old].
    + intros s Hs. rewrite <- Hread. by apply Ho, file_path_ne.
  - intros ->. destruct (H2 eq_refl) as (found & Hs & Hf). destruct (Hstep _ Hs) as (-> & Hold).
    split_and!; [done| |done]. rewrite <- Hf. by destruct Hsome as [? ->].
Qed.

Lemma last_char (a b : string) (x y : ascii) :
  a +:+ String x "" = b +:+ String y "" → x = y.
Proof.
  intros H. apply (f_equal bytes) in H. rewrite !bytes_app in H.
  apply (f_equal last) in H. change (bytes (String x "")) with [x] in H.
  change (bytes (String y "")) with [y] in H. rewrite !last_snoc in H. by injection H.
Qed.

Lemma temporary_not_lock session nonce :
  temporary_path show_id directory session nonce ≠ lock_path show_id directory session.
Proof.
  intros H%join_inj. unfold file_name, FILE_SUFFIX in H.
  assert (Happ : ∀ a b c : string, (a +:+ b) +:+ c = a +:+ (b +:+ c)).
  { intros a b c. induction a as [|x a IH]; [done|]. change (String x ((a +:+ b) +:+ c) = String x (a +:+ (b +:+ c))). by rewrite IH. }
  change ".tmp" with (".tm" +:+ "p") in H. change ".lock" with (".loc" +:+ "k") in H.
  rewrite <- !Happ in H. by apply last_char in H.
Qed.

(** A perfect save of an admissible checkpoint succeeds. *)
Lemma save_checkpoint_live nonce n c expected found fs :
  validate c = Ok tt → loaded (session c) fs = Ok found → admissible c expected found →
  n < OPEN_ATTEMPTS → Fs.names fs !! temporary_path show_id directory (session c) (nonce n) = None →
  (save_checkpoint is_object role codec show_id (SaveIo.perfect nonce) directory c expected fs).2 = Ok tt.
Proof.
  intros Hv Hl [He Hr] Hn Hfree. unfold save_checkpoint. rewrite Hv. cbn [SaveIo.perfect SaveIo.directory].
  destruct (acquire show_id (SaveIo.perfect nonce) directory (session c) fs) as [fs0|] eqn:Ha; [|done].
  assert (Hread : ∀ s, file_at s fs0 = file_at s fs) by by eapply acquire_reads.
  assert (Hstep : current_revision is_object role codec true (file_path (session c)) (session c) fs0 =
    Ok (revision <$> found)).
  { unfold current_revision.
    change (read_checkpoint_if_present is_object role codec true (file_path (session c)) (session c) fs0)
      with (loaded (session c) fs0). by rewrite (loaded_same _ fs fs0 (Hread _)), Hl. }
  cbn [SaveIo.read SaveIo.perfect]. rewrite Hstep. cbn [result_bind].
  replace (match expected with Some expected => _ | None => _ end) with false.
  2:{ destruct expected as [e|]; [|done]. by rewrite (He e eq_refl), N.eqb_refl. }
  replace (match revision <$> found with Some current => _ | None => _ end) with false.
  2:{ destruct found as [o|]; [|done]. specialize (Hr o eq_refl). simpl. symmetry. apply N.leb_gt. lia. }
  unfold publishing. destruct (publish_perfect nonce (session c) (print_document codec c) fs0 n)
    as [trace E]; [done| |].
  { unfold acquire in Ha. cbn [SaveIo.perfect SaveIo.lock] in Ha. injection Ha as <-.
    unfold Fs.create_new. destruct (Fs.names fs !! lock_path _ _ _); [done|]. cbn [Fs.names].
    rewrite lookup_insert_ne; [done|]. intros H. symmetry in H. by apply temporary_not_lock in H. }
  by rewrite E.
Qed.

(** ** Saving the displayed turns *)

Lemma merge_Ok (existing : checkpoint) pairs c :
  merge_legacy_projection existing pairs = Ok c ↔
  ∃ rest, pairs = (shown <$> turns existing) ++ rest ∧ push_bodies rest existing = Ok c.
Proof.
  unfold merge_legacy_projection.
  assert (Hprefix : ∀ (ts : list (@CheckpointTurn V)) ps, length ts ≤ length ps →
    existsb (λ p : Id * list byte * @CheckpointTurn V, negb (bool_decide (p.1.1 = ct_turn p.2)) ||
      negb (bool_decide (p.1.2 = display_body p.2))) (combine ps ts) = false ↔
    ps = (shown <$> ts) ++ drop (length ts) ps).
  { induction ts as [|t ts IH]; intros [|[id body] ps] Hle; cbn [combine existsb length drop] in *; try done; [lia|].
    rewrite orb_false_iff, IH by lia. cbn [fst snd]. rewrite orb_false_iff, !negb_false_iff, !bool_decide_eq_true.
    rewrite fmap_cons. cbn [app]. unfold shown at 2. split.
    - intros [[-> ->] Hd]. f_equal. exact Hd.
    - intros E. injection E as -> -> Hd. split; [done|exact Hd]. }
  destruct (Nat.ltb_spec (length pairs) (length (turns existing))) as [Hlt|Hle].
  { split; [done|]. intros (rest & -> & _). rewrite length_app, length_fmap in Hlt. lia. }
  specialize (Hprefix (turns existing) pairs Hle).
  destruct (existsb _ _) eqn:E.
  - split; [done|]. intros (rest & -> & _). assert (true = false); [|done]. rewrite <- E.
    rewrite E. apply Hprefix. replace (length (turns existing)) with (length (shown <$> turns existing))
      by by rewrite length_fmap. by rewrite drop_app_length.
  - split.
    + intros H. eexists. split; [by apply Hprefix|done].
    + intros (rest & Hp & H). rewrite Hp. replace (length (turns existing)) with (length (shown <$> turns existing))
        by by rewrite length_fmap. by rewrite drop_app_length.
Qed.

Lemma push_bodies_same rest (c : checkpoint) : push_bodies rest c = Ok c → rest = [].
Proof.
  intros (_ & _ & H)%push_bodies_shape. apply (f_equal revision) in H. simpl in H.
  destruct rest; [done|]. simpl in H. lia.
Qed.

(** The file that saving the displayed turns leaves, over what was there. *)
Definition saved (s : Id) (pairs : list (Id * list byte)) (fs : Fs.t) (f : option (list byte)) : Prop :=
  validate_legacy_turns s pairs = Ok tt ∧
  ((∃ c0 rest, versioned s fs c0 ∧ pairs = (shown <$> turns c0) ++ rest ∧
      ((rest = [] ∧ f = file_at s fs) ∨
       ∃ c1, rest ≠ [] ∧ push_bodies rest c0 = Ok c1 ∧ f = Some (print_document codec c1))) ∨
   ((∀ c0, ¬ versioned s fs c0) ∧ f = Some (print_legacy codec s pairs))).

Lemma save_spec io s pairs fs trace r :
  save is_object role codec show_id io directory s pairs fs = (trace, r) →
  (∀ fs', fs' ∈ trace → (file_at s fs' = file_at s fs ∨ saved s pairs fs (file_at s fs')) ∧
     ∀ s', s' ≠ s → file_at s' fs' = file_at s' fs) ∧
  (r = Ok tt → saved s pairs fs (file_at s (default fs (last trace)))).
Proof.
  unfold save. destruct (validate_legacy_turns s pairs) as [[]|e] eqn:Hv.
  2:{ intros [= <- <-]. split; [by intros ? ?%elem_of_nil|done]. }
  destruct (if SaveIo.directory io then acquire show_id io directory s fs else None) as [fs0|] eqn:Ha.
  2:{ intros [= <- <-]. split; [by intros ? ?%elem_of_nil|done]. }
  destruct (SaveIo.directory io); [|done].
  assert (Hread : ∀ s, file_at s fs0 = file_at s fs) by by eapply acquire_reads.
  set (step := result_bind _ _). intros H. apply publishing_spec in H as (H1 & H2 & _ & Hsome).
  assert (Hstep : ∀ found, step = Ok found →
    saved s pairs fs (match found with Some b => Some b | None => file_at s fs end)).
  { unfold step. intros found (old & Hold & H)%result_bind_Ok. split; [done|].
    unfold read_versioned_checkpoint_if_present, read_file in Hold. destruct (SaveIo.read io); [|done].
    cbn [result_bind] in Hold. change (Fs.read_name (file_path s) fs0) with (file_at s fs0) in Hold.
    rewrite Hread in Hold. destruct (file_at s fs) as [b|] eqn:Hf.
    - destruct (parse_legacy codec b) as [[stored ps]|] eqn:Hl.
      + apply result_bind_Ok in Hold as (_ & _ & Hold). destruct (bool_decide (stored = s)); [|done].
        injection Hold as <-. injection H as <-. right. split; [|done].
        intros c0 (b' & Hf' & Hl' & _). congruence.
      + apply result_bind_Ok in Hold as (c0 & Hd & [= <-]). left.
        apply result_bind_Ok in H as (c1 & (rest & Hp & Hpush)%merge_Ok & H).
        exists c0, rest. split; [by exists b|]. split; [done|].
        destruct (bool_decide (c1 = c0)) eqn:Hc; to_prop; injection H as <-.
        * subst c1. left. split; [by eapply push_bodies_same|done].
        * right. exists c1. split; [|done]. intros ->. apply Hc. by injection Hpush.
    - injection Hold as <-. injection H as <-. right. split; [|done].
      intros c0 (b' & Hf' & _). congruence. }
  split.
  - intros fs' Hin. destruct (H1 fs' Hin) as [Hf Ho]. split.
    + rewrite Hread in Hf. destruct Hf as [Hf|(bytes & Hs & Hf)]; [by left|]. right.
      rewrite Hf. apply (Hstep _ Hs).
    + intros s' Hs. rewrite <- Hread. by apply Ho, file_path_ne.
  - intros ->. destruct (H2 eq_refl) as (found & Hs & Hf). apply Hstep in Hs.
    destruct Hsome as [fs' Hlast]. rewrite Hlast in *. cbn [default] in *. rewrite Hf.
    destruct found; [done|]. by rewrite Hread.
Qed.

Lemma shown_plain (rest : list (Id * list byte)) : shown <$> ((plain (V:=V)) <$> rest) = rest.
Proof. induction rest as [|[t b] rest IH]; [done|]. rewrite !fmap_cons. by rewrite IH. Qed.

Lemma shown_ids (ts : list (@CheckpointTurn V)) : (shown <$> ts).*1 = ct_turn <$> ts.
Proof. by rewrite <- list_fmap_compose. Qed.

Lemma merged_valid s c0 rest c1 :
  session c0 = s → validate c0 = Ok tt → validate_legacy_turns s ((shown <$> turns c0) ++ rest) = Ok tt →
  push_bodies rest c0 = Ok c1 → session c1 = s ∧ validate c1 = Ok tt.
Proof.
  intros Hs Hv Hl Hp. apply push_bodies_shape in Hp as (Hnd & Hdis & ->). split; [done|].
  apply validate_legacy_turns_Ok in Hl as (_ & _ & Hnil).
  unfold Checkpoint.validate in *. cbn [version session parent parent_revision turns].
  do 4 (match type of Hv with (if ?b then _ else _) = _ => destruct b; [done|] end).
  apply validate_turns_app; [done|done| |].
  - intros t Ht. split; [by apply Hdis|]. set_solver.
  - intros t Ht. apply Hnil. rewrite fmap_app. set_solver.
Qed.

Lemma load_versioned s fs c :
  versioned s fs c → load is_object role codec show_id true directory s fs = Ok (Some (shown <$> turns c)).
Proof.
  intros (bytes & Hf & Hl & Hd). unfold load, read_file. cbn [result_bind].
  change (Fs.read_name (file_path s) fs) with (file_at s fs).
  by rewrite Hf, Hl, Hd.
Qed.

Lemma versioned_valid s fs c : versioned s fs c → session c = s ∧ validate c = Ok tt.
Proof. intros (bytes & _ & Hl & Hd). by eapply decode_versioned_Ok. Qed.

(** What a save of the displayed turns leaves is what was saved. *)
Lemma saved_load s pairs fs fs' :
  saved s pairs fs (file_at s fs') →
  load is_object role codec show_id true directory s fs' = Ok (Some pairs) ∧
  ∀ c0, versioned s fs c0 → ∃ rest c1, pairs = (shown <$> turns c0) ++ rest ∧
    push_bodies rest c0 = Ok c1 ∧ versioned s fs' c1.
Proof.
  intros (Hv & [(c0 & rest & Hc0 & -> & Hf)|(Hnot & Hf)]).
  - assert (∃ c1, push_bodies rest c0 = Ok c1 ∧ versioned s fs' c1) as (c1 & Hp & Hc1).
    { destruct (versioned_valid s fs c0 Hc0) as [Hs Hvc].
      destruct Hf as [[-> Hf]|(c1 & _ & Hp & Hf)].
      - exists c0. split; [done|]. by eapply versioned_same.
      - destruct (merged_valid s c0 rest c1 Hs Hvc Hv Hp) as [Hs1 Hv1]. exists c1. split; [done|].
        subst s. rewrite <- Hs1 in Hf |- *. by apply versioned_printed. }
    split.
    + rewrite (load_versioned s fs' c1 Hc1). apply push_bodies_shape in Hp as (_ & _ & ->).
      cbn [turns]. by rewrite fmap_app, shown_plain.
    + intros c0' (b' & Hf' & _ & Hd'). destruct Hc0 as (b & Hfb & _ & Hd).
      assert (c0' = c0) as -> by congruence. eauto.
  - split; [|intros c0 H; by apply Hnot in H].
    unfold load, read_file. cbn [result_bind].
    change (Fs.read_name (file_path s) fs') with (file_at s fs').
    rewrite Hf, legacy_roundtrip, Hv. cbn [result_bind]. by rewrite bool_decide_eq_true_2.
Qed.

(** ** Any sequence of saves *)

Inductive save_op :=
| SaveCheckpoint (io : SaveIo.t) (c : checkpoint) (expected : option N)
| SaveTurns (io : SaveIo.t) (s : Id) (pairs : list (Id * list byte)).

Definition run_save (fs : Fs.t) (op : save_op) : Fs.t :=
  default fs (last match op with
    | SaveCheckpoint io c expected =>
        (save_checkpoint is_object role codec show_id io directory c expected fs).1
    | SaveTurns io s pairs => (save is_object role codec show_id io directory s pairs fs).1
    end).

Lemma run_save_versioned s fs op c0 :
  versioned s fs c0 →
  ∃ c1, versioned s (run_save fs op) c1 ∧ (c1 = c0 ∨ (revision c0 < revision c1)%N).
Proof.
  intros Hc0. destruct op as [io c expected|io s' pairs]; unfold run_save.
  - destruct (save_checkpoint _ _ _ _ _ _ _ _ _) as [trace r] eqn:E. cbn [fst].
    destruct (last trace) as [fs'|] eqn:Hlast; [|by exists c0; auto]. cbn [default].
    apply save_checkpoint_spec in E as [Hall _]. apply last_Some_elem_of in Hlast.
    destruct (Hall fs' Hlast) as [Hown Hother]. destruct (decide (s = session c)) as [->|Hne].
    + destruct Hown as [Hf|(Hv & Hf & found & Hl & _ & Hr)]; [exists c0; split; [by eapply versioned_same|by left]|].
      exists c. split; [by apply versioned_printed|]. right. apply Hr.
      rewrite (versioned_loaded _ _ _ Hc0) in Hl. by injection Hl.
    + exists c0. split; [|by left]. eapply versioned_same; [|done]. by apply Hother.
  - destruct (save _ _ _ _ _ _ _ _ _) as [trace r] eqn:E. cbn [fst].
    destruct (last trace) as [fs'|] eqn:Hlast; [|by exists c0; auto]. cbn [default].
    apply save_spec in E as [Hall _]. apply last_Some_elem_of in Hlast.
    destruct (Hall fs' Hlast) as [Hown Hother]. destruct (decide (s = s')) as [<-|Hne].
    + destruct Hown as [Hf|Hsaved]; [exists c0; split; [by eapply versioned_same|by left]|].
      apply saved_load in Hsaved as [_ Hver]. destruct (Hver c0 Hc0) as (rest & c1 & _ & Hp & Hc1).
      exists c1. split; [done|]. apply push_bodies_shape in Hp as (_ & _ & ->). cbn [revision].
      destruct rest as [|p rest]; [left; destruct c0; simpl; by rewrite N.add_0_r, app_nil_r|right].
      simpl. lia.
    + exists c0. split; [|by left]. eapply versioned_same; [|done]. by apply Hother.
Qed.

Lemma run_saves_versioned s ops : ∀ fs c0,
  versioned s fs c0 →
  ∃ c1, versioned s (foldl run_save fs ops) c1 ∧ (c1 = c0 ∨ (revision c0 < revision c1)%N).
Proof.
  induction ops as [|op ops IH]; intros fs c0 Hc0; [by exists c0; auto|]. cbn [foldl].
  destruct (run_save_versioned s fs op c0 Hc0) as (c1 & Hc1 & H1).
  destruct (IH _ _ Hc1) as (c2 & Hc2 & H2). exists c2. split; [done|].
  destruct H1 as [-> |H1]; [done|]. right. destruct H2 as [-> |H2]; [done|]. lia.
Qed.
End store_facts.

(** ** Sessions *)

Inductive edit := Recorded (turn : Id) | RecordedBody (turn : Id) (body : list byte).

Definition edit_session (s : Session) (e : edit) : Session :=
  match e with
  | Recorded turn => (record_turn turn s).2
  | RecordedBody turn body => (record_turn_with_body turn body s).2
  end.

(** What the public operations can make of a session. *)
Definition well_formed (s : Session) : Prop :=
  NoDup (turn_ids s) ∧ (∀ t, t ∈ turn_ids s → is_nil t = false) ∧ length (turn_ids s) = length (bodies s).

Lemma edit_well_formed s e : well_formed s → well_formed (edit_session s e) ∧ id (edit_session s e) = id s.
Proof.
  intros (Hnd & Hnil & Hlen).
  assert (Hgo : ∀ t (b : list byte), is_nil t || bool_decide (t ∈ turn_ids s) = false →
    well_formed (mkSession (id s) (turn_ids s ++ [t]) (bodies s ++ [b]))).
  { intros t b H. to_prop. split_and!; cbn [turn_ids bodies].
    - apply NoDup_app. split; [done|]. split; [set_solver|apply NoDup_singleton].
    - intros t' [Ht| ->%list_elem_of_singleton]%elem_of_app; auto.
    - rewrite !length_app. simpl. lia. }
  destruct e as [t|t b]; cbn [edit_session]; unfold record_turn, record_turn_with_body;
    destruct (is_nil t || bool_decide (t ∈ turn_ids s)) eqn:E; cbn [snd id];
    (split; [by (apply Hgo || split_and!)|done]).
Qed.

Lemma edited_well_formed edits : ∀ s, well_formed s →
  well_formed (foldl edit_session s edits) ∧ id (foldl edit_session s edits) = id s.
Proof.
  induction edits as [|e edits IH]; intros s Hs; [done|]. cbn [foldl].
  destruct (edit_well_formed s e Hs) as [He Hid]. destruct (IH _ He) as [H1 H2]. by rewrite H2.
Qed.

Lemma combine_fst {A B} (l : list A) (k : list B) : length l = length k → (combine l k).*1 = l.
Proof. revert k. induction l as [|x l IH]; intros [|y k]; try done. simpl. intros [= H]. by rewrite IH. Qed.

Lemma combine_snd {A B} (l : list A) (k : list B) : length l = length k → (combine l k).*2 = k.
Proof. revert k. induction l as [|x l IH]; intros [|y k]; try done. simpl. intros [= H]. by rewrite IH. Qed.

Lemma export_known (show_id : Id → string) ids bs :
  length ids = length bs →
  ∀ known, (∀ p, p ∈ combine ids bs → List.find (λ q, bool_decide (q.1 = p.1)) known = Some p) →
  (λ turn, heading show_id turn (default [] (snd <$> List.find (λ p, bool_decide (p.1 = turn)) known))) <$> ids =
  (λ p, heading show_id p.1 p.2) <$> combine ids bs.
Proof.
  intros Hlen known. revert bs Hlen. induction ids as [|t ids IH]; intros [|b bs] Hlen Hk; try done.
  cbn [combine]. rewrite !fmap_cons. f_equal; [|apply IH; [by injection Hlen|]].
  - pose proof (Hk (t, b)) as Hf. cbn [fst] in Hf. rewrite Hf by (cbn [combine]; by left). done.
  - intros p Hp. apply Hk. cbn [combine]. by right.
Qed.

Lemma find_combine (ids : list Id) (bs : list (list byte)) :
  NoDup ids → ∀ p, p ∈ combine ids bs → List.find (λ q, bool_decide (q.1 = p.1)) (combine ids bs) = Some p.
Proof.
  intros Hnd. revert bs. induction Hnd as [|t ids Ht Hnd IH]; intros bs p; [by intros ?%elem_of_nil|].
  destruct bs as [|b bs]; [by intros ?%elem_of_nil|]. cbn [combine List.find fst].
  intros [->|Hin]%elem_of_cons; [by rewrite bool_decide_eq_true_2|].
  rewrite bool_decide_eq_false_2; [by apply IH|]. intros Hp. apply Ht. rewrite Hp.
  apply list_elem_of_In. destruct p as [x y]. by apply (in_combine_l ids bs x y), list_elem_of_In.
Qed.

(** ** Theorems *)

(** C12. A checkpoint is committed completely, once, and only when it is newer.  In
    every state a save passes through, also where it is cut off, a reader finds the
    checkpoint that was there or the complete new one, and every other session as it
    was; a save that succeeds leaves the new one, which was valid, and it was admitted:
    its revision exceeds that of the readable file it replaces, and a revision the
    writer expected is the one it replaces.  Conversely, when nothing fails and one of
    the sixteen temporary names is free, every admissible checkpoint is committed. *)
Theorem checkpoint_commit_exact {V} `{EqDecision V} is_object role (codec : Codec V) show_id directory
    io c expected fs trace r :
  CodecLaws codec → Inj (=) (=) show_id →
  save_checkpoint is_object role codec show_id io directory c expected fs = (trace, r) →
  let loaded := load_checkpoint is_object role codec show_id true directory in
  (∀ fs', fs' ∈ trace →
     (loaded (session c) fs' = loaded (session c) fs ∨ loaded (session c) fs' = Ok (Some c)) ∧
     ∀ s, s ≠ session c → loaded s fs' = loaded s fs) ∧
  (r = Ok tt → validate is_object role c = Ok tt ∧
     loaded (session c) (default fs (last trace)) = Ok (Some c) ∧
     ∃ found, loaded (session c) fs = Ok found ∧ admissible c expected found) ∧
  (∀ nonce n found, io = SaveIo.perfect nonce → n < OPEN_ATTEMPTS →
     Fs.names fs !! temporary_path show_id directory (session c) (nonce n) = None →
     validate is_object role c = Ok tt → loaded (session c) fs = Ok found →
     admissible c expected found → r = Ok tt).
Proof.
  intros HC HI E loaded.
  pose proof (save_checkpoint_spec is_object role codec show_id directory io c expected fs trace r E) as [H1 H2].
  assert (Hnew : ∀ fs', validate is_object role c = Ok tt →
    file_at show_id directory (session c) fs' = Some (print_document codec c) →
    loaded (session c) fs' = Ok (Some c)).
  { intros fs' Hv Hf. by apply versioned_loaded, versioned_printed. }
  split_and!.
  - intros fs' Hin. destruct (H1 fs' Hin) as [Hown Hother]. split.
    + destruct Hown as [Hf|(Hv & Hf & _)]; [left; by apply loaded_same|right; by apply Hnew].
    + intros s Hs. by apply loaded_same, Hother.
  - intros Hr. destruct (H2 Hr) as (Hv & Hf & Hfound). split_and!; [done|by apply Hnew|done].
  - intros nonce n found -> Hn Hfree Hv Hl Ha.
    pose proof (save_checkpoint_live is_object role codec show_id directory nonce n c expected found fs
      Hv Hl Ha Hn Hfree) as Hlive. by rewrite E in Hlive.
Qed.

(** No update is lost.  Once a session's file holds a versioned checkpoint, any
    sequence of saves of either kind, by any writers and with any failures, leaves it
    with one whose revision is the same only if it is the same checkpoint, and greater
    otherwise; so a writer that committed to the revision it had read replaced exactly
    the checkpoint it had read. *)
Theorem checkpoint_no_lost_update {V} `{EqDecision V} is_object role (codec : Codec V) show_id directory
    ops s fs c0 :
  CodecLaws codec → Inj (=) (=) show_id →
  versioned is_object role codec show_id directory s fs c0 →
  let fs1 := foldl (run_save is_object role codec show_id directory) fs ops in
  ∃ c1, versioned is_object role codec show_id directory s fs1 c1 ∧
    (c1 = c0 ∨ (revision c0 < revision c1)%N) ∧
    ∀ io c trace, session c = s →
      save_checkpoint is_object role codec show_id io directory c (Some (revision c0)) fs1 = (trace, Ok tt) →
      c1 = c0.
Proof.
  intros HC HI Hc0 fs1.
  destruct (run_saves_versioned is_object role codec show_id directory s ops fs c0 Hc0) as (c1 & Hc1 & Hrev).
  exists c1. split_and!; [done..|]. intros io c trace <- E.
  destruct Hrev as [|Hrev]; [done|].
  apply save_checkpoint_spec in E as [_ Hok]; [|done..]. destruct (Hok eq_refl) as (_ & _ & found & Hl & He & _).
  pose proof (versioned_loaded is_object role codec show_id directory _ _ _ Hc1) as Hl1.
  fold fs1 in Hl1. rewrite Hl1 in Hl. injection Hl as <-.
  specialize (He _ eq_refl). simpl in He. lia.
Qed.

(** Saving what a session displays loses nothing.  In every state of such a save
    a reader finds the turns that were there or exactly those saved, and after a
    success those; over a versioned checkpoint it succeeds only when the saved turns
    begin with the checkpoint's, in order and with the same text, and then the file
    keeps every field of it, its turns' protocol messages included, and gains the
    further turns, one revision each. *)
Theorem legacy_save_lossless {V} `{EqDecision V} is_object role (codec : Codec V) show_id directory
    io s pairs fs trace r :
  CodecLaws codec → Inj (=) (=) show_id →
  save is_object role codec show_id io directory s pairs fs = (trace, r) →
  let loaded := load is_object role codec show_id true directory in
  let final := default fs (last trace) in
  (∀ fs', fs' ∈ trace → loaded s fs' = loaded s fs ∨ loaded s fs' = Ok (Some pairs)) ∧
  (r = Ok tt → loaded s final = Ok (Some pairs) ∧
     ∀ c0, versioned is_object role codec show_id directory s fs c0 → ∃ rest,
       pairs = (shown <$> turns c0) ++ rest ∧
       versioned is_object role codec show_id directory s final
         (mkCheckpoint (version c0) (session c0) (revision c0 + N.of_nat (length rest)) (status c0)
            (parent c0) (parent_revision c0) (turns c0 ++ (plain <$> rest)) (ledger c0) (config c0))).
Proof.
  intros HC HI E loaded final. apply save_spec in E as [H1 H2]; [|done..]. split.
  - intros fs' Hin. destruct (H1 fs' Hin) as [[Hf|Hs] _].
    + left. unfold loaded, load, read_file. cbn [result_bind].
      change (Fs.read_name (file_path show_id directory s) fs') with (file_at show_id directory s fs').
      by rewrite Hf.
    + right. by eapply saved_load.
  - intros Hr. specialize (H2 Hr).
    destruct (saved_load is_object role codec show_id directory s pairs fs final H2) as [Hl Hv].
    split; [done|]. intros c0 Hc0. destruct (Hv c0 Hc0) as (rest & c1 & Hp & Hpush & Hc1).
    exists rest. split; [done|]. by apply push_bodies_shape in Hpush as (_ & _ & ->).
Qed.

(** A session resumes as it was saved.  Whatever turns are recorded in a fresh
    session - nil and repeated ones are refused - a save of it that succeeds is
    resumed, over any file that was there, as the same session, with the same turns,
    bodies and export; and a branch is the same session under its own identifier. *)
Theorem session_resume_exact {V} `{EqDecision V} is_object role (codec : Codec V) show_id directory
    io fresh edits fs trace :
  CodecLaws codec → Inj (=) (=) show_id →
  let s := foldl edit_session (new_session fresh) edits in
  save_session is_object role codec show_id io directory s fs = (trace, Ok tt) →
  resume is_object role codec show_id true directory fresh (default fs (last trace)) = Ok (Some s) ∧
  NoDup (turn_ids s) ∧ length (turn_ids s) = length (bodies s) ∧
  export_markdown_with show_id (combine (turn_ids s) (bodies s)) s = export_markdown show_id s ∧
  ∀ other, export_markdown show_id (branch_session other s) = export_markdown show_id s.
Proof.
  intros HC HI s E.
  destruct (edited_well_formed edits (new_session fresh)) as [(Hnd & Hnil & Hlen) Hid].
  { split_and!; [constructor|intros t Ht; by apply elem_of_nil in Ht|done]. }
  fold s in Hnd, Hnil, Hlen, Hid. cbn [id new_session] in Hid.
  split_and!; [|done|done| |done].
  - unfold save_session in E. apply save_spec in E as [_ H]; [|done..].
    apply saved_load in H as [Hl _]; [|done..]. rewrite Hid in Hl. unfold resume. rewrite Hl.
    cbn [result_bind fmap option_fmap option_map]. rewrite combine_fst, combine_snd by done. rewrite <- Hid. clearbody s. by destruct s.
  - unfold export_markdown_with, export_markdown. do 4 f_equal.
    apply export_known; [done|]. by apply find_combine.
Qed.

(** ** Examples: a codec that writes bits *)

#[export] Instance LifecycleStatus_countable : Countable LifecycleStatus.
Proof.
  refine (inj_countable' (λ s, match s with Active => 0 | Running => 1 | Completed => 2 | Interrupted => 3 end)
    (λ n, match n with 0 => Active | 1 => Running | 2 => Completed | _ => Interrupted end) _).
  by intros [].
Defined.

#[export] Instance CheckpointTurn_countable `{Countable V} : Countable (@CheckpointTurn V).
Proof.
  refine (inj_countable' (λ t, (ct_turn t, display_body t, messages t, completion t))
    (λ '(a, b, c, d), mkTurn a b c d) _). by intros [].
Defined.

#[export] Instance SessionCheckpoint_countable `{Countable V} : Countable (@SessionCheckpoint V).
Proof.
  refine (inj_countable' (λ c, (turns c, (version c, session c, revision c, status c, parent c,
      parent_revision c, ledger c, config c)))
    (λ '(ts, (a, b, c, d, e, f, g, h)), mkCheckpoint a b c d e f ts g h) _). by intros [].
Defined.

Definition bit_codec : Codec positive :=
  mkCodec positive
    (λ id pairs, "L"%char :: bits (encode (id, pairs)))
    (λ c, "D"%char :: bits (encode c))
    (λ l, match l with
          | b :: l => if bool_decide (b = "L"%char) then decode (of_bits l) else None
          | [] => None
          end)
    (λ l, match l with
          | b :: l => if bool_decide (b = "D"%char) then Some (FORMAT, CHECKPOINT_VERSION, of_bits l) else None
          | [] => None
          end)
    decode.

#[export] Instance bit_codec_laws : CodecLaws bit_codec.
Proof.
  split; intros; cbn [bit_codec parse_legacy print_legacy parse_document print_document parse_checkpoint].
  - rewrite bool_decide_eq_true_2 by done. by rewrite of_bits_bits, decode_encode.
  - by rewrite bool_decide_eq_false_2.
  - by rewrite bool_decide_eq_false_2.
  - eexists. rewrite bool_decide_eq_true_2 by done. split; [done|]. by rewrite of_bits_bits, decode_encode.
Qed.

#[export] Instance pretty_ids : Inj (=) (=) (pretty : N → string).
Proof. apply _. Qed.

Definition no_role (_ : positive) : option (list byte) := None.
Definition any_object (_ : positive) : bool := true.

Definition a_checkpoint (revision : N) : @SessionCheckpoint positive :=
  mkCheckpoint 1 7 revision Active None None [] None None.

Definition a_save : list Fs.t * result unit SessionError :=
  save_checkpoint any_object no_role bit_codec pretty (SaveIo.perfect N.of_nat) "/d" (a_checkpoint 1)
    (Some 0%N) Fs.empty.

Example checkpoint_commit_exact_witness :
  a_save.2 = Ok tt ∧
  load_checkpoint any_object no_role bit_codec pretty true "/d" 7 (default Fs.empty (last a_save.1)) =
    Ok (Some (a_checkpoint 1)).
Proof.
  destruct a_save as [trace r] eqn:E.
  destruct (checkpoint_commit_exact any_object no_role bit_codec pretty "/d" (SaveIo.perfect N.of_nat)
    (a_checkpoint 1) (Some 0%N) Fs.empty trace r bit_codec_laws pretty_ids E) as (_ & Hok & Hlive).
  assert (Hr : r = Ok tt).
  { apply (Hlive N.of_nat 0 None); [reflexivity|unfold OPEN_ATTEMPTS; lia|reflexivity..|].
    split; [by intros ? [= <-]|done]. }
  split; [exact Hr|]. apply (Hok Hr).
Defined.

Definition with_checkpoint : Fs.t :=
  with_file (file_path pretty "/d" 7) (print_document bit_codec (a_checkpoint 1)) Fs.empty.

Lemma with_checkpoint_versioned :
  versioned any_object no_role bit_codec pretty "/d" 7 with_checkpoint (a_checkpoint 1).
Proof.
  apply (versioned_printed any_object no_role bit_codec pretty "/d" with_checkpoint (a_checkpoint 1)).
  - by vm_compute.
  - apply read_with_file.
Qed.

Example checkpoint_no_lost_update_witness :
  ∃ c1, versioned any_object no_role bit_codec pretty "/d" 7
      (run_save any_object no_role bit_codec pretty "/d" with_checkpoint
         (SaveTurns (SaveIo.perfect N.of_nat) 7 [(3%N, [])])) c1 ∧
    (c1 = a_checkpoint 1 ∨ (1 < revision c1)%N).
Proof.
  destruct (checkpoint_no_lost_update any_object no_role bit_codec pretty "/d"
    [SaveTurns (SaveIo.perfect N.of_nat) 7 [(3%N, [])]] 7 with_checkpoint (a_checkpoint 1)
    bit_codec_laws pretty_ids with_checkpoint_versioned) as (c1 & H1 & H2 & _).
  exists c1. split; [exact H1|exact H2].
Defined.

Definition a_session : Session :=
  foldl edit_session (new_session 7) [RecordedBody 3 []; Recorded 0; Recorded 3].

Definition a_session_save : list Fs.t * result unit SessionError :=
  save_session any_object no_role bit_codec pretty (SaveIo.perfect N.of_nat) "/d" a_session Fs.empty.

Example legacy_save_lossless_witness :
  load any_object no_role bit_codec pretty true "/d" 7 (default Fs.empty (last a_session_save.1)) =
    Ok (Some [(3%N, [])]).
Proof.
  assert (Hr : a_session_save.2 = Ok tt) by (vm_compute; reflexivity).
  destruct a_session_save as [trace r] eqn:E. cbn [snd] in Hr.
  destruct (legacy_save_lossless any_object no_role bit_codec pretty "/d" (SaveIo.perfect N.of_nat) 7
    [(3%N, [])] Fs.empty trace r bit_codec_laws pretty_ids E) as (_ & Hok).
  exact (proj1 (Hok Hr)).
Defined.

Example session_resume_exact_witness :
  resume any_object no_role bit_codec pretty true "/d" 7 (default Fs.empty (last a_session_save.1)) =
    Ok (Some (mkSession 7 [3%N] [[]])).
Proof.
  assert (Hr : a_session_save.2 = Ok tt) by (vm_compute; reflexivity).
  destruct a_session_save as [trace r] eqn:E. cbn [snd] in Hr. subst r.
  exact (proj1 (session_resume_exact any_object no_role bit_codec pretty "/d" (SaveIo.perfect N.of_nat) 7
    [RecordedBody 3 []; Recorded 0; Recorded 3] Fs.empty trace bit_codec_laws pretty_ids E)).
Defined.
