(* ===== verification/Provider.v ===== *)
(** * Provider requests: [crates/supra_llm]

    What each provider's cache accepts ([policy.rs]), the requests and completions of
    the one call shape ([client.rs]), the bodies rendered from them and the checks in
    front of every call.  JSON text, the header values the HTTP library accepts and
    secrets are parameters; text is its UTF-8 bytes. *)

From Stdlib Require Import Ascii.
From S2P Require Import Prelude Text Sealing Utf8 Breakpoints Canonical Tool Config Framing.

(** ** Providers and their cache policies: [policy.rs] *)

Module ProviderKind.
Inductive t := Anthropic | OpenAI | Google.

#[global] Instance t_eq_dec : EqDecision t.
Proof. solve_decision. Defined.

Definition ALL : list t := [Anthropic; OpenAI; Google].

Definition name (k : t) : list byte :=
  match k with
  | Anthropic => bytes "anthropic"
  | OpenAI => bytes "openai"
  | Google => bytes "google"
  end.

Definition parse (text : list byte) : option t :=
  if bool_decide (text = bytes "anthropic") then Some Anthropic
  else if bool_decide (text = bytes "openai") then Some OpenAI
  else if bool_decide (text = bytes "google") then Some Google
  else None.
End ProviderKind.

Module CachePolicy.
Record t := mk {
  kind : ProviderKind.t;
  max_breakpoints : nat;
  explicit_ttl : bool;
  minimum : MinimumCacheable;
  min_thinking_tokens : N;
}.

Definition anthropic : t := mk ProviderKind.Anthropic 4 true Tokens1024 1024.
Definition openai : t := mk ProviderKind.OpenAI 1 false Tokens1024 0.
Definition google : t := mk ProviderKind.Google 1 false Tokens4096 0.

Definition for_kind (k : ProviderKind.t) : t :=
  match k with
  | ProviderKind.Anthropic => anthropic
  | ProviderKind.OpenAI => openai
  | ProviderKind.Google => google
  end.

Definition ttl_for (p : t) (breakpoint : Breakpoint) : CacheTtl :=
  if explicit_ttl p then Breakpoint.ttl breakpoint else FiveMinutes.

Definition accepts_breakpoints (p : t) (breakpoints : list Breakpoint) : bool :=
  (length breakpoints <=? max_breakpoints p) && ttl_order_is_valid breakpoints.

Definition thinking_allowed (p : t) (budget : N) : bool :=
  (budget =? 0)%N || (min_thinking_tokens p <=? budget)%N.
End CachePolicy.

(** ** Errors: [error.rs]

    The details keep what the message is made of; [Panics] is no error of the code
    but the abort of an indexing that the code does not guard. *)
Inductive EventError :=
| NoMessage
| DuplicateIndex (index : N)
| TooManyBlocks
| NoBlock
| NoDelta
| UnopenedDelta (index : N)
| UnopenedStop (index : N)
| DeltaMismatch (delta block : list byte)
| InvalidInput (message : list byte)
| NoIndex
| IndexTooLarge (index : N)
| ErrorEvent (message : list byte)
| UnknownEvent (kind : list byte)
| NamelessCall
| Panics.

Inductive Detail :=
| Http (status : N) (message : list byte)
| HttpStatus (status : N)
| NotCanonical (e : CanonicalError)
| Told (message : list byte)
| StreamTooLong
| EventTooLong
| EventNotUtf8
| ManyDataLines
| EventNotJson (payload : list byte)
| BadEvent (why : EventError)
| InsideEvent
| NoMessageStop
| OpenBlock
| NoStopReason
| NoEvents
| NoTerminalMarker
| NoChoices
| NotReplayable (role block : list byte)
| EmptyMessage (role : list byte)
| ToolNotJson (message : list byte).

Inductive LlmError :=
| UnknownProvider (name : list byte)
| ProviderMismatch (client request : list byte)
| Unauthorized (provider : list byte) (detail : Detail)
| RateLimited (provider : list byte) (retry_after_ms : N)
| Transport (provider : list byte) (detail : Detail)
| BadResponse (provider : list byte) (detail : Detail)
| ThinkingBudget (provider : list byte) (budget minimum : N)
| Credential (e : ConfigError).

(** ** Messages, requests and completions: [client.rs] *)

Module Role.
Inductive t := User | Assistant.
#[global] Instance t_eq_dec : EqDecision t.
Proof. solve_decision. Defined.
End Role.

Module Thinking.
Record t := mk { budget_tokens : N }.
Definition enabled (x : t) : bool := (0 <? budget_tokens x)%N.
End Thinking.

Module ContentBlock.
Inductive t (Num : Type) :=
| Text (text : list byte) (citations : list (Value Num))
| Thinking (thinking signature : list byte)
| RedactedThinking (data : list byte)
| ToolUse (id name : list byte) (input : Value Num)
| ToolResult (tool_use_id : list byte) (content : Value Num) (is_error : bool)
| Unknown (raw : Value Num).
Arguments Text {Num} text citations.
Arguments Thinking {Num} thinking signature.
Arguments RedactedThinking {Num} data.
Arguments ToolUse {Num} id name input.
Arguments ToolResult {Num} tool_use_id content is_error.
Arguments Unknown {Num} raw.

Section wire.
Context {Num : Type}.

Definition text_block (s : list byte) : t Num := Text s [].

(** [value[key] = item] on an object. *)
Definition set_member (key : string) (item value : Value Num) : Value Num :=
  match value with VObject map => VObject (map_insert (bytes key) item map) | _ => value end.

Definition str (s : string) : Value Num := VString (bytes s).

Definition wire_value (b : t Num) : Value Num :=
  match b with
  | Text text citations =>
      let value := object [("type", str "text"); ("text", VString text)] in
      if bool_decide (length citations = 0) then value
      else set_member "citations" (VArray citations) value
  | Thinking thinking signature =>
      object [("type", str "thinking"); ("thinking", VString thinking);
              ("signature", VString signature)]
  | RedactedThinking data => object [("type", str "redacted_thinking"); ("data", VString data)]
  | ToolUse id name input =>
      object [("type", str "tool_use"); ("id", VString id); ("name", VString name);
              ("input", input)]
  | ToolResult tool_use_id content is_error =>
      let value := object [("type", str "tool_result"); ("tool_use_id", VString tool_use_id);
                           ("content", content)] in
      if is_error then set_member "is_error" (VBool true) value else value
  | Unknown raw => raw
  end.

Definition string_field (field : string) (value : Value Num) : result (list byte) string :=
  ok_or (get field value ≫= as_str) field.

(** The error is the field that is no string. *)
Definition from_wire_value (value : Value Num) : result (t Num) string :=
  let? kind := string_field "type" value in
  if bool_decide (kind = bytes "text") then
    let? text := string_field "text" value in
    Ok (Text text (default [] (get "citations" value ≫= value_as_array)))
  else if bool_decide (kind = bytes "thinking") then
    let? thinking := string_field "thinking" value in
    let? signature := string_field "signature" value in
    Ok (Thinking thinking signature)
  else if bool_decide (kind = bytes "redacted_thinking") then
    let? data := string_field "data" value in
    Ok (RedactedThinking data)
  else if bool_decide (kind = bytes "tool_use") then
    let? id := string_field "id" value in
    let? name := string_field "name" value in
    Ok (ToolUse id name (default VNull (get "input" value)))
  else if bool_decide (kind = bytes "tool_result") then
    let? tool_use_id := string_field "tool_use_id" value in
    Ok (ToolResult tool_use_id (default (VString []) (get "content" value))
          (default false (get "is_error" value ≫= value_as_bool)))
  else Ok (Unknown value).

(** The text of the text blocks, joined. *)
Definition text_content (blocks : list (t Num)) : list byte :=
  concat (omap (λ b, match b with Text text _ => Some text | _ => None end) blocks).
End wire.
End ContentBlock.

Module Message.
Record t (Num : Type) := mk { role : Role.t; content : list (ContentBlock.t Num) }.
Arguments mk {Num} role content.
Arguments role {Num} _.
Arguments content {Num} _.

Definition text {Num} (role : Role.t) (s : list byte) : t Num :=
  mk role [ContentBlock.text_block s].
Definition text_content {Num} (m : t Num) : list byte := ContentBlock.text_content (content m).
End Message.

Module Request.
Record t (Num : Type) := mk {
  provider : ProviderKind.t;
  model : list byte;
  messages : list (Message.t Num);
  tools : list (list byte);
  thinking : Thinking.t;
  breakpoints : list Breakpoint;
}.
Arguments mk {Num} provider model messages tools thinking breakpoints.
Arguments provider {Num} _.
Arguments model {Num} _.
Arguments messages {Num} _.
Arguments tools {Num} _.
Arguments thinking {Num} _.
Arguments breakpoints {Num} _.

Definition check {Num} (r : t Num) : result unit LlmError :=
  let policy := CachePolicy.for_kind (provider r) in
  let budget := Thinking.budget_tokens (thinking r) in
  if negb (CachePolicy.thinking_allowed policy budget) then
    Err (ThinkingBudget (ProviderKind.name (provider r)) budget
           (CachePolicy.min_thinking_tokens policy))
  else Ok tt.

Definition effective_breakpoints {Num} (r : t Num) : list Breakpoint :=
  take (CachePolicy.max_breakpoints (CachePolicy.for_kind (provider r))) (breakpoints r).
End Request.

Module Usage.
Record t := mk { input_tokens : N; output_tokens : N; cached_tokens : N }.
Definition default : t := mk 0 0 0.
End Usage.

Module StopReason.
Inductive t :=
| EndTurn | ToolUse | MaxTokens | StopSequence | PauseTurn | Refusal
| ModelContextWindowExceeded | ContentFilter | Other (reason : list byte).
#[global] Instance t_eq_dec : EqDecision t.
Proof. solve_decision. Defined.
End StopReason.

Module Completion.
Record t (Num : Type) := mk {
  content : list (ContentBlock.t Num);
  stop_reason : StopReason.t;
  stop_sequence : option (list byte);
  model : list byte;
  request_id : option (list byte);
  usage : option Usage.t;
  thinking : Thinking.t;
}.
Arguments mk {Num} content stop_reason stop_sequence model request_id usage thinking.
Arguments content {Num} _.
Arguments stop_reason {Num} _.
Arguments stop_sequence {Num} _.
Arguments model {Num} _.
Arguments request_id {Num} _.
Arguments usage {Num} _.
Arguments thinking {Num} _.

Definition text {Num} (c : t Num) : list byte := ContentBlock.text_content (content c).
Definition end_turn {Num} (s : list byte) (usage : option Usage.t) (thinking : Thinking.t) : t Num :=
  mk [ContentBlock.text_block s] StopReason.EndTurn None [] None usage thinking.
End Completion.

(** ** The client: [client.rs] *)

Definition DEFAULT_OPENAI_MODEL : list byte := bytes "gpt-4o-mini".
Definition DEFAULT_ANTHROPIC_MODEL : list byte := bytes "claude-haiku-4-5-20251001".

(** [s.match_indices(needle)]: the disjoint occurrences from the left. *)
Fixpoint match_indices (needle l : list byte) (skip at_ : nat) : list nat :=
  match l with
  | [] => []
  | _ :: l' =>
      match skip with
      | S skip => match_indices needle l' skip (S at_)
      | 0 =>
          if starts_with needle l
          then at_ :: match_indices needle l' (length needle - 1) (S at_)
          else match_indices needle l' 0 (S at_)
      end
  end.

Definition is_ascii_alphanumeric (c : byte) : bool :=
  let n := N_of_ascii c in
  ((48 <=? n) && (n <=? 57) || (65 <=? n) && (n <=? 90) || (97 <=? n) && (n <=? 122))%N.

(** The character in front of a place is told from its last byte, the one behind
    from its first: only ASCII is asked about. *)
Definition model_family_matches (model family : list byte) : bool :=
  existsb (λ start,
    negb (default false (is_ascii_alphanumeric <$> last (take start model))) &&
    negb (default false (is_ascii_alphanumeric <$> head (drop (start + length family) model))))
    (match_indices family model 0 0).

Definition adaptive_families : list (list byte) :=
  bytes <$> ["claude-opus-5"; "claude-sonnet-5"; "claude-fable-5"; "claude-opus-4-8";
             "claude-opus-4-7"; "claude-opus-4-6"; "claude-sonnet-4-6"].

Definition anthropic_supports_adaptive_thinking (model : list byte) : bool :=
  existsb (model_family_matches (lower <$> model)) adaptive_families.

Definition sdk_endpoint (endpoint : list byte) : option (list byte) :=
  if is_blank endpoint then None else Some endpoint.

Definition trim_end_slashes (l : list byte) : list byte :=
  reverse (drop_while (λ c, bool_decide (c = "/"%char)) (reverse l)).

Definition anthropic_messages_endpoint (base : option (list byte)) : list byte :=
  let base := trim_end_slashes (default (bytes "https://api.anthropic.com") base) in
  if ends_with (bytes "/v1/messages") base then base else base ++ bytes "/v1/messages".

Definition openai_base (endpoint : list byte) : list byte :=
  let trimmed := trim_end_slashes endpoint in
  match strip_suffix (bytes "/v1") trimmed with
  | Some _ => trimmed
  | None => trimmed ++ bytes "/v1"
  end.

(** A header of the response by name: whether it is there, and its text when it is
    text. *)
Abbreviation headers := (string → option (option (list byte))).

Definition header_text (h : headers) (name : string) : option (list byte) := default None (h name).

Definition header_u64 (h : headers) (name : string) : option N :=
  header_text h name ≫= λ value, parse_uint (Z.to_N u64_max) (trim value).

(** [seconds.saturating_mul(1_000)]. *)
Definition seconds_to_ms (seconds : N) : N := N.min (seconds * 1000) (Z.to_N u64_max).

Definition retry_after_ms (h : headers) : N :=
  match header_u64 h "retry-after" with
  | Some seconds => seconds_to_ms seconds
  | None => default 60000%N (header_u64 h "retry-after-ms")
  end.

(** The names and values of the headers of a request; [header_value_ok] is what the
    HTTP library takes as a value. *)
Definition auth_headers (header_value_ok : list byte → bool) (kind : ProviderKind.t)
    (credential : list byte) : list (string * list byte) :=
  match kind with
  | ProviderKind.Anthropic =>
      [("x-api-key", if header_value_ok credential then credential else bytes "invalid-credential");
       ("anthropic-version", bytes "2023-06-01")]
  | ProviderKind.OpenAI | ProviderKind.Google =>
      if header_value_ok (bytes "Bearer " ++ credential)
      then [("authorization", bytes "Bearer " ++ credential)] else []
  end.

Module Client.
Record t := mk {
  policy : CachePolicy.t;
  endpoint : list byte;
  model : list byte;
  thinking : Thinking.t;
}.

Definition provider (c : t) : ProviderKind.t := CachePolicy.kind (policy c).

Definition new (provider_name endpoint model : list byte) (thinking_budget : N) :
    result t LlmError :=
  let? kind := ok_or (ProviderKind.parse provider_name) (UnknownProvider provider_name) in
  let policy := CachePolicy.for_kind kind in
  if negb (CachePolicy.thinking_allowed policy thinking_budget) then
    Err (ThinkingBudget (ProviderKind.name kind) thinking_budget
           (CachePolicy.min_thinking_tokens policy))
  else
    let model :=
      if is_blank model then
        match kind with
        | ProviderKind.Anthropic => DEFAULT_ANTHROPIC_MODEL
        | ProviderKind.OpenAI => DEFAULT_OPENAI_MODEL
        | ProviderKind.Google => model
        end
      else model in
    Ok (mk policy endpoint model (Thinking.mk thinking_budget)).

Definition from_config (config : Config.t) (provider_name : list byte) : result t LlmError :=
  let? _ := ok_or (ProviderKind.parse provider_name) (UnknownProvider provider_name) in
  let entry := Config.providers config !! provider_name in
  new provider_name (default [] (entry ≫= Config.endpoint)) (default [] (entry ≫= Config.model))
    (Config.thinking_budget config).

Definition check_provider {Num} (c : t) (request : Request.t Num) : result unit LlmError :=
  if bool_decide (Request.provider request = provider c) then Ok tt
  else Err (ProviderMismatch (ProviderKind.name (provider c))
              (ProviderKind.name (Request.provider request))).
End Client.

(** ** Rendering the body *)

Section render.
Context {Num : Type} `{JsonNumber Num}.
Context (quote : list byte → list byte) (of_u64 : N → Num).
(** [serde_json::from_str], of a tool's text. *)
Context (from_str : list byte → result (Value Num) (list byte)).

#[local] Abbreviation json := (Value Num).
#[local] Abbreviation body := (list (list byte * json)).
#[local] Abbreviation str := ContentBlock.str.
#[local] Abbreviation insert key value m := (map_insert (bytes key) value m).

Definition role_name (role : Role.t) (assistant : string) : json :=
  match role with Role.User => str "user" | Role.Assistant => str assistant end.

Definition messages_value (messages : list (Message.t Num)) : json :=
  VArray ((λ message,
    object [("role", role_name (Message.role message) "assistant");
            ("content", VArray (ContentBlock.wire_value <$> Message.content message))]) <$> messages).

Fixpoint tools_list (tools : list (list byte)) : result (list json) CanonicalError :=
  match tools with
  | [] => Ok []
  | tool :: tools =>
      let? parsed := map_err (λ _, Canonical.Invalid) (from_str tool) in
      let? tools := tools_list tools in Ok (parsed :: tools)
  end.

(** [None] of an empty list of tools is no [tools] member. *)
Definition insert_tools (tools : list (list byte)) (m : body) : body :=
  match tools, tools_list tools with
  | _ :: _, Ok parsed => insert "tools" (VArray parsed) m
  | _, _ => m
  end.

(** Changing the member of an object, and the last item of an array. *)
Definition at_member (key : string) (f : json → json) (m : body) : body :=
  match map_get (bytes key) m with Some v => insert key (f v) m | None => m end.

Definition in_object (f : body → body) (value : json) : json :=
  match value with VObject m => VObject (f m) | _ => value end.

Definition in_last (f : json → json) (value : json) : json :=
  match value with VArray items => VArray (alter f (length items - 1) items) | _ => value end.

Definition cache_control (ttl : CacheTtl) : json :=
  object [("type", str "ephemeral");
          ("ttl", match ttl with OneHour => str "1h" | FiveMinutes => str "5m" end)].

Definition apply_cache_control (m : body) (breakpoint : Breakpoint) : body :=
  let control := cache_control (CachePolicy.ttl_for CachePolicy.anthropic breakpoint) in
  let mark := in_object (map_insert (bytes "cache_control") control) in
  match breakpoint with
  | Bp1Tools => at_member "tools" (in_last mark) m
  | Bp2System | Bp3MemoryIndex => m
  | Bp4PreviousTurn =>
      at_member "messages" (in_last (in_object (at_member "content" (in_last mark)))) m
  end.

Definition apply_anthropic_cache_controls (r : Request.t Num) (m : body) : body :=
  foldl apply_cache_control m (Request.effective_breakpoints r).

Definition render_anthropic (r : Request.t Num) (m : body) : body :=
  let m := insert "max_tokens" (VNumber (of_u64 32000)) m in
  let m := insert "stream" (VBool true) m in
  let m := insert "messages" (messages_value (Request.messages r)) m in
  let m := insert_tools (Request.tools r) m in
  let m :=
    if Thinking.enabled (Request.thinking r) then
      insert "thinking"
        (if anthropic_supports_adaptive_thinking
              (default [] (map_get (bytes "model") m ≫= as_str))
         then object [("type", str "adaptive")]
         else object [("type", str "enabled");
                      ("budget_tokens",
                       VNumber (of_u64 (Thinking.budget_tokens (Request.thinking r))))]) m
    else m in
  apply_anthropic_cache_controls r m.

Definition render_openai (r : Request.t Num) (m : body) : body :=
  let m := insert "messages" (messages_value (Request.messages r)) m in
  let m := insert_tools (Request.tools r) m in
  let m :=
    if Thinking.enabled (Request.thinking r) then insert "reasoning_effort" (str "medium") m
    else m in
  insert "prompt_cache_key" (str "supra-prefix") m.

(** The names of the calls of every assistant message, the last of an identifier. *)
Definition function_names (messages : list (Message.t Num)) : gmap (list byte) (list byte) :=
  foldl (λ names message,
    if bool_decide (Message.role message = Role.Assistant) then
      foldl (λ names block,
        match block with
        | ContentBlock.ToolUse id name _ => <[id := name]> names
        | _ => names
        end) names (Message.content message)
    else names) ∅ messages.

(** [value["id"] = id], unless there is none. *)
Definition with_id (id : list byte) (value : json) : json :=
  if bool_decide (length id = 0) then value else ContentBlock.set_member "id" (VString id) value.

Definition google_part (names : gmap (list byte) (list byte)) (block : ContentBlock.t Num) :
    result (list json) CanonicalError :=
  match block with
  | ContentBlock.Text text _ => Ok [object [("text", VString text)]]
  | ContentBlock.ToolUse id name input =>
      Ok [object [("functionCall",
                   with_id id (object [("name", VString name); ("args", input)]))]]
  | ContentBlock.ToolResult tool_use_id content _ =>
      let? name := ok_or (names !! tool_use_id) Canonical.Invalid in
      Ok [object [("functionResponse",
                   with_id tool_use_id
                     (object [("name", VString name); ("response", content)]))]]
  | ContentBlock.Thinking _ _ | ContentBlock.RedactedThinking _ | ContentBlock.Unknown _ => Ok []
  end.

Fixpoint google_parts (names : gmap (list byte) (list byte)) (blocks : list (ContentBlock.t Num)) :
    result (list json) CanonicalError :=
  match blocks with
  | [] => Ok []
  | block :: blocks =>
      let? part := google_part names block in
      let? parts := google_parts names blocks in Ok (part ++ parts)
  end.

Fixpoint google_contents (names : gmap (list byte) (list byte)) (messages : list (Message.t Num)) :
    result (list json) CanonicalError :=
  match messages with
  | [] => Ok []
  | message :: messages =>
      let? parts := google_parts names (Message.content message) in
      let? contents := google_contents names messages in
      Ok (object [("role", role_name (Message.role message) "model"); ("parts", VArray parts)]
          :: contents)
  end.

(** [object.remove(key)]. *)
Definition map_remove (key : list byte) (m : body) : body :=
  List.filter (λ e, bool_decide (e.1 ≠ key)) m.

Definition google_declaration (declaration : json) : result json CanonicalError :=
  match declaration with
  | VObject m =>
      match map_get (bytes "input_schema") m with
      | Some schema => Ok (VObject (insert "parameters" schema (map_remove (bytes "input_schema") m)))
      | None => Ok declaration
      end
  | _ => Err Canonical.Invalid
  end.

Fixpoint google_declarations (declarations : list json) : result (list json) CanonicalError :=
  match declarations with
  | [] => Ok []
  | d :: ds =>
      let? d := google_declaration d in
      let? ds := google_declarations ds in Ok (d :: ds)
  end.

Definition google_tools_value (tools : list (list byte)) : result (list json) CanonicalError :=
  let? parsed := tools_list tools in google_declarations parsed.

Definition render_google (r : Request.t Num) (m : body) : result body CanonicalError :=
  let? contents := google_contents (function_names (Request.messages r)) (Request.messages r) in
  let m := insert "contents" (VArray contents) m in
  let? m :=
    if bool_decide (length (Request.tools r) = 0) then Ok m
    else
      let? declarations := google_tools_value (Request.tools r) in
      Ok (insert "tools"
            (VArray [object [("functionDeclarations", VArray declarations)]]) m) in
  Ok (if Thinking.enabled (Request.thinking r) then
        insert "generationConfig"
          (object [("thinkingConfig",
            object [("thinkingBudget",
                     VNumber (of_u64 (Thinking.budget_tokens (Request.thinking r))))])]) m
      else m).

Definition render_value (c : Client.t) (r : Request.t Num) : result json CanonicalError :=
  let m := insert "model" (VString (Client.model c)) [] in
  let? m :=
    match Client.provider c with
    | ProviderKind.Anthropic => Ok (render_anthropic r m)
    | ProviderKind.OpenAI => Ok (render_openai r m)
    | ProviderKind.Google => render_google r m
    end in
  Ok (VObject m).

Definition render_body (c : Client.t) (r : Request.t Num) : result (list byte) CanonicalError :=
  let? value := render_value c r in canonicalize_value quote value.
End render.

(** ** Content blocks on the wire *)

Section roundtrip.
Context {Num : Type}.

Lemma wire_known (b : ContentBlock.t Num) :
  match b with ContentBlock.Unknown _ => True | _ =>
    ContentBlock.from_wire_value (ContentBlock.wire_value b) = Ok b end.
Proof.
  destruct b as [text [|citation citations]| | | |? ? []|]; reflexivity || exact I.
Qed.

Lemma from_wire_unknown (v raw : Value Num) :
  ContentBlock.from_wire_value v = Ok (ContentBlock.Unknown raw) → raw = v.
Proof.
  unfold ContentBlock.from_wire_value. intros (kind & _ & H)%result_bind_Ok.
  repeat (case_bool_decide; [repeat (apply result_bind_Ok in H as (? & _ & H)); by simplify_eq|]).
  by injection H.
Qed.

(** Every content block with a kind of its own is read back from the wire as it was
    written, whatever it holds; a block of any other kind is kept as it came; and what
    was read from the wire once is read again from what is written for it. *)
Theorem content_block_roundtrip (b : ContentBlock.t Num) v :
  (match b with ContentBlock.Unknown _ => True | _ =>
     ContentBlock.from_wire_value (ContentBlock.wire_value b) = Ok b end) ∧
  (ContentBlock.from_wire_value v = Ok b →
   ContentBlock.from_wire_value (ContentBlock.wire_value b) = Ok b ∧
   ∀ raw, b = ContentBlock.Unknown raw → ContentBlock.wire_value b = v).
Proof.
  split; [apply wire_known|]. intros Hv. split.
  - pose proof (wire_known b) as Hb. destruct b; try done.
    pose proof (from_wire_unknown _ _ Hv) as ->. exact Hv.
  - intros raw ->. by rewrite (from_wire_unknown _ _ Hv).
Qed.
End roundtrip.

Lemma content_block_roundtrip_witness :
  let v : Value N := object [("type", VString (bytes "document")); ("pages", VNumber 3%N)] in
  let b := ContentBlock.Unknown v in
  ContentBlock.from_wire_value v = Ok b ∧
  ContentBlock.from_wire_value (ContentBlock.wire_value b) = Ok b ∧ ContentBlock.wire_value b = v.
Proof.
  intros v b. assert (H : ContentBlock.from_wire_value v = Ok b) by reflexivity.
  destruct (content_block_roundtrip b v) as [_ Hb]. destruct (Hb H) as [H1 H2].
  split; [exact H|split; [exact H1|exact (H2 v eq_refl)]].
Defined.
