(* ===== verification/Sse.v ===== *)
(** * Server-sent events: [crates/supra_llm/src/{providers,client}.rs]

    How a streamed response is cut into events.  Both readers ([read_anthropic_sse]
    and [read_google_sse]) append each chunk to a buffer, take every event that is
    complete and hand it on; they differ in what ends an event and in their limits.
    The loop is written once, over those differences. *)

From Stdlib Require Import Ascii.
From S2P Require Import Prelude Text Sealing Utf8 Canonical Tool Framing Provider.

(** ** The end of an event *)

(** [buffer.windows(2).position(|pair| pair == b"\n\n").map(|at| at + 2)]. *)
Definition find_event_end (buffer : list byte) : option nat :=
  (λ at_, at_ + 2) <$> find_sub [lf; lf] buffer.

Definition find_sse_event_end (buffer : list byte) : option nat :=
  let unix := (λ at_, at_ + 2) <$> find_sub [lf; lf] buffer in
  let windows := (λ at_, at_ + 4) <$> find_sub CRLF2 buffer in
  match unix, windows with
  | Some l, Some r => Some (l `min` r)
  | Some l, None => Some l
  | None, r => r
  end.

(** The one payload of an event. *)
Fixpoint only_data (data : option (list byte)) (lines : list (list byte)) :
    result (option (list byte)) Detail :=
  match lines with
  | [] => Ok data
  | line :: lines =>
      match strip_prefix (bytes "data:") line with
      | Some value => if bool_decide (is_Some data) then Err ManyDataLines else only_data (Some (trim value)) lines
      | None => only_data data lines
      end
  end.

Definition sse_payload (event : list byte) : result (option (list byte)) Detail :=
  if negb (is_utf8 event) then Err EventNotUtf8 else only_data None (lines event).

(** ** The reading loop *)

Section reading.
(** [Err] is what the reader returns there and then, a failure or not. *)
Context {S O : Type} (find_end : list byte → option nat).
Context (on_event : S → list byte → result S O).

(** [while let Some(end) = find_end(&buffer)]: every round takes an event off the
    buffer, so the buffer's length is enough fuel. *)
Fixpoint drain_from (fuel : nat) (buffer : list byte) (s : S) : result (list byte * S) O :=
  match fuel, find_end buffer with
  | Datatypes.S fuel, Some end_ =>
      let? s := on_event s (take end_ buffer) in drain_from fuel (drop end_ buffer) s
  | _, _ => Ok (buffer, s)
  end.

Definition drain (buffer : list byte) (s : S) : result (list byte * S) O :=
  drain_from (length buffer) buffer s.

(** [received] bytes have come before; a chunk is what the connection yields. *)
Context (too_many too_long : nat → bool) (broken : list byte → O) (many long : O).

Fixpoint read_chunks (chunks : list (result (list byte) (list byte))) (received : nat)
    (buffer : list byte) (s : S) : result (list byte * S) O :=
  match chunks with
  | [] => Ok (buffer, s)
  | Err error :: _ => Err (broken error)
  | Ok chunk :: chunks =>
      let received := received + length chunk in
      if too_many received then Err many
      else
        let? rest := drain (buffer ++ chunk) s in
        if too_long (length rest.1) then Err long else read_chunks chunks received rest.1 rest.2
  end.

(** ** Draining does not depend on the chunks *)

(** An end of an event is behind its first byte and inside the buffer, and is still
    the first when more arrives; while there is none, the next one is behind all
    that has arrived. *)
Record event_ends : Prop := {
  end_in b n : find_end b = Some n → 0 < n ≤ length b;
  end_app b c n : find_end b = Some n → find_end (b ++ c) = Some n;
  end_late b c n : find_end b = None → find_end (b ++ c) = Some n → length b < n;
}.

Hypothesis ends : event_ends.

Lemma drain_from_fuel fuel1 fuel2 b s :
  length b ≤ fuel1 → length b ≤ fuel2 → drain_from fuel1 b s = drain_from fuel2 b s.
Proof.
  revert fuel2 b s. assert (Hnil : ∀ fuel b s, length b = 0 → drain_from fuel b s = Ok (b, s)).
  { intros [|fuel] b s Hb; [done|]. cbn. destruct (find_end b) eqn:E; [|done].
    apply (end_in ends) in E. lia. }
  induction fuel1 as [|fuel1 IH]; intros fuel2 b s H1 H2; [by rewrite !Hnil by lia|].
  destruct fuel2 as [|fuel2]; [by rewrite !Hnil by lia|]. cbn.
  destruct (find_end b) as [e|] eqn:E; [|done]. apply (end_in ends) in E.
  destruct (on_event s (take e b)) as [s'|]; [|done]. simpl.
  apply IH; rewrite length_drop; lia.
Qed.

Lemma drain_event b s n :
  find_end b = Some n →
  drain b s = (let? s := on_event s (take n b) in drain (drop n b) s).
Proof.
  intros E. unfold drain at 1. pose proof (end_in ends b n E) as Hn.
  destruct (length b) as [|m] eqn:Hm; [lia|]. cbn. rewrite E.
  destruct (on_event s (take n b)); [|done]. simpl. apply drain_from_fuel; rewrite ?length_drop; lia.
Qed.

Lemma drain_none b s : find_end b = None → drain b s = Ok (b, s).
Proof. intros E. unfold drain. by destruct (length b); cbn; rewrite ?E. Qed.

(** Induction over the events of a buffer. *)
Lemma event_ind (P : list byte → Prop) :
  (∀ b, find_end b = None → P b) →
  (∀ b n, find_end b = Some n → P (drop n b) → P b) → ∀ b, P b.
Proof.
  intros Hn Hs b. remember (length b) as n eqn:Hb. revert b Hb.
  induction n as [n IH] using lt_wf_ind. intros b ->.
  destruct (find_end b) as [e|] eqn:E; [|auto].
  apply (Hs _ _ E), (IH (length (drop e b))); [|done].
  apply (end_in ends) in E. rewrite length_drop. lia.
Qed.

Lemma drain_app b c s :
  drain (b ++ c) s = (let? rest := drain b s in drain (rest.1 ++ c) rest.2).
Proof.
  revert s. induction b as [b E|b n E IH] using event_ind; intros s.
  - by rewrite (drain_none b) by done.
  - pose proof (end_in ends b n E). rewrite (drain_event b s n E).
    rewrite (drain_event (b ++ c) s n (end_app ends _ c _ E)).
    rewrite take_app_le, drop_app_le by lia. destruct (on_event s (take n b)); simpl; auto.
Qed.

(** What is left holds no further event. *)
Lemma drain_rest b s b' s' : drain b s = Ok (b', s') → find_end b' = None.
Proof.
  revert s. induction b as [b E|b n E IH] using event_ind; intros s.
  - rewrite drain_none by done. by intros [= <- <-].
  - rewrite (drain_event b s n E). intros (s1 & _ & H)%result_bind_Ok. eauto.
Qed.

Hypothesis long_mono : ∀ m n, m ≤ n → too_long m = true → too_long n = true.
Hypothesis long_event : ∀ s e, too_long (length e) = true → on_event s e = Err long.
Hypothesis many_mono : ∀ m n, m ≤ n → too_many m = true → too_many n = true.

(** A rest that is too long is refused however it goes on. *)
Lemma drain_long b c s :
  find_end b = None → too_long (length b) = true →
  (let? rest := drain (b ++ c) s in
   if too_long (length rest.1) then Err long else Ok rest) = Err long.
Proof.
  intros E Hl. destruct (find_end (b ++ c)) as [n|] eqn:E'.
  - pose proof (end_late ends b c n E E'). pose proof (end_in ends _ _ E').
    rewrite (drain_event _ _ n E'). rewrite long_event; [done|].
    apply (long_mono (length b)); [|done]. rewrite length_take. lia.
  - rewrite drain_none by done. simpl. rewrite (long_mono (length b)); [done| |done].
    rewrite length_app. lia.
Qed.

(** One chunk that is two: [rest] is what follows, a failure or the end as well. *)
Lemma read_chunks_join c1 c2 rest received b s :
  too_many (received + length c1 + length c2) = false →
  read_chunks (Ok c1 :: Ok c2 :: rest) received b s =
  read_chunks (Ok (c1 ++ c2) :: rest) received b s.
Proof.
  intros Hm. cbn [read_chunks]. rewrite length_app, Nat.add_assoc, Hm.
  replace (too_many (received + length c1)) with false.
  2:{ symmetry. apply not_true_iff_false. intros Ht.
      apply (many_mono _ (received + length c1 + length c2)) in Ht; [congruence|lia]. }
  rewrite (app_assoc b c1 c2), (drain_app (b ++ c1) c2). destruct (drain (b ++ c1) s) as [[b' s']|o] eqn:E; [|done].
  simpl. pose proof (drain_rest _ _ _ _ E) as Hb. destruct (too_long (length b')) eqn:Hl; [|done].
  pose proof (drain_long b' c2 s' Hb Hl) as Hd.
  destruct (drain (b' ++ c2) s') as [[b2 s2]|o]; simpl in *; [|congruence].
  by destruct (too_long (length b2)).
Qed.

(** However the bytes of a stream are cut into chunks, reading them is reading them
    in one piece. *)
Lemma read_chunks_concat cs c rest received b s :
  too_many (received + length (c ++ concat cs)) = false →
  read_chunks (Ok c :: (Ok <$> cs) ++ rest) received b s =
  read_chunks (Ok (c ++ concat cs) :: rest) received b s.
Proof.
  revert c. induction cs as [|c' cs IH]; intros c Hm; [by rewrite app_nil_r|].
  rewrite fmap_cons. cbn [app concat] in *. rewrite read_chunks_join.
  - rewrite IH, app_assoc; [done|]. by rewrite <- app_assoc.
  - apply not_true_iff_false. intros Ht. eapply (many_mono _ (received + length (c ++ c' ++ concat cs))) in Ht; [congruence|].
    rewrite !length_app. lia.
Qed.
End reading.

(** ** The two ends of an event *)

Lemma starts_with_app_l needle b c : starts_with needle b = true → starts_with needle (b ++ c) = true.
Proof.
  intros (r & ->)%starts_with_app. apply starts_with_app. exists (r ++ c). by rewrite app_assoc.
Qed.

Lemma starts_with_app_inv needle b c :
  length needle ≤ length b → starts_with needle (b ++ c) = true → starts_with needle b = true.
Proof.
  intros Hl (r & E)%starts_with_app. apply starts_with_app.
  exists (drop (length needle) b). rewrite <- (take_drop (length needle) b) at 1. f_equal.
  apply (f_equal (take (length needle))) in E. rewrite take_app_le in E by done.
  by rewrite E, take_app_length.
Qed.

Lemma find_sub_length needle b n : find_sub needle b = Some n → n + length needle ≤ length b.
Proof.
  revert n. induction b as [|x b IH]; intros n; cbn [find_sub].
  - destruct (starts_with needle []) eqn:E; [|done]. intros [= <-].
    apply starts_with_app in E as (r & E). by destruct needle.
  - destruct (starts_with needle (x :: b)) eqn:E.
    + intros [= <-]. apply starts_with_app in E as (r & ->). rewrite length_app. lia.
    + intros (m & Hm & ->)%fmap_Some. apply IH in Hm. simpl. lia.
Qed.

Lemma find_sub_app needle b c n : find_sub needle b = Some n → find_sub needle (b ++ c) = Some n.
Proof.
  revert n. induction b as [|x b IH]; intros n; cbn [find_sub].
  - destruct (starts_with needle []) eqn:E; [|done]. intros [= <-].
    apply (starts_with_app_l _ _ c) in E. simpl in *. by destruct c; cbn [find_sub]; rewrite E.
  - destruct (starts_with needle (x :: b)) eqn:E.
    + intros [= <-]. apply (starts_with_app_l _ _ c) in E. cbn [app find_sub] in *. by rewrite E.
    + intros (m & Hm & ->)%fmap_Some. cbn [app find_sub].
      destruct (starts_with needle (x :: b ++ c)) eqn:E'; [|by rewrite (IH _ Hm)].
      apply (starts_with_app_inv needle (x :: b) c) in E'; [congruence|].
      apply find_sub_length in Hm. simpl. lia.
Qed.

Lemma find_sub_app_inv needle b c n :
  find_sub needle (b ++ c) = Some n → n + length needle ≤ length b → find_sub needle b = Some n.
Proof.
  revert n. induction b as [|x b IH]; intros n; cbn [app find_sub].
  - simpl. intros H Hl. assert (needle = []) as -> by (destruct needle; simpl in *; [done|lia]).
    by destruct c; cbn in H |- *; simplify_eq.
  - destruct (starts_with needle (x :: b ++ c)) eqn:E.
    + intros [= <-] Hl. by rewrite (starts_with_app_inv needle (x :: b) c Hl E).
    + intros (m & Hm & ->)%fmap_Some Hl. destruct (starts_with needle (x :: b)) eqn:E'.
      { apply (starts_with_app_l _ _ c) in E'. cbn [app] in E'. congruence. }
      simpl in Hl. by rewrite (IH m Hm) by lia.
Qed.

Lemma find_sub_ends needle k :
  needle ≠ [] → k = length needle → event_ends (λ b, (λ at_, at_ + k) <$> find_sub needle b).
Proof.
  intros Hne ->. assert (0 < length needle) by (destruct needle; simpl; [done|lia]). split.
  - intros b n (m & Hm & ->)%fmap_Some. apply find_sub_length in Hm. lia.
  - intros b c n (m & Hm & ->)%fmap_Some. by rewrite (find_sub_app _ _ _ _ Hm).
  - intros b c n Hb%fmap_None (m & Hm & ->)%fmap_Some.
    destruct (le_lt_dec (m + length needle) (length b)) as [Hl|Hl]; [|lia].
    by rewrite (find_sub_app_inv _ _ _ _ Hm Hl) in Hb.
Qed.

(** The earlier of two ends. *)
Lemma min_ends f g :
  event_ends f → event_ends g →
  event_ends (λ b, match f b, g b with
                   | Some l, Some r => Some (l `min` r)
                   | Some l, None => Some l
                   | None, r => r
                   end).
Proof.
  intros [f1 f2 f3] [g1 g2 g3]. split.
  - intros b n. destruct (f b) as [l|] eqn:Ef, (g b) as [r|] eqn:Eg; intros [= <-];
      repeat match goal with H : f _ = Some _ |- _ => apply f1 in H
                           | H : g _ = Some _ |- _ => apply g1 in H end; lia.
  - intros b c n. destruct (f b) as [l|] eqn:Ef, (g b) as [r|] eqn:Eg; intros [= <-].
    + by rewrite (f2 _ c _ Ef), (g2 _ c _ Eg).
    + rewrite (f2 _ c _ Ef). destruct (g (b ++ c)) as [r|] eqn:Eg'; [|done].
      pose proof (g3 _ _ _ Eg Eg'). apply f1 in Ef. f_equal. lia.
    + rewrite (g2 _ c _ Eg). destruct (f (b ++ c)) as [l|] eqn:Ef'; [|done].
      pose proof (f3 _ _ _ Ef Ef'). apply g1 in Eg. f_equal. lia.
  - intros b c n. destruct (f b) eqn:Ef, (g b) eqn:Eg; try done. intros _.
    destruct (f (b ++ c)) as [l|] eqn:Ef', (g (b ++ c)) as [r|] eqn:Eg'; intros [= <-];
      repeat match goal with H : f (b ++ c) = Some _ |- _ => apply (f3 _ _ _ Ef) in H
                           | H : g (b ++ c) = Some _ |- _ => apply (g3 _ _ _ Eg) in H end; lia.
Qed.

Lemma event_end_ends : event_ends find_event_end.
Proof. by apply find_sub_ends. Qed.

Lemma sse_event_end_ends : event_ends find_sse_event_end.
Proof. exact (min_ends _ _ (find_sub_ends [lf; lf] 2 ltac:(done) eq_refl) (find_sub_ends CRLF2 4 ltac:(done) eq_refl)). Qed.
