(* ===== verification/Anthropic.v ===== *)
(** * The Anthropic stream: [crates/supra_llm/src/providers.rs]

    The content blocks of a streamed message grow by deltas, interleaved as the
    provider likes; [AnthropicStream] assembles them.  [read_anthropic_sse] reads the
    response and decides whether it was complete. *)

From Stdlib Require Import Ascii.
From S2P Require Import Prelude Text Sealing Utf8 Canonical Tool Framing Provider Sse.

Definition MAX_ANTHROPIC_STREAM_BYTES : N := 16 * 1024 * 1024.
Definition MAX_ANTHROPIC_EVENT_BYTES : N := 1024 * 1024.
Definition MAX_ANTHROPIC_BLOCKS : nat := 4096.
Definition u32_limit : N := 4294967295.

Definition anthropic_stop_reason (reason : list byte) : StopReason.t :=
  if bool_decide (reason = bytes "end_turn") then StopReason.EndTurn
  else if bool_decide (reason = bytes "tool_use") then StopReason.ToolUse
  else if bool_decide (reason = bytes "max_tokens") then StopReason.MaxTokens
  else if bool_decide (reason = bytes "stop_sequence") then StopReason.StopSequence
  else if bool_decide (reason = bytes "pause_turn") then StopReason.PauseTurn
  else if bool_decide (reason = bytes "refusal") then StopReason.Refusal
  else if bool_decide (reason = bytes "model_context_window_exceeded") then
    StopReason.ModelContextWindowExceeded
  else StopReason.Other reason.

Module AnthropicBlock.
Inductive t (Num : Type) :=
| Text (text : list byte) (citations : list (Value Num))
| Thinking (thinking signature : list byte)
| RedactedThinking (data : list byte)
| ToolUse (id name : list byte) (input : Value Num) (partial_json : list byte)
| Unknown (raw : Value Num) (partial_json : list byte).
Arguments Text {Num} text citations.
Arguments Thinking {Num} thinking signature.
Arguments RedactedThinking {Num} data.
Arguments ToolUse {Num} id name input partial_json.
Arguments Unknown {Num} raw partial_json.

Section block.
Context {Num : Type} (from_str : list byte → result (Value Num) (list byte)).

(** A string member, empty when it is missing or no string. *)
Definition string_of (name : string) (value : Value Num) : list byte :=
  default [] (get name value ≫= as_str).

Definition start (raw : Value Num) : t Num :=
  let kind := string_of "type" raw in
  if bool_decide (kind = bytes "text") then
    Text (string_of "text" raw) (default [] (get "citations" raw ≫= value_as_array))
  else if bool_decide (kind = bytes "thinking") then
    Thinking (string_of "thinking" raw) (string_of "signature" raw)
  else if bool_decide (kind = bytes "redacted_thinking") then RedactedThinking (string_of "data" raw)
  else if bool_decide (kind = bytes "tool_use") then
    ToolUse (string_of "id" raw) (string_of "name" raw) (default VNull (get "input" raw)) []
  else Unknown raw [].

Definition kind (b : t Num) : list byte :=
  match b with
  | Text _ _ => bytes "text"
  | Thinking _ _ => bytes "thinking"
  | RedactedThinking _ => bytes "redacted_thinking"
  | ToolUse _ _ _ _ => bytes "tool_use"
  | Unknown _ _ => bytes "unknown"
  end.

Definition apply_delta (b : t Num) (delta : Value Num) : result (t Num) EventError :=
  let delta_kind := string_of "type" delta in
  let mismatch := Err (DeltaMismatch delta_kind (kind b)) in
  match b with
  | Text text citations =>
      if bool_decide (delta_kind = bytes "text_delta") then
        Ok (Text (text ++ string_of "text" delta) citations)
      else if bool_decide (delta_kind ∈ [bytes "citations_delta"; bytes "citation_delta"]) then
        match get "citation" delta with
        | Some citation => Ok (Text text (citations ++ [citation]))
        | None => Ok b
        end
      else mismatch
  | Thinking thinking signature =>
      if bool_decide (delta_kind = bytes "thinking_delta") then
        Ok (Thinking (thinking ++ string_of "thinking" delta) signature)
      else if bool_decide (delta_kind = bytes "signature_delta") then
        Ok (Thinking thinking (signature ++ string_of "signature" delta))
      else mismatch
  | ToolUse id name input partial_json =>
      if bool_decide (delta_kind = bytes "input_json_delta") then
        Ok (ToolUse id name input (partial_json ++ string_of "partial_json" delta))
      else mismatch
  | Unknown raw partial_json =>
      if bool_decide (delta_kind = bytes "input_json_delta") then
        Ok (Unknown raw (partial_json ++ string_of "partial_json" delta))
      else mismatch
  | RedactedThinking _ => mismatch
  end.

(** [raw["input"] = value]: a null becomes an object, and indexing anything else that
    is no object panics. *)
Definition set_input (value raw : Value Num) : result (Value Num) EventError :=
  match raw with
  | VObject m => Ok (VObject (map_insert (bytes "input") value m))
  | VNull => Ok (VObject [(bytes "input", value)])
  | _ => Err Panics
  end.

Definition finish (b : t Num) : result (ContentBlock.t Num) EventError :=
  match b with
  | Text text citations => Ok (ContentBlock.Text text citations)
  | Thinking thinking signature => Ok (ContentBlock.Thinking thinking signature)
  | RedactedThinking data => Ok (ContentBlock.RedactedThinking data)
  | ToolUse id name input partial_json =>
      let? input :=
        if bool_decide (partial_json = []) then Ok input
        else map_err InvalidInput (from_str partial_json) in
      Ok (ContentBlock.ToolUse id name input)
  | Unknown raw partial_json =>
      if bool_decide (partial_json = []) then Ok (ContentBlock.Unknown raw)
      else
        let? input := map_err InvalidInput (from_str partial_json) in
        let? raw := set_input input raw in
        Ok (ContentBlock.Unknown raw)
  end.
End block.
End AnthropicBlock.

Module AnthropicStream.
Record t (Num : Type) := mk {
  open : gmap N (AnthropicBlock.t Num);
  complete : gmap N (ContentBlock.t Num);
  stop_reason : option StopReason.t;
  stop_sequence : option (list byte);
  model : list byte;
  request_id : option (list byte);
  usage : option Usage.t;
  saw_message_stop : bool;
}.
Arguments mk {Num} open complete stop_reason stop_sequence model request_id usage saw_message_stop.
Arguments open {Num} _.
Arguments complete {Num} _.
Arguments stop_reason {Num} _.
Arguments stop_sequence {Num} _.
Arguments model {Num} _.
Arguments request_id {Num} _.
Arguments usage {Num} _.
Arguments saw_message_stop {Num} _.

Definition default_stream {Num} : t Num := mk ∅ ∅ None None [] None None false.

Section stream.
Context {Num : Type} (from_str : list byte → result (Value Num) (list byte)).
Context (as_u64 : Num → option N).

#[local] Abbreviation string_of := AnthropicBlock.string_of.
#[local] Abbreviation member_u64 name value := (get name value ≫= value_as_u64 as_u64).

Definition with_blocks (open : gmap N (AnthropicBlock.t Num)) (complete : gmap N (ContentBlock.t Num))
    (s : t Num) : t Num :=
  mk open complete (stop_reason s) (stop_sequence s) (model s) (request_id s) (usage s)
     (saw_message_stop s).

Definition with_stop (s : t Num) : t Num :=
  mk (open s) (complete s) (stop_reason s) (stop_sequence s) (model s) (request_id s) (usage s) true.

Definition event_index (event : Value Num) : result N EventError :=
  let? index := ok_or (member_u64 "index" event) NoIndex in
  if (index <=? u32_limit)%N then Ok index else Err (IndexTooLarge index).

Definition ensure_block_capacity (s : t Num) : result unit EventError :=
  if MAX_ANTHROPIC_BLOCKS <=? size (open s) + size (complete s) then Err TooManyBlocks else Ok tt.

Definition insert_complete (index : N) (block : ContentBlock.t Num) (s : t Num) :
    result (t Num) EventError :=
  let? _ := ensure_block_capacity s in
  if bool_decide (is_Some (complete s !! index)) then Err (DuplicateIndex index)
  else Ok (with_blocks (open s) (<[index := block]> (complete s)) s).

Definition merged_usage (value : Value Num) (usage : option Usage.t) : option Usage.t :=
  match get "usage" value with
  | None => usage
  | Some reported =>
      let u := default Usage.default usage in
      Some (Usage.mk
        (default (Usage.input_tokens u) (member_u64 "input_tokens" reported))
        (default (Usage.output_tokens u) (member_u64 "output_tokens" reported))
        (default (Usage.cached_tokens u) (member_u64 "cache_read_input_tokens" reported)))
  end.

(** The blocks a message starts with, from an index on. *)
Fixpoint start_blocks (index : N) (blocks : list (Value Num)) (s : t Num) :
    result (t Num) EventError :=
  match blocks with
  | [] => Ok s
  | raw :: blocks =>
      if (u32_limit <? index)%N then Err (IndexTooLarge index)
      else
        let? block := AnthropicBlock.finish from_str (AnthropicBlock.start raw) in
        let? s := insert_complete index block s in
        start_blocks (index + 1) blocks s
  end.

Definition message_start (event : Value Num) (s : t Num) : result (t Num) EventError :=
  let? message := ok_or (get "message" event) NoMessage in
  let s := mk (open s) (complete s) (stop_reason s) (stop_sequence s) (string_of "model" message)
              (get "id" message ≫= as_str) (merged_usage message (usage s)) (saw_message_stop s) in
  start_blocks 0 (default [] (get "content" message ≫= value_as_array)) s.

Definition content_block_start (event : Value Num) (s : t Num) : result (t Num) EventError :=
  let? index := event_index event in
  if bool_decide (is_Some (open s !! index)) || bool_decide (is_Some (complete s !! index))
  then Err (DuplicateIndex index)
  else
    let? _ := ensure_block_capacity s in
    let? raw := ok_or (get "content_block" event) NoBlock in
    Ok (with_blocks (<[index := AnthropicBlock.start raw]> (open s)) (complete s) s).

Definition content_block_delta (event : Value Num) (s : t Num) : result (t Num) EventError :=
  let? index := event_index event in
  let? delta := ok_or (get "delta" event) NoDelta in
  let? block := ok_or (open s !! index) (UnopenedDelta index) in
  let? block := AnthropicBlock.apply_delta block delta in
  Ok (with_blocks (<[index := block]> (open s)) (complete s) s).

Definition content_block_stop (event : Value Num) (s : t Num) : result (t Num) EventError :=
  let? index := event_index event in
  let? block := ok_or (open s !! index) (UnopenedStop index) in
  let s := with_blocks (delete index (open s)) (complete s) s in
  let? block := AnthropicBlock.finish from_str block in
  insert_complete index block s.

Definition message_delta (event : Value Num) (s : t Num) : result (t Num) EventError :=
  let? delta := ok_or (get "delta" event) NoDelta in
  let stop_reason :=
    match get "stop_reason" delta ≫= as_str with
    | Some reason => Some (anthropic_stop_reason reason)
    | None => stop_reason s
    end in
  Ok (mk (open s) (complete s) stop_reason (get "stop_sequence" delta ≫= as_str) (model s)
         (request_id s) (merged_usage event (usage s)) (saw_message_stop s)).

Definition event (e : Value Num) (s : t Num) : result (t Num) EventError :=
  let kind := string_of "type" e in
  if bool_decide (kind = bytes "message_start") then message_start e s
  else if bool_decide (kind = bytes "content_block_start") then content_block_start e s
  else if bool_decide (kind = bytes "content_block_delta") then content_block_delta e s
  else if bool_decide (kind = bytes "content_block_stop") then content_block_stop e s
  else if bool_decide (kind = bytes "message_delta") then message_delta e s
  else if bool_decide (kind = bytes "message_stop") then Ok (with_stop s)
  else if bool_decide (kind = bytes "ping") then Ok s
  else if bool_decide (kind = bytes "error") then
    Err (ErrorEvent (default (bytes "the provider sent an error event")
                       ((get "error" e ≫= get "message") ≫= as_str)))
  else Err (UnknownEvent kind).

(** The events of a stream, up to the first that is refused. *)
Fixpoint events (es : list (Value Num)) (s : t Num) : result (t Num) EventError :=
  match es with
  | [] => Ok s
  | e :: es => let? s := event e s in events es s
  end.
End stream.
End AnthropicStream.

(** ** Reading the response *)

(** A call either returns or aborts the task. *)
Inductive Outcome (A : Type) := Returns (a : A) | Aborted.
Arguments Returns {A} a.
Arguments Aborted {A}.

Section read.
Context {Num : Type} (from_str : list byte → result (Value Num) (list byte)).
Context (as_u64 : Num → option N).

#[local] Abbreviation outcome := (Outcome (result (Completion.t Num) LlmError)).

Definition anthropic_failure (detail : Detail) : outcome :=
  Returns (Err (BadResponse (ProviderKind.name ProviderKind.Anthropic) detail)).

Definition of_event_error (e : EventError) : outcome :=
  match e with Panics => Aborted | e => anthropic_failure (BadEvent e) end.

Definition anthropic_event (s : AnthropicStream.t Num) (event : list byte) :
    result (AnthropicStream.t Num) outcome :=
  if (MAX_ANTHROPIC_EVENT_BYTES <? N.of_nat (length event))%N then Err (anthropic_failure EventTooLong)
  else
    let? payload := map_err anthropic_failure (sse_payload event) in
    match payload with
    | None => Ok s
    | Some payload =>
        if bool_decide (payload = bytes "[DONE]") then Ok (AnthropicStream.with_stop s)
        else
          let? json := map_err (λ message, anthropic_failure (EventNotJson message))
                         (from_str payload) in
          map_err of_event_error (AnthropicStream.event from_str as_u64 json s)
    end.

Definition is_ascii_whitespace (c : byte) : bool :=
  bool_decide (N_of_ascii c ∈ [32; 9; 10; 12; 13]%N).

(** The checks behind the loop. *)
Definition anthropic_completion (header_request_id : option (list byte)) (thinking : Thinking.t)
    (buffer : list byte) (s : AnthropicStream.t Num) : outcome :=
  if negb (forallb is_ascii_whitespace buffer) then anthropic_failure InsideEvent
  else if negb (AnthropicStream.saw_message_stop s) then anthropic_failure NoMessageStop
  else if negb (bool_decide (size (AnthropicStream.open s) = 0)) then anthropic_failure OpenBlock
  else match AnthropicStream.stop_reason s with
  | None => anthropic_failure NoStopReason
  | Some stop_reason =>
      let request_id :=
        match header_request_id with
        | Some id => Some id
        | None => AnthropicStream.request_id s
        end in
      Returns (Ok (Completion.mk (snd <$> btree (AnthropicStream.complete s)) stop_reason
        (AnthropicStream.stop_sequence s) (AnthropicStream.model s) request_id
        (AnthropicStream.usage s) thinking))
  end.

Definition read_anthropic_sse (chunks : list (result (list byte) (list byte)))
    (header_request_id : option (list byte)) (thinking : Thinking.t) : outcome :=
  match
    read_chunks find_sse_event_end anthropic_event
      (λ received, MAX_ANTHROPIC_STREAM_BYTES <? N.of_nat received)%N
      (λ length, MAX_ANTHROPIC_EVENT_BYTES <? N.of_nat length)%N
      (λ error, Returns (Err (Transport (ProviderKind.name ProviderKind.Anthropic) (Told error))))
      (anthropic_failure StreamTooLong) (anthropic_failure EventTooLong)
      chunks 0 [] AnthropicStream.default_stream
  with
  | Err o => o
  | Ok (buffer, s) => anthropic_completion header_request_id thinking buffer s
  end.
End read.

(** ** The blocks as independent automata

    What an event does to the blocks, one index at a time: an index is unused, open,
    complete, or (only when a message starts with a block that is already open) both.
    The stream is the product of one automaton for every index. *)

Inductive Op (Num : Type) :=
| Begin (index : N) (raw : Value Num)
| Delta (index : N) (delta : Value Num)
| End_ (index : N)
| Whole (index : N) (raw : Value Num).
Arguments Begin {Num} index raw.
Arguments Delta {Num} index delta.
Arguments End_ {Num} index.
Arguments Whole {Num} index raw.

Section product.
Context {Num : Type} (from_str : list byte → result (Value Num) (list byte)).
Context (as_u64 : Num → option N).

#[local] Abbreviation cell := (option (AnthropicBlock.t Num) * option (ContentBlock.t Num))%type.
#[local] Abbreviation blocks :=
  (gmap N (AnthropicBlock.t Num) * gmap N (ContentBlock.t Num))%type.

Definition op_index (op : Op Num) : N :=
  match op with Begin i _ | Delta i _ | End_ i | Whole i _ => i end.

(** Whether it adds a block. *)
Definition adds (op : Op Num) : bool :=
  match op with Begin _ _ | Whole _ _ => true | _ => false end.

Definition life_step (x : cell) (op : Op Num) : option cell :=
  match op, x with
  | Begin _ raw, (None, None) => Some (Some (AnthropicBlock.start raw), None)
  | Delta _ delta, (Some block, done) =>
      block ← to_option (AnthropicBlock.apply_delta block delta); Some (Some block, done)
  | End_ _, (Some block, None) =>
      block ← to_option (AnthropicBlock.finish from_str block); Some (None, Some block)
  | Whole _ raw, (o, None) =>
      block ← to_option (AnthropicBlock.finish from_str (AnthropicBlock.start raw));
      Some (o, Some block)
  | _, _ => None
  end.

Fixpoint life (ops : list (Op Num)) (x : cell) : option cell :=
  match ops with
  | [] => Some x
  | op :: ops => x ← life_step x op; life ops x
  end.

Definition about (i : N) (ops : list (Op Num)) : list (Op Num) :=
  List.filter (λ op, bool_decide (op_index op = i)) ops.

Definition added (ops : list (Op Num)) : nat := length (List.filter adds ops).

(** The blocks a message starts with. *)
Fixpoint wholes (index : N) (raws : list (Value Num)) : list (Op Num) :=
  match raws with [] => [] | raw :: raws => Whole index raw :: wholes (index + 1) raws end.

(** [None] is what has no effect on blocks: an event that is refused whatever the
    blocks are. *)
Definition ops_of (e : Value Num) : option (list (Op Num)) :=
  let kind := AnthropicBlock.string_of "type" e in
  let index := to_option (AnthropicStream.event_index as_u64 e) in
  if bool_decide (kind = bytes "message_start") then
    message ← get "message" e;
    let raws := default [] (get "content" message ≫= value_as_array) in
    if (N.of_nat (length raws) <=? u32_limit + 1)%N
    then Some (wholes 0 raws) else None
  else if bool_decide (kind = bytes "content_block_start") then
    index ← index; raw ← get "content_block" e; Some [Begin index raw]
  else if bool_decide (kind = bytes "content_block_delta") then
    index ← index; delta ← get "delta" e; Some [Delta index delta]
  else if bool_decide (kind = bytes "content_block_stop") then index ← index; Some [End_ index]
  else if bool_decide (kind = bytes "message_delta") then _ ← get "delta" e; Some []
  else if bool_decide (kind = bytes "message_stop") then Some []
  else if bool_decide (kind = bytes "ping") then Some []
  else None.

(** What an event says of the message. *)
Definition header (s : AnthropicStream.t Num) (e : Value Num) : AnthropicStream.t Num :=
  let kind := AnthropicBlock.string_of "type" e in
  if bool_decide (kind = bytes "message_start") then
    let message := default VNull (get "message" e) in
    AnthropicStream.mk (AnthropicStream.open s) (AnthropicStream.complete s)
      (AnthropicStream.stop_reason s) (AnthropicStream.stop_sequence s)
      (AnthropicBlock.string_of "model" message) (get "id" message ≫= as_str)
      (AnthropicStream.merged_usage as_u64 message (AnthropicStream.usage s))
      (AnthropicStream.saw_message_stop s)
  else if bool_decide (kind = bytes "message_delta") then
    let delta := default VNull (get "delta" e) in
    AnthropicStream.mk (AnthropicStream.open s) (AnthropicStream.complete s)
      (match get "stop_reason" delta ≫= as_str with
       | Some reason => Some (anthropic_stop_reason reason)
       | None => AnthropicStream.stop_reason s
       end)
      (get "stop_sequence" delta ≫= as_str) (AnthropicStream.model s)
      (AnthropicStream.request_id s)
      (AnthropicStream.merged_usage as_u64 e (AnthropicStream.usage s))
      (AnthropicStream.saw_message_stop s)
  else if bool_decide (kind = bytes "message_stop") then AnthropicStream.with_stop s
  else s.

Definition set_at {A} (i : N) (x : option A) (m : gmap N A) : gmap N A :=
  partial_alter (λ _, x) i m.

(** The product, with its bound. *)
Definition apply_op (b : blocks) (op : Op Num) : option blocks :=
  if adds op && (MAX_ANTHROPIC_BLOCKS <=? size b.1 + size b.2) then None
  else
    x ← life_step (b.1 !! op_index op, b.2 !! op_index op) op;
    Some (set_at (op_index op) x.1 b.1, set_at (op_index op) x.2 b.2).

Fixpoint apply_ops (ops : list (Op Num)) (b : blocks) : option blocks :=
  match ops with
  | [] => Some b
  | op :: ops => b ← apply_op b op; apply_ops ops b
  end.

Lemma set_at_same {A} i (m : gmap N A) : set_at i (m !! i) m = m.
Proof. apply partial_alter_self. Qed.

Lemma set_at_insert {A} i x (m : gmap N A) : set_at i (Some x) m = <[i := x]> m.
Proof. done. Qed.

Lemma set_at_delete {A} i (m : gmap N A) : set_at i None m = delete i m.
Proof. done. Qed.

Lemma set_at_lookup {A} i j x (m : gmap N A) :
  set_at i x m !! j = if decide (i = j) then x else m !! j.
Proof.
  unfold set_at. case_decide; [subst; apply lookup_partial_alter_eq|].
  by apply lookup_partial_alter_ne.
Qed.

Definition one {A} (x : option A) : nat := match x with Some _ => 1 | None => 0 end.

Lemma set_at_size {A} i x (m : gmap N A) :
  size (set_at i x m) + one (m !! i) = size m + one x.
Proof.
  unfold set_at. destruct (m !! i) as [y|] eqn:E, x as [x|].
  - change (partial_alter (λ _, Some x) i m) with (<[i := x]> m).
    rewrite map_size_insert, E. done.
  - change (partial_alter (λ _, None) i m) with (delete i m).
    rewrite map_size_delete, E. cbn [one]. pose proof (map_size_ne_0_lookup_2 m i ltac:(by eexists)). lia.
  - change (partial_alter (λ _, Some x) i m) with (<[i := x]> m).
    rewrite map_size_insert, E. cbn; lia.
  - change (partial_alter (λ _, None) i m) with (delete i m).
    rewrite map_size_delete, E. cbn; lia.
Qed.

Lemma life_step_count o c o' c' op :
  life_step (o, c) op = Some (o', c') →
  one o' + one c' =
  one o + one c + (if adds op then 1 else 0).
Proof.
  destruct op, o, c; simpl; try done; intros H; simplify_option_eq; done.
Qed.

Lemma apply_op_size b op b' :
  apply_op b op = Some b' →
  size b'.1 + size b'.2 = size b.1 + size b.2 + (if adds op then 1 else 0).
Proof.
  unfold apply_op. case_match; [done|]. intros ([o' c'] & Hl & [= <-])%bind_Some. simpl in *.
  pose proof (life_step_count _ _ _ _ _ Hl).
  pose proof (set_at_size (op_index op) o' b.1). pose proof (set_at_size (op_index op) c' b.2).
  lia.
Qed.

(** Every index of the product runs its own automaton, and nothing else does. *)
Lemma apply_ops_product ops b b' :
  size b.1 + size b.2 ≤ MAX_ANTHROPIC_BLOCKS →
  apply_ops ops b = Some b' ↔
  size b.1 + size b.2 + added ops ≤ MAX_ANTHROPIC_BLOCKS ∧
  ∀ i, life (about i ops) (b.1 !! i, b.2 !! i) = Some (b'.1 !! i, b'.2 !! i).
Proof.
  revert b. induction ops as [|op ops IH]; intros b Hb.
  { unfold added. cbn. rewrite Nat.add_0_r. split.
    - intros [= <-]. done.
    - intros [_ H]. destruct b as [o c], b' as [o' c']. f_equal.
      f_equal; apply map_eq; intros i; specialize (H i); simpl in H; congruence. }
  cbn [apply_ops]. rewrite bind_Some. unfold added in *. cbn [List.filter].
  assert (Hlen : ∀ l : list (Op Num), length (if adds op then op :: l else l) =
      length l + (if adds op then 1 else 0)) by (intros l; destruct (adds op); simpl; lia).
  rewrite Hlen. split.
  - intros (b1 & H1 & H2). pose proof (apply_op_size _ _ _ H1) as Hsz.
    assert (Hb1 : size b1.1 + size b1.2 ≤ MAX_ANTHROPIC_BLOCKS).
    { unfold apply_op in H1. destruct (adds op) eqn:Ea; simpl in H1; [|lia].
      destruct (Nat.leb_spec MAX_ANTHROPIC_BLOCKS (size b.1 + size b.2)); [done|lia]. }
    apply IH in H2 as [Hc H2]; [|done]. split; [lia|]. intros i.
    unfold apply_op in H1. destruct (adds op && (MAX_ANTHROPIC_BLOCKS <=? size b.1 + size b.2)); [done|]. apply bind_Some in H1 as ([x y] & Hl & [= <-]).
    specialize (H2 i). cbn [fst snd] in H2. rewrite !set_at_lookup in H2.
    cbn [about List.filter]. case_bool_decide as Hi.
    + subst i. rewrite !decide_True in H2 by done. cbn [life]. by rewrite Hl.
    + by rewrite !decide_False in H2 by done.
  - intros [Hc H]. pose proof (H (op_index op)) as Hi. cbn [about List.filter] in Hi.
    rewrite bool_decide_eq_true_2 in Hi by done. cbn [life] in Hi.
    apply bind_Some in Hi as ([x y] & Hl & Hi).
    assert (H1 : apply_op b op =
        Some (set_at (op_index op) x b.1, set_at (op_index op) y b.2)).
    { unfold apply_op. rewrite Hl. destruct (adds op); simpl; [|done].
      by destruct (Nat.leb_spec MAX_ANTHROPIC_BLOCKS (size b.1 + size b.2)); [lia|]. }
    eexists. split; [exact H1|]. pose proof (apply_op_size _ _ _ H1) as Hsz. cbn [fst snd] in Hsz.
    apply IH; cbn [fst snd]; [lia|]. split; [lia|]. intros i. rewrite !set_at_lookup.
    case_decide as Hd; [by subst|]. specialize (H i). cbn [about List.filter] in H.
    by rewrite bool_decide_eq_false_2 in H by done.
Qed.

Lemma capacity_iff (s : AnthropicStream.t Num) :
  AnthropicStream.ensure_block_capacity s = Ok tt ↔
  size (AnthropicStream.open s) + size (AnthropicStream.complete s) < MAX_ANTHROPIC_BLOCKS.
Proof.
  unfold AnthropicStream.ensure_block_capacity.
  by destruct (Nat.leb_spec MAX_ANTHROPIC_BLOCKS
    (size (AnthropicStream.open s) + size (AnthropicStream.complete s))); split; try done; lia.
Qed.

#[local] Abbreviation blocks_of s := (AnthropicStream.open s, AnthropicStream.complete s).
#[local] Abbreviation with_both b s := (AnthropicStream.with_blocks b.1 b.2 s).

(** Adding a block, when there is room and the automaton lets it. *)
Lemma apply_op_adds (b : blocks) op (b' : blocks) :
  adds op = true →
  apply_op b op = Some b' ↔
  size b.1 + size b.2 < MAX_ANTHROPIC_BLOCKS ∧
  ∃ x, life_step (b.1 !! op_index op, b.2 !! op_index op) op = Some x ∧
    b' = (set_at (op_index op) x.1 b.1, set_at (op_index op) x.2 b.2).
Proof.
  intros Ha. unfold apply_op. rewrite Ha.
  destruct (Nat.leb_spec MAX_ANTHROPIC_BLOCKS (size b.1 + size b.2)); simpl.
  - split; [done|lia].
  - rewrite bind_Some. naive_solver.
Qed.

Lemma insert_complete_iff i raw k (s s' : AnthropicStream.t Num) :
  AnthropicBlock.finish from_str (AnthropicBlock.start raw) = Ok k →
  AnthropicStream.insert_complete i k s = Ok s' ↔
  ∃ b, apply_op (blocks_of s) (Whole i raw) = Some b ∧ s' = with_both b s.
Proof.
  intros Hk. unfold AnthropicStream.insert_complete. rewrite result_bind_Ok.
  setoid_rewrite (apply_op_adds _ (Whole i raw) _ eq_refl). cbn [op_index fst snd life_step].
  rewrite Hk. simpl. split.
  - intros ([] & Hc%capacity_iff & H). case_bool_decide as Hd; [done|]. injection H as <-.
    apply eq_None_not_Some in Hd. rewrite Hd.
    exists (AnthropicStream.open s, <[i := k]> (AnthropicStream.complete s)).
    split; [|done]. split; [done|]. eexists. split; [done|]. cbn [fst snd]. by rewrite set_at_same.
  - intros (b & (Hc & x & Hx & ->) & ->). exists tt. split; [by apply capacity_iff|].
    destruct (AnthropicStream.complete s !! i); [done|]. injection Hx as <-. cbn [fst snd].
    by rewrite set_at_same.
Qed.

Lemma start_blocks_ops n raws (s s' : AnthropicStream.t Num) :
  AnthropicStream.start_blocks from_str n raws s = Ok s' ↔
  (raws = [] ∨ n + N.of_nat (length raws) ≤ u32_limit + 1)%N ∧
  ∃ b, apply_ops (wholes n raws) (blocks_of s) = Some b ∧ s' = with_both b s.
Proof.
  revert n s. induction raws as [|raw raws IH]; intros n s; cbn [AnthropicStream.start_blocks].
  { cbn. split; [intros [= <-]|by intros (_ & b & [= <-] & ->); destruct s].
    split; [by left|]. eexists. split; [done|]. by destruct s. }
  cbn [wholes apply_ops length]. setoid_rewrite bind_Some.
  destruct (N.ltb_spec u32_limit n) as [Hn|Hn].
  { split; [done|]. intros ([[=]|Hl] & _). lia. }
  rewrite result_bind_Ok. setoid_rewrite result_bind_Ok. setoid_rewrite IH. split.
  - intros (k & Hk & s1 & H1 & Hl & b & Hb & ->).
    apply (insert_complete_iff _ _ _ _ _ Hk) in H1 as (b1 & Hb1 & ->).
    split; [right; destruct Hl as [->|Hl]; simpl; lia|]. exists b.
    split; [|done]. exists b1. split; [done|]. by destruct b1.
  - intros (Hl & b & (b1 & Hb1 & Hb) & ->).
    assert (∃ k, AnthropicBlock.finish from_str (AnthropicBlock.start raw) = Ok k) as [k Hk].
    { apply apply_op_adds in Hb1 as (_ & x & Hx & _); [|done]. simpl in Hx.
      repeat case_match; simplify_eq/=; apply bind_Some in Hx as (k & Hk%to_option_Some & _); eauto. }
    exists k. split; [done|]. exists (with_both b1 s). split.
    { apply (insert_complete_iff _ _ _ _ _ Hk). eauto. }
    split; [right; destruct Hl as [[=]|Hl]; lia|]. exists b. split; [by destruct b1|done].
Qed.

Lemma block_start_ops e (s s' : AnthropicStream.t Num) :
  AnthropicStream.content_block_start as_u64 e s = Ok s' ↔
  ∃ i raw b, AnthropicStream.event_index as_u64 e = Ok i ∧ get "content_block" e = Some raw ∧
    apply_op (blocks_of s) (Begin i raw) = Some b ∧ s' = with_both b s.
Proof.
  unfold AnthropicStream.content_block_start. rewrite result_bind_Ok.
  split.
  - intros (i & Hi & H). destruct (AnthropicStream.open s !! i) eqn:Eo; [done|].
    destruct (AnthropicStream.complete s !! i) eqn:Ec; [done|]. simpl in H.
    apply result_bind_Ok in H as ([] & Hc%capacity_iff & H).
    apply result_bind_Ok in H as (raw & Hr%ok_or_Ok & [= <-]).
    exists i, raw, (<[i := AnthropicBlock.start raw]> (AnthropicStream.open s), AnthropicStream.complete s).
    split_and!; [done..| |done]. apply apply_op_adds; [done|]. cbn [op_index fst snd].
    split; [done|]. rewrite Eo, Ec. eexists. split; [done|].
    cbn [fst snd]. by rewrite <- Ec, set_at_same.
  - intros (i & raw & b & Hi & Hr & Hb & ->). exists i. split; [done|].
    apply apply_op_adds in Hb as (Hc & x & Hx & ->); [|done]. cbn [op_index fst snd] in *.
    destruct (AnthropicStream.open s !! i) eqn:Eo; [done|].
    destruct (AnthropicStream.complete s !! i) eqn:Ec; [done|]. injection Hx as <-.
    apply capacity_iff in Hc. rewrite Hc, Hr. cbn. by rewrite <- Ec, set_at_same.
Qed.

Lemma block_delta_ops e (s s' : AnthropicStream.t Num) :
  AnthropicStream.content_block_delta as_u64 e s = Ok s' ↔
  ∃ i delta b, AnthropicStream.event_index as_u64 e = Ok i ∧ get "delta" e = Some delta ∧
    apply_op (blocks_of s) (Delta i delta) = Some b ∧ s' = with_both b s.
Proof.
  unfold AnthropicStream.content_block_delta, apply_op. rewrite result_bind_Ok.
  cbn [adds andb op_index fst snd]. split.
  - intros (i & Hi & H). apply result_bind_Ok in H as (delta & Hd%ok_or_Ok & H).
    apply result_bind_Ok in H as (block & Hb%ok_or_Ok & H).
    apply result_bind_Ok in H as (block' & Ha & [= <-]).
    exists i, delta, (<[i := block']> (AnthropicStream.open s), AnthropicStream.complete s).
    split_and!; [done..| |done]. rewrite Hb. simpl. rewrite Ha. simpl. by rewrite set_at_same.
  - intros (i & delta & b & Hi & Hd & Hb & ->). exists i. split; [done|]. rewrite Hd. simpl.
    destruct (AnthropicStream.open s !! i) as [block|] eqn:Eo; [|done]. simpl in *.
    destruct (AnthropicBlock.apply_delta block delta) as [block'|]; [|done]. simpl in *.
    injection Hb as <-. cbn [fst snd]. by rewrite set_at_same.
Qed.

Lemma block_stop_ops e (s s' : AnthropicStream.t Num) :
  size (AnthropicStream.open s) + size (AnthropicStream.complete s) ≤ MAX_ANTHROPIC_BLOCKS →
  AnthropicStream.content_block_stop from_str as_u64 e s = Ok s' ↔
  ∃ i b, AnthropicStream.event_index as_u64 e = Ok i ∧
    apply_op (blocks_of s) (End_ i) = Some b ∧ s' = with_both b s.
Proof.
  intros Hsz. unfold AnthropicStream.content_block_stop, apply_op. rewrite result_bind_Ok.
  cbn [adds andb op_index fst snd].
  assert (Hroom : ∀ i b, AnthropicStream.open s !! i = Some b →
    AnthropicStream.ensure_block_capacity (AnthropicStream.with_blocks
      (delete i (AnthropicStream.open s)) (AnthropicStream.complete s) s) = Ok tt).
  { intros i b Hb. apply capacity_iff. cbn. rewrite map_size_delete, Hb. cbn.
    pose proof (map_size_ne_0_lookup_2 _ i ltac:(by exists b)). lia. }
  split.
  - intros (i & Hi & H). apply result_bind_Ok in H as (block & Hb%ok_or_Ok & H).
    apply result_bind_Ok in H as (k & Hk & H). unfold AnthropicStream.insert_complete in H.
    rewrite (Hroom i block Hb) in H. simpl in H.
    destruct (AnthropicStream.complete s !! i) eqn:Ec; [done|]. injection H as <-.
    exists i, (delete i (AnthropicStream.open s), <[i := k]> (AnthropicStream.complete s)).
    split_and!; [done| |done]. rewrite Hb, Ec. simpl. by rewrite Hk.
  - intros (i & b & Hi & Hb & ->). exists i. split; [done|].
    destruct (AnthropicStream.open s !! i) as [block|] eqn:Eo; [|done].
    destruct (AnthropicStream.complete s !! i) eqn:Ec; [done|]. simpl in *.
    destruct (AnthropicBlock.finish from_str block) as [k|]; [|done]. simpl in *.
    injection Hb as <-. unfold AnthropicStream.insert_complete.
    rewrite (Hroom i block Eo). simpl. by rewrite Ec.
Qed.

Lemma with_blocks_twice b (s : AnthropicStream.t Num) :
  with_both b (with_both b s) = with_both b s.
Proof. done. Qed.

Lemma apply_one op (b b' : blocks) : apply_ops [op] b = Some b' ↔ apply_op b op = Some b'.
Proof. cbn. destruct (apply_op b op); naive_solver. Qed.

Lemma message_start_ops e (s s' : AnthropicStream.t Num) :
  AnthropicStream.message_start from_str as_u64 e s = Ok s' ↔
  ∃ message raws, get "message" e = Some message ∧
    raws = default [] (get "content" message ≫= value_as_array) ∧
    (N.of_nat (length raws) ≤ u32_limit + 1)%N ∧
    ∃ b, apply_ops (wholes 0 raws) (blocks_of s) = Some b ∧
      s' = with_both b (AnthropicStream.mk (AnthropicStream.open s) (AnthropicStream.complete s)
        (AnthropicStream.stop_reason s) (AnthropicStream.stop_sequence s)
        (AnthropicBlock.string_of "model" message) (get "id" message ≫= as_str)
        (AnthropicStream.merged_usage as_u64 message (AnthropicStream.usage s))
        (AnthropicStream.saw_message_stop s)).
Proof.
  unfold AnthropicStream.message_start. rewrite result_bind_Ok. split.
  - intros (m & Hm%ok_or_Ok & H). apply start_blocks_ops in H as (Hl & b & Hb & ->).
    exists m. eexists. split_and!; [done..| |by exists b].
    destruct Hl as [-> | Hl]; [simpl; lia|lia].
  - intros (m & raws & Hm & -> & Hl & b & Hb & ->). exists m. rewrite Hm. split; [done|].
    apply start_blocks_ops. split; [right; lia|by exists b].
Qed.

Ltac kinds :=
  repeat first [ rewrite bool_decide_eq_true_2 by done | rewrite bool_decide_eq_false_2 by done ].

(** An event is what it does to the blocks and what it says of the message. *)
Lemma event_ops e (s s' : AnthropicStream.t Num) :
  size (AnthropicStream.open s) + size (AnthropicStream.complete s) ≤ MAX_ANTHROPIC_BLOCKS →
  AnthropicStream.event from_str as_u64 e s = Ok s' ↔
  ∃ ops b, ops_of e = Some ops ∧ apply_ops ops (blocks_of s) = Some b ∧
    s' = with_both b (header s e).
Proof.
  intros Hsz. unfold AnthropicStream.event, ops_of, header.
  destruct (decide (AnthropicBlock.string_of "type" e = bytes "message_start")) as [K1|K1].
  { rewrite K1. kinds. rewrite message_start_ops. split.
    - intros (m & raws & Hm & -> & Hl & b & Hb & ->). rewrite Hm. simpl.
      eexists _, b. split; [by rewrite (proj2 (N.leb_le _ _) Hl)|done].
    - intros (ops & b & (m & Hm & Ho)%bind_Some & Hb & ->). rewrite Hm.
      exists m. eexists. split_and!; [done..| |]; case_match eqn:Hl; simplify_eq.
      + by apply N.leb_le in Hl.
      + by exists b. }
  destruct (decide (AnthropicBlock.string_of "type" e = bytes "content_block_start")) as [K2|K2].
  { rewrite K2. kinds. rewrite block_start_ops. split.
    - intros (i & raw & b & -> & Hr & Hb & ->). eexists _, b. split; [|split; [by apply apply_one|done]].
      simpl. by rewrite Hr.
    - intros (ops & b & (i & Hi%to_option_Some & (raw & Hr & [= <-])%bind_Some)%bind_Some & Hb & ->).
      apply apply_one in Hb. exists i, raw, b. done. }
  destruct (decide (AnthropicBlock.string_of "type" e = bytes "content_block_delta")) as [K3|K3].
  { rewrite K3. kinds. rewrite block_delta_ops. split.
    - intros (i & d & b & -> & Hr & Hb & ->). eexists _, b. split; [|split; [by apply apply_one|done]].
      simpl. by rewrite Hr.
    - intros (ops & b & (i & Hi%to_option_Some & (d & Hr & [= <-])%bind_Some)%bind_Some & Hb & ->).
      apply apply_one in Hb. exists i, d, b. done. }
  destruct (decide (AnthropicBlock.string_of "type" e = bytes "content_block_stop")) as [K4|K4].
  { rewrite K4. kinds. rewrite block_stop_ops by done. split.
    - intros (i & b & -> & Hb & ->). eexists _, b. split; [done|split; [by apply apply_one|done]].
    - intros (ops & b & (i & Hi%to_option_Some & [= <-])%bind_Some & Hb & ->).
      apply apply_one in Hb. exists i, b. done. }
  rewrite !(bool_decide_eq_false_2 (AnthropicBlock.string_of "type" e = _)) by done.
  destruct (decide (AnthropicBlock.string_of "type" e = bytes "message_delta")) as [K5|K5].
  { rewrite K5. kinds. unfold AnthropicStream.message_delta. rewrite result_bind_Ok. split.
    - intros (d & Hd%ok_or_Ok & [= <-]). rewrite Hd. eexists _, _. by split_and!.
    - intros (ops & b & (d & Hd & [= <-])%bind_Some & [= <-] & ->). rewrite Hd. by exists d. }
  destruct (decide (AnthropicBlock.string_of "type" e = bytes "message_stop")) as [K6|K6].
  { rewrite K6. kinds. split; [intros [= <-]; eexists _, _; by split_and!|].
    by intros (ops & b & [= <-] & [= <-] & ->). }
  rewrite !(bool_decide_eq_false_2 (AnthropicBlock.string_of "type" e = _)) by done.
  case_bool_decide as K7.
  { split; [intros [= <-]; eexists _, _; split_and!; [done..|by destruct s]|].
    intros (ops & b & [= <-] & [= <-] & ->). by destruct s. }
  split; [by case_bool_decide|]. by intros (? & ? & ? & _).
Qed.

Lemma apply_ops_app ops1 ops2 b :
  apply_ops (ops1 ++ ops2) b = (b' ← apply_ops ops1 b; apply_ops ops2 b').
Proof.
  revert b. induction ops1 as [|op ops1 IH]; intros b; [done|]. cbn [app apply_ops].
  destruct (apply_op b op); simpl; auto.
Qed.

(** What all events do and say. *)
Definition all_ops (es : list (Value Num)) : option (list (Op Num)) :=
  (λ opss, concat opss) <$> mapM ops_of es.

Lemma header_blocks s e b :
  header (with_both b s) e = with_both b (header s e).
Proof. unfold header. by repeat case_bool_decide. Qed.

Lemma headers_blocks es s b :
  foldl header (with_both b s) es = with_both b (foldl header s es).
Proof.
  revert s. induction es as [|e es IH]; intros s; [done|]. simpl. by rewrite header_blocks, IH.
Qed.

Lemma apply_ops_size ops (b b' : blocks) :
  size b.1 + size b.2 ≤ MAX_ANTHROPIC_BLOCKS → apply_ops ops b = Some b' →
  size b'.1 + size b'.2 ≤ MAX_ANTHROPIC_BLOCKS.
Proof.
  revert b. induction ops as [|op ops IH]; intros b Hb; [by intros [= <-]|].
  cbn [apply_ops]. intros (b1 & H1 & H)%bind_Some. apply (IH b1); [|done].
  pose proof (apply_op_size _ _ _ H1). unfold apply_op in H1.
  destruct (adds op) eqn:Ea; simpl in H1; [|lia].
  destruct (Nat.leb_spec MAX_ANTHROPIC_BLOCKS (size b.1 + size b.2)); [done|lia].
Qed.

Lemma events_ops es (s s' : AnthropicStream.t Num) :
  size (AnthropicStream.open s) + size (AnthropicStream.complete s) ≤ MAX_ANTHROPIC_BLOCKS →
  AnthropicStream.events from_str as_u64 es s = Ok s' ↔
  ∃ ops b, all_ops es = Some ops ∧ apply_ops ops (blocks_of s) = Some b ∧
    s' = with_both b (foldl header s es).
Proof.
  unfold all_ops. revert s. induction es as [|e es IH]; intros s Hsz; cbn [AnthropicStream.events].
  { cbn. split; [intros [= <-]; eexists _, _; split_and!; [done..|by destruct s]|].
    intros (ops & b & [= <-] & [= <-] & ->). by destruct s. }
  rewrite result_bind_Ok. cbn [foldl]. split.
  - intros (s1 & (ops1 & b1 & Ho1 & Hb1 & ->)%event_ops & H); [|done].
    apply IH in H as (ops & b & Ho & Hb & ->); [|by eapply (apply_ops_size ops1 (blocks_of s))].
    apply fmap_Some in Ho as (opss & Hopss & ->). exists (ops1 ++ concat opss), b.
    split_and!.
    + cbn. by rewrite Ho1, Hopss.
    + rewrite apply_ops_app, Hb1. simpl. by destruct b1.
    + by rewrite headers_blocks.
  - intros (ops & b & Ho & Hb & ->). cbn in Ho.
    destruct (ops_of e) as [ops1|] eqn:Ho1; [|done].
    destruct (mapM ops_of es) as [opss|] eqn:Hopss; [|done]. injection Ho as <-.
    cbn in Hb. rewrite apply_ops_app in Hb. apply bind_Some in Hb as (b1 & Hb1 & Hb).
    exists (with_both b1 (header s e)). split; [apply event_ops; [done|]; by exists ops1, b1|].
    apply IH; [by eapply (apply_ops_size ops1 (blocks_of s))|]. exists (concat opss), b.
    split_and!; [done|by destruct b1|by rewrite headers_blocks].
Qed.

(** C22. The events of a stream are accepted exactly when each is well-formed, at most
    the bound of blocks is added and every index on its own sees what its automaton
    accepts; the blocks are then those of the automata, however the events of different
    indices were interleaved, and a text block is the texts of its deltas joined. *)
Theorem anthropic_stream_exact es s :
  (AnthropicStream.events from_str as_u64 es AnthropicStream.default_stream = Ok s ↔
   ∃ ops, all_ops es = Some ops ∧ added ops ≤ MAX_ANTHROPIC_BLOCKS ∧
     (∀ i, life (about i ops) (None, None) =
           Some (AnthropicStream.open s !! i, AnthropicStream.complete s !! i)) ∧
     s = with_both (blocks_of s) (foldl header AnthropicStream.default_stream es)) ∧
  (∀ i raw ds,
     AnthropicBlock.string_of "type" raw = bytes "text" →
     Forall (λ d, AnthropicBlock.string_of "type" d = bytes "text_delta") ds →
     life (Begin i raw :: (Delta i <$> ds) ++ [End_ i]) (None, None) =
     Some (None, Some (ContentBlock.Text
       (AnthropicBlock.string_of "text" raw ++ concat (AnthropicBlock.string_of "text" <$> ds))
       (default [] (get "citations" raw ≫= value_as_array))))).
Proof.
  assert (H0 : size (@AnthropicStream.open Num AnthropicStream.default_stream) +
    size (@AnthropicStream.complete Num AnthropicStream.default_stream) ≤ MAX_ANTHROPIC_BLOCKS).
  { cbn. rewrite !map_size_empty. unfold MAX_ANTHROPIC_BLOCKS. lia. }
  split.
  - rewrite events_ops by done. split.
    + intros (ops & b & Ho & Hb & ->). exists ops. apply apply_ops_product in Hb as [Hc Hl]; [|done].
      cbn in Hc, Hl. rewrite !map_size_empty in Hc. split_and!; [done|done| |by destruct b].
      intros i. specialize (Hl i). by rewrite !lookup_empty in Hl.
    + intros (ops & Ho & Hc & Hl & E). exists ops, (blocks_of s). split_and!; [done| |done].
      apply apply_ops_product; [done|]. cbn. rewrite !map_size_empty. split; [done|].
      intros i. by rewrite !lookup_empty.
  - intros i raw ds Hk Hds. cbn [life life_step]. unfold AnthropicBlock.start. rewrite Hk. kinds.
    cbn [mbind option_bind]. generalize (AnthropicBlock.string_of "text" raw) as acc.
    induction Hds as [|d ds Hd Hds IH]; intros acc; [by rewrite app_nil_r|].
    rewrite fmap_cons. cbn [app life life_step AnthropicBlock.apply_delta]. rewrite Hd. kinds.
    cbn [to_option mbind option_bind]. rewrite IH, fmap_cons. cbn [concat]. by rewrite app_assoc.
Qed.
End product.

(** ** However the response is cut into chunks *)

Section chunks.
Context {Num : Type} (from_str : list byte → result (Value Num) (list byte)).
Context (as_u64 : Num → option N).

Lemma anthropic_chunks c cs rest header_request_id thinking :
  (N.of_nat (length (c ++ concat cs)) ≤ MAX_ANTHROPIC_STREAM_BYTES)%N →
  read_anthropic_sse from_str as_u64 (Ok c :: (Ok <$> cs) ++ rest) header_request_id thinking =
  read_anthropic_sse from_str as_u64 (Ok (c ++ concat cs) :: rest) header_request_id thinking.
Proof.
  intros Hl. unfold read_anthropic_sse. rewrite read_chunks_concat; [done|..].
  - apply sse_event_end_ends.
  - intros m n Hmn ?%N.ltb_lt. apply N.ltb_lt. lia.
  - intros s e He. unfold anthropic_event. by rewrite He.
  - intros m n Hmn ?%N.ltb_lt. apply N.ltb_lt. lia.
  - apply N.ltb_ge. simpl. lia.
Qed.
End chunks.

(** A block that is no object, which is kept as it came, cannot take an input: indexing
    it aborts the task. *)
Lemma unknown_block_panics :
  AnthropicBlock.finish (λ _, Ok VNull)
    (AnthropicBlock.Unknown (VString (bytes "text") : Value N) (bytes "null")) = Err Panics.
Proof. done. Qed.

(** ** A concrete stream *)

Definition witness_event (entries : list (string * Value N)) : Value N := object entries.
Definition witness_text (s : string) : Value N := VString (bytes s).

Definition witness_delta (index : N) (kind field s : string) : Value N :=
  witness_event [("type", witness_text "content_block_delta"); ("index", VNumber index);
    ("delta", object [("type", witness_text kind); (field, witness_text s)])].

Definition witness_events : list (Value N) :=
  [witness_event [("type", witness_text "message_start");
     ("message", object [("model", witness_text "m"); ("id", witness_text "r")])];
   witness_event [("type", witness_text "content_block_start"); ("index", VNumber 1%N);
     ("content_block", object [("type", witness_text "text"); ("text", witness_text "")])];
   witness_event [("type", witness_text "content_block_start"); ("index", VNumber 0%N);
     ("content_block", object [("type", witness_text "thinking")])];
   witness_delta 1 "text_delta" "text" "Hel";
   witness_delta 0 "thinking_delta" "thinking" "hm";
   witness_event [("type", witness_text "ping")];
   witness_delta 1 "text_delta" "text" "lo";
   witness_delta 0 "signature_delta" "signature" "s";
   witness_event [("type", witness_text "content_block_stop"); ("index", VNumber 0%N)];
   witness_event [("type", witness_text "content_block_stop"); ("index", VNumber 1%N)];
   witness_event [("type", witness_text "message_delta");
     ("delta", object [("stop_reason", witness_text "end_turn")])];
   witness_event [("type", witness_text "message_stop")]].

Lemma anthropic_stream_exact_witness :
  let from_str := λ _, Err [] in
  (∃ s, AnthropicStream.events from_str Some witness_events AnthropicStream.default_stream = Ok s ∧
     snd <$> btree (AnthropicStream.complete s) =
       [ContentBlock.Thinking (bytes "hm") (bytes "s"); ContentBlock.Text (bytes "Hello") []] ∧
     ∃ ops, all_ops Some witness_events = Some ops ∧ added ops ≤ MAX_ANTHROPIC_BLOCKS) ∧
  life from_str (Begin 7 (object [("type", witness_text "text")]) ::
    (Delta 7 <$> [object [("type", witness_text "text_delta"); ("text", witness_text "Hi")]])
    ++ [End_ 7]) (None, None) = Some (None, Some (ContentBlock.Text (bytes "Hi") [])).
Proof.
  intros from_str.
  destruct (AnthropicStream.events from_str Some witness_events AnthropicStream.default_stream)
    as [s|] eqn:E; [|by vm_compute in E].
  destruct (anthropic_stream_exact from_str Some witness_events s) as [[Hops _] Htext]. split.
  - exists s. split; [done|]. destruct (Hops E) as (ops & Ho & Ha & _). split; [|exists ops; split; [exact Ho|exact Ha]].
    revert E. vm_compute. by intros [= <-].
  - apply (Htext 7%N (object [("type", witness_text "text")])
      [object [("type", witness_text "text_delta"); ("text", witness_text "Hi")]]);
      [reflexivity|repeat constructor].
Defined.
