(* ===== verification/Google.v ===== *)
(** * The Google stream: [crates/supra_llm/src/client.rs]

    The accumulation of a streamed answer ([GoogleStreamState]) and its reader
    ([read_google_sse]), and that neither reader of a streamed response depends on how
    the connection cuts it into chunks. *)

From Stdlib Require Import Ascii.
From S2P Require Import Prelude Text Sealing Utf8 Canonical Tool Framing Provider Sse Anthropic.

Definition parse_stop_reason (reason : list byte) : StopReason.t :=
  let one_of l := bool_decide (reason ∈ bytes <$> l) in
  if one_of ["end_turn"; "stop"; "STOP"] then StopReason.EndTurn
  else if one_of ["tool_use"; "tool_calls"; "function_call"] then StopReason.ToolUse
  else if one_of ["max_tokens"; "length"; "MAX_TOKENS"] then StopReason.MaxTokens
  else if one_of ["stop_sequence"] then StopReason.StopSequence
  else if one_of ["pause_turn"] then StopReason.PauseTurn
  else if one_of ["refusal"] then StopReason.Refusal
  else if one_of ["model_context_window_exceeded"] then StopReason.ModelContextWindowExceeded
  else if one_of ["content_filter"; "safety"; "SAFETY"; "RECITATION"; "BLOCKLIST";
              "PROHIBITED_CONTENT"; "SPII"; "IMAGE_SAFETY"] then StopReason.ContentFilter
  else StopReason.Other reason.

(** [value.get(index)], and [a.or_else(|| b)]. *)
Definition get_at {Num} (index : nat) (value : Value Num) : option (Value Num) :=
  match value with VArray items => items !! index | _ => None end.

Definition or_else {A} (a b : option A) : option A := match a with Some x => Some x | None => b end.

Module GoogleStreamState.
Record t (Num : Type) := mk {
  content : list (ContentBlock.t Num);
  stop_reason : option StopReason.t;
  model : list byte;
  request_id : option (list byte);
  usage : option Usage.t;
  saw_tool_use : bool;
}.
Arguments mk {Num} content stop_reason model request_id usage saw_tool_use.
Arguments content {Num} _.
Arguments stop_reason {Num} _.
Arguments model {Num} _.
Arguments request_id {Num} _.
Arguments usage {Num} _.
Arguments saw_tool_use {Num} _.

Definition default_state {Num} : t Num := mk [] None [] None None false.

Section state.
Context {Num : Type} (as_u64 : Num → option N).

#[local] Abbreviation json := (Value Num).

Definition parse_usage (event : json) : option Usage.t :=
  usage ← or_else (get "usage" event) (get "usageMetadata" event);
  input ← or_else (get "input_tokens" usage)
            (or_else (get "prompt_tokens" usage) (get "promptTokenCount" usage))
          ≫= value_as_u64 as_u64;
  output ← or_else (get "output_tokens" usage)
             (or_else (get "completion_tokens" usage) (get "candidatesTokenCount" usage))
           ≫= value_as_u64 as_u64;
  let cached :=
    or_else (get "cache_read_input_tokens" usage)
      (or_else (get "cachedContentTokenCount" usage)
         (get "prompt_tokens_details" usage ≫= get "cached_tokens"))
    ≫= value_as_u64 as_u64 in
  Some (Usage.mk input output (default 0%N cached)).

Definition push (block : ContentBlock.t Num) (s : t Num) : t Num :=
  mk (content s ++ [block]) (stop_reason s) (model s) (request_id s) (usage s) (saw_tool_use s).

Definition with_stop_reason (reason : StopReason.t) (s : t Num) : t Num :=
  mk (content s) (Some reason) (model s) (request_id s) (usage s) (saw_tool_use s).

(** One part of a candidate: a text, a call, or both. *)
Definition apply_part (part : json) (s : t Num) : result (t Num) EventError :=
  let s :=
    match get "text" part ≫= as_str with
    | Some text => push (ContentBlock.text_block text) s
    | None => s
    end in
  match get "functionCall" part with
  | None => Ok s
  | Some call =>
      let? name := ok_or (get "name" call ≫= as_str) NamelessCall in
      let id := default [] (get "id" call ≫= as_str) in
      let input := default (VObject []) (get "args" call) in
      let s := push (ContentBlock.ToolUse id name input) s in
      Ok (mk (content s) (stop_reason s) (model s) (request_id s) (usage s) true)
  end.

Fixpoint apply_parts (parts : list json) (s : t Num) : result (t Num) EventError :=
  match parts with
  | [] => Ok s
  | part :: parts => let? s := apply_part part s in apply_parts parts s
  end.

Definition apply_candidate (candidate : json) (s : t Num) : result (t Num) EventError :=
  let parts := default [] ((get "content" candidate ≫= get "parts") ≫= value_as_array) in
  let? s := apply_parts parts s in
  Ok match get "finishReason" candidate ≫= as_str with
     | Some reason =>
         let parsed := parse_stop_reason reason in
         with_stop_reason
           (if saw_tool_use s && bool_decide (parsed = StopReason.EndTurn)
            then StopReason.ToolUse else parsed) s
     | None => s
     end.

(** An event without candidates, in the spelling of another provider. *)
Definition apply_delta (event : json) (s : t Num) : t Num :=
  let choice := get "choices" event ≫= get_at 0 in
  let s :=
    match (get "delta" event ≫= get "text") ≫= as_str with
    | Some delta => push (ContentBlock.text_block delta) s
    | None =>
        match ((choice ≫= get "delta") ≫= get "content") ≫= as_str with
        | Some delta => push (ContentBlock.text_block delta) s
        | None => s
        end
    end in
  match or_else (get "stop_reason" event ≫= as_str) ((choice ≫= get "finish_reason") ≫= as_str) with
  | Some reason => with_stop_reason (parse_stop_reason reason) s
  | None => s
  end.

Definition apply_event (event : json) (s : t Num) : result (t Num) EventError :=
  let candidate := (get "candidates" event ≫= value_as_array) ≫= head in
  let? s :=
    match candidate with
    | Some candidate => apply_candidate candidate s
    | None => Ok (apply_delta event s)
    end in
  Ok (mk (content s) (stop_reason s)
    (default (model s) (or_else (get "modelVersion" event) (get "model" event) ≫= as_str))
    (or_else (or_else (get "responseId" event) (get "id" event) ≫= as_str) (request_id s))
    (or_else (parse_usage event) (usage s))
    (saw_tool_use s)).

Definition into_completion (stop_reason : StopReason.t) (thinking : Thinking.t) (s : t Num) :
    Completion.t Num :=
  Completion.mk (content s) stop_reason None (model s) (request_id s) (usage s) thinking.
End state.
End GoogleStreamState.

(** ** Reading the response *)

Section read.
Context {Num : Type} (from_str : list byte → result (Value Num) (list byte)).
Context (as_u64 : Num → option N).
(** The host of the response's address, which errors name as the provider. *)
Context (provider : list byte) (thinking : Thinking.t).

#[local] Abbreviation outcome := (Outcome (result (Completion.t Num) LlmError)).
#[local] Abbreviation state := (GoogleStreamState.t Num).

Definition google_failure (detail : Detail) : outcome := Returns (Err (BadResponse provider detail)).

Definition done_reason (s : state) : StopReason.t :=
  default (if GoogleStreamState.saw_tool_use s then StopReason.ToolUse else StopReason.EndTurn)
    (GoogleStreamState.stop_reason s).

Definition error_message (fallback : string) (event : Value Num) : list byte :=
  default (bytes fallback) ((get "error" event ≫= get "message") ≫= as_str).

(** The payload of one line; [Err] is what the reader returns. *)
Definition google_payload (payload : list byte) (s : state) : result state outcome :=
  if bool_decide (payload = bytes "[DONE]") then
    Err (Returns (Ok (GoogleStreamState.into_completion (done_reason s) thinking s)))
  else
    let? json := map_err (λ _, google_failure (EventNotJson payload)) (from_str payload) in
    if bool_decide (get "type" json ≫= as_str = Some (bytes "error")) then
      Err (google_failure (Told (error_message "the provider sent an error event" json)))
    else if bool_decide (is_Some (get "error" json)) && bool_decide (get "choices" json = None) then
      Err (google_failure (Told (error_message "the provider sent an error object" json)))
    else map_err (λ e, google_failure (BadEvent e)) (GoogleStreamState.apply_event as_u64 json s).

Fixpoint google_lines (lines : list (list byte)) (s : state) : result state outcome :=
  match lines with
  | [] => Ok s
  | line :: lines =>
      match strip_prefix (bytes "data:") line with
      | None => google_lines lines s
      | Some payload => let? s := google_payload (trim payload) s in google_lines lines s
      end
  end.

Definition google_event (s : state) (event : list byte) : result state outcome :=
  google_lines (lines (from_utf8_lossy event)) s.

(** The checks behind the loop. *)
Definition google_completion (s : state) : outcome :=
  match GoogleStreamState.stop_reason s with
  | None =>
      google_failure
        (if bool_decide (length (GoogleStreamState.content s) = 0) then NoEvents
         else NoTerminalMarker)
  | Some stop_reason => Returns (Ok (GoogleStreamState.into_completion stop_reason thinking s))
  end.

(** This reader has no limits. *)
Definition read_google_sse (chunks : list (result (list byte) (list byte))) : outcome :=
  match
    read_chunks find_event_end google_event (λ _, false) (λ _, false)
      (λ error, Returns (Err (Transport provider (Told error))))
      (google_failure StreamTooLong) (google_failure EventTooLong)
      chunks 0 [] GoogleStreamState.default_state
  with
  | Err o => o
  | Ok (_, s) => google_completion s
  end.
End read.

(** ** Properties *)

Section properties.
Context {Num : Type} (from_str : list byte → result (Value Num) (list byte)).
Context (as_u64 : Num → option N).

Lemma google_chunks provider thinking c cs rest :
  read_google_sse from_str as_u64 provider thinking (Ok c :: (Ok <$> cs) ++ rest) =
  read_google_sse from_str as_u64 provider thinking (Ok (c ++ concat cs) :: rest).
Proof.
  unfold read_google_sse. rewrite read_chunks_concat; [done|..]; try done.
  apply event_end_ends.
Qed.

(** However the connection cuts a streamed response into chunks, and whether it then
    ends or breaks, both readers return what they return for the whole response in one
    chunk, the Anthropic one for responses within its limit. *)
Theorem sse_chunks_irrelevant c cs c' cs' rest provider header_request_id thinking :
  c ++ concat cs = c' ++ concat cs' →
  read_google_sse from_str as_u64 provider thinking (Ok c :: (Ok <$> cs) ++ rest) =
  read_google_sse from_str as_u64 provider thinking (Ok c' :: (Ok <$> cs') ++ rest) ∧
  ((N.of_nat (length (c ++ concat cs)) ≤ MAX_ANTHROPIC_STREAM_BYTES)%N →
   read_anthropic_sse from_str as_u64 (Ok c :: (Ok <$> cs) ++ rest) header_request_id thinking =
   read_anthropic_sse from_str as_u64 (Ok c' :: (Ok <$> cs') ++ rest) header_request_id thinking).
Proof.
  intros E. split.
  - by rewrite !google_chunks, E.
  - intros Hl. rewrite !anthropic_chunks by congruence. by rewrite E.
Qed.

(** A response whose lines end in carriage returns, as the format allows and the
    Anthropic reader takes, has no event for the Google reader: all of it is lost. *)
Lemma google_crlf_stream_lost provider thinking response :
  find_sub [lf; lf] response = None →
  read_google_sse from_str as_u64 provider thinking [Ok response] =
  Returns (Err (BadResponse provider NoEvents)).
Proof.
  intros H. unfold read_google_sse. cbn [read_chunks app].
  rewrite drain_none; [done|]. unfold find_event_end. by rewrite H.
Qed.
End properties.

Definition witness_answer : Value N :=
  object [("candidates", VArray [object
    [("content", object [("parts", VArray [object [("text", witness_text "hi")]])]);
     ("finishReason", witness_text "STOP")]])].

Definition witness_from_str (payload : list byte) : result (Value N) (list byte) :=
  if bool_decide (payload = bytes "answer") then Ok witness_answer else Err [].

Definition witness_response : list byte := bytes "data: answer" ++ [lf; lf].

Lemma sse_chunks_irrelevant_witness :
  let pieces := [bytes "data: "; bytes "answer" ++ [lf]; [lf]] in
  let read := read_google_sse witness_from_str Some (bytes "host") (Thinking.mk 0) in
  read (Ok <$> pieces) = read [Ok witness_response] ∧
  read [Ok witness_response] = Returns (Ok (Completion.mk [ContentBlock.text_block (bytes "hi")]
    StopReason.EndTurn None [] None None (Thinking.mk 0))) ∧
  read_anthropic_sse witness_from_str Some (Ok <$> pieces) None (Thinking.mk 0) =
  read_anthropic_sse witness_from_str Some [Ok witness_response] None (Thinking.mk 0).
Proof.
  intros pieces read.
  destruct (sse_chunks_irrelevant witness_from_str Some (bytes "data: ")
    [bytes "answer" ++ [lf]; [lf]] witness_response [] [] (bytes "host") None (Thinking.mk 0)
    eq_refl) as [Hg Ha].
  split; [exact Hg|]. split; [by vm_compute|]. apply Ha. apply N.leb_le. by vm_compute.
Defined.
