(* ===== verification/OpenAi.v ===== *)
(** * The OpenAI transport: [crates/supra_llm/src/providers.rs]

    Requests and answers in the types of the provider's SDK: the replay of a
    conversation, the two transports of an answer and the classes of failures.  The
    SDK's types keep the fields the code sets and reads. *)

From Stdlib Require Import Ascii.
From S2P Require Import Prelude Text Sealing Utf8 Canonical Tool Framing Provider Google.

(** ** The SDK's types *)

Module Sdk.
Record FunctionCall := mkCall { call_id : list byte; call_name : list byte; arguments : list byte }.

Inductive Message :=
| Assistant (content : option (list byte)) (tool_calls : option (list FunctionCall))
| User (content : list byte)
| Tool (content tool_call_id : list byte).

Record FunctionTool (Num : Type) := mkTool {
  tool_name : list byte;
  description : option (list byte);
  parameters : option (Value Num);
}.
Arguments mkTool {Num} tool_name description parameters.

(** [medium] is the one reasoning effort the code asks for. *)
Record Request (Num : Type) := mkRequest {
  messages : list Message;
  model : list byte;
  prompt_cache_key : option (list byte);
  reasoning_medium : bool;
  tools : option (list (FunctionTool Num));
}.
Arguments mkRequest {Num} messages model prompt_cache_key reasoning_medium tools.
Arguments messages {Num} _.
Arguments model {Num} _.

Inductive FinishReason := Stop | Length | ToolCalls | FunctionCallReason | ContentFilter.

Record ReportedUsage := mkUsage {
  prompt_tokens : N; completion_tokens : N; reported_cached : option N }.

Inductive AnswerCall :=
| Function (call : FunctionCall)
| Custom (id name input : list byte).

Record Choice := mkChoice {
  choice_content : option (list byte);
  choice_calls : option (list AnswerCall);
  finish_reason : option FinishReason;
}.

Record Response := mkResponse {
  choices : list Choice;
  response_model : list byte;
  response_id : list byte;
  response_usage : option ReportedUsage;
}.

(** A piece of a call: its index, and what it adds. *)
Record CallDelta := mkDelta {
  delta_index : N;
  delta_id : option (list byte);
  delta_name : option (list byte);
  delta_arguments : option (list byte);
}.

Record ChunkChoice := mkChunkChoice {
  chunk_content : option (list byte);
  chunk_calls : option (list CallDelta);
  chunk_finish : option FinishReason;
}.

Record Chunk := mkChunk {
  chunk_choices : list ChunkChoice;
  chunk_model : list byte;
  chunk_id : list byte;
  chunk_usage : option ReportedUsage;
}.

Inductive Error :=
| ApiError (status : N) (message : list byte)
| Reqwest (message : list byte)
| StreamError (message : list byte)
| JSONDeserialize (message content : list byte)
| InvalidArgument (detail : list byte)
| OtherError (message : list byte).
End Sdk.

Definition OPENAI : list byte := ProviderKind.name ProviderKind.OpenAI.

(** ** Failures *)

Definition blocks_streaming (e : Sdk.Error) : bool :=
  match e with Sdk.ApiError _ _ | Sdk.InvalidArgument _ => false | _ => true end.

Definition map_openai (e : Sdk.Error) : LlmError :=
  match e with
  | Sdk.ApiError status detail =>
      if bool_decide (status = 401 ∨ status = 403)%N then Unauthorized OPENAI (Told detail)
      else if bool_decide (status = 429)%N then RateLimited OPENAI 60000
      else if ((400 <=? status) && (status <? 500))%N then BadResponse OPENAI (Http status detail)
      else Transport OPENAI (Http status detail)
  | Sdk.Reqwest message => Transport OPENAI (Told message)
  | Sdk.StreamError message => BadResponse OPENAI (Told (bytes "stream failed: " ++ message))
  | Sdk.JSONDeserialize message content =>
      BadResponse OPENAI (Told (message ++ bytes ": " ++ concat (take 120 (chars content))))
  | Sdk.InvalidArgument detail => BadResponse OPENAI (Told detail)
  | Sdk.OtherError message => Transport OPENAI (Told message)
  end.

(** ** The request *)

Section request.
Context {Num : Type} `{JsonNumber Num}.
Context (quote : list byte → list byte) (from_str : list byte → result (Value Num) (list byte)).

Definition canonical_tool_value (value : Value Num) : result (list byte) LlmError :=
  map_err (λ e, BadResponse OPENAI (NotCanonical e)) (canonicalize_value quote value).

Definition tool_result_text (content : Value Num) : result (list byte) LlmError :=
  match content with VString text => Ok text | value => canonical_tool_value value end.

Definition block_kind (block : ContentBlock.t Num) : list byte :=
  match block with
  | ContentBlock.Text _ _ => bytes "text with citations"
  | ContentBlock.Thinking _ _ => bytes "thinking"
  | ContentBlock.RedactedThinking _ => bytes "redacted thinking"
  | ContentBlock.ToolUse _ _ _ => bytes "tool use"
  | ContentBlock.ToolResult _ _ _ => bytes "tool result"
  | ContentBlock.Unknown _ => bytes "unknown"
  end.

Definition non_replayable_openai_block (role : string) (block : ContentBlock.t Num) : LlmError :=
  BadResponse OPENAI (NotReplayable (bytes role) (block_kind block)).

Definition empty_openai_message (role : string) : LlmError :=
  BadResponse OPENAI (EmptyMessage (bytes role)).

Definition is_empty {A} (l : list A) : bool := match l with [] => true | _ => false end.

(** The loop over an assistant's blocks, with the text and the calls so far. *)
Fixpoint assistant_blocks (blocks : list (ContentBlock.t Num)) (text : list byte)
    (calls : list Sdk.FunctionCall) : result (list byte * list Sdk.FunctionCall) LlmError :=
  match blocks with
  | [] => Ok (text, calls)
  | ContentBlock.Text part [] :: blocks => assistant_blocks blocks (text ++ part) calls
  | ContentBlock.ToolUse id name input :: blocks =>
      let? arguments := canonical_tool_value input in
      assistant_blocks blocks text (calls ++ [Sdk.mkCall id name arguments])
  | block :: _ => Err (non_replayable_openai_block "assistant" block)
  end.

Definition openai_assistant_message (blocks : list (ContentBlock.t Num)) :
    result Sdk.Message LlmError :=
  let? parts := assistant_blocks blocks [] [] in
  let '(text, calls) := parts in
  if is_empty text && is_empty calls then Err (empty_openai_message "assistant")
  else Ok (Sdk.Assistant (if is_empty text then None else Some text)
             (if is_empty calls then None else Some calls)).

(** [if !text.is_empty() { messages.push(user(take(&mut text))) }]. *)
Definition flush (text : list byte) (messages : list Sdk.Message) : list Sdk.Message :=
  if is_empty text then messages else messages ++ [Sdk.User text].

(** The loop over a user's blocks, with the text not yet sent. *)
Fixpoint user_blocks (blocks : list (ContentBlock.t Num)) (text : list byte)
    (messages : list Sdk.Message) : result (list Sdk.Message) LlmError :=
  match blocks with
  | [] => Ok (flush text messages)
  | ContentBlock.Text part [] :: blocks => user_blocks blocks (text ++ part) messages
  | ContentBlock.ToolResult tool_use_id content _ :: blocks =>
      let? content := tool_result_text content in
      user_blocks blocks [] (flush text messages ++ [Sdk.Tool content tool_use_id])
  | block :: _ => Err (non_replayable_openai_block "user" block)
  end.

Definition openai_user_messages (blocks : list (ContentBlock.t Num)) :
    result (list Sdk.Message) LlmError :=
  let? messages := user_blocks blocks [] [] in
  if is_empty messages then Err (empty_openai_message "user") else Ok messages.

Definition openai_message (message : Message.t Num) : result (list Sdk.Message) LlmError :=
  match Message.role message with
  | Role.Assistant =>
      let? m := openai_assistant_message (Message.content message) in Ok [m]
  | Role.User => openai_user_messages (Message.content message)
  end.

Fixpoint openai_messages (messages : list (Message.t Num)) : result (list Sdk.Message) LlmError :=
  match messages with
  | [] => Ok []
  | message :: messages =>
      let? first := openai_message message in
      let? rest := openai_messages messages in Ok (first ++ rest)
  end.

Definition openai_tool (tool : list byte) : result (Sdk.FunctionTool Num) LlmError :=
  let? parsed := map_err (λ message, BadResponse OPENAI (ToolNotJson message)) (from_str tool) in
  Ok (Sdk.mkTool (default (bytes "tool") (get "name" parsed ≫= as_str))
        (get "description" parsed ≫= as_str)
        (or_else (get "input_schema" parsed) (get "parameters" parsed))).

Fixpoint openai_tool_list (tools : list (list byte)) :
    result (list (Sdk.FunctionTool Num)) LlmError :=
  match tools with
  | [] => Ok []
  | tool :: tools =>
      let? tool := openai_tool tool in
      let? tools := openai_tool_list tools in Ok (tool :: tools)
  end.

Definition openai_tools (r : Request.t Num) : result (option (list (Sdk.FunctionTool Num))) LlmError :=
  if is_empty (Request.tools r) then Ok None
  else let? tools := openai_tool_list (Request.tools r) in Ok (Some tools).

Definition openai_request (r : Request.t Num) (model : list byte)
    (prompt_cache_key : option (list byte)) : result (Sdk.Request Num) LlmError :=
  let? messages := openai_messages (Request.messages r) in
  let? tools := openai_tools r in
  Ok (Sdk.mkRequest messages model prompt_cache_key (Thinking.enabled (Request.thinking r)) tools).
End request.

(** ** The answer *)

Section answer.
Context {Num : Type} (from_str : list byte → result (Value Num) (list byte)).

Definition openai_stop_reason (reason : Sdk.FinishReason) : StopReason.t :=
  match reason with
  | Sdk.Stop => StopReason.EndTurn
  | Sdk.Length => StopReason.MaxTokens
  | Sdk.ToolCalls | Sdk.FunctionCallReason => StopReason.ToolUse
  | Sdk.ContentFilter => StopReason.ContentFilter
  end.

Definition openai_usage (u : Sdk.ReportedUsage) : Usage.t :=
  Usage.mk (Sdk.prompt_tokens u) (Sdk.completion_tokens u) (default 0%N (Sdk.reported_cached u)).

(** Arguments that are no JSON are kept as a string. *)
Definition call_input (arguments : list byte) : Value Num :=
  match from_str arguments with Ok input => input | Err _ => VString arguments end.

Definition openai_tool_call (call : Sdk.AnswerCall) : ContentBlock.t Num :=
  match call with
  | Sdk.Function call =>
      ContentBlock.ToolUse (Sdk.call_id call) (Sdk.call_name call) (call_input (Sdk.arguments call))
  | Sdk.Custom id name input => ContentBlock.ToolUse id name (VString input)
  end.

Definition opt_block (part : option (list byte)) : list (ContentBlock.t Num) :=
  match part with Some part => [ContentBlock.text_block part] | None => [] end.

Definition choice_blocks (choice : Sdk.Choice) : list (ContentBlock.t Num) :=
  opt_block (Sdk.choice_content choice) ++
  (openai_tool_call <$> default [] (Sdk.choice_calls choice)).

Definition blocking_completion (response : Sdk.Response) (thinking : Thinking.t) :
    result (Completion.t Num) LlmError :=
  if is_empty (Sdk.choices response) then Err (BadResponse OPENAI NoChoices)
  else
    let content := concat (choice_blocks <$> Sdk.choices response) in
    let stop_reason :=
      foldl (λ stop_reason choice,
        match Sdk.finish_reason choice with
        | Some reason => openai_stop_reason reason
        | None => stop_reason
        end) StopReason.EndTurn (Sdk.choices response) in
    Ok (Completion.mk content stop_reason None (Sdk.response_model response)
          (Some (Sdk.response_id response)) (openai_usage <$> Sdk.response_usage response) thinking).

(** ** The streamed answer *)

Record OpenAiToolCall := mkToolCall { id : list byte; name : list byte; call_arguments : list byte }.

Definition no_call : OpenAiToolCall := mkToolCall [] [] [].

Record Accumulated := mkAccumulated {
  content : list (ContentBlock.t Num);
  tool_calls : gmap N OpenAiToolCall;
  usage : option Usage.t;
  stop_reason : option StopReason.t;
  model : list byte;
  request_id : option (list byte);
}.

Definition apply_call_delta (calls : gmap N OpenAiToolCall) (delta : Sdk.CallDelta) :
    gmap N OpenAiToolCall :=
  let call := default no_call (calls !! Sdk.delta_index delta) in
  <[Sdk.delta_index delta :=
      mkToolCall (default (id call) (Sdk.delta_id delta))
        (name call ++ default [] (Sdk.delta_name delta))
        (call_arguments call ++ default [] (Sdk.delta_arguments delta))]> calls.

Definition apply_choice (a : Accumulated) (choice : Sdk.ChunkChoice) : Accumulated :=
  mkAccumulated
    (content a ++ opt_block (Sdk.chunk_content choice))
    (foldl apply_call_delta (tool_calls a) (default [] (Sdk.chunk_calls choice)))
    (usage a)
    (match Sdk.chunk_finish choice with
     | Some reason => Some (openai_stop_reason reason)
     | None => stop_reason a
     end)
    (model a) (request_id a).

Definition apply_chunk (a : Accumulated) (chunk : Sdk.Chunk) : Accumulated :=
  let a := mkAccumulated (content a) (tool_calls a) (usage a) (stop_reason a)
             (Sdk.chunk_model chunk) (Some (Sdk.chunk_id chunk)) in
  let a := foldl apply_choice a (Sdk.chunk_choices chunk) in
  mkAccumulated (content a) (tool_calls a)
    (match Sdk.chunk_usage chunk with Some u => Some (openai_usage u) | None => usage a end)
    (stop_reason a) (model a) (request_id a).

Fixpoint apply_chunks (chunks : list (result Sdk.Chunk Sdk.Error)) (a : Accumulated) :
    result Accumulated LlmError :=
  match chunks with
  | [] => Ok a
  | Ok chunk :: chunks => apply_chunks chunks (apply_chunk a chunk)
  | Err e :: _ => Err (map_openai e)
  end.

Definition call_block (call : OpenAiToolCall) : ContentBlock.t Num :=
  ContentBlock.ToolUse (id call) (name call) (call_input (call_arguments call)).

(** [stream_openai], of the chunks the SDK's stream yields. *)
Definition streamed_completion (chunks : list (result Sdk.Chunk Sdk.Error)) (thinking : Thinking.t) :
    result (Completion.t Num) LlmError :=
  let? a := apply_chunks chunks (mkAccumulated [] ∅ None None [] None) in
  match stop_reason a with
  | None =>
      Err (BadResponse OPENAI (if is_empty (content a) then NoEvents else NoTerminalMarker))
  | Some stop_reason =>
      Ok (Completion.mk (content a ++ (call_block <$> (snd <$> btree (tool_calls a))))
            stop_reason None (model a) (request_id a) (usage a) thinking)
  end.
End answer.

(** ** What a conversation says, replayed *)

Section replay.
Context {Num : Type} `{JsonNumber Num}.
Context (quote : list byte → list byte).

(** A user's turn to the last character: characters, and answers to calls between
    them.  [None] is a block that cannot be replayed. *)
Definition said_by_block (block : ContentBlock.t Num) :
    option (list (byte + (list byte * list byte))) :=
  match block with
  | ContentBlock.Text part [] => Some (inl <$> part)
  | ContentBlock.ToolResult id content _ =>
      content ← to_option (tool_result_text quote content); Some [inr (content, id)]
  | _ => None
  end.

Definition said_by_message (m : Sdk.Message) : list (byte + (list byte * list byte)) :=
  match m with
  | Sdk.User text => inl <$> text
  | Sdk.Tool content id => [inr (content, id)]
  | Sdk.Assistant _ _ => []
  end.

(** No empty message, no two of the user in a row, none of the assistant. *)
Fixpoint well_spaced (after_user : bool) (messages : list Sdk.Message) : bool :=
  match messages with
  | [] => true
  | Sdk.User text :: messages => negb after_user && negb (is_empty text) && well_spaced true messages
  | Sdk.Tool _ _ :: messages => well_spaced false messages
  | Sdk.Assistant _ _ :: _ => false
  end.

(** Whether the last message is the user's. *)
Definition ends_in_user (b : bool) (messages : list Sdk.Message) : bool :=
  match last messages with Some (Sdk.User _) => true | Some _ => false | None => b end.

Lemma well_spaced_app b ms ns :
  well_spaced b (ms ++ ns) = well_spaced b ms && well_spaced (ends_in_user b ms) ns.
Proof.
  revert b. induction ms as [|m ms IH]; intros b; [done|].
  assert (He : ends_in_user b (m :: ms) =
    match m with Sdk.User _ => ends_in_user true ms | _ => ends_in_user false ms end).
  { unfold ends_in_user. rewrite last_cons. destruct (last ms); destruct m; done. }
  rewrite He. destruct m; simpl; rewrite ?IH; [done|by rewrite andb_assoc|done].
Qed.

Lemma is_empty_iff {A} (l : list A) : is_empty l = true ↔ l = [].
Proof. by destruct l. Qed.

Lemma flush_said text ms :
  concat (said_by_message <$> flush text ms) = concat (said_by_message <$> ms) ++ (inl <$> text).
Proof.
  unfold flush. destruct text as [|c text]; simpl; [by rewrite app_nil_r|].
  by rewrite fmap_app, concat_app, fmap_cons, fmap_nil; cbn [concat]; rewrite app_nil_r.
Qed.

Lemma flush_spaced text ms :
  well_spaced false ms = true → ends_in_user false ms = false →
  well_spaced false (flush text ms) = true.
Proof.
  intros Hw He. unfold flush. destruct text; [done|]. simpl. by rewrite well_spaced_app, Hw, He.
Qed.

Lemma user_blocks_exact blocks text ms :
  well_spaced false ms = true → ends_in_user false ms = false →
  match mapM said_by_block blocks with
  | Some said => ∃ out, user_blocks quote blocks text ms = Ok out ∧ well_spaced false out = true ∧
      concat (said_by_message <$> out) =
      concat (said_by_message <$> ms) ++ (inl <$> text) ++ concat said
  | None => is_ok (user_blocks quote blocks text ms) = false
  end.
Proof.
  revert text ms. induction blocks as [|b blocks IH]; intros text ms Hw He.
  { simpl. eexists. split; [done|]. split; [by apply flush_spaced|]. rewrite flush_said.
    by rewrite app_nil_r. }
  cbn [mapM]. destruct b as [part [|]| | | |tid content e|]; simpl; try done.
  - specialize (IH (text ++ part) ms Hw He). destruct (mapM said_by_block blocks); simpl; [|done].
    destruct IH as (out & -> & Hs & Hd). exists out. split_and!; [done..|].
    by rewrite Hd, fmap_app, <- !app_assoc.
  - destruct (tool_result_text quote content) as [c|]; simpl; [|done].
    assert (Hw' : well_spaced false (flush text ms ++ [Sdk.Tool c tid]) = true).
    { by rewrite well_spaced_app, flush_spaced. }
    specialize (IH [] (flush text ms ++ [Sdk.Tool c tid]) Hw').
    destruct (mapM said_by_block blocks); simpl; [|apply IH; unfold ends_in_user; by rewrite last_snoc].
    destruct IH as (out & -> & Hs & Hd); [unfold ends_in_user; by rewrite last_snoc|].
    exists out. split_and!; [done..|]. rewrite Hd, fmap_app, concat_app, flush_said. simpl. by rewrite <- !app_assoc.
Qed.

(** The text and the calls of an assistant's turn. *)
Definition assistant_said (block : ContentBlock.t Num) : option (list byte * list Sdk.FunctionCall) :=
  match block with
  | ContentBlock.Text part [] => Some (part, [])
  | ContentBlock.ToolUse id name input =>
      arguments ← to_option (canonical_tool_value quote input);
      Some ([], [Sdk.mkCall id name arguments])
  | _ => None
  end.

Lemma assistant_blocks_exact blocks text calls :
  to_option (assistant_blocks quote blocks text calls) =
  (λ said, (text ++ concat said.*1, calls ++ concat said.*2)) <$> mapM assistant_said blocks.
Proof.
  revert text calls. induction blocks as [|b blocks IH]; intros text calls.
  { simpl. by rewrite !app_nil_r. }
  cbn [mapM]. destruct b as [part [|]| | |id name input| |]; simpl; try done.
  - rewrite IH. destruct (mapM assistant_said blocks); simpl; [|done]. by rewrite <- app_assoc.
  - destruct (canonical_tool_value quote input); simpl; [|done]. rewrite IH.
    destruct (mapM assistant_said blocks); simpl; [|done]. by rewrite <- app_assoc.
Qed.

(** Messages that are well spaced are determined by what they say. *)
Definition no_char {A B} (l : list (A + B)) : Prop := match l with inl _ :: _ => False | _ => True end.

Lemma chars_split {A B} (t t' : list A) (r r' : list (A + B)) :
  no_char r → no_char r' → (inl <$> t) ++ r = (inl <$> t') ++ r' → t = t' ∧ r = r'.
Proof.
  intros Hr Hr'. revert t'. induction t as [|c t IH]; intros [|c' t']; simpl; intros E.
  - done.
  - by subst r.
  - by subst r'.
  - injection E as -> E. apply IH in E as [-> ->]. done.
Qed.

Lemma spaced_no_char ms : well_spaced true ms = true → no_char (concat (said_by_message <$> ms)).
Proof. by destruct ms as [|[] ms]. Qed.

Lemma well_spaced_inj b ms ns :
  well_spaced b ms = true → well_spaced b ns = true →
  concat (said_by_message <$> ms) = concat (said_by_message <$> ns) → ms = ns.
Proof.
  revert b ns. induction ms as [|m ms IH]; intros b [|n ns] Hm Hn E.
  - done.
  - destruct n as [| [|]|]; simpl in *; to_prop; try done; naive_solver.
  - destruct m as [| [|]|]; simpl in *; to_prop; try done; naive_solver.
  - destruct m as [|t|c i], n as [|t'|c' i']; simpl in Hm, Hn; try done.
    + apply andb_true_iff in Hm as [_ Hm], Hn as [_ Hn].
      apply chars_split in E as [-> E]; [|by apply spaced_no_char..].
      f_equal. by apply (IH true).
    + destruct t; [by rewrite andb_false_r in Hm|done].
    + destruct t'; [by rewrite andb_false_r in Hn|done].
    + simpl in E. injection E as -> -> E. f_equal. by apply (IH false).
Qed.

(** A turn is replayed exactly when every block can be and something is said.  A
    user's turn becomes messages that say the same characters and answer the same calls
    in the same order, with no empty message and no two of the user in a row, which
    determines them; an assistant's becomes one message with all its text and its
    calls in order. *)
Theorem openai_replay_exact (blocks : list (ContentBlock.t Num)) :
  (∀ ms, openai_user_messages quote blocks = Ok ms ↔
     ms ≠ [] ∧ well_spaced false ms = true ∧
     (λ said, concat said) <$> mapM said_by_block blocks = Some (concat (said_by_message <$> ms))) ∧
  (∀ m, openai_assistant_message quote blocks = Ok m ↔
     ∃ said, mapM assistant_said blocks = Some said ∧
       let text := concat said.*1 in let calls := concat said.*2 in
       (text ≠ [] ∨ calls ≠ []) ∧
       m = Sdk.Assistant (if is_empty text then None else Some text)
             (if is_empty calls then None else Some calls)).
Proof.
  split.
  - intros ms. unfold openai_user_messages.
    pose proof (user_blocks_exact blocks [] [] eq_refl eq_refl) as H1.
    destruct (mapM said_by_block blocks) as [said|]; simpl in *.
    + destruct H1 as (out & -> & Hw & Hs). simpl in *. split.
      * destruct out as [|m out]; [done|]. intros [= <-]. split_and!; [done..|]. by rewrite <- Hs.
      * intros (Hne & Hms & E). assert (out = ms) as ->.
        { apply (well_spaced_inj false); [done..|]. rewrite Hs. by injection E. }
        by destruct ms.
    + split; [|by intros (_ & _ & ?)]. destruct (user_blocks quote blocks [] []); [done|done].
  - intros m. unfold openai_assistant_message.
    pose proof (assistant_blocks_exact blocks [] []) as H1.
    destruct (assistant_blocks quote blocks [] []) as [[text calls]|]; simpl in H1.
    + destruct (mapM assistant_said blocks) as [said|] eqn:Es; [|done].
      injection H1 as -> ->. simpl. split.
      * destruct (is_empty (concat said.*1)) eqn:E1, (is_empty (concat said.*2)) eqn:E2;
          intros [= <-]; exists said; (split; [done|]); cbn zeta;
          rewrite <- !is_empty_iff, ?E1, ?E2; (split; [naive_solver|done]).
      * intros (said' & [= <-] & Hne & ->). cbn zeta in Hne. rewrite <- !is_empty_iff in Hne.
        destruct (is_empty (concat said.*1)), (is_empty (concat said.*2)); try done. naive_solver.
    + split; [done|]. destruct (mapM assistant_said blocks); [done|]. by intros (? & ? & _).
Qed.
End replay.

(** ** The two transports of an answer *)

Section streamed.
Context {Num : Type} (from_str : list byte → result (Value Num) (list byte)).

Definition all_choices (chunks : list Sdk.Chunk) : list Sdk.ChunkChoice :=
  concat (Sdk.chunk_choices <$> chunks).

Definition call_deltas (chunks : list Sdk.Chunk) : list Sdk.CallDelta :=
  concat ((λ c, default [] (Sdk.chunk_calls c)) <$> all_choices chunks).

(** A call from its own pieces: the last identifier, the names and the arguments
    joined. *)
Definition assembled (deltas : list Sdk.CallDelta) : option OpenAiToolCall :=
  if is_empty deltas then None
  else Some (mkToolCall (default [] (last (omap Sdk.delta_id deltas)))
               (concat (omap Sdk.delta_name deltas)) (concat (omap Sdk.delta_arguments deltas))).

Definition of_index (i : N) (deltas : list Sdk.CallDelta) : list Sdk.CallDelta :=
  List.filter (λ d, bool_decide (Sdk.delta_index d = i)) deltas.

Lemma omap_snoc {A B} (f : A → option B) l x :
  omap f (l ++ [x]) = omap f l ++ match f x with Some y => [y] | None => [] end.
Proof. rewrite omap_app. simpl. by destruct (f x). Qed.

Lemma concat_snoc {A} (l : list (list A)) x : concat (l ++ [x]) = concat l ++ x.
Proof. rewrite concat_app. simpl. by rewrite app_nil_r. Qed.

Lemma assembled_snoc ds d :
  assembled (ds ++ [d]) =
  let call := default no_call (assembled ds) in
  Some (mkToolCall (default (id call) (Sdk.delta_id d)) (name call ++ default [] (Sdk.delta_name d))
          (call_arguments call ++ default [] (Sdk.delta_arguments d))).
Proof.
  assert (Ha : default no_call (assembled ds) = mkToolCall (default [] (last (omap Sdk.delta_id ds)))
      (concat (omap Sdk.delta_name ds)) (concat (omap Sdk.delta_arguments ds))) by by destruct ds.
  cbn zeta. rewrite Ha. unfold assembled. cbn [id name call_arguments].
  replace (is_empty (ds ++ [d])) with false by by destruct ds. rewrite !omap_snoc.
  destruct (Sdk.delta_id d), (Sdk.delta_name d), (Sdk.delta_arguments d); simpl;
    by rewrite ?last_snoc, ?concat_snoc, ?app_nil_r.
Qed.

Lemma call_deltas_lookup ds i :
  foldl apply_call_delta ∅ ds !! i = assembled (of_index i ds).
Proof.
  induction ds as [|d ds IH] using rev_ind; [simpl; by rewrite lookup_empty|].
  rewrite foldl_app. cbn [foldl]. unfold of_index. rewrite List.filter_app. cbn [List.filter].
  unfold apply_call_delta at 1. case_bool_decide as Hi.
  - subst i. rewrite lookup_insert_eq, assembled_snoc. fold (of_index (Sdk.delta_index d) ds).
    by rewrite <- IH.
  - rewrite lookup_insert_ne by done. by rewrite app_nil_r.
Qed.

Lemma apply_chunks_ok chunks a : apply_chunks (Ok <$> chunks) a = Ok (foldl (apply_chunk (Num:=Num)) a chunks).
Proof. revert a. induction chunks as [|c chunks IH]; intros a; [done|]. apply IH. Qed.

(** The pieces an accumulation is made of. *)
Definition last_some {A} (l : list (option A)) (x : option A) : option A :=
  foldl (λ x y, or_else y x) x l.

Lemma last_some_omap {A B} (f : A → option B) l x : last_some (f <$> l) x = or_else (last (omap f l)) x.
Proof.
  unfold last_some. induction l as [|y l IH] using rev_ind; [done|].
  rewrite fmap_app, foldl_app, omap_snoc. simpl. rewrite IH.
  destruct (f y); simpl; [by rewrite last_snoc|by rewrite app_nil_r].
Qed.

Lemma apply_choices_fold cs (a : Accumulated (Num:=Num)) :
  foldl apply_choice a cs =
  mkAccumulated (content a ++ concat ((λ c, opt_block (Sdk.chunk_content c)) <$> cs))
    (foldl apply_call_delta (tool_calls a) (concat ((λ c, default [] (Sdk.chunk_calls c)) <$> cs)))
    (usage a) (last_some ((λ c, openai_stop_reason <$> Sdk.chunk_finish c) <$> cs) (stop_reason a))
    (model a) (request_id a).
Proof.
  revert a. induction cs as [|c cs IH]; intros a; [by destruct a; simpl; rewrite app_nil_r|].
  rewrite !fmap_cons. cbn [foldl concat]. rewrite IH. cbn [content tool_calls usage stop_reason model request_id apply_choice].
  rewrite foldl_app, <- app_assoc. unfold last_some. cbn [foldl].
  f_equal. by destruct (Sdk.chunk_finish c).
Qed.

Lemma apply_chunks_fold chunks (a : Accumulated (Num:=Num)) :
  foldl apply_chunk a chunks =
  mkAccumulated
    (content a ++ concat ((λ c, opt_block (Sdk.chunk_content c)) <$> all_choices chunks))
    (foldl apply_call_delta (tool_calls a) (call_deltas chunks))
    (last_some ((λ c, openai_usage <$> Sdk.chunk_usage c) <$> chunks) (usage a))
    (last_some ((λ c, openai_stop_reason <$> Sdk.chunk_finish c) <$> all_choices chunks)
       (stop_reason a))
    (default (model a) (Sdk.chunk_model <$> last chunks))
    (or_else (Sdk.chunk_id <$> last chunks) (request_id a)).
Proof.
  unfold call_deltas, all_choices. induction chunks as [|c chunks IH] using rev_ind.
  { destruct a; simpl. by rewrite app_nil_r. }
  rewrite foldl_app, IH, last_snoc, !fmap_app. cbn [foldl]. unfold apply_chunk at 1.
  rewrite apply_choices_fold. cbn [content tool_calls usage stop_reason model request_id].
  rewrite !concat_app. cbn [fmap list_fmap concat]. rewrite !app_nil_r, !fmap_app, !concat_app, foldl_app.
  unfold last_some. rewrite !foldl_app, <- app_assoc. f_equal. simpl. by destruct (Sdk.chunk_usage c).
Qed.

Lemma opt_blocks cs :
  concat ((λ c, opt_block (Sdk.chunk_content c)) <$> cs) =
  ContentBlock.text_block (Num:=Num) <$> omap Sdk.chunk_content cs.
Proof.
  induction cs as [|c cs IH]; [done|]. rewrite fmap_cons. cbn [concat omap list_omap]. rewrite IH.
  by destruct (Sdk.chunk_content c).
Qed.

Lemma omap_fmap_last {A B C} (f : A → option B) (g : B → C) l :
  last (omap (λ c, g <$> f c) l) = g <$> last (omap f l).
Proof.
  induction l as [|x l IH] using rev_ind; [done|]. rewrite !omap_snoc.
  destruct (f x); simpl; [by rewrite !last_snoc|by rewrite !app_nil_r].
Qed.

(** A stream that ends after any chunks gives every text in its order, then every
    call in the order of the indices with its own pieces joined, however the pieces of
    different calls were interleaved, under the last reason; it is refused when no
    chunk gave a reason, and as the failure's class when it fails on the way. *)
Theorem openai_stream_exact (chunks : list Sdk.Chunk) (thinking : Thinking.t) :
  (∃ calls : gmap N OpenAiToolCall,
    (∀ i, calls !! i = assembled (of_index i (call_deltas chunks))) ∧
    streamed_completion from_str (Ok <$> chunks) thinking =
    match last (omap Sdk.chunk_finish (all_choices chunks)) with
    | None =>
        Err (BadResponse OPENAI
          (if is_empty (omap Sdk.chunk_content (all_choices chunks)) then NoEvents
           else NoTerminalMarker))
    | Some reason =>
        Ok (Completion.mk
          ((ContentBlock.text_block <$> omap Sdk.chunk_content (all_choices chunks)) ++
           (call_block from_str <$> (snd <$> btree calls)))
          (openai_stop_reason reason) None (default [] (Sdk.chunk_model <$> last chunks))
          (Sdk.chunk_id <$> last chunks) (openai_usage <$> last (omap Sdk.chunk_usage chunks))
          thinking)
    end) ∧
  (∀ e rest, streamed_completion from_str ((Ok <$> chunks) ++ Err e :: rest) thinking =
     Err (map_openai e)).
Proof.
  split.
  - exists (foldl apply_call_delta ∅ (call_deltas chunks)). split; [apply call_deltas_lookup|].
    unfold streamed_completion. rewrite apply_chunks_ok. cbn [result_bind].
    rewrite apply_chunks_fold. cbn [content tool_calls usage stop_reason model request_id app].
    rewrite !last_some_omap, !omap_fmap_last, opt_blocks.
    destruct (last (omap Sdk.chunk_finish (all_choices chunks))); simpl.
    + f_equal. f_equal; [by destruct (last chunks)|by destruct (last (omap Sdk.chunk_usage chunks))].
    + by destruct (omap Sdk.chunk_content (all_choices chunks)).
  - intros e rest. unfold streamed_completion.
    generalize (mkAccumulated (Num:=Num) [] ∅ None None [] None) as a.
    induction chunks as [|c chunks IH]; intros a; [done|]. apply IH.
Qed.

(** An answer without a reason is a completed turn on the blocking transport and a
    refusal on the streaming one, and two pieces of text are one block or two. *)
Lemma transports_differ (thinking : Thinking.t) :
  let said := Some (bytes "hi") in
  is_ok (blocking_completion from_str
    (Sdk.mkResponse [Sdk.mkChoice said None None] [] [] None) thinking) = true ∧
  streamed_completion from_str [Ok (Sdk.mkChunk [Sdk.mkChunkChoice said None None] [] [] None)]
    thinking = Err (BadResponse OPENAI NoTerminalMarker).
Proof. done. Qed.
End streamed.
