(* ===== verification/Llm.v ===== *)
(** * Sending a request: [crates/supra_llm/src/{client,providers}.rs]

    The checks in front of a call, the transport of each provider and the classes a
    failure falls into.  The HTTP library and the SDK are functions from a call to its
    answer; what a request makes of them is the list of its calls, each with the
    credential it carries. *)

From Stdlib Require Import Ascii.
From S2P Require Import Prelude Text Sealing Utf8 Canonical Tool Config Framing Provider Sse Anthropic Google OpenAi.

Record HttpRequest := mkHttpRequest {
  url : list byte;
  request_headers : list (string * list byte);
  http_body : list byte;
}.

Record HttpResponse := mkHttpResponse {
  status : N;
  response_headers : headers;
  (** [response.text()]. *)
  response_text : option (list byte);
  response_chunks : list (result (list byte) (list byte));
  response_host : option (list byte);
}.

Inductive Call (Num : Type) :=
| Post (request : HttpRequest)
| Create (base : option (list byte)) (key : list byte) (request : Sdk.Request Num)
| CreateStream (base : option (list byte)) (key : list byte) (request : Sdk.Request Num).
Arguments Post {Num} request.
Arguments Create {Num} base key request.
Arguments CreateStream {Num} base key request.

Definition is_success (status : N) : bool := ((200 <=? status) && (status <? 300))%N.
Definition is_server_error (status : N) : bool := ((500 <=? status) && (status <? 600))%N.

(** What the status alone decides. *)
Definition refused_status (provider : list byte) (response : HttpResponse) : option LlmError :=
  if bool_decide (status response = 401 ∨ status response = 403)%N then
    Some (Unauthorized provider (HttpStatus (status response)))
  else if bool_decide (status response = 429)%N then
    Some (RateLimited provider (retry_after_ms (response_headers response)))
  else None.

Definition http_detail (response : HttpResponse) : Detail :=
  Http (status response) (default [] (response_text response)).

Section send.
Context {Num : Type} `{JsonNumber Num}.
Context (quote : list byte → list byte) (of_u64 : N → Num) (as_u64 : Num → option N).
Context (from_str : list byte → result (Value Num) (list byte)).
Context (header_value_ok : list byte → bool).
Context (post : HttpRequest → result HttpResponse (list byte)).
Context (create : option (list byte) → list byte → Sdk.Request Num → result Sdk.Response Sdk.Error).
Context (create_stream : option (list byte) → list byte → Sdk.Request Num →
  result (list (result Sdk.Chunk Sdk.Error)) Sdk.Error).

#[local] Abbreviation outcome := (Outcome (result (Completion.t Num) LlmError)).
#[local] Abbreviation sent := (list (Call Num) * outcome)%type.

Definition refuse (e : LlmError) : outcome := Returns (Err e).

(** ** Anthropic *)

Definition anthropic_body (request : Request.t Num) (model : list byte) : result (list byte) LlmError :=
  let? renderer := Client.new (ProviderKind.name ProviderKind.Anthropic) [] model
                     (Thinking.budget_tokens (Request.thinking request)) in
  map_err (λ e, BadResponse (ProviderKind.name ProviderKind.Anthropic) (NotCanonical e))
    (render_body quote of_u64 from_str renderer request).

Definition anthropic_headers (credential : list byte) : list (string * list byte) :=
  [("content-type", bytes "application/json"); ("accept", bytes "text/event-stream");
   ("x-api-key", credential); ("anthropic-version", bytes "2023-06-01")].

Definition header_request_id (h : headers) : option (list byte) :=
  default None (or_else (h "request-id") (h "x-request-id")).

Definition anthropic_answer (answer : result HttpResponse (list byte)) (thinking : Thinking.t) :
    outcome :=
  let provider := ProviderKind.name ProviderKind.Anthropic in
  match answer with
  | Err error => refuse (Transport provider (Told error))
  | Ok response =>
      match refused_status provider response with
      | Some e => refuse e
      | None =>
          if negb (is_success (status response)) then
            refuse (BadResponse provider (http_detail response))
          else read_anthropic_sse from_str as_u64 (response_chunks response)
                 (header_request_id (response_headers response)) thinking
      end
  end.

Definition send_anthropic (request : Request.t Num) (endpoint : option (list byte))
    (model : list byte) (thinking : Thinking.t) (credential : list byte) : sent :=
  match anthropic_body request model with
  | Err e => ([], refuse e)
  | Ok body =>
      let r := mkHttpRequest (anthropic_messages_endpoint endpoint) (anthropic_headers credential)
                 body in
      ([Post r], anthropic_answer (post r) thinking)
  end.

(** ** OpenAI *)

Definition send_openai (request : Request.t Num) (endpoint : option (list byte)) (model : list byte)
    (thinking : Thinking.t) (prompt_cache_key : option (list byte)) (credential : list byte) : sent :=
  let base := openai_base <$> endpoint in
  match openai_request quote from_str request model prompt_cache_key with
  | Err e => ([], refuse e)
  | Ok r =>
      match create base credential r with
      | Ok response => ([Create base credential r], Returns (blocking_completion from_str response thinking))
      | Err e =>
          if blocks_streaming e then
            ([Create base credential r; CreateStream base credential r],
             Returns (match create_stream base credential r with
                      | Ok chunks => streamed_completion from_str chunks thinking
                      | Err e => Err (map_openai e)
                      end))
          else ([Create base credential r], refuse (map_openai e))
      end
  end.

(** ** Google *)

Definition legacy_answer (provider : list byte) (answer : result HttpResponse (list byte))
    (thinking : Thinking.t) : outcome :=
  match answer with
  | Err error => refuse (Transport provider (Told error))
  | Ok response =>
      match refused_status provider response with
      | Some e => refuse e
      | None =>
          if negb (is_success (status response)) then
            refuse (if is_server_error (status response) then Transport provider (http_detail response)
                    else BadResponse provider (http_detail response))
          else read_google_sse from_str as_u64 (default (bytes "unknown") (response_host response))
                 thinking (response_chunks response)
      end
  end.

Definition send_legacy (c : Client.t) (request : Request.t Num) (credential : list byte) : sent :=
  let provider := ProviderKind.name (Client.provider c) in
  match render_body quote of_u64 from_str c request with
  | Err e => ([], refuse (BadResponse provider (NotCanonical e)))
  | Ok body =>
      let r := mkHttpRequest (Client.endpoint c)
        ([("content-type", bytes "application/json"); ("accept", bytes "text/event-stream")] ++
         auth_headers header_value_ok (Client.provider c) credential) body in
      ([Post r], legacy_answer provider (post r) (Request.thinking request))
  end.

(** ** Dispatch *)

Definition send (c : Client.t) (request : Request.t Num) (credential : list byte) : sent :=
  match (let? _ := Client.check_provider c request in Request.check request) with
  | Err e => ([], refuse e)
  | Ok _ =>
      match Client.provider c with
      | ProviderKind.Anthropic =>
          send_anthropic request (sdk_endpoint (Client.endpoint c)) (Client.model c)
            (Request.thinking request) credential
      | ProviderKind.OpenAI =>
          send_openai request (sdk_endpoint (Client.endpoint c)) (Client.model c)
            (Request.thinking request) (Some (bytes "supra-prefix")) credential
      | ProviderKind.Google => send_legacy c request credential
      end
  end.

(** [env_var] is the process environment, [keyring] the secret store. *)
Definition send_with_config (c : Client.t) (config : Config.t)
    (env_var keyring : list byte → option (list byte)) (request : Request.t Num) : sent :=
  match Client.check_provider c request with
  | Err e => ([], refuse e)
  | Ok _ =>
      match provider_secret env_var keyring (λ text, text) (ProviderKind.name (Client.provider c)) config with
      | Err e => ([], refuse (Credential e))
      | Ok credential => send c request credential
      end
  end.

(** ** Properties *)

(** The credential a call shows the peer. *)
Definition shows (call : Call Num) (secret : list byte) : Prop :=
  match call with
  | Post r =>
      ∀ name value, (name, value) ∈ request_headers r →
        value = secret ∨ value = bytes "Bearer " ++ secret ∨ value = bytes "application/json" ∨
        value = bytes "text/event-stream" ∨ value = bytes "2023-06-01" ∨
        value = bytes "invalid-credential"
  | Create _ key _ | CreateStream _ key _ => key = secret
  end.

(** A call goes to the provider's own place: the client's endpoint, or its default. *)
Definition goes_to (c : Client.t) (call : Call Num) : Prop :=
  match call, Client.provider c with
  | Post r, ProviderKind.Anthropic =>
      url r = anthropic_messages_endpoint (sdk_endpoint (Client.endpoint c))
  | Post r, ProviderKind.Google => url r = Client.endpoint c
  | Create base _ _, ProviderKind.OpenAI | CreateStream base _ _, ProviderKind.OpenAI =>
      base = openai_base <$> sdk_endpoint (Client.endpoint c)
  | _, _ => False
  end.

(** At most one call, or the same request once more as a stream. *)
Definition at_most_retried (calls : list (Call Num)) : Prop :=
  match calls with
  | [] | [_] => True
  | [Create base key r; CreateStream base' key' r'] =>
      base' = base ∧ key' = key ∧ r' = r ∧
      ∃ e, create base key r = Err e ∧ blocks_streaming e = true
  | _ => False
  end.

Lemma auth_headers_show kind credential name value :
  (name, value) ∈ auth_headers header_value_ok kind credential →
  value = credential ∨ value = bytes "Bearer " ++ credential ∨ value = bytes "2023-06-01" ∨
  value = bytes "invalid-credential".
Proof. unfold auth_headers. repeat case_match; set_solver. Qed.

Lemma send_calls c request credential :
  let '(calls, _) := send c request credential in
  at_most_retried calls ∧
  ∀ call, call ∈ calls →
    shows call credential ∧ goes_to c call ∧ Request.provider request = Client.provider c ∧
    Request.check request = Ok tt.
Proof.
  unfold send, goes_to. destruct (result_bind _ _) as [[]|e] eqn:E; [|split; [done|set_solver]].
  apply result_bind_Ok in E as ([] & Hp & Hc). unfold Client.check_provider in Hp.
  case_bool_decide as Hprovider; [|done]. destruct (Client.provider c) eqn:Ek.
  - unfold send_anthropic. destruct (anthropic_body _ _); [|split; [done|set_solver]].
    split; [done|]. intros call ->%list_elem_of_singleton. split_and!; [|done..].
    intros name value Hin. cbn [request_headers anthropic_headers] in Hin. set_solver.
  - unfold send_openai. destruct (openai_request _ _ _ _ _) as [r|]; [|split; [done|set_solver]].
    destruct (create _ _ r) as [response|e] eqn:Ee.
    + split; [done|]. by intros call ->%list_elem_of_singleton.
    + destruct (blocks_streaming e) eqn:Eb.
      * split; [split_and!; eauto|]. intros call [Hin|Hin]%elem_of_cons; [by subst|].
        by apply list_elem_of_singleton in Hin as ->.
      * split; [done|]. by intros call ->%list_elem_of_singleton.
  - unfold send_legacy. destruct (render_body _ _ _ _ _); [|split; [done|set_solver]].
    split; [done|]. intros call ->%list_elem_of_singleton. split_and!; [|done..].
    intros name value Hin. cbn [request_headers app] in Hin.
    rewrite !elem_of_cons in Hin. destruct Hin as [E|[E|Hin]]; [naive_solver..|].
    apply auth_headers_show in Hin. naive_solver.
Qed.

(** C21. A request for another provider makes no call and does not depend on any secret;
    every call a request makes goes to the client's own endpoint with the secret
    configured for the client's provider, after the request passed its checks; and a
    request is made once, or once more as a stream when the SDK failed without the
    provider refusing it. *)
Theorem credential_confined c config env_var keyring request :
  let '(calls, answer) := send_with_config c config env_var keyring request in
  (Request.provider request ≠ Client.provider c →
   calls = [] ∧ answer = Returns (Err (ProviderMismatch (ProviderKind.name (Client.provider c))
     (ProviderKind.name (Request.provider request))))) ∧
  at_most_retried calls ∧
  ∀ call, call ∈ calls → ∃ secret,
    provider_secret env_var keyring (λ text, text) (ProviderKind.name (Client.provider c)) config
      = Ok secret ∧
    shows call secret ∧ goes_to c call ∧ Request.provider request = Client.provider c ∧
    Request.check request = Ok tt.
Proof.
  unfold send_with_config. unfold Client.check_provider at 1. case_bool_decide as Hp.
  - destruct (provider_secret _ _ _ _ _) as [secret|e] eqn:Es; [|split; [done|split; [done|set_solver]]].
    pose proof (send_calls c request secret) as Hs. destruct (send c request secret) as [calls answer].
    destruct Hs as [Hr Hs]. split; [done|]. split; [done|]. intros call Hcall. exists secret.
    split; [done|]. by apply Hs.
  - split; [done|]. split; [done|set_solver].
Qed.

(** An answer of the provider's servers that failed is to be retried on one path and not
    on the other. *)
Lemma server_error_classes_differ thinking :
  let response := mkHttpResponse 503 (λ _, None) None [] None in
  (∃ detail, anthropic_answer (Ok response) thinking =
     refuse (BadResponse (ProviderKind.name ProviderKind.Anthropic) detail)) ∧
  (∃ detail, legacy_answer (ProviderKind.name ProviderKind.Google) (Ok response) thinking =
     refuse (Transport (ProviderKind.name ProviderKind.Google) detail)).
Proof. split; eexists; reflexivity. Qed.
End send.

(** The wait a provider asks for may be none at all. *)
Lemma retry_after_zero :
  retry_after_ms (λ name, if bool_decide (name = "retry-after") then Some (Some (bytes "0")) else None)
  = 0%N.
Proof. by vm_compute. Qed.

(** ** A concrete request *)

Definition witness_client : Client.t :=
  Client.mk CachePolicy.openai [] DEFAULT_OPENAI_MODEL (Thinking.mk 0).

Definition witness_request (kind : ProviderKind.t) : Request.t N :=
  Request.mk kind [] [Message.text Role.User (bytes "hi")] [] (Thinking.mk 0) [].

Definition witness_config : Config.t :=
  Config.mk 0 1 default_mode 93
    {[ProviderKind.name ProviderKind.OpenAI := mkProvider None None (Some (bytes "KEY")) None]} [] ∅.

Definition witness_env (name : list byte) : option (list byte) :=
  if bool_decide (name = bytes "KEY") then Some (bytes "secret") else None.

(** The SDK fails on the way to the provider, so the request goes out twice. *)
Definition witness_send (kind : ProviderKind.t) :=
  send_with_config (λ text, text) (λ n, n) Some (λ _, Err []) (λ _, true)
    (λ _, Err []) (λ _ _ _, Err (Sdk.Reqwest [])) (λ _ _ _, Ok [])
    witness_client witness_config witness_env (λ _, None) (witness_request kind).

Lemma credential_confined_witness :
  let calls := (witness_send ProviderKind.OpenAI).1 in
  length calls = 2 ∧
  (∀ call, call ∈ calls → ∃ secret,
     provider_secret witness_env (λ _, None) (λ text, text) OPENAI witness_config = Ok secret ∧
     shows call secret) ∧
  (witness_send ProviderKind.Google).1 = [].
Proof.
  intros calls.
  pose proof (credential_confined (λ text, text) (λ n, n) Some (λ _, Err []) (λ _, true)
    (λ _, Err []) (λ _ _ _, Err (Sdk.Reqwest [])) (λ _ _ _, Ok [])
    witness_client witness_config witness_env (λ _, None)) as Hc.
  split; [by vm_compute|]. split.
  - intros call Hcall. specialize (Hc (witness_request ProviderKind.OpenAI)).
    fold (witness_send ProviderKind.OpenAI) in Hc. unfold calls in Hcall.
    destruct (witness_send ProviderKind.OpenAI) as [cs answer]. destruct Hc as (_ & _ & Hc).
    destruct (Hc call Hcall) as (secret & Hs & Hshow & _). exists secret. split; [exact Hs|exact Hshow].
  - specialize (Hc (witness_request ProviderKind.Google)).
    fold (witness_send ProviderKind.Google) in Hc.
    destruct (witness_send ProviderKind.Google) as [cs answer].
    destruct Hc as (Hc & _). apply Hc. by vm_compute.
Defined.
