(* ===== verification/Hook.v ===== *)
(** * Hooks: [crates/supra_hook]

    The lifecycle points ([point.rs]), and the registry: which hooks it takes, how a
    command line becomes words and what firing a point runs ([registry.rs]).  Starting
    a process is a function from what it is given to how it ended. *)

From Stdlib Require Import Ascii.
From S2P Require Import Prelude Text Sealing Utf8.

(** ** Points: [point.rs] *)

Inductive HookPoint :=
| SessionStart | SessionEnd | TurnStart | TurnEnd
| BeforeTool | AfterTool | BeforeEvict | AfterCacheBreak.

#[export] Instance HookPoint_eq_dec : EqDecision HookPoint.
Proof. solve_decision. Defined.

Inductive HookError :=
| UnknownPoint (name : list byte)
| NotPrefixSafe (point : HookPoint)
| BlankCommand
| Exited (command : list byte) (code : Z)
| NotStarted (command error : list byte).

Module HookPoint.
Definition ALL : list HookPoint :=
  [SessionStart; SessionEnd; TurnStart; TurnEnd; BeforeTool; AfterTool; BeforeEvict; AfterCacheBreak].

Definition is_prefix_safe (p : HookPoint) : bool :=
  match p with SessionStart | SessionEnd | TurnStart | TurnEnd => true | _ => false end.

Definition name (p : HookPoint) : list byte :=
  bytes match p with
        | SessionStart => "session-start"
        | SessionEnd => "session-end"
        | TurnStart => "turn-start"
        | TurnEnd => "turn-end"
        | BeforeTool => "before-tool"
        | AfterTool => "after-tool"
        | BeforeEvict => "before-evict"
        | AfterCacheBreak => "after-cache-break"
        end.

Definition parse (text : list byte) : result HookPoint HookError :=
  ok_or (List.find (λ p, bool_decide (name p = text)) ALL) (UnknownPoint text).
End HookPoint.

Inductive HookOutcome := Continue | Stop.

(** ** Words of a command line *)

Definition single_quote : list byte := ["039"%char].
Definition double_quote : list byte := ["034"%char].
Definition escape_mark : list byte := ["092"%char].

Module Words.
Record t := mk {
  words : list (list byte);
  current : list byte;
  quote : option (list byte);
  escaped : bool;
}.

Definition start : t := mk [] [] None false.

Definition push (character : list byte) (escaped : bool) (s : t) : t :=
  mk (words s) (current s ++ character) (quote s) escaped.

Definition is_empty (l : list byte) : bool := match l with [] => true | _ => false end.

(** One round of the loop over the characters. *)
Definition step (s : t) (character : list byte) : t :=
  if escaped s then push character false s
  else if bool_decide (character = escape_mark) && negb (bool_decide (quote s = Some single_quote))
  then mk (words s) (current s) (quote s) true
  else if bool_decide (Some character = quote s) then mk (words s) (current s) None (escaped s)
  else if bool_decide (character = single_quote) ||
          (bool_decide (character = double_quote) && bool_decide (quote s = None))
  then mk (words s) (current s) (Some character) (escaped s)
  else if is_white character && bool_decide (quote s = None) then
    if is_empty (current s) then s else mk (words s ++ [current s]) [] (quote s) (escaped s)
  else push character (escaped s) s.

Definition finish (s : t) : list (list byte) :=
  if is_empty (current s) then words s else words s ++ [current s].
End Words.

Definition shell_words (line : list byte) : list (list byte) :=
  Words.finish (foldl Words.step Words.start (chars line)).

(** ** The registry: [registry.rs] *)

Record Hook := mkHook { point : HookPoint; command : list byte }.

Module Registry.
(** The hooks of each point, in the order they were registered. *)
Definition t : Type := list (HookPoint * list Hook).

Definition new : t := [].

Definition at_ (p : HookPoint) (r : t) : list Hook :=
  default [] (snd <$> List.find (λ e, bool_decide (e.1 = p)) r).

(** [self.hooks.entry(point).or_default().push(hook)]. *)
Fixpoint push (hook : Hook) (r : t) : t :=
  match r with
  | [] => [(point hook, [hook])]
  | (p, hooks) :: r =>
      if bool_decide (p = point hook) then (p, hooks ++ [hook]) :: r else (p, hooks) :: push hook r
  end.

Definition register (hook : Hook) (r : t) : t * result unit HookError :=
  if negb (HookPoint.is_prefix_safe (point hook)) then (r, Err (NotPrefixSafe (point hook)))
  else if is_blank (command hook) then (r, Err BlankCommand)
  else (push hook r, Ok tt).

Definition register_named (point command : list byte) (r : t) : t * result unit HookError :=
  match HookPoint.parse point with
  | Err e => (r, Err e)
  | Ok point => register (mkHook point command) r
  end.

Definition len (r : t) : nat := foldl (λ n e, n + length e.2) 0 r.
Definition is_empty (r : t) : bool := len r =? 0.
End Registry.

(** What a hook's process is given: its words, its whole environment, its input. *)
Record Spawn := mkSpawn {
  program : list byte;
  args : list (list byte);
  environment : list (string * list byte);
  stdin : list byte;
}.

(** How it ended: it was not started, it exited with a code, or a signal ended it. *)
Inductive Run := SpawnFailed (error : list byte) | Code (code : Z) | Killed.

Section fire.
Context {Event : Type}.
(** [serde_json::to_string] of the event, when it does not fail. *)
Context (to_string : Event → option (list byte)).
(** [PATH] and [HOME] of the program's own environment. *)
Context (path home : option (list byte)) (run : Spawn → Run).

Record HookContext := mkContext { event : Event; turn_count : N }.

Definition spawn_of (p : HookPoint) (context : HookContext) (hook : Hook) : option Spawn :=
  match shell_words (command hook) with
  | [] => None
  | program :: rest =>
      Some (mkSpawn program rest
        [("SUPRA_HOOK_POINT", HookPoint.name p); ("SUPRA_TURN_COUNT", dec (turn_count context));
         ("PATH", default (bytes "/usr/bin:/bin") path); ("HOME", default [] home)]
        (default (bytes "{}") (to_string (event context))))
  end.

(** [failure.get_or_insert(error)]. *)
Definition first_failure (failure : option HookError) (error : HookError) : option HookError :=
  match failure with Some e => Some e | None => Some error end.

(** One hook: what is started, the outcome and the failure so far. *)
Definition fire_one (p : HookPoint) (context : HookContext)
    (s : list Spawn * HookOutcome * option HookError) (hook : Hook) :
    list Spawn * HookOutcome * option HookError :=
  let '(started, outcome, failure) := s in
  match spawn_of p context hook with
  | None => s
  | Some spawn =>
      let started := started ++ [spawn] in
      match run spawn with
      | Code code =>
          if bool_decide (code = 0)%Z then (started, outcome, failure)
          else if bool_decide (code = 42)%Z then (started, Stop, failure)
          else (started, outcome, first_failure failure (Exited (command hook) code))
      | Killed => (started, outcome, first_failure failure (Exited (command hook) (-1)))
      | SpawnFailed error => (started, outcome, first_failure failure (NotStarted (command hook) error))
      end
  end.

Definition fire (p : HookPoint) (context : HookContext) (r : Registry.t) :
    list Spawn * result HookOutcome HookError :=
  let '(started, outcome, failure) :=
    foldl (fire_one p context) ([], Continue, None) (Registry.at_ p r) in
  (started, match failure with Some error => Err error | None => Ok outcome end).

(** ** Properties *)

(** What a hook adds to a firing: nothing, a request to stop, or a failure. *)
Definition stops (p : HookPoint) (context : HookContext) (hook : Hook) : bool :=
  match spawn_of p context hook with
  | Some spawn => match run spawn with Code code => bool_decide (code = 42)%Z | _ => false end
  | None => false
  end.

Definition failure_of (p : HookPoint) (context : HookContext) (hook : Hook) : option HookError :=
  spawn ← spawn_of p context hook;
  match run spawn with
  | Code code =>
      if bool_decide (code = 0 ∨ code = 42)%Z then None else Some (Exited (command hook) code)
  | Killed => Some (Exited (command hook) (-1))
  | SpawnFailed error => Some (NotStarted (command hook) error)
  end.

Lemma fire_one_eq p context started outcome failure hook :
  fire_one p context (started, outcome, failure) hook =
  (started ++ match spawn_of p context hook with Some s => [s] | None => [] end,
   if stops p context hook then Stop else outcome,
   match failure with Some e => Some e | None => failure_of p context hook end).
Proof.
  unfold fire_one, stops, failure_of.
  destruct (spawn_of p context hook) as [spawn|]; [|by rewrite app_nil_r; destruct failure].
  cbn [mbind option_bind]. destruct (run spawn) as [error|code|]; [by destruct failure| |by destruct failure].
  destruct (decide (code = 0)%Z) as [->|H0]; [by destruct failure|].
  rewrite (bool_decide_eq_false_2 (code = 0)%Z) by done.
  destruct (decide (code = 42)%Z) as [->|H42]; [by destruct failure|].
  rewrite (bool_decide_eq_false_2 (code = 42)%Z), bool_decide_eq_false_2 by naive_solver.
  by destruct failure.
Qed.

Lemma fire_fold p context hooks started outcome failure :
  foldl (fire_one p context) (started, outcome, failure) hooks =
  (started ++ omap (spawn_of p context) hooks,
   if existsb (stops p context) hooks then Stop else outcome,
   match failure with Some e => Some e | None => head (omap (failure_of p context) hooks) end).
Proof.
  revert started outcome failure. induction hooks as [|hook hooks IH]; intros started outcome failure.
  { simpl. rewrite app_nil_r. by destruct failure. }
  cbn [foldl]. rewrite fire_one_eq, IH, <- app_assoc. cbn [existsb omap list_omap].
  f_equal; [f_equal|].
  - by destruct (spawn_of p context hook).
  - by destruct (stops p context hook), (existsb (stops p context) hooks).
  - destruct failure; [done|]. by destruct (failure_of p context hook).
Qed.

(** The accepted hooks of a history of registrations. *)
Definition accepted (hook : Hook) : bool :=
  HookPoint.is_prefix_safe (point hook) && negb (is_blank (command hook)).

Lemma at_push p hook r :
  Registry.at_ p (Registry.push hook r) =
  Registry.at_ p r ++ (if bool_decide (point hook = p) then [hook] else []).
Proof.
  unfold Registry.at_. induction r as [|[q hooks] r IH]; cbn [Registry.push List.find].
  - cbn. by case_bool_decide.
  - destruct (decide (q = point hook)) as [->|Hq].
    + rewrite bool_decide_eq_true_2 by done. cbn [List.find fst]. case_bool_decide; [done|].
      by rewrite app_nil_r.
    + rewrite bool_decide_eq_false_2 by done. cbn [List.find fst].
      destruct (decide (q = p)) as [->|Hp].
      * rewrite bool_decide_eq_true_2, bool_decide_eq_false_2 by congruence. by rewrite app_nil_r.
      * by rewrite (bool_decide_eq_false_2 (q = p)).
Qed.

Lemma registered p history :
  Registry.at_ p (foldl (λ r hook, (Registry.register hook r).1) Registry.new history) =
  List.filter (λ hook, accepted hook && bool_decide (point hook = p)) history.
Proof.
  induction history as [|hook history IH] using rev_ind; [done|].
  rewrite foldl_app, List.filter_app. cbn [foldl List.filter].
  unfold Registry.register at 1, accepted at 2.
  destruct (HookPoint.is_prefix_safe (point hook)), (is_blank (command hook)); cbn [negb andb fst];
    rewrite ?app_nil_r; [done| |done|done].
  rewrite at_push, IH. done.
Qed.

(** Whatever is registered, a point runs the hooks that were accepted for it, each
    once and in order, with nothing but the four variables in their environment, and a
    point inside the prefix runs none; no hook keeps another from running, the first
    failure is reported, and without one the answer is to stop exactly when a hook
    asked for it. *)
Theorem hooks_fire_exact (p : HookPoint) (context : HookContext) (history : list Hook) :
  let r := foldl (λ r hook, (Registry.register hook r).1) Registry.new history in
  let hooks := List.filter (λ hook, accepted hook && bool_decide (point hook = p)) history in
  let '(started, answer) := fire p context r in
  started = omap (spawn_of p context) hooks ∧
  (HookPoint.is_prefix_safe p = false → started = []) ∧
  Forall (λ s, (environment s).*1 = ["SUPRA_HOOK_POINT"; "SUPRA_TURN_COUNT"; "PATH"; "HOME"]) started ∧
  answer = match head (omap (failure_of p context) hooks) with
           | Some error => Err error
           | None => Ok (if existsb (stops p context) hooks then Stop else Continue)
           end.
Proof.
  cbn zeta. unfold fire. rewrite registered, fire_fold. cbn [app]. split_and!; [done| | |done].
  - intros Hp. replace (List.filter _ history) with (@nil Hook); [done|]. symmetry.
    induction history as [|hook history IH]; [done|]. cbn [List.filter]. rewrite IH.
    unfold accepted. case_bool_decide as E; [|by rewrite andb_false_r]. by rewrite E, Hp.
  - apply Forall_forall. intros s (hook & _ & Hs)%list_elem_of_omap.
    unfold spawn_of in Hs. by destruct (shell_words (command hook)); simplify_eq.
Qed.
End fire.

(** ** Writing a command line *)

(** One character by itself. *)
Definition one_char (ch : list byte) : Prop := chars ch = [ch] ∧ at_boundary ch = true.

Lemma chars_are_chars l :
  Forall (λ ch, chars ch = [ch]) (chars l) ∧
  Forall (λ ch, at_boundary ch = true) (tail (chars l)) ∧
  match chars l with ch :: _ => at_boundary ch = at_boundary l | [] => l = [] end.
Proof.
  induction l as [|c l (IH1 & IH2 & IH3)]; [by repeat constructor|]. cbn [chars].
  destruct (at_boundary l) eqn:Hb.
  - cbn [tail]. split_and!; [by constructor| |done].
    destruct (chars l) as [|ch rest]; [constructor|]. by constructor.
  - destruct (chars l) as [|ch rest] eqn:E; [by subst l|].
    apply Forall_cons in IH1 as [Hch IH1]. cbn [tail] in *. split_and!; [|done|done].
    constructor; [|done]. cbn [chars]. by rewrite IH3, Hch.
Qed.

Lemma chars_one w : at_boundary w = true → Forall one_char (chars w).
Proof.
  intros Hw. destruct (chars_are_chars w) as (H1 & H2 & H3).
  destruct (chars w) as [|ch rest]; [constructor|]. apply Forall_cons in H1 as [Hch H1].
  constructor; [by rewrite Hw in H3|]. cbn [tail] in H2.
  rewrite Forall_forall in H1, H2 |- *. intros x Hx. split; auto.
Qed.

Lemma chars_concat cs : Forall one_char cs → chars (concat cs) = cs.
Proof.
  induction 1 as [|c cs [Hc Hb] Hcs IH]; [done|]. cbn [concat]. rewrite chars_app, Hc, IH; [done|].
  destruct Hcs as [|d cs [Hd Hbd] _]; [done|]. cbn [concat]. by destruct d.
Qed.

(** Every character escaped, and a space behind every word. *)
Definition escaped_word (w : list byte) : list (list byte) :=
  concat ((λ ch, [escape_mark; ch]) <$> chars w).

Definition command_line (ws : list (list byte)) : list byte :=
  concat (concat ((λ w, escaped_word w ++ [[" "%char]]) <$> ws)).

Lemma escaped_word_steps cs words current :
  foldl Words.step (Words.mk words current None false) (concat ((λ ch, [escape_mark; ch]) <$> cs)) =
  Words.mk words (current ++ concat cs) None false.
Proof.
  revert current. induction cs as [|ch cs IH]; intros current; [by rewrite app_nil_r|].
  rewrite fmap_cons. cbn [concat app foldl].
  change (Words.step (Words.step _ escape_mark) ch) with (Words.mk words (current ++ ch) None false).
  by rewrite IH, <- app_assoc.
Qed.

(** Every list of words that are not empty can be written as a command line that is
    read back as those words, whatever quotes, blanks and backslashes they hold. *)
Theorem shell_words_roundtrip (ws : list (list byte)) :
  Forall (λ w, w ≠ [] ∧ at_boundary w = true) ws → shell_words (command_line ws) = ws.
Proof.
  intros Hws. unfold shell_words, command_line. rewrite chars_concat.
  - assert (H : ∀ words, foldl Words.step (Words.mk words [] None false)
      (concat ((λ w, escaped_word w ++ [[" "%char]]) <$> ws)) = Words.mk (words ++ ws) [] None false).
    { induction Hws as [|w ws [Hne Hb] Hws IH]; intros words; [by rewrite app_nil_r|].
      rewrite fmap_cons. cbn [concat]. rewrite !foldl_app. unfold escaped_word at 1.
      rewrite escaped_word_steps. cbn [app]. rewrite concat_chars. cbn [foldl].
      replace (Words.step _ _) with (Words.mk (words ++ [w]) [] None false).
      - by rewrite IH, <- app_assoc.
      - unfold Words.step. destruct w; [done|]. reflexivity. }
    unfold Words.start. rewrite H. done.
  - induction Hws as [|w ws [Hne Hb] Hws IH]; [constructor|]. rewrite fmap_cons. cbn [concat].
    rewrite !Forall_app. split_and!; [|by repeat constructor|done].
    unfold escaped_word. induction (chars_one w Hb) as [|ch cs Hch _ IHcs]; [constructor|].
    rewrite fmap_cons. cbn [concat app]. constructor; [done|]. by constructor.
Qed.

Lemma shell_words_roundtrip_witness :
  shell_words (command_line [bytes "say"; bytes "it's done \now"]) = [bytes "say"; bytes "it's done \now"].
Proof.
  apply (shell_words_roundtrip [bytes "say"; bytes "it's done \now"]).
  repeat constructor; discriminate.
Defined.

(** An apostrophe inside double quotes opens a quotation of its own: the closing mark
    is text, and the words behind it are one. *)
Lemma apostrophe_in_double_quotes :
  let dq := "034"%char in
  shell_words (bytes "echo " ++ dq :: bytes "it's" ++ dq :: bytes " done") =
  [bytes "echo"; bytes "its" ++ dq :: bytes " done"].
Proof. by vm_compute. Qed.

(** An empty word cannot be given, and a line of nothing else is accepted and runs
    nothing. *)
Lemma empty_words_are_lost :
  let hook := mkHook TurnEnd (bytes "''") in
  shell_words (bytes "grep '' file") = [bytes "grep"; bytes "file"] ∧
  (Registry.register hook Registry.new).2 = Ok tt ∧
  fire (λ _ : unit, None) None None (λ _, Code 7) TurnEnd (mkContext tt 0)
    (Registry.register hook Registry.new).1 = ([], Ok Continue).
Proof. by vm_compute. Qed.

(** A hook that asks to stop goes unheard when another fails. *)
Lemma stop_lost_to_failure :
  fire (λ _ : unit, None) None None
    (λ s, if bool_decide (program s = bytes "a") then Code 42 else Code 1) TurnEnd (mkContext tt 0)
    [(TurnEnd, [mkHook TurnEnd (bytes "a"); mkHook TurnEnd (bytes "b")])] =
  ([mkSpawn (bytes "a") [] [("SUPRA_HOOK_POINT", bytes "turn-end");
      ("SUPRA_TURN_COUNT", bytes "0"); ("PATH", bytes "/usr/bin:/bin"); ("HOME", [])] (bytes "{}");
    mkSpawn (bytes "b") [] [("SUPRA_HOOK_POINT", bytes "turn-end");
      ("SUPRA_TURN_COUNT", bytes "0"); ("PATH", bytes "/usr/bin:/bin"); ("HOME", [])] (bytes "{}")],
   Err (Exited (bytes "b") 1)).
Proof. by vm_compute. Qed.

Lemma hooks_fire_exact_witness :
  let history := [mkHook TurnEnd (bytes "a"); mkHook BeforeTool (bytes "b"); mkHook TurnEnd (bytes " ")] in
  let r := foldl (λ r hook, (Registry.register hook r).1) Registry.new history in
  let fired := fire (λ _ : unit, None) None None (λ _, Code 0) in
  (fired TurnEnd (mkContext tt 0) r).2 = Ok Continue ∧
  (fired BeforeTool (mkContext tt 0) r).1 = [].
Proof.
  intros history r fired.
  pose proof (λ p, hooks_fire_exact (λ _ : unit, None) None None (λ _, Code 0) p (mkContext tt 0)
    history) as H.
  split; [by vm_compute|]. specialize (H BeforeTool). cbn zeta in H. fold r fired in H.
  destruct (fired BeforeTool (mkContext tt 0) r) as [started answer].
  destruct H as (_ & H & _). exact (H eq_refl).
Defined.
