(* ===== verification/Command.v ===== *)
(** * Slash commands: [crates/supra_command]

    The commands the program has ([command.rs]) and the registry that lists, resolves
    and searches them ([registry.rs]). *)

From Stdlib Require Import Ascii.
From S2P Require Import Prelude Text Sealing Utf8 Permission Canonical.

Module Command.
Record t := mk { name : list byte; description : list byte; class : ToolClass.t }.

Definition new (name description : string) (class : ToolClass.t) : t :=
  mk (bytes name) (bytes description) class.
End Command.

Definition builtins : list Command.t :=
  [Command.new "help" "List commands and keys." ToolClass.Agent;
   Command.new "exit" "End the session." ToolClass.Agent;
   Command.new "clear" "Clear the transcript view." ToolClass.Agent;
   Command.new "model" "Show or switch the provider model." ToolClass.Agent;
   Command.new "new" "Start a fresh session." ToolClass.Agent;
   Command.new "resume" "Resume a saved session." ToolClass.Agent;
   Command.new "branch" "Branch the session from here." ToolClass.Agent;
   Command.new "export" "Export the transcript as Markdown." ToolClass.Agent;
   Command.new "permissions" "Show the permission mode." ToolClass.Agent;
   Command.new "telemetry" "Show telemetry consent state." ToolClass.Agent;
   Command.new "sandbox" "Show the sandbox tier." ToolClass.Host;
   Command.new "mode" "Show the permission mode." ToolClass.Agent].

Definition FORBIDDEN : list (list byte) := bytes <$> ["cost"; "cache"; "context"; "think"].

Inductive CommandError :=
| Unknown (name : list byte)
| Authority (name : list byte) (class : ToolClass.t)
| Duplicate (name : list byte)
| BadName (name : list byte).

(** The query's characters appear in order. *)
Fixpoint subsequence_from (wanted : list byte) (rest haystack : list (list byte)) : bool :=
  match haystack with
  | [] => false
  | character :: haystack =>
      if bool_decide (character = wanted) then
        match rest with
        | [] => true
        | next :: rest => subsequence_from next rest haystack
        end
      else subsequence_from wanted rest haystack
  end.

Definition subsequence (needle haystack : list byte) : bool :=
  match chars needle with
  | [] => true
  | wanted :: rest => subsequence_from wanted rest (chars haystack)
  end.

Module Registry.
Abbreviation t := (gmap (list byte) Command.t).

Definition name_byte (c : byte) : bool :=
  let n := N_of_ascii c in
  ((97 <=? n) && (n <=? 122) || (48 <=? n) && (n <=? 57) || (n =? 45))%N.

Definition register (command : Command.t) (r : t) : t * result unit CommandError :=
  let name := Command.name command in
  if negb (negb (bool_decide (name = [])) && forallb name_byte name) then (r, Err (BadName name))
  else if bool_decide (is_Some (r !! name)) then (r, Err (Duplicate name))
  else (<[name := command]> r, Ok tt).

Definition with_builtins : t := foldl (λ r command, (register command r).1) ∅ builtins.

Definition resolve (input : list byte) (invoker : Invoker.t) (_mode : Mode) (r : t) :
    result Command.t CommandError :=
  let name := default input (strip_prefix (bytes "/") input) in
  let? command := ok_or (r !! name) (Unknown name) in
  if negb (ToolClass.permits (Command.class command) invoker)
  then Err (Authority (Command.name command) (Command.class command))
  else Ok command.

(** The values of the map, in the order of its keys. *)
Definition all (r : t) : list Command.t := snd <$> merge_sort key_le (map_to_list r).

(** [lowercase] is [str::to_lowercase]. *)
Definition search (lowercase : list byte → list byte) (query : list byte) (r : t) : list Command.t :=
  match query with
  | [] => all r
  | _ => List.filter (λ command, subsequence (lowercase query) (Command.name command)) (all r)
  end.
End Registry.

(** ** Properties *)

Lemma subsequence_from_sublist wanted rest haystack :
  subsequence_from wanted rest haystack = true ↔ (wanted :: rest) `sublist_of` haystack.
Proof.
  revert wanted rest. induction haystack as [|c haystack IH]; intros wanted rest; cbn [subsequence_from].
  { split; [done|]. intros H. by apply sublist_nil_r in H. }
  case_bool_decide as Hc.
  - subst c. destruct rest as [|next rest].
    + split; [|done]. intros _. apply sublist_skip, sublist_nil_l.
    + rewrite IH. split; [apply sublist_skip|]. intros [Hs|(k & [= <-] & Hs)]%sublist_cons_r; [|done].
      etrans; [|exact Hs]. by apply sublist_cons.
  - rewrite IH. split; [apply sublist_cons|]. by intros [Hs|(k & [= ?] & Hs)]%sublist_cons_r.
Qed.

Lemma subsequence_sublist needle haystack :
  subsequence needle haystack = true ↔ chars needle `sublist_of` chars haystack.
Proof.
  unfold subsequence. destruct (chars needle) as [|c cs].
  - split; [intros _; apply sublist_nil_l|done].
  - apply subsequence_from_sublist.
Qed.

(** A command is listed under its own name, which can be typed. *)
Definition listed (r : Registry.t) : Prop :=
  ∀ name c, r !! name = Some c → Command.name c = name ∧ name ≠ [] ∧
    Forall (λ x, Registry.name_byte x = true) name.

Lemma register_listed command r : listed r → listed (Registry.register command r).1.
Proof.
  intros Hr. unfold Registry.register.
  destruct (decide (Command.name command = [])) as [E|E].
  { by rewrite bool_decide_eq_true_2. }
  rewrite bool_decide_eq_false_2 by done. cbn [negb andb].
  destruct (forallb Registry.name_byte (Command.name command)) eqn:Hv; [|done]. cbn [negb].
  destruct (bool_decide _); [done|]. cbn [fst]. intros name c. rewrite lookup_insert_Some.
  intros [[<- <-]|[_ H]]; [|by apply Hr]. split_and!; [done..|].
  apply Forall_forall. intros x Hx. rewrite forallb_forall in Hv. by apply Hv, list_elem_of_In.
Qed.

(** The registries the interface can produce. *)
Definition registered (history : list Command.t) : Registry.t :=
  foldl (λ r command, (Registry.register command r).1) ∅ history.

Lemma registered_listed history : listed (registered history).
Proof.
  unfold registered. induction history as [|c history IH] using rev_ind.
  - intros name c. cbn [foldl]; rewrite lookup_empty; done.
  - rewrite foldl_app. by apply register_listed.
Qed.

Lemma all_elem r c : listed r → c ∈ Registry.all r ↔ r !! Command.name c = Some c.
Proof.
  intros Hr. unfold Registry.all. rewrite list_elem_of_fmap. split.
  - intros ([name c'] & -> & H). rewrite merge_sort_Permutation in H.
    apply elem_of_map_to_list in H. cbn [snd]. by destruct (Hr _ _ H) as [-> _].
  - intros H. exists (Command.name c, c). split; [done|]. rewrite merge_sort_Permutation.
    by apply elem_of_map_to_list.
Qed.

Lemma sorted_values (l : list (list byte * Command.t)) :
  Forall (λ e, Command.name e.2 = e.1) l → NoDup l.*1 → StronglySorted key_le l →
  StronglySorted (λ a b, key_leb (Command.name a) (Command.name b) = true ∧
    Command.name a ≠ Command.name b) l.*2.
Proof.
  intros Hn Hd Hs. induction Hs as [|[k c] l Hs IH Hx]; [constructor|].
  apply Forall_cons in Hn as [Hk Hn]. cbn in Hd |- *.
  apply NoDup_cons in Hd as [Hnot Hd]. constructor; [auto|]. cbn [snd fst] in *.
  apply Forall_fmap, Forall_forall. intros [k' c'] Hin. cbn.
  rewrite Forall_forall in Hx, Hn. specialize (Hx _ Hin). specialize (Hn _ Hin).
  cbn in Hn. unfold key_le in Hx. cbn in Hx. rewrite Hk, Hn. split; [done|]. intros ->.
  apply Hnot, list_elem_of_fmap. by exists (k', c').
Qed.

(** Strictly ascending names. *)
Lemma all_sorted r : listed r →
  StronglySorted (λ a b, key_leb (Command.name a) (Command.name b) = true ∧
    Command.name a ≠ Command.name b) (Registry.all r).
Proof.
  intros Hr. apply sorted_values.
  - rewrite merge_sort_Permutation. apply Forall_forall. intros [k c] Hin%elem_of_map_to_list.
    cbn. by destruct (Hr _ _ Hin) as [? _].
  - rewrite merge_sort_Permutation. apply NoDup_fst_map_to_list.
  - apply (StronglySorted_merge_sort key_le).
Qed.

(** After any registrations the palette lists every command that can be typed once
    and in the order of the names, a search keeps exactly those whose name has the
    query's characters in order, a typed name resolves to its command exactly when it is
    listed and the caller has its authority, and the commands the design forbids are
    not among those the program starts with. *)
Theorem command_registry_exact (history : list Command.t) lowercase query input invoker mode :
  let r := registered history in
  StronglySorted (λ a b, key_leb (Command.name a) (Command.name b) = true ∧
    Command.name a ≠ Command.name b) (Registry.all r) ∧
  Registry.search lowercase query r `sublist_of` Registry.all r ∧
  (∀ c, c ∈ Registry.search lowercase query r ↔
     c ∈ Registry.all r ∧
     (query = [] ∨ chars (lowercase query) `sublist_of` chars (Command.name c))) ∧
  (∀ c, Registry.resolve input invoker mode r = Ok c ↔
     c ∈ Registry.all r ∧ ToolClass.permits (Command.class c) invoker = true ∧
     Command.name c = default input (strip_prefix (bytes "/") input)) ∧
  length (Registry.all Registry.with_builtins) = length builtins ∧
  Forall (λ name, Registry.with_builtins !! name = None) FORBIDDEN.
Proof.
  intros r. pose proof (registered_listed history) as Hr. fold r in Hr. split_and!.
  - by apply all_sorted.
  - unfold Registry.search. destruct query; [done|]. apply filter_sublist.
  - intros c. unfold Registry.search. destruct query as [|q query]; [naive_solver|].
    rewrite list_elem_of_In, filter_In, <- list_elem_of_In, subsequence_sublist. naive_solver.
  - intros c. unfold Registry.resolve. rewrite result_bind_Ok. setoid_rewrite ok_or_Ok. split.
    + intros (c' & Hc & H). destruct (ToolClass.permits _ _) eqn:E; [|done]. injection H as ->.
      destruct (Hr _ _ Hc) as [Hname _]. split_and!; [|done|done]. apply all_elem; [done|].
      by rewrite Hname.
    + intros (Hc & Hp & Hname). apply all_elem in Hc; [|done]. exists c. rewrite <- Hname, Hp. done.
  - by vm_compute.
  - apply (bool_decide_unpack _). by vm_compute.
Qed.
