(* ===== verification/Graph.v ===== *)
(** * The import graph: [crates/supra_digest/src/graph.rs]

    Which file imports which module, and the files a change reaches.  Paths are
    relative and have no empty components; a module path is its text. *)

From Stdlib Require Import Ascii.
From stdpp Require Import relations.
From S2P Require Import Prelude Text Sealing Utf8 FileSystem Canonical Framing Language.

(** ** Texts *)

(** [s.split(needle).next()], and [s.split_once(needle)]. *)
Definition before (needle l : list byte) : list byte :=
  match find_sub needle l with Some n => take n l | None => l end.

Definition split_once (needle l : list byte) : option (list byte * list byte) :=
  (λ n, (take n l, drop (n + length needle) l)) <$> find_sub needle l.

(** [s.trim_start_matches(prefix)], of a prefix that is not empty. *)
Fixpoint trim_start_from (fuel : nat) (prefix l : list byte) : list byte :=
  match fuel, strip_prefix prefix l with
  | S fuel, Some rest => trim_start_from fuel prefix rest
  | _, _ => l
  end.

Definition trim_start_matches (prefix l : list byte) : list byte :=
  trim_start_from (length l) prefix l.

(** [s.trim_matches(f)], of a predicate on ASCII characters. *)
Definition trim_matches (f : byte → bool) (l : list byte) : list byte :=
  reverse (drop_while f (reverse (drop_while f l))).

Definition is_char (c d : byte) : bool := bool_decide (c = d).

Definition colons : list byte := bytes "::".

(** [parts.join("::")]. *)
Fixpoint join_colons (parts : list (list byte)) : list byte :=
  match parts with
  | [] => []
  | [p] => p
  | p :: parts => p ++ colons ++ join_colons parts
  end.

(** [s.rsplit_once("::")], the part in front. *)
Fixpoint before_last_colons (l : list byte) : option (list byte) :=
  match l with
  | [] => None
  | c :: l' =>
      match before_last_colons l' with
      | Some p => Some (c :: p)
      | None => if starts_with colons l then Some [] else None
      end
  end.

(** ** Paths *)

(** The normal components of a path. *)
Definition components (p : string) : list (list byte) :=
  List.filter (λ c, negb (bool_decide (c ∈ [[]; bytes "."; bytes ".."])))
    (split_on (is_char "/") (bytes p)).

(** [Path::file_stem]: the name up to its last dot, when something precedes it. *)
Definition file_stem (p : string) : option (list byte) :=
  name ← file_name p;
  let l := bytes name in
  match Language.extension p with
  | Some extension => Some (take (length l - S (String.length extension)) l)
  | None => Some l
  end.

Definition module_path (p : string) : option (list byte) :=
  stem ← file_stem p;
  let dirs := components <$> parent p in
  if bool_decide (stem ∈ [bytes "mod"; bytes "__init__"]) then
    dirs ← dirs; if bool_decide (length dirs = 0) then None else Some (join_colons dirs)
  else Some (join_colons (default [] dirs ++ [stem])).

(** The loop over leading [super::], each of which leaves a directory. *)
Fixpoint strip_supers (fuel : nat) (rest : list byte) (parts : list (list byte)) :
    list byte * list (list byte) :=
  match fuel, strip_prefix (bytes "super::") rest with
  | S fuel, Some stripped => strip_supers fuel stripped (take (length parts - 1) parts)
  | _, _ => (rest, parts)
  end.

Definition normalise_import (from : string) (target : list byte) : list byte :=
  let parts := default [] (components <$> parent from) in
  let rebuild rest parts :=
    if bool_decide (length rest = 0) then join_colons parts
    else if bool_decide (length parts = 0) then rest
    else join_colons parts ++ colons ++ rest in
  match strip_prefix (bytes "crate::") target with
  | Some rest => rebuild rest parts
  | None =>
      let '(rest, parts) := strip_supers (length target) target parts in
      match strip_prefix (bytes "self::") rest with
      | Some rest => rebuild rest parts
      | None => target
      end
  end.

(** ** The graph *)

Record Edge := mkEdge { from : string; to : list byte; internal : bool }.

#[export] Instance Edge_eq_dec : EqDecision Edge.
Proof. solve_decision. Defined.
#[export] Instance Edge_countable : Countable Edge.
Proof.
  refine (inj_countable' (λ e, (from e, to e, internal e)) (λ t, mkEdge t.1.1 t.1.2 t.2) _).
  by intros [].
Defined.

Module DependencyGraph.
Record t := mk { edges : gset Edge; modules : gmap (list byte) string }.

Definition new : t := mk ∅ ∅.

Definition register_module (path : string) (g : t) : t :=
  match module_path path with
  | Some module => mk (edges g) (<[module := path]> (modules g))
  | None => g
  end.

(** Every round drops at least two bytes of the candidate. *)
Fixpoint resolve_from (fuel : nat) (candidate : list byte) (g : t) : option string :=
  match modules g !! candidate with
  | Some path => Some path
  | None =>
      match fuel, before_last_colons candidate with
      | S fuel, Some parent => resolve_from fuel parent g
      | _, _ => None
      end
  end.

Definition resolve (module : list byte) (g : t) : option string :=
  resolve_from (length module) module g.

Definition record_import (path : string) (g : t) (target : list byte) : t :=
  let normalised := normalise_import path target in
  let internal := bool_decide (is_Some (resolve normalised g)) in
  mk ({[mkEdge path normalised internal]} ∪ edges g) (modules g).

Definition record_imports (path : string) (imports : list (list byte)) (g : t) : t :=
  foldl (record_import path) g imports.

Definition remove_file (path : string) (g : t) : t :=
  mk (filter (λ e, from e ≠ path) (edges g)) (filter (λ m, m.2 ≠ path) (modules g)).

Definition files_contain (path : string) (g : t) : bool :=
  bool_decide (Exists (λ m, m.2 = path) (map_to_list (modules g))).

(** One edge of the walk: its file is visited when it imports the current one. *)
Definition visit (g : t) (current : string) (s : list string * gset string) (e : Edge) :
    list string * gset string :=
  if internal e && bool_decide (resolve (to e) g = Some current) &&
     negb (bool_decide (from e ∈ s.2))
  then (from e :: s.1, {[from e]} ∪ s.2) else s.

(** The frontier's last file is the head; [None] is the end of the fuel. *)
Fixpoint walk (fuel : nat) (g : t) (frontier : list string) (visited : gset string) :
    option (gset string) :=
  match frontier with
  | [] => Some visited
  | current :: frontier =>
      match fuel with
      | 0 => None
      | S fuel =>
          let '(frontier, visited) :=
            foldl (visit g current) (frontier, visited) (elements (edges g)) in
          walk fuel g frontier visited
      end
  end.

(** The order of paths: their components, one by one. *)
Fixpoint path_leb (a b : list (list byte)) : bool :=
  match a, b with
  | [], _ => true
  | _ :: _, [] => false
  | x :: a, y :: b => if bool_decide (x = y) then path_leb a b else key_leb x y
  end.

Definition path_le (a b : string) : Prop :=
  path_leb (split_on (is_char "/") (bytes a)) (split_on (is_char "/") (bytes b)) = true.

#[global] Instance path_le_dec a b : base.Decision (path_le a b).
Proof. unfold path_le. apply _. Defined.

(** The seed is one more file than the edges start from. *)
Definition dependents (path : string) (g : t) : option (list string) :=
  if negb (files_contain path g) then Some []
  else merge_sort path_le ∘ elements <$> walk (S (size (edges g))) g [path] {[path]}.

Definition edge_count (g : t) : nat := size (edges g).
Definition module_count (g : t) : nat := size (modules g).
End DependencyGraph.

(** ** The imports of a text *)

Definition rust_target (part : list byte) : list (list byte) :=
  let part := trim (trim_start_matches (bytes "use ") (trim_start_matches (bytes "pub ") (trim part))) in
  if bool_decide (part = []) || starts_with (bytes "//") part then []
  else
    let base := trim (before (bytes " as ") (before (bytes "::{") part)) in
    if bool_decide (base = []) then [] else [base].

Definition python_targets (line : list byte) : list (list byte) :=
  let line := trim line in
  match strip_prefix (bytes "import ") line with
  | Some rest =>
      List.filter (λ item, negb (bool_decide (item = [])))
        ((λ item, trim (before (bytes " as ") item)) <$> split_on (is_char ",") rest)
  | None =>
      match strip_prefix (bytes "from ") line ≫= split_once (bytes " import ") with
      | Some (module, _) => [trim module]
      | None => []
      end
  end.

(** The quoted strings of a text, the last one also when it is not closed. *)
Fixpoint quoted (open : option (byte * list byte)) (l : list byte) : list (list byte) :=
  let emit target :=
    if bool_decide (target = []) || starts_with (bytes ".") target then [] else [target] in
  match l, open with
  | [], None => []
  | [], Some (_, target) => emit target
  | c :: l, None =>
      if is_char c "034" || is_char c "039" then quoted (Some (c, [])) l else quoted None l
  | c :: l, Some (mark, target) =>
      if is_char c mark then emit target ++ quoted None l
      else quoted (Some (mark, target ++ [c])) l
  end.

Definition include_target (line : list byte) : list (list byte) :=
  match strip_prefix (bytes "#include") (trim line) with
  | Some rest =>
      let rest := trim_matches (λ c, is_char c "034" || is_char c "<" || is_char c ">") (trim rest) in
      if bool_decide (rest = []) then [] else [rest]
  | None => []
  end.

(** [sort] and [dedup]. *)
Definition text_le (a b : list byte) : Prop := key_leb a b = true.

#[export] Instance text_le_dec a b : base.Decision (text_le a b).
Proof. unfold text_le. apply _. Defined.

Fixpoint dedup (l : list (list byte)) : list (list byte) :=
  match l with
  | a :: ((b :: _) as l) => if bool_decide (a = b) then dedup l else a :: dedup l
  | _ => l
  end.

Definition import_targets (language : Language) (text : list byte) : list (list byte) :=
  let targets :=
    match language with
    | Rust => concat (rust_target <$> split_on (is_char ";") text)
    | Python => concat (python_targets <$> lines text)
    | Go | JavaScript | TypeScript => quoted None text
    | C | Cpp => concat (include_target <$> lines text)
    end in
  dedup (merge_sort text_le targets).

(** ** Churn *)

Definition NINETY_DAYS_SECS : N := 90 * 24 * 3600.

(** [output] is what git printed when it succeeded, [now_secs] the clock when it can be
    read. *)
Definition churn (output : option (list byte)) (now_secs : option N) : N :=
  match output, now_secs with
  | Some stdout, Some now_secs =>
      let recent :=
        List.filter (λ timestamp, (now_secs <=? N.min (timestamp + NINETY_DAYS_SECS) (Z.to_N u64_max))%N)
          (omap (λ line, parse_uint (Z.to_N u64_max) (trim line)) (lines (from_utf8_lossy stdout))) in
      N.min (N.of_nat (length recent)) (Z.to_N u32_max)
  | _, _ => 0
  end.

(** ** The graph of a digest: [digest.rs] *)

(** The files the index lists, in its order, with the text each is read as; a file that
    cannot be read has none. *)
Abbreviation files := (list (string * option (list byte))).

Definition record_file (g : DependencyGraph.t) (file : string * option (list byte)) :
    DependencyGraph.t :=
  match file.2, Language.detect file.1 with
  | Some text, Some language =>
      DependencyGraph.record_imports file.1 (import_targets language (from_utf8_lossy text)) g
  | _, _ => g
  end.

Definition build_graph (fs : files) : DependencyGraph.t :=
  foldl record_file
    (foldl (λ g file, DependencyGraph.register_module file.1 g) DependencyGraph.new fs) fs.

(** [apply_event]: a removed file, and a file that was created or changed and whose new
    text the index took or not. *)
Definition apply_remove (path : string) (g : DependencyGraph.t) : DependencyGraph.t :=
  DependencyGraph.remove_file path g.

Definition apply_change (path : string) (text : list byte) (still_indexed : bool)
    (g : DependencyGraph.t) : DependencyGraph.t :=
  let g := DependencyGraph.remove_file path g in
  if still_indexed then record_file (DependencyGraph.register_module path g) (path, Some text)
  else g.

(** ** What a change reaches *)

Section walk.
Context (g : DependencyGraph.t).

(** A file imports the file its import resolves to. *)
Definition imports (a b : string) : Prop :=
  ∃ e, e ∈ DependencyGraph.edges g ∧ internal e = true ∧ from e = a ∧
    DependencyGraph.resolve (to e) g = Some b.

Definition sources : gset string := list_to_set (from <$> elements (DependencyGraph.edges g)).

Lemma fold_visit current es fr vis :
  ∃ new, foldl (DependencyGraph.visit g current) (fr, vis) es = (new ++ fr, list_to_set new ∪ vis) ∧
    NoDup new ∧
    ∀ x, x ∈ new ↔ (x ∉ vis) ∧ ∃ e, e ∈ es ∧ internal e = true ∧
      DependencyGraph.resolve (to e) g = Some current ∧ from e = x.
Proof.
  revert fr vis. induction es as [|e es IH]; intros fr vis.
  { exists []. split; [by rewrite list_to_set_nil, (left_id_L ∅ _)|]. split; [constructor|]. set_solver. }
  cbn [foldl]. unfold DependencyGraph.visit at 2. cbn [fst snd].
  destruct (internal e && bool_decide (DependencyGraph.resolve (to e) g = Some current) &&
     negb (bool_decide (from e ∈ vis))) eqn:E.
  - to_prop. destruct (IH (from e :: fr) ({[from e]} ∪ vis)) as (new & -> & Hnd & Hnew).
    exists (new ++ [from e]). split_and!.
    + rewrite <- app_assoc. f_equal. rewrite list_to_set_app_L. cbn [list_to_set]. set_solver.
    + apply NoDup_app. split_and!; [done| |by apply NoDup_singleton].
      intros x Hx ->%list_elem_of_singleton. apply Hnew in Hx. set_solver.
    + intros x. rewrite elem_of_app, Hnew, list_elem_of_singleton.
      setoid_rewrite elem_of_cons. destruct (decide (x = from e)) as [->|Hne]; [|set_solver].
      split; [|by right]. intros _. split; [done|]. exists e. naive_solver.
  - destruct (IH fr vis) as (new & -> & Hnd & Hnew). exists new. split_and!; [done..|].
    intros x. rewrite Hnew. setoid_rewrite elem_of_cons. split; [naive_solver|].
    intros (Hx & e' & [->|He'] & Hi & Hr & Hf); [|naive_solver]. exfalso. subst x.
    rewrite Hi, bool_decide_eq_true_2, bool_decide_eq_false_2 in E by done. done.
Qed.

Lemma new_sources (new : list string) current vis :
  (∀ x, x ∈ new ↔ (x ∉ vis) ∧ ∃ e, e ∈ elements (DependencyGraph.edges g) ∧ internal e = true ∧
      DependencyGraph.resolve (to e) g = Some current ∧ from e = x) →
  NoDup new →
  length new + size (sources ∖ (list_to_set new ∪ vis)) = size (sources ∖ vis).
Proof.
  intros Hnew Hnd. replace (sources ∖ (list_to_set new ∪ vis)) with ((sources ∖ vis) ∖ list_to_set new)
    by set_solver.
  assert (Hsub : list_to_set new ⊆ sources ∖ vis).
  { intros x. rewrite elem_of_list_to_set, Hnew. intros (Hx & e & He & _ & _ & <-).
    apply elem_of_difference. split; [|done]. apply elem_of_list_to_set, list_elem_of_fmap. eauto. }
  rewrite size_difference by done. pose proof (subseteq_size _ _ Hsub).
  rewrite size_list_to_set in * by done. lia.
Qed.

(** The walk ends with everything that is reached against the imports. *)
Lemma walk_exact path fuel fr vis :
  length fr + size (sources ∖ vis) ≤ fuel →
  path ∈ vis → Forall (.∈ vis) fr →
  (∀ x, x ∈ vis → rtc imports x path) →
  (∀ v a, v ∈ vis → v ∉ fr → imports a v → a ∈ vis) →
  ∃ out, DependencyGraph.walk fuel g fr vis = Some out ∧ ∀ x, x ∈ out ↔ rtc imports x path.
Proof.
  revert fr vis. induction fuel as [|fuel IH]; intros fr vis Hf Hp Hfr Hr Hc.
  all: destruct fr as [|current fr]; cbn [DependencyGraph.walk].
  1, 3: exists vis; split; [done|]; intros x; split; [apply Hr|]; revert x;
    apply (rtc_ind_l (.∈ vis)); [done|]; intros a b Hab _ Hb; apply (Hc b a); set_solver.
  { simpl in Hf. lia. }
  destruct (fold_visit current (elements (DependencyGraph.edges g)) fr vis) as (new & -> & Hnd & Hnew).
  pose proof (new_sources new current vis Hnew Hnd) as Hs. apply Forall_cons in Hfr as [Hcur Hfr].
  assert (Himp : ∀ a, imports a current ↔ ∃ e, e ∈ elements (DependencyGraph.edges g) ∧
    internal e = true ∧ DependencyGraph.resolve (to e) g = Some current ∧ from e = a).
  { intros a. unfold imports. setoid_rewrite elem_of_elements. naive_solver. }
  apply IH.
  - rewrite length_app. simpl in Hf. lia.
  - set_solver.
  - apply Forall_app. split; [apply Forall_forall; set_solver|].
    eapply Forall_impl; [exact Hfr|]. set_solver.
  - intros x [Hx%elem_of_list_to_set|Hx]%elem_of_union; [|by apply Hr].
    apply Hnew in Hx as (_ & Hx). apply Himp in Hx. eapply rtc_l; [exact Hx|]. by apply Hr.
  - intros v a Hv Hvn Hav. rewrite not_elem_of_app in Hvn. destruct Hvn as [Hvn Hvf].
    apply elem_of_union in Hv as [Hv%elem_of_list_to_set|Hv]; [done|].
    destruct (decide (v = current)) as [->|Hne].
    + destruct (decide (a ∈ vis)); [set_solver|]. apply elem_of_union_l, elem_of_list_to_set, Hnew.
      split; [done|]. by apply Himp.
    + apply elem_of_union_r. eapply Hc; [done| |done]. set_solver.
Qed.

Lemma list_to_set_size (l : list string) : size (list_to_set (C:=gset string) l) ≤ length l.
Proof.
  induction l as [|x l IH]; [by rewrite list_to_set_nil, size_empty|].
  rewrite list_to_set_cons, size_union_alt, size_singleton.
  assert (size (list_to_set (C:=gset string) l ∖ {[x]}) ≤ size (list_to_set (C:=gset string) l)).
  { apply subseteq_size. set_solver. }
  simpl. lia.
Qed.

Lemma dependents_reach path :
  ∃ out, DependencyGraph.dependents path g = Some out ∧ NoDup out ∧
    ∀ f, f ∈ out ↔ DependencyGraph.files_contain path g = true ∧ rtc imports f path.
Proof.
  unfold DependencyGraph.dependents. destruct (DependencyGraph.files_contain path g); cbn [negb].
  2: { exists []. split; [done|]. split; [constructor|]. set_solver. }
  destruct (walk_exact path (S (size (DependencyGraph.edges g))) [path] {[path]}) as (out & -> & Hout).
  - simpl. assert (size (sources ∖ {[path]}) ≤ size (DependencyGraph.edges g)); [|lia].
    etrans; [apply subseteq_size; by apply subseteq_difference_l|].
    unfold sources. etrans; [apply list_to_set_size|]. by rewrite length_fmap.
  - set_solver.
  - repeat constructor. set_solver.
  - intros x ->%elem_of_singleton. constructor.
  - set_solver.
  - eexists. split; [done|]. unfold compose. split.
    + rewrite merge_sort_Permutation. apply NoDup_elements.
    + intros f. rewrite merge_sort_Permutation, elem_of_elements, Hout. naive_solver.
Qed.
End walk.

(** ** Keeping the graph current *)

Module Refresh.
Import DependencyGraph.

Lemma resolve_from_modules fuel n (g h : t) :
  modules g = modules h → resolve_from fuel n g = resolve_from fuel n h.
Proof.
  intros E. revert n. induction fuel as [|fuel IH]; intros n; cbn; rewrite E; [done|].
  case_match; [done|]. case_match; auto.
Qed.

Lemma resolve_modules n (g h : t) : modules g = modules h → resolve n g = resolve n h.
Proof. apply resolve_from_modules. Qed.

(** More modules resolve more. *)
Lemma resolve_mono n (g h : t) :
  modules g ⊆ modules h → is_Some (resolve n g) → is_Some (resolve n h).
Proof.
  intros Hsub. unfold resolve. generalize (length n) as fuel. intros fuel. revert n.
  induction fuel as [|fuel IH]; intros n [b Hb]; cbn in *.
  all: destruct (modules g !! n) as [p|] eqn:Eg;
    [rewrite (lookup_weaken _ _ _ _ Eg Hsub); by eexists|].
  - by destruct (before_last_colons n).
  - destruct (before_last_colons n) as [parent|]; [|done].
    destruct (modules h !! n); [by eexists|]. apply IH. by eexists.
Qed.

(** The edges a file declares, under the modules there are. *)
Definition file_edges (g : t) (f : string * option (list byte)) : gset Edge :=
  match f.2, Language.detect f.1 with
  | Some text, Some language =>
      list_to_set ((λ target, let n := normalise_import f.1 target in
                     mkEdge f.1 n (bool_decide (is_Some (resolve n g))))
        <$> import_targets language (from_utf8_lossy text))
  | _, _ => ∅
  end.

Lemma file_edges_modules g h f : modules g = modules h → file_edges g f = file_edges h f.
Proof.
  intros E. unfold file_edges. destruct f.2, (Language.detect f.1); try done. f_equal.
  apply list_fmap_ext. intros i target _. cbn. by rewrite (resolve_modules _ g h E).
Qed.

Lemma file_edges_from g f e : e ∈ file_edges g f → from e = f.1.
Proof.
  unfold file_edges. destruct f.2, (Language.detect f.1); set_solver.
Qed.

Lemma record_imports_edges path targets g :
  modules (record_imports path targets g) = modules g ∧
  edges (record_imports path targets g) =
  list_to_set ((λ target, let n := normalise_import path target in
                  mkEdge path n (bool_decide (is_Some (resolve n g)))) <$> targets) ∪ edges g.
Proof.
  unfold record_imports. induction targets as [|target targets [IHm IHe]] using rev_ind.
  { split; [done|]. set_solver. }
  rewrite foldl_app. cbn [foldl]. unfold record_import at 1 3. cbn [modules edges].
  split; [done|]. rewrite IHe, fmap_app, list_to_set_app_L.
  cbn [fmap list_fmap list_to_set]. rewrite (resolve_modules _ _ g IHm). set_solver.
Qed.

Lemma record_file_edges g f :
  modules (record_file g f) = modules g ∧ edges (record_file g f) = file_edges g f ∪ edges g.
Proof.
  unfold record_file, file_edges. destruct f.2, (Language.detect f.1);
    [apply record_imports_edges|split; [done|set_solver]..].
Qed.

Lemma record_files_edges fs g :
  modules (foldl record_file g fs) = modules g ∧
  ∀ e, e ∈ edges (foldl record_file g fs) ↔ e ∈ edges g ∨ ∃ f, f ∈ fs ∧ e ∈ file_edges g f.
Proof.
  revert g. induction fs as [|f fs IH]; intros g.
  { split; [done|]. intros e. split; [by left|]. intros [?|(f & Hf%elem_of_nil & _)]; done. }
  cbn [foldl]. destruct (record_file_edges g f) as [Hm He], (IH (record_file g f)) as [IHm IHe].
  split; [congruence|]. intros e. rewrite IHe, He, elem_of_union. setoid_rewrite elem_of_cons.
  setoid_rewrite (λ f', file_edges_modules (record_file g f) g f' Hm). naive_solver.
Qed.

(** No two files are one module. *)
Definition distinct (fs : files) : Prop :=
  NoDup fs.*1 ∧
  ∀ p q k, p ∈ fs.*1 → q ∈ fs.*1 → module_path p = Some k → module_path q = Some k → p = q.

Lemma registered_modules fs k p :
  distinct fs →
  modules (foldl (λ g file, register_module file.1 g) new fs) !! k = Some p ↔
  p ∈ fs.*1 ∧ module_path p = Some k.
Proof.
  intros [Hnd Hd]. induction fs as [|[q text] fs IH] using rev_ind.
  { cbn. rewrite lookup_empty. set_solver. }
  rewrite fmap_app in *. apply NoDup_app in Hnd as (Hnd & _ & _).
  rewrite foldl_app. cbn [foldl fst]. unfold register_module at 1.
  assert (IH' := IH Hnd ltac:(intros p' q' k' ? ?; apply Hd; apply elem_of_app; by left)).
  rewrite elem_of_app. cbn. rewrite list_elem_of_singleton.
  destruct (module_path q) as [k'|] eqn:Eq; cbn [modules].
  - rewrite lookup_insert_Some, IH'. split.
    + intros [[<- <-]|[Hne [Hin Hk]]]; auto.
    + intros [[Hin | ->] Hk]; [|left; naive_solver].
      destruct (decide (k' = k)) as [->|Hne]; [left; split; [done|]|right; auto].
      apply (Hd q p k); [..|done|done]; apply elem_of_app; [right; cbn; by left|by left].
  - rewrite IH'. split; [naive_solver|]. intros [[Hin | ->] Hk]; [auto|congruence].
Qed.

Lemma register_edges fs g :
  edges (foldl (λ g (file : string * option (list byte)), register_module file.1 g) g fs) = edges g.
Proof.
  revert g. induction fs as [|f fs IH]; intros g; [done|]. cbn [foldl]. rewrite IH.
  unfold register_module. by destruct (module_path f.1).
Qed.

Lemma build_modules fs k p : distinct fs →
  modules (build_graph fs) !! k = Some p ↔ p ∈ fs.*1 ∧ module_path p = Some k.
Proof.
  intros Hd. unfold build_graph. rewrite (proj1 (record_files_edges _ _)). by apply registered_modules.
Qed.

Lemma build_edges fs e :
  e ∈ edges (build_graph fs) ↔ ∃ f, f ∈ fs ∧ e ∈ file_edges (build_graph fs) f.
Proof.
  unfold build_graph. destruct (record_files_edges fs
    (foldl (λ g file, register_module file.1 g) new fs)) as [Hm He].
  rewrite He, register_edges. cbn [edges new].
  setoid_rewrite (λ f, file_edges_modules _ _ f Hm). set_solver.
Qed.

Lemma graph_eq (g h : t) :
  (∀ k p, modules g !! k = Some p ↔ modules h !! k = Some p) →
  (∀ e, e ∈ edges g ↔ e ∈ edges h) → g = h.
Proof.
  destruct g as [e1 m1], h as [e2 m2]. cbn. intros Hm He. f_equal; [by apply set_eq|].
  apply map_eq. intros k. apply option_eq. intros p. apply Hm.
Qed.

(** A file with a new text, and the files without one. *)
Definition update (p : string) (text : list byte) (fs : files) : files :=
  (λ f, if bool_decide (f.1 = p) then (p, Some text) else f) <$> fs.

Definition without (p : string) (fs : files) : files :=
  List.filter (λ f, negb (bool_decide (f.1 = p))) fs.

Lemma update_paths p text fs : (update p text fs).*1 = fs.*1.
Proof.
  unfold update. rewrite <- list_fmap_compose. apply list_fmap_ext. intros i f _. cbn.
  by case_bool_decide.
Qed.

Lemma update_elem p text fs f :
  p ∈ fs.*1 → f ∈ update p text fs ↔ f = (p, Some text) ∨ (f ∈ fs ∧ f.1 ≠ p).
Proof.
  intros (f0 & -> & H0)%list_elem_of_fmap. unfold update. rewrite list_elem_of_fmap. split.
  - intros (f' & -> & Hf). case_bool_decide; auto.
  - intros [-> | [Hf Hne]]; [exists f0|exists f]; (split; [by case_bool_decide|done]).
Qed.

Lemma without_elem p fs f : f ∈ without p fs ↔ f ∈ fs ∧ f.1 ≠ p.
Proof.
  unfold without. rewrite !list_elem_of_In, filter_In. by case_bool_decide; naive_solver.
Qed.

Lemma without_paths p fs q : q ∈ (without p fs).*1 ↔ q ∈ fs.*1 ∧ q ≠ p.
Proof.
  rewrite !list_elem_of_fmap. setoid_rewrite without_elem. naive_solver.
Qed.

Lemma distinct_update p text fs : distinct fs → distinct (update p text fs).
Proof. unfold distinct. by rewrite update_paths. Qed.

Lemma distinct_without p fs : distinct fs → distinct (without p fs).
Proof.
  intros [Hnd Hd]. split.
  - eapply submseteq_NoDup; [|exact Hnd]. unfold without. apply fmap_submseteq, filter_submseteq.
  - intros q r k [Hq _]%without_paths [Hr _]%without_paths. by apply Hd.
Qed.

Lemma remove_modules p fs k q : distinct fs →
  modules (remove_file p (build_graph fs)) !! k = Some q ↔
  q ∈ fs.*1 ∧ module_path q = Some k ∧ q ≠ p.
Proof.
  intros Hd. cbn [remove_file modules]. rewrite map_lookup_filter_Some, build_modules by done.
  cbn. naive_solver.
Qed.

Lemma remove_edges p fs e :
  e ∈ edges (remove_file p (build_graph fs)) ↔
  ∃ f, f ∈ fs ∧ f.1 ≠ p ∧ e ∈ file_edges (build_graph fs) f.
Proof.
  cbn [remove_file edges]. rewrite elem_of_filter, build_edges. split.
  - intros (Hne & f & Hf & He). exists f. split_and!; [done| |done].
    by rewrite <- (file_edges_from _ _ _ He).
  - intros (f & Hf & Hne & He). split; [by rewrite (file_edges_from _ _ _ He)|eauto].
Qed.

Lemma reregister_modules p fs k q : distinct fs → p ∈ fs.*1 →
  modules (register_module p (remove_file p (build_graph fs))) !! k = Some q ↔
  modules (build_graph fs) !! k = Some q.
Proof.
  intros Hd Hp. rewrite build_modules by done. unfold register_module.
  destruct (module_path p) as [k'|] eqn:Ek.
  - cbn [modules]. rewrite lookup_insert_Some, (remove_modules p fs k q Hd).
    split; [naive_solver|]. intros [Hq Hk]. destruct (decide (q = p)) as [->|Hne].
    + left. split; congruence.
    + right. split_and!; try done. intros ->. apply Hne. by apply (proj2 Hd q p k).
  - rewrite remove_modules by done. split; [naive_solver|].
    intros [Hq Hk]. split_and!; [done..|]. intros ->. congruence.
Qed.

Lemma modules_ext g h :
  (∀ k p, modules g !! k = Some p ↔ modules h !! k = Some p) → modules g = modules h.
Proof. intros H. apply map_eq. intros k. apply option_eq. intros p. apply H. Qed.

Lemma change_exact fs p text : distinct fs → p ∈ fs.*1 →
  apply_change p text true (build_graph fs) = build_graph (update p text fs).
Proof.
  intros Hd Hp. unfold apply_change.
  destruct (record_file_edges (register_module p (remove_file p (build_graph fs))) (p, Some text))
    as [Hm He].
  assert (Hsame : ∀ k q, modules (build_graph (update p text fs)) !! k = Some q ↔
    modules (build_graph fs) !! k = Some q).
  { intros k q. rewrite !build_modules by (done || by apply distinct_update). by rewrite update_paths. }
  assert (Hr : modules (register_module p (remove_file p (build_graph fs))) = modules (build_graph fs)).
  { apply modules_ext. intros. by apply reregister_modules. }
  apply graph_eq.
  - intros k q. by rewrite Hm, Hr, Hsame.
  - intros e. rewrite He, elem_of_union, build_edges. setoid_rewrite update_elem; [|done].
    apply modules_ext in Hsame.
    setoid_rewrite (λ f, file_edges_modules _ _ f Hsame).
    rewrite (file_edges_modules _ _ (p, Some text) Hr).
    replace (edges (register_module p (remove_file p (build_graph fs))))
      with (edges (remove_file p (build_graph fs))) by (unfold register_module; by case_match).
    rewrite remove_edges. naive_solver.
Qed.

Lemma remove_imports fs p a b : distinct fs →
  imports (apply_remove p (build_graph fs)) a b ↔ imports (build_graph (without p fs)) a b.
Proof.
  intros Hd. pose proof (distinct_without p fs Hd) as Hd'.
  assert (Hm : modules (remove_file p (build_graph fs)) = modules (build_graph (without p fs))).
  { apply modules_ext. intros k q. rewrite remove_modules, build_modules by done.
    rewrite without_paths. naive_solver. }
  assert (Hsub : modules (build_graph (without p fs)) ⊆ modules (build_graph fs)).
  { rewrite <- Hm. apply map_filter_subseteq. }
  unfold imports, apply_remove. setoid_rewrite remove_edges. setoid_rewrite build_edges.
  setoid_rewrite (λ n, resolve_modules n _ _ Hm). setoid_rewrite without_elem.
  unfold file_edges. split.
  - intros (e & (f & Hf & Hne & He) & Hi & Ha & Hb).
    destruct f.2 as [text|] eqn:E2, (Language.detect f.1) as [language|] eqn:El; try (by apply elem_of_empty in He).
    apply elem_of_list_to_set, list_elem_of_fmap in He as (target & -> & Ht). cbn in *.
    eexists (mkEdge f.1 (normalise_import f.1 target) true). cbn. split_and!; [|done..].
    exists f. split; [done|]. rewrite E2, El. apply elem_of_list_to_set, list_elem_of_fmap.
    exists target. split; [|done]. rewrite bool_decide_eq_true_2; [done|]. exact (ex_intro _ b Hb).
  - intros (e & (f & (Hf & Hne) & He) & Hi & Ha & Hb).
    destruct f.2 as [text|] eqn:E2, (Language.detect f.1) as [language|] eqn:El; try (by apply elem_of_empty in He).
    apply elem_of_list_to_set, list_elem_of_fmap in He as (target & -> & Ht). cbn in *.
    eexists (mkEdge f.1 (normalise_import f.1 target) true). cbn. split_and!; [|done..].
    exists f. split_and!; [done..|]. rewrite E2, El. apply elem_of_list_to_set, list_elem_of_fmap.
    exists target. split; [|done]. rewrite bool_decide_eq_true_2; [done|].
    eapply resolve_mono; [exact Hsub|]. exact (ex_intro _ b Hb).
Qed.
Lemma remove_contains fs p q : distinct fs →
  files_contain q (apply_remove p (build_graph fs)) = files_contain q (build_graph (without p fs)).
Proof.
  intros Hd. unfold files_contain, apply_remove.
  enough (modules (remove_file p (build_graph fs)) = modules (build_graph (without p fs))) as ->; [done|].
  apply modules_ext. intros k r. rewrite remove_modules, build_modules by (done || by apply distinct_without).
  rewrite without_paths. naive_solver.
Qed.

Lemma dependents_same g h q :
  files_contain q g = files_contain q h → (∀ a b, imports g a b ↔ imports h a b) →
  ∀ f, (∃ out, dependents q g = Some out ∧ f ∈ out) ↔ (∃ out, dependents q h = Some out ∧ f ∈ out).
Proof.
  intros Hc Hi f.
  destruct (dependents_reach g q) as (out & Hg & _ & Hog), (dependents_reach h q) as (out' & Hh & _ & Hoh).
  assert (E : f ∈ out ↔ f ∈ out').
  { rewrite Hog, Hoh, Hc. split; intros [? Hr]; (split; [done|]);
      (eapply rtc_subrel; [|exact Hr]); intros a b; apply Hi. }
  split; intros (o & Ho & Hf); simplify_eq; naive_solver.
Qed.
End Refresh.

(** The blast radius of a file always comes to an end, whatever cycles the imports
    have, and holds exactly the files from which imports lead to it, itself among
    them, each once; a file that is not indexed has none. *)
Theorem dependents_exact g path :
  ∃ out, DependencyGraph.dependents path g = Some out ∧ NoDup out ∧
    ∀ f, f ∈ out ↔ DependencyGraph.files_contain path g = true ∧ rtc (imports g) f path.
Proof. apply dependents_reach. Qed.

(** Following the files' changes one event at a time loses nothing: after a file the
    index already holds is rewritten, the graph is the one a digest of the files built
    from scratch has, and after a file is removed every file's blast radius is the one
    that digest gives. *)
Theorem blast_radius_current fs p text :
  Refresh.distinct fs → p ∈ fs.*1 →
  apply_change p text true (build_graph fs) = build_graph (Refresh.update p text fs) ∧
  ∀ q f,
    (∃ out, DependencyGraph.dependents q (apply_remove p (build_graph fs)) = Some out ∧ f ∈ out) ↔
    (∃ out, DependencyGraph.dependents q (build_graph (Refresh.without p fs)) = Some out ∧ f ∈ out).
Proof.
  intros Hd Hp. split; [by apply Refresh.change_exact|]. intros q.
  apply Refresh.dependents_same; [by apply Refresh.remove_contains|].
  intros a b. by apply Refresh.remove_imports.
Qed.

Definition crate_files : files :=
  [("a.rs"%string, Some (bytes "use crate::b;")); ("b.rs"%string, Some (bytes "use crate::c;"));
   ("c.rs"%string, Some (bytes "fn main() {}"))].

Lemma blast_radius_current_witness :
  apply_change "b.rs" [] true (build_graph crate_files) =
    build_graph (Refresh.update "b.rs" [] crate_files) ∧
  DependencyGraph.dependents "c.rs" (build_graph crate_files) =
    Some ["a.rs"; "b.rs"; "c.rs"]%string ∧
  DependencyGraph.dependents "c.rs" (apply_remove "b.rs" (build_graph crate_files)) =
    Some ["c.rs"]%string.
Proof.
  split_and!; [|by vm_compute..]. apply (blast_radius_current crate_files "b.rs" []).
  - split; [repeat constructor; set_solver|]. intros p q k Hp Hq. cbn in Hp, Hq.
    repeat (apply elem_of_cons in Hp as [->|Hp]); try (by apply elem_of_nil in Hp);
    repeat (apply elem_of_cons in Hq as [->|Hq]); try (by apply elem_of_nil in Hq);
    vm_compute; congruence.
  - cbn. set_solver.
Defined.

(** A file created after the digest was built is not reached by the files that already
    imported it, until the digest is built again. *)
Lemma created_file_unseen :
  let fs := [("a.rs"%string, Some (bytes "use crate::b;"))] in
  DependencyGraph.dependents "b.rs" (apply_change "b.rs" [] true (build_graph fs)) =
    Some ["b.rs"]%string ∧
  DependencyGraph.dependents "b.rs" (build_graph (fs ++ [("b.rs"%string, Some [])])) =
    Some ["a.rs"; "b.rs"]%string.
Proof. by vm_compute. Qed.

(** An import from [crate] in a subdirectory names a module of that subdirectory. *)
Lemma crate_import_misrooted :
  let fs := [("src/a/b.rs"%string, Some (bytes "use crate::turns;"));
             ("src/turns.rs"%string, Some [])] in
  normalise_import "src/a/b.rs" (bytes "crate::turns") = bytes "src::a::turns" ∧
  DependencyGraph.dependents "src/turns.rs" (build_graph fs) = Some ["src/turns.rs"]%string.
Proof. by vm_compute. Qed.

(** An import from [super] is returned untouched, and resolves to nothing, unless [self::] follows. *)
Lemma super_import_untouched :
  normalise_import "src/a/b.rs" (bytes "super::c") = bytes "super::c".
Proof. by vm_compute. Qed.

(** A script's relative import is no import. *)
Lemma relative_import_dropped :
  import_targets TypeScript (bytes "import x from './b'") = [].
Proof. by vm_compute. Qed.
