(* ===== verification/Secrets.v ===== *)
(** * Secret stores: [crates/supra_secrets]

    The encrypted vault ([file_store.rs]) and the manager that prefers the operating
    system's keyring ([manager.rs]), with their errors ([error.rs]).  Key derivation,
    the cipher and JSON are parameters; [VaultIo] is what the operating system answers
    to one operation.  Text is its UTF-8 bytes.  A writer holds the vault's lock for
    the whole of its operation, so writers are sequences of operations; a reader sees
    some state a writer passes through. *)

From Stdlib Require Import Ascii.
From S2P Require Import Prelude Text Sealing Utf8 FileSystem Traced.

(** [missing]: the operating system's error is [NotFound]. *)
Inductive SecretsError :=
| NoStore
| Crypto
| NotFound (service account : list byte)
| Io (missing : bool)
| KeyringFailed.

#[export] Instance SecretsError_eq_dec : EqDecision SecretsError.
Proof. solve_decision. Defined.

(** ** The vault's contents *)

Module Vault.
Record Record := mkRecord { service : list byte; account : list byte; secret : list byte }.
Abbreviation t := (list Record).

#[global] Instance Record_eq_dec : EqDecision Record.
Proof. solve_decision. Defined.

Definition names (service' account' : list byte) (r : Record) : bool :=
  bool_decide (service r = service') && bool_decide (account r = account').

Definition find (service account : list byte) (v : t) : option (list byte) :=
  secret <$> List.find (names service account) v.

(** The first record of the name is replaced. *)
Fixpoint replace (service account secret : list byte) (v : t) : option t :=
  match v with
  | [] => None
  | r :: v =>
      if names service account r then Some (mkRecord service account secret :: v)
      else (r ::.) <$> replace service account secret v
  end.

Definition set (service account secret : list byte) (v : t) : t :=
  match replace service account secret v with
  | Some v => v
  | None => v ++ [mkRecord service account secret]
  end.

Definition remove (service account : list byte) (v : t) : t :=
  List.filter (λ r, negb (names service account r)) v.
End Vault.

(** ** Parameters and answers *)

(** PBKDF2-HMAC-SHA256 by rounds, passphrase and salt; AES-256-GCM by key, nonce and
    additional data; the JSON of a vault. *)
Record Primitives := mkPrimitives {
  pbkdf2 : N → list byte → list byte → list byte;
  encrypt : list byte → list byte → list byte → list byte → option (list byte);
  decrypt : list byte → list byte → list byte → list byte → option (list byte);
  print_vault : Vault.t → list byte;
  parse_vault : list byte → option Vault.t;
}.

(** What the store relies on: the cipher opens exactly what it sealed, with a tag of
    sixteen bytes, and JSON reads back what it wrote. *)
Class PrimitiveLaws (p : Primitives) : Prop := {
  sealed_opens key nonce aad m c : encrypt p key nonce aad m = Some c → decrypt p key nonce aad c = Some m;
  opened_sealed key nonce aad m c : decrypt p key nonce aad c = Some m → encrypt p key nonce aad m = Some c;
  sealed_length key nonce aad m c : encrypt p key nonce aad m = Some c → length c = length m + 16;
  vault_roundtrip v : parse_vault p (print_vault p v) = Some v;
}.

(** How [create_dir] ends. *)
Inductive Created := Made | Existed | NoParent | Refused.

(** [None] is success; otherwise the error and whether it is [NotFound]. *)
Abbreviation answer := (option bool).

Module VaultIo.
Record t := mk {
  create_dir : string → Created;
  create_dir_all : string → answer;
  set_mode : string → answer;
  open_lock : answer;
  lock_exclusive : answer;
  read : bool;
  environment : option (list byte);
  entropy : nat → option (nat → byte);
  open_fails : nat → answer;
  write_fails : option nat;
  sync : bool;
  rename : bool;
  remove : bool;
  sync_directory : bool;
}.

Definition perfect (entropy : nat → nat → byte) : t :=
  mk (λ _, Existed) (λ _, None) (λ _, None) None None true None (λ n, Some (entropy n)) (λ _, None)
     None true true true true.
End VaultIo.

Definition answered (a : answer) : result unit SecretsError :=
  match a with None => Ok tt | Some missing => Err (Io missing) end.

(** ** The store *)

Definition MAGIC : list byte := bytes "SUPRA1".
Definition SALT_LEN : nat := 16.
Definition NONCE_LEN : nat := 12.
Definition PBKDF2_ITERATIONS : N := 100000.

(** The provider's answers, by the call of one operation. *)
Abbreviation PassphraseProvider := (nat → result (list byte) SecretsError).

Record FileStore := mkFileStore {
  path : string;
  passphrase_cache : option (list byte);
  passphrase_provider : option PassphraseProvider;
}.

Definition new_store (path : string) : FileStore := mkFileStore path None None.
Definition unlock (passphrase : list byte) (s : FileStore) : FileStore :=
  mkFileStore (path s) (Some passphrase) (passphrase_provider s).
Definition lock (s : FileStore) : FileStore := mkFileStore (path s) None (passphrase_provider s).
Definition set_passphrase_provider (provider : PassphraseProvider) (s : FileStore) : FileStore :=
  mkFileStore (path s) (passphrase_cache s) (Some provider).

Definition exists_file (s : FileStore) (fs : Fs.t) : bool :=
  bool_decide (is_Some (Fs.names fs !! path s)).

Definition vault_name (p : string) : string := default "secrets.enc" (file_name p).

Definition transaction_lock_path (p : string) : string :=
  with_file_name p ("." +:+ vault_name p +:+ ".lock").

Definition temp_path (p suffix : string) : string :=
  with_file_name p ("." +:+ vault_name p +:+ "." +:+ suffix +:+ ".tmp").

Definition passphrase (io : VaultIo.t) (s : FileStore) (call : nat) : result (list byte) SecretsError :=
  match passphrase_cache s with
  | Some unlocked => Ok unlocked
  | None =>
      match VaultIo.environment io with
      | Some from_env => Ok (from_utf8_lossy from_env)
      | None =>
          match passphrase_provider s with
          | Some provider => provider call
          | None => Err NoStore
          end
      end
  end.

Definition random_bytes (io : VaultIo.t) (call len : nat) : result (list byte) SecretsError :=
  ok_or ((λ f, f <$> seq 0 len) <$> VaultIo.entropy io call) Crypto.

Definition random_temp_suffix (io : VaultIo.t) (call : nat) : result string SecretsError :=
  let? bytes := random_bytes io call 16 in Ok (String.string_of_list_ascii (to_hex bytes)).

Definition ensure_private_directory (io : VaultIo.t) (directory : string) : result unit SecretsError :=
  let? created :=
    match VaultIo.create_dir io directory with
    | Made => Ok true
    | Existed => Ok false
    | NoParent => let? _ := answered (VaultIo.create_dir_all io directory) in Ok true
    | Refused => Err (Io false)
    end in
  if created : bool then answered (VaultIo.set_mode io directory) else Ok tt.

(** The lock's file is created when there is none; it stays. *)
Definition lock_transaction (io : VaultIo.t) (p : string) : M SecretsError unit :=
  let! _ := lift (ensure_private_directory io (default "." (parent p))) in
  let lock_path := transaction_lock_path p in
  let! _ := lift (answered (VaultIo.open_lock io)) in
  let! _ := act (λ fs, match Fs.create_new lock_path fs with Some (_, fs') => fs' | None => fs end) in
  let! _ := lift (answered (VaultIo.set_mode io lock_path)) in
  lift (answered (VaultIo.lock_exclusive io)).

Section store.
Context (p : Primitives).

Definition derive_key (passphrase salt : list byte) : list byte := pbkdf2 p PBKDF2_ITERATIONS passphrase salt.

(** The salt, the nonce and the ciphertext. *)
Definition split_vault (bytes : list byte) : result (list byte * list byte * list byte) SecretsError :=
  if length bytes <? length MAGIC + SALT_LEN + NONCE_LEN + 16 then Err Crypto
  else if negb (bool_decide (take (length MAGIC) bytes = MAGIC)) then Err Crypto
  else
    let body := drop (length MAGIC) bytes in
    let rest := drop SALT_LEN body in
    Ok (take SALT_LEN body, take NONCE_LEN rest, drop NONCE_LEN rest).

Definition open_vault (passphrase : list byte) (parts : list byte * list byte * list byte) :
    result Vault.t SecretsError :=
  let '(salt, nonce, ciphertext) := parts in
  let? plaintext := ok_or (decrypt p (derive_key passphrase salt) nonce MAGIC ciphertext) Crypto in
  ok_or (parse_vault p plaintext) Crypto.

Definition load (io : VaultIo.t) (s : FileStore) (fs : Fs.t) : result Vault.t SecretsError :=
  let? bytes := if VaultIo.read io then ok_or (Fs.read_name (path s) fs) (Io true) else Err (Io false) in
  let? parts := split_vault bytes in
  let? passphrase := passphrase io s 0 in
  open_vault passphrase parts.

(** The loop that takes a temporary file no one has. *)
Fixpoint create_temp (remaining attempt : nat) (io : VaultIo.t) (s : FileStore) :
    M SecretsError (N * string) :=
  match remaining with
  | 0 => lift (Err (Io false))
  | S remaining =>
      let! suffix := lift (random_temp_suffix io (2 + attempt)) in
      let candidate := temp_path (path s) suffix in
      let! _ := lift (answered (VaultIo.open_fails io attempt)) in
      let! created := look (Fs.create_new candidate) in
      match created with
      | Some (i, fs') => let! _ := act (λ _, fs') in ret (i, candidate)
      | None => create_temp remaining (S attempt) io s
      end
  end.

Definition ATTEMPTS : nat := 32.

Definition save (io : VaultIo.t) (s : FileStore) (v : Vault.t) : M SecretsError unit :=
  let! passphrase := lift (passphrase io s 1) in
  let! salt := lift (random_bytes io 0 SALT_LEN) in
  let! nonce := lift (random_bytes io 1 NONCE_LEN) in
  let key := derive_key passphrase salt in
  let! ciphertext := lift (ok_or (encrypt p key nonce MAGIC (print_vault p v)) Crypto) in
  let directory := default "." (parent (path s)) in
  let! _ := lift (ensure_private_directory io directory) in
  let output := MAGIC ++ salt ++ nonce ++ ciphertext in
  let! (i, temp) := create_temp ATTEMPTS 0 io s in
  let! _ :=
    on_error
      (let! _ := write_all i output (VaultIo.write_fails io) (Io false) in
       let! _ := lift (answered (if VaultIo.sync io then None else Some false)) in
       rename temp (path s) (negb (VaultIo.rename io)) (Io false))
      (λ fs, if VaultIo.remove io then Fs.remove temp fs else fs) in
  let! _ := lift (answered (VaultIo.set_mode io (path s))) in
  lift (answered (if VaultIo.sync_directory io then None else Some false)).

(** What a reader makes of a store that was never written. *)
Definition or_empty (loaded : result Vault.t SecretsError) : result Vault.t SecretsError :=
  match loaded with Err (Io true) => Ok [] | _ => loaded end.

Definition get (io : VaultIo.t) (s : FileStore) (service account : list byte) (fs : Fs.t) :
    result (list byte) SecretsError :=
  let? vault := or_empty (load io s fs) in
  ok_or (Vault.find service account vault) (NotFound service account).

Definition set (io : VaultIo.t) (s : FileStore) (service account secret : list byte) :
    M SecretsError unit :=
  let! _ := lock_transaction io (path s) in
  let! loaded := look (load io s) in
  let! vault := lift (or_empty loaded) in
  save io s (Vault.set service account secret vault).

Definition delete (io : VaultIo.t) (s : FileStore) (service account : list byte) :
    M SecretsError bool :=
  let! _ := lock_transaction io (path s) in
  let! loaded := look (load io s) in
  match loaded with
  | Err (Io true) => ret false
  | _ =>
      let! vault := lift loaded in
      let remaining := Vault.remove service account vault in
      if length remaining =? length vault then ret false
      else let! _ := save io s remaining in ret true
  end.
End store.

(** ** Edits *)

Inductive edit :=
| Put (service account secret : list byte)
| Forget (service account : list byte).

Definition run_edit (p : Primitives) (io : VaultIo.t) (s : FileStore) (e : edit) : M SecretsError bool :=
  match e with
  | Put service account secret => let! _ := set p io s service account secret in ret true
  | Forget service account => delete p io s service account
  end.

(** What an edit means for the map of secrets, and what it answers. *)
Abbreviation secrets := (gmap (list byte * list byte) (list byte)).

Definition apply_edit (e : edit) (m : secrets) : secrets :=
  match e with
  | Put service account secret => <[(service, account) := secret]> m
  | Forget service account => base.delete (service, account) m
  end.

Definition answer_edit (e : edit) (m : secrets) : bool :=
  match e with
  | Put _ _ _ => true
  | Forget service account => bool_decide (is_Some (m !! (service, account)))
  end.

(** ** The manager: [manager.rs] *)

(** The operating system's keyring: entries by service and account. *)
Class Keyring (K : Type) := {
  entry : K → list byte * list byte → option (list byte);
  put : list byte * list byte → list byte → K → K;
  drop_entry : list byte * list byte → K → K;
}.

Class KeyringLaws (K : Type) `{Keyring K} : Prop := {
  entry_put r k x k' : entry (put k x r) k' = if bool_decide (k' = k) then Some x else entry r k';
  entry_drop r k k' : entry (drop_entry k r) k' = if bool_decide (k' = k) then None else entry r k';
}.

#[export] Instance gmap_keyring : Keyring secrets :=
  {| entry m k := m !! k; put k x m := <[k := x]> m; drop_entry k m := base.delete k m |}.

#[export] Instance gmap_keyring_laws : KeyringLaws secrets.
Proof.
  split; intros; cbn; case_bool_decide; subst;
    rewrite ?lookup_insert_eq, ?lookup_delete_eq, ?lookup_insert_ne, ?lookup_delete_ne by done; done.
Qed.

Inductive Backend := OsKeyring | EncryptedFile.

(** What the probe of the sentinel entry answers. *)
Inductive Probe := ProbeValue | ProbeNoEntry | ProbeFailed.

Record SecretManager := mkManager { keyring_available : bool; file : FileStore }.

Definition open_with_store (probe : Probe) (file : FileStore) : SecretManager :=
  mkManager (match probe with ProbeValue | ProbeNoEntry => true | ProbeFailed => false end) file.

Definition primary_backend (m : SecretManager) : Backend :=
  if keyring_available m then OsKeyring else EncryptedFile.

Definition unlock_file_store (passphrase : list byte) (m : SecretManager) : SecretManager :=
  mkManager (keyring_available m) (unlock passphrase (file m)).

Definition lock_file_store (m : SecretManager) : SecretManager :=
  mkManager (keyring_available m) (lock (file m)).

Definition combine_delete_results (primary_removed : bool) (fallback_removed : result bool SecretsError) :
    result bool SecretsError :=
  let? removed := fallback_removed in Ok (primary_removed || removed).

Section manager.
Context (p : Primitives) {K : Type} `{Keyring K}.

(** The calls of the keyring; [up] says whether the backend answers this one.  A
    missing entry is [Ok None] of a read and [Ok false] of a removal. *)
Definition keyring_get (up : bool) (service account : list byte) (ring : K) :
    result (option (list byte)) SecretsError :=
  if up then Ok (entry ring (service, account)) else Err KeyringFailed.

Definition keyring_set (up : bool) (service account secret : list byte) (ring : K) :
    K * result unit SecretsError :=
  if up then (put (service, account) secret ring, Ok tt) else (ring, Err KeyringFailed).

Definition keyring_delete (up : bool) (service account : list byte) (ring : K) :
    K * result bool SecretsError :=
  if up then (drop_entry (service, account) ring, Ok (bool_decide (is_Some (entry ring (service, account)))))
  else (ring, Err KeyringFailed).

Definition not_found (m : SecretManager) (service account : list byte) (fs : Fs.t) : SecretsError :=
  if negb (keyring_available m) && negb (exists_file (file m) fs) then NoStore
  else NotFound service account.

Definition manager_get (up : bool) (io : VaultIo.t) (m : SecretManager) (service account : list byte)
    (ring : K) (fs : Fs.t) : result (list byte) SecretsError :=
  let? found := if keyring_available m then keyring_get up service account ring else Ok None in
  match found with
  | Some value => Ok value
  | None =>
      match get p io (file m) service account fs with
      | Err (NotFound _ _) => Err (not_found m service account fs)
      | r => r
      end
  end.

Definition manager_set (up : bool) (io : VaultIo.t) (m : SecretManager)
    (service account secret : list byte) (ring : K) (fs : Fs.t) : K * Fs.t * result unit SecretsError :=
  if keyring_available m then
    let '(ring, r) := keyring_set up service account secret ring in (ring, fs, r)
  else (ring, after (set p io (file m) service account secret) fs,
        outcome (set p io (file m) service account secret) fs).

Definition manager_delete (up : bool) (io : VaultIo.t) (m : SecretManager)
    (service account : list byte) (ring : K) (fs : Fs.t) : K * Fs.t * result bool SecretsError :=
  let deleted := delete p io (file m) service account in
  if keyring_available m then
    let '(ring, removed) := keyring_delete up service account ring in
    match removed with
    | Err e => (ring, fs, Err e)
    | Ok removed => (ring, after deleted fs, combine_delete_results removed (outcome deleted fs))
    end
  else (ring, after deleted fs, outcome deleted fs).
End manager.

(** ** The vault as a map *)

Definition contents (v : Vault.t) : secrets :=
  list_to_map ((λ r, ((Vault.service r, Vault.account r), Vault.secret r)) <$> v).

#[local] Arguments contents : simpl never.

Lemma names_spec s a r : Vault.names s a r = true ↔ (Vault.service r, Vault.account r) = (s, a).
Proof. unfold Vault.names. rewrite andb_true_iff, !bool_decide_eq_true. split; [|intros [= -> ->]]; naive_solver. Qed.

Lemma contents_cons r v :
  contents (r :: v) = <[(Vault.service r, Vault.account r) := Vault.secret r]> (contents v).
Proof. done. Qed.

Lemma find_contents s a v : Vault.find s a v = contents v !! (s, a).
Proof.
  induction v as [|r v IH]; [symmetry; apply lookup_empty|].
  rewrite contents_cons. unfold Vault.find in *. cbn [List.find].
  destruct (Vault.names s a r) eqn:E.
  - apply names_spec in E. by rewrite E, lookup_insert_eq.
  - rewrite lookup_insert_ne; [done|]. intros H. apply names_spec in H. congruence.
Qed.

Lemma replace_contents s a x v :
  match Vault.replace s a x v with
  | Some v' => contents v' = <[(s, a) := x]> (contents v)
  | None => contents v !! (s, a) = None
  end.
Proof.
  induction v as [|r v IH]; cbn [Vault.replace]; [apply lookup_empty|].
  rewrite contents_cons. destruct (Vault.names s a r) eqn:E.
  - apply names_spec in E. by rewrite contents_cons, E, insert_insert_eq.
  - assert (Hne : (Vault.service r, Vault.account r) ≠ (s, a)).
    { intros H. apply names_spec in H. congruence. }
    destruct (Vault.replace s a x v) as [v'|]; cbn.
    + by rewrite contents_cons, IH, insert_insert_ne.
    + by rewrite lookup_insert_ne.
Qed.

Lemma contents_snoc v r :
  contents v !! (Vault.service r, Vault.account r) = None →
  contents (v ++ [r]) = <[(Vault.service r, Vault.account r) := Vault.secret r]> (contents v).
Proof.
  induction v as [|r' v IH]; [done|]. cbn [app]. rewrite !contents_cons.
  intros [Hne Hn]%lookup_insert_None. by rewrite IH, insert_insert_ne by done.
Qed.

Lemma set_contents s a x v : contents (Vault.set s a x v) = <[(s, a) := x]> (contents v).
Proof.
  unfold Vault.set. pose proof (replace_contents s a x v) as H.
  destruct (Vault.replace s a x v); [done|]. by rewrite contents_snoc.
Qed.

Lemma remove_contents s a v : contents (Vault.remove s a v) = base.delete (s, a) (contents v).
Proof.
  induction v as [|r v IH]; [symmetry; apply delete_empty|].
  unfold Vault.remove in *. cbn [List.filter]. rewrite contents_cons.
  destruct (Vault.names s a r) eqn:E; cbn [negb].
  - apply names_spec in E. by rewrite E, delete_insert_eq.
  - rewrite contents_cons, IH, delete_insert_ne; [done|].
    intros H. symmetry in H. apply names_spec in H. congruence.
Qed.

Lemma remove_length s a v :
  length (Vault.remove s a v) ≤ length v ∧
  (length (Vault.remove s a v) = length v ↔ contents v !! (s, a) = None).
Proof.
  induction v as [|r v [Hle IH]]; [by split; [|split]|].
  unfold Vault.remove in *. cbn [List.filter length]. rewrite contents_cons.
  destruct (Vault.names s a r) eqn:E; cbn [negb length].
  - apply names_spec in E. rewrite E, lookup_insert_eq. split; [lia|]. split; [lia|done].
  - rewrite lookup_insert_ne; [split; [lia|]; rewrite <- IH; split; lia|].
    intros H. apply names_spec in H. congruence.
Qed.

(** ** Names *)

Lemma temp_not_path q suffix : temp_path q suffix ≠ q.
Proof.
  intros H. enough (String.length q < String.length (temp_path q suffix)) by (rewrite H in *; lia).
  apply with_file_name_longer. unfold vault_name. rewrite !string_length_app.
  destruct (file_name q); simpl; lia.
Qed.

Lemma lock_not_path q : transaction_lock_path q ≠ q.
Proof.
  intros H. enough (String.length q < String.length (transaction_lock_path q)) by (rewrite H in *; lia).
  apply with_file_name_longer. unfold vault_name. rewrite !string_length_app.
  destruct (file_name q); simpl; lia.
Qed.

(** The names beside the vault its writers use. *)
Definition beside (q other : string) : Prop :=
  other = transaction_lock_path q ∨ ∃ suffix, other = temp_path q suffix.

(** ** The format *)

Section facts.
Context (p : Primitives) `{!PrimitiveLaws p} (pass : list byte).

Definition opens (bytes : list byte) (v : Vault.t) : Prop :=
  ∃ parts, split_vault bytes = Ok parts ∧ open_vault p pass parts = Ok v.

Lemma opens_iff bytes v :
  opens bytes v ↔
  ∃ salt nonce plaintext ciphertext,
    length salt = SALT_LEN ∧ length nonce = NONCE_LEN ∧
    bytes = MAGIC ++ salt ++ nonce ++ ciphertext ∧
    encrypt p (derive_key p pass salt) nonce MAGIC plaintext = Some ciphertext ∧
    parse_vault p plaintext = Some v.
Proof.
  split.
  - intros ([[salt nonce] ciphertext] & Hs & Ho). unfold split_vault in Hs.
    destruct (_ <? _) eqn:El; [done|]. apply Nat.ltb_ge in El.
    case_bool_decide as Hm; [|done]. cbn [negb] in Hs. injection Hs as <- <- <-.
    unfold open_vault in Ho. apply result_bind_Ok in Ho as (plain & Hd%ok_or_Ok & Hp%ok_or_Ok).
    do 4 eexists. split_and!; [..|by eapply opened_sealed|done].
    + rewrite length_take, length_drop. unfold SALT_LEN, NONCE_LEN in *. lia.
    + rewrite length_take, !length_drop. unfold SALT_LEN, NONCE_LEN in *. lia.
    + rewrite <- Hm at 1. by rewrite !take_drop.
  - intros (salt & nonce & plain & c & Hsalt & Hnonce & -> & He & Hp).
    exists (salt, nonce, c). unfold split_vault, open_vault.
    assert (Hlen : length MAGIC + SALT_LEN + NONCE_LEN + 16 ≤ length (MAGIC ++ salt ++ nonce ++ c)).
    { rewrite !length_app, Hsalt, Hnonce. apply sealed_length in He. lia. }
    apply Nat.ltb_ge in Hlen. rewrite Hlen.
    rewrite take_app_length, bool_decide_eq_true_2 by done. cbn [negb].
    rewrite !drop_app_length. rewrite <- Hsalt, take_app_length, drop_app_length.
    rewrite <- Hnonce, take_app_length, drop_app_length. split; [done|].
    rewrite (sealed_opens _ _ _ _ _ He). cbn. by rewrite Hp.
Qed.

Lemma opens_unique bytes v v' : opens bytes v → opens bytes v' → v = v'.
Proof. intros (parts & Hs & Ho) (parts' & Hs' & Ho'). congruence. Qed.

(** A store reads as a vault: empty before the first write. *)
Definition reads (q : string) (fs : Fs.t) (v : Vault.t) : Prop :=
  match Fs.read_name q fs with None => v = [] | Some bytes => opens bytes v end.

Definition holds (q : string) (fs : Fs.t) (m : secrets) : Prop :=
  ∃ v, reads q fs v ∧ contents v = m.

Lemma holds_unique q fs m m' : holds q fs m → holds q fs m' → m = m'.
Proof.
  intros (v & Hv & <-) (v' & Hv' & <-). f_equal. unfold reads in *.
  destruct (Fs.read_name q fs); [by eapply opens_unique|congruence].
Qed.

Lemma load_reads io s fs v :
  passphrase io s 0 = Ok pass → or_empty (load p io s fs) = Ok v → reads (path s) fs v.
Proof.
  intros Hp Hl. unfold or_empty in Hl.
  assert (Hl' : load p io s fs = Ok v ∨ (load p io s fs = Err (Io true) ∧ v = [])).
  { destruct (load p io s fs) as [v'|[| | |[]|]]; naive_solver. }
  clear Hl. unfold load in Hl'. unfold reads.
  destruct (VaultIo.read io); [|by destruct Hl' as [?|[? _]]].
  destruct (Fs.read_name (path s) fs) as [bytes|]; cbn in Hl'; [|naive_solver].
  destruct (split_vault bytes) as [parts|e] eqn:Es; cbn in Hl'.
  2:{ unfold split_vault in Es. destruct Hl' as [?|[? _]]; [done|].
      destruct (_ <? _); [naive_solver|]. destruct (negb _); naive_solver. }
  rewrite Hp in Hl'. cbn in Hl'. exists parts. split; [done|].
  destruct Hl' as [?|[Ho _]]; [done|]. unfold open_vault in Ho. destruct parts as [[salt nonce] c].
  destruct (decrypt p _ _ _ _) as [plain|]; [|done]. cbn in Ho. by destruct (parse_vault p plain).
Qed.

Lemma reads_load io s fs v :
  passphrase io s 0 = Ok pass → VaultIo.read io = true → reads (path s) fs v →
  or_empty (load p io s fs) = Ok v.
Proof.
  intros Hp Hio. unfold reads, load. rewrite Hio.
  destruct (Fs.read_name (path s) fs) as [bytes|]; [|by intros ->].
  intros (parts & Hs & Ho). cbn. rewrite Hs. cbn. rewrite Hp. cbn. by rewrite Ho.
Qed.

(** ** A writer's states *)

(** No file but the vault and the names beside it is touched. *)
Definition untouched (q : string) (fs fs' : Fs.t) : Prop :=
  ∀ other, other ≠ q → ¬ beside q other → Fs.read_name other fs' = Fs.read_name other fs.

Definition same (q : string) (fs fs' : Fs.t) : Prop :=
  Fs.read_name q fs' = Fs.read_name q fs ∧ untouched q fs fs'.

Definition replaced (q : string) (v : Vault.t) (fs fs' : Fs.t) : Prop :=
  (∃ bytes, Fs.read_name q fs' = Some bytes ∧ opens bytes v) ∧ untouched q fs fs'.

Definition between (q : string) (v : Vault.t) (fs fs' : Fs.t) : Prop :=
  same q fs fs' ∨ replaced q v fs fs'.

Lemma same_refl q fs : same q fs fs.
Proof. done. Qed.

Lemma runs_answered {A} I (a : answer) (k : unit → M SecretsError A) fs Q X :
  (a = None → runs I (k tt) fs Q X) → (∀ e, X e fs) →
  runs I (bind (lift (answered a)) k) fs Q X.
Proof.
  intros Hk HX. apply runs_bind, runs_lift; [|intros e _; apply HX].
  intros [] H. destruct a; [done|]. auto.
Qed.

Lemma runs_lifted {A B} I (r : result B SecretsError) (k : B → M SecretsError A) fs Q X :
  (∀ b, r = Ok b → runs I (k b) fs Q X) → (∀ e, X e fs) →
  runs I (bind (lift r) k) fs Q X.
Proof. intros Hk HX. apply runs_bind, runs_lift; [apply Hk|intros e _; apply HX]. Qed.

Lemma lock_runs io q fs :
  runs (same q fs) (lock_transaction io q) fs (λ _, same q fs) (λ _, same q fs).
Proof.
  unfold lock_transaction. apply runs_lifted; [|intros; apply same_refl]. intros [] _.
  apply runs_answered; [|intros; apply same_refl]. intros _.
  set (fs' := match Fs.create_new (transaction_lock_path q) fs with Some (_, fs') => fs' | None => fs end).
  assert (Hs : same q fs fs').
  { unfold fs'. destruct (Fs.names fs !! transaction_lock_path q) as [i|] eqn:E.
    - unfold Fs.create_new. by rewrite E.
    - rewrite create_new_spec by done. split.
      + apply read_with_other. intros H. symmetry in H. by apply lock_not_path in H.
      + intros other _ Hb. apply read_with_other. intros ->. apply Hb. by left. }
  apply runs_bind, runs_act; [done|].
  apply runs_answered; [|done]. intros _. apply runs_lift; [done..].
Qed.

Lemma runs_locked {A} I io q (k : unit → M SecretsError A) fs Q X :
  (∀ fs1, same q fs fs1 → I fs1) → (∀ e fs1, same q fs fs1 → X e fs1) →
  (∀ fs1, same q fs fs1 → runs I (k tt) fs1 Q X) →
  runs I (bind (lock_transaction io q) k) fs Q X.
Proof.
  intros HI HX Hk. apply runs_bind. eapply runs_mono; [apply lock_runs|..]; [done| |done].
  intros [] fs1 Hs. by apply Hk.
Qed.

Lemma create_temp_runs {A} I io s (k : N * string → M SecretsError A) fs Q X remaining : ∀ attempt,
  (∀ suffix, let temp := temp_path (path s) suffix in Fs.names fs !! temp = None →
     I (with_file temp [] fs) ∧ runs I (k (Fs.next fs, temp)) (with_file temp [] fs) Q X) →
  (∀ e, X e fs) →
  runs I (bind (create_temp remaining attempt io s) k) fs Q X.
Proof.
  intros attempt Hk HX. revert attempt. induction remaining as [|remaining IH]; intros attempt.
  { by apply runs_lifted. }
  cbn [create_temp]. apply runs_bind. apply runs_lifted; [|done]. intros suffix _.
  apply runs_answered; [|done]. intros _. apply runs_bind, runs_look.
  destruct (Fs.names fs !! temp_path (path s) suffix) as [j|] eqn:E.
  - unfold Fs.create_new. rewrite E. apply runs_bind_iff, IH.
  - rewrite create_new_spec by done. destruct (Hk suffix E) as [HI Hr].
    by apply runs_bind, runs_act, runs_ret.
Qed.

Lemma random_length io call n b : random_bytes io call n = Ok b → length b = n.
Proof.
  unfold random_bytes. intros (f & _ & ->)%ok_or_Ok%fmap_Some. by rewrite length_fmap, length_seq.
Qed.

Lemma save_runs io s v fs :
  passphrase io s 1 = Ok pass →
  runs (between (path s) v fs) (save p io s v) fs
    (λ _, replaced (path s) v fs) (λ _, between (path s) v fs).
Proof.
  intros Hp. unfold save. rewrite Hp.
  assert (Hid : between (path s) v fs fs) by (left; apply same_refl).
  apply runs_lifted; [|done]. intros pass' [= <-].
  apply runs_lifted; [|done]. intros salt Hsalt%random_length.
  apply runs_lifted; [|done]. intros nonce Hnonce%random_length.
  apply runs_lifted; [|done]. intros c Hc%ok_or_Ok.
  apply runs_lifted; [|done]. intros [] _.
  set (output := MAGIC ++ salt ++ nonce ++ c).
  assert (Hout : opens output v).
  { apply opens_iff. exists salt, nonce, (print_vault p v), c. split_and!; [done..|]. apply vault_roundtrip. }
  assert (Hpub : replaced (path s) v fs (with_file (path s) output fs)).
  { destruct (published_reads (path s) output fs) as [H1 H2]. split; [by exists output|].
    intros other Ho _. by apply H2. }
  apply create_temp_runs; [|done]. intros suffix temp Hfree.
  assert (Htemp : ∀ fs', unpublished temp fs fs' → between (path s) v fs fs').
  { intros fs' Hu. left. apply (unpublished_reads temp (path s)) in Hu as [H1 H2]; [|done|apply temp_not_path].
    split; [done|]. intros other Ho Hb. apply H2; [done|]. intros ->. apply Hb. right. by eexists. }
  split; [apply Htemp; by exists []; left|].
  apply runs_bind. apply runs_on_error. apply runs_bind.
  apply runs_write_all; [done| |].
  - apply runs_answered; [|intros; split; apply Htemp, remove_unpublished; done].
    intros _. apply runs_rename; [done| |].
    + intros _. split; [by right|]. apply runs_answered; [|by right]. intros _.
      apply runs_lift; [done|by right].
    + intros _. split; apply Htemp, remove_unpublished; done.
  - intros bs. split; apply Htemp, remove_unpublished; done.
Qed.

(** What a state may be while an edit is under way. *)
Definition midway (q : string) (m m' : secrets) (fs fs' : Fs.t) : Prop :=
  (holds q fs' m ∨ holds q fs' m') ∧ untouched q fs fs'.

Lemma same_holds q fs fs' m : same q fs fs' → holds q fs m → holds q fs' m.
Proof. intros [E _] (v & Hv & Hm). exists v. split; [|done]. unfold reads in *. by rewrite E. Qed.

Lemma replaced_holds q v fs fs' : replaced q v fs fs' → holds q fs' (contents v).
Proof. intros [(bytes & E & Ho) _]. exists v. split; [|done]. unfold reads. by rewrite E. Qed.

Lemma untouched_trans q fs fs1 fs2 : untouched q fs fs1 → untouched q fs1 fs2 → untouched q fs fs2.
Proof. intros H1 H2 other Ho Hb. by rewrite H2, H1. Qed.

Lemma same_midway q m m' fs fs' : holds q fs m → same q fs fs' → midway q m m' fs fs'.
Proof. intros Hm Hs. split; [left; by eapply same_holds|by destruct Hs]. Qed.

Lemma between_midway q v m fs fs1 fs2 :
  holds q fs m → same q fs fs1 → between q v fs1 fs2 → midway q m (contents v) fs fs2.
Proof.
  intros Hm Hs Hb. pose proof (same_holds _ _ _ _ Hs Hm) as Hm1. destruct Hs as [_ Hu].
  destruct Hb as [Hb|Hb]; (split; [|eapply untouched_trans; [done|by destruct Hb]]).
  - left. by eapply same_holds.
  - right. by eapply replaced_holds.
Qed.

Section edit.
Context (io : VaultIo.t) (s : FileStore) (Hpass : ∀ call, passphrase io s call = Ok pass).

Lemma save_midway v m fs fs1 :
  holds (path s) fs m → same (path s) fs fs1 →
  runs (midway (path s) m (contents v) fs) (save p io s v) fs1
    (λ _ fs', holds (path s) fs' (contents v) ∧ untouched (path s) fs fs')
    (λ _, midway (path s) m (contents v) fs).
Proof.
  intros Hm Hs. eapply runs_mono; [apply save_runs, Hpass|..].
  - intros fs2. by apply between_midway.
  - intros ? fs2 Hr. cbn beta in *. split; [by eapply replaced_holds|].
    apply (untouched_trans _ _ fs1); [by destruct Hs|by destruct Hr].
  - intros ? fs2. by apply between_midway.
Qed.

Lemma edit_runs e m fs :
  holds (path s) fs m →
  runs (midway (path s) m (apply_edit e m) fs) (run_edit p io s e) fs
    (λ b fs', b = answer_edit e m ∧ holds (path s) fs' (apply_edit e m) ∧ untouched (path s) fs fs')
    (λ _, midway (path s) m (apply_edit e m) fs).
Proof.
  intros Hm. destruct e as [service account secret|service account]; cbn [run_edit apply_edit answer_edit].
  1: apply runs_bind.
  all: apply runs_locked; [intros; by apply same_midway..|]; intros fs1 Hs.
  all: pose proof (same_holds _ _ _ _ Hs Hm) as Hm1; apply runs_bind, runs_look.
  - apply runs_lifted; [|intros; by apply same_midway]. intros v Hl%load_reads; [|done].
    assert (contents v = m) as <- by (eapply (holds_unique (path s) fs1); [by exists v|done]).
    rewrite <- set_contents. eapply runs_mono; [by eapply (save_midway _ _ fs)|done| |done].
    intros [] fs2 [H1 H2]. by apply runs_ret.
  - assert (Hl : ∀ v, or_empty (load p io s fs1) = Ok v → contents v = m).
    { intros v Hv%load_reads; [|done]. eapply (holds_unique (path s) fs1); [by exists v|done]. }
    assert (Hkept : midway (path s) m (base.delete (service, account) m) fs fs1) by by apply same_midway.
    assert (Hnone : ∀ fs', same (path s) fs fs' → m !! (service, account) = None →
      false = bool_decide (is_Some (m !! (service, account))) ∧
      holds (path s) fs' (base.delete (service, account) m) ∧ untouched (path s) fs fs').
    { intros fs' Hs' E. split_and!; [|rewrite delete_id by done; by eapply same_holds|by destruct Hs'].
      rewrite bool_decide_eq_false_2; [done|]. rewrite E. by intros []. }
    destruct (load p io s fs1) as [v|e] eqn:El.
    + specialize (Hl v eq_refl). apply runs_lifted; [|done]. intros v' [= <-]. cbv zeta.
      destruct (remove_length service account v) as [_ Hlen]. rewrite Hl in Hlen.
      destruct (Nat.eqb_spec (length (Vault.remove service account v)) (length v)) as [E|E].
      * apply runs_ret, Hnone; [done|]. by apply Hlen.
      * apply runs_bind. rewrite <- Hl, <- remove_contents, Hl.
        eapply runs_mono; [by eapply (save_midway _ _ fs)|done| |done].
        intros [] fs2 [H1 H2]. apply runs_ret. split; [|done].
        rewrite bool_decide_eq_true_2; [done|]. apply not_eq_None_Some.
        intros Hn. by apply E, Hlen.
    + destruct e as [| | |[]|]; try by apply runs_lifted.
      apply runs_ret, Hnone; [done|]. specialize (Hl [] eq_refl). by rewrite <- Hl.
Qed.

(** A vault the passphrase does not open. *)
Lemma edit_locked_out e bytes fs :
  Fs.read_name (path s) fs = Some bytes → (∀ v, ¬ opens bytes v) →
  runs (same (path s) fs) (run_edit p io s e) fs (λ _ _, False) (λ _, same (path s) fs).
Proof.
  intros Hb Hno. destruct e as [service account secret|service account]; cbn [run_edit].
  1: apply runs_bind.
  all: apply runs_locked; [done..|]; intros fs1 Hs.
  all: apply runs_bind, runs_look.
  all: assert (Hl : ∀ v, or_empty (load p io s fs1) ≠ Ok v).
  1, 3: intros v Hv%load_reads; [|done]; unfold reads in Hv; destruct Hs as [E _];
    rewrite E, Hb in Hv; by apply (Hno v).
  - apply runs_lifted; [|done]. intros v Hv. by apply Hl in Hv.
  - destruct (load p io s fs1) as [v|[| | |[]|]]; try (by apply runs_lifted).
    + by destruct (Hl v).
    + by destruct (Hl []).
Qed.
End edit.

(** ** A writer that nothing stops *)

Lemma last_letter (a b : string) (x y : ascii) : a +:+ String x "" = b +:+ String y "" → x = y.
Proof.
  intros H. apply (f_equal bytes) in H. rewrite !bytes_app in H.
  apply (f_equal last) in H. change (bytes (String x "")) with [x] in H.
  change (bytes (String y "")) with [y] in H. rewrite !last_snoc in H. by injection H.
Qed.

Lemma string_app_assoc (a b c : string) : (a +:+ b) +:+ c = a +:+ (b +:+ c).
Proof.
  induction a as [|x a IH]; [done|].
  change (String x ((a +:+ b) +:+ c) = String x (a +:+ (b +:+ c))). by rewrite IH.
Qed.

Lemma temp_not_lock q suffix : temp_path q suffix ≠ transaction_lock_path q.
Proof.
  unfold temp_path, transaction_lock_path, with_file_name, join.
  change ".tmp" with (".tm" +:+ "p"). change ".lock" with (".loc" +:+ "k").
  destruct (file_name q); case_bool_decide; rewrite <- ?string_app_assoc; by intros ?%last_letter.
Qed.

Definition suffix_of (entropy : nat → nat → byte) (attempt : nat) : string :=
  String.string_of_list_ascii (to_hex (entropy (2 + attempt) <$> seq 0 16)).

Section live.
Context (entropy : nat → nat → byte) (s : FileStore) (n : nat).
Context (Hsealed : ∀ key nonce m, is_Some (encrypt p key nonce MAGIC m)).
Context (Hn : n < ATTEMPTS) (Hcached : passphrase_cache s = Some pass).
Let io := VaultIo.perfect entropy.

Definition free (fs : Fs.t) : Prop := Fs.names fs !! temp_path (path s) (suffix_of entropy n) = None.

Abbreviation succeeds m fs Q := (runs (λ _, True) m fs Q (λ _ _, False)).

Lemma create_temp_live {A} (k : N * string → M SecretsError A) fs Q remaining : ∀ attempt,
  (∀ suffix, let temp := temp_path (path s) suffix in Fs.names fs !! temp = None →
     succeeds (k (Fs.next fs, temp)) (with_file temp [] fs) Q) →
  free fs → attempt ≤ n < attempt + remaining →
  succeeds (bind (create_temp remaining attempt io s) k) fs Q.
Proof.
  induction remaining as [|remaining IH]; intros attempt Hk Hf Ha; [lia|].
  cbn [create_temp]. apply runs_bind. eapply runs_Ok; [done|].
  eapply runs_Ok; [done|]. apply runs_bind, runs_look.
  set (temp := temp_path _ _).
  destruct (Fs.names fs !! temp) as [i|] eqn:E.
  - unfold Fs.create_new. rewrite E.
    assert (attempt ≠ n) by (intros ->; unfold free, suffix_of, temp in *; congruence).
    apply runs_bind_iff, IH; [done..|lia].
  - rewrite create_new_spec by done. apply runs_bind, runs_act; [done|]. by apply runs_ret, Hk.
Qed.

Lemma save_live v fs : free fs → succeeds (save p io s v) fs (λ _ _, True).
Proof.
  intros Hf. unfold save.
  eapply runs_Ok; [unfold passphrase; by rewrite Hcached|].
  eapply runs_Ok; [done|]. eapply runs_Ok; [done|].
  set (key := derive_key p pass _). set (nonce := _ <$> seq 0 NONCE_LEN).
  destruct (Hsealed key nonce (print_vault p v)) as [c Hc].
  eapply runs_Ok; [by rewrite Hc|]. eapply runs_Ok; [done|].
  apply create_temp_live; [|done|unfold ATTEMPTS in *; lia]. intros suffix temp Hfree.
  apply runs_bind, runs_on_error, runs_bind. cbn [VaultIo.write_fails VaultIo.perfect io].
  split; [apply Forall_true; done|]. cbn. rewrite write_with_file.
  eapply runs_Ok; [done|]. apply runs_rename; [done| |done].
  intros _. split; [done|]. eapply runs_Ok; [done|]. by apply runs_lift.
Qed.

Lemma edit_live e m fs :
  holds (path s) fs m → free fs → ∃ b, outcome (run_edit p io s e) fs = Ok b.
Proof.
  intros Hm Hf.
  assert (Hlock : ∀ A (k : unit → M SecretsError A) Q,
    (∀ fs1, same (path s) fs fs1 → free fs1 → succeeds (k tt) fs1 Q) →
    succeeds (bind (lock_transaction io (path s)) k) fs Q).
  { intros A k Q Hk. apply runs_bind. unfold lock_transaction. eapply runs_Ok; [done|].
    eapply runs_Ok; [done|]. apply runs_bind, runs_act; [done|]. eapply runs_Ok; [done|].
    apply runs_lift; [|done]. intros [] _.
    destruct (Fs.names fs !! transaction_lock_path (path s)) as [i|] eqn:E.
    { unfold Fs.create_new. rewrite E. by apply Hk. }
    rewrite create_new_spec by done. apply Hk.
    - split; [|intros other _ Hb]; apply read_with_other.
      + intros H. symmetry in H. by apply lock_not_path in H.
      + intros ->. apply Hb. by left.
    - unfold free, with_file. cbn. rewrite lookup_insert_ne; [done|].
      intros H. symmetry in H. by apply temp_not_lock in H. }
  assert (Hpass : passphrase io s 0 = Ok pass) by (unfold passphrase; by rewrite Hcached).
  assert (Hl : ∀ fs1, same (path s) fs fs1 → ∃ v, or_empty (load p io s fs1) = Ok v).
  { intros fs1 Hs. destruct (same_holds _ _ _ _ Hs Hm) as (v & Hv & _). exists v. by apply reads_load. }
  enough (H : succeeds (run_edit p io s e) fs (λ _ _, True)).
  { destruct H as [_ H]. destruct (outcome (run_edit p io s e) fs); [eauto|done]. }
  destruct e as [service account secret|service account]; cbn [run_edit].
  - apply runs_bind, Hlock. intros fs1 Hs Hf1. apply runs_bind, runs_look.
    destruct (Hl fs1 Hs) as [v Hv]. eapply runs_Ok; [done|].
    eapply runs_mono; [by apply save_live|done| |done]. intros. by apply runs_ret.
  - apply Hlock. intros fs1 Hs Hf1. apply runs_bind, runs_look.
    destruct (Hl fs1 Hs) as [v Hv].
    destruct (load p io s fs1) as [v'|[| | |[]|]]; try done.
    eapply runs_Ok; [done|]. cbv zeta. case_match; [by apply runs_ret|]. apply runs_bind.
    eapply runs_mono; [by apply save_live|done| |done]. intros. by apply runs_ret.
Qed.
End live.
End facts.

(** ** Histories of writers *)

(** Each edit returned, or its process crashed in a state it passes through. *)
Inductive writes (p : Primitives) (s : FileStore) :
    Fs.t → list (edit * option (result bool SecretsError)) → Fs.t → Prop :=
| writes_nil fs : writes p s fs [] fs
| writes_return io e fs h fs' :
    writes p s (after (run_edit p io s e) fs) h fs' →
    writes p s fs ((e, Some (outcome (run_edit p io s e) fs)) :: h) fs'
| writes_crash io e fs mid h fs' :
    mid ∈ states (run_edit p io s e) fs → writes p s mid h fs' →
    writes p s fs ((e, None) :: h) fs'.

(** The map when some of the edits took effect. *)
Definition replay (h : list (edit * option (result bool SecretsError))) (took : list bool) (m : secrets) :
    secrets :=
  foldl (λ m t, if t.2 : bool then apply_edit t.1.1 m else m) m (zip h took).

Lemma replay_cons e r h b took m :
  replay ((e, r) :: h) (b :: took) m = replay h took (if b then apply_edit e m else m).
Proof. done. Qed.

Lemma cached_passphrase s pass io call : passphrase_cache s = Some pass → passphrase io s call = Ok pass.
Proof. unfold passphrase. by intros ->. Qed.

Lemma edit_step p `{!PrimitiveLaws p} pass s m fs e io :
  passphrase_cache s = Some pass → holds p pass (path s) fs m →
  (∀ mid, mid ∈ states (run_edit p io s e) fs → midway p pass (path s) m (apply_edit e m) fs mid) ∧
  match outcome (run_edit p io s e) fs with
  | Ok b => b = answer_edit e m ∧ holds p pass (path s) (after (run_edit p io s e) fs) (apply_edit e m) ∧
      untouched (path s) fs (after (run_edit p io s e) fs)
  | Err _ => midway p pass (path s) m (apply_edit e m) fs (after (run_edit p io s e) fs)
  end.
Proof.
  intros Hc Hm. destruct (edit_runs p pass io s (λ call, cached_passphrase s pass io call Hc) e m fs Hm)
    as [H1 H2].
  split; [by apply Forall_forall|done].
Qed.

(** Whether one edit took effect. *)
Lemma midway_took q p pass m m' fs mid :
  midway p pass q m m' fs mid →
  ∃ b : bool, holds p pass q mid (if b then m' else m) ∧ untouched q fs mid.
Proof. intros [[H|H] Hu]; [exists false|exists true]; done. Qed.

Lemma history_replay p `{!PrimitiveLaws p} pass s fs h fs' :
  passphrase_cache s = Some pass → writes p s fs h fs' → ∀ m,
  holds p pass (path s) fs m →
  ∃ took, length took = length h ∧ holds p pass (path s) fs' (replay h took m) ∧
    untouched (path s) fs fs' ∧
    ∀ i e r, h !! i = Some (e, Some (Ok r)) →
      took !! i = Some true ∧ r = answer_edit e (replay (take i h) took m).
Proof.
  intros Hc. induction 1 as [fs|io e fs h fs' Hw IH|io e fs mid h fs' Hmid Hw IH]; intros m Hm.
  { by exists []. }
  all: destruct (edit_step p pass s m fs e io Hc Hm) as [Hstates Hr].
  - assert (Hb : ∃ b : bool, holds p pass (path s) (after (run_edit p io s e) fs) (if b then apply_edit e m else m)
        ∧ untouched (path s) fs (after (run_edit p io s e) fs) ∧
        ∀ r, outcome (run_edit p io s e) fs = Ok r → b = true ∧ r = answer_edit e m).
    { destruct (outcome (run_edit p io s e) fs) as [r|err].
      - destruct Hr as (-> & ? & ?). exists true. split_and!; [done..|]. by intros r [= <-].
      - apply midway_took in Hr as (b & ? & ?). by exists b. }
    destruct Hb as (b & Hh & Hu & Hok). destruct (IH _ Hh) as (took & Hlen & Hfin & Hu' & Hall).
    exists (b :: took). cbn [length]. rewrite replay_cons. split_and!; [lia|done| |].
    + by eapply untouched_trans.
    + intros [|i] e' r Hi; cbn in Hi.
      * injection Hi as <- Ho. destruct (Hok r Ho) as [-> ->]. done.
      * cbn [take]. rewrite replay_cons. by apply Hall.
  - apply Hstates, midway_took in Hmid as (b & Hh & Hu).
    destruct (IH _ Hh) as (took & Hlen & Hfin & Hu' & Hall).
    exists (b :: took). cbn [length]. rewrite replay_cons. split_and!; [lia|done| |].
    + by eapply untouched_trans.
    + intros [|i] e' r Hi; cbn in Hi; [done|]. cbn [take]. rewrite replay_cons. by apply Hall.
Qed.

Lemma get_exact p `{!PrimitiveLaws p} pass s fs m io service account :
  passphrase_cache s = Some pass → holds p pass (path s) fs m → VaultIo.read io = true →
  get p io s service account fs = ok_or (m !! (service, account)) (NotFound service account).
Proof.
  intros Hc (v & Hv & <-) Hio. unfold get.
  rewrite (reads_load p pass io s fs v); [|by apply cached_passphrase|done..].
  cbn. by rewrite find_contents.
Qed.

(** C10. An unlocked vault is a durable map: whatever sequence of writes and removals runs,
    each returning or crashing at any step, whatever failures the system answers with,
    the vault holds the result of applying, in order, every edit that returned success
    and some of the others, each wholly or not at all; every success reported the truth,
    every read gives what the map has, and no other file changes. *)
Theorem vault_history_exact p `{!PrimitiveLaws p} pass s fs h fs' m :
  passphrase_cache s = Some pass → holds p pass (path s) fs m → writes p s fs h fs' →
  ∃ took, length took = length h ∧
    (∀ i e r, h !! i = Some (e, Some (Ok r)) →
       took !! i = Some true ∧ r = answer_edit e (replay (take i h) took m)) ∧
    (∀ io service account, VaultIo.read io = true →
       get p io s service account fs' =
       ok_or (replay h took m !! (service, account)) (NotFound service account)) ∧
    untouched (path s) fs fs'.
Proof.
  intros Hc Hm Hw. destruct (history_replay p pass s fs h fs' Hc Hw m Hm) as (took & Hlen & Hh & Hu & Hr).
  exists took. split_and!; [done..| |done]. intros io service account Hio. by apply (get_exact p pass).
Qed.

(** C38. A vault the passphrase does not open - another passphrase, a damaged or foreign
    file - is never overwritten: every read says so, every write and removal fails, and
    in every state on the way the vault and all other files read as before.  The files
    that open are exactly those sealed under the passphrase in the format. *)
Theorem vault_locked_out p `{!PrimitiveLaws p} pass s fs bytes :
  passphrase_cache s = Some pass → Fs.read_name (path s) fs = Some bytes →
  (∀ salt nonce plaintext ciphertext v,
     length salt = SALT_LEN → length nonce = NONCE_LEN →
     bytes = MAGIC ++ salt ++ nonce ++ ciphertext →
     parse_vault p plaintext = Some v →
     encrypt p (derive_key p pass salt) nonce MAGIC plaintext ≠ Some ciphertext) →
  (∀ io service account, VaultIo.read io = true → get p io s service account fs = Err Crypto) ∧
  ∀ io e, (∃ error, outcome (run_edit p io s e) fs = Err error) ∧
    ∀ fs', fs' ∈ after (run_edit p io s e) fs :: states (run_edit p io s e) fs →
      Fs.read_name (path s) fs' = Some bytes ∧ untouched (path s) fs fs'.
Proof.
  intros Hc Hb Hno.
  assert (Hopen : ∀ v, ¬ opens p pass bytes v).
  { intros v (salt & nonce & plain & c & H1 & H2 & H3 & H4 & H5)%(opens_iff p). by eapply Hno. }
  split.
  - intros io service account Hio. unfold get, load. rewrite Hio, Hb. cbn.
    destruct (split_vault bytes) as [parts|e] eqn:Es; cbn.
    + rewrite (cached_passphrase s pass) by done. cbn.
      destruct (open_vault p pass parts) as [v|e] eqn:Eo; [by destruct (Hopen v); exists parts|].
      unfold open_vault in Eo. destruct parts as [[salt nonce] c].
      destruct (decrypt p _ _ _ _) as [plain|]; cbn in Eo; [|by injection Eo as <-].
      destruct (parse_vault p plain); [done|]. by injection Eo as <-.
    + unfold split_vault in Es. destruct (_ <? _); [by injection Es as <-|].
      destruct (negb _); [by injection Es as <-|done].
  - intros io e. destruct (edit_locked_out p pass io s (λ call, cached_passphrase s pass io call Hc)
      e bytes fs Hb Hopen) as [Hs Ho].
    rewrite Forall_forall in Hs. destruct (outcome (run_edit p io s e) fs) as [|error]; [done|].
    split; [by exists error|]. intros fs' [->|Hin]%elem_of_cons.
    + destruct Ho as [-> Hu]. done.
    + destruct (Hs fs' Hin) as [-> Hu]. done.
Qed.

(** ** What a manager finds *)

Definition seen {K} `{Keyring K} (m : SecretManager) (ring : K) (vault : secrets)
    (k : list byte * list byte) : option (list byte) :=
  if keyring_available m then
    match entry ring k with Some x => Some x | None => vault !! k end
  else vault !! k.

Lemma seen_put {K} `{KeyringLaws K} m (ring : K) vault k x :
  keyring_available m = true →
  ∀ k', seen m (put k x ring) vault k' = if bool_decide (k' = k) then Some x else seen m ring vault k'.
Proof. intros Ha k'. unfold seen. rewrite Ha, entry_put. by case_bool_decide. Qed.

Lemma seen_apply {K} `{KeyringLaws K} m (ring : K) vault s a x :
  keyring_available m = false →
  ∀ k', seen m ring (apply_edit (Put s a x) vault) k' =
        if bool_decide (k' = (s, a)) then Some x else seen m ring vault k'.
Proof.
  intros Ha k'. unfold seen. rewrite Ha. cbn [apply_edit]. case_bool_decide as E.
  - by rewrite E, lookup_insert_eq.
  - by rewrite lookup_insert_ne.
Qed.

Lemma edit_returned p `{!PrimitiveLaws p} pass s m fs e io b :
  passphrase_cache s = Some pass → holds p pass (path s) fs m → outcome (run_edit p io s e) fs = Ok b →
  b = answer_edit e m ∧ holds p pass (path s) (after (run_edit p io s e) fs) (apply_edit e m).
Proof.
  intros Hc Hm Ho. destruct (edit_step p pass s m fs e io Hc Hm) as [_ H]. rewrite Ho in H. naive_solver.
Qed.

Lemma put_run p io s service account secret fs :
  after (run_edit p io s (Put service account secret)) fs = after (set p io s service account secret) fs ∧
  (outcome (set p io s service account secret) fs = Ok tt →
   outcome (run_edit p io s (Put service account secret)) fs = Ok true).
Proof.
  cbn [run_edit]. unfold after, outcome, bind. destruct (set p io s service account secret fs) as [[? ?] []]; done.
Qed.

(** A manager's two stores behave as one map in which the keyring's entries come
    first: a write that returned is what is read next and touched only the primary
    store; a removal that returned left the secret in neither store it can reach and
    said whether there was one; nothing else changes, and a keyring that does not
    answer makes every call fail without effect. *)
Theorem manager_exact {K} `{KeyringLaws K} p `{!PrimitiveLaws p} pass m up io (ring : K) fs vault s a x :
  passphrase_cache (file m) = Some pass → holds p pass (path (file m)) fs vault →
  (keyring_available m = true → up = false →
     manager_get p up io m s a ring fs = Err KeyringFailed ∧
     manager_set p up io m s a x ring fs = (ring, fs, Err KeyringFailed) ∧
     manager_delete p up io m s a ring fs = (ring, fs, Err KeyringFailed)) ∧
  (up = true → VaultIo.read io = true →
     manager_get p up io m s a ring fs = ok_or (seen m ring vault (s, a)) (not_found m s a fs)) ∧
  (∀ ring' fs', manager_set p up io m s a x ring fs = (ring', fs', Ok tt) →
     ∃ vault', holds p pass (path (file m)) fs' vault' ∧
       (if keyring_available m then fs' = fs else ring' = ring) ∧
       ∀ k, seen m ring' vault' k = if bool_decide (k = (s, a)) then Some x else seen m ring vault k) ∧
  (∀ ring' fs' b, manager_delete p up io m s a ring fs = (ring', fs', Ok b) →
     ∃ vault', holds p pass (path (file m)) fs' vault' ∧ vault' !! (s, a) = None ∧
       (if keyring_available m then entry ring' (s, a) = None else ring' = ring) ∧
       b = bool_decide (is_Some (seen m ring vault (s, a))) ∧
       ∀ k, k ≠ (s, a) → seen m ring' vault' k = seen m ring vault k).
Proof.
  intros Hc Hm. split_and!.
  - intros Ha ->. unfold manager_get, manager_set, manager_delete. by rewrite Ha.
  - intros -> Hio. unfold manager_get, seen, keyring_get.
    rewrite (get_exact p pass (file m) fs vault) by done.
    destruct (keyring_available m); cbn; [destruct (entry ring (s, a)); cbn; [done|]|];
      by destruct (vault !! (s, a)).
  - intros ring' fs'. unfold manager_set. destruct (keyring_available m) eqn:Ha.
    + unfold keyring_set. destruct up; intros [= <- <-]. exists vault. split_and!; [done..|].
      by apply seen_put.
    + intros [= <- <- Ho]. destruct (put_run p io (file m) s a x fs) as [Hafter Hput].
      destruct (edit_returned p pass _ _ _ _ _ _ Hc Hm (Hput Ho)) as [_ Hh]. rewrite Hafter in Hh.
      exists (apply_edit (Put s a x) vault). split_and!; [done..|]. by apply seen_apply.
  - intros ring' fs' b. unfold manager_delete, keyring_delete.
    assert (Hdel : ∀ r, outcome (delete p io (file m) s a) fs = Ok r →
      r = bool_decide (is_Some (vault !! (s, a))) ∧
      holds p pass (path (file m)) (after (delete p io (file m) s a) fs) (base.delete (s, a) vault)).
    { intros r Ho. by apply (edit_returned p pass (file m) vault fs (Forget s a) io). }
    unfold seen. destruct (keyring_available m).
    + destruct up; [|done]. intros [= <- <- Ho]. unfold combine_delete_results in Ho.
      apply result_bind_Ok in Ho as (r & Ho & [= <-]). destruct (Hdel r Ho) as [-> Hh].
      exists (base.delete (s, a) vault). rewrite !entry_drop, lookup_delete_eq, bool_decide_eq_true_2 by done.
      split_and!; [done..| |].
      * by destruct (entry ring (s, a)).
      * intros k Hk. by rewrite entry_drop, bool_decide_eq_false_2, lookup_delete_ne.
    + intros [= <- <- Ho]. destruct (Hdel b Ho) as [-> Hh].
      exists (base.delete (s, a) vault). rewrite lookup_delete_eq. split_and!; [done..|].
      intros k Hk. by rewrite lookup_delete_ne.
Qed.

(** ** Examples: a cipher whose tag is its key *)

#[export] Instance Record_countable : Countable Vault.Record.
Proof.
  refine (inj_countable' (λ r, (Vault.service r, Vault.account r, Vault.secret r))
    (λ '(s, a, x), Vault.mkRecord s a x) _). by intros [].
Defined.

Definition pad (l : list byte) : list byte := take 16 (l ++ replicate 16 "-"%char).

Lemma pad_length l : length (pad l) = 16.
Proof. unfold pad. rewrite length_take, length_app, length_replicate. lia. Qed.

Definition tag_cipher : Primitives :=
  mkPrimitives
    (λ _ passphrase _, passphrase)
    (λ key _ _ m, Some (m ++ pad key))
    (λ key _ _ c, strip_suffix (pad key) c)
    (λ v, bits (encode v))
    (λ l, decode (of_bits l)).

Lemma strip_suffix_Some suffix l rest : strip_suffix suffix l = Some rest → l = rest ++ suffix.
Proof.
  unfold strip_suffix, ends_with. destruct (starts_with _ _) eqn:E; [|done]. intros [= <-].
  apply starts_with_app in E as (r & Hr). apply (f_equal (@rev ascii)) in Hr.
  rewrite rev_involutive, rev_app_distr, rev_involutive in Hr. subst l.
  rewrite length_app, Nat.add_sub. by rewrite take_app_length.
Qed.

#[export] Instance tag_cipher_laws : PrimitiveLaws tag_cipher.
Proof.
  split; cbn [tag_cipher encrypt decrypt print_vault parse_vault].
  - intros key nonce aad m c [= <-]. apply strip_suffix_app.
  - intros key nonce aad m c ->%strip_suffix_Some. done.
  - intros key nonce aad m c [= <-]. by rewrite length_app, pad_length.
  - intros v. by rewrite of_bits_bits, decode_encode.
Qed.

Definition constant_entropy (call i : nat) : byte := ascii_of_nat (call + i).
Definition perfect_io : VaultIo.t := VaultIo.perfect constant_entropy.

(** The directory cannot be synced: the edit reports a failure after the rename. *)
Definition unsynced_io : VaultIo.t :=
  VaultIo.mk (λ _, Existed) (λ _, None) (λ _, None) None None true None
    (λ n, Some (constant_entropy n)) (λ _, None) None true true true false.

Definition a_store : FileStore := unlock (bytes "pass") (new_store "/home/u/.config/supra/secrets.enc").

Definition key_edit : edit := Put (bytes "openai") (bytes "key") (bytes "s3cret").
Definition other_edit : edit := Put (bytes "google") (bytes "key") (bytes "other").

Definition one_secret : Fs.t := after (run_edit tag_cipher perfect_io a_store key_edit) Fs.empty.

Lemma empty_holds p pass q : holds p pass q Fs.empty ∅.
Proof. exists []. split; [done|]. by vm_compute. Qed.

Definition vault_history : list (edit * option (result bool SecretsError)) :=
  [(key_edit, Some (outcome (run_edit tag_cipher perfect_io a_store key_edit) Fs.empty));
   (other_edit, None);
   (Forget (bytes "openai") (bytes "key"),
    Some (outcome (run_edit tag_cipher unsynced_io a_store (Forget (bytes "openai") (bytes "key"))) one_secret))].

Definition history_end : Fs.t :=
  after (run_edit tag_cipher unsynced_io a_store (Forget (bytes "openai") (bytes "key"))) one_secret.

(** The middle writer crashes once it holds the lock. *)
Lemma vault_history_exact_witness :
  vault_history.*2 = [Some (Ok true); None; Some (Err (Io false))] ∧
  ∃ took, length took = 3 ∧ took !! 0 = Some true ∧
    get tag_cipher perfect_io a_store (bytes "openai") (bytes "key") history_end =
    ok_or (replay vault_history took ∅ !! (bytes "openai", bytes "key"))
      (NotFound (bytes "openai") (bytes "key")).
Proof.
  split; [by vm_compute|].
  destruct (vault_history_exact tag_cipher (bytes "pass") a_store Fs.empty vault_history history_end ∅)
    as (took & Hlen & Hok & Hget & _); [done|apply empty_holds| |].
  - apply (writes_return _ _ perfect_io).
    apply (writes_crash _ _ perfect_io _ _ one_secret); [apply list_elem_of_lookup_2 with 0; by vm_compute|].
    apply (writes_return _ _ unsynced_io). constructor.
  - exists took. split; [done|]. split; [|by apply Hget].
    by destruct (Hok 0 key_edit true); [vm_compute|].
Defined.

Definition other_pass : FileStore := unlock (bytes "word") a_store.

Definition vault_bytes : list byte := default [] (Fs.read_name (path a_store) one_secret).

Lemma vault_locked_out_witness :
  get tag_cipher perfect_io other_pass (bytes "openai") (bytes "key") one_secret = Err Crypto ∧
  ∃ error, outcome (run_edit tag_cipher perfect_io other_pass other_edit) one_secret = Err error.
Proof.
  destruct (vault_locked_out tag_cipher (bytes "word") other_pass one_secret vault_bytes) as [Hget He].
  - done.
  - by vm_compute.
  - intros salt nonce plain c v _ _ Hb _ [= <-]. apply (f_equal (λ l, drop (length l - 16) l)) in Hb.
    rewrite !app_assoc in Hb. rewrite length_app, pad_length, Nat.add_sub, drop_app_length in Hb.
    vm_compute in Hb. done.
  - split; [by apply Hget|]. apply He.
Defined.

Definition with_ring : SecretManager := open_with_store ProbeNoEntry a_store.
Definition without_ring : SecretManager := open_with_store ProbeFailed a_store.

Lemma manager_exact_witness :
  manager_get tag_cipher true perfect_io with_ring (bytes "openai") (bytes "key") (∅ : secrets) one_secret =
  Ok (bytes "s3cret").
Proof.
  destruct (edit_returned tag_cipher (bytes "pass") a_store ∅ Fs.empty key_edit perfect_io true)
    as [_ Hh]; [done|apply empty_holds|by vm_compute|].
  destruct (manager_exact tag_cipher (bytes "pass") with_ring true perfect_io (∅ : secrets) one_secret
    _ (bytes "openai") (bytes "key") [] eq_refl Hh) as (_ & Hget & _).
  rewrite Hget by done. by vm_compute.
Defined.

(** ** What the documents do not say *)

(** A secret written while the keyring was down is replaced in the keyring only: when
    the keyring is down again, the old secret is what is read. *)
Lemma stale_secret_resurfaces :
  let '(ring, fs, r) := manager_set tag_cipher true perfect_io with_ring (bytes "openai") (bytes "key")
                          (bytes "new") (∅ : secrets) one_secret in
  r = Ok tt ∧
  manager_get tag_cipher true perfect_io with_ring (bytes "openai") (bytes "key") ring fs = Ok (bytes "new") ∧
  manager_get tag_cipher true perfect_io without_ring (bytes "openai") (bytes "key") ring fs = Ok (bytes "s3cret").
Proof. by vm_compute. Qed.

(** A passphrase provider that misses a file of its own once makes a written vault read
    as an empty one, and a write then replaces every secret in it. *)
Definition flaky_provider : FileStore :=
  set_passphrase_provider (λ call, if call =? 0 then Err (Io true) else Ok (bytes "pass")) (lock a_store).

Lemma provider_miss_empties_vault :
  get tag_cipher perfect_io flaky_provider (bytes "openai") (bytes "key") one_secret =
    Err (NotFound (bytes "openai") (bytes "key")) ∧
  outcome (run_edit tag_cipher perfect_io flaky_provider other_edit) one_secret = Ok true ∧
  get tag_cipher perfect_io a_store (bytes "openai") (bytes "key")
    (after (run_edit tag_cipher perfect_io flaky_provider other_edit) one_secret) =
    Err (NotFound (bytes "openai") (bytes "key")).
Proof. by vm_compute. Qed.

(** A store at a bare file name cannot be written: its directory is the empty path,
    which [create_dir] does not find, [create_dir_all] takes for made, and whose mode
    cannot be set. *)
Lemma bare_name_unwritable p io name passphrase service account secret fs :
  file_name name = Some name → parent name = Some "" →
  VaultIo.create_dir io "" = NoParent → VaultIo.create_dir_all io "" = None →
  VaultIo.set_mode io "" = Some true →
  outcome (run_edit p io (unlock passphrase (new_store name)) (Put service account secret)) fs = Err (Io true).
Proof.
  intros _ Hp Hc Ha Hm. cbn [run_edit]. unfold outcome, bind, set, lock_transaction, lift.
  unfold ensure_private_directory, bind. cbn [path unlock new_store]. rewrite Hp. cbn. rewrite Hc. cbn. rewrite Ha. cbn. by rewrite Hm.
Qed.
