(* ===== verification/Mcp.v ===== *)
(** * The MCP gateway: [crates/supra_mcp]

    The two transports and the correlation of answers ([transport.rs], [rpc.rs]), the
    append-only cache of manifests ([cache.rs]), the gateway that probes each server
    once ([gateway.rs]) and the errors ([error.rs]).  JSON's printing, parsing and
    numbers, the HTTP library and what each server does are parameters; the table is
    behind [Table].  Of an error's prose only what names something is kept. *)

From Stdlib Require Import Ascii.
From S2P Require Import Prelude Text Sealing Utf8 Permission Canonical Tool Table Framing.

Inductive McpError :=
| Transport (what : string)
| Protocol (reason : string)
| ProtocolVersion (server : list byte)
| ToolName (tool : list byte)
| Cache
| TooManyTools (server : list byte) (count : nat).

#[export] Instance McpError_eq_dec : EqDecision McpError.
Proof. solve_decision. Defined.

(** ** Lines from a process: [transport.rs] *)

(** One wait for bytes: what [fill_buf] finds, an error of the pipe, or the deadline.
    No bytes, and the end of the list, is the process's closing. *)
Inductive Arrive :=
| Chunk (available : list byte)
| PipeBroken
| Silence.

#[export] Instance Arrive_eq_dec : EqDecision Arrive.
Proof. solve_decision. Defined.

Definition MAX_LINE_BYTES : N := 4 * 1024 * 1024.

(** The reading loop; what it took before an error is lost. *)
Fixpoint take_line (line : list byte) (arrivals : list Arrive) : list Arrive * result (list byte) McpError :=
  match arrivals with
  | [] => ([], Ok line)
  | Chunk [] :: rest => (rest, Ok line)
  | PipeBroken :: rest => (rest, Err (Transport "read"))
  | Silence :: rest => (rest, Err (Transport "the server did not answer within the call timeout"))
  | Chunk available :: rest =>
      match position lf available with
      | Some i =>
          (if bool_decide (drop (S i) available = []) then rest else Chunk (drop (S i) available) :: rest,
           Ok (line ++ take (S i) available))
      | None =>
          if (MAX_LINE_BYTES <? N.of_nat (length (line ++ available)))%N
          then (rest, Err (Protocol "a line exceeded the frame cap"))
          else take_line (line ++ available) rest
      end
  end.

Definition is_line_end (c : byte) : bool := bool_decide (c = lf) || bool_decide (c = cr).

Definition read_bounded_line (arrivals : list Arrive) : list Arrive * result (list byte) McpError :=
  let '(rest, line) := take_line [] arrivals in
  (rest, let? line := line in Ok (from_utf8_lossy (reverse (drop_while is_line_end (reverse line))))).

(** Everything a server may still send, and its waits. *)
Definition arrive_size (a : Arrive) : nat := match a with Chunk c => S (length c) | _ => 1 end.
Definition arrivals_size (arrivals : list Arrive) : nat := sum_list_with arrive_size arrivals.

Section mcp.
Context {Num : Type}.
Abbreviation json := (Value Num).
Context (to_string : json → list byte) (from_str : list byte → option json).
Context (as_u64 : Num → option N) (as_i64 : Num → option Z) (of_u64 : N → Num).

(** ** Requests and responses: [rpc.rs] *)

Definition PROTOCOL_VERSION : list byte := bytes "2025-06-18".

(** [Request::new], as it is printed. *)
Definition request (id : N) (method : string) (params : json) : json :=
  object [("jsonrpc", text "2.0"); ("id", VNumber (of_u64 id)); ("method", text method); ("params", params)].

Definition notification (method : string) : json :=
  object [("jsonrpc", text "2.0"); ("method", text method)].

Record RpcError := mkRpcError { code : Z; message : list byte }.

Record Response := mkResponse { r_result : option json; r_error : option RpcError }.

Definition is_error (r : Response) : bool := bool_decide (is_Some (r_error r)).

(** An optional member: absent and null are the same. *)
Definition member (key : string) (value : json) : option json :=
  match get key value with Some VNull | None => None | Some v => Some v end.

(** [from_value::<Response>] of an object whose version and identifier are read. *)
Definition to_response (value : json) : option Response :=
  match member "error" value with
  | None => Some (mkResponse (member "result" value) None)
  | Some error =>
      match get "code" error, get "message" error with
      | Some (VNumber n), Some (VString m) =>
          code ← as_i64 n; Some (mkResponse (member "result" value) (Some (mkRpcError code m)))
      | _, _ => None
      end
  end.

Definition is_response_for (value : json) (id : N) : bool :=
  if negb (bool_decide (is_Some (get "id" value))) then false
  else if negb (bool_decide ((get "jsonrpc" value ≫= value_as_str) = Some "2.0"%string)) then false
  else bool_decide ((get "id" value ≫= value_as_u64 as_u64) = Some id).

Definition answer (r : Response) : result json McpError :=
  match r_error r with
  | Some _ => Err (Protocol "json-rpc error")
  | None => ok_or (r_result r) (Protocol "the response has neither result nor error")
  end.

Definition answer_value (value : json) : result json McpError :=
  let? response := ok_or (to_response value) (Protocol "the answer is not JSON-RPC") in answer response.

(** ** A process's transport *)

Record Stdio := mkStdio {
  arrivals : list Arrive;
  writes : list bool;
  sent : list (list byte);
  id : N;
}.

(** One line, its newline and the flush. *)
Definition write_line (line : list byte) (s : Stdio) : Stdio * result unit McpError :=
  if default true (head (writes s)) then
    (mkStdio (arrivals s) (tail (writes s)) (sent s ++ [line]) (id s), Ok tt)
  else (mkStdio (arrivals s) (tail (writes s)) (sent s) (id s), Err (Transport "write")).

(** The loop of [call]: one line a round, so as many rounds as there are bytes and waits
    are enough; [None] is the end of the fuel. *)
Fixpoint await_from (fuel : nat) (id : N) (arrivals : list Arrive) :
    option (list Arrive * result json McpError) :=
  match fuel with
  | 0 => None
  | S fuel =>
      match read_bounded_line arrivals with
      | (rest, Err e) => Some (rest, Err e)
      | (rest, Ok line) =>
          if bool_decide (line = []) then
            Some (rest, Err (Transport "the server closed without answering"))
          else
            match from_str line with
            | None => Some (rest, Err (Protocol "the answer is not JSON"))
            | Some value =>
                if bool_decide (is_Some (get "id" value)) && negb (bool_decide (is_Some (get "jsonrpc" value)))
                then Some (rest, Err (Protocol "the answer does not claim JSON-RPC 2.0"))
                else if is_response_for value id then Some (rest, answer_value value)
                else await_from fuel id rest
            end
      end
  end.

Definition await (id : N) (arrivals : list Arrive) : option (list Arrive * result json McpError) :=
  await_from (S (arrivals_size arrivals)) id arrivals.

Definition stdio_call (method : string) (params : json) (s : Stdio) :
    option (Stdio * result json McpError) :=
  let s := mkStdio (arrivals s) (writes s) (sent s) (id s + 1) in
  match write_line (to_string (request (id s) method params)) s with
  | (s, Err e) => Some (s, Err e)
  | (s, Ok _) =>
      '(rest, r) ← await (id s) (arrivals s);
      Some (mkStdio rest (writes s) (sent s) (id s), r)
  end.

(** ** An HTTP endpoint's transport *)

(** What the HTTP library gives for one call, its body's bytes already text. *)
Record HttpAnswer := mkHttpAnswer {
  assigned : option (list byte);
  success : bool;
  content_type : list byte;
  body : option (list byte);
}.

Record Http := mkHttp {
  url : list byte;
  h_id : N;
  session : option (list byte);
  answers : list (option HttpAnswer);
  posted : list (option (list byte) * list byte);
}.

Definition data_prefix : list byte := bytes "data:".

Fixpoint parse_sse_lines (lines : list (list byte)) (id : N) : result json McpError :=
  match lines with
  | [] => Err (Protocol "the event stream ended without the response")
  | line :: lines =>
      match (payload ← strip_prefix data_prefix line; from_str (trim payload)) with
      | Some value => if is_response_for value id then Ok value else parse_sse_lines lines id
      | None => parse_sse_lines lines id
      end
  end.

Definition parse_sse (body : list byte) (id : N) : result json McpError := parse_sse_lines (lines body) id.

(** A POST: the library's answer is the next of the list; it always sends the session. *)
Definition post (document : list byte) (h : Http) : Http * option HttpAnswer :=
  (mkHttp (url h) (h_id h) (session h) (tail (answers h)) (posted h ++ [(session h, document)]),
   default None (head (answers h))).

Definition http_body (found : HttpAnswer) (id : N) : result json McpError :=
  let? body := ok_or (body found) (Transport "http body") in
  if negb (success found) then Err (Transport "http")
  else
    let? value :=
      if contains (bytes "text/event-stream") (content_type found) then parse_sse body id
      else ok_or (from_str body) (Protocol "the answer is not JSON") in
    if negb (is_response_for value id)
    then Err (Protocol "the response does not answer the request that was sent")
    else answer_value value.

Definition http_call (method : string) (params : json) (h : Http) : Http * result json McpError :=
  let h := mkHttp (url h) (h_id h + 1) (session h) (answers h) (posted h) in
  let '(h, found) := post (to_string (request (h_id h) method params)) h in
  match found with
  | None => (h, Err (Transport "http"))
  | Some found =>
      let session :=
        if bool_decide (method = "initialize"%string) then
          match assigned found with Some s => Some s | None => session h end
        else session h in
      (mkHttp (url h) (h_id h) session (answers h) (posted h), http_body found (h_id h))
  end.

(** ** Either transport *)

Inductive Wire := OnStdio (s : Stdio) | OnHttp (h : Http).

Definition call (method : string) (params : json) (t : Wire) : option (Wire * result json McpError) :=
  match t with
  | OnStdio s => '(s, r) ← stdio_call method params s; Some (OnStdio s, r)
  | OnHttp h => let '(h, r) := http_call method params h in Some (OnHttp h, r)
  end.

Definition notify (method : string) (t : Wire) : Wire * result unit McpError :=
  match t with
  | OnStdio s => let '(s, r) := write_line (to_string (notification method)) s in (OnStdio s, r)
  | OnHttp h =>
      let '(h, found) := post (to_string (notification method)) h in
      (OnHttp h, match found with Some _ => Ok tt | None => Err (Transport "http") end)
  end.

(** ** The cache: [cache.rs] *)

Record CachedTool := mkCachedTool {
  tool : list byte;
  server : list byte;
  local_name : list byte;
  description : list byte;
  input_schema : list byte;
  live : bool;
}.

(** SQLite's [length]: the characters before the first NUL. *)
Definition sql_length (text : list byte) : nat :=
  length (chars (take (default (length text) (position "000"%char text)) text)).

Definition between (lo hi : N) (text : list byte) : bool :=
  (lo <=? N.of_nat (sql_length text))%N && (N.of_nat (sql_length text) <=? hi)%N.

(** The [CHECK] constraints of [mcp_tool]. *)
Definition check (row : CachedTool) : bool :=
  contains (bytes "__") (tool row) && between 0 128 (tool row) && between 1 64 (server row) &&
  between 1 64 (local_name row) && between 0 4096 (description row) && between 0 65536 (input_schema row).

Section cache.
Context {T : Type} `{Table T (list byte) CachedTool}.

(** [INSERT OR IGNORE]: a row that breaks a constraint is skipped as one whose key is
    taken. *)
Definition append (row : CachedTool) (t : T) : T * bool :=
  if check row then
    match t_insert (tool row) row t with Some t' => (t', true) | None => (t, false) end
  else (t, false).

Definition all (t : T) : list CachedTool := (t_scan t).*2.

Definition count_for_server (name : list byte) (t : T) : nat :=
  length (List.filter (λ row, bool_decide (server row = name)) (all t)).

(** ** The gateway: [gateway.rs] *)

Definition TOOLS_PER_SERVER : nat := 256.
Definition MAX_LIST_PAGES : nat := 32.

Inductive Endpoint :=
| EStdio (argv : list (list byte)) (env : list (list byte * list byte))
| EHttp (url : list byte).

Record ServerConfig := mkServerConfig { name : list byte; endpoint : Endpoint }.

Record Gateway := mkGateway { servers : list (ServerConfig * Wire); store : T }.

(** [Transport::stdio] and [Transport::http], of what the operating system makes of the
    endpoint. *)
Definition connect (endpoint : Endpoint) (spawned : option (list Arrive * list bool))
    (answers : list (option HttpAnswer)) : result Wire McpError :=
  match endpoint with
  | EStdio [] _ => Err (Transport "an empty argv names no program")
  | EStdio _ _ =>
      let? process := ok_or spawned (Transport "spawn") in
      Ok (OnStdio (mkStdio process.1 process.2 [] 0))
  | EHttp url => Ok (OnHttp (mkHttp url 0 None answers []))
  end.

Definition is_name_byte (c : byte) : bool :=
  code_in 48 57 c || code_in 65 90 c || code_in 97 122 c || bool_decide (c = "_"%char) || bool_decide (c = "-"%char).

Definition name_part (part : list byte) : result unit McpError :=
  if bool_decide (part = []) || (64 <? length part) then Err (ToolName part)
  else if negb (forallb is_name_byte part) then Err (ToolName part)
  else Ok tt.

Definition namespaced (server tool : list byte) : result (list byte) McpError :=
  let? _ := name_part server in
  let? _ := name_part tool in
  let joined := server ++ bytes "__" ++ tool in
  if 128 <? length joined then Err (ToolName joined) else Ok joined.

Record RemoteTool := mkRemoteTool { rt_name : list byte; rt_description : list byte; rt_schema : json }.

Definition to_remote_tool (value : json) : option RemoteTool :=
  n ← get "name" value;
  d ← match get "description" value with None => Some (VString []) | Some d => Some d end;
  schema ← get "inputSchema" value;
  match n, d with
  | VString n, VString d => Some (mkRemoteTool n d schema)
  | _, _ => None
  end.

(** [from_value::<ToolsListResult>]: the tools and the next page. *)
Definition to_tools (value : json) : option (list RemoteTool * option (list byte)) :=
  items ← get "tools" value ≫= value_as_array;
  tools ← mapM to_remote_tool items;
  match member "nextCursor" value with
  | None => Some (tools, None)
  | Some (VString page) => Some (tools, Some page)
  | Some _ => None
  end.

(** The loop over pages, [remaining] of them. *)
Fixpoint list_pages (remaining : nat) (cursor : option (list byte)) (tools : list RemoteTool) (t : Wire) :
    option (Wire * result (list RemoteTool * option (list byte)) McpError) :=
  match remaining with
  | 0 => Some (t, Ok (tools, cursor))
  | S remaining =>
      let params := match cursor with None => VObject [] | Some page => object [("cursor", VString page)] end in
      '(t, listed) ← call "tools/list" params t;
      match listed with
      | Err e => Some (t, Err e)
      | Ok listed =>
          match to_tools listed with
          | None => Some (t, Err (Protocol "tools/list result"))
          | Some (found, None) => Some (t, Ok (tools ++ found, None))
          | Some (found, Some page) => list_pages remaining (Some page) (tools ++ found) t
          end
      end
  end.

(** The rows of every remote tool, or the first name that is refused. *)
Fixpoint rows_of (server : list byte) (tools : list RemoteTool) : result (list CachedTool) McpError :=
  match tools with
  | [] => Ok []
  | remote :: tools =>
      let? tool := namespaced server (rt_name remote) in
      let? rows := rows_of server tools in
      Ok (mkCachedTool tool server (rt_name remote) (rt_description remote) (to_string (rt_schema remote)) true
            :: rows)
  end.

Definition append_all (rows : list CachedTool) (t : T) : T := foldl (λ t row, (append row t).1) t rows.

Definition initialize_params : json :=
  object [("protocolVersion", VString PROTOCOL_VERSION); ("capabilities", VObject []);
          ("clientInfo", object [("name", text "supra"); ("version", text "0.1.0")])].

(** What is refused before anything is listed. *)
Definition negotiated (listed : json) : result unit McpError :=
  match get "protocolVersion" listed with
  | Some (VString version) =>
      if bool_decide (version = PROTOCOL_VERSION) then Ok tt else Err (ProtocolVersion version)
  | _ => Err (Protocol "initialize result")
  end.

(** What is refused once the list settled or did not. *)
Definition settled (config : ServerConfig) (tools : list RemoteTool) (cursor : option (list byte)) :
    result (list CachedTool) McpError :=
  if bool_decide (is_Some cursor) then Err (Protocol "tools/list did not settle")
  else if TOOLS_PER_SERVER <? length tools then Err (TooManyTools (name config) (length tools))
  else rows_of (name config) tools.

Definition handshake (t : Wire) : option (Wire * result unit McpError) :=
  '(t, r) ← call "initialize" initialize_params t;
  match (let? r := r in negotiated r) with
  | Err e => Some (t, Err e)
  | Ok _ => Some (notify "notifications/initialized" t)
  end.

Definition discover (config : ServerConfig) (t : Wire) : option (Wire * result (list CachedTool) McpError) :=
  '(t, r) ← handshake t;
  match r with
  | Err e => Some (t, Err e)
  | Ok _ =>
      '(t, r) ← list_pages MAX_LIST_PAGES None [] t;
      Some (t, let? listed := r in settled config listed.1 listed.2)
  end.

(** [probe_one]; [io] says whether the database carries the transaction out. *)
Definition probe_one (io : bool) (config : ServerConfig) (connected : result Wire McpError) (t : T) :
    option (T * result Wire McpError) :=
  match connected with
  | Err e => Some (t, Err e)
  | Ok wire =>
      '(wire, rows) ← discover config wire;
      Some match rows with
      | Err e => (t, Err e)
      | Ok rows => if io then (append_all rows t, Ok wire) else (t, Err Cache)
      end
  end.

Fixpoint probe_all (configs : list (ServerConfig * result Wire McpError * bool)) (t : T) :
    option (T * list (ServerConfig * Wire) * list (list byte * McpError)) :=
  match configs with
  | [] => Some (t, [], [])
  | (config, connected, io) :: configs =>
      '(t, r) ← probe_one io config connected t;
      '(t, live, refusals) ← probe_all configs t;
      Some match r with
      | Ok wire => (t, (config, wire) :: live, refusals)
      | Err e => (t, live, (name config, e) :: refusals)
      end
  end.

(** [migrated]: the cache's schema is the one this gateway knows. *)
Definition probe (migrated : bool) (configs : list (ServerConfig * result Wire McpError * bool)) (t : T) :
    option (Gateway * list (list byte * McpError)) :=
  if negb migrated then Some (mkGateway [] t, [(bytes "<cache>", Cache)])
  else
    '(t, live, refusals) ← probe_all configs t;
    Some (mkGateway live t, refusals).

Definition cached_tools (io : bool) (g : Gateway) : result (list CachedTool) McpError :=
  if io then Ok (all (store g)) else Err Cache.

Definition cached_count_for_server (io : bool) (server : list byte) (g : Gateway) : result nat McpError :=
  if io then Ok (count_for_server server (store g)) else Err Cache.

(** The text blocks of a result, a line feed between two. *)
Fixpoint join_lines (texts : list (list byte)) : list byte :=
  match texts with
  | [] => []
  | [t] => t
  | t :: texts => t ++ [lf] ++ join_lines texts
  end.

Definition block_text (block : json) : option (list byte) :=
  if bool_decide ((get "type" block ≫= value_as_str) = Some "text"%string) then
    match get "text" block with Some (VString s) => Some s | _ => None end
  else None.

Definition content_text (result : json) : list byte :=
  join_lines (omap block_text (default [] (get "content" result ≫= value_as_array))).

(** The first connection of the name is the one called. *)
Fixpoint call_server (server : list byte) (params : json) (servers : list (ServerConfig * Wire)) :
    option (list (ServerConfig * Wire) * result json McpError) :=
  match servers with
  | [] => Some ([], Err (Transport "no MCP server of this name is connected"))
  | (config, wire) :: servers =>
      if bool_decide (name config = server) then
        '(wire, r) ← call "tools/call" params wire;
        Some ((config, wire) :: servers, r)
      else
        '(servers, r) ← call_server server params servers;
        Some ((config, wire) :: servers, r)
  end.

Definition connected (server : list byte) (g : Gateway) : bool :=
  existsb (λ s, bool_decide (name s.1 = server)) (servers g).

Definition gateway_call (server tool arguments : list byte) (g : Gateway) :
    option (Gateway * result (list byte) McpError) :=
  if negb (connected server g) then
    Some (g, Err (Transport "no MCP server of this name is connected"))
  else match from_str arguments with
  | None => Some (g, Err (Protocol "arguments are not JSON"))
  | Some parsed =>
      '(live, r) ← call_server server (object [("name", VString tool); ("arguments", parsed)]) (servers g);
      Some (mkGateway live (store g), let? r := r in Ok (content_text r))
  end.
End cache.

(** [gateway_tool], and its fallback. *)
Definition gateway_effect (_ : list (list byte * json)) : Effect.t := Effect.OutsideEdit "an MCP server".

Definition field (name : string) (description : string) : Field.t :=
  Field.mk (bytes name) FText true (bytes description).

Definition gateway_fields : list Field.t :=
  [field "server" "The MCP server to call, by its configured name.";
   field "tool" "The remote tool's local name on that server.";
   field "arguments" "The remote tool's arguments, as canonical JSON text."].

Definition fallback_fields : list Field.t :=
  [field "server" "The MCP server to call (schema degraded; report this)."].

Definition gateway_tool : result Tool ToolError :=
  match register_tool is_blank (bytes "mcp") ToolClass.Agent gateway_fields gateway_effect with
  | Ok tool => Ok tool
  | Err _ => register_tool is_blank (bytes "mcp") ToolClass.Agent fallback_fields gateway_effect
  end.
End mcp.

(** ** Lines, however they arrive *)

#[local] Arguments N.ltb : simpl never.

Lemma take_line_size line arr rest r :
  take_line line arr = (rest, r) →
  arrivals_size rest ≤ arrivals_size arr ∧ (arr ≠ [] → arrivals_size rest < arrivals_size arr).
Proof.
  revert line. induction arr as [|a arr IH]; intros line; cbn [take_line].
  { intros [= <- <-]. split; [lia|done]. }
  assert (Htail : arrivals_size arr < arrivals_size (a :: arr)).
  { unfold arrivals_size. cbn. destruct a; cbn; lia. }
  destruct a as [[|c chunk]| |]; [intros [= <- <-]; split; lia| |intros [= <- <-]; split; lia..].
  destruct (position lf (c :: chunk)) as [i|].
  - case_bool_decide; intros [= <- <-]; [split; lia|].
    assert (Hd : arrivals_size (Chunk (drop i chunk) :: arr) < arrivals_size (Chunk (c :: chunk) :: arr)).
    { unfold arrivals_size. cbn [sum_list_with arrive_size]. rewrite length_drop. cbn [length]. lia. }
    split; [apply Nat.lt_le_incl, Hd|intros _; apply Hd].
  - destruct (_ <? _)%N; [intros [= <- <-]; split; lia|].
    intros [H _]%IH. split; lia.
Qed.

Lemma read_line_size arr rest line :
  read_bounded_line arr = (rest, Ok line) → line ≠ [] → arrivals_size rest < arrivals_size arr.
Proof.
  unfold read_bounded_line. destruct arr as [|a arr]; [by intros [= <- <-]|].
  destruct (take_line [] (a :: arr)) as [rest' r] eqn:E. intros [= <- _] _.
  by apply take_line_size in E as [_ H]; apply H.
Qed.

Section facts.
Context {Num : Type} (to_string : Value Num → list byte) (from_str : list byte → option (Value Num)).
Context (as_u64 : Num → option N) (as_i64 : Num → option Z) (of_u64 : N → Num).

Lemma await_from_total id fuel : ∀ arr, arrivals_size arr < fuel →
  ∃ rest r, await_from from_str as_u64 as_i64 fuel id arr = Some (rest, r).
Proof.
  induction fuel as [|fuel IH]; intros arr Hf; [lia|]. cbn [await_from].
  destruct (read_bounded_line arr) as [rest [line|e]] eqn:E; [|eauto].
  case_bool_decide as Hl; [eauto|]. apply read_line_size in E; [|done].
  destruct (from_str line) as [v|]; [|eauto]. destruct (_ && _); [eauto|].
  destruct (is_response_for _ v id); [eauto|]. apply IH. lia.
Qed.

Lemma await_total id arr : ∃ rest r, await from_str as_u64 as_i64 id arr = Some (rest, r).
Proof. apply await_from_total. lia. Qed.

(** More rounds than are enough change nothing. *)
Lemma await_from_mono id fuel : ∀ fuel' arr x, fuel ≤ fuel' →
  await_from from_str as_u64 as_i64 fuel id arr = Some x →
  await_from from_str as_u64 as_i64 fuel' id arr = Some x.
Proof.
  induction fuel as [|fuel IH]; intros [|fuel'] arr x Hle; try done; [lia|]. cbn [await_from].
  destruct (read_bounded_line arr) as [rest [line|e]]; [|done].
  case_bool_decide; [done|]. destruct (from_str line); [|done]. destruct (_ && _); [done|].
  destruct (is_response_for _ _ _); [done|]. apply IH. lia.
Qed.

(** Chunks of bytes, none empty. *)
Definition chunked (cs : list (list byte)) : Prop := Forall (λ c, c ≠ []) cs.

Lemma fresh_split (c : byte) l1 l2 r1 r2 :
  c ∉ l1 → c ∉ l2 → l1 ++ c :: r1 = l2 ++ c :: r2 → l1 = l2 ∧ r1 = r2.
Proof.
  intros H1 H2 E. apply (app_delim_inj (λ d, d ≠ c)) in E as (-> & _ & ->); [done|..]; try tauto.
  all: apply Forall_forall; by intros x Hx ->.
Qed.

Lemma take_line_chunk line c rest : c ≠ [] →
  take_line line (Chunk c :: rest) =
  match position lf c with
  | Some i => (if bool_decide (drop (S i) c = []) then rest else Chunk (drop (S i) c) :: rest,
               Ok (line ++ take (S i) c))
  | None => if (MAX_LINE_BYTES <? N.of_nat (length (line ++ c)))%N
            then (rest, Err (Protocol "a line exceeded the frame cap"))
            else take_line (line ++ c) rest
  end.
Proof. by destruct c. Qed.

Lemma take_line_stream cs : ∀ line l later more, chunked cs → lf ∉ l →
  concat cs = l ++ lf :: later → (N.of_nat (length (line ++ l)) ≤ MAX_LINE_BYTES)%N →
  ∃ cs', chunked cs' ∧ concat cs' = later ∧
    take_line line ((Chunk <$> cs) ++ more) = ((Chunk <$> cs') ++ more, Ok (line ++ l ++ [lf])).
Proof.
  induction cs as [|c cs IH]; intros line l later more Hne Hl Hc Hmax; [by destruct l|].
  apply Forall_cons in Hne as [Hc0 Hne]. cbn [concat] in Hc. cbn [fmap list_fmap app].
  rename c into chunk. rewrite take_line_chunk by done.
  destruct (position lf chunk) as [i|] eqn:Ei.
  - pose proof (position_Some _ _ _ Ei) as Hi. apply position_split in Ei as [Hsplit Hfresh].
    rewrite Hsplit, <- app_assoc in Hc. apply fresh_split in Hc as [Hl' Hlater]; [|done..].
    assert (Htake : take (S i) chunk = l ++ [lf]) by by rewrite (take_S_r _ _ _ Hi), Hl'.
    case_bool_decide as Hd.
    + exists cs. rewrite Htake. rewrite Hd in Hlater. done.
    + exists (drop (S i) chunk :: cs). rewrite Htake. split_and!; [by constructor|done..].
  - apply position_None in Ei. apply app_eq_inv in Hc as [(k & Hk & Hc)|(k & Hk & Hc)].
    + destruct k as [|d k]; [|injection Hc as <- _; exfalso; apply Ei; set_solver].
      rewrite app_nil_r in Hk. subst chunk.
      destruct (N.ltb_spec MAX_LINE_BYTES (N.of_nat (length (line ++ l)))); [lia|].
      destruct (IH (line ++ l) [] later more) as (cs' & H1 & H2 & H3); [done|set_solver|done|by rewrite app_nil_r|].
      exists cs'. rewrite H3. by rewrite <- app_assoc.
    + subst l. rewrite !length_app in Hmax.
      destruct (N.ltb_spec MAX_LINE_BYTES (N.of_nat (length (line ++ chunk)))); [rewrite length_app in *; lia|].
      destruct (IH (line ++ chunk) k later more) as (cs' & H1 & H2 & H3);
        [done|set_solver|done|rewrite !length_app; lia|].
      exists cs'. rewrite H3. by rewrite <- !app_assoc.
Qed.

(** No line end before the deadline. *)
Lemma take_line_silent cs : ∀ line more, chunked cs → lf ∉ concat cs →
  (N.of_nat (length (line ++ concat cs)) ≤ MAX_LINE_BYTES)%N →
  take_line line ((Chunk <$> cs) ++ Silence :: more) =
  (more, Err (Transport "the server did not answer within the call timeout")).
Proof.
  induction cs as [|c cs IH]; intros line more Hne Hl Hmax; [done|].
  apply Forall_cons in Hne as [Hc Hne]. cbn [concat fmap list_fmap app] in *.
  rewrite take_line_chunk by done.
  assert (position lf c = None) as -> by (apply position_None; set_solver).
  rewrite !length_app in Hmax.
  destruct (N.ltb_spec MAX_LINE_BYTES (N.of_nat (length (line ++ c)))); [rewrite length_app in *; lia|].
  apply IH; [done|set_solver|]. rewrite !length_app. lia.
Qed.

Lemma strip_line_end l : lf ∉ l → cr ∉ l →
  reverse (drop_while is_line_end (reverse (l ++ [lf]))) = l.
Proof.
  intros Hlf Hcr. rewrite reverse_snoc. cbn [drop_while].
  replace (is_line_end lf) with true by done.
  rewrite <- (app_nil_l (reverse l)), (drop_while_stop is_line_end [] (reverse l)); [apply reverse_involutive|done|].
  apply Forall_forall. intros c Hc. rewrite elem_of_reverse in Hc. unfold is_line_end.
  rewrite (bool_decide_eq_false_2 (c = lf)), (bool_decide_eq_false_2 (c = cr)); [done|by intros ->..].
Qed.

(** What a server writes: a value that is read back as it was printed, on one line. *)
Definition prints_line (v : Value Num) : Prop :=
  from_str (to_string v) = Some v ∧ to_string v ≠ [] ∧ (lf ∉ to_string v) ∧ (cr ∉ to_string v) ∧
  is_utf8 (to_string v) = true ∧ (N.of_nat (length (to_string v)) ≤ MAX_LINE_BYTES)%N.

Definition wire_lines (vs : list (Value Num)) : list byte := concat ((λ v, to_string v ++ [lf]) <$> vs).

(** A message that is not the answer and is passed over. *)
Definition passed_over (id : N) (v : Value Num) : Prop :=
  is_response_for as_u64 v id = false ∧
  ¬ (is_Some (get "id" v) ∧ get "jsonrpc" v = None).

Lemma read_line_stream cs v later more :
  chunked cs → prints_line v → concat cs = to_string v ++ lf :: later →
  ∃ cs', chunked cs' ∧ concat cs' = later ∧
    read_bounded_line ((Chunk <$> cs) ++ more) = ((Chunk <$> cs') ++ more, Ok (to_string v)).
Proof.
  intros Hcs (Hv & Hne & Hlf & Hcr & Hu & Hmax) Hc.
  destruct (take_line_stream cs [] (to_string v) later more) as (cs' & H1 & H2 & H3); [done..|].
  exists cs'. split_and!; [done..|]. unfold read_bounded_line. rewrite H3. cbn [result_bind app].
  by rewrite strip_line_end, lossy_valid.
Qed.

Lemma await_step fuel id arr rest v :
  read_bounded_line arr = (rest, Ok (to_string v)) → prints_line v →
  await_from from_str as_u64 as_i64 (S fuel) id arr =
  if bool_decide (is_Some (get "id" v)) && negb (bool_decide (is_Some (get "jsonrpc" v)))
  then Some (rest, Err (Protocol "the answer does not claim JSON-RPC 2.0"))
  else if is_response_for as_u64 v id then Some (rest, answer_value as_i64 v)
  else await_from from_str as_u64 as_i64 fuel id rest.
Proof.
  intros E (Hv & Hne & _). cbn [await_from]. rewrite E, bool_decide_eq_false_2 by done. by rewrite Hv.
Qed.

Lemma await_passes fuel id skipped : ∀ cs later more,
  Forall prints_line skipped → Forall (passed_over id) skipped → chunked cs →
  concat cs = wire_lines skipped ++ later →
  ∃ cs', chunked cs' ∧ concat cs' = later ∧
    await_from from_str as_u64 as_i64 (length skipped + fuel) id ((Chunk <$> cs) ++ more) =
    await_from from_str as_u64 as_i64 fuel id ((Chunk <$> cs') ++ more).
Proof.
  induction skipped as [|v skipped IH]; intros cs later more Hp Ho Hcs Hc; [by exists cs|].
  apply Forall_cons in Hp as [Hv Hp]. apply Forall_cons in Ho as [[Hr Hid] Ho].
  unfold wire_lines in Hc. cbn [fmap list_fmap concat] in Hc. rewrite <- !app_assoc in Hc.
  destruct (read_line_stream cs v _ more Hcs Hv Hc) as (cs1 & H1 & H2 & H3).
  destruct (IH cs1 later more Hp Ho H1 H2) as (cs' & H4 & H5 & H6).
  exists cs'. split_and!; [done..|]. cbn [length Nat.add]. rewrite (await_step _ _ _ _ _ H3 Hv), Hr, H6.
  destruct (bool_decide (is_Some (get "id" v))) eqn:E1; [|done].
  destruct (bool_decide (is_Some (get "jsonrpc" v))) eqn:E2; [done|]. exfalso. apply Hid.
  to_prop. split; [done|]. by apply eq_None_not_Some.
Qed.

Lemma await_enough fuel id arr x :
  await_from from_str as_u64 as_i64 fuel id arr = Some x → await from_str as_u64 as_i64 id arr = Some x.
Proof.
  intros H. destruct (await_total id arr) as (rest & r & Ha). rewrite Ha. unfold await in Ha.
  destruct (decide (fuel ≤ S (arrivals_size arr))) as [Hle|Hgt].
  - apply (await_from_mono id _ _ _ _ Hle) in H. congruence.
  - apply (await_from_mono id _ fuel) in Ha; [congruence|lia].
Qed.

Lemma await_answers id skipped v cs later more :
  chunked cs → concat cs = wire_lines skipped ++ to_string v ++ lf :: later →
  Forall prints_line (v :: skipped) → Forall (passed_over id) skipped → is_response_for as_u64 v id = true →
  ∃ cs', chunked cs' ∧ concat cs' = later ∧
    await from_str as_u64 as_i64 id ((Chunk <$> cs) ++ more) = Some ((Chunk <$> cs') ++ more, answer_value as_i64 v).
Proof.
  intros Hcs Hc [Hv Hp]%Forall_cons Ho Hr.
  destruct (await_passes 1 id skipped cs _ more Hp Ho Hcs Hc) as (cs1 & H1 & H2 & H3).
  destruct (read_line_stream cs1 v later more H1 Hv H2) as (cs2 & H4 & H5 & H6).
  exists cs2. split_and!; [done..|]. eapply await_enough. rewrite H3, (await_step _ _ _ _ _ H6 Hv), Hr.
  replace (bool_decide (is_Some (get "jsonrpc" v))) with true; [by rewrite andb_false_r|].
  symmetry. apply bool_decide_eq_true_2. unfold is_response_for in Hr.
  destruct (negb _); [done|]. destruct (get "jsonrpc" v); [by eexists|done].
Qed.

Lemma await_silent id skipped part cs more :
  chunked cs → concat cs = wire_lines skipped ++ part → lf ∉ part →
  (N.of_nat (length part) ≤ MAX_LINE_BYTES)%N →
  Forall prints_line skipped → Forall (passed_over id) skipped →
  await from_str as_u64 as_i64 id ((Chunk <$> cs) ++ Silence :: more) =
  Some (more, Err (Transport "the server did not answer within the call timeout")).
Proof.
  intros Hcs Hc Hpart Hmax Hp Ho.
  destruct (await_passes 1 id skipped cs part (Silence :: more) Hp Ho Hcs Hc) as (cs1 & H1 & <- & H3).
  eapply await_enough. rewrite H3. cbn [await_from]. unfold read_bounded_line.
  by rewrite take_line_silent.
Qed.
End facts.

(** ** The cache *)

Section cache_facts.
Context {T : Type} `{TableLaws T (list byte) CachedTool}.

Lemma append_keeps row k r t : t_get k t = Some r → t_get k (append row t).1 = Some r.
Proof.
  intros Hk. unfold append. destruct (check row); [|done].
  destruct (t_insert (tool row) row t) as [t'|] eqn:E; [|done].
  cbn [fst]. destruct (t_get_insert _ _ _ _ k E) as [[<- _]|[_ ->]]; [|done].
  assert (t_insert (tool row) row t = None) by (apply t_insert_None; by eexists). congruence.
Qed.

Lemma append_new row k r t :
  t_get k (append row t).1 = Some r → t_get k t = Some r ∨ (r = row ∧ k = tool row ∧ check row = true).
Proof.
  unfold append. destruct (check row); [|auto].
  destruct (t_insert (tool row) row t) as [t'|] eqn:E; [|auto].
  cbn [fst]. destruct (t_get_insert _ _ _ _ k E) as [[<- Hk]|[_ ->]]; [|auto].
  rewrite Hk. intros [= ->]. auto.
Qed.

Lemma append_there row t : check row = true → is_Some (t_get (tool row) (append row t).1).
Proof.
  intros Hc. unfold append. rewrite Hc. destruct (t_insert (tool row) row t) as [t'|] eqn:E.
  - cbn [fst]. destruct (t_get_insert _ _ _ _ (tool row) E) as [[_ Hk]|[? _]]; [|done]. rewrite Hk. by eexists.
  - by apply t_insert_None in E.
Qed.

Lemma append_all_keeps rows k r : ∀ t, t_get k t = Some r → t_get k (append_all rows t) = Some r.
Proof.
  unfold append_all. induction rows as [|row rows IH]; intros t Hk; [done|].
  cbn [foldl]. by apply IH, append_keeps.
Qed.

Lemma append_all_new rows k r : ∀ t,
  t_get k (append_all rows t) = Some r → t_get k t = Some r ∨ (r ∈ rows ∧ k = tool r ∧ check r = true).
Proof.
  unfold append_all. induction rows as [|row rows IH]; intros t; [auto|]. cbn [foldl].
  intros [Hk|(? & ? & ?)]%IH; [|right; set_solver].
  apply append_new in Hk as [?|(-> & ? & ?)]; [by left|right; set_solver].
Qed.

Lemma append_all_there rows row : ∀ t,
  row ∈ rows → check row = true → is_Some (t_get (tool row) (append_all rows t)).
Proof.
  induction rows as [|row' rows IH]; intros t Hin Hc; [by apply elem_of_nil in Hin|].
  unfold append_all. cbn [foldl]. apply elem_of_cons in Hin as [<-|Hin]; [|by apply IH].
  destruct (append_there row t Hc) as [r Hr]. exists r. by apply append_all_keeps.
Qed.

Lemma all_row t row : row ∈ all t → ∃ k, t_get k t = Some row.
Proof.
  unfold all. intros ([k r] & -> & Hin)%list_elem_of_fmap. exists k. by apply t_scan_elem.
Qed.

(** A cache grows by no more than the rows it is offered. *)
Lemma append_all_bounded rows t : length (all (append_all rows t)) ≤ length (all t) + length rows.
Proof.
  unfold all. rewrite !length_fmap.
  assert (Hincl : (t_scan (append_all rows t)).*1 ⊆ (t_scan t).*1 ++ (tool <$> rows)).
  { intros k ([k' r] & -> & Hin%t_scan_elem)%list_elem_of_fmap. cbn. apply elem_of_app.
    apply append_all_new in Hin as [Hk|(Hr & -> & _)].
    - left. apply list_elem_of_fmap. exists (k', r). split; [done|]. by apply t_scan_elem.
    - right. apply list_elem_of_fmap. by exists r. }
  rewrite <- (length_fmap fst), <- (length_fmap fst (t_scan t)), <- (length_fmap tool rows), <- length_app.
  apply submseteq_length, NoDup_submseteq; [apply t_scan_nodup|]. intros k Hk. by apply Hincl.
Qed.
End cache_facts.

(** ** Probing *)

Section probe_facts.
Context {Num : Type} (to_string : Value Num → list byte) (from_str : list byte → option (Value Num)).
Context (as_u64 : Num → option N) (as_i64 : Num → option Z) (of_u64 : N → Num).

#[local] Abbreviation call := (call to_string from_str as_u64 as_i64 of_u64).
#[local] Abbreviation list_pages := (list_pages to_string from_str as_u64 as_i64 of_u64).
#[local] Abbreviation handshake := (handshake to_string from_str as_u64 as_i64 of_u64).
#[local] Abbreviation discover := (discover to_string from_str as_u64 as_i64 of_u64).
#[local] Abbreviation notify := (notify to_string).

(** The requests a connection has sent. *)
Definition requests (t : Wire) : N := match t with OnStdio s => id s | OnHttp h => h_id h end.

Lemma write_line_id line s : id (write_line line s).1 = id s.
Proof. unfold write_line. by destruct (default true _). Qed.

Lemma call_total method params t : ∃ t' r, call method params t = Some (t', r) ∧
  requests t' = (requests t + 1)%N.
Proof.
  destruct t as [s|h]; cbn [Mcp.call].
  - unfold stdio_call. set (s1 := mkStdio _ _ _ _).
    pose proof (write_line_id (to_string (request of_u64 (id s1) method params)) s1) as Hid.
    destruct (write_line _ s1) as [s2 [u|e]]; cbn [fst] in Hid; [|by do 2 eexists].
    destruct (await_total to_string from_str as_u64 as_i64 of_u64 (id s2) (arrivals s2)) as (rest & r & ->).
    by do 2 eexists.
  - unfold http_call, post. cbn. destruct (default None (head (answers h))); do 2 eexists; (split; [reflexivity|done]).
Qed.

Lemma notify_id method t : requests (notify method t).1 = requests t.
Proof.
  destruct t as [s|h]; cbn [Mcp.notify].
  - pose proof (write_line_id (to_string (notification method)) s). by destruct (write_line _ s).
  - done.
Qed.

Lemma handshake_total t : ∃ t' r, handshake t = Some (t', r) ∧ requests t' = (requests t + 1)%N.
Proof.
  unfold Mcp.handshake. destruct (call_total "initialize" initialize_params t) as (t' & r & -> & Hid).
  cbn [mbind option_bind]. destruct (let? r := r in negotiated r); [|eauto].
  pose proof (notify_id "notifications/initialized" t') as Hn.
  destruct (notify "notifications/initialized" t'). rewrite <- Hid, <- Hn. eauto.
Qed.

Lemma list_pages_total n : ∀ cursor tools t,
  ∃ t' r, list_pages n cursor tools t = Some (t', r) ∧ (requests t' ≤ requests t + N.of_nat n)%N.
Proof.
  induction n as [|n IH]; intros cursor tools t; cbn [Mcp.list_pages]; [do 2 eexists; split; [done|lia]|].
  destruct (call_total "tools/list"
    match cursor with None => VObject [] | Some page => object [("cursor", VString page)] end t)
    as (t1 & r & -> & Hid). cbn [mbind option_bind].
  destruct r as [listed|e]; [|do 2 eexists; split; [done|lia]].
  destruct (to_tools listed) as [[found [page|]]|]; [|do 2 eexists; split; [done|lia]..].
  destruct (IH (Some page) (tools ++ found) t1) as (t' & r & -> & Hn). do 2 eexists. split; [done|lia].
Qed.

Lemma rows_of_spec server tools rows : rows_of to_string server tools = Ok rows →
  length rows = length tools ∧
  ∀ row, row ∈ rows → Mcp.server row = server ∧ live row = true ∧ namespaced server (local_name row) = Ok (tool row).
Proof.
  revert rows. induction tools as [|remote tools IH]; intros rows; cbn [rows_of].
  { intros [= <-]. split; [done|]. by intros row Hr%elem_of_nil. }
  intros (name & Hn & (rest & Hrest & [= <-])%result_bind_Ok)%result_bind_Ok.
  destruct (IH rest Hrest) as [Hlen Hall]. cbn [length]. split; [lia|].
  intros row [->|Hr]%elem_of_cons; [done|by apply Hall].
Qed.

Lemma discover_total config t : ∃ t' r, discover config t = Some (t', r) ∧
  (requests t' ≤ requests t + 1 + N.of_nat MAX_LIST_PAGES)%N ∧
  ∀ rows, r = Ok rows → length rows ≤ TOOLS_PER_SERVER ∧
    ∀ row, row ∈ rows → server row = name config ∧ live row = true ∧
      namespaced (name config) (local_name row) = Ok (tool row).
Proof.
  unfold Mcp.discover. destruct (handshake_total t) as (t1 & r1 & -> & H1). cbn [mbind option_bind].
  destruct r1 as [[]|e]; [|do 2 eexists; split_and!; [done|lia|done]].
  destruct (list_pages_total MAX_LIST_PAGES None [] t1) as (t2 & r2 & -> & H2). cbn [mbind option_bind].
  do 2 eexists. split_and!; [done|lia|].
  intros rows (listed & -> & Hs)%result_bind_Ok. unfold settled in Hs.
  case_bool_decide; [done|]. destruct (TOOLS_PER_SERVER <? _) eqn:E; [done|]. apply Nat.ltb_ge in E.
  apply rows_of_spec in Hs as [Hlen Hall]. split; [lia|done].
Qed.

Context {T : Type} `{TableLaws T (list byte) CachedTool}.
#[local] Abbreviation probe_one := (probe_one to_string from_str as_u64 as_i64 of_u64).
#[local] Abbreviation probe_all := (probe_all to_string from_str as_u64 as_i64 of_u64).

(** A row a probe of this server may add. *)
Definition discovered (config : ServerConfig) (row : CachedTool) : Prop :=
  server row = name config ∧ live row = true ∧ check row = true ∧
  namespaced (name config) (local_name row) = Ok (tool row).

Lemma probe_one_spec io config connected (t : T) :
  ∃ t' r, probe_one io config connected t = Some (t', r) ∧
  (∀ e, r = Err e → t' = t) ∧
  (∀ k row, t_get k t = Some row → t_get k t' = Some row) ∧
  (∀ k row, t_get k t' = Some row → t_get k t = Some row ∨ (k = tool row ∧ discovered config row ∧ is_ok r = true)) ∧
  length (all t') ≤ length (all t) + (if is_ok r then TOOLS_PER_SERVER else 0).
Proof.
  unfold Mcp.probe_one. destruct connected as [wire|e].
  2:{ do 2 eexists. split; [done|]. split_and!; [done|done|eauto|cbn; lia]. }
  destruct (discover_total config wire) as (wire' & r & -> & _ & Hrows). cbn [mbind option_bind].
  destruct r as [rows|e]; [|do 2 eexists; split; [done|]; split_and!; [done|done|eauto|cbn; lia]].
  destruct (Hrows rows eq_refl) as [Hlen Hall].
  destruct io; do 2 eexists; (split; [done|]); [|split_and!; [done|done|eauto|cbn; lia]]. split_and!.
  - done.
  - intros k row. apply append_all_keeps.
  - intros k row [Hr|(Hr & -> & Hc)]%append_all_new; [by left|right].
    destruct (Hall row Hr) as (Hs & Hl & Hn). done.
  - pose proof (append_all_bounded rows t). cbn [is_ok]. lia.
Qed.

Lemma probe_all_spec configs : ∀ (t : T),
  ∃ t' live refusals, probe_all configs t = Some (t', live, refusals) ∧
  (∀ k row, t_get k t = Some row → t_get k t' = Some row) ∧
  (∀ k row, t_get k t' = Some row → t_get k t = Some row ∨
     (k = tool row ∧ ∃ config, config ∈ live.*1 ∧ discovered config row)) ∧
  length (all t') ≤ length (all t) + TOOLS_PER_SERVER * length live ∧
  length live + length refusals = length configs ∧
  live.*1 `sublist_of` configs.*1.*1 ∧ refusals.*1 `sublist_of` (name <$> configs.*1.*1).
Proof.
  induction configs as [|[[config connected] io] configs IH]; intros t; cbn [Mcp.probe_all].
  { do 3 eexists. split_and!; [done..|eauto|lia|done|constructor|constructor]. }
  destruct (probe_one_spec io config connected t) as (t1 & r & -> & Herr & Hk1 & Hn1 & Hl1).
  cbn [mbind option_bind].
  destruct (IH t1) as (t' & live & refusals & -> & Hk & Hn & Hl & Hlen & Hs1 & Hs2). cbn [mbind option_bind].
  destruct r as [wire|e]; cbn [is_ok] in *; do 3 eexists; (split; [done|]); split_and!.
  - eauto.
  - intros k row [Hr|(-> & c & Hc & Hd)]%Hn; [|right; split; [done|]; exists c; set_solver].
    apply Hn1 in Hr as [?|(-> & Hd & _)]; [by left|right]. split; [done|]. exists config. cbn. set_solver.
  - cbn [length]. lia.
  - cbn [length]. lia.
  - cbn. by constructor.
  - cbn. by constructor.
  - eauto.
  - intros k row [Hr|?]%Hn; [|by right]. apply Hn1 in Hr as [?|(_ & _ & ?)]; [by left|done].
  - lia.
  - cbn [length]. lia.
  - cbn. by constructor.
  - cbn. by constructor.
Qed.
End probe_facts.

(** ** The theorems *)

(** A call over a process's pipes sends one request with the next identifier and gets
    the answer made for it: messages in front of it - notifications and answers to
    earlier requests - are passed over, however the bytes arrive, and what the server
    sends after it stays for the next call; when the line end does not come before the
    deadline, the call fails. *)
Theorem stdio_answer_exact {Num} to_string from_str as_u64 as_i64 (of_u64 : N → Num)
    method params s skipped cs more :
  default true (head (writes s)) = true → chunked cs →
  Forall (prints_line to_string from_str) skipped →
  Forall (passed_over as_u64 (id s + 1)) skipped →
  let call := stdio_call to_string from_str as_u64 as_i64 of_u64 method params in
  let after rest := mkStdio rest (tail (writes s))
                      (sent s ++ [to_string (request of_u64 (id s + 1) method params)]) (id s + 1) in
  (∀ v later, arrivals s = (Chunk <$> cs) ++ more →
     concat cs = wire_lines to_string skipped ++ to_string v ++ lf :: later →
     prints_line to_string from_str v → is_response_for as_u64 v (id s + 1) = true →
     ∃ cs', chunked cs' ∧ concat cs' = later ∧
       call s = Some (after ((Chunk <$> cs') ++ more), answer_value as_i64 v)) ∧
  (∀ part, arrivals s = (Chunk <$> cs) ++ Silence :: more →
     concat cs = wire_lines to_string skipped ++ part → (lf ∉ part) →
     (N.of_nat (length part) ≤ MAX_LINE_BYTES)%N →
     call s = Some (after more, Err (Transport "the server did not answer within the call timeout"))).
Proof.
  intros Hw Hcs Hp Ho call after. unfold call, stdio_call, write_line. cbn [writes]. rewrite Hw.
  cbn [arrivals sent id writes].
  split.
  - intros v later -> Hc Hv Hr.
    destruct (await_answers to_string from_str as_u64 as_i64 of_u64 (id s + 1) skipped v cs later more)
      as (cs' & H1 & H2 & ->); [done|done|by constructor|done|done|]. by exists cs'.
  - intros part -> Hc Hpart Hmax.
    by rewrite (await_silent to_string from_str as_u64 as_i64 of_u64 (id s + 1) skipped part).
Qed.

(** Probing the configured servers always comes to an end, and the cache only grows:
    every row is kept byte for byte, every new row is a tool of a server that answered,
    under its own namespaced name, no server adds more than its budget, and each server
    is either connected or refused, in the order of the configuration. *)
Theorem probe_append_only {Num} to_string from_str as_u64 as_i64 (of_u64 : N → Num)
    {T} `{TableLaws T (list byte) CachedTool} migrated configs (t : T) :
  ∃ g refusals, probe to_string from_str as_u64 as_i64 of_u64 migrated configs t = Some (g, refusals) ∧
    (∀ k row, t_get k t = Some row → t_get k (store g) = Some row) ∧
    (∀ k row, t_get k (store g) = Some row → t_get k t = Some row ∨
       (k = tool row ∧ ∃ config, config ∈ (servers g).*1 ∧ discovered config row)) ∧
    length (all (store g)) ≤ length (all t) + TOOLS_PER_SERVER * length (servers g) ∧
    (servers g).*1 `sublist_of` configs.*1.*1 ∧
    (if migrated then
       length (servers g) + length refusals = length configs ∧
       refusals.*1 `sublist_of` (name <$> configs.*1.*1)
     else servers g = [] ∧ store g = t).
Proof.
  unfold probe. destruct migrated; cbn [negb].
  - destruct (probe_all_spec to_string from_str as_u64 as_i64 of_u64 configs t)
      as (t' & live & refusals & -> & H1 & H2 & H3 & H4 & H5 & H6).
    cbn [mbind option_bind]. by do 2 eexists.
  - do 2 eexists. split; [done|]. cbn. split_and!; [done|eauto|lia|apply sublist_nil_l|done|done].
Qed.

(** One probe is bounded whatever the server does: it ends after a handshake and at
    most thirty-two pages; a server that is refused changes nothing, and one that is
    accepted has at most two hundred and fifty-six tools, each under a name of letters,
    digits, underscores and hyphens of at most 128 bytes, and each whose fields fit the
    cache's columns in the cache. *)
Theorem probe_bounded {Num} to_string from_str as_u64 as_i64 (of_u64 : N → Num)
    {T} `{TableLaws T (list byte) CachedTool} io config wire (t : T) :
  ∃ t' r, probe_one to_string from_str as_u64 as_i64 of_u64 io config (Ok wire) t = Some (t', r) ∧
    match r with
    | Err _ => t' = t
    | Ok wire' =>
        (requests wire' ≤ requests wire + 33)%N ∧ length (all t') ≤ length (all t) + 256 ∧
        ∃ rows, discover to_string from_str as_u64 as_i64 of_u64 config wire = Some (wire', Ok rows) ∧
          length rows ≤ 256 ∧
          ∀ row, row ∈ rows → length (tool row) ≤ 128 ∧ Forall (λ c, is_name_byte c = true) (tool row) ∧
            (check row = true → is_Some (t_get (tool row) t'))
    end.
Proof.
  unfold probe_one.
  destruct (discover_total to_string from_str as_u64 as_i64 of_u64 config wire)
    as (wire' & r & Hd & Hreq & Hrows). rewrite Hd. cbn [mbind option_bind].
  destruct r as [rows|e]; [|by do 2 eexists]. destruct (Hrows rows eq_refl) as [Hlen Hall].
  destruct io; [|by do 2 eexists]. do 2 eexists. split; [done|]. cbv beta iota. split_and!.
  - unfold MAX_LIST_PAGES in Hreq. lia.
  - pose proof (append_all_bounded rows t). unfold TOOLS_PER_SERVER in *. lia.
  - exists rows. split_and!; [done|done|]. intros row Hr. destruct (Hall row Hr) as (_ & _ & Hn).
    unfold namespaced in Hn.
    apply result_bind_Ok in Hn as ([] & H1 & ([] & H2 & Hn)%result_bind_Ok).
    cbv zeta in Hn. set (joined := name config ++ _) in Hn.
    destruct (128 <? length joined) eqn:E; [done|]. apply Nat.ltb_ge in E.
    assert (Ht : tool row = joined) by congruence. rewrite Ht.
    assert (Hpart : ∀ part, name_part part = Ok tt → Forall (λ c, is_name_byte c = true) part).
    { intros part Hp. unfold name_part in Hp. destruct (_ || _) in Hp; [done|].
      destruct (forallb is_name_byte part) eqn:Ef; [|done].
      apply Forall_forall. intros c Hc. by apply (proj1 (forallb_forall _ _) Ef), list_elem_of_In. }
    split_and!; [done| |rewrite <- Ht; by apply append_all_there].
    unfold joined. rewrite !Forall_app. split_and!; [by apply Hpart|by repeat constructor|by apply Hpart].
Qed.

(** ** A cache kept as a map, in the order of its text keys *)

Definition tool_le (a b : list byte) : Prop := key_leb a b = true.

#[export] Instance tool_le_dec a b : base.Decision (tool_le a b).
Proof. unfold tool_le. apply _. Defined.
#[export] Instance tool_le_total : Total tool_le.
Proof. intros a b. apply key_leb_total. Qed.
#[export] Instance tool_le_trans : Transitive tool_le.
Proof. intros a b c. apply key_leb_trans. Qed.

#[export] Instance cache_table : Table (gmap (list byte) CachedTool) (list byte) CachedTool := gmap_table tool_le.
#[export] Instance cache_table_laws : TableLaws (gmap (list byte) CachedTool) (list byte) CachedTool :=
  gmap_table_laws tool_le.

(** ** Examples: values by their place in a list *)

Definition a_tool (name description : string) : Value N :=
  object [("name", text name); ("description", text description); ("inputSchema", VObject [])].

Definition response (id : N) (result : Value N) : Value N :=
  object [("jsonrpc", text "2.0"); ("id", VNumber id); ("result", result)].

Definition spoken : list (Value N) :=
  [response 1 (object [("protocolVersion", VString PROTOCOL_VERSION)]);
   object [("jsonrpc", text "2.0"); ("method", text "notifications/message")];
   response 2 (object [("tools", VArray [a_tool "c" "first"]); ("nextCursor", text "p2")]);
   response 3 (object [("tools", VArray [a_tool "b__c" "second"])]);
   response 1 (object [("protocolVersion", text "2024-11-05")]);
   response 2 (object [("tools", VArray [a_tool "b__c" "other"])]);
   object [("jsonrpc", text "2.0"); ("id", VNumber 1%N); ("method", text "ping")];
   response 2 (object [("tools", VArray [object [("name", text "big"); ("inputSchema", VObject []);
     ("description", VString (replicate 4097 "x"%char))]])])].

(** A value is printed as its place; requests are of no interest. *)
Definition by_place (v : Value N) : list byte :=
  match get "id" v, get "method" v with
  | Some (VNumber 1%N), None => bytes "0"
  | None, _ => bytes "1"
  | Some (VNumber 2%N), None => bytes "2"
  | Some (VNumber 3%N), None => bytes "3"
  | _, _ => bytes "request"
  end.

Definition at_place (l : list byte) : option (Value N) := n ← parse_dec l; spoken !! N.to_nat n.

(** A server that sends the values at the given places. *)
Definition a_server (places : list string) : Wire :=
  OnStdio (mkStdio ((λ p, Chunk (bytes p ++ [lf])) <$> places) [] [] 0).

Definition as_u64_id (n : N) : option N := Some n.
Definition as_i64_id (n : N) : option Z := Some (Z.of_N n).

Definition probe_cached (config : string) (places : list string) (t : gmap (list byte) CachedTool) :=
  probe_one by_place at_place as_u64_id as_i64_id (λ n, n) true
    (mkServerConfig (bytes config) (EHttp [])) (Ok (a_server places)) t.

Definition cached (r : option (gmap (list byte) CachedTool * result Wire McpError)) :
    list (list byte * list byte * list byte) * option McpError :=
  match r with
  | Some (t, r) =>
      ((λ row, (tool row, server row, description row)) <$> all t,
       match r with Err e => Some e | Ok _ => None end)
  | None => ([], None)
  end.

Definition log_line : Value N := object [("jsonrpc", text "2.0"); ("method", text "notifications/message")].
Definition hello : Value N := response 1 (object [("protocolVersion", VString PROTOCOL_VERSION)]).

Lemma ones_print : Forall (prints_line by_place at_place) [log_line; hello].
Proof.
  repeat constructor; try done; try (refine (bool_decide_unpack _ _); by vm_compute).
Qed.

Lemma stdio_answer_exact_witness :
  let bytes_in := bytes "1" ++ [lf] ++ bytes "0" ++ [lf] ++ bytes "3" in
  let s := mkStdio ((Chunk <$> ((λ c, [c]) <$> bytes_in)) ++ []) [] [] 0 in
  ∃ cs, concat cs = bytes "3" ∧
    stdio_call by_place at_place as_u64_id as_i64_id (λ n, n) "tools/list" (VObject []) s =
    Some (mkStdio ((Chunk <$> cs) ++ []) [] [bytes "request"] 1,
          Ok (object [("protocolVersion", VString PROTOCOL_VERSION)])).
Proof.
  intros bytes_in s. pose proof ones_print as [H1 [H2 _]%Forall_cons]%Forall_cons.
  destruct (stdio_answer_exact by_place at_place as_u64_id as_i64_id (λ n, n) "tools/list" (VObject [])
    s [log_line] ((λ c, [c]) <$> bytes_in) []) as [H _].
  - done.
  - repeat (constructor; [done|]). constructor.
  - by constructor.
  - constructor; [|constructor]. split; [by vm_compute|]. intros [Hs _]. vm_compute in Hs. by destruct Hs.
  - destruct (H hello (bytes "3")) as (cs' & _ & Hc & E); [done|by vm_compute|done|by vm_compute|].
    exists cs'. split; [done|]. rewrite E. by vm_compute.
Defined.

(** ** What the documents do not say *)

(** The namespaced names of two servers' tools can be equal; the second tool is left
    out, and its server is taken for fully cached. *)
Lemma namespaces_overlap :
  let first := probe_cached "a" ["0"; "5"]%string ∅ in
  cached first = ([(bytes "a__b__c", bytes "a", bytes "other")], None) ∧
  cached (first ≫= λ r, probe_cached "a__b" ["0"; "2"; "3"]%string r.1) =
    ([(bytes "a__b__b__c", bytes "a__b", bytes "second"); (bytes "a__b__c", bytes "a", bytes "other")], None).
Proof. by vm_compute. Qed.

(** A tool with a long description is left out without a word. *)
Lemma long_description_lost : cached (probe_cached "a" ["0"; "7"]%string ∅) = ([], None).
Proof. by vm_compute. Qed.

(** An older revision is refused. *)
Lemma older_revision_refused :
  cached (probe_cached "a" ["4"]%string ∅) = ([], Some (ProtocolVersion (bytes "2024-11-05"))).
Proof. by vm_compute. Qed.

Definition call_of (arrivals : list Arrive) : option (result (Value N) McpError) :=
  snd <$> stdio_call by_place at_place as_u64_id as_i64_id (λ n, n) "tools/list" (VObject [])
            (mkStdio arrivals [] [] 0).

(** A request of the server's own whose identifier is the call's is taken for the answer. *)
Lemma mcp_request_taken_for_answer :
  call_of [Chunk (bytes "6" ++ [lf]); Chunk (bytes "0" ++ [lf])] =
  Some (Err (Protocol "the response has neither result nor error")).
Proof. by vm_compute. Qed.

(** An empty line is taken for the end of the server. *)
Lemma empty_line_taken_for_closing :
  call_of [Chunk [lf]; Chunk (bytes "0" ++ [lf])] =
  Some (Err (Transport "the server closed without answering")).
Proof. by vm_compute. Qed.

(** What a call took of a line before its deadline is gone: the rest of the line is the
    next call's first line. *)
Lemma late_line_is_torn :
  let call s := stdio_call by_place at_place as_u64_id as_i64_id (λ n, n) "tools/list" (VObject []) s in
  snd <$> ('(s, _) ← call (mkStdio [Chunk (bytes "0"); Silence; Chunk [lf]; Chunk (bytes "2" ++ [lf])] [] [] 0); call s) =
  Some (Err (Transport "the server closed without answering")).
Proof. by vm_compute. Qed.

(** The gateway's own tool is registered with its full schema. *)
Lemma gateway_tool_registered :
  ∃ tool : @Tool N, gateway_tool = Ok tool ∧ Schema.fields (t_schema tool) = gateway_fields.
Proof. by eexists. Qed.
