(* ===== verification/Redact.v ===== *)
(** * Redaction of log lines: [supra_log/src/redact.rs]

    Every formatted line passes [redact] before it is written.  A line is read from
    the left: at every offset the mechanisms (a PEM block, a secret field in its JSON
    and its compact rendering, a credential shape) are tried in order, and what one
    of them claims is replaced by a marker that tells its length alone.

    [credential] says what counts as a credential at an offset without the scanner;
    [reading] says how a line splits into characters and credentials.  The scanner
    finds such a reading of every line and shows nothing of the credentials. *)

From Stdlib Require Import Ascii.
From S2P Require Import Prelude Text Sealing Utf8.

(** ** Tables *)

Inductive Charset := Token | Upper.

Definition between (lo hi : N) (c : byte) : bool := (lo <=? N_of_ascii c)%N && (N_of_ascii c <=? hi)%N.
Definition is_ascii_uppercase : byte → bool := between 65 90.
Definition is_ascii_lowercase : byte → bool := between 97 122.
Definition is_ascii_digit : byte → bool := between 48 57.
Definition is_ascii_alphanumeric (c : byte) : bool :=
  is_ascii_uppercase c || is_ascii_lowercase c || is_ascii_digit c.

(** [u8::is_ascii_whitespace]: the WHATWG white space, without the vertical tab. *)
Definition is_ascii_whitespace (c : byte) : bool :=
  bool_decide (N_of_ascii c ∈ [9; 10; 12; 13; 32]%N).

Definition charset_contains (charset : Charset) (c : byte) : bool :=
  match charset with
  | Token => is_ascii_alphanumeric c || bool_decide (c ∈ Text.bytes "-_.+/")
  | Upper => is_ascii_uppercase c || is_ascii_digit c
  end.

Record Shape := mkShape { prefix : list byte; min_payload : nat; charset : Charset }.

Definition SHAPES : list Shape :=
  [mkShape (Text.bytes "sk-") 16 Token;
   mkShape (Text.bytes "ghp_") 16 Token;
   mkShape (Text.bytes "gho_") 16 Token;
   mkShape (Text.bytes "ghu_") 16 Token;
   mkShape (Text.bytes "ghs_") 16 Token;
   mkShape (Text.bytes "ghr_") 16 Token;
   mkShape (Text.bytes "github_pat_") 16 Token;
   mkShape (Text.bytes "xoxb-") 16 Token;
   mkShape (Text.bytes "xoxp-") 16 Token;
   mkShape (Text.bytes "xoxa-") 16 Token;
   mkShape (Text.bytes "xoxs-") 16 Token;
   mkShape (Text.bytes "AIza") 30 Token;
   mkShape (Text.bytes "AKIA") 16 Upper;
   mkShape (Text.bytes "ASIA") 16 Upper;
   mkShape (Text.bytes "Bearer ") 16 Token].

Definition SECRET_FIELDS : list (list byte) :=
  Text.bytes <$>
  ["api_key"; "apikey"; "auth_token"; "authorization"; "credential"; "credentials"; "passwd";
   "password"; "private_key"; "secret"; "secret_key"; "session_key"; "token"]%string.

Definition PEM_BEGIN : list byte := Text.bytes "-----BEGIN ".
Definition PEM_END : list byte := Text.bytes "-----END ".

(** ["-----\\n"] in the source: a backslash and the letter n, not a line break. *)
Definition PEM_CLOSE_ESCAPED : list byte := Text.bytes "-----\n".
Definition PEM_CLOSE : list byte := Text.bytes "-----".

Definition quote : byte := ascii_of_nat 34.
Definition backslash : byte := ascii_of_nat 92.

Definition marker (len : nat) : list byte :=
  Text.bytes "<redacted:" ++ dec (N.of_nat len) ++ Text.bytes ">".

(** ** The mechanisms

    Each looks at the byte before the offset and at the rest of the line, and yields
    the bytes it consumes and what stands in for them. *)

(** [is_boundary(bytes, index)], from the byte before the index. *)
Definition is_boundary (prev : option byte) : bool :=
  match prev with
  | None => true
  | Some c => negb (is_ascii_alphanumeric c || bool_decide (c ∈ Text.bytes "-_."))
  end.

Definition pem_end (rest : list byte) : nat :=
  match
    match find_sub PEM_END rest with
    | Some at_ =>
        match find_sub PEM_CLOSE_ESCAPED (drop at_ rest) with
        | Some close => Some (at_ + close + length PEM_CLOSE_ESCAPED)
        | None =>
            (λ close, at_ + 9 + close + 5) <$> find_sub PEM_CLOSE (drop (at_ + 9) rest)
        end
    | None => None
    end
  with
  | Some end_ => end_
  | None => length rest
  end.

Definition match_pem (rest : list byte) : option (nat * list byte) :=
  if starts_with PEM_BEGIN rest then Some (pem_end rest, marker (pem_end rest)) else None.

(** The loop of [json_string_value]: the offset of the closing quote. *)
Fixpoint json_string_end (at_ : nat) (l : list byte) : option nat :=
  match l with
  | [] => None
  | c :: l =>
      if decide (c = backslash) then
        match l with [] => None | _ :: l => json_string_end (at_ + 2) l end
      else if decide (c = quote) then Some at_
      else json_string_end (at_ + 1) l
  end.

Definition json_string_value (rest : list byte) : option (nat * nat) :=
  match rest with
  | c :: body =>
      if decide (c = quote) then (λ at_, (at_, at_ + 2)) <$> json_string_end 0 body else None
  | [] => None
  end.

Definition strip_json_name (rest field : list byte) : option (list byte) :=
  after_open ← strip_prefix [quote] rest;
  after_name ← strip_prefix field after_open;
  after_close ← strip_prefix [quote] after_name;
  after_colon ← strip_prefix (Text.bytes ":") (trim_start after_close);
  Some (trim_start after_colon).

Definition compact_value_len (value : list byte) : nat :=
  match value with
  | c :: _ =>
      if decide (c = quote) then
        match json_string_value value with Some (_, total) => total | None => length value end
      else length (take_while (λ c, negb (is_ascii_whitespace c)) value)
  | [] => 0
  end.

Definition json_field (rest field : list byte) : option (nat * list byte) :=
  after_name ← strip_json_name rest field;
  '(value_len, total) ← json_string_value after_name;
  let head := take (length rest - length after_name) rest in
  Some (length rest - length after_name + total, head ++ [quote] ++ marker value_len ++ [quote]).

Definition compact_field (prev : option byte) (rest field : list byte) : option (nat * list byte) :=
  after ← strip_prefix field rest;
  value ← strip_prefix (Text.bytes "=") after;
  if is_boundary prev then
    let value_len := compact_value_len value in
    if 0 <? value_len
    then Some (length field + 1 + value_len, field ++ Text.bytes "=" ++ marker value_len)
    else None
  else None.

(** The first answer of a loop that returns it. *)
Fixpoint first_some {A B} (f : A → option B) (l : list A) : option B :=
  match l with
  | [] => None
  | x :: l => match f x with Some b => Some b | None => first_some f l end
  end.

Definition match_field (prev : option byte) (rest : list byte) : option (nat * list byte) :=
  first_some (λ field,
    match json_field rest field with
    | Some found => Some found
    | None => compact_field prev rest field
    end) SECRET_FIELDS.

Definition shape_at (rest : list byte) (shape : Shape) : option (nat * list byte) :=
  if starts_with (prefix shape) rest then
    let payload := drop (length (prefix shape)) rest in
    let len := length (take_while (charset_contains (charset shape)) payload) in
    if min_payload shape <=? len
    then Some (length (prefix shape) + len, prefix shape ++ marker len)
    else None
  else None.

Definition match_shape (prev : option byte) (rest : list byte) : option (nat * list byte) :=
  if is_boundary prev then first_some (shape_at rest) SHAPES else None.

Definition match_at (prev : option byte) (rest : list byte) : option (nat * list byte) :=
  match match_pem rest with
  | Some found => Some found
  | None =>
      match match_field prev rest with
      | Some found => Some found
      | None => match_shape prev rest
      end
  end.

(** ** The line *)

(** [next_char_slice]: the byte at the offset and the continuation bytes behind it. *)
Definition next_char (rest : list byte) : list byte :=
  match rest with [] => [] | c :: rest => c :: take_while is_continuation rest end.

(** The loop of [redact]; the byte before the rest is the last one passed. *)
Fixpoint redact_from (fuel : nat) (prev : option byte) (rest : list byte) : list byte :=
  match fuel, rest with
  | 0, _ | _, [] => []
  | S fuel, _ =>
      match match_at prev rest with
      | Some (consumed, replacement) =>
          replacement ++ redact_from fuel (last (take consumed rest)) (drop consumed rest)
      | None =>
          next_char rest ++
          redact_from fuel (last (next_char rest)) (drop (length (next_char rest)) rest)
      end
  end.

Definition might_contain_secret (line : list byte) : bool :=
  existsb (λ shape, contains (prefix shape) line) SHAPES
  || existsb (λ field, contains field line) SECRET_FIELDS
  || contains PEM_BEGIN line.

Definition redact (line : list byte) : list byte :=
  if might_contain_secret line then redact_from (length line) None line else line.

(** ** What a credential is

    [credential prev rest head value tail after]: the rest of the line begins with a
    credential; [head] and [tail] may be shown, [value] may not. *)

(** The body of a string literal: no quote in it but an escaped one. *)
Inductive string_body : list byte → Prop :=
| body_nil : string_body []
| body_plain c l : c ≠ quote → c ≠ backslash → string_body l → string_body (c :: l)
| body_escape c l : string_body l → string_body (backslash :: c :: l).

(** A block is over at the marker that follows its END line, or with the line. *)
Definition pem_block (value after : list byte) : Prop :=
  (∃ a c close, value = a ++ c ++ close ∧ starts_with PEM_END (c ++ close ++ after) = true ∧
    (close = PEM_CLOSE ∨ close = PEM_CLOSE_ESCAPED)) ∨
  after = [].

(** A value without quotes ends at white space, one with quotes at the closing one;
    without a closing one it is the rest of the line. *)
Inductive compact_value : list byte → list byte → Prop :=
| value_bare value after :
    value ≠ [] → head value ≠ Some quote →
    Forall (λ c, is_ascii_whitespace c = false) value →
    (∀ c, head after = Some c → is_ascii_whitespace c = true) →
    compact_value value after
| value_quoted body after : string_body body → compact_value (quote :: body ++ [quote]) after
| value_unclosed body :
    (∀ b t, body = b ++ quote :: t → ¬ string_body b) → compact_value (quote :: body) [].

(** A quoted name, a colon, and the white space a formatter may put around it. *)
Definition json_head (field ws1 ws2 : list byte) : list byte :=
  quote :: field ++ [quote] ++ ws1 ++ Text.bytes ":" ++ ws2.

Inductive credential (prev : option byte) : list byte → list byte → list byte → list byte → list byte → Prop :=
| cred_pem value after :
    starts_with PEM_BEGIN (value ++ after) = true → PEM_BEGIN `prefix_of` value → pem_block value after →
    credential prev (value ++ after) [] value [] after
| cred_json field ws1 ws2 value after :
    field ∈ SECRET_FIELDS → white_run ws1 → white_run ws2 → string_body value →
    let head := json_head field ws1 ws2 ++ [quote] in
    credential prev (head ++ value ++ [quote] ++ after) head value [quote] after
| cred_compact field value after :
    field ∈ SECRET_FIELDS → is_boundary prev = true → compact_value value after →
    let head := field ++ Text.bytes "=" in
    credential prev (head ++ value ++ after) head value [] after
| cred_shape shape value after :
    shape ∈ SHAPES → is_boundary prev = true →
    Forall (λ c, charset_contains (charset shape) c = true) value →
    min_payload shape ≤ length value →
    (∀ c, head after = Some c → charset_contains (charset shape) c = false) →
    credential prev (prefix shape ++ value ++ after) (prefix shape) value [] after.

Inductive piece := Kept (ch : list byte) | Hidden (head value tail : list byte).

Definition source (p : piece) : list byte :=
  match p with Kept ch => ch | Hidden head value tail => head ++ value ++ tail end.

(** What the log shows: of a hidden value, its length. *)
Definition shown (p : piece) : list byte :=
  match p with Kept ch => ch | Hidden head value tail => head ++ marker (length value) ++ tail end.

(** A reading of a line: from the left, a credential wherever one begins and a
    character where none does. *)
Inductive reading (prev : option byte) : list byte → list piece → Prop :=
| reading_nil : reading prev [] []
| reading_hide rest head value tail after ps :
    credential prev rest head value tail after →
    reading (last (head ++ value ++ tail)) after ps →
    reading prev rest (Hidden head value tail :: ps)
| reading_keep c t after ps :
    (∀ head value tail after', ¬ credential prev (c :: t ++ after) head value tail after') →
    Forall (λ c, is_continuation c = true) t → at_boundary after = true →
    reading (last (c :: t)) after ps →
    reading prev (c :: t ++ after) (Kept (c :: t) :: ps).

Definition hex_digits : list byte := Text.bytes "0123456789abcdef".

#[local] Arguments marker : simpl never.

(** Concatenations in one normal form. *)
Ltac flat := repeat first [rewrite <- (assoc_L (++)) | progress cbn [app]].

(** ** Searching *)

Lemma first_some_Some {A B} (f : A → option B) l b :
  first_some f l = Some b → ∃ x, x ∈ l ∧ f x = Some b.
Proof. induction l as [|x l IH]; cbn; [done|]. case_match; set_solver. Qed.

Lemma first_some_is_Some {A B} (f : A → option B) l x :
  x ∈ l → is_Some (f x) → is_Some (first_some f l).
Proof.
  induction l as [|y l IH]; [set_solver|]. intros [->|Hx]%elem_of_cons [b Hb]; cbn; [by rewrite Hb|].
  case_match; eauto.
Qed.

(** ** String literals *)

Lemma json_string_end_Some n l m :
  json_string_end n l = Some m →
  ∃ body after, l = body ++ quote :: after ∧ string_body body ∧ m = n + length body.
Proof.
  remember (length l) as k eqn:Hk. revert l n Hk. induction k as [k IH] using lt_wf_ind.
  intros [|c l] n -> H; cbn [json_string_end] in H; [done|]. case_decide as Hc; [|case_decide as Hq].
  - destruct l as [|d l]; [done|].
    destruct (IH (length l)) with (l := l) (n := n + 2) as (b & after & -> & Hb & ->); [simpl; lia|done..|].
    exists (c :: d :: b), after. subst c. split_and!; [done|by constructor|simpl; lia].
  - injection H as <-. subst c. exists [], l. split_and!; [done|constructor|simpl; lia].
  - destruct (IH (length l)) with (l := l) (n := n + 1) as (b & after & -> & Hb & ->); [simpl; lia|done..|].
    exists (c :: b), after. split_and!; [done|by constructor|simpl; lia].
Qed.

Lemma json_string_end_body n body after :
  string_body body → json_string_end n (body ++ quote :: after) = Some (n + length body).
Proof.
  intros Hb. revert n. induction Hb as [|c l Hq Hs Hb IH|c l Hb IH]; intros n; cbn [app json_string_end].
  - rewrite decide_False, decide_True by done. simpl. by rewrite Nat.add_0_r.
  - rewrite !decide_False by done. rewrite IH. simpl. f_equal. lia.
  - rewrite decide_True by done. rewrite IH. simpl. f_equal. lia.
Qed.

Lemma json_string_value_Some l len total :
  json_string_value l = Some (len, total) ↔
  ∃ body after, l = quote :: body ++ quote :: after ∧ string_body body ∧
    len = length body ∧ total = length body + 2.
Proof.
  unfold json_string_value. split.
  - destruct l as [|c l]; [done|]. case_decide; [|done]. subst c.
    intros (m & Hm & [= -> ->])%fmap_Some. apply json_string_end_Some in Hm as (b & a & -> & Hb & ->).
    exists b, a. split_and!; [done..|simpl; lia].
  - intros (b & a & -> & Hb & H1 & H2). rewrite decide_True by done.
    rewrite json_string_end_body by done. cbn. by subst.
Qed.

(** ** The mechanisms find credentials, and all of them *)

Lemma strip_json_name_Some rest field after :
  strip_json_name rest field = Some after →
  ∃ ws1 ws2, rest = json_head field ws1 ws2 ++ after ∧ white_run ws1 ∧ white_run ws2.
Proof.
  unfold strip_json_name, json_head. intros H.
  apply bind_Some in H as (l1 & ->%strip_prefix_Some & H).
  apply bind_Some in H as (l2 & ->%strip_prefix_Some & H).
  apply bind_Some in H as (l3 & ->%strip_prefix_Some & H).
  apply bind_Some in H as (l4 & E%strip_prefix_Some & [= <-]).
  destruct (trim_start_Some l3) as (ws1 & E1 & H1). destruct (trim_start_Some l4) as (ws2 & E2 & H2).
  exists ws1, ws2. split_and!; [|done..]. rewrite E1, E. rewrite E2 at 1. by flat.
Qed.

Lemma strip_json_name_head field ws1 ws2 l :
  white_run ws1 → white_run ws2 →
  strip_json_name (json_head field ws1 ws2 ++ quote :: l) field = Some (quote :: l).
Proof.
  intros H1 H2. unfold strip_json_name, json_head.
  replace (strip_prefix [quote] _) with (Some (field ++ quote :: ws1 ++ ":"%char :: ws2 ++ quote :: l));
    [cbn [mbind option_bind]|].
  2:{ symmetry. apply strip_prefix_Some. by flat. }
  rewrite (proj2 (strip_prefix_Some _ _ (quote :: ws1 ++ ":"%char :: ws2 ++ quote :: l))) by done.
  cbn [mbind option_bind].
  rewrite (proj2 (strip_prefix_Some _ _ (ws1 ++ ":"%char :: ws2 ++ quote :: l))) by done.
  cbn [mbind option_bind]. rewrite trim_start_run by done.
  rewrite (proj2 (strip_prefix_Some _ _ (ws2 ++ quote :: l))) by done. cbn [mbind option_bind].
  by rewrite trim_start_run.
Qed.

Lemma json_field_Some prev rest field n repl :
  field ∈ SECRET_FIELDS → json_field rest field = Some (n, repl) →
  ∃ head value tail after, credential prev rest head value tail after ∧
    n = length (head ++ value ++ tail) ∧ repl = head ++ marker (length value) ++ tail ∧
    rest = (head ++ value ++ tail) ++ after.
Proof.
  intros Hf H. unfold json_field in H.
  apply bind_Some in H as (l & Hl & H). apply bind_Some in H as ([len total] & Hv & [= <- <-]).
  apply strip_json_name_Some in Hl as (ws1 & ws2 & -> & H1 & H2).
  apply json_string_value_Some in Hv as (value & after & -> & Hb & -> & ->).
  eexists (json_head field ws1 ws2 ++ [quote]), value, [quote], after. split_and!.
  - change (quote :: value ++ quote :: after) with ([quote] ++ value ++ [quote] ++ after).
    rewrite (assoc_L (++)). by apply (cred_json prev field ws1 ws2 value after).
  - rewrite !length_app. cbn. rewrite !length_app. cbn. lia.
  - rewrite length_app, Nat.add_sub, take_app_length. unfold marker. by flat.
  - by flat.
Qed.

Lemma json_field_credential field ws1 ws2 value after :
  white_run ws1 → white_run ws2 → string_body value →
  is_Some (json_field (json_head field ws1 ws2 ++ quote :: value ++ quote :: after) field).
Proof.
  intros H1 H2 Hb. unfold json_field. rewrite strip_json_name_head by done. cbn [mbind option_bind].
  replace (json_string_value _) with (Some (length value, length value + 2)); [by eexists|].
  symmetry. apply json_string_value_Some. by exists value, after.
Qed.

Lemma compact_value_len_Some value :
  0 < compact_value_len value → ∃ v after, value = v ++ after ∧ compact_value v after ∧
    length v = compact_value_len value.
Proof.
  unfold compact_value_len. destruct value as [|c l]; [lia|]. case_decide as Hc.
  - subst c. intros _. destruct (json_string_value (quote :: l)) as [[len total]|] eqn:E.
    + apply json_string_value_Some in E as (b & a & [= ->] & Hb & -> & ->).
      exists (quote :: b ++ [quote]), a. split_and!; [|by apply value_quoted|cbn; rewrite length_app; cbn; lia].
      cbn. by rewrite <- (assoc_L (++)).
    + exists (quote :: l), []. rewrite app_nil_r. split_and!; [done| |done]. apply value_unclosed.
      intros b t -> Hb. assert (json_string_value (quote :: b ++ quote :: t) = Some (length b, length b + 2))
        by (apply json_string_value_Some; by exists b, t). congruence.
  - intros Hlen. destruct (take_while_spec (λ c, negb (is_ascii_whitespace c)) (c :: l)) as (E & Hall & Hhd).
    eexists _, _. split_and!; [exact E| |done]. apply value_bare.
    + intros E'. rewrite E' in Hlen. simpl in Hlen. lia.
    + cbn [take_while]. case_match; cbn; congruence.
    + eapply Forall_impl; [done|]. cbn. intros. by apply negb_true_iff.
    + intros d Hd. apply Hhd in Hd. by apply negb_false_iff.
Qed.

Lemma compact_value_pos v after : compact_value v after → 0 < compact_value_len (v ++ after).
Proof.
  intros [value after' Hne Hq Hw Ha|body after' Hb|body Hb]; unfold compact_value_len.
  - destruct value as [|c l]; [done|]. cbn [app]. rewrite decide_False by (cbn in Hq; congruence).
    decompose_Forall_hyps. cbn [take_while]. rewrite H. cbn. lia.
  - cbn [app]. rewrite decide_True by done. case_match; [case_match; subst|cbn; lia].
    apply json_string_value_Some in H as (? & ? & _ & _ & _ & ->). lia.
  - cbn [app]. rewrite decide_True by done. case_match; [case_match; subst|cbn; lia].
    apply json_string_value_Some in H as (? & ? & _ & _ & _ & ->). lia.
Qed.

(** A claim of [match_at] at an offset is a credential, shown but for its value. *)
Definition claims (prev : option byte) (rest : list byte) (n : nat) (repl : list byte) : Prop :=
  ∃ head value tail after, credential prev rest head value tail after ∧
    n = length (head ++ value ++ tail) ∧ repl = head ++ marker (length value) ++ tail ∧
    rest = (head ++ value ++ tail) ++ after.

Lemma compact_field_Some prev rest field n repl :
  field ∈ SECRET_FIELDS → compact_field prev rest field = Some (n, repl) → claims prev rest n repl.
Proof.
  intros Hf H. unfold compact_field in H.
  apply bind_Some in H as (l1 & ->%strip_prefix_Some & H).
  apply bind_Some in H as (l2 & ->%strip_prefix_Some & H).
  destruct (is_boundary prev) eqn:Hp; [|done].
  destruct (0 <? compact_value_len l2) eqn:Hlen; [|done]. to_prop.
  destruct (compact_value_len_Some l2 Hlen) as (v & after & -> & Hv & E). injection H as <- <-.
  exists (field ++ Text.bytes "="), v, [], after. split_and!.
  - rewrite (assoc_L (++)). by apply (cred_compact prev field v after).
  - rewrite app_nil_r, !length_app, <- E. cbn. lia.
  - rewrite app_nil_r, <- E. unfold marker. by flat.
  - rewrite app_nil_r. by flat.
Qed.

Lemma compact_field_credential prev field v after :
  is_boundary prev = true → compact_value v after →
  is_Some (compact_field prev (field ++ Text.bytes "=" ++ v ++ after) field).
Proof.
  intros Hp Hv. unfold compact_field.
  rewrite (proj2 (strip_prefix_Some _ _ (Text.bytes "=" ++ v ++ after))) by done.
  cbn [mbind option_bind]. rewrite (proj2 (strip_prefix_Some _ _ (v ++ after))) by done.
  cbn [mbind option_bind]. rewrite Hp. pose proof (compact_value_pos v after Hv) as Hlen.
  rewrite (proj2 (Nat.ltb_lt _ _)) by done. by eexists.
Qed.

Lemma match_field_Some prev rest n repl :
  match_field prev rest = Some (n, repl) → claims prev rest n repl.
Proof.
  intros (field & Hf & H)%first_some_Some. destruct (json_field rest field) as [[n' repl']|] eqn:E.
  - injection H as -> ->. by eapply json_field_Some.
  - by eapply compact_field_Some.
Qed.

Lemma match_field_is_Some prev rest field :
  field ∈ SECRET_FIELDS → is_Some (json_field rest field) ∨ is_Some (compact_field prev rest field) →
  is_Some (match_field prev rest).
Proof.
  intros Hf H. unfold match_field. eapply first_some_is_Some; [exact Hf|].
  destruct (json_field rest field); [by eexists|]. by destruct H as [[? ?]|H].
Qed.

Lemma shape_at_Some prev rest shape n repl :
  shape ∈ SHAPES → is_boundary prev = true → shape_at rest shape = Some (n, repl) →
  claims prev rest n repl.
Proof.
  intros Hs Hp H. unfold shape_at in H. destruct (starts_with (prefix shape) rest) eqn:E; [|done].
  apply starts_with_app in E as (payload & ->). rewrite drop_app_length in H.
  destruct (take_while_spec (charset_contains (charset shape)) payload) as (Epay & Hall & Hhd).
  revert H. generalize dependent (take_while (charset_contains (charset shape)) payload).
  generalize dependent (drop_while (charset_contains (charset shape)) payload).
  intros after Hhd v -> Hall H. destruct (min_payload shape <=? length v) eqn:Hmin; [|done]. to_prop.
  injection H as <- <-. exists (prefix shape), v, [], after. split_and!.
  - by apply cred_shape.
  - rewrite app_nil_r, length_app. done.
  - by rewrite app_nil_r.
  - rewrite app_nil_r. by flat.
Qed.

Lemma shape_at_credential shape v after :
  Forall (λ c, charset_contains (charset shape) c = true) v → min_payload shape ≤ length v →
  (∀ c, head after = Some c → charset_contains (charset shape) c = false) →
  is_Some (shape_at (prefix shape ++ v ++ after) shape).
Proof.
  intros Hv Hmin Ha. unfold shape_at.
  rewrite (proj2 (starts_with_app _ _)) by eauto. rewrite drop_app_length, take_while_app by done.
  rewrite (proj2 (Nat.leb_le _ _)) by done. by eexists.
Qed.

(** The END line lies behind the BEGIN line. *)
Lemma find_PEM_END r : find_sub PEM_END (PEM_BEGIN ++ r) = Nat.add 11 <$> find_sub PEM_END r.
Proof.
  transitivity (Nat.iter 11 (fmap S) (find_sub PEM_END r)); [reflexivity|].
  by destruct (find_sub PEM_END r).
Qed.

Lemma pem_end_block r :
  ∃ value after, PEM_BEGIN ++ r = value ++ after ∧ pem_end (PEM_BEGIN ++ r) = length value ∧
    PEM_BEGIN `prefix_of` value ∧ pem_block value after.
Proof.
  assert (Hall : ∃ value after, PEM_BEGIN ++ r = value ++ after ∧
      length (PEM_BEGIN ++ r) = length value ∧ PEM_BEGIN `prefix_of` value ∧ pem_block value after).
  { exists (PEM_BEGIN ++ r), []. rewrite app_nil_r. split_and!; [done..|by eexists|by right]. }
  unfold pem_end. rewrite find_PEM_END.
  destruct (find_sub PEM_END r) as [n|] eqn:E1; cbn [fmap option_fmap option_map]; [|done].
  apply find_sub_split in E1 as (a & r' & -> & <-).
  assert (Ed : drop (11 + length a) (PEM_BEGIN ++ a ++ PEM_END ++ r') = PEM_END ++ r')
    by (rewrite (assoc_L (++)); by apply (drop_app_length' (PEM_BEGIN ++ a))).
  rewrite Ed. destruct (find_sub PEM_CLOSE_ESCAPED (PEM_END ++ r')) as [close|] eqn:E2.
  - apply find_sub_split in E2 as (x & after & E2 & <-). rewrite E2.
    exists (PEM_BEGIN ++ a ++ x ++ PEM_CLOSE_ESCAPED), after. split_and!.
    + by flat.
    + rewrite !length_app. change (length PEM_BEGIN) with 11; lia.
    + by eexists.
    + left. exists (PEM_BEGIN ++ a), x, PEM_CLOSE_ESCAPED. split_and!; [by flat| |by right].
      rewrite <- E2. apply starts_with_app. eauto.
  - rewrite <- drop_drop, Ed. change (drop 9 (PEM_END ++ r')) with r'.
    destruct (find_sub PEM_CLOSE r') as [close|] eqn:E3; cbn [fmap option_fmap option_map]; [|done].
    apply find_sub_split in E3 as (x & after & -> & <-).
    exists (PEM_BEGIN ++ a ++ PEM_END ++ x ++ PEM_CLOSE), after. split_and!.
    + by flat.
    + rewrite !length_app. cbn. lia.
    + by eexists.
    + left. exists (PEM_BEGIN ++ a), (PEM_END ++ x), PEM_CLOSE. split_and!; [by flat| |by left].
      flat. apply starts_with_app. eauto.
Qed.

Lemma match_at_Some prev rest n repl : match_at prev rest = Some (n, repl) → claims prev rest n repl.
Proof.
  unfold match_at, match_pem. destruct (starts_with PEM_BEGIN rest) eqn:E.
  - intros [= <- <-]. apply starts_with_app in E as (r & ->).
    destruct (pem_end_block r) as (v & after & Er & -> & Hp & Hb).
    exists [], v, [], after. rewrite !app_nil_r. cbn [app]. split_and!; [|done..]. rewrite Er.
    apply cred_pem; [|done..]. rewrite <- Er. apply starts_with_app. eauto.
  - destruct (match_field prev rest) as [[n' repl']|] eqn:Ef.
    + intros [= -> ->]. by apply match_field_Some.
    + unfold match_shape. destruct (is_boundary prev) eqn:Hp; [|done].
      intros (shape & Hs & H)%first_some_Some. by eapply shape_at_Some.
Qed.

Lemma credential_match prev rest head value tail after :
  credential prev rest head value tail after → is_Some (match_at prev rest).
Proof.
  unfold match_at, match_pem. intros H. destruct (starts_with PEM_BEGIN rest) eqn:E; [by eexists|].
  destruct H as [v a Hs _ _|field ws1 ws2 v a Hf H1 H2 Hb hd|field v a Hf Hp Hv hd|shape v a Hs Hp Hall Hmin Ha].
  - congruence.
  - destruct (match_field prev _) eqn:Em; [by eexists|]. apply eq_None_not_Some in Em as [].
    apply (match_field_is_Some prev _ field Hf). left. unfold hd.
    pose proof (json_field_credential field ws1 ws2 v a H1 H2 Hb) as Hj. by flat.
  - destruct (match_field prev _) eqn:Em; [by eexists|]. apply eq_None_not_Some in Em as [].
    apply (match_field_is_Some prev _ field Hf). right. unfold hd. rewrite <- (assoc_L (++)).
    by apply compact_field_credential.
  - destruct (match_field prev _); [by eexists|]. unfold match_shape. rewrite Hp.
    eapply first_some_is_Some; [exact Hs|]. by apply shape_at_credential.
Qed.

Lemma credential_split prev rest head value tail after :
  credential prev rest head value tail after → rest = (head ++ value ++ tail) ++ after.
Proof. by destruct 1; rewrite ?app_nil_r; flat. Qed.

Lemma credential_nonempty prev rest head value tail after :
  credential prev rest head value tail after → 0 < length (head ++ value ++ tail).
Proof.
  destruct 1 as [v a _ [k ->] _|field ws1 ws2 v a Hf H1 H2 Hb hd|field v a Hf Hp Hv hd|shape v a Hs Hp Hall Hmin Ha].
  - cbn. lia.
  - unfold hd, json_head. cbn. lia.
  - unfold hd. rewrite !length_app. cbn. lia.
  - rewrite !length_app. assert (Hpos : Forall (λ s, 0 < min_payload s) SHAPES)
      by (refine (bool_decide_unpack _ _); by vm_compute).
    rewrite Forall_forall in Hpos. specialize (Hpos _ Hs). lia.
Qed.

(** ** The scanner reads the line *)

Lemma redact_from_reads fuel prev rest :
  length rest ≤ fuel → ∃ ps, reading prev rest ps ∧ redact_from fuel prev rest = concat (shown <$> ps).
Proof.
  revert prev rest. induction fuel as [|fuel IH]; intros prev [|c rest] Hlen;
    [by exists []; repeat constructor|simpl in Hlen; lia|by exists []; repeat constructor|].
  cbn [redact_from]. destruct (match_at prev (c :: rest)) as [[n repl]|] eqn:Em.
  - destruct (match_at_Some _ _ _ _ Em) as (hd & v & tl & after & Hc & -> & -> & E).
    pose proof (credential_nonempty _ _ _ _ _ _ Hc) as Hpos.
    rewrite E, take_app_length, drop_app_length.
    destruct (IH (last (hd ++ v ++ tl)) after) as (ps & Hps & ->).
    { apply (f_equal length) in E. rewrite length_app in E. lia. }
    exists (Hidden hd v tl :: ps). split; [rewrite <- E; by eapply reading_hide|]. done.
  - cbn [next_char]. destruct (take_while_spec is_continuation rest) as (E & Ht & Hhd).
    set (t := take_while is_continuation rest) in *. set (after := drop_while is_continuation rest) in *.
    assert (Ed : drop (length (c :: t)) (c :: rest) = after) by (rewrite E; apply (drop_app_length (c :: t))).
    rewrite Ed. destruct (IH (last (c :: t)) after) as (ps & Hps & ->).
    { apply (f_equal length) in E. rewrite length_app in E. simpl in Hlen. lia. }
    exists (Kept (c :: t) :: ps). split; [|done]. rewrite E. apply reading_keep; [|done| |done].
    + intros hd v tl a Hc. rewrite <- E in Hc. apply credential_match in Hc as [? Hc]. congruence.
    + destruct after as [|d after]; [done|]. cbn. by rewrite Hhd.
Qed.

Lemma reading_source prev rest ps : reading prev rest ps → concat (source <$> ps) = rest.
Proof.
  induction 1 as [|prev rest hd v tl after ps Hc _ IH|prev c t after ps _ _ _ _ IH];
    cbn [fmap list_fmap concat source]; [done| |].
  - rewrite IH. symmetry. by eapply credential_split.
  - by rewrite IH.
Qed.

(** The cheap test of the tables lets through every line with a credential in it. *)
Lemma credential_precheck pre prev rest head value tail after :
  credential prev rest head value tail after → might_contain_secret (pre ++ rest) = true.
Proof.
  unfold might_contain_secret. intros H.
  assert (Hex : ∀ {A} (f : A → list byte) l x post pre', x ∈ l → 
    existsb (λ y, contains (f y) (pre' ++ f x ++ post)) l = true).
  { intros A f l x post pre' Hx. apply existsb_exists. exists x. split; [by apply base.list_elem_of_In|].
    apply contains_app. }
  destruct H as [v a Hs _ _|field ws1 ws2 v a Hf H1 H2 Hb hd|field v a Hf Hp Hv hd|shape v a Hs Hp Hall Hmin Ha].
  - apply starts_with_app in Hs as (r & ->). rewrite contains_app. by rewrite orb_true_r.
  - apply orb_true_iff. left. apply orb_true_iff. right. unfold hd, json_head. flat.
    pose proof (Hex _ id SECRET_FIELDS field) as H.
    specialize (H (quote :: ws1 ++ Text.bytes ":" ++ ws2 ++ quote :: v ++ quote :: a) (pre ++ [quote]) Hf).
    revert H. by flat.
  - apply orb_true_iff. left. apply orb_true_iff. right. unfold hd. flat. by apply (Hex _ id).
  - apply orb_true_iff. left. apply orb_true_iff. left. by apply (Hex _ prefix).
Qed.

Lemma reading_plain pre prev rest ps :
  reading prev rest ps → might_contain_secret (pre ++ rest) = false → concat (shown <$> ps) = rest.
Proof.
  intros H. revert pre. induction H as [|prev rest hd v tl after ps Hc|prev c t after ps _ _ _ _ IH];
    intros pre Hno; [done|exfalso|].
  - by rewrite (credential_precheck _ _ _ _ _ _ _ Hc) in Hno.
  - cbn [fmap list_fmap concat shown]. rewrite (IH (pre ++ c :: t)); [done|]. by revert Hno; flat.
Qed.

(** ** The line stays text *)

Definition is_ascii (l : list byte) : Prop := Forall (λ c, code_in 0 127 c = true) l.

Lemma is_ascii_table {A} (f : A → list byte) l x :
  forallb (λ y, forallb (code_in 0 127) (f y)) l = true → x ∈ l → is_ascii (f x).
Proof.
  rewrite forallb_forall. intros H Hx. apply base.list_elem_of_In in Hx. specialize (H x Hx).
  apply Forall_forall. intros c Hc. rewrite forallb_forall in H. apply H. by apply base.list_elem_of_In.
Qed.

Lemma marker_ascii len : is_ascii (marker len).
Proof.
  unfold marker, is_ascii. rewrite !Forall_app. split_and!; [by repeat constructor| |by repeat constructor].
  eapply Forall_impl; [apply dec_digits|]. intros c Hc. by apply digit_ascii, Is_true_true.
Qed.

Lemma charset_ascii charset c : charset_contains charset c = true → code_in 0 127 c = true.
Proof.
  assert (H : ∀ c, charset_contains charset c = true → code_in 0 127 c = true); [|apply H].
  intros d. destruct charset; cbn; unfold is_ascii_alphanumeric, is_ascii_uppercase, is_ascii_lowercase,
    is_ascii_digit, between; rewrite ?orb_true_iff, ?andb_true_iff, ?N.leb_le, code_in_iff.
  - rewrite bool_decide_eq_true. intros [H|H]; [lia|].
    assert (Hall : is_ascii (Text.bytes "-_.+/")) by by repeat constructor.
    apply code_in_iff. by eapply Forall_forall in Hall.
  - lia.
Qed.

Lemma ascii_at_boundary c l : code_in 0 127 c = true → at_boundary (c :: l) = true.
Proof.
  intros H. simpl. rewrite is_continuation_in. by rewrite (code_in_disjoint 0 127 128 191 c) by (done || lia).
Qed.

Lemma is_utf8_cut_behind a c b :
  is_utf8 (a ++ [c] ++ b) = true → code_in 0 127 c = true → is_utf8 (a ++ [c]) = true ∧ is_utf8 b = true.
Proof.
  intros H Hc. destruct (is_utf8_cut_ascii a c b H Hc) as [H1 H2]. split; [|done].
  apply is_utf8_app; [done|]. by apply is_utf8_ascii; repeat constructor.
Qed.

Lemma compact_value_utf8 value after :
  compact_value value after → is_utf8 (value ++ after) = true →
  is_utf8 value = true ∧ is_utf8 after = true.
Proof.
  intros [v a _ _ _ Ha|body a _|body _] Hu.
  - apply is_utf8_cut; [done|]. destruct a as [|c a]; [done|]. apply ascii_at_boundary.
    specialize (Ha c eq_refl). unfold is_ascii_whitespace in Ha. apply bool_decide_eq_true in Ha.
    apply code_in_iff. set_unfold. lia.
  - rewrite app_comm_cons in Hu |- *. apply (is_utf8_cut_behind (quote :: body) quote a); [|done].
    by revert Hu; flat.
  - by rewrite app_nil_r in Hu.
Qed.

Lemma pem_block_utf8 value after :
  pem_block value after → is_utf8 (value ++ after) = true →
  is_utf8 value = true ∧ is_utf8 after = true.
Proof.
  intros [(a & c & close & -> & _ & Hclose)| ->] Hu; [|by rewrite app_nil_r in Hu].
  assert (∃ x d, close = x ++ [d] ∧ code_in 0 127 d = true) as (x & d & -> & Hd).
  { destruct Hclose as [-> | ->].
    - by exists (Text.bytes "----"), "-"%char.
    - by exists (Text.bytes "-----\"), "n"%char. }
  rewrite !(assoc_L (++)) in Hu |- *. rewrite <- (assoc_L (++) _ [d] after) in Hu.
  by apply is_utf8_cut_behind.
Qed.

Lemma credential_utf8 prev rest head value tail after :
  credential prev rest head value tail after → is_utf8 rest = true →
  is_utf8 (head ++ value ++ tail) = true ∧ is_utf8 (head ++ marker (length value) ++ tail) = true ∧
  is_utf8 after = true.
Proof.
  pose proof (marker_ascii (length value)) as Hm.
  assert (Hshow : ∀ h, is_utf8 h = true → is_utf8 (h ++ marker (length value)) = true)
    by (intros h Hh; by apply is_utf8_app; [|apply is_utf8_ascii]).
  destruct 1 as [v a _ _ Hb|field ws1 ws2 v a Hf H1 H2 Hb hd|field v a Hf Hp Hv hd|shape v a Hs Hp Hall Hmin Ha];
    intros Hu; rewrite ?app_nil_r; cbn [app].
  - destruct (pem_block_utf8 v a Hb Hu) as [Hv Ha]. split_and!; [done| |done]. by apply is_utf8_ascii.
  - assert (Hd : is_utf8 (json_head field ws1 ws2) = true).
    { revert Hu. unfold hd. flat. intros Hu. by eapply is_utf8_cut_ascii in Hu as [? _]. }
    rewrite !(assoc_L (++)) in Hu |- *. rewrite <- (assoc_L (++) _ [quote] a) in Hu.
    apply is_utf8_cut_behind in Hu as [Hv Ha]; [|done]. split_and!; [done| |done].
    unfold hd. apply is_utf8_app; [|done]. apply Hshow. by apply is_utf8_app.
  - assert (Hhd : is_ascii hd).
    { apply Forall_app. split; [|by repeat constructor]. by apply (is_ascii_table id SECRET_FIELDS). }
    rewrite is_utf8_ascii_app in Hu by done. apply compact_value_utf8 in Hu as [Hu Ha]; [|done].
    rewrite !is_utf8_ascii_app by done. split_and!; [done| |done]. by apply is_utf8_ascii.
  - assert (Hhd : is_ascii (prefix shape)) by by apply (is_ascii_table prefix SHAPES).
    assert (Hv : is_ascii v) by (eapply Forall_impl; [done|]; intros c; apply charset_ascii).
    rewrite !is_utf8_ascii_app in Hu by done. rewrite !is_utf8_ascii_app by done.
    split_and!; [by apply is_utf8_ascii|by apply is_utf8_ascii|done].
Qed.

Lemma reading_utf8 prev rest ps :
  reading prev rest ps → is_utf8 rest = true →
  Forall (λ p, is_utf8 (source p) = true ∧ is_utf8 (shown p) = true) ps.
Proof.
  induction 1 as [|prev rest hd v tl after ps Hc _ IH|prev c t after ps _ _ Ha _ IH]; intros Hu.
  - constructor.
  - destruct (credential_utf8 _ _ _ _ _ _ Hc Hu) as (H1 & H2 & H3). constructor; [done|]. by apply IH.
  - rewrite app_comm_cons in Hu. apply is_utf8_cut in Hu as [H1 H2]; [|done].
    constructor; [done|]. by apply IH.
Qed.

Lemma redact_reads line :
  ∃ ps, reading None line ps ∧ redact line = concat (shown <$> ps).
Proof.
  destruct (redact_from_reads (length line) None line) as (ps & Hps & E); [lia|].
  exists ps. split; [done|]. unfold redact. destruct (might_contain_secret line) eqn:Hm; [done|].
  symmetry. by apply (reading_plain [] None).
Qed.

Lemma concat_utf8 (ls : list (list byte)) :
  Forall (λ l, is_utf8 l = true) ls → is_utf8 (concat ls) = true.
Proof. induction 1; cbn [concat]; [done|]. by apply is_utf8_app. Qed.

(** ** What redaction does *)

(** C11. Redaction of a log line is exact: the line reads, from the left, as credentials
    wherever one begins (a PEM block, a secret field rendered as JSON or compactly, a
    labelled token at a boundary) and single characters where none does; the pieces
    make up the line, and what is written is every character as it was and every
    credential with its value replaced by a marker of its length.  The cheap test in
    front of the scanner changes nothing. *)
Theorem redact_exact line :
  ∃ ps, reading None line ps ∧ concat (source <$> ps) = line ∧ redact line = concat (shown <$> ps).
Proof.
  destruct (redact_reads line) as (ps & Hps & E). exists ps. split_and!; [done| |done].
  by eapply reading_source.
Qed.

(** Redaction keeps text text: the scanner only stops between characters of a
    valid line, so none of its slices is out of place, and what it writes is valid. *)
Theorem redact_keeps_text line :
  is_utf8 line = true →
  is_utf8 (redact line) = true ∧
  ∃ ps, reading None line ps ∧ redact line = concat (shown <$> ps) ∧
    Forall (λ p, is_utf8 (source p) = true) ps.
Proof.
  intros Hu. destruct (redact_reads line) as (ps & Hps & E).
  pose proof (reading_utf8 _ _ _ Hps Hu) as Hall. split.
  - rewrite E. apply concat_utf8. rewrite Forall_fmap. eapply Forall_impl; [done|]. naive_solver.
  - exists ps. split_and!; [done..|]. eapply Forall_impl; [done|]. naive_solver.
Qed.

Lemma redact_keeps_text_witness :
  is_utf8 (redact (Text.bytes "token=hunter2 done")) = true.
Proof. by apply (redact_keeps_text (Text.bytes "token=hunter2 done")); vm_compute. Defined.

(** Content hashes survive: no table entry occurs in hexadecimal text. *)
Lemma hex_survives l : Forall (λ c, c ∈ hex_digits) l → redact l = l.
Proof.
  intros Hl. unfold redact.
  assert (Hno : ∀ needle, existsb (λ c, bool_decide (c ∉ hex_digits)) needle = true → contains needle l = false).
  { intros needle (c & Hc & Hh)%existsb_exists. apply bool_decide_eq_true in Hh.
    apply bool_decide_eq_false. intros [n Hn]. apply find_sub_split in Hn as (x & after & -> & _).
    apply Hh. rewrite Forall_forall in Hl. apply Hl. apply base.list_elem_of_In in Hc. set_solver. }
  assert (Hnot : ∀ {A} (f : A → list byte) t,
    forallb (λ y, existsb (λ c, bool_decide (c ∉ hex_digits)) (f y)) t = true →
    existsb (λ y, contains (f y) l) t = false).
  { intros A f t Ht. apply not_true_iff_false. intros (y & Hy & Hc)%existsb_exists.
    rewrite forallb_forall in Ht. rewrite Hno in Hc; [done|]. by apply Ht. }
  unfold might_contain_secret. by rewrite (Hnot _ prefix), (Hnot _ id), Hno by by vm_compute.
Qed.

(** ** What modelling showed *)

(** A key at the start of a line inside a JSON string: the line break before it is
    rendered as a backslash and an [n], and the letter hides the boundary. *)
Example key_behind_escaped_newline :
  let line := Text.bytes "{'message':'key:\nsk-ant-REDACTED'}" in redact line = line.
Proof. by vm_compute. Qed.

(** The value of a secret field is only taken when it is a closed string. *)
Example unclosed_json_field :
  let line := [quote] ++ Text.bytes "api_key" ++ [quote] ++ Text.bytes ":" ++ [quote] ++ Text.bytes "hunter2" in
  redact line = line.
Proof. by vm_compute. Qed.

Example unquoted_json_field :
  let line := [quote] ++ Text.bytes "password" ++ [quote] ++ Text.bytes ":12345678" in redact line = line.
Proof. by vm_compute. Qed.

(** A second pass counts the first one's marker. *)
Example marker_recounted :
  let line := Text.bytes "token=hunter2" in
  redact line = Text.bytes "token=<redacted:7>" ∧
  redact (redact line) = Text.bytes "token=<redacted:12>".
Proof. by vm_compute. Qed.
