(* ===== verification/Sink.v ===== *)
(** * The log sink: [supra_log/src/sink.rs], [subscriber.rs]

    A line is redacted, counted and appended to one file under a lock every process
    takes; before it is, a file that would grow past its bound is rotated along a
    chain of generations.  The directory, the handle kept for a device and the error
    stream are the state; every step on it may be refused or be the last one before
    a crash, and environments say which. *)

From Stdlib Require Import Ascii.
From S2P Require Import Prelude Text Sealing Utf8 FileSystem Traced Redact.

(** ** Configuration *)

Definition DEFAULT_MAX_BYTES : N := 8 * 1024 * 1024.
Definition DEFAULT_KEEP : nat := 4.

Record SinkConfig := mkSinkConfig { path : string; max_bytes : N; keep : nat; stderr : bool }.

Definition new_config (p : string) : SinkConfig := mkSinkConfig p DEFAULT_MAX_BYTES DEFAULT_KEEP true.
Definition with_max_bytes (bytes : N) (c : SinkConfig) : SinkConfig :=
  mkSinkConfig (path c) bytes (keep c) (stderr c).
Definition with_keep (count : nat) (c : SinkConfig) : SinkConfig :=
  mkSinkConfig (path c) (max_bytes c) count (stderr c).
Definition with_stderr (enabled : bool) (c : SinkConfig) : SinkConfig :=
  mkSinkConfig (path c) (max_bytes c) (keep c) enabled.

(** ** The world of a sink *)

Record file := mkFile { content : list byte; mode : N }.

Abbreviation dir := (gmap string file).

(** The directory, the handle the sink keeps for a device ([Mutex<Option<Open>>], the
    bytes written through it) and what the device received. *)
Record world := mkWorld { files : dir; open_ : option N; device : list byte }.

#[export] Instance file_eq_dec : EqDecision file.
Proof. solve_decision. Defined.
#[export] Instance world_eq_dec : EqDecision world.
Proof. solve_decision. Defined.

Definition set_files (f : dir → dir) (w : world) : world := mkWorld (f (files w)) (open_ w) (device w).

Definition content_at (name : string) (d : dir) : list byte :=
  match d !! name with Some f => content f | None => [] end.

(** What the system answers to one call. *)
Record env := mkEnv {
  is_device : bool;               (** the path names something other than a regular file *)
  is_fifo : bool;
  directory : bool;               (** [create_dir_all] *)
  lock_open : bool;
  lock_exclusive : bool;
  removed : bool;
  truncated : bool;
  renamed : string → bool;
  opened : bool;
  created_mode : N;               (** the mode the process's mask leaves a new file *)
  chmod : bool;
  failed_at : option nat;         (** the byte at which [write_all] fails *)
}.

(** A step of the system: refused, or done. *)
Definition attempt (granted : bool) (f : dir → dir) : T world unit unit :=
  if granted then act (set_files f) else lift (Err tt).

(** [let _ = f();]. *)
Definition ignore (m : T world unit unit) : T world unit unit := λ w,
  let '(states, w', _) := m w in (states, w', Ok tt).

Definition exists_ (name : string) : T world unit bool :=
  look (λ w, bool_decide (is_Some (files w !! name))).

Definition move (from to : string) (d : dir) : dir :=
  match d !! from with Some f => <[to := f]> (base.delete from d) | None => d end.

(** ** The lock beside the log: [FileLock::acquire] of [supra_ffi/src/process.rs] *)

Definition lock_path (p : string) : string :=
  with_file_name p ("." +:+ default "target" (file_name p) +:+ ".lock").

Definition create (name : string) (m : N) (d : dir) : dir :=
  match d !! name with Some _ => d | None => <[name := mkFile [] m]> d end.

Definition acquire (e : env) (p : string) : T world unit unit :=
  let! _ := lift (if directory e then Ok tt else Err tt) in
  let! _ := attempt (lock_open e) (create (lock_path p) (created_mode e)) in
  lift (if lock_exclusive e then Ok tt else Err tt).

(** ** Rotation *)

Definition rotated (p : string) (index : nat) : string := p +:+ "." +:+ pretty index.

(** [for index in (1..keep).rev()], from [index] down. *)
Fixpoint shift (e : env) (p : string) (index : nat) : T world unit unit :=
  match index with
  | 0 => ret tt
  | S below =>
      let from := rotated p index in
      let! there := exists_ from in
      let! _ := (if there : bool then attempt (renamed e from) (move from (rotated p (S index))) else ret tt) in
      shift e p below
  end.

Definition rotate (e : env) (p : string) (keep : nat) : T world unit unit :=
  match keep with
  | 0 =>
      attempt (truncated e)
        (λ d, <[p := mkFile [] (match d !! p with Some f => mode f | None => created_mode e end)]> d)
  | S below =>
      let oldest := rotated p keep in
      let! there := exists_ oldest in
      let! _ := (if there : bool then attempt (removed e) (base.delete oldest) else ret tt) in
      let! _ := shift e p below in
      let! there := exists_ p in
      if there : bool then attempt (renamed e p) (move p (rotated p 1)) else ret tt
  end.

(** ** Writing *)

(** [saturating_add] on [u64]. *)
Definition u64_max_N : N := 18446744073709551615.
Definition saturating_add (a b : N) : N := N.min (a + b) u64_max_N.

Definition OWNER_ONLY : N := 384.  (* 0o600 *)

Definition set_permissions (p : string) (m : N) (d : dir) : dir :=
  match d !! p with Some f => <[p := mkFile (content f) m]> d | None => d end.

(** The first bytes of the payload arrive at the end of the file. *)
Definition append (p : string) (bytes : list byte) (d : dir) : dir :=
  match d !! p with Some f => <[p := mkFile (content f ++ bytes) (mode f)]> d | None => d end.

Definition append_all (e : env) (p : string) (payload : list byte) : T world unit unit := λ w,
  let n := default (length payload) (failed_at e) in
  ((λ k, set_files (append p (take k payload)) w) <$> seq 0 (S n),
   set_files (append p (take n payload)) w,
   match failed_at e with Some _ => Err tt | None => Ok tt end).

Definition open_append (e : env) (p : string) : T world unit N :=
  let! _ := lift (if is_fifo e then Err tt else Ok tt) in
  let! _ := lift (if directory e then Ok tt else Err tt) in
  if is_device e then lift (if opened e then Ok 0%N else Err tt)
  else
    let! _ := attempt (opened e) (create p OWNER_ONLY) in
    let! _ := attempt (chmod e) (set_permissions p OWNER_ONLY) in
    look (λ w, N.of_nat (length (content_at p (files w)))).

Definition set_open (o : option N) : T world unit unit :=
  act (λ w, mkWorld (files w) o (device w)).

Definition put_device (bytes : list byte) : T world unit unit :=
  act (λ w, mkWorld (files w) (open_ w) (device w ++ bytes)).

(** The branch for a regular file. *)
Definition write_regular (c : SinkConfig) (e : env) (payload : list byte) : T world unit unit :=
  let! _ := acquire e (path c) in
  let! len := look (λ w, N.of_nat (length (content_at (path c) (files w)))) in
  let! _ := (if (max_bytes c <? saturating_add len (N.of_nat (length payload)))%N
             then ignore (rotate e (path c) (keep c)) else ret tt) in
  let! _ := attempt (opened e) (create (path c) (created_mode e)) in
  let! _ := attempt (chmod e) (set_permissions (path c) OWNER_ONLY) in
  on_error (let! _ := append_all e (path c) payload in set_open None)
    (λ w, mkWorld (files w) None (device w)).

(** The branch for a device, over the handle that is kept. *)
Definition write_device (c : SinkConfig) (e : env) (payload : list byte) : T world unit unit :=
  let! handle := look open_ in
  let! written := match handle with
                  | Some written => ret written
                  | None => let! written := open_append e (path c) in
                            let! _ := set_open (Some written) in ret written
                  end in
  match failed_at e with
  | None =>
      let! _ := put_device payload in
      set_open (Some (saturating_add written (N.of_nat (length payload))))
  | Some n =>
      let! _ := put_device (take n payload) in
      let! _ := set_open None in
      lift (Err tt)
  end.

Definition write_to_file (c : SinkConfig) (e : env) (payload : list byte) : T world unit unit :=
  if is_device e then write_device c e payload else write_regular c e payload.

(** [Sink::open]. *)
Definition open_sink (c : SinkConfig) (e : env) : T world unit unit :=
  let! written := open_append e (path c) in set_open (Some written).

(** ** One line *)

Record counters := mkCounters { dropped : N; stderr_suppressed : N }.

Definition suppress_stderr (s : counters) : counters := mkCounters (dropped s) (stderr_suppressed s + 1).
Definition drop_guard (s : counters) : counters := mkCounters (dropped s) (stderr_suppressed s - 1).

Definition mirrors_to_stderr (c : SinkConfig) (s : counters) : bool :=
  stderr c && (stderr_suppressed s =? 0)%N.

Definition is_line_break (c : byte) : bool :=
  bool_decide (c = Ascii.ascii_of_nat 10 ∨ c = Ascii.ascii_of_nat 13).

(** [line.trim_end_matches(['\n', '\r'])]. *)
Definition trim_line (line : list byte) : list byte :=
  rev (drop_while is_line_break (rev line)).

Definition quoted (s : string) : list byte := [quote] ++ Text.bytes s ++ [quote].

(** The notice of lost lines, itself a line of the log. *)
Definition notice (lost : N) : list byte :=
  Text.bytes "{" ++ quoted "level" ++ Text.bytes ":" ++ quoted "WARN" ++ Text.bytes "," ++
  quoted "target" ++ Text.bytes ":" ++ quoted "supra_log" ++ Text.bytes "," ++
  quoted "message" ++ Text.bytes ":" ++ [quote] ++ dec lost ++
  Text.bytes " log line(s) could not be written" ++ [quote] ++ Text.bytes "}" ++ [Ascii.ascii_of_nat 10].

Definition payload (lost : N) (line : list byte) : list byte :=
  (if (0 <? lost)%N then notice lost else []) ++ redact (trim_line line) ++ [Ascii.ascii_of_nat 10].

(** [self.dropped.swap(0)] and, after a failure, [fetch_add(lost + 1)]. *)
Definition take_lost (s : counters) : N * counters := (dropped s, mkCounters 0 (stderr_suppressed s)).
Definition put_back (lost : N) (s : counters) : counters :=
  mkCounters (dropped s + (lost + 1)) (stderr_suppressed s).

(** The sink after a line, the world after it, and what went to the error stream. *)
Definition write_line (c : SinkConfig) (e : env) (line : list byte) (s : counters) (w : world) :
    counters * world * list byte :=
  let '(lost, s1) := take_lost s in
  let bytes := payload lost line in
  let s2 := match outcome (write_to_file c e bytes) w with Ok _ => s1 | Err _ => put_back lost s1 end in
  (s2, after (write_to_file c e bytes) w, if mirrors_to_stderr c s2 then bytes else []).

(** ** The writer the subscriber formats into: [subscriber.rs] *)

(** The buffer of a [SinkWriter], and the lines it has passed to its sink. *)
Definition emit (w : list byte * list (list byte)) : list byte * list (list byte) :=
  match w.1 with
  | [] => w
  | line => ([], w.2 ++ [if is_utf8 line then line else from_utf8_lossy line])
  end.

Definition writer_write (buf : list byte) (w : list byte * list (list byte)) : list byte * list (list byte) :=
  (w.1 ++ buf, w.2).

Definition flush := emit.
Definition drop_writer := emit.

(** ** Generations

    The log is the chain of generations, oldest first, and the current file; the
    pieces that were written to it stay whole and in order. *)

Definition generation (p : string) (i : nat) : string :=
  match i with 0 => p | S _ => rotated p i end.

(** From the given generation down to the current file. *)
Fixpoint generations (p : string) (i : nat) : list string :=
  generation p i :: match i with 0 => [] | S i => generations p i end.

(** The directory holds the pieces, none of them split between generations. *)
Definition log (p : string) (keep : nat) (d : dir) (pieces : list (list byte)) : Prop :=
  ∃ held, Forall2 (λ name ps, content_at name d = concat ps) (generations p keep) held ∧
    pieces = concat held.

Definition log_text (p : string) (keep : nat) (d : dir) : list byte :=
  concat ((λ name, content_at name d) <$> generations p keep).

Lemma log_log_text p keep d pieces : log p keep d pieces → log_text p keep d = concat pieces.
Proof.
  intros (held & H & ->). unfold log_text. induction H as [|name ps names held H _ IH]; [done|].
  cbn [fmap list_fmap concat]. by rewrite IH, H, concat_app.
Qed.

#[export] Instance generation_inj p : Inj (=) (=) (generation p).
Proof.
  assert (Hne : ∀ i, rotated p i ≠ p).
  { intros i H. apply (f_equal String.length) in H. unfold rotated in H.
    rewrite !string_length_app in H. simpl in H. lia. }
  assert (Hinj : ∀ i j, rotated p i = rotated p j → i = j).
  { intros i j H. unfold rotated in H. apply (inj (String.append p)) in H.
    apply (inj (String.append ".")) in H. by apply (inj pretty) in H. }
  intros [|i] [|j]; cbn [generation]; intros H; [done|by destruct (Hne (S j))|by destruct (Hne (S i))|].
  by apply Hinj.
Qed.

Lemma generations_elem p k name : name ∈ generations p k ↔ ∃ i, i ≤ k ∧ name = generation p i.
Proof.
  induction k as [|k IH]; cbn [generations].
  - rewrite list_elem_of_singleton. split; [intros ->; by exists 0|].
    intros (i & Hi & ->). by replace i with 0 by lia.
  - rewrite elem_of_cons, IH. split.
    + intros [->|(i & Hi & ->)]; [by exists (S k)|exists i; split; [lia|done]].
    + intros (i & Hi & ->). destruct (decide (i = S k)) as [->|]; [by left|right]. exists i. split; [lia|done].
Qed.

(** A generation and the next younger one, in the chain. *)
Lemma generations_split p k i :
  i < k → ∃ older younger, generations p k = older ++ generation p (S i) :: generation p i :: younger ∧
    (∀ name, name ∈ older ++ younger → name ≠ generation p (S i) ∧ name ≠ generation p i).
Proof.
  intros Hi. induction k as [|k IH]; [lia|]. destruct (decide (i = k)) as [->|].
  - exists [], (match k with 0 => [] | S k => generations p k end). split; [by destruct k|].
    intros name Hn. cbn [app] in Hn. destruct k as [|k]; [by apply elem_of_nil in Hn|].
    apply generations_elem in Hn as (j & Hj & ->).
    split; intros H%(inj (generation p)); lia.
  - destruct IH as (older & younger & E & Hne); [lia|]. exists (generation p (S k) :: older), younger.
    cbn [generations]. rewrite E. split; [done|]. intros name [->|Hn]%elem_of_cons; [|by apply Hne].
    split; intros H%(inj (generation p)); lia.
Qed.

Lemma generations_last p k :
  ∃ older, generations p k = older ++ [p] ∧ ∀ name, name ∈ older → name ≠ p.
Proof.
  induction k as [|k (older & E & Hne)]; [exists []; split; [done|by intros ? ?%elem_of_nil]|].
  exists (generation p (S k) :: older). cbn [generations]. rewrite E. split; [done|].
  intros name [->|Hn]%elem_of_cons; [|by apply Hne]. intros H. by apply (inj (generation p) (S k) 0) in H.
Qed.

(** Only the named generations matter to the log. *)
Lemma held_agree d d' names held :
  (∀ name, name ∈ names → content_at name d' = content_at name d) →
  Forall2 (λ name ps, content_at name d = concat ps) names held →
  Forall2 (λ name ps, content_at name d' = concat ps) names held.
Proof.
  intros Hag H. induction H as [|name ps names held H _ IH]; constructor.
  - rewrite Hag; [done|]. by left.
  - apply IH. intros n Hn. apply Hag. by right.
Qed.

Lemma log_agree p k d d' pieces :
  (∀ name, name ∈ generations p k → content_at name d' = content_at name d) →
  log p k d pieces → log p k d' pieces.
Proof. intros Hag (held & H & ->). exists held. split; [|done]. by eapply held_agree. Qed.

(** Moving a generation to a vacant next place keeps the log. *)
Lemma log_move p k i d pieces :
  i < k → d !! generation p (S i) = None → log p k d pieces →
  log p k (move (generation p i) (generation p (S i)) d) pieces.
Proof.
  intros Hi Hfree (held & H & ->). unfold move.
  destruct (d !! generation p i) as [f|] eqn:Ef; [|by exists held].
  destruct (generations_split p k i Hi) as (older & younger & E & Hne). unfold log. rewrite E in H |- *.
  apply Forall2_app_inv_l in H as (h1 & h2 & H1 & H2 & ->).
  apply Forall2_cons_inv_l in H2 as (a & h3 & Ha & H2 & ->).
  apply Forall2_cons_inv_l in H2 as (b & h4 & Hb & H4 & ->).
  assert (Hii : generation p (S i) ≠ generation p i) by (intros Hc%(inj (generation p)); lia).
  assert (Hother : ∀ name, name ∈ older ++ younger →
    content_at name (<[generation p (S i) := f]> (base.delete (generation p i) d)) = content_at name d).
  { intros name Hn. destruct (Hne name Hn). unfold content_at.
    by rewrite lookup_insert_ne, lookup_delete_ne by done. }
  exists (h1 ++ (a ++ b) :: [] :: h4). split; [|rewrite !concat_app; cbn; by flat].
  apply Forall2_app; [eapply held_agree; [|done]; intros n Hn; apply Hother; set_solver|].
  constructor; [|constructor].
  - unfold content_at in *. rewrite lookup_insert_eq. rewrite Hfree in Ha. rewrite Ef in Hb.
    by rewrite concat_app, <- Ha, Hb.
  - unfold content_at. by rewrite lookup_insert_ne, lookup_delete_eq by done.
  - eapply held_agree; [|done]. intros n Hn. apply Hother. set_solver.
Qed.

(** Dropping the oldest generation drops its pieces from the front. *)
Lemma log_drop_oldest p k d pieces :
  0 < k → log p k d pieces →
  ∃ kept, log p k (base.delete (generation p k) d) kept ∧ kept `suffix_of` pieces.
Proof.
  intros Hk (held & H & ->). destruct k as [|k]; [lia|]. unfold log. cbn [generations] in *.
  apply Forall2_cons_inv_l in H as (a & h & Ha & H & ->). exists (concat h). split; [|by eexists].
  exists ([] :: h). split; [|done]. constructor.
  - unfold content_at. by rewrite lookup_delete_eq.
  - eapply held_agree; [|done]. intros n (i & Hi & ->)%generations_elem. unfold content_at.
    rewrite lookup_delete_ne; [done|]. intros Hc%(inj (generation p)). lia.
Qed.

(** Appending to the current file appends a piece. *)
Lemma log_append p k d pieces bytes f :
  d !! p = Some f → log p k d pieces → log p k (append p bytes d) (pieces ++ [bytes]).
Proof.
  intros Hp (held & H & ->). destruct (generations_last p k) as (older & E & Hne).
  unfold log. rewrite E in H |- *. apply Forall2_app_inv_l in H as (h1 & h2 & H1 & H2 & ->).
  apply Forall2_cons_inv_l in H2 as (a & h3 & Ha & H2 & ->). apply Forall2_nil_inv_l in H2 as ->.
  exists (h1 ++ [a ++ [bytes]]). split; [|rewrite !concat_app; cbn; by rewrite !app_nil_r, <- (assoc_L (++))].
  unfold append. rewrite Hp. apply Forall2_app.
  - eapply held_agree; [|done]. intros n Hn. unfold content_at. by rewrite lookup_insert_ne by (by apply not_eq_sym, Hne).
  - constructor; [|constructor]. unfold content_at in *. rewrite lookup_insert_eq. rewrite Hp in Ha.
    rewrite concat_app. cbn. by rewrite app_nil_r, <- Ha.
Qed.

Lemma log_start p k d : log p k d ((λ name, content_at name d) <$> generations p k).
Proof.
  exists ((λ name, [content_at name d]) <$> generations p k). split.
  - induction (generations p k) as [|name names IH]; constructor; [cbn; by rewrite app_nil_r|done].
  - induction (generations p k) as [|name names IH]; [done|]. cbn. by f_equal.
Qed.

Lemma log_nothing p k d pieces : log p k d pieces → log p k d (pieces ++ [[]]).
Proof.
  intros (held & H & ->). destruct (generations_last p k) as (older & E & _). unfold log.
  rewrite E in H |- *. apply Forall2_app_inv_l in H as (h1 & h2 & H1 & H2 & ->).
  apply Forall2_cons_inv_l in H2 as (a & h3 & Ha & H2 & ->). apply Forall2_nil_inv_l in H2 as ->.
  exists (h1 ++ [a ++ [[]]]). split; [|rewrite !concat_app; cbn; by rewrite !app_nil_r, <- (assoc_L (++))].
  apply Forall2_app; [done|]. constructor; [|constructor]. rewrite concat_app. cbn. by rewrite app_nil_r.
Qed.

(** The directory holds a recent part of the pieces. *)
Definition logged (p : string) (k : nat) (all : list (list byte)) (d : dir) : Prop :=
  ∃ kept, log p k d kept ∧ kept `suffix_of` all.

(** No name but the log's and its lock's has changed. *)
Definition untouched (p : string) (k : nat) (d d' : dir) : Prop :=
  ∀ name, name ∉ generations p k → name ≠ lock_path p → d' !! name = d !! name.

Definition holds (p : string) (k : nat) (all : list (list byte)) (d : dir) (w : world) : Prop :=
  logged p k all (files w) ∧ untouched p k d (files w).

(** ** The steps on the way *)

Lemma runs_attempt (I : world → Prop) granted f w Q (X : unit → world → Prop) :
  (granted = true → I (set_files f w) ∧ Q tt (set_files f w)) → (granted = false → X tt w) →
  runs I (attempt granted f) w Q X.
Proof.
  intros HQ HX. unfold attempt. destruct granted.
  - destruct (HQ eq_refl). by apply runs_act.
  - apply runs_lift; [done|]. intros [] _. by apply HX.
Qed.

Lemma runs_ignore (I : world → Prop) m w (Q : unit → world → Prop) (X : unit → world → Prop) :
  runs I m w Q Q → runs I (ignore m) w Q X.
Proof.
  unfold runs, ignore, states, outcome, after. destruct (m w) as [[tr w'] [[]|[]]]; done.
Qed.

Lemma runs_if (I : world → Prop) (b : bool) (m : T world unit unit) w Q (X : unit → world → Prop) :
  (b = true → runs I m w Q X) → (b = false → Q tt w) → runs I (if b then m else ret tt) w Q X.
Proof. destruct b; intros H1 H2; [by apply H1|by apply runs_ret, H2]. Qed.

Lemma lock_path_not_generation p k : lock_path p ∉ generations p k.
Proof.
  intros (i & _ & E)%generations_elem.
  assert (Hl : String.length p < String.length (lock_path p)).
  { apply with_file_name_longer. rewrite !string_length_app. destruct (file_name p); simpl; lia. }
  destruct i as [|i]; cbn [generation] in E; [rewrite E in Hl; lia|].
  assert (Hbytes : ∃ l, Text.bytes (lock_path p) = l ++ ["k"%char]).
  { unfold lock_path, with_file_name, join. repeat case_match; rewrite !bytes_app;
      eexists; repeat rewrite (assoc_L (++)); change (Text.bytes ".lock") with (Text.bytes ".loc" ++ ["k"%char]);
      by rewrite (assoc_L (++)). }
  destruct Hbytes as (l & Hl'). rewrite E in Hl'. unfold rotated in Hl'. rewrite !bytes_app in Hl'.
  destruct (dec_digits (N.of_nat (S i))) as (Hne & Hd & _).
  change (Text.bytes (pretty (S i))) with (dec (N.of_nat (S i))) in Hl'.
  destruct (dec (N.of_nat (S i))) as [|c ds _] eqn:Ed using rev_ind; [done|].
  rewrite !(assoc_L (++)) in Hl'. apply app_inj_2 in Hl' as [_ [= ->]]; [|done].
  apply Forall_app in Hd as [_ Hd]. by inversion Hd.
Qed.

(** No step of a rotation is refused. *)
Definition rotates (e : env) : Prop :=
  removed e = true ∧ truncated e = true ∧ ∀ name, renamed e name = true.

(** An invariant of the directory that the steps of a rotation and those that leave the
    contents of the generations alone keep. *)
Class Rotates (c : SinkConfig) (J : dir → Prop) : Prop := {
  J_move d i : i < keep c → d !! generation (path c) (S i) = None → J d →
    J (move (generation (path c) i) (generation (path c) (S i)) d);
  J_drop d : 0 < keep c → J d → J (base.delete (generation (path c) (keep c)) d);
  J_truncate d m : keep c = 0 → J d → J (<[path c := mkFile [] m]> d);
  J_same d d' :
    (∀ name, name ∈ generations (path c) (keep c) → content_at name d' = content_at name d) →
    (∀ name, name ∉ generations (path c) (keep c) → name ≠ lock_path (path c) → d' !! name = d !! name) →
    J d → J d';
}.

Lemma content_create name m other d : content_at other (create name m d) = content_at other d.
Proof.
  unfold create, content_at. destruct (d !! name) eqn:E; [done|].
  destruct (decide (name = other)) as [->|]; [by rewrite lookup_insert_eq, E|by rewrite lookup_insert_ne].
Qed.

Lemma content_set_permissions name m other d :
  content_at other (set_permissions name m d) = content_at other d.
Proof.
  unfold set_permissions, content_at. destruct (d !! name) eqn:E; [|done].
  destruct (decide (name = other)) as [->|]; [by rewrite lookup_insert_eq, E|by rewrite lookup_insert_ne].
Qed.

Lemma other_create name m other d : other ≠ name → create name m d !! other = d !! other.
Proof. intros Hne. unfold create. destruct (d !! name); [done|]. by rewrite lookup_insert_ne. Qed.

Lemma other_set_permissions name m other d : other ≠ name → set_permissions name m d !! other = d !! other.
Proof. intros Hne. unfold set_permissions. destruct (d !! name); [|done]. by rewrite lookup_insert_ne. Qed.

Lemma other_append name bs other d : other ≠ name → append name bs d !! other = d !! other.
Proof. intros Hne. unfold append. destruct (d !! name); [|done]. by rewrite lookup_insert_ne. Qed.

Lemma path_generation c : path c ∈ generations (path c) (keep c).
Proof. apply generations_elem. exists 0. split; [lia|done]. Qed.

Section steps.
Context (c : SinkConfig) (J : dir → Prop) `{!Rotates c J}.
Implicit Types (w : world) (e : env).
Local Abbreviation p := (path c).
Local Abbreviation k := (keep c).
Local Abbreviation W := (λ w, J (files w)).

Lemma runs_shift e i w :
  i < k → J (files w) → files w !! generation p (S i) = None →
  runs W (shift e p i) w
    (λ _ w', J (files w') ∧ files w' !! generation p 1 = None) (λ _ w', J (files w') ∧ ¬ rotates e).
Proof.
  revert w. induction i as [|i IH]; intros w Hi Hh Hfree; cbn [shift]; [by apply runs_ret|].
  apply runs_bind, runs_look. apply runs_bind. apply runs_if.
  - intros _. apply runs_attempt.
    + intros _.
      assert (Hm : J (move (rotated p (S i)) (rotated p (S (S i))) (files w))) by by apply (J_move _ (S i)).
      split; [done|]. apply IH; [lia|done|]. cbn. unfold move.
      destruct (files w !! rotated p (S i)) eqn:E; [|done]. rewrite lookup_insert_ne, lookup_delete_eq; [done|].
      intros Hc%(inj (generation p) (S (S i)) (S i)). lia.
    + intros Hr. split; [done|]. intros (_ & _ & H). by rewrite H in Hr.
  - intros Hex. apply IH; [lia|done|]. apply bool_decide_eq_false in Hex. by apply eq_None_not_Some.
Qed.

(** The part behind the oldest generation, which is gone. *)
Lemma runs_shift_all e below w :
  k = S below → J (files w) → files w !! generation p k = None →
  runs W (let! _ := shift e p below in let! there := exists_ p in
      if there : bool then attempt (renamed e p) (move p (rotated p 1)) else ret tt) w
    (λ _ w', J (files w') ∧ content_at p (files w') = []) (λ _ w', J (files w') ∧ ¬ rotates e).
Proof.
  intros Ek Hw Hfree. apply runs_bind. eapply runs_mono; [apply (runs_shift e below w)|done| |done].
  - lia.
  - done.
  - by rewrite Ek in Hfree.
  - intros [] w2 [H2 Hfree2]. cbn beta. apply runs_bind, runs_look. apply runs_if.
    + intros _. apply runs_attempt.
      * intros _. assert (Hm : J (move p (rotated p 1) (files w2))) by (apply (J_move _ 0); [lia|done..]).
        split_and!; [done..|]. cbn. unfold move, content_at. destruct (files w2 !! p) eqn:E; [|by rewrite E].
        rewrite lookup_insert_ne; [by rewrite lookup_delete_eq|]. by intros Hc%(inj (generation p) 1 0).
      * intros Hr. split; [done|]. intros (_ & _ & H). by rewrite H in Hr.
    + intros Hex%bool_decide_eq_false. split; [done|]. apply eq_None_not_Some in Hex.
      unfold content_at. by rewrite Hex.
Qed.

Lemma runs_rotate e w :
  J (files w) →
  runs W (rotate e p k) w
    (λ _ w', J (files w') ∧ content_at p (files w') = []) (λ _ w', J (files w') ∧ ¬ rotates e).
Proof.
  intros Hh. unfold rotate. destruct k as [|below] eqn:Ek.
  - apply runs_attempt.
    + intros _. cbn. split; [by apply J_truncate|]. split; [by apply J_truncate|].
      unfold content_at. by rewrite lookup_insert_eq.
    + intros Hr. split; [done|]. intros (_ & H & _). congruence.
  - rewrite <- Ek. apply runs_bind, runs_look, runs_bind.
    replace (rotated p k) with (generation p k) by by rewrite Ek.
    apply runs_if.
    + intros _. apply runs_attempt.
      * intros _. assert (Hd : J (base.delete (generation p k) (files w))) by (apply J_drop; [lia|done]).
        split; [done|]. apply runs_shift_all; [done..|]. cbn. by rewrite lookup_delete_eq.
      * intros Hr. split; [done|]. intros (H & _ & _). congruence.
    + intros Hex%bool_decide_eq_false. apply runs_shift_all; [done..|]. by apply eq_None_not_Some.
Qed.

Lemma J_create name m d : name = p ∨ name = lock_path p → J d → J (create name m d).
Proof.
  intros Hname. apply J_same; intros other *; [intros; apply content_create|].
  intros Hn Hl. apply other_create. intros ->. destruct Hname as [->|E]; [|done].
  by destruct Hn; apply path_generation.
Qed.

Lemma runs_acquire I e w (Q : unit → world → Prop) (X : unit → world → Prop) :
  J (files w) → (∀ w', J (files w') → I w' ∧ Q tt w' ∧ X tt w') → runs I (acquire e p) w Q X.
Proof.
  intros Hh HI. destruct (HI w Hh) as (HIw & HQw & HXw). unfold acquire.
  apply runs_bind, runs_lift; [|by intros [] _]. intros [] _. apply runs_bind, runs_attempt; [|done].
  intros _. pose proof (J_create (lock_path p) (created_mode e) (files w) (or_intror eq_refl) Hh) as H.
  destruct (HI (set_files (create (lock_path p) (created_mode e)) w) H) as (H1 & H2 & H3).
  split; [done|]. apply runs_lift; [by intros []|by intros []].
Qed.

(** Writing under an invariant: what is left to show is the append, to a file that has
    room for the bytes, is empty, or could not be rotated. *)
Context (e : env) (bytes : list byte) (I : world → Prop) (Q X : unit → world → Prop).

Definition room (w : world) : Prop :=
  (saturating_add (N.of_nat (length (content_at p (files w)))) (N.of_nat (length bytes)) ≤ max_bytes c)%N ∨
  content_at p (files w) = [] ∨ ¬ rotates e.

Hypothesis J_way : ∀ w, J (files w) → I w ∧ X tt w.
Hypothesis appending : ∀ w f,
  J (files w) → room w → files w !! p = Some f → mode f = OWNER_ONLY →
  runs I (on_error (let! _ := append_all e p bytes in set_open None)
    (λ w, mkWorld (files w) None (device w))) w Q X.

Lemma runs_open_append w :
  J (files w) → room w →
  runs I (let! _ := attempt (opened e) (create p (created_mode e)) in
      let! _ := attempt (chmod e) (set_permissions p OWNER_ONLY) in
      on_error (let! _ := append_all e p bytes in set_open None)
        (λ w, mkWorld (files w) None (device w))) w Q X.
Proof.
  intros H2 Hroom. apply runs_bind, runs_attempt; [|intros _; by apply J_way]. intros _.
  assert (H3 : J (create p (created_mode e) (files w))) by by apply J_create; [left|].
  split; [by apply J_way|]. apply runs_bind, runs_attempt; [|intros _; by apply J_way]. intros _.
  assert (∃ f, create p (created_mode e) (files w) !! p = Some f) as [f Hf].
  { unfold create. destruct (files w !! p) eqn:E; [by eexists|]. eexists. by apply lookup_insert_eq. }
  assert (H4 : J (set_permissions p OWNER_ONLY (create p (created_mode e) (files w)))).
  { eapply J_same; [| |exact H3]; intros name; [intros; apply content_set_permissions|]. intros Hn _.
    apply other_set_permissions. intros ->. by destruct Hn; apply path_generation. }
  split; [by apply J_way|]. apply (appending _ (mkFile (content f) OWNER_ONLY)); [done| |..|done].
  - unfold room. cbn. by rewrite content_set_permissions, content_create.
  - cbn. unfold set_permissions. rewrite Hf. by rewrite lookup_insert_eq.
Qed.

Lemma runs_write_regular w : J (files w) → runs I (write_regular c e bytes) w Q X.
Proof.
  intros Hh. unfold write_regular. apply runs_bind, runs_acquire; [done|]. intros w1 H1.
  destruct (J_way w1 H1) as [HI1 HX1].
  split_and!; [done| |done]. apply runs_bind, runs_look, runs_bind. apply runs_if.
  - intros _. apply runs_ignore. eapply runs_mono; [by apply (runs_rotate e w1)|..].
    + intros w2 H2. by apply J_way.
    + intros [] w2 [H2 Hc]. apply runs_open_append; [done|]. by right; left.
    + intros [] w2 [H2 Hr]. apply runs_open_append; [done|]. by right; right.
  - intros Hle. apply runs_open_append; [done|]. left. by apply N.ltb_ge.
Qed.
End steps.

(** ** The log under writes *)

#[export] Instance holds_rotates c all d0 :
  Rotates c (λ d, logged (path c) (keep c) all d ∧ untouched (path c) (keep c) d0 d).
Proof.
  assert (Hgen : ∀ name i, i ≤ keep c → name ∉ generations (path c) (keep c) → generation (path c) i ≠ name).
  { intros name i Hi Hn <-. apply Hn, generations_elem. by exists i. }
  constructor.
  - intros d i Hi Hfree [(kept & Hlog & Hsuf) Hu].
    split; [exists kept; split; [by apply log_move|done]|].
    intros name Hn Hl. rewrite <- (Hu name Hn Hl). unfold move.
    destruct (d !! generation (path c) i); [|done].
    rewrite lookup_insert_ne, lookup_delete_ne; [done|apply Hgen; [lia|done]..].
  - intros d Hk [(kept & Hlog & Hsuf) Hu]. split.
    + destruct (log_drop_oldest _ _ d kept Hk Hlog) as (kept' & Hl & Hs). exists kept'. split; [done|]. by etrans.
    + intros name Hn Hl. rewrite <- (Hu name Hn Hl). rewrite lookup_delete_ne; [done|]. by apply Hgen.
  - intros d m Ek [(kept & Hlog & Hsuf) Hu]. split.
    + exists []. split; [|apply suffix_nil]. exists [[]]. rewrite Ek. split; [|done]. constructor; [|constructor].
      unfold content_at. by rewrite lookup_insert_eq.
    + intros name Hn Hl. rewrite <- (Hu name Hn Hl). rewrite lookup_insert_ne; [done|].
      apply (Hgen name 0); [lia|done].
  - intros d d' Hc Ho [(kept & Hl & Hs) Hu]. split.
    + exists kept. split; [|done]. by eapply log_agree.
    + intros name Hn Hk. by rewrite Ho, Hu.
Qed.

Section write.
Context (c : SinkConfig) (all : list (list byte)) (d0 : dir) (bytes : list byte).
Implicit Types (w : world) (e : env).

(** Every state on the way: some first part of the bytes has arrived behind what is
    left of the log. *)
Definition part_written (w : world) : Prop :=
  ∃ piece, piece `prefix_of` bytes ∧ holds (path c) (keep c) (all ++ [piece]) d0 w.

(** After success: all of them, in a file only its owner can read. *)
Definition all_written (w : world) : Prop :=
  (∃ kept, log (path c) (keep c) (files w) (kept ++ [bytes]) ∧ kept `suffix_of` all) ∧
  untouched (path c) (keep c) d0 (files w) ∧ open_ w = None ∧
  mode <$> files w !! path c = Some OWNER_ONLY.

Lemma holds_part w : holds (path c) (keep c) all d0 w → part_written w.
Proof.
  intros [(kept & Hl & Hs) Hu]. exists []. split; [apply prefix_nil|]. split; [|done].
  exists (kept ++ [[]]). split; [by apply log_nothing|]. by apply suffix_app.
Qed.

Lemma all_written_part w : all_written w → part_written w.
Proof.
  intros ((kept & Hl & Hs) & Hu & _ & _). exists bytes. split; [done|]. split; [|done].
  exists (kept ++ [bytes]). split; [done|]. by apply suffix_app.
Qed.

Lemma append_holds w n f :
  files w !! path c = Some f → mode f = OWNER_ONLY → holds (path c) (keep c) all d0 w →
  holds (path c) (keep c) (all ++ [take n bytes]) d0 (set_files (append (path c) (take n bytes)) w) ∧
  (length bytes ≤ n → all_written (mkWorld (append (path c) (take n bytes) (files w)) None (device w))).
Proof.
  intros Hf Hm [(kept & Hl & Hs) Hu].
  assert (Hlog := log_append _ _ _ _ (take n bytes) f Hf Hl).
  assert (Hu' : untouched (path c) (keep c) d0 (append (path c) (take n bytes) (files w))).
  { intros name Hn Hk. rewrite other_append; [by apply Hu|]. intros ->. by destruct Hn; apply path_generation. }
  split.
  - split; [|done]. exists (kept ++ [take n bytes]). split; [done|]. by apply suffix_app.
  - intros Hn. rewrite (take_ge bytes n) in * by done. split_and!; [by exists kept|done|done|].
    cbn. unfold append. rewrite Hf, lookup_insert_eq. cbn. by rewrite Hm.
Qed.

Lemma runs_append e w f :
  files w !! path c = Some f → mode f = OWNER_ONLY → holds (path c) (keep c) all d0 w →
  runs part_written (on_error (let! _ := append_all e (path c) bytes in set_open None)
    (λ w, mkWorld (files w) None (device w))) w (λ _ w', all_written w') (λ _ w', part_written w').
Proof.
  intros Hf Hm Hh. apply runs_on_error, runs_bind. unfold runs, states, outcome, after, append_all. cbn.
  assert (Hpart : ∀ n, part_written (set_files (append (path c) (take n bytes)) w)).
  { intros n. exists (take n bytes). split; [eexists; symmetry; apply take_drop|]. by eapply append_holds. }
  split.
  - apply Forall_forall. intros w' [->|Hin]%elem_of_cons; [apply (Hpart 0)|].
    apply list_elem_of_fmap in Hin as (n & -> & _). apply Hpart.
  - assert (Hno : ∀ n, part_written (mkWorld (files (set_files (append (path c) (take n bytes)) w)) None (device w)))
      by apply Hpart.
    destruct (failed_at e) as [n|] eqn:E; cbn.
    + split; apply Hno.
    + split; [constructor; [apply Hno|constructor]|]. by eapply append_holds.
Qed.

Lemma runs_written e w :
  holds (path c) (keep c) all d0 w →
  runs part_written (write_regular c e bytes) w (λ _ w', all_written w') (λ _ w', part_written w').
Proof.
  apply (runs_write_regular c (λ d, logged (path c) (keep c) all d ∧ untouched (path c) (keep c) d0 d)).
  - intros w' Hw'. by split; apply holds_part.
  - intros w' f Hw' _ Hf Hm. by eapply runs_append.
Qed.
End write.

(** ** Sizes *)

Definition fits (c : SinkConfig) (d : dir) : Prop :=
  ∀ name, name ∈ generations (path c) (keep c) → (N.of_nat (length (content_at name d)) ≤ max_bytes c)%N.

#[export] Instance fits_rotates c : Rotates c (fits c).
Proof.
  assert (Hi : ∀ i, i ≤ keep c → generation (path c) i ∈ generations (path c) (keep c))
    by (intros i Hi; apply generations_elem; by exists i).
  constructor.
  - intros d i Hk Hfree Hf name Hn. unfold move, content_at. destruct (d !! generation (path c) i) as [f|] eqn:E;
      [|by apply Hf].
    destruct (decide (name = generation (path c) (S i))) as [->|Hne].
    + rewrite lookup_insert_eq. specialize (Hf (generation (path c) i)). unfold content_at in Hf.
      rewrite E in Hf. apply Hf, Hi. lia.
    + rewrite lookup_insert_ne by done. destruct (decide (name = generation (path c) i)) as [->|].
      * rewrite lookup_delete_eq. cbn. lia.
      * rewrite lookup_delete_ne by done. by apply Hf.
  - intros d Hk Hf name Hn. unfold content_at. destruct (decide (name = generation (path c) (keep c))) as [->|].
    + rewrite lookup_delete_eq. cbn. lia.
    + rewrite lookup_delete_ne by done. by apply Hf.
  - intros d m Ek Hf name Hn. unfold content_at. destruct (decide (name = path c)) as [->|].
    + rewrite lookup_insert_eq. cbn. lia.
    + rewrite lookup_insert_ne by done. by apply Hf.
  - intros d d' Hc _ Hf name Hn. rewrite Hc by done. by apply Hf.
Qed.

Lemma saturating_add_le a b m : (m < u64_max_N)%N → (saturating_add a b ≤ m)%N → (a + b ≤ m)%N.
Proof. unfold saturating_add. lia. Qed.

Lemma runs_append_fits c e bytes w f :
  rotates e → (max_bytes c < u64_max_N)%N → (N.of_nat (length bytes) ≤ max_bytes c)%N →
  fits c (files w) → room c e bytes w → files w !! path c = Some f →
  runs (λ w, fits c (files w)) (on_error (let! _ := append_all e (path c) bytes in set_open None)
    (λ w, mkWorld (files w) None (device w))) w (λ _ w', fits c (files w')) (λ _ w', fits c (files w')).
Proof.
  intros Hr Hmax Hb Hf Hroom Hp.
  assert (Hall : ∀ n, fits c (append (path c) (take n bytes) (files w))).
  { intros n name Hn. unfold append, content_at. rewrite Hp. destruct (decide (name = path c)) as [->|].
    - rewrite lookup_insert_eq. cbn. rewrite length_app, length_take.
      assert (Hc : content_at (path c) (files w) = content f) by (unfold content_at; by rewrite Hp).
      destruct Hroom as [H|[H|H]]; rewrite ?Hc in H; [|rewrite H; cbn; lia|done].
      apply saturating_add_le in H; [lia|done].
    - rewrite lookup_insert_ne by done. by apply Hf. }
  apply runs_on_error, runs_bind. unfold runs, states, outcome, after, append_all. cbn. split.
  - apply Forall_forall. intros w' [->|Hin]%elem_of_cons; [apply (Hall 0)|].
    apply list_elem_of_fmap in Hin as (n & -> & _). apply Hall.
  - destruct (failed_at e) as [n|]; cbn; [split; apply Hall|].
    split; [constructor; [apply Hall|constructor]|apply Hall].
Qed.

Lemma sum_concat_le (names : list string) d m :
  (∀ name, name ∈ names → (N.of_nat (length (content_at name d)) ≤ m)%N) →
  (N.of_nat (length (concat ((λ name, content_at name d) <$> names))) ≤ N.of_nat (length names) * m)%N.
Proof.
  induction names as [|name names IH]; intros H; [cbn; lia|]. cbn [fmap list_fmap concat length].
  rewrite length_app. specialize (H name) as Hn. specialize (IH (λ n Hn, H n (list_elem_of_further _ _ _ Hn))).
  assert (name ∈ name :: names) by by left. specialize (Hn ltac:(done)).
  rewrite Nat2N.inj_succ, N.mul_succ_l. lia.
Qed.

Lemma generations_length p k : length (generations p k) = S k.
Proof. induction k; cbn [generations length]; auto. Qed.

(** ** Histories

    Writes of any processes that share the log: the lock makes each a step, and each
    returns or crashes in a state on its way.  Recorded are the bytes of each and
    whether it returned success. *)
Inductive writes (c : SinkConfig) : world → list (list byte * bool) → world → Prop :=
| writes_none w : writes c w [] w
| writes_returned w e bytes rest w' :
    is_device e = false →
    writes c (after (write_to_file c e bytes) w) rest w' →
    writes c w ((bytes, is_ok (outcome (write_to_file c e bytes) w)) :: rest) w'
| writes_crashed w e bytes mid rest w' :
    is_device e = false → mid ∈ states (write_to_file c e bytes) w →
    writes c mid rest w' →
    writes c w ((bytes, false) :: rest) w'.

(** What a write left of its bytes. *)
Definition left_of (call : list byte * bool) (piece : list byte) : Prop :=
  piece `prefix_of` call.1 ∧ (call.2 = true → piece = call.1).

Lemma part_written_step c all d0 bytes w :
  part_written c all d0 bytes w →
  ∃ piece, left_of (bytes, false) piece ∧ holds (path c) (keep c) (all ++ [piece]) d0 w.
Proof. intros (piece & Hp & Hh). by exists piece. Qed.

Lemma all_written_step c all d0 bytes w :
  all_written c all d0 bytes w →
  left_of (bytes, true) bytes ∧ holds (path c) (keep c) (all ++ [bytes]) d0 w.
Proof.
  intros ((kept & Hl & Hs) & Hu & _). split; [done|]. split; [|done]. exists (kept ++ [bytes]).
  split; [done|]. by apply suffix_app.
Qed.

Lemma writes_hold c w calls w' all d0 :
  writes c w calls w' → holds (path c) (keep c) all d0 w →
  ∃ pieces, Forall2 left_of calls pieces ∧ holds (path c) (keep c) (all ++ pieces) d0 w'.
Proof.
  intros Hw. revert all.
  induction Hw as [w|w e bytes rest w' Hd _ IH|w e bytes mid rest w' Hd Hmid _ IH]; intros all Hh.
  - exists []. rewrite app_nil_r. by split; [constructor|].
  - destruct (runs_written c all d0 bytes e w Hh) as [_ Hr].
    assert (∃ piece, left_of (bytes, is_ok (outcome (write_to_file c e bytes) w)) piece ∧
      holds (path c) (keep c) (all ++ [piece]) d0 (after (write_to_file c e bytes) w)) as (piece & Hp & Hh').
    { unfold write_to_file. rewrite Hd. destruct (outcome (write_regular c e bytes) w); cbn [is_ok].
      - exists bytes. by apply all_written_step.
      - by apply part_written_step. }
    destruct (IH _ Hh') as (pieces & Hps & H). exists (piece :: pieces).
    split; [by constructor|]. by rewrite <- (assoc_L (++)) in H.
  - destruct (runs_written c all d0 bytes e w Hh) as [Hs _]. rewrite Forall_forall in Hs.
    unfold write_to_file in Hmid. rewrite Hd in Hmid.
    destruct (part_written_step _ _ _ _ _ (Hs mid Hmid)) as (piece & Hp & Hh').
    destruct (IH _ Hh') as (pieces & Hps & H). exists (piece :: pieces).
    split; [by constructor|]. by rewrite <- (assoc_L (++)) in H.
Qed.

(** ** A log in use *)

Definition demo_config : SinkConfig := mkSinkConfig "/var/log/supra.log" 12 1 false.
Definition demo_env : env :=
  mkEnv false false true true true true true (λ _, true) true 420 true None.
Definition demo_world : world :=
  mkWorld {[ "/var/log/supra.log" := mkFile (Text.bytes "0123456789") 420;
             "/var/log/supra.log.1" := mkFile (Text.bytes "older") 420 ]} None [].
Definition demo_line : list byte := Text.bytes "a line".

(** After the first write; the second is cut short when its file has been moved away. *)
Definition demo_written : world := after (write_to_file demo_config demo_env demo_line) demo_world.
Definition demo_crashed : world :=
  default demo_world (states (write_to_file demo_config demo_env (demo_line ++ demo_line)) demo_written !! 1).

(** C18. The log is exact: whatever writes of whatever processes share it, each
    returning or crashing at any step with any of its steps refused, the chain of
    generations holds, oldest first and in order, a recent part of the pieces written:
    of a write that returned success all of its bytes, of another one a first part of
    them; no piece is split between generations, rotation drops only the oldest, and
    no other file changes but the lock's. *)
Theorem log_history_exact c w calls w' :
  writes c w calls w' →
  ∃ pieces kept, Forall2 left_of calls pieces ∧
    log (path c) (keep c) (files w') kept ∧
    kept `suffix_of` ((λ name, content_at name (files w)) <$> generations (path c) (keep c)) ++ pieces ∧
    untouched (path c) (keep c) (files w) (files w').
Proof.
  intros Hw. destruct (writes_hold c w calls w' ((λ name, content_at name (files w)) <$>
    generations (path c) (keep c)) (files w) Hw) as (pieces & Hp & (kept & Hl & Hs) & Hu).
  - split; [|done]. eexists. split; [apply log_start|done].
  - by exists pieces, kept.
Qed.

Lemma log_history_exact_witness :
  ∃ pieces kept,
    Forall2 left_of [(demo_line, true); (demo_line ++ demo_line, false); (demo_line, true)] pieces ∧
    log (path demo_config) (keep demo_config)
      (files (after (write_to_file demo_config demo_env demo_line) demo_crashed)) kept ∧
    kept `suffix_of` [Text.bytes "older"; Text.bytes "0123456789"] ++ pieces.
Proof.
  assert (Hw : writes demo_config demo_world
    [(demo_line, true); (demo_line ++ demo_line, false); (demo_line, true)]
    (after (write_to_file demo_config demo_env demo_line) demo_crashed)).
  { refine (writes_returned demo_config demo_world demo_env demo_line _ _ eq_refl _).
    eapply (writes_crashed _ _ demo_env _ demo_crashed); [done| |].
    - refine (bool_decide_unpack _ _). by vm_compute.
    - refine (writes_returned demo_config demo_crashed demo_env demo_line [] _ eq_refl (writes_none _ _)). }
  destruct (log_history_exact _ _ _ _ Hw) as (pieces & kept & Hp & Hl & Hs & _).
  by exists pieces, kept.
Defined.

(** The log is bounded: as long as no step of a rotation is refused, writes of
    lines that fit one file keep every generation within the bound in every state on
    the way, so the whole log within the bound times the generations and the current
    file. *)
Theorem log_bounded c e bytes w :
  is_device e = false → rotates e → (max_bytes c < u64_max_N)%N →
  (N.of_nat (length bytes) ≤ max_bytes c)%N → fits c (files w) →
  let total w := N.of_nat (length (log_text (path c) (keep c) (files w))) in
  let bound := (N.of_nat (S (keep c)) * max_bytes c)%N in
  Forall (λ w', fits c (files w') ∧ total w' ≤ bound)%N
    (after (write_to_file c e bytes) w :: states (write_to_file c e bytes) w).
Proof.
  intros Hd Hr Hmax Hb Hf total bound.
  assert (Htotal : ∀ w', fits c (files w') → (total w' ≤ bound)%N).
  { intros w' Hw'. unfold total, bound, log_text. rewrite <- (generations_length (path c)).
    by apply sum_concat_le. }
  assert (H : runs (λ w, fits c (files w)) (write_regular c e bytes) w (λ _ w', fits c (files w'))
    (λ _ w', fits c (files w'))).
  { apply (runs_write_regular c (fits c)); [done| |done]. intros w' f Hw' Hroom Hp _. by eapply runs_append_fits. }
  unfold write_to_file. rewrite Hd. destruct H as [Hs Ho]. constructor.
  - assert (fits c (files (after (write_regular c e bytes) w))); [|by auto]. by destruct (outcome _ _).
  - eapply Forall_impl; [exact Hs|]. auto.
Qed.

Lemma log_bounded_witness :
  Forall (λ w', fits demo_config (files w') ∧
      N.of_nat (length (log_text (path demo_config) (keep demo_config) (files w'))) ≤ 24)%N
    (after (write_to_file demo_config demo_env demo_line) demo_world ::
     states (write_to_file demo_config demo_env demo_line) demo_world).
Proof.
  apply (log_bounded demo_config demo_env demo_line demo_world); try done.
  intros name Hn. apply N.leb_le. revert name Hn. apply Forall_forall. by repeat constructor.
Defined.

(** ** Lost lines

    [dropped] is taken and put back by single instructions, so lines of several
    threads interleave: each takes the count, and later has written it with its line
    or puts it back with one more. *)
Record ledger := mkLedger { counts : counters; in_flight : list N; announced : N; failed : N }.

Inductive interleaves : ledger → ledger → Prop :=
| taken s flight a f :
    interleaves (mkLedger s flight a f) (mkLedger (take_lost s).2 ((take_lost s).1 :: flight) a f)
| written s l1 lost l2 a f :
    interleaves (mkLedger s (l1 ++ lost :: l2) a f) (mkLedger s (l1 ++ l2) (a + lost) f)
| refused s l1 lost l2 a f :
    interleaves (mkLedger s (l1 ++ lost :: l2) a f) (mkLedger (put_back lost s) (l1 ++ l2) a (f + 1)).

Definition sum_N (l : list N) : N := foldr N.add 0%N l.

Lemma sum_N_app l1 l2 : sum_N (l1 ++ l2) = (sum_N l1 + sum_N l2)%N.
Proof. unfold sum_N. induction l1 as [|x l1 IH]; [done|]. cbn [app foldr]. rewrite IH. lia. Qed.

Lemma sum_N_cons x l : sum_N (x :: l) = (x + sum_N l)%N.
Proof. done. Qed.
#[local] Arguments sum_N : simpl never.

(** No lost line is forgotten: however the lines of several threads interleave,
    the lines that failed are those announced in the log, those counted for the next
    notice and those a line on its way carries. *)
Theorem losses_counted s t :
  rtc interleaves s t →
  failed s = (announced s + dropped (counts s) + sum_N (in_flight s))%N →
  failed t = (announced t + dropped (counts t) + sum_N (in_flight t))%N.
Proof.
  induction 1 as [|s t u Hst _ IH]; [done|]. intros H. apply IH. revert H. clear IH.
  destruct Hst; cbn; rewrite ?sum_N_app, ?sum_N_cons; lia.
Qed.

Lemma losses_counted_witness :
  failed (mkLedger (mkCounters 1 0) [] 1 2) = 2%N.
Proof.
  refine (losses_counted (mkLedger (mkCounters 0 0) [] 0 0) _ _ eq_refl).
  eapply rtc_l; [apply (taken (mkCounters 0 0))|].
  eapply rtc_l; [apply (refused _ [] 0 [])|].
  eapply rtc_l; [apply taken|].
  eapply rtc_l; [apply taken|].
  eapply rtc_l; [apply (written _ [0%N] 1 [])|].
  eapply rtc_l; [apply (refused _ [] 0 [])|].
  apply rtc_refl.
Defined.

(** One line alone: it takes the count and settles it. *)
Lemma write_line_interleaves c e line s w a f :
  ∃ a' f', rtc interleaves (mkLedger s [] a f) (mkLedger (write_line c e line s w).1.1 [] a' f') ∧
    match outcome (write_to_file c e (payload (dropped s) line)) w with
    | Ok _ => a' = (a + dropped s)%N ∧ f' = f
    | Err _ => a' = a ∧ f' = (f + 1)%N
    end.
Proof.
  unfold write_line. cbn [take_lost]. cbn. destruct (outcome _ _) as [[]|[]]; cbn.
  - exists (a + dropped s)%N, f. split; [|done]. eapply rtc_l; [apply taken|].
    eapply rtc_l; [apply (written _ [] _ [])|]. done.
  - exists a, (f + 1)%N. split; [|done]. eapply rtc_l; [apply taken|].
    eapply rtc_l; [apply (refused _ [] _ [])|]. done.
Qed.

(** A record reaches the sink as one line however it is written into the buffer, and
    dropping the writer after a flush adds none. *)
Lemma writer_one_line bufs :
  concat bufs ≠ [] →
  drop_writer (flush (foldl (λ w buf, writer_write buf w) ([], []) bufs)) =
  ([], [from_utf8_lossy (concat bufs)]).
Proof.
  intros Hne. assert (E : ∀ b ls, foldl (λ w buf, writer_write buf w) (b, ls) bufs = (b ++ concat bufs, ls)).
  { clear Hne. induction bufs as [|buf bufs IH]; intros b ls; cbn; [by rewrite app_nil_r|].
    change (writer_write buf (b, ls)) with (b ++ buf, ls). rewrite IH. cbn. by flat. }
  rewrite E. unfold flush, drop_writer, emit. cbn [fst snd app].
  assert (Hl : (if is_utf8 (concat bufs) then concat bufs else from_utf8_lossy (concat bufs)) =
    from_utf8_lossy (concat bufs)) by (destruct (is_utf8 _) eqn:Hu; [by rewrite lossy_valid|done]).
  destruct (concat bufs) as [|c l] eqn:Ec; [done|]. rewrite Hl. done.
Qed.
