(* ===== verification/Update.v ===== *)
(** * Local updates: [supra_update/src/lib.rs]

    A signed manifest binds one archive, target, version, length, digest and member;
    an update is checked against it and installed by writing the member beside its
    destination and renaming it.  Minisign, SHA-256, semantic versions, JSON and the
    decoding of archives are parameters, as are the answers of the system; the file
    system around the destination is a state, which other processes may change
    between two steps. *)

From Stdlib Require Import Ascii.
From S2P Require Import Prelude Text Sealing Utf8 FileSystem Traced Framing Redact.

(** ** Bounds and errors *)

Definition MAX_ARCHIVE_BYTES : N := 128 * 1024 * 1024.
Definition MAX_EXECUTABLE_BYTES : N := 128 * 1024 * 1024.
Definition MAX_ARCHIVE_ENTRIES : nat := 64.

Inductive UpdateError :=
| BadSignature
| BadVersion (version : list byte)
| VersionMismatch (offered expected : list byte)
| TargetMismatch (offered expected : list byte)
| ArchiveMismatch (offered expected : list byte)
| DigestMismatch (subject : string) (computed pinned : list byte)
| SizeMismatch (subject : string) (actual pinned : N)
| MalformedManifest (reason : string)
| UnsafeArchive (reason : string)
| UnsafeDestination (reason : string)
| UnsupportedPlatform
| Io.

Definition ensure {E} (b : bool) (e : E) : result unit E := if b then Ok tt else Err e.

(** ** Paths: [std::path::Path] on Unix *)

Inductive Component := RootDir | CurDir | ParentDir | Normal (name : list byte).

Definition slash_byte : byte := ascii_of_nat 47.
Definition is_slash (c : byte) : bool := bool_decide (c = slash_byte).

(** A component behind the first one: nothing and a dot are skipped. *)
Definition component (piece : list byte) : option Component :=
  if bool_decide (piece = []) then None
  else if bool_decide (piece = Text.bytes ".") then None
  else if bool_decide (piece = Text.bytes "..") then Some ParentDir
  else Some (Normal piece).

Definition path_components (path : list byte) : list Component :=
  match split_on is_slash path with
  | [] => []
  | first :: rest =>
      (if starts_with [slash_byte] path then [RootDir]
       else if bool_decide (first = Text.bytes ".") then [CurDir] else option_list (component first)) ++
      omap component rest
  end.

Definition path_file_name (path : list byte) : option (list byte) :=
  match last (path_components path) with Some (Normal name) => Some name | _ => None end.

Definition is_normal (c : Component) : bool := match c with Normal _ => true | _ => false end.

(** ** Manifests *)

Section update.
Context {Version : Type} (parse_semver : list byte → option Version) (print_semver : Version → list byte).

Record ExecutableWire := mkExecutableWire {
  wire_path : list byte; wire_size : N; wire_sha256 : list byte }.

Record ManifestWire := mkManifestWire {
  wire_schema : N; wire_version : list byte; wire_target : list byte; wire_archive : list byte;
  wire_archive_size : N; wire_archive_sha256 : list byte; wire_executable : ExecutableWire }.

Record VerifiedManifest := mkVerifiedManifest {
  version : Version; target : list byte; archive : list byte; archive_size : N;
  archive_sha256 : list byte; executable_path : list byte; executable_size : N;
  executable_sha256 : list byte }.

(** JSON to the wire form; the key of a key file's text; a signature's text; and
    whether a signature is the key's over the data. *)
Context (manifest_json : list byte → option ManifestWire)
  {Key Signature : Type} (key_from_base64 : list byte → option Key)
  (signature_decode : list byte → option Signature) (key_verify : Key → list byte → Signature → bool)
  (sha256 : list byte → list byte).

(** [verify]. *)
Definition verify (data public_key signature : list byte) : result unit UpdateError :=
  let? key_text := ok_or (List.find (starts_with (Text.bytes "RW")) (trim <$> lines public_key)) BadSignature in
  let? key := ok_or (key_from_base64 key_text) BadSignature in
  let? sig := ok_or (signature_decode (trim signature)) BadSignature in
  ensure (key_verify key data sig) BadSignature.

Definition parse_version (raw : list byte) : result Version UpdateError :=
  ok_or (parse_semver (default raw (strip_prefix (Text.bytes "v") raw))) (BadVersion raw).

Definition is_target_byte (c : byte) : bool :=
  is_ascii_alphanumeric c || bool_decide (c ∈ Text.bytes "-_.").

Definition validate_filename (value : list byte) (field : string) : result unit UpdateError :=
  if bool_decide (value = []) || (255 <? N.of_nat (length value))%N
     || negb (bool_decide (path_file_name value = Some value))
     || negb (length (path_components value) =? 1)
  then Err (MalformedManifest field) else Ok tt.

Definition backslash_byte : byte := ascii_of_nat 92.

Definition validate_member_path (value : list byte) : result unit UpdateError :=
  if bool_decide (value = []) || (512 <? N.of_nat (length value))%N || bool_decide (backslash_byte ∈ value)
     || starts_with [slash_byte] value
  then Err (MalformedManifest "executable.path is not a relative portable path")
  else if existsb (λ c, negb (is_normal c)) (path_components value)
  then Err (MalformedManifest "executable.path contains traversal or a prefix")
  else Ok tt.

Definition is_lower_hex (c : byte) : bool := is_ascii_digit c || code_in 97 102 c.

Definition validate_digest (value : list byte) (field : string) : result unit UpdateError :=
  if negb (length value =? 64) || negb (forallb is_lower_hex value)
  then Err (MalformedManifest field) else Ok tt.

Definition parse_manifest (bytes : list byte) : result VerifiedManifest UpdateError :=
  let? wire := ok_or (manifest_json bytes) (MalformedManifest "json") in
  let? _ := ensure (wire_schema wire =? 1)%N (MalformedManifest "unsupported schema") in
  let? v := parse_version (wire_version wire) in
  let? _ := ensure (bool_decide (wire_version wire = print_semver v)) (MalformedManifest "version") in
  let? _ := validate_filename (wire_archive wire) "archive" in
  let exe := wire_executable wire in
  let? _ := validate_member_path (wire_path exe) in
  let? _ := validate_digest (wire_archive_sha256 wire) "archive_sha256" in
  let? _ := validate_digest (wire_sha256 exe) "executable.sha256" in
  let? _ := ensure (negb ((wire_archive_size wire =? 0)%N || (MAX_ARCHIVE_BYTES <? wire_archive_size wire)%N))
              (MalformedManifest "archive_size") in
  let? _ := ensure (negb ((wire_size exe =? 0)%N || (MAX_EXECUTABLE_BYTES <? wire_size exe)%N))
              (MalformedManifest "executable.size") in
  let? _ := ensure (negb (bool_decide (wire_target wire = []) || (128 <? N.of_nat (length (wire_target wire)))%N
                          || negb (forallb is_target_byte (wire_target wire))))
              (MalformedManifest "target") in
  Ok (mkVerifiedManifest v (wire_target wire) (wire_archive wire) (wire_archive_size wire)
        (wire_archive_sha256 wire) (wire_path exe) (wire_size exe) (wire_sha256 exe)).

(** ** Reading inputs *)

(** What one look at a file finds: [symlink_metadata] (whether it is a regular file,
    and its length), and the bytes reading it yields.  Looks at one path may differ. *)
Record look_at := mkLook { metadata : option (bool * N); contents : option (list byte) }.

Definition metadata_of (l : look_at) : result N UpdateError :=
  let? m := ok_or (metadata l) Io in
  let? _ := ensure m.1 (UnsafeDestination "not a regular file") in
  Ok m.2.

(** [file.take(n)]; the whole when it is no longer than that. *)
Definition take_bytes (n : N) (bytes : list byte) : list byte :=
  if (N.of_nat (length bytes) <=? n)%N then bytes else take (N.to_nat n) bytes.

Definition read_bounded (l : look_at) (limit : N) : result (list byte) UpdateError :=
  let? len := metadata_of l in
  let? _ := ensure (negb (limit <? len)%N) (SizeMismatch "input" len limit) in
  let? bytes := ok_or (contents l) Io in
  let bytes := take_bytes (limit + 1) bytes in
  let? _ := ensure (negb (limit <? N.of_nat (length bytes))%N)
              (SizeMismatch "input" (N.of_nat (length bytes)) limit) in
  Ok bytes.

Definition read_text_bounded (l : look_at) (limit : N) : result (list byte) UpdateError :=
  let? bytes := read_bounded l limit in
  let? _ := ensure (is_utf8 bytes) (MalformedManifest "not UTF-8") in
  Ok bytes.

Definition lower_hex (bytes : list byte) : list byte := to_hex bytes.
Definition digest_sha256 (data : list byte) : list byte := lower_hex (sha256 data).

Definition verify_file_binding (first second : look_at) (pinned_size : N) (pinned_digest : list byte)
    (limit : N) (subject : string) : result unit UpdateError :=
  let? len := metadata_of first in
  let? _ := ensure (len =? pinned_size)%N (SizeMismatch subject len pinned_size) in
  let? _ := ensure (negb (limit <? len)%N) (SizeMismatch subject len limit) in
  let? bytes := read_bounded second limit in
  let computed := digest_sha256 bytes in
  ensure (bool_decide (computed = pinned_digest)) (DigestMismatch subject computed pinned_digest).

(** ** Archives *)

(** What the archive reader yields for one member: its path ([None] if unreadable,
    [Some None] if it is not UTF-8), its header, and the results of the reads. *)
Record Entry := mkEntry {
  entry_path : option (option (list byte)); entry_is_file : bool; entry_size : N;
  reads : list (option (list byte)) }.

(** The members of an archive as they are read; [None] where reading fails. *)
Abbreviation Archive := (option (list (option Entry))).

Definition validate_archive_path (value : list byte) : result unit UpdateError :=
  if bool_decide (backslash_byte ∈ value) || starts_with [slash_byte] value
  then Err (UnsafeArchive "non-portable member path")
  else if existsb (λ c, negb (is_normal c)) (path_components value)
  then Err (UnsafeArchive "traversal or prefixed member path")
  else Ok tt.

(** [u64::saturating_add]. *)
Definition sat_add (a b : N) : N := N.min (a + b) 18446744073709551615.

(** The reading loop: the bytes that went to the hasher and the output, and how it
    ended.  A read of no bytes, or the end of the list, is the end of the member. *)
Fixpoint copy (limit : N) (copied : N) (data : list byte) (rs : list (option (list byte))) :
    list byte * result N UpdateError :=
  match rs with
  | [] => (data, Ok copied)
  | None :: _ => (data, Err Io)
  | Some [] :: _ => (data, Ok copied)
  | Some chunk :: rs =>
      let copied := sat_add copied (N.of_nat (length chunk)) in
      if (limit <? copied)%N || (MAX_EXECUTABLE_BYTES <? copied)%N
      then (data, Err (UnsafeArchive "executable exceeds its signed size"))
      else copy limit copied (data ++ chunk) rs
  end.

(** The checks on a member in front of its bytes. *)
Definition admit_entry (m : VerifiedManifest) (index : nat) (item : option Entry) (seen : list (list byte))
    (found : bool) : result (Entry * list byte) UpdateError :=
  let? _ := ensure (negb (MAX_ARCHIVE_ENTRIES <=? index)) (UnsafeArchive "too many entries") in
  let? entry := ok_or item Io in
  let? path := ok_or (entry_path entry) Io in
  let? text := ok_or path (UnsafeArchive "member path is not UTF-8") in
  let? _ := validate_archive_path text in
  let? _ := ensure (negb (bool_decide (text ∈ seen))) (UnsafeArchive "duplicate member") in
  let? _ := ensure (entry_is_file entry) (UnsafeArchive "non-regular member") in
  let? _ := ensure (bool_decide (text = executable_path m)) (UnsafeArchive "unsigned extra member") in
  let? _ := ensure (negb found) (UnsafeArchive "executable appears more than once") in
  let? _ := ensure (entry_size entry =? executable_size m)%N
              (SizeMismatch "executable" (entry_size entry) (executable_size m)) in
  Ok (entry, text).

(** The loop over the members: the bytes written out, and whether the executable was
    found. *)
Fixpoint inspect_from (m : VerifiedManifest) (index : nat) (items : list (option Entry))
    (seen : list (list byte)) (found : bool) (out : list byte) : list byte * result bool UpdateError :=
  match items with
  | [] => (out, Ok found)
  | item :: items =>
      match admit_entry m index item seen found with
      | Err e => (out, Err e)
      | Ok (entry, text) =>
          match copy (executable_size m) 0 [] (reads entry) with
          | (data, Err e) => (out ++ data, Err e)
          | (data, Ok copied) =>
              if negb (copied =? executable_size m)%N
              then (out ++ data, Err (SizeMismatch "executable" copied (executable_size m)))
              else if negb (bool_decide (digest_sha256 data = executable_sha256 m))
              then (out ++ data, Err (DigestMismatch "executable" (digest_sha256 data) (executable_sha256 m)))
              else inspect_from m (S index) items (text :: seen) true (out ++ data)
          end
      end
  end.

Definition inspect_archive (a : Archive) (m : VerifiedManifest) : list byte * result unit UpdateError :=
  match a with
  | None => ([], Err Io)
  | Some items =>
      let '(out, r) := inspect_from m 0 items [] false [] in
      (out, let? found := r in ensure found (UnsafeArchive "signed executable member is absent"))
  end.

(** ** Checking *)

Record LocalUpdate := mkLocalUpdate {
  u_manifest : look_at; u_signature : look_at; u_public_key : look_at;
  archive_name : option (list byte);      (** the file name of the archive's path, if it is text *)
  archive_first : look_at; archive_second : look_at; archive_third : Archive;
  expected_target : list byte }.

Definition regular_filename (name : option (list byte)) : result (list byte) UpdateError :=
  ok_or name (MalformedManifest "archive path has no UTF-8 filename").

Definition check_local (u : LocalUpdate) : result VerifiedManifest UpdateError :=
  let? manifest_bytes := read_bounded (u_manifest u) (64 * 1024) in
  let? signature := read_text_bounded (u_signature u) (64 * 1024) in
  let? public_key := read_text_bounded (u_public_key u) (16 * 1024) in
  let? _ := verify manifest_bytes public_key signature in
  let? m := parse_manifest manifest_bytes in
  let? _ := ensure (bool_decide (target m = expected_target u)) (TargetMismatch (target m) (expected_target u)) in
  let? actual := regular_filename (archive_name u) in
  let? _ := ensure (bool_decide (archive m = actual)) (ArchiveMismatch (archive m) actual) in
  let? _ := verify_file_binding (archive_first u) (archive_second u) (archive_size m) (archive_sha256 m)
              MAX_ARCHIVE_BYTES "archive" in
  let? _ := (inspect_archive (archive_third u) m).2 in
  Ok m.

(** ** Applying *)

(** What the system answers while an update is installed, and what other processes do
    to the file system while the member is staged. *)
Record apply_io := mkApplyIo {
  parent_is_dir : option bool;
  lock_opened : bool;
  locked : bool;
  identity_readable : nat → bool;
  pid : nat;
  staging_opened : bool;
  archive_now : Archive;
  write_failed : option nat;
  permissions_set : bool;
  synced : bool;
  interference : Fs.t → Fs.t;
  rename_refused : bool;
  directory_synced : bool;
  removable : bool }.

Definition update_lock_path (parent name : string) : string :=
  join parent ("." +:+ name +:+ ".update.lock").

Definition staging_path (parent name : string) (pid nonce : nat) : string :=
  join parent ("." +:+ name +:+ ".update." +:+ pretty pid +:+ "." +:+ pretty nonce).

(** [create_staging_path]: the first of 128 names nothing has. *)
Definition create_staging_path (parent name : string) (pid : nat) (fs : Fs.t) : result string UpdateError :=
  ok_or (List.find (λ p, bool_decide (Fs.names fs !! p = None)) (staging_path parent name pid <$> seq 0 128))
    (UnsafeDestination "could not allocate a same-directory staging name").

(** [destination_identity]: the inode, if it is a regular file. *)
Definition destination_identity (readable : bool) (path : string) (fs : Fs.t) : result (option N) UpdateError :=
  if negb readable then Err Io
  else match Fs.names fs !! path with
  | None => Ok None
  | Some i =>
      match Fs.inodes fs !! i with
      | Some f => if Fs.regular f then Ok (Some i) else Err (UnsafeDestination "not a regular file")
      | None => Ok None
      end
  end.

(** The handle writes what the inspection passes to it, up to a failing byte. *)
Definition inspect_into (i : N) (io : apply_io) (m : VerifiedManifest) : M UpdateError unit :=
  let '(out, r) := inspect_archive (archive_now io) m in
  let failing := match write_failed io with
                 | Some n => if n <? length out then Some n else None
                 | None => None
                 end in
  let! _ := write_all i out failing Io in
  lift r.

Definition apply_verified (io : apply_io) (m : VerifiedManifest) (install_path : string) : M UpdateError unit :=
  let! parent := lift (match parent install_path with
                       | Some p => if bool_decide (p = "") then Err (UnsafeDestination "no parent") else Ok p
                       | None => Err (UnsafeDestination "no parent")
                       end) in
  let! is_dir := lift (ok_or (parent_is_dir io) Io) in
  let! _ := lift (ensure is_dir (UnsafeDestination "not a directory")) in
  let! name := lift (ok_or (file_name install_path) (UnsafeDestination "no filename")) in
  let lock_path := update_lock_path parent name in
  let! _ := lift (ensure (lock_opened io) Io) in
  let! _ := act (λ fs, match Fs.create_new lock_path fs with Some (_, fs') => fs' | None => fs end) in
  let! _ := lift (ensure (locked io) Io) in
  let! before := look (destination_identity (identity_readable io 0) install_path) in
  let! before := lift before in
  let! staged_path := look (create_staging_path parent name (pid io)) in
  let! staged_path := lift staged_path in
  let! _ := lift (ensure (staging_opened io) Io) in
  let! staged := look Fs.next in
  let! _ := act (λ fs, match Fs.create_new staged_path fs with Some (_, fs') => fs' | None => fs end) in
  on_error
    (let! _ := inspect_into staged io m in
     let! _ := lift (ensure (permissions_set io) Io) in
     let! _ := lift (ensure (synced io) Io) in
     let! _ := act (interference io) in
     let! after := look (destination_identity (identity_readable io 1) install_path) in
     let! after := lift after in
     let! _ := lift (ensure (bool_decide (before = after))
                       (UnsafeDestination "destination identity changed while locked")) in
     let! _ := rename staged_path install_path (rename_refused io) Io in
     lift (ensure (directory_synced io) Io))
    (λ fs, if removable io then Fs.remove staged_path fs else fs).

Record ApplyOutcome := mkApplyOutcome { applied_version : Version; install_path : string }.

Definition apply_local (u : LocalUpdate) (io : apply_io) (path : string) : M UpdateError ApplyOutcome :=
  let! m := lift (check_local u) in
  let! _ := apply_verified io m path in
  ret (mkApplyOutcome (version m) path).

(** ** What an archive must hold *)

(** The bytes a member's reads yield, up to its end. *)
Fixpoint read_data (rs : list (option (list byte))) : option (list byte) :=
  match rs with
  | [] => Some []
  | None :: _ => None
  | Some [] :: _ => Some []
  | Some chunk :: rs => app chunk <$> read_data rs
  end.

(** The executable is the archive's only member, a regular file of the signed size
    whose bytes have the signed digest. *)
Definition bundles (a : Archive) (m : VerifiedManifest) (bytes : list byte) : Prop :=
  ∃ entry, a = Some [Some entry] ∧ entry_path entry = Some (Some (executable_path m)) ∧
    entry_is_file entry = true ∧ entry_size entry = executable_size m ∧
    read_data (reads entry) = Some bytes ∧
    N.of_nat (length bytes) = executable_size m ∧ digest_sha256 bytes = executable_sha256 m.

Definition well_formed (m : VerifiedManifest) : Prop :=
  (0 < archive_size m ≤ MAX_ARCHIVE_BYTES)%N ∧ (0 < executable_size m ≤ MAX_EXECUTABLE_BYTES)%N ∧
  length (archive_sha256 m) = 64 ∧ length (executable_sha256 m) = 64 ∧
  path_file_name (archive m) = Some (archive m) ∧
  executable_path m ≠ [] ∧ (backslash_byte ∉ executable_path m) ∧
  starts_with [slash_byte] (executable_path m) = false ∧
  Forall (λ c, is_normal c = true) (path_components (executable_path m)).

Lemma ensure_Ok {E} b (e : E) u : ensure b e = Ok u ↔ b = true.
Proof. destruct u, b; done. Qed.

Lemma validate_member_path_Ok value u :
  validate_member_path value = Ok u →
  value ≠ [] ∧ (backslash_byte ∉ value) ∧ starts_with [slash_byte] value = false ∧
  Forall (λ c, is_normal c = true) (path_components value).
Proof.
  unfold validate_member_path.
  destruct (_ || starts_with _ _) eqn:E1; [done|]. destruct (existsb _ _) eqn:E2; [done|]. intros _.
  repeat (apply orb_false_iff in E1 as [E1 ?]). to_prop. split_and!; try done.
  apply Forall_forall. intros c Hc. apply not_false_iff_true. intros Hn.
  apply not_true_iff_false in E2. apply E2, existsb_exists. exists c.
  split; [by apply base.list_elem_of_In|by rewrite Hn].
Qed.

Lemma validate_archive_path_member value :
  backslash_byte ∉ value → starts_with [slash_byte] value = false →
  Forall (λ c, is_normal c = true) (path_components value) → validate_archive_path value = Ok tt.
Proof.
  intros H1 H2 H3. unfold validate_archive_path. rewrite bool_decide_eq_false_2, H2 by done. cbn.
  destruct (existsb _ _) eqn:E; [|done]. apply existsb_exists in E as (c & Hc & Hn).
  rewrite Forall_forall in H3. apply base.list_elem_of_In in Hc. by rewrite (H3 c Hc) in Hn.
Qed.

Lemma parse_manifest_well_formed bytes m : parse_manifest bytes = Ok m → well_formed m.
Proof.
  unfold parse_manifest. intros H.
  repeat (apply result_bind_Ok in H as (? & ? & H)). injection H as <-.
  repeat match goal with
  | E : ensure _ _ = Ok _ |- _ => apply ensure_Ok in E
  | E : validate_member_path _ = Ok _ |- _ => apply validate_member_path_Ok in E as (? & ? & ? & ?)
  end.
  unfold well_formed. cbn. unfold validate_digest, validate_filename in *. guards; to_prop.
  all: repeat match goal with
  | E : (_ <? _)%N = false |- _ => apply N.ltb_ge in E
  | E : (_ =? _)%N = false |- _ => apply N.eqb_neq in E
  end; split_and!; try done; lia.
Qed.

(** ** Inspection *)

Lemma copy_Ok limit copied data rs out n :
  (limit ≤ MAX_EXECUTABLE_BYTES)%N → (copied ≤ limit)%N →
  copy limit copied data rs = (out, Ok n) ↔
  ∃ d, read_data rs = Some d ∧ out = data ++ d ∧ n = (copied + N.of_nat (length d))%N ∧ (n ≤ limit)%N.
Proof.
  intros Hl. revert copied data. induction rs as [|[[|c chunk]|] rs IH]; intros copied data Hc; cbn [copy read_data].
  - split; [intros [= <- <-]|intros (d & [= <-] & -> & -> & _)].
    + exists []. rewrite app_nil_r. split_and!; [done..|cbn; lia|done].
    + rewrite app_nil_r. cbn. by rewrite N.add_0_r.
  - split; [intros [= <- <-]|intros (d & [= <-] & -> & -> & _)].
    + exists []. rewrite app_nil_r. split_and!; [done..|cbn; lia|done].
    + rewrite app_nil_r. cbn. by rewrite N.add_0_r.
  - set (k := c :: chunk). assert (Hs : ∀ x, (x ≤ MAX_EXECUTABLE_BYTES)%N → x ≠ 18446744073709551615%N)
      by (unfold MAX_EXECUTABLE_BYTES; lia).
    destruct ((limit <? sat_add copied (N.of_nat (length k)))%N ||
              (MAX_EXECUTABLE_BYTES <? sat_add copied (N.of_nat (length k)))%N) eqn:E.
    + split; [done|]. intros (d & (d' & Hd & ->)%fmap_Some & _ & -> & Hle). exfalso.
      rewrite length_app in Hle. unfold sat_add in E. apply orb_true_iff in E as [E|E]; apply N.ltb_lt in E; lia.
    + apply orb_false_iff in E as [E1 E2]. apply N.ltb_ge in E1, E2.
      assert (Hadd : sat_add copied (N.of_nat (length k)) = (copied + N.of_nat (length k))%N).
      { specialize (Hs _ E2). unfold sat_add in *. lia. }
      rewrite Hadd in *. rewrite IH by done. split.
      * intros (d & Hd & -> & -> & Hle). exists (k ++ d). rewrite Hd, length_app.
        split_and!; [done|by rewrite (assoc_L (++))|lia|lia].
      * intros (d & (d' & Hd & ->)%fmap_Some & -> & -> & Hle). exists d'. rewrite length_app in *.
        split_and!; [done|by rewrite (assoc_L (++))|lia|lia].
  - split; [done|]. by intros (d & ? & _).
Qed.

Lemma admit_entry_Ok m index item seen found entry text :
  admit_entry m index item seen found = Ok (entry, text) →
  item = Some entry ∧ entry_path entry = Some (Some text) ∧ entry_is_file entry = true ∧
  text = executable_path m ∧ found = false ∧ entry_size entry = executable_size m.
Proof.
  unfold admit_entry. intros H. repeat (apply result_bind_Ok in H as (? & ? & H)). injection H as <- <-.
  repeat match goal with
  | E : ensure _ _ = Ok _ |- _ => apply ensure_Ok in E
  | E : ok_or _ _ = Ok _ |- _ => apply ok_or_Ok in E
  end. to_prop. simplify_eq.
  repeat match goal with E : (_ =? _)%N = true |- _ => apply N.eqb_eq in E end.
  split_and!; congruence.
Qed.

Lemma inspect_exact a m out :
  well_formed m → inspect_archive a m = (out, Ok tt) ↔ bundles a m out.
Proof.
  intros (_ & [_ Hmax] & _ & _ & _ & _ & Hb & Hs & Hn). split.
  - destruct a as [[|item rest]|]; [done| |done]. cbn [inspect_archive inspect_from].
    destruct (admit_entry m 0 item [] false) as [[entry text]|] eqn:Ea; [|done].
    apply admit_entry_Ok in Ea as (-> & Hpath & Hfile & -> & _ & Hsize).
    destruct (copy (executable_size m) 0 [] (reads entry)) as [data [n|]] eqn:Ec; [|done].
    apply copy_Ok in Ec as (d & Hd & -> & -> & Hle); [|done|lia]. cbn [app].
    destruct (negb _) eqn:En; [done|]. apply negb_false_iff, N.eqb_eq in En.
    destruct (negb (bool_decide _)) eqn:Eh; [done|]. apply negb_false_iff in Eh. to_prop.
    destruct rest as [|item2 rest]; cbn [inspect_from].
    + intros [= <-]. exists entry. split_and!; try done; lia.
    + destruct (admit_entry m 1 item2 _ true) as [[e2 t2]|] eqn:Ea2; [|done].
      by apply admit_entry_Ok in Ea2 as (_ & _ & _ & _ & ? & _).
  - intros (entry & -> & Hpath & Hfile & Hsize & Hd & Hlen & Hh). cbn [inspect_archive inspect_from].
    assert (Ea : admit_entry m 0 (Some entry) [] false = Ok (entry, executable_path m)).
    { unfold admit_entry. cbn [result_bind ok_or ensure negb]. change (ensure _ _) with (@Ok unit UpdateError tt) at 1.
      cbn [result_bind]. rewrite Hpath. cbn [result_bind ok_or].
      rewrite validate_archive_path_member by done. cbn [result_bind].
      rewrite (bool_decide_eq_false_2 (_ ∈ [])) by apply not_elem_of_nil.
      by rewrite Hfile, bool_decide_eq_true_2, Hsize, N.eqb_refl by done. }
    rewrite Ea.
    assert (Ec : copy (executable_size m) 0 [] (reads entry) = (out, Ok (executable_size m))).
    { apply copy_Ok; [done|lia|]. exists out. split_and!; [done..|lia|lia]. }
    rewrite Ec, N.eqb_refl, Hh, bool_decide_eq_true_2 by done. cbn. done.
Qed.

(** ** Checking *)

(** A look that finds a regular file of at most so many bytes. *)
Definition readable (l : look_at) (limit : N) (bytes : list byte) : Prop :=
  (∃ len, metadata l = Some (true, len) ∧ (len ≤ limit)%N) ∧
  contents l = Some bytes ∧ (N.of_nat (length bytes) ≤ limit)%N.

Lemma metadata_of_Ok l len : metadata_of l = Ok len ↔ metadata l = Some (true, len).
Proof.
  unfold metadata_of. destruct (metadata l) as [[[] n]|]; cbn; naive_solver.
Qed.

Lemma read_bounded_Ok l limit bytes : read_bounded l limit = Ok bytes ↔ readable l limit bytes.
Proof.
  unfold read_bounded, readable. split.
  - intros H. apply result_bind_Ok in H as (len & Hm%metadata_of_Ok & H).
    apply result_bind_Ok in H as (? & Hle%ensure_Ok & H). apply result_bind_Ok in H as (b & Hb%ok_or_Ok & H).
    apply result_bind_Ok in H as (? & Hlen%ensure_Ok & [= <-]).
    apply negb_true_iff, N.ltb_ge in Hle, Hlen. unfold take_bytes in *.
    destruct (N.of_nat (length b) <=? limit + 1)%N eqn:E.
    + split_and!; [by exists len|done|lia].
    + apply N.leb_gt in E. rewrite length_take in Hlen. lia.
  - intros ((len & Hm & Hle) & Hb & Hlen). rewrite (proj2 (metadata_of_Ok l len)) by done. cbn.
    rewrite (proj2 (N.ltb_ge _ _)) by done. cbn. rewrite Hb. cbn [ok_or result_bind].
    unfold take_bytes. rewrite (proj2 (N.leb_le _ _)) by lia.
    by rewrite (proj2 (N.ltb_ge _ _)) by lia.
Qed.

Lemma read_text_Ok l limit bytes :
  read_text_bounded l limit = Ok bytes ↔ readable l limit bytes ∧ is_utf8 bytes = true.
Proof.
  unfold read_text_bounded. rewrite result_bind_Ok. setoid_rewrite read_bounded_Ok.
  split.
  - intros (b & Hr & H). apply result_bind_Ok in H as (? & Hu%ensure_Ok & [= ->]). done.
  - intros [Hr Hu]. exists bytes. split; [done|]. by rewrite Hu.
Qed.

(** What a manifest is trusted for: its bytes carry the key's signature. *)
Definition signed (u : LocalUpdate) (m : VerifiedManifest) : Prop :=
  ∃ data key_text sig_text, readable (u_manifest u) (64 * 1024) data ∧
    readable (u_public_key u) (16 * 1024) key_text ∧ is_utf8 key_text = true ∧
    readable (u_signature u) (64 * 1024) sig_text ∧ is_utf8 sig_text = true ∧
    verify data key_text sig_text = Ok tt ∧ parse_manifest data = Ok m.

(** An update is accepted exactly when it is what was signed: the three inputs are
    regular files within their bounds, the signature is the key's over the manifest's
    bytes, the manifest is well formed and for this target, and the archive has the
    signed name, length and digest and holds the executable alone, a regular file of
    the signed length and digest. *)
Theorem check_local_exact u m :
  check_local u = Ok m ↔
  signed u m ∧ target m = expected_target u ∧ archive_name u = Some (archive m) ∧
  metadata (archive_first u) = Some (true, archive_size m) ∧
  (∃ bytes, readable (archive_second u) MAX_ARCHIVE_BYTES bytes ∧ digest_sha256 bytes = archive_sha256 m) ∧
  ∃ exe, bundles (archive_third u) m exe.
Proof.
  unfold check_local, regular_filename, verify_file_binding. split.
  - intros H. apply result_bind_Ok in H as (data & Hd%read_bounded_Ok & H).
    apply result_bind_Ok in H as (sig & [Hs Hsu]%read_text_Ok & H).
    apply result_bind_Ok in H as (key & [Hk Hku]%read_text_Ok & H).
    apply result_bind_Ok in H as ([] & Hv & H). apply result_bind_Ok in H as (m' & Hm & H).
    apply result_bind_Ok in H as (? & Ht%ensure_Ok & H). apply result_bind_Ok in H as (name & Hn%ok_or_Ok & H).
    apply result_bind_Ok in H as (? & Ha%ensure_Ok & H). apply result_bind_Ok in H as ([] & Hb & H).
    apply result_bind_Ok in H as ([] & Hi & [= ->]). to_prop. subst.
    pose proof (parse_manifest_well_formed _ _ Hm) as Hwf.
    apply result_bind_Ok in Hb as (len & Hlen%metadata_of_Ok & Hb).
    apply result_bind_Ok in Hb as (? & He%ensure_Ok & Hb). apply N.eqb_eq in He as ->.
    apply result_bind_Ok in Hb as (? & _ & Hb). apply result_bind_Ok in Hb as (bytes & Hr%read_bounded_Ok & Hb).
    apply ensure_Ok in Hb. to_prop.
    split_and!; [by exists data, key, sig|done..|by exists bytes|].
    destruct (inspect_archive (archive_third u) m) as [exe r] eqn:Ei. cbn in Hi. subst r.
    exists exe. by apply inspect_exact.
  - intros ((data & key & sig & Hd & Hk & Hku & Hs & Hsu & Hv & Hm) & Ht & Hn & Hlen & (bytes & Hr & Hh) & exe & Hb).
    pose proof (parse_manifest_well_formed _ _ Hm) as Hwf. pose proof Hwf as ([_ Hmax] & _).
    rewrite (proj2 (read_bounded_Ok _ _ _) Hd). cbn [result_bind].
    rewrite (proj2 (read_text_Ok _ _ _) (conj Hs Hsu)). cbn [result_bind].
    rewrite (proj2 (read_text_Ok _ _ _) (conj Hk Hku)). cbn [result_bind].
    rewrite Hv. cbn [result_bind]. rewrite Hm. cbn [result_bind].
    rewrite bool_decide_eq_true_2 by done. cbn [result_bind ensure]. rewrite Hn. cbn [result_bind ok_or].
    rewrite bool_decide_eq_true_2 by done. cbn [result_bind ensure].
    rewrite (proj2 (metadata_of_Ok _ _) Hlen). cbn [result_bind]. rewrite N.eqb_refl. cbn [result_bind ensure].
    rewrite (proj2 (N.ltb_ge _ _)) by done. cbn [result_bind ensure negb].
    rewrite (proj2 (read_bounded_Ok _ _ _) Hr). cbn [result_bind].
    rewrite Hh, bool_decide_eq_true_2 by done. cbn [result_bind ensure].
    by rewrite (proj2 (inspect_exact _ _ exe Hwf) Hb).
Qed.

(** ** Installing *)

(** What a release has under the manifest: the signed length and digest. *)
Definition released (m : VerifiedManifest) (bytes : list byte) : Prop :=
  N.of_nat (length bytes) = executable_size m ∧ digest_sha256 bytes = executable_sha256 m.

Lemma read_renamed old new fs fs' :
  Fs.rename old new fs = Some fs' → Fs.read_name new fs' = Fs.read_name old fs.
Proof.
  unfold Fs.rename, Fs.read_name. destruct (Fs.names fs !! old) as [i|] eqn:E; [|done].
  intros [= <-]. cbn. by rewrite lookup_insert_eq.
Qed.

Lemma names_renamed old new other fs fs' :
  Fs.rename old new fs = Some fs' → other ≠ new → other ≠ old → Fs.names fs' !! other = Fs.names fs !! other.
Proof.
  unfold Fs.rename. destruct (Fs.names fs !! old) as [i|] eqn:E; [|done]. intros [= <-] Hn Ho. cbn.
  by rewrite lookup_insert_ne, lookup_delete_ne by done.
Qed.

Section install.
Context (io : apply_io) (m : VerifiedManifest) (path dir name : string).
Hypothesis Hwf : well_formed m.
Hypothesis Hparent : parent path = Some dir.
Hypothesis Hname : file_name path = Some name.

Local Abbreviation staging := (staging_path dir name (pid io)).

(** Other processes leave the names of this process's staged files alone. *)
Hypothesis leaves_staging : ∀ fs n,
  Fs.names (interference io fs) !! staging n = Fs.names fs !! staging n ∧
  Fs.read_name (staging n) (interference io fs) = Fs.read_name (staging n) fs.

(** The destination has what it had, what another process put there, or a release. *)
Definition undisturbed (fs fs' : Fs.t) : Prop :=
  Fs.read_name path fs' = Fs.read_name path fs ∨
  (∃ mid, Fs.read_name path mid = Fs.read_name path fs ∧
    Fs.read_name path fs' = Fs.read_name path (interference io mid)) ∨
  ∃ bytes, Fs.read_name path fs' = Some bytes ∧ released m bytes.

(** No staged file is left behind. *)
Definition tidy (fs fs' : Fs.t) : Prop :=
  ∀ n, Fs.names fs' !! staging n = Fs.names fs !! staging n.

Lemma beside_longer other :
  String.length name + 1 < String.length other → join dir other ≠ path.
Proof.
  intros Ho E. pose proof (path_length path) as Hl. rewrite Hparent, Hname in Hl. cbn in Hl.
  pose proof (join_length dir other) as Hj. rewrite E in Hj. lia.
Qed.

Lemma staging_not_path n : staging n ≠ path.
Proof. apply beside_longer. rewrite !string_length_app. cbn. lia. Qed.

Lemma update_lock_other : update_lock_path dir name ≠ path.
Proof. apply beside_longer. rewrite !string_length_app. cbn. lia. Qed.

Lemma lock_not_staging n : update_lock_path dir name ≠ staging n.
Proof.
  assert (Hjoin : ∀ s, ∃ l, Text.bytes (join dir s) = l ++ Text.bytes s).
  { intros s. unfold join. case_bool_decide; rewrite !bytes_app; eexists; [done|].
    by rewrite (assoc_L (++)). }
  unfold update_lock_path, staging_path. intros E. apply (f_equal Text.bytes) in E.
  destruct (Hjoin ("." +:+ name +:+ ".update.lock")) as (l1 & H1).
  destruct (Hjoin ("." +:+ name +:+ ".update." +:+ pretty (pid io) +:+ "." +:+ pretty n)) as (l2 & H2).
  rewrite H1, H2, !bytes_app in E. change (Text.bytes ".update.lock") with (Text.bytes ".update.loc" ++ ["k"%char]) in E.
  destruct (dec_digits (N.of_nat n)) as (Hne & Hd & _).
  change (Text.bytes (pretty n)) with (dec (N.of_nat n)) in E.
  destruct (dec (N.of_nat n)) as [|c ds _] eqn:Ed using rev_ind; [done|].
  rewrite !(assoc_L (++)) in E. apply app_inj_2 in E as [_ [= <-]]; [|done].
  apply Forall_app in Hd as [_ Hd]. by inversion Hd.
Qed.

Lemma undisturbed_mid fs fs1 fs' :
  Fs.read_name path fs1 = Fs.read_name path fs → undisturbed fs1 fs' → undisturbed fs fs'.
Proof.
  intros E [H|[(mid & H1 & H2)|H]]; [left|right; left|by right; right].
  - by rewrite H.
  - exists mid. by rewrite H1.
Qed.

(** From the staged file on. *)
Section staged.
Context (fs : Fs.t) (nonce : nat).
Hypothesis Hfree : Fs.names fs !! staging nonce = None.

Lemma staged_reads fs' : unpublished (staging nonce) fs fs' → Fs.read_name path fs' = Fs.read_name path fs.
Proof.
  intros H. apply (unpublished_reads _ path) in H as [H _]; [done..|]. apply staging_not_path.
Qed.

Lemma staged_tidy fs' bs : fs' = with_file (staging nonce) bs fs → tidy fs (Fs.remove (staging nonce) fs').
Proof.
  intros -> n. rewrite remove_with_file by done. done.
Qed.

Definition cleaned (fs' : Fs.t) : Fs.t := if removable io then Fs.remove (staging nonce) fs' else fs'.

(** How an installation that did not return success leaves the file system. *)
Definition abandoned (fs' : Fs.t) : Prop :=
  undisturbed fs fs' ∧ (removable io = true → tidy fs fs').

Lemma cleaned_staged bs : abandoned (cleaned (with_file (staging nonce) bs fs)).
Proof.
  unfold abandoned, cleaned. destruct (removable io); (split; [left|]).
  - apply staged_reads. rewrite remove_with_file by done. exists bs. by right.
  - intros _. by eapply staged_tidy.
  - apply staged_reads. exists bs. by left.
  - done.
Qed.

Lemma runs_inspect_into :
  runs (undisturbed fs) (inspect_into (Fs.next fs) io m) (with_file (staging nonce) [] fs)
    (λ _ fs', ∃ bytes, bundles (archive_now io) m bytes ∧ fs' = with_file (staging nonce) bytes fs)
    (λ _ fs', abandoned (cleaned fs')).
Proof.
  unfold inspect_into. destruct (inspect_archive (archive_now io) m) as [out r] eqn:Ei.
  apply runs_bind, (runs_write_all (staging nonce) out (undisturbed fs)).
  - intros fs' H. left. by apply staged_reads.
  - apply runs_lift; [|intros; apply cleaned_staged].
    intros [] ->. apply inspect_exact in Ei; [|done]. eauto.
  - intros bs. apply cleaned_staged.
Qed.

(** The state other processes made of the staged one. *)
Lemma interfered bytes :
  let fs' := interference io (with_file (staging nonce) bytes fs) in
  undisturbed fs fs' ∧ Fs.read_name (staging nonce) fs' = Some bytes ∧
  (∀ n, n ≠ nonce → staging n ≠ staging nonce → Fs.names fs' !! staging n = Fs.names fs !! staging n).
Proof.
  cbn. destruct (leaves_staging (with_file (staging nonce) bytes fs) nonce) as [Hn Hr]. split_and!.
  - right; left. exists (with_file (staging nonce) bytes fs). split; [|done].
    apply staged_reads. exists bytes. by left.
  - rewrite Hr. apply read_with_file.
  - intros n _ Hne. rewrite (proj1 (leaves_staging _ n)). cbn. by rewrite lookup_insert_ne.
Qed.

Lemma removed_tidy fs' :
  (∀ n, staging n ≠ staging nonce → Fs.names fs' !! staging n = Fs.names fs !! staging n) →
  tidy fs (Fs.remove (staging nonce) fs').
Proof.
  intros H n. cbn. destruct (decide (staging n = staging nonce)) as [->|Hne].
  - by rewrite lookup_delete_eq.
  - rewrite lookup_delete_ne by done. by apply H.
Qed.

Lemma cleaned_interfered bytes :
  abandoned (cleaned (interference io (with_file (staging nonce) bytes fs))).
Proof.
  destruct (interfered bytes) as (Hu & _ & Ht). unfold abandoned, cleaned. destruct (removable io).
  - split; [|intros _; apply removed_tidy; intros n Hne; apply Ht; [by intros ->|done]].
    assert (E : Fs.read_name path (Fs.remove (staging nonce) (interference io (with_file (staging nonce) bytes fs))) =
      Fs.read_name path (interference io (with_file (staging nonce) bytes fs))).
    { unfold Fs.read_name. cbn. rewrite lookup_delete_ne; [done|apply staging_not_path]. }
    destruct Hu as [H|[(mid & H1 & H2)|(b & H1 & H2)]]; [left|right; left|right; right]; rewrite E; eauto.
  - done.
Qed.

Lemma runs_publish bytes :
  released m bytes →
  runs (undisturbed fs)
    (let! _ := rename (staging nonce) path (rename_refused io) Io in lift (ensure (directory_synced io) Io))
    (interference io (with_file (staging nonce) bytes fs))
    (λ _ fs', Fs.read_name path fs' = Some bytes ∧ tidy fs fs') (λ _ fs', abandoned (cleaned fs')).
Proof.
  intros Hrel. destruct (interfered bytes) as (Hu & Hr & Ht).
  pose proof (cleaned_interfered bytes) as Hc. revert Hu Hr Ht Hc.
  generalize (interference io (with_file (staging nonce) bytes fs)). intros fs1 Hu Hr Ht Hc.
  apply runs_bind. unfold runs, states, outcome, after, rename.
  destruct (rename_refused io); [by split; [constructor|]|].
  destruct (Fs.rename (staging nonce) path fs1) as [fs2|] eqn:Er; [|by split; [constructor|]]. cbn.
  assert (Hread : Fs.read_name path fs2 = Some bytes) by by rewrite (read_renamed _ _ _ _ Er).
  assert (Hpub : undisturbed fs fs2) by (right; right; eauto).
  assert (Htidy : tidy fs fs2).
  { intros n. destruct (decide (staging n = staging nonce)) as [->|Hne].
    - rewrite Hfree. unfold Fs.rename in Er. destruct (Fs.names fs1 !! staging nonce); [|done].
      injection Er as <-. cbn. rewrite lookup_insert_ne by (apply not_eq_sym, staging_not_path).
      by rewrite lookup_delete_eq.
    - rewrite (names_renamed _ _ _ _ _ Er); [|apply staging_not_path|done].
      apply Ht; [by intros ->|done]. }
  assert (Hab : abandoned (cleaned fs2)).
  { unfold abandoned, cleaned. destruct (removable io); [|by split].
    rewrite remove_absent by (rewrite Htidy; done). by split. }
  split; [by constructor|]. split; [constructor|]. by destruct (ensure _ _).
Qed.
End staged.

(** The whole, from a free staging name. *)
Definition installed (fs fs' : Fs.t) : Prop :=
  (∃ bytes, bundles (archive_now io) m bytes ∧ Fs.read_name path fs' = Some bytes) ∧ tidy fs fs'.

Definition failed (fs fs' : Fs.t) : Prop :=
  undisturbed fs fs' ∧ (removable io = true → tidy fs fs').

Lemma runs_staged fs nonce before :
  Fs.names fs !! staging nonce = None →
  runs (undisturbed fs)
    (on_error
      (let! _ := inspect_into (Fs.next fs) io m in
       let! _ := lift (ensure (permissions_set io) Io) in
       let! _ := lift (ensure (synced io) Io) in
       let! _ := act (interference io) in
       let! after := look (destination_identity (identity_readable io 1) path) in
       let! after := lift after in
       let! _ := lift (ensure (bool_decide (before = after))
                         (UnsafeDestination "destination identity changed while locked")) in
       let! _ := rename (staging nonce) path (rename_refused io) Io in
       lift (ensure (directory_synced io) Io))
      (λ fs, if removable io then Fs.remove (staging nonce) fs else fs))
    (with_file (staging nonce) [] fs) (λ _ fs', installed fs fs') (λ _ fs', failed fs fs').
Proof.
  intros Hfree. apply runs_on_error.
  eapply (runs_mono _ (undisturbed fs) _ _ (λ _ fs', installed fs fs') _ (λ _ fs', abandoned fs (cleaned nonce fs')));
    [|done|done|by intros e fs' [H1 H2]; repeat split].
  apply runs_bind. eapply runs_mono; [by apply runs_inspect_into|done| |done].
  intros [] fs' (bytes & Hb & ->). cbn beta.
  assert (Hrel : released m bytes) by (destruct Hb as (? & _ & _ & _ & _ & _ & ? & ?); done).
  apply runs_bind, runs_lift; [|intros; by apply cleaned_staged]. intros _ _.
  apply runs_bind, runs_lift; [|intros; by apply cleaned_staged]. intros _ _.
  apply runs_bind, runs_act; [by apply interfered|].
  apply runs_bind, runs_look, runs_bind, runs_lift; [|intros; by apply cleaned_interfered].
  intros after _. apply runs_bind, runs_lift; [|intros; by apply cleaned_interfered]. intros _ _.
  eapply runs_mono; [by apply (runs_publish fs nonce Hfree bytes)|done| |done].
  intros [] fs' [H1 H2]. split; [by exists bytes|done].
Qed.
End install.

(** Other processes leave the names of staged files alone. *)
Definition leaves_staging_alone (io : apply_io) (path : string) : Prop :=
  ∀ dir name fs n, parent path = Some dir → file_name path = Some name →
    Fs.names (interference io fs) !! staging_path dir name (pid io) n =
      Fs.names fs !! staging_path dir name (pid io) n ∧
    Fs.read_name (staging_path dir name (pid io) n) (interference io fs) =
      Fs.read_name (staging_path dir name (pid io) n) fs.

(** No staged file of this process is left beside the destination. *)
Definition no_litter (io : apply_io) (path : string) (fs fs' : Fs.t) : Prop :=
  ∀ dir name, parent path = Some dir → file_name path = Some name → tidy io dir name fs fs'.

Lemma runs_ensure {St A} (I : St → Prop) b (e : UpdateError) (k : unit → T St UpdateError A) s Q X :
  (b = true → runs I (k tt) s Q X) → X e s → runs I (let! u := lift (ensure b e) in k u) s Q X.
Proof.
  intros Hk HX. apply runs_bind, runs_lift.
  - intros [] Hb%ensure_Ok. by apply Hk.
  - intros e' He. destruct b; [done|]. by injection He as <-.
Qed.

Lemma create_staging_path_Ok dir name pid fs p :
  create_staging_path dir name pid fs = Ok p →
  ∃ n, p = staging_path dir name pid n ∧ Fs.names fs !! p = None.
Proof.
  unfold create_staging_path. intros [Hin Hf]%ok_or_Ok%List.find_some. to_prop.
  apply base.list_elem_of_In in Hin.
  apply list_elem_of_fmap in Hin as (n & -> & _). by exists n.
Qed.

Lemma runs_apply_verified io m path fs :
  well_formed m → leaves_staging_alone io path →
  runs (undisturbed io m path fs) (apply_verified io m path) fs
    (λ _ fs', (∃ exe, bundles (archive_now io) m exe ∧ Fs.read_name path fs' = Some exe) ∧ no_litter io path fs fs')
    (λ _ fs', undisturbed io m path fs fs' ∧ (removable io = true → no_litter io path fs fs')).
Proof.
  intros Hwf Halone.
  assert (Hsame : undisturbed io m path fs fs ∧ (removable io = true → no_litter io path fs fs)) by (split; [by left|done]).
  unfold apply_verified. apply runs_bind, runs_lift; [|by intros].
  intros dir Hd. destruct (parent path) as [dir'|] eqn:Hp; [|done]. case_bool_decide; [done|]. injection Hd as ->.
  apply runs_bind, runs_lift; [|by intros]. intros is_dir _. apply runs_ensure; [|done]. intros _.
  apply runs_bind, runs_lift; [|by intros]. intros name Hn%ok_or_Ok.
  apply runs_ensure; [|done]. intros _. apply runs_bind.
  set (L := update_lock_path dir name).
  set (fs1 := match Fs.create_new L fs with Some (_, fs') => fs' | None => fs end).
  assert (Hread : Fs.read_name path fs1 = Fs.read_name path fs).
  { unfold fs1. destruct (Fs.names fs !! L) eqn:E; [unfold Fs.create_new; by rewrite E|].
    rewrite (create_new_spec L fs E). apply read_with_other, not_eq_sym. by apply update_lock_other. }
  assert (Htidy : tidy io dir name fs fs1).
  { intros n. unfold fs1. destruct (Fs.names fs !! L) eqn:E; [unfold Fs.create_new; by rewrite E|].
    rewrite (create_new_spec L fs E). cbn. rewrite lookup_insert_ne; [done|]. apply lock_not_staging. }
  assert (Hlit : ∀ fs', tidy io dir name fs1 fs' → no_litter io path fs fs').
  { intros fs' Ht dir' name' E1 E2 n. rewrite Hp in E1. rewrite Hn in E2. simplify_eq. by rewrite (Ht n), Htidy. }
  assert (Hsame1 : undisturbed io m path fs fs1 ∧ (removable io = true → no_litter io path fs fs1))
    by (split; [by left|intros _; by apply Hlit]).
  apply runs_act; [apply Hsame1|]. fold fs1. clearbody fs1.
  apply runs_ensure; [|done]. intros _. apply runs_bind, runs_look, runs_bind, runs_lift; [|done].
  intros before _. apply runs_bind, runs_look, runs_bind, runs_lift; [|done].
  intros p (n & -> & Hfree)%create_staging_path_Ok.
  apply runs_ensure; [|done]. intros _. apply runs_bind, runs_look.
  apply runs_bind. assert (Hstaged : undisturbed io m path fs (with_file (staging_path dir name (pid io) n) [] fs1)).
  { left. rewrite <- Hread. apply read_with_other, not_eq_sym. by apply staging_not_path. }
  rewrite (create_new_spec _ _ Hfree) || idtac.
  apply runs_act; rewrite (create_new_spec _ _ Hfree); [done|].
  eapply runs_mono; [apply (runs_staged io m path dir name); try done|..].
  - intros fs0 k. by apply Halone.
  - intros fs'. by apply undisturbed_mid.
  - intros [] fs' [H1 H2]. split; [done|by apply Hlit].
  - intros e fs' [H1 H2]. split; [by eapply undisturbed_mid|]. intros Hr. apply Hlit. by apply H2.
Qed.

Lemma check_local_well_formed u m : check_local u = Ok m → well_formed m.
Proof.
  unfold check_local. intros H. do 4 (apply result_bind_Ok in H as (? & _ & H)).
  apply result_bind_Ok in H as (m' & Hm & H). repeat (apply result_bind_Ok in H as (? & _ & H)).
  injection H as ->. by eapply parse_manifest_well_formed.
Qed.

(** A manifest whose bytes the key of the key file signed. *)
Definition authentic (u : LocalUpdate) (m : VerifiedManifest) : Prop :=
  ∃ data key_text sig_text line key sig,
    readable (u_manifest u) (64 * 1024) data ∧ readable (u_public_key u) (16 * 1024) key_text ∧
    readable (u_signature u) (64 * 1024) sig_text ∧
    line ∈ trim <$> lines key_text ∧ starts_with (Text.bytes "RW") line = true ∧ key_from_base64 line = Some key ∧
    signature_decode (trim sig_text) = Some sig ∧ key_verify key data sig = true ∧ parse_manifest data = Ok m.

Lemma check_local_authentic u m : check_local u = Ok m → authentic u m.
Proof.
  intros ((data & key_text & sig_text & Hd & Hk & _ & Hs & _ & Hv & Hm) & _)%check_local_exact. unfold verify in Hv.
  apply result_bind_Ok in Hv as (line & Hl%ok_or_Ok & Hv). apply result_bind_Ok in Hv as (key & Hkey%ok_or_Ok & Hv).
  apply result_bind_Ok in Hv as (sig & Hsig%ok_or_Ok & Hv%ensure_Ok). apply find_some in Hl as [Hin Hrw].
  exists data, key_text, sig_text, line, key, sig. by rewrite list_elem_of_In.
Qed.

(** C17. Only a signed release is ever installed: whatever the inputs turn into between
    the check and the installation, whatever other processes do to the destination and
    whichever step is refused or the last before a crash, in every state on the way the
    destination has what it had, what another process put there, or bytes of the length
    and digest pinned by a manifest that passed the check and whose bytes carry the
    signature of the key.  Success means the archive's only
    member is there; failure leaves no staged file behind. *)
Theorem update_authentic u io path fs :
  leaves_staging_alone io path →
  runs (λ fs', ∃ m, (check_local u = Ok m ∧ authentic u m) ∧ undisturbed io m path fs fs')
    (apply_local u io path) fs
    (λ out fs', no_litter io path fs fs' ∧ ∃ m exe, (check_local u = Ok m ∧ authentic u m) ∧ applied_version out = version m ∧
      bundles (archive_now io) m exe ∧ Fs.read_name path fs' = Some exe)
    (λ _ fs', (removable io = true → no_litter io path fs fs') ∧
      (fs' = fs ∨ ∃ m, (check_local u = Ok m ∧ authentic u m) ∧ undisturbed io m path fs fs')).
Proof.
  intros Halone. unfold apply_local. apply runs_bind, runs_lift; [|by intros; split; [|left]].
  intros m Hm. pose proof (conj Hm (check_local_authentic u m Hm)) as Hauth. apply runs_bind. eapply runs_mono;
    [by apply (runs_apply_verified io m path fs); [by eapply check_local_well_formed|]|..].
  - intros fs' H. by exists m.
  - intros [] fs' [(exe & Hb & Hr) Ht]. cbn beta. apply runs_ret. split; [done|]. by exists m, exe.
  - intros e fs' [H1 H2]. split; [done|]. right. by exists m.
Qed.

(** Anything may happen on the way and as a failure. *)
Lemma runs_any {St A} (prog : T St UpdateError A) s (Q : A → St → Prop) :
  (∀ a s', Q a s') → runs (λ _, True) prog s Q (λ _ _, True).
Proof.
  intros HQ. split; [by apply Forall_forall|]. destruct (outcome prog s); [apply HQ|done].
Qed.

Lemma identity_created lock path readable fs :
  lock ≠ path → (∀ i, Fs.names fs !! path = Some i → is_Some (Fs.inodes fs !! i)) →
  destination_identity readable path
    (match Fs.create_new lock fs with Some (_, fs') => fs' | None => fs end) = destination_identity readable path fs.
Proof.
  intros Hne Hwf. unfold Fs.create_new. destruct (Fs.names fs !! lock) eqn:E; [done|].
  unfold destination_identity. destruct readable; [|done]. cbn. rewrite lookup_insert_ne by done.
  destruct (Fs.names fs !! path) as [i|] eqn:Ei; [|done].
  rewrite lookup_insert_ne; [done|]. intros Hi. by apply (next_fresh_name path fs i).
Qed.

(** A destination that is another file once the member is staged is not replaced:
    if what other processes do leaves it with another identity than it had, or with
    none or one where it had one or none, the update fails. *)
Theorem replaced_destination_refused u io path fs :
  (∀ i, Fs.names fs !! path = Some i → is_Some (Fs.inodes fs !! i)) →
  (∀ mid, destination_identity true path (interference io mid) ≠ destination_identity true path fs) →
  is_ok (outcome (apply_local u io path) fs) = false.
Proof.
  intros Hdir Hmoved.
  assert (H : runs (λ _, True) (apply_local u io path) fs (λ _ _, False) (λ _ _, True)).
  2:{ destruct H as [_ H]. by destruct (outcome _ _). }
  unfold apply_local. apply runs_bind, runs_lift; [|done]. intros m _. apply runs_bind.
  eapply (runs_mono _ (λ _, True) _ _ (λ _ _, False) _ (λ _ _, True)); [|done..].
  unfold apply_verified. apply runs_bind, runs_lift; [|done]. intros dir Hd.
  apply runs_bind, runs_lift; [|done]. intros is_dir _. apply runs_ensure; [|done]. intros _.
  apply runs_bind, runs_lift; [|done]. intros name Hn%ok_or_Ok.
  apply runs_ensure; [|done]. intros _. apply runs_bind, runs_act; [done|].
  apply runs_ensure; [|done]. intros _. apply runs_bind, runs_look.
  rewrite identity_created; [|by destruct (parent path) eqn:Hp; [apply update_lock_other; [case_bool_decide; naive_solver|done]|]|done].
  apply runs_bind, runs_lift; [|done]. intros before Hb.
  apply runs_bind, runs_any. intros staged_path ?. apply runs_bind, runs_any. intros p ?.
  apply runs_ensure; [|done]. intros _. apply runs_bind, runs_any. intros i ?. apply runs_bind, runs_any.
  intros _ ?. apply runs_on_error. apply (runs_mono _ (λ _, True) _ _ (λ _ _, False) _ (λ _ _, True)); [|done..].
  apply runs_bind, runs_any. intros _ ?.
  apply runs_ensure; [|done]. intros _. apply runs_ensure; [|done]. intros _.
  apply runs_bind, runs_act; [done|]. apply runs_bind, runs_look, runs_bind, runs_lift; [|done].
  intros after Ha. apply runs_ensure; [|done]. intros Heq%bool_decide_eq_true. subst after.
  exfalso. unfold destination_identity in Hb, Ha. destruct (identity_readable io 0); [|done].
  destruct (identity_readable io 1); [|done]. eapply Hmoved. by rewrite <- Hb in Ha.
Qed.
End update.

(** ** An update in use *)

Module Demo.
Definition exe : list byte := Text.bytes "program".
Definition sha256 (b : list byte) : list byte := take 32 (b ++ replicate 32 (ascii_of_nat 0)).
Definition archive_bytes : list byte := Text.bytes "archive".
Definition manifest_text : list byte := Text.bytes "manifest".

Definition wire : ManifestWire :=
  mkManifestWire 1 (Text.bytes "1.2.3") (Text.bytes "x86_64-linux") (Text.bytes "supra.tar.gz") 7
    (to_hex (sha256 archive_bytes)) (mkExecutableWire (Text.bytes "bin/supra") 7 (to_hex (sha256 exe))).

Definition manifest_json (b : list byte) : option ManifestWire :=
  if bool_decide (b = manifest_text) then Some wire else None.

Definition members : option (list (option Entry)) :=
  Some [Some (mkEntry (Some (Some (Text.bytes "bin/supra"))) true 7 [Some (Text.bytes "prog"); Some (Text.bytes "ram"); Some []])].

Definition file (b : list byte) : look_at := mkLook (Some (true, N.of_nat (length b))) (Some b).

Definition input : LocalUpdate :=
  mkLocalUpdate (file manifest_text) (file (Text.bytes "sig")) (file (Text.bytes "RWkey"))
    (Some (Text.bytes "supra.tar.gz")) (file archive_bytes) (file archive_bytes) members (Text.bytes "x86_64-linux").

(** Versions are their text; a signature is the word over any data. *)
Definition check : result (VerifiedManifest (Version := list byte)) UpdateError :=
  check_local Some id manifest_json (λ k, Some k) (λ s, Some s)
    (λ (_ : list byte) _ s, bool_decide (s = Text.bytes "sig")) sha256 input.

Definition destination : string := "/usr/bin/supra".
Definition fs : Fs.t := Fs.mk {[ destination := 1%N ]} {[ 1%N := Fs.mkInode true (Text.bytes "old") ]}.

Definition io : apply_io :=
  mkApplyIo (Some true) true true (λ _, true) 42 true members None true true id false true true.

(** Another process puts its own file there. *)
Definition replacing : apply_io :=
  mkApplyIo (Some true) true true (λ _, true) 42 true members None true true
    (λ fs, Fs.mk (<[destination := 999%N]> (Fs.names fs))
      (<[999%N := Fs.mkInode true (Text.bytes "theirs")]> (Fs.inodes fs))) false true true.

(** The directory cannot be flushed after the rename. *)
Definition unflushed : apply_io :=
  mkApplyIo (Some true) true true (λ _, true) 42 true members None true true id false false true.

Definition run (io : apply_io) : M UpdateError (ApplyOutcome (Version := list byte)) :=
  apply_local Some id manifest_json (λ k, Some k) (λ s, Some s)
    (λ (_ : list byte) _ s, bool_decide (s = Text.bytes "sig")) sha256 input io destination.
End Demo.

Lemma check_local_exact_witness :
  ∃ m, Demo.check = Ok m ∧ archive_name Demo.input = Some (archive m) ∧
    ∃ exe, bundles Demo.sha256 (archive_third Demo.input) m exe.
Proof.
  assert (Hok : is_ok Demo.check = true) by by vm_compute.
  destruct Demo.check as [m|] eqn:E; [|done].
  exists m. split; [done|]. apply check_local_exact in E as (_ & _ & Hn & _ & _ & Hb). done.
Defined.

Lemma update_authentic_witness :
  Forall (λ fs', Fs.read_name Demo.destination fs' = Some (Text.bytes "old") ∨
    Fs.read_name Demo.destination fs' = Some Demo.exe) (states (Demo.run Demo.io) Demo.fs) ∧
  is_ok (outcome (Demo.run Demo.io) Demo.fs) = true ∧
  ∃ m exe, Demo.check = Ok m ∧ bundles Demo.sha256 Demo.members m exe ∧
    Fs.read_name Demo.destination (after (Demo.run Demo.io) Demo.fs) = Some exe.
Proof.
  destruct (update_authentic Some id Demo.manifest_json (λ k, Some k) (λ s, Some s)
    (λ (_ : list byte) _ s, bool_decide (s = Text.bytes "sig")) Demo.sha256
    Demo.input Demo.io Demo.destination Demo.fs) as [_ H]; [by intros|].
  assert (Hok : outcome (Demo.run Demo.io) Demo.fs = Ok (mkApplyOutcome (Text.bytes "1.2.3") Demo.destination))
    by by vm_compute.
  split; [|split; [by rewrite Hok|]].
  - refine (bool_decide_unpack _ _). by vm_compute.
  - unfold Demo.run in Hok. rewrite Hok in H.
    destruct H as (_ & m & exe & [Hm _] & _ & Hb & Hr). exists m, exe. exact (conj Hm (conj Hb Hr)).
Defined.

Lemma replaced_destination_refused_witness :
  is_ok (outcome (Demo.run Demo.replacing) Demo.fs) = false.
Proof.
  apply replaced_destination_refused.
  - intros i Hi. unfold Demo.fs, Demo.destination in *. cbn in *.
    apply lookup_singleton_Some in Hi as [_ <-]. rewrite lookup_singleton_eq. by eexists.
  - intros mid. unfold destination_identity. cbn [Demo.replacing interference negb Fs.names Fs.inodes].
    rewrite !lookup_insert_eq. cbn. by vm_compute.
Defined.

(** ** What modelling showed *)

(** The rename is done, the caller is told it failed. *)
Example reported_failure_installed :
  is_ok (outcome (Demo.run Demo.unflushed) Demo.fs) = false ∧
  Fs.read_name Demo.destination (after (Demo.run Demo.unflushed) Demo.fs) = Some Demo.exe.
Proof. by vm_compute. Qed.
