(* ===== verification/Introspect.v ===== *)
(** * Introspection: [crates/supra_introspector]

    Findings ([finding.rs]), the gates that run a tool and read its diagnostics
    ([gates.rs]), the comparison of peer answers ([cross.rs]) and the claims that
    findings become on the blackboard ([bridge.rs]).  A gate's process is its streams'
    reads and its status; identifiers are generated in order. *)

From Stdlib Require Import Ascii.
From S2P Require Import Prelude Text Sealing Utf8 Framing Table Cohort Store Blackboard.

Abbreviation text := (list byte).

(** ** Findings: [finding.rs] *)

Inductive Kind := Static | Dynamic | CrossAgent.

Record Finding := mkFinding {
  id : Id; kind : Kind; source : text; summary : text; f_path : option text; line : option N }.

(** [Finding::new], the identifier it generates first. *)
Definition new_finding (fresh : Id) (k : Kind) (source summary : text) (path : option text) (line : option N) : Finding :=
  mkFinding fresh k source summary path line.

Definition evidence_ref (f : Finding) : text :=
  let at_ := match f_path f, line f with
             | Some path, Some line => path ++ Text.bytes ":" ++ dec line
             | _, _ => source f
             end in
  source f ++ Text.bytes "#" ++ at_.

Definition escalates (k : Kind) : bool :=
  match k with Static | Dynamic | CrossAgent => true end.

Inductive IntrospectError := Spawn | NoAnswers.

(** ** Diagnostics: [gates.rs] *)

Definition u32_max_N : N := 4294967295.
Definition is_colon (c : byte) : bool := bool_decide (c = ":"%char).

(** [s.match_indices(pattern)]: the offsets of its matches, none overlapping. *)
Fixpoint match_indices (fuel from : nat) (pattern l : text) : list nat :=
  match fuel with
  | 0 => []
  | S fuel =>
      match find_sub pattern l with
      | Some n => from + n :: match_indices fuel (from + n + length pattern) pattern
                                (drop (n + length pattern) l)
      | None => []
      end
  end.

Definition WARNING : text := Text.bytes ": warning: ".
Definition ERROR : text := Text.bytes ": error".

Definition is_level (after : text) : bool :=
  starts_with WARNING after || starts_with (Text.bytes ": error:") after ||
  starts_with (Text.bytes ": error[") after.

(** [iter.max()]. *)
Definition maximum (l : list nat) : option nat :=
  match l with [] => None | n :: l => Some (foldr Nat.max n l) end.

Definition short_at (trimmed : text) : option nat :=
  maximum (filter (λ at_, is_level (drop at_ trimmed) = true)
    (match_indices (length trimmed) 0 WARNING trimmed ++ match_indices (length trimmed) 0 ERROR trimmed)).

(** A path and a line number off a text split at colons; [None] without a path. *)
Definition location (l : text) : option (text * option N) :=
  match split_on is_colon l with
  | path :: rest =>
      let path := trim path in
      if bool_decide (path = []) then None
      else Some (path, number ← head rest; parse_uint u32_max_N number)
  | [] => None
  end.

Definition located (fresh : Id) (k : Kind) (source : text) (l : text) : option Finding :=
  '(path, number) ← location l;
  Some (new_finding fresh k source (source ++ Text.bytes " diagnostic at " ++ path) (Some path) number).

Definition parse_cargo_diagnostic (fresh : Id) (k : Kind) (source l : text) : option Finding :=
  let trimmed := trim_start l in
  match strip_prefix (Text.bytes "--> ") trimmed with
  | Some rest => located fresh k source rest
  | None =>
      match short_at trimmed with
      | Some at_ => located fresh k source (take at_ trimmed)
      | None =>
          match strip_prefix (Text.bytes "error") trimmed with
          | Some rest =>
              if (starts_with (Text.bytes "[") rest || starts_with (Text.bytes ":") rest ||
                  starts_with (Text.bytes " ") rest) && negb (contains (Text.bytes "no test target") rest)
              then Some (new_finding fresh k source (source ++ Text.bytes ": error" ++ trim_end rest) None None)
              else None
          | None => None
          end
      end
  end.

(** ** Gates *)

Definition GATE_OUTPUT_CAP : N := 4 * 1024 * 1024.

(** [&chunk[..count.min(room)]], whole when there is room. *)
Definition take_room (room : N) (chunk : text) : text :=
  if (N.of_nat (length chunk) <=? room)%N then chunk else take (N.to_nat room) chunk.

(** The loop of [capture_capped]: reads up to the end of the stream or an error. *)
Fixpoint capture (cap : N) (kept : text) (reads : list (option text)) : text :=
  match reads with
  | [] | None :: _ | Some [] :: _ => kept
  | Some chunk :: reads =>
      capture cap
        (if (N.of_nat (length kept) <? cap)%N
         then kept ++ take_room (cap - N.of_nat (length kept)) chunk else kept) reads
  end.

Definition capture_capped (cap : N) (reads : list (option text)) : text :=
  from_utf8_lossy (capture cap [] reads).

(** A child process: whether it started, its two streams as they are read, and the
    status waiting for it yields. *)
Record child := mkChild {
  spawned : bool; stdout : list (option text); stderr : list (option text); status : option bool }.

Record GateRun := mkGateRun { passed : bool; findings : list Finding }.

(** [findings.dedup_by(..)]: of neighbours that say the same, the first. *)
Definition says_same (a b : Finding) : bool :=
  bool_decide (summary a = summary b) && bool_decide (f_path a = f_path b) && bool_decide (line a = line b).

Fixpoint dedup_from (kept : Finding) (l : list Finding) : list Finding :=
  match l with
  | [] => [kept]
  | f :: l => if says_same f kept then dedup_from kept l else kept :: dedup_from f l
  end.

Definition dedup (l : list Finding) : list Finding :=
  match l with [] => [] | f :: l => dedup_from f l end.

(** The findings of the streams' lines; only a finding takes an identifier. *)
Fixpoint parse_lines (fresh : nat → Id) (n : nat) (k : Kind) (source : text) (ls : list text) : list Finding :=
  match ls with
  | [] => []
  | l :: ls =>
      match parse_cargo_diagnostic (fresh n) k source l with
      | Some f => f :: parse_lines fresh (S n) k source ls
      | None => parse_lines fresh n k source ls
      end
  end.

Definition run_gate (fresh : nat → Id) (k : Kind) (source : text) (c : child) : result GateRun IntrospectError :=
  if negb (spawned c) then Err Spawn
  else
    match status c with
    | None => Err Spawn
    | Some success =>
        let streams := [capture_capped GATE_OUTPUT_CAP (stdout c); capture_capped GATE_OUTPUT_CAP (stderr c)] in
        Ok (mkGateRun success (dedup (parse_lines fresh 0 k source (concat (lines <$> streams)))))
    end.

(** The two gates; the process they spawn is the argument. *)
Definition static_gate (fresh : nat → Id) (clippy : child) : result GateRun IntrospectError :=
  run_gate fresh Static (Text.bytes "clippy") clippy.
Definition dynamic_gate (fresh : nat → Id) (test : child) : result GateRun IntrospectError :=
  run_gate fresh Dynamic (Text.bytes "cargo-test") test.

(** ** Peer answers: [cross.rs] *)

Record Answer := mkAnswer { agent : Id; answer_text : text }.

Fixpoint first_duplicate (seen : list Id) (l : list Answer) : option Id :=
  match l with
  | [] => None
  | a :: l => if bool_decide (agent a ∈ seen) then Some (agent a) else first_duplicate (agent a :: seen) l
  end.

Fixpoint count_in (t : text) (groups : list (text * nat)) : list (text * nat) :=
  match groups with
  | [] => [(t, 1)]
  | (u, n) :: groups => if bool_decide (u = t) then (u, S n) :: groups else (u, n) :: count_in t groups
  end.

Definition group (answers : list Answer) : list (text * nat) :=
  foldl (λ groups a, count_in (answer_text a) groups) [] answers.

Definition count_le (a b : text * nat) : Prop := a.2 ≤ b.2.
#[export] Instance count_le_dec a b : base.Decision (count_le a b).
Proof. unfold count_le. apply _. Defined.

Section cross.
(** [{question:?}]. *)
Context (debug : text → text).

Definition divergence (question : text) (majority answers minority : nat) : text :=
  Text.bytes "peers diverge on " ++ debug question ++ Text.bytes ": " ++ dec (N.of_nat majority) ++
  Text.bytes " of " ++ dec (N.of_nat answers) ++ Text.bytes " agree, " ++ dec (N.of_nat minority) ++
  Text.bytes " differ".

Definition cross_check (fresh : Id) (question : text) (answers : list Answer) : result (list Finding) Id :=
  match first_duplicate [] answers with
  | Some agent => Err agent
  | None =>
      if length answers <? 2 then Ok []
      else
        let groups := merge_sort count_le (group answers) in
        let majority_count := default 0 (snd <$> last groups) in
        if (length groups =? 1) || (majority_count =? length answers) then Ok []
        else Ok [new_finding fresh CrossAgent (Text.bytes "peers")
                   (divergence question majority_count (length answers) (length groups - 1)) None None]
  end.
End cross.

(** ** Findings on the blackboard: [bridge.rs] *)

Section bridge.
Context (sql_length : string → nat).
Context {CT VT WT : Type}
  `{Table CT Id ClaimRow.t} `{Table VT (Id * Id) unit} `{Table WT (Id * Id) VoteRow.t}.
Abbreviation db := (Db.t CT VT WT).
Abbreviation board := (gmap Id ClaimState.t).

Definition as_string (l : text) : string := String.string_of_list_ascii l.

Definition append_finding (io : bool) (fresh : Id) (clock : option Z) (b : board) (turn proposer : Id)
    (validators : list Id) (f : Finding) (d : db) : board * db * result Id BlackboardError :=
  if negb (bool_decide (NoDup validators)) then (b, d, Err (BStore Malformed))
  else if bool_decide (proposer ∈ validators) then (b, d, Err (NotAProposer proposer fresh))
  else publish sql_length io fresh clock turn proposer validators (as_string (summary f)) b d.

Definition vote_finding (io : bool) (b : board) (claim voter : Id) (v : Vote) (f : Finding) (d : db) :
    board * db * result Outcome.t BlackboardError :=
  match Verdict.new v High (as_string (summary f)) (Some (as_string (evidence_ref f))) with
  | Err _ => (b, d, Err (BStore Malformed))
  | Ok verdict => vote sql_length io claim voter verdict b d
  end.
End bridge.

(** ** Captured output *)

(** What a stream yields up to its end or an error. *)
Fixpoint stream_data (reads : list (option text)) : text :=
  match reads with
  | [] | None :: _ | Some [] :: _ => []
  | Some chunk :: reads => chunk ++ stream_data reads
  end.

Definition take_N (n : N) (l : text) : text := take (N.to_nat n) l.

Lemma take_room_take room chunk : take_room room chunk = take_N room chunk.
Proof.
  unfold take_room, take_N. destruct (_ <=? _)%N eqn:E; [|done]. apply N.leb_le in E.
  by rewrite take_ge by lia.
Qed.

Lemma capture_take cap kept reads :
  (N.of_nat (length kept) ≤ cap)%N → capture cap kept reads = take_N cap (kept ++ stream_data reads).
Proof.
  revert kept. induction reads as [|[[|c chunk]|] reads IH]; intros kept Hk; cbn [capture stream_data];
    try (unfold take_N; by rewrite app_nil_r, take_ge by lia).
  assert (Hsame : kept = take_N cap kept) by (unfold take_N; by rewrite take_ge by lia).
  destruct (N.of_nat (length kept) <? cap)%N eqn:E.
  - apply N.ltb_lt in E. rewrite take_room_take, IH.
    + unfold take_N. rewrite <- (assoc_L (++)). rewrite !(take_app_ge kept) by lia. f_equal.
      replace (N.to_nat (cap - N.of_nat (length kept))) with (N.to_nat cap - length kept) by lia.
      generalize (N.to_nat cap - length kept). intros n. generalize (c :: chunk). intros k.
      destruct (decide (n ≤ length k)).
      * rewrite (take_app_le k) by done. rewrite take_app_le by (rewrite length_take; lia).
        by rewrite take_take, Nat.min_id.
      * rewrite (take_ge k n) by lia. done.
    + unfold take_N. rewrite length_app, length_take. lia.
  - apply N.ltb_ge in E. rewrite IH by done. unfold take_N. by rewrite !take_app_le by lia.
Qed.

(** ** Groups of equal answers *)

Definition times (t : text) (answers : list Answer) : nat :=
  length (filter (λ a, answer_text a = t) answers).

Definition entry (t : text) (groups : list (text * nat)) : nat :=
  match list_find (λ g, g.1 = t) groups with Some (_, (_, n)) => n | None => 0 end.

(** A grouping counts the answers: no text twice, each as often as it is given. *)
Definition grouping (groups : list (text * nat)) (answers : list Answer) : Prop :=
  NoDup groups.*1 ∧ (∀ t n, (t, n) ∈ groups → n = times t answers ∧ 0 < n) ∧
  ∀ a, a ∈ answers → answer_text a ∈ groups.*1.

Lemma count_in_keys t groups : (count_in t groups).*1 ≡ₚ (if bool_decide (t ∈ groups.*1) then groups.*1 else t :: groups.*1).
Proof.
  induction groups as [|[u n] groups IH]; cbn [count_in fmap list_fmap fst]; [done|].
  destruct (bool_decide (u = t)) eqn:E; to_prop.
  - subst. by rewrite bool_decide_eq_true_2 by (left).
  - cbn [fmap list_fmap fst]. rewrite IH. destruct (bool_decide (t ∈ groups.*1)) eqn:Et; to_prop.
    + by rewrite bool_decide_eq_true_2 by (by right).
    + rewrite bool_decide_eq_false_2 by set_solver. apply Permutation_swap.
Qed.

Lemma count_in_elem t groups u n :
  NoDup groups.*1 → (u, n) ∈ count_in t groups ↔
  (u ≠ t ∧ (u, n) ∈ groups) ∨ (u = t ∧ ((∃ m, (t, m) ∈ groups ∧ n = S m) ∨ ((t ∉ groups.*1) ∧ n = 1))).
Proof.
  induction groups as [|[v m] groups IH]; intros Hnd; cbn [count_in fmap list_fmap fst] in *.
  - rewrite list_elem_of_singleton. split.
    + intros [= -> ->]. right. split; [done|]. right. split; [set_solver|done].
    + intros [[_ H]|[-> [(k & H & _)|[_ ->]]]]; [set_solver..|done].
  - apply NoDup_cons in Hnd as [Hv Hnd].
    assert (Hfst : ∀ x k, (x, k) ∈ groups → x ∈ groups.*1)
      by (intros x k Hx; apply list_elem_of_fmap; by exists (x, k)).
    destruct (bool_decide (v = t)) eqn:E; to_prop.
    + subst v. setoid_rewrite elem_of_cons. split.
      * intros [E|Hu].
        { injection E as -> ->. right. split; [done|]. left. exists m. split; [by left|done]. }
        { left. split; [intros ->; by apply Hv, (Hfst _ n)|by right]. }
      * intros [[Hne [E|Hu]]|[-> [(k & [E|Hk] & ->)|[Hn _]]]].
        { by injection E as -> _. }
        { by right. }
        { injection E as ->. by left. }
        { exfalso. by apply Hv, (Hfst _ k). }
        { exfalso. apply Hn. by left. }
    + setoid_rewrite elem_of_cons. rewrite IH by done. split.
      * intros [Eu|[[Hne Hu]|[-> [(k & Hk & ->)|[Hn ->]]]]].
        { injection Eu as -> ->. left. split; [done|by left]. }
        { left. split; [done|by right]. }
        { right. split; [done|]. left. exists k. split; [by right|done]. }
        { right. split; [done|]. right. split; [|done]. by intros [->|Ht]. }
      * intros [[Hne [Eu|Hu]]|[-> [(k & [Ek|Hk] & ->)|[Hn ->]]]].
        { by left. }
        { right. by left. }
        { by injection Ek as -> _. }
        { right. right. split; [done|]. left. by exists k. }
        { right. right. split; [done|]. right. split; [|done]. intros Ht. apply Hn. by right. }
Qed.

Lemma group_snoc answers a : group (answers ++ [a]) = count_in (answer_text a) (group answers).
Proof. unfold group. by rewrite foldl_app. Qed.

Lemma times_snoc t answers a :
  times t (answers ++ [a]) = times t answers + (if bool_decide (answer_text a = t) then 1 else 0).
Proof.
  unfold times. rewrite filter_app, length_app. f_equal. rewrite filter_cons.
  destruct (decide (answer_text a = t)) as [E|E];
    [rewrite bool_decide_eq_true_2 by done|rewrite bool_decide_eq_false_2 by done]; done.
Qed.

Lemma times_none t answers : (∀ a, a ∈ answers → answer_text a ≠ t) → times t answers = 0.
Proof.
  intros H. unfold times. apply length_zero_iff_nil. induction answers as [|a answers IH]; [done|].
  rewrite filter_cons_False by (apply H; by left). apply IH. intros b Hb. apply H. by right.
Qed.

Lemma group_grouping answers : grouping (group answers) answers.
Proof.
  induction answers as [|a answers (Hnd & Hc & Hin)] using rev_ind.
  { split_and!; [constructor|by intros t n ?%elem_of_nil|by intros a ?%elem_of_nil]. }
  rewrite group_snoc. set (t := answer_text a).
  assert (Hkeys : ∀ u, u ∈ (count_in t (group answers)).*1 ↔ u = t ∨ u ∈ (group answers).*1).
  { intros u. rewrite count_in_keys. destruct (bool_decide _) eqn:E; to_prop; set_solver. }
  split_and!.
  - rewrite count_in_keys. destruct (bool_decide _) eqn:E; to_prop; [done|by constructor].
  - intros u n Hu. apply count_in_elem in Hu; [|done]. rewrite times_snoc.
    destruct Hu as [[Hne Hu]|[-> [(m & Hm & ->)|[Hn ->]]]].
    + rewrite bool_decide_eq_false_2 by (by apply not_eq_sym). destruct (Hc u n Hu). lia.
    + rewrite bool_decide_eq_true_2 by done. destruct (Hc t m Hm). lia.
    + rewrite bool_decide_eq_true_2 by done. rewrite times_none; [lia|]. intros b Hb Hbt.
      apply Hn. rewrite <- Hbt. by apply Hin.
  - intros b [Hb|[->|Hb%elem_of_nil]%elem_of_cons]%elem_of_app; [|by apply Hkeys; left|done].
    apply Hkeys. right. by apply Hin.
Qed.

Lemma first_duplicate_None seen l :
  first_duplicate seen l = None ↔ NoDup (agent <$> l) ∧ ∀ a, a ∈ l → agent a ∉ seen.
Proof.
  revert seen. induction l as [|a l IH]; intros seen; cbn [first_duplicate fmap list_fmap].
  - split; [intros _; split; [constructor|by intros ? ?%elem_of_nil]|done].
  - rewrite NoDup_cons. destruct (bool_decide (agent a ∈ seen)) eqn:E; to_prop.
    + split; [done|]. intros [_ H]. exfalso. by apply (H a); [left|].
    + rewrite IH. split.
      * intros [Hnd H]. split_and!; [|done|].
        { intros (b & Eb & Hb)%list_elem_of_fmap. apply (H b Hb). rewrite <- Eb. by left. }
        { intros b [->|Hb]%elem_of_cons; [done|]. specialize (H b Hb). set_solver. }
      * intros [[Hn Hnd] H]. split; [done|]. intros b Hb [Eb|Hs]%elem_of_cons.
        { apply Hn. rewrite <- Eb. by apply list_elem_of_fmap_2. }
        { apply (H b); [by right|done]. }
Qed.

#[export] Instance count_le_total : Total count_le.
Proof. intros a b. unfold count_le. lia. Qed.
#[export] Instance count_le_trans : Transitive count_le.
Proof. intros a b c. unfold count_le. lia. Qed.

Lemma last_greatest (groups : list (text * nat)) g :
  g ∈ groups → ∃ top, last (merge_sort count_le groups) = Some top ∧ top ∈ groups ∧
    ∀ h, h ∈ groups → h.2 ≤ top.2.
Proof.
  intros Hg. pose proof (StronglySorted_merge_sort count_le groups) as Hs.
  pose proof (merge_sort_Permutation count_le groups) as Hp.
  destruct (merge_sort count_le groups) as [|top l _] eqn:E using rev_ind.
  { rewrite <- Hp in Hg. by apply elem_of_nil in Hg. }
  exists top. rewrite last_snoc. split_and!; [done|rewrite <- Hp; set_solver|].
  intros h Hh. rewrite <- Hp in Hh. apply elem_of_app in Hh as [Hh|Hh]; [|set_solver].
  apply StronglySorted_app in Hs as (H & _ & _). apply H; [done|by left].
Qed.

Definition distinct_texts (answers : list Answer) : list text := remove_dups (answer_text <$> answers).

Lemma groups_distinct answers : length (group answers) = length (distinct_texts answers).
Proof.
  destruct (group_grouping answers) as (Hnd & Hc & Hin).
  rewrite <- (length_fmap fst). apply Permutation_length, NoDup_Permutation; [done|apply NoDup_remove_dups|].
  intros t. unfold distinct_texts. rewrite elem_of_remove_dups. split.
  - intros ((u & n) & -> & Hu)%list_elem_of_fmap. destruct (Hc u n Hu) as [-> Hpos]. cbn.
    destruct (filter (λ a, answer_text a = u) answers) as [|a l] eqn:E; [unfold times in Hpos; rewrite E in Hpos; simpl in Hpos; lia|].
    assert (Ha : a ∈ filter (λ a, answer_text a = u) answers) by (rewrite E; by left).
    apply list_elem_of_filter in Ha as [<- Ha]. by apply list_elem_of_fmap_2.
  - intros (a & -> & Ha)%list_elem_of_fmap. by apply Hin.
Qed.

Lemma times_le t answers : times t answers ≤ length answers.
Proof. apply length_filter. Qed.

Lemma times_lt t answers a : a ∈ answers → answer_text a ≠ t → times t answers < length answers.
Proof.
  intros Ha Hne. apply list_elem_of_split in Ha as (l1 & l2 & ->). unfold times.
  rewrite filter_app, filter_cons_False by done. rewrite !length_app. simpl.
  pose proof (length_filter (λ a, answer_text a = t) l1). pose proof (length_filter (λ a, answer_text a = t) l2). lia.
Qed.

Lemma duplicates_refused debug fresh question answers :
  is_ok (cross_check debug fresh question answers) = true ↔ NoDup (agent <$> answers).
Proof.
  unfold cross_check. pose proof (first_duplicate_None [] answers) as H.
  destruct (first_duplicate [] answers) as [dup|] eqn:E.
  - split; [done|]. intros Hnd. assert (Some dup = None) as [=]. rewrite <- E. apply first_duplicate_None.
    split; [done|]. intros a _. apply not_elem_of_nil.
  - destruct H as [H _]. split; [intros _; by apply H|]. intros _. by repeat case_match.
Qed.

(** Peers diverge exactly when two of their answers differ: an agent that answered
    twice refuses the comparison; answers that all agree yield nothing; otherwise there
    is one finding, which tells how many of the answers are the most common one and how
    many other answers there are, whatever the order they came in. *)
Theorem peers_diverge_exact debug fresh question answers :
  (is_ok (cross_check debug fresh question answers) = true ↔ NoDup (agent <$> answers)) ∧
  (NoDup (agent <$> answers) →
    (∀ a b, a ∈ answers → b ∈ answers → answer_text a = answer_text b) →
    cross_check debug fresh question answers = Ok []) ∧
  (∀ a b, NoDup (agent <$> answers) → a ∈ answers → b ∈ answers → answer_text a ≠ answer_text b →
    ∃ most, (∃ t, most = times t answers) ∧ (∀ t, times t answers ≤ most) ∧
      cross_check debug fresh question answers =
      Ok [new_finding fresh CrossAgent (Text.bytes "peers")
            (divergence debug question most (length answers) (length (distinct_texts answers) - 1)) None None]).
Proof.
  split; [apply duplicates_refused|]. split.
  - intros Hnd Hsame. unfold cross_check.
    rewrite (proj2 (first_duplicate_None [] answers)) by (split; [done|intros a _; apply not_elem_of_nil]).
    destruct (length answers <? 2) eqn:E2; [done|]. to_prop.
    rewrite (Permutation_length (merge_sort_Permutation _ _)), groups_distinct.
    assert (E : length (distinct_texts answers) = 1); [|by rewrite E].
    destruct answers as [|a answers]; [simpl in E2; lia|].
    assert (Hp : distinct_texts (a :: answers) ≡ₚ [answer_text a]); [|by rewrite Hp].
    apply NoDup_Permutation; [apply NoDup_remove_dups|by apply NoDup_singleton|]. intros t.
    unfold distinct_texts. rewrite elem_of_remove_dups, list_elem_of_singleton. split.
    + intros (b & -> & Hb)%list_elem_of_fmap. apply Hsame; [done|by left].
    + intros ->. by left.
  - intros a b Hnd Ha Hb Hne. destruct (group_grouping answers) as (Hgd & Hc & Hin).
    pose proof (Hin a Ha) as Hga. apply list_elem_of_fmap in Hga as ((ta & na) & Eta & Hga).
    destruct (last_greatest (group answers) _ Hga) as (top & Hlast & Htop & Hmax).
    exists top.2. destruct top as [t n]. destruct (Hc t n Htop) as [-> Hpos]. split_and!; [by exists t| |].
    + intros u. destruct (decide (u ∈ (group answers).*1)) as [((u' & m) & -> & Hu)%list_elem_of_fmap|Hu].
      * destruct (Hc u' m Hu) as [E _]. cbn. rewrite <- E. by apply (Hmax (u', m)).
      * rewrite times_none; [lia|]. intros c Hcc <-. by apply Hu, Hin.
    + assert (Hlt : times t answers < length answers).
      { destruct (decide (answer_text a = t)) as [<-|Hat]; [by apply (times_lt _ _ b); [|apply not_eq_sym]|].
        by apply (times_lt _ _ a). }
      assert (H2 : 2 ≤ length (distinct_texts answers)).
      { assert (Hsub : [answer_text a; answer_text b] ⊆+ distinct_texts answers).
        { apply NoDup_submseteq; [repeat constructor; set_solver|]. intros u Hu. unfold distinct_texts.
          apply elem_of_remove_dups. apply elem_of_cons in Hu as [->|Hu%list_elem_of_singleton]; [|subst u];
            by apply list_elem_of_fmap_2. }
        by apply submseteq_length in Hsub. }
      unfold cross_check.
      rewrite (proj2 (first_duplicate_None [] answers)) by (split; [done|intros x _; apply not_elem_of_nil]).
      rewrite (proj2 (Nat.ltb_ge _ _)) by lia. rewrite Hlast. cbn [fmap option_fmap option_map default snd].
      rewrite (Permutation_length (merge_sort_Permutation _ _)), groups_distinct. unfold Datatypes.id.
      rewrite (proj2 (Nat.eqb_neq (length (distinct_texts answers)) 1)) by lia.
      by rewrite (proj2 (Nat.eqb_neq (times t answers) _)) by lia.
Qed.

Lemma peers_diverge_exact_witness :
  let answers := [mkAnswer 1 (Text.bytes "yes"); mkAnswer 2 (Text.bytes "no"); mkAnswer 3 (Text.bytes "yes")] in
  ∃ most, (∃ t, most = times t answers) ∧
    cross_check (λ q, q) 9 (Text.bytes "q") answers =
    Ok [new_finding 9 CrossAgent (Text.bytes "peers") (divergence (λ q, q) (Text.bytes "q") most 3 1) None None].
Proof.
  intros answers.
  destruct (peers_diverge_exact (λ q, q) 9%N (Text.bytes "q") answers) as (_ & _ & H).
  destruct (H (mkAnswer 1 (Text.bytes "yes")) (mkAnswer 2 (Text.bytes "no"))) as (most & Ht & _ & E).
  - refine (bool_decide_unpack _ _). by vm_compute.
  - by left.
  - right. by left.
  - done.
  - by exists most.
Defined.

(** ** Locations *)

(** A path a place is told by: printable, without colons. *)
Definition path_like (path : text) : Prop :=
  path ≠ [] ∧ Forall (λ c, printable c = true ∧ c ≠ ":"%char) path.

Lemma dec_colonless n : Forall (λ c, is_colon c = false) (dec n).
Proof.
  destruct (dec_digits n) as (_ & Hd & _). eapply Forall_impl; [exact Hd|].
  intros c Hc%Is_true_true. apply bool_decide_eq_false. by intros ->.
Qed.

Lemma parse_uint_dec n : (n ≤ u32_max_N)%N → parse_uint u32_max_N (dec n) = Some n.
Proof.
  intros Hn. unfold parse_uint. destruct (dec_digits n) as (Hne & Hd & _).
  destruct (dec n) as [|c l] eqn:E; [done|]. apply Forall_cons in Hd as [Hc _].
  rewrite decide_False by (intros ->; done). rewrite <- E, parse_dec_dec. cbn.
  by rewrite (proj2 (N.leb_le _ _)).
Qed.

Lemma location_place path n rest :
  path_like path → (n ≤ u32_max_N)%N → (rest = [] ∨ ∃ r, rest = ":"%char :: r) →
  location (path ++ Text.bytes ":" ++ dec n ++ rest) = Some (path, Some n).
Proof.
  intros [Hne Hp] Hn Hr. unfold location. cbn [Text.bytes String.list_ascii_of_string app].
  rewrite split_on_app; [|eapply Forall_impl; [exact Hp|]; intros c [_ Hc]; by apply bool_decide_eq_false|done].
  rewrite trim_printable by (eapply Forall_impl; [exact Hp|]; by intros c [? _]).
  rewrite bool_decide_eq_false_2 by done.
  assert (E : head (split_on is_colon (dec n ++ rest)) = Some (dec n)).
  { apply split_on_head_app; [apply dec_colonless|]. destruct Hr as [->|(r & ->)]; [by left|right].
    by exists ":"%char, r. }
  rewrite E. cbn. by rewrite parse_uint_dec.
Qed.

Lemma find_sub_first needle pre post :
  ∃ n, find_sub needle (pre ++ needle ++ post) = Some n ∧ n ≤ length pre.
Proof.
  assert (Hs : starts_with needle (needle ++ post) = true) by (apply starts_with_app; by eexists).
  induction pre as [|c pre (n & E & Hn)]; cbn [app].
  - exists 0. split; [|done]. destruct (needle ++ post) eqn:El; cbn [find_sub]; by rewrite Hs.
  - cbn [find_sub]. destruct (starts_with needle (c :: pre ++ needle ++ post)); [by exists 0; split; [|lia]|].
    rewrite E. exists (S n). split; [done|simpl; lia].
Qed.

(** The place in front of a level: no colon of it is followed by a blank. *)
Definition place (path : text) (n column : N) : text :=
  path ++ Text.bytes ":" ++ dec n ++ Text.bytes ":" ++ dec column.

Lemma dec_printable n : Forall (λ c, printable c = true ∧ c ≠ " "%char) (dec n).
Proof.
  destruct (dec_digits n) as (_ & Hd & _). eapply Forall_impl; [exact Hd|]. intros c Hc%Is_true_true.
  pose proof (digit_ascii c Hc) as Ha. unfold is_digit, digit_value in Hc.
  destruct (_ && _) eqn:E in Hc; [|done]. apply andb_true_iff in E as [H1%N.leb_le H2%N.leb_le].
  assert (N_of_ascii c = 48 ∨ N_of_ascii c = 49 ∨ N_of_ascii c = 50 ∨ N_of_ascii c = 51 ∨ N_of_ascii c = 52 ∨
    N_of_ascii c = 53 ∨ N_of_ascii c = 54 ∨ N_of_ascii c = 55 ∨ N_of_ascii c = 56 ∨ N_of_ascii c = 57)%N as Hn by lia.
  rewrite <- (ascii_N_embedding c). clear -Hn.
  by repeat destruct Hn as [->|Hn]; [..|rewrite Hn]; (split; [by vm_compute|done]).
Qed.

Lemma place_blank path n column :
  path_like path → Forall (λ c, printable c = true ∧ c ≠ " "%char) (place path n column).
Proof.
  intros [_ Hp]. unfold place. rewrite !Forall_app. split_and!; try apply dec_printable; try by repeat constructor.
  eapply Forall_impl; [exact Hp|]. intros c [Hc _]. split; [done|]. by intros ->.
Qed.

Lemma level_found path n column P rest :
  path_like path → (P = WARNING ∨ P = ERROR) →
  find_sub P (place path n column ++ P ++ rest) = Some (length (place path n column)).
Proof.
  intros Hp HP. destruct (find_sub_first P (place path n column) rest) as (m & E & Hm).
  rewrite E. f_equal. apply Nat.le_antisymm; [done|]. apply Nat.nlt_ge. intros Hlt.
  apply find_sub_split in E as (x & after & E & <-).
  assert (∃ r, P = ":"%char :: " "%char :: r) as (r & ->) by (destruct HP as [-> | ->]; by eexists).
  pose proof (place_blank path n column Hp) as Hb.
  assert (Hcolon : place path n column !! length x = Some ":"%char).
  { rewrite <- (lookup_app_l _ ((":"%char :: " "%char :: r) ++ rest)) by done. rewrite E.
    by rewrite lookup_app_r, Nat.sub_diag by lia. }
  destruct (decide (S (length x) < length (place path n column))) as [Hin|Hout].
  - assert (Hblank : place path n column !! S (length x) = Some " "%char).
    { rewrite <- (lookup_app_l _ ((":"%char :: " "%char :: r) ++ rest)) by done. rewrite E.
      rewrite lookup_app_r by lia. by replace (S (length x) - length x) with 1 by lia. }
    apply list_elem_of_lookup_2 in Hblank. rewrite Forall_forall in Hb. by destruct (Hb _ Hblank).
  - assert (Hlast : last (place path n column) = Some ":"%char).
    { rewrite last_lookup. by replace (pred (length (place path n column))) with (length x) by lia. }
    unfold place in Hlast. rewrite !(assoc_L (++)) in Hlast.
    destruct (dec_digits column) as (Hne & Hd & _).
    destruct (dec column) as [|d ds _] eqn:Ed using rev_ind; [done|].
    rewrite (assoc_L (++)), last_snoc in Hlast. injection Hlast as ->. apply Forall_app in Hd as [_ Hd]. by inversion Hd.
Qed.

Lemma maximum_Some l x : x ∈ l → ∃ m, maximum l = Some m ∧ x ≤ m.
Proof.
  destruct l as [|a l]; [by intros ?%elem_of_nil|]. intros Hx. eexists. split; [done|].
  assert (H : ∀ k, a ≤ foldr Nat.max a k ∧ ∀ y, y ∈ k → y ≤ foldr Nat.max a k).
  { induction k as [|b k [H1 H2]]; cbn; [split; [done|by intros ? ?%elem_of_nil]|].
    split; [lia|]. intros y [->|Hy]%elem_of_cons; [lia|]. specialize (H2 y Hy). lia. }
  destruct (H l) as [H1 H2]. apply elem_of_cons in Hx as [->|Hx]; [exact H1|by apply H2].
Qed.

Lemma is_level_app level message : is_level level = true → is_level (level ++ message) = true.
Proof.
  assert (H : ∀ p, starts_with p level = true → starts_with p (level ++ message) = true).
  { intros p (r & ->)%starts_with_app. apply starts_with_app. exists (r ++ message). by rewrite (assoc_L (++)). }
  unfold is_level. rewrite !orb_true_iff. intros [[?|?]|?]; auto.
Qed.

Lemma is_level_pattern level : is_level level = true → ∃ P r, level = P ++ r ∧ (P = WARNING ∨ P = ERROR).
Proof.
  unfold is_level. rewrite !orb_true_iff, !starts_with_app. intros [[(r & ->)|(r & ->)]|(r & ->)].
  - exists WARNING, r. auto.
  - exists ERROR, (Text.bytes ":" ++ r). auto.
  - exists ERROR, (Text.bytes "[" ++ r). auto.
Qed.

Lemma short_at_level path n column level message :
  path_like path → is_level level = true →
  ∃ at_, short_at (place path n column ++ level ++ message) = Some at_ ∧ length (place path n column) ≤ at_.
Proof.
  intros Hp Hl. destruct (is_level_pattern level Hl) as (P & r & -> & HP). unfold short_at.
  apply maximum_Some. apply list_elem_of_filter. split.
  { rewrite drop_app_length. by apply is_level_app. }
  pose proof (level_found path n column P (r ++ message) Hp HP) as E.
  assert (Hin : ∀ fuel, length (place path n column) ∈ match_indices (S fuel) 0 P (place path n column ++ (P ++ r) ++ message)).
  { intros fuel. cbn [match_indices]. rewrite <- (assoc_L (++) P), E. cbn. by left. }
  assert (∃ fuel, length (place path n column ++ (P ++ r) ++ message) = S fuel) as (fuel & ->).
  { destruct Hp as [Hne _]. destruct path; [done|]. by eexists. }
  apply elem_of_app. destruct HP as [-> | ->]; [left|right]; apply Hin.
Qed.

Lemma no_arrow path n column rest :
  path_like path → strip_prefix (Text.bytes "--> ") (place path n column ++ rest) = None.
Proof.
  intros [Hne Hp]. destruct (strip_prefix _ _) as [r|] eqn:E; [|done]. exfalso.
  apply strip_prefix_Some in E. unfold place in E.
  destruct path as [|a [|b [|c [|d path]]]]; [done|..]; cbn in E; try done.
  injection E as -> -> -> -> _. rewrite Forall_forall in Hp. by destruct (Hp " "%char) as [H _]; [set_solver|].
Qed.

(** A diagnostic is found where it is: whatever its message, a line in the short
    form and an arrow under one, behind any white space, both yield the finding at
    their path and line. *)
Theorem diagnostic_located fresh k source path n column level message ws :
  path_like path → (n ≤ u32_max_N)%N → is_level level = true → is_utf8 (level ++ message) = true →
  white_run ws →
  let found := Some (new_finding fresh k source (source ++ Text.bytes " diagnostic at " ++ path) (Some path) (Some n)) in
  parse_cargo_diagnostic fresh k source (ws ++ place path n column ++ level ++ message) = found ∧
  parse_cargo_diagnostic fresh k source (ws ++ Text.bytes "--> " ++ place path n column) = found.
Proof.
  intros Hp Hn Hl Hu Hws found. unfold parse_cargo_diagnostic.
  assert (Hhead : ∃ c l, place path n column = c :: l ∧ printable c = true).
  { destruct Hp as [Hne Hp]. destruct path as [|c path]; [done|]. apply Forall_cons in Hp as [[Hc _] _].
    by eexists c, _. }
  destruct Hhead as (c & l & E & Hc).
  split.
  - assert (Ht : trim_start (ws ++ place path n column ++ level ++ message) = place path n column ++ level ++ message).
    { rewrite E. cbn [app]. apply andb_true_iff in Hc as [Hw Ha]. apply trim_start_run; [done|done|].
      rewrite is_continuation_in. by rewrite (code_in_disjoint 0 127 128 191 c) by (done || lia). }
    rewrite Ht, no_arrow by done.
    destruct (short_at_level path n column level message Hp Hl) as (at_ & -> & Hat).
    unfold located. rewrite take_app_ge by done. unfold place. rewrite <- !(assoc_L (++)).
    rewrite location_place; [done..|]. right. by eexists.
  - assert (Ht : trim_start (ws ++ Text.bytes "--> " ++ place path n column) = Text.bytes "--> " ++ place path n column)
      by by apply (trim_start_run ws "-"%char).
    rewrite Ht.
    replace (strip_prefix _ _) with (Some (place path n column)) by (symmetry; by apply strip_prefix_Some).
    unfold located, place. rewrite location_place; [done..|]. right. by eexists.
Qed.

Lemma diagnostic_located_witness :
  parse_cargo_diagnostic 7 Static (Text.bytes "clippy")
    (Text.bytes "src/main.rs:12:5: error: oh: error: no") =
  Some (new_finding 7 Static (Text.bytes "clippy") (Text.bytes "clippy diagnostic at src/main.rs")
          (Some (Text.bytes "src/main.rs")) (Some 12%N)).
Proof.
  assert (Hp : path_like (Text.bytes "src/main.rs")).
  { split; [done|]. refine (bool_decide_unpack _ _). by vm_compute. }
  destruct (diagnostic_located 7%N Static (Text.bytes "clippy") (Text.bytes "src/main.rs") 12 5
    (Text.bytes ": error:") (Text.bytes " oh: error: no") [] Hp) as [H _]; [done..| |exact H].
  by exists [].
Defined.

(** A gate's memory is bounded: of a stream that yields any amount it keeps the
    first bytes up to the cap, whatever the pieces they arrive in, and nothing else. *)
Theorem capture_bounded cap reads :
  capture cap [] reads = take_N cap (stream_data reads) ∧
  (N.of_nat (length (capture cap [] reads)) ≤ cap)%N.
Proof.
  rewrite capture_take by (cbn; lia). split; [done|]. unfold take_N. rewrite length_take. lia.
Qed.

(** ** What modelling showed *)

(** The number of peers that differ is told as the number of groups they form. *)
Example differing_peers_miscounted :
  cross_check (λ q, q) 9 (Text.bytes "q")
    [mkAnswer 1 (Text.bytes "yes"); mkAnswer 2 (Text.bytes "no"); mkAnswer 3 (Text.bytes "yes");
     mkAnswer 4 (Text.bytes "yes"); mkAnswer 5 (Text.bytes "no")] =
  Ok [new_finding 9 CrossAgent (Text.bytes "peers")
        (Text.bytes "peers diverge on q: 3 of 5 agree, 1 differ") None None].
Proof. by vm_compute. Qed.

(** A finding at a path of ordinary length is published and can never be voted on: its
    evidence reference is over the budget of a verdict. *)
Lemma finding_unvotable (sql_length : string → nat) {CT VT WT : Type}
    `{Table CT Id ClaimRow.t} `{Table VT (Id * Id) unit} `{Table WT (Id * Id) VoteRow.t}
    io (b : gmap Id ClaimState.t) claim voter v (d : Db.t CT VT WT) n fresh :
  let path := Text.bytes "crates/supra_blackboard/src/board.rs" in
  let f := new_finding fresh Static (Text.bytes "clippy") (Text.bytes "clippy diagnostic at " ++ path)
             (Some path) (Some n) in
  vote_finding sql_length io b claim voter v f d = (b, d, Err (BStore Malformed)).
Proof.
  intros path f. unfold vote_finding, Verdict.new.
  destruct (Verdict.MAX_REASON_BYTES <? _); [done|].
  assert (E : (Verdict.MAX_EVIDENCE_BYTES <? String.length (as_string (evidence_ref f))) = true); [|by rewrite E].
  apply Nat.ltb_lt. rewrite <- bytes_length. unfold as_string, Text.bytes.
  rewrite String.list_ascii_of_string_of_list_ascii. unfold evidence_ref, f. cbn [f_path line source].
  rewrite !length_app. unfold Verdict.MAX_EVIDENCE_BYTES. simpl. lia.
Qed.
