(* ===== verification/Syntax.v ===== *)
(** * Syntax trees and the symbols they declare: [supra_digest/src/parse.rs], [symbol.rs]

    The grammars and the parser are compiled C code outside the repository: they are the
    parameters [loads] and [parse] of the definitions below, and a parsed file is a [Node].
    What this file holds is what the program makes of a tree: whether it has errors, which
    of its nodes declare a symbol, under which name and inside which other declaration. *)

From Stdlib Require Import Ascii.
From S2P Require Import Prelude Text Sealing Utf8 FileSystem Language.

(** ** Trees *)

Inductive Grammar :=
| LANGUAGE_RUST | LANGUAGE_TYPESCRIPT | LANGUAGE_TSX | LANGUAGE_PYTHON | LANGUAGE_JAVASCRIPT
| LANGUAGE_GO | LANGUAGE_C | LANGUAGE_CPP.

#[export] Instance Grammar_eq_dec : EqDecision Grammar.
Proof. solve_decision. Defined.

Definition grammar (language : Language) : Grammar :=
  match language with
  | Rust => LANGUAGE_RUST
  | TypeScript => LANGUAGE_TYPESCRIPT
  | Python => LANGUAGE_PYTHON
  | JavaScript => LANGUAGE_JAVASCRIPT
  | Go => LANGUAGE_GO
  | C => LANGUAGE_C
  | Cpp => LANGUAGE_CPP
  end.

(** A node as the program reads it: [kind()], [start_byte()], [end_byte()],
    [start_position().row], [is_missing()], which of its children
    [child_by_field_name("name")] is, and [children()]. *)
Local Unset Elimination Schemes.
Inductive Node := mkNode {
  kind : string; start_byte : nat; end_byte : nat; start_row : N; is_missing : bool;
  name_field : option nat; children : list Node }.
Local Set Elimination Schemes.

(** The induction principle that reaches every child. *)
Definition Node_ind (P : Node → Prop)
    (HP : ∀ k s e r m f cs, Forall P cs → P (mkNode k s e r m f cs)) : ∀ n, P n :=
  fix go (n : Node) : P n :=
    match n with
    | mkNode k s e r m f cs =>
        HP k s e r m f cs ((fix all (l : list Node) : Forall P l :=
          match l with [] => Forall_nil_2 P | c :: l => Forall_cons_2 P c l (go c) (all l) end) cs)
    end.

Fixpoint node_size (n : Node) : nat := S (sum_list_with node_size (children n)).

(** The nodes of a tree, every node in front of its children. *)
Fixpoint preorder (n : Node) : list Node := n :: flat_map preorder (children n).

(** The bytes between two offsets, and a node's text when those bytes are UTF-8. *)
Definition slice (a b : nat) (source : list byte) : list byte := take (b - a) (drop a source).

Definition utf8_text (n : Node) (source : list byte) : option (list byte) :=
  let text := slice (start_byte n) (end_byte n) source in
  if is_utf8 text then Some text else None.

(** What the parser promises of a tree: a node's children lie inside it, in order and
    without overlap. *)
Fixpoint in_order (lo hi : nat) (cs : list Node) : bool :=
  match cs with
  | [] => lo <=? hi
  | c :: cs => (lo <=? start_byte c) && (start_byte c <=? end_byte c) && in_order (end_byte c) hi cs
  end.

Fixpoint well_nested (n : Node) : bool :=
  in_order (start_byte n) (end_byte n) (children n) && forallb well_nested (children n).

Fixpoint has_error (n : Node) : bool :=
  bool_decide (kind n = "ERROR") || is_missing n || existsb has_error (children n).

(** ** Symbols *)

Inductive SymbolKind := Function | Type_ | Module_ | Constant | Import.

#[export] Instance SymbolKind_eq_dec : EqDecision SymbolKind.
Proof. solve_decision. Defined.

Definition symbol_kind_name (k : SymbolKind) : string :=
  match k with
  | Function => "function" | Type_ => "type" | Module_ => "module"
  | Constant => "constant" | Import => "import"
  end.

Module Symbol.
Record t := mk {
  path : string; language : Language; kind : SymbolKind; name : list byte;
  parent : option (list byte); start_byte : nat; end_byte : nat; start_line : N }.

#[global] Instance t_eq_dec : EqDecision t.
Proof. solve_decision. Defined.

Definition len_bytes (s : t) : nat := end_byte s - start_byte s.
Definition is_empty (s : t) : bool := end_byte s <=? start_byte s.

Definition locator (s : t) : list byte :=
  bytes (path s) ++ bytes ":" ++ dec (N.of_nat (start_byte s)) ++ bytes "-" ++ dec (N.of_nat (end_byte s)).

(** A range that leaves the source, or runs backwards, is hashed as no bytes. *)
Definition fingerprint (blake3 : list byte → list byte) (s : t) (source : list byte) : list byte :=
  blake3 (if (start_byte s <=? end_byte s) && (end_byte s <=? length source)
          then slice (start_byte s) (end_byte s) source else []).
End Symbol.

(** ** Declarations *)

Definition declaration_kind (language : Language) (kind : string) : option SymbolKind :=
  let one_of (kinds : list string) := bool_decide (kind ∈ kinds) in
  match language with
  | Rust =>
      if one_of ["function_item"] then Some Function
      else if one_of ["struct_item"; "enum_item"; "trait_item"; "union_item"] then Some Type_
      else if one_of ["mod_item"] then Some Module_
      else if one_of ["const_item"; "static_item"; "type_item"] then Some Constant
      else if one_of ["use_declaration"] then Some Import
      else None
  | TypeScript | JavaScript =>
      if one_of ["function_declaration"; "method_definition"; "arrow_function"] then Some Function
      else if one_of ["class_declaration"; "interface_declaration"; "type_alias_declaration"; "enum_declaration"]
      then Some Type_
      else if one_of ["import_statement"; "export_statement"] then Some Import
      else None
  | Python =>
      if one_of ["function_definition"] then Some Function
      else if one_of ["class_definition"] then Some Type_
      else if one_of ["import_statement"; "import_from_statement"] then Some Import
      else None
  | Go =>
      if one_of ["function_declaration"; "method_declaration"] then Some Function
      else if one_of ["type_declaration"] then Some Type_
      else if one_of ["import_declaration"] then Some Import
      else None
  | C | Cpp =>
      if one_of ["function_definition"; "function_declarator"] then Some Function
      else if one_of ["struct_specifier"; "enum_specifier"; "class_specifier"; "union_specifier"] then Some Type_
      else if one_of ["namespace_definition"] then Some Module_
      else if one_of ["type_definition"] then Some Constant
      else if one_of ["preproc_include"] then Some Import
      else None
  end.

(** A text that is there and not empty. *)
Definition non_empty (text : option (list byte)) : option (list byte) :=
  text ← text; if bool_decide (text = []) then None else Some text.

(** The text of the first child of one of some kinds, when it is one. *)
Definition first_text (kinds : list string) (n : Node) (source : list byte) : option (list byte) :=
  child ← List.find (λ c, bool_decide (kind c ∈ kinds)) (children n);
  non_empty (utf8_text child source).

Definition impl_target (n : Node) (source : list byte) : option (list byte) :=
  first_text ["type_identifier"; "generic_type"] n source.

(** The first child of kind [identifier] that has a text. *)
Fixpoint first_identifier (cs : list Node) (source : list byte) : option (list byte) :=
  match cs with
  | [] => None
  | c :: cs =>
      match (if bool_decide (kind c = "identifier") then non_empty (utf8_text c source) else None) with
      | Some text => Some text
      | None => first_identifier cs source
      end
  end.

Definition named_child (n : Node) : option Node := i ← name_field n; children n !! i.

Definition node_name (n : Node) (source : list byte) : option (list byte) :=
  match named ← named_child n; non_empty (utf8_text named source) with
  | Some text => Some text
  | None =>
      if bool_decide (kind n = "impl_item") then impl_target n source
      else
        match (if ends_with (bytes "declarator") (bytes (kind n))
               then first_identifier (children n) source else None) with
        | Some text => Some text
        | None => first_text ["identifier"; "type_identifier"; "property_identifier"] n source
        end
  end.

(** ** The harvest *)

(** [u32::try_from(row).unwrap_or(u32::MAX).saturating_add(1)]. *)
Definition line_of (row : N) : N := (N.min (N.min row (Z.to_N u32_max) + 1) (Z.to_N u32_max))%N.

Definition or_else {A} (a b : option A) : option A := match a with Some x => Some x | None => b end.

(** The scope a node's children get, and the symbols, once the node is popped. *)
Definition visit_node (p : string) (l : Language) (source : list byte) (n : Node)
    (scope : option (list byte)) (symbols : list Symbol.t) : option (list byte) * list Symbol.t :=
  if bool_decide (kind n = "impl_item") && bool_decide (l = Rust)
  then (or_else (impl_target n source) scope, symbols)
  else
    match declaration_kind l (kind n) with
    | Some k =>
        let name := default [] (node_name n source) in
        let symbols :=
          if bool_decide (name = []) then symbols
          else symbols ++
            [Symbol.mk p l k name scope (start_byte n) (end_byte n) (line_of (start_row n))] in
        (or_else (Symbol.name <$> last symbols) scope, symbols)
    | None => (scope, symbols)
    end.

(** The loop over the stack, its top first; [None] is the end of the fuel. *)
Fixpoint harvest_loop (fuel : nat) (p : string) (l : Language) (source : list byte)
    (stack : list (Node * option (list byte))) (symbols : list Symbol.t) : option (list Symbol.t) :=
  match stack with
  | [] => Some symbols
  | (n, scope) :: stack =>
      match fuel with
      | 0 => None
      | S fuel =>
          let '(nested, symbols) := visit_node p l source n scope symbols in
          harvest_loop fuel p l source (((λ c, (c, nested)) <$> children n) ++ stack) symbols
      end
  end.

(** [sort_by], which keeps the order of what it finds equal. *)
Fixpoint insert_by {A} (leb : A → A → bool) (x : A) (l : list A) : list A :=
  match l with
  | [] => [x]
  | y :: l => if leb x y then x :: y :: l else y :: insert_by leb x l
  end.

Definition sort_by {A} (leb : A → A → bool) (l : list A) : list A := foldr (insert_by leb) [] l.

(** All the symbols of a harvest are of one path; every node is popped once, so the
    fuel lasts ([harvest_loop_exact]). *)
Definition harvest (p : string) (l : Language) (root : Node) (source : list byte) : list Symbol.t :=
  sort_by (λ a b, Symbol.start_byte a <=? Symbol.start_byte b)
    (default [] (harvest_loop (node_size root) p l source [(root, None)] [])).

(** ** A file *)

Inductive DigestError :=
| BadRoot (root : string)
| Unreadable (path : string) (detail : list byte)
| UnsupportedLanguage (path : string) (extension : option string)
| OverBudget (tokens budget : nat).

Inductive ParseOutcome :=
| Clean (symbols : list Symbol.t)
| HasErrors (path : string).

Section parse.
(** Whether the parser takes a grammar, and the tree it makes of a source. *)
Context (loads : Grammar → bool) (parse : Grammar → list byte → option Node).

Definition parse_file (p : string) (source : list byte) : result ParseOutcome DigestError :=
  match Language.detect p with
  | None => Err (UnsupportedLanguage p (Language.extension p))
  | Some l =>
      let g := if bool_decide (Language.extension p = Some "tsx") then LANGUAGE_TSX else grammar l in
      if negb (loads g) then Err (Unreadable p (bytes "the grammar failed to load"))
      else
        match parse g source with
        | None => Err (Unreadable p (bytes "the parser returned no tree"))
        | Some root =>
            if has_error root then Ok (HasErrors p)
            else Ok (Clean (harvest p l root source))
        end
  end.
End parse.

(** ** What the loop does *)

Lemma omap_flat_map {A B C} (f : B → option C) (g : A → list B) l :
  omap f (flat_map g l) = flat_map (λ x, omap f (g x)) l.
Proof. induction l as [|x l IH]; [done|]. cbn [flat_map]. by rewrite omap_app, IH. Qed.

Section harvest.
Context (p : string) (l : Language) (source : list byte).

(** The visit of a whole tree, and of trees in a row. *)
Fixpoint visit (n : Node) (scope : option (list byte)) (symbols : list Symbol.t) : list Symbol.t :=
  let '(nested, symbols) := visit_node p l source n scope symbols in
  (fix all (cs : list Node) (symbols : list Symbol.t) : list Symbol.t :=
     match cs with [] => symbols | c :: cs => all cs (visit c nested symbols) end) (children n) symbols.

Definition visit_all (cs : list Node) (scope : option (list byte)) (symbols : list Symbol.t) : list Symbol.t :=
  foldl (λ symbols c, visit c scope symbols) symbols cs.

Lemma visit_eq n scope symbols :
  visit n scope symbols =
    let '(nested, symbols) := visit_node p l source n scope symbols in visit_all (children n) nested symbols.
Proof.
  destruct n as [k s e r m f cs]. unfold visit_all. cbn [visit children].
  destruct (visit_node _ _ _ _ _ _) as [nested syms]. revert syms.
  induction cs as [|c cs IH]; intros syms; [done|]. cbn. apply IH.
Qed.

Lemma harvest_loop_exact n : ∀ fuel scope stack symbols,
  harvest_loop (node_size n + fuel) p l source ((n, scope) :: stack) symbols =
  harvest_loop fuel p l source stack (visit n scope symbols).
Proof.
  induction n as [k s e r m f cs IH] using Node_ind. intros fuel scope stack symbols.
  rewrite visit_eq. cbn [node_size children Nat.add harvest_loop].
  destruct (visit_node _ _ _ _ _ _) as [nested syms]. revert syms.
  induction IH as [|c cs Hc _ IHcs]; intros syms; [done|].
  cbn [sum_list_with fmap list_fmap app]. rewrite <- Nat.add_assoc, Hc.
  rewrite IHcs. done.
Qed.

Lemma harvest_loop_root n : harvest_loop (node_size n) p l source [(n, None)] [] = Some (visit n None []).
Proof.
  replace (node_size n) with (node_size n + 0) by lia. rewrite harvest_loop_exact. done.
Qed.

(** ** What a tree declares *)

(** What a node declares; an [impl] block declares nothing itself. *)
Definition declares (n : Node) : option (SymbolKind * list byte) :=
  k ← declaration_kind l (kind n); name ← non_empty (node_name n source); Some (k, name).

Definition symbol_of (n : Node) (scope : option (list byte)) : option Symbol.t :=
  '(k, name) ← declares n;
  Some (Symbol.mk p l k name scope (start_byte n) (end_byte n) (line_of (start_row n))).

(** The scope a node gives its children: an [impl] block its target, a declaration its
    name, and any other node its own scope. *)
Definition nested_scope (n : Node) (scope : option (list byte)) : option (list byte) :=
  if bool_decide (kind n = "impl_item") && bool_decide (l = Rust)
  then or_else (impl_target n source) scope
  else match declares n with Some (_, name) => Some name | None => scope end.

Fixpoint scoped (n : Node) (scope : option (list byte)) : list (Node * option (list byte)) :=
  (n, scope) :: flat_map (λ c, scoped c (nested_scope n scope)) (children n).

Definition documented (n : Node) (scope : option (list byte)) : list Symbol.t :=
  omap (λ x, symbol_of x.1 x.2) (scoped n scope).

(** A symbol but for its parent. *)
Definition orphan (s : Symbol.t) : Symbol.t :=
  Symbol.mk (Symbol.path s) (Symbol.language s) (Symbol.kind s) (Symbol.name s) None
    (Symbol.start_byte s) (Symbol.end_byte s) (Symbol.start_line s).

(** Nothing is declared inside a declaration that has no name. *)
Definition silent (n : Node) : bool := forallb (λ c, bool_decide (declares c = None)) (preorder n).

Fixpoint nameless_silent (n : Node) : bool :=
  (bool_decide (declaration_kind l (kind n) = None) || bool_decide (is_Some (declares n))
   || forallb silent (children n)) && forallb nameless_silent (children n).

Lemma visit_node_declares n scope symbols :
  (visit_node p l source n scope symbols).2 =
    symbols ++ (match symbol_of n scope with Some s => [s] | None => [] end).
Proof.
  unfold visit_node, symbol_of, declares. destruct (_ && _) eqn:Himpl.
  { apply andb_true_iff in Himpl as [Hk%bool_decide_eq_true_1 Hl%bool_decide_eq_true_1].
    rewrite Hk, Hl. cbn. by rewrite app_nil_r. }
  destruct (declaration_kind l (kind n)) as [k|]; cbn; [|by rewrite app_nil_r].
  destruct (node_name n source) as [name|]; cbn; [|by rewrite app_nil_r].
  destruct (bool_decide (name = [])); cbn; [by rewrite app_nil_r|done].
Qed.

Lemma visit_node_scope n scope symbols :
  declaration_kind l (kind n) = None ∨ is_Some (declares n) →
  (visit_node p l source n scope symbols).1 = nested_scope n scope.
Proof.
  unfold visit_node, nested_scope, declares. destruct (_ && _); [done|].
  destruct (declaration_kind l (kind n)) as [k|]; cbn; [|done]. intros [?|[x Hx]]; [done|].
  destruct (node_name n source) as [name|]; cbn in *; [|done]. case_bool_decide; cbn in *; [done|].
  by rewrite last_snoc.
Qed.

Lemma symbol_of_orphan n scope : orphan <$> symbol_of n scope = symbol_of n None.
Proof. unfold symbol_of. by destruct (declares n) as [[k name]|]. Qed.

Lemma visit_orphans n : ∀ scope symbols,
  orphan <$> visit n scope symbols =
  (orphan <$> symbols) ++ omap (λ n, symbol_of n None) (preorder n).
Proof.
  induction n as [k s e r m f cs IH] using Node_ind. intros scope symbols. rewrite visit_eq.
  pose proof (visit_node_declares (mkNode k s e r m f cs) scope symbols) as Hs.
  destruct (visit_node _ _ _ _ _ _) as [nested syms]. cbn [snd] in Hs. subst syms.
  set (n := mkNode k s e r m f cs). cbn [children preorder omap list_omap].
  assert (Hrest : ∀ syms, orphan <$> visit_all cs nested syms =
      (orphan <$> syms) ++ omap (λ n, symbol_of n None) (flat_map preorder cs)).
  { unfold visit_all. clear -IH. induction IH as [|c cs Hc _ IHcs]; intros syms; cbn [foldl flat_map omap list_omap].
    - by rewrite app_nil_r.
    - rewrite IHcs, Hc, omap_app, app_assoc. done. }
  change (children n) with cs. rewrite Hrest, fmap_app, <- app_assoc. f_equal.
  change (preorder n) with (n :: flat_map preorder cs). cbn [omap list_omap].
  rewrite <- (symbol_of_orphan n scope). by destruct (symbol_of n scope).
Qed.

Lemma silent_visit n : ∀ scope symbols, silent n = true → visit n scope symbols = symbols.
Proof.
  induction n as [k s e r m f cs IH] using Node_ind. intros scope symbols. rewrite visit_eq.
  unfold silent. cbn [preorder forallb children]. rewrite andb_true_iff. intros [Hn%bool_decide_eq_true_1 Hcs].
  pose proof (visit_node_declares (mkNode k s e r m f cs) scope symbols) as Hs.
  destruct (visit_node _ _ _ _ _ _) as [nested syms]. cbn [snd] in Hs.
  unfold symbol_of in Hs. rewrite Hn in Hs. cbn in Hs. rewrite app_nil_r in Hs. subst syms.
  clear -IH Hcs. unfold visit_all.
  induction IH as [|c cs Hc _ IHcs]; [done|]. cbn in *. rewrite forallb_app, andb_true_iff in Hcs.
  destruct Hcs as [H1 H2]. by rewrite Hc, IHcs.
Qed.

Lemma documented_eq n scope :
  documented n scope =
    option_list (symbol_of n scope) ++ flat_map (λ c, documented c (nested_scope n scope)) (children n).
Proof.
  unfold documented. destruct n as [k s e r m f cs]. cbn [scoped children].
  set (n := mkNode k s e r m f cs). cbn [omap list_omap fst snd]. rewrite <- (omap_flat_map _ _ cs).
  by destruct (symbol_of n scope).
Qed.

Lemma symbol_of_None n scope : declares n = None → symbol_of n scope = None.
Proof. unfold symbol_of. by intros ->. Qed.

Lemma silent_documented n : ∀ scope, silent n = true → documented n scope = [].
Proof.
  induction n as [k s e r m f cs IH] using Node_ind. intros scope. unfold silent. rewrite documented_eq.
  cbn [preorder forallb children]. rewrite andb_true_iff. intros [Hn%bool_decide_eq_true_1 Hcs].
  rewrite (symbol_of_None _ _ Hn). generalize (nested_scope (mkNode k s e r m f cs) scope). intros scope'.
  clear -IH Hcs. cbn. induction IH as [|c cs Hc _ IHcs]; [done|]. cbn [flat_map] in *.
  rewrite forallb_app, andb_true_iff in Hcs. destruct Hcs as [H1 H2]. by rewrite Hc, IHcs.
Qed.

Lemma visit_documented n : ∀ scope symbols, nameless_silent n = true →
  visit n scope symbols = symbols ++ documented n scope.
Proof.
  induction n as [k s e r m f cs IH] using Node_ind. intros scope symbols.
  rewrite visit_eq, documented_eq. set (n := mkNode k s e r m f cs).
  change (nameless_silent n) with ((bool_decide (declaration_kind l (kind n) = None) ||
    bool_decide (is_Some (declares n)) || forallb silent cs) && forallb nameless_silent cs).
  change (children n) with cs. rewrite andb_true_iff. intros [Hn Hcs].
  pose proof (visit_node_declares n scope symbols) as Hs.
  pose proof (visit_node_scope n scope symbols) as Hsc.
  destruct (visit_node _ _ _ _ _ _) as [nested syms]. cbn [fst snd] in *.
  replace (match symbol_of n scope with Some s0 => [s0] | None => [] end)
    with (option_list (symbol_of n scope)) in Hs by done.
  rewrite app_assoc, <- Hs. clear Hs. revert syms.
  apply orb_true_iff in Hn as [Hn|Hn].
  - assert (Hd : declaration_kind l (kind n) = None ∨ is_Some (declares n)).
    { apply orb_true_iff in Hn as [Hn|Hn]; apply bool_decide_eq_true_1 in Hn; auto. }
    rewrite <- (Hsc Hd).
    clear -IH Hcs. unfold visit_all.
    induction IH as [|c cs Hc _ IHcs]; intros syms; cbn in *; [by rewrite app_nil_r|].
    apply andb_true_iff in Hcs as [H1 H2]. by rewrite Hc, IHcs, app_assoc.
  - generalize (nested_scope n scope). intros inner. clear -Hn. unfold visit_all.
    induction cs as [|c cs IHcs]; intros syms; cbn [forallb foldl flat_map] in *; [by rewrite app_nil_r|].
    apply andb_true_iff in Hn as [H1 H2]. rewrite silent_visit, silent_documented by done. by apply IHcs.
Qed.
End harvest.

(** ** Sorting *)

Lemma insert_by_perm {A} (leb : A → A → bool) x l : insert_by leb x l ≡ₚ x :: l.
Proof.
  induction l as [|y l IH]; [done|]. cbn. destruct (leb x y); [done|]. rewrite IH. constructor.
Qed.

Lemma sort_by_perm {A} (leb : A → A → bool) l : sort_by leb l ≡ₚ l.
Proof. induction l as [|x l IH]; [done|]. cbn. rewrite insert_by_perm. by apply perm_skip. Qed.

Lemma sort_by_id {A} (leb : A → A → bool) l : StronglySorted (λ x y, leb x y = true) l → sort_by leb l = l.
Proof.
  induction 1 as [|x l Hl IH Hx]; [done|]. cbn. unfold sort_by in IH. rewrite IH.
  destruct Hx as [|y l Hy _]; [done|]. cbn. by rewrite Hy.
Qed.

Lemma insert_by_fmap {A B} (f : A → B) (leb : A → A → bool) (leb' : B → B → bool) x l :
  (∀ x y, leb' (f x) (f y) = leb x y) → f <$> insert_by leb x l = insert_by leb' (f x) (f <$> l).
Proof.
  intros Hf. induction l as [|y l IH]; [done|]. cbn. rewrite Hf. destruct (leb x y); [done|].
  cbn. f_equal. apply IH.
Qed.

Lemma sort_by_fmap {A B} (f : A → B) (leb : A → A → bool) (leb' : B → B → bool) l :
  (∀ x y, leb' (f x) (f y) = leb x y) → f <$> sort_by leb l = sort_by leb' (f <$> l).
Proof.
  intros Hf. induction l as [|x l IH]; [done|].
  change (f <$> insert_by leb x (sort_by leb l) = insert_by leb' (f x) (sort_by leb' (f <$> l))).
  rewrite <- IH. by apply insert_by_fmap.
Qed.

Lemma insert_by_sorted {A} (leb : A → A → bool) x l :
  (∀ x y, leb x y = true ∨ leb y x = true) → (∀ x y z, leb x y = true → leb y z = true → leb x z = true) →
  StronglySorted (λ x y, leb x y = true) l → StronglySorted (λ x y, leb x y = true) (insert_by leb x l).
Proof.
  intros Htot Htr. induction 1 as [|y l Hl IH Hy]; cbn; [by repeat constructor|].
  destruct (leb x y) eqn:Hxy.
  - constructor; [by constructor|]. constructor; [done|]. eapply Forall_impl; [done|]. eauto.
  - constructor; [done|]. rewrite insert_by_perm. constructor; [|done]. destruct (Htot x y); congruence.
Qed.

Lemma sort_by_sorted {A} (leb : A → A → bool) l :
  (∀ x y, leb x y = true ∨ leb y x = true) → (∀ x y z, leb x y = true → leb y z = true → leb x z = true) →
  StronglySorted (λ x y, leb x y = true) (sort_by leb l).
Proof. intros Htot Htr. induction l; cbn; [constructor|]. by apply insert_by_sorted. Qed.

Lemma StronglySorted_impl {A} (R S : A → A → Prop) l :
  (∀ x y, R x y → S x y) → StronglySorted R l → StronglySorted S l.
Proof. intros HRS. induction 1; constructor; [done|]. eapply Forall_impl; eauto. Qed.

Lemma StronglySorted_map {A B} (f : A → B) (R : B → B → Prop) l :
  StronglySorted (λ x y, R (f x) (f y)) l → StronglySorted R (f <$> l).
Proof. induction 1 as [|x l _ IH Hx]; [constructor|]. constructor; [done|]. by apply Forall_fmap. Qed.

(** ** Spans *)

Lemma in_order_bounds lo hi cs : in_order lo hi cs = true →
  lo ≤ hi ∧ Forall (λ c, lo ≤ start_byte c ∧ start_byte c ≤ end_byte c ∧ end_byte c ≤ hi) cs.
Proof.
  revert lo. induction cs as [|c cs IH]; cbn; intros lo H; [to_prop; auto|].
  apply andb_true_iff in H as [[H1%Nat.leb_le H2%Nat.leb_le]%andb_true_iff H3].
  destruct (IH _ H3) as [H4 H5]. split; [lia|]. constructor; [lia|].
  eapply Forall_impl; [done|]. cbn. lia.
Qed.

Lemma preorder_span n : well_nested n = true →
  start_byte n ≤ end_byte n ∧
  Forall (λ m, start_byte n ≤ start_byte m ∧ start_byte m ≤ end_byte m ∧ end_byte m ≤ end_byte n) (preorder n).
Proof.
  induction n as [k s e r m f cs IH] using Node_ind. cbn [well_nested start_byte end_byte children preorder].
  rewrite andb_true_iff. intros [Hord Hcs]. apply in_order_bounds in Hord as [Hse Hb]. split; [done|].
  constructor; [cbn; lia|]. clear Hse. induction IH as [|c cs Hc _ IHcs]; [by constructor|].
  cbn in *. apply andb_true_iff in Hcs as [Hw Hcs]. apply Forall_cons in Hb as [Hb1 Hb].
  apply Forall_app. split; [|by apply IHcs]. destruct (Hc Hw) as [_ Hf].
  eapply Forall_impl; [exact Hf|]. cbn. lia.
Qed.

Lemma preorder_sorted n : well_nested n = true →
  StronglySorted (λ a b, start_byte a ≤ start_byte b) (preorder n).
Proof.
  induction n as [k s e r m f cs IH] using Node_ind. intros Hw.
  pose proof (preorder_span _ Hw) as [_ Hsp]. cbn [preorder] in *. apply Forall_cons in Hsp as [_ Hsp].
  cbn [children] in Hsp.
  constructor; [|eapply Forall_impl; [exact Hsp|]; cbn; lia]. clear Hsp.
  cbn [well_nested start_byte end_byte children] in Hw. apply andb_true_iff in Hw as [Hord Hw]. cbn [children].
  revert s Hord. induction IH as [|c cs Hc _ IHcs]; intros lo Hord; [constructor|].
  cbn in *. apply andb_true_iff in Hw as [Hwc Hw].
  apply andb_true_iff in Hord as [[H1%Nat.leb_le H2%Nat.leb_le]%andb_true_iff H3].
  apply StronglySorted_app_2; [|by apply Hc|by eapply IHcs].
  intros x y Hx Hy. destruct (preorder_span c Hwc) as [_ Hf]. rewrite Forall_forall in Hf. apply Hf in Hx.
  apply in_order_bounds in H3 as [_ H3]. apply list_elem_of_In, in_flat_map in Hy as (d & Hd & Hy).
  apply list_elem_of_In in Hd, Hy. rewrite Forall_forall in H3. pose proof (H3 d Hd) as ?.
  assert (Hwd : well_nested d = true). { eapply forallb_forall; [exact Hw|]. by apply list_elem_of_In. }
  destruct (preorder_span d Hwd) as [_ Hg]. rewrite Forall_forall in Hg. apply Hg in Hy. lia.
Qed.

Lemma omap_sorted {A B} (f : A → option B) (R : A → A → Prop) (S : B → B → Prop) l :
  (∀ x y a b, f x = Some a → f y = Some b → R x y → S a b) → StronglySorted R l → StronglySorted S (omap f l).
Proof.
  intros Hf. induction 1 as [|x l Hl IH Hx]; cbn; [constructor|]. destruct (f x) as [a|] eqn:Ha; [|done].
  constructor; [done|]. apply Forall_forall. intros b (y & Hy & Hb)%list_elem_of_omap.
  rewrite Forall_forall in Hx. eauto.
Qed.

(** ** The symbols of a file *)

(** The grammar a path is parsed with. *)
Definition grammar_of (p : string) (l : Language) : Grammar :=
  if bool_decide (Language.extension p = Some "tsx") then LANGUAGE_TSX else grammar l.

(** A tree without error nodes. *)
Lemma has_error_false n :
  has_error n = false ↔ Forall (λ m, kind m ≠ "ERROR" ∧ is_missing m = false) (preorder n).
Proof.
  induction n as [k s e r m f cs IH] using Node_ind. cbn [has_error preorder children kind is_missing].
  rewrite !orb_false_iff, bool_decide_eq_false, Forall_cons. cbn [kind is_missing].
  enough (existsb has_error cs = false ↔
    Forall (λ m, kind m ≠ "ERROR" ∧ is_missing m = false) (flat_map preorder cs)) as -> by tauto.
  induction IH as [|c cs Hc _ IHcs]; [done|]. cbn [existsb flat_map].
  by rewrite orb_false_iff, Forall_app, Hc, IHcs.
Qed.

(** The declarations of a tree, parents left out. *)
Definition declarations (p : string) (l : Language) (source : list byte) (root : Node) : list Symbol.t :=
  omap (λ n, symbol_of p l source n None) (preorder root).

Lemma harvest_orphans p l root source : well_nested root = true →
  orphan <$> harvest p l root source = declarations p l source root.
Proof.
  intros Hw. unfold harvest. rewrite harvest_loop_root. cbn [default from_option id].
  rewrite (sort_by_fmap orphan _ (λ a b, Symbol.start_byte a <=? Symbol.start_byte b)) by done.
  rewrite visit_orphans. cbn [fmap list_fmap app]. apply sort_by_id. unfold declarations.
  eapply omap_sorted; [|by apply preorder_sorted]. unfold symbol_of. intros x y a b Ha Hb Hxy.
  destruct (declares _ _ x) as [[??]|], (declares _ _ y) as [[??]|]; simplify_eq/=. by apply Nat.leb_le.
Qed.

Lemma symbol_of_start p l source n scope s :
  symbol_of p l source n scope = Some s → Symbol.start_byte s = start_byte n.
Proof. unfold symbol_of. destruct (declares _ _ n) as [[??]|]; by intros; simplify_eq/=. Qed.

Lemma scoped_nodes l source n scope : (scoped l source n scope).*1 = preorder n.
Proof.
  revert scope. induction n as [k s e r m f cs IH] using Node_ind. intros scope.
  cbn [scoped preorder children fmap list_fmap fst]. f_equal.
  generalize (nested_scope l source (mkNode k s e r m f cs) scope). intros inner.
  induction IH as [|c cs Hc _ IHcs]; [done|]. cbn [flat_map]. rewrite fmap_app, Hc. by f_equal.
Qed.

Lemma documented_sorted p l source n scope : well_nested n = true →
  StronglySorted (λ a b, (Symbol.start_byte a <=? Symbol.start_byte b) = true) (documented p l source n scope).
Proof.
  intros Hw. unfold documented.
  apply (omap_sorted _ (λ a b, start_byte a.1 ≤ start_byte b.1)).
  - intros x y a b Ha%symbol_of_start Hb%symbol_of_start Hxy. rewrite Ha, Hb. by apply Nat.leb_le.
  - pose proof (preorder_sorted n Hw) as H. rewrite <- (scoped_nodes l source n scope) in H.
    induction (scoped l source n scope) as [|x xs IH]; [constructor|]. rewrite fmap_cons in H.
    apply StronglySorted_inv in H as [H1 H2]. constructor; [by apply IH|]. by rewrite Forall_fmap in H2.
Qed.

Lemma harvest_documented p l root source : well_nested root = true →
  nameless_silent l source root = true → harvest p l root source = documented p l source root None.
Proof.
  intros Hw Hn. unfold harvest. rewrite harvest_loop_root. cbn [default from_option id].
  rewrite visit_documented by done. cbn [app]. by apply sort_by_id, documented_sorted.
Qed.

(** When a file parses, its symbols are those its tree declares: one for each node of
    a declaring kind that has a name, in the order of the text, with the node's bytes and
    line, from a tree without an error node anywhere.  If nothing is declared inside a
    nameless declaration, their parents are the nearest enclosing declarations, an [impl]
    block standing for its target. *)
Theorem parse_file_exact loads parse p source symbols :
  (∀ g text root, parse g text = Some root → well_nested root = true) →
  parse_file loads parse p source = Ok (Clean symbols) →
  ∃ l root, Language.detect p = Some l ∧ parse (grammar_of p l) source = Some root ∧
    Forall (λ n, kind n ≠ "ERROR" ∧ is_missing n = false) (preorder root) ∧
    orphan <$> symbols = declarations p l source root ∧
    (nameless_silent l source root = true → symbols = documented p l source root None).
Proof.
  intros Hparser H. unfold parse_file in H. destruct (Language.detect p) as [l|]; [|done].
  fold (grammar_of p l) in H. destruct (negb (loads _)); [done|].
  destruct (parse (grammar_of p l) source) as [root|] eqn:Hroot; [|done].
  destruct (has_error root) eqn:He; [done|]. simplify_eq. pose proof (Hparser _ _ _ Hroot) as Hw.
  exists l, root. split_and!; [done|done|by apply has_error_false|by apply harvest_orphans|].
  intros Hn. by apply harvest_documented.
Qed.

(** A file yields symbols exactly when a language covers it, the parser takes the
    grammar and makes a tree, and no node of the tree is an error; each other case is its
    own refusal, which names the file. *)
Theorem parse_file_refusals loads parse p source :
  match parse_file loads parse p source with
  | Ok (Clean _) => ∃ l root, Language.detect p = Some l ∧ loads (grammar_of p l) = true ∧
      parse (grammar_of p l) source = Some root ∧ has_error root = false
  | Ok (HasErrors q) => q = p ∧ ∃ l root n, Language.detect p = Some l ∧
      parse (grammar_of p l) source = Some root ∧ n ∈ preorder root ∧ (kind n = "ERROR" ∨ is_missing n = true)
  | Err (UnsupportedLanguage q _) => q = p ∧ Language.detect p = None
  | Err (Unreadable q _) => q = p ∧ ∃ l, Language.detect p = Some l ∧
      (loads (grammar_of p l) = false ∨ parse (grammar_of p l) source = None)
  | Err _ => False
  end.
Proof.
  unfold parse_file. destruct (Language.detect p) as [l|]; [|done]. fold (grammar_of p l).
  destruct (loads (grammar_of p l)) eqn:Hl; cbn [negb]; [|by eauto].
  destruct (parse (grammar_of p l) source) as [root|] eqn:Hroot; [|by eauto].
  destruct (has_error root) eqn:He; [|by eauto 10]. split; [done|].
  assert (Hn : ¬ Forall (λ m, kind m ≠ "ERROR" ∧ is_missing m = false) (preorder root)).
  { intros H%has_error_false. congruence. }
  apply not_Forall_Exists in Hn; [|intros; apply _]. apply Exists_exists in Hn as (n & Hn & Hbad).
  exists l, root, n. split_and!; [done..|]. cbn in Hbad.
  destruct (decide (kind n = "ERROR")); [by left|]. right. destruct (is_missing n); [done|]. by destruct Hbad.
Qed.

(** ** Concrete files *)

(** A token: a node without children and without a name. *)
Definition leaf (k : string) (s e : nat) : Node := mkNode k s e 0 false None [].

(** A parser that knows one file. *)
Definition knows (g : Grammar) (source : list byte) (root : Node) (g' : Grammar) (text : list byte) : option Node :=
  if bool_decide (g' = g) && bool_decide (text = source) then Some root else None.

Lemma knows_well_nested g source root : well_nested root = true →
  ∀ g' text root', knows g source root g' text = Some root' → well_nested root' = true.
Proof. unfold knows. intros Hw g' text root' H. by case_match; simplify_eq. Qed.

Definition line_break : list byte := ["010"%char].

Definition rust_source : list byte :=
  bytes "struct S;" ++ line_break ++ bytes "impl S { fn a() {} }" ++ line_break.

Definition rust_tree : Node :=
  mkNode "source_file" 0 31 0 false None
    [mkNode "struct_item" 0 9 0 false (Some 1) [leaf "struct" 0 6; leaf "type_identifier" 7 8; leaf ";" 8 9];
     mkNode "impl_item" 10 30 1 false None
       [leaf "impl" 10 14; leaf "type_identifier" 15 16;
        mkNode "declaration_list" 17 30 1 false None
          [leaf "{" 17 18;
           mkNode "function_item" 19 28 1 false (Some 1)
             [leaf "fn" 19 21; leaf "identifier" 22 23; leaf "parameters" 23 25; leaf "block" 26 28];
           leaf "}" 29 30]]].

Definition rust_symbols : list Symbol.t :=
  [Symbol.mk "s.rs" Rust Type_ (bytes "S") None 0 9 1;
   Symbol.mk "s.rs" Rust Function (bytes "a") (Some (bytes "S")) 19 28 2].

Definition rust_parser : Grammar → list byte → option Node := knows LANGUAGE_RUST rust_source rust_tree.

Lemma parse_file_exact_witness :
  parse_file (λ _, true) rust_parser "s.rs" rust_source = Ok (Clean rust_symbols) ∧
  ∃ l root, Language.detect "s.rs" = Some l ∧ rust_parser (grammar_of "s.rs" l) rust_source = Some root ∧
    Forall (λ n, kind n ≠ "ERROR" ∧ is_missing n = false) (preorder root) ∧
    orphan <$> rust_symbols = declarations "s.rs" l rust_source root ∧
    (nameless_silent l rust_source root = true → rust_symbols = documented "s.rs" l rust_source root None).
Proof.
  assert (H : parse_file (λ _, true) rust_parser "s.rs" rust_source = Ok (Clean rust_symbols))
    by (vm_compute; reflexivity).
  split; [exact H|]. exact (parse_file_exact _ _ _ _ _ (knows_well_nested _ _ rust_tree eq_refl) H).
Defined.

(** ** Where the parents are not the enclosing declarations *)

Definition ts_source : list byte :=
  bytes "export function greet() {}" ++ line_break ++ bytes "export class Store {}" ++ line_break.

Definition ts_tree : Node :=
  mkNode "program" 0 49 0 false None
    [mkNode "export_statement" 0 26 0 false None
       [leaf "export" 0 6;
        mkNode "function_declaration" 7 26 0 false (Some 1)
          [leaf "function" 7 15; leaf "identifier" 16 21; leaf "formal_parameters" 21 23;
           leaf "statement_block" 24 26]];
     mkNode "export_statement" 27 48 1 false None
       [leaf "export" 27 33;
        mkNode "class_declaration" 34 48 1 false (Some 1)
          [leaf "class" 34 39; leaf "type_identifier" 40 45; leaf "class_body" 46 48]]].

(** A declaration without a name hands its children the name of whatever was harvested
    last: an exported class is filed inside the function exported before it. *)
Lemma exported_class_misparented :
  well_nested ts_tree = true ∧ has_error ts_tree = false ∧
  (λ s, (Symbol.name s, Symbol.parent s)) <$> harvest "a.ts" TypeScript ts_tree ts_source =
    [(bytes "greet", None); (bytes "Store", Some (bytes "greet"))] ∧
  (λ s, (Symbol.name s, Symbol.parent s)) <$> documented "a.ts" TypeScript ts_source ts_tree None =
    [(bytes "greet", None); (bytes "Store", None)].
Proof. vm_compute. auto. Qed.

Definition go_source : list byte :=
  bytes "type S struct{}" ++ line_break ++ bytes "func (s S) open() {}" ++ line_break.

Definition go_tree : Node :=
  mkNode "source_file" 0 37 0 false None
    [mkNode "type_declaration" 0 15 0 false None
       [leaf "type" 0 4;
        mkNode "type_spec" 5 15 0 false (Some 0) [leaf "type_identifier" 5 6; leaf "struct_type" 7 15]];
     mkNode "method_declaration" 16 36 1 false (Some 2)
       [leaf "func" 16 20; leaf "parameter_list" 21 26; leaf "field_identifier" 27 31;
        leaf "parameter_list" 31 33; leaf "block" 34 36]].

(** The receiver of a Go method is not read, and a Go type, whose name is one node further
    down, is not found at all. *)
Lemma go_receiver_ignored :
  well_nested go_tree = true ∧ has_error go_tree = false ∧
  (λ s, (Symbol.name s, Symbol.parent s)) <$> harvest "a.go" Go go_tree go_source = [(bytes "open", None)].
Proof. vm_compute. auto. Qed.

Definition c_source : list byte := bytes "Foo f(void) {}".

Definition c_tree : Node :=
  mkNode "translation_unit" 0 14 0 false None
    [mkNode "function_definition" 0 14 0 false None
       [leaf "type_identifier" 0 3;
        mkNode "function_declarator" 4 11 0 false None [leaf "identifier" 4 5; leaf "parameter_list" 5 11];
        leaf "compound_statement" 12 14]].

(** A C function that returns a named type is filed a second time, under that type's name. *)
Lemma c_function_named_after_its_type :
  well_nested c_tree = true ∧ has_error c_tree = false ∧
  (λ s, (Symbol.kind s, Symbol.name s, Symbol.parent s)) <$> harvest "a.c" Language.C c_tree c_source =
    [(Function, bytes "Foo", None); (Function, bytes "f", Some (bytes "Foo"))].
Proof. vm_compute. auto. Qed.
