(* ===== verification/Ast.v ===== *)
(** * Structural edits: [supra_ast/src/splice.rs], [query.rs], [rename.rs], [error.rs]

    Replacing one node of a file behind a reparse gate, the outline of a file, who refers to
    a name, and the rename built from the three.  Trees and symbols are those of [Syntax],
    reachability is [Graph.DependencyGraph.dependents]. *)

From Stdlib Require Import Ascii.
From S2P Require Import Prelude Text Sealing Utf8 FileSystem Canonical Framing Language Graph Syntax.

Module AstError.
Inductive t :=
| UnsupportedLanguage (path : string) (extension : option string)
| RangeIsNotANode (path : string) (start stop : nat)
| HasErrors (path : string) (detail : list byte)
| GateRefused (path : string) (detail : list byte)
| WouldShadow (path : string) (old new shadowed : list byte)
| NothingToRename (path : string) (old : list byte).

#[global] Instance t_eq_dec : EqDecision t.
Proof. solve_decision. Defined.
End AstError.

(** ** The node at a range *)

Definition span_is (start stop : nat) (n : Node) : bool := (start_byte n =? start) && (end_byte n =? stop).
Definition spans (start stop : nat) (n : Node) : bool := (start_byte n <=? start) && (stop <=? end_byte n).

(** The loop of [find_exact]; every round goes one level down. *)
Fixpoint find_from (fuel : nat) (current : Node) (start stop : nat) : option Node :=
  if start =? stop then None
  else if span_is start stop current then Some current
  else
    match fuel, List.filter (spans start stop) (children current) with
    | S fuel, [c] => find_from fuel c start stop
    | _, _ => None
    end.

Definition find_exact (root : Node) (start stop : nat) : option Node := find_from (node_size root) root start stop.

(** ** Replacing a node *)

Section ast.
Context (loads : Grammar → bool) (parse : Grammar → list byte → option Node).

Definition parse_clean (p : string) (source : list byte) (l : Language) : result Node AstError.t :=
  if negb (loads (grammar l)) then Err (AstError.HasErrors p (bytes "the grammar failed to load"))
  else
    match parse (grammar l) source with
    | None => Err (AstError.HasErrors p (bytes "the parser returned no tree"))
    | Some root => Ok root
    end.

Definition splice (start stop : nat) (replacement source : list byte) : list byte :=
  take start source ++ replacement ++ drop stop source.

Definition gate (p : string) (e : AstError.t) : AstError.t :=
  match e with AstError.HasErrors _ detail => AstError.GateRefused p detail | _ => e end.

Definition replace_node (p : string) (source : list byte) (start stop : nat) (replacement : list byte) :
    result (list byte) AstError.t :=
  match Language.detect p with
  | None => Err (AstError.UnsupportedLanguage p (Language.extension p))
  | Some l =>
      if (stop <=? start) || (length source <? stop) then Err (AstError.RangeIsNotANode p start stop)
      else
        let? root := parse_clean p source l in
        let? before := ok_or (find_exact root start stop) (AstError.RangeIsNotANode p start stop) in
        if has_error root
        then Err (AstError.HasErrors p (bytes "the source contains error nodes"))
        else
          let spliced := splice start stop replacement source in
          let? after := map_err (gate p) (parse_clean p spliced l) in
          if has_error after
          then Err (AstError.GateRefused p (bytes "the spliced result contains error nodes"))
          else
            let replacement_end := start + length replacement in
            let? node := ok_or (find_exact after start replacement_end)
              (AstError.GateRefused p (bytes "bytes " ++ dec (N.of_nat start) ++ bytes ".." ++
                 dec (N.of_nat replacement_end) ++ bytes " address no single node after the splice")) in
            if bool_decide (kind node = kind before) then Ok spliced
            else Err (AstError.GateRefused p (bytes "node kind changed from " ++ bytes (kind before) ++
                   bytes " to " ++ bytes (kind node) ++
                   bytes "; cross-kind replacement is delete plus insert, not a splice"))
  end.

(** ** The outline *)

Record OutlineEntry := mkEntry { entry_symbol : Symbol.t; depth : nat }.

(** The least depth of another symbol with the parent's name. *)
Fixpoint shallowest (i : nat) (parent : list byte) (other : nat) (symbols : list Symbol.t) (depths : list nat) :
    option nat :=
  match symbols, depths with
  | s :: symbols, d :: depths =>
      let best := shallowest i parent (S other) symbols depths in
      if negb (other =? i) && bool_decide (Symbol.name s = parent)
      then Some (match best with Some b => Nat.min d b | None => d end)
      else best
  | _, _ => None
  end.

(** One symbol of a pass: its new depth, if that is more. *)
Definition deepen (symbols : list Symbol.t) (pass : list nat * bool) (i : nat) : list nat * bool :=
  match s ← symbols !! i; Symbol.parent s with
  | None => pass
  | Some parent =>
      match shallowest i parent 0 symbols pass.1 with
      | Some parent_depth =>
          if default 0 (pass.1 !! i) <? parent_depth + 1
          then (<[i := parent_depth + 1]> pass.1, true)
          else pass
      | None => pass
      end
  end.

Definition pass (symbols : list Symbol.t) (depths : list nat) : list nat * bool :=
  foldl (deepen symbols) (depths, false) (seq 0 (length symbols)).

(** [while changed]: [None] is the end of the fuel. *)
Fixpoint settle (fuel : nat) (symbols : list Symbol.t) (depths : list nat) : option (list nat) :=
  match fuel with
  | 0 => None
  | S fuel =>
      let '(depths, changed) := pass symbols depths in
      if changed then settle fuel symbols depths else Some depths
  end.

Definition outline (fuel : nat) (p : string) (source : list byte) :
    option (result (list OutlineEntry) AstError.t) :=
  match parse_file loads parse p source with
  | Ok (Clean symbols) =>
      depths ← settle fuel symbols (replicate (length symbols) 0);
      Some (Ok (zip_with mkEntry symbols depths))
  | Ok (HasErrors _) => Some (Err (AstError.HasErrors p (bytes "the source contains error nodes")))
  | Err (UnsupportedLanguage q extension) => Some (Err (AstError.UnsupportedLanguage q extension))
  | Err (Unreadable q detail) =>
      Some (Err (AstError.HasErrors p (bytes "could not read " ++ bytes q ++ bytes ": " ++ detail)))
  | Err _ => Some (Err (AstError.HasErrors p []))
  end.

(** ** References *)

Record Reference := mkReference { file : string; occurrences : list nat; semantic : bool }.

Definition identifier_kinds : list string := ["identifier"; "type_identifier"; "property_identifier"].

Definition mentions (name source : list byte) (n : Node) : bool :=
  bool_decide (kind n ∈ identifier_kinds) && bool_decide (utf8_text n source = Some name).

(** The loop over the stack, whose top comes first: a node's last child is on top. *)
Fixpoint occurrences_loop (fuel : nat) (name source : list byte) (stack : list Node) (found : list nat) : list nat :=
  match fuel, stack with
  | S fuel, n :: stack =>
      occurrences_loop fuel name source (reverse (children n) ++ stack)
        (if mentions name source n then found ++ [start_byte n] else found)
  | _, _ => found
  end.

Definition occurrences_in (name source : list byte) (root : Node) : list nat :=
  sort_by Nat.leb (occurrences_loop (node_size root) name source [root] []).

Definition reachable (graph : DependencyGraph.t) (defining_file p : string) : bool :=
  bool_decide (p = defining_file) ||
  bool_decide (p ∈ default [] (DependencyGraph.dependents defining_file graph)).

(** What one candidate adds. *)
Definition reference_in (name : list byte) (defining_file : string) (graph : DependencyGraph.t)
    (candidate : string * list byte) : option Reference :=
  let '(p, source) := candidate in
  if negb (reachable graph defining_file p) then None
  else
    l ← Language.detect p;
    if negb (loads (grammar l)) then None
    else
      root ← parse (grammar l) source;
      let found := occurrences_in name source root in
      if bool_decide (found = []) then None else Some (mkReference p found false).

Definition path_leb (a b : string) : bool := bool_decide (DependencyGraph.path_le a b).

Definition query_references (name : list byte) (defining_file : string) (graph : DependencyGraph.t)
    (candidates : list (string * list byte)) : list Reference :=
  sort_by (λ a b, path_leb (file a) (file b)) (omap (reference_in name defining_file graph) candidates).

(** ** Renames *)

Record RenamedFile := mkRenamed { renamed_file : string; renamed_bytes : list byte; rewritten : nat }.
Record RenameOutcome := mkOutcome { files : list RenamedFile; outcome_semantic : bool }.

(** The check of one touched file; [None] is an outline that does not settle. *)
Definition shadow_check (fuel : nat) (old new : list byte) (candidates : gmap string (list byte)) (r : Reference) :
    option (result unit AstError.t) :=
  match candidates !! file r with
  | None => Some (Ok tt)
  | Some source =>
      outlined ← outline fuel (file r) source;
      Some match outlined with
      | Err _ => Err (AstError.GateRefused (file r)
          (bytes "the file does not parse cleanly; refusing to rename within guesses"))
      | Ok entries =>
          match List.find (λ e, bool_decide (Symbol.name (entry_symbol e) = new)) entries with
          | Some shadowed => Err (AstError.WouldShadow (file r) old new (Symbol.name (entry_symbol shadowed)))
          | None => Ok tt
          end
      end
  end.

Fixpoint shadow_checks (fuel : nat) (old new : list byte) (candidates : gmap string (list byte))
    (rs : list Reference) : option (result unit AstError.t) :=
  match rs with
  | [] => Some (Ok tt)
  | r :: rs =>
      checked ← shadow_check fuel old new candidates r;
      match checked with
      | Ok _ => shadow_checks fuel old new candidates rs
      | Err e => Some (Err e)
      end
  end.

(** The splices of one file, the last offset first. *)
Fixpoint rewrite_at (p : string) (len : nat) (new : list byte) (offsets : list nat) (source : list byte) :
    result (list byte) AstError.t :=
  match offsets with
  | [] => Ok source
  | offset :: offsets =>
      let? source := replace_node p source offset (offset + len) new in
      rewrite_at p len new offsets source
  end.

Fixpoint rewrite_files (len : nat) (new : list byte) (candidates : gmap string (list byte)) (rs : list Reference) :
    result (list RenamedFile) AstError.t :=
  match rs with
  | [] => Ok []
  | r :: rs =>
      match candidates !! file r with
      | None => rewrite_files len new candidates rs
      | Some source =>
          let offsets := sort_by (λ a b, b <=? a) (occurrences r) in
          let? rewritten := rewrite_at (file r) len new offsets source in
          let? rest := rewrite_files len new candidates rs in
          Ok (mkRenamed (file r) rewritten (length offsets) :: rest)
      end
  end.

(** The candidates of a [BTreeMap], in the order of their paths. *)
Definition in_path_order (candidates : gmap string (list byte)) : list (string * list byte) :=
  sort_by (λ a b, path_leb a.1 b.1) (map_to_list candidates).

Definition rename (fuel : nat) (old new : list byte) (defining_file : string) (graph : DependencyGraph.t)
    (candidates : gmap string (list byte)) : option (result RenameOutcome AstError.t) :=
  if bool_decide (old = []) || bool_decide (new = []) || bool_decide (old = new)
  then Some (Err (AstError.NothingToRename defining_file old))
  else
    let references := query_references old defining_file graph (in_path_order candidates) in
    if bool_decide (references = []) then Some (Err (AstError.NothingToRename defining_file old))
    else
      checked ← shadow_checks fuel old new candidates references;
      Some (let? _ := checked in
            let? files := rewrite_files (length old) new candidates references in
            Ok (mkOutcome (sort_by (λ a b, path_leb (renamed_file a) (renamed_file b)) files) false)).
End ast.

(** ** The node at a range, once *)

Section spans.

Lemma span_is_iff start stop n : span_is start stop n = true ↔ start_byte n = start ∧ end_byte n = stop.
Proof. unfold span_is. by rewrite andb_true_iff, !Nat.eqb_eq. Qed.

Lemma spans_iff start stop n : spans start stop n = true ↔ start_byte n ≤ start ∧ stop ≤ end_byte n.
Proof. unfold spans. by rewrite andb_true_iff, !Nat.leb_le. Qed.

Lemma find_none_intro {A} (f : A → bool) l : Forall (λ x, f x = false) l → List.find f l = None.
Proof. induction 1 as [|x l Hx _ IH]; [done|]. cbn. by rewrite Hx. Qed.

Lemma find_app {A} (f : A → bool) l k :
  List.find f (l ++ k) = match List.find f l with Some x => Some x | None => List.find f k end.
Proof. induction l as [|x l IH]; [done|]. cbn. by destruct (f x). Qed.

(** A tree that does not contain the range holds no node with it. *)
Lemma find_outside start stop n : well_nested n = true → spans start stop n = false →
  List.find (span_is start stop) (preorder n) = None.
Proof.
  intros Hw Hs. apply find_none_intro. apply preorder_span in Hw as [_ Hf]. eapply Forall_impl; [exact Hf|].
  intros m Hm. cbn beta in Hm. apply not_true_is_false. rewrite span_is_iff. intros [H1 H2].
  apply not_true_iff_false in Hs. apply Hs, spans_iff. lia.
Qed.

(** Of children in order, at most one contains a range that is not empty; behind one that
    does, none. *)
Lemma find_children start stop lo hi cs : start < stop → in_order lo hi cs = true → forallb well_nested cs = true →
  List.find (span_is start stop) (flat_map preorder cs) =
  match List.filter (spans start stop) cs with
  | [c] => List.find (span_is start stop) (preorder c)
  | _ => None
  end ∧ length (List.filter (spans start stop) cs) ≤ 1.
Proof.
  intros Hlt. revert lo. induction cs as [|c cs IH]; intros lo Ho Hw; [split; [done|cbn; lia]|].
  cbn [flat_map in_order forallb List.filter] in *. apply andb_true_iff in Hw as [Hwc Hw].
  apply andb_true_iff in Ho as [[Ho1%Nat.leb_le Ho2%Nat.leb_le]%andb_true_iff Ho3].
  destruct (IH _ Ho3 Hw) as [IH1 IH2]. rewrite find_app. destruct (spans start stop c) eqn:Hc.
  - apply in_order_bounds in Ho3 as [_ Hb]. apply spans_iff in Hc.
    assert (Hno : List.filter (spans start stop) cs = []).
    { clear -Hb Hc Hlt. induction Hb as [|d cs Hd _ IH]; [done|]. cbn.
      destruct (spans start stop d) eqn:E; [|done]. apply spans_iff in E. lia. }
    rewrite Hno in *. split; [|cbn; lia]. rewrite IH1. by destruct (List.find _ (preorder c)).
  - rewrite (find_outside _ _ c) by done. done.
Qed.

Lemma find_from_exact start stop n : ∀ fuel, start < stop → well_nested n = true → node_size n ≤ fuel →
  find_from fuel n start stop = List.find (span_is start stop) (preorder n).
Proof.
  induction n as [k s e r m f cs IH] using Node_ind. intros fuel Hlt Hw Hfuel.
  set (n := mkNode k s e r m f cs) in *. destruct fuel as [|fuel]; [cbn in Hfuel; lia|].
  cbn [find_from]. rewrite (proj2 (Nat.eqb_neq start stop)) by lia.
  change (preorder n) with (n :: flat_map preorder cs). cbn [List.find].
  destruct (span_is start stop n); [done|]. change (children n) with cs.
  cbn [well_nested children start_byte end_byte n] in Hw. apply andb_true_iff in Hw as [Ho Hw].
  destruct (find_children start stop _ _ cs Hlt Ho Hw) as [-> Hlen].
  destruct (List.filter _ cs) as [|c [|]] eqn:Hfil; [done| |cbn in Hlen; lia].
  assert (Hc : In c cs). { apply (filter_In (spans start stop)). rewrite Hfil. by left. }
  rewrite Forall_forall in IH. apply list_elem_of_In in Hc. apply IH; [done|done| |].
  - eapply forallb_forall; [exact Hw|]. by apply list_elem_of_In.
  - cbn [node_size children n] in Hfuel. enough (node_size c ≤ sum_list_with node_size cs) by lia.
    by apply sum_list_with_in.
Qed.

(** What [find_exact] finds is the first node of the tree, in front of its children, with
    the range. *)
Lemma find_exact_spec start stop root : start < stop → well_nested root = true →
  find_exact root start stop = List.find (span_is start stop) (preorder root).
Proof. intros. by apply find_from_exact. Qed.
End spans.

(** ** The order of paths *)

Lemma components_total a b : DependencyGraph.path_leb a b = true ∨ DependencyGraph.path_leb b a = true.
Proof.
  revert b. induction a as [|x a IH]; intros [|y b]; cbn; auto.
  destruct (decide (x = y)) as [->|Hne]; [by rewrite !bool_decide_true|].
  rewrite !bool_decide_false by congruence. apply key_leb_total.
Qed.

Lemma components_trans a b c :
  DependencyGraph.path_leb a b = true → DependencyGraph.path_leb b c = true → DependencyGraph.path_leb a c = true.
Proof.
  revert b c. induction a as [|x a IH]; intros [|y b] [|z c]; cbn; try done.
  intros Hab Hbc. repeat case_bool_decide; subst; try congruence; eauto using key_leb_trans.
  exfalso. assert (z = y); [|done]. apply key_leb_antisym; done.
Qed.

Lemma path_leb_total a b : path_leb a b = true ∨ path_leb b a = true.
Proof. unfold path_leb. rewrite !bool_decide_eq_true. apply components_total. Qed.

Lemma path_leb_trans a b c : path_leb a b = true → path_leb b c = true → path_leb a c = true.
Proof. unfold path_leb. rewrite !bool_decide_eq_true. apply components_trans. Qed.

Lemma in_path_order_sorted m : StronglySorted (λ a b, path_leb a.1 b.1 = true) (in_path_order m).
Proof.
  unfold in_path_order. apply (sort_by_sorted (λ a b : string * list byte, path_leb a.1 b.1)); intros.
  - apply path_leb_total.
  - eapply path_leb_trans; eauto.
Qed.

Lemma in_path_order_elem m p source : (p, source) ∈ in_path_order m ↔ m !! p = Some source.
Proof. unfold in_path_order. rewrite sort_by_perm. apply elem_of_map_to_list. Qed.

(** ** Where a name is mentioned *)

(** What the parser promises of the tree of a source: it lies in the source, its nodes are
    well nested, and its identifiers are tokens. *)
Record good_tree (source : list byte) (root : Node) : Prop := {
  good_nested : well_nested root = true;
  good_bounds : end_byte root ≤ length source;
  good_tokens : Forall (λ n, kind n ∈ identifier_kinds → children n = []) (preorder root) }.

(** A node without children ends before what follows it in the tree begins. *)
Lemma preorder_apart n : well_nested n = true →
  StronglySorted (λ a b, children a = [] → end_byte a ≤ start_byte b) (preorder n).
Proof.
  induction n as [k s e r m f cs IH] using Node_ind. intros Hw. cbn [preorder children]. constructor.
  2: { apply Forall_forall. intros x Hx. cbn [children]. intros ->. by inversion Hx. }
  cbn [well_nested start_byte end_byte children] in Hw. apply andb_true_iff in Hw as [Hord Hw].
  revert s Hord. induction IH as [|c cs Hc _ IHcs]; intros lo Hord; [constructor|].
  cbn [flat_map forallb in_order] in *. apply andb_true_iff in Hw as [Hwc Hw].
  apply andb_true_iff in Hord as [[H1%Nat.leb_le H2%Nat.leb_le]%andb_true_iff H3].
  apply StronglySorted_app_2; [|by apply Hc|by eapply IHcs].
  intros x y Hx Hy _. destruct (preorder_span c Hwc) as [_ Hf]. rewrite Forall_forall in Hf. apply Hf in Hx.
  apply in_order_bounds in H3 as [_ H3]. apply list_elem_of_In, in_flat_map in Hy as (d & Hd & Hy).
  apply list_elem_of_In in Hd, Hy. rewrite Forall_forall in H3. pose proof (H3 d Hd) as ?.
  assert (Hwd : well_nested d = true). { eapply forallb_forall; [exact Hw|]. by apply list_elem_of_In. }
  destruct (preorder_span d Hwd) as [_ Hg]. rewrite Forall_forall in Hg. apply Hg in Hy. lia.
Qed.

Definition mentioned (name source : list byte) (root : Node) : list Node :=
  List.filter (mentions name source) (preorder root).

Lemma preorder_reverse cs : flat_map preorder (reverse cs) ≡ₚ flat_map preorder cs.
Proof. apply Permutation_flat_map. by rewrite reverse_Permutation. Qed.

Lemma sizes_reverse cs : sum_list_with node_size (reverse cs) = sum_list_with node_size cs.
Proof. by rewrite sum_list_with_reverse. Qed.

Lemma occurrences_loop_perm name source fuel : ∀ stack found, sum_list_with node_size stack ≤ fuel →
  occurrences_loop fuel name source stack found ≡ₚ
  found ++ (start_byte <$> List.filter (mentions name source) (flat_map preorder stack)).
Proof.
  induction fuel as [|fuel IH]; intros [|n stack] found Hf; cbn [occurrences_loop flat_map];
    try by rewrite app_nil_r.
  { exfalso. destruct n; cbn in Hf; lia. }
  rewrite IH.
  2: { rewrite sum_list_with_app, sizes_reverse. destruct n; cbn in *; lia. }
  replace (flat_map preorder (reverse (children n) ++ stack))
    with (flat_map preorder (reverse (children n)) ++ flat_map preorder stack) by (by rewrite flat_map_app).
  rewrite !List.filter_app, !fmap_app, (filter_perm _ _ _ (preorder_reverse (children n))).
  destruct n as [k s e r m f cs]. cbn [preorder children List.filter]. set (n := mkNode k s e r m f cs).
  destruct (mentions name source n); [|done].
  rewrite <- app_assoc. done.
Qed.

Lemma leb_sort_unique l k : l ≡ₚ k → StronglySorted le k → sort_by Nat.leb l = k.
Proof.
  intros Hp Hk. apply (StronglySorted_unique le); [|done|by rewrite sort_by_perm].
  apply (StronglySorted_impl (λ x y, Nat.leb x y = true)); [by intros ?? ?%Nat.leb_le|].
  apply sort_by_sorted; intros *; rewrite !Nat.leb_le; lia.
Qed.

(** The occurrences of a name are where the identifiers with its text begin, in order. *)
Lemma occurrences_exact name source root : well_nested root = true →
  occurrences_in name source root = start_byte <$> mentioned name source root.
Proof.
  intros Hw. unfold occurrences_in. apply leb_sort_unique.
  - rewrite occurrences_loop_perm by (cbn; lia). cbn [flat_map app]. by rewrite app_nil_r.
  - apply StronglySorted_map, filter_sorted. by apply preorder_sorted.
Qed.

(** ** Substitution *)

(** The source with the ranges of length [len] at some offsets replaced, all at once, from
    offset [at] on. *)
Fixpoint substitute_from (len : nat) (new : list byte) (from : nat) (offsets : list nat) (source : list byte) :
    list byte :=
  match offsets with
  | [] => drop from source
  | o :: offsets => slice from o source ++ new ++ substitute_from len new (o + len) offsets source
  end.

Definition substitute (len : nat) (new : list byte) (offsets : list nat) (source : list byte) : list byte :=
  substitute_from len new 0 offsets source.

(** The ranges at some offsets follow each other inside a source. *)
Fixpoint apart (len from : nat) (offsets : list nat) (source : list byte) : Prop :=
  match offsets with
  | [] => from ≤ length source
  | o :: offsets => from ≤ o ∧ apart len (o + len) offsets source
  end.

Lemma apart_from len from offsets source : apart len from offsets source → from ≤ length source.
Proof.
  revert from. induction offsets as [|o offsets IH]; cbn; intros from; [done|]. intros [H1 H2].
  apply IH in H2. lia.
Qed.

Lemma take_slice a b (source : list byte) : a ≤ b → b ≤ length source → take a source ++ slice a b source = take b source.
Proof.
  intros Hab Hb. unfold slice. replace (take b source) with (take (a + (b - a)) source) by (f_equal; lia).
  by rewrite take_take_drop.
Qed.

(** Splicing the last range first yields the substitution. *)
Lemma splices_substitute len new offsets source : ∀ from, apart len from offsets source →
  foldr (λ o b, splice o (o + len) new b) source offsets =
  take from source ++ substitute_from len new from offsets source.
Proof.
  induction offsets as [|o offsets IH]; cbn [foldr apart substitute_from]; intros from H.
  { by rewrite take_drop. }
  destruct H as [H1 H2]. rewrite (IH _ H2). apply apart_from in H2. unfold splice.
  rewrite take_app_le, take_take by (rewrite length_take; lia). rewrite Nat.min_l by lia.
  rewrite drop_app_length' by (rewrite length_take; lia).
  rewrite <- (take_slice from o source) by lia. by rewrite <- app_assoc.
Qed.

Section edit.
Context (loads : Grammar → bool) (parse : Grammar → list byte → option Node).

(** A tree of a source by the grammar of a path, without errors. *)
Definition clean_tree (p : string) (source : list byte) (root : Node) : Prop :=
  ∃ l, Language.detect p = Some l ∧ loads (grammar l) = true ∧ parse (grammar l) source = Some root ∧
    has_error root = false.

Lemma parse_clean_Ok p source l root :
  parse_clean loads parse p source l = Ok root ↔ loads (grammar l) = true ∧ parse (grammar l) source = Some root.
Proof. unfold parse_clean. destruct (loads _); cbn; [|naive_solver]. destruct (parse _ _); naive_solver. Qed.

Lemma replace_node_Ok p source start stop new out :
  replace_node loads parse p source start stop new = Ok out ↔
  start < stop ∧ stop ≤ length source ∧ out = splice start stop new source ∧
  ∃ before n after n', clean_tree p source before ∧ find_exact before start stop = Some n ∧
    clean_tree p out after ∧ find_exact after start (start + length new) = Some n' ∧ kind n' = kind n.
Proof.
  unfold replace_node, clean_tree. destruct (Language.detect p) as [l|]; [|split; [done|naive_solver]].
  destruct ((stop <=? start) || (length source <? stop)) eqn:Hr.
  { split; [done|]. intros (H1 & H2 & _). to_prop. lia. }
  apply orb_false_iff in Hr as [Hr1%Nat.leb_gt Hr2%Nat.ltb_ge].
  rewrite result_bind_Ok. setoid_rewrite parse_clean_Ok. split.
  - intros (before & [Hl Hb] & H). apply result_bind_Ok in H as (n & Hn%ok_or_Ok & H).
    destruct (has_error before) eqn:He; [done|]. cbn zeta in H.
    apply result_bind_Ok in H as (after & [_ Ha]%map_err_Ok%parse_clean_Ok & H).
    destruct (has_error after) eqn:He'; [done|].
    apply result_bind_Ok in H as (n' & Hn'%ok_or_Ok & H). case_bool_decide; [|done]. simplify_eq.
    split_and!; [lia..|done|]. exists before, n, after, n'. naive_solver.
  - intros (_ & _ & -> & before & n & after & n' & (l' & [= <-] & Hl & Hb & He) & Hn &
      (l'' & [= <-] & _ & Ha & He') & Hn' & Hk).
    exists before. split; [done|]. rewrite Hn. cbn [ok_or result_bind]. rewrite He.
    rewrite (proj2 (parse_clean_Ok p _ l after)) by done. cbn [map_err result_bind]. rewrite He', Hn'.
    cbn [ok_or result_bind]. by rewrite bool_decide_true.
Qed.

(** A splice succeeds exactly when the range is that of a node of the tree, the file and
    the result both parse without errors, and in the result the new text is a node of the
    same kind.  The node meant is the first with the range, in front of its children; and
    what comes back is the file with that range replaced and every other byte as it was. *)
Theorem replace_node_exact p source start stop new out :
  (∀ g text root, parse g text = Some root → well_nested root = true) → new ≠ [] →
  replace_node loads parse p source start stop new = Ok out ↔
  start < stop ∧ stop ≤ length source ∧ out = take start source ++ new ++ drop stop source ∧
  ∃ before n after n',
    clean_tree p source before ∧ List.find (span_is start stop) (preorder before) = Some n ∧
    clean_tree p out after ∧ List.find (span_is start (start + length new)) (preorder after) = Some n' ∧
    kind n' = kind n.
Proof.
  intros Hparser Hnew. rewrite replace_node_Ok. assert (Hlen : 0 < length new) by (destruct new; cbn; [done|lia]).
  split; intros (Hlt & Hle & -> & before & n & after & n' & Hb & Hn & Ha & Hn' & Hk);
    split_and!; try done; exists before, n, after, n'.
  all: destruct Hb as (l & ? & ? & Hb & ?), Ha as (l' & ? & ? & Ha & ?).
  all: rewrite ?find_exact_spec in * by (lia || by eapply Hparser).
  all: unfold clean_tree; naive_solver.
Qed.

(** No refusal of a splice hides another: an unknown language, a range that is no node,
    a file with errors and a result the gate refuses are told apart, in this order. *)
Theorem replace_node_refusals p source start stop new e :
  replace_node loads parse p source start stop new = Err e →
  match e with
  | AstError.UnsupportedLanguage q _ => q = p ∧ Language.detect p = None
  | AstError.RangeIsNotANode q a b => q = p ∧ a = start ∧ b = stop ∧
      (stop ≤ start ∨ length source < stop ∨
       ∃ l root, Language.detect p = Some l ∧ parse (grammar l) source = Some root ∧
         find_exact root start stop = None)
  | AstError.HasErrors q _ => q = p ∧ ∃ l, Language.detect p = Some l ∧
      (loads (grammar l) = false ∨ parse (grammar l) source = None ∨
       ∃ root n, parse (grammar l) source = Some root ∧ has_error root = true ∧ find_exact root start stop = Some n)
  | AstError.GateRefused q _ => q = p ∧ ∃ root n, clean_tree p source root ∧ find_exact root start stop = Some n ∧
      ¬ ∃ after n', clean_tree p (splice start stop new source) after ∧
          find_exact after start (start + length new) = Some n' ∧ kind n' = kind n
  | _ => False
  end.
Proof.
  unfold replace_node, clean_tree. destruct (Language.detect p) as [l|]; [|by intros [= <-]].
  destruct ((stop <=? start) || (length source <? stop)) eqn:Hr.
  { intros [= <-]. split_and!; [done..|]. to_prop. destruct Hr; to_prop; auto. }
  unfold parse_clean. destruct (loads (grammar l)) eqn:Hl; cbn [negb]; [|intros [= <-]; eauto 6].
  destruct (parse (grammar l) source) as [root|] eqn:Hroot; [|intros [= <-]; eauto 6].
  cbn [result_bind]. destruct (find_exact root start stop) as [n|] eqn:Hn; cbn [ok_or result_bind].
  2: { intros [= <-]. split_and!; eauto 10. }
  destruct (has_error root) eqn:He; [intros [= <-]; eauto 10|].
  intros H. cbn zeta in H.
  assert (Hgate : e = AstError.GateRefused p match e with AstError.GateRefused _ d => d | _ => [] end ∧
    ∀ after n', parse (grammar l) (splice start stop new source) = Some after → has_error after = false →
      find_exact after start (start + length new) = Some n' → kind n' ≠ kind n).
  { destruct (parse (grammar l) (splice _ _ _ _)) as [after|]; cbn in H; [|by simplify_eq].
    destruct (has_error after) eqn:He'; [simplify_eq; split; [done|]; intros; simplify_eq; congruence|].
    destruct (find_exact after _ _) as [n'|] eqn:Hn'; cbn in H; [|simplify_eq; split; [done|]; intros; simplify_eq; congruence].
    case_bool_decide; simplify_eq. split; [done|]. intros. by simplify_eq. }
  destruct Hgate as [-> Hno]. split; [done|]. exists root, n. split_and!; [eauto 10|done|].
  intros (after & n' & (l' & [= <-] & _ & Ha & He') & Hn' & Hk). by eapply Hno.
Qed.
End edit.

(** ** Renames *)

Lemma apart_intro len from offsets source : from ≤ length source →
  Forall (λ o, from ≤ o ∧ o + len ≤ length source) offsets → StronglySorted (λ a b, a + len ≤ b) offsets →
  apart len from offsets source.
Proof.
  intros Hfrom Hall Hs. revert from Hfrom Hall. induction Hs as [|o offsets Hs IH Ho]; [done|].
  intros from Hfrom [[H1 H2] Hall]%Forall_cons. cbn. split; [done|]. apply IH; [done|].
  clear -Ho Hall. induction Ho as [|x l Hx Hl IH]; [constructor|]. apply Forall_cons in Hall as [[??] Hall].
  constructor; [lia|auto].
Qed.

Lemma mentions_span name source n : start_byte n ≤ end_byte n → end_byte n ≤ length source →
  mentions name source n = true → kind n ∈ identifier_kinds ∧ end_byte n = start_byte n + length name.
Proof.
  intros H1 H2. unfold mentions, utf8_text. rewrite andb_true_iff, !bool_decide_eq_true. intros [Hk Ht].
  split; [done|]. case_match; simplify_eq. unfold slice. rewrite length_take, length_drop. lia.
Qed.

Lemma mentioned_apart name source root : good_tree source root →
  apart (length name) 0 (start_byte <$> mentioned name source root) source.
Proof.
  intros [Hw Hb Ht]. destruct (preorder_span root Hw) as [_ Hsp].
  assert (Hm : Forall (λ n, kind n ∈ identifier_kinds ∧ end_byte n = start_byte n + length name ∧
      end_byte n ≤ length source ∧ children n = []) (mentioned name source root)).
  { apply Forall_forall. intros n Hn%list_elem_of_In%filter_In. destruct Hn as [Hn%list_elem_of_In Hm].
    rewrite Forall_forall in Hsp, Ht. destruct (Hsp n Hn) as (? & ? & ?).
    destruct (mentions_span name source n) as [Hk He]; [lia..|done|]. split_and!; [done|done|lia|].
    by apply Ht. }
  apply apart_intro; [lia| |].
  - apply Forall_fmap. eapply Forall_impl; [exact Hm|]. cbn. intros n (_ & ? & ? & _). lia.
  - apply StronglySorted_map. pose proof (preorder_apart root Hw) as Hs.
    apply (filter_sorted _ (mentions name source)) in Hs. fold (mentioned name source root) in Hs.
    induction Hs as [|n l Hs IH Hn]; [constructor|]. apply Forall_cons in Hm as [(_ & He & _ & Hc) Hm].
    constructor; [by apply IH|]. eapply Forall_impl; [exact Hn|]. cbn. intros m Hle. specialize (Hle Hc). lia.
Qed.

Lemma sort_down l : StronglySorted le l → sort_by (λ a b, b <=? a) l = reverse l.
Proof.
  intros Hl. assert (AntiSymm eq ge) by (intros ???; lia). apply (StronglySorted_unique ge).
  - apply (StronglySorted_impl (λ x y, (y <=? x) = true)); [by intros ?? ?%Nat.leb_le|].
    apply sort_by_sorted; intros *; rewrite !Nat.leb_le; lia.
  - induction Hl as [|x l Hl IH Hx]; [constructor|]. rewrite reverse_cons.
    apply StronglySorted_app_2; [|done|by repeat constructor].
    intros y z Hy ->%list_elem_of_singleton. rewrite reverse_Permutation in Hy.
    rewrite Forall_forall in Hx. by apply Hx.
  - by rewrite sort_by_perm, reverse_Permutation.
Qed.

Lemma deepen_length symbols ps i : length (deepen symbols ps i).1 = length ps.1.
Proof.
  unfold deepen. destruct (symbols !! i ≫= Symbol.parent) as [parent|]; [|done].
  destruct (shallowest _ _ _ _ _) as [d|]; [|done]. destruct (_ <? _); [|done]. apply length_insert.
Qed.

Lemma foldl_deepen_length symbols idxs ps : length (foldl (deepen symbols) ps idxs).1 = length ps.1.
Proof. revert ps. induction idxs as [|i idxs IH]; intros ps; [done|]. cbn. by rewrite IH, deepen_length. Qed.

Lemma pass_length symbols depths : length (pass symbols depths).1 = length depths.
Proof. apply foldl_deepen_length. Qed.

Lemma settle_length fuel symbols : ∀ depths depths', settle fuel symbols depths = Some depths' →
  length depths' = length depths.
Proof.
  induction fuel as [|fuel IH]; intros depths depths'; [done|]. cbn.
  pose proof (pass_length symbols depths) as Hl. destruct (pass symbols depths) as [ds []]; cbn in Hl.
  - intros H%IH. lia.
  - by intros [= <-].
Qed.

Section rename.
Context (loads : Grammar → bool) (parse : Grammar → list byte → option Node).
Context (Hparser : ∀ g text root, parse g text = Some root → good_tree text root).
Context (old new : list byte) (defining_file : string) (graph : DependencyGraph.t).

(** What the rename makes of a candidate: nothing, unless imports lead from it to the
    defining file and its tree mentions the name; then all mentions at once. *)
Definition renamed_in (candidate : string * list byte) : option RenamedFile :=
  let '(p, source) := candidate in
  if negb (reachable graph defining_file p) then None
  else
    l ← Language.detect p;
    if negb (loads (grammar l)) then None
    else
      root ← parse (grammar l) source;
      let offsets := start_byte <$> mentioned old source root in
      if bool_decide (offsets = []) then None
      else Some (mkRenamed p (substitute (length old) new offsets source) (length offsets)).

Lemma rewrite_at_app p len l o source :
  rewrite_at loads parse p len new (l ++ [o]) source =
    let? b := rewrite_at loads parse p len new l source in replace_node loads parse p b o (o + len) new.
Proof.
  revert source. induction l as [|x l IH]; intros source; cbn [app rewrite_at result_bind].
  - by destruct (replace_node _ _ _ _ _ _ _).
  - destruct (replace_node _ _ _ _ _ _ _); cbn; [apply IH|done].
Qed.

Lemma rewrite_at_Ok p len offsets source out :
  rewrite_at loads parse p len new (reverse offsets) source = Ok out →
  out = foldr (λ o b, splice o (o + len) new b) source offsets ∧
  (offsets ≠ [] → ∃ root, clean_tree loads parse p out root).
Proof.
  revert out. induction offsets as [|o offsets IH]; intros out; [by intros [= <-]|].
  rewrite reverse_cons, rewrite_at_app. intros (b & Hb & Hr)%result_bind_Ok.
  destruct (IH _ Hb) as [-> _]. apply replace_node_Ok in Hr as (_ & _ & -> & ? & ? & after & ? & _ & _ & ? & _).
  split; [done|eauto].
Qed.

Lemma reference_in_Some candidate r : reference_in loads parse old defining_file graph candidate = Some r →
  file r = candidate.1 ∧ ∃ l root, Language.detect candidate.1 = Some l ∧ loads (grammar l) = true ∧
    parse (grammar l) candidate.2 = Some root ∧ reachable graph defining_file candidate.1 = true ∧
    occurrences r = start_byte <$> mentioned old candidate.2 root ∧ occurrences r ≠ [] ∧ semantic r = false.
Proof.
  destruct candidate as [p source]. unfold reference_in. cbn [fst snd].
  destruct (reachable graph defining_file p); [|done]. cbn [negb].
  destruct (Language.detect p) as [l|]; [|done]. cbn [mbind option_bind].
  destruct (loads (grammar l)) eqn:Hl; [|done]. cbn [negb].
  destruct (parse (grammar l) source) as [root|] eqn:Hroot; [|done]. cbn [mbind option_bind].
  rewrite occurrences_exact by by eapply good_nested, Hparser.
  case_bool_decide; [done|]. intros [= <-]. cbn. eauto 10.
Qed.

Lemma renamed_in_reference candidate :
  renamed_in candidate =
    r ← reference_in loads parse old defining_file graph candidate;
    Some (mkRenamed (file r) (substitute (length old) new (occurrences r) candidate.2) (length (occurrences r))).
Proof.
  destruct candidate as [p source]. unfold reference_in, renamed_in.
  destruct (reachable graph defining_file p); [|done]. cbn [negb].
  destruct (Language.detect p) as [l|]; [|done]. cbn [mbind option_bind].
  destruct (loads (grammar l)) eqn:Hl; [|done]. cbn [negb].
  destruct (parse (grammar l) source) as [root|] eqn:Hroot; [|done]. cbn [mbind option_bind].
  rewrite occurrences_exact by by eapply good_nested, Hparser. by case_bool_decide.
Qed.

Lemma rewrite_files_Ok candidates cs fs :
  Forall (λ c, candidates !! c.1 = Some c.2) cs →
  rewrite_files loads parse (length old) new candidates (omap (reference_in loads parse old defining_file graph) cs) = Ok fs →
  fs = omap renamed_in cs ∧ Forall (λ f, ∃ root, clean_tree loads parse (renamed_file f) (renamed_bytes f) root) fs.
Proof.
  intros Hcs. revert fs. induction Hcs as [|[p source] cs Hc _ IH]; intros fs; [by intros [= <-]|].
  cbn [omap list_omap]. rewrite (renamed_in_reference (p, source)).
  destruct (reference_in _ _ _ _ _ (p, source)) as [r|] eqn:Hr; cbn [mbind option_bind]; [|apply IH].
  apply reference_in_Some in Hr as (Hf & l & root & _ & _ & Hroot & _ & Ho & Hne & _). cbn [fst snd] in *.
  cbn [rewrite_files]. rewrite Hf, Hc. intros (out & Hout & H)%result_bind_Ok.
  apply result_bind_Ok in H as (rest & Hrest & [= <-]). destruct (IH _ Hrest) as [-> Hall].
  pose proof (Hparser _ _ _ Hroot) as Hgood.
  assert (Hs : StronglySorted le (occurrences r)).
  { rewrite Ho. apply StronglySorted_map, filter_sorted, preorder_sorted. by eapply good_nested. }
  rewrite sort_down in * by done. apply rewrite_at_Ok in Hout as [-> Hclean].
  rewrite (splices_substitute _ _ _ _ 0) in * by (rewrite Ho; by apply mentioned_apart).
  rewrite length_reverse. split; [done|]. constructor; [by apply Hclean|done].
Qed.

Lemma shadow_checks_Ok fuel candidates rs : shadow_checks loads parse fuel old new candidates rs = Some (Ok tt) →
  Forall (λ r, ∀ source, candidates !! file r = Some source →
    ∃ symbols, parse_file loads parse (file r) source = Ok (Clean symbols) ∧
      Forall (λ s, Symbol.name s ≠ new) symbols) rs.
Proof.
  induction rs as [|r rs IH]; [constructor|]. cbn [shadow_checks]. unfold shadow_check.
  destruct (candidates !! file r) as [source|] eqn:Hr; cbn [mbind option_bind].
  2: { intros H. constructor; [intros ? [=]|by apply IH]. congruence. }
  unfold outline. destruct (parse_file loads parse (file r) source) as [[symbols|]|[]] eqn:Hp; cbn; try done.
  destruct (settle fuel symbols _) as [depths|] eqn:Hd; cbn; [|done].
  destruct (List.find _ _) eqn:Hfind; cbn; [done|]. intros H. constructor; [|by apply IH].
  intros source' Hs. rewrite Hr in Hs. injection Hs as <-. exists symbols. split; [done|].
  apply settle_length in Hd. rewrite length_replicate in Hd.
  apply Forall_lookup. intros i s Hi Hnew.
  destruct (lookup_lt_is_Some_2 depths i) as [d Hdi]; [apply lookup_lt_Some in Hi; lia|].
  assert (He : zip_with mkEntry symbols depths !! i = Some (mkEntry s d)).
  { by rewrite lookup_zip_with, Hi; cbn; rewrite Hdi. }
  apply list_elem_of_lookup_2, list_elem_of_In in He. eapply List.find_none in Hfind; [|exact He].
  cbn in Hfind. by apply bool_decide_eq_false_1 in Hfind.
Qed.

(** C26. A rename that succeeds has rewritten every mention of the name in every candidate
    from which imports lead to the defining file, all of a file's mentions at once and no
    byte beside them, and no other file; each result parses without errors, no file it
    touches declares the new name, and the files come in the order of their paths. *)
Theorem rename_exact fuel candidates outcome :
  rename loads parse fuel old new defining_file graph candidates = Some (Ok outcome) →
  files outcome = omap renamed_in (in_path_order candidates) ∧ files outcome ≠ [] ∧
  Forall (λ f,
    (∃ root, clean_tree loads parse (renamed_file f) (renamed_bytes f) root) ∧
    ∃ source symbols, candidates !! renamed_file f = Some source ∧
      parse_file loads parse (renamed_file f) source = Ok (Clean symbols) ∧
      Forall (λ s, Symbol.name s ≠ new) symbols) (files outcome).
Proof.
  unfold rename. destruct (_ || _); [done|].
  set (cs := in_path_order candidates). set (rs := omap (reference_in loads parse old defining_file graph) cs).
  assert (Hcs : Forall (λ c, candidates !! c.1 = Some c.2) cs).
  { apply Forall_forall. intros [p source] Hc. by apply in_path_order_elem in Hc. }
  assert (Hrs : query_references loads parse old defining_file graph cs = rs).
  { unfold query_references. apply (sort_by_id (λ a b, path_leb (file a) (file b))).
    eapply omap_sorted; [|apply in_path_order_sorted]. cbn. intros x y a b Ha Hb Hxy.
    apply reference_in_Some in Ha as [-> _], Hb as [-> _]. done. }
  rewrite Hrs. case_bool_decide as Hne; [done|].
  destruct (shadow_checks loads parse fuel old new candidates rs) as [[[]|]|] eqn:Hchk; cbn; try done.
  intros [= Hf]. apply result_bind_Ok in Hf as (fs & Hfs & [= <-]). cbn [files].
  apply shadow_checks_Ok in Hchk.
  destruct (rewrite_files_Ok candidates cs fs Hcs Hfs) as [-> Hclean].
  rewrite (sort_by_id (λ a b, path_leb (renamed_file a) (renamed_file b))).
  2: { eapply omap_sorted; [|apply in_path_order_sorted]. cbn. intros x y a b Ha Hb Hxy.
       rewrite renamed_in_reference in Ha, Hb.
       destruct (reference_in _ _ _ _ _ x) eqn:Hx, (reference_in _ _ _ _ _ y) eqn:Hy; simplify_eq/=.
       apply reference_in_Some in Hx as [-> _], Hy as [-> _]. done. }
  assert (Hback : ∀ f, f ∈ omap renamed_in cs → ∃ r c, r ∈ rs ∧ c ∈ cs ∧ file r = renamed_file f ∧ file r = c.1).
  { intros f (c & Hc & Hf)%list_elem_of_omap. rewrite renamed_in_reference in Hf.
    destruct (reference_in _ _ _ _ _ c) as [r|] eqn:Hr; simplify_eq/=. exists r, c. split_and!; try done.
    - apply list_elem_of_omap. eauto.
    - by apply reference_in_Some in Hr as [? _]. }
  split_and!; [done| |].
  - intros Hnil. apply Hne. destruct rs as [|r rs'] eqn:Hr; [done|].
    assert (Hin : r ∈ omap (reference_in loads parse old defining_file graph) cs) by (fold rs; rewrite Hr; by left).
    apply list_elem_of_omap in Hin as (c & Hc & Hcr).
    assert (Hin : mkRenamed (file r) (substitute (length old) new (occurrences r) c.2) (length (occurrences r))
       ∈ omap renamed_in cs).
    { apply list_elem_of_omap. exists c. split; [done|]. by rewrite renamed_in_reference, Hcr. }
    rewrite Hnil in Hin. by inversion Hin.
  - apply Forall_forall. intros f Hf. rewrite Forall_forall in Hclean. split; [by apply Hclean|].
    destruct (Hback f Hf) as (r & c & Hr & Hc & Hrf & Hrc). rewrite Forall_forall in Hchk.
    pose proof (proj1 (Forall_forall _ _) Hcs c Hc) as Hcc. cbn in Hcc. rewrite <- Hrc in Hcc. rewrite <- Hrf. destruct (Hchk r Hr _ Hcc) as (symbols & ? & ?).
    eauto.
Qed.
End rename.

(** ** The outline settles *)

(** Every symbol that names another of the file as its parent names one in front of it. *)
Definition parents_first (symbols : list Symbol.t) : Prop :=
  ∀ i s nm, symbols !! i = Some s → Symbol.parent s = Some nm →
    (∃ j t, j ≠ i ∧ symbols !! j = Some t ∧ Symbol.name t = nm) →
    ∃ j t, j < i ∧ symbols !! j = Some t ∧ Symbol.name t = nm.

(** The depth a symbol has: one more than the shallowest other symbol of its parent's name,
    and none when there is no such symbol. *)
Definition depth_of (symbols : list Symbol.t) (depths : list nat) (i : nat) (s : Symbol.t) : nat :=
  match Symbol.parent s with
  | Some nm => match shallowest i nm 0 symbols depths with Some b => b + 1 | None => 0 end
  | None => 0
  end.

Lemma shallowest_le i nm : ∀ symbols depths o j t d,
  symbols !! j = Some t → depths !! j = Some d → o + j ≠ i → Symbol.name t = nm →
  ∃ b, shallowest i nm o symbols depths = Some b ∧ b ≤ d.
Proof.
  induction symbols as [|s symbols IH]; intros [|d' depths] o [|j] t d Ht Hd Hne Hn; simplify_eq/=.
  - rewrite (proj2 (Nat.eqb_neq o i)) by lia. rewrite bool_decide_true by done. cbn.
    eexists; split; [done|]. destruct (shallowest _ _ _ _ _); lia.
  - destruct (IH depths (S o) j t d Ht Hd ltac:(lia) eq_refl) as (b & Hb & Hle). rewrite Hb.
    destruct (_ && _); eexists; split; try done; lia.
Qed.

Lemma shallowest_Some i nm : ∀ symbols depths o b,
  shallowest i nm o symbols depths = Some b →
  ∃ j t, symbols !! j = Some t ∧ depths !! j = Some b ∧ o + j ≠ i ∧ Symbol.name t = nm.
Proof.
  induction symbols as [|s symbols IH]; intros [|d depths] o b; cbn; try done.
  destruct (shallowest i nm (S o) symbols depths) as [b'|] eqn:Hb'.
  - destruct (negb _ && _) eqn:Hc.
    + intros [= Hb]. destruct (Nat.le_gt_cases d b') as [Hle|Hgt].
      * apply andb_true_iff in Hc as [Hc1 Hc2]. to_prop. exists 0, s. split_and!; [done|cbn; f_equal; lia|lia|done].
      * destruct (IH _ _ _ Hb') as (j & t & ? & ? & ? & ?). exists (S j), t.
        split_and!; [done| |lia|done]. cbn. by replace b with b' by lia.
    + intros [= <-]. destruct (IH _ _ _ Hb') as (j & t & ? & ? & ? & ?). exists (S j), t. split_and!; [done..|lia|done].
  - destruct (negb _ && _) eqn:Hc; [|done]. intros [= <-].
    apply andb_true_iff in Hc as [Hc1 Hc2]. to_prop. exists 0, s. split_and!; [done|done|lia|done].
Qed.

Lemma shallowest_mono i nm symbols depths depths' o b :
  Forall2 le depths depths' → shallowest i nm o symbols depths = Some b →
  ∃ b', shallowest i nm o symbols depths' = Some b' ∧ b ≤ b'.
Proof.
  intros Hle Hb. pose proof (Forall2_length _ _ _ Hle) as Hlen.
  destruct (shallowest i nm o symbols depths') as [b'|] eqn:Hb'.
  - eexists; split; [done|]. apply shallowest_Some in Hb' as (j & t & Ht & Hd & Hne & Hn).
    destruct (lookup_lt_is_Some_2 depths j) as [d Hdj]; [apply lookup_lt_Some in Hd; lia|].
    destruct (shallowest_le i nm symbols depths o j t d) as (b0 & Hb0 & Hle0); [done..|]. simplify_eq.
    pose proof (Forall2_lookup_lr _ _ _ _ _ _ Hle Hdj Hd). lia.
  - exfalso. apply shallowest_Some in Hb as (j & t & Ht & Hd & Hne & Hn).
    destruct (lookup_lt_is_Some_2 depths' j) as [d Hdj]; [apply lookup_lt_Some in Hd; lia|].
    destruct (shallowest_le i nm symbols depths' o j t d) as (b0 & Hb0 & _); [done..|]. congruence.
Qed.

Section settle.
Context (symbols : list Symbol.t) (Hfirst : parents_first symbols).

(** No depth is more than it will be, and none more than the symbol's place. *)
Definition below (depths : list nat) : Prop :=
  length depths = length symbols ∧
  ∀ i s d, symbols !! i = Some s → depths !! i = Some d → d ≤ i ∧ d ≤ depth_of symbols depths i s.

Lemma insert_le (depths : list nat) i v d : depths !! i = Some d → d ≤ v → Forall2 le depths (<[i:=v]> depths).
Proof.
  intros Hd Hle. apply Forall2_same_length_lookup_2; [by rewrite length_insert|].
  intros j x y Hx. rewrite list_lookup_insert_Some. intros [(<- & <- & _)|[? Hy]]; simplify_eq; lia.
Qed.

Lemma depth_of_mono depths depths' i s : Forall2 le depths depths' →
  depth_of symbols depths i s ≤ depth_of symbols depths' i s.
Proof.
  intros Hle. unfold depth_of. destruct (Symbol.parent s) as [nm|]; [|lia].
  destruct (shallowest i nm 0 symbols depths) as [b|] eqn:Hb; [|lia].
  destruct (shallowest_mono _ _ _ _ _ _ _ Hle Hb) as (b' & -> & ?). lia.
Qed.

(** A step of a pass: it leaves everything as it is, or deepens one symbol. *)
Lemma deepen_cases ps i : i < length symbols → length ps.1 = length symbols →
  (deepen symbols ps i = ps ∧
    ∀ s d, symbols !! i = Some s → ps.1 !! i = Some d → depth_of symbols ps.1 i s ≤ d) ∨
  ∃ s d, symbols !! i = Some s ∧ ps.1 !! i = Some d ∧ d < depth_of symbols ps.1 i s ∧
    deepen symbols ps i = (<[i := depth_of symbols ps.1 i s]> ps.1, true).
Proof.
  intros Hi Hlen. destruct (lookup_lt_is_Some_2 symbols i Hi) as [s Hs].
  destruct (lookup_lt_is_Some_2 ps.1 i) as [d Hd]; [lia|].
  unfold deepen, depth_of. rewrite Hs. cbn [mbind option_bind].
  destruct (Symbol.parent s) as [nm|] eqn:Hp.
  2: { left. split; [done|]. intros s' d' [= <-] _. rewrite Hp. lia. }
  destruct (shallowest i nm 0 symbols ps.1) as [b|] eqn:Hb.
  2: { left. split; [done|]. intros s' d' [= <-] _. rewrite Hp, Hb. lia. }
  rewrite Hd. cbn [default from_option id]. destruct (d <? b + 1) eqn:Hlt; to_prop.
  - right. exists s, d. rewrite Hp, Hb. done.
  - left. split; [done|]. intros s' d' [= <-] Hd'. rewrite Hp, Hb. simplify_eq. lia.
Qed.

Lemma deepen_below ps i : i < length symbols → below ps.1 → below (deepen symbols ps i).1.
Proof.
  intros Hi [Hlen Hb]. destruct (deepen_cases ps i Hi Hlen) as [[-> _]|(s & d & Hs & Hd & Hlt & ->)]; [done|].
  set (v := depth_of symbols ps.1 i s) in *. cbn [fst].
  assert (Hle : Forall2 le ps.1 (<[i:=v]> ps.1)) by (eapply insert_le; [done|lia]).
  split; [by rewrite length_insert|]. intros j t x Ht. rewrite list_lookup_insert_Some.
  intros [(<- & <- & _)|[Hne Hx]].
  - simplify_eq. split; [|by apply depth_of_mono]. unfold v, depth_of.
    destruct (Symbol.parent s) as [nm|] eqn:Hp; [|lia].
    destruct (shallowest i nm 0 symbols ps.1) as [b|] eqn:Hsh; [|lia].
    apply shallowest_Some in Hsh as Hsh'. destruct Hsh' as (j & t & Ht & Hdj & Hne & Hn).
    destruct (Hfirst i s nm Hs Hp) as (k & u & Hk & Hu & Hun); [exists j, t; split_and!; [lia|done..]|].
    destruct (lookup_lt_is_Some_2 ps.1 k) as [dk Hdk]; [lia|].
    destruct (shallowest_le i nm symbols ps.1 0 k u dk) as (b' & Hb' & Hle'); [done|done|lia|done|].
    destruct (Hb k u dk Hu Hdk). simplify_eq. lia.
  - destruct (Hb j t x Ht Hx) as [H1 H2]. split; [done|]. etrans; [exact H2|]. by apply depth_of_mono.
Qed.

Lemma sum_insert (depths : list nat) i v d : depths !! i = Some d →
  sum_list (<[i:=v]> depths) + d = sum_list depths + v.
Proof.
  revert i. induction depths as [|x depths IH]; intros [|i] H; simplify_eq/=; [lia|]. specialize (IH _ H). lia.
Qed.

Lemma foldl_deepen idxs : ∀ ps, Forall (λ i, i < length symbols) idxs → below ps.1 →
  let r := foldl (deepen symbols) ps idxs in
  below r.1 ∧ sum_list ps.1 ≤ sum_list r.1 ∧ (r.2 = true → ps.2 = true ∨ sum_list ps.1 < sum_list r.1) ∧
  (r.2 = false → r.1 = ps.1 ∧ ps.2 = false ∧
     ∀ i s d, i ∈ idxs → symbols !! i = Some s → ps.1 !! i = Some d → depth_of symbols ps.1 i s ≤ d).
Proof.
  induction idxs as [|i idxs IH]; intros ps Hi Hb; cbn [foldl]; cbv zeta.
  { split_and!; [done|done|auto|]. intros ->. split_and!; [done|done|]. intros i s d Hin. by inversion Hin. }
  apply Forall_cons in Hi as [Hi His]. pose proof (deepen_below ps i Hi Hb) as Hb'.
  destruct (IH (deepen symbols ps i) His Hb') as (H1 & H2 & H3 & H4). clear IH.
  destruct (deepen_cases ps i Hi (proj1 Hb)) as [[He Hd]|(s & d & Hs & Hd & Hlt & He)]; rewrite He in *.
  - split_and!; [done..|]. intros Hr. destruct (H4 Hr) as (? & ? & H5). split_and!; [done..|].
    intros j s d [->|Hj]%elem_of_cons; eauto.
  - cbn [fst snd] in *. pose proof (sum_insert ps.1 i (depth_of symbols ps.1 i s) d Hd).
    split_and!; [done|lia|intros _; right; lia|]. intros Hr. by destruct (H4 Hr) as (_ & ? & _).
Qed.

Lemma sum_below depths : below depths → sum_list depths ≤ length symbols * length symbols.
Proof.
  intros [Hlen Hb]. assert (Hall : Forall (λ d, d ≤ length symbols) depths).
  { apply Forall_lookup. intros i d Hd. pose proof (lookup_lt_Some _ _ _ Hd).
    destruct (lookup_lt_is_Some_2 symbols i) as [s Hs]; [lia|]. destruct (Hb i s d Hs Hd). lia. }
  rewrite <- Hlen at 2. clear Hb Hlen. induction Hall as [|d depths Hd _ IH]; cbn; lia.
Qed.

Lemma settle_exact fuel depths : below depths → length symbols * length symbols < fuel + sum_list depths →
  ∃ final, settle fuel symbols depths = Some final ∧ length final = length symbols ∧
    ∀ i s, symbols !! i = Some s → final !! i = Some (depth_of symbols final i s).
Proof.
  revert depths. induction fuel as [|fuel IH]; intros depths Hb Hf.
  { pose proof (sum_below _ Hb). lia. }
  cbn [settle]. unfold pass.
  assert (Hseq : Forall (λ i, i < length symbols) (seq 0 (length symbols))).
  { apply Forall_forall. intros i Hi%elem_of_seq. lia. }
  destruct (foldl_deepen _ (depths, false) Hseq Hb) as (H1 & H2 & H3 & H4).
  destruct (foldl (deepen symbols) (depths, false) _) as [ds []]; cbn [fst snd] in *.
  - destruct (H3 eq_refl) as [|H5]; [done|]. apply IH; [done|lia].
  - destruct (H4 eq_refl) as (-> & _ & H5). exists depths. destruct Hb as [Hlen Hb]. split_and!; [done|done|].
    intros i s Hs. pose proof (lookup_lt_Some _ _ _ Hs).
    destruct (lookup_lt_is_Some_2 depths i) as [d Hd]; [lia|]. rewrite Hd. f_equal.
    destruct (Hb i s d Hs Hd). enough (depth_of symbols depths i s ≤ d) by lia.
    apply H5; [apply elem_of_seq; lia|done|done].
Qed.

Lemma below_zero : below (replicate (length symbols) 0).
Proof.
  split; [apply length_replicate|]. intros i s d _ Hd. apply lookup_replicate in Hd as [-> _]. lia.
Qed.
End settle.

(** ** Whose parents come first *)

Definition backed (symbols : list Symbol.t) : Prop :=
  ∀ i s nm, symbols !! i = Some s → Symbol.parent s = Some nm →
    ∃ j t, j < i ∧ symbols !! j = Some t ∧ Symbol.name t = nm.

Lemma backed_first symbols : backed symbols → parents_first symbols.
Proof. intros Hb i s nm Hs Hp _. by eapply Hb. Qed.

Definition known (scope : option (list byte)) (symbols : list Symbol.t) : Prop :=
  ∀ nm, scope = Some nm → ∃ j t, symbols !! j = Some t ∧ Symbol.name t = nm.

Lemma known_app scope symbols more : known scope symbols → known scope (symbols ++ more).
Proof. intros Hk nm Hs. destruct (Hk nm Hs) as (j & t & Hj & Hn). exists j, t. split; [by apply lookup_app_l_Some|done]. Qed.

Lemma backed_snoc symbols s : backed symbols → known (Symbol.parent s) symbols → backed (symbols ++ [s]).
Proof.
  intros Hb Hk i t nm Hi Hp. apply lookup_snoc_Some in Hi as [[Hi Ht]|[-> <-]].
  - destruct (Hb i t nm Ht Hp) as (j & u & ? & Hu & ?). exists j, u. split_and!; [done|by apply lookup_app_l_Some|done].
  - destruct (Hk nm Hp) as (j & u & Hj & Hn). pose proof (lookup_lt_Some _ _ _ Hj).
    exists j, u. split_and!; [done|by apply lookup_app_l_Some|done].
Qed.

Section backed.
Context (p : string) (l : Language) (source : list byte) (Hl : l ≠ Rust).

Lemma visit_node_backed n scope symbols : backed symbols → known scope symbols →
  let r := visit_node p l source n scope symbols in
  backed r.2 ∧ known r.1 r.2 ∧ ∃ more, r.2 = symbols ++ more.
Proof.
  intros Hb Hk. unfold visit_node. rewrite (bool_decide_false (l = Rust)), andb_false_r by done.
  destruct (declaration_kind l (kind n)) as [k|]; cbn [fst snd].
  2: { split_and!; [done|done|]. exists []. by rewrite app_nil_r. }
  set (s := Symbol.mk _ _ _ _ _ _ _ _). case_bool_decide; cbn [fst snd].
  - split_and!; [done| |exists []; by rewrite app_nil_r]. unfold or_else.
    destruct (last symbols) as [t|] eqn:Ht; cbn; [|done]. intros nm [= <-].
    rewrite last_lookup in Ht. eauto.
  - split_and!; [by apply backed_snoc| |eauto]. rewrite last_snoc. cbn. intros nm [= <-].
    exists (length symbols), s. split; [by apply list_lookup_middle|done].
Qed.

Lemma visit_backed n : ∀ scope symbols, backed symbols → known scope symbols →
  backed (visit p l source n scope symbols) ∧ ∃ more, visit p l source n scope symbols = symbols ++ more.
Proof.
  induction n as [k s e r m f cs IH] using Node_ind. intros scope symbols Hb Hk. rewrite visit_eq.
  destruct (visit_node_backed (mkNode k s e r m f cs) scope symbols Hb Hk) as (Hb' & Hk' & more & Hm).
  destruct (visit_node _ _ _ _ _ _) as [nested syms]. cbn [fst snd children] in *. subst syms.
  enough (H : ∀ syms, backed syms → known nested syms →
    backed (visit_all p l source cs nested syms) ∧ ∃ more, visit_all p l source cs nested syms = syms ++ more).
  { destruct (H _ Hb' Hk') as [H1 [more' Hm]]. split; [done|]. exists (more ++ more'). by rewrite Hm, app_assoc. }
  clear -IH. unfold visit_all. induction IH as [|c cs Hc _ IHcs]; intros syms Hb Hk; cbn [foldl].
  { split; [done|]. exists []. by rewrite app_nil_r. }
  destruct (Hc nested syms Hb Hk) as [Hb1 [more1 Hm1]]. rewrite Hm1 in *.
  destruct (IHcs _ Hb1) as [H1 [more2 Hm2]]; [by apply known_app|]. split; [done|].
  exists (more1 ++ more2). by rewrite Hm2, app_assoc.
Qed.

Lemma harvest_backed root : well_nested root = true → backed (harvest p l root source).
Proof.
  intros Hw. assert (Hv : harvest p l root source = visit p l source root None []).
  { unfold harvest. rewrite harvest_loop_root. cbn [default from_option id].
    apply (sort_by_id (λ a b, Symbol.start_byte a <=? Symbol.start_byte b)).
    pose proof (visit_orphans p l source root None []) as Ho. cbn [fmap list_fmap app] in Ho.
    assert (Hs : StronglySorted (λ a b, Symbol.start_byte a ≤ Symbol.start_byte b)
        (orphan <$> visit p l source root None [])).
    { rewrite Ho. eapply omap_sorted; [|by apply preorder_sorted]. cbn beta.
      intros x y a b Ha%symbol_of_start Hb%symbol_of_start. by rewrite Ha, Hb. }
    clear Ho. induction (visit p l source root None []) as [|s syms IH]; [constructor|].
    rewrite fmap_cons in Hs. apply StronglySorted_inv in Hs as [H1 H2]. constructor; [by apply IH|].
    rewrite Forall_fmap in H2. eapply Forall_impl; [exact H2|]. intros t Ht. by apply Nat.leb_le. }
  rewrite Hv. apply visit_backed; [by intros i s nm H|by intros nm].
Qed.
End backed.

(** The outline of a file that parses without errors comes to an end and tells, for
    each symbol in order, one more than the depth of the shallowest other symbol with its
    parent's name, and none when the file declares no such symbol.  In every language but
    Rust this holds for all files; in Rust, for those where a parent that is declared
    in the file is declared in front of its children. *)
Theorem outline_settles loads parse p source symbols :
  (∀ g text root, parse g text = Some root → well_nested root = true) →
  parse_file loads parse p source = Ok (Clean symbols) →
  Language.detect p ≠ Some Rust ∨ parents_first symbols →
  ∃ depths, outline loads parse (S (length symbols * length symbols)) p source =
      Some (Ok (zip_with mkEntry symbols depths)) ∧
    length depths = length symbols ∧
    ∀ i s, symbols !! i = Some s → depths !! i = Some (depth_of symbols depths i s).
Proof.
  intros Hparser Hp Hor. assert (Hfirst : parents_first symbols).
  { destruct Hor as [Hl|]; [|done]. unfold parse_file in Hp. destruct (Language.detect p) as [l|]; [|done].
    destruct (negb _); [done|]. destruct (parse _ source) as [root|] eqn:Hroot; [|done].
    destruct (has_error root); [done|]. simplify_eq. apply backed_first, harvest_backed; [congruence|].
    by eapply Hparser. }
  unfold outline. rewrite Hp.
  destruct (settle_exact symbols Hfirst (S (length symbols * length symbols)) (replicate (length symbols) 0))
    as (final & -> & Hlen & Hd); [apply below_zero|lia|].
  exists final. done.
Qed.

(** ** A concrete file *)

(** [fn x() {y()}] and its tree, for names of lengths [n] and [m]. *)
Definition fn_source (x y : string) : list byte :=
  bytes "fn " ++ bytes x ++ bytes "() {" ++ bytes y ++ bytes "()}".

Definition fn_tree (n m : nat) : Node :=
  mkNode "source_file" 0 (10 + n + m) 0 false None
    [mkNode "function_item" 0 (10 + n + m) 0 false (Some 1)
       [leaf "fn" 0 2; leaf "identifier" 3 (3 + n); leaf "parameters" (3 + n) (5 + n);
        mkNode "block" (6 + n) (10 + n + m) 0 false None
          [leaf "{" (6 + n) (7 + n);
           mkNode "call_expression" (7 + n) (9 + n + m) 0 false None
             [leaf "identifier" (7 + n) (7 + n + m); leaf "arguments" (7 + n + m) (9 + n + m)];
           leaf "}" (9 + n + m) (10 + n + m)]]].

Definition fn_parser (g : Grammar) (text : list byte) : option Node :=
  if negb (bool_decide (g = LANGUAGE_RUST)) then None
  else if bool_decide (text = fn_source "f" "f") then Some (fn_tree 1 1)
  else if bool_decide (text = fn_source "f" "go") then Some (fn_tree 1 2)
  else if bool_decide (text = fn_source "go" "go") then Some (fn_tree 2 2)
  else None.

Lemma fn_good g text root : fn_parser g text = Some root → good_tree text root.
Proof.
  unfold fn_parser. destruct (negb _); [done|]. repeat case_bool_decide; intros; simplify_eq.
  all: split; [done|cbn; lia|].
  all: refine (bool_decide_unpack _ _); by vm_compute.
Qed.

Lemma replace_node_exact_witness :
  (∀ g text root, fn_parser g text = Some root → well_nested root = true) ∧ bytes "go" ≠ [] ∧
  replace_node (λ _, true) fn_parser "a.rs" (fn_source "f" "f") 8 9 (bytes "go") = Ok (fn_source "f" "go").
Proof.
  assert (Hp : ∀ g text root, fn_parser g text = Some root → well_nested root = true)
    by (intros g text root H; by eapply good_nested, fn_good).
  split; [exact Hp|]. split; [done|].
  apply (replace_node_exact (λ _, true) fn_parser "a.rs" (fn_source "f" "f") 8 9 (bytes "go") _ Hp); [done|].
  split; [lia|]. split; [cbn; lia|]. split; [vm_compute; reflexivity|].
  exists (fn_tree 1 1), (leaf "identifier" 8 9), (fn_tree 1 2), (leaf "identifier" 8 10).
  split; [exists Rust; vm_compute; auto|]. split; [vm_compute; reflexivity|].
  split; [exists Rust; vm_compute; auto|]. split; [vm_compute; reflexivity|]. reflexivity.
Defined.

Definition fn_candidates : gmap string (list byte) :=
  <["a.rs" := fn_source "f" "f"]> {["other.rs" := fn_source "f" "f"]}.

Definition fn_renamed : RenameOutcome := mkOutcome [mkRenamed "a.rs" (fn_source "go" "go") 2] false.

(** The other file mentions the name as well, but imports nothing. *)
Lemma rename_exact_witness :
  rename (λ _, true) fn_parser 2 (bytes "f") (bytes "go") "a.rs" DependencyGraph.new fn_candidates =
    Some (Ok fn_renamed) ∧
  files fn_renamed = omap (renamed_in (λ _, true) fn_parser (bytes "f") (bytes "go") "a.rs" DependencyGraph.new)
    (in_path_order fn_candidates).
Proof.
  assert (H : rename (λ _, true) fn_parser 2 (bytes "f") (bytes "go") "a.rs" DependencyGraph.new fn_candidates =
    Some (Ok fn_renamed)) by (vm_compute; reflexivity).
  split; [exact H|].
  exact (proj1 (rename_exact (λ _, true) fn_parser fn_good _ _ _ _ _ _ _ H)).
Defined.

Lemma outline_settles_witness :
  parse_file (λ _, true) rust_parser "s.rs" rust_source = Ok (Clean rust_symbols) ∧
  ∃ depths, outline (λ _, true) rust_parser 5 "s.rs" rust_source = Some (Ok (zip_with mkEntry rust_symbols depths)) ∧
    length depths = length rust_symbols ∧
    ∀ i s, rust_symbols !! i = Some s → depths !! i = Some (depth_of rust_symbols depths i s).
Proof.
  assert (H : parse_file (λ _, true) rust_parser "s.rs" rust_source = Ok (Clean rust_symbols))
    by (vm_compute; reflexivity).
  split; [exact H|].
  refine (outline_settles (λ _, true) rust_parser "s.rs" rust_source rust_symbols
    (knows_well_nested _ _ rust_tree eq_refl) H (or_intror _)).
  apply backed_first. intros [|[|[|i]]] s nm Hs Hp; cbn in Hs; simplify_eq; cbn in Hp; simplify_eq.
  exists 0. eexists. split; [lia|]. split; reflexivity.
Defined.

(** ** What the model shows of the code *)

Definition loop_source : list byte := bytes "impl a { fn b() {} } impl b { fn a() {} }".

Definition impl_tree (at_ : nat) : Node :=
  mkNode "impl_item" at_ (20 + at_) 0 false None
    [leaf "impl" at_ (4 + at_); leaf "type_identifier" (5 + at_) (6 + at_);
     mkNode "declaration_list" (7 + at_) (20 + at_) 0 false None
       [leaf "{" (7 + at_) (8 + at_);
        mkNode "function_item" (9 + at_) (18 + at_) 0 false (Some 1)
          [leaf "fn" (9 + at_) (11 + at_); leaf "identifier" (12 + at_) (13 + at_);
           leaf "parameters" (13 + at_) (15 + at_); leaf "block" (16 + at_) (18 + at_)];
        leaf "}" (19 + at_) (20 + at_)]].

Definition loop_tree : Node := mkNode "source_file" 0 41 0 false None [impl_tree 0; impl_tree 21].

Definition loop_parser : Grammar → list byte → option Node := knows LANGUAGE_RUST loop_source loop_tree.

Definition loop_symbols : list Symbol.t :=
  [Symbol.mk "l.rs" Rust Function (bytes "b") (Some (bytes "a")) 9 18 1;
   Symbol.mk "l.rs" Rust Function (bytes "a") (Some (bytes "b")) 30 39 1].

Lemma loop_pass x y : x ≤ y → pass loop_symbols [x; y] = ([y + 1; y + 2], true).
Proof.
  intros Hxy. unfold pass. change (seq 0 (length loop_symbols)) with [0; 1]. cbn [foldl].
  assert (deepen loop_symbols ([x; y], false) 0 = ([y + 1; y], true)) as ->.
  { change (deepen loop_symbols ([x; y], false) 0)
      with (if x <? y + 1 then ([y + 1; y], true) else ([x; y], false)).
    by rewrite (proj2 (Nat.ltb_lt x (y + 1))) by lia. }
  change (deepen loop_symbols ([y + 1; y], true) 1)
    with (if y <? y + 1 + 1 then ([y + 1; y + 1 + 1], true) else ([y + 1; y], true)).
  rewrite (proj2 (Nat.ltb_lt y (y + 1 + 1))) by lia. by replace (y + 1 + 1) with (y + 2) by lia.
Qed.

(** Two methods, each named like the type whose [impl] block holds the other, send the
    outline into a loop that never ends, whatever the fuel. *)
Lemma outline_never_settles fuel :
  parse_file (λ _, true) loop_parser "l.rs" loop_source = Ok (Clean loop_symbols) ∧
  outline (λ _, true) loop_parser fuel "l.rs" loop_source = None.
Proof.
  assert (H : parse_file (λ _, true) loop_parser "l.rs" loop_source = Ok (Clean loop_symbols))
    by (vm_compute; reflexivity).
  split; [exact H|]. unfold outline. rewrite H. cbn [length loop_symbols replicate].
  enough (∀ x y, x ≤ y → settle fuel loop_symbols [x; y] = None) as -> by (done || lia).
  induction fuel as [|fuel IH]; intros x y Hxy; [done|]. cbn [settle].
  rewrite loop_pass by done. apply IH. lia.
Qed.

(** A node that shares its range with its child hides it: the outer one is found. *)
Lemma outer_node_found :
  find_exact (mkNode "expression_statement" 0 2 0 false None [leaf "identifier" 0 2]) 0 2 =
    Some (mkNode "expression_statement" 0 2 0 false None [leaf "identifier" 0 2]).
Proof. reflexivity. Qed.

Definition jsx_source : list byte := bytes "<a/>".

Definition jsx_parser (g : Grammar) (text : list byte) : option Node :=
  if bool_decide (g = LANGUAGE_TSX) then Some (leaf "program" 0 (length text))
  else Some (mkNode "program" 0 (length text) 0 false None [leaf "ERROR" 0 (length text)]).

(** A file of TSX the digest indexes is one the gate refuses: it is parsed as TypeScript. *)
Lemma tsx_not_gated :
  parse_file (λ _, true) jsx_parser "a.tsx" jsx_source = Ok (Clean []) ∧
  replace_node (λ _, true) jsx_parser "a.tsx" jsx_source 0 4 (bytes "<b/>") =
    Err (AstError.HasErrors "a.tsx" (bytes "the source contains error nodes")).
Proof. by vm_compute. Qed.

Lemma replace_node_refusals_witness :
  replace_node (λ _, true) fn_parser "a.rs" (fn_source "f" "f") 8 9 (bytes "f f") =
    Err (AstError.GateRefused "a.rs" (bytes "the parser returned no tree")) ∧
  ∃ root n, clean_tree (λ _, true) fn_parser "a.rs" (fn_source "f" "f") root ∧ find_exact root 8 9 = Some n.
Proof.
  assert (H : replace_node (λ _, true) fn_parser "a.rs" (fn_source "f" "f") 8 9 (bytes "f f") =
    Err (AstError.GateRefused "a.rs" (bytes "the parser returned no tree"))) by (vm_compute; reflexivity).
  split; [exact H|].
  destruct (replace_node_refusals (λ _, true) fn_parser _ _ _ _ _ _ H) as (_ & root & n & H1 & H2 & _).
  exists root, n. split; [exact H1|exact H2].
Defined.
