(* ===== verification/Digest.v ===== *)
(** * The code digest: [supra_digest/src/index.rs], [anchors.rs], [digest.rs]

    The symbols of every file the digest has seen, keyed by the file's path from the root;
    the scan of a directory tree that fills it and the file events that keep it current;
    and the anchors made of it for a task.  Symbols are those of [Syntax], the import graph
    that follows the same events is [Graph]'s.  The digest of contents is a parameter, as
    are the parser and the Unicode tables of the standard library. *)

From Stdlib Require Import Ascii.
From S2P Require Import Prelude Text Sealing Utf8 FileSystem Canonical Framing Language Graph Syntax Segment Ledger Breakpoints.

(** ** Paths from the root *)

(** The components of a path: the root, a leading dot, and the names, other dots and
    repeated separators left out. *)
Definition path_components (p : string) : list (list byte) :=
  let pieces := split_on (is_char "/") (bytes p) in
  (if starts_with (bytes "/") (bytes p) then [bytes "/"]
   else if bool_decide (head pieces = Some (bytes ".")) then [bytes "."] else []) ++
  List.filter (λ c, negb (bool_decide (c ∈ [[]; bytes "."]))) pieces.

(** The path of some components; equal paths are equal here. *)
Definition of_components (cs : list (list byte)) : string :=
  String.string_of_list_ascii
    (match cs with
     | c :: cs => if bool_decide (c = bytes "/") then c ++ join_with slash cs else join_with slash (c :: cs)
     | [] => []
     end).

(** What follows some components. *)
Fixpoint strip_components (prefix cs : list (list byte)) : option (list (list byte)) :=
  match prefix, cs with
  | [], _ => Some cs
  | x :: prefix, y :: cs => if bool_decide (x = y) then strip_components prefix cs else None
  | _ :: _, [] => None
  end.

Definition relative_to (root path : string) : string :=
  of_components (default (path_components path) (strip_components (path_components root) (path_components path))).

(** ** The index *)

Record FileEntry := mkFileEntry { file_fingerprint : list byte; symbols : list Symbol.t }.

Module SymbolIndex.
Record t := mk { root : string; files : gmap string FileEntry }.

Definition new (root : string) : t := mk root ∅.
Definition file_count (x : t) : nat := size (files x).
Definition symbol_count (x : t) : nat := sum_list_with (λ e, length (symbols e)) (map_to_list (files x)).*2.

Section operations.
Context (loads : Grammar → bool) (parse : Grammar → list byte → option Node).
Context (blake3 : list byte → list byte).

(** A file that does not parse without errors has no entry. *)
Definition index_bytes (path : string) (source : list byte) (x : t) : t :=
  let relative := relative_to (root x) path in
  match parse_file loads parse relative source with
  | Ok (Clean symbols) => mk (root x) (<[relative := mkFileEntry (blake3 source) symbols]> (files x))
  | _ => mk (root x) (base.delete relative (files x))
  end.

Definition remove_file (path : string) (x : t) : bool * t :=
  let relative := relative_to (root x) path in
  (bool_decide (is_Some (files x !! relative)), mk (root x) (base.delete relative (files x))).

Definition path_order {A} (f : A → string) (l : list A) : list A :=
  sort_by (λ a b, bool_decide (DependencyGraph.path_le (f a) (f b))) l.

Definition symbols_named (name : list byte) (x : t) : list Symbol.t :=
  path_order Symbol.path
    (List.filter (λ s, bool_decide (Symbol.name s = name)) (flat_map symbols (map_to_list (files x)).*2)).

Definition symbols_in (path : string) (x : t) : list Symbol.t :=
  match files x !! relative_to (root x) path with
  | Some entry => symbols entry
  | None => []
  end.

Definition is_current (path : string) (source : list byte) (x : t) : bool :=
  match files x !! relative_to (root x) path with
  | Some entry => bool_decide (file_fingerprint entry = blake3 source)
  | None => false
  end.

Definition indexed_paths (x : t) : list string := path_order id (map_to_list (files x)).*1.
End operations.
End SymbolIndex.

(** ** The scan *)

(** What a directory holds under a name; [None] is what cannot be read or listed. *)
Local Unset Elimination Schemes.
Inductive Entry :=
| File (content : option (list byte))
| Dir (listing : option (list (string * Entry)))
| Symlink
| Special
| Untyped.
Local Set Elimination Schemes.

Definition is_skipped_dir (name : string) : bool :=
  starts_with (bytes ".") (bytes name) || bool_decide (name = "target") || bool_decide (name = "node_modules").

Record ScanStats := mkStats {
  files_seen : nat; files_read : nat; skipped_unsupported : nat; symbols_indexed : nat }.

Section scan.
Context (loads : Grammar → bool) (parse : Grammar → list byte → option Node).
Context (blake3 : list byte → list byte).

(** The entries of one directory; the directories among them are collected, the last on
    top. *)
Fixpoint scan_entries (directory : string) (entries : list (string * Entry)) (x : SymbolIndex.t) (stats : ScanStats)
    (directories : list (string * option (list (string * Entry)))) :
    result (SymbolIndex.t * ScanStats * list (string * option (list (string * Entry)))) DigestError :=
  match entries with
  | [] => Ok (x, stats, directories)
  | (name, entry) :: entries =>
      let path := join directory name in
      match entry with
      | Untyped => Err (Unreadable path [])
      | Symlink | Special => scan_entries directory entries x stats directories
      | Dir listing =>
          if is_utf8 (bytes name) && is_skipped_dir name then scan_entries directory entries x stats directories
          else scan_entries directory entries x stats ((path, listing) :: directories)
      | File content =>
          let '(mkStats seen read skipped indexed) := stats in
          match Language.detect path with
          | None => scan_entries directory entries x (mkStats (S seen) read (S skipped) indexed) directories
          | Some _ =>
              match content with
              | None => Err (Unreadable path [])
              | Some source =>
                  let x := SymbolIndex.index_bytes loads parse blake3 path source x in
                  scan_entries directory entries x
                    (mkStats (S seen) (S read) skipped (SymbolIndex.symbol_count x)) directories
              end
          end
      end
  end.

(** The loop over the directories, the top first; [entry_size] rounds are enough. *)
Fixpoint scan_loop (fuel : nat) (directories : list (string * option (list (string * Entry))))
    (x : SymbolIndex.t) (stats : ScanStats) : option (result (SymbolIndex.t * ScanStats) DigestError) :=
  match directories with
  | [] => Some (Ok (x, stats))
  | (directory, listing) :: directories =>
      match fuel with
      | 0 => None
      | S fuel =>
          match listing with
          | None => Some (Err (BadRoot directory))
          | Some entries =>
              let entries := sort_by (λ a b, key_leb (bytes a.1) (bytes b.1)) entries in
              match scan_entries directory entries x stats directories with
              | Ok (x, stats, directories) => scan_loop fuel directories x stats
              | Err e => Some (Err e)
              end
          end
      end
  end.

Fixpoint entry_size (e : Entry) : nat :=
  match e with
  | Dir (Some entries) => S (sum_list_with (λ ne, entry_size ne.2) entries)
  | _ => 1
  end.

Definition scan_tree (root : string) (tree : Entry) (x : SymbolIndex.t) :
    option (result (SymbolIndex.t * ScanStats) DigestError) :=
  match tree with
  | Dir listing => scan_loop (entry_size tree) [(root, listing)] x (mkStats 0 0 0 0)
  | _ => Some (Err (BadRoot root))
  end.
End scan.

(** ** Anchors *)

Definition MAX_ANCHORS : nat := 10.
Definition SUFFIX_TOKENS : nat := 300.
Definition BYTES_PER_TOKEN : nat := 3.

Module Anchor.
Record t := mk { locator : list byte; gist : list byte; kind : SymbolKind; rank : option nat }.

Definition tokens (a : t) : nat := (length (locator a) + length (gist a) + (BYTES_PER_TOKEN - 1)) / BYTES_PER_TOKEN.
End Anchor.

Definition gist_for_symbol (s : Symbol.t) (first_line : option (list byte)) : list byte :=
  Symbol.name s ++ bytes " (" ++ bytes (symbol_kind_name (Symbol.kind s)) ++
  match Symbol.parent s with Some parent => bytes " of " ++ parent | None => [] end ++
  bytes ", " ++ bytes (Language.name (Symbol.language s)) ++ bytes ")" ++
  match non_empty (trim <$> first_line) with Some line => bytes ": " ++ line | None => [] end.

(** [str::split_whitespace]. *)
Definition split_whitespace (l : list byte) : list (list byte) :=
  List.filter (λ w, negb (bool_decide (w = []))) ((λ w, concat w) <$> split_on is_white (chars l)).

(** The words that fit some room, the first that does not ending the loop. *)
Fixpoint shorten (room : nat) (shortened : list byte) (words : list (list byte)) : list byte :=
  match words with
  | [] => shortened
  | w :: words =>
      if room <? length shortened + length w + 1 then shortened
      else shorten room (if bool_decide (shortened = []) then w else shortened ++ bytes " " ++ w) words
  end.

Definition built (turn : Id) (topic gist : list byte) : result (list byte * list byte) PromptError :=
  let? _ := index_entry turn (String.string_of_list_ascii topic) (String.string_of_list_ascii gist) in
  Ok (topic, gist).

Fixpoint first_gist (turn : Id) (topic : list byte) (candidates : list (list byte)) :
    result (list byte * list byte) PromptError :=
  let BUDGET := MemoryIndexEntry.MAX_CONTENT_BYTES in
  match candidates with
  | [] => Err (PIndexEntryTooLong turn (length topic))
  | gist :: candidates =>
      if length topic + length gist <=? BUDGET then built turn topic gist
      else
        let room := BUDGET - length topic in
        let shortened := shorten room [] (split_whitespace gist) in
        if (16 <? length gist) && contains (bytes " ") gist && (20 <? room) &&
           negb (bool_decide (shortened = [])) && (length topic + length shortened <=? BUDGET)
        then built turn topic shortened
        else first_gist turn topic candidates
  end.

Definition gist_for_entry (s : Symbol.t) (first_line : option (list byte)) (turn : Id) :
    result (list byte * list byte) PromptError :=
  let kind := bytes (symbol_kind_name (Symbol.kind s)) in
  let topic := Symbol.name s ++ bytes " (" ++ kind ++ bytes ")" in
  let line := default [] (trim <$> first_line) in
  let parent := default [] (Symbol.parent s) in
  first_gist turn topic
    ((if bool_decide (parent ≠ [] ∧ line ≠ []) then [parent ++ bytes ": " ++ line] else []) ++
     (if bool_decide (line ≠ []) then [line] else []) ++
     (if bool_decide (parent ≠ []) then [bytes "in " ++ parent] else []) ++ [kind]).

Definition check_budget (anchors : list Anchor.t) : result unit DigestError :=
  let tokens := sum_list_with Anchor.tokens anchors in
  if MAX_ANCHORS <? length anchors then Err (OverBudget tokens SUFFIX_TOKENS)
  else if SUFFIX_TOKENS <? tokens then Err (OverBudget tokens SUFFIX_TOKENS)
  else Ok tt.

(** A space, the em dash's three bytes, and a space. *)
Definition dash : list byte := bytes " " ++ (ascii_of_N <$> [226; 128; 148]%N) ++ bytes " ".

Definition render_suffix (anchors : list Anchor.t) : list byte :=
  flat_map (λ a, Anchor.locator a ++ dash ++ Anchor.gist a ++ ["010"%char]) anchors.

(** ** Retrieval *)

Definition DEFAULT_RESCAN_SECS : N := 30.

(** Whether the files are scanned again before a retrieval; an interval of [u64::MAX] is never. *)
Definition rescan_due (rescan_secs : N) (last now : Z) : bool :=
  let clamp x := Z.max i64_min (Z.min i64_max x) in
  if (rescan_secs =? Z.to_N u64_max)%N then false
  else
    let interval_ms := Z.min i64_max (Z.min u64_max (Z.of_N rescan_secs * 1000)) in
    negb (clamp (now - last) <? interval_ms)%Z.

Section retrieval.
(** The Unicode tables of the standard library: [char::is_alphanumeric] and
    [str::to_lowercase]. *)
Context (is_alphanumeric : list byte → bool) (to_lowercase : list byte → list byte).

Definition task_terms (task : list byte) : list (list byte) :=
  to_lowercase <$>
  List.filter (λ t, negb (bool_decide (t = [])))
    ((λ w, concat w) <$>
     split_on (λ c, negb (is_alphanumeric c) && negb (bool_decide (c = bytes "_"))) (chars task)).

Definition candidate_pool (x : SymbolIndex.t) (terms : list (list byte)) : list (Symbol.t * list byte) :=
  flat_map (λ path,
    omap (λ s,
      let name := to_lowercase (Symbol.name s) in
      let parent := to_lowercase (default [] (Symbol.parent s)) in
      if existsb (λ term, contains term name || contains term parent) terms
      then Some (s, gist_for_symbol s None) else None)
      (SymbolIndex.symbols_in path x))
    (SymbolIndex.indexed_paths x).

(** [haystack.matches(term).count()], for a term that is not empty. *)
Fixpoint matches_from (fuel : nat) (term l : list byte) : nat :=
  match fuel, find_sub term l with
  | S fuel, Some n => S (matches_from fuel term (drop (n + length term) l))
  | _, _ => 0
  end.
Definition matches (term l : list byte) : nat := matches_from (length l) term l.

Definition score (pool : list (Symbol.t * list byte)) (terms : list (list byte)) (gist : list byte) : nat :=
  let gist_lower := to_lowercase gist in
  foldl (λ score term,
    let hits := matches term gist_lower in
    if 0 <? hits
    then
      let docs := Nat.max 1 (length (List.filter (λ c, contains term (to_lowercase c.2)) pool)) in
      score + hits * length pool / docs
    else score) 0 terms.

Definition scored (pool : list (Symbol.t * list byte)) (terms : list (list byte)) : list (nat * (Symbol.t * list byte)) :=
  omap (λ c, let s := score pool terms c.2 in if 0 <? s then Some (s, c) else None) pool.

Definition lexical_fallback (pool : list (Symbol.t * list byte)) (terms : list (list byte)) (limit : nat) :
    list Anchor.t :=
  imap (λ rank x, Anchor.mk (Symbol.locator x.2.1) x.2.2 (Symbol.kind x.2.1) (Some rank))
    (take limit (sort_by (λ a b, b.1 <=? a.1) (scored pool terms))).

(** [retrieve] with an [embed] that has no vector for anything: every step but the search
    of the vector index. *)
Definition retrieve_lexical (x : SymbolIndex.t) (task : list byte) : result (list Anchor.t) DigestError :=
  let terms := task_terms task in
  if bool_decide (terms = []) then Ok []
  else
    let pool := candidate_pool x terms in
    if bool_decide (pool = []) then Ok []
    else
      let anchors := lexical_fallback pool terms MAX_ANCHORS in
      let? _ := check_budget anchors in Ok anchors.
End retrieval.

(** ** Following the files *)

Inductive EventKind := Remove | Create | Modify | Other.

(** A file event, and what reading its path yields when it is handled. *)
Record Event := mkEvent { event_kind : EventKind; event_path : string; event_read : option (list byte) }.

Record Digest := mkDigest { index : SymbolIndex.t; graph : DependencyGraph.t }.

Section events.
Context (loads : Grammar → bool) (parse : Grammar → list byte → option Node).
Context (blake3 : list byte → list byte).

Definition apply_event (d : Digest) (e : Event) : Digest :=
  let path := event_path e in
  let relative := relative_to (SymbolIndex.root (index d)) path in
  match event_kind e with
  | Remove => mkDigest (SymbolIndex.remove_file path (index d)).2 (apply_remove relative (graph d))
  | Other => d
  | Create | Modify =>
      match event_read e with
      | None => d
      | Some source =>
          if SymbolIndex.is_current blake3 path source (index d) then d
          else
            let x := SymbolIndex.index_bytes loads parse blake3 path source (index d) in
            let still_indexed := bool_decide (relative ∈ SymbolIndex.indexed_paths x) in
            mkDigest x (apply_change relative source still_indexed (graph d))
      end
  end.

(** [build_graph] over the index, with what reading each of its files yields. *)
Definition graph_of (read : string → option (list byte)) (x : SymbolIndex.t) : DependencyGraph.t :=
  build_graph ((λ p, (p, read (join (SymbolIndex.root x) p))) <$> SymbolIndex.indexed_paths x).

Definition open (root : string) (tree : Entry) (read : string → option (list byte)) :
    option (result Digest DigestError) :=
  scanned ← scan_tree loads parse blake3 root tree (SymbolIndex.new root);
  Some (let? x := scanned in Ok (mkDigest x.1 (graph_of read x.1))).
End events.

(** ** The index is a map from paths to what their last text declares *)

Section exact.
Context (loads : Grammar → bool) (parse : Grammar → list byte → option Node).
Context (blake3 : list byte → list byte).
Implicit Types (x : SymbolIndex.t) (k : string).

(** What a text is entered as under a path; a text with errors is not entered. *)
Definition entry_of k (source : list byte) : option FileEntry :=
  match parse_file loads parse k source with
  | Ok (Clean symbols) => Some (mkFileEntry (blake3 source) symbols)
  | _ => None
  end.

Lemma index_bytes_root path source x :
  SymbolIndex.root (SymbolIndex.index_bytes loads parse blake3 path source x) = SymbolIndex.root x.
Proof. unfold SymbolIndex.index_bytes. by repeat case_match. Qed.

Lemma index_bytes_lookup path source x k :
  SymbolIndex.files (SymbolIndex.index_bytes loads parse blake3 path source x) !! k =
    if bool_decide (relative_to (SymbolIndex.root x) path = k) then entry_of k source
    else SymbolIndex.files x !! k.
Proof.
  unfold SymbolIndex.index_bytes, entry_of. case_bool_decide as Hk.
  - rewrite Hk. destruct (parse_file loads parse k source) as [[]|]; cbn [SymbolIndex.files];
      rewrite ?lookup_insert_eq, ?lookup_delete_eq; done.
  - destruct (parse_file _ _ _ _) as [[]|]; cbn [SymbolIndex.files];
      rewrite ?lookup_insert_ne, ?lookup_delete_ne by done; done.
Qed.

(** *** The scan *)

Definition skipped (name : string) : bool := is_utf8 (bytes name) && is_skipped_dir name.

(** The files of a tree the scan is to read, with their texts. *)
Fixpoint found (path : string) (e : Entry) : list (string * list byte) :=
  match e with
  | File (Some source) => if bool_decide (is_Some (Language.detect path)) then [(path, source)] else []
  | Dir (Some entries) =>
      flat_map (λ ne,
        match ne.2 with
        | Dir _ => if skipped ne.1 then [] else found (join path ne.1) ne.2
        | _ => found (join path ne.1) ne.2
        end) entries
  | _ => []
  end.

Definition found_child (path : string) (ne : string * Entry) : list (string * list byte) :=
  match ne.2 with
  | Dir _ => if skipped ne.1 then [] else found (join path ne.1) ne.2
  | _ => found (join path ne.1) ne.2
  end.

Definition index_all (fs : list (string * list byte)) (x : SymbolIndex.t) : SymbolIndex.t :=
  foldl (λ x f, SymbolIndex.index_bytes loads parse blake3 f.1 f.2 x) x fs.

Definition dir_found (d : string * option (list (string * Entry))) : list (string * list byte) :=
  found d.1 (Dir d.2).

Definition dir_size (d : string * option (list (string * Entry))) : nat := entry_size (Dir d.2).

Lemma found_dir path entries : found path (Dir (Some entries)) = flat_map (found_child path) entries.
Proof. done. Qed.

(** What is read of one directory, and what is left for later. *)
Lemma scan_entries_exact directory entries : ∀ x stats ds x' stats' ds',
  scan_entries loads parse blake3 directory entries x stats ds = Ok (x', stats', ds') →
  ∃ fs more, x' = index_all fs x ∧ ds' = more ++ ds ∧
    fs ++ flat_map dir_found more ≡ₚ flat_map (found_child directory) entries ∧
    sum_list_with dir_size more ≤ sum_list_with (λ ne, entry_size ne.2) entries ∧
    files_read stats' = files_read stats + length fs.
Proof.
  induction entries as [|[name entry] entries IH]; intros x stats ds x' stats' ds'; cbn [scan_entries].
  { intros [= <- <- <-]. exists [], []. cbn. split_and!; done || lia. }
  assert (Hsame : ∀ x stats ds, found_child directory (name, entry) = [] →
      scan_entries loads parse blake3 directory entries x stats ds = Ok (x', stats', ds') →
      ∃ fs more, x' = index_all fs x ∧ ds' = more ++ ds ∧
        fs ++ flat_map dir_found more ≡ₚ flat_map (found_child directory) ((name, entry) :: entries) ∧
        sum_list_with dir_size more ≤ sum_list_with (λ ne, entry_size ne.2) ((name, entry) :: entries) ∧
        files_read stats' = files_read stats + length fs).
  { intros x0 stats0 ds0 Hnone (fs & more & -> & -> & Hp & Hs & Hr)%IH. exists fs, more. cbn [flat_map].
    rewrite Hnone. cbn. split_and!; done || lia. }
  destruct entry as [content|listing| | |]; try (by apply Hsame); try done.
  - destruct stats as [seen read skip indexed]. cbn [files_read].
    destruct (Language.detect (join directory name)) as [l|] eqn:Hl.
    2: { intros H. apply Hsame in H; [exact H|]. unfold found_child. cbn [fst snd found].
         destruct content; [|done]. by rewrite Hl. }
    destruct content as [source|]; [|done]. intros (fs & more & -> & -> & Hp & Hs & Hr)%IH.
    exists ((join directory name, source) :: fs), more. cbn [flat_map]. unfold found_child at 1. cbn [fst snd found].
    rewrite Hl, bool_decide_true by done. split_and!; [done|done| |cbn; lia|cbn in *; lia].
    by apply perm_skip.
  - fold (skipped name). destruct (skipped name) eqn:Hsk.
    { apply Hsame. unfold found_child. cbn [fst snd]. by rewrite Hsk. }
    intros (fs & more & -> & -> & Hp & Hs & Hr)%IH. exists fs, (more ++ [(join directory name, listing)]).
    split_and!; [done|by rewrite <- app_assoc| | |done].
    + rewrite flat_map_app. cbn [flat_map]. rewrite app_nil_r. unfold found_child at 1. cbn [fst snd]. rewrite Hsk.
      change (dir_found (join directory name, listing)) with (found (join directory name) (Dir listing)).
      rewrite app_assoc, Hp. apply Permutation_app_comm.
    + rewrite sum_list_with_app. cbn [sum_list_with snd]. unfold dir_size at 2. cbn [snd]. lia.
Qed.

Lemma dir_size_pos d : 0 < dir_size d.
Proof. destruct d as [? [|]]; cbn; lia. Qed.

Lemma scan_loop_exact fuel : ∀ ds x stats, sum_list_with dir_size ds ≤ fuel →
  ∃ r, scan_loop loads parse blake3 fuel ds x stats = Some r ∧
    match r with
    | Ok (x', stats') => ∃ fs, x' = index_all fs x ∧ fs ≡ₚ flat_map dir_found ds ∧
        files_read stats' = files_read stats + length fs
    | Err _ => True
    end.
Proof.
  induction fuel as [|fuel IH]; intros [|[directory listing] ds] x stats Hf; cbn [scan_loop].
  1,3: eexists; split; [done|]; exists []; cbn; split_and!; done || lia.
  { cbn [sum_list_with] in Hf. pose proof (dir_size_pos (directory, listing)). lia. }
  destruct listing as [entries|]; [|by eexists].
  set (sorted := sort_by _ entries). assert (Hsort : sorted ≡ₚ entries) by apply sort_by_perm.
  destruct (scan_entries _ _ _ _ _ _ _ _) as [[[x1 stats1] ds1]|e] eqn:Hs; [|by eexists].
  apply scan_entries_exact in Hs as (fs & more & -> & -> & Hp & Hsz & Hr).
  assert (Hsz' : sum_list_with (λ ne, entry_size ne.2) sorted = sum_list_with (λ ne, entry_size ne.2) entries)
    by (by rewrite Hsort).
  destruct (IH (more ++ ds) (index_all fs x) stats1) as (r & -> & Hres).
  { rewrite sum_list_with_app. cbn [sum_list_with] in Hf. unfold dir_size at 1 in Hf.
    cbn [entry_size snd] in Hf. lia. }
  exists r. split; [done|]. destruct r as [[x' stats']|]; [|done]. destruct Hres as (fs' & -> & Hp' & Hr').
  exists (fs ++ fs'). split_and!.
  - unfold index_all. by rewrite foldl_app.
  - cbn [flat_map]. change (dir_found (directory, Some entries)) with (flat_map (found_child directory) entries).
    rewrite Hp', flat_map_app, app_assoc, Hp. by rewrite (Permutation_flat_map _ Hsort).
  - rewrite length_app. lia.
Qed.

Lemma index_all_root fs x : SymbolIndex.root (index_all fs x) = SymbolIndex.root x.
Proof. revert x. induction fs as [|f fs IH]; intros x; [done|].
  cbn [index_all foldl]. change (foldl _ ?y fs) with (index_all fs y). by rewrite IH, index_bytes_root.
Qed.

(** The entry a list of files leaves under a path, when their paths are distinct. *)
Lemma index_all_lookup fs x k :
  NoDup ((λ f, relative_to (SymbolIndex.root x) f.1) <$> fs) →
  SymbolIndex.files (index_all fs x) !! k =
    match List.find (λ f, bool_decide (relative_to (SymbolIndex.root x) f.1 = k)) fs with
    | Some f => entry_of k f.2
    | None => SymbolIndex.files x !! k
    end.
Proof.
  revert x. induction fs as [|[p source] fs IH]; intros x; [done|]. cbn [fmap list_fmap index_all foldl List.find fst snd].
  intros [Hnew Hnd]%NoDup_cons. change (foldl _ ?y fs) with (index_all fs y).
  rewrite IH, index_bytes_root by by rewrite index_bytes_root. rewrite index_bytes_lookup.
  case_bool_decide as Hk; [|done].
  destruct (List.find _ fs) as [f|] eqn:Hf; [|done]. exfalso. apply find_some in Hf as [Hin Hf].
  apply bool_decide_eq_true_1 in Hf. apply Hnew, list_elem_of_fmap. exists f. split; [congruence|].
  by apply list_elem_of_In.
Qed.

(** The text some files hold under a path from the root. *)
Definition text_of (root : string) (fs : list (string * list byte)) k : option (list byte) :=
  snd <$> List.find (λ f, bool_decide (relative_to root f.1 = k)) fs.

Lemma text_of_perm root fs fs' k : fs ≡ₚ fs' → NoDup ((λ f, relative_to root f.1) <$> fs) →
  text_of root fs k = text_of root fs' k.
Proof.
  unfold text_of. induction 1 as [|f fs fs' _ IH|f g fs|fs1 fs2 fs3 H1 IH1 _ IH2]; intros Hnd; [done| | |].
  - rewrite fmap_cons in Hnd. apply NoDup_cons in Hnd as [_ Hnd]. cbn [List.find].
    case_bool_decide; [done|]. by apply IH.
  - rewrite !fmap_cons in Hnd. apply NoDup_cons in Hnd as [Hne _]. cbn [List.find].
    repeat case_bool_decide; try done. exfalso. apply Hne, elem_of_cons. left. congruence.
  - rewrite IH1 by done. apply IH2. by rewrite <- H1.
Qed.

Lemma index_all_text root fs k : NoDup ((λ f, relative_to root f.1) <$> fs) →
  SymbolIndex.files (index_all fs (SymbolIndex.new root)) !! k = text_of root fs k ≫= entry_of k.
Proof.
  intros Hnd. rewrite index_all_lookup by done. unfold text_of. cbn [SymbolIndex.root SymbolIndex.new].
  destruct (List.find _ fs) as [f|]; [done|]. apply lookup_empty.
Qed.

(** A scan always comes to an end, and one that succeeds has read every file a language
    covers that is reached from the root through directories that are neither hidden nor
    build output, no link followed, and nothing else: the index holds under each path
    exactly what the file there declares, and nothing for a file with errors. *)
Theorem scan_exact root listing :
  NoDup ((λ f, relative_to root f.1) <$> found root (Dir listing)) →
  ∃ r, scan_tree loads parse blake3 root (Dir listing) (SymbolIndex.new root) = Some r ∧
    ∀ x stats, r = Ok (x, stats) →
      SymbolIndex.root x = root ∧ files_read stats = length (found root (Dir listing)) ∧
      ∀ k, SymbolIndex.files x !! k = text_of root (found root (Dir listing)) k ≫= entry_of k.
Proof.
  intros Hnd. unfold scan_tree.
  destruct (scan_loop_exact (entry_size (Dir listing)) [(root, listing)] (SymbolIndex.new root) (mkStats 0 0 0 0))
    as (r & -> & Hr); [cbn [sum_list_with]; unfold dir_size; cbn [snd]; lia|].
  exists r. split; [done|]. intros x stats ->. destruct Hr as (fs & -> & Hp & Hread).
  cbn [flat_map] in Hp. rewrite app_nil_r in Hp. change (dir_found (root, listing)) with (found root (Dir listing)) in Hp.
  assert (Hnd' : NoDup ((λ f, relative_to root f.1) <$> fs)) by by rewrite Hp.
  split_and!; [by rewrite index_all_root|by rewrite Hread, Hp|].
  intros k. rewrite index_all_text by done. by rewrite (text_of_perm root _ _ k Hp).
Qed.

(** *** The events *)

(** The text a path has once an event is handled: a removed file has none, and a file that
    cannot be read keeps what was last read. *)
Definition follow (root : string) k (text : option (list byte)) (e : Event) : option (list byte) :=
  if bool_decide (relative_to root (event_path e) = k) then
    match event_kind e with
    | Remove => None
    | Other => text
    | Create | Modify => match event_read e with Some source => Some source | None => text end
    end
  else text.

Definition follows (root : string) k (text : option (list byte)) (es : list Event) : option (list byte) :=
  foldl (follow root k) text es.

(** The digest of contents tells some texts apart. *)
Definition tells_apart (texts : list (list byte)) : Prop :=
  ∀ a b, a ∈ texts → b ∈ texts → blake3 a = blake3 b → a = b.

Lemma apply_event_exact d e (text : string → option (list byte)) (texts : list (list byte)) :
  tells_apart texts → (∀ k s, text k = Some s → s ∈ texts) → (∀ s, event_read e = Some s → s ∈ texts) →
  (∀ k, SymbolIndex.files (index d) !! k = text k ≫= entry_of k) →
  let d' := apply_event loads parse blake3 d e in
  SymbolIndex.root (index d') = SymbolIndex.root (index d) ∧
  ∀ k, SymbolIndex.files (index d') !! k = follow (SymbolIndex.root (index d)) k (text k) e ≫= entry_of k.
Proof.
  intros Happart Htext Hread Hd. unfold apply_event, follow.
  destruct e as [ekind path read]. cbn [event_kind event_path event_read] in *.
  assert (Hchange : match read with
    | Some source => ∀ g, let d' := if SymbolIndex.is_current blake3 path source (index d) then d
        else mkDigest (SymbolIndex.index_bytes loads parse blake3 path source (index d)) g in
      SymbolIndex.root (index d') = SymbolIndex.root (index d) ∧
      ∀ k, SymbolIndex.files (index d') !! k =
        (if bool_decide (relative_to (SymbolIndex.root (index d)) path = k) then Some source else text k) ≫= entry_of k
    | None => True end).
  { destruct read as [source|]; [|done]. intros g. cbv zeta.
    destruct (SymbolIndex.is_current _ _ _ _) eqn:Hcur; cbn [index].
    - split; [done|]. intros k. rewrite Hd. case_bool_decide as Hk; [|done].
      unfold SymbolIndex.is_current in Hcur. rewrite Hk, Hd in Hcur.
      destruct (text k) as [s|] eqn:Hs; cbn [mbind option_bind] in *; [|done].
      enough (s = source) as -> by done. unfold entry_of in Hcur.
      destruct (parse_file loads parse k s) as [[]|]; [|done|done].
      apply bool_decide_eq_true_1 in Hcur. eapply Happart; eauto.
    - split; [apply index_bytes_root|]. intros k. rewrite index_bytes_lookup. case_bool_decide; [done|apply Hd]. }
  destruct ekind; cbn [index].
  - split; [done|]. intros k. cbn [SymbolIndex.remove_file snd SymbolIndex.files]. case_bool_decide as Hk.
    + rewrite Hk. apply lookup_delete_eq.
    + rewrite lookup_delete_ne by done. apply Hd.
  - destruct read as [source|]; [|split; [done|]; intros k; by case_bool_decide; rewrite Hd].
    specialize (Hchange (apply_change (relative_to (SymbolIndex.root (index d)) path) source
      (bool_decide (relative_to (SymbolIndex.root (index d)) path ∈ SymbolIndex.indexed_paths
         (SymbolIndex.index_bytes loads parse blake3 path source (index d)))) (graph d))). done.
  - destruct read as [source|]; [|split; [done|]; intros k; by case_bool_decide; rewrite Hd].
    specialize (Hchange (apply_change (relative_to (SymbolIndex.root (index d)) path) source
      (bool_decide (relative_to (SymbolIndex.root (index d)) path ∈ SymbolIndex.indexed_paths
         (SymbolIndex.index_bytes loads parse blake3 path source (index d)))) (graph d))). done.
  - split; [done|]. intros k. by case_bool_decide; rewrite Hd.
Qed.

Lemma apply_events_exact es : ∀ d (text : string → option (list byte)) texts,
  tells_apart texts → (∀ k s, text k = Some s → s ∈ texts) → (∀ s, Some s ∈ (event_read <$> es) → s ∈ texts) →
  (∀ k, SymbolIndex.files (index d) !! k = text k ≫= entry_of k) →
  ∀ k, SymbolIndex.files (index (foldl (apply_event loads parse blake3) d es)) !! k =
    follows (SymbolIndex.root (index d)) k (text k) es ≫= entry_of k.
Proof.
  induction es as [|e es IH]; intros d text texts Happart Htext Hread Hd k; cbn [foldl follows]; [apply Hd|].
  assert (He : ∀ s, event_read e = Some s → s ∈ texts).
  { intros s Hs. apply Hread. rewrite fmap_cons, Hs. by left. }
  destruct (apply_event_exact d e text texts Happart Htext He Hd) as [Hroot Hd'].
  rewrite (IH _ (λ k, follow (SymbolIndex.root (index d)) k (text k) e) texts); try done.
  - by rewrite Hroot.
  - intros k' s. unfold follow. repeat case_match; intros; simplify_eq; eauto.
  - intros s Hs. apply Hread. rewrite fmap_cons. by right.
Qed.

(** C24. After the digest is opened and any sequence of file events is handled, its index
    holds under every path exactly what the text last read there declares, as a scan of
    those texts would: unchanged texts that are not parsed again, removed files, files with
    errors and files that could not be read included. *)
Theorem digest_follows root listing read d es k :
  NoDup ((λ f, relative_to root f.1) <$> found root (Dir listing)) →
  tells_apart ((found root (Dir listing)).*2 ++ omap event_read es) →
  open loads parse blake3 root (Dir listing) read = Some (Ok d) →
  SymbolIndex.files (index (foldl (apply_event loads parse blake3) d es)) !! k =
    follows root k (text_of root (found root (Dir listing)) k) es ≫= entry_of k.
Proof.
  intros Hnd Happart. unfold open.
  destruct (scan_loop_exact (entry_size (Dir listing)) [(root, listing)] (SymbolIndex.new root) (mkStats 0 0 0 0))
    as (r & Hscan & Hr); [cbn [sum_list_with]; unfold dir_size; cbn [snd]; lia|].
  unfold scan_tree. rewrite Hscan. cbn [mbind option_bind]. intros [= Hopen].
  apply result_bind_Ok in Hopen as ([x stats] & -> & [= <-]). destruct Hr as (fs & -> & Hp & _).
  cbn [flat_map] in Hp. rewrite app_nil_r in Hp. change (dir_found (root, listing)) with (found root (Dir listing)) in Hp.
  assert (Hnd' : NoDup ((λ f, relative_to root f.1) <$> fs)) by by rewrite Hp.
  rewrite <- (text_of_perm root _ _ k Hp) by done.
  rewrite (apply_events_exact es _ (text_of root fs) ((found root (Dir listing)).*2 ++ omap event_read es)); cbn [index].
  - by rewrite index_all_root.
  - done.
  - intros k' s Hs. apply elem_of_app. left. unfold text_of in Hs. apply fmap_Some in Hs as (f & Hf & ->).
    apply find_some in Hf as [Hf _]. rewrite <- Hp. apply list_elem_of_fmap. exists f. split; [done|].
    by apply list_elem_of_In.
  - intros s Hs. apply elem_of_app. right. apply list_elem_of_omap. apply list_elem_of_fmap in Hs as (e & He & Hin).
    by exists e.
  - intros k'. by apply index_all_text.
Qed.
End exact.

(** ** Anchors within their budget *)

Lemma anchor_bytes a : length (Anchor.locator a) + length (Anchor.gist a) ≤ 3 * Anchor.tokens a.
Proof. unfold Anchor.tokens, BYTES_PER_TOKEN. lia. Qed.

Lemma render_suffix_length anchors :
  length (render_suffix anchors) ≤ 3 * sum_list_with Anchor.tokens anchors + 6 * length anchors.
Proof.
  unfold render_suffix. induction anchors as [|a anchors IH]; [done|]. cbn [flat_map sum_list_with].
  pose proof (anchor_bytes a). rewrite !length_app. replace (length dash) with 5 by done. cbn [length]. lia.
Qed.

Lemma check_budget_Ok anchors : check_budget anchors = Ok tt →
  length anchors ≤ 10 ∧ sum_list_with Anchor.tokens anchors ≤ 300.
Proof. unfold check_budget, MAX_ANCHORS, SUFFIX_TOKENS. repeat case_match; try done. to_prop. lia. Qed.

Section retrieve.
Context (is_alphanumeric : list byte → bool) (to_lowercase : list byte → list byte).

(** What a retrieval without embeddings answers are the best candidates by score, at
    most ten and best first, each a symbol of the index whose name or parent holds a term
    of the task; they take at most 300 tokens, and the text they are rendered to at most
    960 bytes. *)
Theorem retrieve_bounded x task anchors :
  retrieve_lexical is_alphanumeric to_lowercase x task = Ok anchors →
  ∃ chosen rest,
    let terms := task_terms is_alphanumeric to_lowercase task in
    let pool := candidate_pool to_lowercase x terms in
    anchors = imap (λ rank c, Anchor.mk (Symbol.locator c.2.1) c.2.2 (Symbol.kind c.2.1) (Some rank)) chosen ∧
    chosen ++ rest ≡ₚ scored to_lowercase pool terms ∧
    StronglySorted (λ a b, b.1 ≤ a.1) chosen ∧ (∀ a b, a ∈ chosen → b ∈ rest → b.1 ≤ a.1) ∧
    length chosen ≤ 10 ∧ (rest ≠ [] → length chosen = 10) ∧
    Forall (λ c, 0 < c.1 ∧ (∃ path, c.2.1 ∈ SymbolIndex.symbols_in path x) ∧
      ∃ term, term ∈ terms ∧ (contains term (to_lowercase (Symbol.name c.2.1)) = true ∨
        contains term (to_lowercase (default [] (Symbol.parent c.2.1))) = true)) chosen ∧
    sum_list_with Anchor.tokens anchors ≤ 300 ∧ length (render_suffix anchors) ≤ 960.
Proof.
  unfold retrieve_lexical. set (terms := task_terms _ _ task). set (pool := candidate_pool _ x terms).
  set (best := sort_by (λ a b, b.1 <=? a.1) (scored to_lowercase pool terms)).
  assert (Hbest : best ≡ₚ scored to_lowercase pool terms) by apply sort_by_perm.
  assert (Hsorted : StronglySorted (λ a b, b.1 ≤ a.1) best).
  { eapply StronglySorted_impl; [|apply sort_by_sorted]; cbn.
    - intros a b Hab%Nat.leb_le. exact Hab.
    - intros a b. rewrite !Nat.leb_le. lia.
    - intros a b c. rewrite !Nat.leb_le. lia. }
  assert (Hpool : ∀ c, c ∈ pool → (∃ path, c.1 ∈ SymbolIndex.symbols_in path x) ∧
      ∃ term, term ∈ terms ∧ (contains term (to_lowercase (Symbol.name c.1)) = true ∨
        contains term (to_lowercase (default [] (Symbol.parent c.1))) = true)).
  { intros c Hc. apply list_elem_of_In, in_flat_map in Hc as (path & _ & Hc). apply list_elem_of_In in Hc.
    apply list_elem_of_omap in Hc as (s & Hs & Hc). cbv zeta in Hc. case_match eqn:He; simplify_eq. cbn [fst].
    split; [eauto|]. apply existsb_exists in He as (term & Ht & Hm). exists term. split; [by apply list_elem_of_In|].
    by apply orb_true_iff in Hm. }
  assert (Hfinal : ∀ answer, answer = lexical_fallback to_lowercase pool terms MAX_ANCHORS →
      check_budget answer = Ok tt → ∃ chosen rest,
    answer = imap (λ rank c, Anchor.mk (Symbol.locator c.2.1) c.2.2 (Symbol.kind c.2.1) (Some rank)) chosen ∧
    chosen ++ rest ≡ₚ scored to_lowercase pool terms ∧
    StronglySorted (λ a b, b.1 ≤ a.1) chosen ∧ (∀ a b, a ∈ chosen → b ∈ rest → b.1 ≤ a.1) ∧
    length chosen ≤ 10 ∧ (rest ≠ [] → length chosen = 10) ∧
    Forall (λ c, 0 < c.1 ∧ (∃ path, c.2.1 ∈ SymbolIndex.symbols_in path x) ∧
      ∃ term, term ∈ terms ∧ (contains term (to_lowercase (Symbol.name c.2.1)) = true ∨
        contains term (to_lowercase (default [] (Symbol.parent c.2.1))) = true)) chosen ∧
    sum_list_with Anchor.tokens answer ≤ 300 ∧ length (render_suffix answer) ≤ 960).
  { intros answer -> [Hlen Htok]%check_budget_Ok. exists (take MAX_ANCHORS best), (drop MAX_ANCHORS best).
    rewrite <- (take_drop MAX_ANCHORS best) in Hsorted. apply StronglySorted_app in Hsorted as (H2 & H1 & _).
    split_and!; [done|by rewrite take_drop|done|done|rewrite length_take; unfold MAX_ANCHORS; lia| | |done|].
    - intros Hrest. rewrite length_take. unfold MAX_ANCHORS in *. destruct (Nat.le_gt_cases (length best) 10) as [Hle|]; [|lia].
      by rewrite (drop_ge best 10 Hle) in Hrest.
    - apply Forall_take. rewrite Hbest. apply Forall_forall. intros c (s & Hs & Hc)%list_elem_of_omap.
      cbn in Hc. destruct (0 <? score _ _ _ _) eqn:Hpos; simplify_eq. cbn [fst snd]. split; [by apply Nat.ltb_lt|].
      by apply Hpool.
    - etrans; [apply render_suffix_length|]. lia. }
  case_bool_decide as Hterms.
  { intros [= <-]. apply Hfinal; [|done]. unfold pool, candidate_pool. rewrite Hterms.
    unfold lexical_fallback. replace (flat_map _ (SymbolIndex.indexed_paths x)) with (@nil (Symbol.t * list byte)); [done|].
    induction (SymbolIndex.indexed_paths x) as [|path paths IH]; [done|]. cbn [flat_map]. rewrite <- IH, app_nil_r.
    by induction (SymbolIndex.symbols_in path x). }
  case_bool_decide as Hp.
  { intros [= <-]. apply Hfinal; [|done]. by rewrite Hp. }
  intros ([] & Hb & [= <-])%result_bind_Ok. by apply Hfinal.
Qed.
End retrieve.

(** *** Index entries *)

Lemma string_of_length l : String.length (String.string_of_list_ascii l) = length l.
Proof. induction l as [|c l IH]; [done|]. cbn. by rewrite IH. Qed.

Lemma built_fits turn topic gist : length topic + length gist ≤ MemoryIndexEntry.MAX_CONTENT_BYTES →
  built turn topic gist = Ok (topic, gist).
Proof.
  intros H. unfold built, index_entry, MemoryIndexEntry.new. rewrite !string_of_length.
  by rewrite (proj2 (Nat.ltb_ge _ _)).
Qed.

Lemma first_gist_spec turn topic candidates :
  match first_gist turn topic candidates with
  | Ok (topic', gist) => topic' = topic ∧ length topic + length gist ≤ MemoryIndexEntry.MAX_CONTENT_BYTES ∧
      built turn topic gist = Ok (topic, gist) ∧
      ∃ whole room, whole ∈ candidates ∧ (gist = whole ∨ gist = shorten room [] (split_whitespace whole))
  | Err e => e = PIndexEntryTooLong turn (length topic) ∧
      Forall (λ gist, MemoryIndexEntry.MAX_CONTENT_BYTES < length topic + length gist) candidates
  end.
Proof.
  induction candidates as [|gist candidates IH]; cbn [first_gist]; [done|].
  destruct (_ <=? _) eqn:Hfit; to_prop.
  { rewrite built_fits by done. split_and!; [done|done|by apply built_fits|]. exists gist, 0. split; [by left|by left]. }
  destruct (_ && (_ <=? _)) eqn:Hshort.
  - apply andb_true_iff in Hshort as [_ Hfit']. to_prop. rewrite built_fits by done.
    split_and!; [done|done|by apply built_fits|]. eexists gist, _. split; [by left|by right].
  - destruct (first_gist turn topic candidates) as [[topic' g]|e].
    + destruct IH as (? & ? & ? & whole & room & ? & ?). split_and!; [done..|]. exists whole, room. split; [by right|done].
    + destruct IH as [? ?]. split; [done|]. by constructor.
Qed.

(** A symbol's index entry always fits the entry's budget and is one the prompt's index
    takes; its topic is the symbol's name and kind, and it is refused exactly when not even
    the kind alone fits beside the topic. *)
Theorem gist_for_entry_fits s first_line turn :
  let kind := bytes (symbol_kind_name (Symbol.kind s)) in
  let topic := Symbol.name s ++ bytes " (" ++ kind ++ bytes ")" in
  match gist_for_entry s first_line turn with
  | Ok (topic', gist) => topic' = topic ∧ length topic + length gist ≤ 80 ∧
      is_ok (index_entry turn (String.string_of_list_ascii topic) (String.string_of_list_ascii gist)) = true
  | Err e => e = PIndexEntryTooLong turn (length topic) ∧ 80 < length topic + length kind
  end.
Proof.
  unfold gist_for_entry. cbv zeta.
  match goal with |- context [first_gist turn ?t ?c] => set (topic := t); set (candidates := c) end.
  pose proof (first_gist_spec turn topic candidates) as H.
  destruct (first_gist turn topic candidates) as [[topic' gist]|e].
  - destruct H as (-> & Hfit & Hb & _). split_and!; [done|exact Hfit|]. unfold built in Hb.
    by destruct (index_entry _ _ _).
  - destruct H as [-> Hall]. split; [done|]. unfold candidates in Hall. rewrite !Forall_app in Hall.
    destruct Hall as (_ & _ & _ & Hk). by apply Forall_cons in Hk as [? _].
Qed.

(** ** A concrete repository *)

(** A parser to which every text is one token, except the file of [Syntax]. *)
Definition any_parser (g : Grammar) (text : list byte) : option Node :=
  if bool_decide (text = rust_source) then Some rust_tree else Some (leaf "source_file" 0 (length text)).

Definition repository : list (string * Entry) :=
  [("s.rs", File (Some rust_source)); ("README.md", File (Some []));
   ("target", Dir (Some [("g.rs", File (Some rust_source))]));
   ("src", Dir (Some [("t.rs", File (Some [])); ("link", Symlink)]))].

Definition no_digest : list byte → list byte := id.

Lemma scan_exact_witness :
  NoDup ((λ f, relative_to "/r" f.1) <$> found "/r" (Dir (Some repository))) ∧
  ∃ r, scan_tree (λ _, true) any_parser no_digest "/r" (Dir (Some repository)) (SymbolIndex.new "/r") = Some r ∧
    ∀ x stats, r = Ok (x, stats) →
      SymbolIndex.root x = "/r" ∧ files_read stats = length (found "/r" (Dir (Some repository))) ∧
      ∀ k, SymbolIndex.files x !! k =
        text_of "/r" (found "/r" (Dir (Some repository))) k ≫= entry_of (λ _, true) any_parser no_digest k.
Proof.
  assert (H : NoDup ((λ f, relative_to "/r" f.1) <$> found "/r" (Dir (Some repository))))
    by (refine (bool_decide_unpack _ _); by vm_compute).
  split; [exact H|]. exact (scan_exact (λ _, true) any_parser no_digest "/r" (Some repository) H).
Defined.

Definition session : list Event :=
  [mkEvent Modify "/r/src/t.rs" (Some rust_source); mkEvent Remove "/r/s.rs" None;
   mkEvent Modify "/r/src/t.rs" (Some rust_source); mkEvent Create "/r/s.rs" None].

Definition opened : Digest :=
  match open (λ _, true) any_parser no_digest "/r" (Dir (Some repository)) (λ _, None) with
  | Some (Ok d) => d
  | _ => mkDigest (SymbolIndex.new "") DependencyGraph.new
  end.

Lemma digest_follows_witness :
  NoDup ((λ f, relative_to "/r" f.1) <$> found "/r" (Dir (Some repository))) ∧
  tells_apart no_digest ((found "/r" (Dir (Some repository))).*2 ++ omap event_read session) ∧
  open (λ _, true) any_parser no_digest "/r" (Dir (Some repository)) (λ _, None) = Some (Ok opened) ∧
  SymbolIndex.files (index (foldl (apply_event (λ _, true) any_parser no_digest) opened session)) !! "src/t.rs" =
    Some (mkFileEntry rust_source
      [Symbol.mk "src/t.rs" Rust Type_ (bytes "S") None 0 9 1;
       Symbol.mk "src/t.rs" Rust Function (bytes "a") (Some (bytes "S")) 19 28 2]).
Proof.
  assert (H1 : NoDup ((λ f, relative_to "/r" f.1) <$> found "/r" (Dir (Some repository))))
    by (refine (bool_decide_unpack _ _); by vm_compute).
  assert (H2 : tells_apart no_digest ((found "/r" (Dir (Some repository))).*2 ++ omap event_read session))
    by by intros a b _ _.
  assert (H3 : open (λ _, true) any_parser no_digest "/r" (Dir (Some repository)) (λ _, None) = Some (Ok opened))
    by (vm_compute; reflexivity).
  split; [exact H1|]. split; [exact H2|]. split; [exact H3|].
  rewrite (digest_follows (λ _, true) any_parser no_digest "/r" (Some repository) (λ _, None) opened session "src/t.rs" H1 H2 H3).
  vm_compute. reflexivity.
Defined.

Definition ascii_alphanumeric (c : list byte) : bool :=
  match c with
  | [c] => code_in 48 57 c || code_in 65 90 c || code_in 97 122 c
  | _ => false
  end.

Definition small_index : SymbolIndex.t := SymbolIndex.mk "/r" {["s.rs" := mkFileEntry [] rust_symbols]}.

Definition small_answer : list Anchor.t :=
  [Anchor.mk (bytes "s.rs:0-9") (bytes "S (type, rust)") Type_ (Some 0);
   Anchor.mk (bytes "s.rs:19-28") (bytes "a (function of S, rust)") Function (Some 1)].

Lemma retrieve_bounded_witness :
  retrieve_lexical ascii_alphanumeric (fmap lower) small_index (bytes "fix S") = Ok small_answer ∧
  ∃ chosen : list (nat * (Symbol.t * list byte)),
    small_answer = imap (λ rank c, Anchor.mk (Symbol.locator c.2.1) c.2.2 (Symbol.kind c.2.1) (Some rank)) chosen ∧
    length chosen ≤ 10.
Proof.
  assert (H : retrieve_lexical ascii_alphanumeric (fmap lower) small_index (bytes "fix S") = Ok small_answer)
    by (vm_compute; reflexivity).
  split; [exact H|].
  destruct (retrieve_bounded ascii_alphanumeric (fmap lower) small_index (bytes "fix S") small_answer H)
    as (chosen & rest & H1 & _ & _ & _ & H2 & _).
  exists chosen. split; [exact H1|exact H2].
Defined.

(** ** What the model shows of the code *)

(** A scan leaves build output out, but an event brings it in; and the removal of a
    directory leaves the files that were in it. *)
Lemma event_enters_skipped_directory :
  SymbolIndex.files (index opened) !! "target/g.rs" = None ∧
  is_Some (SymbolIndex.files (index (apply_event (λ _, true) any_parser no_digest opened
    (mkEvent Modify "/r/target/g.rs" (Some rust_source)))) !! "target/g.rs") ∧
  is_Some (SymbolIndex.files (index (apply_event (λ _, true) any_parser no_digest opened
    (mkEvent Remove "/r/src" None))) !! "src/t.rs").
Proof. split_and!; vm_compute; eauto. Qed.

(** A name that fits as a topic alone is refused when its kind does not fit beside it. *)
Lemma topic_alone_refused turn :
  let s := Symbol.mk "s.rs" Rust Function (replicate 64 "a"%char) None 0 1 1 in
  gist_for_entry s None turn = Err (PIndexEntryTooLong turn 75) ∧
  built turn (replicate 64 "a"%char ++ bytes " (function)") [] = Ok (replicate 64 "a"%char ++ bytes " (function)", []).
Proof. split; vm_compute; reflexivity. Qed.
