(* ===== verification/VectorIndex.v ===== *)
(** * The vector index: [supra_vector/src/index.rs], [cache.rs], [schema.rs]

    An index is a table in the store and, in memory, the codes of all its rows and a cache
    of their exact vectors.  Several handles may hold one store; a revision in the store
    tells a handle when what it holds is out of date.  The arithmetic on floating-point
    numbers (the comparison with a threshold, the similarity, whether a vector is usable)
    and the full-text search of the database are parameters; the code table and the fusion
    of ranks are those of [Vector]. *)

From Stdlib Require Import Ascii.
From S2P Require Import Prelude Text Sealing Utf8 Vector Syntax.

(** ** The cache of exact vectors: [cache.rs] *)

Module ExactCache.
Section cache.
Context {F : Type}.

Record t := mk {
  budget_bytes : nat; used_bytes : nat; tick : N;
  vectors : gmap Z (list F * N); order : gmap N Z;
  hits : N; misses : N; evictions : N }.

Definition new (budget : nat) : t := mk budget 0 0 ∅ ∅ 0 0 0.

(** [size_of::<f32>()] is 4. *)
Definition vector_bytes (v : list F) : nat := length v * 4.

Definition get (slot : Z) (c : t) : t * option (list F) :=
  match vectors c !! slot with
  | None => (mk (budget_bytes c) (used_bytes c) (tick c) (vectors c) (order c) (hits c) (misses c + 1) (evictions c), None)
  | Some (v, last) =>
      let now := (tick c + 1)%N in
      (mk (budget_bytes c) (used_bytes c) now (<[slot := (v, now)]> (vectors c))
         (<[now := slot]> (base.delete last (order c))) (hits c + 1) (misses c) (evictions c), Some v)
  end.

Definition drop_entry (slot : Z) (c : t) : bool * t :=
  match vectors c !! slot with
  | None => (false, c)
  | Some (v, last) =>
      (true, mk (budget_bytes c) (used_bytes c - vector_bytes v) (tick c) (base.delete slot (vectors c))
         (base.delete last (order c)) (hits c) (misses c) (evictions c))
  end.

Definition invalidate (slot : Z) (c : t) : bool * t := drop_entry slot c.

Definition clear (c : t) : t := mk (budget_bytes c) 0 (tick c) ∅ ∅ (hits c) (misses c) (evictions c).

(** [None] is an empty order. *)
Definition evict_one (c : t) : option t :=
  match head (btree (order c)) with
  | None => None
  | Some (last, slot) =>
      let freed := match vectors c !! slot with Some (v, _) => vector_bytes v | None => 0 end in
      Some (mk (budget_bytes c) (used_bytes c - freed) (tick c) (base.delete slot (vectors c))
              (base.delete last (order c)) (hits c) (misses c) (evictions c + 1))
  end.

(** The loop that makes room; every round leaves one entry less. *)
Fixpoint make_room (fuel bytes : nat) (c : t) : t :=
  if budget_bytes c <? used_bytes c + bytes then
    match fuel, evict_one c with
    | S fuel, Some c => make_room fuel bytes c
    | _, _ => c
    end
  else c.

Definition put (slot : Z) (v : list F) (c : t) : t :=
  let bytes := vector_bytes v in
  if budget_bytes c <? bytes then c
  else
    let c := (drop_entry slot c).2 in
    let c := make_room (size (order c)) bytes c in
    let now := (tick c + 1)%N in
    mk (budget_bytes c) (used_bytes c + bytes) now (<[slot := (v, now)]> (vectors c))
      (<[now := slot]> (order c)) (hits c) (misses c) (evictions c).
End cache.
Arguments t F : clear implicits.
End ExactCache.

(** *** The cache is the list of its entries, the least recently used first *)

Section lru.
Context {F : Type}.
Implicit Types (c : ExactCache.t F) (es : list (N * (Z * list F))).

Definition lru_get (slot : Z) (l : list (Z * list F)) : list (Z * list F) * option (list F) :=
  match List.find (λ e, bool_decide (e.1 = slot)) l with
  | Some e => (List.filter (λ e, negb (bool_decide (e.1 = slot))) l ++ [e], Some e.2)
  | None => (l, None)
  end.

Definition lru_remove (slot : Z) (l : list (Z * list F)) : list (Z * list F) :=
  List.filter (λ e, negb (bool_decide (e.1 = slot))) l.

Definition lru_bytes (l : list (Z * list F)) : nat := sum_list_with (λ e, ExactCache.vector_bytes e.2) l.

(** Entries leave from the front until the new one fits. *)
Fixpoint lru_room (budget bytes : nat) (l : list (Z * list F)) : list (Z * list F) :=
  match l with
  | [] => []
  | _ :: rest => if budget <? lru_bytes l + bytes then lru_room budget bytes rest else l
  end.

Definition lru_put (budget : nat) (slot : Z) (v : list F) (l : list (Z * list F)) : list (Z * list F) :=
  if budget <? ExactCache.vector_bytes v then l
  else lru_room budget (ExactCache.vector_bytes v) (lru_remove slot l) ++ [(slot, v)].

(** A cache laid out as entries with their ticks. *)
Record entries_of c es : Prop := {
  eo_sorted : StronglySorted (λ a b, (a.1 < b.1)%N) es;
  eo_ticks : Forall (λ e, (e.1 ≤ ExactCache.tick c)%N) es;
  eo_slots : NoDup (es.*2.*1);
  eo_order k s : ExactCache.order c !! k = Some s ↔ ∃ v, (k, (s, v)) ∈ es;
  eo_vectors s v k : ExactCache.vectors c !! s = Some (v, k) ↔ (k, (s, v)) ∈ es;
  eo_used : ExactCache.used_bytes c = lru_bytes es.*2;
  eo_budget : ExactCache.used_bytes c ≤ ExactCache.budget_bytes c }.

Lemma cached_unique c es k s v k' v' : entries_of c es → (k, (s, v)) ∈ es → (k', (s, v')) ∈ es → k = k' ∧ v = v'.
Proof. intros He H1 H2. apply (eo_vectors _ _ He) in H1, H2. by simplify_eq. Qed.

Lemma tick_unique c es k s v s' v' : entries_of c es → (k, (s, v)) ∈ es → (k, (s', v')) ∈ es → s = s' ∧ v = v'.
Proof.
  intros He H1 H2. assert (s = s') as ->.
  { assert (ExactCache.order c !! k = Some s) by (apply (eo_order _ _ He); eauto).
    assert (ExactCache.order c !! k = Some s') by (apply (eo_order _ _ He); eauto). by simplify_eq. }
  by destruct (cached_unique _ _ _ _ _ _ _ He H1 H2).
Qed.

Lemma btree_head (m : gmap N Z) k s :
  m !! k = Some s → (∀ k' s', m !! k' = Some s' → (k ≤ k')%N) → head (btree m) = Some (k, s).
Proof.
  intros Hk Hmin. unfold btree. set (l := merge_sort by_key (map_to_list m)).
  assert (Hp : l ≡ₚ map_to_list m) by apply merge_sort_Permutation.
  assert (Htotal : Total (@by_key Z)) by (intros a b; unfold by_key; lia).
  assert (Htrans : Transitive (@by_key Z)) by (intros a b d; unfold by_key; lia).
  assert (Hs : StronglySorted by_key l) by (apply StronglySorted_merge_sort; apply _).
  assert (Hin : (k, s) ∈ l) by (rewrite Hp; by apply elem_of_map_to_list).
  destruct l as [|[k' s'] l]; [by inversion Hin|]. cbn [head].
  assert (Hk' : m !! k' = Some s'). { apply elem_of_map_to_list. rewrite <- Hp. by left. }
  pose proof (Hmin _ _ Hk') as H1. apply StronglySorted_inv in Hs as [_ Hf].
  apply elem_of_cons in Hin as [[= -> ->]|Hin]; [done|]. rewrite Forall_forall in Hf. apply Hf in Hin.
  unfold by_key in Hin. cbn in Hin. assert (k = k') by lia. by simplify_eq.
Qed.

Lemma evict_entries c e es : entries_of c (e :: es) →
  ∃ c', ExactCache.evict_one c = Some c' ∧ entries_of c' es ∧
    ExactCache.budget_bytes c' = ExactCache.budget_bytes c ∧ ExactCache.tick c' = ExactCache.tick c.
Proof.
  intros He. destruct e as [k [s v]]. unfold ExactCache.evict_one.
  pose proof (eo_sorted _ _ He) as Hs. apply StronglySorted_inv in Hs as [Hs Hlt].
  assert (Hk : ExactCache.order c !! k = Some s) by (apply (eo_order _ _ He); exists v; by left).
  rewrite (btree_head _ k s Hk).
  2: { intros k' s' Hk'. apply (eo_order _ _ He) in Hk' as [v' [[= -> -> ->]|Hin]%elem_of_cons]; [done|].
       rewrite Forall_forall in Hlt. apply Hlt in Hin. cbn in Hin. lia. }
  assert (Hv : ExactCache.vectors c !! s = Some (v, k)) by (apply (eo_vectors _ _ He); by left).
  rewrite Hv. eexists. split; [done|]. split; [|done]. pose proof (eo_slots _ _ He) as Hnd.
  rewrite !fmap_cons in Hnd. apply NoDup_cons in Hnd as [Hfresh Hnd]. cbn [fst snd] in Hfresh.
  assert (Hother : ∀ k' s' v', (k', (s', v')) ∈ es → s' ≠ s ∧ k' ≠ k).
  { intros k' s' v' Hin. split.
    - intros ->. apply Hfresh. apply list_elem_of_fmap. exists (s, v'). split; [done|].
      apply list_elem_of_fmap. by exists (k', (s, v')).
    - intros ->. rewrite Forall_forall in Hlt. apply Hlt in Hin. cbn in Hin. lia. }
  pose proof (eo_used _ _ He) as Hu. pose proof (eo_budget _ _ He) as Hb.
  rewrite fmap_cons in Hu. unfold lru_bytes in Hu. cbn [sum_list_with snd] in Hu.
  split; cbn [ExactCache.tick ExactCache.order ExactCache.vectors ExactCache.used_bytes ExactCache.budget_bytes].
  - done.
  - pose proof (eo_ticks _ _ He) as Ht. by apply Forall_cons in Ht as [_ Ht].
  - done.
  - intros k' s'. rewrite lookup_delete_Some, (eo_order _ _ He). setoid_rewrite elem_of_cons. split.
    + intros [Hne [v' [[= -> -> ->]|Hin]]]; [done|eauto].
    + intros [v' Hin]. split; [|eauto]. intros ->. by destruct (Hother _ _ _ Hin).
  - intros s' v' k'. rewrite lookup_delete_Some, (eo_vectors _ _ He), elem_of_cons. split.
    + intros [Hne [[= -> -> ->]|Hin]]; done.
    + intros Hin. split; [|by right]. intros ->. by destruct (Hother _ _ _ Hin).
  - unfold lru_bytes. lia.
  - unfold lru_bytes in Hu. lia.
Qed.

Lemma make_room_entries bytes : ∀ fuel c es, entries_of c es → length es ≤ fuel → bytes ≤ ExactCache.budget_bytes c →
  ∃ es', entries_of (ExactCache.make_room fuel bytes c) es' ∧
    es'.*2 = lru_room (ExactCache.budget_bytes c) bytes es.*2 ∧
    ExactCache.budget_bytes (ExactCache.make_room fuel bytes c) = ExactCache.budget_bytes c ∧
    ExactCache.tick (ExactCache.make_room fuel bytes c) = ExactCache.tick c ∧
    ExactCache.used_bytes (ExactCache.make_room fuel bytes c) + bytes ≤ ExactCache.budget_bytes c.
Proof.
  induction fuel as [|fuel IH]; intros c es He Hlen Hb.
  - destruct es as [|e es]; [|cbn in Hlen; lia]. pose proof (eo_used _ _ He) as Hu. cbn in Hu.
    cbn [ExactCache.make_room]. rewrite Hu. exists []. destruct (_ <? _) eqn:Hlt; to_prop; [lia|].
    split_and!; [done|done|done|done|lia].
  - cbn [ExactCache.make_room]. pose proof (eo_used _ _ He) as Hu.
    destruct (ExactCache.budget_bytes c <? ExactCache.used_bytes c + bytes) eqn:Hlt.
    + destruct es as [|e es]; [rewrite Hu in Hlt; cbn in Hlt; to_prop; lia|].
      destruct (evict_entries c e es He) as (c' & -> & He' & Hb' & Ht').
      destruct (IH c' es He') as (es' & H1 & H2 & H3 & H4 & H5); [cbn in Hlen; lia|lia|].
      exists es'. rewrite Hb' in *. split_and!; [done| |done|congruence|done].
      rewrite H2, fmap_cons. cbn [lru_room]. rewrite <- fmap_cons, <- Hu. by rewrite Hlt.
    + exists es. to_prop. split_and!; [done| |done|done|lia]. destruct es as [|e es]; [done|].
      rewrite fmap_cons. cbn [lru_room]. rewrite <- fmap_cons, <- Hu.
      by rewrite (proj2 (Nat.ltb_ge _ _)) by lia.
Qed.

Definition other_slot (slot : Z) (e : N * (Z * list F)) : bool := negb (bool_decide (e.2.1 = slot)).

Lemma filter_slots slot es : (List.filter (other_slot slot) es).*2 = lru_remove slot es.*2.
Proof.
  unfold lru_remove. induction es as [|[k [s v]] es IH]; [done|]. cbn [List.filter fmap list_fmap snd].
  unfold other_slot at 1. cbn [fst snd]. destruct (negb _); cbn; by rewrite <- IH.
Qed.

Lemma other_elem slot es k s v : (k, (s, v)) ∈ List.filter (other_slot slot) es ↔ (k, (s, v)) ∈ es ∧ s ≠ slot.
Proof.
  rewrite !list_elem_of_In, filter_In. unfold other_slot. cbn [fst snd].
  by rewrite negb_true_iff, bool_decide_eq_false.
Qed.

Lemma slots_absent slot (es : list (N * (Z * list F))) : (∀ k v, (k, (slot, v)) ∉ es) → List.filter (other_slot slot) es = es.
Proof.
  induction es as [|[k [s v]] es IH]; [done|]. intros Hno. cbn [List.filter]. unfold other_slot at 1. cbn [fst snd].
  rewrite bool_decide_false; cbn [negb].
  - rewrite IH; [done|]. intros k' v' Hin. apply (Hno k' v'). by right.
  - intros ->. apply (Hno k v). by left.
Qed.

Lemma bytes_without slot es k v : NoDup (es.*2.*1) → (k, (slot, v)) ∈ es →
  lru_bytes es.*2 = lru_bytes (List.filter (other_slot slot) es).*2 + ExactCache.vector_bytes v.
Proof.
  induction es as [|[k' [s' v']] es IH]; [by intros _ H; inversion H|].
  rewrite !fmap_cons. intros [Hfresh Hnd]%NoDup_cons [[= <- <- <-]|Hin]%elem_of_cons.
  - cbn [List.filter]. unfold other_slot at 1. cbn [fst snd]. rewrite bool_decide_true by done. cbn [negb].
    rewrite slots_absent; [unfold lru_bytes; cbn [sum_list_with snd]; lia|]. intros k' v' Hin. apply Hfresh. cbn [fst snd].
    apply list_elem_of_fmap. exists (slot, v'). split; [done|]. apply list_elem_of_fmap. by exists (k', (slot, v')).
  - cbn [List.filter]. unfold other_slot at 1. cbn [fst snd]. rewrite bool_decide_false.
    + cbn [negb]. rewrite fmap_cons. specialize (IH Hnd Hin). unfold lru_bytes in *. cbn [sum_list_with snd]. lia.
    + intros ->. apply Hfresh. cbn [fst snd]. apply list_elem_of_fmap. exists (slot, v). split; [done|].
      apply list_elem_of_fmap. by exists (k, (slot, v)).
Qed.

Lemma slots_filter slot es : NoDup (es.*2.*1) → NoDup ((List.filter (other_slot slot) es).*2.*1).
Proof.
  intros Hnd. eapply submseteq_NoDup; [|exact Hnd]. do 2 apply fmap_submseteq. apply filter_submseteq.
Qed.

Lemma drop_entries slot c es : entries_of c es →
  entries_of (ExactCache.drop_entry slot c).2 (List.filter (other_slot slot) es) ∧
  ExactCache.budget_bytes (ExactCache.drop_entry slot c).2 = ExactCache.budget_bytes c ∧
  ExactCache.tick (ExactCache.drop_entry slot c).2 = ExactCache.tick c.
Proof.
  intros He. unfold ExactCache.drop_entry. destruct (ExactCache.vectors c !! slot) as [[v k]|] eqn:Hv.
  - apply (eo_vectors _ _ He) in Hv as Hin. split; [|done]. pose proof (eo_used _ _ He) as Hu.
    rewrite (bytes_without slot es k v (eo_slots _ _ He) Hin) in Hu. pose proof (eo_budget _ _ He).
    split; cbn [snd ExactCache.tick ExactCache.order ExactCache.vectors ExactCache.used_bytes ExactCache.budget_bytes].
    + apply filter_sorted, He.
    + apply Forall_forall. intros [k' [s' v']] [Hin' _]%other_elem.
      pose proof (eo_ticks _ _ He) as Ht. rewrite Forall_forall in Ht. by apply Ht.
    + apply slots_filter, He.
    + intros k' s'. rewrite lookup_delete_Some, (eo_order _ _ He). setoid_rewrite other_elem. split.
      * intros [Hne [v' Hin']]. exists v'. split; [done|]. intros ->.
        by destruct (cached_unique _ _ _ _ _ _ _ He Hin Hin').
      * intros (v' & Hin' & Hne). split; [|eauto]. intros ->. by destruct (tick_unique _ _ _ _ _ _ _ He Hin Hin').
    + intros s' v' k'. rewrite lookup_delete_Some, (eo_vectors _ _ He), other_elem. naive_solver.
    + lia.
    + lia.
  - cbn [snd]. rewrite slots_absent; [done|]. intros k v Hin. apply (eo_vectors _ _ He) in Hin. congruence.
Qed.

Lemma push_entries c es slot v h m e : entries_of c es → (∀ k v', (k, (slot, v')) ∉ es) →
  ExactCache.used_bytes c + ExactCache.vector_bytes v ≤ ExactCache.budget_bytes c →
  entries_of (ExactCache.mk (ExactCache.budget_bytes c) (ExactCache.used_bytes c + ExactCache.vector_bytes v)
      (ExactCache.tick c + 1) (<[slot := (v, (ExactCache.tick c + 1)%N)]> (ExactCache.vectors c))
      (<[(ExactCache.tick c + 1)%N := slot]> (ExactCache.order c)) h m e)
    (es ++ [((ExactCache.tick c + 1)%N, (slot, v))]).
Proof.
  intros He Hno Hb. set (now := (ExactCache.tick c + 1)%N).
  assert (Hold : ∀ k s v', (k, (s, v')) ∈ es → (k < now)%N ∧ s ≠ slot).
  { intros k s v' Hin. split; [|intros ->; by eapply Hno].
    pose proof (eo_ticks _ _ He) as Ht. rewrite Forall_forall in Ht. apply Ht in Hin. cbn in Hin. lia. }
  split; cbn [ExactCache.tick ExactCache.order ExactCache.vectors ExactCache.used_bytes ExactCache.budget_bytes].
  - apply StronglySorted_app_2; [|apply He|by repeat constructor].
    intros [k [s v']] y Hin ->%list_elem_of_singleton. cbn. by destruct (Hold _ _ _ Hin).
  - apply Forall_app. split; [|repeat constructor; cbn; lia].
    eapply Forall_impl; [apply He|]. cbn. lia.
  - rewrite !fmap_app. apply NoDup_app. split; [apply He|]. split; [|apply NoDup_singleton].
    intros s Hs ->%list_elem_of_singleton. apply list_elem_of_fmap in Hs as ([s' v'] & Heq & Hs).
    apply list_elem_of_fmap in Hs as ([k' [s'' v'']] & Heq' & Hs). cbn in *. simplify_eq. by eapply Hno.
  - intros k s. rewrite lookup_insert_Some, (eo_order _ _ He). setoid_rewrite elem_of_app.
    setoid_rewrite list_elem_of_singleton. split.
    + intros [[<- <-]|[Hne [v' Hin]]]; [by eexists; right|by eexists; left].
    + intros [v' [Hin|[= -> ->]]]; [|by left]. right. split; [|eauto]. destruct (Hold _ _ _ Hin). lia.
  - intros s v' k. rewrite lookup_insert_Some, (eo_vectors _ _ He), elem_of_app, list_elem_of_singleton. split.
    + intros [[<- [= <- <-]]|[Hne Hin]]; auto.
    + intros [Hin|[= -> -> ->]]; [|by left]. right. split; [|done]. destruct (Hold _ _ _ Hin). done.
  - rewrite fmap_app. unfold lru_bytes. rewrite sum_list_with_app, (eo_used _ _ He). unfold lru_bytes.
    cbn [fmap list_fmap sum_list_with snd]. lia.
  - done.
Qed.

Lemma find_slot slot es v k : NoDup (es.*2.*1) → (k, (slot, v)) ∈ es →
  List.find (λ e, bool_decide (e.1 = slot)) es.*2 = Some (slot, v).
Proof.
  induction es as [|[k' [s' v']] es IH]; [by intros _ H; inversion H|].
  rewrite !fmap_cons. intros [Hfresh Hnd]%NoDup_cons [[= <- <- <-]|Hin]%elem_of_cons; cbn [List.find snd fst].
  - by rewrite bool_decide_true.
  - rewrite bool_decide_false; [by apply IH|]. intros ->. apply Hfresh. cbn [fst snd].
    apply list_elem_of_fmap. exists (slot, v). split; [done|]. apply list_elem_of_fmap. by exists (k, (slot, v)).
Qed.

Lemma get_entries slot c es : entries_of c es →
  ∃ es', entries_of (ExactCache.get slot c).1 es' ∧
    (es'.*2, (ExactCache.get slot c).2) = lru_get slot es.*2 ∧
    ExactCache.budget_bytes (ExactCache.get slot c).1 = ExactCache.budget_bytes c.
Proof.
  intros He. unfold ExactCache.get. destruct (ExactCache.vectors c !! slot) as [[v k]|] eqn:Hv; cbn [fst snd].
  - apply (eo_vectors _ _ He) in Hv as Hin. destruct (drop_entries slot c es He) as [He' _].
    unfold ExactCache.drop_entry in He'. rewrite Hv in He'. cbn [snd] in He'.
    pose proof (eo_used _ _ He) as Hu. pose proof (eo_budget _ _ He) as Hb.
    rewrite (bytes_without slot es k v (eo_slots _ _ He) Hin) in Hu.
    eapply push_entries in He' as Hp; [|intros k' v' [_ Hne]%other_elem; by apply Hne|].
    2: { cbn [ExactCache.used_bytes ExactCache.budget_bytes]. instantiate (1 := v). lia. }
    cbn [ExactCache.used_bytes ExactCache.budget_bytes ExactCache.tick ExactCache.vectors ExactCache.order] in Hp.
    replace (ExactCache.used_bytes c - ExactCache.vector_bytes v + ExactCache.vector_bytes v)
      with (ExactCache.used_bytes c) in Hp by lia.
    rewrite insert_delete_eq in Hp. eexists. split; [exact Hp|]. split; [|done].
    unfold lru_get. rewrite (find_slot slot es v k (eo_slots _ _ He) Hin). cbn [snd].
    rewrite fmap_app, filter_slots. done.
  - exists es. split; [by split; try apply He|]. split; [|done]. unfold lru_get.
    assert (List.find (λ e, bool_decide (e.1 = slot)) es.*2 = None) as ->; [|done].
    destruct (List.find _ es.*2) as [[s v]|] eqn:Hf; [|done]. exfalso.
    apply find_some in Hf as [Hin Hs]. cbn in Hs. apply bool_decide_eq_true_1 in Hs as ->.
    apply list_elem_of_In, list_elem_of_fmap in Hin as ([k [s' v']] & Heq & Hin). cbn in Heq. simplify_eq.
    apply (eo_vectors _ _ He) in Hin. congruence.
Qed.

Lemma order_size c es : entries_of c es → length es = size (ExactCache.order c).
Proof.
  intros He. assert (Hnd : NoDup (es.*1)).
  { pose proof (eo_sorted _ _ He) as Hs. clear -Hs. induction Hs as [|e es Hs IH Hlt]; [constructor|].
    rewrite fmap_cons. constructor; [|done]. intros Hin. apply list_elem_of_fmap in Hin as (e' & Heq & Hin).
    rewrite Forall_forall in Hlt. apply Hlt in Hin. lia. }
  assert (Hm : ExactCache.order c = list_to_map ((λ e, (e.1, e.2.1)) <$> es)).
  { apply map_eq. intros k. apply option_eq. intros s. rewrite (eo_order _ _ He), <- elem_of_list_to_map.
    - rewrite list_elem_of_fmap. split.
      + intros [v Hin]. by exists (k, (s, v)).
      + intros ([k' [s' v]] & [= -> ->] & Hin). eauto.
    - rewrite <- list_fmap_compose. exact Hnd. }
  rewrite Hm, map_size_list_to_map, length_fmap; [done|]. rewrite <- list_fmap_compose. exact Hnd.
Qed.

Lemma put_entries slot v c es : entries_of c es →
  ∃ es', entries_of (ExactCache.put slot v c) es' ∧ es'.*2 = lru_put (ExactCache.budget_bytes c) slot v es.*2 ∧
    ExactCache.budget_bytes (ExactCache.put slot v c) = ExactCache.budget_bytes c.
Proof.
  intros He. unfold ExactCache.put, lru_put. destruct (_ <? _) eqn:Hbig; [by exists es|]. to_prop.
  destruct (drop_entries slot c es He) as (He1 & Hb1 & Ht1). cbv zeta.
  set (c1 := (ExactCache.drop_entry slot c).2) in *.
  destruct (make_room_entries (ExactCache.vector_bytes v) (size (ExactCache.order c1)) c1 _ He1)
    as (es' & He2 & Hes & Hb2 & Ht2 & Hroom); [by rewrite (order_size c1 _ He1)|lia|].
  set (c2 := ExactCache.make_room _ _ c1) in *. rewrite Hb1 in *.
  eexists. split; [apply push_entries; [exact He2| |rewrite Hb2; exact Hroom]|].
  - intros k v' Hin.
    assert (Hin' : (slot, v') ∈ es'.*2) by (apply list_elem_of_fmap; by exists (k, (slot, v'))).
    rewrite Hes in Hin'. clear -Hin'. revert Hin'.
    assert (Hsub : ∀ l b x, x ∈ lru_room b (ExactCache.vector_bytes v) l → x ∈ l).
    { induction l as [|y l IH]; intros b x; [done|]. cbn [lru_room]. destruct (_ <? _); [|done].
      intros Hx%IH. by right. }
    intros Hin'%Hsub. apply list_elem_of_fmap in Hin' as ([k' [s' v'']] & Heq & Hin').
    apply other_elem in Hin' as [_ Hne]. by simplify_eq/=.
  - split; [|by cbn]. rewrite fmap_app, Hes, filter_slots. done.
Qed.

Inductive cache_op := Get (slot : Z) | Put (slot : Z) (v : list F) | Invalidate (slot : Z) | Clear.

Definition cache_step c (op : cache_op) : ExactCache.t F * option (list F) :=
  match op with
  | Get slot => ExactCache.get slot c
  | Put slot v => (ExactCache.put slot v c, None)
  | Invalidate slot => ((ExactCache.invalidate slot c).2, None)
  | Clear => (ExactCache.clear c, None)
  end.

Definition lru_step (budget : nat) (l : list (Z * list F)) (op : cache_op) : list (Z * list F) * option (list F) :=
  match op with
  | Get slot => lru_get slot l
  | Put slot v => (lru_put budget slot v l, None)
  | Invalidate slot => (lru_remove slot l, None)
  | Clear => ([], None)
  end.

(** What a session of operations answers, one after the other. *)
Fixpoint answers {S} (step : S → cache_op → S * option (list F)) (s : S) (ops : list cache_op) :
    S * list (option (list F)) :=
  match ops with
  | [] => (s, [])
  | op :: ops => let '(s, a) := step s op in let '(s, rest) := answers step s ops in (s, a :: rest)
  end.

Lemma entries_nil budget tick h m e :
  entries_of (ExactCache.mk budget 0 tick ∅ ∅ h m e : ExactCache.t F) [].
Proof.
  split; cbn [ExactCache.tick ExactCache.order ExactCache.vectors ExactCache.used_bytes ExactCache.budget_bytes];
    try (by constructor); try done; try lia.
  - intros k s. rewrite lookup_empty. split; [done|]. intros [v H]. by inversion H.
  - intros s v k. rewrite lookup_empty. split; [done|]. intros H. by inversion H.
Qed.

Lemma cache_step_entries c es op : entries_of c es →
  ∃ es', entries_of (cache_step c op).1 es' ∧
    (es'.*2, (cache_step c op).2) = lru_step (ExactCache.budget_bytes c) es.*2 op ∧
    ExactCache.budget_bytes (cache_step c op).1 = ExactCache.budget_bytes c.
Proof.
  intros He. destruct op as [slot|slot v|slot|]; cbn [cache_step lru_step fst snd].
  - by apply get_entries.
  - destruct (put_entries slot v c es He) as (es' & H1 & H2 & H3). exists es'. by rewrite H2.
  - destruct (drop_entries slot c es He) as (H1 & H2 & _). eexists. split; [exact H1|]. by rewrite filter_slots.
  - exists []. split; [apply entries_nil|done].
Qed.

Lemma answers_entries ops : ∀ c es, entries_of c es →
  ∃ es', entries_of (answers cache_step c ops).1 es' ∧
    (es'.*2, (answers cache_step c ops).2) = answers (lru_step (ExactCache.budget_bytes c)) es.*2 ops ∧
    ExactCache.budget_bytes (answers cache_step c ops).1 = ExactCache.budget_bytes c.
Proof.
  induction ops as [|op ops IH]; intros c es He; [by exists es|]. cbn [answers].
  destruct (cache_step_entries c es op He) as (es1 & He1 & Hs & Hb).
  destruct (cache_step c op) as [c1 a]. cbn [fst snd] in *. rewrite <- Hs.
  destruct (IH c1 es1 He1) as (es2 & He2 & Ha & Hb2). rewrite Hb in *.
  destruct (answers cache_step c1 ops) as [c2 rest]. cbn [fst snd] in *. rewrite <- Ha. exists es2. done.
Qed.

(** Whatever is looked up, stored, invalidated or cleared, in whatever order, the cache
    answers as the list of its entries in the order of their last use does, from whose
    front entries leave until a new one fits, and it never holds more bytes than its
    budget. *)
Theorem cache_lru budget ops :
  (answers cache_step (ExactCache.new budget) ops).2 = (answers (lru_step budget) [] ops).2 ∧
  ExactCache.used_bytes (answers cache_step (ExactCache.new budget) ops).1 ≤ budget ∧
  ExactCache.used_bytes (answers cache_step (ExactCache.new budget) ops).1 =
    lru_bytes (answers (lru_step budget) [] ops).1.
Proof.
  destruct (answers_entries ops (ExactCache.new budget) [] (entries_nil _ _ _ _ _)) as (es & He & Ha & Hb).
  cbn [ExactCache.budget_bytes ExactCache.new] in *.
  pose proof (eo_budget _ _ He) as H1. pose proof (eo_used _ _ He) as H2.
  change (@fmap list _ _ _ snd (@nil (N * (Z * list F)))) with (@nil (Z * list F)) in Ha.
  rewrite <- Ha. cbn [fst snd]. rewrite Hb in H1. done.
Qed.
End lru.

(** ** The index: [index.rs], [schema.rs] *)

Inductive IndexError :=
| Width (e : VectorError)
| Degenerate
| ModelMismatch
| FrozenThresholdMismatch
| Malformed
| NotFound (locator : list byte)
| Storage.

Definition MAX_DIMS : nat := 4096.
Definition DEFAULT_RERANK_WIDTH : nat := 100.
Definition DEFAULT_CACHE_BYTES : N := 16 * 1024 * 1024.
Definition MAX_QUERY_TOKENS : nat := 32.

(** The query of the lexical lane: the words of a text, in lower case and quoted, each once
    and at most thirty-two of them, joined by [OR]. *)
Section lexical_query.
Context (is_alphanumeric : list byte → bool) (to_lowercase : list byte → list byte).

Definition quote_byte : byte := "034"%char.

Definition push_term (terms : list (list byte)) (term : list byte) : list (list byte) :=
  if MAX_QUERY_TOKENS <=? length terms then terms
  else
    let quoted := [quote_byte] ++ to_lowercase term ++ [quote_byte] in
    if bool_decide (quoted ∈ terms) then terms else terms ++ [quoted].

(** One character: it goes on with the current word, or ends it. *)
Definition lex_char (s : list (list byte) * list byte) (c : list byte) : list (list byte) * list byte :=
  let '(terms, current) := s in
  if is_alphanumeric c || bool_decide (c = bytes "_") then (terms, current ++ c)
  else if bool_decide (current = []) then s
  else (push_term terms current, []).

Fixpoint join_or (terms : list (list byte)) : list byte :=
  match terms with
  | [] => []
  | [t] => t
  | t :: terms => t ++ bytes " OR " ++ join_or terms
  end.

Definition lexical_query (text : list byte) : option (list byte) :=
  let '(terms, current) := foldl lex_char ([], []) (chars text) in
  let terms := if bool_decide (current = []) then terms else push_term terms current in
  if bool_decide (terms = []) then None else Some (join_or terms).
End lexical_query.

Record Hit (Sim B : Type) := mkHit { hit_slot : Z; hit_locator : list byte; hit_similarity : option Sim; hit_bm25 : option B }.
Arguments mkHit {Sim B}. Arguments hit_slot {Sim B}. Arguments hit_locator {Sim B}.
Arguments hit_similarity {Sim B}. Arguments hit_bm25 {Sim B}.

Section index.
Context {F Sim B : Type} `{EqDecision F}.
(** Floating-point arithmetic: a value above a threshold, a finite value, a vector of
    unit length, the similarity of two vectors and the comparison of similarities, equal when they do
    not compare. *)
Context (gt : F → F → bool) (finite : F → bool) (usable : list F → bool).
Context (similarity : list F → list F → Sim) (compare : Sim → Sim → comparison).
(** [select_nth_unstable_by_key], and the full-text search: the rows of the text lane that
    match a query, best first. *)
Context (select_nth : nat → list Candidate.t → list Candidate.t).
Context (full_text : list byte → gmap Z (list byte) → list (Z * B)).

Record Meta := mkMeta { dims : nat; model : list byte; threshold : list F }.
Definition embedding_bytes (m : Meta) : nat := dims m * 4.
Definition code_bytes (m : Meta) : nat := dims m / 8.

Record Row := mkRow { locator : list byte; embedding : list F; row_code : list N }.

(** The tables of the component: [vector_meta], [vector_entry] and [vector_text].  A vector
    is stored as its bytes, which give it back unchanged. *)
Record Db := mkDb { db_meta : option Meta; db_revision : N; entries : gmap Z Row; texts : gmap Z (list byte) }.

(** [with_transaction]: what it does is kept when it returns and the commit goes through. *)
Definition with_transaction {A} (commits : bool) (f : Db → Db * result A IndexError) (db : Db) : Db * result A IndexError :=
  match f db with
  | (db', Ok a) => if commits then (db', Ok a) else (db, Err Storage)
  | (_, Err e) => (db, Err e)
  end.

Record Options := mkOptions { rerank_width : nat; cache_bytes : nat }.

(** A handle: its configuration and what it holds in memory. *)
Record Handle := mkHandle {
  meta : Meta; options : Options; codes : CodeTable.t; cache : ExactCache.t F; revision : N }.

Definition with_state (h : Handle) (codes : CodeTable.t) (cache : ExactCache.t F) (revision : N) : Handle :=
  mkHandle (meta h) (options h) codes cache revision.

(** [codes::validate]. *)
Definition validate (v : list F) (dims : nat) : result unit IndexError :=
  if negb (length v =? dims) then Err (Width (WrongWidth dims (length v)))
  else if negb (forallb finite v) then Err Degenerate
  else if usable v then Ok tt else Err Degenerate.

(** [codes::decode_embedding], of a stored vector. *)
Definition decode_embedding (v : list F) (dims : nat) : result (list F) IndexError :=
  if negb (length v =? dims) then Err Malformed
  else if forallb finite v then Ok v else Err Malformed.

(** The rows in the order of their slots. *)
Definition row_le (a b : Z * Row) : Prop := (a.1 ≤ b.1)%Z.
#[local] Instance row_le_dec a b : base.Decision (row_le a b).
Proof. unfold row_le. apply _. Defined.
Definition rows (db : Db) : list (Z * Row) := merge_sort row_le (map_to_list (entries db)).

Fixpoint load_rows (rs : list (Z * Row)) (table : CodeTable.t) : result CodeTable.t IndexError :=
  match rs with
  | [] => Ok table
  | (slot, row) :: rs =>
      let '(table, taken) := CodeTable.upsert slot (row_code row) table in
      if taken then load_rows rs table else Err Malformed
  end.

Definition load_codes (db : Db) (m : Meta) : result CodeTable.t IndexError :=
  load_rows (rows db) (CodeTable.new (code_bytes m)).

Definition map_width {A} (r : result A VectorError) : result A IndexError := map_err Width r.

Definition open_index (commits : bool) (model_id : list byte) (n : nat) (limits : list F) (o : Options) (db : Db) :
    Db * result Handle IndexError :=
  if (n =? 0) || negb (n mod 8 =? 0) || (MAX_DIMS <? n) then (db, Err Degenerate)
  else if negb (length limits =? n) then (db, Err (Width (WrongWidth n (length limits))))
  else if bool_decide (model_id = []) then (db, Err Degenerate)
  else if negb (forallb finite limits) then (db, Err Degenerate)
  else
    let '(db, existing) := with_transaction commits (λ db,
      match db_meta db with
      | Some found => (db, let? _ := decode_embedding (threshold found) (dims found) in Ok (Some found))
      | None => (mkDb (Some (mkMeta n model_id limits)) (db_revision db) (entries db) (texts db), Ok None)
      end) db in
    (db, let? existing := existing in
         let? m :=
           match existing with
           | Some found =>
               if negb (bool_decide (model found = model_id)) || negb (dims found =? n) then Err ModelMismatch
               else if negb (bool_decide (threshold found = limits)) then Err FrozenThresholdMismatch
               else Ok found
           | None => Ok (mkMeta n model_id limits)
           end in
         let? codes := load_codes db m in
         Ok (mkHandle m o codes (ExactCache.new (cache_bytes o)) (db_revision db))).

(** *** Writing *)

Definition slot_of (name : list byte) (db : Db) : option Z :=
  fst <$> List.find (λ r, bool_decide (locator r.2 = name)) (rows db).

(** The row identifier the database gives a new row: one more than the largest. *)
Definition next_slot (db : Db) : Z := (1 + foldr Z.max 0 (map_to_list (entries db)).*1)%Z.

Definition upsert (commits : bool) (h : Handle) (name body : list byte) (v : list F) (db : Db) :
    Handle * Db * result Z IndexError :=
  if bool_decide (name = []) then (h, db, Err Degenerate)
  else
    match (let? _ := validate v (dims (meta h)) in map_width (encode gt v (threshold (meta h)))) with
    | Err e => (h, db, Err e)
    | Ok code =>
        let '(db, written) := with_transaction commits (λ db,
          let slot := default (next_slot db) (slot_of name db) in
          let revision := (db_revision db + 1)%N in
          (mkDb (db_meta db) revision (<[slot := mkRow name v code]> (entries db)) (<[slot := body]> (texts db)),
           Ok (slot, revision))) db in
        match written with
        | Err e => (h, db, Err e)
        | Ok (slot, revision) =>
            (with_state h (CodeTable.upsert slot code (codes h)).1 (ExactCache.invalidate slot (cache h)).2 revision,
             db, Ok slot)
        end
    end.

Definition remove (commits : bool) (h : Handle) (name : list byte) (db : Db) : Handle * Db * result bool IndexError :=
  let '(db, removed) := with_transaction commits (λ db,
    match slot_of name db with
    | None => (db, Ok None)
    | Some slot =>
        let revision := (db_revision db + 1)%N in
        (mkDb (db_meta db) revision (base.delete slot (entries db)) (base.delete slot (texts db)), Ok (Some (slot, revision)))
    end) db in
  match removed with
  | Err e => (h, db, Err e)
  | Ok None => (h, db, Ok false)
  | Ok (Some (slot, revision)) =>
      (with_state h (CodeTable.remove slot (codes h)).1 (ExactCache.invalidate slot (cache h)).2 revision, db, Ok true)
  end.

(** *** Searching *)

Definition sync_if_stale (h : Handle) (db : Db) : result Handle IndexError :=
  if (revision h =? db_revision db)%N then Ok h
  else
    let? codes := load_codes db (meta h) in
    Ok (with_state h codes (ExactCache.new (cache_bytes (options h))) (db_revision db)).

Definition exact (h : Handle) (db : Db) (slot : Z) : Handle * result (list F) IndexError :=
  let '(cache', cached) := ExactCache.get slot (cache h) in
  let h := with_state h (codes h) cache' (revision h) in
  match cached with
  | Some v => (h, Ok v)
  | None =>
      match entries db !! slot with
      | None => (h, Err Malformed)
      | Some row =>
          match decode_embedding (embedding row) (dims (meta h)) with
          | Err e => (h, Err e)
          | Ok v => (with_state h (codes h) (ExactCache.put slot v (cache h)) (revision h), Ok v)
          end
      end
  end.

Fixpoint score_all (query : list F) (db : Db) (cs : list Candidate.t) (h : Handle) :
    Handle * result (list (Z * Sim)) IndexError :=
  match cs with
  | [] => (h, Ok [])
  | c :: cs =>
      match exact h db (Candidate.slot c) with
      | (h, Err e) => (h, Err e)
      | (h, Ok v) =>
          let '(h, rest) := score_all query db cs h in
          (h, let? rest := rest in Ok ((Candidate.slot c, similarity query v) :: rest))
      end
  end.

(** The better similarity first, the lower slot among equals. *)
Definition order_leb (a b : Z * Sim) : bool :=
  match compare b.2 a.2 with Lt => true | Gt => false | Eq => (a.1 <=? b.1)%Z end.

Definition order_exact (scored : list (Z * Sim)) : list (Z * Sim) := sort_by order_leb scored.

Fixpoint name_all (db : Db) (scored : list (Z * Sim)) : result (list (Hit Sim B)) IndexError :=
  match scored with
  | [] => Ok []
  | (slot, s) :: scored =>
      match entries db !! slot with
      | None => Err Malformed
      | Some row =>
          let? rest := name_all db scored in Ok (mkHit slot (locator row) (Some s) None :: rest)
      end
  end.

Definition search_semantic (h : Handle) (query : list F) (limit : nat) (db : Db) :
    Handle * result (list (Hit Sim B)) IndexError :=
  match validate query (dims (meta h)) with
  | Err e => (h, Err e)
  | Ok _ =>
      if limit =? 0 then (h, Ok [])
      else
        match map_width (encode gt query (threshold (meta h))) with
        | Err e => (h, Err e)
        | Ok query_code =>
            let width := Nat.max (rerank_width (options h)) limit in
            match sync_if_stale h db with
            | Err e => (h, Err e)
            | Ok h =>
                let candidates := nearest select_nth query_code width (codes h) in
                let '(h, scored) := score_all query db candidates h in
                (h, let? scored := scored in name_all db (take limit (order_exact scored)))
            end
        end
  end.

(** The lexical lane joins the text matches with their rows. *)
Definition search_lexical (query : option (list byte)) (limit : nat) (db : Db) : list (Hit Sim B) :=
  if limit =? 0 then []
  else
    match query with
    | None => []
    | Some query =>
        take limit (omap (λ m : Z * B, row ← entries db !! m.1; Some (mkHit m.1 (locator row) None (Some m.2)))
          (full_text query (texts db)))
    end.

Definition find_hit (slot : Z) (hits : list (Hit Sim B)) : option (Hit Sim B) :=
  List.find (λ h, bool_decide (hit_slot h = slot)) hits.

Fixpoint fused_hits (semantic lexical : list (Hit Sim B)) (fused : list Fused.t) : result (list (Hit Sim B)) IndexError :=
  match fused with
  | [] => Ok []
  | f :: fused =>
      let slot := Fused.slot f in
      let s := find_hit slot semantic in
      let l := find_hit slot lexical in
      match or_else s l with
      | None => Err Malformed
      | Some first =>
          let? rest := fused_hits semantic lexical fused in
          Ok (mkHit slot (hit_locator first) (s ≫= hit_similarity) (l ≫= hit_bm25) :: rest)
      end
  end.

Definition search_hybrid (h : Handle) (text_query : option (list byte)) (query : list F) (limit depth : nat) (db : Db) :
    Handle * result (list (Hit Sim B)) IndexError :=
  if limit =? 0 then (h, Ok [])
  else
    let depth := Nat.max depth limit in
    let '(h, semantic) := search_semantic h query depth db in
    (h, let? semantic := semantic in
        let lexical := search_lexical text_query depth db in
        fused_hits semantic lexical (take limit (fuse [hit_slot <$> semantic; hit_slot <$> lexical]))).

Definition embedding_of (h : Handle) (name : list byte) (db : Db) : result (list F) IndexError :=
  match slot_of name db ≫= λ s, entries db !! s with
  | None => Err (NotFound name)
  | Some row => decode_embedding (embedding row) (dims (meta h))
  end.

Definition contains_locator (name : list byte) (db : Db) : bool := bool_decide (is_Some (slot_of name db)).

(** *** What a handle is to hold *)

Definition code_map (db : Db) : gmap Z (list N) := row_code <$> entries db.

(** The tables of an index with a configuration. *)
Record db_ok (m : Meta) (db : Db) : Prop := {
  ok_meta : db_meta db = Some m;
  ok_dims : 0 < dims m ∧ dims m mod 8 = 0;
  ok_threshold : length (threshold m) = dims m;
  ok_rows s row : entries db !! s = Some row →
    decode_embedding (embedding row) (dims m) = Ok (embedding row) ∧
    encode gt (embedding row) (threshold m) = Ok (row_code row);
  ok_slots s row : entries db !! s = Some row → (0 < s)%Z;
  ok_locators s t row row' : entries db !! s = Some row → entries db !! t = Some row' →
    locator row = locator row' → s = t;
  ok_texts : dom (texts db) = dom (entries db) }.

(** What a handle holds describes the tables as they are. *)
Record agrees (h : Handle) (db : Db) : Prop := {
  ag_codes : stands_for (codes h) (code_map db);
  ag_cache s v t : ExactCache.vectors (cache h) !! s = Some (v, t) →
    ∃ row, entries db !! s = Some row ∧ embedding row = v }.

(** A handle that has the tables' revision describes them. *)
Record handle_ok (m : Meta) (h : Handle) (db : Db) : Prop := {
  hk_meta : meta h = m;
  hk_stride : CodeTable.stride (codes h) = code_bytes m;
  hk_revision : (revision h ≤ db_revision db)%N;
  hk_agrees : revision h = db_revision db → agrees h db }.

Lemma row_code_length m db s row : db_ok m db → entries db !! s = Some row → length (row_code row) = code_bytes m.
Proof.
  intros Hdb Hs. destruct (ok_rows _ _ Hdb s row Hs) as [_ He]. apply encode_spec in He as (Hl & -> & _).
  rewrite Hl, (ok_threshold _ _ Hdb). unfold code_bytes, div_ceil. destruct (ok_dims _ _ Hdb) as [_ Hmod].
  rewrite Hmod. destruct (Nat.ltb_spec 0 0); lia.
Qed.

Lemma rows_elem db s row : (s, row) ∈ rows db ↔ entries db !! s = Some row.
Proof. unfold rows. rewrite merge_sort_Permutation. apply elem_of_map_to_list. Qed.

Lemma load_rows_Ok rs table (m0 : gmap Z (list N)) :
  Forall (λ r, length (row_code r.2) = CodeTable.stride table) rs → stands_for table m0 →
  ∃ table', load_rows rs table = Ok table' ∧ CodeTable.stride table' = CodeTable.stride table ∧
    stands_for table' (foldl (λ m r, <[r.1 := row_code r.2]> m) m0 rs).
Proof.
  revert table m0. induction rs as [|[s row] rs IH]; intros table m0 Hall Hst; [by eexists|].
  apply Forall_cons in Hall as [Hlen Hall]. cbn [snd] in Hlen. cbn [load_rows foldl fst snd].
  destruct (upsert_stands_for s (row_code row) table m0 Hst) as [H1 H2].
  rewrite (proj2 (Nat.eqb_eq _ _) Hlen) in H1, H2.
  pose proof (table_step_stride (OpUpsert s (row_code row)) table) as H3. cbn [table_step] in H3.
  destruct (CodeTable.upsert s (row_code row) table) as [table1 taken]. cbn [fst snd] in *. subst taken.
  rewrite <- H3 in Hall. destruct (IH table1 _ Hall H1) as (table' & -> & H4 & H5). exists table'.
  split_and!; [done|congruence|done].
Qed.

Lemma foldl_insert_rows (rs : list (Z * Row)) (m0 : gmap Z (list N)) s : NoDup rs.*1 →
  foldl (λ m r, <[r.1 := row_code r.2]> m) m0 rs !! s =
    match (list_to_map rs : gmap Z Row) !! s with Some row => Some (row_code row) | None => m0 !! s end.
Proof.
  revert m0. induction rs as [|[t row] rs IH]; intros m0 Hnd; [done|]. rewrite fmap_cons in Hnd.
  apply NoDup_cons in Hnd as [Hfresh Hnd]. cbn [foldl list_to_map foldr fst snd]. rewrite IH by done.
  destruct (decide (s = t)) as [->|Hne].
  - rewrite lookup_insert_eq. rewrite not_elem_of_list_to_map_1 by done. by rewrite lookup_insert_eq.
  - by rewrite !lookup_insert_ne by done.
Qed.

Lemma load_codes_ok m db : db_ok m db →
  ∃ table, load_codes db m = Ok table ∧ CodeTable.stride table = code_bytes m ∧ stands_for table (code_map db).
Proof.
  intros Hdb. unfold load_codes.
  destruct (load_rows_Ok (rows db) (CodeTable.new (code_bytes m)) ∅) as (table & H1 & H2 & H3).
  - apply Forall_forall. intros [s row] Hin%rows_elem. by eapply row_code_length.
  - apply empty_stands_for.
  - exists table. split_and!; [done|done|]. enough (Hmap : code_map db = foldl (λ m r, <[r.1 := row_code r.2]> m) ∅ (rows db))
      by by rewrite Hmap.
    apply map_eq. intros s. assert (Hp : rows db ≡ₚ map_to_list (entries db)) by apply merge_sort_Permutation.
    assert (Hnd : NoDup (rows db).*1) by (rewrite Hp; apply NoDup_fst_map_to_list).
    rewrite foldl_insert_rows by done.
    assert (Hl : (list_to_map (rows db) : gmap Z Row) = entries db).
    { rewrite <- (list_to_map_to_list (entries db)). by apply list_to_map_proper. }
    rewrite Hl. unfold code_map. rewrite lookup_fmap. by destruct (entries db !! s).
Qed.

(** *** Searching reads what is stored *)

Lemma get_vectors slot (c : ExactCache.t F) s v t : ExactCache.vectors (ExactCache.get slot c).1 !! s = Some (v, t) →
  ∃ t', ExactCache.vectors c !! s = Some (v, t').
Proof.
  unfold ExactCache.get. destruct (ExactCache.vectors c !! slot) as [[w k]|] eqn:Hs; cbn; [|eauto].
  rewrite lookup_insert_Some. intros [[<- [= <- <-]]|[_ H]]; eauto.
Qed.

Lemma get_answer slot (c : ExactCache.t F) v : (ExactCache.get slot c).2 = Some v → ∃ t, ExactCache.vectors c !! slot = Some (v, t).
Proof.
  unfold ExactCache.get. destruct (ExactCache.vectors c !! slot) as [[w k]|] eqn:Hs; cbn; [|done].
  intros [= <-]. eauto.
Qed.

Lemma drop_vectors slot (c : ExactCache.t F) s v t : ExactCache.vectors (ExactCache.drop_entry slot c).2 !! s = Some (v, t) →
  ExactCache.vectors c !! s = Some (v, t) ∧ s ≠ slot.
Proof.
  unfold ExactCache.drop_entry. destruct (ExactCache.vectors c !! slot) as [[w k]|] eqn:Hs; cbn.
  - rewrite lookup_delete_Some. intros [Hne H]. done.
  - intros H. split; [done|]. intros ->. congruence.
Qed.

Lemma evict_vectors (c c' : ExactCache.t F) s v t : ExactCache.evict_one c = Some c' →
  ExactCache.vectors c' !! s = Some (v, t) → ExactCache.vectors c !! s = Some (v, t).
Proof.
  unfold ExactCache.evict_one. destruct (head _) as [[k slot]|]; [|done]. intros [= <-]. cbn.
  rewrite lookup_delete_Some. by intros [_ H].
Qed.

Lemma make_room_vectors bytes fuel : ∀ (c : ExactCache.t F) s v t,
  ExactCache.vectors (ExactCache.make_room fuel bytes c) !! s = Some (v, t) → ExactCache.vectors c !! s = Some (v, t).
Proof.
  induction fuel as [|fuel IH]; intros c s v t; cbn [ExactCache.make_room]; [by case_match|].
  case_match; [|done]. destruct (ExactCache.evict_one c) as [c'|] eqn:He; [|done].
  intros Hv%IH. by eapply evict_vectors.
Qed.

Lemma put_vectors slot v (c : ExactCache.t F) s w t : ExactCache.vectors (ExactCache.put slot v c) !! s = Some (w, t) →
  (s = slot ∧ w = v) ∨ ∃ t', ExactCache.vectors c !! s = Some (w, t').
Proof.
  unfold ExactCache.put. case_match; [eauto|]. cbv zeta. cbn [ExactCache.vectors].
  rewrite lookup_insert_Some. intros [[<- [= <- <-]]|[_ Hw]]; [by left|]. right.
  apply make_room_vectors, drop_vectors in Hw as [Hw _]. eauto.
Qed.

Lemma exact_spec m h db slot row : db_ok m db → meta h = m → agrees h db → entries db !! slot = Some row →
  ∃ c', exact h db slot = (with_state h (codes h) c' (revision h), Ok (embedding row)) ∧
    agrees (with_state h (codes h) c' (revision h)) db.
Proof.
  intros Hdb Hm [Hc Hv] Hrow. unfold exact.
  pose proof (get_vectors slot (cache h)) as Hg. pose proof (get_answer slot (cache h)) as Ha.
  destruct (ExactCache.get slot (cache h)) as [c1 [v|]]; cbn [fst snd] in *.
  - destruct (Ha v eq_refl) as [t Ht]. destruct (Hv _ _ _ Ht) as (row' & Hrow' & <-). simplify_eq.
    exists c1. split; [done|]. split; [done|]. intros s v' t' (t'' & Hs)%Hg. eauto.
  - rewrite Hrow. cbn [meta with_state cache codes revision]. rewrite Hm.
    destruct (ok_rows _ _ Hdb _ _ Hrow) as [-> _]. eexists. split; [done|]. split; [done|].
    cbn [cache with_state]. intros s v t [[-> ->]|[t' Hs]]%put_vectors; [eauto|].
    apply Hg in Hs as [t'' Hs]. eauto.
Qed.

(** The exact vector of a slot. *)
Definition vector_at (db : Db) (slot : Z) : list F :=
  match entries db !! slot with Some row => embedding row | None => [] end.

Lemma score_all_spec m query db cs : ∀ h, db_ok m db → meta h = m → agrees h db →
  Forall (λ c, is_Some (entries db !! Candidate.slot c)) cs →
  ∃ c', score_all query db cs h =
      (with_state h (codes h) c' (revision h),
       Ok ((λ c, (Candidate.slot c, similarity query (vector_at db (Candidate.slot c)))) <$> cs)) ∧
    agrees (with_state h (codes h) c' (revision h)) db.
Proof.
  induction cs as [|cand cs IH]; intros h Hdb Hm Hag Hall; cbn [score_all].
  { exists (cache h). destruct h. done. }
  apply Forall_cons in Hall as [[row Hrow] Hall].
  destruct (exact_spec m h db _ row Hdb Hm Hag Hrow) as (c1 & -> & Hag1).
  destruct (IH (with_state h (codes h) c1 (revision h)) Hdb Hm Hag1 Hall) as (c2 & -> & Hag2).
  exists c2. cbn [result_bind]. rewrite fmap_cons. unfold vector_at at 2. by rewrite Hrow.
Qed.

Lemma name_all_spec db scored : Forall (λ x, is_Some (entries db !! x.1)) scored →
  name_all db scored =
    Ok (omap (λ x : Z * Sim, row ← entries db !! x.1; Some (mkHit x.1 (locator row) (Some x.2) None)) scored).
Proof.
  induction scored as [|[slot s] scored IH]; [done|]. intros [[row Hrow] Hall]%Forall_cons. cbn [fst] in Hrow.
  cbn [name_all omap list_omap fst snd]. rewrite Hrow, IH by done. done.
Qed.

(** The answer to a query over meaning, from the tables alone: the rows whose codes are
    nearest the query's, ordered by their exact similarity. *)
Definition answer (m : Meta) (o : Options) (query : list F) (limit : nat) (db : Db) : result (list (Hit Sim B)) IndexError :=
  match validate query (dims m), map_width (encode gt query (threshold m)) with
  | Err e, _ => Err e
  | Ok _, Err e => if limit =? 0 then Ok [] else Err e
  | Ok _, Ok code =>
      let near := take (Nat.max (rerank_width o) limit) (merge_sort Candidate.le (candidates code (code_map db))) in
      let ordered := order_exact
        ((λ c, (Candidate.slot c, similarity query (vector_at db (Candidate.slot c)))) <$> near) in
      Ok (omap (λ x : Z * Sim, row ← entries db !! x.1; Some (mkHit x.1 (locator row) (Some x.2) None)) (take limit ordered))
  end.

Lemma sync_spec m h db : db_ok m db → handle_ok m h db →
  ∃ h', sync_if_stale h db = Ok h' ∧ meta h' = m ∧ options h' = options h ∧ revision h' = db_revision db ∧
    CodeTable.stride (codes h') = code_bytes m ∧ agrees h' db.
Proof.
  intros Hdb Hh. unfold sync_if_stale. pose proof (hk_meta _ _ _ Hh) as Hm.
  destruct (revision h =? db_revision db)%N eqn:Hr.
  - apply N.eqb_eq in Hr. exists h. split_and!; [done..|apply Hh|]. by apply (hk_agrees _ _ _ Hh).
  - destruct (load_codes_ok m db Hdb) as (table & Hl & Hs & Hst). rewrite Hm, Hl. cbn [result_bind].
    eexists. split; [done|]. split_and!; [done..|]. split; [done|]. cbn. intros s v t. by rewrite lookup_empty.
Qed.

Context (Hselects : selects select_nth).

Lemma search_exact m h query limit db : db_ok m db → handle_ok m h db →
  (search_semantic h query limit db).2 = answer m (options h) query limit db ∧
  handle_ok m (search_semantic h query limit db).1 db ∧
  options (search_semantic h query limit db).1 = options h.
Proof.
  intros Hdb Hh. unfold search_semantic, answer. rewrite (hk_meta _ _ _ Hh).
  destruct (validate query (dims m)) as [[]|e] eqn:Hval; [|done].
  destruct (encode gt query (threshold m)) as [code|e] eqn:Henc; cbn [map_width map_err];
    destruct (limit =? 0) eqn:Hlim; cbn [fst snd]; [to_prop; subst; by rewrite take_0| |done|done].
  destruct (sync_spec m h db Hdb Hh) as (h1 & -> & Hm1 & Ho1 & Hr1 & Hs1 & Hag1).
  destruct (ok_dims _ _ Hdb) as [Hd1 Hd2].
  assert (Hcode : length code = code_bytes m).
  { apply encode_spec in Henc as (Hl & -> & _). rewrite Hl, (ok_threshold _ _ Hdb). unfold code_bytes, div_ceil.
    rewrite Hd2. destruct (Nat.ltb_spec 0 0); lia. }
  rewrite (nearest_exact select_nth code _ (codes h1) (code_map db) Hselects).
  2: { rewrite Hs1. unfold code_bytes. lia. }
  2: { apply Hag1. }
  rewrite Hs1, (proj2 (Nat.eqb_eq _ _) Hcode). set (near := take _ _).
  assert (Hnear : Forall (λ c, is_Some (entries db !! Candidate.slot c)) near).
  { unfold near. apply Forall_take. rewrite merge_sort_Permutation. unfold candidates.
    apply Forall_fmap, Forall_forall. intros [s cd] Hin%elem_of_map_to_list. cbn. unfold code_map in Hin.
    rewrite lookup_fmap in Hin. destruct (entries db !! s); [done|by cbn in Hin]. }
  destruct (score_all_spec m query db near h1 Hdb Hm1 Hag1 Hnear) as (c' & -> & Hag').
  cbn [fst snd result_bind]. split_and!.
  - rewrite name_all_spec; [done|]. apply Forall_take. unfold order_exact. rewrite sort_by_perm.
    apply Forall_fmap. exact Hnear.
  - split; cbn [meta with_state codes revision]; [done|done|lia|done].
  - done.
Qed.

(** *** Writing keeps the tables and the handles *)

Lemma slot_of_Some name db s : slot_of name db = Some s → ∃ row, entries db !! s = Some row ∧ locator row = name.
Proof.
  unfold slot_of. intros ([t row] & Hf & Hs)%fmap_Some. cbn in Hs. subst t.
  apply find_some in Hf as [Hin Hl]. cbn in Hl. apply bool_decide_eq_true_1 in Hl.
  exists row. split; [|done]. by apply rows_elem, list_elem_of_In.
Qed.

Lemma slot_of_None name db : slot_of name db = None → ∀ s row, entries db !! s = Some row → locator row ≠ name.
Proof.
  unfold slot_of. intros Hf%fmap_None s row Hs Hl.
  assert (Hin : In (s, row) (rows db)) by by apply list_elem_of_In, rows_elem.
  pose proof (List.find_none _ _ Hf _ Hin) as Hno. cbn in Hno. by apply bool_decide_eq_false_1 in Hno.
Qed.

Lemma slot_of_exact m db s row : db_ok m db → entries db !! s = Some row → slot_of (locator row) db = Some s.
Proof.
  intros Hdb Hs. destruct (slot_of (locator row) db) as [t|] eqn:Ht.
  - apply slot_of_Some in Ht as (row' & Ht & Hl). f_equal. by apply (ok_locators _ _ Hdb t s row' row).
  - exfalso. by apply (slot_of_None _ _ Ht s row).
Qed.

Lemma max_le (l : list Z) x : x ∈ l → (x ≤ foldr Z.max 0 l)%Z.
Proof. induction l as [|y l IH]; [by intros H; inversion H|]. cbn. intros [->|Hx%IH]%elem_of_cons; lia. Qed.

Lemma max_nonneg (l : list Z) : (0 ≤ foldr Z.max 0 l)%Z.
Proof. induction l; cbn; lia. Qed.

Lemma next_slot_fresh db : entries db !! next_slot db = None ∧ (0 < next_slot db)%Z.
Proof.
  unfold next_slot. split; [|pose proof (max_nonneg (map_to_list (entries db)).*1); lia].
  destruct (entries db !! _) as [row|] eqn:He; [|done]. exfalso.
  assert (Hin : (1 + foldr Z.max 0 (map_to_list (entries db)).*1)%Z ∈ (map_to_list (entries db)).*1).
  { apply list_elem_of_fmap. eexists. split; [|apply elem_of_map_to_list; exact He]. done. }
  apply max_le in Hin. lia.
Qed.

(** The tables a write leaves. *)
Definition written (slot : Z) (row : Row) (body : list byte) (db : Db) : Db :=
  mkDb (db_meta db) (db_revision db + 1) (<[slot := row]> (entries db)) (<[slot := body]> (texts db)).

Definition erased (slot : Z) (db : Db) : Db :=
  mkDb (db_meta db) (db_revision db + 1) (base.delete slot (entries db)) (base.delete slot (texts db)).

Lemma written_ok m db name body v code : db_ok m db →
  validate v (dims m) = Ok tt → encode gt v (threshold m) = Ok code →
  db_ok m (written (default (next_slot db) (slot_of name db)) (mkRow name v code) body db).
Proof.
  intros Hdb Hval Henc. set (slot := default _ _). unfold validate in Hval.
  destruct (length v =? dims m) eqn:Hlen; [|done]. destruct (forallb finite v) eqn:Hfin; [|done].
  assert (Hown : ∀ s row, entries db !! s = Some row → s ≠ slot → locator row ≠ name).
  { intros s row Hs Hne Hl. unfold slot in Hne. rewrite <- Hl, (slot_of_exact m db s row Hdb Hs) in Hne. done. }
  split; cbn [db_meta entries texts written].
  - apply Hdb.
  - apply Hdb.
  - apply Hdb.
  - intros s row [[<- <-]|[_ Hs]]%lookup_insert_Some; [|by apply Hdb in Hs]. cbn [embedding row_code].
    unfold decode_embedding. by rewrite Hlen, Hfin.
  - intros s row [[<- <-]|[_ Hs]]%lookup_insert_Some; [|by eapply ok_slots]. unfold slot.
    destruct (slot_of name db) as [t|] eqn:Ht; cbn; [|apply next_slot_fresh].
    apply slot_of_Some in Ht as (row' & Ht & _). by eapply ok_slots.
  - intros s t row row' [[<- <-]|[Hne Hs]]%lookup_insert_Some [[<- <-]|[Hne' Ht]]%lookup_insert_Some; cbn; try done.
    + intros Hl. by destruct (Hown t row' Ht (not_eq_sym Hne')).
    + intros Hl. by destruct (Hown s row Hs (not_eq_sym Hne)).
    + by apply (ok_locators _ _ Hdb).
  - rewrite !dom_insert_L. by rewrite (ok_texts _ _ Hdb).
Qed.

Lemma erased_ok m db slot : db_ok m db → db_ok m (erased slot db).
Proof.
  intros Hdb. split; cbn [db_meta entries texts erased]; try apply Hdb.
  - intros s row [_ Hs]%lookup_delete_Some. by apply Hdb in Hs.
  - intros s row [_ Hs]%lookup_delete_Some. by eapply ok_slots.
  - intros s t row row' [_ Hs]%lookup_delete_Some [_ Ht]%lookup_delete_Some. by apply (ok_locators _ _ Hdb).
  - rewrite !dom_delete_L. by rewrite (ok_texts _ _ Hdb).
Qed.

Lemma handle_ok_written m h db db' : handle_ok m h db → db_revision db' = (db_revision db + 1)%N → handle_ok m h db'.
Proof.
  intros Hh Hr. split; [apply Hh|apply Hh| |].
  - pose proof (hk_revision _ _ _ Hh). lia.
  - pose proof (hk_revision _ _ _ Hh). lia.
Qed.

Lemma upsert_spec m commits h name body v db h' db' r : db_ok m db → handle_ok m h db →
  revision h = db_revision db → upsert commits h name body v db = (h', db', r) →
  (h' = h ∧ db' = db ∧ ¬ is_ok r) ∨
  (∃ slot code, r = Ok slot ∧ slot = default (next_slot db) (slot_of name db) ∧
     db' = written slot (mkRow name v code) body db ∧ db_ok m db' ∧ handle_ok m h' db' ∧ options h' = options h).
Proof.
  intros Hdb Hh Hrev. unfold upsert. rewrite (hk_meta _ _ _ Hh).
  case_bool_decide; [intros [= <- <- <-]; left; naive_solver|].
  destruct (validate v (dims m)) as [[]|e] eqn:Hval; cbn [result_bind]; [|intros [= <- <- <-]; left; naive_solver].
  destruct (encode gt v (threshold m)) as [code|e] eqn:Henc; cbn [map_width map_err];
    [|intros [= <- <- <-]; left; naive_solver].
  unfold with_transaction. destruct commits; [|intros [= <- <- <-]; left; naive_solver].
  intros [= <- <- <-]. right. set (slot := default _ _). exists slot, code.
  fold (written slot (mkRow name v code) body db).
  pose proof (written_ok m db name body v code Hdb Hval Henc) as Hdb'. fold slot in Hdb'.
  split_and!; [done..|exact Hdb'| |done].
  destruct (hk_agrees _ _ _ Hh Hrev) as [Hc Hv].
  pose proof (row_code_length m _ slot (mkRow name v code) Hdb' (lookup_insert_eq _ _ _)) as Hlen.
  destruct (upsert_stands_for slot code (codes h) _ Hc) as [Hst _].
  pose proof (table_step_stride (OpUpsert slot code) (codes h)) as Hstr. cbn [table_step] in Hstr.
  rewrite (hk_stride _ _ _ Hh) in Hst, Hstr. cbn [row_code] in Hlen. rewrite (proj2 (Nat.eqb_eq _ _) Hlen) in Hst.
  split; cbn [meta codes revision with_state db_revision written]; [apply Hh|done|lia|].
  intros _. split; cbn [codes cache with_state].
  - unfold code_map, written. cbn [entries]. rewrite fmap_insert. exact Hst.
  - intros s w t [Hs Hne]%drop_vectors. destruct (Hv _ _ _ Hs) as (row & Hrow & He).
    exists row. split; [|done]. cbn [entries written]. by rewrite lookup_insert_ne.
Qed.

Lemma remove_spec m commits h name db h' db' r : db_ok m db → handle_ok m h db →
  revision h = db_revision db → remove commits h name db = (h', db', r) →
  (h' = h ∧ db' = db ∧ (r = Ok true → False)) ∨
  (∃ slot, r = Ok true ∧ slot_of name db = Some slot ∧
     db' = erased slot db ∧ db_ok m db' ∧ handle_ok m h' db' ∧ options h' = options h).
Proof.
  intros Hdb Hh Hrev. unfold remove, with_transaction.
  destruct (slot_of name db) as [slot|] eqn:Hslot; [|destruct commits; intros [= <- <- <-]; left; naive_solver].
  destruct commits; [|intros [= <- <- <-]; left; naive_solver].
  intros [= <- <- <-]. right. exists slot. fold (erased slot db).
  pose proof (erased_ok m db slot Hdb) as Hdb'. split_and!; [done..| |done].
  destruct (hk_agrees _ _ _ Hh Hrev) as [Hc Hv].
  destruct (remove_stands_for slot (codes h) _ Hc) as [Hst _].
  pose proof (table_step_stride (OpRemove slot) (codes h)) as Hstr. cbn [table_step] in Hstr.
  rewrite (hk_stride _ _ _ Hh) in Hstr.
  split; cbn [meta codes revision with_state db_revision erased]; [apply Hh|done|lia|].
  intros _. split; cbn [codes cache with_state].
  - unfold code_map, erased. cbn [entries]. rewrite fmap_delete. exact Hst.
  - intros s w t [Hs Hne]%drop_vectors. destruct (Hv _ _ _ Hs) as (row & Hrow & He).
    exists row. split; [|done]. cbn [entries erased]. by rewrite lookup_delete_ne.
Qed.

(** *** Sessions of several handles *)

Record World := mkWorld { db : Db; handles : list Handle }.

(** What the handles may do, one operation at a time. *)
Inductive op :=
| OpenHandle (o : Options)
| DoUpsert (i : nat) (commits : bool) (name body : list byte) (v : list F)
| DoRemove (i : nat) (commits : bool) (name : list byte)
| DoSearch (i : nat) (query : list F) (limit : nat).

Definition act (m : Meta) (o : op) (w : World) : World :=
  match o with
  | OpenHandle o =>
      match open_index true (model m) (dims m) (threshold m) o (db w) with
      | (db, Ok h) => mkWorld db (handles w ++ [h])
      | (db, Err _) => mkWorld db (handles w)
      end
  | DoUpsert i commits name body v =>
      match handles w !! i with
      | None => w
      | Some h => let '(h, db, _) := upsert commits h name body v (db w) in mkWorld db (<[i := h]> (handles w))
      end
  | DoRemove i commits name =>
      match handles w !! i with
      | None => w
      | Some h => let '(h, db, _) := remove commits h name (db w) in mkWorld db (<[i := h]> (handles w))
      end
  | DoSearch i query limit =>
      match handles w !! i with
      | None => w
      | Some h => mkWorld (db w) (<[i := (search_semantic h query limit (db w)).1]> (handles w))
      end
  end.

(** A handle writes only when it has seen every write before it: a search brings it up to
    date. *)
Definition up_to_date (o : op) (w : World) : Prop :=
  match o with
  | DoUpsert i _ _ _ _ | DoRemove i _ _ => ∀ h, handles w !! i = Some h → revision h = db_revision (db w)
  | _ => True
  end.

Fixpoint polite (m : Meta) (ops : list op) (w : World) : Prop :=
  match ops with
  | [] => True
  | o :: ops => up_to_date o w ∧ polite m ops (act m o w)
  end.

Record world_ok (m : Meta) (w : World) : Prop := {
  wo_db : db_ok m (db w);
  wo_handles : Forall (λ h, handle_ok m h (db w)) (handles w) }.

Lemma open_spec m o w : db_ok m w → (dims m ≤ MAX_DIMS) → model m ≠ [] → forallb finite (threshold m) = true →
  ∃ h, open_index true (model m) (dims m) (threshold m) o w = (w, Ok h) ∧ handle_ok m h w ∧ options h = o.
Proof.
  intros Hdb Hmax Hmodel Hfin. unfold open_index. destruct (ok_dims _ _ Hdb) as [Hd1 Hd2].
  rewrite (proj2 (Nat.eqb_neq (dims m) 0)) by lia. rewrite (proj2 (Nat.eqb_eq _ _) Hd2).
  rewrite (proj2 (Nat.ltb_ge MAX_DIMS (dims m))) by done. cbn [orb negb].
  rewrite (proj2 (Nat.eqb_eq _ _) (ok_threshold _ _ Hdb)). cbn [negb].
  rewrite (bool_decide_false (model m = [])) by done. rewrite Hfin. cbn [negb].
  unfold with_transaction. rewrite (ok_meta _ _ Hdb).
  assert (decode_embedding (threshold m) (dims m) = Ok (threshold m)) as ->
    by (unfold decode_embedding; by rewrite (proj2 (Nat.eqb_eq _ _) (ok_threshold _ _ Hdb)), Hfin).
  cbn [result_bind].
  rewrite !bool_decide_true by done. rewrite Nat.eqb_refl. cbn [negb orb result_bind].
  destruct (load_codes_ok m w Hdb) as (table & -> & Hs & Hst). cbn [result_bind].
  eexists. split; [done|]. split; [|done]. split; cbn [meta codes revision cache]; [done|done|lia|].
  intros _. split; [done|]. cbn. intros s v t. by rewrite lookup_empty.
Qed.

Lemma act_ok m o w : (dims m ≤ MAX_DIMS) → model m ≠ [] → forallb finite (threshold m) = true →
  world_ok m w → up_to_date o w → world_ok m (act m o w).
Proof.
  intros Hmax Hmodel Hfin [Hdb Hhs] Hup. destruct o as [o|i commits name body v|i commits name|i query limit]; cbn [act].
  - destruct (open_spec m o (db w) Hdb Hmax Hmodel Hfin) as (h & -> & Hh & _).
    split; [done|]. cbn. apply Forall_app. split; [done|]. constructor; [done|constructor].
  - destruct (handles w !! i) as [h|] eqn:Hi; [|done]. cbn [up_to_date] in Hup.
    assert (Hh : handle_ok m h (db w)) by (rewrite Forall_lookup in Hhs; eauto).
    destruct (upsert commits h name body v (db w)) as [[h' db'] r] eqn:Hu.
    destruct (upsert_spec m _ _ _ _ _ _ _ _ _ Hdb Hh (Hup _ Hi) Hu) as [(-> & -> & _)|(slot & code & _ & _ & Hdb' & H1 & H2 & _)].
    + split; cbn; [done|]. by rewrite list_insert_id.
    + split; cbn; [done|]. apply Forall_insert; [|done]. eapply Forall_impl; [exact Hhs|].
      intros h2 Hh2. eapply handle_ok_written; [exact Hh2|]. by rewrite Hdb'.
  - destruct (handles w !! i) as [h|] eqn:Hi; [|done]. cbn [up_to_date] in Hup.
    assert (Hh : handle_ok m h (db w)) by (rewrite Forall_lookup in Hhs; eauto).
    destruct (remove commits h name (db w)) as [[h' db'] r] eqn:Hu.
    destruct (remove_spec m _ _ _ _ _ _ _ Hdb Hh (Hup _ Hi) Hu) as [(-> & -> & _)|(slot & _ & _ & Hdb' & H1 & H2 & _)].
    + split; cbn; [done|]. by rewrite list_insert_id.
    + split; cbn; [done|]. apply Forall_insert; [|done]. eapply Forall_impl; [exact Hhs|].
      intros h2 Hh2. eapply handle_ok_written; [exact Hh2|]. by rewrite Hdb'.
  - destruct (handles w !! i) as [h|] eqn:Hi; [|done].
    assert (Hh : handle_ok m h (db w)) by (rewrite Forall_lookup in Hhs; eauto).
    destruct (search_exact m h query limit (db w) Hdb Hh) as (_ & H1 & _).
    split; cbn; [done|]. by apply Forall_insert.
Qed.

(** C27. Whatever several handles on one store do, opening, adding, replacing, removing and
    searching in any order, as long as none writes without having seen the writes before
    it, every search over meaning by every handle answers what the tables hold at that
    moment: the rows nearest by code, ordered by exact similarity, whatever its codes and
    cached vectors were. *)
Theorem index_answers_exact m db0 ops i h query limit :
  db_ok m db0 → dims m ≤ MAX_DIMS → model m ≠ [] → forallb finite (threshold m) = true →
  polite m ops (mkWorld db0 []) →
  let w := foldl (λ w o, act m o w) (mkWorld db0 []) ops in
  handles w !! i = Some h →
  (search_semantic h query limit (db w)).2 = answer m (options h) query limit (db w).
Proof.
  intros Hdb Hmax Hmodel Hfin Hpol w Hi.
  assert (Hw : world_ok m w).
  { unfold w. clear w Hi. assert (H0 : world_ok m (mkWorld db0 [])) by (split; [done|constructor]).
    revert H0 Hpol. generalize (mkWorld db0 []). induction ops as [|o ops IH]; intros w Hw Hpol; [done|].
    destruct Hpol as [Hup Hpol]. cbn [foldl]. apply IH; [|done]. by apply act_ok. }
  destruct Hw as [Hdb' Hhs]. rewrite Forall_lookup in Hhs. by apply search_exact; [|eapply Hhs].
Qed.
End index.

(** ** A concrete index, over whole numbers for components *)

Definition dot (v w : list Z) : Z := foldr Z.add 0%Z (zip_with Z.mul v w).

Definition no_text (query : list byte) (texts : gmap Z (list byte)) : list (Z * nat) := [].

Definition small_meta : @Meta Z := mkMeta 8 (bytes "m") (replicate 8 0%Z).

Definition empty_db : @Db Z := mkDb (Some small_meta) 0 ∅ ∅.

Definition by_sort (n : nat) (l : list Candidate.t) : list Candidate.t := merge_sort Candidate.le l.

Definition act_small : @op Z → @World Z → @World Z :=
  act (Sim := Z) (B := nat) Z.gtb (λ _, true) (λ _, true) dot Z.compare by_sort small_meta.

Definition unit (i : nat) : list Z := <[i := 1%Z]> (replicate 8 0%Z).

Definition two_handles : list (@op Z) := [OpenHandle (mkOptions 100 1000); OpenHandle (mkOptions 100 1000)].

Definition search_small (w : @World Z) (i : nat) (query : list Z) : option (result (list (list byte)) IndexError) :=
  h ← handles w !! i;
  Some (let? hits := (search_semantic (B := nat) Z.gtb (λ _, true) (λ _, true) dot Z.compare by_sort h query 10 (db w)).2 in
        Ok (hit_locator <$> hits)).

Definition polite_ops : list (@op Z) :=
  two_handles ++
  [DoUpsert 0 true (bytes "a") [] (unit 0); DoSearch 1 (unit 0) 10; DoUpsert 1 true (bytes "b") [] (unit 1)].

Definition polite_world : @World Z := foldl (λ w o, act_small o w) (mkWorld empty_db []) polite_ops.

Definition first_handle (w : @World Z) : @Handle Z :=
  match handles w with
  | h :: _ => h
  | [] => mkHandle small_meta (mkOptions 0 0) (CodeTable.new 0) (ExactCache.new 0) 0
  end.

Lemma empty_db_ok : db_ok Z.gtb (λ _, true) small_meta empty_db.
Proof.
  split; cbn; try done; try lia; try (intros *; rewrite lookup_empty; done).
Qed.

Lemma index_answers_exact_witness :
  db_ok Z.gtb (λ _, true) small_meta empty_db ∧
  polite (Sim := Z) (B := nat) Z.gtb (λ _, true) (λ _, true) dot Z.compare by_sort small_meta polite_ops (mkWorld empty_db []) ∧
  handles polite_world !! 0 = Some (first_handle polite_world) ∧
  (search_semantic (B := nat) Z.gtb (λ _, true) (λ _, true) dot Z.compare by_sort (first_handle polite_world) (unit 1) 10
     (db polite_world)).2 =
  answer (B := nat) Z.gtb (λ _, true) (λ _, true) dot Z.compare small_meta (options (first_handle polite_world)) (unit 1) 10
    (db polite_world) ∧
  search_small polite_world 0 (unit 1) = Some (Ok [bytes "b"; bytes "a"]).
Proof.
  assert (Hpol : polite (Sim := Z) (B := nat) Z.gtb (λ _, true) (λ _, true) dot Z.compare by_sort small_meta polite_ops
    (mkWorld empty_db [])).
  { cbn [polite_ops two_handles app polite]. repeat split; cbn [up_to_date]; intros h Hh; vm_compute in Hh;
      injection Hh as <-; vm_compute; reflexivity. }
  assert (Hh : handles polite_world !! 0 = Some (first_handle polite_world)) by (vm_compute; reflexivity).
  split; [exact empty_db_ok|]. split; [exact Hpol|]. split; [exact Hh|]. split.
  - exact (index_answers_exact Z.gtb (λ _, true) (λ _, true) dot Z.compare by_sort no_text sort_selects small_meta empty_db polite_ops
      0 (first_handle polite_world) (unit 1) 10 empty_db_ok ltac:(unfold MAX_DIMS; cbn; lia) ltac:(done) eq_refl Hpol Hh).
  - vm_compute. reflexivity.
Defined.

(** ** What the model shows of the code *)

(** A handle that writes without having seen another's write takes the revision of its own
    for both: it never learns of the other's, and goes on answering without its row. *)
Lemma stale_writer_blinded :
  let w := foldl (λ w o, act_small o w) (mkWorld empty_db [])
    (two_handles ++ [DoUpsert 1 true (bytes "b") [] (unit 1); DoUpsert 0 true (bytes "a") [] (unit 0);
                     DoSearch 0 (unit 1) 10]) in
  search_small w 0 (unit 1) = Some (Ok [bytes "a"]) ∧
  search_small w 1 (unit 1) = Some (Ok [bytes "b"; bytes "a"]).
Proof. vm_compute. split; reflexivity. Qed.

(** If the other removed a row, the blinded handle's searches fail, from then on. *)
Lemma stale_writer_fails :
  let w := foldl (λ w o, act_small o w) (mkWorld empty_db [])
    (two_handles ++ [DoUpsert 1 true (bytes "a") [] (unit 0); DoUpsert 1 true (bytes "b") [] (unit 1);
                     DoSearch 0 (unit 1) 10;
                     DoRemove 1 true (bytes "a"); DoUpsert 0 true (bytes "c") [] (unit 2);
                     DoSearch 0 (unit 1) 10]) in
  search_small w 0 (unit 1) = Some (Err Malformed) ∧
  search_small w 1 (unit 1) = Some (Ok [bytes "b"; bytes "c"]).
Proof. vm_compute. split; reflexivity. Qed.
