(* ===== verification/Retrieve.v ===== *)
(** * Retrieval over the vector index: [supra_digest/src/digest.rs] with [supra_vector]

    The digest's answer to a task: the files are scanned again when the last scan is old,
    the symbols that share a term with the task are put into the shared vector index under
    names of their own, searched by meaning and by text, and taken out again; where that
    finds nothing they are ranked by their terms.  Digest.v has the scan, the pool and the
    ranking by terms, VectorIndex.v the index. *)

From Stdlib Require Import Ascii.
From S2P Require Import Prelude Text Sealing Utf8 Syntax Language Graph Digest Vector VectorIndex.

(** ** Scanning again *)

(** A digest that is kept open, with the time of its last scan. *)
Record Live := mkLive { live : Digest; last_scan_ms : Z; rescan_secs : N }.

Section rescan.
Context (loads : Grammar → bool) (parse : Grammar → list byte → option Node).
Context (blake3 : list byte → list byte).

(** The tree is what listing and reading the files yields; [None] is out of fuel, which a
    scan never is. *)
Definition open_with_rescan (root : string) (tree : Digest.Entry) (read : string → option (list byte)) (secs : N)
    (now : Z) : option (result Live DigestError) :=
  opened ← open loads parse blake3 root tree read;
  Some (let? d := opened in Ok (mkLive d now secs)).

Definition rescan_if_stale (tree : Digest.Entry) (read : string → option (list byte)) (now later : Z) (x : Live) :
    option (Live * result Datatypes.unit DigestError) :=
  if rescan_due (rescan_secs x) (last_scan_ms x) now
  then
    opened ← open loads parse blake3 (SymbolIndex.root (index (live x))) tree read;
    Some (match opened with
          | Ok d => (mkLive d later (rescan_secs x), Ok tt)
          | Err e => (x, Err e)
          end)
  else Some (x, Ok tt).
End rescan.

(** ** Ranking *)

Inductive RankError := IndexFailed (e : IndexError) | BudgetExceeded (e : DigestError).

Section rank.
Context {F Sim B : Type} `{EqDecision F}.
Context (gt : F → F → bool) (finite : F → bool) (usable : list F → bool).
Context (similarity : list F → list F → Sim) (compare : Sim → Sim → comparison).
Context (select_nth : nat → list Candidate.t → list Candidate.t).
Context (full_text : list byte → gmap Z (list byte) → list (Z * B)).
Context (is_alphanumeric : list byte → bool) (to_lowercase : list byte → list byte).
(** The embedding of a text, when there is one, and which writes of a ranking commit: by
    its phase (putting in, the first and the last taking out) and their number. *)
Context (embed : list byte → option (list F)) (commits : nat → nat → bool).

#[local] Abbreviation handle := (@Handle F).
#[local] Abbreviation tables := (@Db F).
#[local] Abbreviation pool := (list (Symbol.t * list byte)).

Definition pool_name (position : nat) : list byte := bytes "digest#" ++ dec (N.of_nat position).

(** The candidates that have a vector the index takes, with their names. *)
Fixpoint fill (position : nat) (candidates : pool) (h : handle) (db : tables) :
    handle * tables * list (list byte * nat) :=
  match candidates with
  | [] => (h, db, [])
  | (_, gist) :: candidates =>
      let '(h, db, taken) :=
        match embed gist with
        | None => (h, db, [])
        | Some v =>
            let '(h, db, r) := upsert gt finite usable (commits 0 position) h (pool_name position) gist v db in
            (h, db, if is_ok r then [(pool_name position, position)] else [])
        end in
      let '(h, db, rest) := fill (S position) candidates h db in
      (h, db, taken ++ rest)
  end.

(** [drain_pool]: what a removal comes back with is not looked at. *)
Fixpoint drain (phase : nat) (names : list (list byte)) (n : nat) (h : handle) (db : tables) : handle * tables :=
  match names with
  | [] => (h, db)
  | name :: names =>
      let '(h, db, _) := remove (commits phase n) h name db in drain phase names (S n) h db
  end.

Definition anchor_at (candidates : pool) (rank position : nat) : option Anchor.t :=
  c ← candidates !! position;
  Some (Anchor.mk (Symbol.locator c.1) c.2 (Symbol.kind c.1) (Some rank)).

(** The position the pool has under a name. *)
Definition position_of (taken : list (list byte * nat)) (name : list byte) : option nat :=
  snd <$> List.find (λ p, bool_decide (p.1 = name)) taken.

Definition pointed (candidates : pool) (taken : list (list byte * nat)) (hits : list (Hit Sim B)) : list Anchor.t :=
  omap id (imap (λ rank hit, position ← position_of taken (hit_locator hit); anchor_at candidates rank position) hits).

Definition depth : nat := 50.

Definition rank_pool (candidates : pool) (terms : list (list byte)) (task : list byte) (h : handle) (db : tables) :
    handle * tables * result (list Anchor.t) RankError :=
  let '(h, db, taken) := fill 0 candidates h db in
  let names := taken.*1 in
  let '(h, db, found) :=
    match embed task with
    | None => (h, db, Ok [])
    | Some query =>
        let '(h, hits) :=
          search_hybrid gt finite usable similarity compare select_nth full_text h
            (lexical_query is_alphanumeric to_lowercase task) query MAX_ANCHORS depth db in
        let '(h, db) := drain 1 names 0 h db in
        (h, db, let? hits := map_err IndexFailed hits in Ok (pointed candidates taken hits))
    end in
  match found with
  | Err e => (h, db, Err e)
  | Ok anchors =>
      let anchors :=
        if bool_decide (anchors = []) then lexical_fallback to_lowercase candidates terms MAX_ANCHORS else anchors in
      match check_budget anchors with
      | Err e => (h, db, Err (BudgetExceeded e))
      | Ok _ => let '(h, db) := drain 2 names 0 h db in (h, db, Ok anchors)
      end
  end.

(** [retrieve] behind the scan. *)
Definition retrieve (x : SymbolIndex.t) (task : list byte) (h : handle) (db : tables) :
    handle * tables * result (list Anchor.t) RankError :=
  let terms := task_terms is_alphanumeric to_lowercase task in
  if bool_decide (terms = []) then (h, db, Ok [])
  else
    let candidates := candidate_pool to_lowercase x terms in
    if bool_decide (candidates = []) then (h, db, Ok []) else rank_pool candidates terms task h db.

(** ** What the index holds under a name *)

Definition corpus (name : list byte) (db : tables) : option (Row * list byte) :=
  slot ← slot_of name db; row ← entries db !! slot; body ← texts db !! slot; Some (row, body).

Context (m : @Meta F).

#[local] Abbreviation tables_ok := (db_ok gt finite m).
#[local] Abbreviation holds := (handle_ok m).

(** A handle that has seen every write. *)
Definition current (h : handle) (db : tables) : Prop := holds h db ∧ revision h = db_revision db.

Lemma slot_of_iff name db s : tables_ok db →
  slot_of name db = Some s ↔ ∃ row, entries db !! s = Some row ∧ locator row = name.
Proof.
  intros Hdb. split; [apply slot_of_Some|]. intros (row & Hs & <-). by apply (slot_of_exact gt finite m).
Qed.

Lemma slot_of_same name db db' : tables_ok db → tables_ok db' →
  (∀ s row, locator row = name → entries db' !! s = Some row ↔ entries db !! s = Some row) →
  slot_of name db' = slot_of name db.
Proof.
  intros Hdb Hdb' Hsame. apply option_eq. intros s. rewrite !slot_of_iff by done.
  split; intros (row & Hs & Hl); exists row; (split; [|done]); by apply (Hsame s row Hl).
Qed.

Lemma corpus_same name db db' : tables_ok db → tables_ok db' →
  (∀ s row, locator row = name → entries db' !! s = Some row ↔ entries db !! s = Some row) →
  (∀ s row, locator row = name → entries db !! s = Some row → texts db' !! s = texts db !! s) →
  corpus name db' = corpus name db.
Proof.
  intros Hdb Hdb' Hrows Htexts. unfold corpus. rewrite (slot_of_same name db db') by done.
  destruct (slot_of name db) as [s|] eqn:Es; [|done]. simpl.
  apply slot_of_Some in Es as (row & Hs & Hl). rewrite Hs, (proj2 (Hrows s row Hl) Hs). simpl.
  by rewrite (Htexts s row Hl Hs).
Qed.

(** A write changes what is under its name only. *)
Lemma corpus_written name row body db other : tables_ok db → locator row = name →
  tables_ok (written (default (next_slot db) (slot_of name db)) row body db) → other ≠ name →
  corpus other (written (default (next_slot db) (slot_of name db)) row body db) = corpus other db.
Proof.
  intros Hdb Hl Hdb' Hne. set (slot := default _ _) in *.
  assert (∀ s row', entries db !! s = Some row' → locator row' = other → s ≠ slot) as Haway.
  { intros s row' Hs Hl' ->. unfold slot in Hs. destruct (slot_of name db) as [t|] eqn:Et; simpl in Hs.
    - apply slot_of_Some in Et as (row'' & Ht & Hl''). congruence.
    - destruct (next_slot_fresh db) as [Hf _]. congruence. }
  apply corpus_same; [done|done|..]; cbn [entries texts written].
  - intros s row' Hl'. destruct (decide (s = slot)) as [->|]; [|by rewrite lookup_insert_ne].
    rewrite lookup_insert_eq. split; [intros [= <-]; congruence|]. intros Hs. by destruct (Haway _ _ Hs Hl').
  - intros s row' Hl' Hs. rewrite lookup_insert_ne; [done|]. intros ->. by destruct (Haway _ _ Hs Hl').
Qed.

Lemma corpus_erased name slot db other : tables_ok db → slot_of name db = Some slot → tables_ok (erased slot db) →
  corpus other (erased slot db) = if bool_decide (other = name) then None else corpus other db.
Proof.
  intros Hdb Hs Hdb'. apply slot_of_Some in Hs as (row & Hrow & Hl). case_bool_decide as E.
  - subst other. unfold corpus. destruct (slot_of name (erased slot db)) as [t|] eqn:Et; [|done]. exfalso.
    apply slot_of_Some in Et as (row' & Ht & Hl'). cbn [entries erased] in Ht.
    apply lookup_delete_Some in Ht as [Hne Ht]. apply Hne. by apply (ok_locators _ _ _ _ Hdb slot t row row'); [..|congruence].
  - assert (∀ s row', entries db !! s = Some row' → locator row' = other → s ≠ slot) as Haway.
    { intros s row' Hs' Hl' ->. congruence. }
    apply corpus_same; [done|done|..]; cbn [entries texts erased].
    + intros s row' Hl'. rewrite lookup_delete_Some. split; [by intros [_ ?]|].
      intros Hs'. split; [|done]. intros <-. by apply (Haway _ _ Hs' Hl').
    + intros s row' Hl' Hs'. rewrite lookup_delete_ne; [done|]. intros <-. by apply (Haway _ _ Hs' Hl').
Qed.

(** ** Every step keeps the index *)

Lemma upsert_revision c h name body v db h' db' r :
  upsert gt finite usable c h name body v db = (h', db', r) → revision h = db_revision db → revision h' = db_revision db'.
Proof.
  unfold upsert, with_transaction. case_bool_decide; [by intros [= <- <- <-]|].
  destruct (result_bind _ _) as [code|e]; [|by intros [= <- <- <-]].
  destruct c; [|by intros [= <- <- <-]]. by intros [= <- <- <-].
Qed.

Lemma upsert_keeps c h name body v db h' db' r : tables_ok db → current h db →
  upsert gt finite usable c h name body v db = (h', db', r) →
  tables_ok db' ∧ current h' db' ∧ ∀ other, (other ≠ name ∨ is_ok r = false) → corpus other db' = corpus other db.
Proof.
  intros Hdb [Hh Hrev] Hu. pose proof (upsert_revision _ _ _ _ _ _ _ _ _ Hu Hrev) as Hrev'.
  destruct (upsert_spec gt finite usable similarity compare full_text m _ _ _ _ _ _ _ _ _ Hdb Hh Hrev Hu)
    as [(-> & -> & _)|(slot & code & -> & -> & -> & Hdb' & Hh' & _)]; [done|].
  split; [done|]. split; [done|]. intros other [Ho|Ho]; [|done]. by apply corpus_written.
Qed.

Lemma fill_keeps candidates : ∀ position h db h' db' taken, tables_ok db → current h db →
  fill position candidates h db = (h', db', taken) →
  tables_ok db' ∧ current h' db' ∧
  (∀ name, name ∉ taken.*1 → corpus name db' = corpus name db) ∧
  ∀ name, name ∈ taken.*1 → ∃ p, p < position + length candidates ∧ name = pool_name p.
Proof.
  induction candidates as [|[s gist] candidates IH]; intros position h db h' db' taken Hdb Hc; cbn [fill].
  { intros [= <- <- <-]. split_and!; [done..|]. by intros name ?%not_elem_of_nil. }
  assert (∃ h1 db1 taken1, match embed gist with
      | None => (h, db, [])
      | Some v => let '(h, db, r) := upsert gt finite usable (commits 0 position) h (pool_name position) gist v db in
          (h, db, if is_ok r then [(pool_name position, position)] else [])
      end = (h1, db1, taken1) ∧ tables_ok db1 ∧ current h1 db1 ∧
      (∀ name, name ∉ taken1.*1 → corpus name db1 = corpus name db) ∧
      ∀ name, name ∈ taken1.*1 → name = pool_name position) as (h1 & db1 & taken1 & -> & Hdb1 & Hc1 & Hsame1 & Hin1).
  { destruct (embed gist) as [v|].
    - destruct (upsert _ _ _ _ _ _ _ _ _) as [[h1 db1] r] eqn:Hu.
      destruct (upsert_keeps _ _ _ _ _ _ _ _ _ Hdb Hc Hu) as (Hdb1 & Hc1 & Hsame). eexists _, _, _. split; [done|].
      split_and!; [done|done| |].
      + intros name Hn. apply Hsame. destruct (is_ok r); [left|by right]. intros ->. apply Hn. by left.
      + destruct (is_ok r); intros name Hn; [by apply list_elem_of_singleton in Hn|by apply not_elem_of_nil in Hn].
    - eexists _, _, _. split; [done|]. split_and!; [done..|]. by intros name ?%not_elem_of_nil. }
  destruct (fill (S position) candidates h1 db1) as [[h2 db2] rest] eqn:Hf. intros [= <- <- <-].
  destruct (IH _ _ _ _ _ _ Hdb1 Hc1 Hf) as (Hdb2 & Hc2 & Hsame2 & Hin2). rewrite fmap_app. split_and!; [done|done| |].
  - intros name Hn. rewrite not_elem_of_app in Hn. destruct Hn. by rewrite Hsame2, Hsame1.
  - intros name [Hn|Hn]%elem_of_app; [exists position; split; [simpl; lia|by apply Hin1]|].
    destruct (Hin2 name Hn) as (p & Hp & ->). exists p. split; [simpl; lia|done].
Qed.

Lemma remove_keeps h name db h' db' r : tables_ok db → current h db →
  remove true h name db = (h', db', r) →
  tables_ok db' ∧ current h' db' ∧
  ∀ other, corpus other db' = if bool_decide (other = name) then None else corpus other db.
Proof.
  intros Hdb [Hh Hrev]. unfold remove, with_transaction. destruct (slot_of name db) as [slot|] eqn:Es.
  - assert (remove true h name db = remove true h name db) as Hr by done. unfold remove at 1, with_transaction in Hr.
    rewrite Es in Hr. intros E. rewrite Hr in E. clear Hr.
    destruct (remove_spec gt finite full_text m _ _ _ _ _ _ _ Hdb Hh Hrev E) as [(_ & _ & Hno)|(slot' & _ & Es' & -> & Hdb' & Hh' & _)].
    + exfalso. apply Hno. unfold remove, with_transaction in E. rewrite Es in E. by injection E as <- <- <-.
    + split; [done|]. split; [split; [done|]|].
      * unfold remove, with_transaction in E. rewrite Es in E. by injection E as <- _ _.
      * intros other. by apply corpus_erased.
  - intros [= <- <- <-]. split; [done|]. split; [done|]. intros other. case_bool_decide; [|done]. subst.
    unfold corpus. by rewrite Es.
Qed.

Lemma drain_keeps phase names (Hcommits : ∀ n, commits phase n = true) : ∀ n h db h' db', tables_ok db → current h db →
  drain phase names n h db = (h', db') →
  tables_ok db' ∧ current h' db' ∧
  ∀ other, corpus other db' = if bool_decide (other ∈ names) then None else corpus other db.
Proof.
  induction names as [|name names IH]; intros n h db h' db' Hdb Hc; cbn [drain].
  { by intros [= <- <-]. }
  rewrite Hcommits. destruct (remove true h name db) as [[h1 db1] r] eqn:Hr.
  destruct (remove_keeps _ _ _ _ _ _ Hdb Hc Hr) as (Hdb1 & Hc1 & Hs1). intros Hd.
  destruct (IH _ _ _ _ _ Hdb1 Hc1 Hd) as (Hdb2 & Hc2 & Hs2). split_and!; [done|done|]. intros other.
  rewrite Hs2, Hs1. rewrite (bool_decide_ext (other ∈ name :: names) (other = name ∨ other ∈ names)) by apply elem_of_cons.
  repeat case_bool_decide; naive_solver.
Qed.

Lemma exact_revision h db slot : revision (exact finite h db slot).1 = revision h.
Proof.
  unfold exact. destruct (ExactCache.get slot (cache h)) as [c' [v|]]; simpl; [done|].
  destruct (entries db !! slot); [|done]. by destruct (decode_embedding _ _ _).
Qed.

Lemma score_all_revision query db cs : ∀ h, revision (score_all finite similarity query db cs h).1 = revision h.
Proof.
  induction cs as [|c cs IH]; intros h; [done|]. cbn [score_all]. pose proof (exact_revision h db (Candidate.slot c)) as He.
  destruct (exact finite h db (Candidate.slot c)) as [h1 [v|e]]; simpl in He; [|done]. specialize (IH h1).
  destruct (score_all finite similarity query db cs h1) as [h2 rest]. simpl in *. congruence.
Qed.

Context (Hselects : selects select_nth).

Lemma search_keeps text query limit deep h db : tables_ok db → current h db →
  current (search_hybrid gt finite usable similarity compare select_nth full_text h text query limit deep db).1 db.
Proof.
  intros Hdb [Hh Hrev]. unfold search_hybrid. destruct (limit =? 0); [done|].
  set (d := deep `max` limit).
  destruct (search_exact (B := B) gt finite usable similarity compare select_nth Hselects m h query d db Hdb Hh) as (_ & Hh' & _).
  assert (revision (search_semantic (B := B) gt finite usable similarity compare select_nth h query d db).1 = revision h) as Hr.
  { unfold search_semantic. destruct (validate _ _ _ _); [|done]. destruct (d =? 0); [done|].
    destruct (map_width _); [|done]. unfold sync_if_stale. rewrite Hrev, N.eqb_refl.
    pose proof (score_all_revision query db (nearest select_nth a0 (rerank_width (options h) `max` d) (codes h)) h) as Hs.
    destruct (score_all _ _ _ _ _ _) as [h1 scored]. simpl in *. congruence. }
  destruct (search_semantic _ _ _ _ _ _ _ _ _ _) as [h1 semantic]. simpl in *. split; [done|congruence].
Qed.

(** ** Answers *)

(** An anchor points at a symbol of the pool. *)
Definition points_at (candidates : pool) (a : Anchor.t) : Prop :=
  ∃ c, c ∈ candidates ∧ Anchor.locator a = Symbol.locator c.1 ∧ Anchor.gist a = c.2 ∧ Anchor.kind a = Symbol.kind c.1.

Lemma fallback_points candidates terms limit :
  Forall (points_at candidates) (lexical_fallback to_lowercase candidates terms limit).
Proof.
  unfold lexical_fallback. apply Forall_lookup. intros i a. rewrite list_lookup_imap.
  intros (x & Hx & ->)%fmap_Some. assert (x.2 ∈ candidates) as Hin.
  { apply lookup_take_Some in Hx as [Hx _]. apply list_elem_of_lookup_2 in Hx.
    rewrite sort_by_perm in Hx. unfold scored in Hx. apply list_elem_of_omap in Hx as (c & Hc & Hs).
    cbv zeta in Hs. case_match; [|done]. by injection Hs as <-. }
  exists x.2. by split_and!.
Qed.

Lemma pointed_points candidates taken hits : Forall (points_at candidates) (pointed candidates taken hits).
Proof.
  apply Forall_forall. unfold pointed. intros a (o & Ho & Ha)%list_elem_of_omap.
  apply list_elem_of_lookup in Ho as [i Hi]. rewrite list_lookup_imap in Hi.
  apply fmap_Some in Hi as (hit & _ & ->). simpl in Ha.
  destruct (position_of taken (hit_locator hit)) as [p|]; [|done]. simpl in Ha. unfold anchor_at in Ha.
  destruct (candidates !! p) as [c|] eqn:Hc; [|done]. simpl in Ha. injection Ha as <-.
  exists c. split; [|done]. by eapply list_elem_of_lookup_2.
Qed.

(** What a name of the corpus comes to: what it was, or, for one of the pool's names, nothing. *)
Definition restored (candidates : pool) (db db' : tables) : Prop :=
  ∀ name, corpus name db' = corpus name db ∨
    (corpus name db' = None ∧ ∃ p, p < length candidates ∧ name = pool_name p).

(** The set-up and the two ends of a ranking. *)
Lemma rank_pool_spec (Hcommits : ∀ phase n, commits phase n = true) candidates terms task h db h' db' r :
  tables_ok db → current h db → rank_pool candidates terms task h db = (h', db', r) →
  tables_ok db' ∧ current h' db' ∧
  (is_ok r = true ∨ is_Some (embed task) → restored candidates db db') ∧
  ∀ anchors, r = Ok anchors → Forall (points_at candidates) anchors ∧ check_budget anchors = Ok tt.
Proof.
  intros Hdb Hc. unfold rank_pool. destruct (fill 0 candidates h db) as [[h1 db1] taken] eqn:Hf.
  destruct (fill_keeps _ _ _ _ _ _ _ Hdb Hc Hf) as (Hdb1 & Hc1 & Hsame & Hin).
  assert (Hdrained : ∀ db2, (∀ other, corpus other db2 = if bool_decide (other ∈ taken.*1) then None else corpus other db1) →
    restored candidates db db2).
  { intros db2 H2 name. rewrite H2. case_bool_decide as Hn; [right; split; [done|by apply Hin]|left; by apply Hsame]. }
  set (middle := match embed task with Some _ => _ | None => _ end).
  assert (∃ h2 db2 found, middle = (h2, db2, found) ∧ tables_ok db2 ∧ current h2 db2 ∧
    (is_Some (embed task) → ∀ other, corpus other db2 = if bool_decide (other ∈ taken.*1) then None else corpus other db1) ∧
    (embed task = None → db2 = db1) ∧
    ∀ anchors, found = Ok anchors → Forall (points_at candidates) anchors) as
    (h2 & db2 & found & -> & Hdb2 & Hc2 & Hd2 & Hn2 & Hp2).
  { subst middle. destruct (embed task) as [query|].
    - pose proof (search_keeps (lexical_query is_alphanumeric to_lowercase task) query MAX_ANCHORS depth h1 db1 Hdb1 Hc1) as Hs.
      destruct (search_hybrid _ _ _ _ _ _ _ _ _ _ _ _ _) as [h2 hits]. simpl in Hs.
      destruct (drain 1 taken.*1 0 h2 db1) as [h3 db3] eqn:Hd.
      destruct (drain_keeps 1 taken.*1 (Hcommits 1) _ _ _ _ _ Hdb1 Hs Hd) as (Hdb3 & Hc3 & Hs3).
      eexists _, _, _. split; [done|]. split_and!; [done|done|done|done|].
      intros anchors. destruct hits as [hits|e]; [|done]. intros [= <-]. apply pointed_points.
    - eexists _, _, _. split; [done|]. split_and!; [done|done|by intros []|done|]. intros anchors [= <-]. constructor. }
  assert (Htook : is_Some (embed task) → restored candidates db db2) by (intros; by apply Hdrained, Hd2).
  destruct found as [anchors|e].
  2:{ intros [= <- <- <-]. split_and!; [done|done| |done]. intros [?|?]; [done|by apply Htook]. }
  set (chosen := if bool_decide (anchors = []) then _ else _).
  assert (Forall (points_at candidates) chosen) as Hchosen.
  { subst chosen. case_bool_decide; [apply fallback_points|by apply Hp2]. }
  destruct (check_budget chosen) as [[]|e] eqn:Hb.
  2:{ intros [= <- <- <-]. split_and!; [done|done| |done]. intros [?|?]; [done|by apply Htook]. }
  destruct (drain 2 taken.*1 0 h2 db2) as [h3 db3] eqn:Hd.
  destruct (drain_keeps 2 taken.*1 (Hcommits 2) _ _ _ _ _ Hdb2 Hc2 Hd) as (Hdb3 & Hc3 & Hs3).
  intros [= <- <- <-]. split_and!; [done|done| |by intros ? [= <-]]. intros _. apply Hdrained. intros other. rewrite Hs3.
  case_bool_decide as Ho; [done|]. destruct (embed task) eqn:Ee; [|by rewrite Hn2].
  rewrite Hd2 by done. by rewrite bool_decide_eq_false_2.
Qed.

(** C37. A retrieval borrows the index and gives it back.  When the writes of a handle that
    is up to date commit, an answered retrieval, and one that failed whose task had an
    embedding, leaves under every name of the index what was there, except for the names
    its pool uses, where there may be nothing left; the handle is up to date; and the
    answer is at most ten anchors of at most 300 tokens, each at a symbol of the pool. *)
Theorem retrieve_gives_back (x : SymbolIndex.t) (task : list byte) (h h' : handle) (db db' : tables) r
    (Hcommits : ∀ phase n, commits phase n = true) (Hdb : tables_ok db) (Hcurrent : current h db)
    (Hrun : retrieve x task h db = (h', db', r)) :
  let candidates := candidate_pool to_lowercase x (task_terms is_alphanumeric to_lowercase task) in
  tables_ok db' ∧ current h' db' ∧
  (is_ok r = true ∨ is_Some (embed task) → restored candidates db db') ∧
  ∀ anchors, r = Ok anchors → Forall (points_at candidates) anchors ∧ length anchors ≤ 10 ∧
    sum_list_with Anchor.tokens anchors ≤ 300.
Proof.
  intros candidates. unfold retrieve in Hrun. fold candidates in Hrun.
  assert (Hnone : (h, db, Ok []) = (h', db', r) → tables_ok db' ∧ current h' db' ∧
    (is_ok r = true ∨ is_Some (embed task) → restored candidates db db') ∧
    ∀ anchors, r = Ok anchors → Forall (points_at candidates) anchors ∧ length anchors ≤ 10 ∧
      sum_list_with Anchor.tokens anchors ≤ 300).
  { intros [= <- <- <-]. split_and!; [done|done| |]; [intros _ name; by left|].
    intros anchors [= <-]. split_and!; [constructor|simpl; lia|simpl; lia]. }
  case_bool_decide; [by apply Hnone|]. case_bool_decide; [by apply Hnone|].
  destruct (rank_pool_spec Hcommits _ _ _ _ _ _ _ _ Hdb Hcurrent Hrun) as (H1 & H2 & H3 & H4).
  split_and!; [done|done|done|]. intros anchors Ha. destruct (H4 anchors Ha) as [Hp Hb].
  split; [done|by apply check_budget_Ok].
Qed.
End rank.

(** ** Scanning again is opening *)

(** A scan that is due makes the digest one that was just opened.  When the last scan is
    as old as the interval, what is kept afterwards is the digest of the files as they are
    now; before that, and with an interval of [u64::MAX] always, it is the digest there was,
    as it is when the scan fails, which is reported. *)
Theorem rescan_exact loads parse blake3 tree read now later (x : Live) :
  (last_scan_ms x ≤ now)%Z → (0 ≤ last_scan_ms x)%Z → (now ≤ i64_max)%Z →
  rescan_if_stale loads parse blake3 tree read now later x =
    if bool_decide (rescan_secs x ≠ Z.to_N u64_max ∧
                    (Z.min i64_max (Z.min u64_max (Z.of_N (rescan_secs x) * 1000)) ≤ now - last_scan_ms x)%Z)
    then
      opened ← open_with_rescan loads parse blake3 (SymbolIndex.root (index (live x))) tree read (rescan_secs x) later;
      Some (match opened with Ok x' => (x', Ok tt) | Err e => (x, Err e) end)
    else Some (x, Ok tt).
Proof.
  intros Hle Hge Hmax. unfold rescan_if_stale, open_with_rescan, rescan_due.
  rewrite (Z.min_r i64_max (now - last_scan_ms x)), Z.max_r by (unfold i64_min, i64_max in *; lia).
  destruct (N.eqb_spec (rescan_secs x) (Z.to_N u64_max)) as [E|E].
  - rewrite bool_decide_eq_false_2 by naive_solver. done.
  - destruct (Z.ltb_spec (now - last_scan_ms x) (Z.min i64_max (Z.min u64_max (Z.of_N (rescan_secs x) * 1000)))).
    + rewrite bool_decide_eq_false_2 by (intros [_ ?]; lia). done.
    + rewrite bool_decide_eq_true_2 by done. destruct (open _ _ _ _ _ _) as [[d|e]|]; done.
Qed.

(** ** A concrete retrieval *)

(** A tree with nothing in it, and a digest that was opened on it a minute ago. *)
Definition bare : Live := mkLive (mkDigest (SymbolIndex.new "/r") DependencyGraph.new) 0 DEFAULT_RESCAN_SECS.

Lemma rescan_exact_witness :
  rescan_if_stale (λ _, false) (λ _ _, None) (λ b, b) (Dir (Some [])) (λ _, None) 60000 60001 bare =
    Some (mkLive (live bare) 60001 DEFAULT_RESCAN_SECS, Ok tt).
Proof.
  rewrite (rescan_exact (λ _, false) (λ _ _, None) (λ b, b) (Dir (Some [])) (λ _, None) 60000 60001 bare
    ltac:(vm_compute; discriminate) ltac:(vm_compute; discriminate) ltac:(vm_compute; discriminate)).
  vm_compute. reflexivity.
Defined.

Definition small_handle : @Handle Z := mkHandle small_meta (mkOptions 100 1000) (CodeTable.new 1) (ExactCache.new 1000) 0.

Lemma small_handle_current : current small_meta small_handle empty_db.
Proof.
  destruct (open_spec Z.gtb (λ _, true) small_meta (mkOptions 100 1000) empty_db empty_db_ok) as (h & Ho & Hh & _).
  { unfold MAX_DIMS. simpl. lia. }
  { discriminate. }
  { reflexivity. }
  assert (open_index (λ _, true) true (model small_meta) (dims small_meta) (threshold small_meta) (mkOptions 100 1000) empty_db =
    (empty_db, Ok small_handle)) as E by (vm_compute; reflexivity).
  rewrite E in Ho. injection Ho as <-. split; [exact Hh|reflexivity].
Qed.

Definition retrieve_small (embed : list byte → option (list Z)) (x : SymbolIndex.t) (task : list byte) :=
  retrieve (Sim := Z) (B := nat) Z.gtb (λ _, true) (λ _, true) dot Z.compare by_sort no_text ascii_alphanumeric
    (fmap lower) embed (λ _ _, true) x task small_handle empty_db.

Definition any_vector (text : list byte) : option (list Z) := Some (VectorIndex.unit 0).

Lemma retrieve_gives_back_witness :
  ∃ h' db' anchors, retrieve_small any_vector small_index (bytes "fix S") = (h', db', Ok anchors) ∧
    length anchors = 2 ∧ corpus (pool_name 0) db' = None.
Proof.
  destruct (retrieve_small any_vector small_index (bytes "fix S")) as [[h' db'] r] eqn:E.
  destruct (retrieve_gives_back (Sim := Z) (B := nat) Z.gtb (λ _, true) (λ _, true) dot Z.compare by_sort no_text
    ascii_alphanumeric (fmap lower) any_vector (λ _ _, true) small_meta sort_selects small_index (bytes "fix S")
    small_handle h' empty_db db' r (λ _ _, eq_refl) empty_db_ok small_handle_current E) as (_ & _ & Hr & _).
  specialize (Hr (or_intror (ex_intro _ _ eq_refl)) (pool_name 0)).
  pose proof (f_equal (λ p, match p.2 with Ok a => length a | Err _ => 0 end) E) as Hres.
  cbn [snd] in Hres. destruct r as [anchors|e]; [|vm_compute in Hres; discriminate Hres].
  exists h', db', anchors. split; [reflexivity|]. split; [rewrite <- Hres; vm_compute; reflexivity|].
  destruct Hr as [Hr|[Hr _]]; [rewrite Hr; vm_compute; reflexivity|exact Hr].
Defined.

(** A symbol whose name alone is more than an answer may hold. *)
Definition long_name : list byte := replicate 1000 "s"%char.

Definition long_index : SymbolIndex.t :=
  SymbolIndex.mk "/r" {["s.rs" := mkFileEntry [] [Symbol.mk "s.rs" Rust Function long_name None 0 9 1]]}.

(** An answer over its budget leaves the pool in the index, when the task itself has no
    embedding: the symbol stays to be found by every search after it. *)
Lemma pool_left_behind :
  let '(_, db, r) := retrieve_small (λ text, if bool_decide (text = bytes "fix s") then None else Some (VectorIndex.unit 0))
    long_index (bytes "fix s") in
  is_ok r = false ∧ is_Some (corpus (pool_name 0) db).
Proof. vm_compute. split; [reflexivity|eexists; reflexivity]. Qed.
