(* ===== verification/Skill.v ===== *)
(** * Skills: [supra_skill/src/skill.rs], [loader.rs]

    A skill is a file of front matter between two fences and a body; the loader keeps the
    skills of a directory by name, refuses names claimed twice, requirements nothing meets
    and requirements that lead back to where they start, and follows file events by
    applying them to a copy.  What a path reads as is a parameter of each operation. *)

From Stdlib Require Import Ascii.
From S2P Require Import Prelude Text Sealing Utf8 FileSystem Canonical Framing Graph.

(** ** One file *)

Module Skill.
Record t := mk {
  name : list byte; description : list byte; requires : list (list byte); body : list byte;
  extra : gmap (list byte) (list byte) }.

#[global] Instance eq_dec : EqDecision t.
Proof. solve_decision. Defined.
End Skill.

Inductive ParseDetail := NoOpeningFence | NeverClosed | ClosingFenceTrailed | NotKeyValue (line : list byte).

Inductive SkillError :=
| Io
| Parse (path : string) (detail : ParseDetail)
| MissingField (path : string) (field : list byte)
| UnknownDependency (skill missing : list byte)
| Cycle (cycle : list byte)
| Duplicate (name : list byte) (first second : string).

#[export] Instance ParseDetail_eq_dec : EqDecision ParseDetail.
Proof. solve_decision. Defined.
#[export] Instance SkillError_eq_dec : EqDecision SkillError.
Proof. solve_decision. Defined.

Definition nonblank (path : string) (field value : list byte) : result (list byte) SkillError :=
  if bool_decide (value = []) then Err (MissingField path field) else Ok value.

Definition fence : list byte := bytes "---".

Definition opening (l : list byte) : option (list byte) :=
  match strip_prefix (fence ++ [lf]) l with
  | Some rest => Some rest
  | None => strip_prefix (fence ++ [cr; lf]) l
  end.

Definition split_fences (path : string) (text : list byte) : result (list byte * list byte) SkillError :=
  let trimmed_start := drop_while (λ c, bool_decide (c = lf)) text in
  match opening trimmed_start with
  | None => Err (Parse path NoOpeningFence)
  | Some after_open =>
      match find_sub (lf :: fence) after_open with
      | None => Err (Parse path NeverClosed)
      | Some offset =>
          let fence_end := offset + length (lf :: fence) in
          let rest_of_line := drop fence_end after_open in
          let line_end := default (length rest_of_line) (position lf rest_of_line) in
          let trailer := take line_end rest_of_line in
          if negb (bool_decide (trailer = [])) && negb (bool_decide (trailer = [cr]))
          then Err (Parse path ClosingFenceTrailed)
          else
            let front := take offset after_open in
            let after_close := drop (fence_end + line_end) after_open in
            Ok (front, default after_close (strip_prefix [lf] after_close))
      end
  end.

(** What the lines read so far say. *)
Record Front := mkFront {
  front_name : option (list byte); front_description : option (list byte);
  front_requires : list (list byte); front_extra : gmap (list byte) (list byte) }.

Definition comma_list (value : list byte) : list (list byte) :=
  List.filter (λ e, negb (bool_decide (e = []))) (trim <$> split_on (is_char ",") value).

Definition front_line (path : string) (line : list byte) (f : Front) : result Front SkillError :=
  if is_blank line then Ok f
  else
    match split_once (bytes ":") line with
    | None => Err (Parse path (NotKeyValue line))
    | Some (key, value) =>
        let key := trim key in
        let value := trim value in
        if bool_decide (key = bytes "name") then
          let? n := nonblank path key value in
          Ok (mkFront (Some n) (front_description f) (front_requires f) (front_extra f))
        else if bool_decide (key = bytes "description") then
          let? d := nonblank path key value in
          Ok (mkFront (front_name f) (Some d) (front_requires f) (front_extra f))
        else if bool_decide (key = bytes "requires") then
          Ok (mkFront (front_name f) (front_description f) (comma_list value) (front_extra f))
        else Ok (mkFront (front_name f) (front_description f) (front_requires f) (<[key := value]> (front_extra f)))
    end.

Fixpoint front_lines (path : string) (ls : list (list byte)) (f : Front) : result Front SkillError :=
  match ls with
  | [] => Ok f
  | line :: ls => let? f := front_line path line f in front_lines path ls f
  end.

Definition parse_str (path : string) (text : list byte) : result Skill.t SkillError :=
  let? fences := split_fences path text in
  let '(front, body) := fences in
  let? f := front_lines path (lines front) (mkFront None None [] ∅) in
  let? name := ok_or (front_name f) (MissingField path (bytes "name")) in
  let? description := ok_or (front_description f) (MissingField path (bytes "description")) in
  Ok (Skill.mk name description (front_requires f) body (front_extra f)).

(** ** The set of skills *)

Record Skills := mkSkills { by_name : gmap (list byte) Skill.t; sources : gmap (list byte) string }.

Definition no_skills : Skills := mkSkills ∅ ∅.

(** The entries of a map in the order of their keys. *)
Definition key_order {V} (m : gmap (list byte) V) : list (list byte * V) := merge_sort key_le (map_to_list m).

Definition names (s : Skills) : list (list byte) := (key_order (by_name s)).*1.

Definition get (name : list byte) (s : Skills) : option Skill.t := by_name s !! name.
Definition all (s : Skills) : list Skill.t := (key_order (by_name s)).*2.

Definition arrow : list byte := bytes " -> ".

Fixpoint arrow_join (cycle : list (list byte)) : list byte :=
  match cycle with
  | [] => []
  | [name] => name
  | name :: cycle => name ++ arrow ++ arrow_join cycle
  end.

(** *** Requirements *)

Definition unknown (s : Skills) (skill : Skill.t) : option SkillError :=
  (λ missing, UnknownDependency (Skill.name skill) missing) <$>
    List.find (λ r, negb (bool_decide (is_Some (by_name s !! r)))) (Skill.requires skill).

(** A walk that stops at the first refusal, or when its fuel is spent. *)
Fixpoint walk_all {A B E} (f : A → B → option (result B E)) (l : list A) (b : B) : option (result B E) :=
  match l with
  | [] => Some (Ok b)
  | a :: l =>
      match f a b with
      | Some (Ok b) => walk_all f l b
      | r => r
      end
  end.

Section walks.
Context (s : Skills).

(** [visiting] is pushed for the requirements and popped after them; [done] only grows. *)
Fixpoint visit (fuel : nat) (visiting : list (list byte)) (name : list byte) (done : gset (list byte)) :
    option (result (gset (list byte)) SkillError) :=
  match fuel with
  | O => None
  | S fuel =>
      if bool_decide (name ∈ done) then Some (Ok done)
      else
        match position name visiting with
        | Some at_ => Some (Err (Cycle (arrow_join (drop at_ visiting ++ [name]))))
        | None =>
            let requires := default [] (Skill.requires <$> by_name s !! name) in
            match walk_all (visit fuel (visiting ++ [name])) requires done with
            | Some (Ok done) => Some (Ok ({[name]} ∪ done))
            | r => r
            end
        end
  end.

Definition depth : nat := S (size (by_name s)).

Definition resolve_dependencies : option (result unit SkillError) :=
  match head (omap (unknown s) (all s)) with
  | Some e => Some (Err e)
  | None =>
      match walk_all (visit depth []) (names s) ∅ with
      | Some (Ok _) => Some (Ok tt)
      | Some (Err e) => Some (Err e)
      | None => None
      end
  end.

Fixpoint push_order (fuel : nat) (name : list byte) (acc : list Skill.t * gset (list byte)) :
    option (list Skill.t * gset (list byte)) :=
  match fuel with
  | O => None
  | S fuel =>
      if bool_decide (name ∈ acc.2) then Some acc
      else
        match by_name s !! name with
        | None => Some acc
        | Some skill =>
            acc ← foldl (λ acc required, acc ← acc; push_order fuel required acc) (Some acc) (Skill.requires skill);
            Some (acc.1 ++ [skill], {[name]} ∪ acc.2)
        end
  end.

Definition topological : option (list Skill.t) :=
  acc ← foldl (λ acc name, acc ← acc; push_order depth name acc) (Some ([], ∅)) (names s);
  Some acc.1.
End walks.

(** *** Loading and file events *)

Definition SKILL_MD : string := "SKILL.md".

Definition parse (read : string → option (list byte)) (path : string) : result Skill.t SkillError :=
  match read path with
  | Some text => if is_utf8 text then parse_str path text else Err Io
  | None => Err Io
  end.

Definition add (path : string) (skill : Skill.t) (s : Skills) : result Skills SkillError :=
  match sources s !! Skill.name skill with
  | Some first => Err (Duplicate (Skill.name skill) first path)
  | None => Ok (mkSkills (<[Skill.name skill := skill]> (by_name s)) (<[Skill.name skill := path]> (sources s)))
  end.

Fixpoint load_files (read : string → option (list byte)) (files : list string) (s : Skills) :
    result Skills SkillError :=
  match files with
  | [] => Ok s
  | path :: files =>
      let? skill := parse read path in
      let? s := add path skill s in
      load_files read files s
  end.

(** The files of a directory: the manifests of those of its entries that hold one. *)
Definition manifests (directory : string) (holds_manifest : string → bool) (entries : list string) : list string :=
  merge_sort DependencyGraph.path_le
    ((λ e, join (join directory e) SKILL_MD) <$> List.filter holds_manifest entries).

(** [None] is a directory that cannot be listed.  The outer [None] is spent fuel. *)
Definition load (read : string → option (list byte)) (holds_manifest : string → bool) (directory : string)
    (entries : option (list string)) : option (result Skills SkillError) :=
  match entries with
  | None => Some (Err Io)
  | Some entries =>
      match load_files read (manifests directory holds_manifest entries) no_skills with
      | Err e => Some (Err e)
      | Ok s => r ← resolve_dependencies s; Some (let? _ := r in Ok s)
      end
  end.

Inductive EventKind := Remove | Create | Modify | Other.

Record Event := mkEvent { kind : EventKind; paths : list string }.

Definition source_name (path : string) (s : Skills) : option (list byte) :=
  fst <$> List.find (λ e, bool_decide (e.2 = path)) (key_order (sources s)).

Definition drop_name (name : option (list byte)) (s : Skills) : Skills :=
  match name with
  | Some name => mkSkills (base.delete name (by_name s)) (base.delete name (sources s))
  | None => s
  end.

Definition note (name : option (list byte)) (changed : gset (list byte)) : gset (list byte) :=
  match name with Some name => {[name]} ∪ changed | None => changed end.

Fixpoint event_paths (read : string → option (list byte)) (k : EventKind) (ps : list string) (s : Skills)
    (changed : gset (list byte)) : result (Skills * gset (list byte)) SkillError :=
  match ps with
  | [] => Ok (s, changed)
  | path :: ps =>
      if negb (bool_decide (file_name path = Some SKILL_MD)) then event_paths read k ps s changed
      else
        match k with
        | Remove =>
            let name := source_name path s in
            event_paths read k ps (drop_name name s) (note name changed)
        | Other => event_paths read k ps s changed
        | Create | Modify =>
            let? reloaded := parse read path in
            let old_name := source_name path s in
            let? s := add path reloaded (drop_name old_name s) in
            event_paths read k ps s (note (Some (default [] (source_name path s))) (note old_name changed))
        end
  end.

Definition apply_event_in_place (read : string → option (list byte)) (e : Event) (s : Skills) :
    option (result (Skills * list (list byte)) SkillError) :=
  match event_paths read (kind e) (paths e) s ∅ with
  | Err error => Some (Err error)
  | Ok (s, changed) =>
      r ← resolve_dependencies s;
      Some (let? _ := r in Ok (s, (key_order (gset_to_gmap tt changed)).*1))
  end.

Definition apply_event (read : string → option (list byte)) (e : Event) (s : Skills) :
    option (Skills * result (list (list byte)) SkillError) :=
  r ← apply_event_in_place read e s;
  Some (match r with
        | Ok (candidate, changed) => (candidate, Ok changed)
        | Err error => (s, Err error)
        end).

Definition reload_from := apply_event.

(** ** What resolution decides *)

Section resolution.
Context (s : Skills).

Definition needs (a b : list byte) : Prop := ∃ sk, by_name s !! a = Some sk ∧ b ∈ Skill.requires sk.

Definition closed : Prop := ∀ a b, needs a b → b ∈ dom (by_name s).

Definition acyclic : Prop := ∀ a, ¬ tc needs a a.

(** Each name needs the next. *)
Definition chain (l : list (list byte)) : Prop :=
  ∀ i a b, l !! i = Some a → l !! S i = Some b → needs a b.

Lemma chain_snoc l a b : chain (l ++ [a]) → needs a b → chain ((l ++ [a]) ++ [b]).
Proof.
  intros Hl Hab i x y Hx Hy. pose proof (lookup_lt_Some _ _ _ Hy) as Hi.
  rewrite length_app in Hi; cbn in Hi. rewrite lookup_app_l in Hx by lia.
  destruct (decide (S i = length (l ++ [a]))) as [E|E].
  - rewrite E, lookup_app_r, Nat.sub_diag in Hy by lia. injection Hy as <-.
    rewrite length_app in E; cbn in E. rewrite lookup_app_r in Hx by lia.
    replace (i - length l) with 0 in Hx by lia. by injection Hx as <-.
  - rewrite lookup_app_l in Hy by lia. by apply (Hl i).
Qed.

Lemma chain_one a : chain ([] ++ [a]).
Proof. by intros [|i] x y; cbn. Qed.

Lemma chain_drop n l : chain l → chain (drop n l).
Proof. intros Hl i a b. rewrite !lookup_drop, Nat.add_succ_r. apply Hl. Qed.

Lemma chain_tc l n : chain l → ∀ i a b, l !! i = Some a → l !! (i + S n) = Some b → tc needs a b.
Proof.
  intros Hl. induction n as [|n IH]; intros i a b Ha Hb.
  - apply tc_once. apply (Hl i); [done|]. by rewrite Nat.add_1_r in Hb.
  - destruct (l !! S i) as [c|] eqn:Hc.
    + apply tc_l with c; [by apply (Hl i)|]. apply (IH (S i)); [done|].
      by replace (S i + S n) with (i + S (S n)) by lia.
    + apply lookup_ge_None in Hc. apply lookup_lt_Some in Hb. lia.
Qed.

(** A name met again closes a chain. *)
Lemma chain_cycle l a : chain (l ++ [a]) → a ∈ l → tc needs a a.
Proof.
  intros Hl [i Hi]%list_elem_of_lookup. pose proof (lookup_lt_Some _ _ _ Hi).
  apply (chain_tc _ (length l - S i) Hl i).
  - by rewrite lookup_app_l.
  - replace (i + S (length l - S i)) with (length l) by lia. by rewrite lookup_app_r, Nat.sub_diag.
Qed.

Lemma acyclic_NoDup l : acyclic → chain l → NoDup l.
Proof.
  intros Ha Hl. apply NoDup_alt. intros i j a Hi Hj. destruct (Nat.lt_trichotomy i j) as [Hlt|[->|Hlt]]; [|done|].
  - exfalso. apply (Ha a). apply (chain_tc _ (j - S i) Hl i); [done|]. by replace (i + S (j - S i)) with j by lia.
  - exfalso. apply (Ha a). apply (chain_tc _ (i - S j) Hl j); [done|]. by replace (j + S (i - S j)) with i by lia.
Qed.

(** A list of names of the set without repetition is no longer than the set. *)
Lemma known_length l : NoDup l → Forall (λ a, a ∈ dom (by_name s)) l → length l ≤ size (by_name s).
Proof.
  intros Hn Hl. rewrite <- size_dom, <- (size_list_to_set (C := gset (list byte)) l) by done.
  apply subseteq_size. intros a Ha%elem_of_list_to_set. rewrite Forall_forall in Hl. by apply Hl.
Qed.

Definition cyclic (c : list (list byte)) : Prop := ∃ a mid, c = a :: mid ++ [a] ∧ chain c.

Lemma cyclic_tc c : cyclic c → ∃ a, tc needs a a.
Proof.
  intros (a & mid & -> & Hc). exists a. apply (chain_cycle (a :: mid)); [done|]. by left.
Qed.

Definition settled (done : gset (list byte)) : Prop := ∀ a, a ∈ done → Acc (λ b a, needs a b) a.

Definition visited (targets : list (list byte)) (done : gset (list byte))
    (r : option (result (gset (list byte)) SkillError)) : Prop :=
  (∃ done', r = Some (Ok done') ∧ done ⊆ done' ∧ (∀ a, a ∈ targets → a ∈ done') ∧ settled done') ∨
  (∃ c, r = Some (Err (Cycle (arrow_join c))) ∧ cyclic c).

Lemma walk_visited f targets : ∀ done, settled done →
  (∀ a done, a ∈ targets → settled done → visited [a] done (f a done)) →
  visited targets done (walk_all f targets done).
Proof.
  induction targets as [|a targets IH]; intros done Hd Hf; cbn [walk_all].
  { left. exists done. split; [done|]. split; [done|]. split; [set_solver|done]. }
  destruct (Hf a done) as [(done' & -> & Hsub & Hin & Hd')|(c & -> & Hc)]; [by left|done|..].
  - destruct (IH done' Hd') as [(done'' & -> & Hsub' & Hin' & Hd'')|(c & -> & Hc)].
    + intros b d Hb. apply Hf. by right.
    + left. exists done''. split; [done|]. split; [set_solver|]. split; [|done]. set_solver.
    + right. by exists c.
  - right. by exists c.
Qed.

Lemma visit_visited fuel : ∀ visiting name done, closed →
  name ∈ dom (by_name s) → chain (visiting ++ [name]) → Forall (λ a, a ∈ dom (by_name s)) visiting → NoDup visiting →
  size (by_name s) < length visiting + fuel → settled done →
  visited [name] done (visit s fuel visiting name done).
Proof.
  induction fuel as [|fuel IH]; intros visiting name done Hc Hname Hchain Hk Hn Hfuel Hd; cbn [visit].
  { pose proof (known_length visiting Hn Hk). lia. }
  case_bool_decide as Hin.
  { left. exists done. split; [done|]. split; [done|]. split; [set_solver|done]. }
  destruct (position name visiting) as [i|] eqn:E.
  - right. eexists. split; [done|]. apply position_Some in E. exists name, (drop (S i) visiting).
    pose proof (drop_S _ _ _ E) as Hdrop. split; [by rewrite Hdrop|].
    replace (drop i visiting ++ [name]) with (drop i (visiting ++ [name])); [by apply chain_drop|].
    rewrite drop_app_le; [done|]. apply lookup_lt_Some in E. lia.
  - apply position_None in E. apply elem_of_dom in Hname as [sk Hsk]. rewrite Hsk.
    change (default [] (Skill.requires <$> Some sk)) with (Skill.requires sk).
    assert (Hreq : ∀ a, a ∈ Skill.requires sk ↔ needs name a)
      by (intros a; split; [intros; by exists sk|intros (sk' & ? & ?); by simplify_eq]).
    destruct (walk_visited (visit s fuel (visiting ++ [name])) (Skill.requires sk) done Hd)
      as [(done' & -> & Hsub & Hin' & Hd')|(c & -> & Hcyc)].
    + intros a d Ha Hd'. apply Hreq in Ha. apply IH; [done|by apply (Hc name)|by apply chain_snoc|..|done].
      * apply Forall_app. split; [done|]. apply Forall_singleton. apply elem_of_dom. by exists sk.
      * apply NoDup_app. split; [done|]. split; [set_solver|apply NoDup_singleton].
      * rewrite length_app; cbn. lia.
    + left. eexists. split; [done|]. split; [set_solver|]. split; [set_solver|].
      intros a [->%elem_of_singleton|Ha]%elem_of_union; [|by apply Hd'].
      constructor. intros b Hb. apply Hd', Hin', Hreq, Hb.
    + right. by exists c.
Qed.

Lemma settled_acyclic done a : settled done → a ∈ done → ¬ tc needs a a.
Proof.
  intros Hd Ha%Hd. clear Hd. induction Ha as [a _ IH]. intros Htc.
  inversion Htc as [x y Hxy|x y z Hxy Hyz]; subst; [by apply (IH a Hxy)|].
  apply (IH y Hxy). eapply tc_r; [exact Hyz|exact Hxy].
Qed.
End resolution.

Lemma key_order_elem {V} (m : gmap (list byte) V) k v : (k, v) ∈ key_order m ↔ m !! k = Some v.
Proof. unfold key_order. by rewrite merge_sort_Permutation, elem_of_map_to_list. Qed.

Lemma names_elem s a : a ∈ names s ↔ a ∈ dom (by_name s).
Proof.
  unfold names. rewrite list_elem_of_fmap, elem_of_dom. split.
  - intros ([k v] & -> & H%key_order_elem). by exists v.
  - intros [v Hv]. exists (a, v). by rewrite key_order_elem.
Qed.

Lemma set_elem s sk : sk ∈ all s ↔ ∃ a, by_name s !! a = Some sk.
Proof.
  unfold all. rewrite list_elem_of_fmap. split.
  - intros ([k v] & -> & H%key_order_elem). by exists k.
  - intros [a Ha]. exists (a, sk). by rewrite key_order_elem.
Qed.

Lemma unknown_Some s sk e : unknown s sk = Some e →
  ∃ b, e = UnknownDependency (Skill.name sk) b ∧ b ∈ Skill.requires sk ∧ b ∉ dom (by_name s).
Proof.
  unfold unknown. intros (b & Hb & ->)%fmap_Some. exists b. split; [done|]. apply find_some in Hb as [Hin Hb].
  apply list_elem_of_In in Hin. to_prop. by rewrite elem_of_dom.
Qed.

Lemma unknown_None s sk : unknown s sk = None → ∀ b, b ∈ Skill.requires sk → b ∈ dom (by_name s).
Proof.
  unfold unknown. intros H%fmap_None b Hb%list_elem_of_In. apply (find_none _ _ H) in Hb. to_prop. by apply elem_of_dom.
Qed.

Definition refused_by (s : Skills) (e : SkillError) : Prop :=
  (∃ k sk b, by_name s !! k = Some sk ∧ e = UnknownDependency (Skill.name sk) b ∧
             b ∈ Skill.requires sk ∧ b ∉ dom (by_name s)) ∨
  (closed s ∧ ∃ c, e = Cycle (arrow_join c) ∧ cyclic s c).

Lemma resolve_outcome s :
  match resolve_dependencies s with
  | Some (Ok _) => closed s ∧ acyclic s
  | Some (Err e) => refused_by s e
  | None => False
  end.
Proof.
  unfold resolve_dependencies. destruct (omap (unknown s) (all s)) as [|e es] eqn:E; cbn [head].
  - assert (Hc : closed s).
    { intros a b (sk & Hsk & Hb). apply (unknown_None s sk); [|done].
      destruct (unknown s sk) as [e|] eqn:Hu; [|done]. exfalso.
      assert (e ∈ omap (unknown s) (all s)) as Hin; [|rewrite E in Hin; by apply not_elem_of_nil in Hin].
      apply list_elem_of_omap. exists sk. split; [|done]. apply set_elem. by exists a. }
    destruct (walk_visited s (visit s (depth s) []) (names s) ∅) as [(done & -> & _ & Hin & Hd)|(c & -> & Hcyc)].
    { intros a Ha. by apply not_elem_of_empty in Ha. }
    { intros a done Ha Hd. apply visit_visited; [done|by apply names_elem|apply chain_one|constructor|constructor|cbn; unfold depth; lia|done]. }
    + split; [done|]. intros a Htc. assert (a ∈ dom (by_name s)) as Ha.
      { apply elem_of_dom. inversion Htc as [? ? (sk & ? & _)|? ? ? (sk & ? & _)]; by exists sk. }
      apply names_elem, Hin in Ha. by apply (settled_acyclic s done a).
    + right. split; [done|]. by exists c.
  - assert (e ∈ omap (unknown s) (all s)) as Hin by (rewrite E; by left).
    apply list_elem_of_omap in Hin as (sk & [k Hk]%set_elem & (b & -> & Hb & Hn)%unknown_Some).
    left. by exists k, sk, b.
Qed.

Lemma resolve_Ok s : resolve_dependencies s = Some (Ok tt) ↔ closed s ∧ acyclic s.
Proof.
  pose proof (resolve_outcome s) as H. destruct (resolve_dependencies s) as [[[]|e]|]; [|split; [done|]|done].
  - done.
  - intros [Hc Ha]. exfalso. destruct H as [(k & sk & b & Hk & _ & Hb & Hn)|(_ & c & _ & Hcyc)].
    + apply Hn, (Hc k). by exists sk.
    + apply cyclic_tc in Hcyc as [a Htc]. by apply (Ha a).
Qed.

(** C30. Resolution always ends.  It accepts a set exactly when every required name is of
    the set and no skill comes to require itself; it refuses with a name that is required
    and missing or, when none is, with a chain of requirements that ends where it starts. *)
Theorem requirements_exact s :
  (∃ r, resolve_dependencies s = Some r) ∧
  (resolve_dependencies s = Some (Ok tt) ↔ closed s ∧ acyclic s) ∧
  (∀ e, resolve_dependencies s = Some (Err e) → refused_by s e).
Proof.
  pose proof (resolve_outcome s) as H. split; [|split; [apply resolve_Ok|]].
  - destruct (resolve_dependencies s) as [r|]; [by exists r|done].
  - intros e He. by rewrite He in H.
Qed.

(** ** The order of the skills *)

Section order.
Context (s : Skills) (Hclosed : closed s) (Hacyclic : acyclic s).
Context (Hnames : ∀ a sk, by_name s !! a = Some sk → Skill.name sk = a).

Definition ordered (order : list Skill.t) : Prop :=
  ∀ i sk b, order !! i = Some sk → b ∈ Skill.requires sk →
    ∃ j sk', j < i ∧ order !! j = Some sk' ∧ Skill.name sk' = b.

Record accumulated (acc : list Skill.t * gset (list byte)) : Prop := {
  acc_done : ∀ a, a ∈ acc.2 ↔ ∃ sk, sk ∈ acc.1 ∧ Skill.name sk = a;
  acc_known : ∀ sk, sk ∈ acc.1 → by_name s !! Skill.name sk = Some sk;
  acc_NoDup : NoDup acc.1;
  acc_ordered : ordered acc.1 }.

Definition pushed (targets : list (list byte)) (acc : list Skill.t * gset (list byte))
    (r : option (list Skill.t * gset (list byte))) : Prop :=
  ∃ acc', r = Some acc' ∧ accumulated acc' ∧ acc.2 ⊆ acc'.2 ∧ (∀ a, a ∈ targets → a ∈ acc'.2) ∧
  (∀ a, a ∈ acc'.2 → a ∈ acc.2 ∨ ∃ t, t ∈ targets ∧ rtc (needs s) t a).

Lemma each_pushed f targets : ∀ acc, accumulated acc →
  (∀ a acc, a ∈ targets → accumulated acc → pushed [a] acc (f a acc)) →
  pushed targets acc (foldl (λ acc a, acc ← acc; f a acc) (Some acc) targets).
Proof.
  induction targets as [|a targets IH]; intros acc Hacc Hf; cbn [foldl].
  { exists acc. split; [done|]. split; [done|]. split; [done|]. split; [set_solver|by left]. }
  destruct (Hf a acc) as (acc' & E & Hacc' & Hsub & Hin & Hnew); [by left|done|]. cbn [mbind option_bind]. rewrite E.
  destruct (IH acc' Hacc') as (acc'' & -> & Hacc'' & Hsub' & Hin' & Hnew').
  { intros b d Hb. apply Hf. by right. }
  exists acc''. split; [done|]. split; [done|]. split; [set_solver|]. split; [set_solver|].
  intros b [Hb|(t & Ht & Hr)]%Hnew'; [apply Hnew in Hb as [Hb|(t & Ht%list_elem_of_singleton & Hr)]|].
  - by left.
  - right. exists a. subst t. split; [by left|done].
  - right. exists t. split; [by right|done].
Qed.

Lemma ordered_snoc order sk : ordered order →
  (∀ b, b ∈ Skill.requires sk → ∃ sk', sk' ∈ order ∧ Skill.name sk' = b) → ordered (order ++ [sk]).
Proof.
  intros Ho Hsk i x b Hi Hb. destruct (decide (i < length order)) as [Hlt|Hge].
  - rewrite lookup_app_l in Hi by done. destruct (Ho i x b Hi Hb) as (j & sk' & Hj & Hl & ?).
    exists j, sk'. split; [done|]. split; [|done]. rewrite lookup_app_l; [done|lia].
  - rewrite lookup_app_r in Hi by lia. apply list_lookup_singleton_Some in Hi as [Hi <-].
    destruct (Hsk b Hb) as (sk' & [j Hj]%list_elem_of_lookup & ?). pose proof (lookup_lt_Some _ _ _ Hj).
    exists j, sk'. split; [lia|]. split; [|done]. by rewrite lookup_app_l.
Qed.

Lemma push_order_pushed fuel : ∀ path name acc, name ∈ dom (by_name s) → chain s (path ++ [name]) →
  Forall (λ a, a ∈ dom (by_name s)) path → size (by_name s) < length path + fuel →
  accumulated acc → pushed [name] acc (push_order s fuel name acc).
Proof.
  induction fuel as [|fuel IH]; intros path name acc Hname Hchain Hk Hfuel Hacc; cbn [push_order].
  { pose proof (known_length s path) as Hl. pose proof (acyclic_NoDup s _ Hacyclic Hchain) as Hn.
    apply NoDup_app in Hn as [Hn _]. specialize (Hl Hn Hk). lia. }
  case_bool_decide as Hin.
  { exists acc. split; [done|]. split; [done|]. split; [done|]. split; [set_solver|by left]. }
  apply elem_of_dom in Hname as [sk Hsk]. rewrite Hsk.
  assert (Hreq : ∀ a, a ∈ Skill.requires sk → needs s name a) by (intros a Ha; by exists sk).
  destruct (each_pushed (push_order s fuel) (Skill.requires sk) acc Hacc) as (acc' & -> & Hacc' & Hsub & Hin' & Hnew).
  { intros a d Ha Hd. apply (IH (path ++ [name])); [by apply (Hclosed name), Hreq|by apply chain_snoc, Hreq|..|done].
    - apply Forall_app. split; [done|]. apply Forall_singleton, elem_of_dom. by exists sk.
    - rewrite length_app; cbn. lia. }
  cbn [mbind option_bind]. eexists. split; [done|]. pose proof (Hnames _ _ Hsk) as Hskn.
  assert (Hfresh : name ∉ acc'.2).
  { intros [Hbad|(t & Ht%Hreq & Hr)]%Hnew; [done|]. apply (Hacyclic name). by apply (tc_rtc_r _ t); [apply tc_once|]. }
  split; [|split; [set_solver|split; [set_solver|]]].
  split; cbn [fst snd].
  - intros a. rewrite elem_of_union, elem_of_singleton, (acc_done _ Hacc'). setoid_rewrite elem_of_app.
    setoid_rewrite list_elem_of_singleton. naive_solver.
  - intros x [Hx| ->%list_elem_of_singleton]%elem_of_app; [by apply (acc_known _ Hacc')|by rewrite Hskn].
  - apply NoDup_app. split; [apply (acc_NoDup _ Hacc')|]. split; [|apply NoDup_singleton].
    intros x Hx ->%list_elem_of_singleton. apply Hfresh, (acc_done _ Hacc'). by exists sk.
  - apply ordered_snoc; [apply (acc_ordered _ Hacc')|]. intros b Hb. apply (acc_done _ Hacc'), Hin', Hb.
  - intros a. cbn [snd]. intros [->%elem_of_singleton|[Ha|(t & Ht%Hreq & Hr)]%Hnew]%elem_of_union; [|by left|]; right; exists name.
    + split; [by left|done].
    + split; [by left|]. by apply (rtc_l _ _ t).
Qed.
End order.

Lemma names_NoDup s : NoDup (names s).
Proof. unfold names, key_order. rewrite merge_sort_Permutation. apply NoDup_fst_map_to_list. Qed.

Lemma all_NoDup s : (∀ a sk, by_name s !! a = Some sk → Skill.name sk = a) → NoDup (all s).
Proof.
  intros Hn. apply (NoDup_fmap_1 Skill.name). replace (Skill.name <$> all s) with (names s); [apply names_NoDup|].
  unfold all, names. rewrite <- list_fmap_compose. apply list_fmap_ext.
  intros i [a sk] Hi. cbn. symmetry. apply Hn, key_order_elem. by apply list_elem_of_lookup_2 in Hi.
Qed.

(** When a set resolves, its order exists: each skill of the set is in it once, behind
    all it requires. *)
Theorem load_order_exact s :
  resolve_dependencies s = Some (Ok tt) → (∀ a sk, by_name s !! a = Some sk → Skill.name sk = a) →
  ∃ order, topological s = Some order ∧ order ≡ₚ all s ∧
    ∀ i sk b, order !! i = Some sk → b ∈ Skill.requires sk →
      ∃ j sk', j < i ∧ order !! j = Some sk' ∧ Skill.name sk' = b.
Proof.
  intros [Hc Ha]%resolve_Ok Hn. unfold topological.
  destruct (each_pushed s Hc Ha Hn (push_order s (depth s)) (names s) ([], ∅)) as (acc & -> & Hacc & _ & Hin & _).
  - split; cbn; [set_solver|set_solver|constructor|]. intros [|i]; done.
  - intros a acc Hname Hacc. apply (push_order_pushed s Hc Ha Hn _ []); [by apply names_elem|apply chain_one|constructor| |done].
    cbn. unfold depth. lia.
  - cbn [mbind option_bind]. eexists. split; [done|]. split; [|by apply (acc_ordered _ _ Hacc)].
    apply NoDup_Permutation; [apply (acc_NoDup _ _ Hacc)|..].
    + by apply all_NoDup.
    + intros sk. rewrite set_elem. split.
      * intros Hsk. exists (Skill.name sk). by apply (acc_known _ _ Hacc).
      * intros [a Hsk]. destruct (proj1 (acc_done _ _ Hacc a)) as (sk' & Hin' & Ha').
        { apply Hin, names_elem, elem_of_dom. by exists sk. }
        apply (acc_known _ _ Hacc) in Hin' as Hsk'. rewrite Ha', Hsk in Hsk'. by injection Hsk' as <-.
Qed.

(** ** Files and skills

    What the set stands for: for each file in use, the skill last read from it. *)

Definition represents (s : Skills) (m : gmap string Skill.t) : Prop :=
  (∀ n p, sources s !! n = Some p ↔ ∃ sk, m !! p = Some sk ∧ Skill.name sk = n) ∧
  (∀ n sk, by_name s !! n = Some sk ↔ ∃ p, m !! p = Some sk ∧ Skill.name sk = n).

Lemma represents_name s m a sk : represents s m → by_name s !! a = Some sk → Skill.name sk = a.
Proof. intros [_ Hb] (p & _ & ?)%Hb. done. Qed.

Lemma represents_path s m p q sk sk' : represents s m → m !! p = Some sk → m !! q = Some sk' →
  Skill.name sk = Skill.name sk' → p = q.
Proof.
  intros [Hs _] Hp Hq Hn. assert (sources s !! Skill.name sk = Some p) as H by (apply Hs; by exists sk).
  assert (sources s !! Skill.name sk = Some q) as H' by (apply Hs; by exists sk'). congruence.
Qed.

Lemma represents_empty : represents no_skills ∅.
Proof.
  split; intros n x; cbn; rewrite lookup_empty; split; try done; intros (? & H & _); by rewrite lookup_empty in H.
Qed.

Lemma source_name_Some path s n : source_name path s = Some n → sources s !! n = Some path.
Proof.
  unfold source_name. intros ([k v] & [Hin Hv]%find_some & ->)%fmap_Some. cbn in Hv. to_prop. subst v.
  by apply list_elem_of_In, key_order_elem in Hin.
Qed.

Lemma source_name_None path s n : source_name path s = None → sources s !! n ≠ Some path.
Proof.
  unfold source_name. intros H%fmap_None Hn. apply key_order_elem, list_elem_of_In in Hn.
  apply (find_none _ _ H) in Hn. cbn in Hn. to_prop. done.
Qed.

Lemma drop_represents s m path : represents s m → represents (drop_name (source_name path s) s) (base.delete path m).
Proof.
  intros Hr. destruct (source_name path s) as [n|] eqn:E; cbn [drop_name].
  - apply source_name_Some in E. pose proof Hr as [Hs Hb]. apply Hs in E as (sk & Hsk & Hn).
    split; intros k x; cbn [sources by_name]; rewrite lookup_delete_Some, ?Hs, ?Hb; setoid_rewrite lookup_delete_Some.
    + split.
      * intros (Hne & sk' & Hx & <-). exists sk'. split; [split; [|done]|done]. intros ->. apply Hne. congruence.
      * intros (sk' & (Hne & Hx) & <-). split; [|by exists sk']. intros Heq. apply Hne.
        apply (represents_path s m path x sk sk'); [done..|congruence].
    + split.
      * intros (Hne & p & Hx & <-). exists p. split; [split; [|done]|done]. intros ->. apply Hne. congruence.
      * intros (p & (Hne & Hx) & <-). split; [|by exists p]. intros Heq. apply Hne.
        apply (represents_path s m path p sk x); [done..|congruence].
  - rewrite delete_id; [done|]. destruct (m !! path) as [sk|] eqn:Hsk; [|done]. exfalso.
    apply (source_name_None path s (Skill.name sk) E), Hr. by exists sk.
Qed.

(** A skill of a file not in use can be added exactly when no other file claims its name. *)
Lemma add_represents s m path sk : represents s m → m !! path = None →
  match add path sk s with
  | Ok s' => (∀ q other, m !! q = Some other → Skill.name other ≠ Skill.name sk) ∧ represents s' (<[path := sk]> m) ∧
             sources s' !! Skill.name sk = Some path ∧
             (∀ n, n ≠ Skill.name sk → by_name s' !! n = by_name s !! n)
  | Err _ => ∃ q other, m !! q = Some other ∧ q ≠ path ∧ Skill.name other = Skill.name sk
  end.
Proof.
  intros [Hs Hb] Hp. unfold add. destruct (sources s !! Skill.name sk) as [q|] eqn:E.
  { apply Hs in E as (other & Hq & Hn). exists q, other. split; [done|]. split; [|done]. intros ->. congruence. }
  assert (Hfree : ∀ q other, m !! q = Some other → Skill.name other ≠ Skill.name sk).
  { intros q other Hq Hn. assert (sources s !! Skill.name sk = Some q) as H by (apply Hs; by exists other). congruence. }
  split; [done|]. split; [|split; [apply lookup_insert_eq|intros n Hn; cbn; by rewrite lookup_insert_ne]].
  split; intros n x; cbn [sources by_name]; rewrite lookup_insert_Some, ?Hs, ?Hb; setoid_rewrite lookup_insert_Some.
  - split.
    + intros [[<- <-]|(Hne & sk' & Hx & <-)]; [exists sk; by split; [left|]|]. exists sk'. split; [right|done].
      split; [|done]. intros ->. congruence.
    + intros (sk' & [[<- <-]|[Hne Hx]] & <-); [by left|right]. split; [|by exists sk']. intros Hn. by apply (Hfree x sk').
  - split.
    + intros [[<- <-]|(Hne & p & Hx & <-)]; [exists path; by split; [left|]|]. exists p. split; [right|done].
      split; [|done]. intros ->. congruence.
    + intros (p & [[<- <-]|[Hne Hx]] & <-); [by left|right]. split; [|by exists p]. intros Hn. by apply (Hfree p x).
Qed.

Lemma source_name_exact s m path n : represents s m → sources s !! n = Some path → source_name path s = Some n.
Proof.
  intros Hr Hn. destruct (source_name path s) as [k|] eqn:E; [|by apply source_name_None with (n := n) in E].
  apply source_name_Some in E. apply Hr in E as (sk & Hsk & <-), Hn as (sk' & Hsk' & <-). congruence.
Qed.

(** The effect of an event's paths, one after the other, on the files in use; it has none
    when a file does not parse or claims a name in use. *)
Inductive took (read : string → option (list byte)) (k : EventKind) :
    list string → gmap string Skill.t → gmap string Skill.t → Prop :=
| took_nil m : took read k [] m m
| took_skip path ps m m' :
    file_name path ≠ Some SKILL_MD ∨ k = Other → took read k ps m m' → took read k (path :: ps) m m'
| took_remove path ps m m' :
    file_name path = Some SKILL_MD → k = Remove →
    took read k ps (base.delete path m) m' → took read k (path :: ps) m m'
| took_read path ps m m' sk :
    file_name path = Some SKILL_MD → k = Create ∨ k = Modify → parse read path = Ok sk →
    (∀ q other, m !! q = Some other → q ≠ path → Skill.name other ≠ Skill.name sk) →
    took read k ps (<[path := sk]> m) m' → took read k (path :: ps) m m'.

Lemma took_cons read k path ps m m' : took read k (path :: ps) m m' →
  ((file_name path ≠ Some SKILL_MD ∨ k = Other) ∧ took read k ps m m') ∨
  (file_name path = Some SKILL_MD ∧ k = Remove ∧ took read k ps (base.delete path m) m') ∨
  (∃ sk, file_name path = Some SKILL_MD ∧ (k = Create ∨ k = Modify) ∧ parse read path = Ok sk ∧
     (∀ q other, m !! q = Some other → q ≠ path → Skill.name other ≠ Skill.name sk) ∧
     took read k ps (<[path := sk]> m) m').
Proof. inversion 1; subst; [by left|right; by left|right; right; eauto 10]. Qed.

Ltac absurd_kind := exfalso; destruct_or!; congruence.

Lemma drop_by_name name s n : by_name (drop_name name s) !! n ≠ by_name s !! n → name = Some n.
Proof.
  destruct name as [k|]; cbn; [|done]. intros H. destruct (decide (k = n)) as [->|Hn]; [done|].
  by rewrite lookup_delete_ne in H.
Qed.

Definition told (read : string → option (list byte)) (k : EventKind) (ps : list string) (m : gmap string Skill.t) (s : Skills) (changed : gset (list byte))
    (r : result (Skills * gset (list byte)) SkillError) : Prop :=
  match r with
  | Ok (s', changed') =>
      (∃ m', took read k ps m m' ∧ represents s' m') ∧ changed ⊆ changed' ∧
      (∀ n, by_name s' !! n ≠ by_name s !! n → n ∈ changed')
  | Err _ => ∀ m', ¬ took read k ps m m'
  end.

Lemma event_read read k path ps m s changed sk :
  file_name path = Some SKILL_MD → k = Create ∨ k = Modify → parse read path = Ok sk → represents s m →
  (∀ m s changed, represents s m → told read k ps m s changed (event_paths read k ps s changed)) →
  told read k (path :: ps) m s changed
    (let? s' := add path sk (drop_name (source_name path s) s) in
     event_paths read k ps s' (note (Some (default [] (source_name path s'))) (note (source_name path s) changed))).
Proof.
  intros Hf Hk Hp Hr IH. pose proof (drop_represents s m path Hr) as Hd.
  pose proof (add_represents _ _ path sk Hd (lookup_delete_eq _ _)) as Ha.
  destruct (add path sk (drop_name (source_name path s) s)) as [s'|e]; cbn [result_bind].
  - destruct Ha as (Hfree & Hr' & Hsrc & Hother). rewrite insert_delete_eq in Hr'.
    rewrite (source_name_exact _ _ _ _ Hr' Hsrc). cbn [default note].
    specialize (IH _ _ ({[Skill.name sk]} ∪ note (source_name path s) changed) Hr').
    destruct (event_paths _ _ ps s' _) as [[s'' changed']|e].
    + destruct IH as ((m' & Ht & Hrep) & Hsub & Hchg). split; [|split].
      * exists m'. split; [|done]. apply took_read with sk; [done..| |done].
        intros q other Hq Hne. apply (Hfree q). by rewrite lookup_delete_ne.
      * unfold note in Hsub. destruct (source_name path s); set_solver.
      * intros n Hn. destruct (decide (by_name s'' !! n = by_name s' !! n)) as [E|E]; [|by apply Hchg].
        rewrite E in Hn. destruct (decide (n = Skill.name sk)) as [->|Hne]; [set_solver|].
        rewrite (Hother n Hne) in Hn. apply drop_by_name in Hn. rewrite Hn in Hsub. cbn in Hsub. set_solver.
    + intros m' [[? _]|[(_ & -> & _)|(sk' & _ & _ & Hp' & _ & Ht)]]%took_cons; [absurd_kind..|].
      rewrite Hp in Hp'. injection Hp' as <-. exact (IH m' Ht).
  - destruct Ha as (q & other & Hq & Hne & Hn). rewrite lookup_delete_ne in Hq by done.
    intros m' [[? _]|[(_ & -> & _)|(sk' & _ & _ & Hp' & Hfree & _)]]%took_cons; [absurd_kind..|].
    rewrite Hp in Hp'. injection Hp' as <-. exact (Hfree q other Hq Hne Hn).
Qed.

Lemma event_paths_told read k ps : ∀ m s changed, represents s m →
  told read k ps m s changed (event_paths read k ps s changed).
Proof.
  induction ps as [|path ps IH]; intros m s changed Hr; cbn [event_paths].
  { split; [exists m; split; [constructor|done]|]. split; [done|]. intros n Hn. done. }
  assert (Hskip : file_name path ≠ Some SKILL_MD ∨ k = Other →
    told read k (path :: ps) m s changed (event_paths read k ps s changed)).
  { intros Hs. specialize (IH m s changed Hr). destruct (event_paths read k ps s changed) as [[s' changed']|e].
    - destruct IH as ((m' & Ht & Hrep) & Hrest). split; [|done]. exists m'. split; [by apply took_skip|done].
    - intros m' [[_ Ht]|[(? & -> & _)|(sk' & ? & ? & _)]]%took_cons; [by apply (IH m')|absurd_kind..]. }
  case_bool_decide as Hf; cbn [negb]; [|apply Hskip; by left].
  assert (Hread : k = Create ∨ k = Modify →
    told read k (path :: ps) m s changed
      (let? reloaded := parse read path in
       let? s' := add path reloaded (drop_name (source_name path s) s) in
       event_paths read k ps s' (note (Some (default [] (source_name path s'))) (note (source_name path s) changed)))).
  { intros Hk. destruct (parse read path) as [sk|e] eqn:Hp; cbn [result_bind]; [by apply event_read|].
    intros m' [[? _]|[(_ & -> & _)|(sk' & _ & _ & Hp' & _)]]%took_cons; absurd_kind. }
  destruct k; [|apply Hread; auto..|apply Hskip; by right].
  specialize (IH _ _ (note (source_name path s) changed) (drop_represents s m path Hr)).
  destruct (event_paths read Remove ps _ _) as [[s' changed']|e].
  - destruct IH as ((m' & Ht & Hrep) & Hsub & Hchg). split; [|split].
    + exists m'. split; [by apply took_remove|done].
    + unfold note in Hsub. destruct (source_name path s); set_solver.
    + intros n Hn. destruct (decide (by_name s' !! n = by_name (drop_name (source_name path s) s) !! n)) as [E|E]; [|by apply Hchg].
      rewrite E in Hn. apply drop_by_name in Hn. rewrite Hn in Hsub. cbn in Hsub. set_solver.
  - intros m' [[? _]|[(_ & _ & Ht)|(sk' & _ & ? & _)]]%took_cons; [absurd_kind|by apply (IH m')|absurd_kind].
Qed.

Definition file_needs (m : gmap string Skill.t) (a b : list byte) : Prop :=
  ∃ p sk, m !! p = Some sk ∧ Skill.name sk = a ∧ b ∈ Skill.requires sk.

(** Every required name is that of a file in use, and none comes to require itself. *)
Definition sound (m : gmap string Skill.t) : Prop :=
  (∀ a b, file_needs m a b → ∃ p sk, m !! p = Some sk ∧ Skill.name sk = b) ∧
  (∀ a, ¬ tc (file_needs m) a a).

Lemma represents_needs s m a b : represents s m → needs s a b ↔ file_needs m a b.
Proof.
  intros [_ Hb]. unfold needs, file_needs. split.
  - intros (sk & (p & Hp & Hn)%Hb & Hin). by exists p, sk.
  - intros (p & sk & Hp & Hn & Hin). exists sk. split; [|done]. apply Hb. by exists p.
Qed.

Lemma represents_sound s m : represents s m → closed s ∧ acyclic s ↔ sound m.
Proof.
  intros Hr. assert (Hdom : ∀ b, b ∈ dom (by_name s) ↔ ∃ p sk, m !! p = Some sk ∧ Skill.name sk = b).
  { intros b. destruct Hr as [_ Hb]. rewrite elem_of_dom. unfold is_Some. setoid_rewrite Hb. naive_solver. }
  unfold closed, acyclic, sound. split.
  - intros [Hc Ha]. split.
    + intros a b Hab. by apply Hdom, (Hc a), (represents_needs s m).
    + intros a Htc. apply (Ha a).
      refine (tc_congruence (λ x, x) (R := file_needs m) _ _ _ _ Htc). intros x y Hxy. by apply (represents_needs s m).
  - intros [Hc Ha]. split.
    + intros a b Hab. by apply Hdom, (Hc a), (represents_needs s m).
    + intros a Htc. apply (Ha a).
      refine (tc_congruence (λ x, x) (R := needs s) _ _ _ _ Htc). intros x y Hxy. by apply (represents_needs s m).
Qed.

(** An event with what the files read as when it is handled. *)
Abbreviation occurrence := ((string → option (list byte)) * Event)%type.

Definition accepts (o : occurrence) (m m' : gmap string Skill.t) : Prop :=
  took o.1 (kind o.2) (paths o.2) m m' ∧ sound m'.

(** What becomes of the files in use over some events, and which were accepted. *)
Inductive follows : gmap string Skill.t → list occurrence → list bool → gmap string Skill.t → Prop :=
| follows_nil m : follows m [] [] m
| follows_accepted m o os flags m' m'' :
    accepts o m m' → follows m' os flags m'' → follows m (o :: os) (true :: flags) m''
| follows_refused m o os flags m' :
    (∀ m', ¬ accepts o m m') → follows m os flags m' → follows m (o :: os) (false :: flags) m'.

(** A session: the events in turn. *)
Fixpoint session (os : list occurrence) (s : Skills) : option (Skills * list bool) :=
  match os with
  | [] => Some (s, [])
  | o :: os =>
      r ← apply_event o.1 o.2 s;
      rest ← session os r.1;
      Some (rest.1, is_ok r.2 :: rest.2)
  end.

Lemma took_functional read k ps : ∀ m m1 m2, took read k ps m m1 → took read k ps m m2 → m1 = m2.
Proof.
  induction ps as [|path ps IH]; intros m m1 m2.
  { inversion 1; subst. by inversion 1. }
  intros [[? H1]|[(? & ? & H1)|(sk & ? & ? & Hp & _ & H1)]]%took_cons
         [[? H2]|[(? & ? & H2)|(sk' & ? & ? & Hp' & _ & H2)]]%took_cons;
    try absurd_kind; try by apply (IH _ _ _ H1 H2).
  rewrite Hp in Hp'. injection Hp' as <-. by apply (IH _ _ _ H1 H2).
Qed.

Lemma event_refines o s m : represents s m →
  ∃ s' r, apply_event o.1 o.2 s = Some (s', r) ∧
    match r with
    | Ok changed => (∃ m', accepts o m m' ∧ represents s' m') ∧
                    (∀ n, by_name s' !! n ≠ by_name s !! n → n ∈ changed)
    | Err _ => s' = s ∧ ∀ m', ¬ accepts o m m'
    end.
Proof.
  intros Hr. unfold apply_event, apply_event_in_place.
  pose proof (event_paths_told o.1 (kind o.2) (paths o.2) m s ∅ Hr) as Ht.
  destruct (event_paths o.1 (kind o.2) (paths o.2) s ∅) as [[s' changed]|e]; cbn [mbind option_bind].
  - destruct Ht as ((m' & Ht & Hr') & _ & Hch). pose proof (resolve_outcome s') as Hres.
    destruct (resolve_dependencies s') as [[[]|e]|] eqn:E; [| |done]; cbn [mbind option_bind result_bind];
      do 2 eexists; (split; [done|]).
    + split.
      * exists m'. split; [|done]. split; [done|]. by apply (represents_sound s').
      * intros n Hn%Hch. apply list_elem_of_fmap. exists (n, tt). split; [done|]. apply key_order_elem.
        by apply lookup_gset_to_gmap_Some.
    + split; [done|]. intros m'' [Ht' Hs]. rewrite (took_functional _ _ _ _ _ _ Ht' Ht) in Hs.
      apply (represents_sound s') in Hs; [|done]. apply resolve_Ok in Hs. by rewrite E in Hs.
  - do 2 eexists. split; [done|]. split; [done|]. intros m' [Hm' _]. by apply (Ht m').
Qed.

Lemma session_follows os : ∀ s m, represents s m → sound m →
  ∃ s' flags m', session os s = Some (s', flags) ∧ follows m os flags m' ∧ represents s' m' ∧ sound m'.
Proof.
  induction os as [|o os IH]; intros s m Hr Hs; cbn [session].
  { exists s, [], m. split; [done|]. split; [constructor|done]. }
  destruct (event_refines o s m Hr) as (s1 & r & -> & Ho). cbn [mbind option_bind fst snd].
  destruct r as [changed|e]; cbn [is_ok].
  - destruct Ho as [(m1 & [Ht Hs1] & Hr1) _]. destruct (IH s1 m1 Hr1 Hs1) as (s' & flags & m' & -> & Hf & ? & ?).
    exists s', (true :: flags), m'. split; [done|]. split; [|done]. by apply (follows_accepted _ _ _ _ m1).
  - destruct Ho as [-> Hno]. destruct (IH s m Hr Hs) as (s' & flags & m' & -> & Hf & ? & ?).
    exists s', (false :: flags), m'. split; [done|]. split; [|done]. by constructor.
Qed.

Lemma load_files_represents read files : ∀ s m s', represents s m →
  (∀ p sk, m !! p = Some sk → parse read p = Ok sk) → load_files read files s = Ok s' →
  ∃ m', represents s' m' ∧ ∀ p sk, m' !! p = Some sk ↔ m !! p = Some sk ∨ (p ∈ files ∧ parse read p = Ok sk).
Proof.
  induction files as [|path files IH]; intros s m s' Hr Hm; cbn [load_files].
  { intros [= <-]. exists m. split; [done|]. intros p sk. set_solver. }
  destruct (parse read path) as [sk|e] eqn:Hp; cbn [result_bind]; [|done].
  destruct (m !! path) as [old|] eqn:Hold.
  { apply Hm in Hold as Hp'. rewrite Hp in Hp'. injection Hp' as <-. unfold add.
    rewrite (proj2 (proj1 Hr (Skill.name sk) path)); [done|]. by exists sk. }
  pose proof (add_represents s m path sk Hr Hold) as Ha. destruct (add path sk s) as [s1|e]; cbn [result_bind]; [|done].
  destruct Ha as (_ & Hr1 & _). intros Hload. assert (Hm1 : ∀ p sk', <[path := sk]> m !! p = Some sk' → parse read p = Ok sk').
  { intros p sk'. rewrite lookup_insert_Some. intros [[<- <-]|[_ Hp']]; [done|by apply Hm]. }
  destruct (IH _ _ _ Hr1 Hm1 Hload) as (m' & Hr' & Hm').
  exists m'. split; [done|]. intros p sk'. rewrite Hm', lookup_insert_Some, elem_of_cons. split.
  - intros [[[<- <-]|[_ Hin]]|[Hin Hp']]; auto.
  - intros [Hin|[[->|Hin] Hp']]; [|rewrite Hp in Hp'; injection Hp' as <-; auto|auto].
    destruct (decide (p = path)) as [->|Hne]; [congruence|auto].
Qed.

(** C23. A directory that loads, and any sequence of file events behind it: at every moment
    the set holds, for each file in use, the skill last read from it, no two under one
    name, all they require among them and none requiring itself.  An event counts exactly
    when all its files parse under names of their own and what results resolves; one that
    does not leaves everything as it was. *)
Theorem skills_follow read holds_manifest directory entries s0 (os : list occurrence) :
  load read holds_manifest directory (Some entries) = Some (Ok s0) →
  ∃ m0 s flags m,
    (∀ p sk, m0 !! p = Some sk ↔ p ∈ manifests directory holds_manifest entries ∧ parse read p = Ok sk) ∧
    sound m0 ∧ session os s0 = Some (s, flags) ∧ follows m0 os flags m ∧ represents s m ∧ sound m.
Proof.
  unfold load. destruct (load_files read _ no_skills) as [s1|e] eqn:E; [|done].
  pose proof (resolve_outcome s1) as Hres. destruct (resolve_dependencies s1) as [[[]|e]|]; cbn [mbind option_bind result_bind];
    [|done|done]. intros [= <-].
  assert (Hm : ∀ p sk, (∅ : gmap string Skill.t) !! p = Some sk → parse read p = Ok sk)
    by (intros p sk; by rewrite lookup_empty).
  destruct (load_files_represents _ _ _ _ _ represents_empty Hm E) as (m0 & Hr & Hm0).
  apply (represents_sound s1 m0 Hr) in Hres.
  destruct (session_follows os s1 m0 Hr Hres) as (s & flags & m & Hs & Hf & Hr' & Hs').
  exists m0, s, flags, m. split; [|done]. intros p sk. rewrite Hm0, lookup_empty. naive_solver.
Qed.

(** ** Writing a skill and reading it back *)

Definition field_line (field : list byte * list byte) : list byte := field.1 ++ bytes ": " ++ field.2.

Definition fields_text (fields : list (list byte * list byte)) : list byte :=
  concat ((λ f, field_line f ++ [lf]) <$> fields).

Definition page (fields : list (list byte * list byte)) (body : list byte) : list byte :=
  fence ++ [lf] ++ fields_text fields ++ fence ++ [lf] ++ body.

Fixpoint comma_join (l : list (list byte)) : list byte :=
  match l with
  | [] => []
  | [e] => e
  | e :: l => e ++ bytes ", " ++ comma_join l
  end.

Definition written (sk : Skill.t) : list byte :=
  page ([(bytes "name", Skill.name sk); (bytes "description", Skill.description sk);
         (bytes "requires", comma_join (Skill.requires sk))] ++ map_to_list (Skill.extra sk)) (Skill.body sk).

(** A text on one line that trimming leaves alone. *)
Definition plain (l : list byte) : Prop := (lf ∉ l) ∧ (cr ∉ l) ∧ trim l = l ∧ is_utf8 l = true.

Definition plain_key (k : list byte) : Prop :=
  plain k ∧ k ≠ [] ∧ head k ≠ Some "-"%char ∧ ":"%char ∉ k.

Lemma find_sub_ascii c l rest : c ∉ l → find_sub [c] (l ++ c :: rest) = Some (length l).
Proof.
  induction l as [|x l IH]; intros Hc; cbn [app find_sub starts_with].
  { by rewrite decide_True. }
  apply not_elem_of_cons in Hc as [Hx Hc]. rewrite decide_False by done. by rewrite (IH Hc).
Qed.

Lemma split_once_colon k rest : ":"%char ∉ k → split_once (bytes ":") (k ++ bytes ":" ++ rest) = Some (k, rest).
Proof.
  intros Hk. unfold split_once. change (bytes ":") with [":"%char]. cbn [app].
  rewrite (find_sub_ascii ":"%char k rest Hk). cbn [fmap option_fmap option_map]. f_equal. f_equal.
  - by rewrite take_app_length.
  - rewrite drop_app_ge by (cbn; lia). by replace (length k + length [":"%char] - length k) with 1 by (cbn; lia).
Qed.

(** The first line end with the needle behind it. *)
Lemma find_line needle line rest : lf ∉ line →
  find_sub (lf :: needle) (line ++ lf :: rest) =
  if starts_with needle rest then Some (length line) else (λ n, length line + S n) <$> find_sub (lf :: needle) rest.
Proof.
  induction line as [|x line IH]; intros Hl; cbn [app find_sub starts_with].
  { rewrite decide_True by done. by destruct (starts_with needle rest). }
  apply not_elem_of_cons in Hl as [Hx Hl]. rewrite decide_False by done. rewrite (IH Hl).
  destruct (starts_with needle rest); [done|]. by destruct (find_sub _ rest).
Qed.

Lemma trim_space v : is_utf8 v = true → trim (" "%char :: v) = trim v.
Proof.
  intros Hv%is_utf8_boundary. unfold trim.
  change (" "%char :: v) with ([" "%char] ++ v). by rewrite (chars_char [" "%char] v).
Qed.

Lemma field_not_blank k v : is_utf8 k = true → is_utf8 v = true → is_blank (field_line (k, v)) = false.
Proof.
  intros Hk Hv%is_utf8_boundary. apply not_true_iff_false. rewrite is_blank_spec. unfold field_line. cbn [fst snd].
  rewrite chars_app by done. change (bytes ": " ++ v) with ([":"%char] ++ [" "%char] ++ v).
  rewrite (chars_char [":"%char]) by done. rewrite Forall_app, Forall_cons. intros (_ & H & _). done.
Qed.

Lemma plain_line k v : plain_key k → plain v → (lf ∉ field_line (k, v)) ∧ (cr ∉ field_line (k, v)).
Proof.
  intros ((Hk1 & Hk2 & _) & _) (Hv1 & Hv2 & _). unfold field_line. cbn [fst snd].
  assert ((lf ∉ bytes ": ") ∧ (cr ∉ bytes ": ")) as [H1 H2] by (split; refine (bool_decide_unpack _ _); by vm_compute).
  set_solver.
Qed.

Lemma key_no_fence k v : plain_key k → starts_with fence (field_line (k, v)) = false.
Proof. intros (_ & Hk & Hh & _). destruct k as [|c k]; [done|]. cbn in *. rewrite decide_False; [done|]. congruence. Qed.

Lemma starts_with_line needle line rest : lf ∉ needle → starts_with needle (line ++ lf :: rest) = starts_with needle line.
Proof.
  revert line. induction needle as [|c needle IH]; intros [|x line] Hn; cbn [app starts_with]; try done.
  - apply not_elem_of_cons in Hn as [Hc _]. by rewrite decide_False.
  - apply not_elem_of_cons in Hn as [Hc Hn]. by rewrite IH.
Qed.

(** The lines of the fields, then the closing fence. *)
Fixpoint front_of (fields : list (list byte * list byte)) : list byte :=
  match fields with
  | [] => []
  | [f] => field_line f
  | f :: fields => field_line f ++ lf :: front_of fields
  end.

Definition plain_fields (fields : list (list byte * list byte)) : Prop :=
  Forall (λ f, plain_key f.1 ∧ plain f.2) fields.

Lemma front_found fields rest : fields ≠ [] → plain_fields fields → starts_with fence rest = true →
  find_sub (lf :: fence) (fields_text fields ++ rest) = Some (length (front_of fields)) ∧
  fields_text fields = front_of fields ++ [lf].
Proof.
  intros Hne Hf Hr. induction Hf as [|[k v] fields [Hk Hv] Hf IH]; [done|].
  destruct (plain_line k v Hk Hv) as [Hl _]. change (fields_text ((k, v) :: fields)) with ((field_line (k, v) ++ [lf]) ++ fields_text fields).
  rewrite <- !app_assoc. cbn [app]. rewrite (find_line fence _ _ Hl).
  destruct fields as [|[k' v'] fields].
  - change (front_of [(k, v)]) with (field_line (k, v)).
    change (fields_text [] ++ rest) with rest. by rewrite Hr.
  - destruct (IH ltac:(done)) as [IH1 IH2]. rewrite IH1, IH2.
    assert (starts_with fence (front_of ((k', v') :: fields) ++ [lf] ++ rest) = false) as E.
    { inversion Hf as [|? ? [Hk' _] _]; subst. rewrite <- (key_no_fence k' v' Hk').
      assert (∃ tl, front_of ((k', v') :: fields) ++ [lf] ++ rest = field_line (k', v') ++ lf :: tl) as [tl ->].
      { destruct fields as [|f fields]; [by exists rest|]. eexists. cbn [front_of]. by rewrite <- app_assoc. }
      apply starts_with_line. refine (bool_decide_unpack _ _); by vm_compute. }
    rewrite <- app_assoc. rewrite E. cbn [fmap option_fmap option_map]. split.
    + f_equal. change (front_of ((k, v) :: (k', v') :: fields)) with (field_line (k, v) ++ lf :: front_of ((k', v') :: fields)).
      rewrite length_app. cbn [length]. lia.
    + change (front_of ((k, v) :: (k', v') :: fields)) with (field_line (k, v) ++ lf :: front_of ((k', v') :: fields)).
      by rewrite <- app_assoc.
Qed.

Lemma split_fences_page path fields body : fields ≠ [] → plain_fields fields →
  split_fences path (page fields body) = Ok (front_of fields, body).
Proof.
  intros Hne Hf. unfold split_fences, page.
  set (after := fields_text fields ++ fence ++ [lf] ++ body).
  change (drop_while _ (fence ++ [lf] ++ after)) with (fence ++ [lf] ++ after).
  assert (opening (fence ++ [lf] ++ after) = Some after) as ->.
  { unfold opening. assert (strip_prefix (fence ++ [lf]) (fence ++ [lf] ++ after) = Some after) as ->; [|done].
    apply strip_prefix_Some. by rewrite <- app_assoc. }
  destruct (front_found fields (fence ++ [lf] ++ body) Hne Hf) as [H1 H2]; [by apply starts_with_app; eexists|].
  fold after in H1. rewrite H1. unfold after. rewrite H2.
  assert (∀ n, drop (length (front_of fields) + (length (lf :: fence) + n))
    ((front_of fields ++ [lf]) ++ fence ++ [lf] ++ body) = drop n (lf :: body)) as Hdrop.
  { intros n. rewrite <- app_assoc, drop_app_add. done. }
  pose proof (Hdrop 0) as Hd0. rewrite Nat.add_0_r in Hd0. rewrite Hd0.
  assert (position lf (drop 0 (lf :: body)) = Some 0) as -> by (cbn; by rewrite decide_True).
  cbn [default take]. rewrite bool_decide_true by done. cbn [negb andb].
  rewrite Nat.add_0_r, Hd0. do 2 f_equal.
  by rewrite <- !app_assoc, take_app_length.
Qed.

Lemma lines_front fields : fields ≠ [] → plain_fields fields → lines (front_of fields) = field_line <$> fields.
Proof.
  intros Hne Hf. unfold lines. induction Hf as [|[k v] fields [Hk Hv] Hf IH]; [done|].
  destruct (plain_line k v Hk Hv) as [Hl Hc].
  assert (Hno : Forall (λ c, bool_decide (c = lf) = false) (field_line (k, v))).
  { apply Forall_forall. intros c Hin. apply bool_decide_eq_false_2. by intros ->. }
  assert (Hstrip : strip_suffix [cr] (field_line (k, v)) = None).
  { unfold strip_suffix, ends_with. destruct (rev (field_line (k, v))) as [|c l] eqn:E; [done|].
    cbn. rewrite decide_False; [done|]. intros <-. apply Hc. rewrite <- (rev_involutive (field_line (k, v))), E.
    cbn. apply elem_of_app. right. by left. }
  destruct fields as [|f fields].
  - change (front_of [(k, v)]) with (field_line (k, v)). rewrite split_on_whole by done.
    cbn [lines_of]. rewrite bool_decide_false; [done|]. destruct Hk as (_ & Hk & _). by destruct k.
  - change (front_of ((k, v) :: f :: fields)) with (field_line (k, v) ++ lf :: front_of (f :: fields)).
    rewrite split_on_app by (done || by apply bool_decide_eq_true). rewrite fmap_cons, <- IH by done.
    cbn [lines_of]. rewrite Hstrip. cbn [default].
    destruct (split_on _ (front_of (f :: fields))) eqn:E; [|done]. by apply split_on_nonempty in E.
Qed.

(** What some fields say, the last of a key counting. *)
Definition put_field (f : Front) (field : list byte * list byte) : Front :=
  let '(key, value) := field in
  if bool_decide (key = bytes "name") then mkFront (Some value) (front_description f) (front_requires f) (front_extra f)
  else if bool_decide (key = bytes "description") then mkFront (front_name f) (Some value) (front_requires f) (front_extra f)
  else if bool_decide (key = bytes "requires") then
    mkFront (front_name f) (front_description f) (comma_list value) (front_extra f)
  else mkFront (front_name f) (front_description f) (front_requires f) (<[key := value]> (front_extra f)).

Lemma front_line_plain path k v f : plain_key k → plain v →
  (k = bytes "name" ∨ k = bytes "description" → v ≠ []) →
  front_line path (field_line (k, v)) f = Ok (put_field f (k, v)).
Proof.
  intros ((Hk1 & Hk2 & Hkt & Hku) & Hk & _ & Hcolon) (Hv1 & Hv2 & Hvt & Hvu) Hne. unfold front_line.
  rewrite field_not_blank by done.
  change (field_line (k, v)) with (k ++ bytes ":" ++ " "%char :: v). rewrite split_once_colon by done.
  rewrite Hkt, trim_space, Hvt by done. unfold put_field, nonblank.
  repeat case_bool_decide; cbn [result_bind]; try done; naive_solver.
Qed.

Lemma front_lines_plain path fields : ∀ f, plain_fields fields →
  Forall (λ kv, kv.1 = bytes "name" ∨ kv.1 = bytes "description" → kv.2 ≠ []) fields →
  front_lines path (field_line <$> fields) f = Ok (foldl put_field f fields).
Proof.
  induction fields as [|[k v] fields IH]; intros f Hf Hne; [done|].
  inversion Hf as [|? ? [Hk Hv] Hf']; inversion Hne as [|? ? Hn Hne']; subst.
  cbn [fmap list_fmap front_lines]. rewrite (front_line_plain path k v f Hk Hv Hn). cbn [result_bind foldl]. by apply IH.
Qed.

(** A text trimming leaves alone has nothing to drop at either end. *)
Lemma trim_fixed l : trim l = l ↔
  drop_while is_white (chars l) = chars l ∧ drop_while is_white (reverse (chars l)) = reverse (chars l).
Proof.
  unfold trim. split.
  - destruct (drop_while_suffix is_white (chars l)) as (pre & Hpre & _).
    set (k := drop_while is_white (chars l)) in *.
    destruct (drop_while_suffix is_white (reverse k)) as (post & Hpost & _).
    set (m := drop_while is_white (reverse k)) in *. intros Hl.
    pose proof (chars_nonempty l) as Hn. pose proof (f_equal length Hl) as Hlen. rewrite <- (concat_chars l) in Hlen.
    rewrite Hpre in Hlen, Hn. rewrite (eq_sym (reverse_involutive k)), Hpost, reverse_app in Hlen, Hn.
    rewrite !concat_app, !length_app in Hlen. apply Forall_app in Hn as [Hn1 [_ Hn2]%Forall_app].
    assert (pre = []) as -> by (apply concat_nil_nonempty; [done|apply length_zero_iff_nil; lia]).
    assert (reverse post = []) as Hp by (apply concat_nil_nonempty; [done|apply length_zero_iff_nil; lia]).
    apply (f_equal reverse) in Hp. rewrite reverse_involutive in Hp. change (reverse []) with (@nil (list byte)) in Hp.
    subst post. cbn in Hpre, Hpost. unfold m in Hpost. rewrite <- Hpre in Hpost. by split; [symmetry|].
  - intros [-> ->]. by rewrite reverse_involutive, concat_chars.
Qed.

Lemma drop_while_app {A} (p : A → bool) l k : l ≠ [] → drop_while p l = l → drop_while p (l ++ k) = l ++ k.
Proof.
  destruct l as [|x l]; [done|]. intros _. cbn [app drop_while]. destruct (p x); [|done].
  intros H. exfalso. apply (f_equal length) in H. destruct (drop_while_suffix p l) as (pre & E & _).
  apply (f_equal length) in E. rewrite length_app in E. cbn in H. lia.
Qed.

Lemma trim_joined a s b : a ≠ [] → b ≠ [] → at_boundary (s ++ b) = true → at_boundary b = true →
  trim a = a → trim b = b → trim (a ++ s ++ b) = a ++ s ++ b.
Proof.
  intros Ha Hb Hsb Hbb [Ha1 _]%trim_fixed [_ Hb2]%trim_fixed. apply trim_fixed.
  rewrite (chars_app a), (chars_app s) by done. split.
  - apply drop_while_app; [by rewrite chars_nil|done].
  - rewrite !reverse_app, <- app_assoc. apply drop_while_app; [|done].
    intros H%(f_equal reverse). rewrite reverse_involutive in H. by apply chars_nil in H.
Qed.

Definition plain_name (n : list byte) : Prop := plain n ∧ n ≠ [] ∧ ","%char ∉ n.

Lemma comma_join_cons e f l : comma_join (e :: f :: l) = e ++ bytes ", " ++ comma_join (f :: l).
Proof. done. Qed.

Lemma comma_join_plain l : Forall plain_name l → plain (comma_join l) ∧ (l ≠ [] → comma_join l ≠ []).
Proof.
  induction 1 as [|e l (He & Hne & _) Hl [IH IHn]]; [split; [|done]; unfold plain; cbn; set_solver|].
  destruct l as [|f l]; [by split|]. rewrite comma_join_cons. specialize (IHn ltac:(done)).
  destruct He as (He1 & He2 & He3 & He4), IH as (IH1 & IH2 & IH3 & IH4).
  split; [|by destruct e]. assert ((lf ∉ bytes ", ") ∧ (cr ∉ bytes ", ")) as [H1 H2]
    by (split; refine (bool_decide_unpack _ _); by vm_compute).
  split; [set_solver|]. split; [set_solver|]. split.
  - apply trim_joined; try done. by apply is_utf8_boundary.
  - apply is_utf8_app; [done|]. by apply (is_utf8_app (bytes ", ")).
Qed.

Lemma padded pad e : plain_name e → pad = [] ∨ pad = [" "%char] →
  Forall (λ c, is_char "," c = false) (pad ++ e) ∧ trim (pad ++ e) = e.
Proof.
  intros ((_ & _ & Ht & Hu) & _ & Hc) Hpad. split.
  - apply Forall_app. split; [destruct Hpad as [-> | ->]; by repeat constructor|].
    apply Forall_forall. intros c Hin. apply bool_decide_eq_false_2. by intros <-.
  - destruct Hpad as [-> | ->]; [done|]. cbn [app]. by rewrite trim_space.
Qed.

Lemma comma_list_padded l : ∀ e pad, Forall plain_name (e :: l) → pad = [] ∨ pad = [" "%char] →
  comma_list (pad ++ comma_join (e :: l)) = e :: l.
Proof.
  unfold comma_list. induction l as [|f l IH]; intros e pad [He Hl]%Forall_cons Hpad;
    destruct (padded pad e He Hpad) as [Hno Ht], He as (_ & Hne & _).
  - change (comma_join [e]) with e. rewrite split_on_whole by done. cbn [fmap list_fmap]. rewrite Ht.
    cbn [List.filter]. by rewrite bool_decide_false.
  - rewrite comma_join_cons.
    change (e ++ bytes ", " ++ comma_join (f :: l)) with (e ++ ","%char :: ([" "%char] ++ comma_join (f :: l))).
    rewrite app_assoc, split_on_app by done. rewrite fmap_cons, Ht.
    cbn [List.filter]. rewrite bool_decide_false by done. cbn [negb]. f_equal. apply IH; [done|by right].
Qed.

Lemma comma_list_join l : Forall plain_name l → comma_list (comma_join l) = l.
Proof. destruct l as [|e l]; [reflexivity|]. intros Hl. apply (comma_list_padded l e [] Hl). by left. Qed.

(** A skill that can be written: texts on one line, a name of their own for its other
    fields. *)
Record writable (sk : Skill.t) : Prop := {
  w_name : plain (Skill.name sk) ∧ Skill.name sk ≠ [];
  w_description : plain (Skill.description sk) ∧ Skill.description sk ≠ [];
  w_requires : Forall plain_name (Skill.requires sk);
  w_extra : ∀ k v, Skill.extra sk !! k = Some v →
    plain_key k ∧ plain v ∧ k ∉ [bytes "name"; bytes "description"; bytes "requires"] }.

Lemma put_extra fields : ∀ f, Forall (λ kv, kv.1 ∉ [bytes "name"; bytes "description"; bytes "requires"]) fields →
  foldl put_field f fields =
  mkFront (front_name f) (front_description f) (front_requires f)
    (foldr (λ kv, <[kv.1 := kv.2]>) (front_extra f) (reverse fields)).
Proof.
  induction fields as [|[k v] fields IH]; intros f Hf; [by destruct f|].
  apply Forall_cons in Hf as [Hk Hf]. cbn [foldl]. rewrite IH by done. rewrite reverse_cons, foldr_app. cbn [foldr fst snd].
  rewrite !not_elem_of_cons in Hk. destruct Hk as (H1 & H2 & H3 & _). cbn [fst] in H1, H2, H3.
  unfold put_field. by rewrite !bool_decide_false.
Qed.

Lemma plain_key_names : plain_key (bytes "name") ∧ plain_key (bytes "description") ∧ plain_key (bytes "requires").
Proof. repeat split; try done; refine (bool_decide_unpack _ _); by vm_compute. Qed.

Definition fields_of (sk : Skill.t) : list (list byte * list byte) :=
  [(bytes "name", Skill.name sk); (bytes "description", Skill.description sk);
   (bytes "requires", comma_join (Skill.requires sk))] ++ map_to_list (Skill.extra sk).

Lemma fields_plain sk : writable sk → plain_fields (fields_of sk) ∧
  Forall (λ kv, kv.1 ∉ [bytes "name"; bytes "description"; bytes "requires"]) (map_to_list (Skill.extra sk)).
Proof.
  intros [[Hn _] [Hd _] Hr He]. destruct plain_key_names as (Kn & Kd & Kr). split.
  - apply Forall_app. split; [|apply Forall_forall; intros [k v] Hkv%elem_of_map_to_list; by apply He in Hkv as (? & ? & _)].
    repeat (apply Forall_cons; split; [by split|]). apply Forall_singleton. split; [done|by apply comma_join_plain].
  - apply Forall_forall. intros [k v] Hkv%elem_of_map_to_list. by apply He in Hkv as (_ & _ & ?).
Qed.

Lemma fields_said sk : writable sk →
  foldl put_field (mkFront None None [] ∅) (fields_of sk) =
  mkFront (Some (Skill.name sk)) (Some (Skill.description sk)) (Skill.requires sk) (Skill.extra sk).
Proof.
  intros Hw. pose proof (fields_plain sk Hw) as [_ Hx]. unfold fields_of. rewrite foldl_app.
  change (foldl put_field _ [_; _; _]) with
    (mkFront (Some (Skill.name sk)) (Some (Skill.description sk)) (comma_list (comma_join (Skill.requires sk))) ∅).
  rewrite put_extra by done. cbn [front_name front_description front_requires front_extra]. f_equal.
  - by apply comma_list_join, w_requires.
  - transitivity (list_to_map (reverse (map_to_list (Skill.extra sk))) : gmap (list byte) (list byte)); [done|].
    rewrite (list_to_map_proper _ (map_to_list (Skill.extra sk))).
    + apply list_to_map_to_list.
    + rewrite reverse_Permutation. apply NoDup_fst_map_to_list.
    + apply reverse_Permutation.
Qed.

(** A skill written as a page of fields and a body reads back as it was: its name,
    description, requirements in their order, other fields and the body to the byte,
    whatever the body holds. *)
Theorem skill_roundtrip path sk : writable sk → parse_str path (written sk) = Ok sk.
Proof.
  intros Hw. pose proof (fields_plain sk Hw) as [Hf Hx]. unfold parse_str, written. fold (fields_of sk).
  rewrite split_fences_page by done. cbn [result_bind]. rewrite lines_front by done.
  rewrite front_lines_plain; [|done|].
  - cbn [result_bind]. rewrite (fields_said sk Hw). by destruct sk.
  - unfold fields_of. repeat (apply Forall_cons; split; [intros [?|?]; try done; apply Hw|]). cbn [app].
    eapply Forall_impl; [exact Hx|]. intros [k v] Hk Hor. exfalso. apply Hk. cbn [fst] in *.
    destruct Hor as [-> | ->]; [by left|right; by left].
Qed.

(** ** Concrete sets *)

Definition small (name : string) (requires : list (list byte)) : Skill.t :=
  Skill.mk (bytes name) (bytes "what it is for") requires (bytes "the body") ∅.

Definition tagged : Skill.t :=
  Skill.mk (bytes "write") (bytes "writes: a lot") [bytes "read"; bytes "plan"] (bytes "---" ++ [lf] ++ bytes "body")
    {[bytes "version" := bytes "1"]}.

Lemma skill_roundtrip_witness : writable tagged ∧ parse_str "w/SKILL.md" (written tagged) = Ok tagged.
Proof.
  assert (H : writable tagged).
  { split.
    - repeat split; try done; refine (bool_decide_unpack _ _); by vm_compute.
    - repeat split; try done; refine (bool_decide_unpack _ _); by vm_compute.
    - repeat constructor; try done; refine (bool_decide_unpack _ _); by vm_compute.
    - intros k v Hkv. apply (lookup_singleton_Some (bytes "version") k (bytes "1") v) in Hkv as [<- <-]. repeat split; try done; refine (bool_decide_unpack _ _); by vm_compute. }
  split; [exact H|]. exact (skill_roundtrip "w/SKILL.md" tagged H).
Defined.

(** Two skills in a directory, one of which requires the other. *)
Definition disk (path : string) : option (list byte) :=
  if bool_decide (path = "s/a/SKILL.md") then Some (written (small "a" [bytes "b"]))
  else if bool_decide (path = "s/b/SKILL.md") then Some (written (small "b" []))
  else None.

Definition pair_of_skills : Skills :=
  mkSkills {[bytes "a" := small "a" [bytes "b"]; bytes "b" := small "b" []]}
           {[bytes "a" := "s/a/SKILL.md"; bytes "b" := "s/b/SKILL.md"]}.

(** [b] is changed to require [a], which is refused; then [a] is removed. *)
Definition circular (path : string) : option (list byte) :=
  if bool_decide (path = "s/b/SKILL.md") then Some (written (small "b" [bytes "a"])) else disk path.

Definition two_events : list ((string → option (list byte)) * Event) :=
  [(circular, mkEvent Modify ["s/b/SKILL.md"]); (disk, mkEvent Remove ["s/a/SKILL.md"])].

Definition only_b : Skills :=
  mkSkills {[bytes "b" := small "b" []]} {[bytes "b" := "s/b/SKILL.md"]}.

Lemma skills_follow_witness :
  load disk (λ _, true) "s" (Some ["b"; "a"]) = Some (Ok pair_of_skills) ∧
  session two_events pair_of_skills = Some (only_b, [false; true]) ∧
  ∃ m0 s flags m,
    (∀ p sk, m0 !! p = Some sk ↔ p ∈ manifests "s" (λ _, true) ["b"; "a"] ∧ parse disk p = Ok sk) ∧
    sound m0 ∧ session two_events pair_of_skills = Some (s, flags) ∧ follows m0 two_events flags m ∧
    represents s m ∧ sound m.
Proof.
  assert (H : load disk (λ _, true) "s" (Some ["b"; "a"]) = Some (Ok pair_of_skills)) by (vm_compute; reflexivity).
  split; [exact H|]. split; [vm_compute; reflexivity|].
  exact (skills_follow disk (λ _, true) "s" ["b"; "a"] pair_of_skills two_events H).
Defined.

Lemma load_order_exact_witness :
  resolve_dependencies pair_of_skills = Some (Ok tt) ∧
  (∃ order, topological pair_of_skills = Some order ∧ order ≡ₚ all pair_of_skills ∧
    ∀ i sk b, order !! i = Some sk → b ∈ Skill.requires sk →
      ∃ j sk', j < i ∧ order !! j = Some sk' ∧ Skill.name sk' = b) ∧
  topological pair_of_skills = Some [small "b" []; small "a" [bytes "b"]].
Proof.
  assert (H : resolve_dependencies pair_of_skills = Some (Ok tt)) by (vm_compute; reflexivity).
  split; [exact H|]. split; [|vm_compute; reflexivity].
  apply (load_order_exact pair_of_skills H). intros a sk Hsk. cbn [by_name pair_of_skills] in Hsk.
  apply lookup_insert_Some in Hsk as [[<- <-]|[_ [<- <-]%lookup_singleton_Some]]; reflexivity.
Defined.

(** ** What the model shows of the code *)

(** A manifest that was moved arrives as a change of the old path and of the new one; the
    old one does not read, so the event is refused and the skill stays under a path that is
    gone. *)
Lemma moved_skill_refused :
  let moved path := if bool_decide (path = "s/c/SKILL.md") then Some (written (small "b" [])) else None in
  apply_event moved (mkEvent Modify ["s/b/SKILL.md"; "s/c/SKILL.md"]) only_b = Some (only_b, Err Io).
Proof. vm_compute. reflexivity. Qed.

(** Two files that exchange their names in one event are refused as a duplicate, although
    no two files claim one name behind it. *)
Lemma exchanged_names_refused :
  let exchanged path :=
    if bool_decide (path = "s/a/SKILL.md") then Some (written (small "b" []))
    else if bool_decide (path = "s/b/SKILL.md") then Some (written (small "a" [])) else None in
  (∃ s, load exchanged (λ _, true) "s" (Some ["a"; "b"]) = Some (Ok s)) ∧
  apply_event exchanged (mkEvent Modify ["s/a/SKILL.md"; "s/b/SKILL.md"]) pair_of_skills =
  Some (pair_of_skills, Err (Duplicate (bytes "b") "s/b/SKILL.md" "s/a/SKILL.md")).
Proof. split; [eexists|]; vm_compute; reflexivity. Qed.

(** A manifest further down than loading looks enters by its event, and is gone when the
    directory is loaded again. *)
Lemma nested_manifest_enters :
  let nested path := if bool_decide (path = "s/b/deep/SKILL.md") then Some (written (small "c" [])) else disk path in
  (names <$> (fst <$> apply_event nested (mkEvent Create ["s/b/deep/SKILL.md"]) only_b)) = Some [bytes "b"; bytes "c"] ∧
  (names <$> (load nested (λ e, bool_decide (e = "b")) "s" (Some ["b"]) ≫= to_option)) = Some [bytes "b"].
Proof. split; vm_compute; reflexivity. Qed.

(** The order of the fields a skill carries for itself is lost. *)
Lemma extra_order_lost :
  let field k := (bytes k, bytes "1") in
  let skill ks := parse_str "p" (page ([(bytes "name", bytes "n"); (bytes "description", bytes "d")] ++ (field <$> ks)) []) in
  skill ["author"; "version"] = skill ["version"; "author"].
Proof. vm_compute. reflexivity. Qed.

(** Front matter without a line is refused as never closed. *)
Lemma empty_front_never_closed :
  parse_str "p" (page [] (bytes "body")) = Err (Parse "p" NeverClosed).
Proof. vm_compute. reflexivity. Qed.

(** A blank line at the start is passed over, except with a carriage return. *)
Lemma crlf_blank_line_refused :
  parse_str "p" ([lf] ++ written (small "a" [])) = Ok (small "a" []) ∧
  parse_str "p" ([cr; lf] ++ written (small "a" [])) = Err (Parse "p" NoOpeningFence).
Proof. split; vm_compute; reflexivity. Qed.
