(* ===== verification/Scan.v ===== *)
(** * The escape-sequence scanner: [libsupra_ansi/src/scanner.cpp]

    The resumable state machine every byte of a session's output goes through, and the
    iterator over one buffer's tokens of [supra_ffi/src/ansi.rs].  A token is its kind, its
    span in the buffer and its final byte; the parameters, the payload and the count of
    bytes carried over, which decide none of these, are left out.  [read] is what the bytes
    of a stream say one at a time; [tokens_read] is how the two agree, and where they do
    not. *)

From Stdlib Require Import Ascii.
From S2P Require Import Prelude Text Sealing Utf8.

Inductive TokenKind := TextRun | Control | Csi | Esc | Osc | Dcs | Apc | Partial | Malformed.

Module Token.
Record t := mk { kind : TokenKind; offset : nat; len : nat; final_byte : byte }.

Definition is_empty (token : t) : bool := len token =? 0.

(** The bytes a token covers, given the buffer it was scanned from. *)
Definition text (buffer : list byte) (token : t) : option (list byte) :=
  if offset token + len token <=? length buffer
  then Some (take (len token) (drop (offset token) buffer)) else None.
End Token.

(** ** Bytes: [internal.hpp] *)

Definition byte_of (n : N) : byte := ascii_of_N n.
Definition zero : byte := byte_of 0.
Definition kEsc : byte := byte_of 27.
Definition kBel : byte := byte_of 7.
Definition kC1St : byte := byte_of 156.

Definition is_c1 (b : byte) : bool := code_in 128 159 b.
Definition is_intermediate_byte (b : byte) : bool := code_in 32 47 b.
Definition is_final_byte (b : byte) : bool := code_in 64 126 b.
Definition is_marker (b : byte) : bool := code_in 60 63 b.
Definition is_cancel (b : byte) : bool := code_in 24 24 b || code_in 26 26 b.
Definition is_text_control (b : byte) : bool := code_in 9 10 b.

(** ** The state *)

Inductive State :=
| Ground | Escape | EscapeIntermediate | CsiEntry | CsiParam | CsiIntermediate | CsiIgnore
| OscString | OscEsc | DcsEntry | DcsParam | DcsIntermediate | DcsPassthrough | DcsEsc | DcsIgnore
| ApcString | ApcEsc.

#[export] Instance State_eq_dec : EqDecision State.
Proof. solve_decision. Defined.

Record Scanner := mkScanner {
  state : State; pos : nat; utf8_expect : nat;
  intermediates : byte * byte; intermediate_count : nat; buffer_done : bool }.

(** [supra_ansi_scanner_init]. *)
Definition fresh : Scanner := mkScanner Ground 0 0 (zero, zero) 0 false.

Definition pending (sc : Scanner) : bool := negb (bool_decide (state sc = Ground)).

Definition at_pos (pos : nat) (done : bool) (sc : Scanner) : Scanner :=
  mkScanner (state sc) pos (utf8_expect sc) (intermediates sc) (intermediate_count sc) done.

Definition go (s : State) (sc : Scanner) : Scanner :=
  mkScanner s (pos sc) (utf8_expect sc) (intermediates sc) (intermediate_count sc) (buffer_done sc).

Definition expecting (n : nat) (sc : Scanner) : Scanner :=
  mkScanner (state sc) (pos sc) n (intermediates sc) (intermediate_count sc) (buffer_done sc).

Definition clear_sequence (sc : Scanner) : Scanner :=
  mkScanner (state sc) (pos sc) (utf8_expect sc) (zero, zero) 0 (buffer_done sc).

Definition add_intermediate (b : byte) (sc : Scanner) : Scanner :=
  match intermediate_count sc with
  | 0 => mkScanner (state sc) (pos sc) (utf8_expect sc) (b, (intermediates sc).2) 1 (buffer_done sc)
  | 1 => mkScanner (state sc) (pos sc) (utf8_expect sc) ((intermediates sc).1, b) 2 (buffer_done sc)
  | _ => sc
  end.

(** The final byte of a device control string is kept in the second slot. *)
Definition remember_final (b : byte) (sc : Scanner) : Scanner :=
  mkScanner (state sc) (pos sc) (utf8_expect sc) ((intermediates sc).1, b) (intermediate_count sc) (buffer_done sc).

(** ** One byte of a sequence

    The state it leads to, with what token is reported, if one is. *)
Definition ends (kind : TokenKind) (final : byte) (sc : Scanner) : Scanner * option (TokenKind * byte) :=
  (clear_sequence (go Ground sc), Some (kind, final)).

Definition goes (s : State) (sc : Scanner) : Scanner * option (TokenKind * byte) := (go s sc, None).

Definition is_byte (n : N) (b : byte) : bool := code_in n n b.

Definition sequence_step (b : byte) (sc : Scanner) : Scanner * option (TokenKind * byte) :=
  match state sc with
  | Ground => (sc, None)
  | Escape =>
      if is_byte 91 b then goes CsiEntry sc
      else if is_byte 93 b then goes OscString sc
      else if is_byte 80 b then goes DcsEntry sc
      else if is_byte 88 b || is_byte 94 b || is_byte 95 b then goes ApcString sc
      else if is_intermediate_byte b then goes EscapeIntermediate (add_intermediate b sc)
      else if code_in 48 126 b then ends Esc b sc
      else ends Malformed b sc
  | EscapeIntermediate =>
      if is_intermediate_byte b then (add_intermediate b sc, None)
      else if code_in 48 126 b then ends Esc b sc
      else ends Malformed b sc
  | CsiEntry | CsiParam =>
      if code_in 48 59 b then goes CsiParam sc
      else if is_marker b then goes CsiParam (add_intermediate b sc)
      else if is_intermediate_byte b then goes CsiIntermediate (add_intermediate b sc)
      else if is_final_byte b then ends Csi b sc
      else goes CsiIgnore sc
  | CsiIntermediate =>
      if is_intermediate_byte b then (add_intermediate b sc, None)
      else if is_final_byte b then ends Csi b sc
      else goes CsiIgnore sc
  | CsiIgnore => if is_final_byte b then ends Malformed b sc else (sc, None)
  | OscString =>
      if is_byte 7 b then ends Osc kBel sc
      else if is_byte 27 b then goes OscEsc sc
      else if is_byte 156 b then ends Osc kC1St sc
      else (sc, None)
  | OscEsc => if is_byte 92 b then ends Osc kC1St sc else goes OscString sc
  | DcsEntry | DcsParam =>
      if code_in 48 57 b || is_byte 59 b then goes DcsParam sc
      else if is_marker b then goes DcsParam (add_intermediate b sc)
      else if is_intermediate_byte b then goes DcsIntermediate (add_intermediate b sc)
      else if is_final_byte b then goes DcsPassthrough (remember_final b sc)
      else goes DcsIgnore sc
  | DcsIntermediate =>
      if is_intermediate_byte b then (add_intermediate b sc, None)
      else if is_final_byte b then goes DcsPassthrough (remember_final b sc)
      else goes DcsIgnore sc
  | DcsPassthrough =>
      if is_byte 27 b then goes DcsEsc sc
      else if is_byte 156 b then ends Dcs (intermediates sc).2 sc
      else (sc, None)
  | DcsEsc => if is_byte 92 b then ends Dcs (intermediates sc).2 sc else goes DcsPassthrough sc
  | DcsIgnore =>
      if is_byte 156 b then ends Malformed zero sc
      else if is_byte 27 b then goes DcsEsc sc
      else (sc, None)
  | ApcString =>
      if is_byte 7 b then ends Apc kBel sc
      else if is_byte 27 b then goes ApcEsc sc
      else if is_byte 156 b then ends Apc kC1St sc
      else (sc, None)
  | ApcEsc => if is_byte 92 b then ends Apc kC1St sc else goes ApcString sc
  end.

(** What a C1 control opens, when it opens something. *)
Definition introduces (b : byte) : option State :=
  if is_byte 155 b then Some CsiEntry
  else if is_byte 157 b then Some OscString
  else if is_byte 144 b then Some DcsEntry
  else if is_byte 152 b || is_byte 158 b || is_byte 159 b then Some ApcString
  else None.

(** ** Text *)

(** A byte that is text at the boundary of a character. *)
Definition is_plain (b : byte) : bool :=
  negb (is_byte 27 b) && negb (is_byte 127 b) && negb (is_c1 b) && (code_in 32 255 b || is_text_control b).

(** The continuation bytes a leading byte promises. *)
Definition promises (b : byte) : nat :=
  if code_in 194 223 b then 1 else if code_in 224 239 b then 2 else if code_in 240 244 b then 3 else 0.

(** A continuation byte that a character is still owed. *)
Definition mid_character (expect : nat) (b : byte) : bool := (0 <? expect) && is_continuation b.

(** How far a run of text goes, and what its last character is owed.  A byte that ends a
    character early is looked at again as the first of another. *)
Fixpoint text_run (rest : list byte) (expect : nat) : nat * nat :=
  match rest with
  | [] => (0, expect)
  | b :: rest =>
      if mid_character expect b then
        let '(n, e) := text_run rest (expect - 1) in (S n, e)
      else if is_plain b then
        let '(n, e) := text_run rest (promises b) in (S n, e)
      else (0, 0)
  end.

(** ** One token: [supra_ansi_scan] *)

Inductive Eof := More | Final.

Definition advance (sc : Scanner) : Scanner := at_pos (S (pos sc)) (buffer_done sc) sc.

Definition simple (kind : TokenKind) (offset len : nat) (final : byte) : option Token.t :=
  Some (Token.mk kind offset len final).

(** The loop, over what is left of the buffer. *)
Fixpoint scan_loop (eof : Eof) (token_start : nat) (rest : list byte) (sc : Scanner) : Scanner * option Token.t :=
  match rest with
  | [] =>
      let consumed := pos sc - token_start in
      let sc := at_pos (pos sc) true sc in
      match eof with
      | Final => (expecting 0 (clear_sequence (go Ground sc)), simple Malformed token_start consumed zero)
      | More => (sc, simple Partial token_start consumed zero)
      end
  | b :: tail =>
      if is_cancel b && pending sc then
        let sc := advance sc in
        (clear_sequence (go Ground sc), simple Malformed token_start (pos sc - token_start) b)
      else if bool_decide (state sc = Ground) then
        if mid_character (utf8_expect sc) b || is_plain b then
          let '(n, e) := text_run rest (utf8_expect sc) in
          (at_pos (pos sc + n) (buffer_done sc) (expecting e sc), simple TextRun (pos sc) n zero)
        else
          let sc := advance sc in
          if is_byte 27 b then scan_loop eof token_start tail (go Escape (clear_sequence sc))
          else if is_c1 b then
            match introduces b with
            | Some s => scan_loop eof token_start tail (go s (clear_sequence sc))
            | None => (clear_sequence sc, simple Control (pos sc - 1) 1 b)
            end
          else (sc, simple Control (pos sc - 1) 1 b)
      else
        let '(sc, out) := sequence_step b (advance sc) in
        match out with
        | Some (kind, final) => (sc, simple kind token_start (pos sc - token_start) final)
        | None => scan_loop eof token_start tail sc
        end
  end.

Definition next_token (buffer : list byte) (eof : Eof) (sc : Scanner) : Scanner * option Token.t :=
  if buffer_done sc || (length buffer <=? pos sc) then
    let sc := at_pos 0 false sc in
    match eof with
    | Final =>
        if pending sc then (expecting 0 (clear_sequence (go Ground sc)), simple Malformed 0 0 zero) else (sc, None)
    | More => (sc, None)
    end
  else scan_loop eof (if pending sc then 0 else pos sc) (drop (pos sc) buffer) sc.

(** ** The tokens of a buffer: [Tokens::next] until it gives none *)

Fixpoint collect (fuel : nat) (buffer : list byte) (eof : Eof) (sc : Scanner) : list Token.t * Scanner :=
  match fuel with
  | 0 => ([], sc)
  | S fuel =>
      match next_token buffer eof sc with
      | (sc, None) => ([], sc)
      | (sc, Some token) =>
          if Token.is_empty token && match Token.kind token with Malformed => true | _ => false end
          then ([token], sc)
          else let '(tokens, sc) := collect fuel buffer eof sc in (token :: tokens, sc)
      end
  end.

(** Every token but that last one covers a byte. *)
Definition tokens (buffer : list byte) (eof : Eof) (sc : Scanner) : list Token.t * Scanner :=
  collect (length buffer + 2) buffer eof sc.

(** ** What the bytes of a stream say one at a time *)

(** A byte of text, or a control. *)
Inductive key := Put (b : byte) | Ctl (b : byte).

Definition keys_of (buffer : list byte) (token : Token.t) : list key :=
  match Token.kind token with
  | TextRun => Put <$> default [] (Token.text buffer token)
  | Control => [Ctl (Token.final_byte token)]
  | _ => []
  end.

Definition read (b : byte) (sc : Scanner) : Scanner * list key :=
  if is_cancel b && pending sc then (clear_sequence (go Ground sc), [])
  else if bool_decide (state sc = Ground) then
    if mid_character (utf8_expect sc) b then (expecting (utf8_expect sc - 1) sc, [Put b])
    else
      let sc := expecting 0 sc in
      if is_plain b then (expecting (promises b) sc, [Put b])
      else if is_byte 27 b then (go Escape (clear_sequence sc), [])
      else if is_c1 b then
        match introduces b with
        | Some s => (go s (clear_sequence sc), [])
        | None => (clear_sequence sc, [Ctl b])
        end
      else (sc, [Ctl b])
  else ((sequence_step b sc).1, []).

Fixpoint reads (l : list byte) (sc : Scanner) : Scanner * list key :=
  match l with
  | [] => (sc, [])
  | b :: l => let '(sc, keys) := read b sc in let '(sc, rest) := reads l sc in (sc, keys ++ rest)
  end.

(** ** Tokens and bytes agree *)

(** A character that is still owed bytes goes on with them. *)
Definition goes_on (l : list byte) (sc : Scanner) : Prop :=
  match l with [] => True | b :: _ => utf8_expect sc = 0 ∨ (state sc = Ground ∧ is_continuation b = true) end.

Lemma reads_app a b sc :
  reads (a ++ b) sc = ((reads b (reads a sc).1).1, (reads a sc).2 ++ (reads b (reads a sc).1).2).
Proof.
  revert sc. induction a as [|x a IH]; intros sc; [cbn; by destruct (reads b sc)|]. cbn [app reads].
  destruct (read x sc) as [sc' keys]. rewrite IH. destruct (reads a sc') as [sc'' keys'].
  cbn [fst snd]. destruct (reads b sc'') as [sc3 keys3]. cbn [fst snd]. by rewrite (app_assoc keys).
Qed.

(** Where the cursor is does not matter to what is read. *)
Lemma sequence_step_at p d b sc :
  sequence_step b (at_pos p d sc) = (at_pos p d (sequence_step b sc).1, (sequence_step b sc).2).
Proof.
  destruct sc as [s q e i [|[|c]] d']; destruct s; unfold sequence_step, goes, ends, add_intermediate; cbn;
    repeat match goal with |- context [if ?x then _ else _] => destruct x end; reflexivity.
Qed.

Lemma read_at p d b sc : read b (at_pos p d sc) = (at_pos p d (read b sc).1, (read b sc).2).
Proof.
  unfold read. rewrite sequence_step_at. cbn [state utf8_expect at_pos]. unfold pending. cbn [state at_pos].
  repeat match goal with |- context [if ?x then _ else _] => destruct x end; try done.
  by destruct (introduces b).
Qed.

Lemma reads_at p d l sc : reads l (at_pos p d sc) = (at_pos p d (reads l sc).1, (reads l sc).2).
Proof.
  revert sc. induction l as [|b l IH]; intros sc; cbn [reads]; [done|].
  rewrite read_at. destruct (read b sc) as [sc' keys]. cbn [fst snd]. rewrite IH. by destruct (reads l sc').
Qed.

(** A run of text says its bytes, and what follows it reads on from what it leaves. *)
Lemma text_run_reads rest : ∀ sc,
  state sc = Ground →
  let '(n, e) := text_run rest (utf8_expect sc) in
  n ≤ length rest ∧ (e = 0 ∨ n = length rest) ∧
  reads rest sc =
    ((reads (drop n rest) (expecting e sc)).1, (Put <$> take n rest) ++ (reads (drop n rest) (expecting e sc)).2).
Proof.
  induction rest as [|b rest IH]; intros sc Hs; cbn [text_run].
  { cbn. split; [lia|]. split; [by right|]. by destruct sc. }
  assert (Hp : pending sc = false) by (unfold pending; by rewrite Hs).
  assert (Hstep : ∀ k, state (expecting k sc) = Ground) by done.
  cbn [reads]. unfold read. rewrite Hp, andb_false_r, bool_decide_true by done.
  destruct (mid_character (utf8_expect sc) b) eqn:Hm; [|destruct (is_plain b) eqn:Hb].
  - specialize (IH (expecting (utf8_expect sc - 1) sc) (Hstep _)). cbn [utf8_expect expecting] in IH.
    destruct (text_run rest (utf8_expect sc - 1)) as [n e]. destruct IH as (Hn & He & ->).
    cbn [length drop take fmap list_fmap app fst snd]. split; [lia|]. split; [lia|]. done.
  - specialize (IH (expecting (promises b) sc) (Hstep _)). cbn [utf8_expect expecting] in IH.
    destruct (text_run rest (promises b)) as [n e]. destruct IH as (Hn & He & IH).
    cbn [length drop take fmap list_fmap app fst snd]. split; [lia|]. split; [lia|].
    change (expecting (promises b) (expecting 0 sc)) with (expecting (promises b) sc). by rewrite IH.
  - cbn [length drop take fmap list_fmap app reads fst snd]. split; [lia|]. split; [by left|].
    unfold read. cbn [utf8_expect expecting]. change (pending (expecting 0 sc)) with (pending sc).
    rewrite Hp, andb_false_r, bool_decide_true by done. change (mid_character 0 b) with false. cbn match.
    rewrite Hb. change (expecting 0 (expecting 0 sc)) with (expecting 0 sc).
    destruct (is_byte 27 b); [|destruct (is_c1 b); [destruct (introduces b)|]].
    all: match goal with |- context [reads ?l ?s] => destruct (reads l s) end; done.
Qed.

Lemma text_run_first b rest expect :
  mid_character expect b || is_plain b = true → 0 < (text_run (b :: rest) expect).1.
Proof.
  cbn [text_run]. destruct (mid_character expect b); cbn [orb].
  - intros _. destruct (text_run rest _). cbn. lia.
  - intros ->. destruct (text_run rest _). cbn. lia.
Qed.

Lemma sequence_step_done b sc sc' kind final :
  sequence_step b sc = (sc', Some (kind, final)) →
  state sc' = Ground ∧ kind ≠ TextRun ∧ kind ≠ Control.
Proof.
  destruct sc as [s q e i c d]. unfold sequence_step, goes, ends. cbn [state].
  destruct s; repeat match goal with |- context [if ?x then _ else _] => destruct x end; intros; simplify_eq; done.
Qed.

Lemma sequence_step_frame b sc :
  utf8_expect (sequence_step b sc).1 = utf8_expect sc ∧ pos (sequence_step b sc).1 = pos sc ∧
  buffer_done (sequence_step b sc).1 = buffer_done sc ∧
  (state sc ≠ Ground → (sequence_step b sc).2 = None → state (sequence_step b sc).1 ≠ Ground).
Proof.
  destruct sc as [s q e i [|[|c]] d]. all: unfold sequence_step, goes, ends, add_intermediate; cbn [state].
  all: destruct s; repeat match goal with |- context [if ?x then _ else _] => destruct x end; done.
Qed.

(** What one token of a buffer accounts for: the first [n] bytes of what is left. *)
Record accounts (buffer rest : list byte) (sc : Scanner) (n : nat) (token : Token.t) (sc' : Scanner) : Prop := {
  ac_len : n ≤ length rest;
  ac_some : rest ≠ [] → 0 < n;
  ac_pos : pos sc' = pos sc + n;
  ac_goes_on : goes_on (drop n rest) sc';
  ac_done : buffer_done sc' = true → n = length rest;
  ac_empty : Token.is_empty token = true → Token.kind token ≠ Malformed;
  ac_reads : reads rest sc =
    (at_pos (pos sc) false (reads (drop n rest) sc').1, keys_of buffer token ++ (reads (drop n rest) sc').2) }.

Lemma at_pos_self sc : buffer_done sc = false → at_pos (pos sc) false sc = sc.
Proof. destruct sc. cbn. by intros ->. Qed.

(** A byte read on the way to a token. *)
Lemma accounts_next buffer b rest sc sc1 n token sc' :
  buffer_done sc = false → pos sc1 = S (pos sc) → buffer_done sc1 = false →
  read b sc = (at_pos (pos sc) false sc1, []) →
  accounts buffer rest sc1 n token sc' → accounts buffer (b :: rest) sc (S n) token sc'.
Proof.
  intros Hd Hp Hd1 Hread [Hlen Hsome Hpos Hgo Hdone Hempty Hreads]. split; cbn [length drop]; try done; [lia..| |].
  - intros E. by rewrite (Hdone E).
  - cbn [reads]. rewrite Hread, reads_at, Hreads. cbn [fst snd]. by rewrite app_nil_l.
Qed.

(** A byte that ends a token without text. *)
Lemma accounts_last buffer b rest sc keys token sc' :
  pos sc' = S (pos sc) → buffer_done sc' = false → utf8_expect sc' = 0 →
  (Token.is_empty token = true → Token.kind token ≠ Malformed) →
  read b sc = (at_pos (pos sc) false sc', keys) → keys_of buffer token = keys →
  accounts buffer (b :: rest) sc 1 token sc'.
Proof.
  intros Hp Hd He Hempty Hread Hk. split; cbn [length drop]; try done; try lia.
  - destruct rest; [done|]. by left.
  - by rewrite Hd.
  - cbn [reads]. by rewrite Hread, reads_at, Hk, drop_0.
Qed.

(** The token of a run of text. *)
Lemma text_accounts buffer b rest sc :
  drop (pos sc) buffer = b :: rest → pos sc ≤ length buffer → buffer_done sc = false → state sc = Ground →
  mid_character (utf8_expect sc) b || is_plain b = true →
  let '(n, e) := text_run (b :: rest) (utf8_expect sc) in
  accounts buffer (b :: rest) sc n (Token.mk TextRun (pos sc) n zero)
    (at_pos (pos sc + n) (buffer_done sc) (expecting e sc)).
Proof.
  intros Hrest Hin Hd Hs Htext. pose proof (text_run_first _ rest _ Htext) as Hpos.
  pose proof (text_run_reads (b :: rest) sc Hs) as Hrun.
  destruct (text_run (b :: rest) (utf8_expect sc)) as [n e]. cbn [fst] in Hpos. destruct Hrun as (Hn & He & Hreads).
  split; try done; cbn [pos buffer_done at_pos].
  - destruct He as [-> | ->]; [|by rewrite drop_all]. destruct (drop n (b :: rest)); [done|by left].
  - by rewrite Hd.
  - rewrite Hreads. unfold keys_of. cbn [Token.kind]. unfold Token.text. cbn [Token.offset Token.len].
    rewrite Hrest. assert (pos sc + n ≤ length buffer) as Hle.
    { apply (f_equal length) in Hrest. rewrite length_drop in Hrest. lia. }
    apply Nat.leb_le in Hle as ->. cbn [default]. rewrite reads_at. cbn [fst snd]. f_equal.
    rewrite <- (at_pos_self (expecting e sc)) at 1 by done. by rewrite reads_at.
Qed.

(** At the boundary of a character a byte that is no text is a control or opens a sequence. *)
Lemma read_boundary b rest sc :
  state sc = Ground → goes_on (b :: rest) sc → mid_character (utf8_expect sc) b || is_plain b = false →
  utf8_expect sc = 0 ∧
  read b sc =
    if is_byte 27 b then (go Escape (clear_sequence sc), [])
    else if is_c1 b then
      match introduces b with Some s => (go s (clear_sequence sc), []) | None => (clear_sequence sc, [Ctl b]) end
    else (sc, [Ctl b]).
Proof.
  intros Hs Hgo [Hmid Hplain]%orb_false_iff.
  assert (He : utf8_expect sc = 0).
  { destruct Hgo as [|[_ Hc]]; [done|]. unfold mid_character in Hmid. rewrite Hc, andb_true_r in Hmid.
    apply Nat.ltb_ge in Hmid. lia. }
  split; [done|]. unfold read, pending. rewrite Hs, bool_decide_true, andb_false_r by done.
  rewrite Hmid, Hplain. replace (expecting 0 sc) with sc; [done|]. destruct sc. cbn in *. by rewrite He.
Qed.

Lemma introduces_sequence b s : introduces b = Some s → s ≠ Ground.
Proof.
  unfold introduces. intros Hi. by repeat match type of Hi with context [if ?x then _ else _] => destruct x end; simplify_eq.
Qed.

(** A byte of a sequence is read as it is stepped over. *)
Lemma read_sequence b sc :
  state sc ≠ Ground → is_cancel b && pending sc = false → buffer_done sc = false →
  read b sc = (at_pos (pos sc) false (sequence_step b (advance sc)).1, []).
Proof.
  intros Hs Hc Hd. unfold read. rewrite Hc, bool_decide_false by done. unfold advance.
  rewrite sequence_step_at. cbn [fst]. f_equal. pose proof (sequence_step_frame b sc) as (_ & Hp & Hd' & _).
  destruct (sequence_step b sc) as [[] ?]. cbn in *. by rewrite Hp, Hd', Hd.
Qed.

Lemma scan_loop_accounts buffer start rest : ∀ sc,
  drop (pos sc) buffer = rest → pos sc ≤ length buffer → buffer_done sc = false → start ≤ pos sc →
  goes_on rest sc → (rest = [] → pending sc = true) →
  ∃ n token sc', scan_loop More start rest sc = (sc', Some token) ∧ accounts buffer rest sc n token sc'.
Proof.
  induction rest as [|b rest IH]; intros sc Hrest Hin Hd Hstart Hgo Hne; cbn [scan_loop].
  { eexists 0, _, _. split; [reflexivity|]. split; try done; cbn; try lia.
    f_equal. by destruct sc; cbn in *; rewrite Hd. }
  assert (Hnext : drop (S (pos sc)) buffer = rest) by (rewrite <- Nat.add_1_r, <- drop_drop, Hrest; done).
  assert (Hin' : S (pos sc) ≤ length buffer).
  { apply (f_equal length) in Hrest. rewrite length_drop in Hrest. cbn in Hrest. lia. }
  assert (Hadv : at_pos (pos sc) false (advance sc) = sc) by (destruct sc; cbn in *; by rewrite Hd).
  destruct (is_cancel b && pending sc) eqn:Hcancel.
  { apply andb_true_iff in Hcancel as [Hb Hp]. assert (He : utf8_expect sc = 0).
    { destruct Hgo as [|[Hs _]]; [done|]. unfold pending in Hp. by rewrite Hs in Hp. }
    eexists 1, _, _. split; [reflexivity|]. apply (accounts_last _ _ _ _ []); try done.
    - unfold Token.is_empty. cbn. intros E%Nat.eqb_eq. lia.
    - unfold read. rewrite Hb, Hp. cbn [andb]. f_equal. by destruct sc; cbn in *; rewrite Hd. }
  destruct (decide (state sc = Ground)) as [Hs|Hs].
  - rewrite bool_decide_true by done.
    destruct (mid_character (utf8_expect sc) b || is_plain b) eqn:Htext.
    { pose proof (text_accounts buffer b rest sc Hrest Hin Hd Hs Htext) as Ha.
      destruct (text_run (b :: rest) (utf8_expect sc)) as [n e]. eexists n, _, _. split; [reflexivity|exact Ha]. }
    destruct (read_boundary b rest sc Hs Hgo Htext) as [He Hread].
    assert (Hopen : ∀ s, s ≠ Ground →
      ∃ n token sc', scan_loop More start rest (go s (clear_sequence (advance sc))) = (sc', Some token) ∧
        accounts buffer rest (go s (clear_sequence (advance sc))) n token sc').
    { intros s Hns. apply IH; try done; cbn; [lia| |].
      - destruct rest; [done|by left].
      - intros _. unfold pending. cbn. by rewrite bool_decide_false. }
    destruct (is_byte 27 b); [|destruct (is_c1 b); [destruct (introduces b) as [s|] eqn:Hi|]].
    + destruct (Hopen Escape) as (n & token & sc' & Hl & Ha); [done|]. exists (S n), token, sc'. split; [exact Hl|].
      eapply accounts_next; [done| | | |exact Ha]; [done|done|]. rewrite Hread. f_equal. by destruct sc; cbn in *; rewrite Hd.
    + destruct (Hopen s (introduces_sequence b s Hi)) as (n & token & sc' & Hl & Ha). exists (S n), token, sc'. split; [exact Hl|].
      eapply accounts_next; [done| | | |exact Ha]; [done|done|]. rewrite Hread. f_equal. by destruct sc; cbn in *; rewrite Hd.
    + eexists 1, _, _. split; [reflexivity|]. apply (accounts_last _ _ _ _ [Ctl b]); try done.
      rewrite Hread. f_equal. by destruct sc; cbn in *; rewrite Hd.
    + eexists 1, _, _. split; [reflexivity|]. apply (accounts_last _ _ _ _ [Ctl b]); try done.
      rewrite Hread. by rewrite Hadv.
  - rewrite bool_decide_false by done. assert (He : utf8_expect sc = 0) by by destruct Hgo as [|[]].
    pose proof (sequence_step_frame b (advance sc)) as (He' & Hp' & Hd' & Hs').
    pose proof (read_sequence b sc Hs Hcancel Hd) as Hread.
    destruct (sequence_step b (advance sc)) as [sc1 [[kind final]|]] eqn:Estep; cbn [fst snd] in *.
    + apply sequence_step_done in Estep as (Hg & Hk1 & Hk2). eexists 1, _, _. split; [reflexivity|].
      apply (accounts_last _ _ _ _ []); [done|by rewrite Hd'|by rewrite He'| |done|].
      * unfold Token.is_empty. cbn. rewrite Hp'. cbn. intros E%Nat.eqb_eq. lia.
      * unfold keys_of. cbn. by destruct kind.
    + destruct (IH sc1) as (n & token & sc' & Hl & Ha).
      * rewrite Hp'. done.
      * rewrite Hp'. done.
      * by rewrite Hd'.
      * rewrite Hp'. cbn. lia.
      * destruct rest; [done|]. left. by rewrite He'.
      * intros _. unfold pending. rewrite bool_decide_false; [done|]. by apply Hs'.
      * exists (S n), token, sc'. split; [exact Hl|].
        eapply accounts_next; [done| | |exact Hread|exact Ha]; [done|by rewrite Hd'].
Qed.

(** The tokens of a buffer say what its bytes say, and every byte is accounted for. *)
Lemma collect_reads buffer fuel : ∀ sc rest,
  drop (pos sc) buffer = rest → pos sc ≤ length buffer → (buffer_done sc = true → rest = []) →
  goes_on rest sc → length rest < fuel →
  let '(tokens, sc') := collect fuel buffer More sc in
  flat_map (keys_of buffer) tokens = (reads rest sc).2 ∧ sc' = at_pos 0 false (reads rest sc).1.
Proof.
  induction fuel as [|fuel IH]; intros sc rest Hrest Hin Hd Hgo Hfuel; [lia|]. cbn [collect]. unfold next_token.
  assert (Hlen : length rest = length buffer - pos sc) by (rewrite <- Hrest; apply length_drop).
  destruct (buffer_done sc || (length buffer <=? pos sc)) eqn:Hend.
  { assert (rest = []) as ->.
    { apply orb_true_iff in Hend as [E|E%Nat.leb_le]; [by apply Hd|]. destruct rest; [done|]. cbn in Hlen. lia. }
    done. }
  apply orb_false_iff in Hend as [Hd' Hlt%Nat.leb_gt]. rewrite Hrest.
  destruct (scan_loop_accounts buffer (if pending sc then 0 else pos sc) rest sc) as (n & token & sc' & -> & Ha);
    [done|done|done|destruct (pending sc); lia|done|intros ->; cbn in Hlen; lia|].
  destruct Ha as [Hn Hsome Hpos Hgo' Hdone Hempty Hreads].
  assert (0 < n) as Hn0 by (apply Hsome; intros ->; cbn in Hlen; lia).
  assert (Token.is_empty token && match Token.kind token with Malformed => true | _ => false end = false) as ->.
  { destruct (Token.is_empty token); [|done]. specialize (Hempty eq_refl). by destruct (Token.kind token). }
  specialize (IH sc' (drop n rest)). destruct (collect fuel buffer More sc') as [tokens sc''].
  destruct IH as [IHk IHs].
  - by rewrite Hpos, <- drop_drop, Hrest.
  - rewrite Hpos. lia.
  - intros E. by rewrite (Hdone E), drop_all.
  - done.
  - rewrite length_drop. lia.
  - cbn [flat_map]. rewrite IHk, Hreads. by rewrite IHs.
Qed.

(** Between buffers the cursor is back at the start. *)
Definition settled (sc : Scanner) : Prop := at_pos 0 false sc = sc.

Lemma reads_settled l sc : settled sc → settled (reads l sc).1.
Proof. unfold settled. intros Hs. rewrite <- Hs at 2. by rewrite reads_at. Qed.

Lemma tokens_read buffer sc :
  settled sc → goes_on buffer sc →
  flat_map (keys_of buffer) (tokens buffer More sc).1 = (reads buffer sc).2 ∧
  (tokens buffer More sc).2 = (reads buffer sc).1.
Proof.
  intros Hs Hgo. unfold tokens. assert (Hp : pos sc = 0) by by rewrite <- Hs.
  assert (Hd : buffer_done sc = false) by by rewrite <- Hs.
  pose proof (collect_reads buffer (length buffer + 2) sc buffer) as H.
  rewrite Hp, Hd in H. destruct (collect _ buffer More sc) as [ts sc']. cbn [fst snd].
  destruct H as [Hk ->]; [done|lia|done|done|lia|]. split; [done|]. by apply reads_settled.
Qed.

(** The end of the stream reports a sequence that is cut short, and says nothing. *)
Lemma tokens_final sc :
  flat_map (keys_of []) (tokens [] Final sc).1 = [] ∧ pending (tokens [] Final sc).2 = false.
Proof.
  unfold tokens. cbn [length Nat.add collect]. unfold next_token. cbn [length]. rewrite orb_true_r.
  destruct (pending (at_pos 0 false sc)) eqn:E; done.
Qed.

(** ** Streams cut into chunks *)

Fixpoint heard (chunks : list (list byte)) (sc : Scanner) : list key * Scanner :=
  match chunks with
  | [] => ([], sc)
  | chunk :: chunks =>
      let '(tokens, sc) := tokens chunk More sc in
      let '(keys, sc) := heard chunks sc in (flat_map (keys_of chunk) tokens ++ keys, sc)
  end.

(** Every leading byte is followed by the continuation bytes it promises, as far as the
    text goes. *)
Definition followed (l : list byte) : Prop :=
  ∀ i b j c, l !! i = Some b → j < promises b → l !! (S i + j) = Some c → is_continuation c = true.

Lemma continuation_promises b : is_continuation b = true → promises b = 0.
Proof.
  rewrite is_continuation_in. intros Hb. unfold promises.
  rewrite (code_in_disjoint 128 191 194 223 b Hb), (code_in_disjoint 128 191 224 239 b Hb),
    (code_in_disjoint 128 191 240 244 b Hb) by lia. done.
Qed.

Lemma char_promises c t : is_utf8_char (c :: t) = true → promises c = length t.
Proof.
  unfold promises. destruct t as [|b [|d [|e [|f t]]]]; cbn [is_utf8_char length]; rewrite ?andb_true_iff; intros H; destruct_and?.
  all: try done.
  all: repeat match goal with
  | E : code_in ?lo ?hi ?x = true |- context [code_in ?lo' ?hi' ?x] =>
      first [rewrite E | rewrite (code_in_disjoint lo hi lo' hi' x E) by lia]
  end; done.
Qed.

Lemma utf8_followed l : is_utf8 l = true → followed l.
Proof.
  revert l. apply is_utf8_ind; [by intros i b j c H|].
  intros ch k Hch _ IH i b j c Hi Hj Hc.
  destruct (is_utf8_char_shape ch Hch) as (a & t & -> & _ & Ht). pose proof (char_promises a t Hch) as Hp.
  destruct (decide (i < length (a :: t))) as [Hlt|Hge].
  - rewrite lookup_app_l in Hi by done. rewrite Forall_lookup in Ht. destruct i as [|i].
    + injection Hi as <-. rewrite Hp in Hj. cbn [Nat.add] in Hc. rewrite lookup_app_l in Hc by (cbn; lia). by apply (Ht j).
    + cbn in Hi. rewrite (continuation_promises b) in Hj by by apply (Ht i). lia.
  - rewrite lookup_app_r in Hi, Hc by lia. apply (IH (i - length (a :: t)) b j c); [done|done|].
    rewrite <- Hc. f_equal. lia.
Qed.

(** What a character still owes after a stream was read. *)
Definition owes (l : list byte) (sc : Scanner) : Prop :=
  utf8_expect sc = 0 ∨
  (state sc = Ground ∧ ∃ i b, l !! i = Some b ∧ utf8_expect sc ≤ promises b ∧ length l + utf8_expect sc = S i + promises b).

Lemma owes_read l b sc : owes l sc → owes (l ++ [b]) (read b sc).1.
Proof.
  intros Ho. unfold read. destruct (is_cancel b && pending sc) eqn:Hc.
  { apply andb_true_iff in Hc as [_ Hp]. destruct Ho as [|[Hs _]]; [by left|]. unfold pending in Hp. by rewrite Hs in Hp. }
  case_bool_decide as Hs.
  2:{ destruct Ho as [He|[? _]]; [|done]. left. cbn [fst]. by rewrite (proj1 (sequence_step_frame b sc)). }
  destruct (mid_character (utf8_expect sc) b) eqn:Hm.
  - destruct Ho as [He|(_ & i & a & Hi & Hle & Hl)]; [unfold mid_character in Hm; by rewrite He in Hm|].
    unfold mid_character in Hm. apply andb_true_iff in Hm as [Hm%Nat.ltb_lt _]. right. split; [done|].
    exists i, a. cbn. rewrite length_app. cbn. split; [by apply lookup_app_l_Some|lia].
  - destruct (is_plain b).
    + destruct (decide (promises b = 0)) as [E|E]; [by left|]. right. split; [done|]. exists (length l), b. cbn.
      rewrite length_app. cbn. split; [by rewrite lookup_app_r, Nat.sub_diag by lia|lia].
    + left. destruct (is_byte 27 b); [done|]. destruct (is_c1 b); [|done]. by destruct (introduces b).
Qed.

Lemma owes_reads l : owes l (reads l fresh).1.
Proof.
  induction l as [|b l IH] using rev_ind; [by left|]. rewrite reads_app. cbn [fst reads].
  pose proof (owes_read l b _ IH) as H. by destruct (read b (reads l fresh).1).
Qed.

(** Text that is UTF-8 may be cut anywhere, within a character too. *)
Lemma utf8_goes_on a b : is_utf8 (a ++ b) = true → goes_on b (reads a fresh).1.
Proof.
  intros Hu%utf8_followed. destruct b as [|c b]; [done|]. destruct (owes_reads a) as [He|(Hs & i & x & Hi & Hle & Hl)]; [by left|].
  destruct (decide (utf8_expect (reads a fresh).1 = 0)) as [|Hne]; [by left|]. right. split; [done|].
  apply (Hu i x (promises x - utf8_expect (reads a fresh).1)).
  - by apply lookup_app_l_Some.
  - lia.
  - replace (S i + _) with (length a) by lia. by rewrite lookup_app_r, Nat.sub_diag by lia.
Qed.

Lemma heard_utf8 chunks : ∀ a, is_utf8 (a ++ concat chunks) = true →
  heard chunks (reads a fresh).1 = ((reads (concat chunks) (reads a fresh).1).2, (reads (concat chunks) (reads a fresh).1).1).
Proof.
  induction chunks as [|chunk chunks IH]; intros a Hu; [done|]. cbn [heard concat] in *.
  assert (Hgo : goes_on chunk (reads a fresh).1).
  { pose proof (utf8_goes_on a _ Hu) as Hgo. by destruct chunk. }
  destruct (tokens_read chunk (reads a fresh).1) as [Hk Hs]; [by apply reads_settled|done|].
  destruct (tokens chunk More (reads a fresh).1) as [ts sc]. cbn [fst snd] in *. subst sc.
  assert (Ea : (reads chunk (reads a fresh).1).1 = (reads (a ++ chunk) fresh).1) by by rewrite reads_app.
  rewrite (reads_app chunk), Ea, (IH (a ++ chunk)), Hk by by rewrite <- (assoc_L (++)). done.
Qed.

(** ** What the model shows of the code *)

(** A stream that is no UTF-8 does not mean the same however it is cut.  Behind the first
    byte of a character and a bell, [0x96] is a control; where the stream was cut behind
    that first byte, the character is still owed when the bell has passed, and [0x96] is
    text. *)
Lemma cut_changes_meaning :
  (heard [[byte_of 230; byte_of 7; byte_of 150]] fresh).1 = [Put (byte_of 230); Ctl (byte_of 7); Ctl (byte_of 150)] ∧
  (heard [[byte_of 230]; [byte_of 7; byte_of 150]] fresh).1 = [Put (byte_of 230); Ctl (byte_of 7); Put (byte_of 150)].
Proof. split; vm_compute; reflexivity. Qed.
