(* ===== verification/Shell.v ===== *)
(** * Shell sessions: [supra_shell/src/shaping.rs], [session.rs]

    What is kept of a terminal's output: tokens of the escape-sequence scanner ([Scan]) move
    a cursor over an open line, lines that end are cut to a width and kept in a ring of the
    last ones.  The line is edited byte by byte and empty lines are not kept, so this is not
    the screen a terminal draws.  The planner of the cut and the width tables are parameters.
    A session drives one process and shapes what it prints. *)

From Stdlib Require Import Ascii.
From S2P Require Import Prelude Text Sealing Utf8 Canonical Framing Scan.

(** ** Shaping *)

Definition backspace : byte := "008".
Definition blank : byte := " ".

Record Shaped := mkShaped {
  stat_lines : nat; stat_cells : nat; stat_truncated : nat; stat_dropped : nat; stat_prompt : bool }.

Definition is_ascii_white (c : byte) : bool := bool_decide (N_of_ascii c ∈ [32; 9; 10; 12; 13]%N).

Definition trim_ascii_end (l : list byte) : list byte := reverse (drop_while is_ascii_white (reverse l)).

Definition prompt_glyphs : list byte := ["$"%char; ">"%char; "#"%char; "%"%char; ":"%char].

Section shaping.
(** [plan_truncate]: how much of a line fits, and whether it was cut; [width::width]. *)
Context (plan_truncate : list byte → nat → nat * bool) (width : list byte → nat).

Record Shaper := mkShaper {
  scanner : Scanner; line : list byte; cursor : nat; ring : list (list byte);
  truncated_lines : nat; dropped_lines : nat; max_line_cells : nat; max_lines : nat; finished : bool }.

Definition new_shaper (max_line_cells max_lines : nat) : Shaper :=
  mkShaper fresh [] 0 [] 0 0 max_line_cells max_lines false.

Definition with_line (line : list byte) (cursor : nat) (s : Shaper) : Shaper :=
  mkShaper (scanner s) line cursor (ring s) (truncated_lines s) (dropped_lines s) (max_line_cells s) (max_lines s) (finished s).

Definition with_ring (ring : list (list byte)) (truncated dropped : nat) (s : Shaper) : Shaper :=
  mkShaper (scanner s) (line s) (cursor s) ring truncated dropped (max_line_cells s) (max_lines s) (finished s).

Definition with_scanner (scanner : Scanner) (finished : bool) (s : Shaper) : Shaper :=
  mkShaper scanner (line s) (cursor s) (ring s) (truncated_lines s) (dropped_lines s) (max_line_cells s) (max_lines s) finished.

Definition write_at_cursor (text : list byte) (s : Shaper) : Shaper :=
  if cursor s =? length (line s) then
    let line := line s ++ text in with_line line (length line) s
  else
    let stop := cursor s + length text in
    let line := if length (line s) <? stop then line s ++ replicate (stop - length (line s)) blank else line s in
    with_line (take (cursor s) line ++ text ++ drop stop line) stop s.

Definition commit_open_line (s : Shaper) : Shaper :=
  let line := line s in
  let s := with_line [] 0 s in
  if bool_decide (line = []) then s
  else
    let '(prefix_len, was_truncated) := plan_truncate line (max_line_cells s) in
    let truncated := if was_truncated then truncated_lines s + 1 else truncated_lines s in
    let kept := take prefix_len line in
    if max_lines s =? 0 then with_ring (ring s) truncated (dropped_lines s + 1) s
    else
      let full := length (ring s) =? max_lines s in
      let dropped := if full then dropped_lines s + 1 else dropped_lines s in
      with_ring ((if full then tail (ring s) else ring s) ++ [kept]) truncated dropped s.

(** A run of text commits a line at each line end in it. *)
Fixpoint apply_text (fuel : nat) (remaining : list byte) (s : Shaper) : Shaper :=
  let write text s := if bool_decide (text = []) then s else write_at_cursor text s in
  match fuel, position lf remaining with
  | Datatypes.S fuel, Some at_ =>
      apply_text fuel (drop (Datatypes.S at_) remaining) (commit_open_line (write (take at_ remaining) s))
  | _, _ => write remaining s
  end.

Definition apply (buffer : list byte) (token : Token.t) (s : Shaper) : Shaper :=
  match Token.kind token with
  | Partial | Malformed | Csi | Esc | Osc | Dcs | Apc => s
  | Control =>
      let c := Token.final_byte token in
      if bool_decide (c = lf) then commit_open_line s
      else if bool_decide (c = cr) then with_line (line s) 0 s
      else if bool_decide (c = backspace) then with_line (line s) (cursor s - 1) s
      else s
  | TextRun =>
      match Token.text buffer token with
      | None => s
      | Some text => apply_text (length text) text s
      end
  end.

Definition push (bytes : list byte) (s : Shaper) : Shaper :=
  if finished s then s
  else
    let '(tokens, scanner) := tokens bytes More (scanner s) in
    foldl (λ s token, apply bytes token s) (with_scanner scanner false s) tokens.

Definition suggests_prompt (s : Shaper) : bool :=
  if finished s then false
  else if bool_decide (line s = []) || ends_with [lf] (line s) then false
  else if 16 <? length (line s) then false
  else if ends_with [backslash] (line s) then false
  else
    match last (trim_ascii_end (line s)) with
    | None => false
    | Some c => bool_decide (c ∈ prompt_glyphs)
    end.

Definition stats (s : Shaper) : Shaped :=
  mkShaped (length (ring s)) (sum_list_with width (ring s)) (truncated_lines s) (dropped_lines s) (suggests_prompt s).

Definition finish (s : Shaper) : Shaper * Shaped :=
  let s :=
    if finished s then s
    else
      let '(tokens, scanner) := tokens [] Final (scanner s) in
      let s := foldl (λ s token, apply [] token s) (with_scanner scanner false s) tokens in
      with_scanner scanner true s in
  let s := commit_open_line s in
  (s, stats s).

Definition render (s : Shaper) : list byte :=
  join_with lf (ring s) ++
  (if bool_decide (line s = []) then []
   else (if bool_decide (ring s = []) then [] else [lf]) ++ line s).

(** ** Editing a page

    The reading of the keys without bounds: the lines that have ended, and the open one with
    its cursor.  A column is a byte, and a line that ends empty leaves nothing. *)
Record Page := mkPage { ended : list (list byte); open_line : list byte; column : nat }.

Definition blank_page : Page := mkPage [] [] 0.

Definition enter (t : Page) : Page :=
  mkPage (ended t ++ if bool_decide (open_line t = []) then [] else [open_line t]) [] 0.

(** A byte replaces the one under the cursor, or extends the line. *)
Definition edit (t : Page) (k : key) : Page :=
  match k with
  | Put b =>
      if bool_decide (b = lf) then enter t
      else mkPage (ended t) (take (column t) (open_line t) ++ [b] ++ drop (Datatypes.S (column t)) (open_line t))
             (Datatypes.S (column t))
  | Ctl c =>
      if bool_decide (c = lf) then enter t
      else if bool_decide (c = cr) then mkPage (ended t) (open_line t) 0
      else if bool_decide (c = backspace) then mkPage (ended t) (open_line t) (column t - 1)
      else t
  end.

Definition cut (cells : nat) (l : list byte) : list byte := take (plan_truncate l cells).1 l.

Definition is_cut (cells : nat) (l : list byte) : bool := (plan_truncate l cells).2.

(** A shaper shows a page: its open line, and of the others the last, each cut. *)
Record shows (s : Shaper) (t : Page) : Prop := {
  sh_line : line s = open_line t;
  sh_cursor : cursor s = column t;
  sh_inside : column t ≤ length (open_line t);
  sh_ring : ring s = drop (length (ended t) - max_lines s) (cut (max_line_cells s) <$> ended t);
  sh_dropped : dropped_lines s = length (ended t) - max_lines s;
  sh_truncated : truncated_lines s = length (List.filter (is_cut (max_line_cells s)) (ended t)) }.

Lemma edit_run text : ∀ t, column t ≤ length (open_line t) → lf ∉ text →
  foldl edit t (Put <$> text) =
  mkPage (ended t) (take (column t) (open_line t) ++ text ++ drop (column t + length text) (open_line t))
    (column t + length text).
Proof.
  induction text as [|b text IH]; intros [d l c] Hc Hno; cbn [ended open_line column] in *.
  { cbn. by rewrite Nat.add_0_r, take_drop. }
  apply not_elem_of_cons in Hno as [Hb Hno]. cbn [fmap list_fmap foldl edit ended open_line column].
  rewrite bool_decide_false by done. rewrite IH; cbn [ended open_line column]; [|rewrite !length_app, length_take, length_drop; cbn; lia|done].
  assert (Hl : length (take c l ++ [b]) = Datatypes.S c) by (rewrite length_app, length_take; cbn; lia).
  rewrite (assoc_L (++) (take c l) [b]). rewrite (take_app_length' (take c l ++ [b])) by lia.
  rewrite drop_app_ge by lia. rewrite Hl, drop_drop. cbn [length]. rewrite <- !(assoc_L (++)).
  replace (Datatypes.S c + (Datatypes.S c + length text - Datatypes.S c)) with (c + Datatypes.S (length text)) by lia.
  by replace (Datatypes.S c + length text) with (c + Datatypes.S (length text)) by lia.
Qed.

Lemma write_shows text s t : lf ∉ text → shows s t → shows (write_at_cursor text s) (foldl edit t (Put <$> text)).
Proof.
  intros Hno [Hl Hc Hin Hr Hd Ht]. rewrite edit_run by done. unfold write_at_cursor. rewrite Hl, Hc.
  destruct (Nat.eqb_spec (column t) (length (open_line t))) as [E|E].
  - split; cbn; try done.
    + by rewrite take_ge, drop_ge, app_nil_r by lia.
    + rewrite length_app. lia.
    + rewrite !length_app, length_take, length_drop. lia.
  - set (stop := column t + length text). split; cbn; try done; [|rewrite !length_app, length_take, length_drop; lia].
    destruct (Nat.ltb_spec (length (open_line t)) stop) as [Hs|Hs]; [|done].
    rewrite take_app_le by lia. f_equal. f_equal.
    rewrite !drop_ge; [done|lia|]. rewrite length_app, length_replicate. lia.
Qed.

Lemma commit_shows s t : shows s t → shows (commit_open_line s) (enter t).
Proof.
  intros [Hl Hc Hin Hr Hd Ht]. unfold commit_open_line, enter. rewrite Hl.
  case_bool_decide as Hne.
  { rewrite app_nil_r. by split. }
  destruct (plan_truncate (open_line t) (max_line_cells (with_line [] 0 s))) as [n b] eqn:E.
  assert (Hcut : take n (open_line t) = cut (max_line_cells s) (open_line t)) by (unfold cut; cbn in E; by rewrite E).
  assert (Htr : (if b then truncated_lines s + 1 else truncated_lines s) =
    length (List.filter (is_cut (max_line_cells s)) (ended t ++ [open_line t]))).
  { assert (Hb : is_cut (max_line_cells s) (open_line t) = b) by (unfold is_cut; cbn in E; by rewrite E).
    rewrite List.filter_app, length_app, Ht. cbn [List.filter]. rewrite Hb. destruct b; cbn [length]; lia. }
  assert (Hlen : length (ring s) = Nat.min (length (ended t)) (max_lines s))
    by (rewrite Hr, length_drop, length_fmap; lia).
  cbn [max_lines with_line]. destruct (Nat.eqb_spec (max_lines s) 0) as [H0|H0].
  - split; cbn; try done.
    + rewrite Hr, H0, !Nat.sub_0_r, !drop_ge; [done|..]; rewrite length_fmap; rewrite ?length_app; cbn; lia.
    + rewrite Hd, length_app. cbn. lia.
  - split; cbn; try done.
    + rewrite Hcut, fmap_app, length_app. cbn [length fmap list_fmap].
      destruct (Nat.eqb_spec (length (ring s)) (max_lines s)) as [Hf|Hf].
      * replace (length (ended t) + 1 - max_lines s) with (Datatypes.S (length (ended t) - max_lines s)) by lia.
        rewrite drop_app_le by (rewrite length_fmap; lia). f_equal. rewrite Hr.
        assert (Htl : ∀ l : list (list byte), tail l = drop 1 l) by by intros []. rewrite Htl, drop_drop. f_equal. lia.
      * replace (length (ended t) + 1 - max_lines s) with 0 by lia. rewrite drop_0. f_equal.
        rewrite Hr. by replace (length (ended t) - max_lines s) with 0 by lia.
    + rewrite Hd, length_app. cbn. destruct (Nat.eqb_spec (length (ring s)) (max_lines s)); lia.
Qed.

Lemma write_run_shows text s t : lf ∉ text → shows s t →
  shows (if bool_decide (text = []) then s else write_at_cursor text s) (foldl edit t (Put <$> text)).
Proof. intros Hno Hs. case_bool_decide as E; [by subst|by apply write_shows]. Qed.

Lemma apply_text_shows fuel : ∀ text s t, length text ≤ fuel → shows s t →
  shows (apply_text fuel text s) (foldl edit t (Put <$> text)).
Proof.
  induction fuel as [|fuel IH]; intros text s t Hf Hs; cbn [apply_text].
  { destruct text; [|cbn in Hf; lia]. by apply write_run_shows; [apply not_elem_of_nil|]. }
  destruct (position lf text) as [i|] eqn:E; [|by apply write_run_shows; [apply position_None|]].
  apply position_split in E as [E Hno]. remember (take i text) as a. remember (drop (Datatypes.S i) text) as r.
  rewrite E, fmap_app, foldl_app. cbn [fmap list_fmap foldl edit]. rewrite (bool_decide_true (lf = lf)) by done.
  apply IH; [|by apply commit_shows, write_run_shows]. rewrite E, length_app in Hf. cbn [length] in Hf. lia.
Qed.

Lemma apply_shows buffer token s t : shows s t → shows (apply buffer token s) (foldl edit t (keys_of buffer token)).
Proof.
  intros Hs. unfold apply, keys_of. destruct (Token.kind token); try done.
  - destruct (Token.text buffer token) as [text|]; [|done]. by apply apply_text_shows.
  - cbn [foldl edit]. destruct Hs as [Hl Hc Hin Hr Hd Ht].
    repeat case_bool_decide; [by apply commit_shows|split; cbn; try done; lia..|by split].
Qed.

Lemma tokens_shows buffer tokens : ∀ s t, shows s t →
  shows (foldl (λ s token, apply buffer token s) s tokens) (foldl edit t (flat_map (keys_of buffer) tokens)).
Proof.
  induction tokens as [|token tokens IH]; intros s t Hs; [done|]. cbn [foldl flat_map]. rewrite foldl_app.
  by apply IH, apply_shows.
Qed.

(** Applying tokens touches neither the scanner nor the bounds. *)
Definition same_setup (s s' : Shaper) : Prop :=
  scanner s' = scanner s ∧ finished s' = finished s ∧ max_lines s' = max_lines s ∧ max_line_cells s' = max_line_cells s.

#[local] Instance same_setup_preorder : PreOrder same_setup.
Proof. split; [by intros s|]. intros x y z (? & ? & ? & ?) (? & ? & ? & ?). unfold same_setup. split_and!; congruence. Qed.

Lemma write_setup text s : same_setup s (write_at_cursor text s).
Proof. unfold write_at_cursor. by destruct (_ =? _). Qed.

Lemma commit_setup s : same_setup s (commit_open_line s).
Proof. unfold commit_open_line. case_bool_decide; [done|]. destruct (plan_truncate _ _). by destruct (_ =? _). Qed.

Lemma apply_text_setup fuel : ∀ text s, same_setup s (apply_text fuel text s).
Proof.
  assert (Hw : ∀ text s, same_setup s (if bool_decide (text = []) then s else write_at_cursor text s))
    by (intros text s; case_bool_decide; [done|apply write_setup]).
  induction fuel as [|fuel IH]; intros text s; cbn [apply_text]; [apply Hw|].
  destruct (position lf text); [|apply Hw]. etrans; [|apply IH]. etrans; [|apply commit_setup]. apply Hw.
Qed.

Lemma apply_setup buffer token s : same_setup s (apply buffer token s).
Proof.
  unfold apply. destruct (Token.kind token); try done.
  - destruct (Token.text buffer token); [apply apply_text_setup|done].
  - repeat case_bool_decide; try done. apply commit_setup.
Qed.

Lemma tokens_setup buffer tokens : ∀ s, same_setup s (foldl (λ s token, apply buffer token s) s tokens).
Proof.
  induction tokens as [|token tokens IH]; intros s; [done|]. cbn [foldl]. etrans; [apply apply_setup|apply IH].
Qed.

(** A shaper that is open, with its bounds, its scanner and what it shows. *)
Record reached (cells count : nat) (s : Shaper) (sc : Scanner) (t : Page) : Prop := {
  re_cells : max_line_cells s = cells;
  re_count : max_lines s = count;
  re_shows : shows s t;
  re_scanner : scanner s = sc;
  re_open : finished s = false }.

(** That is all there is to one. *)
Lemma reached_unique cells count s s' sc t : reached cells count s sc t → reached cells count s' sc t → s = s'.
Proof.
  intros [Hc Hn [Hl Hcur _ Hr Hd Ht] Hsc Ho] [Hc' Hn' [Hl' Hcur' _ Hr' Hd' Ht'] Hsc' Ho'].
  destruct s, s'. cbn in *. congruence.
Qed.

Lemma new_reached cells count : reached cells count (new_shaper cells count) fresh blank_page.
Proof. by split. Qed.

Lemma push_reached cells count chunk s sc t :
  reached cells count s sc t →
  let '(tokens, sc') := tokens chunk More sc in
  reached cells count (push chunk s) sc' (foldl edit t (flat_map (keys_of chunk) tokens)).
Proof.
  intros [Hc Hn Hs Hsc Ho]. unfold push. rewrite Ho, Hsc. destruct (tokens chunk More sc) as [ts sc'].
  destruct (tokens_setup chunk ts (with_scanner sc' false s)) as (Hsc' & Ho' & Hn' & Hc'). split.
  - by rewrite Hc'.
  - by rewrite Hn'.
  - apply tokens_shows. by destruct Hs; split.
  - by rewrite Hsc'.
  - by rewrite Ho'.
Qed.

Definition pushes (chunks : list (list byte)) (s : Shaper) : Shaper := foldl (λ s chunk, push chunk s) s chunks.

Lemma pushes_reached cells count chunks : ∀ s sc t, reached cells count s sc t →
  reached cells count (pushes chunks s) (heard chunks sc).2 (foldl edit t (heard chunks sc).1).
Proof.
  induction chunks as [|chunk chunks IH]; intros s sc t Hs; cbn [pushes foldl heard]; [done|].
  pose proof (push_reached cells count chunk s sc t Hs) as H. destruct (tokens chunk More sc) as [ts sc'].
  specialize (IH _ _ _ H). unfold pushes in IH. destruct (heard chunks sc') as [keys sc'']. cbn [fst snd] in *.
  by rewrite foldl_app.
Qed.

(** The end of the stream says nothing, so that what is left is to end the open line. *)
Lemma finish_tokens s t : shows s t →
  let '(tokens, sc) := tokens [] Final (scanner s) in
  let s' := commit_open_line (with_scanner sc true (foldl (λ s token, apply [] token s) (with_scanner sc false s) tokens)) in
  shows s' (enter t) ∧ length (ring s') ≤ max_lines s ∧ finished s' = true.
Proof.
  intros Hs. pose proof (proj1 (tokens_final (scanner s))) as Hk.
  destruct (tokens [] Final (scanner s)) as [ts sc]. cbn [fst] in Hk.
  destruct (tokens_setup [] ts (with_scanner sc false s)) as (_ & _ & Hn & _).
  set (s1 := foldl _ (with_scanner sc false s) ts) in *.
  assert (H1 : shows s1 t).
  { change t with (foldl edit t []). rewrite <- Hk. apply tokens_shows. by destruct Hs; split. }
  assert (H2 : shows (commit_open_line (with_scanner sc true s1)) (enter t)) by (apply commit_shows; by destruct H1; split).
  destruct (commit_setup (with_scanner sc true s1)) as (_ & Hf & Hc & _).
  split; [exact H2|]. split; [|exact Hf].
  rewrite (sh_ring _ _ H2), length_drop, length_fmap, Hc. cbn [max_lines with_scanner]. rewrite Hn. cbn. lia.
Qed.

(** C29. What the shaping of a session's output holds, whatever the chunks it came in.  After
    any chunks it shows the page edited by what the scanner made of each: the open line
    with its cursor, and of the lines that have ended the last, each cut to its width, the
    others and the cuts counted.  When the stream is UTF-8 the cuts do not matter, not even
    one within a character or an escape sequence: the shaper is, in every part, the one
    that was given the whole stream at once, and the page is the one edited by the bytes
    of the stream read one by one.  Finishing ends the open line, and nothing is taken any
    more.  (Of other streams the scanner makes different things as they are cut:
    [cut_changes_meaning].) *)
Theorem transcript_exact cells count chunks :
  let s := pushes chunks (new_shaper cells count) in
  let page := foldl edit blank_page (heard chunks fresh).1 in
  shows s page ∧
  (is_utf8 (concat chunks) = true →
     s = push (concat chunks) (new_shaper cells count) ∧
     page = foldl edit blank_page (reads (concat chunks) fresh).2) ∧
  let '(s', st) := finish s in
  shows s' (enter page) ∧ line s' = [] ∧ stat_lines st = length (ring s') ∧ length (ring s') ≤ count ∧
  ∀ chunk, push chunk s' = s'.
Proof.
  intros s page. pose proof (pushes_reached cells count chunks _ _ _ (new_reached cells count)) as Hreached.
  fold s page in Hreached. split; [apply (re_shows _ _ _ _ _ Hreached)|]. split.
  { intros Hu. pose proof (heard_utf8 chunks [] Hu) as Hh. cbn [reads fst] in Hh.
    split; [|unfold page; by rewrite Hh]. apply (reached_unique _ _ _ _ _ _ Hreached). unfold page.
    pose proof (pushes_reached cells count [concat chunks] _ _ _ (new_reached cells count)) as Hone.
    pose proof (heard_utf8 [concat chunks] []) as Hh1. cbn [concat reads fst] in Hh1. rewrite !app_nil_r in Hh1.
    rewrite Hh1, <- Hh in Hone by done. exact Hone. }
  destruct Hreached as [Hc Hn Hs Hsc Ho]. unfold finish. rewrite Ho.
  pose proof (finish_tokens s page Hs) as H. rewrite Hsc in H |- *.
  destruct (tokens [] Final (heard chunks fresh).2) as [ts sc]. cbn [fst snd] in *.
  destruct H as (H2 & Hlen & Hf). rewrite Hn in Hlen.
  split; [exact H2|]. split; [by rewrite (sh_line _ _ H2)|]. split; [done|]. split; [exact Hlen|].
  intros chunk. unfold push. by rewrite Hf.
Qed.
End shaping.

(** ** Sessions *)

Section session.
Context {Process Refusal : Type}.

Inductive ShellError := Pty | Spawn (refusal : Refusal) | NotRunning.

(** What a read of the terminal gives: some bytes, none, an interruption, the error of a
    closed other end, or another error. *)
Inductive ReadOutcome := Bytes (bytes : list byte) | Interrupted | Hangup | Failed.

Section over.
Context (plan_truncate : list byte → nat → nat * bool) (width : list byte → nat).

Record Session := mkSession { process : option Process; shaper : Shaper }.

(** The marker a child is given: one of its own where the process issues them, else the
    request's. *)
Definition child_marker (issued : result (option (list byte)) Refusal) (requested : option (list byte)) :
    result (option (list byte)) ShellError :=
  let? issued := map_err Spawn issued in
  Ok (match issued with Some marker => Some marker | None => requested end).

(** The child runs under the sandbox with the terminal's end as its streams, or there is
    no session. *)
Definition spawn (issued : result (option (list byte)) Refusal) (requested : option (list byte))
    (pty : option (option Z)) (sandboxed : option (list byte) → Z → result Process Refusal) (sh : Shaper) :
    result Session ShellError :=
  let? marker := child_marker issued requested in
  let? slave := ok_or pty Pty in
  let? slave_fd := ok_or slave Pty in
  let? p := map_err Spawn (sandboxed marker slave_fd) in
  Ok (mkSession (Some p) sh).

(** The outcomes the terminal has in store; the first that is no interruption counts. *)
Fixpoint read (outcomes : list ReadOutcome) (out : list byte) (s : Session) :
    option (Session * list byte * result (option Shaped) ShellError) :=
  match outcomes with
  | [] => None
  | Bytes [] :: _ => Some (s, out, Ok None)
  | Bytes bytes :: _ =>
      let sh := push plan_truncate bytes (shaper s) in
      Some (mkSession (process s) sh, out ++ bytes, Ok (Some (stats width sh)))
  | Interrupted :: outcomes => read outcomes out s
  | Hangup :: _ => Some (s, out, Ok None)
  | Failed :: _ => Some (s, out, Err Pty)
  end.

Definition wait (status : Process → result (option Z) ShellError) (s : Session) :
    Session * result (option Z) ShellError :=
  match process s with
  | None => (s, Err NotRunning)
  | Some p =>
      match status p with
      | Err e => (s, Err e)
      | Ok status => (if bool_decide (is_Some status) then mkSession None (shaper s) else s, Ok status)
      end
  end.

Definition kill (killed : Process → bool) (s : Session) : Session * result bool ShellError :=
  match process s with
  | None => (s, Err NotRunning)
  | Some p => (if killed p then mkSession None (shaper s) else s, Ok (killed p))
  end.

Definition session_stats (s : Session) : Shaped := stats width (shaper s).
Definition session_render (s : Session) : list byte := render (shaper s).
End over.
End session.

(** ** What the model shows of the code *)

Definition no_cut (l : list byte) (cells : nat) : nat * bool := (cells, cells <? length l).

Definition shaped (cells count : nat) (stream : list byte) : Shaper :=
  push no_cut stream (new_shaper cells count).


Definition e_acute : list byte := ascii_of_N <$> [195; 169]%N.

(** A backspace moves one byte left: behind a character of two bytes, what follows
    replaces its second byte. *)
Lemma backspace_splits_character :
  is_utf8 (e_acute ++ [backspace] ++ bytes "e") = true ∧
  render (shaped 80 10 (e_acute ++ [backspace] ++ bytes "e")) = [ascii_of_N 195; "e"%char] ∧
  is_utf8 [ascii_of_N 195; "e"%char] = false.
Proof. split_and!; vm_compute; reflexivity. Qed.

(** So does text behind a carriage return over a character wider than it. *)
Lemma overwrite_splits_character :
  render (shaped 80 10 (e_acute ++ [cr] ++ bytes "e")) = ["e"%char; ascii_of_N 169].
Proof. vm_compute. reflexivity. Qed.

(** An empty line is neither kept nor counted as dropped. *)
Lemma blank_line_vanishes :
  let s := shaped 80 10 (bytes "a" ++ [lf; lf] ++ bytes "b") in
  render s = bytes "a" ++ [lf] ++ bytes "b" ∧ dropped_lines s = 0.
Proof. split; vm_compute; reflexivity. Qed.

(** The module's contract, one answer for one byte stream, does not hold of a stream that
    is no UTF-8. *)
Lemma chunks_change_transcript :
  let cut := [[byte_of 230]; [byte_of 7; byte_of 150]] in
  render (pushes no_cut cut (new_shaper 80 10)) = [byte_of 230; byte_of 150] ∧
  render (shaped 80 10 (concat cut)) = [byte_of 230].
Proof. split; vm_compute; reflexivity. Qed.

(** A progress line, cut within its colour and within a character. *)
Definition progress : list (list byte) :=
  [bytes "one" ++ [lf] ++ [byte_of 27] ++ bytes "[3"; bytes "1m5" ++ [byte_of 195]; [byte_of 169] ++ [cr] ++ bytes "75"; bytes "%" ++ [lf] ++ bytes "$ "].

Lemma transcript_exact_witness :
  let s := pushes no_cut progress (new_shaper 80 2) in
  is_utf8 (concat progress) = true ∧ s = push no_cut (concat progress) (new_shaper 80 2) ∧
  render s = bytes "one" ++ [lf] ++ bytes "75%" ++ [lf] ++ bytes "$ " ∧ suggests_prompt s = true.
Proof.
  intros s. assert (Hu : is_utf8 (concat progress) = true) by (vm_compute; reflexivity).
  split; [exact Hu|]. split; [|split; vm_compute; reflexivity].
  exact (proj1 (proj1 (proj2 (transcript_exact no_cut length 80 2 progress)) Hu)).
Defined.
