(* ===== verification/Sandbox.v ===== *)
(** * The process sandbox: [supra_ffi/src/sandbox.rs], [supra_sandbox/src/policy.rs],
      [fd_audit.rs], [spawn.rs], [tree.rs]

    A policy and a command are collected on this side of the foreign interface and handed
    over whole; before that the open descriptors are audited and the guard of [Guard]
    judges the request.  The constructors of the native policy ([policy.cpp]) are modelled;
    the native call itself is a parameter, as are what the kernel says of the descriptors
    and what the guard asks of the system. *)

From Stdlib Require Import Ascii.
From S2P Require Import Prelude Text Sealing Utf8 FileSystem Permission Lineage Guard.

(** ** The policy and the command *)

Module Ffi.
Inductive Error := InteriorNul | NotAbsolute (path : list byte) | TableFull | Refused (message : list byte) | WaitFailed.

#[global] Instance Error_eq_dec : EqDecision Error.
Proof. solve_decision. Defined.

Inductive Tier := NoTier | Namespaces | Landlock | Sbpl | AppContainer.

Definition tier_to_raw (t : Tier) : N :=
  match t with NoTier => 0 | Namespaces => 1 | Landlock => 2 | Sbpl => 3 | AppContainer => 4 end.

Definition tier_from_raw (raw : N) : Tier :=
  if (raw =? 1)%N then Namespaces else if (raw =? 2)%N then Landlock
  else if (raw =? 3)%N then Sbpl else if (raw =? 4)%N then AppContainer else NoTier.

Definition enforces_filesystem (t : Tier) : bool :=
  match t with Landlock | Sbpl | AppContainer => true | _ => false end.

(** Sets of rights: one bit each. *)
Definition READ : N := 1.
Definition WRITE : N := 2.
Definition EXECUTE : N := 4.
Definition MANAGE : N := 8.
Definition read_execute : N := N.lor READ EXECUTE.
Definition workspace_access : N := N.lor (N.lor READ WRITE) MANAGE.

Inductive Network := NoNetwork | Ports | Full.

Definition network_to_raw (n : Network) : N := match n with NoNetwork => 0 | Ports => 1 | Full => 2 end.

Definition MAX_PATHS : nat := 64.
Definition MAX_PORTS : nat := 16.

Record Policy := mkPolicy {
  paths : list (list byte * N); network : Network; ports : list N;
  isolate_processes : bool; isolate_ipc : bool;
  max_processes : N; max_address_space : N; max_cpu_seconds : N; max_file_size : N;
  required_tier : option Tier }.

Definition new_policy : Policy := mkPolicy [] NoNetwork [] false false 0 0 0 0 None.

Definition nul : byte := ascii_of_N 0.

(** [CString::new]. *)
Definition c_string (l : list byte) : result (list byte) Error :=
  if bool_decide (nul ∈ l) then Err InteriorNul else Ok l.

Definition is_absolute (path : list byte) : bool := starts_with [slash] path.

Definition allow (path : list byte) (access : N) (p : Policy) : result Policy Error :=
  if negb (is_absolute path) then Err (NotAbsolute path)
  else if MAX_PATHS <=? length (paths p) then Err TableFull
  else
    let? raw := c_string path in
    Ok (mkPolicy (paths p ++ [(raw, access)]) (network p) (ports p) (isolate_processes p) (isolate_ipc p)
          (max_processes p) (max_address_space p) (max_cpu_seconds p) (max_file_size p) (required_tier p)).

Definition with_ports (ports : list N) (network : Network) (p : Policy) : Policy :=
  mkPolicy (paths p) network ports (isolate_processes p) (isolate_ipc p)
    (max_processes p) (max_address_space p) (max_cpu_seconds p) (max_file_size p) (required_tier p).

Definition allow_port (port : N) (p : Policy) : result Policy Error :=
  if bool_decide (port ∈ ports p) then Ok (with_ports (ports p) Ports p)
  else if MAX_PORTS <=? length (ports p) then Err TableFull
  else Ok (with_ports (ports p ++ [port]) Ports p).

Definition set_network (n : Network) (p : Policy) : Policy := with_ports (ports p) n p.

Definition set_isolation (processes ipc : bool) (p : Policy) : Policy :=
  mkPolicy (paths p) (network p) (ports p) processes ipc
    (max_processes p) (max_address_space p) (max_cpu_seconds p) (max_file_size p) (required_tier p).

Definition set_isolate_processes (isolate : bool) (p : Policy) : Policy := set_isolation isolate (isolate_ipc p) p.
Definition set_isolate_ipc (isolate : bool) (p : Policy) : Policy := set_isolation (isolate_processes p) isolate p.

Definition set_limits (processes address_space cpu_seconds file_size : N) (p : Policy) : Policy :=
  mkPolicy (paths p) (network p) (ports p) (isolate_processes p) (isolate_ipc p)
    processes address_space cpu_seconds file_size (required_tier p).

Definition set_max_processes (n : N) (p : Policy) : Policy :=
  set_limits n (max_address_space p) (max_cpu_seconds p) (max_file_size p) p.
Definition set_max_address_space (n : N) (p : Policy) : Policy :=
  set_limits (max_processes p) n (max_cpu_seconds p) (max_file_size p) p.
Definition set_max_cpu_seconds (n : N) (p : Policy) : Policy :=
  set_limits (max_processes p) (max_address_space p) n (max_file_size p) p.
Definition set_max_file_size (n : N) (p : Policy) : Policy :=
  set_limits (max_processes p) (max_address_space p) (max_cpu_seconds p) n p.

Definition require_tier (t : Tier) (p : Policy) : Policy :=
  mkPolicy (paths p) (network p) (ports p) (isolate_processes p) (isolate_ipc p)
    (max_processes p) (max_address_space p) (max_cpu_seconds p) (max_file_size p) (Some t).

(** The structure the native side is given. *)
Record RawPolicy := mkRaw {
  raw_paths : list (list byte * N); raw_network : N; raw_ports : list N;
  raw_isolate_processes : N; raw_isolate_ipc : N; raw_max_processes : N; raw_max_address_space : N;
  raw_max_cpu_seconds : N; raw_max_file_size : N; raw_required_tier : N }.

(** Its constructors, [policy.cpp]: [1] and the rule entered, or [0] and nothing done. *)
Definition supra_sandbox_policy_init : RawPolicy := mkRaw [] (network_to_raw NoNetwork) [] 0 0 0 0 0 0 0.

Definition with_raw (rules : list (list byte * N)) (net : N) (allowed_ports : list N) (raw : RawPolicy) : RawPolicy :=
  mkRaw rules net allowed_ports (raw_isolate_processes raw) (raw_isolate_ipc raw) (raw_max_processes raw)
    (raw_max_address_space raw) (raw_max_cpu_seconds raw) (raw_max_file_size raw) (raw_required_tier raw).

(** The right to manage entries is one to write. *)
Definition normal_access (access : N) : N :=
  if (N.land access MANAGE =? 0)%N then access else N.lor access WRITE.

Definition supra_sandbox_policy_allow (path : list byte) (access : N) (raw : RawPolicy) : RawPolicy * Z :=
  if (access =? 0)%N then (raw, 0%Z)
  else if negb (is_absolute path) then (raw, 0%Z)
  else if MAX_PATHS <=? length (raw_paths raw) then (raw, 0%Z)
  else (with_raw (raw_paths raw ++ [(path, normal_access access)]) (raw_network raw) (raw_ports raw) raw, 1%Z).

Definition supra_sandbox_policy_allow_port (port : N) (raw : RawPolicy) : RawPolicy * Z :=
  if MAX_PORTS <=? length (raw_ports raw) then (raw, 0%Z)
  else if bool_decide (port ∈ raw_ports raw)
  then (with_raw (raw_paths raw) (network_to_raw Ports) (raw_ports raw) raw, 1%Z)
  else (with_raw (raw_paths raw) (network_to_raw Ports) (raw_ports raw ++ [port]) raw, 1%Z).

(** What the constructors answer is asserted in debug builds only: elsewhere what they
    refuse is left out. *)
Definition to_raw (p : Policy) : RawPolicy :=
  let raw := supra_sandbox_policy_init in
  let raw := foldl (λ raw rule, (supra_sandbox_policy_allow rule.1 rule.2 raw).1) raw (paths p) in
  let raw := foldl (λ raw port, (supra_sandbox_policy_allow_port port raw).1) raw (ports p) in
  mkRaw (raw_paths raw) (network_to_raw (network p)) (raw_ports raw)
    (if isolate_processes p then 1 else 0) (if isolate_ipc p then 1 else 0)
    (max_processes p) (max_address_space p) (max_cpu_seconds p) (max_file_size p)
    (match required_tier p with Some t => tier_to_raw t | None => 0 end).

Record Command := mkCommand {
  program : list byte; args : list (list byte); env : list (list byte); working_dir : option (list byte);
  stdin_fd : Z; stdout_fd : Z; stderr_fd : Z }.

Definition new_command (program : list byte) : result Command Error :=
  let? program := c_string program in Ok (mkCommand program [program] [] None (-1) (-1) (-1)).

Definition add_arg (arg : list byte) (c : Command) : result Command Error :=
  let? arg := c_string arg in
  Ok (mkCommand (program c) (args c ++ [arg]) (env c) (working_dir c) (stdin_fd c) (stdout_fd c) (stderr_fd c)).

Fixpoint add_args (l : list (list byte)) (c : Command) : result Command Error :=
  match l with
  | [] => Ok c
  | arg :: l => let? c := add_arg arg c in add_args l c
  end.

Definition equals : byte := "=".

Definition add_env (key value : list byte) (c : Command) : result Command Error :=
  let? entry := c_string (key ++ [equals] ++ value) in
  Ok (mkCommand (program c) (args c) (env c ++ [entry]) (working_dir c) (stdin_fd c) (stdout_fd c) (stderr_fd c)).

Fixpoint add_envs (l : list (list byte * list byte)) (c : Command) : result Command Error :=
  match l with
  | [] => Ok c
  | (key, value) :: l => let? c := add_env key value c in add_envs l c
  end.

Definition set_working_dir (dir : list byte) (c : Command) : result Command Error :=
  let? dir := c_string dir in
  Ok (mkCommand (program c) (args c) (env c) (Some dir) (stdin_fd c) (stdout_fd c) (stderr_fd c)).

Definition set_streams (stdin stdout stderr : Z) (c : Command) : Command :=
  mkCommand (program c) (args c) (env c) (working_dir c) stdin stdout stderr.

Record Process := mkProcess { pid : Z; tier : Tier; reaped : bool }.

(** What the native side answers: the process identifier and the tier it runs under, or
    the message it failed with. *)
Definition spawned (answer : result (Z * N) (list byte)) : result Process Error :=
  match answer with
  | Ok (pid, tier) => Ok (mkProcess pid (tier_from_raw tier) false)
  | Err message => Err (Refused (from_utf8_lossy message))
  end.

Definition U32_MAX : N := 4294967295.

(** The bound a wait is given: none is zero, anything shorter than a millisecond is one. *)
Definition wait_ms (timeout : option N) : N :=
  match timeout with
  | None => 0
  | Some ms => N.max (if (ms <=? U32_MAX)%N then ms else U32_MAX) 1
  end.

(** [status]: [1] and the exit status, [0] when the time is up, anything else on failure. *)
Definition wait (status : N → Z * Z) (timeout : option N) (p : Process) : Process * result (option Z) Error :=
  let '(code, exit) := status (wait_ms timeout) in
  if (code =? 1)%Z then (mkProcess (pid p) (tier p) true, Ok (Some exit))
  else if (code =? 0)%Z then (p, Ok None) else (p, Err WaitFailed).

Definition kill (killed : bool) (p : Process) : Process * bool :=
  (if killed then mkProcess (pid p) (tier p) true else p, killed).

(** Whether dropping the handle kills the process. *)
Definition drop_kills (p : Process) : bool := negb (reaped p || (pid p <? 0)%Z).

Definition detach (p : Process) : Process * Z := (mkProcess (pid p) (tier p) true, pid p).
End Ffi.

Import Ffi.

Inductive SandboxError :=
| Authority (layers : nat) (refusals : list Refusal)
| LeakyDescriptor (fd : Z) (path : list byte)
| Unsupported
| FfiRefused (e : option Error).

(** ** The policy of a spawn *)

Record SandboxPolicy := mkSandboxPolicy { inner : Policy; inherited_paths : list (list byte) }.

Definition new_sandbox_policy : SandboxPolicy := mkSandboxPolicy new_policy [].

Definition map_ffi {A} (r : result A Error) : result A SandboxError := map_err (λ e, FfiRefused (Some e)) r.

Definition sandbox_allow (path : list byte) (access : N) (p : SandboxPolicy) : result SandboxPolicy SandboxError :=
  let? i := map_ffi (allow path access (inner p)) in Ok (mkSandboxPolicy i (inherited_paths p)).

Definition sandbox_allow_port (port : N) (p : SandboxPolicy) : result SandboxPolicy SandboxError :=
  let? i := map_ffi (allow_port port (inner p)) in Ok (mkSandboxPolicy i (inherited_paths p)).

Definition allow_inherited_path (path : list byte) (p : SandboxPolicy) : SandboxPolicy :=
  mkSandboxPolicy (inner p) (inherited_paths p ++ [path]).

Definition DEV_NULL : list byte := bytes "/dev/null".

Definition bootstrap_paths (lib64_exists : bool) : list (list byte * N) :=
  [(bytes "/usr", read_execute); (bytes "/bin", read_execute); (bytes "/lib", read_execute);
   (DEV_NULL, N.lor READ WRITE); (bytes "/proc", READ)] ++
  (if lib64_exists then [(bytes "/lib64", read_execute)] else []).

Definition tty_paths : list (list byte) :=
  bytes <$> ["/dev/tty"; "/dev/pts/0"; "/dev/pts/1"; "/dev/pts/2"; "/dev/pts/3"]%string.

(** [let _ = policy.allow(..)]: a rule that is refused is left out. *)
Definition try_allow (p : SandboxPolicy) (rule : list byte * N) : SandboxPolicy :=
  match sandbox_allow rule.1 rule.2 p with Ok p => p | Err _ => p end.

Definition default_policy (lib64_exists : bool) (workspace : list byte) : SandboxPolicy :=
  let p := foldl try_allow new_sandbox_policy (bootstrap_paths lib64_exists) in
  let p := if bool_decide (workspace = []) then p else try_allow p (workspace, workspace_access) in
  let p := foldl (λ p tty, allow_inherited_path tty p) p tty_paths in
  mkSandboxPolicy (require_tier Landlock (set_isolate_ipc true (set_isolate_processes true (inner p)))) (inherited_paths p).

(** ** The descriptor audit *)

Record DescriptorRecord := mkRecord { fd : Z; path : list byte; cloexec : bool }.

Inductive Link := Target (path : list byte) | Vanished | Unreadable.
Inductive Flag := Cloexec (set : bool) | Closed | Unknown.

(** An entry of [/proc/self/fd]: its name when it is text, where it leads and its flag. *)
Record FdEntry := mkEntry { entry_name : option (list byte); entry_link : Link; entry_flag : Flag }.

Inductive Listing := Absent | NoListing | Entries (entries : list (option FdEntry)).

(** [raw.parse::<i32>()]. *)
Definition parse_i32 (l : list byte) : option Z :=
  let '(sign, digits) :=
    match l with
    | c :: rest => if decide (c = "-"%char) then (-1, rest)%Z else if decide (c = "+"%char) then (1, rest)%Z else (1, l)%Z
    | [] => (1, l)%Z
    end in
  n ← parse_dec digits;
  let z := (sign * Z.of_N n)%Z in
  if (-2147483648 <=? z)%Z && (z <=? 2147483647)%Z then Some z else None.

Definition record_of (e : FdEntry) : option DescriptorRecord :=
  raw ← entry_name e;
  fd ← parse_i32 raw;
  path ← match entry_link e with Target path => Some (from_utf8_lossy path) | Vanished => None | Unreadable => Some [] end;
  cloexec ← match entry_flag e with Cloexec set => Some set | Closed => None | Unknown => Some false end;
  Some (mkRecord fd path cloexec).

Definition record_le (a b : DescriptorRecord) : Prop := (fd a ≤ fd b)%Z.
#[export] Instance record_le_dec a b : base.Decision (record_le a b).
Proof. unfold record_le. apply _. Defined.

(** A directory entry that cannot be read fails the walk. *)
Fixpoint snapshot_entries (entries : list (option FdEntry)) : result (list DescriptorRecord) SandboxError :=
  match entries with
  | [] => Ok []
  | None :: _ => Err (FfiRefused None)
  | Some e :: entries =>
      let? records := snapshot_entries entries in
      Ok (match record_of e with Some r => r :: records | None => records end)
  end.

Definition snapshot (l : Listing) : result (list DescriptorRecord) SandboxError :=
  match l with
  | Absent => Err Unsupported
  | NoListing => Err (FfiRefused None)
  | Entries entries => let? records := snapshot_entries entries in Ok (merge_sort record_le records)
  end.

Definition find_leaks (records : list DescriptorRecord) (allowed : list byte → bool) : list DescriptorRecord :=
  List.filter (λ r, (2 <? fd r)%Z && negb (cloexec r) && negb (allowed (path r))) records.

Definition fd_leaks (p : SandboxPolicy) (records : list DescriptorRecord) : list DescriptorRecord :=
  find_leaks records (λ path, existsb (λ allowed, bool_decide (from_utf8_lossy allowed = path)) (inherited_paths p)).

Definition audit_descriptors (p : SandboxPolicy) (l : Listing) : result unit SandboxError :=
  let? records := snapshot l in
  match fd_leaks p records with
  | leak :: _ => Err (LeakyDescriptor (fd leak) (path leak))
  | [] => Ok tt
  end.

(** ** The process tree *)

Record TreeBudget := mkTree { total : Z; burst : Z; burst_limit : Z }.

Definition new_tree (limit : Z) : TreeBudget := mkTree 0 0 limit.
Definition default_tree : TreeBudget := new_tree 32.

(** [fetch_add] wraps; the addition to what it returns is checked, and [None] where it
    panics, both counters moved. *)
Definition record_child (t : TreeBudget) : TreeBudget * option Z :=
  (mkTree ((total t + 1) mod 4294967296) ((burst t + 1) mod 4294967296) (burst_limit t),
   if (total t =? 4294967295)%Z then None else Some (total t + 1)%Z).

Definition exceeded_burst (count : Z) (t : TreeBudget) : bool := (burst_limit t <? count)%Z.

Definition reset_burst (t : TreeBudget) : TreeBudget := mkTree (total t) 0 (burst_limit t).

(** ** Spawning *)

Record Stdio := mkStdio { stdin : option Z; stdout : option Z; stderr : option Z }.
Definition stdio_all (fd : Z) : Stdio := mkStdio (Some fd) (Some fd) (Some fd).
Definition stdio_null : Stdio := mkStdio None None None.

Record Request := mkRequest {
  req_argv : list (list byte); req_env : list (list byte * list byte); req_dir : option (list byte);
  req_reversibility : Reversibility; req_mode : Mode; req_marker : option (list byte);
  req_lineage : option Lineage.t; req_child : option Id; req_claim_vote : option (Id * Id); req_stdio : Stdio }.

(** A ticket says what was asked for. *)
Record SpawnTicket := mkTicket { ticket_argv : list (list byte); ticket_reversibility : Reversibility; ticket_mode : Mode }.

Definition from_request (r : Request) : SpawnTicket := mkTicket (req_argv r) (req_reversibility r) (req_mode r).

Definition guard_request (r : Request) : SpawnRequest :=
  Guard.mkRequest (String.string_of_list_ascii <$> req_argv r) (req_marker r) (req_lineage r) (req_child r)
    (fst <$> req_claim_vote r) (snd <$> req_claim_vote r).

Definition build_command (program : list byte) (r : Request) : result Command Error :=
  let? c := new_command program in
  let? c := add_args (tail (req_argv r)) c in
  let? c := add_envs (req_env r) c in
  let? c := match req_dir r with Some dir => set_working_dir dir c | None => Ok c end in
  Ok (set_streams (default (-1)%Z (stdin (req_stdio r))) (default (-1)%Z (stdout (req_stdio r)))
        (default (-1)%Z (stderr (req_stdio r))) c).

Section spawn.
(** What the guard asks of the system, and the native call. *)
Context (hmac : list byte → list byte → list byte) (file_identity : string → result (option FileIdentity) unit)
  (canonicalize : string → option string).
Context (native : RawPolicy → Command → result (Z * N) (list byte)).

(** What was handed to the native side, if anything, and the answer, of which there is
    none where counting the child panics. *)
Record Spawned := mkSpawned {
  tree_after : TreeBudget; handed : option (RawPolicy * Command); answer : option (result Process SandboxError) }.

Definition spawn (p : SandboxPolicy) (r : Request) (descriptors : Listing) (identity : option ProcessIdentity)
    (slot : Marker.Key) (tree : TreeBudget) : Spawned :=
  match req_argv r with
  | [] => mkSpawned tree None (Some (Err (FfiRefused None)))
  | program :: _ =>
      match audit_descriptors p descriptors with
      | Err e => mkSpawned tree None (Some (Err e))
      | Ok _ =>
          match identity with
          | None => mkSpawned tree None (Some (Err (Authority 0 [NoIdentity (bytes "process identity is not established")])))
          | Some _ =>
              let verdict := judge hmac file_identity canonicalize identity slot (guard_request r) in
              if negb (allowed verdict)
              then mkSpawned tree None (Some (Err (Authority (length (refusals verdict)) (refusals verdict))))
              else
                match build_command program r with
                | Err e => mkSpawned tree None (Some (Err (FfiRefused (Some e))))
                | Ok command =>
                    match map_ffi (spawned (native (to_raw (inner p)) command)) with
                    | Err e => mkSpawned tree (Some (to_raw (inner p), command)) (Some (Err e))
                    | Ok process =>
                        let '(tree, counted) := record_child tree in
                        mkSpawned tree (Some (to_raw (inner p), command))
                          (match counted with Some _ => Some (Ok process) | None => None end)
                    end
                end
          end
      end
  end.
End spawn.

(** ** Policies *)

Inductive policy_op :=
| Allow (path : list byte) (access : N) | AllowPort (port : N) | SetNetwork (n : Network)
| IsolateProcesses (b : bool) | IsolateIpc (b : bool) | RequireTier (t : Tier)
| MaxProcesses (n : N) | MaxAddressSpace (n : N) | MaxCpuSeconds (n : N) | MaxFileSize (n : N).

Definition policy_step (p : Policy) (op : policy_op) : result Policy Error :=
  match op with
  | Allow path access => allow path access p
  | AllowPort port => allow_port port p
  | SetNetwork n => Ok (set_network n p)
  | IsolateProcesses b => Ok (set_isolate_processes b p)
  | IsolateIpc b => Ok (set_isolate_ipc b p)
  | RequireTier t => Ok (require_tier t p)
  | MaxProcesses n => Ok (set_max_processes n p)
  | MaxAddressSpace n => Ok (set_max_address_space n p)
  | MaxCpuSeconds n => Ok (set_max_cpu_seconds n p)
  | MaxFileSize n => Ok (set_max_file_size n p)
  end.

(** A refused operation leaves the policy as it was. *)
Definition keep (p : Policy) (op : policy_op) : Policy :=
  match policy_step p op with Ok p => p | Err _ => p end.

(** What the native tables hold: absolute paths without a zero byte, ports once each, and
    no more of either than there is room for. *)
Record policy_ok (p : Policy) : Prop := {
  po_paths : Forall (λ r, is_absolute r.1 = true ∧ nul ∉ r.1) (paths p);
  po_room : length (paths p) ≤ MAX_PATHS;
  po_ports : NoDup (ports p);
  po_port_room : length (ports p) ≤ MAX_PORTS }.

Lemma c_string_Ok l l' : c_string l = Ok l' ↔ l' = l ∧ nul ∉ l.
Proof. unfold c_string. case_bool_decide; split; try done; [by intros [_ ?]|by intros [= ->]|by intros [-> _]]. Qed.

Lemma policy_step_ok p op p' : policy_ok p → policy_step p op = Ok p' → policy_ok p'.
Proof.
  intros Hp. destruct op; cbn [policy_step]; try (intros [= <-]; by destruct Hp; split).
  - unfold allow. destruct (is_absolute _) eqn:Ha; [|done]. cbn [negb].
    destruct (Nat.leb_spec MAX_PATHS (length (paths p))); [done|].
    intros (raw & [-> Hn]%c_string_Ok & [= <-])%result_bind_Ok. destruct Hp. split; try done; cbn [paths].
    + apply Forall_app. split; [done|]. by apply Forall_singleton.
    + rewrite length_app. cbn. lia.
  - unfold allow_port. case_bool_decide as Hin; [intros [= <-]; by destruct Hp; split|].
    destruct (Nat.leb_spec MAX_PORTS (length (ports p))); [done|]. intros [= <-]. destruct Hp. split; try done; cbn [ports with_ports].
    + apply NoDup_app. split; [done|]. split; [|apply NoDup_singleton]. by intros x Hx ->%list_elem_of_singleton.
    + rewrite length_app. cbn. lia.
Qed.

Lemma normal_access_ok access : access ≠ 0%N →
  normal_access access ≠ 0%N ∧ (N.testbit (normal_access access) 3 = true → N.testbit (normal_access access) 1 = true).
Proof.
  intros Hne. unfold normal_access. destruct (N.eqb_spec (N.land access MANAGE) 0) as [E|E].
  - split; [done|]. intros Hb. exfalso. apply (f_equal (λ n, N.testbit n 3)) in E.
    rewrite N.land_spec, Hb in E. done.
  - split; [|intros _; by rewrite N.lor_spec, orb_true_r].
    intros E0. apply (f_equal (λ n, N.testbit n 1)) in E0. by rewrite N.lor_spec, orb_true_r in E0.
Qed.

(** The rules that grant something, with what their rights imply. *)
Definition granted (rules : list (list byte * N)) : list (list byte * N) :=
  (λ r, (r.1, normal_access r.2)) <$> List.filter (λ r, negb (r.2 =? 0)%N) rules.

Lemma granted_length rules : length (granted rules) ≤ length rules.
Proof. unfold granted. rewrite length_fmap. apply List.filter_length_le. Qed.

(** The constructors take every rule of a policy that fits but those without rights. *)
Lemma allow_rules rules : ∀ raw,
  Forall (λ r, is_absolute r.1 = true) rules → length (raw_paths raw) + length rules ≤ MAX_PATHS →
  foldl (λ raw rule, (supra_sandbox_policy_allow rule.1 rule.2 raw).1) raw rules =
    with_raw (raw_paths raw ++ granted rules) (raw_network raw) (raw_ports raw) raw.
Proof.
  induction rules as [|[path access] rules IH]; intros raw Ha Hl.
  { cbn. rewrite app_nil_r. by destruct raw. }
  apply Forall_cons in Ha as [Hp Ha]. cbn [foldl length fst snd] in *. unfold supra_sandbox_policy_allow, granted.
  cbn [List.filter snd]. destruct (N.eqb_spec access 0) as [->|Hne]; cbn [negb fst].
  { rewrite IH by (done || lia). done. }
  rewrite Hp. cbn [negb]. destruct (Nat.leb_spec MAX_PATHS (length (raw_paths raw))); [lia|]. cbn [fst].
  rewrite IH; [|done|cbn; rewrite length_app; cbn; lia]. cbn. by rewrite <- (assoc_L (++)).
Qed.

Lemma allow_ports l : ∀ raw,
  NoDup (raw_ports raw ++ l) → length (raw_ports raw) + length l ≤ MAX_PORTS →
  let raw' := foldl (λ raw port, (supra_sandbox_policy_allow_port port raw).1) raw l in
  raw_paths raw' = raw_paths raw ∧ raw_ports raw' = raw_ports raw ++ l.
Proof.
  induction l as [|port l IH]; intros raw Hn Hl; cbn zeta.
  { cbn. by rewrite app_nil_r. }
  cbn [foldl length] in *. unfold supra_sandbox_policy_allow_port at 2 4.
  destruct (Nat.leb_spec MAX_PORTS (length (raw_ports raw))); [lia|].
  rewrite bool_decide_false by (apply NoDup_app in Hn as (_ & Hn & _); intros Hin; apply (Hn port Hin); by left).
  cbn [fst]. destruct (IH (with_raw (raw_paths raw) (network_to_raw Ports) (raw_ports raw ++ [port]) raw)) as [H1 H2].
  - cbn. by rewrite <- (assoc_L (++)).
  - cbn. rewrite length_app. cbn. lia.
  - split; [done|]. rewrite H2. cbn. by rewrite <- (assoc_L (++)).
Qed.

Lemma to_raw_tables p : policy_ok p → raw_paths (to_raw p) = granted (paths p) ∧ raw_ports (to_raw p) = ports p.
Proof.
  intros [Hpaths Hroom Hports Hport_room]. unfold to_raw. cbn [raw_paths raw_ports].
  rewrite allow_rules; [|by eapply Forall_impl; [exact Hpaths|intros ? []]|cbn; lia].
  set (raw := with_raw _ _ _ _). destruct (allow_ports (ports p) raw) as [H1 H2]; [done|done|]. by rewrite H1, H2.
Qed.

Lemma keeps_ok ops : ∀ p, policy_ok p → policy_ok (foldl keep p ops).
Proof.
  induction ops as [|op ops IH]; intros p Hp; [done|]. cbn [foldl]. apply IH. unfold keep.
  destruct (policy_step p op) eqn:E; [by eapply policy_step_ok|done].
Qed.

Lemma new_policy_ok : policy_ok new_policy.
Proof. split; cbn; try constructor; lia. Qed.

(** C40. Whatever is asked of a policy, in whatever order, what is handed to the native side
    fits its tables: at most 64 rules, each of an absolute path without a zero byte and
    with some right, that to manage entries together with that to write, and at most 16
    ports, each once.  Its own constructors leave nothing else out: the rules are the
    policy's but for those without any right, and the ports the policy's. *)
Theorem policy_fits (ops : list policy_op) :
  let p := foldl keep new_policy ops in
  let raw := to_raw p in
  length (raw_paths raw) ≤ MAX_PATHS ∧
  Forall (λ r, is_absolute r.1 = true ∧ nul ∉ r.1) (raw_paths raw) ∧
  Forall (λ r, r.2 ≠ 0%N ∧ (N.testbit r.2 3 = true → N.testbit r.2 1 = true)) (raw_paths raw) ∧
  length (raw_ports raw) ≤ MAX_PORTS ∧ NoDup (raw_ports raw) ∧
  raw_paths raw = granted (paths p) ∧ raw_ports raw = ports p.
Proof.
  intros p raw. assert (Hp : policy_ok p) by apply keeps_ok, new_policy_ok.
  destruct (to_raw_tables p Hp) as [Epaths Eports]. fold raw in Epaths, Eports. rewrite Epaths, Eports.
  destruct Hp as [Hpaths Hroom Hports Hport_room]. pose proof (granted_length (paths p)).
  split; [lia|]. split; [|split; [|done]].
  - apply Forall_forall. intros r (r' & -> & Hin)%list_elem_of_fmap. rewrite list_elem_of_In in Hin.
    apply filter_In in Hin as [Hin _]. rewrite <- list_elem_of_In in Hin.
    rewrite Forall_forall in Hpaths. by apply (Hpaths r').
  - apply Forall_forall. intros r (r' & -> & Hin)%list_elem_of_fmap. rewrite list_elem_of_In in Hin.
    apply filter_In in Hin as [_ Hne]. cbn [snd]. by apply normal_access_ok, N.eqb_neq, negb_true_iff.
Qed.

Definition writable (access : N) : bool := N.testbit access 1 || N.testbit access 3.

(** The rights a policy gives to change something, none beyond some paths. *)
Definition writes_only (ps : list (list byte)) (p : SandboxPolicy) : Prop :=
  ∀ path access, (path, access) ∈ paths (inner p) → writable access = true → path ∈ ps.

Lemma sandbox_allow_paths path access p p' : sandbox_allow path access p = Ok p' →
  paths (inner p') = paths (inner p) ++ [(path, access)] ∧ network (inner p') = network (inner p) ∧
  inherited_paths p' = inherited_paths p.
Proof.
  unfold sandbox_allow, map_ffi. intros (i & Hi%map_err_Ok & [= <-])%result_bind_Ok. revert Hi. unfold allow.
  destruct (is_absolute path); [|done]. cbn [negb]. destruct (MAX_PATHS <=? _); [done|].
  by intros (raw & [-> _]%c_string_Ok & [= <-])%result_bind_Ok.
Qed.

Lemma try_allow_writes ps rule p : (writable rule.2 = true → rule.1 ∈ ps) → writes_only ps p →
  writes_only ps (try_allow p rule) ∧ network (inner (try_allow p rule)) = network (inner p) ∧
  inherited_paths (try_allow p rule) = inherited_paths p.
Proof.
  intros Hr Hp. unfold try_allow. destruct (sandbox_allow rule.1 rule.2 p) as [p'|e] eqn:E; [|done].
  apply sandbox_allow_paths in E as (Hpaths & Hnet & Hinh). split; [|done].
  intros path access. rewrite Hpaths, elem_of_app, list_elem_of_singleton.
  intros [Hin|[= -> ->]] Hw; [by apply (Hp path access)|by apply Hr].
Qed.

Lemma try_allows_writes ps rules : ∀ p, Forall (λ rule, writable rule.2 = true → rule.1 ∈ ps) rules → writes_only ps p →
  writes_only ps (foldl try_allow p rules) ∧ network (inner (foldl try_allow p rules)) = network (inner p) ∧
  inherited_paths (foldl try_allow p rules) = inherited_paths p.
Proof.
  induction rules as [|rule rules IH]; intros p Hrs Hp; [done|]. apply Forall_cons in Hrs as [Hr Hrs].
  cbn [foldl]. destruct (try_allow_writes ps rule p Hr Hp) as (Hp' & Hn & Hi).
  destruct (IH _ Hrs Hp') as (Hp'' & Hn' & Hi'). split; [done|]. by rewrite Hn', Hi'.
Qed.

Lemma inherited_inner l : ∀ p, inner (foldl (λ p tty, allow_inherited_path tty p) p l) = inner p.
Proof. induction l as [|tty l IH]; intros p; [done|]. cbn [foldl]. by rewrite IH. Qed.

(** The default policy lets a process change the workspace and write to the null
    device, and nothing else, wherever the workspace is; it opens no network, hides the
    host's processes and asks for a tier that enforces it. *)
Theorem default_confined lib64 workspace :
  let p := default_policy lib64 workspace in
  (∀ path access, (path, access) ∈ paths (inner p) → writable access = true → path ∈ [DEV_NULL; workspace]) ∧
  network (inner p) = NoNetwork ∧ isolate_processes (inner p) = true ∧ isolate_ipc (inner p) = true ∧
  required_tier (inner p) = Some Landlock ∧ enforces_filesystem Landlock = true ∧
  (∀ raw, raw ∈ inherited_paths p → raw ∈ tty_paths).
Proof.
  cbn zeta. unfold default_policy. cbn [inner inherited_paths].
  destruct (try_allows_writes [DEV_NULL; workspace] (bootstrap_paths lib64) new_sandbox_policy) as (Hw & Hn & Hi).
  { destruct lib64; repeat (apply Forall_cons; split; [vm_compute; intros H; first [done | by left]|]); constructor. }
  { intros ? ? Hin. by apply not_elem_of_nil in Hin. }
  set (p := foldl try_allow new_sandbox_policy (bootstrap_paths lib64)) in *.
  set (p' := if bool_decide (workspace = []) then p else try_allow p (workspace, workspace_access)).
  assert (H : writes_only [DEV_NULL; workspace] p' ∧ network (inner p') = NoNetwork ∧ inherited_paths p' = []).
  { unfold p'. case_bool_decide; [done|].
    destruct (try_allow_writes [DEV_NULL; workspace] (workspace, workspace_access) p) as (H1 & H2 & H3); [|done|].
    - intros _. right. by left.
    - split; [done|]. by rewrite H2, H3. }
  destruct H as (Hw' & Hn' & Hi').
  rewrite inherited_inner. split; [|split; [done|split; [done|split; [done|split; [done|split; [done|]]]]]].
  - exact Hw'.
  - intros raw. unfold tty_paths. cbn [foldl fmap list_fmap allow_inherited_path inherited_paths]. by rewrite Hi'.
Qed.

(** ** What reaches the native side *)

(** Every descriptor above the standard streams closes on [exec] or is one the policy
    names; the listing was read whole. *)
Definition audited (p : SandboxPolicy) (l : Listing) : Prop :=
  ∃ entries, l = Entries entries ∧ (None ∉ entries) ∧
    ∀ e r, Some e ∈ entries → record_of e = Some r → (2 < fd r)%Z → cloexec r = false →
      ∃ allowed, allowed ∈ inherited_paths p ∧ from_utf8_lossy allowed = path r.

Lemma snapshot_entries_spec entries :
  match snapshot_entries entries with
  | Ok records => (None ∉ entries) ∧ ∀ r, r ∈ records ↔ ∃ e, Some e ∈ entries ∧ record_of e = Some r
  | Err _ => None ∈ entries
  end.
Proof.
  induction entries as [|[e|] entries IH]; cbn [snapshot_entries].
  - split; [apply not_elem_of_nil|]. intros r. split; [by intros ?%not_elem_of_nil|by intros (e & ?%not_elem_of_nil & _)].
  - destruct (snapshot_entries entries) as [records|]; cbn [result_bind]; [|by right]. destruct IH as [Hn IH]. split.
    + intros [?|?]%elem_of_cons; done.
    + intros r. setoid_rewrite elem_of_cons. destruct (record_of e) as [r'|] eqn:E; [rewrite elem_of_cons|]; rewrite IH; naive_solver.
  - by left.
Qed.

Lemma named_spec path l :
  existsb (λ allowed, bool_decide (from_utf8_lossy allowed = path)) l = true ↔
  ∃ allowed, allowed ∈ l ∧ from_utf8_lossy allowed = path.
Proof. rewrite existsb_exists. setoid_rewrite <- list_elem_of_In. by setoid_rewrite bool_decide_eq_true. Qed.

Lemma audit_spec p l : is_ok (audit_descriptors p l) = true ↔ audited p l.
Proof.
  unfold audit_descriptors, audited, snapshot. destruct l as [| |entries]; [split; [done|by intros (? & ? & _)]..|].
  pose proof (snapshot_entries_spec entries) as H. destruct (snapshot_entries entries) as [records|e]; cbn [result_bind].
  2:{ split; [done|]. intros (es & [= <-] & Hn & _). done. }
  destruct H as [Hn Hrec]. set (sorted := merge_sort record_le records).
  assert (Hs : ∀ r, r ∈ sorted ↔ r ∈ records) by (intros r; unfold sorted; by rewrite merge_sort_Permutation).
  assert (Hleak : ∀ r, r ∈ fd_leaks p sorted ↔ r ∈ records ∧ (2 < fd r)%Z ∧ cloexec r = false ∧
    ¬ ∃ allowed, allowed ∈ inherited_paths p ∧ from_utf8_lossy allowed = path r).
  { intros r. unfold fd_leaks, find_leaks. rewrite list_elem_of_In, filter_In, <- list_elem_of_In, Hs.
    rewrite !andb_true_iff, Z.ltb_lt, !negb_true_iff, <- named_spec, not_true_iff_false. tauto. }
  destruct (fd_leaks p sorted) as [|leak leaks]; cbn [is_ok].
  - split; [intros _|done]. exists entries. split; [done|]. split; [done|]. intros e r He Hr Hfd Hc.
    apply named_spec. destruct (existsb _ _) eqn:Ex; [done|]. exfalso. apply (not_elem_of_nil r), Hleak.
    split; [apply Hrec; by exists e|]. split; [done|]. split; [done|]. rewrite <- named_spec. by rewrite Ex.
  - split; [done|]. intros (es & [= <-] & _ & Hall). exfalso.
    destruct (proj1 (Hleak leak)) as (Hin & Hfd & Hc & Hno); [by left|]. apply Hrec in Hin as (e & He & Hr).
    by apply Hno, (Hall e leak).
Qed.

(** The command a request is built into. *)
Definition command_of (r : Request) : Command :=
  mkCommand (default [] (head (req_argv r))) (req_argv r) ((λ kv, kv.1 ++ [equals] ++ kv.2) <$> req_env r) (req_dir r)
    (default (-1)%Z (stdin (req_stdio r))) (default (-1)%Z (stdout (req_stdio r))) (default (-1)%Z (stderr (req_stdio r))).

Definition no_nul (r : Request) : Prop :=
  Forall (λ a, nul ∉ a) (req_argv r) ∧ Forall (λ kv, nul ∉ kv.1 ++ [equals] ++ kv.2) (req_env r) ∧
  (∀ dir, req_dir r = Some dir → nul ∉ dir).

Lemma add_args_Ok l : ∀ c c', add_args l c = Ok c' ↔ Forall (λ a, nul ∉ a) l ∧
  c' = mkCommand (program c) (args c ++ l) (env c) (working_dir c) (stdin_fd c) (stdout_fd c) (stderr_fd c).
Proof.
  induction l as [|a l IH]; intros c c'; cbn [add_args].
  { rewrite Forall_nil, app_nil_r. destruct c. split; [by intros [= <-]|by intros [_ ->]]. }
  rewrite result_bind_Ok, Forall_cons. unfold add_arg. setoid_rewrite result_bind_Ok. setoid_rewrite c_string_Ok. split.
  - intros (c1 & (a' & [-> Ha] & [= <-]) & [Hl ->]%IH). split; [done|]. cbn [program args env working_dir stdin_fd stdout_fd stderr_fd].
    by rewrite <- (assoc_L (++)).
  - intros [[Ha Hl] ->]. eexists. split; [by exists a|]. apply IH. split; [done|].
    cbn [program args env working_dir stdin_fd stdout_fd stderr_fd]. by rewrite <- (assoc_L (++)).
Qed.

Lemma add_envs_Ok l : ∀ c c', add_envs l c = Ok c' ↔ Forall (λ kv, nul ∉ kv.1 ++ [equals] ++ kv.2) l ∧
  c' = mkCommand (program c) (args c) (env c ++ ((λ kv, kv.1 ++ [equals] ++ kv.2) <$> l)) (working_dir c)
         (stdin_fd c) (stdout_fd c) (stderr_fd c).
Proof.
  induction l as [|[k v] l IH]; intros c c'; cbn [add_envs fmap list_fmap].
  { rewrite Forall_nil, app_nil_r. destruct c. split; [by intros [= <-]|by intros [_ ->]]. }
  rewrite result_bind_Ok, Forall_cons. unfold add_env. setoid_rewrite result_bind_Ok. setoid_rewrite c_string_Ok. split.
  - intros (c1 & (a' & [-> Ha] & [= <-]) & [Hl ->]%IH). split; [done|]. cbn [program args env working_dir stdin_fd stdout_fd stderr_fd].
    by rewrite <- (assoc_L (++)).
  - intros [[Ha Hl] ->]. eexists. split; [by exists (k ++ [equals] ++ v)|]. apply IH. split; [done|].
    cbn [program args env working_dir stdin_fd stdout_fd stderr_fd]. by rewrite <- (assoc_L (++)).
Qed.

Lemma build_command_Ok prog rest r c : req_argv r = prog :: rest → build_command prog r = Ok c ↔ no_nul r ∧ c = command_of r.
Proof.
  intros Hargv. unfold build_command, new_command, no_nul, command_of. rewrite Hargv. cbn [tail head default].
  rewrite Forall_cons. split.
  - intros (c1 & (p & [-> Hp]%c_string_Ok & [= <-])%result_bind_Ok & (c2 & [Ha ->]%add_args_Ok & (c3 & [He ->]%add_envs_Ok & Hd)%result_bind_Ok)%result_bind_Ok)%result_bind_Ok.
    apply result_bind_Ok in Hd as (c4 & Hd & [= <-]). destruct (req_dir r) as [dir|].
    + unfold set_working_dir in Hd. apply result_bind_Ok in Hd as (d & [-> Hd]%c_string_Ok & [= <-]).
      split; [|done]. split; [done|]. split; [done|]. by intros ? [= <-].
    + injection Hd as <-. by split.
  - intros ([[Hp Ha] [He Hd]] & ->). rewrite (proj2 (c_string_Ok prog prog)) by done. cbn [result_bind].
    rewrite (proj2 (add_args_Ok rest _ _) (conj Ha eq_refl)). cbn [result_bind].
    rewrite (proj2 (add_envs_Ok (req_env r) _ _) (conj He eq_refl)). cbn [result_bind].
    destruct (req_dir r) as [dir|]; [|done]. unfold set_working_dir. rewrite (proj2 (c_string_Ok dir dir)) by auto. done.
Qed.

Section gated.
Context (hmac : list byte → list byte → list byte) (file_identity : string → result (option FileIdentity) unit)
  (canonicalize : string → option string) (native : RawPolicy → Command → result (Z * N) (list byte)).

(** A request as it is in another mode, its command classified otherwise. *)
Definition asked_under (mode : Mode) (reversibility : Reversibility) (r : Request) : Request :=
  mkRequest (req_argv r) (req_env r) (req_dir r) reversibility mode (req_marker r) (req_lineage r) (req_child r)
    (req_claim_vote r) (req_stdio r).

(** Whether a process was started. *)
Definition started (o : Spawned) : bool :=
  match handed o with Some (raw, command) => is_ok (native raw command) | None => false end.

Lemma spawned_ok outcome : is_ok (map_ffi (spawned outcome)) = is_ok outcome.
Proof. by destruct outcome as [[]|]. Qed.

Lemma spawn_handed p r descriptors identity slot tree :
  is_Some (handed (spawn hmac file_identity canonicalize native p r descriptors identity slot tree)) ↔
     req_argv r ≠ [] ∧ audited p descriptors ∧ is_Some identity ∧
     allowed (judge hmac file_identity canonicalize identity slot (guard_request r)) = true ∧ no_nul r.
Proof.
  unfold spawn. destruct (req_argv r) as [|prog rest] eqn:Hargv.
  { split; [by intros []|by intros [? _]]. }
  pose proof (audit_spec p descriptors) as Haudit. destruct (audit_descriptors p descriptors) as [[]|e]; cbn [is_ok] in Haudit.
  2:{ split; [by intros []|]. by intros (_ & ?%Haudit & _). }
  destruct identity as [i|]; [|split; [by intros []|]; by intros (_ & _ & [] & _)].
  destruct (allowed _) eqn:Hallowed; cbn [negb]; [|split; [by intros []|]; by intros (_ & _ & _ & ? & _)].
  pose proof (build_command_Ok prog rest r) as Hbuild. destruct (build_command prog r) as [c|e].
  2:{ split; [by intros []|]. intros (_ & _ & _ & _ & Hn). by pose proof (proj2 (Hbuild (command_of r) Hargv) (conj Hn eq_refl)). }
  destruct (proj1 (Hbuild c Hargv) eq_refl) as [Hn ->].
  split; [intros _|intros _; destruct (map_ffi _); by eexists]. split; [done|]. split; [by apply Haudit|]. done.
Qed.

Lemma spawn_answers p r descriptors identity slot tree raw command :
  let o := spawn hmac file_identity canonicalize native p r descriptors identity slot tree in
  handed o = Some (raw, command) →
  command = command_of r ∧ raw = to_raw (inner p) ∧
  answer o = (if started o && (total tree =? 4294967295)%Z then None else Some (map_ffi (spawned (native raw command)))) ∧
  tree_after o = (if started o then (record_child tree).1 else tree).
Proof.
  cbn zeta. unfold started. unfold spawn. destruct (req_argv r) as [|prog rest] eqn:Hargv; [done|].
  destruct (audit_descriptors p descriptors) as [[]|e]; [|done]. destruct identity as [i|]; [|done].
  destruct (negb _); [done|]. destruct (build_command prog r) as [c|e] eqn:Hb; [|done].
  apply (build_command_Ok prog rest r c Hargv) in Hb as [_ ->].
  pose proof (spawned_ok (native (to_raw (inner p)) (command_of r))) as Hok.
  destruct (map_ffi (spawned (native (to_raw (inner p)) (command_of r)))) as [process|e] eqn:E; cbn [is_ok] in Hok;
    unfold record_child; cbn [handed answer tree_after]; intros [= <- <-]; rewrite <- Hok, ?E; cbn [andb].
  - split; [done|]. split; [done|]. split; [|done]. by destruct (total tree =? 4294967295)%Z.
  - done.
Qed.

(** Without the native side there is an error, and nothing is counted. *)
Lemma spawn_refused p r descriptors identity slot tree :
  let o := spawn hmac file_identity canonicalize native p r descriptors identity slot tree in
  handed o = None → (∃ e, answer o = Some (Err e)) ∧ tree_after o = tree.
Proof.
  cbn zeta. unfold spawn. destruct (req_argv r); [by eauto|]. destruct (audit_descriptors p descriptors); [|by eauto].
  destruct identity; [|by eauto]. destruct (negb _); [by eauto|]. destruct (build_command _ r); [|by eauto]. by destruct (map_ffi _).
Qed.

(** The mode in force and the reversibility of the command do not matter to a spawn: the
    third gate, consent, is not there. *)
Lemma consent_never_asked p r descriptors identity slot tree mode reversibility :
  spawn hmac file_identity canonicalize native p (asked_under mode reversibility r) descriptors identity slot tree =
  spawn hmac file_identity canonicalize native p r descriptors identity slot tree.
Proof. reflexivity. Qed.

(** C20. What stands before a process, and what does not.  The native side is given a command
    exactly when there is one, every descriptor a child would inherit is one the policy
    names, this process knows what it is, all layers of the guard let the request pass and
    none of its texts is cut short.  It is given the request as it is and the policy
    through its own constructors: every rule that grants something, every port and every
    limit.  A child is counted exactly when one was started, the answer is then the
    process - unless the count of children overflows, where the program ends - and there
    is none without the native side.  Consent is not among the gates, though the module
    says it is: in every mode and for every reversibility the outcome is the same, so
    asking for it is left to the caller. *)
Theorem spawn_gated p r descriptors identity slot tree :
  let o := spawn hmac file_identity canonicalize native p r descriptors identity slot tree in
  (is_Some (handed o) ↔
     req_argv r ≠ [] ∧ audited p descriptors ∧ is_Some identity ∧
     allowed (judge hmac file_identity canonicalize identity slot (guard_request r)) = true ∧ no_nul r) ∧
  (∀ raw command, handed o = Some (raw, command) →
     command = command_of r ∧ raw = to_raw (inner p) ∧
     (policy_ok (inner p) → raw_paths raw = granted (paths (inner p)) ∧ raw_ports raw = ports (inner p)) ∧
     answer o = (if started o && (total tree =? 4294967295)%Z then None else Some (map_ffi (spawned (native raw command))))) ∧
  (handed o = None → ∃ e, answer o = Some (Err e)) ∧
  tree_after o = (if started o then (record_child tree).1 else tree) ∧
  (∀ mode reversibility,
     spawn hmac file_identity canonicalize native p (asked_under mode reversibility r) descriptors identity slot tree = o).
Proof.
  cbn zeta. split_and!.
  - apply spawn_handed.
  - intros raw command Hh. destruct (spawn_answers p r descriptors identity slot tree raw command Hh) as (-> & -> & Ha & _).
    split; [done|]. split; [done|]. split; [apply to_raw_tables|exact Ha].
  - apply spawn_refused.
  - destruct (handed (spawn hmac file_identity canonicalize native p r descriptors identity slot tree)) as [[raw command]|] eqn:Hh.
    + by destruct (spawn_answers p r descriptors identity slot tree raw command Hh) as (_ & _ & _ & Ht).
    + unfold started. rewrite Hh. by apply spawn_refused.
  - intros mode reversibility. apply consent_never_asked.
Qed.
End gated.

(** ** What the model shows of the code *)

(** The size of the burst does not matter to a spawn either. *)
Lemma tree_never_refuses hmac file_identity canonicalize native p r descriptors identity slot children b b' limit limit' :
  answer (spawn hmac file_identity canonicalize native p r descriptors identity slot (mkTree children b limit)) =
  answer (spawn hmac file_identity canonicalize native p r descriptors identity slot (mkTree children b' limit')).
Proof.
  unfold spawn. destruct (req_argv r); [done|]. destruct (audit_descriptors p descriptors); [|done].
  destruct identity; [|done]. destruct (negb _); [done|]. destruct (build_command _ r); [|done]. by destruct (map_ffi _).
Qed.

(** A rule without rights is taken into a policy and left out of what the native side is
    given. *)
Lemma empty_rule_dropped :
  match allow (bytes "/data") 0 new_policy with
  | Ok p => paths p = [(bytes "/data", 0%N)] ∧ raw_paths (to_raw p) = []
  | Err _ => False
  end.
Proof. vm_compute. done. Qed.

(** A path that is no text allows a descriptor to another such path. *)
Lemma lossy_path_allowed :
  let p := allow_inherited_path (bytes "/run/" ++ [ascii_of_N 254]) new_sandbox_policy in
  let l := Entries [Some (mkEntry (Some (bytes "7")) (Target (bytes "/run/" ++ [ascii_of_N 255])) (Cloexec false))] in
  audit_descriptors p l = Ok tt ∧ audit_descriptors new_sandbox_policy l ≠ Ok tt.
Proof. vm_compute. split; [reflexivity|discriminate]. Qed.

(** A workspace given by a relative path is left out of the default policy without a word. *)
Lemma relative_workspace_dropped lib64 : paths (inner (default_policy lib64 (bytes "work"))) = bootstrap_paths lib64.
Proof. destruct lib64; vm_compute; reflexivity. Qed.

(** A command that cannot be undone, asked for while planning: it goes through. *)
Definition demo_native (raw : RawPolicy) (command : Command) : result (Z * N) (list byte) := Ok (42%Z, 2%N).

Definition demo_request : Request :=
  mkRequest [bytes "/bin/rm"; bytes "notes"] [] None R3 Plan
    (Some (bytes "1:" ++ Marker.hex (replicate 16 "a"%char) ++ bytes ":0422")) None None None stdio_null.

Definition demo_spawn : Spawned :=
  spawn witness_hmac (λ _, Ok None) (λ _, None) demo_native (default_policy false (bytes "/work")) demo_request
    (Entries []) (Some (mkIdentity "/usr/bin/supra" (1%N, 2%N))) (Some (bytes "kkkk")) default_tree.

Lemma spawn_gated_witness :
  is_Some (handed demo_spawn) ∧ answer demo_spawn = Some (Ok (mkProcess 42 Landlock false)) ∧
  tree_after demo_spawn = mkTree 1 1 32 ∧
  (req_argv demo_request ≠ [] ∧ audited (default_policy false (bytes "/work")) (Entries []) ∧ no_nul demo_request) ∧
  raw_paths (to_raw (inner (default_policy false (bytes "/work")))) =
    granted (paths (inner (default_policy false (bytes "/work")))).
Proof.
  assert (Hh : is_Some (handed demo_spawn)) by (vm_compute; eexists; reflexivity).
  split; [exact Hh|]. split; [vm_compute; reflexivity|]. split; [vm_compute; reflexivity|].
  pose proof (spawn_gated witness_hmac (λ _, Ok None) (λ _, None) demo_native
    (default_policy false (bytes "/work")) demo_request (Entries [])
    (Some (mkIdentity "/usr/bin/supra" (1%N, 2%N))) (Some (bytes "kkkk")) default_tree) as (H1 & _).
  destruct (proj1 H1 Hh) as (Ha & Hb & _ & _ & Hn). split; [done|].
  vm_compute. reflexivity.
Defined.
