(* ===== verification/Plugin.v ===== *)
(** * Plugins: [supra_plugin/src/world.rs], [dispatch.rs], [host.rs]

    A plugin is a component that runs in an engine and reaches the host by imports alone.
    For each class of authority the host registers the functions of that class and no
    others; a component's imports are checked before it runs, and each call it makes is
    bounded, recorded and routed to a dispatcher.  The engine is a parameter: a component
    is what it declares, what it links against and how it behaves, a tree of the host
    calls it makes. *)

From Stdlib Require Import Ascii.
From S2P Require Import Prelude Text Sealing Canonical Permission.

(** ** The world *)

Abbreviation name := (list byte).

Definition agent_tools : name := bytes "supra:plugin/agent-tools".
Definition host_tools : name := bytes "supra:plugin/host-tools".
Definition user_tools : name := bytes "supra:plugin/user-tools".

Definition imports_for (c : ToolClass.t) : list (name * name) :=
  match c with
  | ToolClass.Agent => [(agent_tools, bytes "read-file"); (agent_tools, bytes "search")]
  | ToolClass.Host =>
      [(agent_tools, bytes "read-file"); (agent_tools, bytes "search");
       (host_tools, bytes "spawn"); (host_tools, bytes "snapshot")]
  | ToolClass.User =>
      [(agent_tools, bytes "read-file"); (agent_tools, bytes "search");
       (host_tools, bytes "spawn"); (host_tools, bytes "snapshot");
       (user_tools, bytes "ask-user")]
  end.

(** ** Dispatch *)

Inductive HostFunction := ReadFile | Search | Spawn | Snapshot | AskUser.

#[export] Instance HostFunction_eq_dec : EqDecision HostFunction.
Proof. solve_decision. Defined.

Definition from_wit (interface function : name) : option HostFunction :=
  if bool_decide ((interface, function) = (agent_tools, bytes "read-file")) then Some ReadFile
  else if bool_decide ((interface, function) = (agent_tools, bytes "search")) then Some Search
  else if bool_decide ((interface, function) = (host_tools, bytes "spawn")) then Some Spawn
  else if bool_decide ((interface, function) = (host_tools, bytes "snapshot")) then Some Snapshot
  else if bool_decide ((interface, function) = (user_tools, bytes "ask-user")) then Some AskUser
  else None.

Definition path (f : HostFunction) : name :=
  match f with
  | ReadFile => agent_tools ++ bytes "#read-file"
  | Search => agent_tools ++ bytes "#search"
  | Spawn => host_tools ++ bytes "#spawn"
  | Snapshot => host_tools ++ bytes "#snapshot"
  | AskUser => user_tools ++ bytes "#ask-user"
  end.

Record PluginIdentity := mkIdentity { component : name; class : ToolClass.t }.

Record HostLimits := mkLimits {
  max_argument_bytes : N; max_result_bytes : N; max_calls : N; max_plugin_result_bytes : N;
  max_memory_bytes : N; max_table_elements : N; max_instances : N; max_tables : N; max_memories : N }.

Definition DEFAULT_MAX_ARGUMENT_BYTES : N := 64 * 1024.
Definition DEFAULT_MAX_RESULT_BYTES : N := 1024 * 1024.
Definition DEFAULT_MAX_CALLS : N := 1024.
Definition DEFAULT_MAX_MEMORY_BYTES : N := 64 * 1024 * 1024.
Definition DEFAULT_MAX_TABLE_ELEMENTS : N := 10000.
Definition DEFAULT_MAX_INSTANCES : N := 64.
Definition DEFAULT_MAX_TABLES : N := 16.
Definition DEFAULT_MAX_MEMORIES : N := 16.

Definition default_limits : HostLimits :=
  mkLimits DEFAULT_MAX_ARGUMENT_BYTES DEFAULT_MAX_RESULT_BYTES DEFAULT_MAX_CALLS DEFAULT_MAX_RESULT_BYTES
    DEFAULT_MAX_MEMORY_BYTES DEFAULT_MAX_TABLE_ELEMENTS DEFAULT_MAX_INSTANCES DEFAULT_MAX_TABLES DEFAULT_MAX_MEMORIES.

Record HostCall := mkCall { caller : PluginIdentity; function : HostFunction; argument : list byte }.

(** Why a host call failed. *)
Inductive HostDispatchFailure :=
| CallLimit (f : HostFunction) (limit : N)
| ArgumentTooLong (f : HostFunction) (found limit : N)
| DispatcherRefused (f : HostFunction) (detail : list byte)
| ResultTooLong (f : HostFunction) (found limit : N).

Inductive PluginError :=
| Engine
| UnlistedImport (component import : name)
| MissingHostImport (import : name)
| WrongSignature (import : name)
| FuelExhausted (component : name) (budget : N)
| HostDispatch (component : name) (failure : HostDispatchFailure)
| ResourceLimit (component : name) (found limit : N)
| Trap (component : name) (detail : list byte).

(** The runtime behind the host functions, with a state of its own. *)
Class Dispatcher (D : Type) := {
  route : PluginIdentity → HostFunction → list byte → D → D * result (list byte) (list byte) }.

(** The default: every call is refused. *)
Definition deny_all (D : Type) : Dispatcher D :=
  {| route := λ caller f _ d, (d, Err (bytes "no runtime dispatcher configured for " ++ path f)) |}.

Record HostState := mkState { identity : PluginIdentity; calls : list HostCall; limits : HostLimits }.

Definition size (l : list byte) : N := N.of_nat (length l).

Section dispatch.
Context {D : Type} `{Dispatcher D}.

Definition dispatch (f : HostFunction) (argument : list byte) (s : HostState) (d : D) :
    HostState * D * result (list byte) HostDispatchFailure :=
  let limits := limits s in
  if (max_calls limits <=? N.of_nat (length (calls s)))%N then (s, d, Err (CallLimit f (max_calls limits)))
  else if (max_argument_bytes limits <? size argument)%N
  then (s, d, Err (ArgumentTooLong f (size argument) (max_argument_bytes limits)))
  else
    let s := mkState (identity s) (calls s ++ [mkCall (identity s) f argument]) limits in
    let '(d, r) := route (identity s) f argument d in
    (s, d,
     let? answer := map_err (DispatcherRefused f) r in
     if (max_result_bytes limits <? size answer)%N
     then Err (ResultTooLong f (size answer) (max_result_bytes limits)) else Ok answer).
End dispatch.

(** ** Linkers *)

(** An import as the engine resolves it: a function of a named instance, or of the root. *)
Abbreviation import_name := (option name * name)%type.

(** What a linker offers; a name is registered once. *)
Abbreviation linker := (list (import_name * HostFunction)).

Definition offers (l : linker) (i : import_name) : option HostFunction :=
  snd <$> List.find (λ e, bool_decide (e.1 = i)) l.

Definition register (i : import_name) (f : HostFunction) (l : linker) : result linker PluginError :=
  match offers l i with
  | Some _ => Err (MissingHostImport i.2)
  | None => Ok (l ++ [(i, f)])
  end.

Fixpoint fold_result {A B E} (f : A → B → result B E) (l : list A) (b : B) : result B E :=
  match l with
  | [] => Ok b
  | a :: l => let? b := f a b in fold_result f l b
  end.

Definition VERSION : name := bytes "@0.1.0".

Definition register_function (instance : option name) (e : name * name) (l : linker) : result linker PluginError :=
  match from_wit e.1 e.2 with
  | None => Err (MissingHostImport (e.1 ++ bytes "#" ++ e.2))
  | Some f => register (instance, e.2) f l
  end.

(** The interfaces, each once and in order. *)
Definition interfaces (allowed : list (name * name)) : list name :=
  fst <$> merge_sort key_le ((λ i, (i, tt)) <$> remove_dups allowed.*1).

Definition register_interface (allowed : list (name * name)) (interface : name) (l : linker) : result linker PluginError :=
  fold_result (λ instance l,
      fold_result (register_function (Some instance))
        (List.filter (λ e, bool_decide (e.1 = interface)) allowed) l)
    [interface; interface ++ VERSION] l.

Definition linker_for (c : ToolClass.t) : result linker PluginError :=
  let allowed := imports_for c in
  let? l := fold_result (register_interface allowed) (interfaces allowed) [] in
  fold_result (register_function None) allowed l.

(** A host: one linker for each class. *)
Record Host := mkHost { linkers : ToolClass.t → option linker; host_limits : HostLimits }.

Definition with_dispatcher_and_limits (limits : HostLimits) : result Host PluginError :=
  let? agent := linker_for ToolClass.Agent in
  let? host := linker_for ToolClass.Host in
  let? user := linker_for ToolClass.User in
  Ok (mkHost (λ c, Some (match c with ToolClass.Agent => agent | ToolClass.Host => host | ToolClass.User => user end)) limits).

(** [Host::new] and [Host::with_dispatcher]; the dispatcher is the instance in use. *)
Definition new_host : result Host PluginError := with_dispatcher_and_limits default_limits.

(** ** Components *)

(** How a component behaves: it returns, traps, runs out of fuel, or calls an import and
    goes on with the answer. *)
Inductive Guest (R : Type) :=
| Return (r : R)
| Traps (detail : list byte)
| OutOfFuel
| Calls (import : import_name) (argument : list byte) (k : list byte → Guest R).
Arguments Return {R} r.
Arguments Traps {R} detail.
Arguments OutOfFuel {R}.
Arguments Calls {R} import argument k.

Inductive RunExport := NoRun | NotAFunction | RunFunction (params results : list bool).

(** What the engine says of a compiled component; a type is only whether it is a string.
    [G] is the state its instance keeps between calls, [spoil] what a call that does not
    return leaves of it. *)
Record Component (G : Type) := mkComponent {
  declared : list name; needs : list import_name; run_export : RunExport;
  start : Guest G; run : list byte → G → Guest (G * list byte); spoil : G → G }.
Arguments mkComponent {G}.
Arguments declared {G}.
Arguments needs {G}.
Arguments run_export {G}.
Arguments start {G}.
Arguments run {G}.
Arguments spoil {G}.

Definition DEFAULT_FUEL : N := 10000000.

Definition import_in_set (import : name) (allowed : list (name * name)) : bool :=
  existsb (λ e, bool_decide (import = e.1 ++ bytes "#" ++ e.2)) allowed ||
  existsb (λ e, bool_decide (import = e.1) || bool_decide (import = e.1 ++ VERSION)) allowed ||
  existsb (λ e, bool_decide (import = e.2)) allowed.

Definition verify {G} (component : name) (x : Component G) (c : ToolClass.t) : result unit PluginError :=
  match List.find (λ import, negb (import_in_set import (imports_for c))) (declared x) with
  | Some import => Err (UnlistedImport component import)
  | None => Ok tt
  end.

Definition validate_run_export {G} (x : Component G) : result unit PluginError :=
  match run_export x with
  | NoRun | NotAFunction => Err (WrongSignature (bytes "run"))
  | RunFunction params results =>
      if bool_decide (params = [true]) && bool_decide (results = [true]) then Ok tt
      else Err (WrongSignature (bytes "run"))
  end.

(** How a run of a guest ends. *)
Inductive Outcome (R : Type) := Returned (r : R) | Trapped (detail : list byte) | Exhausted | Failed (f : HostDispatchFailure).
Arguments Returned {R} r.
Arguments Trapped {R} detail.
Arguments Exhausted {R}.
Arguments Failed {R} f.

Definition classify_call_error {R} (component : name) (o : Outcome R) : result R PluginError :=
  match o with
  | Returned r => Ok r
  | Exhausted => Err (FuelExhausted component DEFAULT_FUEL)
  | Failed f => Err (HostDispatch component f)
  | Trapped detail => Err (Trap component detail)
  end.

(** At instantiation a trap is the engine's. *)
Definition classify_engine_error {R} (component : name) (o : Outcome R) : result R PluginError :=
  match o with
  | Returned r => Ok r
  | Exhausted => Err (FuelExhausted component DEFAULT_FUEL)
  | Failed f => Err (HostDispatch component f)
  | Trapped _ => Err Engine
  end.

Section host.
Context {D G : Type} `{Dispatcher D}.

(** The engine runs a guest; an import that was not linked traps. *)
Fixpoint exec {R} (l : linker) (g : Guest R) (s : HostState) (d : D) : HostState * D * Outcome R :=
  match g with
  | Return r => (s, d, Returned r)
  | Traps detail => (s, d, Trapped detail)
  | OutOfFuel => (s, d, Exhausted)
  | Calls import argument k =>
      match offers l import with
      | None => (s, d, Trapped [])
      | Some f =>
          match dispatch f argument s d with
          | (s, d, Ok answer) => exec l (k answer) s d
          | (s, d, Err failure) => (s, d, Failed failure)
          end
      end
  end.

Record Plugin := mkPlugin { plugin_name : name; plugin_linker : linker; instance : G; store : HostState }.

Definition instantiate (h : Host) (component : name) (x : Component G) (c : ToolClass.t) (d : D) :
    D * result Plugin PluginError :=
  match verify component x c with
  | Err e => (d, Err e)
  | Ok _ =>
      match linkers h c with
      | None => (d, Err (MissingHostImport []))
      | Some l =>
          match validate_run_export x with
          | Err e => (d, Err e)
          | Ok _ =>
              if negb (forallb (λ i, bool_decide (is_Some (offers l i))) (needs x)) then (d, Err Engine)
              else
                let '(s, d, o) := exec l (start x) (mkState (mkIdentity component c) [] (host_limits h)) d in
                (d, let? g := classify_engine_error component o in Ok (mkPlugin component l g s))
          end
      end
  end.

Definition call (x : Component G) (arguments : list byte) (p : Plugin) (d : D) :
    Plugin * D * result (list byte) PluginError :=
  let '(s, d, o) := exec (plugin_linker p) (run x arguments (instance p)) (store p) d in
  match classify_call_error (plugin_name p) o with
  | Err e => (mkPlugin (plugin_name p) (plugin_linker p) (spoil x (instance p)) s, d, Err e)
  | Ok (g, answer) =>
      let limit := max_plugin_result_bytes (limits s) in
      (mkPlugin (plugin_name p) (plugin_linker p) g s, d,
       if (limit <? size answer)%N then Err (ResourceLimit (plugin_name p) (size answer) limit) else Ok answer)
  end.
End host.
Arguments Plugin : clear implicits.

(** ** What a class is given *)

Definition granted (c : ToolClass.t) : list HostFunction := omap (λ e, from_wit e.1 e.2) (imports_for c).

(** The imports a class may make of a function: from the root, and from its interface with
    and without the version. *)
Definition spellings (e : name * name) : list import_name := [(None, e.2); (Some e.1, e.2); (Some (e.1 ++ VERSION), e.2)].

Definition spelled (e : name * name) : linker :=
  match from_wit e.1 e.2 with Some f => (λ i, (i, f)) <$> spellings e | None => [] end.

Lemma offers_elem (l : linker) i f : NoDup l.*1 → offers l i = Some f ↔ (i, f) ∈ l.
Proof.
  unfold offers. induction l as [|[i' f'] l IH]; cbn [List.find fmap list_fmap fst].
  { split; [done|by intros ?%not_elem_of_nil]. }
  intros [Hni Hn]%NoDup_cons. rewrite elem_of_cons. case_bool_decide as E.
  - cbn [fst] in E. subst i'. cbn [fmap option_fmap option_map snd]. split; [intros [= ->]; by left|].
    intros [[= ->]|Hin]; [done|]. exfalso. apply Hni, list_elem_of_fmap. by exists (i, f).
  - rewrite IH by done. cbn [fst] in E. split; [by right|]. intros [[= -> ->]|Hin]; done.
Qed.

(** The linker of a class, and that it holds what the class is given and nothing else. *)
Lemma linker_for_Ok c : ∃ l, linker_for c = Ok l ∧ NoDup l.*1 ∧ ∀ x, x ∈ l ↔ x ∈ flat_map spelled (imports_for c).
Proof.
  destruct (linker_for c) as [l|e] eqn:E; [|destruct c; vm_compute in E; discriminate].
  assert (H : bool_decide (NoDup l.*1 ∧ Forall (λ x, x ∈ flat_map spelled (imports_for c)) l ∧
    Forall (λ x, x ∈ l) (flat_map spelled (imports_for c))) = true)
    by (destruct c; vm_compute in E; injection E as <-; vm_compute; reflexivity).
  apply bool_decide_eq_true in H as (Hn & H1 & H2). exists l. split; [done|]. split; [done|].
  rewrite !Forall_forall in *. naive_solver.
Qed.

#[local] Opaque linker_for imports_for from_wit.

Lemma host_exists limits : ∃ h, with_dispatcher_and_limits limits = Ok h ∧ host_limits h = limits ∧
  ∀ c, ∃ l, linkers h c = Some l ∧ linker_for c = Ok l.
Proof.
  unfold with_dispatcher_and_limits.
  destruct (linker_for_Ok ToolClass.Agent) as (la & Ea & _). destruct (linker_for_Ok ToolClass.Host) as (lh & Eh & _).
  destruct (linker_for_Ok ToolClass.User) as (lu & Eu & _). rewrite Ea, Eh, Eu. cbn [result_bind].
  eexists. split; [done|]. split; [done|]. intros []; eexists; (split; [reflexivity|assumption]).
Qed.

Lemma offers_granted c l i f : linker_for c = Ok l → offers l i = Some f → f ∈ granted c.
Proof.
  intros E. destruct (linker_for_Ok c) as (l' & E' & Hn & Hl). rewrite E in E'. injection E' as <-.
  rewrite (offers_elem l i f Hn), Hl, list_elem_of_In, in_flat_map. intros (e & He & Hin).
  apply list_elem_of_omap. exists e. rewrite list_elem_of_In. split; [done|]. unfold spelled in Hin.
  destruct (from_wit e.1 e.2) as [f'|]; [|done]. apply list_elem_of_In, list_elem_of_fmap in Hin as (i' & [= _ <-] & _). done.
Qed.

(** A host offers a component of a class, under each spelling of their names, exactly
    the functions of that class: an agent's component has no name for a spawn, a snapshot
    or a question to the user, a host's none for a question. *)
Theorem host_offers_exact limits :
  ∃ h, with_dispatcher_and_limits limits = Ok h ∧
    ∀ c, ∃ l, linkers h c = Some l ∧
      ∀ i f, offers l i = Some f ↔ ∃ e, e ∈ imports_for c ∧ from_wit e.1 e.2 = Some f ∧ i ∈ spellings e.
Proof.
  destruct (host_exists limits) as (h & Hh & _ & Hl). exists h. split; [done|]. intros c.
  destruct (Hl c) as (l & Hc & E). exists l. split; [done|]. intros i f.
  destruct (linker_for_Ok c) as (l' & E' & Hn & Hin). rewrite E in E'. injection E' as <-.
  rewrite (offers_elem l i f Hn), Hin, list_elem_of_In, in_flat_map. unfold spelled. split.
  - intros (e & He & Hs). exists e. destruct (from_wit e.1 e.2) as [f'|]; [|destruct Hs].
    apply list_elem_of_In, list_elem_of_fmap in Hs as (i' & [= <- <-] & Hi).
    exact (conj (proj2 (list_elem_of_In _ _) He) (conj eq_refl Hi)).
  - intros (e & He & Hf & Hs). exists e. rewrite <- !list_elem_of_In. split; [exact He|]. rewrite Hf.
    apply list_elem_of_fmap. exists i. exact (conj eq_refl Hs).
Qed.

(** ** What a component can do *)

Section confined.
Context {D G : Type} `{Dispatcher D}.

(** The state of the runtime after some calls. *)
Definition after_calls (d : D) (cs : list HostCall) : D :=
  foldl (λ d c, (route (caller c) (function c) (argument c) d).1) d cs.

(** The calls that reached the runtime, and nothing else did. *)
Record confined (limits : HostLimits) (identity : PluginIdentity) (d d' : D) (cs : list HostCall) : Prop := {
  cf_calls : Forall (λ c, caller c = identity ∧ function c ∈ granted (class identity) ∧
                          (size (argument c) <= max_argument_bytes limits)%N) cs;
  cf_bound : (N.of_nat (length cs) <= max_calls limits)%N;
  cf_runtime : d' = after_calls d cs }.

Definition state_ok (limits' : HostLimits) (identity' : PluginIdentity) (d : D) (s : HostState) (d' : D) : Prop :=
  limits s = limits' ∧ identity s = identity' ∧ confined limits' identity' d d' (calls s).

Lemma dispatch_ok ls id d s d' f arg : f ∈ granted (class id) → state_ok ls id d s d' →
  state_ok ls id d (dispatch f arg s d').1.1 (dispatch f arg s d').1.2.
Proof.
  intros Hf (<- & <- & [Hcs Hb ->]). unfold dispatch.
  destruct (N.leb_spec (max_calls (limits s)) (N.of_nat (length (calls s)))); [done|].
  destruct (N.ltb_spec (max_argument_bytes (limits s)) (size arg)); [done|]. cbn [identity].
  destruct (route (identity s) f arg (after_calls d (calls s))) as [d1 r] eqn:E. cbn [fst snd].
  split; [done|]. split; [done|]. split; cbn [calls].
  - apply Forall_app. split; [done|]. by apply Forall_singleton.
  - rewrite length_app. cbn. lia.
  - unfold after_calls in *. rewrite foldl_app. cbn [foldl caller function argument]. by rewrite E.
Qed.

Lemma exec_ok {R} c (l : linker) (g : Guest R) ls id d : linker_for c = Ok l → class id = c → ∀ s d', state_ok ls id d s d' →
  state_ok ls id d (exec l g s d').1.1 (exec l g s d').1.2.
Proof.
  intros Hl Hc. induction g as [r|detail| |import arg k IH]; intros s d' Hs; cbn [exec]; try done.
  destruct (offers l import) as [f|] eqn:E; [|done].
  assert (Hf : f ∈ granted (class id)) by (rewrite Hc; by apply (offers_granted c l import)).
  pose proof (dispatch_ok ls id d s d' f arg Hf Hs) as Hd. destruct (dispatch f arg s d') as [[s1 d1] [answer|e]]; [|done].
  by apply IH.
Qed.

(** A session with a component: some calls, and what they answered. *)
Fixpoint run_calls (x : Component G) (args : list (list byte)) (p : Plugin G) (d : D) :
    Plugin G * D * list (result (list byte) PluginError) :=
  match args with
  | [] => (p, d, [])
  | arg :: args =>
      let '(p, d, r) := call x arg p d in
      let '(p, d, rs) := run_calls x args p d in (p, d, r :: rs)
  end.

Lemma run_calls_ok c l x args ls id d : linker_for c = Ok l → class id = c → ∀ p d',
  plugin_linker p = l → state_ok ls id d (store p) d' →
  let '(p', d'', rs) := run_calls x args p d' in
  state_ok ls id d (store p') d'' ∧
  Forall (λ r, ∀ answer, r = Ok answer → (size answer <= max_plugin_result_bytes ls)%N) rs.
Proof.
  intros Hl Hc. induction args as [|arg args IH]; intros p d' Hp Hs; cbn [run_calls]; [done|].
  unfold call. rewrite Hp.
  pose proof (exec_ok c l (run x arg (instance p)) ls id d Hl Hc (store p) d' Hs) as Hx.
  destruct (exec l (run x arg (instance p)) (store p) d') as [[s1 d1] o]. cbn [fst snd] in Hx.
  destruct (classify_call_error (plugin_name p) o) as [[g answer]|e].
  - specialize (IH (mkPlugin (plugin_name p) l g s1) d1 eq_refl Hx).
    destruct (run_calls x args _ d1) as [[p2 d2] rs]. destruct IH as [H1 H2]. split; [done|]. constructor; [|done].
    destruct Hx as (-> & _). destruct (N.ltb_spec (max_plugin_result_bytes ls) (size answer)); [done|]. by intros ? [= <-].
  - specialize (IH (mkPlugin (plugin_name p) l (spoil x (instance p)) s1) d1 eq_refl Hx).
    destruct (run_calls x args _ d1) as [[p2 d2] rs]. destruct IH as [H1 H2]. split; [done|]. by constructor.
Qed.

(** C19. Whatever a component does, while it starts or in any number of calls: the runtime
    sees only calls of the functions of its class, under its name, with arguments within
    the limit and no more of them in all than the limit, each recorded and in their
    order; and no answer longer than the limit comes back. *)
Theorem plugin_confined limits h comp (x : Component G) c (d0 : D) args :
  with_dispatcher_and_limits limits = Ok h →
  let '(d1, r) := instantiate h comp x c d0 in
  match r with
  | Ok p =>
      let '(p', d', rs) := run_calls x args p d1 in
      confined limits (mkIdentity comp c) d0 d' (calls (store p')) ∧
      Forall (λ r, ∀ answer, r = Ok answer → (size answer <= max_plugin_result_bytes limits)%N) rs
  | Err _ => ∃ cs, confined limits (mkIdentity comp c) d0 d1 cs
  end.
Proof.
  intros Hh. destruct (host_exists limits) as (h' & Hh' & Hlim & Hl). rewrite Hh in Hh'. injection Hh' as <-.
  destruct (Hl c) as (l & Hc & E). set (id := mkIdentity comp c).
  assert (H0 : confined limits id d0 d0 []) by (split; [constructor|cbn; lia|done]).
  unfold instantiate. destruct (verify comp x c); [|by exists []]. rewrite Hc.
  destruct (validate_run_export x); [|by exists []]. destruct (negb _); [by exists []|]. rewrite Hlim. fold id.
  assert (Hs : state_ok limits id d0 (mkState id [] limits) d0) by exact (conj eq_refl (conj eq_refl H0)).
  pose proof (exec_ok c l (start x) limits id d0 E eq_refl _ d0 Hs) as Hx.
  destruct (exec l (start x) _ d0) as [[s1 d1] o]. cbn [fst snd] in Hx.
  destruct (classify_engine_error comp o) as [g|e]; cbn [result_bind].
  - pose proof (run_calls_ok c l x args limits id d0 E eq_refl (mkPlugin comp l g s1) d1 eq_refl Hx) as Hr.
    destruct (run_calls x args _ d1) as [[p' d'] rs]. destruct Hr as [(_ & _ & Hcf) Hr]. exact (conj Hcf Hr).
  - destruct Hx as (_ & _ & Hcf). by eexists.
Qed.
End confined.

(** ** A concrete host *)

(** A runtime that keeps what it was asked and answers with its name. *)
Definition log_dispatcher : Dispatcher (list HostFunction) :=
  {| route := λ _ f _ d, (d ++ [f], Ok (path f)) |}.

(** A component that reads, then tries to spawn, and returns what it read. *)
Definition curious : Component nat :=
  mkComponent [agent_tools ++ VERSION] [(Some (agent_tools ++ VERSION), bytes "read-file")] (RunFunction [true] [true])
    (Return 0)
    (λ arg n, Calls (Some (agent_tools ++ VERSION), bytes "read-file") arg (λ read,
                if n =? 0 then Return (1, read)
                else Calls (None, bytes "spawn") (bytes "sh") (λ _, Return (2, bytes "spawned"))))
    id.

Definition small_limits : HostLimits := mkLimits 4 100 2 100 0 0 0 0 0.

Definition small_host : Host :=
  match with_dispatcher_and_limits small_limits with
  | Ok h => h
  | Err _ => mkHost (λ _, None) small_limits
  end.

Definition curious_plugin : list HostFunction * result (Plugin nat) PluginError :=
  instantiate (H := log_dispatcher) small_host (bytes "c") curious ToolClass.Agent [].

Definition curious_session (args : list (list byte)) : option (list HostFunction * list (result (list byte) PluginError)) :=
  match curious_plugin.2 with
  | Ok p => let '(_, d, rs) := run_calls (H := log_dispatcher) curious args p curious_plugin.1 in Some (d, rs)
  | Err _ => None
  end.

Lemma plugin_confined_witness :
  with_dispatcher_and_limits small_limits = Ok small_host ∧
  curious_session [bytes "a"; bytes "b"; bytes "c"] =
    Some ([ReadFile; ReadFile],
          [Ok (path ReadFile); Err (Trap (bytes "c") []); Err (HostDispatch (bytes "c") (CallLimit ReadFile 2))]) ∧
  curious_session [bytes "too long"] = Some ([], [Err (HostDispatch (bytes "c") (ArgumentTooLong ReadFile 8 4))]) ∧
  (let '(d1, r) := curious_plugin in
   match r with
   | Ok p =>
       let '(p', d', rs) := run_calls (H := log_dispatcher) curious [bytes "a"; bytes "b"; bytes "c"] p d1 in
       confined (H := log_dispatcher) small_limits (mkIdentity (bytes "c") ToolClass.Agent) [] d' (calls (store p')) ∧
       Forall (λ r, ∀ answer, r = Ok answer → (size answer <= max_plugin_result_bytes small_limits)%N) rs
   | Err _ => ∃ cs, confined (H := log_dispatcher) small_limits (mkIdentity (bytes "c") ToolClass.Agent) [] d1 cs
   end).
Proof.
  assert (H : with_dispatcher_and_limits small_limits = Ok small_host) by (vm_compute; reflexivity).
  split; [exact H|]. split; [vm_compute; reflexivity|]. split; [vm_compute; reflexivity|].
  exact (plugin_confined (H := log_dispatcher) small_limits small_host (bytes "c") curious ToolClass.Agent []
    [bytes "a"; bytes "b"; bytes "c"] H).
Defined.

(** ** What the model shows of the code *)

(** An import spelled with a hash is taken when a component is checked, and no linker
    offers it: what was verified does not link. *)
Lemma hashed_import_does_not_link :
  let import := agent_tools ++ bytes "#search" in
  let x : Component nat := mkComponent [import] [(None, import)] (RunFunction [true] [true]) (Return 0) (λ _ n, Return (n, [])) id in
  verify (bytes "c") x ToolClass.Agent = Ok tt ∧
  (instantiate (H := log_dispatcher) small_host (bytes "c") x ToolClass.Agent []).2 = Err Engine.
Proof. split; vm_compute; reflexivity. Qed.
