(* ===== verification/Tui.v ===== *)
(** * The terminal: [supra_theme/src], [supra_tui/src]

    Roles and their escape sequences, the gauge and the meter, the status line and what it
    gives up when it does not fit, the counters of a turn folded from bus deliveries, the
    viewport, the spinner and the thinking block.  How many cells a text takes and where it
    may be cut is the native width library's: [Terminal] has its functions and
    [TerminalLaws] what it documents of them.  A [usize] that only counts what is in memory
    is a [nat]. *)

From Stdlib Require Import Ascii.
From S2P Require Import Prelude Text Sealing Utf8 Cohort Event EventBus Framing Session.

Inductive Ambiguous := Narrow | Wide.

#[export] Instance Ambiguous_eq_dec : EqDecision Ambiguous.
Proof. solve_decision. Defined.

(** [truncate] answers the bytes of the prefix and its cells. *)
Class Terminal := mkTerminal {
  width : list byte → Ambiguous → nat;
  truncate : list byte → nat → Ambiguous → nat * nat;
  char_width : N → Ambiguous → nat;
  strip : list byte → list byte;
}.

Class TerminalLaws `{Terminal} := {
  truncate_cells l max a : (truncate l max a).2 = width (take (truncate l max a).1 l) a;
  truncate_fits l max a : (truncate l max a).2 ≤ max;
  truncate_whole l max a : width l a ≤ max → (truncate l max a).1 = length l;
  truncate_utf8 l max a : is_utf8 l = true → is_utf8 (take (truncate l max a).1 l) = true;
}.

(** ** Roles: [theme.rs] *)

Inductive Token := Plain | Input | Answer | Thinking | ToolToken | ErrorToken | Muted | Accent.

Module Theme.
Record t := mk { name : list byte; ambiguous : Ambiguous; sequences : list (list N) }.
End Theme.

Definition token_index (token : Token) : nat :=
  match token with
  | Plain => 0 | Input => 1 | Answer => 2 | Thinking => 3 | ToolToken => 4 | ErrorToken => 5
  | Muted => 6 | Accent => 7
  end.

Definition Token_ALL : list Token := [Plain; Input; Answer; Thinking; ToolToken; ErrorToken; Muted; Accent].

Definition new_theme (name : list byte) (ambiguous : Ambiguous) (entries : list (Token * list N)) : Theme.t :=
  Theme.mk name ambiguous
    (foldl (λ table e, <[token_index e.1 := e.2]> table) (replicate 8 []) entries).

Definition default_dark : Theme.t :=
  new_theme (bytes "dark") Narrow
    [(Plain, []); (Input, [36]); (Answer, []); (Thinking, [90]); (ToolToken, [33]);
     (ErrorToken, [31]); (Muted, [90]); (Accent, [32])]%N.

Definition escape : byte := "027".

Definition joined (separator : list byte) (parts : list (list byte)) : list byte :=
  match parts with
  | [] => []
  | part :: parts => part ++ concat ((λ p, separator ++ p) <$> parts)
  end.

Definition paint_start (theme : Theme.t) (token : Token) : list byte :=
  match nth (token_index token) (Theme.sequences theme) [] with
  | [] => []
  | params => escape :: bytes "[" ++ joined (bytes ";") (dec <$> params) ++ bytes "m"
  end.

Definition paint_reset : list byte := escape :: bytes "[0m".

Definition paint (theme : Theme.t) (token : Token) (text : list byte) : list byte :=
  match paint_start theme token with
  | [] => text
  | sequence => sequence ++ text ++ paint_reset
  end.

(** ** Data *)

(** A glyph is its code point. *)
Record GaugeGlyphs := mkGauge { filled : N; empty_glyph : N }.

Record Meter := mkMeter { total : nat; meter_ambiguous : Ambiguous }.

Record StatusSegment := mkStatus { shed_at : nat; text : list byte; token : Token }.

#[export] Instance Token_eq_dec : EqDecision Token.
Proof. solve_decision. Defined.
#[export] Instance StatusSegment_eq_dec : EqDecision StatusSegment.
Proof. solve_decision. Defined.

Module Cost.
Record t := mk { mills : N; estimated : bool }.
End Cost.

Record StatusLine := mkLine {
  segments : list StatusSegment; compact_segments : option (list StatusSegment) }.

Inductive ThinkingState := Streaming | Collapsed | Expanded.

(** Segments with the cells they take: [(shed_at, cells, segment)] of the source. *)
Abbreviation sized := (list (nat * StatusSegment)).

Section screen.
Context `{Terminal}.

(** [String::from_utf8_lossy(&text[..truncated.bytes])]. *)
Definition cut (text : list byte) (cells : nat) (a : Ambiguous) : list byte * nat :=
  let '(taken, used) := truncate text cells a in (from_utf8_lossy (take taken text), used).

(** ** Gauge and meter: [gauge.rs], [meter.rs] *)

Definition BLOCK_SHADE : GaugeGlyphs := mkGauge 9608 9617.
Definition PORTABLE : GaugeGlyphs := mkGauge 35 46.

Definition gauge_cells (g : GaugeGlyphs) (a : Ambiguous) : nat * nat :=
  (char_width (filled g) a, char_width (empty_glyph g) a).

Definition is_stable (g : GaugeGlyphs) (a : Ambiguous) : bool :=
  bool_decide (gauge_cells g a = gauge_cells g Narrow) &&
  bool_decide ((gauge_cells g a).1 = (gauge_cells g a).2).

Definition gauge_render (g : GaugeGlyphs) (on off : nat) : list N :=
  replicate on (filled g) ++ replicate off (empty_glyph g).

Definition gauge_for (a : Ambiguous) : GaugeGlyphs :=
  if is_stable BLOCK_SHADE a then BLOCK_SHADE else PORTABLE.

(** [usize::saturating_mul]. *)
Definition sat_mul (a b : nat) : nat := Z.to_nat (Z.min (Z.of_nat a * Z.of_nat b) u64_max).

(** How many of [slots] are on. *)
Definition slots_on (slots part whole : nat) : nat :=
  let part := part `min` whole in
  sat_mul part (slots / whole) + sat_mul part (slots mod whole) / whole.

Definition meter_render (m : Meter) (part whole : nat) : list N :=
  let gauge := gauge_for (meter_ambiguous m) in
  let '(filled_cells, empty_cells) := gauge_cells gauge (meter_ambiguous m) in
  let slots := total m / ((filled_cells `max` empty_cells) `max` 1) in
  if whole =? 0 then gauge_render gauge 0 slots
  else let on := slots_on slots part whole in gauge_render gauge on (slots - on).

(** ** Banner: [banner.rs] *)

Definition WORDMARK_WIDE : list (list byte) :=
  [bytes " ____                       _   "; bytes "/ ___| _   _  ___ _ __ __ _| |_ ";
   bytes "\___ \| | | |/ _ \ '__/ _` | __|"].

Definition banner (cols : nat) (a : Ambiguous) : list (list byte) :=
  if forallb (λ line, width line a <=? cols) WORDMARK_WIDE && (20 <=? cols) then WORDMARK_WIDE
  else [(cut (bytes "supra") cols a).1].

(** ** Status line: [status.rs] *)

Definition pad3 (n : N) : list byte :=
  (if (n <? 10)%N then bytes "00" else if (n <? 100)%N then bytes "0" else []) ++ dec n.

Definition tilde (cost : Cost.t) : list byte := if Cost.estimated cost then bytes "~" else [].

Definition format_cost (cost : Cost.t) : list byte :=
  bytes "+$" ++ dec (Cost.mills cost / 1000) ++ bytes "." ++ pad3 (Cost.mills cost mod 1000) ++ tilde cost.

Definition NEVER_SHED : nat := 0.
Definition FIRST_SHED : nat := 1.
Definition FULL_SEPARATOR : list byte := bytes "  ".
Definition COMPACT_SEPARATOR : list byte := bytes " ".

Definition new_line (segments : list StatusSegment) : StatusLine := mkLine segments None.

Definition compact_cost (cost : Cost.t) : list byte :=
  if (Cost.mills cost <? 1000)%N then bytes "$" ++ dec (Cost.mills cost) ++ bytes "m" ++ tilde cost
  else bytes "$" ++ dec (Cost.mills cost / 1000) ++ bytes "." ++
       dec (Cost.mills cost mod 1000 / 100) ++ tilde cost.

(** [mode.get(..1)]: the first byte, when a character ends there. *)
Definition first_byte (mode : list byte) : option (list byte) :=
  match mode with
  | [] => None
  | c :: rest => if at_boundary rest then Some [c] else None
  end.

Definition compact_mode (mode : list byte) : list byte :=
  let label :=
    if bool_decide (mode = bytes "plan") then bytes "P"
    else if bool_decide (mode = bytes "ask") then bytes "A"
    else if bool_decide (mode = bytes "auto") then bytes "U"
    else if bool_decide (mode = bytes "yolo") then bytes "Y"
    else default (bytes "?") (first_byte mode) in
  bytes "m" ++ label.

Definition percent (prefix suffix : string) (n : N) : list byte := bytes prefix ++ dec n ++ bytes suffix.

Definition live (mode : list byte) (context_percent cache_percent : N) (cost : Cost.t)
    (cache_broken : bool) (model : list byte) (telemetry_on : bool) (missed_events hook_count : N) :
    StatusLine :=
  mkLine
    ([mkStatus NEVER_SHED (percent "ctx " "%" context_percent) Muted;
      mkStatus NEVER_SHED (percent "cache " "%" cache_percent) Muted;
      mkStatus NEVER_SHED (format_cost cost) Accent] ++
     (if cache_broken then [mkStatus NEVER_SHED (bytes "cache broke") ErrorToken] else []) ++
     [mkStatus NEVER_SHED (bytes "mode " ++ mode) Input; mkStatus FIRST_SHED model Plain] ++
     (if (0 <? missed_events)%N
      then [mkStatus FIRST_SHED (percent "missed " "" missed_events) ErrorToken] else []) ++
     (if telemetry_on then [mkStatus (FIRST_SHED + 1) (bytes "telemetry on") Muted] else []) ++
     (if (0 <? hook_count)%N then [mkStatus (FIRST_SHED + 1) (percent "" " hooks" hook_count) Muted] else []))
    (Some
      ([mkStatus NEVER_SHED (percent "c" "" context_percent) Muted;
        mkStatus NEVER_SHED (percent "h" "" cache_percent) Muted;
        mkStatus NEVER_SHED (compact_cost cost) Accent] ++
       (if cache_broken then [mkStatus NEVER_SHED (bytes "!") ErrorToken] else []) ++
       [mkStatus NEVER_SHED (compact_mode mode) Input])).

Definition width_of (text : list byte) (theme : Theme.t) : nat := width text (Theme.ambiguous theme).

Definition measured (segments : list StatusSegment) (theme : Theme.t) : sized :=
  (λ s, (width_of (text s) theme, s)) <$> segments.

Definition total_width (l : sized) (separator : list byte) : nat :=
  foldl (λ sum e, sum + e.1) ((length l - 1) * length separator) l.

Definition fits (l : sized) (cols : nat) (separator : list byte) : bool :=
  total_width l separator <=? cols.

(** The highest priority that may still be given up. *)
Definition highest (l : sized) : option nat :=
  shed_at ∘ snd <$>
    max_by_key (λ e, shed_at e.2) (List.filter (λ e, NEVER_SHED <? shed_at e.2) l).

(** The loop of [select_segments]: each round drops a priority, so as many rounds as there
    are segments are enough ([shed_loop_enough]). *)
Fixpoint shed_loop (fuel : nat) (l : sized) (cols : nat) (separator : list byte) : sized :=
  match fuel with
  | 0 => l
  | S fuel =>
      if fits l cols separator then l
      else match highest l with
           | None => l
           | Some p => shed_loop fuel (List.filter (λ e, negb (shed_at e.2 =? p)) l) cols separator
           end
  end.

Definition select_segments (segments : list StatusSegment) (cols : nat) (separator : list byte)
    (theme : Theme.t) : sized :=
  shed_loop (length segments) (measured segments theme) cols separator.

(** What is pushed, before it is painted: the text of each segment that is shown, with the
    separator in front of it; [None] is a separator nothing follows. *)
Fixpoint render_pieces (first : bool) (l : sized) (remaining : nat) (separator : list byte)
    (theme : Theme.t) : list (list byte * option (Token * list byte)) :=
  match l with
  | [] => []
  | (_, segment) :: l =>
      let separator_cells := if first then 0 else length separator in
      if remaining <? separator_cells then []
      else
        let remaining := remaining - separator_cells in
        let pushed := if first then [] else separator in
        if remaining =? 0 then [(pushed, None)]
        else
          let '(shown, cells) := cut (text segment) remaining (Theme.ambiguous theme) in
          match shown with
          | [] => [(pushed, None)]
          | _ => (pushed, Some (token segment, shown)) ::
                 render_pieces false l (remaining - cells) separator theme
          end
  end.

Definition paint_piece (theme : Theme.t) (p : list byte * option (Token * list byte)) : list byte :=
  p.1 ++ match p.2 with Some (token, shown) => paint theme token shown | None => [] end.

Definition render_segments (l : sized) (cols : nat) (separator : list byte) (theme : Theme.t) : list byte :=
  concat (paint_piece theme <$> render_pieces true l cols separator theme).

(** The segments [render] lays out and the separator between them. *)
Definition laid_out (line : StatusLine) (cols : nat) (theme : Theme.t) : sized * list byte :=
  let full := select_segments (segments line) cols FULL_SEPARATOR theme in
  if fits full cols FULL_SEPARATOR then (full, FULL_SEPARATOR)
  else match compact_segments line with
       | None => (full, FULL_SEPARATOR)
       | Some compact => (measured compact theme, COMPACT_SEPARATOR)
       end.

Definition render (line : StatusLine) (cols : nat) (theme : Theme.t) : list byte :=
  if cols =? 0 then []
  else let '(l, separator) := laid_out line cols theme in render_segments l cols separator theme.

(** ** The thinking block: [thinking.rs] *)

Definition because : list byte := ascii_of_N <$> [226; 136; 181]%N.
Definition therefore : list byte := ascii_of_N <$> [226; 136; 180]%N.
Definition ellipsis : list byte := ascii_of_N <$> [226; 128; 166]%N.

Definition render_line (line : list byte) (cols : nat) (theme : Theme.t) : list byte :=
  paint theme Thinking (cut line cols (Theme.ambiguous theme)).1.

Definition body_lines (body : list byte) (cols body_rows : nat) (theme : Theme.t) : list (list byte) :=
  (λ line, render_line line cols theme) <$> take body_rows (lines (from_utf8_lossy (strip body))).

Definition thinking_header (seconds : N) (state : ThinkingState) : list byte :=
  match state with
  | Streaming => because ++ bytes " Thinking" ++ ellipsis
  | Collapsed => therefore ++ bytes " Thought for " ++ dec seconds ++ bytes "s (ctrl+o to expand)"
  | Expanded => therefore ++ bytes " Thought for " ++ dec seconds ++ bytes "s (ctrl+o to collapse)"
  end.

Definition thinking_lines (seconds : N) (body : list byte) (state : ThinkingState) (cols body_rows : nat)
    (theme : Theme.t) : list (list byte) :=
  render_line (thinking_header seconds state) cols theme ::
  match state with Expanded => body_lines body cols body_rows theme | _ => [] end.

Definition thinking_render (seconds : N) (body : list byte) (state : ThinkingState) (cols body_rows : nat)
    (theme : Theme.t) : list byte :=
  joined [lf] (thinking_lines seconds body state cols body_rows theme).
End screen.

(** ** Panel, spinner, viewport: [panel.rs], [spinner.rs], [viewport.rs] *)

Record Panel := mkPanel { title : list byte; panel_body : list (list byte) }.

Definition panel_render (p : Panel) (theme : Theme.t) : list byte :=
  paint theme Accent (title p) ++ concat ((λ line, lf :: paint theme Plain line) <$> panel_body p).

(** The code points of the frames. *)
Definition SPINNER_FRAMES : list N :=
  [10251; 10265; 10297; 10296; 10300; 10292; 10278; 10279; 10247; 10255]%N.

Record Spinner := mkSpinner { tick : N }.

Definition new_spinner : Spinner := mkSpinner 0.

(** [usize::wrapping_add]. *)
Definition next_frame (s : Spinner) : Spinner * N :=
  (mkSpinner ((tick s + 1) mod 2 ^ 64),
   nth (N.to_nat (tick s mod N.of_nat (length SPINNER_FRAMES))) SPINNER_FRAMES 0%N).

Record Viewport := mkViewport { view_total : nat; visible : nat; offset : nat }.

Definition max_offset (total visible : nat) : nat := total - visible.

Definition new_viewport (total visible offset : nat) : Viewport :=
  mkViewport total visible (offset `min` max_offset total visible).

Definition visible_range (v : Viewport) : nat * nat :=
  let start := offset v `min` view_total v in (start, view_total v `min` (start + visible v)).

Definition is_scrolled (v : Viewport) : bool := offset v <? max_offset (view_total v) (visible v).

(** ** The counters of a turn: [frame.rs] *)

Module FrameState.
Record t := mk {
  streamed_chars : Z;
  thinking_chars : Z;
  spend : Z;
  votes : Z * Z;
  quorum : bool;
  cache_broken : bool;
  missed_events : Z;
  completions : Z;
}.

Definition default : t := mk 0 0 0 (0, 0)%Z false false 0 0.
End FrameState.

Definition sat_u64 (x : Z) : Z := Z.min x u64_max.
Definition sat_u32 (x : Z) : Z := Z.min x u32_max.
Definition sat_i64 (x : Z) : Z := Z.max i64_min (Z.min x i64_max).

Definition frame_apply (event : Event.t) (missed_before : nat) (f : FrameState.t) : FrameState.t :=
  let '(FrameState.mk streamed thinking spend votes quorum broken missed completions) := f in
  let missed := sat_u64 (missed + Z.of_nat missed_before) in
  match event with
  | Event.StreamDelta chars =>
      FrameState.mk (sat_u64 (streamed + chars)) thinking spend votes quorum broken missed completions
  | Event.ThinkingDelta chars =>
      FrameState.mk streamed (sat_u64 (thinking + chars)) spend votes quorum broken missed completions
  | Event.UsageReported _ _ _ _ _ cost =>
      FrameState.mk streamed thinking (sat_i64 (spend + cost)) votes quorum broken missed
        (sat_u32 (completions + 1))
  | Event.VoteCast _ _ vote _ =>
      let all := sat_u32 (votes.2 + 1) in
      let yes := if bool_decide (vote = Yes) then sat_u32 (votes.1 + 1) else votes.1 in
      FrameState.mk streamed thinking spend (yes, all) quorum broken missed completions
  | Event.QuorumReached _ _ _ =>
      FrameState.mk streamed thinking spend votes true broken missed completions
  | Event.CacheBreak _ _ =>
      FrameState.mk streamed thinking spend votes quorum true missed completions
  | Event.TurnStarted _ => FrameState.default
  | _ => FrameState.mk streamed thinking spend votes quorum broken missed completions
  end.

Definition spend_mills (f : FrameState.t) : Z :=
  (sat_u64 (Z.max (FrameState.spend f) 0 + 999) / 1000)%Z.

(** The drain of a frame: [for delivery in deliveries { frame.apply(..) }]. *)
Definition frame_fold (deliveries : list Delivery.t) (f : FrameState.t) : FrameState.t :=
  foldl (λ f d, frame_apply (Delivery.event d) (Delivery.missed_before d) f) f deliveries.

(** [render_drain] of supra_cli/src/render.rs. *)
Definition render_drain `{Terminal} (frame : FrameState.t) (deliveries : list Delivery.t)
    (mode model : list byte) (theme : Theme.t) (cols : nat) : FrameState.t * list (list byte) :=
  let frame := frame_fold deliveries frame in
  let cost := Cost.mk (Z.to_N (spend_mills frame)) (FrameState.completions frame =? 0)%Z in
  (frame,
   [render (live mode 0 0 cost (FrameState.cache_broken frame) model false
              (Z.to_N (FrameState.missed_events frame)) 0) cols theme]).

(** ** What a frame has counted *)

(** A turn's deliveries start the frame, or follow the event that starts a turn. *)
Definition turn_boundary (before : list Delivery.t) : Prop :=
  before = [] ∨ ∃ l d turn, before = l ++ [d] ∧ Delivery.event d = Event.TurnStarted turn.

Definition starts_turn (e : Event.t) : Prop := ∃ turn, e = Event.TurnStarted turn.

Definition streamed_of (e : Event.t) : Z := match e with Event.StreamDelta chars => chars | _ => 0%Z end.
Definition thinking_of (e : Event.t) : Z := match e with Event.ThinkingDelta chars => chars | _ => 0%Z end.
Definition cost_of (e : Event.t) : Z :=
  match e with Event.UsageReported _ _ _ _ _ cost => cost | _ => 0%Z end.
Definition completion_of (e : Event.t) : Z :=
  match e with Event.UsageReported _ _ _ _ _ _ => 1%Z | _ => 0%Z end.
Definition vote_of (e : Event.t) : Z := match e with Event.VoteCast _ _ _ _ => 1%Z | _ => 0%Z end.
Definition yes_of (e : Event.t) : Z :=
  match e with Event.VoteCast _ _ Yes _ => 1%Z | _ => 0%Z end.
Definition is_quorum (e : Event.t) : bool := match e with Event.QuorumReached _ _ _ => true | _ => false end.
Definition is_break (e : Event.t) : bool := match e with Event.CacheBreak _ _ => true | _ => false end.

Definition tallied (f : Event.t → Z) (l : list Delivery.t) : Z := sum_Z ((f ∘ Delivery.event) <$> l).

Definition missed_in (l : list Delivery.t) : Z := sum_Z ((Z.of_nat ∘ Delivery.missed_before) <$> l).

(** Counts and costs are not negative. *)
Definition counts_up (e : Event.t) : Prop := (0 ≤ streamed_of e ∧ 0 ≤ thinking_of e ∧ 0 ≤ cost_of e)%Z.

Definition counters (l : list Delivery.t) : FrameState.t :=
  FrameState.mk (sat_u64 (tallied streamed_of l)) (sat_u64 (tallied thinking_of l))
    (Z.min (tallied cost_of l) i64_max)
    (sat_u32 (tallied yes_of l), sat_u32 (tallied vote_of l))
    (existsb (is_quorum ∘ Delivery.event) l) (existsb (is_break ∘ Delivery.event) l)
    (sat_u64 (missed_in l)) (sat_u32 (tallied completion_of l)).

Lemma tallied_snoc f l d : tallied f (l ++ [d]) = (tallied f l + f (Delivery.event d))%Z.
Proof. unfold tallied. rewrite fmap_app, sum_Z_app. simpl. lia. Qed.

Lemma missed_snoc l d : missed_in (l ++ [d]) = (missed_in l + Z.of_nat (Delivery.missed_before d))%Z.
Proof. unfold missed_in. rewrite fmap_app, sum_Z_app. simpl. lia. Qed.

Lemma existsb_snoc {A} (f : A → bool) l x : existsb f (l ++ [x]) = existsb f l || f x.
Proof. rewrite existsb_app. simpl. by rewrite orb_false_r. Qed.

Lemma tallied_nonneg f l :
  Forall (λ d, 0 ≤ f (Delivery.event d))%Z l → (0 ≤ tallied f l)%Z.
Proof.
  unfold tallied. induction 1 as [|d l Hd _ IH]; [done|]. rewrite fmap_cons. cbn [sum_Z compose]. lia.
Qed.

Lemma counters_snoc l d :
  Forall (counts_up ∘ Delivery.event) (l ++ [d]) → ¬ starts_turn (Delivery.event d) →
  frame_apply (Delivery.event d) (Delivery.missed_before d) (counters l) = counters (l ++ [d]).
Proof.
  rewrite Forall_app, Forall_singleton. intros [Hl (H1 & H2 & H3)] Hs.
  assert (0 ≤ tallied cost_of l)%Z as Hc.
  { apply tallied_nonneg. eapply Forall_impl; [exact Hl|]. by intros x (_ & _ & ?). }
  unfold counters. rewrite !tallied_snoc, missed_snoc, !existsb_snoc. cbn [compose].
  destruct (Delivery.event d) eqn:E; cbn [frame_apply streamed_of thinking_of cost_of completion_of
    vote_of yes_of is_quorum is_break] in *; rewrite ?orb_false_r, ?orb_true_r;
    try (exfalso; apply Hs; by eexists); try destruct vote;
    try (rewrite bool_decide_eq_true_2 by done); try (rewrite bool_decide_eq_false_2 by done);
    unfold sat_u64, sat_u32, sat_i64, u64_max, u32_max, i64_max, i64_min in *; cbn [fst snd];
    f_equal; try lia; f_equal; lia.
Qed.

Lemma frame_boundary before :
  turn_boundary before → frame_fold before FrameState.default = FrameState.default.
Proof.
  intros [->|(l & d & turn & -> & E)]; [done|]. unfold frame_fold. rewrite foldl_app. simpl.
  rewrite E. by destruct (foldl _ _ _).
Qed.

Lemma frame_counts after :
  Forall (counts_up ∘ Delivery.event) after →
  Forall (λ d, ¬ starts_turn (Delivery.event d)) after →
  frame_fold after FrameState.default = counters after.
Proof.
  induction after as [|d after IH] using rev_ind; [done|]. intros Hc Hs.
  unfold frame_fold. rewrite foldl_app. cbn [foldl].
  pose proof (proj1 (Forall_app _ _ _) Hc) as [Hc' _].
  rewrite Forall_app, Forall_singleton in Hs. destruct Hs as [Hs' Hs].
  fold (frame_fold after FrameState.default). rewrite IH by done. by apply counters_snoc.
Qed.

(** ** What a status line shows *)

Section line.
Context `{TerminalLaws} (theme : Theme.t).

Definition cells_of (l : sized) : nat := foldr (λ e n, e.1 + n) 0 l.

Lemma total_sum l separator :
  total_width l separator = (length l - 1) * length separator + cells_of l.
Proof.
  unfold total_width. generalize ((length l - 1) * length separator) as n.
  induction l as [|e l IH]; intros n; simpl; [lia|]. rewrite IH. lia.
Qed.

Lemma filter_length {A} (f : A → bool) (l : list A) : length (List.filter f l) ≤ length l.
Proof. induction l as [|x l IH]; simpl; [done|]. destruct (f x); simpl; lia. Qed.

Lemma filter_widths (f : nat * StatusSegment → bool) l :
  cells_of (List.filter f l) ≤ cells_of l.
Proof. induction l as [|x l IH]; simpl; [done|]. destruct (f x); simpl; lia. Qed.

Lemma total_filter f l separator : total_width (List.filter f l) separator ≤ total_width l separator.
Proof.
  rewrite !total_sum. pose proof (filter_length f l). pose proof (filter_widths f l). nia.
Qed.

Lemma filter_filter {A} (f g : A → bool) l :
  List.filter f (List.filter g l) = List.filter (λ x, g x && f x) l.
Proof.
  induction l as [|x l IH]; [done|]. simpl.
  destruct (g x); simpl; [destruct (f x); simpl; by rewrite IH|done].
Qed.

Lemma filter_same {A} (f g : A → bool) l :
  Forall (λ x, f x = g x) l → List.filter f l = List.filter g l.
Proof. induction 1 as [|x l E _ IH]; [done|]. simpl. by rewrite E, IH. Qed.

(** The segments of the priorities up to [p]. *)
Definition upto (p : nat) (l : sized) : sized := List.filter (λ e, shed_at e.2 <=? p) l.

Lemma upto_upto p q l : upto p (upto q l) = upto (p `min` q) l.
Proof.
  unfold upto. rewrite filter_filter. apply filter_same, Forall_forall. intros x _.
  destruct (Nat.leb_spec (shed_at x.2) q), (Nat.leb_spec (shed_at x.2) p),
    (Nat.leb_spec (shed_at x.2) (p `min` q)); simpl; try done; lia.
Qed.

Lemma highest_None l : highest l = None → l = upto 0 l.
Proof.
  unfold highest. intros Hn. apply fmap_None, max_by_key_None in Hn.
  unfold upto. revert Hn. induction l as [|x l IH]; [done|]. simpl.
  unfold NEVER_SHED in *. destruct (Nat.ltb_spec 0 (shed_at x.2)); [done|]. intros Hn.
  rewrite (proj2 (Nat.leb_le _ _)) by lia. f_equal. by apply IH.
Qed.

(** Dropping the highest priority leaves those below it. *)
Lemma highest_Some l p :
  highest l = Some p →
  0 < p ∧ l = upto p l ∧ (∃ e, e ∈ l ∧ shed_at e.2 = p) ∧
  List.filter (λ e, negb (shed_at e.2 =? p)) l = upto (p - 1) l.
Proof.
  unfold highest. intros (e & Hm & Hp)%fmap_Some. cbn [compose] in Hp. subst p.
  destruct (max_by_key_Some _ _ _ Hm) as (Hin & Hmax).
  apply list_elem_of_In, filter_In in Hin as [Hin Hpos]. unfold NEVER_SHED in *. apply Nat.ltb_lt in Hpos.
  assert (∀ x, In x l → shed_at x.2 ≤ shed_at e.2) as Hle.
  { intros x Hx. destruct (Nat.ltb_spec 0 (shed_at x.2)) as [Hx0|]; [|lia].
    apply Hmax, list_elem_of_In, filter_In. split; [done|]. by apply Nat.ltb_lt. }
  split_and!; [done| | |].
  - unfold upto. symmetry. clear -Hle. induction l as [|x l IH]; [done|]. simpl.
    rewrite (proj2 (Nat.leb_le _ _)) by (apply Hle; by left). f_equal. apply IH.
    intros y Hy. apply Hle. by right.
  - exists e. split; [by apply list_elem_of_In|done].
  - apply filter_same, Forall_forall. intros x Hx%list_elem_of_In. specialize (Hle x Hx).
    destruct (Nat.eqb_spec (shed_at x.2) (shed_at e.2)), (Nat.leb_spec (shed_at x.2) (shed_at e.2 - 1));
      simpl; done || lia.
Qed.

(** The loop ends on the greatest set of priorities that fits, or on the protected one. *)
Definition greatest (l kept : sized) (cols : nat) (separator : list byte) : Prop :=
  ∃ p, kept = upto p l ∧
    (fits kept cols separator = true ∨ kept = upto 0 l) ∧
    ∀ q, fits (upto q l) cols separator = true → upto q l = upto (q `min` p) l.

Lemma greatest_below l l' kept cols separator p :
  l' = upto p l → (∀ q, fits (upto q l) cols separator = true → upto q l = upto (q `min` p) l) →
  greatest l' kept cols separator → greatest l kept cols separator.
Proof.
  intros -> Hq (p' & -> & Hfit & Hall). exists (p' `min` p). rewrite !upto_upto in *. split_and!; [done| |].
  - destruct Hfit as [Hf|Hf]; [by left|right]. by rewrite Hf.
  - intros q Hfq. rewrite (Hq q Hfq). rewrite (Hq q Hfq) in Hfq.
    specialize (Hall q). rewrite !upto_upto in Hall. rewrite (Hall Hfq). f_equal. lia.
Qed.

Lemma shed_loop_greatest fuel l cols separator :
  length (List.filter (λ e, NEVER_SHED <? shed_at e.2) l) ≤ fuel →
  greatest l (shed_loop fuel l cols separator) cols separator.
Proof.
  revert l. induction fuel as [|fuel IH]; intros l Hf; cbn [shed_loop].
  { assert (highest l = None) as Hn.
    { unfold highest. destruct (List.filter _ l); [done|simpl in Hf; lia]. }
    pose proof (highest_None _ Hn) as Hl. exists 0. rewrite <- Hl. split_and!; [done|by right|].
    intros q _. rewrite Nat.min_0_r. rewrite Hl, !upto_upto. f_equal. lia. }
  destruct (fits l cols separator) eqn:E.
  { set (m := list_max ((λ e, shed_at e.2) <$> l)).
    assert (l = upto m l) as Hl.
    { unfold upto. symmetry. apply List.forallb_filter_id, forallb_forall. intros x Hx.
      apply Nat.leb_le. pose proof (proj1 (list_max_le ((λ e, shed_at e.2) <$> l) m) (le_n _)) as Hm.
      rewrite Forall_forall in Hm. apply Hm, list_elem_of_fmap. exists x. split; [done|].
      by apply list_elem_of_In. }
    exists m. split_and!; [done|by left|]. intros q _.
    rewrite Hl at 1. by rewrite upto_upto. }
  destruct (highest l) as [p|] eqn:Hp.
  - destruct (highest_Some _ _ Hp) as (Hpos & Hl & (e & He & Hep) & Hdrop). rewrite Hdrop.
    apply (greatest_below l (upto (p - 1) l) _ _ _ (p - 1) eq_refl).
    + intros q Hq. destruct (Nat.le_gt_cases q (p - 1)) as [Hle|Hgt]; [f_equal; lia|].
      exfalso. rewrite Hl, upto_upto, Nat.min_r, <- Hl in Hq by lia. congruence.
    + apply IH. rewrite <- Hdrop, filter_filter.
      assert (length (List.filter (λ x, negb (shed_at x.2 =? p) && (NEVER_SHED <? shed_at x.2)) l) <
        length (List.filter (λ x, NEVER_SHED <? shed_at x.2) l)); [|lia].
      clear -He Hep Hpos. induction l as [|x l IHl]; [by apply not_elem_of_nil in He|].
      assert (∀ l : sized, length (List.filter (λ x, negb (shed_at x.2 =? p) && (NEVER_SHED <? shed_at x.2)) l) ≤
        length (List.filter (λ x, NEVER_SHED <? shed_at x.2) l)) as Hle.
      { intros k. induction k as [|y k IHk]; [done|]. simpl.
        destruct (negb _), (NEVER_SHED <? _); simpl; lia. }
      apply elem_of_cons in He as [->|He]; simpl.
      * rewrite Hep, Nat.eqb_refl. simpl. rewrite (proj2 (Nat.ltb_lt NEVER_SHED p)) by done.
        simpl. specialize (Hle l). lia.
      * specialize (IHl He). destruct (negb _), (NEVER_SHED <? _); simpl; lia.
  - pose proof (highest_None _ Hp) as Hl. exists 0. rewrite <- Hl. split_and!; [done|by right|].
    intros q _. rewrite Nat.min_0_r. rewrite Hl, !upto_upto. f_equal. lia.
Qed.

Definition measured_well (e : nat * StatusSegment) : Prop := e.1 = width_of (text e.2) theme.

Definition clean (e : nat * StatusSegment) : Prop := is_utf8 (text e.2) = true.

Definition visible_text (e : nat * StatusSegment) : Prop := text e.2 ≠ [] ∧ 0 < e.1.

(** The cells of a piece: a separator is ASCII, one cell a byte. *)
Definition piece_cells (p : list byte * option (Token * list byte)) : nat :=
  length p.1 + match p.2 with Some (_, shown) => width_of shown theme | None => 0 end.

Definition pieces_cells (ps : list (list byte * option (Token * list byte))) : nat :=
  foldr (λ p n, piece_cells p + n) 0 ps.

(** Every segment whole, in order. *)
Fixpoint whole_pieces (first : bool) (l : sized) (separator : list byte) :
    list (list byte * option (Token * list byte)) :=
  match l with
  | [] => []
  | (_, s) :: l =>
      ((if first then [] else separator), Some (token s, text s)) :: whole_pieces false l separator
  end.

Lemma cut_clean text max :
  is_utf8 text = true →
  let '(shown, cells) := cut text max (Theme.ambiguous theme) in
  cells = width_of shown theme ∧ cells ≤ max ∧ (width_of text theme ≤ max → shown = text).
Proof.
  intros Hu. unfold cut.
  pose proof (truncate_cells text max (Theme.ambiguous theme)) as Hc.
  pose proof (truncate_fits text max (Theme.ambiguous theme)) as Hf.
  pose proof (truncate_whole text max (Theme.ambiguous theme)) as Hw.
  pose proof (truncate_utf8 text max (Theme.ambiguous theme) Hu) as Hv.
  destruct (truncate text max _) as [taken cells]. simpl in *. rewrite lossy_valid by done.
  split_and!; [done|done|]. intros Hle. rewrite Hw by done. apply take_ge. lia.
Qed.

Lemma pieces_fit first l remaining separator :
  Forall clean l → pieces_cells (render_pieces first l remaining separator theme) ≤ remaining.
Proof.
  revert first remaining. induction l as [|[w s] l IH]; intros first remaining; [simpl; lia|].
  intros [Hs Hl]%Forall_cons. cbn [render_pieces].
  set (sc := if first then 0 else length separator).
  assert (length (if first then [] else separator) = sc) as Hsc by (by destruct first).
  destruct (Nat.ltb_spec remaining sc); [simpl; lia|].
  destruct (Nat.eqb_spec (remaining - sc) 0); [simpl; unfold piece_cells; simpl; lia|].
  pose proof (cut_clean (text s) (remaining - sc) Hs) as Hc.
  destruct (cut _ _ _) as [shown cells]. destruct Hc as (Hw & Hle & _).
  destruct shown as [|c shown]; [simpl; unfold piece_cells; simpl; lia|].
  cbn [pieces_cells foldr]. unfold piece_cells at 1. cbn [fst snd].
  specialize (IH false (remaining - sc - cells) Hl). unfold pieces_cells in IH. lia.
Qed.

Lemma pieces_whole (first : bool) l remaining separator :
  Forall clean l → Forall measured_well l → Forall visible_text l →
  cells_of l + (length l - (if first then 1 else 0)) * length separator ≤ remaining →
  render_pieces first l remaining separator theme = whole_pieces first l separator.
Proof.
  revert first remaining. induction l as [|[w s] l IH]; intros first remaining; [done|].
  intros [Hs Hl]%Forall_cons [Hm Hml]%Forall_cons [[Hne Hw] Hvl]%Forall_cons Hfit.
  cbn [render_pieces whole_pieces]. unfold measured_well in Hm. cbn [fst snd] in *.
  set (sc := if first then 0 else length separator).
  assert (w + cells_of l + length l * length separator + sc ≤ remaining) as Hsum.
  { cbn [cells_of foldr length fst] in Hfit. unfold cells_of. subst sc. destruct first; simpl in *; nia. }
  rewrite (proj2 (Nat.ltb_ge _ _)) by lia. rewrite (proj2 (Nat.eqb_neq _ _)) by lia.
  pose proof (cut_clean (text s) (remaining - sc) Hs) as Hc.
  destruct (cut _ _ _) as [shown cells]. destruct Hc as (Hcw & _ & Hsh).
  rewrite Hsh in * by (rewrite <- Hm; lia). destruct (text s) as [|c t] eqn:Et; [done|].
  f_equal. apply IH; [done..|]. rewrite <- Hm in Hcw. rewrite Hcw. rewrite Nat.sub_0_r. lia.
Qed.

Lemma fits_whole l cols separator :
  Forall clean l → Forall measured_well l → Forall visible_text l →
  fits l cols separator = true →
  render_pieces true l cols separator theme = whole_pieces true l separator.
Proof.
  intros Hc Hm Hv Hf%Nat.leb_le. rewrite total_sum in Hf. apply pieces_whole; [done..|]. lia.
Qed.

Lemma measured_all segments : Forall measured_well (measured segments theme).
Proof. apply Forall_fmap, Forall_forall. intros s _. reflexivity. Qed.

Lemma Forall_upto (P : nat * StatusSegment → Prop) p l : Forall P l → Forall P (upto p l).
Proof. unfold upto. rewrite !Forall_forall. intros Hl x Hx. apply Hl, list_elem_of_In.
  by apply list_elem_of_In, filter_In in Hx as [Hx _]. Qed.

Lemma select_greatest segments cols separator :
  greatest (measured segments theme) (select_segments segments cols separator theme) cols separator.
Proof.
  apply shed_loop_greatest. etrans; [apply filter_length|]. unfold measured. by rewrite length_fmap.
Qed.

Lemma Forall_greatest (P : nat * StatusSegment → Prop) l kept cols separator :
  greatest l kept cols separator → Forall P l → Forall P kept.
Proof. intros (p & -> & _) Hl. by apply Forall_upto. Qed.
End line.

(** A status line gives up no more than it has to.  Of the full segments it keeps those
    up to a priority, all the protected ones among them; a set of priorities that would fit
    is kept whole; and only when even the protected ones do not fit does it lay out the
    compact forms, where it has them.  What it lays out is shown whole and in order when it
    fits, and takes no more cells than the line has in any case. *)
Theorem status_line_exact `{Terminal} (laws : TerminalLaws) (theme : Theme.t) (line : StatusLine) (cols : nat)
    (Hfull : Forall (λ s, is_utf8 (text s) = true ∧ text s ≠ [] ∧ 0 < width_of (text s) theme)
       (segments line ++ default [] (compact_segments line))) :
  let all := measured (segments line) theme in
  let full := select_segments (segments line) cols FULL_SEPARATOR theme in
  let '(l, separator) := laid_out line cols theme in
  let pieces := render_pieces true l cols separator theme in
  (∃ p, full = upto p all ∧
     ∀ q, fits (upto q all) cols FULL_SEPARATOR = true → upto q all = upto (q `min` p) all) ∧
  (l = full ∧ separator = FULL_SEPARATOR ∨
   ∃ compact, compact_segments line = Some compact ∧ l = measured compact theme ∧
     separator = COMPACT_SEPARATOR ∧ full = upto NEVER_SHED all ∧
     fits (upto NEVER_SHED all) cols FULL_SEPARATOR = false) ∧
  pieces_cells theme pieces ≤ cols ∧
  (fits l cols separator = true → pieces = whole_pieces true l separator).
Proof.
  intros all full. apply Forall_app in Hfull as [Hfull Hcompact].
  assert (∀ l, Forall (λ s, is_utf8 (text s) = true ∧ text s ≠ [] ∧ 0 < width_of (text s) theme) l →
    Forall clean (measured l theme) ∧ Forall visible_text (measured l theme)) as Hall.
  { intros l Hl. split; apply Forall_fmap; (eapply Forall_impl; [exact Hl|]);
      intros s (? & ? & ?); [done|split; done]. }
  destruct (Hall _ Hfull) as [Hfc Hfv].
  pose proof (select_greatest theme (segments line) cols FULL_SEPARATOR) as Hg.
  pose proof (measured_all theme (segments line)) as Hfm.
  assert (∃ p, full = upto p all ∧
     ∀ q, fits (upto q all) cols FULL_SEPARATOR = true → upto q all = upto (q `min` p) all) as Hup.
  { destruct Hg as (p & Hp & _ & Hq). exists p. split; [exact Hp|exact Hq]. }
  unfold laid_out. fold full.
  destruct (fits full cols FULL_SEPARATOR) eqn:E; [|destruct (compact_segments line) as [compact|] eqn:Ec].
  - split_and!; [done|by left| |].
    + apply pieces_fit. eapply Forall_greatest; [exact Hg|done].
    + intros _. apply fits_whole; [..|done]; (eapply Forall_greatest; [exact Hg|done]).
  - destruct (Hall _ Hcompact) as [Hcc Hcv]. split_and!; [done| | |].
    + right. exists compact. destruct Hg as (p & Hp & Hfit & Hq). fold full all in Hp, Hfit, Hq.
      assert (full = upto NEVER_SHED all) as Hf0 by (destruct Hfit as [?|?]; [congruence|done]).
      split_and!; try done. by rewrite <- Hf0.
    + by apply pieces_fit.
    + intros Hfit. apply fits_whole; try done. apply measured_all.
  - split_and!; [done|by left| |].
    + apply pieces_fit. eapply Forall_greatest; [exact Hg|done].
    + intros Hfit. congruence.
Qed.

(** A frame is the count of its turn.  Whatever a frame was told before a turn began,
    folding the turn's deliveries leaves in it exactly their characters, costs, votes, yes
    votes and completions, each up to the bound of its counter, whether the quorum was
    reached and the cache broke, and the losses reported since. *)
Theorem frame_exact (before after : list Delivery.t)
    (Hbefore : turn_boundary before)
    (Hafter : Forall (λ d, ¬ starts_turn (Delivery.event d)) after)
    (Hcounts : Forall (counts_up ∘ Delivery.event) after) :
  frame_fold (before ++ after) FrameState.default = counters after.
Proof.
  unfold frame_fold. rewrite foldl_app. fold (frame_fold before FrameState.default).
  rewrite frame_boundary by done. by apply frame_counts.
Qed.

Lemma frame_exact_witness :
  let voted := Delivery.mk 1 (Event.VoteCast 1%N 2%N Yes High) 3 in
  let after := [voted; Delivery.mk 2 (Event.StreamDelta 40) 0] in
  frame_fold ([Delivery.mk 0 (Event.TurnStarted 9%N) 5] ++ after) FrameState.default = counters after ∧
  FrameState.missed_events (counters after) = 3%Z.
Proof.
  intros voted after. split; [|reflexivity]. apply frame_exact.
  - right. exists [], (Delivery.mk 0 (Event.TurnStarted 9%N) 5), 9%N. done.
  - apply Forall_forall. intros d Hd [turn Ht]. unfold after, voted in Hd.
    apply elem_of_cons in Hd as [->|[->|Hd]%elem_of_cons]; [done|done|]. by apply not_elem_of_nil in Hd.
  - apply Forall_forall. intros d Hd. unfold after, voted in Hd.
    apply elem_of_cons in Hd as [->|[->|Hd]%elem_of_cons]; [done|done|]. by apply not_elem_of_nil in Hd.
Defined.

(** What is lost before a turn starts is never shown: the event that starts a turn wipes
    the count, that of its own delivery included. *)
Lemma start_forgets_losses f d turn :
  Delivery.event d = Event.TurnStarted turn →
  FrameState.missed_events (frame_fold [d] f) = 0%Z.
Proof. intros E. unfold frame_fold. simpl. rewrite E. by destruct f. Qed.

(** ** The meter *)

Lemma sat_mul_exact a b : (Z.of_nat (a * b) ≤ u64_max)%Z → sat_mul a b = a * b.
Proof. intros Hb. unfold sat_mul. rewrite <- Nat2Z.inj_mul, Z.min_l by done. apply Nat2Z.id. Qed.

Lemma slots_on_exact slots part whole :
  0 < whole → (Z.of_nat whole ≤ 2 ^ 32)%Z → (Z.of_nat slots ≤ u64_max)%Z →
  slots_on slots part whole = (part `min` whole * slots) / whole.
Proof.
  intros Hw Hwb Hsb. unfold slots_on. set (p := part `min` whole).
  assert (p ≤ whole) as Hp by (subst p; lia). clearbody p.
  pose proof (Nat.div_mod_eq slots whole) as Hd. pose proof (Nat.mod_upper_bound slots whole) as Hm.
  set (q := slots / whole) in *. set (r := slots mod whole) in *. clearbody q r.
  rewrite !sat_mul_exact; [|unfold u64_max; nia|nia].
  rewrite Hd. replace (p * (whole * q + r)) with (p * q * whole + p * r) by lia.
  by rewrite Nat.div_add_l by lia.
Qed.

(** The meter shows the ratio, rounded down, in the cells it was given.  It is full
    exactly when the part has reached the whole, it shows nothing of an empty whole, and
    whichever glyphs the locale makes it choose, it is no wider than asked. *)
Theorem meter_exact `{Terminal} (m : Meter) (part whole : nat)
    (Hwhole : (Z.of_nat whole ≤ 2 ^ 32)%Z) (Htotal : (Z.of_nat (total m) ≤ u64_max)%Z) :
  let a := meter_ambiguous m in
  let g := gauge_for a in
  ∃ slots on,
    meter_render m part whole = replicate on (filled g) ++ replicate (slots - on) (empty_glyph g) ∧
    on ≤ slots ∧ on = (part `min` whole * slots) / whole ∧
    (0 < whole → 0 < slots → on = slots ↔ whole ≤ part) ∧
    on * char_width (filled g) a + (slots - on) * char_width (empty_glyph g) a ≤ total m.
Proof.
  intros a g.
  set (per := (char_width (filled g) a `max` char_width (empty_glyph g) a) `max` 1).
  set (slots := total m / per).
  assert (slots * per ≤ total m) as Hslots.
  { subst slots. rewrite Nat.mul_comm. apply Nat.Div0.mul_div_le. }
  set (on := (part `min` whole * slots) / whole).
  assert (on ≤ slots) as Hon.
  { subst on. destruct (Nat.eq_dec whole 0) as [->|]; [simpl; lia|].
    apply Nat.Div0.div_le_upper_bound. nia. }
  exists slots, on. split_and!; [|done|done| |].
  - unfold meter_render. cbn [gauge_cells]. fold a g per slots.
    destruct (Nat.eqb_spec whole 0) as [->|Hw]; unfold gauge_render.
    + subst on. simpl. by rewrite Nat.sub_0_r.
    + rewrite slots_on_exact by (unfold per in Hslots; nia || lia). done.
  - intros Hw Hs. unfold on. split.
    + intros E. destruct (Nat.le_gt_cases whole part) as [|Hlt]; [done|exfalso].
      rewrite Nat.min_l in E by lia.
      pose proof (Nat.Div0.mul_div_le (part * slots) whole) as Hd. rewrite E in Hd. nia.
    + intros Hp. rewrite Nat.min_r by done. rewrite Nat.mul_comm. apply Nat.div_mul. lia.
  - assert (char_width (filled g) a ≤ per ∧ char_width (empty_glyph g) a ≤ per) as [? ?] by (subst per; lia).
    nia.
Qed.

(** ** The viewport *)

(** A viewport always shows lines there are: as many as fit, the last of them at the
    bottom exactly when it is not scrolled. *)
Theorem viewport_exact (total visible offset : nat) :
  let v := new_viewport total visible offset in
  let '(start, stop) := visible_range v in
  start ≤ stop ∧ stop ≤ total ∧ stop - start = visible `min` total ∧
  is_scrolled v = negb (stop =? total) ∧ (offset ≤ total - visible → start = offset).
Proof.
  unfold visible_range, new_viewport, is_scrolled, max_offset.
  cbn [Tui.offset Tui.view_total Tui.visible].
  destruct (Nat.ltb_spec (offset `min` (total - visible)) (total - visible)),
    (Nat.eqb_spec (Nat.min total (Nat.min (Nat.min offset (total - visible)) total + visible)) total);
    simpl; split_and!; done || lia.
Qed.

(** ** The thinking block *)

(** A thinking block is bounded and hides its body: one line, and only when expanded
    the first rows of the body with it. *)
Theorem thinking_bounded `{Terminal} (seconds : N) (body : list byte) (state : ThinkingState)
    (cols body_rows : nat) (theme : Theme.t) :
  length (thinking_lines seconds body state cols body_rows theme) ≤ 1 + body_rows ∧
  (∀ other, state ≠ Expanded →
     thinking_render seconds body state cols body_rows theme =
     thinking_render seconds other state cols body_rows theme).
Proof.
  split; [|by destruct state]. unfold thinking_lines. destruct state; simpl; try lia.
  unfold body_lines. rewrite length_fmap, length_take. lia.
Qed.

(** ** A terminal whose cells are bytes *)

#[export] Instance byte_cells : Terminal :=
  mkTerminal (λ l _, length l) (λ l max _, if length l <=? max then (length l, length l) else (0, 0))
    (λ _ _, 1) Datatypes.id.

#[export] Instance byte_cells_laws : TerminalLaws.
Proof.
  split; intros l max a; cbn [truncate width byte_cells]; destruct (Nat.leb_spec (length l) max); simpl;
    rewrite ?firstn_all; try done; lia.
Qed.

Definition shown_line (cols : nat) : list byte :=
  render (live (bytes "ask") 12 90 (Cost.mk 14 true) false (bytes "m") false 2 0) cols
    (new_theme (bytes "plain") Narrow []).

Example shown_wide : shown_line 80 = bytes "ctx 12%  cache 90%  +$0.014~  mode ask  m  missed 2".
Proof. reflexivity. Qed.
Example shown_shed : shown_line 40 = bytes "ctx 12%  cache 90%  +$0.014~  mode ask".
Proof. reflexivity. Qed.
Example shown_compact : shown_line 20 = bytes "c12 h90 $14m~ mA".
Proof. reflexivity. Qed.

Lemma status_line_exact_witness :
  let line := live (bytes "ask") 12 90 (Cost.mk 14 true) false (bytes "m") false 2 0 in
  pieces_cells default_dark
    (let '(l, separator) := laid_out line 40 default_dark in
     render_pieces true l 40 separator default_dark) ≤ 40.
Proof.
  intros line.
  assert (Forall (λ s, is_utf8 (text s) = true ∧ text s ≠ [] ∧ 0 < width_of (text s) default_dark)
    (segments line ++ default [] (compact_segments line))) as Hall.
  { apply Forall_forall. intros s Hs.
    assert (forallb (λ s, is_utf8 (text s) && negb (length (text s) =? 0))
      (segments line ++ default [] (compact_segments line)) = true) as Hb by reflexivity.
    rewrite forallb_forall in Hb. specialize (Hb s (proj1 (list_elem_of_In _ _) Hs)).
    apply andb_prop in Hb as [Hu Hn]. apply negb_true_iff, Nat.eqb_neq in Hn.
    split_and!; [done|by intros E; rewrite E in Hn|]. cbn [width_of width byte_cells]. unfold width_of.
    cbn [width byte_cells]. lia. }
  pose proof (status_line_exact byte_cells_laws default_dark line 40 Hall) as Hx.
  cbv zeta in Hx. destruct (laid_out line 40 default_dark) as [l separator].
  exact (proj1 (proj2 (proj2 Hx))).
Defined.

(** An empty segment ends the line: a model without a name hides what comes behind it,
    missed events too, and leaves a separator at the end. *)
Lemma empty_model_hides_losses :
  render (live (bytes "ask") 12 90 (Cost.mk 14 true) false [] false 2 0) 80
    (new_theme (bytes "plain") Narrow []) = bytes "ctx 12%  cache 90%  +$0.014~  mode ask  ".
Proof. reflexivity. Qed.

Lemma meter_exact_witness :
  meter_render (mkMeter 8 Narrow) 3 4 = replicate 6 9608%N ++ replicate 2 9617%N ∧
  ∃ slots on, on ≤ slots ∧ on * 1 + (slots - on) * 1 ≤ 8.
Proof.
  split; [reflexivity|].
  destruct (meter_exact (mkMeter 8 Narrow) 3 4) as (slots & on & _ & Hle & _ & _ & Hw); [done|done|].
  exists slots, on. exact (conj Hle Hw).
Defined.
