(* ===== verification/Economy.v ===== *)
(** * The economy gate: [supra_eval/src/lib.rs]

    What a turn cost and how well its tier was predicted.  An [f64] is a [spec_float] of
    the IEEE binary64 format, its operations those of the Standard Library's specification,
    rounding to nearest: the figures below are computed as the machine computes them. *)

From Stdlib Require Import ZArith SpecFloat.
From S2P Require Import Prelude Text Sealing Cohort Provider.

(** ** [f64] *)

Definition f64_prec : Z := 53.
Definition f64_emax : Z := 1024.

Definition f64_add : spec_float → spec_float → spec_float := SFadd f64_prec f64_emax.
Definition f64_mul : spec_float → spec_float → spec_float := SFmul f64_prec f64_emax.
Definition f64_div : spec_float → spec_float → spec_float := SFdiv f64_prec f64_emax.

(** [f64::from(x)], [x as f64]. *)
Definition f64_from (x : N) : spec_float := binary_normalize f64_prec f64_emax (Z.of_N x) 0 false.

(** [x.round() as u64]: to the nearest, halves away from zero; the cast saturates. *)
Definition round_u64 (x : spec_float) : N :=
  match x with
  | S754_finite false m e =>
      let rounded :=
        if (0 <=? e)%Z then (Z.pos m * 2 ^ e)%Z
        else ((Z.pos m + 2 ^ (- e - 1)) / 2 ^ (- e))%Z in
      Z.to_N (Z.min rounded u64_max)
  | S754_infinity false => Z.to_N u64_max
  | _ => 0
  end.

(** [0.1]: the nearest number of the format. *)
Definition CACHE_READ_MULTIPLIER : spec_float := S754_finite false 7205759403792794 (-56).
Definition BASE_MILLS_PER_MTOK : spec_float := f64_from 3000.

Example a_tenth : f64_div (f64_from 1) (f64_from 10) = CACHE_READ_MULTIPLIER.
Proof. reflexivity. Qed.

Definition estimate_mills (input_tokens cached_tokens output_tokens : N) : N :=
  let cached := f64_mul (f64_from cached_tokens) CACHE_READ_MULTIPLIER in
  let uncached := f64_from (input_tokens - cached_tokens) in
  let total_input_mtok := f64_div (f64_add cached uncached) (f64_from 1000000) in
  let output_mtok := f64_div (f64_from output_tokens) (f64_from 1000000) in
  round_u64 (f64_mul (f64_add total_input_mtok output_mtok) BASE_MILLS_PER_MTOK).

(** ** Measurements *)

Module TurnMeasurement.
Record t := mk {
  predicted : list byte;
  admitted : list byte;
  input_tokens : N;
  output_tokens : N;
  cache_hit : bool;
  cost_mills : N;
}.
End TurnMeasurement.

Definition u32_of (x : N) : N := N.min x (Z.to_N u32_max).

Definition measure {Num} (predicted admitted : list byte) (completion : Completion.t Num)
    (input_tokens : N) : TurnMeasurement.t :=
  let '(output_tokens, cached_tokens) :=
    match Completion.usage completion with
    | Some usage => (u32_of (Usage.output_tokens usage), u32_of (Usage.cached_tokens usage))
    | None => (0, 0)%N
    end in
  TurnMeasurement.mk predicted admitted input_tokens output_tokens (0 <? cached_tokens)%N
    (estimate_mills input_tokens cached_tokens output_tokens).

Definition measure_reported {Num} (predicted admitted : list byte) (completion : Completion.t Num)
    (estimated_input : N) : TurnMeasurement.t :=
  let input_tokens :=
    match Completion.usage completion with
    | Some usage => u32_of (Usage.input_tokens usage)
    | None => estimated_input
    end in
  let m := measure predicted admitted completion input_tokens in
  TurnMeasurement.mk (TurnMeasurement.predicted m) (TurnMeasurement.admitted m)
    (TurnMeasurement.input_tokens m) (TurnMeasurement.output_tokens m)
    (match Completion.usage completion with
     | Some usage => (0 <? Usage.cached_tokens usage)%N
     | None => false
     end)
    (TurnMeasurement.cost_mills m).

Module EconomyReport.
Record t := mk {
  tier_accuracy : spec_float;
  mean_mills_per_turn : spec_float;
  cache_hit_rate : spec_float;
  turns : nat;
}.
End EconomyReport.

Definition counted {A} (f : A → bool) (l : list A) : spec_float :=
  f64_from (N.of_nat (length (List.filter f l))).

(** The sum of the costs aborts when it leaves the type: [None] of the outer option. *)
Definition from_measurements (measurements : list TurnMeasurement.t) :
    option (option EconomyReport.t) :=
  match measurements with
  | [] => Some None
  | _ =>
      let total_f := f64_from (N.of_nat (length measurements)) in
      let hits := counted (λ m, bool_decide (TurnMeasurement.predicted m = TurnMeasurement.admitted m))
                    measurements in
      let cache_hits := counted TurnMeasurement.cache_hit measurements in
      total_mills ← foldl (λ acc m, sum ← acc; check_u64 (sum + Z.of_N (TurnMeasurement.cost_mills m))%Z)
                      (Some 0%Z) measurements;
      Some (Some (EconomyReport.mk (f64_div hits total_f)
        (f64_div (f64_from (Z.to_N total_mills)) total_f) (f64_div cache_hits total_f)
        (length measurements)))
  end.

Definition passes (r : EconomyReport.t) (min_accuracy max_mills_per_turn : spec_float) : bool :=
  SFleb min_accuracy (EconomyReport.tier_accuracy r) &&
  SFleb (EconomyReport.mean_mills_per_turn r) max_mills_per_turn.

Example cached_input_costs_a_tenth :
  estimate_mills 1000000 0 0 = 3000%N ∧ estimate_mills 1000000 1000000 0 = 300%N ∧
  estimate_mills 0 0 1000000 = 3000%N.
Proof. vm_compute. split_and!; reflexivity. Qed.

Example report_aggregates :
  let m admitted cost hit := TurnMeasurement.mk (bytes "E2") (bytes admitted) 1000 100 hit cost in
  match from_measurements [m "E2" 10 true; m "E3" 30 false]%N with
  | Some (Some r) =>
      passes r (f64_div (f64_from 1) (f64_from 2)) (f64_from 20) &&
      negb (passes r (f64_div (f64_from 9) (f64_from 10)) (f64_from 20)) &&
      negb (passes r (f64_div (f64_from 1) (f64_from 2)) (f64_from 10))
  | _ => false
  end = true.
Proof. vm_compute. reflexivity. Qed.

(** ** The shape check *)

Definition range (lo hi : nat) : list nat := seq lo (S hi - lo).

Definition shape_of_tier (tier : Tier) : bool :=
  let '(lo, hi) := Tier.k_range tier in
  forallb (λ k, bool_decide (Tier.containing k = Some tier)) (range lo hi) &&
  forallb (λ limit,
    match admit_tier tier limit with
    | Some (admitted_tier, k) => bool_decide (Tier.containing k = Some admitted_tier)
    | None => true
    end) (range 1 80).

Definition offline_shape_check : bool := forallb shape_of_tier [E0; E1; E2; E3; E4; E5].

(** The tier table has no hole.  The offline check holds: every size of a tier's range
    belongs to that tier and to no other, and whatever tier is asked for under whatever
    limit, the size admitted belongs to the tier it is admitted as. *)
Theorem shape_check_holds :
  offline_shape_check = true ∧
  ∀ tier, let '(lo, hi) := Tier.k_range tier in
    lo ≤ hi ∧ (∀ k, lo ≤ k ≤ hi → Tier.containing k = Some tier) ∧
    ∀ limit, 1 ≤ limit ≤ PEER_CEILING →
      match admit_tier tier limit with
      | Some (admitted, k) => Tier.containing k = Some admitted
      | None => True
      end.
Proof.
  assert (offline_shape_check = true) as Hc by (vm_compute; reflexivity).
  split; [done|]. intros tier.
  assert (shape_of_tier tier = true) as Ht.
  { unfold offline_shape_check in Hc. rewrite forallb_forall in Hc. apply Hc.
    destruct tier; simpl; tauto. }
  assert (let '(lo, hi) := Tier.k_range tier in lo ≤ hi) as Hr by (destruct tier; apply Nat.leb_le; reflexivity).
  unfold shape_of_tier in Ht. destruct (Tier.k_range tier) as [lo hi].
  apply andb_prop in Ht as [Hk Hl]. rewrite forallb_forall in Hk, Hl. unfold range in *.
  split_and!; [done| |].
  - intros k Hin. apply (bool_decide_eq_true_1 _), Hk, in_seq. lia.
  - intros limit Hin. specialize (Hl limit). change PEER_CEILING with 80 in Hin.
    destruct (admit_tier tier limit) as [[a k]|]; [|done].
    apply (bool_decide_eq_true_1 _), Hl, in_seq. lia.
Qed.

(** A turn of 166 tokens costs nothing: the estimate is whole mills. *)
Lemma small_turns_are_free : estimate_mills 100 0 66 = 0%N.
Proof. vm_compute. reflexivity. Qed.
