(* ===== verification/Runtime.v ===== *)
(** * One turn of the command line: [supra_cli/src/runtime.rs]

    The composition the program runs: a provider is chosen, a cohort sized and admitted, the
    hooks fired, a proposal asked for and judged by peers, the quorum's answer sealed and
    stored with its session.  Providers, hooks and fresh identifiers are parameters; what a
    run does to the world is the list of its effects, in order.

    The validators run concurrently: each is the list of what it does until it answers, and
    a schedule chooses which moves next, so every interleaving is a schedule. *)

From Stdlib Require Import Ascii.
From S2P Require Import Prelude Text Sealing Utf8 Digest.
From S2P Require Import Cohort CohortSizing Permission Table Store Blackboard Segment Ledger Event EventBus.
From S2P Require Import FileSystem Turn Canonical Config Graph Framing Provider Sse Anthropic OpenAi Llm.
From S2P Require Import Hook Checkpoint Session Tui Economy.

Definition MAX_PROVIDER_ATTEMPTS : nat := 3.
Definition MAX_RATE_LIMIT_DELAY : N := 30000.
Definition TRANSPORT_RETRY_BASE : N := 250.

Inductive RunError :=
| EmptyRunTask
| ProviderNotConfigured (name : list byte)
| ProviderNotSupported (name : list byte)
| NoSupportedProvider
| NoProvider
| ClientRefused (e : LlmError)
| NoCredential (e : ConfigError)
| NoSavedSession (session : Id)
| SessionFailed (e : SessionError)
| HookFailed (e : HookError)
| HookStopped (point : HookPoint)
| NotAdmitted
| StoreFailed
| TurnFailed (e : TurnError)
| ProviderFailed (e : LlmError)
| ToolUseRequested
| NotCompleted (reason : StopReason.t)
| NoText
| UnterminatedFence
| MalformedVerdict
| UnknownVote (vote : list byte)
| UnknownConfidence (confidence : list byte)
| VerdictRefused (e : VerdictError)
| ValidatorPanicked
| RejectedByPeers
| EndedBeforeQuorum (e : RunError)
| WithoutQuorum.

Inductive Caller := Proposer | Validator (agent : Id).

(** ** Pure parts *)

(** [text.trim()], a fence taken off, and the rest trimmed. *)
Definition unfenced (text : list byte) : result (list byte) RunError :=
  let trimmed := trim text in
  let? body :=
    match strip_prefix (bytes "```json") trimmed with
    | Some fenced => ok_or (strip_suffix (bytes "```") fenced) UnterminatedFence
    | None =>
        match strip_prefix (bytes "```") trimmed with
        | Some fenced => ok_or (strip_suffix (bytes "```") fenced) UnterminatedFence
        | None => Ok trimmed
        end
    end in
  Ok (trim body).

Record WireVerdict := mkWire { w_vote : list byte; w_confidence : list byte; w_reason : list byte }.

Definition vote_named (name : list byte) : result Vote RunError :=
  if bool_decide (name = bytes "yes") then Ok Yes
  else if bool_decide (name = bytes "no") then Ok No
  else if bool_decide (name = bytes "abstain") then Ok Abstain
  else Err (UnknownVote name).

Definition confidence_named (name : list byte) : result Confidence RunError :=
  if bool_decide (name = bytes "low") then Ok Low
  else if bool_decide (name = bytes "medium") then Ok Medium
  else if bool_decide (name = bytes "high") then Ok High
  else Err (UnknownConfidence name).

(** [from_wire] is [serde_json::from_str::<WireVerdict>]. *)
Definition parse_verdict (from_wire : list byte → option WireVerdict) (text : list byte) :
    result Verdict.t RunError :=
  let? json := unfenced text in
  let? wire := ok_or (from_wire json) MalformedVerdict in
  let? vote := vote_named (w_vote wire) in
  let? confidence := confidence_named (w_confidence wire) in
  map_err VerdictRefused (Verdict.new vote confidence (text_of (w_reason wire)) None).

Definition is_tool_use {Num} (b : ContentBlock.t Num) : bool :=
  match b with ContentBlock.ToolUse _ _ _ => true | _ => false end.

Definition terminal_text {Num} (c : Completion.t Num) : result (list byte) RunError :=
  let reason := Completion.stop_reason c in
  if existsb is_tool_use (Completion.content c) || bool_decide (reason = StopReason.ToolUse)
  then Err ToolUseRequested
  else if negb (bool_decide (reason = StopReason.EndTurn)) && negb (bool_decide (reason = StopReason.StopSequence))
  then Err (NotCompleted reason)
  else if is_blank (Completion.text c) then Err NoText
  else Ok (Completion.text c).

(** [Duration]s in milliseconds. *)
Definition retry_delay (error : LlmError) (attempt : nat) : option N :=
  match error with
  | RateLimited _ retry_after_ms =>
      if (retry_after_ms <=? MAX_RATE_LIMIT_DELAY)%N then Some retry_after_ms else None
  | Transport _ _ => Some (TRANSPORT_RETRY_BASE * 2 ^ N.of_nat ((attempt - 1) `min` 8))%N
  | _ => None
  end.

Definition preferred : list (list byte) := bytes <$> ["anthropic"; "openai"; "google"].

Definition select_provider (config : Config.t) (requested : option (list byte)) :
    result (list byte) RunError :=
  let configured name := bool_decide (is_Some (Config.providers config !! name)) in
  match requested with
  | Some name =>
      if configured name then
        match ProviderKind.parse name with
        | Some _ => Ok name
        | None => Err (ProviderNotSupported name)
        end
      else Err (ProviderNotConfigured name)
  | None =>
      match List.find configured preferred with
      | Some name => Ok name
      | None => if bool_decide (Config.providers config = ∅) then Err NoProvider else Err NoSupportedProvider
      end
  end.

Definition is_slash (c : byte) : bool := is_char c "/" || is_char c "\".

(** [char::is_ascii_punctuation]. *)
Definition is_punctuation (c : byte) : bool :=
  code_in 33 47 c || code_in 58 64 c || code_in 91 96 c || code_in 123 126 c.

Definition task_paths (task : list byte) : list (list byte) :=
  List.filter (λ word, negb (bool_decide (word = [])))
    (trim_matches (λ c, is_punctuation c && negb (is_slash c)) <$>
       List.filter (λ word, existsb is_slash word) (split_whitespace task)).

Definition MUTATING_WORDS : list (list byte) :=
  bytes <$> ["add"; "apply"; "build"; "change"; "commit"; "create"; "delete"; "edit"; "fix"; "implement";
    "install"; "migrate"; "modify"; "move"; "publish"; "refactor"; "release"; "remove"; "rename";
    "replace"; "run"; "save"; "update"; "write"].

(** The words of ASCII letters, digits and underscores: any byte of another character is
    a separator. *)
Definition task_is_mutating (task : list byte) : bool :=
  existsb (λ word, bool_decide ((lower <$> word) ∈ MUTATING_WORDS))
    (split_on (λ c, negb (is_ascii_alphanumeric c) && negb (is_char c "_")) task).

Definition estimate_tier (task : list byte) : Tier :=
  let paths := task_paths task in
  let signals :=
    Signals.mk (if 1 <? length paths then BlastBand.Contained else BlastBand.Isolated) ChurnBand.Calm
      (AnchorBand.of_ (length paths `min` 10)) (if task_is_mutating task then R1 else R0) 0 0 in
  estimate signals (AreaFlags.of_paths (text_of <$> paths)).

Definition plan_turn (config : Config.t) (requested : Tier) : option (Tier * nat) :=
  admit_tier requested (N.to_nat (Config.cohort_limit config)).

Definition validation_prompt (task candidate : list byte) : list byte :=
  bytes "Independently validate the candidate against the task. Reply with JSON only: {" ++
  Canonical.quote_mark :: bytes "vote" ++ Canonical.quote_mark :: bytes ":" ++
  Canonical.quote_mark :: bytes "yes|no|abstain" ++ Canonical.quote_mark :: bytes "," ++
  Canonical.quote_mark :: bytes "confidence" ++ Canonical.quote_mark :: bytes ":" ++
  Canonical.quote_mark :: bytes "low|medium|high" ++ Canonical.quote_mark :: bytes "," ++
  Canonical.quote_mark :: bytes "reason" ++ Canonical.quote_mark :: bytes ":" ++
  Canonical.quote_mark :: bytes "at most 140 bytes" ++ Canonical.quote_mark :: bytes "}." ++
  lf :: bytes "Task:" ++ lf :: task ++ lf :: bytes "Candidate:" ++ lf :: candidate.

(** ** What a run does *)

Inductive Effect (Num : Type) :=
| Asked (who : Caller) (request : Request.t Num)
| Slept (ms : N)
| Published (event : Event.t)
| Started (hook : Spawn)
| Printed (line : list byte).
Arguments Asked {Num} who request.
Arguments Slept {Num} ms.
Arguments Published {Num} event.
Arguments Started {Num} hook.
Arguments Printed {Num} line.

Definition events_of {Num} (l : list (Effect Num)) : list Event.t :=
  omap (λ e, match e with Published event => Some event | _ => None end) l.

(** [trait ProviderBackend]: [send] is what one attempt of one caller comes back with,
    [None] when the time of the attempt is up first. *)
Record Backend (Num : Type) := mkBackend {
  backend_provider : ProviderKind.t;
  backend_model : list byte;
  backend_thinking : Thinking.t;
  backend_send : Caller → nat → Request.t Num → option (result (Completion.t Num) LlmError);
}.
Arguments mkBackend {Num}.
Arguments backend_provider {Num} _.
Arguments backend_model {Num} _.
Arguments backend_thinking {Num} _.
Arguments backend_send {Num} _.

(** A task of the [JoinSet]: what it does until it answers; [None] when it panics. *)
Record Task (Num : Type) := mkTask {
  task_agent : Id;
  pending : list (Effect Num);
  task_outcome : option (result Verdict.t RunError);
}.
Arguments mkTask {Num}.
Arguments task_agent {Num} _.
Arguments pending {Num} _.
Arguments task_outcome {Num} _.

(** What the surroundings of a run decide: fresh identifiers, the clock, whether the
    database carries out an operation, after how many effects a validator panics, and which
    task moves at each step. *)
Record World := mkWorld {
  fresh_agent : nat → Id;
  hook_turn : Id;
  fresh_turn : Id;
  fresh_claim : Id;
  fresh_segment : Id;
  clock : option Z;
  store_opens : bool;
  publishes : bool;
  votes : Id → bool;
  panics : Id → option nat;
  schedule : nat → nat;
}.

Record TurnResult := mkResult { result_session : Id; result_answer : list byte; result_turn : Id }.

Section retry.
Context {Num : Type}.

(** What an attempt comes back with. *)
Definition attempt_answer (backend : Backend Num) (who : Caller) (request : Request.t Num) (attempt : nat) :
    result (Completion.t Num) LlmError :=
  match backend_send backend who attempt request with
  | Some r => r
  | None => Err (Transport (ProviderKind.name (backend_provider backend))
                   (Told (bytes "request attempt " ++ dec (N.of_nat attempt) ++ bytes " exceeded 120s")))
  end.

(** One attempt, and [more] of them behind it. *)
Fixpoint send_attempts (backend : Backend Num) (who : Caller) (request : Request.t Num) (more attempt : nat) :
    list (Effect Num) * result (Completion.t Num) LlmError :=
  match attempt_answer backend who request attempt, more with
  | Ok completion, _ => ([Asked who request], Ok completion)
  | Err error, 0 => ([Asked who request], Err error)
  | Err error, S more =>
      match retry_delay error attempt with
      | None => ([Asked who request], Err error)
      | Some delay =>
          let '(effects, r) := send_attempts backend who request more (S attempt) in
          (Asked who request :: Slept delay :: effects, r)
      end
  end.

Definition send_with_retry (backend : Backend Num) (who : Caller) (request : Request.t Num) :
    list (Effect Num) * result (Completion.t Num) LlmError :=
  send_attempts backend who request (MAX_PROVIDER_ATTEMPTS - 1) 1.

Definition provider_request (backend : Backend Num) (prompt : list byte) : Request.t Num :=
  Request.mk (backend_provider backend) (backend_model backend) [Message.text Role.User prompt] []
    (backend_thinking backend) [].

Definition usage_event (agent : Id) (completion : Completion.t Num) : Event.t :=
  let '(input, output, cached) :=
    match Completion.usage completion with
    | Some usage => (Usage.input_tokens usage, Usage.output_tokens usage, Usage.cached_tokens usage)
    | None => (0, 0, 0)%N
    end in
  let input32 := u32_of input in
  let output32 := u32_of output in
  let cached32 := u32_of cached in
  let mills := estimate_mills input32 cached32 output32 in
  let micros := Z.min (Z.min (Z.of_N mills * 1000) u64_max) i64_max in
  Event.UsageReported agent (Z.of_N cached32) 0 (Z.of_N (input32 - cached32)) (Z.of_N output32) micros.

Definition text_deltas (completion : Completion.t Num) : list Event.t :=
  let chars := clamp_u32 (Z.of_nat (length (Utf8.chars (Completion.text completion)))) in
  if (0 <? chars)%Z then [Event.StreamDelta chars] else [].

(** The body of a validator's task. *)
Definition validator_task (from_wire : list byte → option WireVerdict) (backend : Backend Num)
    (panics : Id → option nat) (prompt : list byte) (agent : Id) : Task Num :=
  let '(effects, answer) := send_with_retry backend (Validator agent) (provider_request backend prompt) in
  let '(effects, outcome) :=
    match answer with
    | Err e => (effects, Err (ProviderFailed e))
    | Ok completion =>
        (effects ++ [Published (usage_event agent completion)],
         let? text := terminal_text completion in parse_verdict from_wire text)
    end in
  match panics agent with
  | Some n => mkTask agent (take n effects) None
  | None => mkTask agent effects (Some outcome)
  end.
End retry.

(** [failure.get_or_insert(error)] of [collect_validations]. *)
Definition first_of (failure : option RunError) (error : RunError) : option RunError :=
  match failure with Some e => Some e | None => Some error end.

Section run.
Context {Num : Type} (from_wire : list byte → option WireVerdict).
Context (sql_length : string → nat) (blake3 : list byte → list byte).
Context {CT VT WT : Type}
  `{Table CT Id ClaimRow.t} `{Table VT (Id * Id) unit} `{Table WT (Id * Id) VoteRow.t}.
Context `{Terminal}.
(** The registered hooks, and what running one does. *)
Context (hooks : Hook.Registry.t) (to_string : Event.t → option (list byte)).
Context (path home : option (list byte)) (run : Spawn → Run).

Abbreviation effect := (Effect Num).
Abbreviation state := (turn CT VT WT).

Definition fire_hooks (point : HookPoint) (event : Event.t) (turn_count : N) :
    list effect * result bool RunError :=
  let '(started, outcome) := Hook.fire to_string path home run point (Hook.mkContext event turn_count) hooks in
  (Started <$> started,
   match outcome with
   | Ok Hook.Continue => Ok false
   | Ok Hook.Stop => Ok true
   | Err error => Err (HookFailed error)
   end).

(** The loop of [collect_validations]: the task the schedule chooses does its next thing,
    or is joined.  A step uses up an effect or a task, so [work] steps are enough. *)
Fixpoint collect (w : World) (fuel step : nat) (tasks : list (Task Num)) (t : state)
    (log : list effect) (failure : option RunError) :
    state * list effect * result (bool * option RunError) RunError :=
  match fuel with
  | 0 => (t, log, Ok (false, failure))
  | S fuel =>
      let i := schedule w step mod length tasks in
      match tasks !! i with
      | None => (t, log, Ok (false, failure))
      | Some task =>
          match pending task with
          | e :: rest =>
              collect w fuel (S step) (<[i := mkTask (task_agent task) rest (task_outcome task)]> tasks)
                t (log ++ [e]) failure
          | [] =>
              let tasks := base.delete i tasks in
              match task_outcome task with
              | None => collect w fuel (S step) tasks t log (first_of failure ValidatorPanicked)
              | Some (Err error) => collect w fuel (S step) tasks t log (first_of failure error)
              | Some (Ok verdict) =>
                  let '(t, events, r) :=
                    record sql_length (votes w (task_agent task))
                      (PeerAnswer.validation (task_agent task) verdict) t in
                  let log := log ++ (Published <$> events) in
                  match r with
                  | Err e => (t, log, Err (TurnFailed e))
                  | Ok StepReached => (t, log, Ok (true, failure))
                  | Ok Escalate => (t, log, Err RejectedByPeers)
                  | Ok Collecting => collect w fuel (S step) tasks t log failure
                  end
              end
          end
      end
  end.

Definition work (tasks : list (Task Num)) : nat :=
  foldr (λ task n, S (length (pending task)) + n) 0 tasks.

Definition collect_validations (w : World) (tasks : list (Task Num)) (t : state) :
    state * list effect * result (bool * option RunError) RunError :=
  collect w (work tasks) 0 tasks t [] None.

(** What the watcher, subscribed after [before] was published, drains. *)
Definition watched (before after : list Event.t) : list Delivery.t :=
  let publish_all := foldl (λ b event, (Bus.publish [] event b).1) in
  let topics := TopicSet.union (TopicSet.union (TopicSet.union (TopicSet.of_ TTurn) (TopicSet.of_ TProvider))
    (TopicSet.of_ TCohort)) (TopicSet.of_ TCache) in
  let '(b, id) := Bus.subscribe topics (publish_all Bus.new before) in
  match Bus.slots (publish_all b after) !! id with
  | Some slot => (Slot.drain slot).2
  | None => []
  end.

Definition status_lines (deliveries : list Delivery.t) : list effect :=
  Printed <$> (render_drain FrameState.default deliveries (bytes "auto") (bytes "turn") default_dark 80).2.

(** [run_proposal]: the proposal is asked for, announced and recorded. *)
Definition run_proposal (backend : Backend Num) (agent : Id) (task : list byte) (t : state) :
    state * list effect * result (list byte) RunError :=
  let '(effects, answer) := send_with_retry backend Proposer (provider_request backend task) in
  match answer with
  | Err e => (t, effects, Err (ProviderFailed e))
  | Ok completion =>
      let effects := effects ++ (Published <$> usage_event agent completion :: text_deltas completion) in
      match terminal_text completion with
      | Err e => (t, effects, Err e)
      | Ok proposal =>
          let '(t, events, r) := record sql_length true (PeerAnswer.proposal agent (text_of proposal)) t in
          (t, effects ++ (Published <$> events),
           match r with Ok _ => Ok proposal | Err e => Err (TurnFailed e) end)
      end
  end.

Definition agents_of (w : World) (k : nat) : list Id := fresh_agent w <$> seq 0 k.

Definition validators_of (agents : list Id) : list Id :=
  match agents with [proposer] => [proposer] | _ => tail agents end.

Definition tasks_of (backend : Backend Num) (w : World) (task proposal : list byte) (agents : list Id) :
    list (Task Num) :=
  validator_task from_wire backend (panics w) (validation_prompt task proposal) <$> validators_of agents.

(** The part behind the proposal: judge, decide, seal, report. *)
Definition judge (backend : Backend Num) (w : World) (turn_count : N) (task proposal : list byte)
    (agents : list Id) (before : list effect) (t : state) :
    list effect * result TurnResult RunError :=
  let '(t, log, outcome) := collect_validations w (tasks_of backend w task proposal agents) t in
  match outcome with
  | Err e => (log, Err e)
  | Ok (false, Some error) => (log, Err (EndedBeforeQuorum error))
  | Ok (false, None) => (log, Err WithoutQuorum)
  | Ok (true, _) =>
      let log := log ++ status_lines (watched (events_of before) (events_of log)) in
      let '(t, _, events, sealed) := finish blake3 (fresh_segment w) t PromptLedger.new in
      let log := log ++ (Published <$> events) in
      match sealed with
      | Err e => (log, Err (TurnFailed e))
      | Ok _ =>
          let '(started, stop) := fire_hooks TurnEnd (Event.TurnCompleted (turn_id t)) turn_count in
          (log ++ started,
           match stop with
           | Err e => Err e
           | Ok true => Err (HookStopped TurnEnd)
           | Ok false => Ok (mkResult 0%N proposal (turn_id t))
           end)
      end
  end.

(** The session of the result is set by the caller. *)
Definition execute_turn_with_backend (config : Config.t) (backend : Backend Num) (w : World)
    (turn_count : N) (task : list byte) : list effect * result TurnResult RunError :=
  match plan_turn config (estimate_tier task) with
  | None => ([], Err NotAdmitted)
  | Some (_, k) =>
      let agents := agents_of w k in
      let '(started, stop) := fire_hooks TurnStart (Event.TurnStarted (hook_turn w)) turn_count in
      match stop with
      | Err e => (started, Err e)
      | Ok true => (started, Err (HookStopped TurnStart))
      | Ok false =>
          if negb (store_opens w) then (started, Err StoreFailed)
          else
            match start_shared sql_length (publishes w) (fresh_turn w) (fresh_claim w) (clock w) ∅
                    (Db.mk t_empty t_empty t_empty) (text_of task) agents with
            | Err e => (started, Err (TurnFailed e))
            | Ok (t, events) =>
                let '(t, asked, proposed) := run_proposal backend (hd 0%N agents) task t in
                let before := started ++ (Published <$> events) ++ asked in
                match proposed with
                | Err e => (before, Err e)
                | Ok proposal =>
                    let '(log, r) := judge backend w turn_count task proposal agents before t in
                    (before ++ log, r)
                end
            end
      end
  end.

(** ** Around the turn: the session *)

Context {V : Type} `{EqDecision V} (is_object : V → bool) (role : V → option (list byte)).
Context (codec : Codec V) (show_id : Id → string).

Record Executed := mkExecuted {
  effects : list effect;
  (** The states the file system goes through while the session is saved. *)
  saving : list Fs.t;
  executed : result TurnResult RunError;
}.

Definition opened (read : bool) (directory : string) (fresh_session : Id) (resume_id : option Id) (fs : Fs.t) :
    result (Session * N * bool) RunError :=
  match resume_id with
  | None => Ok (new_session fresh_session, 0%N, false)
  | Some id =>
      let? found := map_err SessionFailed (resume is_object role codec show_id read directory id fs) in
      let? session := ok_or found (NoSavedSession id) in
      Ok (session, N.of_nat (length (turn_ids session)), true)
  end.

Definition execute_turn_resuming_with_backend (io : SaveIo.t) (read : bool) (directory : string) (fresh_session : Id)
    (config : Config.t) (backend : Backend Num) (w : World) (resume_id : option Id) (task : list byte)
    (fs : Fs.t) : Executed :=
  match opened read directory fresh_session resume_id fs with
  | Err e => mkExecuted [] [] (Err e)
  | Ok (session, prior_turns, resumed) =>
      let id := Session.id session in
      let event := if resumed then Event.SessionResumed id else Event.SessionStarted id in
      let '(hello, greeted) := fire_hooks SessionStart event prior_turns in
      match greeted with
      | Err e => mkExecuted hello [] (Err e)
      | Ok _ =>
          let '(log, turned) := execute_turn_with_backend config backend w prior_turns task in
          match turned with
          | Err e => mkExecuted (hello ++ log) [] (Err e)
          | Ok r =>
              let '(_, session) := record_turn_with_body (result_turn r) (result_answer r) session in
              let '(states, saved) := save_session is_object role codec show_id io directory session fs in
              match saved with
              | Err e => mkExecuted (hello ++ log) states (Err (SessionFailed e))
              | Ok _ =>
                  let '(bye, ended) :=
                    fire_hooks SessionEnd (Event.SessionEnded id)
                      (N.min (prior_turns + 1) (Z.to_N u64_max)) in
                  mkExecuted (hello ++ log ++ bye) states
                    (let? _ := ended in Ok (mkResult id (result_answer r) (result_turn r)))
              end
          end
      end
  end.

(** [execute_turn_resuming], over the backend a client and a credential make. *)
Definition execute_turn_resuming (io : SaveIo.t) (read : bool) (directory : string) (fresh_session : Id)
    (env_var keyring : list byte → option (list byte)) (live : Client.t → list byte → Backend Num)
    (config : Config.t) (w : World) (resume_id : option Id) (requested : option (list byte))
    (task : list byte) (fs : Fs.t) : Executed :=
  let task := trim task in
  let ready :=
    if bool_decide (task = []) then Err EmptyRunTask
    else
      let? provider := select_provider config requested in
      let? client := map_err ClientRefused (Client.from_config config provider) in
      let? credential :=
        map_err NoCredential (provider_secret env_var keyring (λ text, text) provider config) in
      Ok (live client credential) in
  match ready with
  | Err e => mkExecuted [] [] (Err e)
  | Ok backend =>
      execute_turn_resuming_with_backend io read directory fresh_session config backend w resume_id task fs
  end.
End run.

(** ** The live provider *)

Section live.
Context {Num : Type} `{JsonNumber Num}.
Context (quote : list byte → list byte) (of_u64 : N → Num) (as_u64 : Num → option N).
Context (from_str : list byte → result (Value Num) (list byte)) (header_value_ok : list byte → bool).

(** What the network does with one attempt. *)
Record Network := mkNetwork {
  post : HttpRequest → result HttpResponse (list byte);
  create : option (list byte) → list byte → Sdk.Request Num → result Sdk.Response Sdk.Error;
  create_stream : option (list byte) → list byte → Sdk.Request Num →
    result (list (result Sdk.Chunk Sdk.Error)) Sdk.Error;
  late : bool;
}.

(** [LiveProvider]: an attempt that is late, or aborts, is no answer. *)
Definition live_provider (network : Caller → nat → Network) (client : Client.t) (credential : list byte) :
    Backend Num :=
  mkBackend (Client.provider client) (Client.model client) (Client.thinking client)
    (λ who attempt request,
      let n := network who attempt in
      if late n then None
      else match (send quote of_u64 as_u64 from_str header_value_ok (post n) (create n) (create_stream n)
                    client request credential).2 with
           | Returns r => Some r
           | Aborted => None
           end).
End live.

(** ** What a reached quorum rests on *)

Lemma tally_counts_spec x votes :
  Tally.yes (tally_counts x votes) =
    Tally.yes x + length (List.filter (λ v, bool_decide (v = Yes)) votes) ∧
  Tally.needed (tally_counts x votes) = Tally.needed x.
Proof.
  unfold tally_counts. revert x. induction votes as [|v votes IH]; intros x; [simpl; lia|]. cbn [foldl].
  destruct (IH (Tally.count x v)) as [-> ->]. destruct v; simpl; lia.
Qed.

Lemma votes_of_filter (l : list (Id * option Vote)) :
  length (List.filter (λ v, bool_decide (v = Yes)) (omap snd l)) =
  length (List.filter (λ p, bool_decide (p.2 = Some Yes)) l).
Proof.
  induction l as [|[a [v|]] l IH]; [done|..]; cbn [omap list_omap snd]; simpl.
  - destruct v; simpl; by rewrite <- IH.
  - exact IH.
Qed.

(** The voters a reached claim counts as yes, its proposer's own vote aside. *)
Lemma reached_yes st :
  state_ok st → ClaimState.status st = Reached →
  ∃ yes, NoDup yes ∧ (∀ a, a ∈ yes → ClaimState.validators st !! a = Some (Some Yes)) ∧
    quorum (ClaimState.k st) ≤ length yes + (if is_blind st then 0 else 1).
Proof.
  intros (_ & Ht & [Hs|[Hs _]]) Hr; [|congruence]. rewrite Hr in Hs.
  set (m := ClaimState.validators st) in *.
  exists (fst <$> List.filter (λ p, bool_decide (p.2 = Some Yes)) (map_to_list m)). split_and!.
  - eapply sublist_NoDup; [|apply fmap_sublist, filter_sublist]. apply NoDup_fst_map_to_list.
  - intros a Ha. apply list_elem_of_fmap in Ha as ([x o] & -> & Hin).
    apply list_elem_of_In, filter_In in Hin as [Hin Ho]. apply bool_decide_eq_true in Ho. simpl in *. subst o.
    by apply elem_of_map_to_list, list_elem_of_In.
  - assert (Tally.needed (ClaimState.tally st) ≤ Tally.yes (ClaimState.tally st)) as Hle.
    { unfold Tally.status, Tally.is_reached in Hs. by repeat case_match; to_prop. }
    rewrite Ht in Hle. destruct (tally_counts_spec (base_tally st) (votes_of m)) as [Hy Hn].
    rewrite Hy, Hn in Hle. rewrite length_fmap, <- votes_of_filter.
    fold (votes_of m). unfold base_tally in Hle. destruct (is_blind st); simpl in Hle; lia.
Qed.

(** The size of a claim's cohort and whether its proposer votes. *)
Definition seats (st : ClaimState.t) : nat * bool := (ClaimState.k st, is_blind st).

Lemma voted_seats st a v : ClaimState.validators st !! a = Some None → seats (voted st a v) = seats st.
Proof.
  intros Ha. unfold seats, is_blind. cbn [voted ClaimState.k ClaimState.validators ClaimState.proposer].
  f_equal. f_equal. destruct (decide (ClaimState.proposer st = a)) as [->|Hne].
  - rewrite lookup_insert_eq, Ha. by rewrite !bool_decide_eq_true_2.
  - by rewrite lookup_insert_ne.
Qed.

Section seats.
Context (sql_length : string → nat) {CT VT WT : Type}
  `{TableLaws CT Id ClaimRow.t} `{TableLaws VT (Id * Id) unit} `{TableLaws WT (Id * Id) VoteRow.t}.
Implicit Types t : turn CT VT WT.

(** What a turn's claim seats. *)
Definition seated t (k : nat) (blind : bool) : Prop :=
  ∃ st, board t !! turn_claim t = Some st ∧ seats st = (k, blind).

Lemma record_seated io a t t' evs r k blind :
  agree (board t) (database t) → record sql_length io a t = (t', evs, r) →
  seated t k blind → seated t' k blind.
Proof.
  intros Hag Hr (st & Hst & Hse). destruct (PeerAnswer.text a) as [text|] eqn:Ht.
  { unfold record in Hr. rewrite Ht in Hr. repeat case_match; simplify_eq/=; by exists st. }
  destruct (decide (answer t = None)) as [Ha|Ha].
  { unfold record in Hr. rewrite Ht, bool_decide_eq_true_2 in Hr by done. simplify_eq. by exists st. }
  destruct (PeerAnswer.verdict a) as [verdict|] eqn:Hv.
  2: { unfold record in Hr. rewrite Ht, Hv, bool_decide_eq_false_2 in Hr by done. simplify_eq. by exists st. }
  rewrite (record_vote_eq sql_length io a t verdict Ht Ha Hv) in Hr.
  destruct (board_vote _ _ _ _ _ _ _ _) as [[b' d'] [out|e]] eqn:E;
    apply (board_vote_cases _ _ _ _ _ _ _ _ _ _ _ Hag) in E as [_ E]; simplify_eq/=.
  - destruct E as (st' & Hst' & _ & Hvs & -> & _). assert (st' = st) as -> by congruence.
    eexists. cbn [board with_step with_board turn_claim]. rewrite lookup_insert_eq. split; [done|].
    by rewrite voted_seats.
  - destruct E as [-> ->]. by exists st.
Qed.

Lemma start_seated io fresh_turn fresh_claim clock b d task agents t evs :
  agree b d → NoDup agents →
  start_shared sql_length io fresh_turn fresh_claim clock b d task agents = Ok (t, evs) →
  seated t (length agents) (length agents =? 1) ∧ blind_rederivation t = (length agents =? 1).
Proof.
  intros Hb Hnd Hs.
  destruct (inv_start _ _ _ _ _ _ _ _ _ _ _ Hb Hs)
    as (Hinv & Hse & _ & _ & _ & _ & Hbl & st & p & Hst & Hh & Hv).
  split; [|done]. exists st. split; [done|].
  destruct (ti_claim _ _ _ _ Hinv) as (st0 & p0 & Hst0 & Hp & Hh0 & _).
  assert (st0 = st) as -> by congruence.
  assert (p0 = p) as -> by (rewrite Hse in Hh0; congruence). clear Hst0 Hh0.
  pose proof (ti_agree _ _ _ _ Hinv (turn_claim t)) as Hok. rewrite Hst in Hok.
  destruct Hok as [(Hr & _) _]. rewrite Hbl in Hv. unfold seats.
  destruct agents as [|p' others]; [done|]. simpl in Hh. injection Hh as ->.
  destruct (is_blind st) eqn:Hib.
  - assert (ClaimState.k st = 1) as Hk by (unfold is_blind in Hib; by to_prop).
    rewrite Hk. destruct (Nat.eqb_spec (length (p :: others)) 1) as [He|He]; [by rewrite He|].
    exfalso. unfold is_blind in Hib. apply andb_prop in Hib as [_ Hib].
    apply bool_decide_eq_true in Hib. rewrite Hv, Hp, empty_roster_lookup in Hib.
    case_decide as Hin; [|done].
    apply list_elem_of_In, filter_In in Hin as [_ Hn]. by rewrite bool_decide_eq_true_2 in Hn.
  - destruct Hr as [Hnone Hk].
    destruct (Nat.eqb_spec (length (p :: others)) 1) as [He|He].
    { rewrite Hv, Hp, lookup_singleton_eq in Hnone. done. }
    f_equal. rewrite Hk, Hv, empty_roster_size; simpl.
    + rewrite bool_decide_eq_true_2 by done. simpl.
      apply NoDup_cons in Hnd as [Hp' _]. clear -Hp'.
      assert (List.filter (λ agent, negb (bool_decide (agent = p))) others = others) as ->; [|lia].
      apply List.forallb_filter_id, forallb_forall. intros x Hx. apply negb_true_iff, bool_decide_eq_false.
      intros ->. by apply Hp', list_elem_of_In.
    + rewrite bool_decide_eq_true_2 by done. simpl. apply NoDup_cons in Hnd as [_ Hnd].
      eapply sublist_NoDup; [exact Hnd|apply filter_sublist].
Qed.
End seats.

Section facts.
Context {Num : Type} (from_wire : list byte → option WireVerdict).
Context (sql_length : string → nat) (blake3 : list byte → list byte).
Context {CT VT WT : Type}
  `{TableLaws CT Id ClaimRow.t} `{TableLaws VT (Id * Id) unit} `{TableLaws WT (Id * Id) VoteRow.t}.
Implicit Types t : turn CT VT WT.

(** A vote of the turn is the verdict a task of [tasks] came back with. *)
Definition judged (tasks : list (Task Num)) (vote : Id * Vote * Confidence) : Prop :=
  ∃ task verdict, task ∈ tasks ∧ task_outcome task = Some (Ok verdict) ∧
    vote = (task_agent task, Verdict.vote verdict, Verdict.confidence verdict).

Definition same_task (a b : Task Num) : Prop :=
  task_agent a = task_agent b ∧ task_outcome a = task_outcome b.

(** The turn while it is judged: [text] its proposal. *)
Record judging (tasks : list (Task Num)) (text : string) (k : nat) (blind : bool) (turn : Id) t : Prop := {
  j_votes : ∃ votes log, turn_inv t votes [] log ∧ Forall (judged tasks) votes;
  j_seated : seated t k blind;
  j_answer : answer t = Some text;
  j_turn : turn_id t = turn;
}.

Lemma propose_Ok io a text t t' evs step :
  record sql_length io (PeerAnswer.proposal a text) t = (t', evs, Ok step) →
  t' = with_answer text t ∧ evs = [] ∧ step = Collecting.
Proof. unfold record. cbn [PeerAnswer.text PeerAnswer.proposal]. intros Hr. repeat case_match; by simplify_eq/=. Qed.

Lemma judging_record tasks text k blind turn io agent verdict t t' evs r :
  judging tasks text k blind turn t → judged tasks (agent, Verdict.vote verdict, Verdict.confidence verdict) →
  record sql_length io (PeerAnswer.validation agent verdict) t = (t', evs, r) →
  judging tasks text k blind turn t'.
Proof.
  intros [(votes & log & Hinv & Hv) Hs Ha Ht] Hj Hr.
  pose proof (record_static _ _ _ _ _ _ _ Hr) as (Hid & _ & _ & _ & _ & Hans).
  destruct (inv_record _ _ _ _ _ _ _ _ _ _ Hinv Hr) as (Herr & new & Hinv' & Hnew & _).
  split; [|exact (record_seated sql_length _ _ _ _ _ _ _ _ (ti_agree _ _ _ _ Hinv) Hr Hs)|rewrite Hans; congruence|congruence].
  destruct r as [step|e].
  - exists (votes ++ new), (log ++ evs). split; [done|]. apply Forall_app. split; [done|].
    destruct (Hnew step eq_refl eq_refl) as (v & Hve & ->). simpl in Hve. simplify_eq. by apply Forall_singleton.
  - destruct (Herr e eq_refl) as [-> _]. by exists votes, log.
Qed.

Lemma collect_judging all w text k blind turn fuel step tasks t log failure :
  judging all text k blind turn t → Forall (λ task, ∃ a, a ∈ all ∧ same_task task a) tasks →
  judging all text k blind turn (collect sql_length w fuel step tasks t log failure).1.1.
Proof.
  revert step tasks t log failure. induction fuel as [|fuel IH]; intros step tasks t log failure Hj Hsub;
    cbn [collect]; [done|].
  set (i := schedule w step mod length tasks).
  destruct (tasks !! i) as [task|] eqn:Ei; [|done].
  pose proof (proj1 (Forall_forall _ _) Hsub _ (list_elem_of_lookup_2 _ _ _ Ei)) as (a & Hin & Hag & Hout).
  destruct (pending task) as [|e rest] eqn:Ep.
  - assert (Forall (λ task, ∃ a, a ∈ all ∧ same_task task a) (base.delete i tasks)) as Hsub'.
    { apply Forall_delete. done. }
    destruct (task_outcome task) as [[verdict|e]|] eqn:Eo; [|by apply IH..].
    destruct (record _ _ _ t) as [[t' evs] r] eqn:Er.
    assert (judging all text k blind turn t') as Hj'.
    { eapply judging_record; [exact Hj| |exact Er]. exists a, verdict. rewrite Hag. split_and!; congruence. }
    destruct r as [[| |]|]; [by apply IH|done..].
  - apply IH; [done|]. apply Forall_insert; [done|]. by exists a.
Qed.
End facts.

Section answers.
Context {Num : Type} (from_wire : list byte → option WireVerdict).
Context (sql_length : string → nat) (blake3 : list byte → list byte).
Context {CT VT WT : Type}
  `{TableLaws CT Id ClaimRow.t} `{TableLaws VT (Id * Id) unit} `{TableLaws WT (Id * Id) VoteRow.t}.
Context `{Terminal} (hooks : Hook.Registry.t) (to_string : Event.t → option (list byte)).
Context (path home : option (list byte)) (run : Spawn → Run).
Context (backend : Backend Num) (w : World).

(** What a validator comes back with, when it does. *)
Definition judges (prompt : list byte) (agent : Id) (verdict : Verdict.t) : Prop :=
  ∃ completion text, (send_with_retry backend (Validator agent) (provider_request backend prompt)).2 = Ok completion ∧
    terminal_text completion = Ok text ∧ parse_verdict from_wire text = Ok verdict.

Lemma task_judges prompt agent verdict :
  task_outcome (validator_task from_wire backend (panics w) prompt agent) = Some (Ok verdict) →
  judges prompt agent verdict.
Proof.
  unfold validator_task, judges. destruct (send_with_retry _ _ _) as [effects [completion|e]]; simpl;
    destruct (panics w agent); simpl; try done. intros [= Ho].
  apply result_bind_Ok in Ho as (text & Ht & Hp). by exists completion, text.
Qed.

Lemma task_agent_of prompt agent :
  task_agent (validator_task from_wire backend (panics w) prompt agent) = agent.
Proof.
  unfold validator_task. destruct (send_with_retry _ _ _) as [effects [completion|e]]; simpl;
    by destruct (panics w agent).
Qed.

(** A cohort's answer: what the proposal was and who agreed to it. *)
Definition agreed (task : list byte) (agents : list Id) (answer : list byte) : Prop :=
  (∃ completion, (send_with_retry backend Proposer (provider_request backend task)).2 = Ok completion ∧
     terminal_text completion = Ok answer) ∧
  ∃ yes, NoDup yes ∧
    (∀ a, a ∈ yes → a ∈ validators_of agents ∧ ∃ verdict,
       judges (validation_prompt task answer) a verdict ∧ Verdict.vote verdict = Yes) ∧
    quorum (length agents) ≤ length yes + (if length agents =? 1 then 0 else 1).

Lemma judging_agreed task agents answer text this_turn (t : turn CT VT WT) :
  judging (tasks_of from_wire backend w task answer agents) text (length agents) (length agents =? 1) this_turn t →
  Turn.status t = Some Reached →
  ∃ yes, NoDup yes ∧
    (∀ a, a ∈ yes → a ∈ validators_of agents ∧ ∃ verdict,
       judges (validation_prompt task answer) a verdict ∧ Verdict.vote verdict = Yes) ∧
    quorum (length agents) ≤ length yes + (if length agents =? 1 then 0 else 1).
Proof.
  intros [(votes & log & Hinv & Hv) (st & Hst & Hse) _ _] Hr.
  rewrite (status_eq t st Hst) in Hr. injection Hr as Hr.
  pose proof (ti_agree _ _ _ _ Hinv (turn_claim t)) as Hok. rewrite Hst in Hok. destruct Hok as [Hok _].
  destruct (reached_yes st Hok Hr) as (yes & Hnd & Hyes & Hq). unfold seats in Hse.
  injection Hse as Hk Hb. rewrite Hk, Hb in Hq. exists yes. split_and!; [done| |done].
  intros a Ha. destruct (ti_claim _ _ _ _ Hinv) as (st' & p & Hst' & _ & _ & _ & _ & Hvotes & _).
  assert (st' = st) as -> by congruence.
  destruct (proj2 (Hvotes a Yes) (Hyes a Ha)) as [c Hin].
  destruct (proj1 (Forall_forall _ _) Hv _ Hin) as (task' & verdict & Htask & Hout & [= -> Hvote _]).
  apply list_elem_of_fmap in Htask as (agent & -> & Hagent). rewrite task_agent_of. split; [done|].
  exists verdict. split; [by apply task_judges|done].
Qed.
End answers.

Section accepted.
Context {Num : Type} (from_wire : list byte → option WireVerdict).
Context (sql_length : string → nat) (blake3 : list byte → list byte).
Context {CT VT WT : Type}
  `{TableLaws CT Id ClaimRow.t} `{TableLaws VT (Id * Id) unit} `{TableLaws WT (Id * Id) VoteRow.t}.
Context `{Terminal} (hooks : Hook.Registry.t) (to_string : Event.t → option (list byte)).
Context (path home : option (list byte)) (run : Spawn → Run).
Context (backend : Backend Num) (w : World).

Lemma proposal_judging agent task (t t' : turn CT VT WT) effects answer k blind (tasks : list (Task Num)) :
  (∃ log, turn_inv t [] [] log) → seated t k blind →
  run_proposal sql_length backend agent task t = (t', effects, Ok answer) →
  judging tasks (text_of answer) k blind (turn_id t) t' ∧
  blind_rederivation t' = blind_rederivation t ∧ t' = with_answer (text_of answer) t ∧
  ∃ completion, (send_with_retry backend Proposer (provider_request backend task)).2 = Ok completion ∧
    terminal_text completion = Ok answer.
Proof.
  intros [log Hinv] Hs. unfold run_proposal.
  destruct (send_with_retry _ _ _) as [asked [completion|e]]; [|done].
  destruct (terminal_text completion) as [proposal|e] eqn:Et; [|done].
  destruct (record _ _ _ t) as [[t1 evs] [step|e]] eqn:Er; intros [= -> _ ->].
  destruct (propose_Ok _ _ _ _ _ _ _ _ Er) as (-> & -> & ->).
  split; [|split_and!; [done|done|by exists completion]].
  destruct (inv_record _ _ _ _ _ _ _ _ _ _ Hinv Er) as (_ & new & Hinv' & _ & Hnew).
  rewrite (Hnew ltac:(done)) in Hinv'. split; [|done|done|done].
  exists [], (log ++ []). split; [exact Hinv'|constructor].
Qed.

Lemma judge_Ok turn_count task proposal agents before (t : turn CT VT WT) text k blind turn log r :
  judging (tasks_of from_wire backend w task proposal agents) text k blind turn t →
  judge from_wire sql_length blake3 hooks to_string path home run backend w turn_count task proposal agents
    before t = (log, Ok r) →
  ∃ t', judging (tasks_of from_wire backend w task proposal agents) text k blind turn t' ∧
    Turn.status t' = Some Reached ∧ r = mkResult 0%N proposal turn ∧
    (fire_hooks (Num := Num) hooks to_string path home run TurnEnd (Event.TurnCompleted turn) turn_count).2 =
      Ok false.
Proof.
  intros Hj. unfold judge, collect_validations.
  set (tasks := tasks_of _ _ _ _ _ _) in *.
  pose proof (collect_judging sql_length tasks w text k blind turn (work tasks) 0 tasks t [] None Hj) as Hc.
  destruct (collect _ _ _ _ _ _ _ _) as [[t1 log1] [[[] failure]|e]]; [|by destruct failure|done].
  destruct (Hc ltac:(apply Forall_forall; intros a Ha; by exists a)) as [(votes & log' & Hinv & Hv) Hs Ha Ht].
  simpl in Hinv, Hs, Ha, Ht.
  destruct (finish blake3 (fresh_segment w) t1 PromptLedger.new) as [[[t2 l2] events] sealed] eqn:Ef.
  destruct (finish_cases blake3 _ _ _ _ _ _ _ _ _ _ Hinv Ef)
    as [(e & -> & _)|(_ & Hst & -> & -> & _)]; [done|].
  destruct (fire_hooks _ _ _ _ _ TurnEnd _ _) as [started stop] eqn:Eh.
  destruct stop as [[]|]; intros [= _ <-].
  exists t1. split_and!; [|done| |].
  - split; [by exists votes, log'|done..].
  - simpl. by rewrite Ht.
  - simpl in Eh. rewrite Ht in Eh. by rewrite Eh.
Qed.

(** C1. No answer without its quorum.  Whatever the providers reply, the hooks do and the
    schedule of the validators is: a run that gives an answer admitted a cohort for its
    task, no hook asked it to stop, and the answer is the text the proposer finished its
    turn with - no tool call, no cut-off - to which as many members of the cohort as its
    quorum asks agreed: the proposer itself, unless it is alone, and distinct validators
    whose own replies to the candidate parse to a vote of yes. *)
Theorem answer_needs_quorum (config : Config.t) (turn_count : N) (task : list byte)
    (log : list (Effect Num)) (r : TurnResult)
    (Hfresh : Inj (=) (=) (fresh_agent w))
    (Hrun : execute_turn_with_backend from_wire sql_length blake3 hooks to_string path home run
      config backend w turn_count task = (log, Ok r)) :
  ∃ tier k, plan_turn config (estimate_tier task) = Some (tier, k) ∧
    agreed from_wire backend task (agents_of w k) (result_answer r) ∧
    result_turn r = fresh_turn w ∧
    (fire_hooks (Num := Num) hooks to_string path home run TurnStart (Event.TurnStarted (hook_turn w))
       turn_count).2 = Ok false ∧
    (fire_hooks (Num := Num) hooks to_string path home run TurnEnd (Event.TurnCompleted (fresh_turn w))
       turn_count).2 = Ok false.
Proof.
  unfold execute_turn_with_backend in Hrun.
  destruct (plan_turn config (estimate_tier task)) as [[tier k]|]; [|done]. exists tier, k. split; [done|].
  destruct (fire_hooks _ _ _ _ _ TurnStart _ _) as [started stop] eqn:Eh.
  destruct stop as [[]|]; [done| |done]. destruct (store_opens w); [|done]. cbn [negb] in Hrun.
  set (agents := agents_of w k) in *.
  assert (NoDup agents) as Hnd by (apply NoDup_fmap_2; [done|apply NoDup_seq]).
  destruct (start_shared _ _ _ _ _ _ _ _ _) as [[t events]|e] eqn:Es; [|done].
  pose proof (agree_empty (CT := CT) (VT := VT) (WT := WT)) as Hempty.
  destruct (inv_start _ _ _ _ _ _ _ _ _ _ _ Hempty Es) as (Hinv & _ & _ & Hid & _).
  destruct (start_seated _ _ _ _ _ _ _ _ _ _ _ Hempty Hnd Es) as [Hs _].
  destruct (run_proposal _ _ _ _ _) as [[t1 asked] proposed] eqn:Ep.
  destruct proposed as [proposal|e]; [|done].
  destruct (proposal_judging _ _ _ _ _ _ _ _ (tasks_of from_wire backend w task proposal agents)
    (ex_intro _ _ Hinv) Hs Ep) as (Hj & _ & _ & Hprop). rewrite Hid in Hj.
  destruct (judge _ _ _ _ _ _ _ _ _ _ _ _ _ _ _ _) as [log' r'] eqn:Ej. simplify_eq.
  destruct (judge_Ok _ _ _ _ _ _ _ _ _ _ _ _ Hj Ej) as (t' & Hj' & Hst & -> & Hend).
  split_and!; [|done|done|done]. split; [exact Hprop|]. by eapply judging_agreed.
Qed.
End accepted.

(** ** A cohort that agrees is heard *)

Section unanimous.
Context {Num : Type} (from_wire : list byte → option WireVerdict).
Context (sql_length : string → nat) (blake3 : list byte → list byte).
Context {CT VT WT : Type}
  `{TableLaws CT Id ClaimRow.t} `{TableLaws VT (Id * Id) unit} `{TableLaws WT (Id * Id) VoteRow.t}.
Implicit Types t : turn CT VT WT.
Hypothesis sql_short : ∀ s, sql_length s ≤ String.length s.

Definition approves (task : Task Num) : Prop :=
  ∃ verdict, task_outcome task = Some (Ok verdict) ∧ Verdict.vote verdict = Yes ∧ Verdict.within_budget verdict.

Lemma yes_so_far_perm t text rest rest' :
  rest ≡ₚ rest' → yes_so_far t text rest → yes_so_far t text rest'.
Proof.
  intros Hp (Hag & Ha & Hf & Hb & st & Hst & Hc). split_and!; [done..|]. exists st. split; [done|].
  destruct Hc as [Hr|(Ho & Hne & Hnd & Hpr & Hv & Hy & Hrest)]; [by left|right].
  split_and!; [done| | | | | |by apply Hrest..].
  - intros ->. by apply Permutation_nil_r in Hp.
  - by rewrite <- Hp.
  - by rewrite <- Hp.
  - intros a Hin. apply Hv. by rewrite Hp.
  - by rewrite <- Hp.
Qed.

Lemma work_insert (tasks : list (Task Num)) i task e rest :
  tasks !! i = Some task → pending task = e :: rest →
  S (work (<[i := mkTask (task_agent task) rest (task_outcome task)]> tasks)) = work tasks.
Proof.
  revert i. induction tasks as [|x tasks IH]; intros [|i] Hi Hp; simplify_eq/=; [by rewrite Hp|].
  rewrite <- (IH i Hi Hp). lia.
Qed.

Lemma work_delete (tasks : list (Task Num)) i task :
  tasks !! i = Some task → work (base.delete i tasks) < work tasks.
Proof.
  revert i. induction tasks as [|x tasks IH]; intros [|i] Hi; simplify_eq/=; [lia|].
  specialize (IH i Hi). lia.
Qed.

Lemma collect_unanimous w fuel step tasks t log failure text rest :
  (∀ a, votes w a = true) → work tasks ≤ fuel → task_agent <$> tasks ≡ₚ rest → Forall approves tasks →
  yes_so_far t text rest → Turn.status t = Some Open →
  ∃ t' log' failure' rest', collect sql_length w fuel step tasks t log failure = (t', log', Ok (true, failure')) ∧
    yes_so_far t' text rest' ∧ Turn.status t' = Some Reached.
Proof.
  intros Hw. revert step tasks t log failure rest.
  induction fuel as [|fuel IH]; intros step tasks t log failure rest Hf Hp Ht Hy Ho.
  - exfalso. destruct tasks as [|task tasks]; [|simpl in Hf; lia].
    cbn in Hp. apply Permutation_nil in Hp as ->. destruct Hy as (_ & _ & _ & _ & st & Hst & Hc).
    rewrite (status_eq t st Hst) in Ho. injection Ho as Ho. destruct Hc as [?|(_ & Hne & _)]; congruence.
  - cbn [collect]. set (i := schedule w step mod length tasks).
    assert (∃ task, tasks !! i = Some task) as [task Hi].
    { apply lookup_lt_is_Some. apply Nat.mod_upper_bound. intros Hz%length_zero_iff_nil. subst tasks.
      cbn in Hp. apply Permutation_nil in Hp as ->. destruct Hy as (_ & _ & _ & _ & st & Hst & Hc).
      rewrite (status_eq t st Hst) in Ho. injection Ho as Ho. destruct Hc as [?|(_ & Hne & _)]; congruence. }
    rewrite Hi. destruct (pending task) as [|e effects] eqn:Ep.
    + destruct (proj1 (Forall_forall _ _) Ht _ (list_elem_of_lookup_2 _ _ _ Hi)) as (verdict & Hout & Hyes & Hbud).
      rewrite Hout, Hw.
      assert (task_agent task :: (task_agent <$> base.delete i tasks) ≡ₚ rest) as Hp'.
      { rewrite <- Hp. symmetry.
        exact (fmap_Permutation task_agent _ _ (delete_Permutation tasks i task Hi)). }
      assert (yes_so_far t text (task_agent task :: (task_agent <$> base.delete i tasks))) as Hy'
        by by eapply yes_so_far_perm.
      destruct (approve_open sql_length t text _ _ verdict sql_short Hyes Hbud Hy' Ho)
        as (t1 & evs & s & -> & Hy1 & _ & [[-> Hs]|[-> Hs]]).
      * by eexists _, _, _, _.
      * eapply IH; [|reflexivity|by apply Forall_delete|exact Hy1|done].
        pose proof (work_delete tasks i task Hi). lia.
    + pose proof (work_insert tasks i task e effects Hi Ep).
      eapply IH; [lia| |apply Forall_insert; [done|]|exact Hy|done].
      * rewrite list_fmap_insert. simpl. rewrite list_insert_id; [done|].
        by rewrite list_lookup_fmap, Hi.
      * destruct (proj1 (Forall_forall _ _) Ht _ (list_elem_of_lookup_2 _ _ _ Hi)) as (verdict & ? & ? & ?).
        by exists verdict.
Qed.

Lemma collect_turn w fuel step (tasks : list (Task Num)) t log failure :
  turn_id (collect sql_length w fuel step tasks t log failure).1.1 = turn_id t.
Proof.
  revert step tasks t log failure. induction fuel as [|fuel IH]; intros step tasks t log failure; [done|].
  cbn [collect]. destruct (tasks !! _) as [task|]; [|done].
  destruct (pending task); [|apply IH]. destruct (task_outcome task) as [[verdict|e]|]; [|apply IH..].
  destruct (record _ _ _ t) as [[t' evs] r] eqn:Er. apply record_static in Er as (Hid & _).
  destruct r as [[| |]|]; [by rewrite IH|done..].
Qed.

Lemma finish_reached fresh t text rest :
  yes_so_far t text rest → Turn.status t = Some Reached → text ≠ "" →
  ∃ t' ledger events, finish blake3 fresh t PromptLedger.new = (t', ledger, events, Ok fresh) ∧
    turn_id t' = turn_id t.
Proof.
  intros (_ & Ha & Hf & _) Hs Hne. unfold finish. rewrite Hf, Hs, Ha, bool_decide_eq_false_2 by done.
  rewrite segment_text_ok. set (segment := Segment.mk _ _ _).
  assert (fresh ∉ ids PromptLedger.new) as Hfresh by apply not_elem_of_nil.
  rewrite (proj2 (append_Ok blake3 PromptLedger.new segment _ _) (conj Hfresh (conj eq_refl eq_refl))).
  by eexists _, _, _.
Qed.

Lemma verdict_within vote confidence reason evidence v :
  Verdict.new vote confidence reason evidence = Ok v → Verdict.within_budget v.
Proof.
  unfold Verdict.new, Verdict.within_budget. intros Hv. repeat case_match; to_prop; simplify_eq/=; lia.
Qed.

Lemma parsed_within text verdict : parse_verdict from_wire text = Ok verdict → Verdict.within_budget verdict.
Proof.
  unfold parse_verdict. intros (json & _ & Hv)%result_bind_Ok.
  apply result_bind_Ok in Hv as (wire & _ & Hv). apply result_bind_Ok in Hv as (vote & _ & Hv).
  apply result_bind_Ok in Hv as (confidence & _ & Hv). apply map_err_Ok in Hv. by eapply verdict_within.
Qed.
End unanimous.

(** C13. A cohort that agrees is heard, in whatever order.  When the hooks let the turn pass,
    the database works and no task panics, a proposal that ends its turn with a text and
    validators who each come back with a yes lead to that text as the answer - under every
    schedule of the validators, for every cohort of two and more. *)
Theorem unanimous_cohort_answers {Num : Type} (from_wire : list byte → option WireVerdict)
    (sql_length : string → nat) (blake3 : list byte → list byte) (CT VT WT : Type)
    (HC : Table CT Id ClaimRow.t) (HV : Table VT (Id * Id) unit) (HW : Table WT (Id * Id) VoteRow.t)
    (LC : TableLaws CT Id ClaimRow.t) (LV : TableLaws VT (Id * Id) unit)
    (LW : TableLaws WT (Id * Id) VoteRow.t)
    (T : Terminal) (hooks : Hook.Registry.t) (to_string : Event.t → option (list byte))
    (path home : option (list byte)) (run : Spawn → Run) (backend : Backend Num) (w : World)
    (config : Config.t) (turn_count : N) (task : list byte) (tier : Tier) (k : nat)
    (t : turn CT VT WT) (events : list Event.t) (completion : Completion.t Num) (answer : list byte)
    (Hsql : ∀ s, sql_length s ≤ String.length s)
    (Hplan : plan_turn config (estimate_tier task) = Some (tier, k)) (Hk : 2 ≤ k)
    (Hfresh : Inj (=) (=) (fresh_agent w))
    (Hhooks : ∀ point event, (fire_hooks (Num := Num) hooks to_string path home run point event turn_count).2 = Ok false)
    (Hopen : store_opens w = true) (Hvotes : ∀ a, votes w a = true) (Hpanics : ∀ a, panics w a = None)
    (Hstart : start_shared sql_length (publishes w) (fresh_turn w) (fresh_claim w) (clock w) ∅
      (Db.mk t_empty t_empty t_empty) (text_of task) (agents_of w k) = Ok (t, events))
    (Hproposal : (send_with_retry backend Proposer (provider_request backend task)).2 = Ok completion)
    (Hanswer : terminal_text completion = Ok answer) (Htext : text_of answer ≠ "")
    (Hyes : ∀ a, a ∈ validators_of (agents_of w k) → ∃ verdict,
      judges from_wire backend (validation_prompt task answer) a verdict ∧ Verdict.vote verdict = Yes) :
  (execute_turn_with_backend (CT := CT) (VT := VT) (WT := WT) from_wire sql_length blake3 hooks to_string
     path home run config backend w turn_count task).2 = Ok (mkResult 0%N answer (fresh_turn w)).
Proof.
  unfold execute_turn_with_backend. rewrite Hplan.
  pose proof (Hhooks TurnStart (Event.TurnStarted (hook_turn w))) as Hh.
  destruct (fire_hooks _ _ _ _ _ TurnStart _ _) as [started stop]. simpl in Hh. subst stop.
  rewrite Hopen. cbn [negb]. rewrite Hstart.
  set (agents := agents_of w k) in *.
  assert (NoDup agents) as Hnd by (apply NoDup_fmap_2; [done|apply NoDup_seq]).
  assert (length agents = k) as Hlen by (unfold agents, agents_of; by rewrite length_fmap, length_seq).
  destruct agents as [|proposer others] eqn:Eagents; [simpl in Hlen; lia|].
  assert (others ≠ []) as Hne by (intros ->; simpl in Hlen; lia).
  pose proof (agree_empty (CT := CT) (VT := VT) (WT := WT)) as Hempty.
  destruct (inv_start _ _ _ _ _ _ _ _ _ _ _ Hempty Hstart) as (Hinv & Hse & _ & Hid & Hans & Hst & _).
  pose proof (start_yes_so_far _ _ _ _ _ _ _ _ _ _ _ _ (text_of answer) Hempty Hnd Hne Hstart) as Hy.
  unfold run_proposal. cbn [hd].
  destruct (send_with_retry backend Proposer _) as [asked proposed]. simpl in Hproposal. subst proposed.
  rewrite Hanswer.
  assert (record sql_length true (PeerAnswer.proposal proposer (text_of answer)) t =
    (with_answer (text_of answer) t, [], Ok Collecting)) as ->.
  { unfold record, is_first. rewrite Hse, Hans. simpl.
    rewrite (bool_decide_eq_true_2 (Some proposer = Some proposer)) by done. simpl.
    by rewrite bool_decide_eq_false_2. }
  unfold judge, collect_validations.
  set (tasks := tasks_of from_wire backend w task answer (proposer :: others)).
  assert (validators_of (proposer :: others) = others) as Hvalidators by (destruct others; done).
  assert (task_agent <$> tasks ≡ₚ others) as Hagents.
  { unfold tasks, tasks_of. rewrite Hvalidators. generalize others as l. clear.
    induction l as [|a l IH]; [done|]. cbn. rewrite task_agent_of. by f_equiv. }
  assert (Forall approves tasks) as Happrove.
  { apply Forall_fmap, Forall_forall. intros a Ha. cbn [compose].
    destruct (Hyes a Ha) as (verdict & (c & text & Hsend & Hterm & Hparse) & Hv).
    exists verdict. split_and!; [|done|by eapply parsed_within].
    unfold validator_task. destruct (send_with_retry backend (Validator a) _) as [effects sent].
    simpl in Hsend. subst sent. rewrite Hpanics. cbn [task_outcome]. rewrite Hterm. simpl. by rewrite Hparse. }
  destruct (collect_unanimous sql_length Hsql w (work tasks) 0 tasks (with_answer (text_of answer) t) [] None
    (text_of answer) others Hvotes (le_n _) Hagents Happrove Hy Hst)
    as (t' & log' & failure' & rest' & Hc & Hy' & Hr).
  pose proof (collect_turn sql_length w (work tasks) 0 tasks (with_answer (text_of answer) t) [] None) as Hid'.
  rewrite Hc in Hid' |- *. simpl in Hid'.
  destruct (finish_reached blake3 (fresh_segment w) t' (text_of answer) rest' Hy' Hr Htext)
    as (t2 & ledger & sealed & Hfin & Hid2). rewrite Hfin.
  pose proof (Hhooks TurnEnd (Event.TurnCompleted (turn_id t2))) as Hh.
  destruct (fire_hooks _ _ _ _ _ TurnEnd _ _) as [stopped stop]. simpl in Hh |- *. subst stop. simpl.
  by rewrite Hid2, Hid', Hid.
Qed.

(** ** Retries *)

Section retries.
Context {Num : Type} (backend : Backend Num) (who : Caller) (request : Request.t Num).

(** Attempt [m] failed with what is worth another try, [d] milliseconds later. *)
Definition retried (m : nat) (d : N) : Prop :=
  ∃ e, attempt_answer backend who request m = Err e ∧ retry_delay e m = Some d.

(** What is worth another try after attempt [m], and the wait: a rate limit of at most
    thirty seconds, and a failure of the transport, twice as long each time. *)
Definition worth_retrying (e : LlmError) (m : nat) (d : N) : Prop :=
  (∃ provider, e = RateLimited provider d ∧ (d ≤ 30000)%N) ∨
  (∃ provider detail, e = Transport provider detail ∧ d = (250 * 2 ^ N.of_nat (m - 1))%N).

Lemma retry_delay_worth e m d : 1 ≤ m ≤ 2 → retry_delay e m = Some d ↔ worth_retrying e m d.
Proof.
  intros Hm. unfold worth_retrying. destruct e; simpl; try (split; [done|by intros [(? & [=] & _)|(? & ? & [=] & _)]]).
  - destruct (N.leb_spec retry_after_ms MAX_RATE_LIMIT_DELAY).
    + split; [intros [= <-]; left; by eexists|]. intros [(p & [= -> ->] & _)|(? & ? & [=] & _)]. done.
    + split; [done|]. intros [(p & [= -> ->] & Hd)|(? & ? & [=] & _)]. unfold MAX_RATE_LIMIT_DELAY in *. lia.
  - replace ((m - 1) `min` 8) with (m - 1) by lia. split.
    + intros [= <-]. right. by eexists _, _.
    + intros [(? & [=] & _)|(? & ? & _ & ->)]. done.
Qed.

Lemma retry_delay_not_worth e m : 1 ≤ m ≤ 2 → retry_delay e m = None → ∀ d, ¬ worth_retrying e m d.
Proof. intros Hm He d Hd%retry_delay_worth; [|done]. congruence. Qed.

(** The effects of attempts that waited [delays]. *)
Definition attempts (delays : list N) : list (Effect Num) :=
  concat ((λ d, [Asked who request; Slept d]) <$> delays) ++ [Asked who request].

Lemma send_attempts_spec more attempt :
  let '(effects, r) := send_attempts backend who request more attempt in
  ∃ delays, length delays ≤ more ∧ effects = attempts delays ∧
    r = attempt_answer backend who request (attempt + length delays) ∧
    (∀ i d, delays !! i = Some d → retried (attempt + i) d) ∧
    (∀ e, r = Err e → length delays = more ∨ retry_delay e (attempt + length delays) = None).
Proof.
  revert attempt. induction more as [|more IH]; intros attempt; cbn [send_attempts];
    destruct (attempt_answer backend who request attempt) as [completion|e] eqn:Ea.
  1-3: exists []; simpl; rewrite Nat.add_0_r, Ea; split_and!; done || lia || (intros; by left) || done.
  destruct (retry_delay e attempt) as [d|] eqn:Ed.
  - specialize (IH (S attempt)). destruct (send_attempts _ _ _ more (S attempt)) as [effects r].
    destruct IH as (delays & Hlen & -> & -> & Hr & He). exists (d :: delays). simpl.
    rewrite Nat.add_succ_r. split_and!; [lia|done|done| |].
    + intros [|i] d' Hi; simplify_eq/=; [rewrite Nat.add_0_r; by exists e|].
      rewrite Nat.add_succ_r. by apply Hr.
    + intros e' E'. destruct (He e' E') as [->|?]; [by left|by right].
  - exists []. simpl. rewrite Nat.add_0_r, Ea. split_and!; [lia|done|done|done|].
    intros e' [= <-]. by right.
Qed.

Lemma retry_delay_bound e m d : 1 ≤ m ≤ 2 → retry_delay e m = Some d → (d ≤ MAX_RATE_LIMIT_DELAY)%N.
Proof.
  intros Hm. destruct e; simpl; try done.
  - case_match eqn:El; [|done]. intros [= <-]. by apply N.leb_le.
  - intros [= <-]. assert (m = 1 ∨ m = 2) as [->| ->] by lia; vm_compute; done.
Qed.
End retries.

(** C39. A request is tried at most three times, and waits at most a minute.  What comes back
    is the answer of the last attempt; every attempt before it failed with a rate limit of
    at most thirty seconds, waited out, or with a failure of the transport, waited a
    quarter of a second for and then half a second; and a failure comes back only from the
    third attempt or when it is neither.  No wait is longer than thirty seconds. *)
Theorem retry_bounded {Num : Type} (backend : Backend Num) (who : Caller) (request : Request.t Num) :
  let '(effects, r) := send_with_retry backend who request in
  ∃ delays, length delays < MAX_PROVIDER_ATTEMPTS ∧
    effects = attempts who request delays ∧
    r = attempt_answer backend who request (1 + length delays) ∧
    (∀ i d, delays !! i = Some d → retried backend who request (1 + i) d ∧ (d ≤ 30000)%N ∧
       ∃ e, attempt_answer backend who request (1 + i) = Err e ∧ worth_retrying e (1 + i) d) ∧
    (∀ e, r = Err e → 1 + length delays = MAX_PROVIDER_ATTEMPTS ∨
       (retry_delay e (1 + length delays) = None ∧ ∀ d, ¬ worth_retrying e (1 + length delays) d)).
Proof.
  unfold send_with_retry. pose proof (send_attempts_spec backend who request 2 1) as Hs.
  change (MAX_PROVIDER_ATTEMPTS - 1) with 2. change MAX_PROVIDER_ATTEMPTS with 3.
  destruct (send_attempts _ _ _ 2 1) as [effects r]. destruct Hs as (delays & Hlen & He & Hr & Hd & Hf).
  exists delays. split_and!; [lia|done|done| |].
  - intros i d Hi. pose proof (Hd i d Hi) as Hret. split; [done|]. destruct Hret as (e & He' & Hdelay).
    apply lookup_lt_Some in Hi. split; [apply (retry_delay_bound e (1 + i) d); [lia|done]|].
    exists e. split; [done|]. apply retry_delay_worth; [lia|done].
  - intros e E. destruct (Hf e E) as [->|Hn]; [by left|].
    destruct (decide (length delays = 2)) as [->|]; [by left|]. right. split; [done|].
    apply retry_delay_not_worth; [lia|done].
Qed.

(** ** The tier of a task *)

(** A task's tier is exactly its evidence.  A path through a sensitive area asks for
    E4, two or more paths for E2, one path or a word of change for E1, and anything else
    is answered alone. *)
Theorem tier_of_task_exact (task : list byte) :
  let paths := task_paths task in
  estimate_tier task =
    if AreaFlags.sensitive_area (AreaFlags.of_paths (text_of <$> paths)) then E4
    else if 2 <=? length paths then E2
    else if task_is_mutating task || (1 <=? length paths) then E1
    else E0.
Proof.
  intros paths. unfold estimate_tier. fold paths. unfold estimate, AnchorBand.of_.
  cbn [Signals.repeat_failures Signals.active_findings Signals.blast Signals.churn Signals.anchors
    Signals.reversibility].
  destruct (AreaFlags.of_paths (text_of <$> paths)) as [sensitive force] eqn:Ea.
  assert (force = false) as -> by (unfold AreaFlags.of_paths in Ea; by injection Ea).
  cbn [AreaFlags.sensitive_area AreaFlags.force_full].
  destruct (length paths) as [|[|n]] eqn:El.
  - destruct sensitive, (task_is_mutating task); reflexivity.
  - destruct sensitive, (task_is_mutating task); reflexivity.
  - destruct (Nat.ltb_spec 1 (S (S n))); [|lia]. cbn [Nat.leb].
    destruct (Nat.eqb_spec (S (S n) `min` 10) 0); [lia|].
    destruct (S (S n) `min` 10 <=? 4); destruct sensitive, (task_is_mutating task); reflexivity.
Qed.

Example tiers :
  estimate_tier (bytes "explain") = E0 ∧ estimate_tier (bytes "fix bug") = E1 ∧
  estimate_tier (bytes "review src/lib.rs") = E1 ∧
  estimate_tier (bytes "compare src/lib.rs tests/lib.rs") = E2 ∧
  estimate_tier (bytes "fix src/auth/session.rs") = E4.
Proof. vm_compute. split_and!; reflexivity. Qed.

(** ** A run over small tables *)

Definition a_world : World :=
  mkWorld (λ i, 10 + N.of_nat i)%N 1 2 3 4 (Some 5%Z) true true (λ _, true) (λ _, None) Datatypes.id.

Definition a_completion : Completion.t unit :=
  Completion.end_turn (bytes "answer") None (Thinking.mk 0).

Definition a_backend : Backend unit :=
  mkBackend ProviderKind.OpenAI (bytes "m") (Thinking.mk 0) (λ _ _ _, Some (Ok a_completion)).

Definition yes_wire (_ : list byte) : option WireVerdict :=
  Some (mkWire (bytes "yes") (bytes "high") (bytes "fine")).

Definition a_config : Config.t := Config.mk 0 16 Ask 80 ∅ [] ∅.

Definition no_event (_ : Event.t) : option (list byte) := None.
Definition no_run (_ : Spawn) : Run := Killed.

#[export] Instance a_world_fresh : Inj (=) (=) (fresh_agent a_world).
Proof. intros i j. unfold a_world. cbn [fresh_agent]. lia. Qed.

Abbreviation run_small wire task :=
  (execute_turn_with_backend (Num := unit) (CT := gmap N ClaimRow.t) (VT := gmap (N * N) unit)
     (WT := gmap (N * N) VoteRow.t) wire String.length Datatypes.id [] no_event None None no_run
     a_config a_backend a_world 0 task).

Lemma answer_needs_quorum_witness :
  ∃ log r k, run_small yes_wire (bytes "fix bug") = (log, Ok r) ∧ result_answer r = bytes "answer" ∧
    agreed yes_wire a_backend (bytes "fix bug") (agents_of a_world k) (result_answer r).
Proof.
  destruct (run_small yes_wire (bytes "fix bug")) as [log [r|e]] eqn:E; [|vm_compute in E; discriminate].
  destruct (answer_needs_quorum yes_wire String.length Datatypes.id [] no_event None None no_run a_backend a_world
    a_config 0 (bytes "fix bug") log r a_world_fresh E) as (tier & k & _ & Hagreed & _).
  exists log, r, k. split; [reflexivity|]. split; [|exact Hagreed].
  assert (match (run_small yes_wire (bytes "fix bug")).2 with
          | Ok r => bool_decide (result_answer r = bytes "answer") | Err _ => false end = true) as Hb
    by (vm_compute; reflexivity).
  rewrite E in Hb. exact (bool_decide_eq_true_1 _ Hb).
Defined.

Definition small_start :=
  start_shared (CT := gmap N ClaimRow.t) (VT := gmap (N * N) unit) (WT := gmap (N * N) VoteRow.t)
    String.length true 2%N 3%N (Some 5%Z) ∅ (Db.mk t_empty t_empty t_empty) (text_of (bytes "fix bug"))
    (agents_of a_world 2).

Lemma unanimous_cohort_answers_witness :
  (run_small yes_wire (bytes "fix bug")).2 = Ok (mkResult 0%N (bytes "answer") 2%N).
Proof.
  destruct small_start as [[t events]|e] eqn:Es; [|vm_compute in Es; discriminate].
  assert (plan_turn a_config (estimate_tier (bytes "fix bug")) = Some (E1, 2)) as Hplan by (vm_compute; reflexivity).
  assert (∀ s, String.length s ≤ String.length s) as Hsql by (intros s; apply le_n).
  assert (text_of (bytes "answer") ≠ "") as Ht by (intros Hx; discriminate Hx).
  refine (unanimous_cohort_answers yes_wire String.length Datatypes.id _ _ _ _ _ _ _ _ _ byte_cells [] no_event None None
    no_run a_backend a_world a_config 0 (bytes "fix bug") E1 2 t events a_completion (bytes "answer") Hsql Hplan
    (le_n 2) a_world_fresh _ eq_refl (λ _, eq_refl) (λ _, eq_refl) Es eq_refl eq_refl Ht _).
  - intros point event. reflexivity.
  - intros a _. exists (Verdict.mk Yes High "fine" None). split; [|reflexivity].
    exists a_completion, (bytes "answer"). split; [reflexivity|]. split; [reflexivity|]. vm_compute. reflexivity.
Defined.

(** ** The session of a run *)

Section stored.
Context {Num : Type} (from_wire : list byte → option WireVerdict).
Context (sql_length : string → nat) (blake3 : list byte → list byte).
Context {CT VT WT : Type}
  `{Table CT Id ClaimRow.t} `{Table VT (Id * Id) unit} `{Table WT (Id * Id) VoteRow.t}.
Context `{Terminal} (hooks : Hook.Registry.t) (to_string : Event.t → option (list byte)).
Context (path home : option (list byte)) (run : Spawn → Run) (backend : Backend Num) (w : World).
Context {V : Type} `{EqDecision V} (is_object : V → bool) (role : V → option (list byte)).
Context (codec : Codec V) (show_id : Id → string).

Abbreviation turn_of config prior task :=
  (execute_turn_with_backend (CT := CT) (VT := VT) (WT := WT) from_wire sql_length blake3 hooks to_string path
     home run config backend w prior task).

Lemma opened_lengths read directory fresh resume_id fs session prior resumed :
  opened is_object role codec show_id read directory fresh resume_id fs = Ok (session, prior, resumed) →
  length (turn_ids session) = length (bodies session) ∧ prior = N.of_nat (length (turn_ids session)).
Proof.
  unfold opened. destruct resume_id as [id|]; [|by intros [= <- <- <-]].
  intros (found & Hf & Hs)%result_bind_Ok. apply map_err_Ok in Hf.
  apply result_bind_Ok in Hs as (s & Hs & [= -> <- <-]). apply ok_or_Ok in Hs as ->.
  unfold resume in Hf. apply result_bind_Ok in Hf as (pairs & _ & [= Hp]).
  apply fmap_Some in Hp as (l & _ & ->). simpl. by rewrite !length_fmap.
Qed.

(** C25. Only an answered turn is stored, behind the turns that were there.  A run that fails
    before its turn has an answer leaves the session's file as it is; one that succeeds
    answers for the session it resumed or began, and that session then resumes with the
    turns and bodies it had and the new ones behind them. *)
Theorem session_grows_by_the_answer (io : SaveIo.t) (read : bool) (directory : string) (fresh_session : Id)
    (config : Config.t) (resume_id : option Id) (task : list byte) (fs : Fs.t)
    (LC : CodecLaws codec) (LI : Inj (=) (=) show_id) :
  let e := execute_turn_resuming_with_backend (CT := CT) (VT := VT) (WT := WT) from_wire sql_length blake3
    hooks to_string path home run is_object role codec show_id io read directory fresh_session config backend w
    resume_id task fs in
  (saving e ≠ [] → ∃ session prior resumed r,
     opened is_object role codec show_id read directory fresh_session resume_id fs = Ok (session, prior, resumed) ∧
     (turn_of config prior task).2 = Ok r) ∧
  (∀ r, executed e = Ok r → ∃ session prior resumed,
     opened is_object role codec show_id read directory fresh_session resume_id fs = Ok (session, prior, resumed) ∧
     result_session r = Session.id session ∧
     (is_nil (result_turn r) = false → result_turn r ∉ turn_ids session →
      resume is_object role codec show_id true directory (Session.id session) (default fs (last (saving e))) =
        Ok (Some (mkSession (Session.id session) (turn_ids session ++ [result_turn r])
                    (bodies session ++ [result_answer r]))))).
Proof.
  intros e. unfold e, execute_turn_resuming_with_backend.
  destruct (opened _ _ _ _ _ _ _ _ _) as [[[session prior] resumed]|err] eqn:Eo; [|done].
  destruct (opened_lengths _ _ _ _ _ _ _ _ Eo) as [Hlen _].
  destruct (fire_hooks _ _ _ _ _ SessionStart _ _) as [hello [stop|err]]; [|done].
  destruct (execute_turn_with_backend _ _ _ _ _ _ _ _ _ _ _ _ _) as [log [r|err]] eqn:Et; [|done].
  destruct (record_turn_with_body (result_turn r) (result_answer r) session) as [ok session'] eqn:Er.
  assert (Session.id session' = Session.id session) as Hid.
  { unfold record_turn_with_body in Er. by case_match; simplify_eq/=. }
  destruct (save_session _ _ _ _ _ _ session' fs) as [states [[]|err]] eqn:Es.
  - destruct (fire_hooks _ _ _ _ _ SessionEnd _ _) as [bye ended] eqn:Ee. cbn [saving executed].
    split; [intros _; exists session, prior, resumed, r; by rewrite Et|].
    intros r' (b & -> & [= <-])%result_bind_Ok. exists session, prior, resumed. cbn [result_session result_turn
      result_answer]. split_and!; [done|done|]. intros Hnil Hnew.
    unfold record_turn_with_body in Er. rewrite Hnil, bool_decide_eq_false_2 in Er by done. simpl in Er.
    injection Er as _ <-. unfold save_session in Es. cbn [Session.id turn_ids bodies] in Es.
    apply save_spec in Es as [_ Hs]; [|done..].
    apply saved_load in Hs as [Hl _]; [|done..]. unfold resume. rewrite Hl. simpl.
    rewrite combine_fst, combine_snd by (rewrite !length_app; simpl; lia). done.
  - cbn [saving executed]. split; [intros _; exists session, prior, resumed, r; by rewrite Et|done].
Qed.

(** A hook that fails fails the turn: it is not only reported. *)
Lemma failing_hook_fails_turn config turn_count task tier k e :
  plan_turn config (estimate_tier task) = Some (tier, k) →
  (Hook.fire to_string path home run TurnStart
     (Hook.mkContext (Event.TurnStarted (hook_turn w)) turn_count) hooks).2 = Err e →
  (turn_of config turn_count task).2 = Err (HookFailed e).
Proof.
  intros Hp He. unfold execute_turn_with_backend, fire_hooks. rewrite Hp.
  destruct (Hook.fire _ _ _ _ _ _ _) as [started outcome]. simpl in He. by subst outcome.
Qed.

(** A stop asked for at the end of a turn comes before the session is written. *)
Lemma end_stop_saves_nothing io read directory fresh_session config resume_id task fs session prior resumed :
  opened is_object role codec show_id read directory fresh_session resume_id fs = Ok (session, prior, resumed) →
  (turn_of config prior task).2 = Err (HookStopped TurnEnd) →
  saving (execute_turn_resuming_with_backend (CT := CT) (VT := VT) (WT := WT) from_wire sql_length blake3
    hooks to_string path home run is_object role codec show_id io read directory fresh_session config backend w
    resume_id task fs) = [].
Proof.
  intros Ho Ht. unfold execute_turn_resuming_with_backend. rewrite Ho.
  destruct (fire_hooks _ _ _ _ _ SessionStart _ _) as [hello [stop|err]]; [|done].
  destruct (execute_turn_with_backend _ _ _ _ _ _ _ _ _ _ _ _ _) as [log turned]. simpl in Ht. by subst turned.
Qed.
End stored.

(** The watcher subscribes behind the proposal: what the proposal cost is on no line. *)
Lemma proposal_cost_unseen agent cost :
  let usage := Event.UsageReported agent 0 0 1000 1000 cost in
  FrameState.spend (frame_fold (watched [usage] []) FrameState.default) = 0%Z.
Proof. reflexivity. Qed.

Definition stored_run : Executed (Num := unit) :=
  execute_turn_resuming_with_backend (CT := gmap N ClaimRow.t) (VT := gmap (N * N) unit)
    (WT := gmap (N * N) VoteRow.t) yes_wire String.length Datatypes.id [] no_event None None no_run
    any_object no_role bit_codec pretty (SaveIo.perfect N.of_nat) true "/d" 7 a_config a_backend a_world None
    (bytes "fix bug") Fs.empty.

Lemma session_grows_by_the_answer_witness :
  executed stored_run = Ok (mkResult 7%N (bytes "answer") 2%N) ∧
  resume any_object no_role bit_codec pretty true "/d" 7 (default Fs.empty (last (saving stored_run))) =
    Ok (Some (mkSession 7 [2%N] [bytes "answer"])).
Proof.
  assert (executed stored_run = Ok (mkResult 7%N (bytes "answer") 2%N)) as Hr by (vm_compute; reflexivity).
  split; [exact Hr|].
  destruct (session_grows_by_the_answer yes_wire String.length Datatypes.id [] no_event None None no_run a_backend
    a_world any_object no_role bit_codec pretty (SaveIo.perfect N.of_nat) true "/d" 7 a_config None (bytes "fix bug")
    Fs.empty bit_codec_laws pretty_ids) as [_ Hok].
  destruct (Hok _ Hr) as (session & prior & resumed & Ho & _ & Hresume).
  injection Ho as <- _ _. apply Hresume; [reflexivity|apply not_elem_of_nil].
Defined.
