(* ===== verification/Native.v ===== *)
(** * The safe side of the native code: [supra_ffi/src/{ansi,width,fd,process,pty}.rs]

    What the wrappers do with the answers of the C++ libraries and of the kernel: the
    conversions of styles and widths, the views into a token's fixed arrays, the two-phase
    writes, the iterators over tokens and clusters, the flags of descriptors and the opening
    of a terminal.  The libraries are parameters; no law of theirs is assumed unless a
    theorem names it.  Fields of a raw structure keep their numbers, a [u8] array its length. *)

From Stdlib Require Import Ascii.
From S2P Require Import Prelude Text Sealing Utf8 Tui.

(** ** Styles: [ansi.rs] *)

Definition ANSI_COLOR_DEFAULT : N := 0.
Definition ANSI_COLOR_INDEXED : N := 1.
Definition ANSI_COLOR_RGB : N := 2.

Record RawColor := mkRawColor { color_kind : N; color_index : N; color_r : N; color_g : N; color_b : N }.

Inductive Color := Default | Indexed (index : N) | Rgb (r g b : N).

#[export] Instance Color_eq_dec : EqDecision Color.
Proof. solve_decision. Defined.

Definition color_from_raw (raw : RawColor) : Color :=
  if (color_kind raw =? ANSI_COLOR_INDEXED)%N then Indexed (color_index raw)
  else if (color_kind raw =? ANSI_COLOR_RGB)%N then Rgb (color_r raw) (color_g raw) (color_b raw)
  else Default.

Definition color_to_raw (c : Color) : RawColor :=
  match c with
  | Default => mkRawColor ANSI_COLOR_DEFAULT 0 0 0 0
  | Indexed index => mkRawColor ANSI_COLOR_INDEXED index 0 0 0
  | Rgb r g b => mkRawColor ANSI_COLOR_RGB 0 r g b
  end.

Inductive Underline := NoUnderline | Single | Double | Curly | Dotted | Dashed.

Definition underline_from_raw (raw : N) : Underline :=
  match raw with
  | 1%N => Single | 2%N => Double | 3%N => Curly | 4%N => Dotted | 5%N => Dashed
  | _ => NoUnderline
  end.

Definition underline_to_raw (u : Underline) : N :=
  match u with
  | NoUnderline => 0 | Single => 1 | Double => 2 | Curly => 3 | Dotted => 4 | Dashed => 5
  end.

(** [Attrs] is its bits. *)
Module Attrs.
Definition BOLD : N := N.shiftl 1 0.
Definition DIM : N := N.shiftl 1 1.
Definition ITALIC : N := N.shiftl 1 2.
Definition BLINK : N := N.shiftl 1 3.
Definition INVERSE : N := N.shiftl 1 4.
Definition HIDDEN : N := N.shiftl 1 5.
Definition STRIKE : N := N.shiftl 1 6.
Definition OVERLINE : N := N.shiftl 1 7.
Definition empty : N := 0.
Definition contains (self other : N) : bool := (N.land self other =? other)%N.
Definition is_empty (self : N) : bool := (self =? 0)%N.
Definition bitor (self rhs : N) : N := N.lor self rhs.
End Attrs.

Record RawStyle := mkRawStyle {
  raw_attrs : N; raw_fg : RawColor; raw_bg : RawColor; raw_underline_color : RawColor;
  raw_underline : N; raw_hyperlink_open : N;
}.

Record Style := mkStyle {
  attrs : N; fg : Color; bg : Color; underline_color : Color; underline : Underline; hyperlink_open : bool;
}.

Definition style_from_raw (raw : RawStyle) : Style :=
  mkStyle (raw_attrs raw) (color_from_raw (raw_fg raw)) (color_from_raw (raw_bg raw))
    (color_from_raw (raw_underline_color raw)) (underline_from_raw (raw_underline raw))
    (negb (raw_hyperlink_open raw =? 0)%N).

Definition style_to_raw (s : Style) : RawStyle :=
  mkRawStyle (attrs s) (color_to_raw (fg s)) (color_to_raw (bg s)) (color_to_raw (underline_color s))
    (underline_to_raw (underline s)) (if hyperlink_open s then 1 else 0)%N.

(** ** Tokens *)

Definition ANSI_MAX_PARAMS : nat := 16.
Definition ANSI_MAX_SUBPARAMS : nat := 8.
Definition ANSI_MAX_PAYLOAD : nat := 256.
Definition ANSI_MAX_TRAILER : nat := 24.
Definition usize_max : N := 18446744073709551615.

Inductive TokenKind := TokenText | Control | Csi | Esc | Osc | Dcs | Apc | Partial | Malformed.

#[export] Instance TokenKind_eq_dec : EqDecision TokenKind.
Proof. solve_decision. Defined.

Definition kind_from_raw (raw : N) : TokenKind :=
  match raw with
  | 0%N => TokenText | 1%N => Control | 2%N => Csi | 3%N => Esc | 4%N => Osc | 5%N => Dcs
  | 6%N => Apc | 7%N => Partial | _ => Malformed
  end.

Record RawToken := mkRawToken {
  token_kind : N; token_offset : N; token_length : N; token_final : byte;
  token_intermediates : list byte; intermediate_count : nat;
  token_params : list Z; param_count : nat; token_params_dropped : N;
  token_subparams : list Z; subparam_index : list nat; subparam_count : list nat;
  token_payload : list byte; payload_len : nat; payload_full : N;
}.

(** The arrays of the structure have the lengths of their types. *)
Definition token_shaped (t : RawToken) : Prop :=
  length (token_intermediates t) = 2 ∧ length (token_params t) = ANSI_MAX_PARAMS ∧
  length (token_subparams t) = ANSI_MAX_SUBPARAMS ∧ length (subparam_index t) = ANSI_MAX_PARAMS ∧
  length (subparam_count t) = ANSI_MAX_PARAMS ∧ length (token_payload t) = ANSI_MAX_PAYLOAD.

(** [&l[..n]] and [&l[a..b]]: [None] where the program panics. *)
Definition slice_to {A} (n : nat) (l : list A) : option (list A) :=
  if n <=? length l then Some (take n l) else None.
Definition slice {A} (a b : nat) (l : list A) : option (list A) :=
  if (a <=? b) && (b <=? length l) then Some (drop a (take b l)) else None.

Definition kind (t : RawToken) : TokenKind := kind_from_raw (token_kind t).
Definition is_empty (t : RawToken) : bool := (token_length t =? 0)%N.
Definition intermediates (t : RawToken) : option (list byte) :=
  slice_to (intermediate_count t `min` length (token_intermediates t)) (token_intermediates t).
Definition params (t : RawToken) : option (list Z) :=
  slice_to (param_count t `min` length (token_params t)) (token_params t).
Definition params_dropped (t : RawToken) : bool := negb (token_params_dropped t =? 0)%N.

Definition subparams (index : nat) (t : RawToken) : option (list Z) :=
  shown ← params t;
  if length shown <=? index then Some []
  else
    start ← subparam_index t !! index;
    count ← subparam_count t !! index;
    let stop := (start + count) `min` length (token_subparams t) in
    if stop <=? start then Some [] else slice start stop (token_subparams t).

Definition payload (t : RawToken) : option (list byte) :=
  slice_to (payload_len t `min` length (token_payload t)) (token_payload t).

(** The span of the token in the buffer it was scanned from; [checked_add] and [get]. *)
Definition token_text (buffer : list byte) (t : RawToken) : option (list byte) :=
  let stop := (token_offset t + token_length t)%N in
  if (usize_max <? stop)%N then None
  else if (N.of_nat (length buffer) <? stop)%N then None
  else Some (drop (N.to_nat (token_offset t)) (take (N.to_nat stop) buffer)).

Inductive Eof := More | Final.

Definition eof_raw (e : Eof) : Z := match e with More => 0 | Final => 1 end.

Record RawTruncation := mkRawTruncation {
  prefix_len : nat; trunc_cells : nat; trunc_trailer : list byte; trailer_len : nat; truncated : N;
  style_at_cut_raw : RawStyle;
}.

Definition trailer (t : RawTruncation) : option (list byte) :=
  slice_to (trailer_len t `min` length (trunc_trailer t)) (trunc_trailer t).
Definition was_truncated (t : RawTruncation) : bool := negb (truncated t =? 0)%N.
Definition style_at_cut (t : RawTruncation) : Style := style_from_raw (style_at_cut_raw t).

(** [Truncation::render]. *)
Definition render (input out : list byte) (t : RawTruncation) : option (list byte) :=
  let prefix := prefix_len t `min` length input in
  head ← slice_to prefix input;
  tail ← trailer t;
  Some (out ++ head ++ tail).

(** ** Two-phase writes

    A library function is asked with no buffer for the length it needs, then with a buffer
    of that length.  It answers a length and what it wrote, never more than the buffer. *)
Definition writer := nat → nat * list byte.

Definition NUL : byte := ascii_of_nat 0.

(** The buffer of zeros behind a call that wrote [written]. *)
Definition filled (cap : nat) (written : list byte) : list byte :=
  take cap written ++ replicate (cap - length written) NUL.

Definition two_phase (native : writer) (out : list byte) : list byte :=
  let needed := (native 0).1 in
  if needed =? 0 then out
  else
    let '(written, bytes) := native needed in
    take (length out + written `min` needed) (out ++ filled needed bytes).

(** The library writes [text] and reports its length whatever the buffer is. *)
Definition writes (native : writer) (text : list byte) : Prop :=
  ∀ cap, native cap = (length text, take cap text).

(** ** The libraries *)

(** What [libsupra_ansi] answers; a result code is a number. *)
Class AnsiLibrary := mkAnsiLibrary {
  supra_style_default : RawStyle;
  supra_style_is_default : RawStyle → Z;
  supra_style_emit : RawStyle → writer;
  supra_style_emit_reset : RawStyle → writer;
  supra_style_apply : RawStyle → RawToken → RawStyle * Z;
  supra_style_apply_osc : RawStyle → RawToken → RawStyle * Z;
  scanner : Type;
  supra_scanner_init : scanner;
  supra_scanner_pending : scanner → Z;
  supra_scan : scanner → list byte → Z → scanner * Z * RawToken;
  supra_strip : list byte → writer;
  supra_measure : list byte → Z → nat;
  supra_plan_truncate : list byte → nat → Z → RawTruncation;
  supra_plan_truncate_from : list byte → nat → Z → RawStyle → RawTruncation;
}.

(** What [libsupra_width] answers. *)
Class WidthLibrary := mkWidthLibrary {
  supra_utf8_decode : list byte → N * nat * Z;
  supra_utf8_encoded_len : N → nat;
  supra_wcwidth : N → Z → Z;
  supra_grapheme_next : list byte → nat;
  supra_grapheme_width : list byte → Z → Z * nat;
  supra_wcswidth : list byte → Z → nat;
  supra_width_measure : list byte → Z → nat * nat;
  supra_width_truncate : list byte → nat → Z → nat * nat;
  supra_width_validate : list byte → Z * nat;
  (** The buffer the pointer is to. *)
  supra_width_probe : list byte → Z → Z;
  supra_unicode_version : option (list byte);
}.

Definition ambiguous_raw (a : Ambiguous) : Z := match a with Narrow => 0 | Wide => 1 end.

Section ansi.
Context `{AnsiLibrary}.

Definition style_default : Style := style_from_raw supra_style_default.

Definition style_is_default (s : Style) : bool := (supra_style_is_default (style_to_raw s) =? 1)%Z.

Definition style_apply (token : RawToken) (s : Style) : Style * bool :=
  let '(raw, sgr) := supra_style_apply (style_to_raw s) token in
  let '(raw, osc) := supra_style_apply_osc raw token in
  (style_from_raw raw, (sgr =? 1)%Z || (osc =? 1)%Z).

Definition emit (s : Style) (out : list byte) : list byte := two_phase (supra_style_emit (style_to_raw s)) out.
Definition emit_reset (s : Style) (out : list byte) : list byte :=
  two_phase (supra_style_emit_reset (style_to_raw s)) out.

Definition is_pending (s : scanner) : bool := (supra_scanner_pending s =? 1)%Z.

Definition next_token (bytes : list byte) (eof : Eof) (s : scanner) : scanner * option RawToken :=
  let '(s, produced, raw) := supra_scan s bytes (eof_raw eof) in
  (s, if (produced =? 1)%Z then Some raw else None).

(** [Tokens]: the scanner and whether the terminal report was given. *)
Record Tokens := mkTokens { tokens_scanner : scanner; tokens_done : bool }.

Definition terminal (t : RawToken) : bool := is_empty t && bool_decide (kind t = Malformed).

Definition tokens_next (bytes : list byte) (eof : Eof) (it : Tokens) : Tokens * option RawToken :=
  if tokens_done it then (it, None)
  else
    let '(s, token) := next_token bytes eof (tokens_scanner it) in
    match token with
    | None => (mkTokens s false, None)
    | Some t => (mkTokens s (terminal t), Some t)
    end.

(** The tokens of one buffer; [None] when the fuel ran out. *)
Fixpoint tokens (fuel : nat) (bytes : list byte) (eof : Eof) (it : Tokens) : option (Tokens * list RawToken) :=
  match fuel with
  | 0 => None
  | S fuel =>
      match tokens_next bytes eof it with
      | (it, None) => Some (it, [])
      | (it, Some t) => p ← tokens fuel bytes eof it; Some (p.1, t :: p.2)
      end
  end.

Definition strip (bytes out : list byte) : list byte := two_phase (supra_strip bytes) out.
Definition ansi_measure (bytes : list byte) (a : Ambiguous) : nat := supra_measure bytes (ambiguous_raw a).
Definition plan_truncate (bytes : list byte) (max_cells : nat) (a : Ambiguous) : RawTruncation :=
  supra_plan_truncate bytes max_cells (ambiguous_raw a).
Definition plan_truncate_from (bytes : list byte) (max_cells : nat) (a : Ambiguous) (initial : Style) :
    RawTruncation :=
  supra_plan_truncate_from bytes max_cells (ambiguous_raw a) (style_to_raw initial).
End ansi.

(** ** Widths: [width.rs] *)

Inductive Width := NonPrintable | Zero | One | Two.

#[export] Instance Width_eq_dec : EqDecision Width.
Proof. solve_decision. Defined.

Definition WIDTH_NONPRINTABLE : Z := -1.

Definition width_from_raw (raw : Z) : Width :=
  if (raw =? WIDTH_NONPRINTABLE)%Z then NonPrintable
  else if (raw =? 0)%Z then Zero else if (raw =? 1)%Z then One else Two.

Definition cells (w : Width) : nat := match w with NonPrintable | Zero => 0 | One => 1 | Two => 2 end.

Record Decoded := mkDecoded { code_point : N; decoded_len : nat; decoded_valid : bool }.

Inductive Invalid := InvalidUtf8 (offset : nat) | HasNonPrintable (offset : nat).

Definition VALIDITY_VALID : Z := 0.
Definition VALIDITY_HAS_NONPRINTABLE : Z := 2.
Definition PROBE_MAX : nat := 64.

Record Cluster := mkCluster { cluster_bytes : list byte; cluster_cells : Width }.

Section width.
Context `{WidthLibrary}.

Definition decode (bytes : list byte) : Decoded :=
  let '(code_point, len, valid) := supra_utf8_decode bytes in mkDecoded code_point len (valid =? 1)%Z.

Definition encoded_len (code_point : N) : option nat :=
  let len := supra_utf8_encoded_len code_point in if 0 <? len then Some len else None.

Definition wcwidth (code_point : N) (a : Ambiguous) : Width :=
  width_from_raw (supra_wcwidth code_point (ambiguous_raw a)).

Definition cluster_len (bytes : list byte) : nat := supra_grapheme_next bytes.

Definition cluster_width (bytes : list byte) (a : Ambiguous) : Width * nat :=
  let '(raw, len) := supra_grapheme_width bytes (ambiguous_raw a) in (width_from_raw raw, len).

Definition wcswidth (bytes : list byte) (a : Ambiguous) : nat := supra_wcswidth bytes (ambiguous_raw a).
Definition width_measure (bytes : list byte) (a : Ambiguous) : nat * nat :=
  supra_width_measure bytes (ambiguous_raw a).
Definition width_truncate (bytes : list byte) (max_cells : nat) (a : Ambiguous) : nat * nat :=
  supra_width_truncate bytes max_cells (ambiguous_raw a).

Definition validate (bytes : list byte) : result unit Invalid :=
  let '(verdict, offset) := supra_width_validate bytes in
  if (verdict =? VALIDITY_VALID)%Z then Ok tt
  else if (verdict =? VALIDITY_HAS_NONPRINTABLE)%Z then Err (HasNonPrintable offset)
  else Err (InvalidUtf8 offset).

(** The buffer [glyph] is copied to the front of. *)
Definition probe_buffer (glyph : list byte) : list byte := glyph ++ replicate (PROBE_MAX - length glyph) NUL.

Definition probe (glyph : list byte) (a : Ambiguous) : option Width :=
  if bool_decide (glyph = []) || bool_decide (NUL ∈ glyph) then None
  else if PROBE_MAX <=? length glyph then None
  else match width_from_raw (supra_width_probe (probe_buffer glyph) (ambiguous_raw a)) with
       | NonPrintable => None
       | other => Some other
       end.

Definition unicode_version : list byte :=
  match supra_unicode_version with
  | Some text => if is_utf8 text then text else bytes "unknown"
  | None => bytes "unknown"
  end.

(** [Clusters::next], over what is left. *)
Definition clusters_next (a : Ambiguous) (rest : list byte) : list byte * option Cluster :=
  if bool_decide (rest = []) then (rest, None)
  else
    let '(width, len) := cluster_width rest a in
    if (len =? 0) || (length rest <? len) then ([], None)
    else (drop len rest, Some (mkCluster (take len rest) width)).

(** Every cluster takes a byte, so there are no more of them than bytes. *)
Fixpoint clusters_from (fuel : nat) (a : Ambiguous) (rest : list byte) : list Cluster :=
  match fuel with
  | 0 => []
  | S fuel =>
      match clusters_next a rest with
      | (_, None) => []
      | (rest, Some c) => c :: clusters_from fuel a rest
      end
  end.

Definition clusters (bytes : list byte) (a : Ambiguous) : list Cluster := clusters_from (S (length bytes)) a bytes.
End width.

(** ** Descriptors: [fd.rs] *)

Definition FD_CLOEXEC : Z := 1.

(** The descriptors of the process with their flags. *)
Abbreviation descriptors := (gmap Z Z).

(** [fcntl] answers a negative number for a descriptor that is not open. *)
Definition F_GETFD (fd : Z) (t : descriptors) : Z := default (-1)%Z (t !! fd).
Definition F_SETFD (fd flags : Z) (t : descriptors) : descriptors * Z :=
  match t !! fd with Some _ => (<[fd := flags]> t, 0%Z) | None => (t, (-1)%Z) end.

Definition cloexec_flag (fd : Z) (t : descriptors) : result bool unit :=
  let flags := F_GETFD fd t in
  if (flags <? 0)%Z then Err tt else Ok (negb (Z.land flags FD_CLOEXEC =? 0)%Z).

Definition set_cloexec (fd : Z) (cloexec : bool) (t : descriptors) : descriptors * result unit unit :=
  let flags := F_GETFD fd t in
  if (flags <? 0)%Z then (t, Err tt)
  else
    let flags := if cloexec then Z.lor flags FD_CLOEXEC else Z.land flags (Z.lnot FD_CLOEXEC) in
    let '(t, written) := F_SETFD fd flags t in
    (t, if (written <? 0)%Z then Err tt else Ok tt).

(** ** Process groups: [process.rs] *)

(** What [libc::kill] is called with, if it is. *)
Definition kill_process_group (pid : N) : option Z :=
  if (pid <=? 2147483647)%N && (0 <? pid)%N then Some (- Z.of_N pid)%Z else None.

(** ** Terminals: [pty.rs] *)

Record PtySize := mkPtySize { rows : N; cols : N }.

Definition default_size : PtySize := mkPtySize 24 80.

(** The descriptors of the process and the window of each terminal, by its master. *)
Record Kernel := mkKernel { fds : descriptors; windows : gmap Z PtySize }.

(** What the calls come back with; [ptsname] fills a buffer of 64 bytes. *)
Record PtyCalls := mkPtyCalls {
  openpt : option Z; granted : bool; unlocked : bool; ptsname : option (list byte);
  opened : list byte → option Z; sized : bool }.

Record Pty := mkPty { master : Z; slave : option Z }.

(** Opened with [O_CLOEXEC]. *)
Definition open_fd (fd : Z) (k : Kernel) : Kernel := mkKernel (<[fd := FD_CLOEXEC]> (fds k)) (windows k).

(** Dropping a [File]; a terminal ends with its master. *)
Definition close_fd (fd : Z) (k : Kernel) : Kernel :=
  mkKernel (base.delete fd (fds k)) (base.delete fd (windows k)).

Definition until_nul (buffer : list byte) : list byte :=
  take (default (length buffer) (Prelude.position NUL buffer)) buffer.

Definition slave_name (calls : PtyCalls) : result (list byte) unit :=
  let? buffer := ok_or (ptsname calls) tt in Ok (from_utf8_lossy (until_nul buffer)).

Definition resize (ok : bool) (size : PtySize) (p : Pty) (k : Kernel) : Kernel * result unit unit :=
  if ok then (mkKernel (fds k) (<[master p := size]> (windows k)), Ok tt) else (k, Err tt).

Definition size (p : Pty) (k : Kernel) : result PtySize unit := ok_or (windows k !! master p) tt.

(** Both ends are closed when the pair is dropped. *)
Definition drop_pty (p : Pty) (k : Kernel) : Kernel :=
  close_fd (master p) (match slave p with Some fd => close_fd fd k | None => k end).

Definition take_slave (p : Pty) (k : Kernel) : Pty * Kernel :=
  (mkPty (master p) None, match slave p with Some fd => close_fd fd k | None => k end).

Definition pty_open (calls : PtyCalls) (wanted : PtySize) (k : Kernel) : Kernel * result Pty unit :=
  match openpt calls with
  | None => (k, Err tt)
  | Some m =>
      let k := open_fd m k in
      let failed := (close_fd m k, Err tt) in
      if negb (granted calls) then failed
      else if negb (unlocked calls) then failed
      else match slave_name calls with
      | Err _ => failed
      | Ok name =>
          if bool_decide (NUL ∈ name) then failed
          else match opened calls name with
          | None => failed
          | Some s =>
              let p := mkPty m (Some s) in
              match resize (sized calls) wanted p (open_fd s k) with
              | (k, Err e) => (drop_pty p k, Err e)
              | (k, Ok _) => (k, Ok p)
              end
          end
      end
  end.

(** ** Conversions *)

Lemma color_roundtrip c : color_from_raw (color_to_raw c) = c.
Proof. by destruct c. Qed.

Lemma underline_roundtrip u : underline_from_raw (underline_to_raw u) = u.
Proof. by destruct u. Qed.

(** What the library's header promises of a style: no field that the kind does not use. *)
Definition color_canonical (raw : RawColor) : Prop := color_to_raw (color_from_raw raw) = raw.

Definition style_canonical (raw : RawStyle) : Prop :=
  color_canonical (raw_fg raw) ∧ color_canonical (raw_bg raw) ∧ color_canonical (raw_underline_color raw) ∧
  (raw_underline raw ≤ 5)%N ∧ (raw_hyperlink_open raw ≤ 1)%N.

(** Styles cross the boundary whole.  Every style comes back from its raw structure, and
    every raw structure without stray bits from its style; the style a structure gives
    depends on nothing else, whatever its bytes are. *)
Theorem style_roundtrip :
  (∀ s, style_from_raw (style_to_raw s) = s) ∧
  (∀ raw, style_canonical raw ↔ style_to_raw (style_from_raw raw) = raw).
Proof.
  split.
  - intros [a f b uc u h]. unfold style_from_raw, style_to_raw. cbn. rewrite !color_roundtrip, underline_roundtrip.
    by destruct h.
  - intros [a f b uc u h]. unfold style_canonical, color_canonical, style_to_raw, style_from_raw. cbn. split.
    + intros (-> & -> & -> & Hu & Hh). f_equal.
      * assert (u ∈ [0; 1; 2; 3; 4; 5]%N) as Hin by (rewrite !elem_of_cons; lia).
        rewrite !elem_of_cons in Hin. destruct_or!; subst; try done. by apply not_elem_of_nil in Hin.
      * destruct (N.eqb_spec h 0); simpl; lia.
    + intros [= Ef Eb Euc Eu Eh]. split_and!; [done..| |].
      * rewrite <- Eu. destruct (underline_from_raw u); simpl; lia.
      * rewrite <- Eh. destruct (h =? 0)%N; simpl; lia.
Qed.

(** ** Views *)

Lemma slice_to_bounded {A} n (l : list A) : slice_to (n `min` length l) l = Some (take n l).
Proof.
  unfold slice_to. rewrite (proj2 (Nat.leb_le _ _)) by lia. f_equal.
  destruct (decide (n ≤ length l)); [by rewrite Nat.min_l|].
  rewrite Nat.min_r by lia. by rewrite firstn_all, take_ge by lia.
Qed.

(** [&l[start..end]] with the end cut at the length, and nothing when it is not behind the start. *)
Lemma subslice {A} start count (l : list A) :
  (let stop := (start + count) `min` length l in if stop <=? start then Some [] else slice start stop l) =
  Some (take count (drop start l)).
Proof.
  cbv zeta. unfold slice. destruct (Nat.leb_spec ((start + count) `min` length l) start) as [Hle|Hgt].
  - f_equal. symmetry. apply nil_length_inv. rewrite length_take, length_drop. lia.
  - rewrite (proj2 (Nat.leb_le start _)), (proj2 (Nat.leb_le _ (length l))) by lia. cbn [andb]. f_equal.
    rewrite skipn_firstn_comm. destruct (decide (start + count ≤ length l)).
    + by rewrite Nat.min_l, Nat.add_comm, Nat.add_sub by lia.
    + rewrite Nat.min_r by lia. rewrite !take_ge; [done|rewrite length_drop; lia..].
Qed.

(** No view into a token is out of bounds.  Whatever the numbers in a token the library
    hands over, each view is the part of its array the counts name, cut at the array's end;
    sub-parameters of a parameter that is not there are none; and the text of a token is
    there exactly when its span fits the buffer. *)
Theorem token_views_exact (t : RawToken) (buffer : list byte) (Hshape : token_shaped t) :
  intermediates t = Some (take (intermediate_count t) (token_intermediates t)) ∧
  params t = Some (take (param_count t) (token_params t)) ∧
  payload t = Some (take (payload_len t) (token_payload t)) ∧
  (∀ index, subparams index t = Some (
     if (index <? param_count t) && (index <? ANSI_MAX_PARAMS)
     then take (default 0 (subparam_count t !! index))
            (drop (default 0 (subparam_index t !! index)) (token_subparams t))
     else [])) ∧
  (N.of_nat (length buffer) ≤ usize_max →
   ∀ text, token_text buffer t = Some text ↔
     (token_offset t + token_length t ≤ N.of_nat (length buffer) ∧
      text = take (N.to_nat (token_length t)) (drop (N.to_nat (token_offset t)) buffer)))%N.
Proof.
  destruct Hshape as (Hi & Hp & Hs & Hx & Hc & Hl). unfold intermediates, params, payload.
  rewrite !slice_to_bounded. split_and!; [done..| |].
  - intros index. unfold subparams, params. rewrite slice_to_bounded. simpl. rewrite length_take, Hp.
    destruct (Nat.ltb_spec index (param_count t)) as [Hn|Hn]; cbn [andb];
      [|by rewrite (proj2 (Nat.leb_le _ _)) by lia].
    destruct (Nat.ltb_spec index ANSI_MAX_PARAMS) as [Hm|Hm]; [|by rewrite (proj2 (Nat.leb_le _ _)) by lia].
    rewrite (proj2 (Nat.leb_gt _ _)) by lia.
    destruct (lookup_lt_is_Some_2 (subparam_index t) index) as [start Hstart]; [lia|].
    destruct (lookup_lt_is_Some_2 (subparam_count t) index) as [count Hcount]; [lia|].
    rewrite Hstart, Hcount. cbn [option_bind mbind default from_option]. by rewrite subslice.
  - intros Hu text. unfold token_text. destruct (N.ltb_spec usize_max (token_offset t + token_length t)) as [|Hle].
    { split; [done|]. lia. }
    destruct (N.ltb_spec (N.of_nat (length buffer)) (token_offset t + token_length t)) as [|Hin]; [split; [done|lia]|].
    rewrite skipn_firstn_comm. replace (N.to_nat (token_offset t + token_length t) - N.to_nat (token_offset t))
      with (N.to_nat (token_length t)) by lia. naive_solver.
Qed.

Definition some_token : RawToken :=
  mkRawToken 2 3 4 "m"%char [" "%char; " "%char] 1 (replicate 16 7%Z) 2 0 (replicate 8 3%Z)
    (replicate 16 5) (replicate 16 200) (replicate 256 "p"%char) 1000 1000.

Lemma token_views_exact_witness :
  subparams 1 some_token = Some [3; 3; 3]%Z ∧ payload some_token = Some (replicate 256 "p"%char).
Proof.
  assert (token_shaped some_token) as Hshape by (vm_compute; split_and!; reflexivity).
  destruct (token_views_exact some_token [] Hshape) as (_ & _ & Hp & Hs & _).
  split; [rewrite (Hs 1)|rewrite Hp]; reflexivity.
Defined.

(** ** Writes *)

Lemma filled_length cap written : length written ≤ cap → length (filled cap written) = cap.
Proof. intros Hw. unfold filled. rewrite length_app, length_take, length_replicate. lia. Qed.

(** What [two_phase] puts behind what was there. *)
Lemma two_phase_adds native out :
  ∃ added, two_phase native out = out ++ added ∧
    (length (native (native 0).1).2 ≤ (native 0).1 → length added ≤ (native 0).1) ∧
    (∀ text, writes native text → added = text).
Proof.
  unfold two_phase. destruct (Nat.eqb_spec (native 0).1 0) as [E|E].
  { exists []. rewrite app_nil_r. split_and!; [done|simpl; lia|]. intros text Hw.
    rewrite (Hw 0) in E. simpl in E. symmetry. by apply nil_length_inv. }
  destruct (native (native 0).1) as [written text'] eqn:En. simpl.
  exists (take (written `min` (native 0).1) (filled (native 0).1 text')). split_and!.
  - by rewrite take_app_add.
  - intros Hw. rewrite length_take, filled_length by done. lia.
  - intros text Hw. rewrite (Hw 0) in E, En |- *. simpl in *. rewrite Hw in En. injection En as <- <-.
    unfold filled. rewrite !firstn_all, Nat.sub_diag, app_nil_r, Nat.min_id. apply firstn_all.
Qed.

(** What is written is appended, and nothing else.  A style's sequence, its reset and a
    stripped text go behind what the buffer holds; a library that writes a text and reports
    its length has just that text appended, and one that does not still leaves the buffer's
    bytes and adds no more than the length it asked for. *)
Theorem two_phase_exact `{AnsiLibrary} (s : Style) (text out : list byte) :
  ∀ native f, (native, f) ∈ [(supra_style_emit (style_to_raw s), emit s); (supra_style_emit_reset (style_to_raw s), emit_reset s);
      (supra_strip text, strip text)] →
  ∃ added, f out = out ++ added ∧
    (length (native (native 0).1).2 ≤ (native 0).1 → length added ≤ (native 0).1) ∧
    ∀ written, writes native written → added = written.
Proof.
  intros native f Hin. assert (f out = two_phase native out) as ->; [|apply two_phase_adds].
  rewrite !elem_of_cons in Hin. destruct Hin as [Hin|[Hin|[Hin|Hin]]]; [by simplify_eq..|by apply not_elem_of_nil in Hin].
Qed.

(** ** Iterators *)

Section iterators.
Context `{AnsiLibrary}.

(** The library moves: [ahead] is what a scanner has ahead of it in a buffer, and a token
    that is not the terminal report takes some of it. *)
Definition moves (ahead : scanner → list byte → nat) : Prop :=
  ∀ s bytes eof s' raw, supra_scan s bytes (eof_raw eof) = (s', 1%Z, raw) → terminal raw = false →
  ahead s' bytes < ahead s bytes.

Lemma tokens_end (ahead : scanner → list byte → nat) bytes eof (Hmoves : moves ahead) : ∀ fuel it,
  ahead (tokens_scanner it) bytes + 1 < fuel →
  ∃ it' l, tokens fuel bytes eof it = Some (it', l) ∧ Forall (λ t, terminal t = false) (removelast l).
Proof.
  induction fuel as [|fuel IH]; intros [s d] Hf; [lia|]. simpl in Hf |- *. unfold tokens_next. simpl.
  destruct d; [by eexists _, []|]. unfold next_token.
  destruct (supra_scan s bytes (eof_raw eof)) as [[s' produced] raw] eqn:E.
  destruct (Z.eqb_spec produced 1) as [->|]; [|by eexists _, []].
  destruct (terminal raw) eqn:Et.
  - destruct fuel as [|fuel]; [lia|]. simpl. unfold tokens_next. simpl. by eexists _, [raw].
  - pose proof (Hmoves s bytes eof s' raw E Et). destruct (IH (mkTokens s' false)) as (it' & l & -> & Hl); [simpl; lia|].
    eexists it', (raw :: l). split; [done|]. destruct l as [|t l]; [constructor|]. by constructor.
Qed.
End iterators.

(** The tokens of a buffer come to an end.  When each token of the library takes some of
    what its scanner has ahead, the iterator ends, and the report of a sequence that never
    ended is given once, as its last token. *)
Theorem tokens_exact `{AnsiLibrary} (ahead : scanner → list byte → nat) (bytes : list byte) (eof : Eof) (s : scanner)
    (Hmoves : moves ahead) :
  ∃ it l, tokens (ahead s bytes + 2) bytes eof (mkTokens s false) = Some (it, l) ∧
    Forall (λ t, terminal t = false) (removelast l).
Proof. apply (tokens_end ahead bytes eof Hmoves). simpl. lia. Qed.

(** A library that gives each byte a token. *)
Definition byte_token : RawToken :=
  mkRawToken 0 0 1 " "%char [] 0 [] 0 0 [] [] [] [] 0 0.
Definition plain_style : RawStyle :=
  mkRawStyle 0 (mkRawColor 0 0 0 0 0) (mkRawColor 0 0 0 0 0) (mkRawColor 0 0 0 0 0) 0 0.
Definition copies (text : list byte) : writer := λ cap, (length text, take cap text).

#[export] Instance byte_scanner : AnsiLibrary :=
  mkAnsiLibrary plain_style (λ _, 1%Z) (λ _, copies []) (λ _, copies []) (λ s _, (s, 0%Z)) (λ s _, (s, 0%Z)) nat 0 (λ _, 0%Z)
    (λ s bytes _, if s <? length bytes then (S s, 1%Z, byte_token) else (s, 0%Z, byte_token)) copies
    (λ bytes _, length bytes) (λ bytes max _, mkRawTruncation (max `min` length bytes) max [] 0 0 plain_style)
    (λ bytes max _ _, mkRawTruncation (max `min` length bytes) max [] 0 0 plain_style).

Lemma tokens_exact_witness :
  ∃ it l, tokens 5 (bytes "abc") Final (mkTokens (0 : scanner) false) = Some (it, l) ∧ length l = 3.
Proof.
  assert (moves (H := byte_scanner) (λ s b, length b - s)) as Hm.
  { intros s b e s' raw. simpl. destruct (Nat.ltb_spec s (length b)); [|intros [=]]. intros [= <- <-] _. lia. }
  destruct (tokens_exact (H := byte_scanner) (λ s b, length b - s) (bytes "abc") Final 0 Hm) as (it & l & E & _).
  exists it, l. split; [exact E|]. vm_compute in E. by injection E as <- <-.
Defined.

Section clusters.
Context `{WidthLibrary}.

Lemma clusters_from_spec (a : Ambiguous) : ∀ fuel rest, length rest < fuel →
  ∃ tail, concat (cluster_bytes <$> clusters_from fuel a rest) ++ tail = rest ∧
    Forall (λ c, cluster_bytes c ≠ [] ∧ ∃ from, cluster_width (cluster_bytes c ++ from) a =
                                           (cluster_cells c, length (cluster_bytes c)))
      (clusters_from fuel a rest) ∧
    (tail ≠ [] → let len := (cluster_width tail a).2 in len = 0 ∨ length tail < len).
Proof.
  induction fuel as [|fuel IH]; intros rest Hf; [lia|]. simpl. unfold clusters_next.
  case_bool_decide as He; [subst; by exists []|].
  destruct (cluster_width rest a) as [w len] eqn:Ew.
  destruct (Nat.eqb_spec len 0) as [->|Hlen]; simpl.
  { exists rest. split_and!; [done|constructor|]. intros _. rewrite Ew. by left. }
  destruct (Nat.ltb_spec (length rest) len) as [Hlt|Hle].
  { exists rest. split_and!; [done|constructor|]. intros _. rewrite Ew. by right. }
  destruct (IH (drop len rest)) as (tail & Ht & Hall & Hstop); [rewrite length_drop; lia|].
  exists tail. cbn [fmap list_fmap concat cluster_bytes]. split_and!.
  - by rewrite <- app_assoc, Ht, take_drop.
  - constructor; [|done]. cbn [cluster_bytes cluster_cells]. split.
    + intros E%(f_equal length). rewrite length_take in E. simpl in E. lia.
    + exists (drop len rest). rewrite take_drop, Ew, length_take. f_equal. lia.
  - done.
Qed.
End clusters.

(** Clusters make up the text.  Whatever the library answers, the iteration ends and the
    clusters it gives are pieces of the text, one behind the other, none of them empty, each
    as long and as wide as the library said of the text from there; it leaves a rest only
    where the library answered a length of zero or past the end. *)
Theorem clusters_exact `{WidthLibrary} (text : list byte) (a : Ambiguous) :
  ∃ tail, concat (cluster_bytes <$> clusters text a) ++ tail = text ∧
    Forall (λ c, cluster_bytes c ≠ [] ∧ ∃ from, cluster_width (cluster_bytes c ++ from) a =
                                           (cluster_cells c, length (cluster_bytes c)))
      (clusters text a) ∧
    (tail ≠ [] → let len := (cluster_width tail a).2 in len = 0 ∨ length tail < len).
Proof. apply clusters_from_spec. lia. Qed.

(** ** Probing a glyph *)

(** The text a C function reads from a buffer. *)
Definition c_string (buffer : list byte) : list byte := until_nul buffer.

Lemma until_nul_app text pad : NUL ∉ text → until_nul (text ++ NUL :: pad) = text.
Proof.
  intros Hn. unfold until_nul. assert (Prelude.position NUL (text ++ NUL :: pad) = Some (length text)) as ->.
  { induction text as [|c text IH]; cbn [Prelude.position app]; [by case_decide|].
    apply not_elem_of_cons in Hn as [Hc Hn]. case_decide; [congruence|]. by rewrite IH. }
  simpl. by rewrite take_app_length.
Qed.

(** The library is asked about one glyph only when there is one: no more than sixty-three
    bytes and none of them zero, so that the string it reads from the buffer is the glyph;
    and a glyph it finds not printable, like one it is not asked about, has no width. *)
Theorem probe_exact `{WidthLibrary} (glyph : list byte) (a : Ambiguous) (w : Width) :
  probe glyph a = Some w ↔
  (glyph ≠ [] ∧ (NUL ∉ glyph) ∧ length glyph < PROBE_MAX) ∧
  (∃ buffer, length buffer = PROBE_MAX ∧ c_string buffer = glyph ∧ buffer = probe_buffer glyph ∧
     width_from_raw (supra_width_probe buffer (ambiguous_raw a)) = w) ∧ w ≠ NonPrintable.
Proof.
  unfold probe. case_bool_decide as He; cbn [orb]; [split; [done|naive_solver]|].
  case_bool_decide as Hn; cbn [orb]; [split; [done|naive_solver]|].
  destruct (Nat.leb_spec PROBE_MAX (length glyph)) as [Hl|Hl]; [split; [done|lia]|].
  assert (length (probe_buffer glyph) = PROBE_MAX ∧ c_string (probe_buffer glyph) = glyph) as [Hlen Hc].
  { unfold probe_buffer. split; [rewrite length_app, length_replicate; lia|].
    destruct (PROBE_MAX - length glyph) as [|n] eqn:E; [lia|]. simpl. by apply until_nul_app. }
  destruct (width_from_raw _) eqn:Ew; split; try done; try (intros [= <-]; split_and!; [done..| |done]; by exists (probe_buffer glyph));
    intros (_ & (b & _ & _ & -> & <-) & Hw); rewrite Ew in Hw |- *; done.
Qed.

(** ** Descriptors *)

(** A flag that is set is read back, and nothing else changes.  On an open descriptor the
    close-on-exec flag is afterwards what was asked for, every other bit of it and every
    other descriptor is as it was; one that is not open is refused. *)
Theorem cloexec_exact (fd : Z) (cloexec : bool) (t : descriptors)
    (Hflags : ∀ fd flags, t !! fd = Some flags → (0 ≤ flags)%Z) :
  let '(t', r) := set_cloexec fd cloexec t in
  match r with
  | Ok _ =>
      cloexec_flag fd t' = Ok cloexec ∧
      ∃ flags flags', t !! fd = Some flags ∧ t' = <[fd := flags']> t ∧
        ∀ bit, bit ≠ 0%Z → Z.testbit flags' bit = Z.testbit flags bit
  | Err _ => t !! fd = None ∧ t' = t
  end.
Proof.
  unfold set_cloexec, F_GETFD. destruct (t !! fd) as [flags|] eqn:E; simpl; [|by split].
  pose proof (Hflags fd flags E) as Hge. rewrite (proj2 (Z.ltb_ge _ _)) by done.
  unfold F_SETFD. rewrite E. simpl. set (flags' := if cloexec then _ else _).
  assert ((0 ≤ flags')%Z ∧ Z.testbit flags' 0 = cloexec ∧ ∀ bit, bit ≠ 0%Z → Z.testbit flags' bit = Z.testbit flags bit)
    as (Hge' & H0 & Hbits).
  { subst flags'. unfold FD_CLOEXEC. destruct cloexec.
    - split_and!; [apply Z.lor_nonneg; lia|by rewrite Z.lor_spec, orb_comm|].
      intros bit Hb. rewrite Z.lor_spec. destruct (Z.ltb_spec bit 0); [by rewrite !Z.testbit_neg_r|].
      change 1%Z with (2 ^ 0)%Z. rewrite Z.pow2_bits_false by lia. apply orb_false_r.
    - split_and!; [apply Z.land_nonneg; lia|rewrite Z.land_spec; apply andb_false_r|].
      intros bit Hb. rewrite Z.land_spec. destruct (Z.ltb_spec bit 0); [by rewrite !Z.testbit_neg_r|].
      rewrite Z.lnot_spec by done. change 1%Z with (2 ^ 0)%Z. rewrite Z.pow2_bits_false by lia. apply andb_true_r. }
  split; [|by eexists _, _].
  unfold cloexec_flag, F_GETFD. rewrite lookup_insert_eq. simpl. rewrite (proj2 (Z.ltb_ge _ _)) by done. f_equal.
  unfold FD_CLOEXEC. change 1%Z with (Z.ones 1). rewrite Z.land_ones by lia. change (2 ^ 1)%Z with 2%Z.
  rewrite <- Z.bit0_mod, H0. by destruct cloexec.
Qed.

Lemma cloexec_exact_witness :
  cloexec_flag 3 (set_cloexec 3 true {[3%Z := 0%Z]}).1 = Ok true.
Proof.
  assert (∀ fd flags, ({[3%Z := 0%Z]} : descriptors) !! fd = Some flags → (0 ≤ flags)%Z) as Hf.
  { intros fd flags [_ <-]%lookup_singleton_Some. lia. }
  pose proof (cloexec_exact 3 true {[3%Z := 0%Z]} Hf) as Hc.
  destruct (set_cloexec 3 true {[3%Z := 0%Z]}) as [t' [[]|[]]] eqn:E; [exact (proj1 Hc)|].
  destruct Hc as [Hc _]. rewrite lookup_singleton_eq in Hc. discriminate Hc.
Defined.

(** Group one is every process that may be signalled, not the group it names. *)
Lemma group_one_is_everything : kill_process_group 1 = Some (-1)%Z.
Proof. reflexivity. Qed.

(** ** Terminals *)

(** Opening a terminal leaves both ends or nothing.  However far it gets, a failure leaves
    the descriptors of the process as they were; a success leaves the two new ones, closed on
    [exec] both, the window has the size asked for, and taking the slave away leaves just the
    master. *)
Theorem pty_open_exact (calls : PtyCalls) (wanted : PtySize) (k : Kernel)
    (Hfresh : ∀ m, openpt calls = Some m → fds k !! m = None ∧ windows k !! m = None ∧
       ∀ name s, opened calls name = Some s → s ≠ m ∧ fds k !! s = None ∧ windows k !! s = None) :
  let '(k', r) := pty_open calls wanted k in
  match r with
  | Err _ => k' = k
  | Ok p => ∃ s, slave p = Some s ∧ s ≠ master p ∧
      fds k' = <[s := FD_CLOEXEC]> (<[master p := FD_CLOEXEC]> (fds k)) ∧
      size p k' = Ok wanted ∧
      fds (take_slave p k').2 = <[master p := FD_CLOEXEC]> (fds k)
  end.
Proof.
  unfold pty_open. destruct (openpt calls) as [m|]; [|done]. destruct (Hfresh m eq_refl) as (Hm & Hw & Hs).
  assert (close_fd m (open_fd m k) = k) as Hclose.
  { destruct k as [f w]. unfold close_fd, open_fd. simpl in *. f_equal; [by apply delete_insert_id|by apply delete_id]. }
  destruct (granted calls); [|done]. destruct (unlocked calls); [|done]. simpl.
  destruct (slave_name calls) as [name|]; [|done]. case_bool_decide; [done|].
  destruct (opened calls name) as [s|] eqn:Eo; [|done]. destruct (Hs name s Eo) as (Hne & Hfs & Hws).
  unfold resize. destruct (sized calls); simpl.
  - exists s. split_and!; [done..| |].
    + unfold size. simpl. by rewrite lookup_insert_eq.
    + apply delete_insert_id. by rewrite lookup_insert_ne.
  - unfold drop_pty. simpl. rewrite <- Hclose at 2. f_equal. destruct k as [f w]. unfold close_fd, open_fd. simpl in *.
    f_equal; [apply delete_insert_id; by rewrite lookup_insert_ne|by apply delete_id].
Qed.

Definition working_terminal : PtyCalls :=
  mkPtyCalls (Some 5%Z) true true (Some (bytes "/dev/pts/0" ++ replicate 54 NUL)) (λ _, Some 6%Z) true.

Lemma pty_open_exact_witness :
  ∃ p k', pty_open working_terminal default_size (mkKernel ∅ ∅) = (k', Ok p) ∧ size p k' = Ok default_size.
Proof.
  assert (∀ m, openpt working_terminal = Some m → fds (mkKernel ∅ ∅) !! m = None ∧ windows (mkKernel ∅ ∅) !! m = None ∧
    ∀ name s, opened working_terminal name = Some s → s ≠ m ∧ fds (mkKernel ∅ ∅) !! s = None ∧ windows (mkKernel ∅ ∅) !! s = None) as Hf.
  { intros m [= <-]. simpl. split_and!; [apply lookup_empty|apply lookup_empty|]. intros name s [= <-].
    split_and!; [discriminate|apply lookup_empty|apply lookup_empty]. }
  pose proof (pty_open_exact working_terminal default_size (mkKernel ∅ ∅) Hf) as Ho.
  destruct (pty_open working_terminal default_size (mkKernel ∅ ∅)) as [k' [p|e]] eqn:E; [|vm_compute in E; discriminate E].
  destruct Ho as (s & _ & _ & _ & Hsize & _). exists p, k'. split; [reflexivity|exact Hsize].
Defined.
