(* ===== verification/Connection.v ===== *)
(** * Opening a store: [supra_store/src/lib.rs]

    The steps from a path to a migrated connection, with the modes of the directory and the
    files on the way, the pragmas a connection is given, and the transactions run on it.
    SQLite is behind what each call comes back with; the schema of the file and its
    migrations are Store.v's. *)

From S2P Require Import Prelude Text FileSystem Traced Table Ledger Store.

(** ** Options *)

Definition DEFAULT_BUSY_TIMEOUT_MS : Z := 5000.

Inductive Synchronous := Full | Normal.

Definition pragma (s : Synchronous) : string := match s with Full => "FULL" | Normal => "NORMAL" end.

Record StoreOptions := mkOptions { synchronous : Synchronous; busy_timeout_ms : Z }.

Definition default_options : StoreOptions := mkOptions Full DEFAULT_BUSY_TIMEOUT_MS.
Definition with_synchronous (s : Synchronous) (o : StoreOptions) : StoreOptions := mkOptions s (busy_timeout_ms o).
Definition with_busy_timeout_ms (ms : Z) (o : StoreOptions) : StoreOptions := mkOptions (synchronous o) ms.

(** ** The connection *)

Inductive PragmaValue := PText (s : string) | PBool (b : bool) | PInt (z : Z).

(** What opening sees and changes: the modes of the names that are there, the settings of
    the connection and the schema of the file. *)
Record World := mkWorld { modes : gmap string Z; settings : gmap string PragmaValue; schema : SchemaFile.t }.

Definition with_mode (name : string) (mode : Z) (w : World) : World :=
  mkWorld (<[name := mode]> (modes w)) (settings w) (schema w).

(** A name that is not there comes with the mode new ones get. *)
Definition appears (mode : Z) (name : string) (w : World) : World :=
  match modes w !! name with Some _ => w | None => with_mode name mode w end.

(** What the calls come back with; [umask] is the mode of a new directory and of a new file,
    [versioned] and [applied] what [migrate] is given, [sidecars] the names among the store's
    files the first writes make. *)
Record OpenIo := mkOpenIo {
  made : bool; dir_mode : Z; file_mode : Z; connected : bool; set : string → bool;
  versioned : bool; applied : Z → StepIo; sidecars : list string; chmod : string → bool }.

Definition PRIVATE_DIRECTORY : Z := 448.
Definition PRIVATE_FILE : Z := 384.

(** [set_permissions]; [Err true] is a name that is not there. *)
Definition set_permissions (io : OpenIo) (name : string) (mode : Z) : T World bool unit := λ w,
  match modes w !! name with
  | None => ([], w, Err true)
  | Some _ => if chmod io name then ([with_mode name mode w], with_mode name mode w, Ok tt) else ([], w, Err false)
  end.

Definition create_private_directory (io : OpenIo) (directory : string) : T World bool unit :=
  let! _ := lift (if made io then Ok tt else Err false) in
  let! _ := act (appears (dir_mode io) directory) in
  set_permissions io directory PRIVATE_DIRECTORY.

Definition store_files (path : string) : list string := [path; path +:+ "-wal"; path +:+ "-shm"].

(** One candidate of [ensure_private_store_files]: one that is missing is passed over. *)
Definition ensure_private (io : OpenIo) (name : string) : T World bool unit := λ w,
  match set_permissions io name PRIVATE_FILE w with
  | (states, w, Err true) => (states, w, Ok tt)
  | r => r
  end.

Fixpoint ensure_all (io : OpenIo) (names : list string) : T World bool unit :=
  match names with
  | [] => ret tt
  | name :: names => let! _ := ensure_private io name in ensure_all io names
  end.

Definition ensure_private_store_files (io : OpenIo) (path : string) : T World bool unit :=
  ensure_all io (store_files path).

(** [pragma_update] of each, in order. *)
Fixpoint pragmas (io : OpenIo) (l : list (string * PragmaValue)) : T World bool unit :=
  match l with
  | [] => ret tt
  | (name, v) :: l =>
      let! _ := lift (if set io name then Ok tt else Err false) in
      let! _ := act (λ w, mkWorld (modes w) (<[name := v]> (settings w)) (schema w)) in
      pragmas io l
  end.

Definition wanted (options : StoreOptions) (wal : bool) : list (string * PragmaValue) :=
  (if wal then [("journal_mode", PText "WAL")] else []) ++
  [("synchronous", PText (pragma (synchronous options))); ("foreign_keys", PBool true);
   ("busy_timeout", PInt (busy_timeout_ms options))].

Definition prepare (io : OpenIo) (options : StoreOptions) (wal : bool) : T World bool unit :=
  pragmas io (wanted options wal).

(** [map_err(|error| StoreError::Open { .. })]. *)
Definition as_open {A} (m : T World bool A) : T World StoreError A := λ w,
  let '(states, w, r) := m w in (states, w, map_err (λ _, OpenFailed) r).

(** [schema::migrate]; the sidecars come with the first write. *)
Definition run_migrations (io : OpenIo) : T World StoreError Z := λ w,
  let '(f, r) := migrate (versioned io) (applied io) (schema w) in
  let w := foldr (appears (file_mode io)) (mkWorld (modes w) (settings w) f) (sidecars io) in
  ([w], w, r).

(** A store is its path; its connection is the world's. *)
Definition open_with (io : OpenIo) (path : string) (options : StoreOptions) : T World StoreError string :=
  let! _ :=
    match parent path with
    | Some directory =>
        if bool_decide (directory = "") then ret tt else as_open (create_private_directory io directory)
    | None => ret tt
    end in
  let! _ := lift (if connected io then Ok tt else Err OpenFailed) in
  let! _ := act (appears (file_mode io) path) in
  let! _ := as_open (prepare io options true) in
  let! _ := run_migrations io in
  let! _ := as_open (ensure_private_store_files io path) in
  ret path.

Definition open (io : OpenIo) (path : string) : T World StoreError string := open_with io path default_options.

Definition open_in_memory (io : OpenIo) : T World StoreError string :=
  let! _ := lift (if connected io then Ok tt else Err OpenFailed) in
  let! _ := as_open (prepare io default_options false) in
  let! _ := run_migrations io in
  ret "<memory>".

(** ** Transactions *)

Section transactions.
Context {Db E A : Type} (of_sqlite : E).

(** Whether the transaction begins and commits. *)
Record TxIo := mkTxIo { begins : bool; commits : bool }.

(** [with_transaction]: what is not committed is rolled back when the transaction is dropped. *)
Definition with_transaction (io : TxIo) (work : Db → Db * result A E) (db : Db) : Db * result A E :=
  if negb (begins io) then (db, Err of_sqlite)
  else
    let '(inside, outcome) := work db in
    match outcome with
    | Err e => (db, Err e)
    | Ok a => if commits io then (inside, Ok a) else (db, Err of_sqlite)
    end.

(** One after the other: the lock of the connection is held throughout each. *)
Fixpoint transactions (l : list (TxIo * (Db → Db * result A E))) (db : Db) : Db * list (result A E) :=
  match l with
  | [] => (db, [])
  | (io, work) :: l =>
      let '(db, r) := with_transaction io work db in
      let '(db, rs) := transactions l db in (db, r :: rs)
  end.

(** What the works do that were reported as done. *)
Fixpoint committed (l : list (Db → Db * result A E)) (rs : list (result A E)) (db : Db) : Db :=
  match l, rs with
  | work :: l, r :: rs => committed l rs (if is_ok r then (work db).1 else db)
  | _, _ => db
  end.

(** What was reported done is what is there.  After any sequence of transactions on a
    store, whichever could not begin, failed in their work or in their commit, the database
    is what the works make of it that returned success, in their order, and each success is
    the work's own answer on what was there before. *)
Theorem transactions_refine (l : list (TxIo * (Db → Db * result A E))) (db : Db) :
  let '(db', rs) := transactions l db in
  db' = committed l.*2 rs db ∧ length rs = length l ∧
  ∀ i io work r, l !! i = Some (io, work) → rs !! i = Some r →
    match r with
    | Ok a => begins io = true ∧ commits io = true ∧ (work (committed (take i l.*2) (take i rs) db)).2 = Ok a
    | Err e => begins io = false ∨ commits io = false ∨
        (work (committed (take i l.*2) (take i rs) db)).2 = Err e
    end.
Proof.
  revert db. induction l as [|[io work] l IH]; intros db; simpl; [by split_and!|].
  assert (∃ r, with_transaction io work db = ((if is_ok r then (work db).1 else db), r) ∧
    match r with
    | Ok a => begins io = true ∧ commits io = true ∧ (work db).2 = Ok a
    | Err e => begins io = false ∨ commits io = false ∨ (work db).2 = Err e
    end) as (r & -> & Hr).
  { unfold with_transaction. destruct (begins io); simpl; [|exists (Err of_sqlite); split; [done|by left]].
    destruct (work db) as [inside [a|e]]; simpl; [|exists (Err e); split; [done|by right; right]].
    destruct (commits io); [by exists (Ok a)|exists (Err of_sqlite); split; [done|by right; left]]. }
  specialize (IH (if is_ok r then (work db).1 else db)).
  destruct (transactions l _) as [db' rs]. destruct IH as (-> & Hlen & Hi). simpl. split_and!; [done|by f_equal|].
  intros [|i] io' work' r' Hl Hrs; simpl in *; [by simplify_eq|]. by eapply Hi.
Qed.
End transactions.

(** ** Opening *)

Definition settings_of (l : list (string * PragmaValue)) (s : gmap string PragmaValue) : gmap string PragmaValue :=
  foldl (λ s p, <[p.1 := p.2]> s) s l.

Lemma runs_as_open {A} (I : World → Prop) (m : T World bool A) w (Q : A → World → Prop) (X : World → Prop) :
  runs I m w Q (λ _, X) → runs I (as_open m) w Q (λ e w', e = OpenFailed ∧ X w').
Proof.
  unfold runs, states, outcome, after, as_open. destruct (m w) as [[tr w'] [a|e]]; simpl; intros [HI HX]; by split.
Qed.

(** The modes of the names that a step does not set are those there were. *)
Definition same_modes (keep : string → Prop) (w w' : World) : Prop :=
  ∀ name, keep name → modes w' !! name = modes w !! name.

Lemma appears_modes mode name w other :
  modes (appears mode name w) !! other =
  (if bool_decide (other = name) then Some (default mode (modes w !! name)) else modes w !! other).
Proof.
  unfold appears, with_mode. case_bool_decide as E; [subst other|]; destruct (modes w !! name) as [m|] eqn:Em; simpl;
    rewrite ?Em, ?lookup_insert_eq, ?lookup_insert_ne by done; done.
Qed.

Lemma runs_pragmas io l : ∀ w (I : World → Prop) (Q : unit → World → Prop) (X : World → Prop),
  (∀ s, I (mkWorld (modes w) s (schema w)) ∧ X (mkWorld (modes w) s (schema w))) →
  Q tt (mkWorld (modes w) (settings_of l (settings w)) (schema w)) →
  runs I (pragmas io l) w Q (λ _, X).
Proof.
  induction l as [|[name v] l IH]; intros w I Q X HI HQ; simpl; [apply runs_ret; by destruct w|].
  apply runs_bind, runs_lift; intros ? _; [|destruct (HI (settings w)); by destruct w].
  apply runs_bind, runs_act; [apply HI|]. apply IH; [intros s; apply HI|exact HQ].
Qed.

Section opening.
Context (io : OpenIo) (path directory : string).
Hypothesis Hparent : parent path = Some directory.
Hypothesis Hnamed : directory ≠ "".

Lemma directory_not_file name : name ∈ store_files path → name ≠ directory.
Proof.
  intros Hin ->. pose proof (parent_shorter _ _ Hparent) as Hl. unfold store_files in Hin.
  rewrite !elem_of_cons in Hin. destruct Hin as [->|[->|[->|Hin]]]; [lia| | |by apply not_elem_of_nil in Hin].
  all: rewrite string_length_app in Hl; simpl in Hl; lia.
Qed.

(** A file of the store that was not there is there only in a private directory. *)
Definition hidden (w w' : World) : Prop :=
  ∀ name, name ∈ store_files path → modes w !! name = None → is_Some (modes w' !! name) →
  modes w' !! directory = Some PRIVATE_DIRECTORY.

(** From here on the directory is private. *)
Definition enclosed (w' : World) : Prop := modes w' !! directory = Some PRIVATE_DIRECTORY.

Lemma enclosed_hidden w w' : enclosed w' → hidden w w'.
Proof. by intros Hd name _ _ _. Qed.

Lemma runs_private_directory w :
  runs (hidden w) (create_private_directory io directory) w
    (λ _ w', enclosed w' ∧ settings w' = settings w ∧ schema w' = schema w) (λ _, hidden w).
Proof.
  assert (hidden w w) as Hw by (intros name _ Hn [m Hm]; congruence).
  assert (hidden w (appears (dir_mode io) directory w)) as Ha.
  { intros name Hin Hn [m Hm]. rewrite appears_modes, bool_decide_eq_false_2 in Hm by (by apply directory_not_file).
    congruence. }
  unfold create_private_directory. apply runs_bind, runs_lift; intros ? _; [|done].
  apply runs_bind, runs_act; [done|]. unfold runs, set_permissions, states, outcome, after.
  rewrite appears_modes, bool_decide_eq_true_2 by done. destruct (chmod io directory); simpl; [|by split; [constructor|]].
  assert (enclosed (with_mode directory PRIVATE_DIRECTORY (appears (dir_mode io) directory w))) as He.
  { unfold enclosed, with_mode. simpl. apply lookup_insert_eq. }
  split; [repeat constructor; by apply enclosed_hidden|]. split; [done|]. unfold appears. by destruct (modes w !! directory).
Qed.

Lemma enclosed_appears mode name w : enclosed w → enclosed (appears mode name w).
Proof. unfold enclosed. intros Hd. rewrite appears_modes. case_bool_decide; [by subst; rewrite Hd|done]. Qed.

Lemma runs_ensure_private (I : World → Prop) name w :
  directory ≠ name → enclosed w → (∀ w', enclosed w' → I w') →
  runs I (ensure_private io name) w
    (λ _ w', w' = match modes w !! name with Some _ => with_mode name PRIVATE_FILE w | None => w end) (λ _, enclosed).
Proof.
  intros Hne Hd HI. unfold runs, ensure_private, set_permissions, states, outcome, after.
  destruct (modes w !! name) as [m|] eqn:Em; simpl; [|by split; [constructor|]].
  destruct (chmod io name); simpl; [|by split; [constructor|]]. split; [|done].
  repeat constructor. apply HI. unfold enclosed, with_mode. simpl. by rewrite lookup_insert_ne.
Qed.

(** Every candidate that is there is private afterwards; what is not a candidate is as it was. *)
Lemma runs_ensure_all (I : World → Prop) names : ∀ w,
  directory ∉ names → enclosed w → (∀ w', enclosed w' → I w') →
  runs I (ensure_all io names) w
    (λ _ w', enclosed w' ∧ settings w' = settings w ∧ schema w' = schema w ∧
       (∀ name, is_Some (modes w !! name) → is_Some (modes w' !! name)) ∧
       (∀ name, name ∉ names → modes w' !! name = modes w !! name) ∧
       ∀ name m, name ∈ names → modes w' !! name = Some m → m = PRIVATE_FILE)
    (λ _, enclosed).
Proof.
  induction names as [|name names IH]; intros w Hnot Hd HI; simpl.
  { apply runs_ret. split_and!; try done. by intros ? ? ?%not_elem_of_nil. }
  apply not_elem_of_cons in Hnot as [Hne Hnot]. apply runs_bind.
  eapply (runs_mono _ I); [by apply (runs_ensure_private I)|done| |done]. intros [] w1 ->.
  set (w1 := match modes w !! name with Some _ => _ | None => _ end).
  assert (enclosed w1 ∧ settings w1 = settings w ∧ schema w1 = schema w ∧
    (∀ other, other ≠ name → modes w1 !! other = modes w !! other) ∧
    (is_Some (modes w !! name) → modes w1 !! name = Some PRIVATE_FILE) ∧
    (modes w !! name = None → modes w1 !! name = None)) as (Hd1 & Hs1 & Hc1 & Ho1 & Hn1 & Hz1).
  { subst w1. destruct (modes w !! name) as [m|] eqn:Em; unfold enclosed, with_mode; simpl; split_and!; try done.
    - by rewrite lookup_insert_ne.
    - intros other Ho. by rewrite lookup_insert_ne.
    - intros _. apply lookup_insert_eq. }
  clearbody w1. eapply (runs_mono _ I); [apply (IH w1 Hnot Hd1 HI)|done| |done].
  intros [] w' (He & Hs & Hc & Hex & Hold & Hall). split_and!; [done|congruence|congruence|..].
  - intros other Ho. apply Hex. destruct (decide (other = name)) as [->|]; [by rewrite Hn1|by rewrite Ho1].
  - intros other [Hon Hoo]%not_elem_of_cons. by rewrite Hold, Ho1.
  - intros other m Hin Hm. destruct (decide (other ∈ names)) as [?|Ho]; [by eapply Hall|].
    apply elem_of_cons in Hin as [->|]; [|done]. rewrite Hold in Hm by done.
    destruct (modes w !! name) eqn:Em; [rewrite Hn1 in Hm by done; by injection Hm|]. by rewrite Hz1 in Hm.
Qed.

Lemma runs_migrations (I : World → Prop) w :
  enclosed w → (∀ w', enclosed w' → I w') →
  runs I (run_migrations io) w
    (λ v w', enclosed w' ∧ settings w' = settings w ∧ migrate (versioned io) (applied io) (schema w) = (schema w', Ok v) ∧
       ∀ name, is_Some (modes w !! name) → is_Some (modes w' !! name))
    (λ _, enclosed).
Proof.
  intros Hd HI. unfold runs, run_migrations, states, outcome, after.
  destruct (migrate _ _ (schema w)) as [f r] eqn:E. simpl.
  set (w1 := mkWorld (modes w) (settings w) f).
  assert (∀ l, let w' := foldr (appears (file_mode io)) w1 l in
    enclosed w' ∧ settings w' = settings w ∧ schema w' = f ∧ ∀ name, is_Some (modes w !! name) → is_Some (modes w' !! name)) as Hfold.
  { induction l as [|name l (H1 & H2 & H3 & H4)]; simpl; [done|]. split_and!.
    - by apply enclosed_appears.
    - unfold appears. by destruct (modes _ !! name).
    - unfold appears. by destruct (modes _ !! name).
    - intros other Ho. rewrite appears_modes. case_bool_decide; [by eexists|by apply H4]. }
  destruct (Hfold (sidecars io)) as (H1 & H2 & H3 & H4). split; [repeat constructor; by apply HI|].
  destruct r; [|done]. by rewrite H3.
Qed.

(** What opening leaves, wherever it ends. *)
Lemma runs_open options w :
  runs (hidden w) (open_with io path options) w
    (λ p w', p = path ∧ enclosed w' ∧ (∃ v, migrate (versioned io) (applied io) (schema w) = (schema w', Ok v)) ∧
       settings w' = settings_of (wanted options true) (settings w) ∧ is_Some (modes w' !! path) ∧
       ∀ name m, name ∈ store_files path → modes w' !! name = Some m → m = PRIVATE_FILE)
    (λ _, hidden w).
Proof.
  assert (∀ w', enclosed w' → hidden w w') as HI by apply enclosed_hidden.
  unfold open_with. rewrite Hparent, bool_decide_eq_false_2 by done. apply runs_bind.
  eapply (runs_mono _ (hidden w)); [apply runs_as_open, runs_private_directory|done| |by intros ? ? [_ ?]].
  intros [] w1 (Hd1 & Hs1 & Hf1). apply runs_bind, runs_lift; intros ? _; [|by apply HI].
  set (w2 := appears (file_mode io) path w1).
  assert (enclosed w2) as Hd2 by by apply enclosed_appears.
  assert (settings w2 = settings w ∧ schema w2 = schema w ∧ is_Some (modes w2 !! path)) as (Hs2 & Hf2 & Hp2).
  { unfold w2. rewrite appears_modes, bool_decide_eq_true_2 by done. unfold appears. destruct (modes w1 !! path); by split_and!. }
  apply runs_bind, runs_act; [by apply HI|]. apply runs_bind.
  set (w3 := mkWorld (modes w2) (settings_of (wanted options true) (settings w2)) (schema w2)).
  assert (enclosed w3) as Hd3 by exact Hd2.
  enough (runs (hidden w) (as_open (prepare io options true)) w2 (λ _ w', w' = w3) (λ e w', e = OpenFailed ∧ hidden w w')) as Hp.
  2:{ apply runs_as_open, runs_pragmas; [|done]. intros s. split; by apply HI. }
  eapply (runs_mono _ (hidden w)); [exact Hp|done| |by intros ? ? [_ ?]]. intros [] ? ->. clear Hp.
  apply runs_bind. eapply (runs_mono _ (hidden w)); [apply (runs_migrations (hidden w) w3 Hd3 HI)|done| |].
  2:{ intros e w' ?. by apply HI. }
  intros v w4 (Hd4 & Hs4 & Hm4 & Hex4). apply runs_bind.
  eapply (runs_mono _ (hidden w)); [apply runs_as_open, (runs_ensure_all (hidden w)); [|exact Hd4|done]|done| |].
  - intros Hin. by apply (directory_not_file directory).
  - intros [] w' (Hd & Hs & Hf & Hex & _ & Hall). apply runs_ret. split_and!; [done|done| | |by apply Hex, Hex4|done].
    + exists v. by rewrite Hf, <- Hf2.
    + rewrite Hs, Hs4. simpl. by rewrite Hs2.
  - intros e w' [_ ?]. by apply HI.
Qed.
End opening.

(** A file of this build's schema, or an older one, is at the latest version once it is open. *)
Lemma migrated_latest read ios f f' v :
  migrate read ios f = (f', Ok v) → SchemaFile.user_version f' = latest_version ∧ v = latest_version.
Proof.
  unfold migrate. destruct (current_version read f) as [version|] eqn:Ev; [|done].
  assert (SchemaFile.user_version f = version) as <-.
  { unfold current_version in Ev. destruct read; [|done]. cbn [negb] in Ev. destruct (in_u32 _); [by injection Ev|done]. }
  change latest_version with 2%Z. destruct (Z.ltb_spec 2 (SchemaFile.user_version f)); [done|]. cbn [migrate_loop MIGRATIONS].
  destruct (apply_once (ios 1%Z) 1 (SchemaFile.user_version f) f) as [[v1 f1]|] eqn:E1; [|done].
  destruct (apply_once (ios 2%Z) 2 v1 f1) as [[v2 f2]|] eqn:E2; [|done]. intros [= <- <-].
  assert (SchemaFile.user_version f1 ≤ 2)%Z as Hle.
  { apply Migrations.apply_once_Ok in E1 as [[_ ->]|(_ & components & _ & ->)]; [done|]. cbn. lia. }
  assert (v2 = SchemaFile.user_version f2) as ->.
  { by apply (Migrations.apply_once_version (ios 2%Z) 2 v1 f1). }
  apply Migrations.apply_once_Ok in E2 as [[Hm ->]|(_ & components & _ & ->)]; cbn; [|done]. split; lia.
Qed.

(** A store is private from its first byte.  In every state that opening a path with a
    directory passes through, and wherever it ends, a file of the store that was not there
    before is there only when that directory admits its owner alone; once it is open, so is
    each of its files, the connection has the settings asked for, and the schema is the
    latest, made of the one that was there. *)
Theorem open_private (io : OpenIo) (path directory : string) (options : StoreOptions) (w : World)
    (Hparent : parent path = Some directory) (Hnamed : directory ≠ "") :
  let m := open_with io path options in
  Forall (hidden path directory w) (states m w) ∧ hidden path directory w (after m w) ∧
  (is_ok (outcome m w) = true →
     modes (after m w) !! directory = Some PRIVATE_DIRECTORY ∧ modes (after m w) !! path = Some PRIVATE_FILE ∧
     (∀ name mode, name ∈ store_files path → modes (after m w) !! name = Some mode → mode = PRIVATE_FILE) ∧
     settings (after m w) = settings_of (wanted options true) (settings w) ∧
     SchemaFile.user_version (schema (after m w)) = latest_version ∧
     (migrate (versioned io) (applied io) (schema w)).1 = schema (after m w)).
Proof.
  intros m. destruct (runs_open io path directory Hparent Hnamed options w) as [Hstates Hend].
  fold m in Hstates, Hend. split; [done|].
  destruct (outcome m w) as [p|e]; [|by split].
  destruct Hend as (_ & Hd & [v Hf] & Hs & [mode Hp] & Hall). split; [by apply enclosed_hidden|]. intros _.
  destruct (migrated_latest _ _ _ _ _ Hf) as [Hv _]. rewrite Hf. split_and!; [done| |done..].
  rewrite Hp. f_equal. apply (Hall path); [by left|done].
Qed.

Definition no_trouble : OpenIo := mkOpenIo true 493 420 true (λ _, true) true (λ _, Carried) ["/s/t.db-wal"] (λ _, true).

Lemma open_private_witness :
  modes (after (open_with no_trouble "/s/t.db" default_options) (mkWorld ∅ ∅ SchemaFile.empty)) !! "/s/t.db" = Some PRIVATE_FILE.
Proof.
  assert (parent "/s/t.db" = Some "/s") as Hp by reflexivity.
  assert ("/s" ≠ "") as Hn by discriminate.
  destruct (open_private no_trouble "/s/t.db" "/s" default_options (mkWorld ∅ ∅ SchemaFile.empty) Hp Hn) as (_ & _ & Ho).
  exact (proj1 (proj2 (Ho ltac:(vm_compute; reflexivity)))).
Defined.

(** A directory that others use is taken from them by opening a store in it. *)
Lemma shared_directory_closed :
  modes (after (open_with no_trouble "/tmp/t.db" default_options) (mkWorld {["/tmp" := 1023%Z]} ∅ SchemaFile.empty)) !! "/tmp" =
    Some PRIVATE_DIRECTORY.
Proof. vm_compute. reflexivity. Qed.
