(* ===== verification/Cli.v ===== *)
(** * The command line: [supra_cli/src/{args,slash,main,registry,startup}.rs], [supra_telemetry]

    The flags and what they resolve to, the lines of an interactive session and the loop
    that acts on them, the evaluation's live probe, where the state is kept, and the consent
    to telemetry with the counters a report carries.  The loop's prompt is not shown.  A turn of the loop is [Runtime.execute_turn_resuming],
    given as a function of the session and the task. *)

From Stdlib Require Import Ascii.
From S2P Require Import Prelude Text Sealing Utf8 Cohort Permission Canonical FileSystem Traced Config Command.
From S2P Require Import Framing Provider Sse Anthropic OpenAi Llm Checkpoint Session Economy Runtime.

(** ** Flags: [args.rs] *)

Inductive SandboxArg := SandboxOn | SandboxOff.

#[export] Instance SandboxArg_eq_dec : EqDecision SandboxArg.
Proof. solve_decision. Defined.

(** [ModeArg] is the mode of its [as_str]. *)
Definition as_str (mode : Mode) : string :=
  match mode with Plan => "plan" | Ask => "ask" | Auto => "auto" | Yolo => "yolo" end.

Record Cli := mkCli {
  ignore_project_config : bool;
  yes : bool;
  secrets_file : option string;
  mode_arg : option Mode;
  think : option N;
  sandbox : SandboxArg;
}.

Inductive CliError :=
| UnconfirmedIgnore
| UnconfirmedSandboxOff
| BadMode (text : string)
| ConfigFailed (e : ConfigError)
| NoCommand
| CommandFailed (e : CommandError)
| BadSessionId (text : list byte)
| ResumeNeedsTask
| NeedsLiveSession
| NoSaved (session : Id)
| SessionError' (e : SessionError)
| RunFailed (e : RunError)
| InputFailed
| ShapeCheckFailed
| ClientFailed (e : LlmError)
| ProbeAborted
| ProbeLost (provider : list byte) (e : LlmError).

Definition validate_cli (cli : Cli) : result unit CliError :=
  if ignore_project_config cli && negb (yes cli) then Err UnconfirmedIgnore
  else if bool_decide (sandbox cli = SandboxOff) && negb (yes cli) then Err UnconfirmedSandboxOff
  else Ok tt.

(** ** Configuration: [startup.rs] *)

Definition NOWHERE : string := "/nonexistent-supra-no-project".

Definition cli_layer (cli : Cli) : result ConfigLayer.t CliError :=
  let layer := ConfigLayer.default in
  let? permission :=
    match mode_arg cli with
    | None => Ok None
    | Some mode =>
        let? setting := ok_or (mode_setting (bytes (as_str mode))) (BadMode (as_str mode)) in
        Ok (Some (mkPermission (Some setting)))
    end in
  Ok (ConfigLayer.mk (match think cli with Some budget => Some (mkThinking (Some budget)) | None => None end)
        (ConfigLayer.cohort layer) permission (ConfigLayer.prompt layer) (ConfigLayer.providers layer)).

(** [environment] is [Loader::from_environment()]. *)
Definition cli_loader (cli : Cli) (environment : Loader.t) : result Loader.t CliError :=
  let loader :=
    if ignore_project_config cli then Loader.with_project_start NOWHERE environment else environment in
  let? layer := cli_layer cli in
  Ok (Loader.with_cli layer loader).

Definition discover_resolve (load : Loader.t → result Config.t ConfigError) (cli : Cli) (environment : Loader.t) :
    result Config.t CliError :=
  let? loader := cli_loader cli environment in
  map_err ConfigFailed (load loader).

(** ** Lines: [slash.rs] *)

Inductive Line := Slash (name args : list byte) | TaskLine (text : list byte).

Definition parse_line (line : list byte) : Line :=
  let trimmed := trim line in
  match strip_prefix (bytes "/") trimmed with
  | None => TaskLine trimmed
  | Some body =>
      let cs := chars (trim_start body) in
      let name := concat (take_while (λ ch, negb (is_white ch)) cs) in
      let args := trim (concat (drop_while (λ ch, negb (is_white ch)) cs)) in
      Slash (lower <$> name) args
  end.

Inductive Action :=
| AHelp | AExit | AClear | AMode | ASandbox | AResume (id : list byte) | ABranch | AExport
| AModel (model : option (list byte)) | ANew | ATelemetry | APermissions | ATask (task : list byte).

#[export] Instance Action_eq_dec : EqDecision Action.
Proof. solve_decision. Defined.

Definition action_of (name args : list byte) : Action :=
  if bool_decide (name = bytes "help") then AHelp
  else if bool_decide (name = bytes "exit") then AExit
  else if bool_decide (name = bytes "clear") then AClear
  else if bool_decide (name = bytes "mode") then AMode
  else if bool_decide (name = bytes "sandbox") then ASandbox
  else if bool_decide (name = bytes "resume") then AResume args
  else if bool_decide (name = bytes "branch") then ABranch
  else if bool_decide (name = bytes "export") then AExport
  else if bool_decide (name = bytes "model") then
    AModel (if bool_decide (args = []) then None else Some args)
  else if bool_decide (name = bytes "new") then ANew
  else if bool_decide (name = bytes "telemetry") then ATelemetry
  else if bool_decide (name = bytes "permissions") then APermissions
  else ATask (trim_end (bytes "/" ++ name ++ bytes " " ++ args)).

Definition dispatch (registry : Registry.t) (line : Line) : result Action CommandError :=
  match line with
  | TaskLine task => Ok (ATask task)
  | Slash name args =>
      let? command := Registry.resolve name Invoker.User Yolo registry in
      Ok (action_of (Command.name command) args)
  end.

(** ** Where state is kept: [registry.rs] *)

Definition state_dir (xdg_state_home home : option string) : option string :=
  let fallback :=
    home ← home; if bool_decide (home = "") then None else Some (join (join home ".local") "state") in
  match xdg_state_home with
  | Some value => if negb (bool_decide (value = "")) && is_absolute value then Some value else fallback
  | None => fallback
  end.

Definition session_dir (xdg_state_home home : option string) : option string :=
  base ← state_dir xdg_state_home home; Some (join (join base "supra") "sessions").

(** [wire]: the directory the sessions of a run are in. *)
Definition wired_session_dir (xdg_state_home home : option string) : string :=
  default (join ".supra" "sessions") (session_dir xdg_state_home home).

(** ** Consent: [consent.rs] *)

Inductive Consent := ConsentOff | ConsentOn.

#[export] Instance Consent_eq_dec : EqDecision Consent.
Proof. solve_decision. Defined.

Definition consent_path (directory : string) : string := join directory "telemetry-consent".
Definition consent_temp (directory : string) : string := join directory ".consent.tmp".

Definition consent_word (c : Consent) : list byte :=
  (match c with ConsentOn => bytes "on" | ConsentOff => bytes "off" end) ++ [lf].

(** [read] says whether a file that is there can be read. *)
Definition read_consent (read : bool) (directory : string) (fs : Fs.t) : result (option Consent) unit :=
  match Fs.read_name (consent_path directory) fs with
  | None => Ok None
  | Some text =>
      if negb (read && is_utf8 text) then Err tt
      else if bool_decide (trim text = bytes "on") then Ok (Some ConsentOn)
      else if bool_decide (trim text = bytes "off") then Ok (Some ConsentOff)
      else Ok None
  end.

(** What the calls of a write come back with. *)
Record ConsentIo := mkConsentIo {
  made : bool; created : bool; cut_at : option nat; synced : bool; refused : bool }.

(** [File::create]: a file that is there loses its bytes. *)
Definition create_file (name : string) : M unit N := λ fs,
  match Fs.names fs !! name with
  | Some i => ([Fs.write i [] fs], Fs.write i [] fs, Ok i)
  | None => ([with_file name [] fs], with_file name [] fs, Ok (Fs.next fs))
  end.

Definition write_consent (io : ConsentIo) (c : Consent) (directory : string) : M unit unit :=
  let! _ := lift (if made io then Ok tt else Err tt) in
  let! _ := lift (if created io then Ok tt else Err tt) in
  let! i := create_file (consent_temp directory) in
  let! _ := write_all i (consent_word c) (cut_at io) tt in
  let! _ := lift (if synced io then Ok tt else Err tt) in
  Traced.rename (consent_temp directory) (consent_path directory) (refused io) tt.

(** [wire]'s consent: an unreadable marker is no consent. *)
Definition wired_consent (read : bool) (directory : option string) (fs : Fs.t) : option Consent :=
  directory ← directory;
  match read_consent read directory fs with Ok c => c | Err _ => None end.

(** ** Reports: [report.rs] *)

Record Counters := mkCounters { turns_done : Z; tools_run : Z; cache_hits_seen : Z }.

Definition no_counters : Counters := mkCounters 0 0 0.

Inductive Counted := CTurn | CTool | CCacheHit.

#[export] Instance Counted_eq_dec : EqDecision Counted.
Proof. solve_decision. Defined.

Definition count_up (n : Z) : Z := Z.min (n + 1) u32_max.

Definition count (c : Counters) (what : Counted) : Counters :=
  match what with
  | CTurn => mkCounters (count_up (turns_done c)) (tools_run c) (cache_hits_seen c)
  | CTool => mkCounters (turns_done c) (count_up (tools_run c)) (cache_hits_seen c)
  | CCacheHit => mkCounters (turns_done c) (tools_run c) (count_up (cache_hits_seen c))
  end.

Record Report := mkReport {
  identity : Id; report_tier : Tier; report_turns : Z; report_tools : Z; report_cache_hits : Z }.

(** [fresh] is [SessionId::generate()]. *)
Definition report (fresh : Id) (tier : Tier) (c : Counters) : Report :=
  mkReport fresh tier (turns_done c) (tools_run c) (cache_hits_seen c).

(** ** The other commands: [eval_cmd], [config_cmd] *)

Section commands.
Context {Num : Type} `{JsonNumber Num}.
Context (quote : list byte → list byte) (of_u64 : N → Num) (as_u64 : Num → option N).
Context (from_str : list byte → result (Value Num) (list byte)) (header_value_ok : list byte → bool).
(** Each request's network, the process environment and the secret store. *)
Context (network : list byte → Network (Num := Num)) (env_var get : list byte → option (list byte)).

Inductive ProbeLine :=
| ProbeSkipped (provider : list byte) (e : ConfigError)
| ProbeAnswered (provider text : list byte) (usage : option Usage.t)
| ProbeFailed (provider : list byte) (e : LlmError)
| NoneConfigured.

Definition probe_request (client : Client.t) : Request.t Num :=
  Request.mk (Client.provider client) (Client.model client)
    [Message.text Role.User (bytes "Reply with exactly: live-ok")] [] (Thinking.mk 0) [].

(** One configured provider: whether the probe goes on, and the line it prints. *)
Definition probe_provider (config : Config.t) (name : list byte) : list ProbeLine * result unit CliError :=
  match provider_secret env_var get (λ text, text) name config with
  | Err e => ([ProbeSkipped name e], Ok tt)
  | Ok credential =>
      match Client.from_config config name with
      | Err e => ([], Err (ClientFailed e))
      | Ok client =>
          let n := network name in
          match (send quote of_u64 as_u64 from_str header_value_ok (post n) (create n) (create_stream n)
                   client (probe_request client) credential).2 with
          | Returns (Ok c) => ([ProbeAnswered name (trim (Completion.text c)) (Completion.usage c)], Ok tt)
          | Returns (Err e) => ([ProbeFailed name e], Err (ProbeLost name e))
          | Aborted => ([], Err ProbeAborted)
          end
      end
  end.

Fixpoint probe_all (config : Config.t) (names : list (list byte)) : list ProbeLine * result unit CliError :=
  match names with
  | [] => ([], Ok tt)
  | name :: names =>
      if bool_decide (Config.providers config !! name = None) then probe_all config names
      else
        let '(shown, r) := probe_provider config name in
        match r with
        | Err e => (shown, Err e)
        | Ok _ => let '(shown', r') := probe_all config names in (shown ++ shown', r')
        end
  end.

Definition probed : list (list byte) := [bytes "anthropic"; bytes "openai"].

Definition live_probe (config : Config.t) : list ProbeLine * result unit CliError :=
  let '(shown, r) := probe_all config probed in
  match r with
  | Err e => (shown, Err e)
  | Ok _ =>
      (if forallb (λ name, bool_decide (Config.providers config !! name = None)) probed
       then shown ++ [NoneConfigured] else shown, Ok tt)
  end.

(** [config] is what the probe's own flags resolve to. *)
Definition eval_cmd (live : bool) (config : result Config.t CliError) : list ProbeLine * result unit CliError :=
  if negb offline_shape_check then ([], Err ShapeCheckFailed)
  else if live then
    match config with Err e => ([], Err e) | Ok config => live_probe config end
  else ([], Ok tt).
End commands.

(** [Setting::ALL] with the source of each. *)
Definition config_cmd (config : Config.t) : list (list byte * ConfigSource) :=
  (λ s, (bytes (Setting.path s), Config.source_of s config)) <$> Setting.ALL.

(** ** The loop: [main.rs] *)

Record Loop := mkLoop {
  live_session : option Id;
  files : Fs.t;
  shown : list (list byte);
  (** The turns asked for: the session each ran on and its task. *)
  asked : list (option Id * list byte);
}.

Section loop.
Context {Num : Type} (registry : Registry.t) (permission_mode : Mode) (sandbox_off : bool) (consent : option Consent).
Context {V : Type} `{EqDecision V} (is_object : V → bool) (role : V → option (list byte)).
Context (codec : Codec V) (show_id : Id → string) (parse_id : list byte → option Id) (directory : string).
(** What a branch's save and a read come back with, and its fresh identifier. *)
Context (io : SaveIo.t) (read : bool) (fresh : Fs.t → Id).
Context (turn : option Id → list byte → Fs.t → Executed (Num := Num)).

Definition say (lines : list (list byte)) (s : Loop) : Loop :=
  mkLoop (live_session s) (files s) (shown s ++ lines) (asked s).

Definition with_session (session : option Id) (fs : Fs.t) (s : Loop) : Loop :=
  mkLoop session fs (shown s) (asked s).

Definition ask (task : list byte) (s : Loop) : Loop :=
  mkLoop (live_session s) (files s) (shown s) (asked s ++ [(live_session s, task)]).

Definition name_of (id : Id) : list byte := bytes (show_id id).

(** The saved session the loop is on. *)
Definition saved_session (s : Loop) : result (Id * Session) CliError :=
  let? id := ok_or (live_session s) NeedsLiveSession in
  let? found := map_err SessionError' (resume is_object role codec show_id read directory id (files s)) in
  let? saved := ok_or found (NoSaved id) in
  Ok (id, saved).

(** One action: whether the loop goes on. *)
Definition act (action : Action) (s : Loop) : Loop * result bool CliError :=
  match action with
  | AExit => (s, Ok false)
  | AHelp =>
      (say ((λ c, bytes "/" ++ Command.name c ++ ascii_of_N 9 :: Command.description c) <$>
              Registry.all registry) s, Ok true)
  | AClear => (say [ascii_of_N 27 :: bytes "[2J" ++ ascii_of_N 27 :: bytes "[H"] s, Ok true)
  | AMode | APermissions => (say [bytes "mode " ++ bytes (Mode.label permission_mode)] s, Ok true)
  | ASandbox => (say [bytes "sandbox " ++ (if sandbox_off then bytes "off" else bytes "on")] s, Ok true)
  | ATelemetry =>
      (say [bytes "telemetry " ++ match consent with Some ConsentOn => bytes "on" | _ => bytes "off" end] s,
       Ok true)
  | AModel current => (say [bytes "model " ++ default (bytes "(configured)") current] s, Ok true)
  | ANew => (say [bytes "new session"] (with_session None (files s) s), Ok true)
  | AResume text =>
      match parse_id text with
      | None => (s, Err (BadSessionId text))
      | Some id => (say [bytes "resumed " ++ name_of id] (with_session (Some id) (files s) s), Ok true)
      end
  | ABranch =>
      match saved_session s with
      | Err e => (s, Err e)
      | Ok (id, saved) =>
          let branched := branch_session (fresh (files s)) saved in
          let '(states, r) := save_session is_object role codec show_id io directory branched (files s) in
          let fs := default (files s) (last states) in
          match r with
          | Err e => (with_session (live_session s) fs s, Err (SessionError' e))
          | Ok _ =>
              (say [bytes "branched " ++ name_of id ++ bytes " -> " ++ name_of (Session.id branched)]
                 (with_session (Some (Session.id branched)) fs s), Ok true)
          end
      end
  | AExport =>
      match saved_session s with
      | Err e => (s, Err e)
      | Ok (_, saved) => (say [export_markdown show_id saved] s, Ok true)
      end
  | ATask task =>
      if is_blank task then (s, Ok true)
      else
        let e := turn (live_session s) task (files s) in
        let fs := default (files s) (last (saving e)) in
        match executed e with
        | Err error => (with_session (live_session s) fs (ask task s), Err (RunFailed error))
        | Ok r =>
            (say [bytes "session " ++ name_of (result_session r); result_answer r]
               (with_session (Some (result_session r)) fs (ask task s)), Ok true)
        end
  end.

(** Lines as they are read, [None] a failure to read one; the loop ends with the input. *)
Fixpoint repl (lines : list (option (list byte))) (s : Loop) : Loop * result unit CliError :=
  match lines with
  | [] => (s, Ok tt)
  | None :: _ => (s, Err InputFailed)
  | Some line :: lines =>
      match dispatch registry (parse_line line) with
      | Err e => (s, Err (CommandFailed e))
      | Ok action =>
          match act action s with
          | (s, Err e) => (s, Err e)
          | (s, Ok false) => (s, Ok tt)
          | (s, Ok true) => repl lines s
          end
      end
  end.

(** [run] behind its setup: one turn, or the loop. *)
Definition run_command (task : list byte) (resume_arg : option (list byte)) (lines : list (option (list byte)))
    (s : Loop) : Loop * result unit CliError :=
  match (match resume_arg with
         | None => Ok None
         | Some text => let? id := ok_or (parse_id text) (BadSessionId text) in Ok (Some id)
         end) with
  | Err e => (s, Err e)
  | Ok resumed =>
      if negb (is_blank task) then
        match act (ATask task) (with_session resumed (files s) s) with
        | (s, Err e) => (s, Err e)
        | (s, Ok _) => (s, Ok tt)
        end
      else match resumed with
           | Some _ => (s, Err ResumeNeedsTask)
           | None => repl lines s
           end
  end.

(** ** What is asked of a provider *)

(** A line that is a task: it does not start with a slash and says something. *)
Definition is_task (line : list byte) (task : list byte) : Prop :=
  task = trim line ∧ starts_with (bytes "/") task = false ∧ is_blank task = false.

(** No command of the registry is passed on as a task. *)
Definition handled : Prop :=
  ∀ name command, registry !! name = Some command → ∀ args task, action_of (Command.name command) args ≠ ATask task.

Lemma dispatched_task line task :
  handled → dispatch registry (parse_line line) = Ok (ATask task) → parse_line line = TaskLine task.
Proof.
  intros Hh. destruct (parse_line line) as [name args|text]; simpl; [|by intros [= ->]].
  intros (command & Hr & [= Ha])%result_bind_Ok. exfalso. unfold Registry.resolve in Hr.
  apply result_bind_Ok in Hr as (c & Hc & Hr). apply ok_or_Ok in Hc. case_match; [done|].
  injection Hr as ->. by apply (Hh _ _ Hc args task).
Qed.

Lemma parsed_task line task :
  parse_line line = TaskLine task → task = trim line ∧ starts_with (bytes "/") task = false.
Proof.
  unfold parse_line. destruct (strip_prefix (bytes "/") (trim line)) as [body|] eqn:E; [done|].
  intros [= <-]. split; [done|]. destruct (starts_with (bytes "/") (trim line)) eqn:Hs; [|done].
  unfold strip_prefix in E. by rewrite Hs in E.
Qed.

Lemma act_asked action s :
  asked (act action s).1 = asked s ∨
  ∃ task, action = ATask task ∧ is_blank task = false ∧ asked (act action s).1 = asked s ++ [(live_session s, task)].
Proof.
  destruct action; cbn [act]; try (by left).
  - destruct (parse_id id); by left.
  - destruct (saved_session s) as [[id saved]|e]; [|by left].
    destruct (save_session _ _ _ _ _ _ _ _) as [states [?|?]]; by left.
  - destruct (saved_session s) as [[id saved]|e]; by left.
  - destruct (is_blank task) eqn:Eb; [by left|right]. exists task. split_and!; [done|done|].
    by destruct (executed _).
Qed.

Lemma repl_asked lines s :
  handled →
  ∃ asked', asked (repl lines s).1 = asked s ++ asked' ∧
    Forall (λ p, ∃ line, Some line ∈ lines ∧ is_task line p.2) asked'.
Proof.
  intros Hh. revert s. induction lines as [|[line|] lines IH]; intros s; cbn [repl].
  1,3: exists []; by rewrite app_nil_r.
  destruct (dispatch registry (parse_line line)) as [action|e] eqn:Ed;
    [|exists []; by rewrite app_nil_r].
  assert (∃ one, asked (act action s).1 = asked s ++ one ∧
    Forall (λ p, ∃ l, Some l ∈ Some line :: lines ∧ is_task l p.2) one) as (one & Hone & Hall).
  { destruct (act_asked action s) as [Ha|(task & -> & Hb & Ha)].
    - exists []. by rewrite app_nil_r.
    - exists [(live_session s, task)]. split; [done|]. apply Forall_singleton. exists line.
      split; [by left|]. destruct (parsed_task line task) as [-> Hs]; [by apply dispatched_task|].
      by split_and!. }
  destruct (act action s) as [s' [[]|e]]; simpl in Hone |- *; [|by exists one..].
  destruct (IH s') as (rest & Hrest & Hr). exists (one ++ rest). rewrite Hrest, Hone, (assoc_L (++)).
  split; [done|]. apply Forall_app. split; [done|]. eapply Forall_impl; [exact Hr|].
  intros p (l & Hl & Ht). exists l. split; [by right|done].
Qed.
End loop.

(** ** Commands *)

(** The names the loop has an action for. *)
Definition has_action (c : Command.t) : bool :=
  existsb (λ name, bool_decide (Command.name c = name))
    (bytes <$> ["help"; "exit"; "clear"; "mode"; "sandbox"; "resume"; "branch"; "export"; "model"; "new";
      "telemetry"; "permissions"]).

Lemma has_action_handled c args task : has_action c = true → action_of (Command.name c) args ≠ ATask task.
Proof.
  unfold has_action. intros (name & Hin & Hn)%existsb_exists. apply bool_decide_eq_true in Hn. rewrite Hn.
  clear Hn. unfold fmap, list_fmap, In in Hin.
  repeat (destruct Hin as [<-|Hin]; [intros Hx; vm_compute in Hx; discriminate Hx|]). contradiction.
Qed.

Lemma builtins_have_actions :
  forallb (λ e, has_action e.2 && ToolClass.permits (Command.class e.2) Invoker.User)
    (map_to_list Registry.with_builtins) = true.
Proof. vm_compute. reflexivity. Qed.

Lemma checked_has (r : Registry.t) name command :
  forallb (λ e, has_action e.2 && ToolClass.permits (Command.class e.2) Invoker.User) (map_to_list r) = true →
  r !! name = Some command →
  has_action command = true ∧ ToolClass.permits (Command.class command) Invoker.User = true.
Proof.
  intros Hall Hc. rewrite forallb_forall in Hall. apply andb_prop, (Hall (name, command)), list_elem_of_In.
  by apply elem_of_map_to_list.
Qed.

Lemma builtin_has name command :
  Registry.with_builtins !! name = Some command →
  has_action command = true ∧ ToolClass.permits (Command.class command) Invoker.User = true.
Proof. exact (checked_has Registry.with_builtins name command builtins_have_actions). Qed.

Lemma builtins_handled : handled Registry.with_builtins.
Proof.
  intros name command Hc args task. exact (has_action_handled command args task (proj1 (builtin_has name command Hc))).
Qed.

(** C35. Only a task is ever sent to a provider.  Whatever is typed in a session and whatever
    the runs of it come back with, each run asked for is one for a line that says something
    and does not start with a slash, and it is asked for that line's text: a mistyped
    command bills nothing. *)
Theorem only_tasks_are_billed {Num V : Type} (EV : EqDecision V) permission_mode sandbox_off consent
    (is_object : V → bool) (role : V → option (list byte)) (codec : Codec V) show_id parse_id directory io read fresh
    (turn : option Id → list byte → Fs.t → Executed (Num := Num)) (lines : list (option (list byte))) (fs : Fs.t) :
  Forall (λ p, ∃ line, Some line ∈ lines ∧ is_task line p.2)
    (asked (repl Registry.with_builtins permission_mode sandbox_off consent is_object role codec show_id parse_id
              directory io read fresh turn lines (mkLoop None fs [] [])).1).
Proof.
  destruct (repl_asked Registry.with_builtins permission_mode sandbox_off consent is_object role codec show_id
    parse_id directory io read fresh turn lines (mkLoop None fs [] []) builtins_handled) as (asked' & -> & Hall).
  exact Hall.
Qed.

(** A command line finds its command.  A listed name leads to that command's own action
    with the arguments as they were typed; a name that is not listed is an error that
    names it, and never a task. *)
Theorem slash_exact (name args : list byte) :
  let typed := default name (strip_prefix (bytes "/") name) in
  (∀ command, Registry.with_builtins !! typed = Some command →
     dispatch Registry.with_builtins (Slash name args) = Ok (action_of (Command.name command) args) ∧
     ∀ task, action_of (Command.name command) args ≠ ATask task) ∧
  (Registry.with_builtins !! typed = None →
     dispatch Registry.with_builtins (Slash name args) = Err (Unknown typed)).
Proof.
  intros typed. unfold dispatch, Registry.resolve. fold typed. split.
  - intros command Hc. destruct (builtin_has typed command Hc) as [Ha Hp]. rewrite Hc. simpl. rewrite Hp. simpl.
    split; [done|]. intros task. by apply has_action_handled.
  - intros ->. done.
Qed.

Example lines_parse :
  parse_line (bytes "fix the build") = TaskLine (bytes "fix the build") ∧
  parse_line (bytes "  /HELP  ") = Slash (bytes "help") [] ∧
  parse_line (bytes "/model opus") = Slash (bytes "model") (bytes "opus") ∧
  parse_line (bytes "/") = Slash [] [] ∧ parse_line [] = TaskLine [].
Proof. vm_compute. split_and!; reflexivity. Qed.

(** One mistyped command ends the session: the lines behind it are never read. *)
Lemma typo_ends_session {Num V : Type} (EV : EqDecision V) permission_mode sandbox_off consent
    (is_object : V → bool) (role : V → option (list byte)) (codec : Codec V) show_id parse_id directory io read fresh
    (turn : option Id → list byte → Fs.t → Executed (Num := Num)) lines s :
  repl Registry.with_builtins permission_mode sandbox_off consent is_object role codec show_id parse_id
    directory io read fresh turn (Some (bytes "/resum x") :: lines) s = (s, Err (CommandFailed (Unknown (bytes "resum")))).
Proof. reflexivity. Qed.

(** Naming a model prints it and changes nothing. *)
Lemma model_never_switches {Num V : Type} (EV : EqDecision V) registry permission_mode sandbox_off consent
    (is_object : V → bool) (role : V → option (list byte)) (codec : Codec V) show_id parse_id directory io read fresh
    (turn : option Id → list byte → Fs.t → Executed (Num := Num)) model s :
  act registry permission_mode sandbox_off consent is_object role codec show_id parse_id directory io read fresh
    turn (AModel (Some model)) s = (say [bytes "model " ++ model] s, Ok true).
Proof. reflexivity. Qed.

(** ** Flags *)

(** The project's file is looked for above a directory that is not there: one at the root
    is read although it was to be skipped. *)
Lemma ignored_project_still_read :
  project_config_path (λ p, Some (bool_decide (p = "/.supra/config.toml"))) NOWHERE =
    Ok (Some "/.supra/config.toml").
Proof. vm_compute. reflexivity. Qed.

Lemma mode_setting_label m : mode_setting (bytes (as_str m)) = Some m.
Proof. by destruct m. Qed.

Lemma cli_loader_Ok cli environment loader :
  cli_loader cli environment = Ok loader →
  Loader.session loader = Loader.session environment ∧
  ∃ layer, Loader.cli loader = Some layer ∧ said_mode layer = mode_arg cli ∧ said_budget layer = think cli.
Proof.
  unfold cli_loader. intros (layer & Hl & [= <-])%result_bind_Ok.
  split; [by destruct (ignore_project_config cli)|]. exists layer. split; [done|].
  unfold cli_layer in Hl. apply result_bind_Ok in Hl as (permission & Hp & [= <-]).
  unfold said_mode, said_budget. cbn [ConfigLayer.permission ConfigLayer.thinking]. split.
  - destruct (mode_arg cli) as [m|]; [|by injection Hp as <-].
    rewrite mode_setting_label in Hp. by injection Hp as <-.
  - by destruct (think cli).
Qed.

(** The entry of the command line is the one of highest precedence when no session layer is given. *)
Lemma cli_wins {A} (said : entry → option A) layers layer v :
  NoDup layers.*1 → Config.Session ∉ layers.*1 → (Config.Cli, layer) ∈ layers → said (Config.Cli, layer) = Some v →
  latest said (merge_sort source_le layers) = Some (v, Config.Cli).
Proof.
  intros Hnd Hno Hin Hv. destruct (ordered_spec layers) as [Hs Hp].
  pose proof (latest_wins said _ Hs) as Hw. apply (wins_perm said _ layers _ Hp) in Hw.
  destruct (latest said _) as [[v' s]|]; simpl in Hw.
  - destruct Hw as (layer' & Hin' & Hv' & Hmax).
    specialize (Hmax (Config.Cli, layer) Hin (ltac:(eexists; exact Hv))). simpl in Hmax.
    assert (s = Config.Cli) as ->.
    { destruct s; simpl in Hmax; try lia; [done|]. exfalso. apply Hno, list_elem_of_fmap.
      by exists (Config.Session, layer'). }
    assert (layer' = layer) as ->; [|congruence].
    apply list_elem_of_lookup in Hin as [i Hi], Hin' as [j Hj].
    assert (i = j) as ->; [|congruence].
    apply (NoDup_lookup layers.*1 _ _ Config.Cli Hnd); by rewrite list_lookup_fmap, ?Hi, ?Hj.
  - specialize (Hw _ Hin). congruence.
Qed.

Lemma sources_of ip s o layers t : given_layer ip s o = Ok layers → t ∈ layers.*1 → t = s.
Proof.
  intros [_ Hsub]%given_layer_Ok Hin. apply (elem_of_submseteq _ _ _ Hin) in Hsub.
  by apply list_elem_of_singleton in Hsub.
Qed.

Lemma file_sources ip from_str s path text layers t :
  file_layer ip from_str s path text = Ok layers → t ∈ layers.*1 → t = s.
Proof.
  intros [_ Hsub]%file_layer_Ok Hin. apply (elem_of_submseteq _ _ _ Hin) in Hsub.
  by apply list_elem_of_singleton in Hsub.
Qed.

(** What a load has of the command line, when no session layer is given. *)
Lemma loaded_cli ip from_str calls exists_at l layers layer :
  load_layers ip from_str calls exists_at l = Ok layers →
  Loader.session l = None → Loader.cli l = Some layer →
  NoDup layers.*1 ∧ (Config.Session ∉ layers.*1) ∧ (Config.Cli, layer) ∈ layers.
Proof.
  intros Hload Hsession Hcli. pose proof Hload as Hn.
  apply load_layers_Ok in Hn as (_ & _ & _ & _ & _ & Hnd & _). split; [done|].
  unfold load_layers in Hload. rewrite Hsession, Hcli in Hload.
  apply result_bind_Ok in Hload as (user & Hu & Hload). apply result_bind_Ok in Hload as (project & Hp & Hload).
  apply result_bind_Ok in Hload as (env & _ & Hload). apply result_bind_Ok in Hload as (env' & He & Hload).
  apply result_bind_Ok in Hload as (cli & Hc & Hload). apply result_bind_Ok in Hload as (session & Hs & [= <-]).
  simpl in Hs. injection Hs as <-. rewrite app_nil_r.
  pose proof Hc as Hc'. simpl in Hc'. apply result_bind_Ok in Hc' as ([] & _ & [= <-]). split.
  - rewrite !fmap_app, !not_elem_of_app. split_and!; intros Hin.
    + unfold user_layer in Hu. destruct (Loader.user_path l); [|injection Hu as <-; by apply not_elem_of_nil in Hin].
      by pose proof (file_sources _ _ _ _ _ _ _ Hu Hin).
    + unfold project_layer in Hp. destruct (Loader.project_start l);
        [|injection Hp as <-; by apply not_elem_of_nil in Hin].
      apply result_bind_Ok in Hp as ([path|] & _ & Hp); [|injection Hp as <-; by apply not_elem_of_nil in Hin].
      by pose proof (file_sources _ _ _ _ _ _ _ Hp Hin).
    + by pose proof (sources_of _ _ _ _ _ He Hin).
    + apply list_elem_of_singleton in Hin. done.
  - rewrite !elem_of_app. right. right. right. by left.
Qed.

(** A flag is what is in force.  Where a command line names a mode, the mode the program
    runs with comes from it - or is a stricter one the project asks for - and a thinking
    budget it names is the budget; and it is only acted on when an override of the project's
    configuration or of the sandbox was confirmed. *)
Theorem flags_in_force ip from_str calls exists_at (cli : Cli) (environment : Loader.t) (c : Config.t)
    (Hsession : Loader.session environment = None)
    (Hload : discover_resolve (Config.load ip from_str calls exists_at) cli environment = Ok c) :
  (∀ m, mode_arg cli = Some m →
     Config.permission_mode c = m ∧ Config.source_of PermissionMode c = Config.Cli ∨
     strictness m < strictness (Config.permission_mode c) ∧ Config.source_of PermissionMode c = Project) ∧
  (∀ budget, think cli = Some budget →
     Config.thinking_budget c = budget ∧ Config.source_of Config.ThinkingBudget c = Config.Cli) ∧
  (validate_cli cli = Ok tt ↔
     yes cli = true ∨ ignore_project_config cli = false ∧ sandbox cli = SandboxOn).
Proof.
  unfold discover_resolve in Hload. apply result_bind_Ok in Hload as (loader & Hl & Hc).
  destruct (cli_loader_Ok _ _ _ Hl) as (Hs & layer & Hcli & Hmode & Hthink). rewrite Hsession in Hs.
  apply map_err_Ok in Hc. unfold Config.load in Hc. apply result_bind_Ok in Hc as (layers & Hlayers & [= <-]).
  destruct (loaded_cli _ _ _ _ _ _ _ Hlayers Hs Hcli) as (Hnd & Hno & Hin).
  destruct (resolve_spec layers Hnd) as (Hb & _ & Hm & _). cbv zeta in Hb, Hm.
  set (c := resolve layers) in *. clearbody c. split_and!.
  - intros m Hm'. rewrite Hm' in Hmode.
    rewrite (cli_wins operator_mode layers layer m Hnd Hno Hin Hmode) in Hm. simpl in Hm.
    unfold tightened in Hm. destruct (project_mode layers) as [p|]; [|left; exact (conj (f_equal fst Hm) (f_equal snd Hm))].
    destruct (Nat.ltb_spec (strictness (m, Config.Cli).1) (strictness p)) as [Hlt|]; simpl in Hm.
    + right. split; [by rewrite (f_equal fst Hm : Config.permission_mode c = p)|exact (f_equal snd Hm)].
    + left. exact (conj (f_equal fst Hm) (f_equal snd Hm)).
  - intros budget Hbudget. rewrite Hbudget in Hthink.
    rewrite (cli_wins (λ e, said_budget e.2) layers layer budget Hnd Hno Hin Hthink) in Hb.
    simpl in Hb. exact (conj (f_equal fst Hb) (f_equal snd Hb)).
  - unfold validate_cli. destruct (ignore_project_config cli), (yes cli), (sandbox cli); simpl; naive_solver.
Qed.

Definition some_flags : Cli := mkCli false false None (Some Plan) (Some 9%N) SandboxOn.

Lemma flags_in_force_witness :
  ∃ c, discover_resolve (Config.load (λ _, true) (λ _, Ok ConfigLayer.default) (λ _, mkFileCalls Absent Absent None None) (λ _, Some false))
         some_flags Loader.isolated = Ok c ∧
    Config.thinking_budget c = 9%N ∧ validate_cli some_flags = Ok tt.
Proof.
  destruct (discover_resolve _ some_flags Loader.isolated) as [c|e] eqn:E; [|vm_compute in E; discriminate].
  destruct (flags_in_force (λ _, true) (λ _, Ok ConfigLayer.default) (λ _, mkFileCalls Absent Absent None None) (λ _, Some false)
    some_flags Loader.isolated c eq_refl E) as (_ & Hb & Hv).
  exists c. split; [reflexivity|]. split; [exact (proj1 (Hb 9%N eq_refl))|].
  apply Hv. right. split; reflexivity.
Defined.

(** ** Consent *)

Section consent.
Context (directory : string) (c : Consent).

Abbreviation marker := (consent_path directory).
Abbreviation temp := (consent_temp directory).

Lemma marker_not_temp : marker ≠ temp.
Proof. intros H%join_inj. discriminate H. Qed.

(** The temporary name is this file's alone: it has bytes, and no other name. *)
Definition own_file (i : N) (fs : Fs.t) : Prop :=
  Fs.names fs !! temp = Some i ∧ is_Some (Fs.inodes fs !! i) ∧ Fs.names fs !! marker ≠ Some i.

Lemma write_reads_marker i bytes fs :
  Fs.names fs !! marker ≠ Some i → Fs.read_name marker (Fs.write i bytes fs) = Fs.read_name marker fs.
Proof.
  intros Hne. unfold Fs.read_name, Fs.write. simpl. destruct (Fs.names fs !! marker) as [j|]; [|done]. simpl.
  by rewrite lookup_alter_ne by congruence.
Qed.

Lemma write_own i bytes fs : own_file i fs → own_file i (Fs.write i bytes fs).
Proof.
  intros (Hn & [f Hf] & Hm). split_and!; [done| |done]. unfold Fs.write. simpl.
  rewrite lookup_alter_eq, Hf. by eexists.
Qed.

Lemma write_holds i bytes fs : own_file i fs → Fs.read_name temp (Fs.write i bytes fs) = Some bytes.
Proof.
  intros (Hn & [f Hf] & Hm). unfold Fs.read_name, Fs.write. simpl. rewrite Hn. simpl.
  by rewrite lookup_alter_eq, Hf.
Qed.

Lemma rename_holds i fs fs' :
  own_file i fs → Fs.rename temp marker fs = Some fs' → Fs.read_name marker fs' = Fs.read_name temp fs.
Proof.
  intros (Hn & _ & _). unfold Fs.rename, Fs.read_name. rewrite Hn. intros [= <-]. simpl.
  by rewrite lookup_insert_eq.
Qed.

(** The consent read is the old one, and the temporary name is this file's alone. *)
Definition kept (fs fs' : Fs.t) : Prop := Fs.read_name marker fs' = Fs.read_name marker fs.

Lemma created_own fs :
  (∀ i, Fs.names fs !! temp = Some i → own_file i fs) →
  ∃ i fs1, create_file (temp : string) fs = ([fs1], fs1, Ok i) ∧ own_file i fs1 ∧ kept fs fs1.
Proof.
  intros Hown. unfold create_file. destruct (Fs.names fs !! temp) as [i|] eqn:Et.
  - eexists i, _. split; [done|]. split; [by apply write_own, Hown|]. apply write_reads_marker.
    by destruct (Hown i eq_refl) as (_ & _ & ?).
  - eexists _, _. split; [done|]. split.
    + split_and!; unfold with_file; simpl; [by rewrite lookup_insert_eq|by rewrite lookup_insert_eq; eexists|].
      rewrite lookup_insert_ne by (intros E; by apply marker_not_temp).
      intros E. by apply (next_fresh_name _ _ _ E).
    + unfold kept. apply read_with_other. apply marker_not_temp.
Qed.

Lemma write_runs (I : Fs.t → Prop) i text failed e fs (Q : unit → Fs.t → Prop) (X : unit → Fs.t → Prop) :
  (∀ part, I (Fs.write i part fs) ∧ X e (Fs.write i part fs)) → Q tt (Fs.write i text fs) →
  runs I (write_all i text failed e) fs Q X.
Proof.
  intros Hpart HQ. unfold runs, write_all, states, outcome, after. simpl fst. simpl snd. split.
  - change (Forall I ((λ n, Fs.write i (take n text) fs) <$> seq 0 (S (default (length text) failed)))).
    apply Forall_fmap, Forall_forall. intros n _. apply Hpart.
  - destruct failed as [n|]; [apply Hpart|]. simpl. by rewrite firstn_all.
Qed.

Lemma rename_runs (I : Fs.t → Prop) old target refused e fs (Q : unit → Fs.t → Prop) (X : unit → Fs.t → Prop) :
  X e fs → (∀ fs', Fs.rename old target fs = Some fs' → I fs' ∧ Q tt fs') →
  runs I (Traced.rename old target refused e) fs Q X.
Proof.
  intros HX HQ. unfold runs, states, outcome, after, Traced.rename.
  destruct refused; [by split|]. destruct (Fs.rename old target fs) as [fs'|]; [|by split].
  destruct (HQ fs' eq_refl). by split; [repeat constructor|].
Qed.

Lemma consent_runs io fs :
  (∀ i, Fs.names fs !! temp = Some i → own_file i fs) →
  runs (λ fs', kept fs fs' ∨ Fs.read_name marker fs' = Some (consent_word c)) (write_consent io c directory) fs
    (λ _ fs', Fs.read_name marker fs' = Some (consent_word c)) (λ _ fs', kept fs fs').
Proof.
  intros Hown. unfold write_consent. set (I := λ fs', _ ∨ _).
  apply runs_bind, runs_lift; [intros _ _|by intros _ _]. apply runs_bind, runs_lift; [intros _ _|by intros _ _].
  apply runs_bind. destruct (created_own fs Hown) as (i & fs1 & Hc & Ho1 & Hk1).
  enough (runs I (create_file (temp : string)) fs (λ j fs', j = i ∧ fs' = fs1) (λ _ _, False)) as Hcreate.
  { eapply runs_mono; [exact Hcreate|done| |done]. intros j fs' [-> ->]. clear Hcreate Hc.
    assert (∀ part, kept fs (Fs.write i part fs1)) as Hw.
    { intros part. unfold kept. rewrite write_reads_marker; [done|apply Ho1]. }
    apply runs_bind, write_runs; [intros part; split; [by left|apply Hw]|].
    apply runs_bind, runs_lift; [intros _ _|intros _ _; apply Hw].
    apply rename_runs; [apply Hw|]. intros fs2 Hr.
    assert (Fs.read_name marker fs2 = Some (consent_word c)) as Hread.
    { rewrite (rename_holds i _ _ (write_own i _ _ Ho1) Hr). by apply write_holds. }
    split; [by right|done]. }
  unfold runs, states, outcome, after. rewrite Hc. split; [apply Forall_singleton; by left|done].
Qed.

Lemma read_by_name fs fs' :
  Fs.read_name marker fs' = Fs.read_name marker fs → read_consent true directory fs' = read_consent true directory fs.
Proof. intros E. unfold read_consent. by rewrite E. Qed.

Lemma read_written fs :
  Fs.read_name marker fs = Some (consent_word c) → read_consent true directory fs = Ok (Some c).
Proof. intros E. unfold read_consent. rewrite E. by destruct c. Qed.
End consent.

(** Consent is never half written.  In every state a write passes through, wherever it is
    cut off, the consent that is read is the one there was or the new one; a write that
    succeeds is read back, and one that fails changed nothing. *)
Theorem consent_durable (io : ConsentIo) (c : Consent) (directory : string) (fs : Fs.t)
    (Htemp : ∀ i, Fs.names fs !! consent_temp directory = Some i → own_file directory i fs) :
  let m := write_consent io c directory in
  (∀ fs', fs' ∈ states m fs →
     read_consent true directory fs' = read_consent true directory fs ∨
     read_consent true directory fs' = Ok (Some c)) ∧
  match outcome m fs with
  | Ok _ => read_consent true directory (after m fs) = Ok (Some c)
  | Err _ => read_consent true directory (after m fs) = read_consent true directory fs
  end.
Proof.
  intros m. destruct (consent_runs directory c io fs Htemp) as [Hstates Hend]. fold m in Hstates, Hend. split.
  - intros fs' Hin. rewrite Forall_forall in Hstates.
    destruct (Hstates fs' Hin) as [H|H]; [left; by apply read_by_name|right; by apply read_written].
  - destruct (outcome m fs); [by apply read_written|by apply read_by_name].
Qed.

Definition smooth : ConsentIo := mkConsentIo true true None true false.

Lemma consent_durable_witness :
  read_consent true "/s" (after (write_consent smooth ConsentOn "/s") Fs.empty) = Ok (Some ConsentOn).
Proof.
  assert (∀ i, Fs.names Fs.empty !! consent_temp "/s" = Some i → own_file "/s" i Fs.empty) as Ht.
  { intros i Hi. unfold Fs.empty in Hi. simpl in Hi. rewrite lookup_empty in Hi. discriminate Hi. }
  exact (proj2 (consent_durable smooth ConsentOn "/s" Fs.empty Ht)).
Defined.

(** ** Reports *)

Lemma counters_fold ops :
  foldl count no_counters ops =
    mkCounters (Z.min (Z.of_nat (length (List.filter (λ o, bool_decide (o = CTurn)) ops))) u32_max)
      (Z.min (Z.of_nat (length (List.filter (λ o, bool_decide (o = CTool)) ops))) u32_max)
      (Z.min (Z.of_nat (length (List.filter (λ o, bool_decide (o = CCacheHit)) ops))) u32_max).
Proof.
  induction ops as [|o ops IH] using rev_ind; [done|].
  rewrite foldl_app, IH, !List.filter_app, !length_app. cbn [foldl].
  destruct o; cbn [count turns_done tools_run cache_hits_seen List.filter]; unfold count_up, u32_max;
    f_equal; cbv beta; repeat case_bool_decide; try discriminate; try congruence; simpl; lia.
Qed.

(** A report says how much, and nothing else.  Whatever a session counts, its report
    carries the numbers of turns, tools and cache hits, each up to the bound of a [u32], the
    tier, and an identifier that is the fresh one it is given. *)
Theorem report_exact (fresh : Id) (tier : Tier) (ops : list Counted) :
  let n what := Z.min (Z.of_nat (length (List.filter (λ o, bool_decide (o = what)) ops))) u32_max in
  report fresh tier (foldl count no_counters ops) = mkReport fresh tier (n CTurn) (n CTool) (n CCacheHit).
Proof. intros n. by rewrite counters_fold. Qed.

(** ** Probes *)

Section probes.
Context {Num : Type} `{JsonNumber Num}.
Context (quote : list byte → list byte) (of_u64 : N → Num) (as_u64 : Num → option N).
Context (from_str : list byte → result (Value Num) (list byte)) (header_value_ok : list byte → bool).
Context (network : list byte → Network (Num := Num)) (env_var get : list byte → option (list byte)).

(** Where there is a credential, there is a client for it and the probe is answered. *)
Definition answers (config : Config.t) (name : list byte) : Prop :=
  ∀ credential, provider_secret env_var get (λ text, text) name config = Ok credential →
  ∃ client c, Client.from_config config name = Ok client ∧
    let n := network name in
    (send quote of_u64 as_u64 from_str header_value_ok (post n) (create n) (create_stream n)
       client (probe_request client) credential).2 = Returns (Ok c).

Abbreviation provider_probe := (probe_provider quote of_u64 as_u64 from_str header_value_ok network env_var get).
Abbreviation all_probes := (probe_all quote of_u64 as_u64 from_str header_value_ok network env_var get).

Lemma probe_provider_Ok config name : (provider_probe config name).2 = Ok tt ↔ answers config name.
Proof.
  unfold probe_provider, answers. destruct (provider_secret _ _ _ name config) as [key|e]; [|naive_solver].
  destruct (Client.from_config config name) as [client|e]; [|split; [done|]; intros Hk; destruct (Hk key eq_refl); naive_solver].
  cbv zeta. destruct ((send _ _ _ _ _ _ _ _ client _ key).2) as [[c|e]|] eqn:E; simpl; split; intros Hk; try done.
  - intros k [= <-]. by exists client, c.
  - destruct (Hk key eq_refl) as (client' & c & [= <-] & Hc). rewrite E in Hc. discriminate Hc.
  - destruct (Hk key eq_refl) as (client' & c & [= <-] & Hc). rewrite E in Hc. discriminate Hc.
Qed.

Lemma probe_all_Ok config names :
  (all_probes config names).2 = Ok tt ↔
  ∀ name, name ∈ names → is_Some (Config.providers config !! name) → answers config name.
Proof.
  induction names as [|name names IH]; [split; [intros _ ? Hin; by apply not_elem_of_nil in Hin|done]|].
  simpl. rewrite <- (Forall_forall (λ n, is_Some (Config.providers config !! n) → answers config n)) in IH |- *.
  rewrite Forall_cons, <- IH. case_bool_decide as Hc.
  - rewrite Hc. split; [intros Hr; split; [by intros []|done]|by intros [_ ?]].
  - pose proof (probe_provider_Ok config name) as Hp. destruct (provider_probe config name) as [shown [[]|e]].
    + destruct (all_probes config names) as [shown' r']. simpl in Hp |- *. split; [intros Hr|by intros [_ ?]].
      split; [intros _; by apply Hp|done].
    + simpl in Hp |- *. split; [done|]. intros [Ha _]. apply Hp, Ha. by apply not_eq_None_Some.
Qed.

(** An evaluation passes exactly when it is asked for no probe, or each of the two
    providers that is configured and has a credential gives an answer. *)
Theorem eval_exact (live : bool) (config : result Config.t CliError) :
  (eval_cmd quote of_u64 as_u64 from_str header_value_ok network env_var get live config).2 = Ok tt ↔
  live = false ∨ ∃ c, config = Ok c ∧
    ∀ name, name ∈ probed → is_Some (Config.providers c !! name) → answers c name.
Proof.
  unfold eval_cmd. assert (offline_shape_check = true) as -> by (vm_compute; reflexivity).
  destruct live; simpl; [|naive_solver]. destruct config as [c|e]; [|naive_solver].
  pose proof (probe_all_Ok c probed) as Hp. unfold live_probe.
  destruct (all_probes c probed) as [shown [[]|e]]; simpl in Hp |- *; naive_solver.
Qed.
End probes.
